(* ===== verification/_CoqProject ===== *)
-Q . S2P
Prelude.v
Varint.v
Cursor.v
Model.v
Output.v
Records.v
Contexts.v
Reader.v
Writer.v
Stream.v
Snapshot.v
Tables.v
Simulation.v
Interning.v
Recording.v
RoundTrip.v
Failure.v
Recovery.v
Robust.v
ModuleIndex.v
ModuleTable.v
AddressSpace.v
TableOps.v
TableMap.v
Mappings.v
Session.v
X86Regs.v
X86Rules.v
X86Unwind.v
RuleCache.v
Aarch64.v
X86Analysis.v
Sorter.v
SampleStack.v
Dwarf.v
X86Dwarf.v
FdeIndex.v
SortedKeys.v
Kallsyms.v
KernelTables.v
Unwinder.v
CachedUnwind.v
UnwindModules.v
Aarch64Dwarf.v
Trace.v
Replay.v
Tail.v
Tailing.v
Live.v
RingBuffer.v
RingUse.v
PerfSample.v
SampleRecords.v
PerfEvents.v
PerfOpen.v
PerfBudget.v
Text.v
ProcMaps.v
PythonNames.v
ProcFs.v
ProcessHandle.v
ProcessTable.v
Lifecycle.v
LifeTrack.v
Drain.v
DrainMarks.v
Control.v
Fate.v
PerfMap.v
ElfBase.v
ElfImages.v
ElfCache.v
Discovery.v
JitProtocol.v
JitRegistry.v
DescriptorSearch.v
JitRanges.v
JitBudget.v
JitFrames.v
ProcessUnwinder.v
