(* ===== verification/Prelude.v ===== *)
(** * StackPulse: a verification library

    StackPulse records the call stacks of running Linux processes into a spool
    file and reads them back, also while the recording is still being made.
    This library models its core and proves that what a reader shows is what
    the kernel captured.

    ** The program and its parts

    A recording flows through these parts, each modelled in the files named:

    - The kernel writes perf records into ring buffers, one per CPU.
      [src/linux/perf_event.rs] and [src/linux/perf_group.rs] size and open the
      rings and their events within a shared budget (PerfOpen, PerfBudget);
      [src/linux/ring_buffer.rs] and [src/linux/aligned_bytes.rs] hand records
      out of a ring and give its storage back (RingBuffer, RingUse);
      [src/linux/perf_event.rs] parses samples, keeps their layout and walks call
      chains (PerfSample, SampleRecords, PerfEvents).
    - [src/linux/sorter.rs], driven by the drain rounds of
      [src/linux/perf_group.rs], merges the rings in timestamp order (Sorter).
    - [src/linux/unwind/sample.rs] builds the stack of a sample from its call
      chain and by unwinding the captured registers and stack bytes
      (SampleStack).  It sees the unwinder through the class
      [UnwinderWithDetails].  [src/linux/convert_regs.rs] converts the captured
      registers (X86Regs; [PerfRegs] are the kernel's register numbers).
    - [crates/framehop-stackpulse/src] unwinds: register files and orderings
      (X86Regs), unwind rules and their execution (X86Rules, X86Unwind), rules
      guessed from machine code (X86Analysis), the rule cache (RuleCache); rows
      of DWARF unwind tables (Dwarf, X86Dwarf) and the search of those tables
      (FdeIndex); the unwinder with its modules and the cache that processes
      share (Unwinder, CachedUnwind, UnwindModules).  Aarch64 and Aarch64Dwarf
      are the same for the other architecture, with pointer authentication.
    - [src/spool/modules.rs] tracks which files are mapped where in every
      process (ModuleIndex, ModuleTable; its meaning as address spaces in
      AddressSpace, TableOps, TableMap, Mappings).  It
      writes to a sink, the class [ModuleSink]; [LoggedSink] is what a sink must
      promise for the table's theorems.
    - [src/linux/mod.rs] resolves the frames of a stack against that table and
      writes the sample (Session joins table, writer and reader).
    - [src/linux/mod.rs] and [src/linux/module_tracking.rs] also follow the
      processes.  The recorder learns of mappings from [/proc] maps (ProcMaps),
      of descendants from [src/children.rs] (ProcFs), of Python runtimes from
      file names and command lines in [src/lib.rs] (PythonNames); it holds a
      process by a pidfd and stops it while attaching ([src/state.rs],
      [src/linux/attach.rs]; ProcessHandle).  The table of processes
      (ProcessTable), the records that are no samples (Lifecycle; its meaning in
      LifeTrack and DrainMarks), a drain with retirement and recovery (Drain) and
      the operations of the caller with the failure that ends a recording
      (Control, Fate) are built on each other.  Their interfaces are
      classes: [Kernel] for system calls, [ProcessUnwinders] for the unwinder of
      a process, [PerfCalls] for the perf group, [HashOrder] for the order of a
      hash map, [RecorderSink] and [SpoolControl] for the writer, the last two
      with the spool writer as instance; [RecorderLog], [PythonLog], [SignalLog]
      and [SteadyClock] are what theorems ask of them.
      [src/linux/unwind.rs] keeps the unwind tables of a process: it is the
      instance [process_unwinders] of [ProcessUnwinders] (ProcessUnwinder), built
      on the unwinder's modules, the cache of ELF sections and the JIT recorder.
    - [src/native_module.rs] and [src/elf] open the files of mappings and keep
      their images (ElfImages, ElfCache); [src/module_base.rs] and
      [crates/stackpulse-elf] find the load bias of a mapping (ElfBase).
    - [crates/stackpulse-jit] reads what a runtime registers with the GDB JIT
      interface in the memory of the process (JitProtocol) and keeps a registry
      of it (JitRegistry; its invariants in JitRanges and JitBudget).  The
      descriptor is the symbol [__jit_debug_descriptor], which Discovery looks up
      in the hash tables and the symbol tables of an image and DescriptorSearch
      in all images of a process, with a cache; the class [Goblin] stands for the
      ELF reader of the goblin crate and [GoblinReads] for what is asked of it.
      [src/linux/jit/mod.rs] records the registry's objects as pinned modules
      and attributes frames to them (JitFrames).
    - [src/symbolize] and [src/profile.rs] name frames: kernel symbol tables
      (SortedKeys, Kallsyms, KernelTables), resolved frames and perf maps (Text,
      PerfMap).
    - [src/spool/mod.rs], [src/spool/model.rs], [src/spool/jit.rs] and
      [src/identity.rs] are the spool: varints and cursor (Varint, Cursor), data
      model (Model), output (Output), record payloads (Records), frame-to-module
      contexts (Contexts), reader (Reader) and writer (Writer).  Stream, Snapshot
      and Tables say what record streams mean to a reader; Simulation, Interning,
      Recording and RoundTrip relate the writer to it; Recovery, Failure and
      Robust are about whole files, failing writers and arbitrary bytes.
    - [src/spool/mod.rs] also replays a spool sample by sample (Replay),
      [src/spool/tail.rs] follows a growing one (Tail, Tailing) and
      [src/spool/live.rs] reads a recording that is still running (Live);
      Trace carries the comparison of these readers.

    ** How code is modelled

    Definitions carry the names of the source where Rocq allows it.  A method
    with a [&mut] receiver that returns [io::Result] is a function of the monad
    [io] below: the state is kept on the error path.  Error kinds are kept and
    messages dropped.  A failed [expect], an index out of bounds or a failed
    [debug_assert!] is the error [Panicked] or [None], never a default value.
    Machine integers are [Z] with their checks, saturation and wrap-around
    written out; bytes are [Z] in lists.  Hash maps whose order is not observed
    are [gmap]s, a [BTreeSet] is a [gset] read in order.  Where state is shared
    (the ring mapping, a file and its mapping, the published state of a live
    recording) there is one copy of it in the state, and the interleaving of
    its users is an explicit sequence of steps.

    Code outside the repository is a parameter: the varint crate ([VarIntCrate]
    with the documented format [VarIntLaws]; [integer_encoding] is an instance),
    sinks ([Write], [ReliableSink]), the perf-event-open parser, the kernel
    ([kernel_publishes] in RingUse, the environment of PerfOpen), stack memory,
    the reader of DWARF expressions and the ELF parser.  What the running
    process, the file system and the clock answer is given with each call (the
    worlds of ElfCache, JitRegistry and JitFrames), so theorems hold for every
    answer.

    ** What is proved

    - End to end.  [Session.recorded_session_reads_back]: every sample of a
      recording session is read back with the file that was mapped at each frame
      when it was taken.  [Recovery.recording_roundtrip],
      [recording_crash_recovery] and [recording_accepted]: the round trip of the
      spool, the same for a file cut anywhere, and that the writer accepts
      everything until an id space is exhausted.
      [PerfEvents.drained_sample_reads_as_captured]: from the kernel's bytes to
      the values a sample is unwound from, however long it is held.
    - Readers agree.  [Tailing.tail_drains_to_the_snapshot],
      [Replay.replay_shows_the_snapshot], [Live.live_reader_shows_the_recording]
      and [Stream.open_and_tail_dispatch_agree]: tail, replay and live reader
      show what [Snapshot::open] shows; [Tailing.tail_batches_are_bounded]
      bounds a batch.  [Robust.open_spool_robust]: on arbitrary bytes opening
      terminates, does not panic, and accepts only tables in which later lookups
      succeed.
    - Module tracking.  [Mappings.module_table_implements_address_space],
      [resolve_frame_follows_mappings], [process_modules_match_sound],
      [ModuleIndex.module_index_finds_newest],
      [Contexts.frame_module_lookup_is_scan], [Tables.records_extend_tables],
      [frame_mapping_is_stable].
    - Capture.  [RingUse.ring_samples_keep_their_records],
      [ring_delivers_records_in_order], [ring_storage_is_returned];
      [PerfBudget.ring_budget_is_kept], [opened_event_is_as_reported];
      [SampleRecords.call_chain_yields_every_segment];
      [Sorter.merged_events_are_ordered], [sorter_holds_two_rounds];
      [SampleStack.sample_stack_has_shape], [retried_stack_starts_over].
    - Processes.  [LifeTrack.recorder_follows_address_spaces]: handling mmap,
      fork, exec and loss records keeps the module table and the log in step
      with address spaces; [reconciled_process_has_its_maps]: after lost records
      a process has the mappings of its maps file.
      [DrainMarks.python_marks_follow_processes]: through drains, the Python
      marks of the spool are those of the process states.
      [ProcessHandle.stop_is_undone], [stopping_ends]: every SIGSTOP is followed
      by one SIGCONT on every path, and both ends come.
      [ProcessUnwinder.unwinders_follow_mappings]: the unwind tables of a process
      are those of its current mappings, unless a fork finds mappings of its
      child ([stale_fragment_stays_after_fork] shows what happens then).
      [Fate.reader_is_told_the_fate]: flushed lengths only, one failure, and how
      the recording ended.  [ProcMaps.printed_maps_parse_back],
      [ProcFs.descendants_are_discovered], [PythonNames.python_module_names]
      are about the texts all this is read from.
    - Unwinding.  [X86Unwind.unwinding_stops], [exec_makes_progress],
      [sequence_rule_runs_the_sequence], [dwarf_row_recovers_registers],
      [register_rules_unpack]; [X86Analysis.epilogue_rule_runs_the_epilogue],
      [prologue_rule_counts_pushes]; [X86Regs.register_ordering_roundtrip];
      [RuleCache.rule_cache_hits_are_last_inserts].
      [X86Regs.captured_registers_are_converted].
      [X86Dwarf.cached_row_is_evaluated_row] and
      [Aarch64Dwarf.aarch64_frame_record_rule]: a rule kept for a row recovers
      what evaluating the row recovers.  [FdeIndex.fde_lookups_agree],
      [UnwindModules.unwinder_finds_loaded_module] and
      [CachedUnwind.cached_unwinding_is_uncached]: searching tables, modules and
      the shared cache changes no result.  [Aarch64.aarch64_step_keeps_words].
    - Images.  [ElfCache.opened_file_is_mapped_file],
      [shared_images_are_bounded]; [ElfImages.exact_images_are_accounted],
      [exact_image_token_names_image]; [ElfBase.image_base_is_load_bias].
    - Generated code.  [JitProtocol.registration_list_is_linked],
      [JitRanges.generated_code_never_overlaps],
      [JitBudget.unwind_data_within_budget] and
      [JitFrames.generated_frames_follow_registry]: whatever the process writes
      into its memory, reading ends, objects stay apart and within the budget,
      and frames are attributed to what is registered.
      [Discovery.hashed_lookup_is_symbol_scan] and
      [DescriptorSearch.cached_search_is_fresh_search]: hash tables and the cache
      find the descriptors that a scan of the images finds.
    - Symbols.  [KernelTables.sparse_table_is_full_table],
      [PerfMap.reloaded_map_is_file_map], [perf_map_lookup_is_scan].
    - Errors and fast paths.  [Failure.failed_writer_is_frozen],
      [interrupted_flush_spins]; [Cursor.read_varint_fast_path_exact].

    ** Fuel

    Loops whose end is not structural take fuel, and theorems show that it is
    enough.  [write_all] of Output gets a step per byte plus the section's
    [interrupt_budget] (the standard library retries interrupted writes without
    limit; [interrupted_flush_spins] is about exactly that).  The record loops of
    Reader, Tail and Replay get a step per byte of the file, since every record
    takes at least one.  The drains of Tailing and Live get a batch per byte.
    [absorb] of RingBuffer gets a step per pending range.  The ring fallback of
    PerfOpen counts its exponent down, and [task_fuel] covers every halving of
    the total ring budget.  The call-chain loop gets a step per address.  The
    unwind loop has the source's own limit of 1024 frames.  Reading a JIT
    registration list has the source's limit of 4096 entries; decoding text
    takes a step per byte, and printing a 64-bit number sixteen hexadecimal
    digits.  Stopping and resuming a process poll every 5 ms for at most 2 s, so
    [stop_rounds] (402) covers the timeout on a clock that advances with every
    sleep ([SteadyClock]); the search for descendants gets a step per process
    that is listed.

    ** Not modelled

    Atomics and fences of the ring and of live publication: runs are sequences
    of atomic steps.  Registering and polling file descriptors in
    [perf_group.rs], which its callers see through [PerfCalls]; launching a
    process ([process.rs]) and the options of a recording ([builder.rs]).  The
    stack of a sample that a drain finishes is built and written in SampleStack
    and Session; Drain keeps of it what decides whether maps are read again, so
    the counters of samples are not in its summary.  ELF, Mach-O and PE parsing
    and DWARF expressions: mostly calls into the object, goblin and gimli
    crates; the rules that result are modelled.  Symbolisation over debug
    information ([symbols.rs], [symbolize.rs] and its sessions).  Mach-O and PE
    unwinding and the decoding of aarch64 prologues and epilogues, which framehop
    compiles only with its [macho] and [pe] features; StackPulse takes it with
    [std] alone.  Logging and error messages.

    This file holds what the others share: machine integers, errors and the
    stateful error monad, and list lemmas. *)

From stdpp Require Import prelude gmap list numbers option.
From Stdlib Require Import ZArith Lia.
#[local] Open Scope Z_scope.

(** ** Machine integers *)

Definition u8_max : Z := 255.
Definition u16_max : Z := 65535.
Definition u32_max : Z := 4294967295.
Definition u64_max : Z := 18446744073709551615.
Definition i32_min : Z := -2147483648.
Definition i32_max : Z := 2147483647.
Definition i64_min : Z := -9223372036854775808.
Definition i64_max : Z := 9223372036854775807.

Definition is_byte (n : Z) : Prop := 0 <= n <= u8_max.
Definition is_u16 (n : Z) : Prop := 0 <= n <= u16_max.
Definition is_u32 (n : Z) : Prop := 0 <= n <= u32_max.
Definition is_u64 (n : Z) : Prop := 0 <= n <= u64_max.
Definition is_i32 (n : Z) : Prop := i32_min <= n <= i32_max.
Definition is_i64 (n : Z) : Prop := i64_min <= n <= i64_max.

(** [lia] that sees through the machine-integer predicates. *)
Ltac word_unfold :=
  unfold is_byte, is_u16, is_u32, is_u64, is_i32, is_i64,
    u8_max, u16_max, u32_max, u64_max, i32_min, i32_max, i64_min, i64_max in *.
Ltac word_lia := word_unfold; lia.

(** [u64::checked_add], [u64::checked_sub], [u64::checked_add_signed] and
    [u64::saturating_add]. *)
Definition checked_add_u64 (a b : Z) : option Z :=
  if a + b <=? u64_max then Some (a + b) else None.
Definition checked_sub_u64 (a b : Z) : option Z :=
  if b <=? a then Some (a - b) else None.
Definition checked_add_signed_u64 (a d : Z) : option Z :=
  if (0 <=? a + d) && (a + d <=? u64_max) then Some (a + d) else None.
Definition saturating_add_u64 (a b : Z) : Z := Z.min (a + b) u64_max.

(** [u32::try_from], [i32::try_from] and [i64::try_from] of a wider integer. *)
Definition u32_try_from (n : Z) : option Z :=
  if (0 <=? n) && (n <=? u32_max) then Some n else None.
Definition i32_try_from (n : Z) : option Z :=
  if (i32_min <=? n) && (n <=? i32_max) then Some n else None.
Definition i64_try_from (n : Z) : option Z :=
  if (i64_min <=? n) && (n <=? i64_max) then Some n else None.

(** ** Errors and the stateful error monad *)

(** The [io::ErrorKind]s the modelled code creates or tests, without the
    formatted messages.  The last two are not Rust values: [Panicked] stands for
    a failed [expect] or an index out of bounds, [Diverged] for a loop cut off
    by the model's fuel. *)
Inductive ErrorKind :=
  | UnexpectedEof | InvalidData | InvalidInput | WriteZero | Interrupted
  | PermissionDenied | Unsupported | Other | Panicked | Diverged.

#[global] Instance ErrorKind_eq_dec : EqDecision ErrorKind.
Proof. solve_decision. Defined.

Inductive result (A : Type) :=
  | Ok (a : A)
  | Err (e : ErrorKind).
Arguments Ok {_} _.
Arguments Err {_} _.

Definition ok_or {A} (e : ErrorKind) (o : option A) : result A :=
  match o with Some a => Ok a | None => Err e end.

(** The [?] operator. *)
#[global] Instance result_mbind : MBind result := λ A B k m,
  match m with Ok a => k a | Err e => Err e end.

(** A method with a [&mut S] receiver that returns [io::Result<A>]: the state
    is kept on the error path, because the caller goes on using it. *)
Definition io (S A : Type) : Type := S -> result A * S.

#[global] Instance io_mret {S} : MRet (io S) := λ A a s, (Ok a, s).
#[global] Instance io_mbind {S} : MBind (io S) := λ A B k m s,
  match m s with
  | (Ok a, s') => k a s'
  | (Err e, s') => (Err e, s')
  end.
Definition io_fail {S A} (e : ErrorKind) : io S A := λ s, (Err e, s).
Definition io_lift {S A} (r : result A) : io S A := λ s, (r, s).
Definition io_get {S} : io S S := λ s, (Ok s, s).
Definition io_gets {S A} (f : S -> A) : io S A := λ s, (Ok (f s), s).
Definition io_modify {S} (f : S -> S) : io S unit := λ s, (Ok tt, f s).
(** Run a method of a field. *)
Definition io_zoom {S T A} (get : S -> T) (put : T -> S -> S) (m : io T A) : io S A :=
  λ s, let '(r, t) := m (get s) in (r, put t s).

Section io_lemmas.
Context {S A B : Type}.
Implicit Types (m : io S A) (k : A -> io S B).

Lemma io_bind_ok m k s a s' : m s = (Ok a, s') -> (m ≫= k) s = k a s'.
Proof. unfold mbind, io_mbind. by intros ->. Qed.

Lemma io_bind_err m k s e s' : m s = (Err e, s') -> (m ≫= k) s = (Err e, s').
Proof. unfold mbind, io_mbind. by intros ->. Qed.

Lemma io_bind_inv m k s b s' :
  (m ≫= k) s = (Ok b, s') ->
  exists a s1, m s = (Ok a, s1) /\ k a s1 = (Ok b, s').
Proof.
  unfold mbind, io_mbind. destruct (m s) as [[a|e] s1] eqn:Hm; intros H; [|done].
  by exists a, s1.
Qed.

Lemma io_ret_run (a : A) s : (mret a : io S A) s = (Ok a, s).
Proof. done. Qed.
End io_lemmas.

(** Invert a successful run of a monadic computation, step by step. *)
Ltac io_inv :=
  repeat match goal with
  | H : (_ ≫= _) _ = (Ok _, _) |- _ =>
      let a := fresh "a" in let s := fresh "s" in
      let H1 := fresh "Hrun" in
      apply io_bind_inv in H as (a & s & H1 & H)
  | H : (mret _) _ = (Ok _, _) |- _ => injection H as <- <-
  | H : io_fail _ _ = (Ok _, _) |- _ => discriminate H
  end.

(** ** Lists *)

Lemma filter_ext_elem {A} (P Q : A -> Prop) `{!∀ x, Decision (P x), !∀ x, Decision (Q x)}
    (l : list A) :
  (forall x, x ∈ l -> P x <-> Q x) -> filter P l = filter Q l.
Proof.
  induction l as [|x l IH]; intros HPQ; [done|].
  pose proof (HPQ x (list_elem_of_here _ _)) as Hx.
  rewrite !list.filter_cons, IH by (intros; apply HPQ; by apply list_elem_of_further).
  destruct (decide (P x)), (decide (Q x)); tauto.
Qed.

Lemma filter_none {A} (P : A -> Prop) `{!∀ x, Decision (P x)} (l : list A) :
  (forall x, x ∈ l -> ~ P x) -> filter P l = [].
Proof.
  induction l as [|x l IH]; intros HP; [done|].
  rewrite list.filter_cons_False, IH by set_solver. done.
Qed.

Lemma filter_all {A} (P : A -> Prop) `{!∀ x, Decision (P x)} (l : list A) :
  (forall x, x ∈ l -> P x) -> filter P l = l.
Proof.
  induction l as [|x l IH]; intros HP; [done|].
  rewrite list.filter_cons_True, IH by set_solver. done.
Qed.
