(* ===== verification/Varint.v ===== *)
(** * Varints

    The spool stores integers with the [integer-encoding] crate, which is not
    part of the repository.  [VarIntCrate] is the part of its API that
    [src/spool/mod.rs] calls ([encode_var], [decode_var]) and [VarIntLaws] the
    documented format it promises: base-128 groups, least significant first,
    the high bit set on every byte but the last, signed integers zigzagged.
    [integer_encoding] is a concrete instance used by the witnesses. *)

From stdpp Require Import prelude list numbers.
From S2P Require Import Prelude.
#[local] Open Scope Z_scope.

(** The three Rust integer types the spool stores as varints. *)
Inductive vint := U64 | U32 | I64.

Definition in_range (vt : vint) (n : Z) : Prop :=
  match vt with U64 => is_u64 n | U32 => is_u32 n | I64 => is_i64 n end.

#[global] Instance in_range_dec vt n : Decision (in_range vt n).
Proof. destruct vt; cbn; unfold is_u64, is_u32, is_i64; apply _. Defined.

Definition zigzag (n : Z) : Z := if n <? 0 then -2 * n - 1 else 2 * n.

Definition to_raw (vt : vint) (n : Z) : Z :=
  match vt with U64 | U32 => n | I64 => zigzag n end.

(** [SpoolVarint::from_raw_varint]: the conversion applied to the raw [u64];
    the zigzag line is [(raw >> 1) as i64 ^ -((raw & 1) as i64)]. *)
Definition from_raw_varint (vt : vint) (raw : Z) : option Z :=
  match vt with
  | U64 => Some raw
  | U32 => u32_try_from raw
  | I64 => Some (Z.lxor (Z.shiftr raw 1) (- Z.land raw 1))
  end.

(** ** The base-128 format *)

Definition continues (b : Z) : Prop := Z.land b 128 <> 0.
#[global] Instance continues_dec b : Decision (continues b) := _.

(** The bytes of one varint: every byte but the last has the high bit set.
    Only the low eight bits of an element matter. *)
Inductive varint_bytes : list Z -> Prop :=
  | varint_last b : Z.land b 128 = 0 -> varint_bytes [b]
  | varint_more b bs : continues b -> varint_bytes bs -> varint_bytes (b :: bs).

Definition group_value (bs : list Z) : Z :=
  foldr (λ b acc, Z.lor (Z.land b 127) (Z.shiftl acc 7)) 0 bs.

Fixpoint leb128_loop (fuel : nat) (n : Z) : list Z :=
  match fuel with
  | O => []
  | S fuel =>
      if n <? 128 then [n]
      else Z.lor 128 (Z.land n 127) :: leb128_loop fuel (Z.shiftr n 7)
  end.
(** Ten groups of seven bits hold any [u64]. *)
Definition leb128 (n : Z) : list Z := leb128_loop 10 n.

(** ** The crate's interface *)

Class VarIntCrate := {
  encode_var : vint -> Z -> list Z;
  decode_var : vint -> list Z -> option (Z * nat);
}.

Class VarIntLaws `{VarIntCrate} : Prop := {
  (** [encode_var] writes the canonical groups of the (zigzagged) value. *)
  encode_var_leb128 vt n : in_range vt n -> encode_var vt n = leb128 (to_raw vt n);
  (** [decode_var] reads one varint of at most ten bytes whose value fits a
      [u64], and reports its length. *)
  decode_var_groups vt bs rest :
    varint_bytes bs -> (length bs <= 10)%nat -> group_value bs <= u64_max ->
    decode_var vt (bs ++ rest) =
      (λ v, (v, length bs)) <$> from_raw_varint vt (group_value bs);
  (** A byte string that ends before the last group does not decode. *)
  decode_var_truncated vt bs :
    Forall continues bs -> (length bs < 10)%nat -> decode_var vt bs = None;
  (** What it decodes is a value of the type, read from the slice. *)
  decode_var_bounds vt bs v n :
    decode_var vt bs = Some (v, n) -> in_range vt v /\ (n <= length bs)%nat;
  (** It looks at ten bytes at most. *)
  decode_var_ten vt bs rest :
    (10 <= length bs)%nat -> decode_var vt (bs ++ rest) = decode_var vt bs;
}.

(** ** Facts on groups *)

Lemma land_127 n : Z.land n 127 = n mod 128.
Proof. change 127 with (Z.ones 7). by rewrite Z.land_ones. Qed.

Lemma byte_low_bits b : is_byte b -> Z.land b 128 = 0 -> Z.land b 127 = b.
Proof.
  intros Hb H0. rewrite land_127.
  assert (b < 128 \/ 128 <= b) as [|Hge] by lia; [apply Z.mod_small; word_lia|].
  exfalso. assert (Z.testbit b 7 = true) as Ht.
  { apply Z.testbit_true; [lia|]. change (2 ^ 7) with 128.
    replace (b / 128) with 1 by (apply Z.div_unique with (b - 128); word_lia). done. }
  assert (Z.testbit (Z.land b 128) 7 = true) as H1
    by (by rewrite Z.land_spec, Ht).
  by rewrite H0, Z.testbit_0_l in H1.
Qed.

Lemma testbit_high a k i : 0 <= a < 2 ^ k -> 0 <= k <= i -> Z.testbit a i = false.
Proof.
  intros Ha Hk. apply Z.testbit_false; [lia|]. rewrite Z.div_small; [done|].
  split; [lia|]. apply Z.lt_le_trans with (2 ^ k); [lia|]. apply Z.pow_le_mono_r; lia.
Qed.

Lemma lor_shiftl_add a b : 0 <= a < 128 -> Z.lor a (Z.shiftl b 7) = a + 128 * b.
Proof.
  intros Ha. rewrite Z.shiftl_mul_pow2 by lia. change (2 ^ 7) with 128.
  assert (Z.land a (b * 128) = 0) as H0;
    [|pose proof (Z.add_lor_land a (b * 128)); lia].
  apply Z.bits_inj'. intros i Hi. rewrite Z.land_spec, Z.bits_0.
  change 128 with (2 ^ 7).
  destruct (decide (i < 7)).
  - rewrite Z.mul_pow2_bits_low by lia. by rewrite andb_false_r.
  - by rewrite (testbit_high a 7) by (cbn; lia).
Qed.

Lemma group_value_cons b bs :
  group_value (b :: bs) = Z.land b 127 + 128 * group_value bs.
Proof.
  change (group_value (b :: bs)) with (Z.lor (Z.land b 127) (Z.shiftl (group_value bs) 7)).
  apply lor_shiftl_add. rewrite land_127. apply Z.mod_pos_bound. lia.
Qed.

Lemma group_value_nonneg bs : 0 <= group_value bs.
Proof.
  induction bs as [|b bs IH]; [done|]. rewrite group_value_cons, land_127.
  pose proof (Z.mod_pos_bound b 128). lia.
Qed.

Lemma varint_bytes_ne bs : varint_bytes bs -> bs <> [].
Proof. by destruct 1. Qed.

(** A proper prefix of a varint consists of continuation bytes. *)
Lemma varint_bytes_prefix bs b tl :
  varint_bytes (bs ++ b :: tl) -> Forall continues bs.
Proof.
  revert b tl. induction bs as [|c bs IH]; intros b tl H; [done|].
  inversion H as [? ? Heq|? ? Hc Hr]; subst.
  - by destruct bs.
  - constructor; [done|]. by eapply IH.
Qed.

(** ** The canonical encoding *)

Lemma lor_128 n : Z.lor 128 (Z.land n 127) = 128 + n mod 128.
Proof.
  rewrite land_127, Z.lor_comm.
  change 128 with (Z.shiftl 1 7) at 2.
  rewrite lor_shiftl_add; [lia|]. apply Z.mod_pos_bound. lia.
Qed.

Lemma leb128_loop_spec fuel n :
  0 <= n < 128 ^ Z.of_nat fuel -> (0 < fuel)%nat ->
  varint_bytes (leb128_loop fuel n) /\
  group_value (leb128_loop fuel n) = n /\
  (1 <= length (leb128_loop fuel n) <= fuel)%nat.
Proof.
  revert n. induction fuel as [|fuel IH]; intros n Hn Hf; [lia|].
  cbn [leb128_loop]. destruct (Z.ltb_spec n 128) as [Hlt|Hge].
  - assert (is_byte n) by word_lia.
    assert (Z.land n 128 = 0) as H0.
    { apply Z.bits_inj'. intros i Hi. rewrite Z.land_spec, Z.bits_0.
      destruct (decide (i = 7)) as [->|].
      - by rewrite (testbit_high n 7) by (cbn; lia).
      - change 128 with (2 ^ 7). rewrite Z.pow2_bits_false by lia. by rewrite andb_false_r. }
    split; [by constructor|]. split; [|simpl; lia].
    rewrite group_value_cons, byte_low_bits by done. cbn. lia.
  - rewrite Nat2Z.inj_succ, Z.pow_succ_r in Hn by lia.
    assert (0 < fuel)%nat as Hpos.
    { destruct fuel; [|lia]. cbn in Hn. lia. }
    assert (Z.shiftr n 7 = n / 128) as -> by (by rewrite Z.shiftr_div_pow2).
    destruct (IH (n / 128)) as (Hb & Hv & Hl); [|done|].
    { split; [apply Z.div_pos; lia|]. apply Z.div_lt_upper_bound; lia. }
    pose proof (Z.mod_pos_bound n 128 ltac:(lia)).
    rewrite lor_128. split; [|split; [|cbn [length]; lia]].
    + constructor; [|done]. unfold continues.
      replace (128 + n mod 128) with (Z.lor 128 (Z.land n 127)) by apply lor_128.
      intros Heq. apply (f_equal (λ z, Z.testbit z 7)) in Heq.
      by rewrite Z.land_spec, Z.lor_spec in Heq.
    + rewrite group_value_cons, Hv, land_127.
      replace (128 + n mod 128) with (n mod 128 + 1 * 128) by lia.
      rewrite Z.mod_add, Z.mod_mod by lia.
      pose proof (Z.div_mod n 128). lia.
Qed.

Lemma leb128_spec n :
  is_u64 n ->
  varint_bytes (leb128 n) /\ group_value (leb128 n) = n /\
  (1 <= length (leb128 n) <= 10)%nat.
Proof.
  intros H. apply leb128_loop_spec; [|lia].
  split; [word_lia|]. assert (128 ^ Z.of_nat 10 = 1180591620717411303424) as -> by done.
  word_lia.
Qed.

(** ** Zigzag *)

Lemma zigzag_u64 n : is_i64 n -> is_u64 (zigzag n).
Proof. intros H. unfold zigzag. destruct (Z.ltb_spec n 0); word_lia. Qed.

Lemma to_raw_u64 vt n : in_range vt n -> is_u64 (to_raw vt n).
Proof. destruct vt; cbn; [done|word_lia|apply zigzag_u64]. Qed.

Lemma from_raw_to_raw vt n :
  in_range vt n -> from_raw_varint vt (to_raw vt n) = Some n.
Proof.
  destruct vt; cbn; [done| |].
  - intros H. unfold u32_try_from. assert ((0 <=? n) && (n <=? u32_max) = true) as ->; [|done].
    apply andb_true_intro. word_lia.
  - intros _. f_equal. rewrite Z.shiftr_div_pow2 by lia. change (2 ^ 1) with 2.
    assert (Z.land (zigzag n) 1 = zigzag n mod 2) as ->
      by (change 1 with (Z.ones 1); by rewrite Z.land_ones).
    unfold zigzag. destruct (Z.ltb_spec n 0).
    + replace (-2 * n - 1) with (1 + (- n - 1) * 2) by lia.
      rewrite Z.div_add, Z.mod_add by lia.
      change (1 / 2) with 0. change (- (1 mod 2)) with (-1).
      rewrite Z.lxor_m1_r. unfold Z.lnot. lia.
    + rewrite (Z.mul_comm 2), Z.div_mul, Z.mod_mul by lia. apply Z.lxor_0_r.
Qed.

(** ** A concrete instance *)

Fixpoint decode_groups (fuel : nat) (bs : list Z) : option (list Z) :=
  match fuel, bs with
  | S fuel, b :: bs =>
      if Z.land b 128 =? 0 then Some [b] else (b ::.) <$> decode_groups fuel bs
  | _, _ => None
  end.

#[global] Instance integer_encoding : VarIntCrate := {|
  encode_var vt n := leb128 (to_raw vt n);
  decode_var vt bs :=
    gs ← decode_groups 10 bs;
    if group_value gs <=? u64_max
    then (λ v, (v, length gs)) <$> from_raw_varint vt (group_value gs) else None;
|}.

Lemma decode_groups_varint fuel bs rest :
  varint_bytes bs -> (length bs <= fuel)%nat ->
  decode_groups fuel (bs ++ rest) = Some bs.
Proof.
  intros H. revert fuel. induction H as [b H0|b bs Hc Hr IH]; intros fuel Hl;
    (destruct fuel as [|fuel]; [simpl in Hl; lia|]); cbn.
  - by rewrite H0.
  - destruct (Z.eqb_spec (Z.land b 128) 0); [done|].
    rewrite IH; [done|]. simpl in Hl. lia.
Qed.

Lemma decode_groups_truncated fuel bs :
  Forall continues bs -> decode_groups fuel bs = None.
Proof.
  intros H. revert fuel. induction H as [|b bs Hc _ IH]; intros [|fuel]; [done..|].
  cbn. destruct (Z.eqb_spec (Z.land b 128) 0); [done|]. by rewrite IH.
Qed.

Lemma decode_groups_length fuel bs gs : decode_groups fuel bs = Some gs -> (length gs <= length bs)%nat.
Proof.
  revert bs gs. induction fuel as [|fuel IH]; intros [|b bs] gs; [done..|]. cbn.
  destruct (_ =? 0); [by intros [= <-]; cbn; lia|].
  destruct (decode_groups fuel bs) eqn:Hd; [|done]. cbn. intros [= <-]. apply IH in Hd. cbn. lia.
Qed.

Lemma decode_groups_local fuel bs rest :
  (fuel <= length bs)%nat -> decode_groups fuel (bs ++ rest) = decode_groups fuel bs.
Proof.
  revert bs. induction fuel as [|fuel IH]; intros [|b bs] Hl; cbn in Hl |- *; [by destruct rest|done|lia|].
  by rewrite IH by lia.
Qed.

Lemma from_raw_varint_range vt raw v : is_u64 raw -> from_raw_varint vt raw = Some v -> in_range vt v.
Proof.
  intros Hr. destruct vt; cbn.
  - by intros [= <-].
  - unfold u32_try_from. destruct (_ && _) eqn:Hb; [|done]. intros [= <-].
    apply andb_true_iff in Hb. word_lia.
  - intros [= <-]. assert (0 <= Z.shiftr raw 1 <= i64_max).
    { rewrite Z.shiftr_div_pow2 by lia. change (2 ^ 1) with 2.
      split; [apply Z.div_pos; word_lia|]. apply Z.lt_succ_r, Z.div_lt_upper_bound; word_lia. }
    change 1 with (Z.ones 1) at 2. rewrite Z.land_ones by lia. change (2 ^ 1) with 2.
    pose proof (Z.mod_pos_bound raw 2 ltac:(lia)).
    destruct (decide (raw mod 2 = 0)) as [->|].
    + rewrite Z.lxor_0_r. word_lia.
    + replace (raw mod 2) with 1 by lia. change (- (1)) with (-1). rewrite Z.lxor_m1_r.
      unfold Z.lnot. word_lia.
Qed.

#[global] Instance integer_encoding_laws : VarIntLaws.
Proof.
  split.
  - done.
  - intros vt bs rest Hb Hl Hv. cbn [decode_var integer_encoding].
    rewrite decode_groups_varint by done. cbn. by rewrite (proj2 (Z.leb_le _ _)).
  - intros vt bs Hc Hl. cbn [decode_var integer_encoding].
    by rewrite decode_groups_truncated.
  - intros vt bs v n. cbn [decode_var integer_encoding].
    destruct (decode_groups 10 bs) as [gs|] eqn:Hg; [|done]. cbn.
    destruct (Z.leb_spec (group_value gs) u64_max); [|done].
    destruct (from_raw_varint vt (group_value gs)) as [v'|] eqn:Hv; [|done]. cbn. intros [= <- <-].
    split; [|by eapply decode_groups_length].
    eapply from_raw_varint_range; [|done]. pose proof (group_value_nonneg gs). word_lia.
  - intros vt bs rest Hl. cbn [decode_var integer_encoding]. by rewrite decode_groups_local.
Qed.
