(* ===== verification/Cursor.v ===== *)
(** * The mapped-file cursor

    [MmapSpoolCursor] of [src/spool/mod.rs]: a position in an immutable mapped
    file and the primitive reads.  [decodes] is the contract every reader of the
    spool is proved against: on the bytes of a complete value it returns the
    value and stops right after it, and on a file cut inside the value it
    returns [UnexpectedEof] with the cursor at the end of the file. *)

From stdpp Require Import prelude list numbers.
From S2P Require Import Prelude Varint.
#[local] Open Scope Z_scope.

Record MmapSpoolCursor := mkCursor { mmap : list Z; position : nat }.

Definition set_position (p : nat) (c : MmapSpoolCursor) : MmapSpoolCursor :=
  mkCursor (mmap c) p.

Definition at_position (bytes : list Z) (p : nat) : MmapSpoolCursor := mkCursor bytes p.

Definition at_eof (c : MmapSpoolCursor) : bool := (position c =? length (mmap c))%nat.

Definition read_tag : io MmapSpoolCursor (option Z) := λ c,
  if (position c =? length (mmap c))%nat then (Ok None, c)
  else match mmap c !! position c with
       | None => (Err InvalidData, c)
       | Some tag => (Ok (Some tag), set_position (S (position c)) c)
       end.

Definition read_bytes_range (len : Z) : io MmapSpoolCursor (nat * nat) := λ c,
  let start := position c in
  match checked_add_u64 (Z.of_nat start) len with
  | None => (Err InvalidData, c)
  | Some stop =>
      if stop >? Z.of_nat (length (mmap c))
      then (Err UnexpectedEof, set_position (length (mmap c)) c)
      else (Ok (start, Z.to_nat stop), set_position (Z.to_nat stop) c)
  end.

(** [&self.mmap[range]]. *)
Definition mmap_slice (range : nat * nat) (c : MmapSpoolCursor) : list Z :=
  take (range.2 - range.1) (drop range.1 (mmap c)).

Definition read_exact_spool (len : Z) : io MmapSpoolCursor (list Z) :=
  range ← read_bytes_range len; io_gets (mmap_slice range).

(** The [for] loop of [read_varint] over the first nine bytes. *)
Fixpoint varint_fast (vt : vint) (limit index : nat) (raw : Z) (bytes : list Z)
    : option (Z * nat) :=
  match limit, bytes with
  | S limit, byte :: bytes =>
      let raw := Z.lor raw (Z.shiftl (Z.land byte 127) (7 * Z.of_nat index)) in
      if Z.land byte 128 =? 0
      then (λ value, (value, S index)) <$> from_raw_varint vt raw
      else varint_fast vt limit (S index) raw bytes
  | _, _ => None
  end.

Section reads.
Context `{VarIntCrate}.

Definition read_varint_slow (vt : vint) : io MmapSpoolCursor Z := λ c,
  let bytes := drop (position c) (mmap c) in
  match decode_var vt bytes with
  | Some (value, len) => (Ok value, set_position (position c + len) c)
  | None =>
      if (10 <=? length bytes)%nat then (Err InvalidData, c)
      else (Err UnexpectedEof, set_position (length (mmap c)) c)
  end.

Definition read_varint (vt : vint) : io MmapSpoolCursor Z := λ c,
  let bytes := drop (position c) (mmap c) in
  match varint_fast vt 9 0 0 bytes with
  | Some (value, len) => (Ok value, set_position (position c + len) c)
  | None => read_varint_slow vt c
  end.
End reads.

(** ["SPULSE4\0"]. *)
Definition CURRENT_MAGIC : list Z := [83; 80; 85; 76; 83; 69; 52; 0].

(** Both rejections (an older version, a foreign file) are [InvalidData]. *)
Definition check_magic : io MmapSpoolCursor unit :=
  magic ← read_exact_spool 8;
  if decide (magic = CURRENT_MAGIC) then mret tt else io_fail InvalidData.

(** ** The reading contract *)

(** A mapping never exceeds [isize::MAX] bytes. *)
Definition mappable (bytes : list Z) : Prop := Z.of_nat (length bytes) <= i64_max.

Record decodes {A} (p : io MmapSpoolCursor A) (bs : list Z) (a : A) : Prop := {
  decodes_complete pre rest :
    mappable (pre ++ bs ++ rest) ->
    p (mkCursor (pre ++ bs ++ rest) (length pre)) =
      (Ok a, mkCursor (pre ++ bs ++ rest) (length pre + length bs));
  decodes_truncated pre cut b tl :
    bs = cut ++ b :: tl -> mappable (pre ++ bs) ->
    p (mkCursor (pre ++ cut) (length pre)) =
      (Err UnexpectedEof, mkCursor (pre ++ cut) (length (pre ++ cut)));
}.

Lemma decodes_ret {A} (a : A) : decodes (mret a) [] a.
Proof.
  split.
  - intros pre rest _. cbn. by rewrite Nat.add_0_r.
  - intros pre cut b tl Heq. by destruct cut.
Qed.

Section decodes_lemmas.
Context {A B : Type}.
Implicit Types (p : io MmapSpoolCursor A) (k : A -> io MmapSpoolCursor B).

Lemma decodes_bind p k bs1 bs2 a b :
  decodes p bs1 a -> decodes (k a) bs2 b -> decodes (p ≫= k) (bs1 ++ bs2) b.
Proof.
  intros [Hp Hpt] [Hk Hkt]. split.
  - intros pre rest Hm. rewrite <- app_assoc in *.
    rewrite (io_bind_ok _ _ _ _ _ (Hp _ _ Hm)).
    specialize (Hk (pre ++ bs1) rest). rewrite <- app_assoc, length_app in Hk.
    rewrite Hk by done. do 2 f_equal. rewrite length_app. lia.
  - intros pre cut x tl Heq Hm.
    apply app_eq_app in Heq as (l & [[-> Heq] | [-> Heq]]).
    + (* the cut is inside the first value, or exactly at its end *)
      destruct l as [|y l]; cbn in *.
      * rewrite app_nil_r in *. subst bs2.
        assert (mappable (pre ++ cut ++ [])) as Hm'.
        { unfold mappable in *. rewrite !length_app in *. cbn in *. lia. }
        specialize (Hp pre [] Hm'). rewrite app_nil_r in Hp.
        rewrite (io_bind_ok _ _ _ _ _ Hp).
        specialize (Hkt (pre ++ cut) [] x tl eq_refl).
        rewrite app_nil_r, <- app_assoc, length_app in Hkt. by rewrite length_app, Hkt.
      * injection Heq as <- ->.
        apply io_bind_err, (Hpt pre cut x l); [done|].
        unfold mappable in *. rewrite !length_app in *. lia.
    + subst bs2.
      assert (mappable (pre ++ bs1 ++ l)) as Hm'.
      { unfold mappable in *. rewrite !length_app in *. lia. }
      rewrite (io_bind_ok _ _ _ _ _ (Hp pre l Hm')).
      specialize (Hkt (pre ++ bs1) l x tl eq_refl).
      rewrite <- !app_assoc, !length_app in Hkt.
      rewrite !length_app, Hkt; [by rewrite Nat.add_assoc|done].
Qed.

(** A reader may go on with any pure computation. *)
Lemma decodes_map p (f : A -> B) bs a :
  decodes p bs a -> decodes (p ≫= λ x, mret (f x)) bs (f a).
Proof.
  intros Hp. rewrite <- (app_nil_r bs). eapply decodes_bind; [done|apply decodes_ret].
Qed.
End decodes_lemmas.

(** ** The primitive reads meet the contract *)

Lemma read_bytes_range_complete pre bs rest :
  mappable (pre ++ bs ++ rest) ->
  read_bytes_range (Z.of_nat (length bs)) (mkCursor (pre ++ bs ++ rest) (length pre)) =
    (Ok (length pre, length pre + length bs)%nat,
     mkCursor (pre ++ bs ++ rest) (length pre + length bs)).
Proof.
  intros Hm. unfold mappable in Hm. rewrite !length_app in Hm.
  unfold read_bytes_range, checked_add_u64; cbn [position mmap].
  rewrite (proj2 (Z.leb_le _ _)) by word_lia.
  rewrite !length_app, Z.gtb_ltb, (proj2 (Z.ltb_ge _ _)) by lia.
  rewrite <- Nat2Z.inj_add, Nat2Z.id. done.
Qed.

Lemma mmap_slice_app pre bs rest :
  mmap_slice (length pre, length pre + length bs)%nat
    (mkCursor (pre ++ bs ++ rest) (length pre + length bs)) = bs.
Proof.
  unfold mmap_slice; cbn. rewrite drop_app_length.
  replace (_ - _)%nat with (length bs) by lia. apply take_app_length.
Qed.

Lemma decodes_bytes bs : decodes (read_exact_spool (Z.of_nat (length bs))) bs bs.
Proof.
  split.
  - intros pre rest Hm. unfold read_exact_spool.
    rewrite (io_bind_ok _ _ _ _ _ (read_bytes_range_complete pre bs rest Hm)).
    unfold io_gets. by rewrite mmap_slice_app.
  - intros pre cut b tl -> Hm. apply io_bind_err.
    unfold mappable in Hm. rewrite !length_app in Hm.
    unfold read_bytes_range, checked_add_u64; cbn [position mmap set_position].
    rewrite length_app; cbn [length] in *.
    rewrite (proj2 (Z.leb_le _ _)) by word_lia.
    rewrite !length_app, Z.gtb_ltb, (proj2 (Z.ltb_lt _ _)) by lia. done.
Qed.

(** [read_bytes_range] followed by a use of the slice, as the module-path and
    symbol-name readers do it. *)
Lemma decodes_range {A} bs (k : list Z -> io MmapSpoolCursor A) bs' a :
  decodes (k bs) bs' a ->
  decodes (range ← read_bytes_range (Z.of_nat (length bs));
           slice ← io_gets (mmap_slice range); k slice) (bs ++ bs') a.
Proof.
  intros Hk.
  pose proof (decodes_bind _ k bs bs' bs a (decodes_bytes bs) Hk) as [H1 H2]. split.
  - intros pre rest Hm. rewrite <- (H1 pre rest Hm). unfold read_exact_spool, mbind, io_mbind.
    destruct (read_bytes_range _ _) as [[?|?] ?]; done.
  - intros pre cut b tl Heq Hm. rewrite <- (H2 pre cut b tl Heq Hm).
    unfold read_exact_spool, mbind, io_mbind.
    destruct (read_bytes_range _ _) as [[?|?] ?]; done.
Qed.

(** ** Varints *)

(** The accumulator of the fast loop after [index] groups. *)
Lemma raw_step raw index b :
  0 <= raw < 2 ^ (7 * Z.of_nat index) ->
  Z.lor raw (Z.shiftl (Z.land b 127) (7 * Z.of_nat index)) =
    raw + 2 ^ (7 * Z.of_nat index) * Z.land b 127.
Proof.
  intros Hr. rewrite Z.shiftl_mul_pow2 by lia.
  assert (Z.land raw (Z.land b 127 * 2 ^ (7 * Z.of_nat index)) = 0) as H0;
    [|pose proof (Z.add_lor_land raw (Z.land b 127 * 2 ^ (7 * Z.of_nat index))); lia].
  apply Z.bits_inj'. intros i Hi. rewrite Z.land_spec, Z.bits_0.
  destruct (decide (i < 7 * Z.of_nat index)).
  - rewrite Z.mul_pow2_bits_low by lia. apply andb_false_r.
  - by rewrite (testbit_high raw (7 * Z.of_nat index)) by lia.
Qed.

Lemma varint_fast_group vt bs rest limit index raw :
  varint_bytes bs -> (length bs <= limit)%nat ->
  0 <= raw < 2 ^ (7 * Z.of_nat index) ->
  varint_fast vt limit index raw (bs ++ rest) =
    (λ v, (v, index + length bs)%nat) <$>
      from_raw_varint vt (raw + 2 ^ (7 * Z.of_nat index) * group_value bs).
Proof.
  intros Hb. revert limit index raw.
  induction Hb as [b H0|b bs Hc Hb IH]; intros limit index raw Hl Hr;
    (destruct limit as [|limit]; [cbn in Hl; lia|]); cbn [app varint_fast length];
    rewrite (raw_step _ _ _ Hr), group_value_cons.
  - rewrite H0. cbn [Z.eqb group_value foldr]. rewrite Z.mul_0_r, Z.add_0_r, Nat.add_1_r. done.
  - destruct (Z.eqb_spec (Z.land b 128) 0) as [|_]; [done|].
    pose proof (Z.mod_pos_bound b 128 ltac:(lia)) as Hmod. rewrite land_127 in *.
    assert (2 ^ (7 * Z.of_nat (S index)) = 128 * 2 ^ (7 * Z.of_nat index)) as Hpow.
    { rewrite Nat2Z.inj_succ, Z.mul_succ_r, Z.pow_add_r by lia. change (2 ^ 7) with 128. lia. }
    rewrite IH; [|cbn in Hl; lia|rewrite Hpow; nia].
    rewrite Hpow, Nat.add_succ_comm. do 2 f_equal. lia.
Qed.

(** The loop gives up only when no varint ends within [limit] bytes or the
    value does not fit the type. *)
Lemma varint_fast_none vt limit index raw bytes :
  0 <= raw < 2 ^ (7 * Z.of_nat index) ->
  varint_fast vt limit index raw bytes <> None ->
  exists bs rest, bytes = bs ++ rest /\ varint_bytes bs /\ (length bs <= limit)%nat.
Proof.
  revert index raw bytes. induction limit as [|limit IH]; intros index raw [|b bytes] Hr Hs;
    [done..|]. cbn in Hs. rewrite (raw_step _ _ _ Hr) in Hs.
  destruct (Z.eqb_spec (Z.land b 128) 0) as [H0|Hc].
  - exists [b], bytes. repeat split; [by constructor|cbn; lia].
  - apply IH in Hs as (bs & rest & -> & Hb & Hl).
    + exists (b :: bs), rest. repeat split; [by constructor|cbn; lia].
    + pose proof (Z.mod_pos_bound b 128 ltac:(lia)). rewrite land_127 in *.
      rewrite Nat2Z.inj_succ, Z.mul_succ_r, Z.pow_add_r by lia. change (2 ^ 7) with 128. nia.
Qed.

Lemma group_value_bound bs : group_value bs < 2 ^ (7 * Z.of_nat (length bs)).
Proof.
  induction bs as [|b bs IH]; [done|]. rewrite group_value_cons, land_127.
  pose proof (Z.mod_pos_bound b 128 ltac:(lia)).
  cbn [length]. rewrite Nat2Z.inj_succ, Z.mul_succ_r, Z.pow_add_r by lia.
  change (2 ^ 7) with 128. lia.
Qed.

Section varint_reads.
Context `{VarIntLaws}.

Lemma read_varint_is_slow vt c : read_varint vt c = read_varint_slow vt c.
Proof.
  unfold read_varint. destruct (varint_fast vt 9 0 0 _) as [[v n]|] eqn:Hf; [|done].
  destruct (varint_fast_none vt 9 0 0 (drop (position c) (mmap c))) as (bs & rest & Heq & Hb & Hl);
    [done|by rewrite Hf|].
  unfold read_varint_slow. rewrite Heq in *.
  rewrite varint_fast_group in Hf by done.
  assert (group_value bs <= u64_max).
  { pose proof (group_value_bound bs).
    assert (2 ^ (7 * Z.of_nat (length bs)) <= 2 ^ 63) by (apply Z.pow_le_mono_r; lia).
    change (2 ^ 63) with 9223372036854775808 in *. word_lia. }
  rewrite decode_var_groups by (done || lia). cbn [Z.of_nat Z.mul] in Hf.
  rewrite Z.mul_1_l, Z.add_0_l in Hf. cbn [Nat.add] in Hf. by rewrite Hf.
Qed.

Lemma decodes_varint vt n : in_range vt n -> decodes (read_varint vt) (encode_var vt n) n.
Proof.
  intros Hn. pose proof (leb128_spec _ (to_raw_u64 _ _ Hn)) as (Hb & Hv & Hl).
  rewrite encode_var_leb128 by done. split.
  - intros pre rest _. rewrite read_varint_is_slow. unfold read_varint_slow.
    cbn [position mmap]. rewrite drop_app_length.
    rewrite decode_var_groups; [|done|lia|].
    + rewrite Hv, from_raw_to_raw by done. done.
    + pose proof (to_raw_u64 _ _ Hn). rewrite Hv. word_lia.
  - intros pre cut b tl Heq _. rewrite read_varint_is_slow. unfold read_varint_slow.
    cbn [position mmap]. rewrite drop_app_length.
    rewrite Heq in Hb, Hl. apply varint_bytes_prefix in Hb.
    rewrite length_app in Hl; cbn in Hl.
    rewrite decode_var_truncated by (done || lia).
    destruct (Nat.leb_spec 10 (length cut)); [lia|done].
Qed.

Lemma encode_var_length vt n :
  in_range vt n -> (1 <= length (encode_var vt n) <= 10)%nat.
Proof.
  intros Hn. rewrite encode_var_leb128 by done.
  by destruct (leb128_spec _ (to_raw_u64 _ _ Hn)) as (_ & _ & ?).
Qed.
End varint_reads.

Lemma decodes_magic : decodes check_magic CURRENT_MAGIC tt.
Proof.
  refine (decodes_bind _ _ CURRENT_MAGIC [] CURRENT_MAGIC tt (decodes_bytes CURRENT_MAGIC) _).
  rewrite decide_True by done. apply decodes_ret.
Qed.

(** ** Theorems *)

(** The inlined varint loop of [read_varint], which handles the first nine
    bytes itself, is indistinguishable from decoding with the crate: the same
    value, the same cursor and the same error, on every input and at every
    position, the end of the file and overlong encodings included. *)
Theorem read_varint_fast_path_exact `{VarIntLaws} (vt : vint) (c : MmapSpoolCursor) :
  read_varint vt c = read_varint_slow vt c.
Proof. apply read_varint_is_slow. Qed.

Lemma read_varint_fast_path_exact_witness :
  read_varint I64 (mkCursor [172; 130; 3; 9] 0) = (Ok 24726, mkCursor [172; 130; 3; 9] 3).
Proof. rewrite read_varint_fast_path_exact. vm_compute. reflexivity. Defined.
