(* ===== verification/Model.v ===== *)
(** * The recorded data model

    [src/identity.rs] (validated process and thread ids) and
    [src/spool/model.rs] (modules, frames, samples, threads).  A [Pid] or [Tid]
    is the [i32] it wraps; constructing one checks that it is positive. *)

From stdpp Require Import prelude countable list numbers.
From S2P Require Import Prelude.
#[local] Open Scope Z_scope.

(** ** Identities *)

Definition Pid_new (raw : Z) : option Z :=
  if (0 <? raw) && (raw <=? i32_max) then Some raw else None.

Definition Pid_try_from_i32 (raw : Z) : option Z := Pid_new raw.

Definition Pid_try_from_u32 (raw : Z) : option Z := n ← i32_try_from raw; Pid_new n.

Definition Tid_new (raw : Z) : option Z :=
  if (0 <? raw) && (raw <=? i32_max) then Some raw else None.

Definition Tid_try_from_u64 (raw : Z) : option Z := n ← i32_try_from raw; Tid_new n.

Definition is_pid (n : Z) : Prop := 0 < n <= i32_max.

Lemma Pid_new_spec raw pid : Pid_new raw = Some pid <-> raw = pid /\ is_pid pid.
Proof.
  unfold Pid_new, is_pid. split.
  - destruct (Z.ltb_spec 0 raw), (Z.leb_spec raw i32_max); cbn; intros; by simplify_eq.
  - intros [-> [??]]. by rewrite (proj2 (Z.ltb_lt _ _)), (proj2 (Z.leb_le _ _)).
Qed.

Lemma Pid_new_id pid : is_pid pid -> Pid_new pid = Some pid.
Proof. intros. by apply Pid_new_spec. Qed.

Lemma Tid_try_from_id tid : is_pid tid -> Tid_try_from_u64 tid = Some tid.
Proof.
  intros H. unfold Tid_try_from_u64, i32_try_from.
  rewrite (proj2 (andb_true_iff _ _)) by (unfold is_pid in H; word_lia).
  by apply Pid_new_spec.
Qed.

(** ** Modules *)

(** [ModuleOwner]: the process that owned a mapping, or the kernel. *)
Inductive ModuleOwner :=
  | Process (pid : Z)
  | KernelOwner.

#[global] Instance ModuleOwner_eq_dec : EqDecision ModuleOwner.
Proof. solve_decision. Defined.
#[global] Program Instance ModuleOwner_countable : Countable ModuleOwner :=
  inj_countable' (λ o, match o with Process p => Some p | KernelOwner => None end)
    (λ o, match o with Some p => Process p | None => KernelOwner end) _.
Next Obligation. by intros []. Qed.

Definition owner_from_wire (process_id : Z) (is_kernel : bool) : result ModuleOwner :=
  if is_kernel then Ok KernelOwner
  else match Pid_new process_id with
       | Some pid => Ok (Process pid)
       | None => Err InvalidData
       end.

Definition owner_pid (o : ModuleOwner) : option Z :=
  match o with Process pid => Some pid | KernelOwner => None end.

Definition owner_wire_process_id (o : ModuleOwner) : Z :=
  match o with Process pid => pid | KernelOwner => -1 end.

Definition owner_is_kernel (o : ModuleOwner) : bool :=
  match o with Process _ => false | KernelOwner => true end.

Record JitSymbol := mkJitSymbol {
  sym_start : Z;
  sym_end : Z;
  sym_name : list Z;
}.

#[global] Instance JitSymbol_eq_dec : EqDecision JitSymbol.
Proof. solve_decision. Defined.

Record ModuleRecord := mkModule {
  m_id : Z;
  m_owner : ModuleOwner;
  m_start : Z;
  m_end : Z;
  m_file_offset : Z;
  m_inode : Z;
  m_device_major : Z;
  m_device_minor : Z;
  m_inode_generation : Z;
  m_path : list Z;
  m_jit_symbols : option (list JitSymbol);
}.

#[global] Instance ModuleRecord_eq_dec : EqDecision ModuleRecord.
Proof. solve_decision. Defined.

Definition module_pid (m : ModuleRecord) : option Z := owner_pid (m_owner m).
Definition module_is_kernel (m : ModuleRecord) : bool := owner_is_kernel (m_owner m).

(** [Module::new]: a user mapping of unknown file identity. *)
Definition module_new (id process_id start stop file_offset : Z) (path : list Z)
    : result ModuleRecord :=
  if stop <=? start then Err InvalidInput
  else Ok (mkModule id (Process process_id) start stop file_offset 0 0 0 0 path None).

Definition with_id (id : Z) (m : ModuleRecord) : ModuleRecord :=
  mkModule id (m_owner m) (m_start m) (m_end m) (m_file_offset m) (m_inode m)
    (m_device_major m) (m_device_minor m) (m_inode_generation m) (m_path m)
    (m_jit_symbols m).

Definition MAX_JIT_SYMBOLS : Z := 1000000.
Definition MAX_JIT_SYMBOL_NAME : Z := 1024 * 1024.

(** ** Frames, samples and threads *)

Inductive FrameMode := User | Kernel | TruncatedStackMarker.

#[global] Instance FrameMode_eq_dec : EqDecision FrameMode.
Proof. solve_decision. Defined.

Record FrameRecord := mkFrame {
  f_module_id : option Z;
  f_file_relative_ip : Z;
  f_abs_ip : Z;
  f_mode : FrameMode;
}.

#[global] Instance FrameRecord_eq_dec : EqDecision FrameRecord.
Proof. solve_decision. Defined.

Definition truncated_stack_marker : FrameRecord := mkFrame None 0 0 TruncatedStackMarker.

Definition is_truncated_stack_marker (f : FrameRecord) : bool :=
  bool_decide (f = truncated_stack_marker).

Definition frame_mode (is_kernel : bool) : FrameMode := if is_kernel then Kernel else User.

Record SampleRecord := mkSample {
  s_timestamp_ns : Z;
  s_process_id : Z;
  s_thread_id : Z;
  s_stack_id : Z;
}.

Record ThreadRecord := mkThread { t_process_id : Z; t_thread_id : Z }.

Record PythonRuntimeRecord := mkPythonRuntime {
  p_timestamp_ns : Z;
  p_process_id : Z;
  p_is_python_runtime : bool;
}.

(** [StackNodeRecord]: one interned stack node.  [prefix] is the
    [Option<NonZeroU32>] of the source, the parent's id plus one. *)
Record StackNodeRecord := mkStackNode {
  n_prefix : option Z;
  n_frame_id : Z;
  n_depth : nat;
}.

(** ** Well-formed values: what the Rust types guarantee *)

Definition owner_ok (o : ModuleOwner) : Prop :=
  match o with Process pid => is_pid pid | KernelOwner => True end.

Record module_ok (m : ModuleRecord) : Prop := {
  mok_id : is_u32 (m_id m);
  mok_owner : owner_ok (m_owner m);
  mok_start : is_u64 (m_start m);
  mok_end : is_u64 (m_end m);
  mok_file_offset : is_u64 (m_file_offset m);
  mok_inode : is_u64 (m_inode m);
  mok_major : is_u32 (m_device_major m);
  mok_minor : is_u32 (m_device_minor m);
  mok_generation : is_u64 (m_inode_generation m);
  mok_path : Z.of_nat (length (m_path m)) <= i64_max;
}.

Record frame_ok (f : FrameRecord) : Prop := {
  fok_module : match f_module_id f with Some id => is_u32 id | None => True end;
  fok_file_relative : is_u64 (f_file_relative_ip f);
  fok_abs : is_u64 (f_abs_ip f);
}.

Lemma owner_wire_roundtrip o :
  owner_ok o -> owner_from_wire (owner_wire_process_id o) (owner_is_kernel o) = Ok o.
Proof. destruct o; cbn; [|done]. intros H. unfold owner_from_wire. by rewrite Pid_new_id. Qed.

Lemma owner_wire_i32 o : owner_ok o -> is_i32 (owner_wire_process_id o).
Proof. destruct o; cbn; unfold is_pid; word_lia. Qed.

(** ** UTF-8, for the symbol names of JIT modules *)

Definition utf8_tail (b : Z) : bool := (128 <=? b) && (b <=? 191).

(** The byte sequences [std::str::from_utf8] accepts. *)
Fixpoint utf8_valid (bs : list Z) : bool :=
  match bs with
  | [] => true
  | b0 :: bs1 =>
      if b0 <=? 127 then utf8_valid bs1
      else match bs1 with
      | [] => false
      | b1 :: bs2 =>
          if (194 <=? b0) && (b0 <=? 223) then utf8_tail b1 && utf8_valid bs2
          else match bs2 with
          | [] => false
          | b2 :: bs3 =>
              let second lo hi := (lo <=? b1) && (b1 <=? hi) in
              if b0 =? 224 then second 160 191 && utf8_tail b2 && utf8_valid bs3
              else if b0 =? 237 then second 128 159 && utf8_tail b2 && utf8_valid bs3
              else if (225 <=? b0) && (b0 <=? 239)
              then utf8_tail b1 && utf8_tail b2 && utf8_valid bs3
              else match bs3 with
              | [] => false
              | b3 :: bs4 =>
                  if b0 =? 240 then second 144 191 && utf8_tail b2 && utf8_tail b3 && utf8_valid bs4
                  else if b0 =? 244
                  then second 128 143 && utf8_tail b2 && utf8_tail b3 && utf8_valid bs4
                  else if (241 <=? b0) && (b0 <=? 243)
                  then utf8_tail b1 && utf8_tail b2 && utf8_tail b3 && utf8_valid bs4
                  else false
              end
          end
      end
  end.
