(* ===== verification/Output.v ===== *)
(** * The failure-remembering output

    [SpoolOutput] of [src/spool/mod.rs] over any [W: Write].  [Write] is the
    trait, [ReliableSink] the promise of a sink that never fails (it may accept
    a write partially); a [Vec<u8>] keeps it.  [write_all] is the standard
    library's loop: it retries interrupted writes, so the model gives it fuel,
    one step per byte plus the section's [interrupt_budget]. *)

From stdpp Require Import prelude list numbers.
From S2P Require Import Prelude Varint.
#[local] Open Scope Z_scope.

Class Write (W : Type) := {
  sink_write : list Z -> io W nat;
  sink_flush : io W unit;
}.

(** What [SpoolOutput]'s clients rely on when the underlying writer works. *)
Class ReliableSink (W : Type) `{Write W} := {
  content : W -> list Z;
  sink_write_ok w bs :
    exists n w', sink_write bs w = (Ok n, w') /\ (n <= length bs)%nat /\
      (bs <> [] -> (0 < n)%nat) /\ content w' = content w ++ take n bs;
  sink_flush_ok w : exists w', sink_flush w = (Ok tt, w') /\ content w' = content w;
}.

(** [impl Write for Vec<u8>]. *)
#[global] Instance vec_write : Write (list Z) := {|
  sink_write bs := λ w, (Ok (length bs), w ++ bs);
  sink_flush := λ w, (Ok tt, w);
|}.
#[global] Program Instance vec_reliable : ReliableSink (list Z) := {| content w := w |}.
Next Obligation.
  intros w bs. exists (length bs), (w ++ bs). cbn. repeat split; [done|..].
  - destruct bs; cbn; [done|lia].
  - by rewrite firstn_all.
Qed.
Next Obligation. intros w. by exists w. Qed.

Record SpoolOutput (W : Type) := mkOutput {
  o_inner : W;
  o_bytes : Z;
  o_failure : option ErrorKind;
}.
Arguments mkOutput {_} _ _ _.
Arguments o_inner {_} _.
Arguments o_bytes {_} _.
Arguments o_failure {_} _.

Section output.
Context {W : Type} `{Write W} (interrupt_budget : nat).

Definition output_new (inner : W) : SpoolOutput W := mkOutput inner 0 None.

(** [remember]: the first failure sticks and is the one reported. *)
Definition output_remember {A} (e : ErrorKind) : io (SpoolOutput W) A := λ o,
  let failure := default e (o_failure o) in
  (Err failure, mkOutput (o_inner o) (o_bytes o) (Some failure)).

(** [Write::write]. *)
Definition output_write (bs : list Z) : io (SpoolOutput W) nat := λ o,
  match o_failure o with
  | Some e => (Err e, o)
  | None =>
      match sink_write bs (o_inner o) with
      | (Ok n, w) =>
          if (n =? 0)%nat && negb (bool_decide (bs = []))
          then output_remember WriteZero (mkOutput w (o_bytes o) (o_failure o))
          else (Ok n, mkOutput w (o_bytes o + Z.of_nat n) (o_failure o))
      | (Err Interrupted, w) => (Err Interrupted, mkOutput w (o_bytes o) (o_failure o))
      | (Err e, w) => output_remember e (mkOutput w (o_bytes o) (o_failure o))
      end
  end.

(** [Write::flush]. *)
Definition output_flush : io (SpoolOutput W) unit := λ o,
  match sink_flush (o_inner o) with
  | (Err e, w) =>
      let o := mkOutput w (o_bytes o) (o_failure o) in
      match o_failure o with Some _ => (Err e, o) | None => output_remember e o end
  | (Ok _, w) =>
      let o := mkOutput w (o_bytes o) (o_failure o) in
      match o_failure o with Some e => (Err e, o) | None => (Ok tt, o) end
  end.

(** [std::io::Write::write_all], the provided method. *)
Fixpoint write_all_loop (fuel : nat) (bs : list Z) : io (SpoolOutput W) unit := λ o,
  match bs with
  | [] => (Ok tt, o)
  | _ =>
      match fuel with
      | O => (Err Diverged, o)
      | S fuel =>
          match output_write bs o with
          | (Ok O, o) => (Err WriteZero, o)
          | (Ok n, o) => write_all_loop fuel (drop n bs) o
          | (Err Interrupted, o) => write_all_loop fuel bs o
          | (Err e, o) => (Err e, o)
          end
      end
  end.
Definition write_all (bs : list Z) : io (SpoolOutput W) unit :=
  write_all_loop (length bs + interrupt_budget) bs.

(** [VarIntWriter::write_varint]: the encoded bytes, written with [write_all]. *)
Definition output_write_varint `{VarIntCrate} (vt : vint) (n : Z) : io (SpoolOutput W) unit :=
  write_all (encode_var vt n).

(** [write_bytes]: a length prefix and the bytes. *)
Definition output_write_bytes `{VarIntCrate} (bs : list Z) : io (SpoolOutput W) unit :=
  output_write_varint U64 (Z.of_nat (length bs));; write_all bs.

(** [write_record]: a tag and three varints, assembled in a buffer so that the
    record is one [write_all]. *)
Definition output_write_record `{VarIntCrate} (tag : Z) (fields : list (vint * Z))
    : io (SpoolOutput W) unit :=
  write_all (tag :: concat ((λ '(vt, n), encode_var vt n) <$> fields)).

(** ** A failure is terminal *)

Lemma output_write_failed bs o e :
  o_failure o = Some e -> output_write bs o = (Err e, o).
Proof. intros Hf. unfold output_write. by rewrite Hf. Qed.

(** The byte counter only moves by the number of bytes the sink accepted, and
    an output that reports an error other than an interruption has
    remembered one. *)
Lemma output_write_counts bs o r o' :
  output_write bs o = (r, o') ->
  match r with
  | Ok n => o_bytes o' = o_bytes o + Z.of_nat n /\ o_failure o' = None
  | Err e => o_bytes o' = o_bytes o /\
             (o_failure o' = Some e \/ (e = Interrupted /\ o_failure o' = o_failure o))
  end.
Proof.
  unfold output_write, output_remember. destruct (o_failure o) as [e|] eqn:Hf.
  { intros [= <- <-]. auto. }
  destruct (sink_write bs (o_inner o)) as [[n|e] w].
  - destruct (_ && _) eqn:Hz; intros [= <- <-]; cbn; auto.
  - destruct e; intros [= <- <-]; cbn; auto.
Qed.

(** ** A working sink *)

Section reliable.
Context `{!ReliableSink W}.

Lemma output_write_ok bs o :
  o_failure o = None -> bs <> [] ->
  exists n w', output_write bs o = (Ok n, mkOutput w' (o_bytes o + Z.of_nat n) None) /\
    (0 < n <= length bs)%nat /\ content w' = content (o_inner o) ++ take n bs.
Proof.
  intros Hf Hne. destruct (sink_write_ok (o_inner o) bs) as (n & w' & Hw & Hn & Hpos & Hc).
  specialize (Hpos Hne). exists n, w'. unfold output_write. rewrite Hf, Hw.
  assert ((n =? 0)%nat = false) as -> by (apply Nat.eqb_neq; lia). done.
Qed.

Lemma write_all_loop_ok fuel bs o :
  o_failure o = None -> (length bs <= fuel)%nat ->
  exists w', write_all_loop fuel bs o =
      (Ok tt, mkOutput w' (o_bytes o + Z.of_nat (length bs)) None) /\
    content w' = content (o_inner o) ++ bs.
Proof.
  revert bs o. induction fuel as [|fuel IH]; intros bs o Hf Hl.
  - destruct bs; [|cbn in Hl; lia]. exists (o_inner o). destruct o as [w n f]; cbn in *.
    subst. rewrite app_nil_r, Z.add_0_r. done.
  - destruct bs as [|b bs].
    { exists (o_inner o). destruct o as [w n f]; cbn in *.
      subst. rewrite app_nil_r, Z.add_0_r. done. }
    destruct (output_write_ok (b :: bs) o) as (n & w' & Hw & Hn & Hc); [done..|].
    cbn [write_all_loop]. rewrite Hw. destruct n as [|n]; [lia|].
    destruct (IH (drop (S n) (b :: bs)) (mkOutput w' (o_bytes o + Z.of_nat (S n)) None))
      as (w'' & -> & Hc'); [done|rewrite length_drop; lia|].
    exists w''. split.
    + do 2 f_equal. cbn [o_bytes]. rewrite length_drop. lia.
    + rewrite Hc'. cbn [o_inner]. rewrite Hc, <- app_assoc. f_equal. apply take_drop.
Qed.

Lemma write_all_ok bs o :
  o_failure o = None ->
  exists w', write_all bs o = (Ok tt, mkOutput w' (o_bytes o + Z.of_nat (length bs)) None) /\
    content w' = content (o_inner o) ++ bs.
Proof. intros Hf. apply write_all_loop_ok; [done|lia]. Qed.
End reliable.
End output.
