(* ===== verification/Records.v ===== *)
(** * Record payloads

    The readers of the spool records ([read_module_record], [read_frame],
    [read_stack_node], [read_thread], [read_sample], [read_python_runtime] and
    their helpers in [src/spool/mod.rs], [read_symbols] in [src/spool/jit.rs]),
    the byte format of [docs/] as encoding functions, and the proof that every
    reader inverts the format. *)

From stdpp Require Import prelude list numbers sorting.
From S2P Require Import Prelude Varint Cursor Model.
#[local] Open Scope Z_scope.

Definition REC_MODULE : Z := 1.
Definition REC_FRAME : Z := 2.
Definition REC_STACK : Z := 3.
Definition REC_THREAD : Z := 4.
Definition REC_SAMPLE : Z := 5.
Definition REC_PYTHON_RUNTIME : Z := 6.
Definition REC_MODULE_DEACTIVATE : Z := 7.
Definition REC_MODULE_DEACTIVATE_ONE : Z := 8.
Definition REC_JIT_MODULE : Z := 9.
Definition TRUNCATED_STACK_MARKER_TAG : Z := 5.
Definition NONE_U32 : Z := u32_max.

(** ** Readers *)

(** [check_bounded_index] on an index already known to fit. *)
Definition check_bounded_index (index : Z) (limit : nat) : result Z :=
  if index >=? Z.of_nat limit then Err InvalidData else Ok index.

(** [bounded_id_index]: the id and the index are the same number. *)
Definition bounded_id_index (raw : Z) (limit : nat) : result Z :=
  match u32_try_from raw with
  | None => Err InvalidData
  | Some id => check_bounded_index id limit
  end.

Definition bounded_index (raw : Z) (limit : nat) : result Z :=
  check_bounded_index raw limit.

(** The part of [read_frame] after its three varints are read. *)
Definition expand_frame (modules : list ModuleRecord) (tag encoded_ip : Z) : result FrameRecord :=
  if tag =? TRUNCATED_STACK_MARKER_TAG then
    if encoded_ip =? 0 then Ok truncated_stack_marker else Err InvalidData
  else if Z.land tag 1 =? 0 then
    match bounded_id_index (Z.shiftr tag 1) (length modules) with
    | Err e => Err e
    | Ok id =>
        match modules !! Z.to_nat id with
        | None => Err Panicked
        | Some module =>
            match checked_sub_u64 encoded_ip (m_file_offset module),
                  checked_sub_u64 (m_end module) (m_start module) with
            | Some offset, Some span =>
                if offset >=? span then Err InvalidData
                else Ok (mkFrame (Some id) encoded_ip (m_start module + offset)
                           (frame_mode (module_is_kernel module)))
            | _, _ => Err InvalidData
            end
        end
    end
  else Ok (mkFrame None encoded_ip encoded_ip (frame_mode (negb (Z.land tag 2 =? 0)))).

Section readers.
Context `{VarIntCrate}.
#[local] Abbreviation reader := (io MmapSpoolCursor).

Definition check_id (expected : nat) : reader unit :=
  id ← read_varint U64;
  if id =? Z.of_nat expected then mret tt else io_fail InvalidData.

Definition read_id_within (limit : nat) : reader Z :=
  raw ← read_varint U64; io_lift (bounded_id_index raw limit).

Definition read_index_within (limit : nat) : reader Z :=
  raw ← read_varint U64; io_lift (bounded_index raw limit).

Definition read_process_id : reader Z :=
  process_id ← read_varint I64; io_lift (ok_or InvalidData (i32_try_from process_id)).

Definition read_pid : reader Z :=
  raw ← read_process_id; io_lift (ok_or InvalidData (Pid_try_from_i32 raw)).

(** A one-byte flag, nonzero for true. *)
Definition read_flag : reader bool :=
  flag ← read_exact_spool 1; mret (negb (default 0 (head flag) =? 0)).

Definition symbols_unsorted (symbols : list JitSymbol) (start : Z) : bool :=
  match list.last symbols with Some symbol => sym_start symbol >? start | None => false end.

Fixpoint read_symbols_loop (count : nat) (module : ModuleRecord) (symbols : list JitSymbol)
    : reader (list JitSymbol) :=
  match count with
  | O => mret symbols
  | S count =>
      start ← read_varint U64;
      stop ← read_varint U64;
      if (start >=? stop) || (start <? m_start module) || (stop >? m_end module)
      then io_fail InvalidData
      else
        len ← read_varint U64;
        if len >? MAX_JIT_SYMBOL_NAME then io_fail InvalidData
        else
          range ← read_bytes_range len;
          name ← io_gets (mmap_slice range);
          if negb (utf8_valid name) then io_fail InvalidData
          else if symbols_unsorted symbols start then io_fail InvalidData
          else read_symbols_loop count module (symbols ++ [mkJitSymbol start stop name])
  end.

Definition read_symbols (module : ModuleRecord) : reader (list JitSymbol) :=
  count ← read_varint U64;
  if (count >? MAX_JIT_SYMBOLS) || module_is_kernel module then io_fail InvalidData
  else read_symbols_loop (Z.to_nat count) module [].

Definition read_module_record (expected_id : nat) (tag : Z) : reader ModuleRecord :=
  check_id expected_id;;
  id ← io_lift (ok_or InvalidData (u32_try_from (Z.of_nat expected_id)));
  process_id ← read_process_id;
  start ← read_varint U64;
  stop ← read_varint U64;
  file_offset ← read_varint U64;
  inode ← read_varint U64;
  raw_major ← read_varint U64;
  device_major ← io_lift (ok_or InvalidData (u32_try_from raw_major));
  raw_minor ← read_varint U64;
  device_minor ← io_lift (ok_or InvalidData (u32_try_from raw_minor));
  inode_generation ← read_varint U64;
  flag ← read_flag;
  owner ← io_lift (owner_from_wire process_id flag);
  len ← read_varint U64;
  range ← read_bytes_range len;
  path ← io_gets (mmap_slice range);
  let module := mkModule id owner start stop file_offset inode device_major device_minor
                  inode_generation path None in
  if tag =? REC_JIT_MODULE then
    symbols ← read_symbols module;
    mret (mkModule id owner start stop file_offset inode device_major device_minor
            inode_generation path (Some symbols))
  else mret module.

Definition read_frame (modules : list ModuleRecord) (expected_id : nat) : reader FrameRecord :=
  check_id expected_id;;
  tag ← read_varint U64;
  encoded_ip ← read_varint U64;
  io_lift (expand_frame modules tag encoded_ip).

Definition read_stack_node (stack_nodes : list StackNodeRecord) (frame_count : nat)
    : reader StackNodeRecord :=
  let expected_id := length stack_nodes in
  check_id expected_id;;
  raw_prefix ← read_varint U64;
  prefix ← (if raw_prefix =? NONE_U32 then mret None
            else io_lift (match bounded_id_index raw_prefix expected_id with
                          | Ok id => Ok (Some id)
                          | Err e => Err e
                          end));
  frame_id ← read_id_within frame_count;
  depth ← io_lift (match prefix with
                   | None => Ok 1%nat
                   | Some id => ok_or Panicked ((λ node, S (n_depth node)) <$>
                                                  stack_nodes !! Z.to_nat id)
                   end);
  mret (mkStackNode ((λ id, id + 1) <$> prefix) frame_id depth).

Definition read_thread (expected_id : nat) : reader ThreadRecord :=
  check_id expected_id;;
  process_id ← read_pid;
  raw_tid ← read_varint U64;
  thread_id ← io_lift (ok_or InvalidData (Tid_try_from_u64 raw_tid));
  mret (mkThread process_id thread_id).

(** [read_sample] returns the sample; its timestamp is the new
    [last_timestamp_ns], committed by the caller only on success. *)
Definition read_sample (threads : list ThreadRecord) (stack_count : nat)
    (last_timestamp_ns : Z) : reader SampleRecord :=
  delta ← read_varint I64;
  timestamp_ns ← io_lift (ok_or InvalidData (checked_add_signed_u64 last_timestamp_ns delta));
  thread_ref ← read_index_within (length threads);
  thread ← io_lift (ok_or Panicked (threads !! Z.to_nat thread_ref));
  stack_id ← read_id_within stack_count;
  mret (mkSample timestamp_ns (t_process_id thread) (t_thread_id thread) stack_id).

Definition read_python_runtime : reader PythonRuntimeRecord :=
  timestamp_ns ← read_varint U64;
  process_id ← read_pid;
  flag ← read_flag;
  mret (mkPythonRuntime timestamp_ns process_id flag).
End readers.

(** [compact_frame]: the on-disk encoding of a frame, also the interning key. *)
Definition compact_frame (frame : FrameRecord) : result (Z * Z) :=
  if decide (f_mode frame = TruncatedStackMarker) then
    if decide (frame = truncated_stack_marker) then Ok (TRUNCATED_STACK_MARKER_TAG, 0)
    else Err InvalidInput
  else Ok match f_module_id frame with
          | Some module_id => (Z.shiftl module_id 1, f_file_relative_ip frame)
          | None => (Z.lor 1 (Z.shiftl (if decide (f_mode frame = Kernel) then 1 else 0) 1),
                     f_abs_ip frame)
          end.

(** ** The format *)

(** A record as it stands in the file, with every id and varint explicit. *)
Inductive wire_record :=
  | WModule (m : ModuleRecord)
  | WFrame (id tag address : Z)
  | WStack (id prefix frame_id : Z)
  | WThread (id process_id thread_id : Z)
  | WSample (delta thread_id stack_id : Z)
  | WPythonRuntime (timestamp_ns process_id : Z) (is_python_runtime : bool)
  | WDeactivateProcess (process_id : Z)
  | WDeactivateModule (module_id : Z).

Section format.
Context `{VarIntCrate}.

Definition encode_flag (b : bool) : list Z := [if b then 1 else 0].
Definition encode_bytes (bs : list Z) : list Z :=
  encode_var U64 (Z.of_nat (length bs)) ++ bs.
Definition encode_symbol (s : JitSymbol) : list Z :=
  encode_var U64 (sym_start s) ++ encode_var U64 (sym_end s) ++ encode_bytes (sym_name s).
Definition encode_symbols (symbols : list JitSymbol) : list Z :=
  encode_var U64 (Z.of_nat (length symbols)) ++ concat (encode_symbol <$> symbols).
Definition module_tag (m : ModuleRecord) : Z :=
  match m_jit_symbols m with Some _ => REC_JIT_MODULE | None => REC_MODULE end.
Definition encode_module (m : ModuleRecord) : list Z :=
  encode_var U64 (m_id m) ++
  encode_var I64 (owner_wire_process_id (m_owner m)) ++
  encode_var U64 (m_start m) ++
  encode_var U64 (m_end m) ++
  encode_var U64 (m_file_offset m) ++
  encode_var U64 (m_inode m) ++
  encode_var U64 (m_device_major m) ++
  encode_var U64 (m_device_minor m) ++
  encode_var U64 (m_inode_generation m) ++
  encode_flag (module_is_kernel m) ++
  encode_var U64 (Z.of_nat (length (m_path m))) ++ m_path m ++
  match m_jit_symbols m with Some symbols => encode_symbols symbols | None => [] end.

Definition wire_tag (r : wire_record) : Z :=
  match r with
  | WModule m => module_tag m
  | WFrame _ _ _ => REC_FRAME
  | WStack _ _ _ => REC_STACK
  | WThread _ _ _ => REC_THREAD
  | WSample _ _ _ => REC_SAMPLE
  | WPythonRuntime _ _ _ => REC_PYTHON_RUNTIME
  | WDeactivateProcess _ => REC_MODULE_DEACTIVATE
  | WDeactivateModule _ => REC_MODULE_DEACTIVATE_ONE
  end.
Definition wire_payload (r : wire_record) : list Z :=
  match r with
  | WModule m => encode_module m
  | WFrame id tag address => encode_var U64 id ++ encode_var U64 tag ++ encode_var U64 address
  | WStack id prefix frame_id =>
      encode_var U64 id ++ encode_var U64 prefix ++ encode_var U64 frame_id
  | WThread id process_id thread_id =>
      encode_var U64 id ++ encode_var I64 process_id ++ encode_var U64 thread_id
  | WSample delta thread_id stack_id =>
      encode_var I64 delta ++ encode_var U64 thread_id ++ encode_var U64 stack_id
  | WPythonRuntime timestamp_ns process_id flag =>
      encode_var U64 timestamp_ns ++ encode_var I64 process_id ++ encode_flag flag
  | WDeactivateProcess process_id => encode_var I64 process_id
  | WDeactivateModule module_id => encode_var U64 module_id
  end.
Definition encode_record (r : wire_record) : list Z := wire_tag r :: wire_payload r.
End format.

(** ** What the writer puts into a JIT module's symbol table *)

Record symbol_ok (lo hi : Z) (s : JitSymbol) : Prop := {
  sok_nonempty : sym_start s < sym_end s;
  sok_inside : lo <= sym_start s /\ sym_end s <= hi;
  sok_name : Z.of_nat (length (sym_name s)) <= MAX_JIT_SYMBOL_NAME;
  sok_utf8 : utf8_valid (sym_name s) = true;
}.

Record symbols_ok (owner : ModuleOwner) (lo hi : Z) (symbols : list JitSymbol) : Prop := {
  ssok_count : Z.of_nat (length symbols) <= MAX_JIT_SYMBOLS;
  ssok_user : owner_is_kernel owner = false;
  ssok_each : Forall (symbol_ok lo hi) symbols;
  ssok_sorted : StronglySorted (λ a b, sym_start a <= sym_start b) symbols;
}.

Definition jit_ok (m : ModuleRecord) : Prop :=
  match m_jit_symbols m with Some symbols => symbols_ok (m_owner m) (m_start m) (m_end m) symbols | None => True end.

(** ** Composing the contract *)

Section decode_rules.
Context `{VarIntLaws}.

Lemma decodes_last {A B} (p : io MmapSpoolCursor A) (k : A -> io MmapSpoolCursor B) bs a b :
  decodes p bs a -> decodes (k a) [] b -> decodes (p ≫= k) bs b.
Proof. rewrite <- (app_nil_r bs) at 2. apply decodes_bind. Qed.

Lemma decodes_lift {A B} (r : result A) (k : A -> io MmapSpoolCursor B) bs a b :
  r = Ok a -> decodes (k a) bs b -> decodes (io_lift r ≫= k) bs b.
Proof. by intros ->. Qed.

Lemma decodes_flag b : decodes read_flag (encode_flag b) b.
Proof.
  unfold read_flag. eapply decodes_last; [apply (decodes_bytes [if b then 1 else 0])|].
  destruct b; apply decodes_ret.
Qed.

Lemma decodes_check_id n :
  Z.of_nat n <= u64_max -> decodes (check_id n) (encode_var U64 (Z.of_nat n)) tt.
Proof.
  intros Hn. eapply decodes_last; [apply decodes_varint; cbn; word_lia|].
  rewrite Z.eqb_refl. apply decodes_ret.
Qed.

Lemma bounded_id_index_ok id limit :
  is_u32 id -> id < Z.of_nat limit -> bounded_id_index id limit = Ok id.
Proof.
  intros Hid Hl. unfold bounded_id_index, u32_try_from, check_bounded_index.
  rewrite (proj2 (andb_true_iff _ _)) by word_lia.
  by rewrite Z.geb_leb, (proj2 (Z.leb_gt _ _)).
Qed.

Lemma decodes_id_within id limit :
  is_u32 id -> id < Z.of_nat limit -> decodes (read_id_within limit) (encode_var U64 id) id.
Proof.
  intros Hid Hl. eapply decodes_last; [apply decodes_varint; cbn; word_lia|].
  rewrite bounded_id_index_ok by done. apply decodes_ret.
Qed.

Lemma decodes_index_within i limit :
  is_u64 i -> i < Z.of_nat limit -> decodes (read_index_within limit) (encode_var U64 i) i.
Proof.
  intros Hid Hl. eapply decodes_last; [by apply decodes_varint|].
  unfold bounded_index, check_bounded_index.
  rewrite Z.geb_leb, (proj2 (Z.leb_gt _ _)) by done. apply decodes_ret.
Qed.

Lemma decodes_process_id n : is_i32 n -> decodes read_process_id (encode_var I64 n) n.
Proof.
  intros Hn. eapply decodes_last; [apply decodes_varint; cbn; word_lia|].
  unfold i32_try_from. rewrite (proj2 (andb_true_iff _ _)) by word_lia. apply decodes_ret.
Qed.

Lemma decodes_pid n : is_pid n -> decodes read_pid (encode_var I64 n) n.
Proof.
  intros Hn. eapply decodes_last; [apply decodes_process_id; unfold is_pid in Hn; word_lia|].
  unfold Pid_try_from_i32. rewrite Pid_new_id by done. apply decodes_ret.
Qed.
End decode_rules.

(** Read the next field of a record with the rule for its reader. *)
Create HintDb decodes.
#[export] Hint Resolve decodes_ret decodes_varint decodes_flag decodes_check_id decodes_id_within
  decodes_index_within decodes_process_id decodes_pid : decodes.
#[export] Hint Extern 5 (in_range _ _) => cbn; word_lia : decodes.
#[export] Hint Extern 5 (is_u64 _) => word_lia : decodes.
#[export] Hint Extern 5 (Z.of_nat _ <= _) => word_lia : decodes.

Ltac decode_field :=
  first [eapply decodes_bind; [eauto with decodes; fail | cbn beta]
        |eapply decodes_last; [eauto with decodes; fail | cbn beta]].

Section payloads.
Context `{VarIntLaws}.

Lemma decodes_bytes_field {A} bs (k : list Z -> io MmapSpoolCursor A) bs' a :
  Z.of_nat (length bs) <= i64_max ->
  decodes (k bs) bs' a ->
  decodes (len ← read_varint U64; range ← read_bytes_range len;
           slice ← io_gets (mmap_slice range); k slice)
    (encode_var U64 (Z.of_nat (length bs)) ++ bs ++ bs') a.
Proof. intros Hl Hk. decode_field. by apply decodes_range. Qed.

Lemma symbols_unsorted_false (done todo : list JitSymbol) s :
  StronglySorted (λ a b, sym_start a <= sym_start b) (done ++ s :: todo) ->
  symbols_unsorted done (sym_start s) = false.
Proof.
  unfold symbols_unsorted. destruct (list.last done) as [l|] eqn:Hl; [|done].
  apply last_Some in Hl as [d ->]. intros Hs.
  apply StronglySorted_app in Hs as (Hs & _ & _).
  assert (sym_start l <= sym_start s); [|lia]. apply Hs; set_solver.
Qed.

Lemma decodes_symbols_loop module todo done :
  module_ok module -> Forall (symbol_ok (m_start module) (m_end module)) todo ->
  StronglySorted (λ a b, sym_start a <= sym_start b) (done ++ todo) ->
  decodes (read_symbols_loop (length todo) module done)
    (concat (encode_symbol <$> todo)) (done ++ todo).
Proof.
  intros Hm. revert done. induction todo as [|s todo IH]; intros done Hs Hsort; cbn.
  { rewrite app_nil_r. apply decodes_ret. }
  apply Forall_cons in Hs as [[Hne [Hlo Hhi] Hn Hu] Hs]. destruct Hm as [_ _ Hms Hme].
  unfold encode_symbol, encode_bytes, MAX_JIT_SYMBOL_NAME in *. rewrite <- !app_assoc.
  do 2 decode_field.
  rewrite (proj2 (orb_false_iff _ _)) by (rewrite orb_false_iff; lia).
  decode_field. rewrite Z.gtb_ltb, (proj2 (Z.ltb_ge _ _)) by (unfold MAX_JIT_SYMBOL_NAME; lia).
  apply decodes_range. rewrite Hu. cbn [negb].
  rewrite symbols_unsorted_false with (todo := todo) by done.
  replace (done ++ s :: todo) with ((done ++ [s]) ++ todo) by (by rewrite <- app_assoc).
  destruct s; apply IH; [done|]. by rewrite <- app_assoc.
Qed.

Lemma decodes_symbols module symbols :
  module_ok module ->
  symbols_ok (m_owner module) (m_start module) (m_end module) symbols ->
  decodes (read_symbols module) (encode_symbols symbols) symbols.
Proof.
  intros Hm [Hc Hu He Hs]. unfold read_symbols, encode_symbols, MAX_JIT_SYMBOLS in *.
  decode_field. unfold module_is_kernel. rewrite Hu, orb_false_r, Z.gtb_ltb, (proj2 (Z.ltb_ge _ _)) by (cbn; lia).
  rewrite Nat2Z.id. by apply decodes_symbols_loop.
Qed.

Lemma decodes_module m :
  module_ok m -> jit_ok m ->
  decodes (read_module_record (Z.to_nat (m_id m)) (module_tag m)) (encode_module m) m.
Proof.
  intros Hok Hjit. pose proof Hok as [Hid Ho Hs He Hf Hi Hma Hmi Hg Hp].
  unfold read_module_record, encode_module.
  assert (Z.of_nat (Z.to_nat (m_id m)) = m_id m) as Hnat by word_lia.
  eapply decodes_bind; [rewrite <- Hnat at 2; eauto with decodes|].
  rewrite Hnat. eapply decodes_lift.
  { unfold u32_try_from. by rewrite (proj2 (andb_true_iff _ _)) by word_lia. }
  pose proof (owner_wire_i32 _ Ho). do 5 decode_field. decode_field.
  eapply decodes_lift.
  { unfold u32_try_from. by rewrite (proj2 (andb_true_iff _ _)) by word_lia. }
  decode_field. eapply decodes_lift.
  { unfold u32_try_from. by rewrite (proj2 (andb_true_iff _ _)) by word_lia. }
  do 2 decode_field. eapply decodes_lift; [by apply owner_wire_roundtrip|].
  decode_field. apply decodes_range. unfold jit_ok, module_tag in *.
  destruct m as [id o st en fo ino ma mi ge pa [symbols|]]; cbn in *; [|apply decodes_ret].
  eapply decodes_last; [apply decodes_symbols; [|done]|apply decodes_ret].
  by destruct Hok.
Qed.
End payloads.
