(* ===== verification/Contexts.v ===== *)
(** * Frame-to-module contexts

    [ChunkedFrameContext], [SpoolFrameModuleContexts] and the lookup of the
    module of a frame ([module_for_frame_with_context] and its helpers) of
    [src/spool/mod.rs].  The chunked vectors are proved to behave like flat
    ones, and the owner-indexed search like a scan of every module. *)

From stdpp Require Import prelude gmap list numbers sorting.
From S2P Require Import Prelude Model.
#[local] Open Scope Z_scope.

(** [slice::partition_point] on a partitioned slice: the length of the prefix
    on which the predicate holds. *)
Fixpoint partition_point {A} (p : A -> bool) (l : list A) : nat :=
  match l with
  | [] => 0%nat
  | x :: l => if p x then S (partition_point p l) else 0%nat
  end.

(** ** Chunked vectors *)

Definition FRAME_CONTEXT_CHUNK_SIZE : nat := N.to_nat 1024.

Definition ChunkedFrameContext (T : Type) : Type := list (list T).

Definition chunked_get {T} (c : ChunkedFrameContext T) (index : nat) : option T :=
  chunk ← c !! (index / FRAME_CONTEXT_CHUNK_SIZE)%nat;
  chunk !! (index mod FRAME_CONTEXT_CHUNK_SIZE)%nat.

Definition chunked_push {T} (value : T) (c : ChunkedFrameContext T) : ChunkedFrameContext T :=
  match list.last c with
  | Some chunk =>
      if (length chunk <? FRAME_CONTEXT_CHUNK_SIZE)%nat
      then <[pred (length c) := chunk ++ [value]]> c
      else c ++ [[value]]
  | None => c ++ [[value]]
  end.

(** A write through [get_mut]. *)
Definition chunked_set {T} (index : nat) (value : T) (c : ChunkedFrameContext T)
    : ChunkedFrameContext T :=
  alter (λ chunk, <[(index mod FRAME_CONTEXT_CHUNK_SIZE)%nat := value]> chunk)
    (index / FRAME_CONTEXT_CHUNK_SIZE)%nat c.

(** ** The contexts *)

Record FrameLookupContext := mkLookupContext { frame_index : nat; module_limit : nat }.

Record SpoolFrameModuleContexts := mkContexts {
  frame_module_limits : ChunkedFrameContext nat;
  module_deactivated_at : ChunkedFrameContext (option nat);
  owned_modules : gmap ModuleOwner (ChunkedFrameContext nat);
}.

Definition contexts_empty : SpoolFrameModuleContexts := mkContexts [] [] ∅.

Definition push_module (module_index : nat) (owner : ModuleOwner)
    (ctx : SpoolFrameModuleContexts) : SpoolFrameModuleContexts :=
  mkContexts (frame_module_limits ctx) (chunked_push None (module_deactivated_at ctx))
    (<[owner := chunked_push module_index (default [] (owned_modules ctx !! owner))]>
       (owned_modules ctx)).

Definition push_frame (limit : nat) (ctx : SpoolFrameModuleContexts) : SpoolFrameModuleContexts :=
  mkContexts (chunked_push limit (frame_module_limits ctx)) (module_deactivated_at ctx)
    (owned_modules ctx).

(** Module indices of [owner] below [limit], newest first. *)
Definition owned_modules_before (ctx : SpoolFrameModuleContexts) (owner : ModuleOwner)
    (limit : nat) : list nat :=
  let chunks := default [] (owned_modules ctx !! owner) in
  let starts_below chunk := match head chunk with Some i => (i <? limit)%nat | None => false end in
  let chunks := take (partition_point starts_below chunks) chunks in
  concat (imap (λ position chunk,
      let len := if (position =? 0)%nat then partition_point (λ i, (i <? limit)%nat) chunk
                 else length chunk in
      reverse (take len chunk)) (reverse chunks)).

(** [deactivate_module]: [None] is the [expect] on a missing context. *)
Definition deactivate_module (module_id deactivated_at : nat) (ctx : SpoolFrameModuleContexts)
    : option (bool * SpoolFrameModuleContexts) :=
  slot ← chunked_get (module_deactivated_at ctx) module_id;
  match slot with
  | Some _ => Some (false, ctx)
  | None => Some (true, mkContexts (frame_module_limits ctx)
                          (chunked_set module_id (Some deactivated_at) (module_deactivated_at ctx))
                          (owned_modules ctx))
  end.

(** The loop of [deactivate_owner], collecting what it passes to [deactivated]. *)
Fixpoint deactivate_all (ids : list nat) (deactivated_at : nat) (ctx : SpoolFrameModuleContexts)
    : option (list nat * SpoolFrameModuleContexts) :=
  match ids with
  | [] => Some ([], ctx)
  | id :: ids =>
      match deactivate_module id deactivated_at ctx with
      | None => None
      | Some (was_active, ctx) =>
          match deactivate_all ids deactivated_at ctx with
          | None => None
          | Some (retired, ctx) => Some (if was_active then id :: retired else retired, ctx)
          end
      end
  end.

Definition deactivate_owner (owner : ModuleOwner) (deactivated_at : nat)
    (ctx : SpoolFrameModuleContexts) : option (list nat * SpoolFrameModuleContexts) :=
  match owned_modules ctx !! owner with
  | None => Some ([], ctx)
  | Some modules => deactivate_all (concat modules) deactivated_at ctx
  end.

Definition for_frame_id (ctx : SpoolFrameModuleContexts) (frame_id : Z)
    : option FrameLookupContext :=
  let frame_index := Z.to_nat frame_id in
  limit ← chunked_get (frame_module_limits ctx) frame_index;
  Some (mkLookupContext frame_index limit).

Definition module_active (ctx : SpoolFrameModuleContexts) (module_index : nat)
    (context : FrameLookupContext) : bool :=
  (module_index <? module_limit context)%nat &&
  match mjoin (chunked_get (module_deactivated_at ctx) module_index) with
  | None => true
  | Some deactivated_at => (frame_index context <? deactivated_at)%nat
  end.

(** ** The module of a frame *)

(** [Mapping]: a module and the frame's address in its file. *)
Record FrameModuleRef := mkModuleRef { r_module : ModuleRecord; r_file_relative_ip : Z }.

Definition module_owns_frame (module : ModuleRecord) (process_id : Z) (frame : FrameRecord)
    : bool :=
  match f_mode frame with
  | Kernel => module_is_kernel module
  | User => match module_pid module with Some pid => pid =? process_id | None => false end
  | TruncatedStackMarker => false
  end && (m_start module <=? f_abs_ip frame) && (f_abs_ip frame <? m_end module).

Definition frame_module_ref (module : ModuleRecord) (frame : FrameRecord)
    : option FrameModuleRef :=
  offset ← checked_sub_u64 (f_abs_ip frame) (m_start module);
  ip ← checked_add_u64 offset (m_file_offset module);
  Some (mkModuleRef module ip).

Definition frame_owner (mode : FrameMode) (process_id : Z) : option ModuleOwner :=
  match mode with
  | Kernel => Some KernelOwner
  | User => Process <$> Pid_new process_id
  | TruncatedStackMarker => None
  end.

(** The [find_map] closure of [find_unpinned_frame_module]. *)
Definition active_owning_module (modules : list ModuleRecord) (ctx : SpoolFrameModuleContexts)
    (context : FrameLookupContext) (process_id : Z) (frame : FrameRecord) (index : nat)
    : option ModuleRecord :=
  if negb (module_active ctx index context) then None
  else module ← modules !! index;
       if module_owns_frame module process_id frame then Some module else None.

Fixpoint find_map {A B} (f : A -> option B) (l : list A) : option B :=
  match l with
  | [] => None
  | x :: l => match f x with Some y => Some y | None => find_map f l end
  end.

Definition find_unpinned_frame_module (modules : list ModuleRecord)
    (ctx : SpoolFrameModuleContexts) (frame_id process_id : Z) (frame : FrameRecord)
    : option FrameModuleRef :=
  context ← for_frame_id ctx frame_id;
  owner ← frame_owner (f_mode frame) process_id;
  let limit := (module_limit context `min` length modules)%nat in
  module ← find_map (active_owning_module modules ctx context process_id frame)
             (owned_modules_before ctx owner limit);
  frame_module_ref module frame.

Definition pinned_frame_module (modules : list ModuleRecord) (module_id : Z) (frame : FrameRecord)
    : option FrameModuleRef :=
  module ← modules !! Z.to_nat module_id;
  Some (mkModuleRef module (f_file_relative_ip frame)).

Definition module_for_frame_with_context (modules : list ModuleRecord)
    (ctx : SpoolFrameModuleContexts) (frame_id process_id : Z) (frame : FrameRecord)
    : option FrameModuleRef :=
  if decide (f_mode frame = TruncatedStackMarker) then None
  else match f_module_id frame with
       | Some module_id => pinned_frame_module modules module_id frame
       | None => find_unpinned_frame_module modules ctx frame_id process_id frame
       end.

Definition module_for_frame_unbounded (modules : list ModuleRecord) (process_id : Z)
    (frame : FrameRecord) (is_active : ModuleRecord -> bool) : option FrameModuleRef :=
  if decide (f_mode frame = TruncatedStackMarker) then None
  else match f_module_id frame with
       | Some module_id => pinned_frame_module modules module_id frame
       | None =>
           module ← find_map (λ module,
               if is_active module && module_owns_frame module process_id frame
               then Some module else None) (reverse modules);
           frame_module_ref module frame
       end.

(** ** Chunked vectors behave like vectors *)

Fixpoint chunked_wf {T} (c : ChunkedFrameContext T) : Prop :=
  match c with
  | [] => True
  | chunk :: c =>
      (0 < length chunk <= FRAME_CONTEXT_CHUNK_SIZE)%nat /\
      (c <> [] -> length chunk = FRAME_CONTEXT_CHUNK_SIZE) /\ chunked_wf c
  end.

Lemma chunk_size_pos : (0 < FRAME_CONTEXT_CHUNK_SIZE)%nat.
Proof. unfold FRAME_CONTEXT_CHUNK_SIZE. lia. Qed.
#[global] Opaque FRAME_CONTEXT_CHUNK_SIZE.

Section chunked.
Context {T : Type}.
Implicit Types (c : ChunkedFrameContext T).

Lemma chunk_index_shift i :
  (FRAME_CONTEXT_CHUNK_SIZE <= i)%nat ->
  (i / FRAME_CONTEXT_CHUNK_SIZE = S ((i - FRAME_CONTEXT_CHUNK_SIZE) / FRAME_CONTEXT_CHUNK_SIZE) /\
   i mod FRAME_CONTEXT_CHUNK_SIZE =
     (i - FRAME_CONTEXT_CHUNK_SIZE) mod FRAME_CONTEXT_CHUNK_SIZE)%nat.
Proof.
  intros Hi. pose proof chunk_size_pos.
  replace i with ((i - FRAME_CONTEXT_CHUNK_SIZE) + 1 * FRAME_CONTEXT_CHUNK_SIZE)%nat at 1 3
    by lia.
  rewrite Nat.div_add, Nat.Div0.mod_add by lia. lia.
Qed.

Lemma chunked_get_flat c i : chunked_wf c -> chunked_get c i = concat c !! i.
Proof.
  revert i. induction c as [|chunk c IH]; intros i; [done|].
  intros (Hlen & Hfull & Hwf). cbn [concat].
  destruct (Nat.lt_ge_cases i FRAME_CONTEXT_CHUNK_SIZE) as [Hi|Hi].
  - unfold chunked_get. rewrite Nat.div_small, Nat.mod_small by done. cbn.
    destruct (decide (c = [])) as [->|Hne]; [by rewrite app_nil_r|].
    rewrite lookup_app_l by (rewrite Hfull; done). done.
  - assert (chunked_get (chunk :: c) i = chunked_get c (i - FRAME_CONTEXT_CHUNK_SIZE)) as ->.
    { unfold chunked_get. by destruct (chunk_index_shift i Hi) as [-> ->]. }
    destruct (decide (c = [])) as [->|Hne].
    { cbn. by rewrite app_nil_r, lookup_ge_None_2 by lia. }
    rewrite lookup_app_r, IH by (done || rewrite Hfull; done). by rewrite Hfull.
Qed.

Lemma chunked_push_cons chunk c v :
  c <> [] -> chunked_push v (chunk :: c) = chunk :: chunked_push v c.
Proof.
  intros Hne. unfold chunked_push. destruct c as [|d c]; [done|].
  replace (list.last (chunk :: d :: c)) with (list.last (d :: c)) by done.
  destruct (list.last (d :: c)); [|done].
  by destruct (length l <? FRAME_CONTEXT_CHUNK_SIZE)%nat.
Qed.

Lemma chunked_push_spec c v :
  chunked_wf c -> chunked_wf (chunked_push v c) /\ chunked_push v c <> [] /\
    concat (chunked_push v c) = concat c ++ [v].
Proof.
  pose proof chunk_size_pos. induction c as [|chunk c IH]; intros Hwf.
  { cbn. repeat split; try done; lia. }
  destruct Hwf as (Hlen & Hfull & Hwf). destruct (decide (c = [])) as [->|Hne].
  - unfold chunked_push. cbn -[Nat.ltb]. destruct (Nat.ltb_spec (length chunk) FRAME_CONTEXT_CHUNK_SIZE).
    + cbn. rewrite !app_nil_r, length_app. cbn. repeat split; try done; lia.
    + cbn. rewrite !app_nil_r. repeat split; try done; lia.
  - rewrite chunked_push_cons by done. destruct (IH Hwf) as (Hw & Hn & Hc).
    cbn [concat chunked_wf]. rewrite Hc, app_assoc. repeat split; try done; try lia.
    intros _. by apply Hfull.
Qed.

Lemma chunked_set_spec c i v :
  chunked_wf c -> chunked_wf (chunked_set i v c) /\ length (chunked_set i v c) = length c /\
    concat (chunked_set i v c) = <[i := v]> (concat c).
Proof.
  unfold chunked_set. revert i. induction c as [|chunk c IH]; intros i; [done|].
  intros (Hlen & Hfull & Hwf). cbn [concat].
  destruct (Nat.lt_ge_cases i FRAME_CONTEXT_CHUNK_SIZE) as [Hi|Hi].
  - rewrite Nat.div_small, Nat.mod_small by done. cbn. rewrite length_insert.
    split; [done|]. split; [done|].
    destruct (decide (c = [])) as [->|Hne]; [by rewrite !app_nil_r|].
    rewrite insert_app_l by (rewrite Hfull; done). done.
  - destruct (chunk_index_shift i Hi) as [-> ->]. cbn.
    destruct (IH (i - FRAME_CONTEXT_CHUNK_SIZE)%nat Hwf) as (Hw & Hl & Hc). rewrite Hl.
    repeat split; try done; try lia.
    { intros Hne. apply Hfull. intros ->. by apply Hne. }
    destruct (decide (c = [])) as [->|Hne].
    { cbn in *. rewrite !app_nil_r, list_insert_ge by lia. done. }
    rewrite Hc, insert_app_r_alt by (rewrite Hfull; done). by rewrite Hfull.
Qed.
End chunked.

(** ** The owner index *)

Definition owned_indices (modules : list ModuleRecord) (owner : ModuleOwner) : list nat :=
  filter (λ i, m_owner <$> modules !! i = Some owner) (seq 0 (length modules)).

Record contexts_wf (modules : list ModuleRecord) (frames : nat) (ctx : SpoolFrameModuleContexts)
    : Prop := {
  cwf_limits : chunked_wf (frame_module_limits ctx);
  cwf_limits_length : length (concat (frame_module_limits ctx)) = frames;
  cwf_limits_bound i limit :
    concat (frame_module_limits ctx) !! i = Some limit -> (limit <= length modules)%nat;
  cwf_deactivated : chunked_wf (module_deactivated_at ctx);
  cwf_deactivated_length : length (concat (module_deactivated_at ctx)) = length modules;
  cwf_owned owner : chunked_wf (default [] (owned_modules ctx !! owner));
  cwf_owned_indices owner :
    concat (default [] (owned_modules ctx !! owner)) = owned_indices modules owner;
}.

Lemma owned_indices_snoc modules m owner :
  owned_indices (modules ++ [m]) owner =
    owned_indices modules owner ++ (if decide (m_owner m = owner) then [length modules] else []).
Proof.
  unfold owned_indices. rewrite length_app, seq_app, list.filter_app. cbn [length seq Nat.add]. f_equal.
  - apply filter_ext_elem. intros i Hi%elem_of_seq. by rewrite lookup_app_l by lia.
  - rewrite list.filter_cons, list.filter_nil.
    rewrite lookup_app_r, Nat.sub_diag by done. cbn.
    repeat case_decide; by simplify_eq.
Qed.

Lemma contexts_wf_empty : contexts_wf [] 0 contexts_empty.
Proof. split; try done; intros owner; by rewrite lookup_empty. Qed.

Lemma push_module_wf modules frames ctx m :
  contexts_wf modules frames ctx ->
  contexts_wf (modules ++ [m]) frames (push_module (length modules) (m_owner m) ctx).
Proof.
  intros [Hl Hll Hb Hd Hdl Ho Hoi].
  destruct (chunked_push_spec (module_deactivated_at ctx) None Hd) as (Hd1 & _ & Hd2).
  destruct (chunked_push_spec (default [] (owned_modules ctx !! m_owner m)) (length modules)
              (Ho (m_owner m))) as (Ho1 & _ & Ho2).
  split; cbn; try done.
  - intros i limit Hi%Hb. rewrite length_app. lia.
  - by rewrite Hd2, !length_app, Hdl.
  - intros owner. rewrite lookup_insert. by case_decide.
  - intros owner. rewrite lookup_insert, owned_indices_snoc.
    case_decide; cbn; subst; [by rewrite Ho2, Hoi|by rewrite app_nil_r].
Qed.

Lemma push_frame_wf modules frames ctx :
  contexts_wf modules frames ctx ->
  contexts_wf modules (S frames) (push_frame (length modules) ctx).
Proof.
  intros [Hl Hll Hb Hd Hdl Ho Hoi].
  destruct (chunked_push_spec (frame_module_limits ctx) (length modules) Hl) as (Hl1 & _ & Hl2).
  split; cbn; try done.
  - rewrite Hl2, length_app, Hll. cbn. lia.
  - intros i limit. rewrite Hl2, lookup_app_Some. intros [Hi|[_ Hi]]; [by eapply Hb|].
    apply list_lookup_singleton_Some in Hi as [_ <-]. done.
Qed.

Lemma deactivate_module_wf modules frames ctx id at_frame :
  contexts_wf modules frames ctx -> (id < length modules)%nat ->
  exists was_active ctx', deactivate_module id at_frame ctx = Some (was_active, ctx') /\
    contexts_wf modules frames ctx' /\
    frame_module_limits ctx' = frame_module_limits ctx /\
    owned_modules ctx' = owned_modules ctx.
Proof.
  intros Hwf Hid. pose proof Hwf as [Hl Hll Hb Hd Hdl Ho Hoi]. unfold deactivate_module.
  rewrite chunked_get_flat by done.
  destruct (lookup_lt_is_Some_2 (concat (module_deactivated_at ctx)) id) as [[t|] Hs];
    [by rewrite Hdl|rewrite Hs; cbn; eauto 10|].
  rewrite Hs; cbn. eexists _, _. split; [done|]. split; [|done].
  destruct (chunked_set_spec (module_deactivated_at ctx) id (Some at_frame) Hd) as (H1 & _ & H3).
  split; cbn; try done. by rewrite H3, length_insert.
Qed.

Lemma deactivate_all_wf modules frames ctx ids at_frame :
  contexts_wf modules frames ctx -> Forall (λ id, (id < length modules)%nat) ids ->
  exists retired ctx', deactivate_all ids at_frame ctx = Some (retired, ctx') /\
    contexts_wf modules frames ctx' /\
    frame_module_limits ctx' = frame_module_limits ctx /\
    owned_modules ctx' = owned_modules ctx.
Proof.
  intros Hwf Hids. revert ctx Hwf. induction Hids as [|id ids Hid Hids IH]; intros ctx Hwf.
  { cbn. eauto 10. }
  cbn. destruct (deactivate_module_wf _ _ _ id at_frame Hwf Hid) as (wa & ctx1 & -> & Hwf1 & E1 & E2).
  destruct (IH ctx1 Hwf1) as (retired & ctx2 & -> & Hwf2 & E3 & E4).
  rewrite <- E1, <- E2. eauto 10.
Qed.

Lemma owned_indices_lt modules owner :
  Forall (λ id, (id < length modules)%nat) (owned_indices modules owner).
Proof.
  apply list.Forall_forall. intros i [_ Hi]%list_elem_of_filter.
  apply elem_of_seq in Hi. lia.
Qed.

Lemma deactivate_owner_wf modules frames ctx owner at_frame :
  contexts_wf modules frames ctx ->
  exists retired ctx', deactivate_owner owner at_frame ctx = Some (retired, ctx') /\
    contexts_wf modules frames ctx'.
Proof.
  intros Hwf. unfold deactivate_owner. destruct (owned_modules ctx !! owner) as [c|] eqn:Hc;
    [|by eauto].
  destruct (deactivate_all_wf modules frames ctx (concat c) at_frame Hwf)
    as (retired & ctx' & ? & ? & _); [|by eauto].
  pose proof (cwf_owned_indices _ _ _ Hwf owner) as Hi. rewrite Hc in Hi; cbn in Hi.
  rewrite Hi. apply owned_indices_lt.
Qed.

(** ** The chunked search is a scan of all modules *)

Section ascending.
#[local] Abbreviation ascending := (StronglySorted lt).

Lemma take_partition_point_lt (l : list nat) limit :
  ascending l -> take (partition_point (λ i, (i <? limit)%nat) l) l = filter (λ i, (i < limit)%nat) l.
Proof.
  induction 1 as [|x l Hl IH Hx]; [done|]. cbn [partition_point].
  destruct (Nat.ltb_spec x limit).
  - rewrite list.filter_cons_True by done. cbn [take]. by rewrite IH.
  - rewrite list.filter_cons_False by lia. rewrite filter_none; [done|].
    rewrite list.Forall_forall in Hx. intros y Hy%Hx. lia.
Qed.

Lemma owned_before_flat (chunks : list (list nat)) limit :
  Forall (λ chunk, chunk <> []) chunks -> ascending (concat chunks) ->
  concat (imap (λ position chunk,
    reverse (take (if (position =? 0)%nat then partition_point (λ i, (i <? limit)%nat) chunk
                   else length chunk) chunk))
    (reverse (take (partition_point (λ chunk, match head chunk with
                       Some i => (i <? limit)%nat | None => false end) chunks) chunks)))
  = reverse (filter (λ i, (i < limit)%nat) (concat chunks)).
Proof.
  induction chunks as [|chunk chunks IH]; intros Hne Hasc; [done|].
  apply Forall_cons in Hne as [Hch Hne]. cbn [concat] in *.
  apply StronglySorted_app in Hasc as (Hcross & Hasc1 & Hasc2).
  destruct chunk as [|x chunk]; [done|]. cbn [partition_point head].
  destruct (Nat.ltb_spec x limit) as [Hx|Hx].
  2: { cbn [take]. rewrite filter_none; [done|]. intros y [Hy|Hy]%elem_of_app.
       - apply StronglySorted_inv in Hasc1 as [_ Hall]. rewrite list.Forall_forall in Hall.
         apply elem_of_cons in Hy as [->|Hy%Hall]; lia.
       - assert (x < y)%nat by (apply Hcross; [apply list_elem_of_here|done]). lia. }
  specialize (IH Hne Hasc2). cbn [take]. rewrite reverse_cons, list.filter_app, reverse_app, <- IH.
  set (k := partition_point _ chunks) in *.
  rewrite imap_app, concat_app. cbn [imap concat]. rewrite app_nil_r, length_reverse, Nat.add_0_r.
  f_equal. unfold compose. cbn [imap concat].
  destruct (take k chunks) as [|c1 cs] eqn:Htk.
  - cbn [length Nat.eqb]. by rewrite take_partition_point_lt.
  - change (length (c1 :: cs) =? 0)%nat with false. cbv iota. rewrite firstn_all, filter_all; [done|].
    destruct chunks as [|c1' chunks]; [by destruct k|].
    cbn [partition_point] in k. apply Forall_cons in Hne as [Hc1 _].
    destruct c1' as [|y c1']; [done|]. cbn [head] in k.
    destruct (Nat.ltb_spec y limit); [|done].
    intros z Hz. assert (z < y)%nat; [|lia]. apply Hcross; [done|]. apply list_elem_of_here.
Qed.
End ascending.

Lemma chunked_wf_nonempty {T} (c : ChunkedFrameContext T) :
  chunked_wf c -> Forall (λ chunk, chunk <> []) c.
Proof.
  induction c as [|chunk c IH]; intros Hwf; [done|]. destruct Hwf as (Hl & _ & Hwf).
  constructor; [|by apply IH]. intros ->. cbn in Hl. lia.
Qed.

Lemma seq_ascending start len : StronglySorted lt (seq start len).
Proof.
  revert start. induction len as [|len IH]; intros start; cbn; constructor; [done|].
  apply list.Forall_forall. intros x Hx%elem_of_seq. lia.
Qed.

Lemma filter_ascending {A} (R : relation A) (P : A -> Prop) `{!∀ x, Decision (P x)} l :
  StronglySorted R l -> StronglySorted R (filter P l).
Proof.
  induction 1 as [|x l Hl IH Hx]; [constructor|]. rewrite list.filter_cons. case_decide; [|done].
  constructor; [done|]. rewrite list.Forall_forall in *. intros y [_ Hy]%list_elem_of_filter. auto.
Qed.

Lemma owned_modules_before_spec modules frames ctx owner limit :
  contexts_wf modules frames ctx ->
  owned_modules_before ctx owner limit =
    reverse (filter (λ i, (i < limit)%nat) (owned_indices modules owner)).
Proof.
  intros Hwf. unfold owned_modules_before. rewrite <- (cwf_owned_indices _ _ _ Hwf owner).
  apply owned_before_flat.
  - apply chunked_wf_nonempty, (cwf_owned _ _ _ Hwf).
  - rewrite (cwf_owned_indices _ _ _ Hwf). apply filter_ascending, seq_ascending.
Qed.

Section find_map.
Context {A B : Type} (f : A -> option B).

Lemma find_map_filter (P : A -> Prop) `{!∀ x, Decision (P x)} l :
  (forall x, x ∈ l -> is_Some (f x) -> P x) -> find_map f (filter P l) = find_map f l.
Proof.
  induction l as [|x l IH]; intros HP; [done|]. rewrite list.filter_cons. cbn.
  assert (forall y, y ∈ l -> is_Some (f y) -> P y) by set_solver.
  case_decide as Hx; cbn; rewrite IH by done; [done|].
  destruct (f x) eqn:Hf; [|done]. exfalso. apply Hx, HP; [set_solver|by rewrite Hf].
Qed.

Lemma find_map_ext (g : A -> option B) l :
  (forall x, x ∈ l -> f x = g x) -> find_map f l = find_map g l.
Proof.
  induction l as [|x l IH]; intros Hfg; [done|]. cbn. rewrite Hfg, IH by set_solver. done.
Qed.

Lemma find_map_app l1 l2 :
  find_map f (l1 ++ l2) = match find_map f l1 with Some y => Some y | None => find_map f l2 end.
Proof. induction l1 as [|x l1 IH]; [done|]. cbn. by destruct (f x). Qed.
End find_map.

(** Searching a list from the back is searching its indices from the back. *)
Lemma find_map_indices {A B} (f : A -> option B) (l : list A) :
  find_map f (reverse l) = find_map (λ i, l !! i ≫= f) (reverse (seq 0 (length l))).
Proof.
  induction l as [|x l IH] using rev_ind; [done|].
  rewrite length_app, seq_app, !reverse_app. cbn. rewrite list_lookup_middle by done. cbn.
  destruct (f x); [done|]. rewrite IH. apply find_map_ext. intros i Hi.
  rewrite elem_of_reverse, elem_of_seq in Hi. by rewrite lookup_app_l by lia.
Qed.

Definition dense_ids (modules : list ModuleRecord) : Prop :=
  forall i m, modules !! i = Some m -> m_id m = Z.of_nat i.

Section lookup_equiv.
Context (modules : list ModuleRecord) (frames : nat) (ctx : SpoolFrameModuleContexts).
Hypothesis Hwf : contexts_wf modules frames ctx.
Hypothesis Hdense : dense_ids modules.
Hypothesis Howners : Forall (λ m, owner_ok (m_owner m)) modules.

(** A module that owns a frame has the owner the search is keyed by. *)
Lemma owns_frame_owner m process_id frame :
  m ∈ modules -> module_owns_frame m process_id frame = true ->
  frame_owner (f_mode frame) process_id = Some (m_owner m).
Proof.
  intros Hm. rewrite list.Forall_forall in Howners. specialize (Howners m Hm). revert Howners.
  unfold module_owns_frame, frame_owner, module_pid, module_is_kernel.
  destruct (f_mode frame), (m_owner m) as [pid|]; cbn; try done.
  intros Hp [[H _]%andb_true_iff _]%andb_true_iff. apply Z.eqb_eq in H as <-.
  by rewrite Pid_new_id.
Qed.

Lemma find_unpinned_is_scan context process_id frame owner :
  (module_limit context <= length modules)%nat ->
  frame_owner (f_mode frame) process_id = Some owner ->
  find_map (active_owning_module modules ctx context process_id frame)
    (owned_modules_before ctx owner (module_limit context)) =
  find_map (λ m, if module_active ctx (Z.to_nat (m_id m)) context
                    && module_owns_frame m process_id frame then Some m else None)
    (reverse modules).
Proof.
  intros Hlimit Howner. rewrite (owned_modules_before_spec modules frames) by done.
  unfold owned_indices. rewrite <- !list.filter_reverse, (find_map_indices _ modules).
  rewrite !find_map_filter.
  - apply find_map_ext. intros i _. unfold active_owning_module.
    destruct (modules !! i) as [m|] eqn:Hm; cbn; [|by destruct (module_active _ _ _)].
    rewrite (Hdense _ _ Hm), Nat2Z.id. by destruct (module_active _ _ _).
  - intros i _ [m Hm]. unfold active_owning_module in Hm.
    destruct (module_active _ _ _); cbn in Hm; [|done].
    destruct (modules !! i) as [m'|] eqn:Hi; cbn in *; [|done].
    destruct (module_owns_frame m' process_id frame) eqn:Hown; [|done].
    rewrite <- Howner. symmetry. eapply owns_frame_owner; [|done]. by eapply list_elem_of_lookup_2.
  - intros i _ [m Hm]. unfold active_owning_module in Hm.
    destruct (module_active _ _ _) eqn:Hact; cbn in Hm; [|done].
    apply andb_true_iff in Hact as [Hact _]. by apply Nat.ltb_lt in Hact.
Qed.

Lemma module_for_frame_is_scan frame_id process_id frame context :
  for_frame_id ctx frame_id = Some context ->
  module_for_frame_with_context modules ctx frame_id process_id frame =
  module_for_frame_unbounded modules process_id frame
    (λ m, module_active ctx (Z.to_nat (m_id m)) context).
Proof.
  intros Hctx. unfold module_for_frame_with_context, module_for_frame_unbounded.
  case_decide as Hmode; [done|]. destruct (f_module_id frame); [done|].
  unfold find_unpinned_frame_module. rewrite Hctx. cbn [mbind option_bind].
  assert (module_limit context <= length modules)%nat as Hlimit.
  { unfold for_frame_id in Hctx. rewrite chunked_get_flat in Hctx by apply Hwf.
    destruct (concat _ !! _) as [limit|] eqn:Hl; [|done].
    apply (cwf_limits_bound _ _ _ Hwf) in Hl. cbn in Hctx. by simplify_eq. }
  rewrite Nat.min_l by done.
  destruct (frame_owner (f_mode frame) process_id) as [owner|] eqn:Howner; cbn [mbind option_bind].
  { by rewrite find_unpinned_is_scan by done. }
  symmetry. cut (find_map (λ m, if module_active ctx (Z.to_nat (m_id m)) context
                    && module_owns_frame m process_id frame then Some m else None)
    (reverse modules) = None); [by intros ->|].
  assert (forall m, m ∈ reverse modules -> module_owns_frame m process_id frame = false) as Hno.
  { intros m Hm. rewrite elem_of_reverse in Hm. destruct (module_owns_frame m process_id frame) eqn:E; [|done].
    pose proof (owns_frame_owner _ _ _ Hm E). congruence. }
  clear -Hno. induction (reverse modules) as [|m l IH]; [done|]. cbn.
  rewrite Hno by set_solver. rewrite andb_false_r. apply IH. set_solver.
Qed.
End lookup_equiv.

(** ** Theorems *)

(** The module of a frame is found through a per-owner index of chunked
    vectors, searched backwards from the frame's module limit; the result is
    that of the reference definition, a scan of every recorded module from the
    newest for one that was active at the frame and contains it. *)
Theorem frame_module_lookup_is_scan (modules : list ModuleRecord) (frames : nat)
    (ctx : SpoolFrameModuleContexts) (frame_id process_id : Z) (frame : FrameRecord)
    (context : FrameLookupContext) :
  contexts_wf modules frames ctx -> dense_ids modules ->
  Forall (λ m, owner_ok (m_owner m)) modules ->
  for_frame_id ctx frame_id = Some context ->
  module_for_frame_with_context modules ctx frame_id process_id frame =
  module_for_frame_unbounded modules process_id frame
    (λ m, module_active ctx (Z.to_nat (m_id m)) context).
Proof. intros. by eapply module_for_frame_is_scan. Qed.

(** Two mappings of one process, the second over the first, then a frame. *)
Definition example_modules : list ModuleRecord :=
  [mkModule 0 (Process 7) 100 200 0 0 0 0 0 [] None;
   mkModule 1 (Process 7) 150 160 40 0 0 0 0 [] None].
Definition example_contexts : SpoolFrameModuleContexts :=
  push_frame 2 (push_module 1 (Process 7) (push_module 0 (Process 7) contexts_empty)).

Lemma example_contexts_wf : contexts_wf example_modules 1 example_contexts.
Proof.
  apply (push_frame_wf example_modules 0).
  apply (push_module_wf [mkModule 0 (Process 7) 100 200 0 0 0 0 0 [] None] 0 _
           (mkModule 1 (Process 7) 150 160 40 0 0 0 0 [] None)).
  apply (push_module_wf [] 0 _ (mkModule 0 (Process 7) 100 200 0 0 0 0 0 [] None)).
  apply contexts_wf_empty.
Qed.

Lemma frame_module_lookup_is_scan_witness :
  r_file_relative_ip <$>
    module_for_frame_with_context example_modules example_contexts 0 7 (mkFrame None 155 155 User)
  = Some 45.
Proof.
  rewrite (frame_module_lookup_is_scan example_modules 1 example_contexts 0 7
             (mkFrame None 155 155 User) (mkLookupContext 0 2)).
  - vm_compute. reflexivity.
  - apply example_contexts_wf.
  - intros [|[|i]] m Hm; [injection Hm as <-; reflexivity..|discriminate Hm].
  - repeat constructor; cbn; unfold is_pid; word_lia.
  - vm_compute. reflexivity.
Defined.
