(* ===== verification/Reader.v ===== *)
(** * Reading a spool

    [open_spool_with_range_limit] (the loop behind [Snapshot::open] and
    [Replay::open]), [decode_spool_record] (the same dispatch for [Tail]), the
    clock origin of the header and the stack walk of [StackFrames], all in
    [src/spool/mod.rs]. *)

From stdpp Require Import prelude gmap list numbers sorting.
From S2P Require Import Prelude Varint Cursor Model Records Contexts.
#[local] Open Scope Z_scope.

(** ** The decoded tables *)

(** The part of [SpoolDefinitions] and of the readers that records extend. *)
Record tables := mkTables {
  modules : list ModuleRecord;
  frames : list FrameRecord;
  frame_contexts : SpoolFrameModuleContexts;
  stack_nodes : list StackNodeRecord;
  threads : list ThreadRecord;
  last_timestamp_ns : Z;
}.

Definition tables_empty : tables := mkTables [] [] contexts_empty [] [] 0.

Inductive DecodedSpoolRecord :=
  | DModule (m : ModuleRecord)
  | DFrame (f : FrameRecord)
  | DStack (n : StackNodeRecord)
  | DThread (t : ThreadRecord)
  | DSample (s : SampleRecord)
  | DPythonRuntime (p : PythonRuntimeRecord)
  | DDeactivateProcess (pid : Z)
  | DDeactivateModule (module_index : nat).

(** The table pushes shared by the two loops. *)
Definition push_module_record (m : ModuleRecord) (t : tables) : tables :=
  mkTables (modules t ++ [m]) (frames t)
    (push_module (length (modules t)) (m_owner m) (frame_contexts t))
    (stack_nodes t) (threads t) (last_timestamp_ns t).
Definition push_frame_record (f : FrameRecord) (t : tables) : tables :=
  mkTables (modules t) (frames t ++ [f]) (push_frame (length (modules t)) (frame_contexts t))
    (stack_nodes t) (threads t) (last_timestamp_ns t).
Definition push_stack_record (n : StackNodeRecord) (t : tables) : tables :=
  mkTables (modules t) (frames t) (frame_contexts t) (stack_nodes t ++ [n]) (threads t)
    (last_timestamp_ns t).
Definition push_thread_record (th : ThreadRecord) (t : tables) : tables :=
  mkTables (modules t) (frames t) (frame_contexts t) (stack_nodes t) (threads t ++ [th])
    (last_timestamp_ns t).
Definition commit_timestamp (ns : Z) (t : tables) : tables :=
  mkTables (modules t) (frames t) (frame_contexts t) (stack_nodes t) (threads t) ns.
Definition set_contexts (ctx : SpoolFrameModuleContexts) (t : tables) : tables :=
  mkTables (modules t) (frames t) ctx (stack_nodes t) (threads t) (last_timestamp_ns t).

(** ** The clock origin *)

(** [SystemTime] as nanoseconds since the Unix epoch; its seconds are an [i64]. *)
Definition NANOS : Z := 1000000000.
Definition system_time_checked (ns : Z) : option Z :=
  let seconds := ns / NANOS in
  if (i64_min <=? seconds) && (seconds <=? i64_max) then Some ns else None.

Record ClockOrigin := mkOrigin { monotonic_ns : Z; wall_time : Z }.

(** [ClockOrigin::recorded_at]. *)
Definition recorded_at (origin : ClockOrigin) (sample_ns : Z) : option Z :=
  if monotonic_ns origin <=? sample_ns
  then system_time_checked (wall_time origin + (sample_ns - monotonic_ns origin))
  else system_time_checked (wall_time origin - (monotonic_ns origin - sample_ns)).

Section clock.
Context `{VarIntCrate}.

(** [write_clock_origin]: the bytes it writes. *)
Definition encode_clock_origin (origin : option ClockOrigin) : list Z :=
  match origin with
  | None => encode_var U64 0
  | Some origin =>
      let '(sign, duration) :=
        if 0 <=? wall_time origin then (1, wall_time origin) else (-1, - wall_time origin) in
      encode_var U64 1 ++ encode_var U64 (monotonic_ns origin) ++ encode_var I64 sign ++
      encode_var U64 (duration / NANOS) ++ encode_var U32 (duration mod NANOS)
  end.

Definition read_clock_origin : io MmapSpoolCursor (option ClockOrigin) :=
  tag ← read_varint U64;
  if tag =? 0 then mret None
  else if negb (tag =? 1) then io_fail InvalidData
  else
    monotonic ← read_varint U64;
    sign ← read_varint I64;
    seconds ← read_varint U64;
    nanos ← read_varint U32;
    if NANOS <=? nanos then io_fail InvalidData
    else
      let duration := seconds * NANOS + nanos in
      wall ← io_lift (if sign =? 1 then ok_or InvalidData (system_time_checked duration)
                      else if sign =? -1 then ok_or InvalidData (system_time_checked (- duration))
                      else Err InvalidData);
      mret (Some (mkOrigin monotonic wall)).

Definition read_header : io MmapSpoolCursor (Z * Z * option ClockOrigin) :=
  check_magic;;
  start_timestamp_us ← read_varint U64;
  sample_interval_ns ← read_varint U64;
  clock_origin ← read_clock_origin;
  mret (start_timestamp_us, sample_interval_ns, clock_origin).
End clock.

(** ** The dispatch of [decode_spool_record] *)

Section decode.
Context `{VarIntCrate}.

Definition decode_payload (tag : Z) (t : tables) : io MmapSpoolCursor DecodedSpoolRecord :=
  if (tag =? REC_MODULE) || (tag =? REC_JIT_MODULE) then
    m ← read_module_record (length (modules t)) tag; mret (DModule m)
  else if tag =? REC_FRAME then
    f ← read_frame (modules t) (length (frames t)); mret (DFrame f)
  else if tag =? REC_STACK then
    n ← read_stack_node (stack_nodes t) (length (frames t)); mret (DStack n)
  else if tag =? REC_THREAD then
    th ← read_thread (length (threads t)); mret (DThread th)
  else if tag =? REC_SAMPLE then
    s ← read_sample (threads t) (length (stack_nodes t)) (last_timestamp_ns t);
    mret (DSample s)
  else if tag =? REC_PYTHON_RUNTIME then
    p ← read_python_runtime; mret (DPythonRuntime p)
  else if tag =? REC_MODULE_DEACTIVATE then
    pid ← read_pid; mret (DDeactivateProcess pid)
  else if tag =? REC_MODULE_DEACTIVATE_ONE then
    i ← read_index_within (length (modules t)); mret (DDeactivateModule (Z.to_nat i))
  else io_fail InvalidData.

Definition decode_spool_record (t : tables) : io MmapSpoolCursor (option DecodedSpoolRecord) :=
  tag ← read_tag;
  match tag with
  | None => mret None
  | Some tag => r ← decode_payload tag t; mret (Some r)
  end.
End decode.

(** ** [open_spool] *)

Inductive SampleStorage := Retain | Replay.

#[global] Instance SampleStorage_eq_dec : EqDecision SampleStorage.
Proof. solve_decision. Defined.

Record ReplayRecordState := mkRecordState {
  module_count : nat; frame_count : nat; stack_count : nat; thread_count : nat;
}.
Definition record_state (t : tables) : ReplayRecordState :=
  mkRecordState (length (modules t)) (length (frames t)) (length (stack_nodes t))
    (length (threads t)).
Record ReplayScanStart := mkScanStart { scan_position : nat; scan_state : ReplayRecordState }.

Record open_state := mkOpen {
  os_tables : tables;
  os_samples : list SampleRecord;
  os_processes : list Z;
  os_sample_count : Z;
  os_ranges : option (list (nat * nat));
  os_scan_start : option ReplayScanStart;
}.

Definition with_tables (t : tables) (st : open_state) : open_state :=
  mkOpen t (os_samples st) (os_processes st) (os_sample_count st) (os_ranges st)
    (os_scan_start st).
Definition observe (pid : Z) (st : open_state) : open_state :=
  mkOpen (os_tables st) (os_samples st) (os_processes st ++ [pid]) (os_sample_count st)
    (os_ranges st) (os_scan_start st).

Section open.
Context `{VarIntCrate}.

(** The closure that decodes one record and updates the state. *)
Definition parse_record (storage : SampleStorage) (tag : Z) (st : open_state)
    : io MmapSpoolCursor open_state :=
  let t := os_tables st in
  if (tag =? REC_MODULE) || (tag =? REC_JIT_MODULE) then
    m ← read_module_record (length (modules t)) tag;
    mret (with_tables (push_module_record m t) st)
  else if tag =? REC_FRAME then
    f ← read_frame (modules t) (length (frames t));
    mret (with_tables (push_frame_record f t) st)
  else if tag =? REC_STACK then
    n ← read_stack_node (stack_nodes t) (length (frames t));
    mret (with_tables (push_stack_record n t) st)
  else if tag =? REC_THREAD then
    th ← read_thread (length (threads t));
    mret (with_tables (push_thread_record th t) st)
  else if tag =? REC_SAMPLE then
    s ← read_sample (threads t) (length (stack_nodes t)) (last_timestamp_ns t);
    count ← io_lift (ok_or InvalidData (checked_add_u64 (os_sample_count st) 1));
    mret (mkOpen (commit_timestamp (s_timestamp_ns s) t)
            (if decide (storage = Retain) then os_samples st ++ [s] else os_samples st)
            (os_processes st) count (os_ranges st) (os_scan_start st))
  else if tag =? REC_PYTHON_RUNTIME then
    p ← read_python_runtime;
    mret (observe (p_process_id p) st)
  else if tag =? REC_MODULE_DEACTIVATE then
    pid ← read_pid;
    ctx ← io_lift (ok_or Panicked
            (snd <$> deactivate_owner (Process pid) (length (frames t)) (frame_contexts t)));
    mret (observe pid (with_tables (set_contexts ctx t) st))
  else if tag =? REC_MODULE_DEACTIVATE_ONE then
    i ← read_index_within (length (modules t));
    ctx ← io_lift (ok_or Panicked
            (snd <$> deactivate_module (Z.to_nat i) (length (frames t)) (frame_contexts t)));
    mret (with_tables (set_contexts ctx t) st)
  else io_fail InvalidData.

(** The bounded index of sample byte ranges kept for [Replay]. *)
Definition index_sample (range_limit : Z) (record_start position : nat) (st : open_state)
    : open_state :=
  match os_scan_start st, os_ranges st with
  | None, Some ranges =>
      let set_ranges r := mkOpen (os_tables st) (os_samples st) (os_processes st)
                            (os_sample_count st) (Some r) None in
      let adjoining := range ← list.last ranges;
                       if (range.2 =? record_start)%nat then Some range else None in
      match adjoining with
      | Some range => set_ranges (<[pred (length ranges) := (range.1, position)]> ranges)
      | None =>
          if Z.of_nat (length ranges) <? range_limit
          then set_ranges (ranges ++ [(record_start, position)])
          else mkOpen (os_tables st) (os_samples st) (os_processes st) (os_sample_count st)
                 (Some ranges) (Some (mkScanStart record_start (record_state (os_tables st))))
      end
  | _, _ => st
  end.

(** The record loop; the result carries [truncated_tail].  Every iteration
    consumes the tag byte, so the file length bounds the iterations. *)
Fixpoint open_loop (fuel : nat) (storage : SampleStorage) (range_limit : Z) (st : open_state)
    (reader : MmapSpoolCursor) : result (open_state * bool) :=
  match fuel with
  | O => Err Diverged
  | S fuel =>
      let record_start := position reader in
      match read_tag reader with
      | (Err e, _) => Err e
      | (Ok None, _) => Ok (st, false)
      | (Ok (Some tag), reader) =>
          match parse_record storage tag st reader with
          | (Err e, reader) =>
              if decide (e = UnexpectedEof) then
                if at_eof reader then Ok (st, true) else Err e
              else Err e
          | (Ok st, reader) =>
              let st := if tag =? REC_SAMPLE
                        then index_sample range_limit record_start (position reader) st
                        else st in
              open_loop fuel storage range_limit st reader
          end
      end
  end.

Fixpoint dedup_sorted (l : list Z) : list Z :=
  match l with
  | x :: ((y :: _) as l) => if x =? y then dedup_sorted l else x :: dedup_sorted l
  | l => l
  end.

Record OpenedSpool := mkOpened {
  op_clock_origin : option ClockOrigin;
  op_start_timestamp_us : Z;
  op_sample_interval_ns : Z;
  op_processes : list Z;
  op_tables : tables;
  op_samples : list SampleRecord;
  op_mmap : list Z;
  op_sample_ranges : list (nat * nat);
  op_scan_start : option ReplayScanStart;
  op_sample_count : Z;
  op_truncated_tail : bool;
}.

Definition open_start (storage : SampleStorage) : open_state :=
  mkOpen tables_empty [] [] 0 (if decide (storage = Replay) then Some [] else None) None.

Definition finish_open (bytes : list Z) (start_us interval_ns : Z) (origin : option ClockOrigin)
    (st : open_state) (truncated : bool) : OpenedSpool :=
  let t := os_tables st in
  let processes := os_processes st ++ omap module_pid (modules t) ++
                   (t_process_id <$> threads t) in
  mkOpened origin start_us interval_ns (dedup_sorted (merge_sort Z.le processes)) t
    (os_samples st) bytes (default [] (os_ranges st)) (os_scan_start st) (os_sample_count st)
    truncated.

Definition open_spool_with_range_limit (bytes : list Z) (storage : SampleStorage)
    (range_limit : Z) : result OpenedSpool :=
  match read_header (mkCursor bytes 0) with
  | (Err e, _) => Err e
  | (Ok (start_us, interval_ns, origin), reader) =>
      match open_loop (S (length bytes)) storage range_limit (open_start storage) reader with
      | Err e => Err e
      | Ok (st, truncated) => Ok (finish_open bytes start_us interval_ns origin st truncated)
      end
  end.

Definition MAX_REPLAY_SAMPLE_RANGES : Z := 512 * 1024.
Definition open_spool (bytes : list Z) (storage : SampleStorage) : result OpenedSpool :=
  open_spool_with_range_limit bytes storage MAX_REPLAY_SAMPLE_RANGES.
End open.

(** ** Walking a stack *)

(** [StackFrames]: [None] is an index out of bounds. *)
Record StackFrames := mkStackFrames { sf_current : Z; sf_remaining : nat }.

Definition stack_frame_refs (t : tables) (stack_id : Z) : result StackFrames :=
  match stack_nodes t !! Z.to_nat stack_id with
  | None => Err InvalidData
  | Some node => Ok (mkStackFrames stack_id (n_depth node))
  end.

Definition stack_advance (t : tables) (it : StackFrames)
    : option ((Z * FrameRecord) * StackFrames) :=
  node ← stack_nodes t !! Z.to_nat (sf_current it);
  frame ← frames t !! Z.to_nat (n_frame_id node);
  Some ((n_frame_id node, frame),
        mkStackFrames (match n_prefix node with Some p => p - 1 | None => 0 end)
          (pred (sf_remaining it))).

(** Exhausting the iterator ([next_with_id] until [remaining] is zero). *)
Fixpoint stack_frames_from (t : tables) (remaining : nat) (current : Z)
    : option (list (Z * FrameRecord)) :=
  match remaining with
  | O => Some []
  | S remaining' =>
      match stack_advance t (mkStackFrames current remaining) with
      | None => None
      | Some (frame, it) =>
          rest ← stack_frames_from t remaining' (sf_current it);
          Some (frame :: rest)
      end
  end.

(** ** Samples as the API presents them *)

Inductive AddressSpace := UserSpace | KernelSpace.

Inductive RawFrame :=
  | TruncatedStack
  | Native (address : Z) (address_space : AddressSpace) (mapping : option FrameModuleRef).

(** The closure of [Stack::frames] on one [FrameContext]. *)
Definition raw_frame (frame : FrameRecord) (mapping : option FrameModuleRef) : RawFrame :=
  match f_mode frame with
  | TruncatedStackMarker => TruncatedStack
  | Kernel => Native (f_abs_ip frame) KernelSpace mapping
  | User => Native (f_abs_ip frame) UserSpace mapping
  end.

(** [SpoolDefinitions::frame_context] for the process of the stack. *)
Definition frame_context (t : tables) (process_id : Z) (frame : Z * FrameRecord)
    : FrameRecord * option FrameModuleRef :=
  (frame.2,
   module_for_frame_with_context (modules t) (frame_contexts t) frame.1 process_id frame.2).

(** [Stack::frames]; [None] is a panic ([expect] or an index out of bounds). *)
Definition stack_frames (t : tables) (process_id stack_id : Z) : option (list RawFrame) :=
  match stack_frame_refs t stack_id with
  | Err _ => None
  | Ok it =>
      (λ frames : list (Z * FrameRecord),
         (λ frame, let context := frame_context t process_id frame in
                   raw_frame context.1 context.2) <$> frames) <$>
        stack_frames_from t (sf_remaining it) (sf_current it)
  end.
