(* ===== verification/Writer.v ===== *)
(** * Writing a spool

    [PerfSpoolWriter] of [src/spool/mod.rs] over any [W: Write]: the header,
    the interning of frames, stacks and threads, and the record writers,
    [write_symbols] of [src/spool/jit.rs] included. *)

From stdpp Require Import prelude gmap list numbers.
From S2P Require Import Prelude Varint Cursor Model Output Records Reader.
#[local] Open Scope Z_scope.

(** Keys of the interning maps are pairs of integers. *)
Abbreviation idmap := (gmap (Z * Z) Z).

Record PerfSpoolWriter (W : Type) := mkWriter {
  w_writer : SpoolOutput W;
  w_last_timestamp_ns : Z;
  w_pinned_frame_cache : idmap;
  w_unpinned_frame_cache : idmap;
  w_kernel_frame_cache : idmap;
  w_kernel_module_ids : gset Z;
  w_next_frame_id : Z;
  w_stack_cache : idmap;
  w_thread_cache : idmap;
}.
Arguments mkWriter {_}.
Arguments w_writer {_}.
Arguments w_last_timestamp_ns {_}.
Arguments w_pinned_frame_cache {_}.
Arguments w_unpinned_frame_cache {_}.
Arguments w_kernel_frame_cache {_}.
Arguments w_kernel_module_ids {_}.
Arguments w_next_frame_id {_}.
Arguments w_stack_cache {_}.
Arguments w_thread_cache {_}.

(** The three frame caches of [intern_frame]. *)
Inductive frame_cache := PinnedCache | KernelCache | UnpinnedCache.

Definition cache_for (frame : FrameRecord) : frame_cache :=
  if bool_decide (is_Some (f_module_id frame)) || is_truncated_stack_marker frame
  then PinnedCache
  else if decide (f_mode frame = Kernel) then KernelCache else UnpinnedCache.

(** [next_spool_id]. *)
Definition next_spool_id (len : nat) : result Z :=
  match u32_try_from (Z.of_nat len) with
  | None => Err InvalidInput
  | Some id => if id =? NONE_U32 then Err InvalidInput else Ok id
  end.

Definition checked_sample_timestamp_delta (last_timestamp_ns timestamp_ns : Z) : result Z :=
  ok_or InvalidInput (i64_try_from (timestamp_ns - last_timestamp_ns)).

Section writer.
Context {W : Type} `{Write W} `{VarIntCrate} (interrupt_budget : nat).
#[local] Abbreviation writer := (io (PerfSpoolWriter W)).
Implicit Types (w : PerfSpoolWriter W).

(** *** Field updates *)

Definition set_writer (o : SpoolOutput W) w : PerfSpoolWriter W :=
  mkWriter o (w_last_timestamp_ns w) (w_pinned_frame_cache w) (w_unpinned_frame_cache w)
    (w_kernel_frame_cache w) (w_kernel_module_ids w) (w_next_frame_id w) (w_stack_cache w)
    (w_thread_cache w).
Definition set_last_timestamp (ns : Z) w : PerfSpoolWriter W :=
  mkWriter (w_writer w) ns (w_pinned_frame_cache w) (w_unpinned_frame_cache w)
    (w_kernel_frame_cache w) (w_kernel_module_ids w) (w_next_frame_id w) (w_stack_cache w)
    (w_thread_cache w).
Definition clear_unpinned w : PerfSpoolWriter W :=
  mkWriter (w_writer w) (w_last_timestamp_ns w) (w_pinned_frame_cache w) ∅
    (w_kernel_frame_cache w) (w_kernel_module_ids w) (w_next_frame_id w) (w_stack_cache w)
    (w_thread_cache w).
Definition clear_kernel w : PerfSpoolWriter W :=
  mkWriter (w_writer w) (w_last_timestamp_ns w) (w_pinned_frame_cache w)
    (w_unpinned_frame_cache w) ∅ (w_kernel_module_ids w) (w_next_frame_id w)
    (w_stack_cache w) (w_thread_cache w).
Definition set_kernel_ids (ids : gset Z) w : PerfSpoolWriter W :=
  mkWriter (w_writer w) (w_last_timestamp_ns w) (w_pinned_frame_cache w)
    (w_unpinned_frame_cache w) (w_kernel_frame_cache w) ids (w_next_frame_id w)
    (w_stack_cache w) (w_thread_cache w).
Definition set_next_frame_id (id : Z) w : PerfSpoolWriter W :=
  mkWriter (w_writer w) (w_last_timestamp_ns w) (w_pinned_frame_cache w)
    (w_unpinned_frame_cache w) (w_kernel_frame_cache w) (w_kernel_module_ids w) id
    (w_stack_cache w) (w_thread_cache w).
Definition insert_stack (key : Z * Z) (id : Z) w : PerfSpoolWriter W :=
  mkWriter (w_writer w) (w_last_timestamp_ns w) (w_pinned_frame_cache w)
    (w_unpinned_frame_cache w) (w_kernel_frame_cache w) (w_kernel_module_ids w)
    (w_next_frame_id w) (<[key := id]> (w_stack_cache w)) (w_thread_cache w).
Definition insert_thread (key : Z * Z) (id : Z) w : PerfSpoolWriter W :=
  mkWriter (w_writer w) (w_last_timestamp_ns w) (w_pinned_frame_cache w)
    (w_unpinned_frame_cache w) (w_kernel_frame_cache w) (w_kernel_module_ids w)
    (w_next_frame_id w) (w_stack_cache w) (<[key := id]> (w_thread_cache w)).
Definition get_cache (c : frame_cache) w : idmap :=
  match c with
  | PinnedCache => w_pinned_frame_cache w
  | KernelCache => w_kernel_frame_cache w
  | UnpinnedCache => w_unpinned_frame_cache w
  end.
Definition insert_frame (c : frame_cache) (key : Z * Z) (id : Z) w : PerfSpoolWriter W :=
  mkWriter (w_writer w) (w_last_timestamp_ns w)
    (match c with PinnedCache => <[key := id]> (w_pinned_frame_cache w)
                | _ => w_pinned_frame_cache w end)
    (match c with UnpinnedCache => <[key := id]> (w_unpinned_frame_cache w)
                | _ => w_unpinned_frame_cache w end)
    (match c with KernelCache => <[key := id]> (w_kernel_frame_cache w)
                | _ => w_kernel_frame_cache w end)
    (w_kernel_module_ids w) (w_next_frame_id w) (w_stack_cache w) (w_thread_cache w).

(** Calls on [self.writer]. *)
Definition out {A} (m : io (SpoolOutput W) A) : writer A := io_zoom w_writer set_writer m.
Definition out_all (bs : list Z) : writer unit := out (write_all interrupt_budget bs).
Definition out_varint (vt : vint) (n : Z) : writer unit :=
  out (output_write_varint interrupt_budget vt n).
Definition out_bytes (bs : list Z) : writer unit := out (output_write_bytes interrupt_budget bs).
Definition out_record (tag : Z) (fields : list (vint * Z)) : writer unit :=
  out (output_write_record interrupt_budget tag fields).

(** *** Construction and accessors *)

(** [write_clock_origin]. *)
Definition write_clock_origin (origin : option ClockOrigin) : writer unit :=
  match origin with
  | None => out_varint U64 0
  | Some origin =>
      out_varint U64 1;;
      out_varint U64 (monotonic_ns origin);;
      let '(sign, duration) :=
        if 0 <=? wall_time origin then (1, wall_time origin) else (-1, - wall_time origin) in
      out_varint I64 sign;;
      out_varint U64 (duration / NANOS);;
      out_varint U32 (duration mod NANOS)
  end.

Definition writer_init (inner : W) : PerfSpoolWriter W :=
  mkWriter (output_new inner) 0 ∅ ∅ ∅ ∅ 0 ∅ ∅.

Definition from_writer_with_origin (inner : W) (start_timestamp_us sample_interval_ns : Z)
    (origin : option ClockOrigin) : result unit * PerfSpoolWriter W :=
  (out_all CURRENT_MAGIC;;
   out_varint U64 start_timestamp_us;;
   out_varint U64 sample_interval_ns;;
   write_clock_origin origin) (writer_init inner).

Definition writer_position w : Z := o_bytes (w_writer w).
Definition writer_failed w : bool := bool_decide (is_Some (o_failure (w_writer w))).
Definition writer_flush : writer unit := out output_flush.

(** *** Modules *)

Fixpoint write_symbol_list (symbols : list JitSymbol) : writer unit :=
  match symbols with
  | [] => mret tt
  | s :: symbols =>
      out_varint U64 (sym_start s);;
      out_varint U64 (sym_end s);;
      out_bytes (sym_name s);;
      write_symbol_list symbols
  end.
Definition write_symbols (symbols : list JitSymbol) : writer unit :=
  out_varint U64 (Z.of_nat (length symbols));; write_symbol_list symbols.

Definition write_module (module : ModuleRecord) : writer unit :=
  out_all [match m_jit_symbols module with Some _ => REC_JIT_MODULE | None => REC_MODULE end];;
  out_varint U64 (m_id module);;
  out_varint I64 (owner_wire_process_id (m_owner module));;
  out_varint U64 (m_start module);;
  out_varint U64 (m_end module);;
  out_varint U64 (m_file_offset module);;
  out_varint U64 (m_inode module);;
  out_varint U64 (m_device_major module);;
  out_varint U64 (m_device_minor module);;
  out_varint U64 (m_inode_generation module);;
  out_all [if module_is_kernel module then 1 else 0];;
  out_bytes (m_path module);;
  match m_jit_symbols module with Some symbols => write_symbols symbols | None => mret tt end;;
  io_modify clear_unpinned;;
  if module_is_kernel module then
    io_modify (λ w, set_kernel_ids ({[m_id module]} ∪ w_kernel_module_ids w) w);;
    io_modify clear_kernel
  else mret tt.

Definition write_module_deactivation (process_id : Z) : writer unit :=
  out_all [REC_MODULE_DEACTIVATE];;
  out_varint I64 process_id;;
  io_modify clear_unpinned.

Definition write_module_deactivation_one (module_id : Z) : writer unit :=
  out_all [REC_MODULE_DEACTIVATE_ONE];;
  out_varint U64 module_id;;
  io_modify clear_unpinned;;
  w ← io_get;
  if decide (module_id ∈ w_kernel_module_ids w) then
    io_modify (λ w, set_kernel_ids (w_kernel_module_ids w ∖ {[module_id]}) w);;
    io_modify clear_kernel
  else mret tt.

Definition write_python_runtime (timestamp_ns process_id : Z) (is_python_runtime : bool)
    : writer unit :=
  out_all [REC_PYTHON_RUNTIME];;
  out_varint U64 timestamp_ns;;
  out_varint I64 process_id;;
  out_all [if is_python_runtime then 1 else 0].

(** *** Interning *)

Definition intern_thread (process_id thread_id : Z) : writer Z :=
  w ← io_get;
  match w_thread_cache w !! (process_id, thread_id) with
  | Some id => mret id
  | None =>
      id ← io_lift (next_spool_id (size (w_thread_cache w)));
      out_record REC_THREAD [(U64, id); (I64, process_id); (U64, thread_id)];;
      io_modify (insert_thread (process_id, thread_id) id);;
      mret id
  end.

Definition intern_frame (frame : FrameRecord) : writer Z :=
  w ← io_get;
  key ← io_lift (compact_frame frame);
  match get_cache (cache_for frame) w !! key with
  | Some id => mret id
  | None =>
      let id := w_next_frame_id w in
      if id =? NONE_U32 then io_fail InvalidInput
      else
        out_record REC_FRAME [(U64, id); (U64, key.1); (U64, key.2)];;
        io_modify (insert_frame (cache_for frame) key id);;
        next ← io_lift (ok_or InvalidInput (u32_try_from (id + 1)));
        io_modify (set_next_frame_id next);;
        mret id
  end.

(** The loop of [intern_stack] over the frames from the root to the leaf. *)
Fixpoint intern_stack_loop (frames : list FrameRecord) (prefix : Z) : writer Z :=
  match frames with
  | [] => mret prefix
  | frame :: frames =>
      frame_id ← intern_frame frame;
      w ← io_get;
      match w_stack_cache w !! (prefix, frame_id) with
      | Some id => intern_stack_loop frames id
      | None =>
          stack_id ← io_lift (next_spool_id (size (w_stack_cache w)));
          out_record REC_STACK [(U64, stack_id); (U64, prefix); (U64, frame_id)];;
          io_modify (insert_stack (prefix, frame_id) stack_id);;
          intern_stack_loop frames stack_id
      end
  end.
Definition intern_stack (frames : list FrameRecord) : writer (option Z) :=
  prefix ← intern_stack_loop (reverse frames) NONE_U32;
  mret (if prefix =? NONE_U32 then None else Some prefix).

(** *** Samples *)

Definition write_sample_frames (timestamp_ns process_id thread_id : Z)
    (frames : list FrameRecord) : writer (option Z) :=
  match frames with
  | [] => mret None
  | _ =>
      w ← io_get;
      delta ← io_lift (checked_sample_timestamp_delta (w_last_timestamp_ns w) timestamp_ns);
      stack ← intern_stack frames;
      match stack with
      | None => mret None
      | Some stack_id =>
          thread ← intern_thread process_id thread_id;
          out_record REC_SAMPLE [(I64, delta); (U64, thread); (U64, stack_id)];;
          io_modify (set_last_timestamp timestamp_ns);;
          mret (Some stack_id)
      end
  end.
End writer.
