(* ===== verification/Stream.v ===== *)
(** * What a record stream means to a reader

    [record_ok t r d]: in the state [t], the wire record [r] is valid and
    decodes to [d].  [stream] chains valid records.  The lemmas show that the
    two dispatch functions of [src/spool/mod.rs] agree, that they invert the
    format on valid records, and how the record loop of [open_spool] runs on a
    complete or cut stream. *)

From stdpp Require Import prelude gmap list numbers sorting.
From S2P Require Import Prelude Varint Cursor Model Records Contexts Reader.
#[local] Open Scope Z_scope.

(** The table update of one decoded record; [None] is a panic. *)
Definition apply_decoded (t : tables) (d : DecodedSpoolRecord) : option tables :=
  match d with
  | DModule m => Some (push_module_record m t)
  | DFrame f => Some (push_frame_record f t)
  | DStack n => Some (push_stack_record n t)
  | DThread th => Some (push_thread_record th t)
  | DSample s => Some (commit_timestamp (s_timestamp_ns s) t)
  | DPythonRuntime _ => Some t
  | DDeactivateProcess pid =>
      (λ r, set_contexts r.2 t) <$>
        deactivate_owner (Process pid) (length (frames t)) (frame_contexts t)
  | DDeactivateModule i =>
      (λ r, set_contexts r.2 t) <$> deactivate_module i (length (frames t)) (frame_contexts t)
  end.

(** The stack node a wire record [(prefix, frame_id)] denotes. *)
Definition expand_stack_node (t : tables) (prefix frame_id : Z) : option StackNodeRecord :=
  if prefix =? NONE_U32 then Some (mkStackNode None frame_id 1)
  else (λ parent, mkStackNode (Some (prefix + 1)) frame_id (S (n_depth parent))) <$>
         stack_nodes t !! Z.to_nat prefix.

Inductive record_ok (t : tables) : wire_record -> DecodedSpoolRecord -> Prop :=
  | rok_module m :
      module_ok m -> jit_ok m -> m_id m = Z.of_nat (length (modules t)) ->
      record_ok t (WModule m) (DModule m)
  | rok_frame id tag address f :
      id = Z.of_nat (length (frames t)) -> id < u32_max -> is_u64 tag -> is_u64 address ->
      expand_frame (modules t) tag address = Ok f ->
      record_ok t (WFrame id tag address) (DFrame f)
  | rok_stack id prefix frame_id n :
      id = Z.of_nat (length (stack_nodes t)) -> id < u32_max ->
      0 <= prefix <= u32_max -> 0 <= frame_id < Z.of_nat (length (frames t)) ->
      frame_id <= u32_max -> expand_stack_node t prefix frame_id = Some n ->
      record_ok t (WStack id prefix frame_id) (DStack n)
  | rok_thread id process_id thread_id :
      id = Z.of_nat (length (threads t)) -> id < u32_max -> is_pid process_id -> is_pid thread_id ->
      record_ok t (WThread id process_id thread_id) (DThread (mkThread process_id thread_id))
  | rok_sample delta thread_id stack_id th :
      is_i64 delta -> is_u64 (last_timestamp_ns t + delta) ->
      is_u32 thread_id -> threads t !! Z.to_nat thread_id = Some th ->
      0 <= stack_id < Z.of_nat (length (stack_nodes t)) -> stack_id <= u32_max ->
      record_ok t (WSample delta thread_id stack_id)
        (DSample (mkSample (last_timestamp_ns t + delta) (t_process_id th) (t_thread_id th) stack_id))
  | rok_python timestamp_ns process_id flag :
      is_u64 timestamp_ns -> is_pid process_id ->
      record_ok t (WPythonRuntime timestamp_ns process_id flag)
        (DPythonRuntime (mkPythonRuntime timestamp_ns process_id flag))
  | rok_deactivate_process process_id :
      is_pid process_id ->
      record_ok t (WDeactivateProcess process_id) (DDeactivateProcess process_id)
  | rok_deactivate_module module_id :
      0 <= module_id < Z.of_nat (length (modules t)) -> module_id <= u32_max ->
      record_ok t (WDeactivateModule module_id) (DDeactivateModule (Z.to_nat module_id)).

Inductive stream (t : tables) : list wire_record -> list DecodedSpoolRecord -> tables -> Prop :=
  | stream_nil : stream t [] [] t
  | stream_cons r rs d ds t1 t2 :
      record_ok t r d -> apply_decoded t d = Some t1 -> stream t1 rs ds t2 ->
      stream t (r :: rs) (d :: ds) t2.

Lemma stream_app t1 rs1 ds1 t2 rs2 ds2 t3 :
  stream t1 rs1 ds1 t2 -> stream t2 rs2 ds2 t3 -> stream t1 (rs1 ++ rs2) (ds1 ++ ds2) t3.
Proof. induction 1; [done|]. intros. econstructor; eauto. Qed.

(** ** [decode_payload] inverts the format *)

Section decode.
Context `{VarIntLaws}.

Lemma decodes_frame t tag address f :
  Z.of_nat (length (frames t)) < u32_max -> is_u64 tag -> is_u64 address ->
  expand_frame (modules t) tag address = Ok f ->
  decodes (read_frame (modules t) (length (frames t)))
    (encode_var U64 (Z.of_nat (length (frames t))) ++ encode_var U64 tag ++ encode_var U64 address) f.
Proof.
  intros Hid Ht Ha Hf. unfold read_frame. do 3 decode_field. rewrite Hf. apply decodes_ret.
Qed.

Lemma decodes_stack_node t prefix frame_id n :
  Z.of_nat (length (stack_nodes t)) < u32_max -> 0 <= prefix <= u32_max ->
  0 <= frame_id < Z.of_nat (length (frames t)) -> frame_id <= u32_max ->
  expand_stack_node t prefix frame_id = Some n ->
  decodes (read_stack_node (stack_nodes t) (length (frames t)))
    (encode_var U64 (Z.of_nat (length (stack_nodes t))) ++ encode_var U64 prefix ++
     encode_var U64 frame_id) n.
Proof.
  intros Hid Hp Hf Hf' Hn. unfold read_stack_node, expand_stack_node in *. do 2 decode_field.
  destruct (Z.eqb_spec prefix NONE_U32) as [->|Hne].
  - eapply (decodes_bind _ _ []); [apply decodes_ret|]. simplify_eq.
    eapply decodes_last; [apply decodes_id_within; [word_lia|lia]|]. cbn. apply decodes_ret.
  - destruct (stack_nodes t !! Z.to_nat prefix) as [parent|] eqn:Hparent; [|done].
    pose proof (lookup_lt_Some _ _ _ Hparent).
    eapply decodes_lift.
    { by rewrite bounded_id_index_ok by word_lia. }
    eapply decodes_last; [apply decodes_id_within; [word_lia|lia]|].
    rewrite Hparent. cbn in Hn. simplify_eq. apply decodes_ret.
Qed.

Lemma decodes_thread n process_id thread_id :
  Z.of_nat n < u32_max -> is_pid process_id -> is_pid thread_id ->
  decodes (read_thread n)
    (encode_var U64 (Z.of_nat n) ++ encode_var I64 process_id ++ encode_var U64 thread_id)
    (mkThread process_id thread_id).
Proof.
  intros Hn Hp Ht. assert (is_u64 thread_id) by (unfold is_pid in Ht; word_lia).
  unfold read_thread. do 3 decode_field. rewrite Tid_try_from_id by done. apply decodes_ret.
Qed.

Lemma decodes_sample t delta thread_id stack_id th :
  is_i64 delta -> is_u64 (last_timestamp_ns t + delta) ->
  is_u32 thread_id -> threads t !! Z.to_nat thread_id = Some th ->
  0 <= stack_id < Z.of_nat (length (stack_nodes t)) -> stack_id <= u32_max ->
  decodes (read_sample (threads t) (length (stack_nodes t)) (last_timestamp_ns t))
    (encode_var I64 delta ++ encode_var U64 thread_id ++ encode_var U64 stack_id)
    (mkSample (last_timestamp_ns t + delta) (t_process_id th) (t_thread_id th) stack_id).
Proof.
  intros Hd Hts Hth Hlook Hs Hs'. unfold read_sample. decode_field.
  unfold checked_add_signed_u64. rewrite (proj2 (andb_true_iff _ _)) by word_lia.
  eapply decodes_lift; [done|].
  pose proof (lookup_lt_Some _ _ _ Hlook).
  eapply decodes_bind; [apply decodes_index_within; word_lia|].
  eapply decodes_lift; [by rewrite Hlook|].
  eapply decodes_last; [apply decodes_id_within; [word_lia|lia]|]. apply decodes_ret.
Qed.

Lemma decode_payload_ok t r d :
  record_ok t r d -> decodes (decode_payload (wire_tag r) t) (wire_payload r) d.
Proof.
  destruct 1; unfold decode_payload; cbn [wire_tag wire_payload].
  - replace ((module_tag m =? REC_MODULE) || (module_tag m =? REC_JIT_MODULE)) with true
      by (unfold module_tag; by destruct (m_jit_symbols m)).
    replace (length (modules t)) with (Z.to_nat (m_id m)) by lia.
    eapply decodes_last; [by apply decodes_module|apply decodes_ret].
  - subst. eapply decodes_last; [by apply decodes_frame|apply decodes_ret].
  - subst. eapply decodes_last; [by apply decodes_stack_node|apply decodes_ret].
  - subst. eapply decodes_last; [by apply decodes_thread|apply decodes_ret].
  - eapply decodes_last; [by apply decodes_sample|apply decodes_ret].
  - eapply decodes_last; [|apply decodes_ret]. unfold read_python_runtime.
    do 3 decode_field. apply decodes_ret.
  - eapply decodes_last; [by apply decodes_pid|apply decodes_ret].
  - eapply decodes_last; [apply decodes_index_within; word_lia|apply decodes_ret].
Qed.
End decode.

(** ** The inline dispatch of [open_spool] is the shared one plus a commit *)

Definition commit_open (storage : SampleStorage) (st : open_state) (d : DecodedSpoolRecord)
    : result open_state :=
  match d with
  | DSample s =>
      match checked_add_u64 (os_sample_count st) 1 with
      | None => Err InvalidData
      | Some count =>
          Ok (mkOpen (commit_timestamp (s_timestamp_ns s) (os_tables st))
                (if decide (storage = Retain) then os_samples st ++ [s] else os_samples st)
                (os_processes st) count (os_ranges st) (os_scan_start st))
      end
  | DPythonRuntime p => Ok (observe (p_process_id p) st)
  | DDeactivateProcess pid =>
      match apply_decoded (os_tables st) d with
      | None => Err Panicked
      | Some t => Ok (observe pid (with_tables t st))
      end
  | _ =>
      match apply_decoded (os_tables st) d with
      | None => Err Panicked
      | Some t => Ok (with_tables t st)
      end
  end.

Section dispatch.
Context `{VarIntCrate}.

Lemma parse_record_is_decode storage tag st c :
  parse_record storage tag st c =
    (d ← decode_payload tag (os_tables st); io_lift (commit_open storage st d)) c.
Proof.
  unfold parse_record, decode_payload, mbind, io_mbind, mret, io_mret, io_fail, io_lift.
  repeat (case_match; simplify_eq/=; try done);
    unfold commit_open, apply_decoded in *;
    repeat (case_match; simplify_eq/=; try done).
  all: repeat match goal with
       | H : context [deactivate_owner ?a ?b ?c] |- _ => destruct (deactivate_owner a b c) as [[]|]
       | H : context [deactivate_module ?a ?b ?c] |- _ => destruct (deactivate_module a b c) as [[]|]
       | H : context [checked_add_u64 ?a ?b] |- _ => destruct (checked_add_u64 a b)
       end; simplify_eq/=; try done.
Qed.
End dispatch.

(** ** The record loop on a valid stream *)

Definition is_sample (r : wire_record) : bool :=
  match r with WSample _ _ _ => true | _ => false end.

Section loop.
Context `{VarIntLaws} (storage : SampleStorage) (range_limit : Z).

(** The state of [open_spool] after the records [rs] starting at [pos]. *)
Fixpoint open_after (pos : nat) (st : open_state)
    (rs : list wire_record) (ds : list DecodedSpoolRecord) : result open_state :=
  match rs, ds with
  | r :: rs, d :: ds =>
      match commit_open storage st d with
      | Err e => Err e
      | Ok st =>
          let stop := (pos + length (encode_record r))%nat in
          open_after stop (if is_sample r then index_sample range_limit pos stop st else st) rs ds
      end
  | _, _ => Ok st
  end.

Lemma wire_tag_sample t r d : record_ok t r d -> (wire_tag r =? REC_SAMPLE) = is_sample r.
Proof.
  destruct 1; try done. cbn. unfold module_tag. by destruct (m_jit_symbols m).
Qed.

Lemma index_sample_tables start stop st :
  os_tables (index_sample range_limit start stop st) = os_tables st.
Proof. unfold index_sample. by repeat case_match. Qed.

Lemma commit_open_tables st d st' :
  commit_open storage st d = Ok st' -> apply_decoded (os_tables st) d = Some (os_tables st').
Proof.
  unfold commit_open. repeat case_match; intros; by simplify_eq/=.
Qed.

(** One iteration. *)
Lemma open_loop_step fuel st r d st' pre rest :
  record_ok (os_tables st) r d -> commit_open storage st d = Ok st' ->
  mappable (pre ++ encode_record r ++ rest) ->
  open_loop (S fuel) storage range_limit st (mkCursor (pre ++ encode_record r ++ rest) (length pre)) =
  open_loop fuel storage range_limit
    (if is_sample r
     then index_sample range_limit (length pre) (length (pre ++ encode_record r)) st' else st')
    (mkCursor (pre ++ encode_record r ++ rest) (length (pre ++ encode_record r))).
Proof.
  intros Hr Hc Hm. cbn [open_loop]. unfold read_tag at 1. cbn [position mmap].
  rewrite !length_app. unfold encode_record in *. cbn [length app].
  destruct (Nat.eqb_spec (length pre) (length pre + (S (length (wire_payload r)) + length rest)))%nat;
    [lia|].
  rewrite list_lookup_middle by done. cbn [set_position mmap position].
  rewrite parse_record_is_decode.
  pose proof (decode_payload_ok _ _ _ Hr) as [Hdec _].
  specialize (Hdec (pre ++ [wire_tag r]) rest). rewrite <- app_assoc, length_app, Nat.add_1_r in Hdec. cbn [app] in Hdec.
  rewrite (io_bind_ok _ _ _ _ _ (Hdec Hm)).
  unfold io_lift. rewrite Hc. cbn [position].
  rewrite (wire_tag_sample _ _ _ Hr), Nat.add_succ_comm. done.
Qed.

Lemma open_loop_stream fuel st rs ds t st' pre rest :
  stream (os_tables st) rs ds t ->
  open_after (length pre) st rs ds = Ok st' ->
  (length rs <= fuel)%nat ->
  mappable (pre ++ concat (encode_record <$> rs) ++ rest) ->
  open_loop fuel storage range_limit st
    (mkCursor (pre ++ concat (encode_record <$> rs) ++ rest) (length pre)) =
  open_loop (fuel - length rs) storage range_limit st'
    (mkCursor (pre ++ concat (encode_record <$> rs) ++ rest)
       (length (pre ++ concat (encode_record <$> rs)))).
Proof.
  intros Hs. revert fuel st' pre. remember (os_tables st) as t0 eqn:Ht.
  revert st Ht. induction Hs as [|t0 r rs d ds t1 t2 Hr Ha Hs IH];
    intros st -> fuel st' pre Hafter Hf Hm; cbn [open_after] in Hafter.
  { simplify_eq. cbn. by rewrite app_nil_r, Nat.sub_0_r. }
  destruct fuel as [|fuel]; [cbn in Hf; lia|].
  destruct (commit_open storage st d) as [st1|] eqn:Hc; [|done].
  cbn [fmap list_fmap concat] in *. rewrite <- app_assoc in *.
  rewrite (open_loop_step _ _ _ _ _ _ _ Hr Hc) by done.
  rewrite app_assoc in *. rewrite <- length_app in Hafter.
  rewrite (IH _) with (st' := st').
  - cbn [length Nat.sub]. by rewrite !app_assoc.
  - apply commit_open_tables in Hc. rewrite Ha in Hc. simplify_eq.
    destruct (is_sample r); [by rewrite index_sample_tables|done].
  - done.
  - cbn in Hf. lia.
  - done.
Qed.

(** The end of the file: exactly after a record, or inside one. *)
Lemma open_loop_end fuel st bytes :
  open_loop (S fuel) storage range_limit st (mkCursor bytes (length bytes)) = Ok (st, false).
Proof. cbn. unfold read_tag. cbn. by rewrite Nat.eqb_refl. Qed.

Lemma open_loop_cut fuel st r d pre cut b tl :
  record_ok (os_tables st) r d -> encode_record r = cut ++ b :: tl -> cut <> [] ->
  mappable (pre ++ encode_record r) ->
  open_loop (S fuel) storage range_limit st (mkCursor (pre ++ cut) (length pre)) = Ok (st, true).
Proof.
  intros Hr Heq Hne Hm. destruct cut as [|c cut]; [done|].
  unfold encode_record in *. cbn in Heq. injection Heq as <- Heq.
  cbn [open_loop]. unfold read_tag. cbn [position mmap]. rewrite length_app. cbn [length].
  destruct (Nat.eqb_spec (length pre) (length pre + S (length cut)))%nat; [lia|].
  rewrite list_lookup_middle by done. cbn [set_position mmap position].
  rewrite parse_record_is_decode.
  pose proof (decode_payload_ok _ _ _ Hr) as [_ Hdec].
  specialize (Hdec (pre ++ [wire_tag r]) cut b tl Heq).
  rewrite <- !app_assoc, length_app, Nat.add_1_r in Hdec.
  rewrite (io_bind_err _ _ _ _ _ (Hdec Hm)).
  rewrite decide_True by done. unfold at_eof. cbn. by rewrite Nat.eqb_refl.
Qed.
End loop.

(** ** Theorems *)

(** The dispatch written out in [open_spool] (behind [Snapshot] and
    [Replay]) and the one of [decode_spool_record] (behind [Tail]) decode the
    same records: parsing is decoding followed by the commit of the decoded
    record, in state, cursor and error, on all bytes. *)
Theorem open_and_tail_dispatch_agree `{VarIntCrate} (storage : SampleStorage) (tag : Z)
    (st : open_state) (c : MmapSpoolCursor) :
  parse_record storage tag st c =
    (d ← decode_payload tag (os_tables st); io_lift (commit_open storage st d)) c.
Proof. apply parse_record_is_decode. Qed.
