(* ===== verification/Snapshot.v ===== *)
(** * Whole files

    [open_spool] on the bytes of a complete recording and on any cut of it:
    a reader gets exactly the records that were written completely. *)

From stdpp Require Import prelude gmap list numbers sorting.
From S2P Require Import Prelude Varint Cursor Model Records Contexts Reader Stream.
#[local] Open Scope Z_scope.

Record origin_ok (origin : ClockOrigin) : Prop := {
  ook_monotonic : is_u64 (monotonic_ns origin);
  ook_wall : is_i64 (wall_time origin / NANOS);
}.

Record header := mkHeader {
  h_start_timestamp_us : Z;
  h_sample_interval_ns : Z;
  h_clock_origin : option ClockOrigin;
}.
Record header_ok (h : header) : Prop := {
  hok_start : is_u64 (h_start_timestamp_us h);
  hok_interval : is_u64 (h_sample_interval_ns h);
  hok_origin : match h_clock_origin h with Some o => origin_ok o | None => True end;
}.

Section files.
Context `{VarIntCrate}.

Definition encode_header (h : header) : list Z :=
  CURRENT_MAGIC ++ encode_var U64 (h_start_timestamp_us h) ++
  encode_var U64 (h_sample_interval_ns h) ++ encode_clock_origin (h_clock_origin h).

Definition encode_records (rs : list wire_record) : list Z := concat (encode_record <$> rs).

Definition spool_file (h : header) (rs : list wire_record) : list Z :=
  encode_header h ++ encode_records rs.

(** How many records lie completely within the first [n] bytes of the record
    area, and how many bytes of the next one are left. *)
Fixpoint complete_records (n : nat) (rs : list wire_record) : nat :=
  match rs with
  | [] => 0
  | r :: rs =>
      if (length (encode_record r) <=? n)%nat
      then S (complete_records (n - length (encode_record r)) rs) else 0
  end.
Fixpoint leftover_bytes (n : nat) (rs : list wire_record) : nat :=
  match rs with
  | [] => 0
  | r :: rs =>
      if (length (encode_record r) <=? n)%nat
      then leftover_bytes (n - length (encode_record r)) rs else n
  end.
End files.

Definition samples_of (ds : list DecodedSpoolRecord) : list SampleRecord :=
  omap (λ d, match d with DSample s => Some s | _ => None end) ds.

(** The process ids a record mentions outside the tables. *)
Definition observed_of (ds : list DecodedSpoolRecord) : list Z :=
  omap (λ d, match d with
             | DPythonRuntime p => Some (p_process_id p)
             | DDeactivateProcess pid => Some pid
             | _ => None
             end) ds.

Section snapshot.
Context `{VarIntLaws}.

Lemma system_time_checked_ok ns : is_i64 (ns / NANOS) -> system_time_checked ns = Some ns.
Proof. intros Hs. unfold system_time_checked. by rewrite (proj2 (andb_true_iff _ _)) by word_lia. Qed.

Lemma nanos_pos : 0 < NANOS.
Proof. done. Qed.

Lemma duration_split d : 0 <= d -> d / NANOS * NANOS + d mod NANOS = d.
Proof. intros. pose proof (Z.div_mod d NANOS ltac:(done)). lia. Qed.

Lemma decodes_clock_origin origin :
  match origin with Some o => origin_ok o | None => True end ->
  decodes read_clock_origin (encode_clock_origin origin) origin.
Proof.
  unfold read_clock_origin, encode_clock_origin. destruct origin as [[mono wall]|]; cbn [monotonic_ns wall_time].
  2: { intros _. eapply decodes_last; [by apply decodes_varint|apply decodes_ret]. }
  intros [Hm Hw]; cbn in Hm, Hw. pose proof nanos_pos.
  assert (exists sign d, (if 0 <=? wall then (1, wall) else (-1, - wall)) = (sign, d) /\
            (sign = 1 /\ wall = d \/ sign = -1 /\ wall = - d) /\ 0 <= d /\ d / NANOS <= i64_max + 1)
    as (sign & d & -> & Hsign & Hd & Hds).
  { destruct (Z.leb_spec 0 wall).
    - exists 1, wall. repeat split; auto; word_lia.
    - exists (-1), (- wall). repeat split; auto; try lia.
      pose proof (Z.div_mod wall NANOS ltac:(done)). pose proof (Z.mod_pos_bound wall NANOS nanos_pos).
      apply Z.lt_succ_r, Z.div_lt_upper_bound; [done|]. word_unfold. nia. }
  pose proof (Z.mod_pos_bound d NANOS nanos_pos). pose proof (Z.div_pos d NANOS Hd nanos_pos).
  assert (is_u64 (d / NANOS)) by word_lia.
  assert (is_u32 (d mod NANOS)) by (unfold NANOS in *; word_lia).
  decode_field. cbn [Z.eqb negb Pos.eqb].
  do 1 decode_field. eapply decodes_bind; [apply decodes_varint; cbn; destruct Hsign as [[-> _]|[-> _]]; word_lia|].
  do 2 decode_field. rewrite (proj2 (Z.leb_gt _ _)) by lia. rewrite duration_split by done.
  destruct Hsign as [[-> ->]|[-> ->]]; cbn [Z.eqb Pos.eqb].
  - rewrite system_time_checked_ok by done. apply decodes_ret.
  - rewrite system_time_checked_ok by done. apply decodes_ret.
Qed.

Lemma decodes_header h :
  header_ok h ->
  decodes read_header (encode_header h)
    (h_start_timestamp_us h, h_sample_interval_ns h, h_clock_origin h).
Proof.
  intros [Hs Hi Ho]. unfold read_header, encode_header.
  eapply decodes_bind; [apply decodes_magic|]. do 2 decode_field.
  eapply decodes_last; [by apply decodes_clock_origin|apply decodes_ret].
Qed.

(** Retaining readers accumulate the samples and never touch the ranges. *)
Lemma open_after_retain limit pos st rs ds t :
  stream (os_tables st) rs ds t -> os_ranges st = None ->
  os_sample_count st + Z.of_nat (length rs) <= u64_max ->
  open_after Retain limit pos st rs ds =
    Ok (mkOpen t (os_samples st ++ samples_of ds) (os_processes st ++ observed_of ds)
          (os_sample_count st + Z.of_nat (length (samples_of ds))) None (os_scan_start st)).
Proof.
  intros Hs. remember (os_tables st) as t0 eqn:Ht. revert pos st Ht.
  induction Hs as [|t0 r rs d ds t1 t2 Hr Ha Hs IH]; intros pos st -> Hn Hc.
  { destruct st; cbn in *. subst. by rewrite !app_nil_r, Z.add_0_r. }
  cbn [open_after].
  assert (exists st1, commit_open Retain st d = Ok st1 /\ os_tables st1 = t1 /\ os_ranges st1 = None /\
            os_scan_start st1 = os_scan_start st /\
            os_samples st1 = os_samples st ++ samples_of [d] /\
            os_processes st1 = os_processes st ++ observed_of [d] /\
            os_sample_count st1 = os_sample_count st + Z.of_nat (length (samples_of [d])))
    as (st1 & -> & Ht1 & Hr1 & Hsc & Hs1 & Hp1 & Hc1).
  { cbn in Hc. unfold commit_open. destruct d; rewrite ?Ha;
      try (eexists; split; [done|]; cbn; rewrite ?app_nil_r, ?Z.add_0_r;
           cbn in Ha; simplify_eq; done).
    unfold checked_add_u64. rewrite (proj2 (Z.leb_le _ _)) by lia.
    eexists; split; [done|]; cbn. cbn in Ha. simplify_eq. by rewrite app_nil_r. }
  assert (index_sample limit pos (pos + length (encode_record r)) st1 = st1) as Hix.
  { unfold index_sample. rewrite Hr1. by destruct (os_scan_start st1). }
  replace (if is_sample r then _ else st1) with st1 by (rewrite Hix; by destruct (is_sample r)).
  rewrite (IH _ st1); [|done|done|].
  - rewrite Hs1, Hp1, Hc1, Hsc. change (d :: ds) with ([d] ++ ds).
    unfold samples_of, observed_of. rewrite !omap_app, !app_assoc, length_app.
    do 2 f_equal. lia.
  - rewrite Hc1. assert (length (samples_of [d]) <= 1)%nat by (by destruct d; cbn; lia).
    cbn in Hc. lia.
Qed.
End snapshot.

(** ** Cutting a file *)

Section cutting.
Context `{VarIntLaws}.

Lemma encode_records_length rs : (length rs <= length (encode_records rs))%nat.
Proof.
  unfold encode_records. induction rs as [|r rs IH]; [done|].
  cbn [fmap list_fmap concat length]. rewrite length_app. cbn [length encode_record]. lia.
Qed.

Lemma stream_length t rs ds t' : stream t rs ds t' -> length ds = length rs.
Proof. induction 1; cbn; congruence. Qed.

(** A prefix of a stream is a stream. *)
Lemma stream_take k t rs ds t' :
  stream t rs ds t' -> exists tk, stream t (take k rs) (take k ds) tk /\
    (forall r, rs !! k = Some r -> exists d, record_ok tk r d).
Proof.
  intros Hs. revert k. induction Hs as [|t r rs d ds t1 t2 Hr Ha Hs IH]; intros k.
  { exists t. rewrite !take_nil. split; [constructor|done]. }
  destruct k as [|k].
  - exists t. split; [constructor|]. intros r' [= <-]. by exists d.
  - destruct (IH k) as (tk & Hk & Hnext). exists tk. split; [by econstructor|done].
Qed.

(** The first [n] bytes of the record area: complete records and a cut one. *)
Lemma take_encode_records n rs :
  (n <= length (encode_records rs))%nat ->
  exists cut, take n (encode_records rs) =
      encode_records (take (complete_records n rs) rs) ++ cut /\
    length cut = leftover_bytes n rs /\
    (cut = [] \/ exists r b tl, rs !! complete_records n rs = Some r /\
                   encode_record r = cut ++ b :: tl).
Proof.
  revert n. induction rs as [|r rs IH]; intros n Hn.
  { exists []. unfold encode_records. cbn. rewrite take_nil. auto. }
  unfold encode_records in *. cbn [fmap list_fmap concat complete_records leftover_bytes] in *.
  destruct (Nat.leb_spec (length (encode_record r)) n) as [Hle|Hlt].
  - rewrite length_app in Hn.
    destruct (IH (n - length (encode_record r))%nat) as (cut & Heq & Hl & Hcut); [lia|].
    exists cut. rewrite take_app, take_ge, Heq by done. cbn [take fmap list_fmap concat].
    by rewrite app_assoc.
  - exists (take n (encode_record r)). rewrite take_app_le by lia. cbn [take fmap list_fmap concat app].
    split; [done|]. split; [rewrite length_take; lia|]. right.
    destruct (drop n (encode_record r)) as [|b tl] eqn:Hd.
    { apply (f_equal length) in Hd. rewrite length_drop in Hd. cbn [length] in Hd. lia. }
    exists r, b, tl. split; [done|]. by rewrite <- Hd, take_drop.
Qed.

Lemma open_spool_cut h rs ds t n :
  header_ok h -> stream tables_empty rs ds t -> mappable (spool_file h rs) ->
  (n <= length (encode_records rs))%nat ->
  exists tk,
    stream tables_empty (take (complete_records n rs) rs) (take (complete_records n rs) ds) tk /\
    open_spool (encode_header h ++ take n (encode_records rs)) Retain =
      Ok (finish_open (encode_header h ++ take n (encode_records rs))
            (h_start_timestamp_us h) (h_sample_interval_ns h) (h_clock_origin h)
            (mkOpen tk (samples_of (take (complete_records n rs) ds))
               (observed_of (take (complete_records n rs) ds))
               (Z.of_nat (length (samples_of (take (complete_records n rs) ds)))) None None)
            (negb (leftover_bytes n rs =? 0)%nat)).
Proof.
  intros Hh Hs Hm Hn. set (k := complete_records n rs).
  destruct (stream_take k _ _ _ _ Hs) as (tk & Hk & Hnext). exists tk. split; [done|].
  destruct (take_encode_records n rs Hn) as (cut & Heq & Hl & Hcut). fold k in Heq, Hcut.
  assert (mappable (encode_header h ++ take n (encode_records rs))) as Hm'.
  { unfold mappable, spool_file in *. rewrite length_app in *. rewrite length_take. lia. }
  unfold open_spool, open_spool_with_range_limit. rewrite Heq in *.
  pose proof (decodes_header h Hh) as [Hhead _]. specialize (Hhead [] _ Hm').
  cbn [app length Nat.add] in Hhead. rewrite Hhead.
  set (prefix := encode_records (take k rs)) in *.
  pose proof (encode_records_length (take k rs)) as Hlen. fold prefix in Hlen.
  set (fuel := S (length (encode_header h ++ prefix ++ cut))).
  assert (length (take k rs) + 2 <= fuel)%nat as Hfuel.
  { unfold fuel. rewrite !length_app. unfold encode_header, CURRENT_MAGIC.
    rewrite length_app. cbn [length]. lia. }
  unfold prefix, encode_records.
  rewrite (open_loop_stream Retain MAX_REPLAY_SAMPLE_RANGES fuel (open_start Retain) (take k rs)
             (take k ds) tk) with (st' := mkOpen tk (samples_of (take k ds))
               (observed_of (take k ds)) (Z.of_nat (length (samples_of (take k ds)))) None None);
    [|done| |lia|done].
  2: { rewrite (open_after_retain _ _ (open_start Retain) _ _ tk); [done|done|done|].
       cbn. unfold mappable in Hm'. rewrite !length_app in Hm'. word_lia. }
  fold (encode_records (take k rs)) prefix.
  destruct (fuel - length (take k rs))%nat as [|fuel'] eqn:Hf; [lia|].
  destruct cut as [|c cut].
  - rewrite app_nil_r in *. rewrite open_loop_end. by rewrite <- Hl.
  - destruct Hcut as [|(r & b & tl & Hr & Henc)]; [done|].
    destruct (Hnext r Hr) as (d & Hok).
    rewrite (app_assoc (encode_header h)), open_loop_cut with (r := r) (d := d) (b := b) (tl := tl);
      [by rewrite <- Hl|done|done|done|].
    unfold mappable, spool_file in *. rewrite !length_app in *. rewrite Henc, length_app.
    assert (length prefix + length (encode_record r) <= length (encode_records rs))%nat.
    { rewrite <- (take_drop k rs). unfold encode_records. rewrite fmap_app, concat_app, length_app.
      rewrite (drop_S rs r k) by done. cbn [fmap list_fmap concat]. rewrite length_app.
      unfold prefix, encode_records. lia. }
    rewrite Henc, length_app in *. lia.
Qed.

Lemma complete_records_all rs :
  complete_records (length (encode_records rs)) rs = length rs /\
  leftover_bytes (length (encode_records rs)) rs = 0%nat.
Proof.
  unfold encode_records. induction rs as [|r rs [IH1 IH2]]; [done|].
  cbn [fmap list_fmap concat complete_records leftover_bytes]. rewrite length_app.
  rewrite (proj2 (Nat.leb_le _ _)) by lia.
  replace (_ + _ - _)%nat with (length (concat (encode_record <$> rs))) by lia.
  rewrite IH1, IH2. done.
Qed.

Lemma stream_functional t rs ds t1 :
  stream t rs ds t1 -> forall t2, stream t rs ds t2 -> t1 = t2.
Proof.
  induction 1 as [|t r rs d ds t1 t2 Hr Ha Hs IH]; intros t3 H3; inversion H3; simplify_eq; [done|].
  by apply IH.
Qed.

Lemma open_spool_complete h rs ds t :
  header_ok h -> stream tables_empty rs ds t -> mappable (spool_file h rs) ->
  open_spool (spool_file h rs) Retain =
    Ok (finish_open (spool_file h rs)
          (h_start_timestamp_us h) (h_sample_interval_ns h) (h_clock_origin h)
          (mkOpen t (samples_of ds) (observed_of ds) (Z.of_nat (length (samples_of ds))) None None)
          false).
Proof.
  intros Hh Hs Hm. destruct (open_spool_cut h rs ds t _ Hh Hs Hm (Nat.le_refl _)) as (tk & Hk & Ho).
  destruct (complete_records_all rs) as [E1 E2]. rewrite E1, E2, firstn_all in *.
  rewrite <- (stream_length _ _ _ _ Hs), firstn_all in *.
  rewrite (stream_functional _ _ _ _ Hk t Hs) in Ho. exact Ho.
Qed.
End cutting.
