(* ===== verification/Tables.v ===== *)
(** * Well-formed tables and their growth

    The invariant of the decoded tables, its preservation by every valid
    record, and what growth may not change: the meaning of a frame id (its
    module) and of a stack id (its frames). *)

From stdpp Require Import prelude gmap list numbers sorting.
From S2P Require Import Prelude Varint Cursor Model Records Contexts Reader Stream.
#[local] Open Scope Z_scope.

Definition node_ok (t : tables) (i : nat) (n : StackNodeRecord) : Prop :=
  0 <= n_frame_id n < Z.of_nat (length (frames t)) /\
  match n_prefix n with
  | None => n_depth n = 1%nat
  | Some p => 1 <= p <= Z.of_nat i /\
      exists parent, stack_nodes t !! Z.to_nat (p - 1) = Some parent /\
        n_depth n = S (n_depth parent)
  end.

Record tables_wf (t : tables) : Prop := {
  twf_contexts : contexts_wf (modules t) (length (frames t)) (frame_contexts t);
  twf_ids : dense_ids (modules t);
  twf_owners : Forall (λ m, owner_ok (m_owner m)) (modules t);
  twf_nodes i n : stack_nodes t !! i = Some n -> node_ok t i n;
  twf_pinned i f id : frames t !! i = Some f -> f_module_id f = Some id ->
    0 <= id < Z.of_nat (length (modules t));
}.

Lemma tables_wf_empty : tables_wf tables_empty.
Proof. by split. Qed.

(** [extends t t']: [t'] has everything [t] has, and every frame of [t] sees
    the same active modules. *)
Record extends (t t' : tables) : Prop := {
  ext_modules : modules t `prefix_of` modules t';
  ext_frames : frames t `prefix_of` frames t';
  ext_nodes : stack_nodes t `prefix_of` stack_nodes t';
  ext_threads : threads t `prefix_of` threads t';
  ext_context id c : for_frame_id (frame_contexts t) id = Some c ->
    for_frame_id (frame_contexts t') id = Some c /\
    forall j, module_active (frame_contexts t') j c = module_active (frame_contexts t) j c;
}.

#[global] Instance extends_preorder : PreOrder extends.
Proof.
  split.
  - intros t. by split.
  - intros t1 t2 t3 [Hm1 Hf1 Hn1 Ht1 Hc1] [Hm2 Hf2 Hn2 Ht2 Hc2].
    split; try (by etrans). intros id c Hc. destruct (Hc1 id c Hc) as [Hc' Ha1].
    destruct (Hc2 id c Hc') as [Hc'' Ha2]. split; [done|]. intros j. by rewrite Ha2.
Qed.

(** ** Context stability *)

Section contexts.
Context (ms : list ModuleRecord) (nframes : nat) (ctx : SpoolFrameModuleContexts).
Hypothesis Hwf : contexts_wf ms nframes ctx.

Lemma for_frame_id_some id c :
  for_frame_id ctx id = Some c <->
  frame_index c = Z.to_nat id /\
  concat (frame_module_limits ctx) !! Z.to_nat id = Some (module_limit c).
Proof.
  unfold for_frame_id. rewrite chunked_get_flat by apply Hwf.
  destruct (concat _ !! _) as [l|]; cbn; destruct c as [fi li]; cbn; [|split; [done|by intros [??]]].
  split; [by intros [= <- <-]|by intros [-> [= <-]]].
Qed.

Lemma for_frame_id_bound id c :
  for_frame_id ctx id = Some c ->
  (frame_index c < nframes)%nat /\ (module_limit c <= length ms)%nat.
Proof.
  intros [Hi Hl]%for_frame_id_some. rewrite Hi.
  split; [|by apply (cwf_limits_bound _ _ _ Hwf) in Hl].
  apply lookup_lt_Some in Hl. by rewrite (cwf_limits_length _ _ _ Hwf) in Hl.
Qed.

Lemma module_active_flat j c :
  module_active ctx j c = (j <? module_limit c)%nat &&
    match mjoin (concat (module_deactivated_at ctx) !! j) with
    | None => true
    | Some d => (frame_index c <? d)%nat
    end.
Proof. unfold module_active. by rewrite chunked_get_flat by apply Hwf. Qed.

(** A deactivation is invisible to the frames already there. *)
Lemma deactivate_module_context id w ctx' :
  deactivate_module id nframes ctx = Some (w, ctx') ->
  concat (frame_module_limits ctx') = concat (frame_module_limits ctx) /\
  (forall j, concat (module_deactivated_at ctx') !! j = concat (module_deactivated_at ctx) !! j \/
             (j = id /\ concat (module_deactivated_at ctx) !! j = Some None /\
              concat (module_deactivated_at ctx') !! j = Some (Some nframes))).
Proof.
  unfold deactivate_module. rewrite chunked_get_flat by apply Hwf.
  destruct (concat _ !! id) as [[d|]|] eqn:Hs; cbn; intros [= <- <-]; [auto|]. cbn. split; [done|].
  intros j. destruct (chunked_set_spec (module_deactivated_at ctx) id (Some nframes)) as (_ & _ & ->);
    [apply Hwf|].
  destruct (decide (id = j)) as [->|]; [|left; by rewrite list_lookup_insert_ne].
  right. rewrite list_lookup_insert_eq by (by eapply lookup_lt_Some). done.
Qed.
End contexts.

(** Two contexts agree on frames below [nframes] when they differ only by slots
    deactivated at [nframes] or later. *)
Lemma module_active_agree ms nframes ctx ctx' ms' nframes' id c :
  contexts_wf ms nframes ctx -> contexts_wf ms' nframes' ctx' ->
  for_frame_id ctx id = Some c ->
  (forall j l, concat (frame_module_limits ctx) !! j = Some l ->
     concat (frame_module_limits ctx') !! j = Some l) ->
  (forall j, (j < length ms)%nat ->
     concat (module_deactivated_at ctx') !! j = concat (module_deactivated_at ctx) !! j \/
     concat (module_deactivated_at ctx) !! j = Some None /\
     exists d, concat (module_deactivated_at ctx') !! j = Some (Some d) /\ (nframes <= d)%nat) ->
  for_frame_id ctx' id = Some c /\ forall j, module_active ctx' j c = module_active ctx j c.
Proof.
  intros Hwf Hwf' Hc Hlim Hslots.
  destruct (for_frame_id_bound _ _ _ Hwf _ _ Hc) as [Hb1 Hb2].
  pose proof (proj1 (for_frame_id_some _ _ _ Hwf _ _) Hc) as [Hi Hl]. split.
  - apply (for_frame_id_some _ _ _ Hwf'). split; [done|]. by apply Hlim.
  - intros j. rewrite (module_active_flat _ _ _ Hwf), (module_active_flat _ _ _ Hwf').
    destruct (Nat.ltb_spec j (module_limit c)); [cbn|done].
    destruct (Hslots j) as [->|(-> & d & -> & Hd)]; [lia|done|]. cbn. apply Nat.ltb_lt. lia.
Qed.

(** ** Preservation *)

Lemma node_ok_mono t t' i n :
  (length (frames t) <= length (frames t'))%nat -> stack_nodes t `prefix_of` stack_nodes t' ->
  node_ok t i n -> node_ok t' i n.
Proof.
  intros Hf Hp [Hid Hpre]. split; [lia|]. destruct (n_prefix n); [|done].
  destruct Hpre as (Hr & parent & Hl & Hd). split; [done|]. exists parent. split; [|done].
  by eapply prefix_lookup_Some.
Qed.

Lemma expand_frame_pinned ms tag ip f id :
  expand_frame ms tag ip = Ok f -> f_module_id f = Some id -> 0 <= id < Z.of_nat (length ms).
Proof.
  unfold expand_frame, bounded_id_index, check_bounded_index, u32_try_from.
  intros H Hid. repeat (case_match; simplify_eq/=).
  repeat match goal with
  | H : (_ && _) = true |- _ => apply andb_true_iff in H as [??]
  | H : (_ >=? _) = false |- _ => rewrite Z.geb_leb in H; apply Z.leb_gt in H
  | H : (_ <=? _) = true |- _ => apply Z.leb_le in H
  end. lia.
Qed.

Lemma expand_stack_node_ok t prefix frame_id n :
  0 <= prefix <= u32_max -> 0 <= frame_id < Z.of_nat (length (frames t)) ->
  expand_stack_node t prefix frame_id = Some n ->
  node_ok t (length (stack_nodes t)) n.
Proof.
  unfold expand_stack_node. intros Hp Hf. destruct (Z.eqb_spec prefix NONE_U32) as [->|]; intros H.
  - simplify_eq. by split.
  - destruct (stack_nodes t !! _) as [parent|] eqn:Hl; [|done]. cbn in H. simplify_eq.
    split; [done|]. cbn. pose proof (lookup_lt_Some _ _ _ Hl). split; [lia|].
    exists parent. by rewrite Z.add_simpl_r.
Qed.

Section preservation.
Context (t : tables) (Hwf : tables_wf t).

Lemma push_module_record_wf m :
  owner_ok (m_owner m) -> m_id m = Z.of_nat (length (modules t)) ->
  tables_wf (push_module_record m t) /\ extends t (push_module_record m t).
Proof.
  intros Hok Hid. destruct Hwf as [Hc Hd Ho Hn Hp].
  pose proof (push_module_wf _ _ _ m Hc) as Hc'. split.
  - split; cbn; try done.
    + intros i m' [Hi|[Hlen Hi]]%lookup_app_Some; [by apply Hd|].
      apply list_lookup_singleton_Some in Hi as [Hi <-]. lia.
    + apply Forall_app. split; [done|]. by constructor.
    + intros i f id Hf Hm. specialize (Hp i f id Hf Hm). rewrite length_app. lia.
  - split; cbn; try done; [by eexists|]. intros id c Hfc.
    eapply module_active_agree; [apply Hc|apply Hc'|done|done|].
    intros j Hj. left. cbn.
    destruct (chunked_push_spec (module_deactivated_at (frame_contexts t)) None) as (_ & _ & ->);
      [apply Hc|].
    rewrite lookup_app_l; [done|]. by rewrite (cwf_deactivated_length _ _ _ Hc).
Qed.

Lemma push_frame_record_wf tag ip f :
  expand_frame (modules t) tag ip = Ok f ->
  tables_wf (push_frame_record f t) /\ extends t (push_frame_record f t).
Proof.
  intros Hexp. destruct Hwf as [Hc Hd Ho Hn Hp].
  pose proof (push_frame_wf _ _ _ Hc) as Hc'. split.
  - split; cbn; try done.
    + rewrite length_app, Nat.add_1_r. done.
    + intros i n Hi. eapply node_ok_mono; [..|by apply Hn]; cbn; [rewrite length_app; lia|done].
    + intros i f' id [Hi|[_ Hi]]%lookup_app_Some; [by eapply Hp|].
      apply list_lookup_singleton_Some in Hi as [_ <-]. by apply (expand_frame_pinned _ _ _ _ _ Hexp).
  - split; cbn; try done; [by eexists|]. intros id c Hfc.
    eapply module_active_agree; [apply Hc|apply Hc'|done| |by left].
    intros j l Hj. cbn.
    destruct (chunked_push_spec (frame_module_limits (frame_contexts t)) (length (modules t)))
      as (_ & _ & ->); [apply Hc|].
    by apply lookup_app_l_Some.
Qed.

Lemma push_stack_record_wf n :
  node_ok t (length (stack_nodes t)) n ->
  tables_wf (push_stack_record n t) /\ extends t (push_stack_record n t).
Proof.
  intros Hok. destruct Hwf as [Hc Hd Ho Hn Hp].
  assert (stack_nodes t `prefix_of` stack_nodes t ++ [n]) as Hpre by (by eexists). split.
  - split; cbn; try done. intros i n' [Hi|[Hl Hi]]%lookup_app_Some.
    + eapply node_ok_mono; [..|by apply Hn]; done.
    + apply list_lookup_singleton_Some in Hi as [Hi <-].
      replace i with (length (stack_nodes t)) by lia. eapply node_ok_mono; [..|done]; done.
  - by split.
Qed.

Lemma set_contexts_wf ctx :
  contexts_wf (modules t) (length (frames t)) ctx ->
  (forall id c, for_frame_id (frame_contexts t) id = Some c ->
     for_frame_id ctx id = Some c /\
     forall j, module_active ctx j c = module_active (frame_contexts t) j c) ->
  tables_wf (set_contexts ctx t) /\ extends t (set_contexts ctx t).
Proof. intros Hc' Hact. destruct Hwf as [Hc Hd Ho Hn Hp]. by split; split. Qed.
End preservation.

Lemma deactivate_all_agree ms nframes ctx ids retired ctx' id c :
  contexts_wf ms nframes ctx -> Forall (λ i, (i < length ms)%nat) ids ->
  deactivate_all ids nframes ctx = Some (retired, ctx') ->
  for_frame_id ctx id = Some c ->
  for_frame_id ctx' id = Some c /\ forall j, module_active ctx' j c = module_active ctx j c.
Proof.
  intros Hwf Hids. revert ctx retired ctx' Hwf.
  induction Hids as [|i ids Hi Hids IH]; intros ctx retired ctx' Hwf Hall Hc; cbn in Hall.
  { by simplify_eq. }
  destruct (deactivate_module_wf _ _ _ i nframes Hwf Hi) as (w & ctx1 & Hd & Hwf1 & _).
  rewrite Hd in Hall. destruct (deactivate_all ids nframes ctx1) as [[r2 ctx2]|] eqn:Hrest; [|done].
  simplify_eq. destruct (deactivate_module_context _ _ _ Hwf _ _ _ Hd) as [Hl Hs].
  destruct (module_active_agree _ _ _ ctx1 _ _ id c Hwf Hwf1 Hc) as [Hc1 Ha1].
  { intros j l. by rewrite Hl. }
  { intros j _. destruct (Hs j) as [->|(_ & ? & ?)]; [by left|right]. eauto. }
  destruct (IH _ _ _ Hwf1 Hrest Hc1) as [Hc2 Ha2]. split; [done|]. intros j. by rewrite Ha2.
Qed.

(** What a decoder must have checked before a record is applied. *)
Definition decoded_ok (t : tables) (d : DecodedSpoolRecord) : Prop :=
  match d with
  | DModule m => owner_ok (m_owner m) /\ m_id m = Z.of_nat (length (modules t))
  | DFrame f => exists tag address, expand_frame (modules t) tag address = Ok f
  | DStack n => node_ok t (length (stack_nodes t)) n
  | DSample s => 0 <= s_stack_id s < Z.of_nat (length (stack_nodes t))
  | DDeactivateModule i => (i < length (modules t))%nat
  | DThread _ | DPythonRuntime _ | DDeactivateProcess _ => True
  end.

Lemma record_ok_decoded t r d : record_ok t r d -> decoded_ok t d.
Proof.
  destruct 1 as [m Hm| | | | | | |]; cbn; try done; [by split; [apply Hm|]|by eauto|..|lia].
  by eapply expand_stack_node_ok.
Qed.

(** Such a record can be applied, keeps the tables well-formed and only extends
    them. *)
Lemma apply_decoded_wf t d :
  tables_wf t -> decoded_ok t d ->
  exists t', apply_decoded t d = Some t' /\ tables_wf t' /\ extends t t'.
Proof.
  intros Hwf Hr. pose proof (twf_contexts _ Hwf) as Hc.
  destruct d as [m|f|n|th|s|p|pid|i]; cbn in Hr |- *.
  - eexists. split; [done|]. destruct Hr. by apply push_module_record_wf.
  - destruct Hr as (tag & address & Hr). eexists. split; [done|]. by eapply push_frame_record_wf.
  - eexists. split; [done|]. by apply push_stack_record_wf.
  - eexists. split; [done|]. destruct Hwf. by split; split; try done; eexists.
  - eexists. split; [done|]. destruct Hwf. by split; split.
  - eexists. split; [done|]. by split.
  - destruct (deactivate_owner_wf _ _ _ (Process pid) (length (frames t)) Hc)
      as (retired & ctx' & Hd & Hwf'). rewrite Hd. cbn. eexists. split; [done|].
    apply set_contexts_wf; [done..|]. intros id c Hid. unfold deactivate_owner in Hd.
    destruct (owned_modules (frame_contexts t) !! Process pid) as [ids|] eqn:Hown;
      [|by simplify_eq].
    eapply deactivate_all_agree; [apply Hc| |done|done].
    pose proof (cwf_owned_indices _ _ _ Hc (Process pid)) as Hi. rewrite Hown in Hi.
    cbn in Hi. rewrite Hi. apply owned_indices_lt.
  - destruct (deactivate_module_wf _ _ _ i (length (frames t)) Hc)
      as (w & ctx' & Hd & Hwf' & _); [done|]. rewrite Hd. cbn. eexists. split; [done|].
    apply set_contexts_wf; [done..|]. intros id c Hid.
    destruct (deactivate_module_context _ _ _ Hc _ _ _ Hd) as [Hl Hs].
    eapply module_active_agree; [apply Hc|apply Hwf'|done|intros j l; by rewrite Hl|].
    intros j _. destruct (Hs j) as [->|(_ & ? & ?)]; [by left|right]. eauto.
Qed.

Lemma apply_decoded_ok t r d :
  tables_wf t -> record_ok t r d ->
  exists t', apply_decoded t d = Some t' /\ tables_wf t' /\ extends t t'.
Proof. intros Hwf Hr. by eapply apply_decoded_wf, record_ok_decoded. Qed.

Lemma stream_extends t rs ds t' :
  stream t rs ds t' -> tables_wf t -> tables_wf t' /\ extends t t'.
Proof.
  induction 1 as [|t r rs d ds t1 t2 Hr Ha Hs IH]; intros Hwf; [done|].
  destruct (apply_decoded_ok _ _ _ Hwf Hr) as (t1' & Ha' & Hwf' & He). simplify_eq.
  destruct (IH Hwf') as [??]. split; [done|]. by etrans.
Qed.

(** ** Stacks *)

(** [denotes t id fs]: following the prefix links from node [id] to the root
    visits the frames [fs]. *)
Inductive denotes (t : tables) : Z -> list (Z * FrameRecord) -> Prop :=
  | denotes_root id n f :
      0 <= id -> stack_nodes t !! Z.to_nat id = Some n -> n_prefix n = None ->
      frames t !! Z.to_nat (n_frame_id n) = Some f ->
      denotes t id [(n_frame_id n, f)]
  | denotes_child id n p f fs :
      0 <= id -> stack_nodes t !! Z.to_nat id = Some n -> n_prefix n = Some (p + 1) ->
      frames t !! Z.to_nat (n_frame_id n) = Some f -> denotes t p fs ->
      denotes t id ((n_frame_id n, f) :: fs).

Lemma denotes_extends t t' id fs : extends t t' -> denotes t id fs -> denotes t' id fs.
Proof.
  intros He. induction 1.
  - eapply denotes_root; [done| |done|]; eapply prefix_lookup_Some; [done|apply He|done|apply He].
  - eapply denotes_child; [done| |done| |done]; eapply prefix_lookup_Some;
      [done|apply He|done|apply He].
Qed.

(** The iterator yields what the node denotes. *)
Lemma denotes_walk t id fs n :
  tables_wf t -> denotes t id fs -> stack_nodes t !! Z.to_nat id = Some n ->
  stack_frames_from t (n_depth n) id = Some fs /\ length fs = n_depth n.
Proof.
  intros Hwf H. revert n.
  induction H as [id n f Hid Hn Hp Hf|id n p f fs Hid Hn Hp Hf Hd IH]; intros n' Hn'; simplify_eq;
    pose proof (twf_nodes _ Hwf _ _ Hn) as [_ Hok]; rewrite Hp in Hok.
  - rewrite Hok. cbn. unfold stack_advance. cbn. rewrite Hn. cbn. rewrite Hf. done.
  - destruct Hok as (Hr & parent & Hpar & Hdep). rewrite Z.add_simpl_r in Hpar.
    destruct (IH parent Hpar) as [IH1 IH2]. rewrite Hdep. cbn [stack_frames_from].
    unfold stack_advance. cbn. rewrite Hn. cbn. rewrite Hf. cbn. rewrite Hp, Z.add_simpl_r.
    rewrite IH1. cbn. by rewrite IH2.
Qed.

(** Every node of well-formed tables denotes a stack. *)
Lemma tables_denote t i n :
  tables_wf t -> stack_nodes t !! i = Some n -> exists fs, denotes t (Z.of_nat i) fs.
Proof.
  intros Hwf. revert n. induction i as [i IH] using lt_wf_ind. intros n Hn.
  pose proof (twf_nodes _ Hwf _ _ Hn) as [Hf Hok].
  destruct (lookup_lt_is_Some_2 (frames t) (Z.to_nat (n_frame_id n))) as [f Hlook]; [lia|].
  destruct (n_prefix n) as [p|] eqn:Hp.
  - destruct Hok as (Hr & parent & Hpar & _).
    destruct (IH (Z.to_nat (p - 1)) ltac:(lia) parent Hpar) as [fs Hfs].
    eexists. eapply denotes_child with (p := p - 1);
      [lia|by rewrite Nat2Z.id|rewrite Hp; f_equal; lia|done|].
    by rewrite Z2Nat.id in Hfs by lia.
  - eexists. eapply denotes_root; [lia|by rewrite Nat2Z.id|done|done].
Qed.

(** ** A frame keeps its module *)

Lemma frame_has_context t id f :
  tables_wf t -> frames t !! Z.to_nat id = Some f ->
  exists c, for_frame_id (frame_contexts t) id = Some c.
Proof.
  intros Hwf Hf%lookup_lt_Some. pose proof (twf_contexts _ Hwf) as Hc.
  rewrite <- (cwf_limits_length _ _ _ Hc) in Hf. apply lookup_lt_is_Some_2 in Hf as [l Hl].
  exists (mkLookupContext (Z.to_nat id) l). by apply (for_frame_id_some _ _ _ Hc).
Qed.

Lemma find_map_none {A B} (f : A -> option B) l :
  (forall x, x ∈ l -> f x = None) -> find_map f l = None.
Proof. induction l as [|x l IH]; intros Hn; [done|]. cbn. rewrite Hn, IH by set_solver. done. Qed.

Lemma module_for_frame_extends t t' id process_id f :
  tables_wf t -> tables_wf t' -> extends t t' -> frames t !! Z.to_nat id = Some f ->
  module_for_frame_with_context (modules t') (frame_contexts t') id process_id f =
  module_for_frame_with_context (modules t) (frame_contexts t) id process_id f.
Proof.
  intros Hwf Hwf' He Hf. destruct (frame_has_context _ _ _ Hwf Hf) as [c Hc].
  destruct (ext_context _ _ He _ _ Hc) as [Hc' Hact].
  pose proof (for_frame_id_bound _ _ _ (twf_contexts _ Hwf) _ _ Hc) as [_ Hlim].
  rewrite (module_for_frame_is_scan _ _ _ (twf_contexts _ Hwf) (twf_ids _ Hwf) (twf_owners _ Hwf)
             _ _ _ _ Hc).
  rewrite (module_for_frame_is_scan _ _ _ (twf_contexts _ Hwf') (twf_ids _ Hwf') (twf_owners _ Hwf')
             _ _ _ _ Hc').
  unfold module_for_frame_unbounded. case_decide; [done|].
  destruct (ext_modules _ _ He) as [more Hmore].
  destruct (f_module_id f) as [mid|] eqn:Hmid.
  - pose proof (twf_pinned _ Hwf _ _ _ Hf Hmid) as Hb. unfold pinned_frame_module.
    rewrite Hmore, lookup_app_l by lia. done.
  - f_equal. rewrite Hmore, reverse_app, find_map_app, find_map_none.
    + apply find_map_ext. intros m _. by rewrite Hact.
    + intros m Hm. rewrite elem_of_reverse in Hm. apply list_elem_of_lookup_1 in Hm as [i Hi].
      assert (modules t' !! (length (modules t) + i)%nat = Some m) as Hi'.
      { rewrite Hmore, lookup_app_r by lia. by replace (_ + i - _)%nat with i by lia. }
      rewrite (twf_ids _ Hwf' _ _ Hi'), Nat2Z.id, Hact, (module_active_flat _ _ _ (twf_contexts _ Hwf)).
      by rewrite (proj2 (Nat.ltb_ge _ _)) by lia.
Qed.

(** ** Theorems *)

(** Any record that passes the decoder's checks can be applied without a
    panic; the tables stay well-formed and only grow: no earlier module, frame,
    stack or thread changes, and no earlier frame sees a different set of
    active modules, whatever is mapped or retired later. *)
Theorem records_extend_tables (t : tables) (d : DecodedSpoolRecord) :
  tables_wf t -> decoded_ok t d ->
  exists t', apply_decoded t d = Some t' /\ tables_wf t' /\ extends t t'.
Proof. apply apply_decoded_wf. Qed.

Lemma records_extend_tables_witness :
  exists t', apply_decoded tables_empty (DModule (mkModule 0 (Process 7) 100 200 0 0 0 0 0 [] None))
    = Some t' /\ tables_wf t' /\ extends tables_empty t'.
Proof.
  apply (records_extend_tables tables_empty).
  - apply tables_wf_empty.
  - cbn. unfold is_pid. word_lia.
Defined.

(** A frame resolves to the same module in the finished recording as in any
    earlier state of the tables that already contained it. *)
Theorem frame_mapping_is_stable (t t' : tables) (id process_id : Z) (f : FrameRecord) :
  tables_wf t -> tables_wf t' -> extends t t' -> frames t !! Z.to_nat id = Some f ->
  module_for_frame_with_context (modules t') (frame_contexts t') id process_id f =
  module_for_frame_with_context (modules t) (frame_contexts t) id process_id f.
Proof. apply module_for_frame_extends. Qed.

Lemma frame_mapping_is_stable_witness :
  let t := push_frame_record (mkFrame None 5 5 User) tables_empty in
  exists t', apply_decoded t (DModule (mkModule 0 (Process 7) 0 200 0 0 0 0 0 [] None)) = Some t' /\
    module_for_frame_with_context (modules t') (frame_contexts t') 0 7 (mkFrame None 5 5 User) = None.
Proof.
  cbn zeta. destruct (push_frame_record_wf tables_empty tables_wf_empty 1 5 (mkFrame None 5 5 User))
    as [Hwf _]; [reflexivity|].
  destruct (apply_decoded_wf _ (DModule (mkModule 0 (Process 7) 0 200 0 0 0 0 0 [] None)) Hwf)
    as (t' & Ha & Hwf' & He).
  { cbn. unfold is_pid. word_lia. }
  exists t'. split; [exact Ha|].
  rewrite (frame_mapping_is_stable _ t' 0 7 (mkFrame None 5 5 User) Hwf Hwf' He eq_refl).
  vm_compute. reflexivity.
Defined.
