(* ===== verification/Simulation.v ===== *)
(** * The writer against the reader

    [sim w t]: the writer state [w] and the tables [t] a reader has after the
    bytes written so far.  Every writer operation appends the encoding of a
    valid record stream and re-establishes [sim]; in particular the interning
    caches only hold ids that still mean what a fresh record would mean. *)

From stdpp Require Import prelude gmap list numbers sorting.
From S2P Require Import Prelude Varint Cursor Model Output Records Contexts Reader Writer.
From S2P Require Import Stream Snapshot Tables.
#[local] Open Scope Z_scope.

(** ** Currently active modules *)

Definition slot (t : tables) (j : nat) : option (option nat) :=
  concat (module_deactivated_at (frame_contexts t)) !! j.

(** The mapping a frame written now would get: the newest module that is not
    deactivated and owns it. *)
Definition current_mapping (t : tables) (process_id : Z) (f : FrameRecord) : option FrameModuleRef :=
  module_for_frame_unbounded (modules t) process_id f
    (λ m, bool_decide (slot t (Z.to_nat (m_id m)) = Some None)).

(** Frame [id] sees exactly the currently active modules of the given kind. *)
Definition fresh (t : tables) (kernel : bool) (id : Z) : Prop :=
  exists c, for_frame_id (frame_contexts t) id = Some c /\
    forall j m, modules t !! j = Some m -> module_is_kernel m = kernel ->
      module_active (frame_contexts t) j c = bool_decide (slot t j = Some None).

(** The frame's mapping in [t] is the current one. *)
Definition frame_current (t : tables) (id : Z) (f : FrameRecord) : Prop :=
  forall process_id,
    module_for_frame_with_context (modules t) (frame_contexts t) id process_id f =
    current_mapping t process_id f.

(** [f] can be stored and comes back unchanged. *)
Definition frame_writable (t : tables) (f : FrameRecord) : Prop :=
  exists key, compact_frame f = Ok key /\ is_u64 key.1 /\ is_u64 key.2 /\
    expand_frame (modules t) key.1 key.2 = Ok f.

Record same_maps (t t' : tables) : Prop := {
  sm_modules : modules t' = modules t;
  sm_slots j : slot t' j = slot t j;
}.

#[global] Instance same_maps_preorder : PreOrder same_maps.
Proof.
  split; [by split|]. intros t1 t2 t3 [Hm1 Hs1] [Hm2 Hs2]. split; [congruence|].
  intros j. by rewrite Hs2.
Qed.

Lemma frame_writable_same t t' f : same_maps t t' -> frame_writable t f -> frame_writable t' f.
Proof. intros [Hm _] (key & ?). exists key. by rewrite Hm. Qed.

Lemma current_mapping_same t t' process_id f :
  same_maps t t' -> current_mapping t' process_id f = current_mapping t process_id f.
Proof.
  intros [Hm Hs]. unfold current_mapping, module_for_frame_unbounded. rewrite Hm.
  case_decide; [done|]. destruct (f_module_id f); [done|]. f_equal.
  apply find_map_ext. intros m _. by rewrite Hs.
Qed.

(** A fresh id gives the current mapping. *)
Lemma fresh_current t id f kernel :
  tables_wf t -> fresh t kernel id ->
  (f_mode f = Kernel -> kernel = true) -> (f_mode f = User -> kernel = false) ->
  frame_current t id f.
Proof.
  intros Hwf (c & Hc & Hact) Hk Hu process_id.
  rewrite (module_for_frame_is_scan _ _ _ (twf_contexts _ Hwf) (twf_ids _ Hwf) (twf_owners _ Hwf)
             _ _ _ _ Hc).
  unfold current_mapping, module_for_frame_unbounded. case_decide as Hmode; [done|].
  destruct (f_module_id f); [done|]. f_equal. apply find_map_ext. intros m Hm.
  rewrite elem_of_reverse in Hm. apply list_elem_of_lookup_1 in Hm as [j Hj].
  destruct (module_owns_frame m process_id f) eqn:Hown; [|by rewrite !andb_false_r].
  rewrite (twf_ids _ Hwf _ _ Hj), Nat2Z.id, (Hact j m Hj); [done|].
  unfold module_owns_frame, module_pid, module_is_kernel in *.
  destruct (f_mode f); [..|done]; destruct (m_owner m); cbn in *; try done; symmetry; auto.
Qed.

Lemma pinned_current t id f :
  f_mode f = TruncatedStackMarker \/ is_Some (f_module_id f) -> frame_current t id f.
Proof.
  intros H process_id.
  unfold current_mapping, module_for_frame_with_context, module_for_frame_unbounded.
  case_decide; [done|]. destruct H as [|[mid ->]]; done.
Qed.

Lemma frame_current_stable t t' id f :
  tables_wf t -> tables_wf t' -> extends t t' -> same_maps t t' ->
  frames t !! Z.to_nat id = Some f -> frame_current t id f -> frame_current t' id f.
Proof.
  intros Hwf Hwf' He Hs Hf Hcur process_id.
  rewrite (module_for_frame_extends _ _ _ _ _ Hwf Hwf' He Hf), Hcur.
  symmetry. by apply current_mapping_same.
Qed.

(** ** The simulation *)

Section sim.
Context {W : Type} `{ReliableSink W} `{VarIntLaws} (interrupt_budget : nat).
Implicit Types (w : PerfSpoolWriter W) (t : tables).

Record sim w t : Prop := {
  sim_ok : o_failure (w_writer w) = None;
  sim_wf : tables_wf t;
  sim_ts : w_last_timestamp_ns w = last_timestamp_ns t;
  sim_ts_range : is_u64 (last_timestamp_ns t);
  sim_slots j d : slot t j = Some (Some d) -> (d <= length (frames t))%nat;
  sim_next : w_next_frame_id w = Z.of_nat (length (frames t));
  sim_next_range : w_next_frame_id w <= u32_max;
  sim_frames c key id : get_cache c w !! key = Some id ->
    0 <= id /\ exists f, frames t !! Z.to_nat id = Some f /\
                 expand_frame (modules t) key.1 key.2 = Ok f;
  sim_fresh_user key id : w_unpinned_frame_cache w !! key = Some id -> fresh t false id;
  sim_fresh_kernel key id : w_kernel_frame_cache w !! key = Some id -> fresh t true id;
  sim_kernel_ids j m : modules t !! j = Some m -> module_is_kernel m = true ->
    slot t j = Some None -> m_id m ∈ w_kernel_module_ids w;
  sim_stack_size : size (w_stack_cache w) = length (stack_nodes t);
  sim_stacks p f id : w_stack_cache w !! (p, f) = Some id ->
    0 <= id < u32_max /\ exists n, stack_nodes t !! Z.to_nat id = Some n /\ n_frame_id n = f /\
      n_prefix n = (if p =? NONE_U32 then None else Some (p + 1));
  sim_thread_size : size (w_thread_cache w) = length (threads t);
  sim_threads p th id : w_thread_cache w !! (p, th) = Some id ->
    0 <= id < u32_max /\ threads t !! Z.to_nat id = Some (mkThread p th);
}.

(** *** Output of bytes *)

Record out_ext (o : SpoolOutput W) (bs : list Z) (o' : SpoolOutput W) : Prop := {
  oe_ok : o_failure o' = None;
  oe_content : content (o_inner o') = content (o_inner o) ++ bs;
  oe_bytes : o_bytes o' = o_bytes o + Z.of_nat (length bs);
}.

Lemma out_ext_trans o1 bs1 o2 bs2 o3 :
  out_ext o1 bs1 o2 -> out_ext o2 bs2 o3 -> out_ext o1 (bs1 ++ bs2) o3.
Proof.
  intros [_ Hc1 Hb1] [Hf Hc2 Hb2]. split; [done| |].
  - by rewrite Hc2, Hc1, app_assoc.
  - rewrite Hb2, Hb1, length_app. lia.
Qed.

(** A command that only writes [bs]. *)
Definition outputs (m : io (PerfSpoolWriter W) unit) (bs : list Z) : Prop :=
  forall w, o_failure (w_writer w) = None ->
    exists o, m w = (Ok tt, set_writer o w) /\ out_ext (w_writer w) bs o.

Lemma outputs_ret : outputs (mret tt) [].
Proof.
  intros w Hw. exists (w_writer w). split; [by destruct w|].
  split; [done|by rewrite app_nil_r|cbn; lia].
Qed.

Lemma outputs_seq m1 bs1 m2 bs2 :
  outputs m1 bs1 -> outputs m2 bs2 -> outputs (m1;; m2) (bs1 ++ bs2).
Proof.
  intros Hm1 Hm2 w Hw. destruct (Hm1 w Hw) as (o1 & Hr1 & He1).
  destruct (Hm2 (set_writer o1 w)) as (o2 & Hr2 & He2); [apply He1|].
  exists o2. split; [|by eapply out_ext_trans].
  by rewrite (io_bind_ok _ _ _ _ _ Hr1), Hr2.
Qed.

Lemma outputs_all bs : outputs (out_all interrupt_budget bs) bs.
Proof.
  intros w Hw. unfold out_all, out, io_zoom.
  destruct (write_all_ok interrupt_budget bs (w_writer w) Hw) as (o & Hr & Hc). rewrite Hr.
  eexists. split; [done|]. by split.
Qed.

Lemma outputs_varint vt n : outputs (out_varint interrupt_budget vt n) (encode_var vt n).
Proof. apply outputs_all. Qed.

Lemma outputs_bytes bs : outputs (out_bytes interrupt_budget bs) (encode_bytes bs).
Proof.
  intros w Hw.
  destruct (outputs_seq _ _ _ _ (outputs_varint U64 (Z.of_nat (length bs))) (outputs_all bs) w Hw)
    as (o & Hr & He).
  exists o. split; [|done]. rewrite <- Hr.
  unfold out_bytes, output_write_bytes, out_varint, out_all, out, io_zoom, mbind, io_mbind.
  destruct (output_write_varint _ _ _ _) as [[[]|] ?]; [|done].
  cbn. by destruct (write_all _ _ _) as [[[]|] ?].
Qed.

Lemma outputs_record tag fields :
  outputs (out_record interrupt_budget tag fields)
    (tag :: concat ((λ '(vt, n), encode_var vt n) <$> fields)).
Proof. apply outputs_all. Qed.

(** Run an output command at the head of a sequence. *)
Lemma outputs_then {A} m bs (k : io (PerfSpoolWriter W) A) w :
  outputs m bs -> o_failure (w_writer w) = None ->
  exists o, (m;; k) w = k (set_writer o w) /\ out_ext (w_writer w) bs o.
Proof.
  intros Hm Hw. destruct (Hm w Hw) as (o & Hr & He). exists o. split; [|done].
  by rewrite (io_bind_ok _ _ _ _ _ Hr).
Qed.

(** *** Steps that keep the modules *)

(** The records appended between two states, when they only intern. *)
Record interns w t w' t' : Prop := {
  int_sim : sim w' t';
  int_maps : same_maps t t';
  int_ts : last_timestamp_ns t' = last_timestamp_ns t;
  int_stream : exists rs ds, stream t rs ds t' /\ samples_of ds = [] /\ observed_of ds = [] /\
    content (o_inner (w_writer w')) = content (o_inner (w_writer w)) ++ encode_records rs;
}.

Lemma interns_refl w t : sim w t -> interns w t w t.
Proof.
  intros Hs. split; [done|done|done|]. exists [], []. unfold encode_records. cbn.
  rewrite app_nil_r. repeat split; constructor.
Qed.

Lemma interns_trans w1 t1 w2 t2 w3 t3 :
  interns w1 t1 w2 t2 -> interns w2 t2 w3 t3 -> interns w1 t1 w3 t3.
Proof.
  intros [_ Hm1 Ht1 (rs1 & ds1 & Hs1 & Hn1 & Ho1 & Hc1)]
         [Hs Hm2 Ht2 (rs2 & ds2 & Hs2 & Hn2 & Ho2 & Hc2)].
  split; [done|by etrans|congruence|]. exists (rs1 ++ rs2), (ds1 ++ ds2).
  split; [by eapply stream_app|]. unfold samples_of, observed_of in *.
  rewrite !omap_app, Hn1, Hn2, Ho1, Ho2, Hc2, Hc1. unfold encode_records.
  by rewrite fmap_app, concat_app, app_assoc.
Qed.

Lemma interns_extends w t w' t' : tables_wf t -> interns w t w' t' -> extends t t'.
Proof. intros Hwf [_ _ _ (rs & ds & Hs & _)]. by eapply stream_extends. Qed.

Lemma fresh_extends t t' kernel id :
  extends t t' -> same_maps t t' -> fresh t kernel id -> fresh t' kernel id.
Proof.
  intros He [Hm Hs] (c & Hc & Hact). destruct (ext_context _ _ He _ _ Hc) as [Hc' Hact'].
  exists c. split; [done|]. intros j m Hj Hk. rewrite Hact', Hs. rewrite Hm in Hj. by eapply Hact.
Qed.

(** A frame written now sees every active module. *)
Lemma fresh_new t f kernel :
  tables_wf t -> (forall j d, slot t j = Some (Some d) -> (d <= length (frames t))%nat) ->
  fresh (push_frame_record f t) kernel (Z.of_nat (length (frames t))).
Proof.
  intros Hwf Hslots. pose proof (twf_contexts _ Hwf) as Hc.
  pose proof (push_frame_wf _ _ _ Hc) as Hc'.
  exists (mkLookupContext (length (frames t)) (length (modules t))). split.
  - apply (for_frame_id_some _ _ _ Hc'). rewrite Nat2Z.id. split; [done|]. cbn.
    destruct (chunked_push_spec (frame_module_limits (frame_contexts t)) (length (modules t)))
      as (_ & _ & ->); [apply Hc|].
    apply list_lookup_middle. symmetry. apply (cwf_limits_length _ _ _ Hc).
  - intros j m Hj _. rewrite (module_active_flat _ _ _ Hc').
    cbn [push_frame_record modules module_limit frame_index frame_contexts] in *.
    pose proof (lookup_lt_Some _ _ _ Hj) as Hlt. rewrite (proj2 (Nat.ltb_lt _ _)) by done. cbn [andb].
    unfold slot. cbn [push_frame_record frame_contexts push_frame module_deactivated_at].
    rewrite <- (cwf_deactivated_length _ _ _ Hc) in Hlt. apply lookup_lt_is_Some_2 in Hlt as [d Hd].
    rewrite Hd. destruct d as [d|]; [|by rewrite bool_decide_true].
    rewrite bool_decide_false by done. cbn. specialize (Hslots j d Hd). apply Nat.ltb_ge. lia.
Qed.
End sim.
