(* ===== verification/Interning.v ===== *)
(** * Interning

    [intern_frame], [intern_stack] and [intern_thread] against the simulation:
    each returns an id that denotes its argument in the reader's tables, or
    fails because an id space is exhausted; in both cases what it wrote is a
    valid record stream. *)

From stdpp Require Import prelude gmap list numbers sorting.
From S2P Require Import Prelude Varint Cursor Model Output Records Contexts Reader Writer.
From S2P Require Import Stream Snapshot Tables Simulation.
#[local] Open Scope Z_scope.

(** Run the [out_record] at the head of the goal's computation. *)
Ltac write_record o He :=
  match goal with
  | |- context [mbind (λ _ : unit, ?k) (out_record ?b ?tag ?fields) ?w] =>
      destruct (outputs_then _ _ k w (outputs_record b tag fields)) as (o & -> & He)
  end.

Section interning.
Context {W : Type} `{ReliableSink W} `{VarIntLaws} (interrupt_budget : nat).
Implicit Types (w : PerfSpoolWriter W) (t : tables).

(** One of the three id spaces is used up. *)
Definition exhausted w : Prop :=
  u32_max <= w_next_frame_id w \/ u32_max <= Z.of_nat (size (w_stack_cache w)) \/
  u32_max <= Z.of_nat (size (w_thread_cache w)).

(** What an interning call guarantees. *)
Definition interned {A} (m : io (PerfSpoolWriter W) A) w t (Q : A -> tables -> Prop) : Prop :=
  let '(r, w') := m w in
  exists t', interns w t w' t' /\
    match r with
    | Ok a => Q a t'
    | Err e => e = InvalidInput /\ exhausted w'
    end.

Lemma interned_ret {A} (a : A) w t (Q : A -> tables -> Prop) :
  sim w t -> Q a t -> interned (mret a) w t Q.
Proof. intros Hs HQ. exists t. split; [by apply interns_refl|done]. Qed.

Lemma interned_bind {A B} m (k : A -> io (PerfSpoolWriter W) B) w t P Q :
  interned m w t P ->
  (forall a w' t', interns w t w' t' -> P a t' -> interned (k a) w' t' Q) ->
  interned (m ≫= k) w t Q.
Proof.
  unfold interned, mbind, io_mbind. destruct (m w) as [[a|e] w1].
  - intros (t1 & Hi & HP) Hk. specialize (Hk a w1 t1 Hi HP). destruct (k a w1) as [r w2].
    destruct Hk as (t2 & Hi2 & HQ). exists t2. split; [by eapply interns_trans|done].
  - intros (t1 & Hi & He) _. by exists t1.
Qed.

Lemma next_spool_id_cases n :
  next_spool_id n = Ok (Z.of_nat n) /\ Z.of_nat n < u32_max \/
  next_spool_id n = Err InvalidInput /\ u32_max <= Z.of_nat n.
Proof.
  unfold next_spool_id, u32_try_from, NONE_U32.
  destruct (Z.leb_spec (Z.of_nat n) u32_max).
  - rewrite (proj2 (Z.leb_le _ _)) by lia. cbn.
    destruct (Z.eqb_spec (Z.of_nat n) u32_max); [right|left]; split; try done; lia.
  - rewrite andb_false_r. right. split; [done|lia].
Qed.

(** *** Writing one record and updating the caches *)

(** The effect of appending record [r] on the output of [w]. *)
Lemma interns_record w t r d t' o w' :
  record_ok t r d -> apply_decoded t d = Some t' -> samples_of [d] = [] -> observed_of [d] = [] ->
  same_maps t t' -> last_timestamp_ns t' = last_timestamp_ns t ->
  out_ext (w_writer w) (encode_record r) o -> w_writer w' = o -> sim w' t' ->
  interns w t w' t'.
Proof.
  intros Hr Ha Hn Ho Hm Ht [_ Hc _] Hw Hs. split; [done|done|done|].
  exists [r], [d]. split; [by repeat econstructor|]. split; [done|]. split; [done|].
  unfold encode_records. cbn [fmap list_fmap concat]. by rewrite app_nil_r, Hw.
Qed.

(** *** Threads *)

Lemma intern_thread_sim w t process_id thread_id :
  sim w t -> is_pid process_id -> is_pid thread_id ->
  interned (intern_thread interrupt_budget process_id thread_id) w t
    (λ id t', 0 <= id < u32_max /\ threads t' !! Z.to_nat id = Some (mkThread process_id thread_id)).
Proof.
  intros Hs Hp Ht. unfold intern_thread, interned, io_get, io_lift.
  unfold mbind at 1, io_mbind at 1.
  destruct (w_thread_cache w !! (process_id, thread_id)) as [id|] eqn:Hc.
  { exists t. split; [by apply interns_refl|]. by apply (sim_threads _ _ Hs). }
  unfold mbind at 1, io_mbind at 1.
  destruct (next_spool_id_cases (size (w_thread_cache w))) as [[-> Hlt]|[-> Hge]].
  2: { exists t. split; [by apply interns_refl|]. split; [done|]. unfold exhausted. auto. }
  set (id := Z.of_nat (size (w_thread_cache w))) in *.
  write_record o He; [apply Hs|]. cbn.
  exists (push_thread_record (mkThread process_id thread_id) t).
  assert (id = Z.of_nat (length (threads t))) as Hid by (unfold id; by rewrite (sim_thread_size _ _ Hs)).
  split; [|split; [lia|]; cbn; rewrite Hid, Nat2Z.id; by apply list_lookup_middle].
  assert (record_ok t (WThread id process_id thread_id) (DThread (mkThread process_id thread_id)))
    as Hr by (by constructor).
  eapply interns_record; [exact Hr|done|done|done|done|done| |done|].
  { cbn in He. rewrite app_nil_r in He. exact He. }
  destruct (apply_decoded_ok _ _ _ (sim_wf _ _ Hs) Hr) as (t' & Ha & Hwf' & Hext).
  cbn in Ha. injection Ha as <-. split; try (by apply He); try (by destruct Hs).
  - cbn. rewrite map_size_insert_None, length_app, (sim_thread_size _ _ Hs) by done. cbn. lia.
  - intros p th i. cbn [w_thread_cache insert_thread set_writer]. rewrite lookup_insert_Some.
    intros [[[= <- <-] <-]|[_ Hi]].
    + split; [lia|]. cbn. rewrite Hid, Nat2Z.id. by apply list_lookup_middle.
    + destruct (sim_threads _ _ Hs _ _ _ Hi). split; [done|]. cbn. by apply lookup_app_l_Some.
Qed.
(** *** Frames *)

(** The frame of a cache entry is current. *)
Lemma cached_frame_current w t f key id :
  sim w t -> compact_frame f = Ok key -> get_cache (cache_for f) w !! key = Some id ->
  frame_current t id f.
Proof.
  intros Hs Hk Hc. unfold cache_for in Hc.
  destruct (bool_decide (is_Some (f_module_id f)) || is_truncated_stack_marker f) eqn:Hpin.
  - apply pinned_current. apply orb_true_iff in Hpin as [Hpin%bool_decide_eq_true|Hpin]; [by right|].
    unfold is_truncated_stack_marker in Hpin. apply bool_decide_eq_true in Hpin as ->. by left.
  - case_decide as Hm; cbn in Hc.
    + eapply (fresh_current _ _ _ true); [apply Hs|by eapply sim_fresh_kernel|done|congruence].
    + eapply (fresh_current _ _ _ false); [apply Hs|by eapply sim_fresh_user|done|done].
Qed.

Lemma frame_sim_push w t f key o :
  sim w t -> w_next_frame_id w < u32_max -> expand_frame (modules t) key.1 key.2 = Ok f ->
  o_failure o = None ->
  tables_wf (push_frame_record f t) -> extends t (push_frame_record f t) ->
  sim (set_next_frame_id (w_next_frame_id w + 1)
         (insert_frame (cache_for f) key (w_next_frame_id w) (set_writer o w)))
      (push_frame_record f t).
Proof.
  intros Hs Hlt Hexp Ho Hwf' Hext. pose proof (sim_next _ _ Hs) as Hn.
  pose proof (fresh_new t f true (sim_wf _ _ Hs) (sim_slots _ _ Hs)) as Hnk.
  pose proof (fresh_new t f false (sim_wf _ _ Hs) (sim_slots _ _ Hs)) as Hnu.
  rewrite <- Hn in Hnk, Hnu. split; try (by destruct Hs).
  - intros j d Hj. cbn. rewrite length_app. pose proof (sim_slots _ _ Hs j d Hj). lia.
  - cbn. rewrite length_app. cbn. lia.
  - cbn. lia.
  - intros c key' id Hc.
    assert (get_cache c w !! key' = Some id \/ (key' = key /\ id = w_next_frame_id w))
      as [Hold|[-> ->]].
    { destruct c; cbn in Hc; destruct (cache_for f); try (by left);
        apply lookup_insert_Some in Hc as [[<- <-]|[_ Hc]]; auto. }
    + destruct (sim_frames _ _ Hs _ _ _ Hold) as (Hid & f' & Hf & He). split; [done|]. exists f'.
      split; [|done]. by apply lookup_app_l_Some.
    + split; [lia|]. exists f. split; [|done]. cbn. rewrite Hn, Nat2Z.id. by apply list_lookup_middle.
  - intros key' id Hc. cbn in Hc.
    destruct (cache_for f); try (eapply fresh_extends; [done|done|]; by eapply (sim_fresh_user _ _ Hs)).
    apply lookup_insert_Some in Hc as [[<- <-]|[_ Hc]]; [done|].
    eapply fresh_extends; [done|done|]. by eapply (sim_fresh_user _ _ Hs).
  - intros key' id Hc. cbn in Hc.
    destruct (cache_for f); try (eapply fresh_extends; [done|done|]; by eapply (sim_fresh_kernel _ _ Hs)).
    apply lookup_insert_Some in Hc as [[<- <-]|[_ Hc]]; [done|].
    eapply fresh_extends; [done|done|]. by eapply (sim_fresh_kernel _ _ Hs).
Qed.

Lemma intern_frame_sim w t f :
  sim w t -> frame_writable t f ->
  interned (intern_frame interrupt_budget f) w t
    (λ id t', 0 <= id <= u32_max /\ frames t' !! Z.to_nat id = Some f /\ frame_current t' id f).
Proof.
  intros Hs (key & Hk & Ht & Ha & Hexp). unfold intern_frame, interned, io_get, io_lift.
  do 2 (unfold mbind at 1, io_mbind at 1). rewrite Hk.
  destruct (get_cache (cache_for f) w !! key) as [id|] eqn:Hc.
  { exists t. split; [by apply interns_refl|].
    destruct (sim_frames _ _ Hs _ _ _ Hc) as (Hid & f' & Hf & Hexp'). rewrite Hexp in Hexp'.
    injection Hexp' as <-. split; [|split; [done|by eapply cached_frame_current]].
    pose proof (lookup_lt_Some _ _ _ Hf). pose proof (sim_next _ _ Hs).
    pose proof (sim_next_range _ _ Hs). lia. }
  cbv zeta. pose proof (sim_next_range _ _ Hs) as Hr. pose proof (sim_next _ _ Hs) as Hn.
  destruct (Z.eqb_spec (w_next_frame_id w) NONE_U32) as [Hfull|Hroom].
  { exists t. split; [by apply interns_refl|]. split; [done|]. left. unfold NONE_U32 in *. lia. }
  unfold NONE_U32 in Hroom. set (id := w_next_frame_id w) in *.
  write_record o He; [apply Hs|].
  cbn. unfold u32_try_from. rewrite (proj2 (andb_true_iff _ _)) by lia. cbn.
  exists (push_frame_record f t).
  assert (record_ok t (WFrame id key.1 key.2) (DFrame f)) as Hrec by (constructor; try done; lia).
  destruct (apply_decoded_ok _ _ _ (sim_wf _ _ Hs) Hrec) as (t' & Hap & Hwf' & Hext).
  cbn in Hap. injection Hap as <-.
  assert (sim (set_next_frame_id (id + 1) (insert_frame (cache_for f) key id (set_writer o w)))
            (push_frame_record f t)) as Hsim.
  { apply frame_sim_push; try done; [lia|apply He]. }
  split.
  - eapply interns_record; [exact Hrec|done|done|done|done|done| |done|done].
    cbn in He. rewrite app_nil_r in He. exact He.
  - assert (frames (push_frame_record f t) !! Z.to_nat id = Some f).
    { cbn. rewrite Hn, Nat2Z.id. by apply list_lookup_middle. }
    split; [lia|]. split; [done|]. eapply cached_frame_current; [exact Hsim|done|].
    unfold get_cache. destruct (cache_for f); cbn; apply lookup_insert_eq.
Qed.
(** *** Stacks *)

(** Stack id [p], [NONE_U32] for no stack yet, stands for the frames [fs]
    (leaf first), each with its current mapping. *)
Definition stack_means t (p : Z) (fs : list FrameRecord) : Prop :=
  exists gs, snd <$> gs = fs /\ Forall (λ g, frames t !! Z.to_nat g.1 = Some g.2 /\
                                           frame_current t g.1 g.2) gs /\
    (p = NONE_U32 /\ gs = [] \/ 0 <= p < u32_max /\ denotes t p gs).

Lemma stack_means_extends t t' p fs :
  tables_wf t -> tables_wf t' -> extends t t' -> same_maps t t' ->
  stack_means t p fs -> stack_means t' p fs.
Proof.
  intros Hwf Hwf' He Hm (gs & Hfs & Hall & Hp). exists gs. split; [done|]. split.
  - eapply Forall_impl; [exact Hall|]. intros g [Hf Hc]. split.
    + eapply prefix_lookup_Some; [done|apply He].
    + eapply frame_current_stable; [exact Hwf|done|done|done|done|done].
  - destruct Hp as [Hp|[Hp Hd]]; [by left|right]. split; [done|]. by eapply denotes_extends.
Qed.

Lemma stack_means_interns w t w' t' p fs :
  sim w t -> interns w t w' t' -> stack_means t p fs -> stack_means t' p fs.
Proof.
  intros Hs Hi. apply stack_means_extends; [apply Hs|apply Hi| |apply Hi].
  eapply interns_extends; [apply Hs|done].
Qed.

(** One more frame on top of a stack. *)
Lemma stack_means_push t p fs frame_id f id n :
  stack_means t p fs -> frames t !! Z.to_nat frame_id = Some f -> frame_current t frame_id f ->
  0 <= id < u32_max -> stack_nodes t !! Z.to_nat id = Some n -> n_frame_id n = frame_id ->
  n_prefix n = (if p =? NONE_U32 then None else Some (p + 1)) ->
  stack_means t id (f :: fs).
Proof.
  intros (gs & Hfs & Hall & Hp) Hf Hc Hid Hn <- Hpre. exists ((n_frame_id n, f) :: gs).
  split; [cbn; by rewrite Hfs|]. split; [by constructor|]. right. split; [done|].
  destruct Hp as [[-> ->]|[Hp Hd]].
  - eapply denotes_root; [lia|done|done|done].
  - eapply denotes_child with (p := p); [lia|done| |done|done]. rewrite Hpre.
    destruct (Z.eqb_spec p NONE_U32); [unfold NONE_U32 in *; lia|done].
Qed.

(** The node a new [(prefix, frame)] pair expands to. *)
Lemma stack_means_expand t p fs frame_id :
  stack_means t p fs -> 0 <= p <= u32_max /\
  exists n, expand_stack_node t p frame_id = Some n /\ n_frame_id n = frame_id /\
    n_prefix n = (if p =? NONE_U32 then None else Some (p + 1)).
Proof.
  intros (gs & _ & _ & [[-> _]|[Hp Hd]]).
  - split; [done|]. by eexists.
  - split; [lia|]. unfold expand_stack_node.
    destruct (Z.eqb_spec p NONE_U32); [unfold NONE_U32 in *; lia|].
    assert (exists parent, stack_nodes t !! Z.to_nat p = Some parent) as [parent ->]
      by (destruct Hd; eauto). by eexists.
Qed.

Lemma stack_sim_push w t p frame_id n o :
  sim w t -> w_stack_cache w !! (p, frame_id) = None ->
  Z.of_nat (size (w_stack_cache w)) < u32_max -> o_failure o = None ->
  n_frame_id n = frame_id -> n_prefix n = (if p =? NONE_U32 then None else Some (p + 1)) ->
  tables_wf (push_stack_record n t) ->
  sim (insert_stack (p, frame_id) (Z.of_nat (size (w_stack_cache w))) (set_writer o w))
      (push_stack_record n t).
Proof.
  intros Hs Hc Hlt Ho Hf Hp Hwf'. pose proof (sim_stack_size _ _ Hs) as Hsz.
  split; try (by destruct Hs).
  - cbn. rewrite map_size_insert_None, length_app, Hsz by done. cbn. lia.
  - intros p' f' id. cbn [w_stack_cache insert_stack set_writer]. rewrite lookup_insert_Some.
    intros [[[= <- <-] <-]|[_ Hi]].
    + split; [lia|]. exists n. split; [|done]. cbn. rewrite Hsz, Nat2Z.id. by apply list_lookup_middle.
    + destruct (sim_stacks _ _ Hs _ _ _ Hi) as (Hr & n' & Hn' & ?). split; [done|].
      exists n'. split; [|done]. cbn. by apply lookup_app_l_Some.
Qed.

Lemma intern_stack_loop_sim todo : forall w t p fs,
  sim w t -> Forall (frame_writable t) todo -> stack_means t p fs ->
  interned (intern_stack_loop interrupt_budget todo p) w t
    (λ id t', stack_means t' id (reverse todo ++ fs)).
Proof.
  induction todo as [|f todo IH]; intros w t p fs Hs Hw Hp; cbn [intern_stack_loop].
  { by apply interned_ret. }
  apply Forall_cons in Hw as [Hf Hw]. rewrite reverse_cons, <- app_assoc. cbn [app].
  eapply interned_bind; [by apply intern_frame_sim|].
  intros frame_id w1 t1 Hi1 (Hid & Hlook & Hcur). cbn beta.
  pose proof (int_sim _ _ _ _ Hi1) as Hs1.
  apply (stack_means_interns _ _ _ _ _ _ Hs Hi1) in Hp.
  assert (Forall (frame_writable t1) todo) as Hw1.
  { eapply Forall_impl; [exact Hw|]. intros f' Hf'. eapply frame_writable_same; [apply Hi1|done]. }
  clear w t Hs Hf Hw Hi1.
  unfold interned, io_get, io_lift. unfold mbind at 1, io_mbind at 1.
  destruct (w_stack_cache w1 !! (p, frame_id)) as [id|] eqn:Hc.
  { destruct (sim_stacks _ _ Hs1 _ _ _ Hc) as (Hr & n & Hn & Hnf & Hnp).
    apply IH; [done|done|]. by eapply stack_means_push. }
  unfold mbind at 1, io_mbind at 1.
  destruct (next_spool_id_cases (size (w_stack_cache w1))) as [[-> Hlt]|[-> Hge]].
  2: { exists t1. split; [by apply interns_refl|]. split; [done|]. unfold exhausted. auto. }
  destruct (stack_means_expand _ _ _ frame_id Hp) as (Hpr & n & Hexp & Hnf & Hnp).
  write_record o He; [apply Hs1|]. unfold mbind at 1, io_mbind at 1, io_modify.
  set (id := Z.of_nat (size (w_stack_cache w1))) in *.
  pose proof (lookup_lt_Some _ _ _ Hlook) as Hlen. pose proof (sim_stack_size _ _ Hs1) as Hsz.
  assert (record_ok t1 (WStack id p frame_id) (DStack n)) as Hr by (constructor; try done; lia).
  destruct (apply_decoded_ok _ _ _ (sim_wf _ _ Hs1) Hr) as (t' & Ha & Hwf' & Hext).
  cbn in Ha. injection Ha as <-.
  assert (interns w1 t1 (insert_stack (p, frame_id) id (set_writer o w1)) (push_stack_record n t1)) as Hi.
  { eapply interns_record; [exact Hr|done|done|done|done|done| |done|].
    - cbn in He. rewrite app_nil_r in He. exact He.
    - apply stack_sim_push; try done. apply He. }
  assert (stack_means (push_stack_record n t1) id (f :: fs)) as Hp'.
  { eapply stack_means_push; [by eapply stack_means_interns|exact Hlook|..]; try done; [lia|].
    cbn. unfold id. rewrite Hsz, Nat2Z.id. by apply list_lookup_middle. }
  specialize (IH _ (push_stack_record n t1) id (f :: fs) (int_sim _ _ _ _ Hi)
                (Forall_impl _ _ _ Hw1 (λ f', frame_writable_same _ _ f' (int_maps _ _ _ _ Hi))) Hp').
  unfold interned in IH. destruct (intern_stack_loop _ _ _ _) as [r w2].
  destruct IH as (t2 & Hi2 & HQ). exists t2. split; [by eapply interns_trans|done].
Qed.

Lemma intern_stack_sim w t fs :
  sim w t -> Forall (frame_writable t) fs -> fs <> [] ->
  interned (intern_stack interrupt_budget fs) w t
    (λ r t', exists id, r = Some id /\ 0 <= id < u32_max /\ stack_means t' id fs).
Proof.
  intros Hs Hw Hne. unfold intern_stack. eapply interned_bind.
  { apply intern_stack_loop_sim; [done| |].
    - by apply Forall_reverse.
    - exists []. auto. }
  intros id w' t' Hi Hm. rewrite reverse_involutive, app_nil_r in Hm. cbn beta.
  apply interned_ret; [apply Hi|].
  assert (0 <= id < u32_max) as Hid.
  { destruct Hm as (gs & Hgs & _ & [[_ ->]|[? _]]); [|done]. by destruct fs. }
  exists id. split; [|done]. destruct (Z.eqb_spec id NONE_U32); [unfold NONE_U32 in *; lia|done].
Qed.
End interning.
