(* ===== verification/Recording.v ===== *)
(** * Recording operations

    The public operations of [PerfSpoolWriter] against the simulation: samples,
    modules, retirements and runtime markers. *)

From stdpp Require Import prelude gmap list numbers sorting.
From S2P Require Import Prelude Varint Cursor Model Output Records Contexts Reader Writer.
From S2P Require Import Stream Snapshot Tables Simulation Interning.
#[local] Open Scope Z_scope.

(** ** Facts on the tables *)

Lemma bounded_id_index_mono id limit limit' i :
  (limit <= limit')%nat -> bounded_id_index id limit = Ok i -> bounded_id_index id limit' = Ok i.
Proof.
  unfold bounded_id_index, check_bounded_index. intros Hl. destruct (u32_try_from id); [|done].
  rewrite !Z.geb_leb. repeat case_match; try done. rewrite Z.leb_le, Z.leb_gt in *. lia.
Qed.

Lemma expand_frame_mono ms more tag ip f :
  expand_frame ms tag ip = Ok f -> expand_frame (ms ++ more) tag ip = Ok f.
Proof.
  unfold expand_frame. destruct (tag =? _); [done|]. destruct (Z.land tag 1 =? 0); [|done].
  destruct (bounded_id_index _ (length ms)) as [i|] eqn:Hb; [|done].
  eapply (bounded_id_index_mono _ _ (length (ms ++ more))) in Hb as ->; [|rewrite length_app; lia].
  destruct (ms !! Z.to_nat i) as [m|] eqn:Hm; [|done]. by rewrite (lookup_app_l_Some _ _ _ _ Hm).
Qed.

Section slots.
Context (ms : list ModuleRecord) (nframes : nat).
#[local] Abbreviation flat ctx := (concat (module_deactivated_at ctx)).

Lemma deactivate_module_inactive ctx id b ctx' :
  contexts_wf ms nframes ctx -> deactivate_module id nframes ctx = Some (b, ctx') ->
  flat ctx' !! id <> Some None.
Proof.
  intros Hwf Hd. unfold deactivate_module in Hd. rewrite chunked_get_flat in Hd by apply Hwf.
  destruct (flat ctx !! id) as [[d|]|] eqn:Hs; cbn in Hd; simplify_eq; [by rewrite Hs|]. cbn.
  destruct (chunked_set_spec (module_deactivated_at ctx) id (Some nframes)) as (_ & _ & ->);
    [apply Hwf|].
  rewrite list_lookup_insert_eq by (by eapply lookup_lt_Some). done.
Qed.

Lemma deactivate_all_slots ids : forall ctx retired ctx',
  contexts_wf ms nframes ctx -> Forall (λ i, (i < length ms)%nat) ids ->
  deactivate_all ids nframes ctx = Some (retired, ctx') ->
  forall j, flat ctx' !! j = flat ctx !! j /\ (j ∈ ids -> flat ctx !! j <> Some None) \/
    (j ∈ ids /\ flat ctx' !! j = Some (Some nframes)).
Proof.
  induction ids as [|i ids IH]; intros ctx retired ctx' Hwf Hids Hall j; cbn in Hall.
  { simplify_eq. left. split; [done|]. by intros ?%elem_of_nil. }
  apply Forall_cons in Hids as [Hi Hids].
  destruct (deactivate_module_wf _ _ _ i nframes Hwf Hi) as (b & ctx1 & Hd & Hwf1 & _).
  rewrite Hd in Hall. destruct (deactivate_all ids nframes ctx1) as [[r2 ctx2]|] eqn:Hrest; [|done].
  simplify_eq. destruct (deactivate_module_context _ _ _ Hwf _ _ _ Hd) as [_ Hs].
  pose proof (deactivate_module_inactive _ _ _ _ Hwf Hd) as Hoff. rewrite elem_of_cons.
  destruct (IH _ _ _ Hwf1 Hids Hrest j) as [[-> Hj]|[Hin Hj]]; [|by auto].
  destruct (Hs j) as [Heq|(-> & _ & Hj')]; [|by auto]. left. rewrite Heq. split; [done|].
  intros [->|Hin]; [by rewrite <- Heq|]. rewrite <- Heq. auto.
Qed.

Lemma deactivate_owner_slots ctx owner retired ctx' :
  contexts_wf ms nframes ctx -> deactivate_owner owner nframes ctx = Some (retired, ctx') ->
  forall j, flat ctx' !! j = flat ctx !! j /\
      (j ∈ owned_indices ms owner -> flat ctx !! j <> Some None) \/
    (j ∈ owned_indices ms owner /\ flat ctx' !! j = Some (Some nframes)).
Proof.
  intros Hwf Hd j. unfold deactivate_owner in Hd.
  pose proof (cwf_owned_indices _ _ _ Hwf owner) as Hi.
  destruct (owned_modules ctx !! owner) as [c|] eqn:Hc; cbn in Hi.
  2: { simplify_eq. left. split; [done|]. rewrite <- Hi. by intros ?%elem_of_nil. }
  rewrite Hi in Hd. eapply deactivate_all_slots; [done| |done]. apply owned_indices_lt.
Qed.
End slots.

Section recording.
Context {W : Type} `{ReliableSink W} `{VarIntLaws} (interrupt_budget : nat).
Implicit Types (w : PerfSpoolWriter W) (t : tables).

(** Between two states the writer appended a valid stream with contents [ds]. *)
Record advances w t (ds : list DecodedSpoolRecord) w' t' : Prop := {
  adv_sim : sim w' t';
  adv_stream : exists rs, stream t rs ds t' /\
    content (o_inner (w_writer w')) = content (o_inner (w_writer w)) ++ encode_records rs;
}.

Lemma advances_refl w t : sim w t -> advances w t [] w t.
Proof. intros Hs. split; [done|]. exists []. unfold encode_records. cbn. rewrite app_nil_r. by split; [constructor|]. Qed.

Lemma advances_trans w1 t1 ds1 w2 t2 ds2 w3 t3 :
  advances w1 t1 ds1 w2 t2 -> advances w2 t2 ds2 w3 t3 -> advances w1 t1 (ds1 ++ ds2) w3 t3.
Proof.
  intros [_ (rs1 & Hs1 & Hc1)] [Hs (rs2 & Hs2 & Hc2)]. split; [done|]. exists (rs1 ++ rs2).
  split; [by eapply stream_app|]. rewrite Hc2, Hc1. unfold encode_records.
  by rewrite fmap_app, concat_app, app_assoc.
Qed.

Lemma advances_record w t r d t' o w' :
  record_ok t r d -> apply_decoded t d = Some t' ->
  out_ext (w_writer w) (encode_record r) o -> w_writer w' = o -> sim w' t' ->
  advances w t [d] w' t'.
Proof.
  intros Hr Ha [_ Hc _] Hw Hs. split; [done|]. exists [r]. split; [by repeat econstructor|].
  unfold encode_records. cbn [fmap list_fmap concat]. by rewrite app_nil_r, Hw.
Qed.

(** *** Samples *)

Lemma write_sample_frames_sim w t ts pid tid fs :
  sim w t -> is_u64 ts -> is_pid pid -> is_pid tid -> Forall (frame_writable t) fs ->
  let '(r, w') := write_sample_frames interrupt_budget ts pid tid fs w in
  exists ds t', advances w t ds w' t' /\ same_maps t t' /\ observed_of ds = [] /\
    match r with
    | Ok None => fs = [] /\ w' = w /\ t' = t /\ samples_of ds = []
    | Ok (Some id) => fs <> [] /\ samples_of ds = [mkSample ts pid tid id] /\ stack_means t' id fs
    | Err e => e = InvalidInput /\ samples_of ds = [] /\
        (~ is_i64 (ts - last_timestamp_ns t) \/ exhausted w')
    end.
Proof.
  intros Hs Hts Hp Ht Hw. unfold write_sample_frames.
  destruct (decide (fs = [])) as [->|Hne].
  { exists [], t. split; [by apply advances_refl|]. done. }
  destruct fs as [|f0 fs0] eqn:Hfs; [done|]. rewrite <- Hfs in *. clear f0 fs0 Hfs.
  unfold io_get, io_lift. do 2 (unfold mbind at 1, io_mbind at 1).
  unfold checked_sample_timestamp_delta, i64_try_from. rewrite (sim_ts _ _ Hs).
  destruct ((i64_min <=? ts - last_timestamp_ns t) && (ts - last_timestamp_ns t <=? i64_max)) eqn:Hd;
    cbn [ok_or].
  2: { exists [], t. split; [by apply advances_refl|]. split; [done|]. split; [done|].
       split; [done|]. split; [done|]. left. unfold is_i64. apply andb_false_iff in Hd. lia. }
  unfold mbind at 1, io_mbind at 1.
  pose proof (intern_stack_sim interrupt_budget w t fs Hs Hw Hne) as Hstack. unfold interned in Hstack.
  destruct (intern_stack interrupt_budget fs w) as [[r|e] w1]; destruct Hstack as (t1 & Hi1 & HQ).
  2: { destruct Hi1 as [Hs1 Hm1 _ (rs & ds & Hst & Hn & Ho & Hc)]. exists ds, t1.
       split; [split; eauto|]. split; [done|]. split; [done|]. destruct HQ. auto. }
  destruct HQ as (id & -> & Hid & Hmeans). unfold mbind at 1, io_mbind at 1.
  pose proof (int_sim _ _ _ _ Hi1) as Hs1.
  pose proof (intern_thread_sim interrupt_budget w1 t1 pid tid Hs1 Hp Ht) as Hthread.
  unfold interned in Hthread.
  destruct (intern_thread interrupt_budget pid tid w1) as [[th|e] w2];
    destruct Hthread as (t2 & Hi2 & HQ); pose proof (interns_trans _ _ _ _ _ _ Hi1 Hi2) as Hi.
  2: { destruct Hi as [Hs2 Hm2 _ (rs & ds & Hst & Hn & Ho & Hc)]. exists ds, t2.
       split; [split; eauto|]. split; [done|]. split; [done|]. destruct HQ. auto. }
  destruct HQ as (Hth & Hlook). apply (stack_means_interns _ _ _ _ _ _ Hs1 Hi2) in Hmeans.
  pose proof Hi as [Hs2 Hm2 Hts2 (rs & ds & Hst & Hn & Ho & Hc)].
  set (delta := ts - last_timestamp_ns t) in *. write_record o He; [apply Hs2|]. cbn.
  set (t3 := commit_timestamp ts t2). exists (ds ++ [DSample (mkSample ts pid tid id)]), t3.
  assert (exists n, stack_nodes t2 !! Z.to_nat id = Some n) as [n Hnode].
  { destruct Hmeans as (gs & Hgs & _ & [[_ ->]|[_ Hden]]); [by destruct fs|].
    destruct Hden; eauto. }
  pose proof (lookup_lt_Some _ _ _ Hnode). apply andb_true_iff in Hd.
  assert (last_timestamp_ns t2 + delta = ts) as Heq by (unfold delta; lia).
  assert (record_ok t2 (WSample delta th id) (DSample (mkSample ts pid tid id))) as Hr.
  { rewrite <- Heq. eapply (rok_sample t2 delta th id (mkThread pid tid)); [unfold is_i64; lia|by rewrite Heq|word_lia|done|lia|lia]. }
  destruct (apply_decoded_ok _ _ _ (sim_wf _ _ Hs2) Hr) as (t' & Ha & Hwf' & Hext).
  cbn in Ha. injection Ha as <-.
  split; [|split; [by etrans; [exact Hm2|]|split; [unfold observed_of in *; by rewrite omap_app, Ho|]]].
  - eapply advances_trans; [split; eauto|]. eapply advances_record; [exact Hr|done| |done|].
    + cbn in He. rewrite app_nil_r in He. exact He.
    + split; try (by apply He); by destruct Hs2.
  - split; [done|]. split; [unfold samples_of in *; by rewrite omap_app, Hn|].
    eapply stack_means_extends; [apply Hs2|done|done|done|done].
Qed.
(** *** Modules *)

Lemma outputs_symbol_list symbols :
  outputs (write_symbol_list interrupt_budget symbols) (concat (encode_symbol <$> symbols)).
Proof.
  induction symbols as [|s symbols IH]; cbn [write_symbol_list fmap list_fmap concat].
  { apply outputs_ret. }
  unfold encode_symbol. rewrite <- !app_assoc.
  apply outputs_seq; [apply outputs_varint|]. apply outputs_seq; [apply outputs_varint|].
  apply outputs_seq; [apply outputs_bytes|done].
Qed.

Lemma outputs_symbols symbols :
  outputs (write_symbols interrupt_budget symbols) (encode_symbols symbols).
Proof. apply outputs_seq; [apply outputs_varint|apply outputs_symbol_list]. Qed.

(** [m] writes [bs] and goes on as [k]. *)
Definition leads (m : io (PerfSpoolWriter W) unit) (bs : list Z) (k : io (PerfSpoolWriter W) unit)
    : Prop :=
  forall w, o_failure (w_writer w) = None ->
    exists o, m w = k (set_writer o w) /\ out_ext (w_writer w) bs o.

Lemma leads_refl k : leads k [] k.
Proof.
  intros w Hw. exists (w_writer w). split; [by destruct w|].
  split; [done|by rewrite app_nil_r|cbn; lia].
Qed.

Lemma leads_seq m bs1 m' bs2 k :
  outputs m bs1 -> leads m' bs2 k -> leads (m;; m') (bs1 ++ bs2) k.
Proof.
  intros Hm Hm' w Hw. destruct (outputs_then _ _ m' w Hm Hw) as (o1 & -> & He1).
  destruct (Hm' (set_writer o1 w)) as (o2 & -> & He2); [apply He1|].
  exists o2. split; [done|]. by eapply out_ext_trans.
Qed.

Lemma leads_last m bs k : outputs m bs -> leads (m;; k) bs k.
Proof. intros Hm. rewrite <- (app_nil_r bs). apply leads_seq; [done|apply leads_refl]. Qed.

Lemma write_module_leads m :
  leads (write_module interrupt_budget m) (encode_record (WModule m))
    (io_modify clear_unpinned;;
     if module_is_kernel m then
       io_modify (λ w, set_kernel_ids ({[m_id m]} ∪ w_kernel_module_ids w) w);;
       io_modify clear_kernel
     else mret tt).
Proof.
  unfold write_module, encode_record. cbn [wire_tag wire_payload].
  change (module_tag m :: encode_module m) with ([module_tag m] ++ encode_module m).
  unfold encode_module. rewrite (app_assoc _ (m_path m)).
  apply leads_seq; [apply outputs_all|].
  do 9 (apply leads_seq; [apply outputs_varint|]).
  apply leads_seq; [apply outputs_all|]. apply leads_seq; [apply outputs_bytes|].
  apply leads_last. destruct (m_jit_symbols m); [apply outputs_symbols|apply outputs_ret].
Qed.

Lemma slot_push_module t m j :
  tables_wf t -> slot (push_module_record m t) j =
    if decide (j = length (modules t)) then Some None else slot t j.
Proof.
  intros Hwf. pose proof (twf_contexts _ Hwf) as Hc. unfold slot. cbn.
  destruct (chunked_push_spec (module_deactivated_at (frame_contexts t)) None) as (_ & _ & ->);
    [apply Hc|].
  pose proof (cwf_deactivated_length _ _ _ Hc) as Hl. case_decide as Hj.
  - apply list_lookup_middle. congruence.
  - destruct (Nat.lt_ge_cases j (length (modules t))).
    + by rewrite lookup_app_l by lia.
    + rewrite !lookup_ge_None_2; [done|lia|rewrite length_app; cbn; lia].
Qed.

Lemma write_module_sim w t m :
  sim w t -> module_ok m -> jit_ok m -> m_id m = Z.of_nat (length (modules t)) ->
  exists w', write_module interrupt_budget m w = (Ok tt, w') /\
    advances w t [DModule m] w' (push_module_record m t).
Proof.
  intros Hs Hok Hjit Hid. destruct (write_module_leads m w (sim_ok _ _ Hs)) as (o & -> & He).
  assert (record_ok t (WModule m) (DModule m)) as Hr by (by constructor).
  pose proof (sim_wf _ _ Hs) as Hwf.
  destruct (apply_decoded_ok _ _ _ Hwf Hr) as (t' & Ha & Hwf' & Hext).
  cbn in Ha. injection Ha as <-.
  assert (forall c key id, get_cache c w !! key = Some id -> 0 <= id /\
            exists f, frames t !! Z.to_nat id = Some f /\
              expand_frame (modules t ++ [m]) key.1 key.2 = Ok f) as Hframes.
  { intros c key id Hc. destruct (sim_frames _ _ Hs _ _ _ Hc) as (Hid' & f & Hf & Hexp).
    split; [done|]. exists f. split; [done|]. by apply expand_frame_mono. }
  assert (forall j d, slot (push_module_record m t) j = Some (Some d) ->
            (d <= length (frames t))%nat) as Hslots.
  { intros j d. rewrite slot_push_module by done. case_decide; [done|]. apply (sim_slots _ _ Hs). }
  assert (forall j m', (modules t ++ [m]) !! j = Some m' -> module_is_kernel m' = true ->
            slot (push_module_record m t) j = Some None ->
            m_id m' ∈ w_kernel_module_ids w \/ m' = m) as Hker.
  { intros j m' Hj Hk. rewrite slot_push_module by done. case_decide as Hlen.
    - subst j. rewrite list_lookup_middle in Hj by done. injection Hj as <-. by right.
    - intros Hsl. left. apply (sim_kernel_ids _ _ Hs j); [|done|done].
      apply lookup_app_Some in Hj as [Hj|[? Hj]]; [done|].
      apply list_lookup_singleton_Some in Hj. lia. }
  destruct (module_is_kernel m) eqn:Hkm; (eexists; split; [done|];
    eapply advances_record; [exact Hr|done|exact He|done|]).
  - split; try (by destruct Hs); [apply He|..].
    + intros [] key id Hc; cbn in Hc; try (by rewrite lookup_empty in Hc). by apply (Hframes PinnedCache).
    + intros j m' Hj Hk Hsl. cbn. rewrite elem_of_union, elem_of_singleton.
      destruct (Hker _ _ Hj Hk Hsl) as [?| ->]; auto.
  - split; try (by destruct Hs); [apply He|..].
    + intros [] key id Hc; cbn in Hc; try (by rewrite lookup_empty in Hc);
        [by apply (Hframes PinnedCache)|by apply (Hframes KernelCache)].
    + intros key id Hc. cbn in Hc. destruct (sim_fresh_kernel _ _ Hs _ _ Hc) as (c & Hfc & Hact).
      destruct (ext_context _ _ Hext _ _ Hfc) as [Hfc' Hact']. exists c. split; [done|].
      intros j m' Hj Hk. cbn in Hj. rewrite Hact', slot_push_module by done. case_decide as Hlen.
      * subst j. rewrite list_lookup_middle in Hj by done. congruence.
      * apply Hact with m'; [|done]. apply lookup_app_Some in Hj as [Hj|[? Hj]]; [done|].
        apply list_lookup_singleton_Some in Hj. lia.
    + intros j m' Hj Hk Hsl. cbn. destruct (Hker _ _ Hj Hk Hsl) as [| ->]; [done|congruence].
Qed.
(** *** Retirements *)

(** New contexts for the same modules and frames: the pinned cache survives
    and the kernel cache does when no kernel slot changed. *)
Lemma sim_set_contexts w t ctx o ids keep_kernel :
  sim w t -> o_failure o = None -> tables_wf (set_contexts ctx t) -> extends t (set_contexts ctx t) ->
  (forall j, slot (set_contexts ctx t) j = slot t j \/
             slot (set_contexts ctx t) j = Some (Some (length (frames t)))) ->
  (keep_kernel = true -> forall j m, modules t !! j = Some m -> module_is_kernel m = true ->
     slot (set_contexts ctx t) j = slot t j) ->
  (forall j m, modules t !! j = Some m -> module_is_kernel m = true ->
     slot (set_contexts ctx t) j = Some None -> m_id m ∈ ids) ->
  sim (let w1 := set_kernel_ids ids (clear_unpinned (set_writer o w)) in
       if keep_kernel then w1 else clear_kernel w1) (set_contexts ctx t).
Proof.
  intros Hs Ho Hwf' Hext Hsl Hkeep Hids.
  assert (forall j d, slot (set_contexts ctx t) j = Some (Some d) -> (d <= length (frames t))%nat)
    as Hslots.
  { intros j d. destruct (Hsl j) as [->| ->]; [apply (sim_slots _ _ Hs)|]. intros [= <-]. done. }
  destruct keep_kernel; split; try (by destruct Hs).
  - intros [] key id Hc; cbn in Hc; try (by rewrite lookup_empty in Hc);
      [by apply (sim_frames _ _ Hs PinnedCache)|by apply (sim_frames _ _ Hs KernelCache)].
  - intros key id Hc. destruct (sim_fresh_kernel _ _ Hs _ _ Hc) as (c & Hfc & Hact).
    destruct (ext_context _ _ Hext _ _ Hfc) as [Hfc' Hact']. exists c. split; [done|].
    intros j m Hj Hk. rewrite Hact', (Hkeep eq_refl j m Hj Hk). by eapply Hact.
  - intros [] key id Hc; cbn in Hc; try (by rewrite lookup_empty in Hc).
    by apply (sim_frames _ _ Hs PinnedCache).
Qed.

Lemma owned_user_not_kernel t pid j m :
  j ∈ owned_indices (modules t) (Process pid) -> modules t !! j = Some m ->
  module_is_kernel m = false.
Proof.
  intros [Hj _]%list_elem_of_filter Hm. rewrite Hm in Hj. cbn in Hj. injection Hj as Hj.
  unfold module_is_kernel. by rewrite Hj.
Qed.

Lemma write_module_deactivation_sim w t pid :
  sim w t -> is_pid pid ->
  exists w' t', write_module_deactivation interrupt_budget pid w = (Ok tt, w') /\
    apply_decoded t (DDeactivateProcess pid) = Some t' /\
    advances w t [DDeactivateProcess pid] w' t'.
Proof.
  intros Hs Hp. assert (record_ok t (WDeactivateProcess pid) (DDeactivateProcess pid)) as Hr
    by (by constructor).
  destruct (apply_decoded_ok _ _ _ (sim_wf _ _ Hs) Hr) as (t' & Ha & Hwf' & Hext).
  assert (leads (write_module_deactivation interrupt_budget pid)
            (encode_record (WDeactivateProcess pid)) (io_modify clear_unpinned)) as Hl.
  { apply (leads_seq _ [REC_MODULE_DEACTIVATE]); [apply outputs_all|].
    apply leads_last, outputs_varint. }
  destruct (Hl w (sim_ok _ _ Hs)) as (o & -> & He). eexists _, t'. split; [done|]. split; [done|].
  eapply advances_record; [exact Hr|done|exact He|done|]. cbn in Ha.
  destruct (deactivate_owner (Process pid) (length (frames t)) (frame_contexts t)) as [[ret ctx]|] eqn:Hd;
    [|done]. cbn in Ha. injection Ha as <-.
  pose proof (deactivate_owner_slots _ _ _ _ _ _ (twf_contexts _ (sim_wf _ _ Hs)) Hd) as Hsl.
  pose proof (sim_set_contexts w t ctx o (w_kernel_module_ids w) true Hs) as Hsim.
  cbn in Hsim. destruct w; apply Hsim; clear Hsim; try done; [apply He|..].
  - intros j. destruct (Hsl j) as [[? _]|[_ ?]]; auto.
  - intros _ j m Hj Hk. destruct (Hsl j) as [[? _]|[Hin _]]; [done|].
    pose proof (owned_user_not_kernel _ _ _ _ Hin Hj). congruence.
  - intros j m Hj Hk. destruct (Hsl j) as [[Heq _]|[Hin _]].
    + intros Hn. apply (sim_kernel_ids _ _ Hs j); [done|done|]. rewrite <- Hn. symmetry. apply Heq.
    + pose proof (owned_user_not_kernel _ _ _ _ Hin Hj). congruence.
Qed.

Lemma write_module_deactivation_one_sim w t id :
  sim w t -> 0 <= id < Z.of_nat (length (modules t)) -> id <= u32_max ->
  exists w' t', write_module_deactivation_one interrupt_budget id w = (Ok tt, w') /\
    apply_decoded t (DDeactivateModule (Z.to_nat id)) = Some t' /\
    advances w t [DDeactivateModule (Z.to_nat id)] w' t'.
Proof.
  intros Hs Hid Hid'.
  assert (record_ok t (WDeactivateModule id) (DDeactivateModule (Z.to_nat id))) as Hr
    by (by constructor).
  destruct (apply_decoded_ok _ _ _ (sim_wf _ _ Hs) Hr) as (t' & Ha & Hwf' & Hext).
  assert (leads (write_module_deactivation_one interrupt_budget id)
            (encode_record (WDeactivateModule id))
            (io_modify clear_unpinned;;
             w ← io_get;
             if decide (id ∈ w_kernel_module_ids w) then
               io_modify (λ w, set_kernel_ids (w_kernel_module_ids w ∖ {[id]}) w);;
               io_modify clear_kernel
             else mret tt)) as Hl.
  { apply (leads_seq _ [REC_MODULE_DEACTIVATE_ONE]); [apply outputs_all|].
    apply leads_last, outputs_varint. }
  destruct (Hl w (sim_ok _ _ Hs)) as (o & -> & He).
  cbn in Ha.
  destruct (deactivate_module (Z.to_nat id) (length (frames t)) (frame_contexts t)) as [[b ctx]|] eqn:Hd;
    [|done]. cbn in Ha. injection Ha as <-.
  destruct (deactivate_module_context _ _ _ (twf_contexts _ (sim_wf _ _ Hs)) _ _ _ Hd) as [_ Hsl].
  assert (forall j, slot (set_contexts ctx t) j = slot t j \/
            slot (set_contexts ctx t) j = Some (Some (length (frames t)))) as Hslots.
  { intros j. destruct (Hsl j) as [|(_ & _ & ?)]; auto. }
  pose proof (deactivate_module_inactive _ _ _ _ _ _ (twf_contexts _ (sim_wf _ _ Hs)) Hd) as Hoff.
  assert (forall j m, modules t !! j = Some m -> module_is_kernel m = true ->
            slot (set_contexts ctx t) j = Some None ->
            slot t j = Some None /\ m_id m <> id) as Hrest.
  { intros j m Hj Hk Hn. pose proof (twf_ids _ (sim_wf _ _ Hs) _ _ Hj) as Hmid. split.
    - destruct (Hslots j); congruence.
    - intros Heq. apply Hoff. unfold slot in Hn. cbn in Hn. by rewrite <- Heq, Hmid, Nat2Z.id. }
  unfold mbind, io_mbind, io_modify, io_get. case_decide as Hin.
  - pose proof (sim_set_contexts w t ctx o (w_kernel_module_ids w ∖ {[id]}) false Hs) as Hsim.
    eexists _, _. split; [done|]. split; [cbn; by rewrite Hd|].
    eapply advances_record; [exact Hr|cbn; by rewrite Hd|exact He|done|].
    apply Hsim; try done; [apply He|]. intros j m Hj Hk Hn.
    rewrite elem_of_difference, elem_of_singleton. destruct (Hrest j m Hj Hk Hn) as [Hold Hne].
    split; [by apply (sim_kernel_ids _ _ Hs j)|done].
  - pose proof (sim_set_contexts w t ctx o (w_kernel_module_ids w) true Hs) as Hsim.
    eexists _, _. split; [done|]. split; [cbn; by rewrite Hd|].
    eapply advances_record; [exact Hr|cbn; by rewrite Hd|exact He|done|].
    destruct w; apply Hsim; try done; [apply He|..].
    + intros _ j m Hj Hk. destruct (Hsl j) as [|(-> & Hact & _)]; [done|].
      exfalso. apply Hin. replace id with (m_id m); [by apply (sim_kernel_ids _ _ Hs (Z.to_nat id))|].
      rewrite (twf_ids _ (sim_wf _ _ Hs) _ _ Hj). lia.
    + intros j m Hj Hk Hn. destruct (Hrest j m Hj Hk Hn) as [Hold Hne].
      by apply (sim_kernel_ids _ _ Hs j).
Qed.

(** *** Runtime markers *)

Lemma write_python_runtime_sim w t ts pid flag :
  sim w t -> is_u64 ts -> is_pid pid ->
  exists w', write_python_runtime interrupt_budget ts pid flag w = (Ok tt, w') /\
    advances w t [DPythonRuntime (mkPythonRuntime ts pid flag)] w' t.
Proof.
  intros Hs Ht Hp.
  assert (outputs (write_python_runtime interrupt_budget ts pid flag)
            (encode_record (WPythonRuntime ts pid flag))) as Hout.
  { apply (outputs_seq _ [REC_PYTHON_RUNTIME]); [apply outputs_all|].
    apply outputs_seq; [apply outputs_varint|]. apply outputs_seq; [apply outputs_varint|].
    apply (outputs_all interrupt_budget (encode_flag flag)). }
  destruct (Hout w (sim_ok _ _ Hs)) as (o & Hrun & He). eexists. split; [done|].
  eapply advances_record; [by constructor|done|exact He|done|].
  split; try (by apply He); by destruct Hs.
Qed.
End recording.
