(* ===== verification/RoundTrip.v ===== *)
(** * The recording log and the round trip

    What a recording means, without ids, caches or bytes: a list of mappings
    that come and go, and samples whose frames carry the mapping that was
    active when the sample was written.  The writer followed by the reader
    implements it. *)

From stdpp Require Import prelude gmap list numbers sorting.
From S2P Require Import Prelude Varint Cursor Model Output Records Contexts Reader Writer.
From S2P Require Import Stream Snapshot Tables Simulation Interning Recording.
#[local] Open Scope Z_scope.

(** ** The abstract log *)

(** Every module ever written, with whether it is still mapped. *)
Abbreviation log_modules := (list (ModuleRecord * bool)).

(** A sample as its author meant it. *)
Record log_sample := mkLogSample {
  ls_timestamp_ns : Z; ls_process_id : Z; ls_thread_id : Z; ls_frames : list RawFrame;
}.

Inductive write_op :=
  | WriteModule (m : ModuleRecord)
  | WriteSample (timestamp_ns process_id thread_id : Z) (frames : list FrameRecord)
  | WritePythonRuntime (timestamp_ns process_id : Z) (is_python_runtime : bool)
  | DeactivateProcess (process_id : Z)
  | DeactivateModule (module_id : Z).

(** The mapping of an address: the newest mapped module that covers it. *)
Definition log_mapping (ms : log_modules) (process_id : Z) (f : FrameRecord)
    : option FrameModuleRef :=
  match f_mode f, f_module_id f with
  | TruncatedStackMarker, _ => None
  | _, Some id => (λ mb, mkModuleRef mb.1 (f_file_relative_ip f)) <$> ms !! Z.to_nat id
  | _, None =>
      m ← find_map (λ mb, if mb.2 && module_owns_frame mb.1 process_id f then Some mb.1 else None)
            (reverse ms);
      frame_module_ref m f
  end.

Definition log_frame (ms : log_modules) (process_id : Z) (f : FrameRecord) : RawFrame :=
  raw_frame f (log_mapping ms process_id f).

Definition log_step (ms : log_modules) (op : write_op) : log_modules :=
  match op with
  | WriteModule m => ms ++ [(m, true)]
  | DeactivateProcess pid =>
      (λ mb, (mb.1, mb.2 && negb (bool_decide (m_owner mb.1 = Process pid)))) <$> ms
  | DeactivateModule id => alter (λ mb, (mb.1, false)) (Z.to_nat id) ms
  | _ => ms
  end.

(** The samples of a run, given what each call returned. *)
Fixpoint log_run (ms : log_modules) (ops : list write_op) (results : list (result (option Z)))
    : list log_sample :=
  match ops, results with
  | op :: ops, r :: results =>
      match op, r with
      | WriteSample ts pid tid frames, Ok (Some _) =>
          [mkLogSample ts pid tid (log_frame ms pid <$> frames)]
      | _, _ => []
      end ++ log_run (log_step ms op) ops results
  | _, _ => []
  end.

(** *** What callers must respect *)

(** A frame the format can carry: the truncation marker, an address resolved
    later, or an address inside a module already written. *)
Definition frame_recordable (ms : list ModuleRecord) (f : FrameRecord) : Prop :=
  match f_mode f, f_module_id f with
  | TruncatedStackMarker, _ => f = truncated_stack_marker
  | _, None => is_u64 (f_abs_ip f) /\ f_file_relative_ip f = f_abs_ip f
  | mode, Some id => is_u32 id /\ is_u64 (f_file_relative_ip f) /\
      exists m, ms !! Z.to_nat id = Some m /\ mode = frame_mode (module_is_kernel m) /\
        f_abs_ip f = m_start m + (f_file_relative_ip f - m_file_offset m) /\
        m_file_offset m <= f_file_relative_ip f /\
        f_file_relative_ip f - m_file_offset m < m_end m - m_start m
  end.

Definition op_ok (ms : log_modules) (op : write_op) : Prop :=
  match op with
  | WriteModule m => module_ok m /\ jit_ok m /\ m_id m = Z.of_nat (length ms)
  | WriteSample ts pid tid frames =>
      is_u64 ts /\ is_pid pid /\ is_pid tid /\ Forall (frame_recordable ms.*1) frames
  | WritePythonRuntime ts pid _ => is_u64 ts /\ is_pid pid
  | DeactivateProcess pid => is_pid pid
  | DeactivateModule id => 0 <= id < Z.of_nat (length ms) /\ id <= u32_max
  end.

Fixpoint ops_ok (ms : log_modules) (ops : list write_op) : Prop :=
  match ops with
  | [] => True
  | op :: ops => op_ok ms op /\ ops_ok (log_step ms op) ops
  end.

(** ** Running the writer *)

Section run.
Context {W : Type} `{Write W} `{VarIntCrate} (interrupt_budget : nat).

Definition run_op (op : write_op) : io (PerfSpoolWriter W) (option Z) :=
  match op with
  | WriteModule m => write_module interrupt_budget m;; mret None
  | WriteSample ts pid tid frames => write_sample_frames interrupt_budget ts pid tid frames
  | WritePythonRuntime ts pid flag => write_python_runtime interrupt_budget ts pid flag;; mret None
  | DeactivateProcess pid => write_module_deactivation interrupt_budget pid;; mret None
  | DeactivateModule id => write_module_deactivation_one interrupt_budget id;; mret None
  end.

(** A caller that goes on after an error. *)
Fixpoint run_ops (ops : list write_op) (w : PerfSpoolWriter W)
    : list (result (option Z)) * PerfSpoolWriter W :=
  match ops with
  | [] => ([], w)
  | op :: ops =>
      let '(r, w) := run_op op w in
      let '(rs, w) := run_ops ops w in
      (r :: rs, w)
  end.
End run.

(** ** Frames survive the format *)

Lemma compact_expand ms f :
  frame_recordable ms f ->
  exists key, compact_frame f = Ok key /\ is_u64 key.1 /\ is_u64 key.2 /\
    expand_frame ms key.1 key.2 = Ok f.
Proof.
  unfold frame_recordable, compact_frame. destruct f as [mid rel abs mode]; cbn [f_mode f_module_id f_abs_ip f_file_relative_ip].
  destruct (decide (mode = TruncatedStackMarker)) as [->|Hm].
  { intros ->. rewrite decide_True by done. eexists. split; [done|]. cbn [fst snd].
    unfold TRUNCATED_STACK_MARKER_TAG. split; [word_lia|]. split; [word_lia|done]. }
  destruct mid as [id|].
  - intros Hf. assert (is_u32 id /\ is_u64 rel /\
      exists m, ms !! Z.to_nat id = Some m /\ mode = frame_mode (module_is_kernel m) /\
        abs = m_start m + (rel - m_file_offset m) /\
        m_file_offset m <= rel /\ rel - m_file_offset m < m_end m - m_start m) as (Hid & Hrel & m & Hl & -> & -> & Hlo & Hhi).
    { by destruct mode. }
    clear Hf. eexists. split; [done|]. cbn [fst snd]. rewrite Z.shiftl_mul_pow2 by lia.
    change (2 ^ 1) with 2. split; [word_lia|]. split; [done|].
    unfold expand_frame, TRUNCATED_STACK_MARKER_TAG. destruct (Z.eqb_spec (id * 2) 5); [lia|].
    change 1 with (Z.ones 1) at 1. rewrite Z.land_ones by lia. change (2 ^ 1) with 2.
    rewrite Z.mod_mul by lia. cbn [Z.eqb]. rewrite Z.shiftr_div_pow2 by lia. change (2 ^ 1) with 2.
    rewrite Z.div_mul by lia. pose proof (lookup_lt_Some _ _ _ Hl).
    rewrite bounded_id_index_ok, Hl by (done || word_lia). unfold checked_sub_u64.
    rewrite !(proj2 (Z.leb_le _ _)) by lia. rewrite Z.geb_leb, (proj2 (Z.leb_gt _ _)) by lia. done.
  - intros Hf. assert (is_u64 abs /\ rel = abs) as [Habs ->] by (by destruct mode). clear Hf.
    eexists. split; [done|]. cbn [fst snd].
    destruct mode; [| |done]; rewrite ?decide_True, ?decide_False by done;
      (split; [split; vm_compute; done|done]).
Qed.

(** ** The log against the reader's tables *)

Record log_rel (ms : log_modules) (t : tables) : Prop := {
  lr_modules : ms.*1 = modules t;
  lr_active j m b : ms !! j = Some (m, b) -> b = bool_decide (slot t j = Some None);
}.

Lemma find_map_fmap {A B C} (g : A -> B) (f : B -> option C) l :
  find_map f (g <$> l) = find_map (λ x, f (g x)) l.
Proof. induction l as [|x l IH]; [done|]. cbn. by rewrite IH. Qed.

Lemma current_mapping_log ms t pid f :
  tables_wf t -> log_rel ms t -> current_mapping t pid f = log_mapping ms pid f.
Proof.
  intros Hwf [Hm Ha]. unfold current_mapping, module_for_frame_unbounded, log_mapping.
  case_decide as Hmode; [by rewrite Hmode|].
  destruct (f_module_id f) as [id|] eqn:Hid.
  - assert (pinned_frame_module (modules t) id f =
            (λ mb : ModuleRecord * bool, mkModuleRef mb.1 (f_file_relative_ip f)) <$> ms !! Z.to_nat id) as ->
      by (unfold pinned_frame_module; rewrite <- Hm, list_lookup_fmap; by destruct (ms !! Z.to_nat id)).
    by destruct (f_mode f).
  - rewrite <- Hm, <- fmap_reverse, find_map_fmap.
    assert (forall l1 l2 : option ModuleRecord, l1 = l2 ->
              (m ← l1; frame_module_ref m f) =
              match f_mode f with TruncatedStackMarker => None | _ => m ← l2; frame_module_ref m f end)
      as Hcase by (intros l1 ? <-; by destruct (f_mode f)).
    apply Hcase, find_map_ext. intros [m b] Hin. rewrite elem_of_reverse in Hin.
    apply list_elem_of_lookup_1 in Hin as [j Hj]. rewrite (Ha _ _ _ Hj). cbn [fst snd].
    assert (modules t !! j = Some m) as Hl by (by rewrite <- Hm, list_lookup_fmap, Hj).
    by rewrite (twf_ids _ Hwf _ _ Hl), Nat2Z.id.
Qed.

Lemma log_rel_length ms t : log_rel ms t -> length ms = length (modules t).
Proof. intros [Hm _]. by rewrite <- Hm, length_fmap. Qed.

Lemma log_rel_same ms t t' : same_maps t t' -> log_rel ms t -> log_rel ms t'.
Proof.
  intros [Hm Hs] [Hl Ha]. split; [congruence|]. intros j m b Hj. rewrite Hs. by eapply Ha.
Qed.

Lemma log_rel_module ms t m :
  tables_wf t -> log_rel ms t -> log_rel (ms ++ [(m, true)]) (push_module_record m t).
Proof.
  intros Hwf Hl. pose proof (log_rel_length _ _ Hl) as Hlen. destruct Hl as [Hm Ha]. split.
  - rewrite fmap_app, Hm. done.
  - intros j m' b Hj. rewrite slot_push_module by done.
    apply lookup_app_Some in Hj as [Hj|[Hge Hj]].
    + pose proof (lookup_lt_Some _ _ _ Hj). case_decide; [lia|]. by eapply Ha.
    + apply list_lookup_singleton_Some in Hj as [Hj [= <- <-]].
      rewrite decide_True by lia. by rewrite bool_decide_true.
Qed.

Lemma owned_indices_elem t pid j m :
  modules t !! j = Some m ->
  j ∈ owned_indices (modules t) (Process pid) <-> m_owner m = Process pid.
Proof.
  intros Hj. unfold owned_indices. rewrite list_elem_of_filter, Hj, elem_of_seq. cbn.
  pose proof (lookup_lt_Some _ _ _ Hj). split; [by intros [[=] _]|]. intros ->. split; [done|lia].
Qed.

Lemma log_rel_deactivate_process ms t t' pid :
  tables_wf t -> log_rel ms t -> apply_decoded t (DDeactivateProcess pid) = Some t' ->
  log_rel (log_step ms (DeactivateProcess pid)) t'.
Proof.
  intros Hwf [Hm Ha] Hap. cbn in Hap.
  destruct (deactivate_owner _ _ _) as [[ret ctx]|] eqn:Hd; [|done]. cbn in Hap. injection Hap as <-.
  pose proof (deactivate_owner_slots _ _ _ _ _ _ (twf_contexts _ Hwf) Hd) as Hsl. split; cbn.
  - rewrite <- Hm, <- list_fmap_compose. done.
  - intros j m b. rewrite list_lookup_fmap. destruct (ms !! j) as [[m' b']|] eqn:Hj; [|done].
    cbn. intros [= <- <-]. specialize (Ha _ _ _ Hj).
    assert (modules t !! j = Some m') as Hl by (by rewrite <- Hm, list_lookup_fmap, Hj).
    pose proof (owned_indices_elem _ pid _ _ Hl) as Hown. unfold slot in *. cbn [set_contexts frame_contexts].
    destruct (Hsl j) as [[-> Hold]|[Hin ->]].
    + rewrite Ha. case_bool_decide as Hn; [|done]. case_bool_decide as Ho; [|done].
      exfalso. by apply Hold; [apply Hown|].
    + apply Hown in Hin. rewrite (bool_decide_true (m_owner m' = _)), andb_false_r by done.
      by rewrite bool_decide_false.
Qed.

Lemma log_rel_deactivate_module ms t t' id :
  tables_wf t -> log_rel ms t -> apply_decoded t (DDeactivateModule (Z.to_nat id)) = Some t' ->
  log_rel (log_step ms (DeactivateModule id)) t'.
Proof.
  intros Hwf [Hm Ha] Hap. cbn in Hap.
  destruct (deactivate_module _ _ _) as [[ret ctx]|] eqn:Hd; [|done]. cbn in Hap. injection Hap as <-.
  destruct (deactivate_module_context _ _ _ (twf_contexts _ Hwf) _ _ _ Hd) as [_ Hsl].
  pose proof (deactivate_module_inactive _ _ _ _ _ _ (twf_contexts _ Hwf) Hd) as Hoff. split; cbn.
  - rewrite <- Hm. apply list_eq. intros j. rewrite !list_lookup_fmap.
    destruct (decide (Z.to_nat id = j)) as [<-|Hne].
    + rewrite list_lookup_alter_eq. by destruct (ms !! Z.to_nat id).
    + by rewrite list_lookup_alter_ne.
  - intros j m b. destruct (decide (Z.to_nat id = j)) as [<-|Hne].
    + rewrite list_lookup_alter_eq. destruct (ms !! Z.to_nat id) as [[m' b']|]; [|done]. cbn.
      intros [= <- <-]. by rewrite bool_decide_false.
    + rewrite list_lookup_alter_ne by done. intros Hj. rewrite (Ha _ _ _ Hj). unfold slot. cbn.
      destruct (Hsl j) as [->|(-> & _)]; done.
Qed.

(** ** What a stack id shows *)

Lemma stack_frames_means t pid id fs :
  tables_wf t -> stack_means t id fs -> fs <> [] ->
  stack_frames t pid id = Some ((λ f, raw_frame f (current_mapping t pid f)) <$> fs).
Proof.
  intros Hwf (gs & <- & Hall & [[_ ->]|[_ Hd]]) Hne; [done|].
  assert (exists n, stack_nodes t !! Z.to_nat id = Some n) as [n Hn] by (destruct Hd; eauto).
  destruct (denotes_walk _ _ _ _ Hwf Hd Hn) as [Hwalk _].
  unfold stack_frames, stack_frame_refs. rewrite Hn. cbn [sf_remaining sf_current]. rewrite Hwalk. cbn.
  f_equal. rewrite <- list_fmap_compose. apply list_fmap_ext. intros i g Hg.
  eapply Forall_lookup_1 in Hall as [_ Hcur]; [|done]. unfold compose. by rewrite <- Hcur.
Qed.

Lemma stack_frames_from_extends t t' n current gs :
  extends t t' -> stack_frames_from t n current = Some gs ->
  stack_frames_from t' n current = Some gs /\ Forall (λ g, frames t !! Z.to_nat g.1 = Some g.2) gs.
Proof.
  intros He. revert current gs. induction n as [|n IH]; intros current gs; cbn [stack_frames_from].
  { intros [= <-]. by split. }
  unfold stack_advance. cbn [sf_current].
  destruct (stack_nodes t !! Z.to_nat current) as [node|] eqn:Hn; [|done]. cbn.
  destruct (frames t !! Z.to_nat (n_frame_id node)) as [f|] eqn:Hf; [|done]. cbn.
  rewrite (prefix_lookup_Some _ _ _ _ Hn (ext_nodes _ _ He)). cbn.
  rewrite (prefix_lookup_Some _ _ _ _ Hf (ext_frames _ _ He)). cbn.
  destruct (stack_frames_from t n _) as [rest|] eqn:Hrest; [|done]. cbn. intros [= <-].
  destruct (IH _ _ Hrest) as [-> Hall]. split; [done|]. by constructor.
Qed.

Lemma stack_frames_extends t t' pid id v :
  tables_wf t -> tables_wf t' -> extends t t' ->
  stack_frames t pid id = Some v -> stack_frames t' pid id = Some v.
Proof.
  intros Hwf Hwf' He. unfold stack_frames, stack_frame_refs.
  destruct (stack_nodes t !! Z.to_nat id) as [n|] eqn:Hn; [|done]. cbn.
  rewrite (prefix_lookup_Some _ _ _ _ Hn (ext_nodes _ _ He)). cbn.
  destruct (stack_frames_from t (n_depth n) id) as [gs|] eqn:Hgs; [|done]. cbn. intros [= <-].
  destruct (stack_frames_from_extends _ _ _ _ _ He Hgs) as [-> Hall]. cbn. f_equal.
  apply list_fmap_ext. intros i g Hg. eapply Forall_lookup_1 in Hall; [|done].
  by rewrite (module_for_frame_extends _ _ _ _ _ Hwf Hwf' He Hall).
Qed.

(** ** The writer implements the log *)

(** A decoded sample shows the logged one. *)
Definition shows (t : tables) (s : SampleRecord) (l : log_sample) : Prop :=
  s_timestamp_ns s = ls_timestamp_ns l /\ s_process_id s = ls_process_id l /\
  s_thread_id s = ls_thread_id l /\
  stack_frames t (s_process_id s) (s_stack_id s) = Some (ls_frames l).

Lemma shows_extends t t' s l :
  tables_wf t -> tables_wf t' -> extends t t' -> shows t s l -> shows t' s l.
Proof.
  intros Hwf Hwf' He (? & ? & ? & Hf). repeat split; try done.
  eapply (stack_frames_extends t); done.
Qed.

Section refinement.
Context {W : Type} `{ReliableSink W} `{VarIntLaws} (interrupt_budget : nat).
Implicit Types (w : PerfSpoolWriter W) (t : tables) (ms : log_modules).

(** Why a call may be refused: the timestamp delta does not fit an [i64], or
    an id space is full. *)
Definition refused (op : write_op) t w' : Prop :=
  match op with
  | WriteSample ts _ _ _ => ~ is_i64 (ts - last_timestamp_ns t) \/ exhausted w'
  | _ => False
  end.

Record op_post ms op w t (r : result (option Z)) w' : Prop := {
  post_run : exists ds t', advances w t ds w' t' /\ log_rel (log_step ms op) t' /\
    Forall2 (shows t') (samples_of ds) (log_run ms [op] [r]);
  post_result : match r with Ok _ => True | Err e => e = InvalidInput /\ refused op t w' end;
}.

Lemma run_op_sim ms op w t :
  sim w t -> log_rel ms t -> op_ok ms op ->
  op_post ms op w t (run_op interrupt_budget op w).1 (run_op interrupt_budget op w).2.
Proof.
  intros Hs Hl Hok. pose proof (sim_wf _ _ Hs) as Hwf. pose proof (log_rel_length _ _ Hl) as Hlen.
  destruct op as [m|ts pid tid fs|ts pid flag|pid|id]; cbn [run_op op_ok] in *.
  - destruct Hok as (Hm & Hj & Hid). rewrite Hlen in Hid.
    destruct (write_module_sim interrupt_budget w t m Hs Hm Hj Hid) as (w' & Hr & Ha).
    rewrite (io_bind_ok _ _ _ _ _ Hr). cbn. split; [|done]. eexists _, _.
    split; [done|]. split; [by apply log_rel_module|constructor].
  - destruct Hok as (Hts & Hp & Ht & Hfs).
    assert (Forall (frame_writable t) fs) as Hw.
    { eapply Forall_impl; [exact Hfs|]. intros f Hf. rewrite (lr_modules _ _ Hl) in Hf.
      by apply compact_expand. }
    pose proof (write_sample_frames_sim interrupt_budget w t ts pid tid fs Hs Hts Hp Ht Hw) as Hrun.
    destruct (write_sample_frames _ _ _ _ _ w) as [r w'].
    destruct Hrun as (ds & t' & Ha & Hm & _ & Hr). cbn [fst snd].
    split; [|by destruct r; [|destruct Hr as (? & _ & ?)]]. exists ds, t'.
    split; [done|]. split; [by eapply log_rel_same|]. cbn [log_run app].
    destruct r as [[id|]|e]; [destruct Hr as (Hne & -> & Hmeans)
                             |destruct Hr as (_ & _ & _ & ->)|destruct Hr as (_ & -> & _)]; [|done..].
    constructor; [|constructor]. repeat split. cbn.
    rewrite (stack_frames_means t' pid id fs); [|apply Ha|done|done]. f_equal.
    apply list_fmap_ext. intros i f _. unfold log_frame. f_equal.
    rewrite (current_mapping_same _ _ _ _ Hm). by apply current_mapping_log.
  - destruct Hok as [Ht Hp].
    destruct (write_python_runtime_sim interrupt_budget w t ts pid flag Hs Ht Hp) as (w' & Hr & Ha).
    rewrite (io_bind_ok _ _ _ _ _ Hr). cbn. split; [|done]. eexists _, _. split; [done|].
    split; [done|constructor].
  - destruct (write_module_deactivation_sim interrupt_budget w t pid Hs Hok) as (w' & t' & Hr & Hap & Ha).
    rewrite (io_bind_ok _ _ _ _ _ Hr). cbn. split; [|done]. eexists _, _. split; [done|].
    split; [by eapply log_rel_deactivate_process|constructor].
  - destruct Hok as [Hid Hid']. rewrite Hlen in Hid.
    destruct (write_module_deactivation_one_sim interrupt_budget w t id Hs Hid Hid')
      as (w' & t' & Hr & Hap & Ha).
    rewrite (io_bind_ok _ _ _ _ _ Hr). cbn. split; [|done]. eexists _, _. split; [done|].
    split; [by eapply log_rel_deactivate_module|constructor].
Qed.

Lemma advances_extends w t ds w' t' : sim w t -> advances w t ds w' t' -> extends t t'.
Proof.
  intros Hs [_ (rs & Hst & _)]. eapply stream_extends; [exact Hst|apply Hs].
Qed.

Lemma log_run_cons ms op ops r rs :
  log_run ms (op :: ops) (r :: rs) = log_run ms [op] [r] ++ log_run (log_step ms op) ops rs.
Proof. cbn [log_run]. by rewrite app_nil_r. Qed.

Lemma run_ops_sim ops : forall ms w t,
  sim w t -> log_rel ms t -> ops_ok ms ops ->
  exists ds t', advances w t ds (run_ops interrupt_budget ops w).2 t' /\
    Forall2 (shows t') (samples_of ds) (log_run ms ops (run_ops interrupt_budget ops w).1).
Proof.
  induction ops as [|op ops IH]; intros ms w t Hs Hl Hok; cbn [run_ops].
  { exists [], t. split; [by apply advances_refl|constructor]. }
  destruct Hok as [Hop Hok]. pose proof (run_op_sim ms op w t Hs Hl Hop) as [Hrun _].
  destruct (run_op interrupt_budget op w) as [r w1]. cbn [fst snd] in Hrun.
  destruct Hrun as (ds1 & t1 & Ha1 & Hl1 & Hsh1).
  destruct (IH _ _ _ (adv_sim _ _ _ _ _ Ha1) Hl1 Hok) as (ds2 & t2 & Ha2 & Hsh2).
  destruct (run_ops interrupt_budget ops w1) as [rs w2]. cbn [fst snd] in *.
  exists (ds1 ++ ds2), t2. split; [by eapply advances_trans|].
  rewrite log_run_cons. unfold samples_of in *. rewrite omap_app.
  apply Forall2_app; [|done]. eapply Forall2_impl; [exact Hsh1|]. intros s l.
  apply shows_extends; [apply Ha1|apply Ha2|]. eapply advances_extends; [apply Ha1|done].
Qed.

(** *** The header *)

Lemma outputs_clock_origin origin :
  outputs (write_clock_origin interrupt_budget origin) (encode_clock_origin origin).
Proof.
  unfold write_clock_origin, encode_clock_origin. destruct origin as [o|]; [|apply outputs_varint].
  destruct (if 0 <=? wall_time o then (1, wall_time o) else (-1, - wall_time o)) as [sign d].
  do 4 (apply outputs_seq; [apply outputs_varint|]). apply outputs_varint.
Qed.

Lemma from_writer_sim inner start interval origin :
  content inner = [] ->
  exists w, from_writer_with_origin interrupt_budget inner start interval origin = (Ok tt, w) /\
    sim w tables_empty /\
    content (o_inner (w_writer w)) = encode_header (mkHeader start interval origin).
Proof.
  intros Hc. unfold from_writer_with_origin.
  assert (outputs (out_all interrupt_budget CURRENT_MAGIC;; out_varint interrupt_budget U64 start;;
            out_varint interrupt_budget U64 interval;; write_clock_origin interrupt_budget origin)
            (encode_header (mkHeader start interval origin))) as Hout.
  { apply outputs_seq; [apply outputs_all|]. do 2 (apply outputs_seq; [apply outputs_varint|]).
    apply outputs_clock_origin. }
  destruct (Hout (writer_init inner)) as (o & Hrun & [Hf Hcon _]); [done|].
  exists (set_writer o (writer_init inner)). split; [done|].
  split; [|cbn in Hcon |- *; by rewrite Hcon, Hc].
  split; try done; cbn; try (intros; by rewrite ?lookup_empty in *).
  intros [] key id Hl; cbn in Hl; by rewrite lookup_empty in Hl.
Qed.
End refinement.
