(* ===== verification/Failure.v ===== *)
(** * After a write error

    [SpoolOutput] keeps the first write error; the writer on top of it neither
    changes the file nor acknowledges a record afterwards. *)

From stdpp Require Import prelude gmap list numbers.
From S2P Require Import Prelude Varint Cursor Model Output Records Reader Writer RoundTrip.
#[local] Open Scope Z_scope.

(** A call that recorded nothing: it reports the failure, or the caller's own
    invalid input, or had no frames to write. *)
Definition unacknowledged (e : ErrorKind) (r : result (option Z)) : Prop :=
  r = Err e \/ r = Err InvalidInput \/ r = Ok None.

(** A [write_all] attempt of at most [fuel] writes, after a flush. *)
Definition write_after_flush {W} `{Write W} (fuel : nat) (bs : list Z) (o : SpoolOutput W)
    : result unit * SpoolOutput W :=
  write_all_loop fuel bs (output_flush o).2.

Lemma ok_or_cases {A} err (o : option A) : ok_or err o = Err err \/ exists a, ok_or err o = Ok a.
Proof. destruct o; [right; by eexists|by left]. Qed.

Section failure.
Context {W : Type} `{Write W} `{VarIntCrate} (interrupt_budget : nat).
(** A writer whose output failed. *)
Context (w : PerfSpoolWriter W) (e : ErrorKind).
Hypothesis Hfailed : o_failure (w_writer w) = Some e.
Hypothesis Hkind : e <> Interrupted.

Lemma out_all_failed bs : bs <> [] -> out_all interrupt_budget bs w = (Err e, w).
Proof.
  intros Hne. unfold out_all, out, io_zoom, write_all. destruct bs as [|b bs]; [done|].
  cbn [length Nat.add write_all_loop]. rewrite (output_write_failed _ _ e) by done.
  by destruct e, w.
Qed.

(** [m] changes nothing, and a success did not write. *)
Definition inert {A} (P : A -> Prop) (m : io (PerfSpoolWriter W) A) : Prop :=
  exists r, m w = (r, w) /\ (r = Err e \/ r = Err InvalidInput \/ exists a, r = Ok a /\ P a).
#[local] Abbreviation any := (λ _, True).

Lemma inert_bind {A B} P (Q : B -> Prop) (m : io (PerfSpoolWriter W) A)
    (k : A -> io (PerfSpoolWriter W) B) :
  inert P m -> (forall a, inert Q (k a)) -> inert Q (m ≫= k).
Proof.
  intros (r & Hm & Hr) Hk. unfold inert, mbind, io_mbind. rewrite Hm.
  destruct r as [a|e']; [by apply Hk|]. exists (Err e'). split; [done|].
  destruct Hr as [?|[?|[a [? _]]]]; simplify_eq; auto.
Qed.

Lemma inert_get {B} (Q : B -> Prop) (k : PerfSpoolWriter W -> io (PerfSpoolWriter W) B) :
  inert Q (k w) -> inert Q (io_get ≫= k).
Proof. done. Qed.

Lemma inert_ret {A} (P : A -> Prop) a : P a -> inert P (mret a).
Proof. intros Ha. exists (Ok a). eauto 6. Qed.

Lemma inert_lift {A} (r : result A) :
  r = Err InvalidInput \/ (exists a, r = Ok a) -> inert any (io_lift r).
Proof. intros Hr. exists r. split; [done|]. destruct Hr as [?|[a ?]]; eauto. Qed.

Lemma inert_write {A} (Q : A -> Prop) bs (k : io (PerfSpoolWriter W) A) :
  bs <> [] -> inert Q (out_all interrupt_budget bs;; k).
Proof.
  intros Hne. exists (Err e). split; [|auto]. by apply io_bind_err, out_all_failed.
Qed.

Lemma next_spool_id_inert n : inert any (io_lift (next_spool_id n) : io (PerfSpoolWriter W) Z).
Proof.
  apply inert_lift. unfold next_spool_id. destruct (u32_try_from _) as [id|]; [|auto].
  destruct (id =? NONE_U32); eauto.
Qed.

Lemma intern_thread_inert pid tid : inert any (intern_thread interrupt_budget pid tid).
Proof.
  apply inert_get. destruct (w_thread_cache w !! _); [by apply inert_ret|].
  apply (inert_bind any); [apply next_spool_id_inert|]. intros id. by apply inert_write.
Qed.

Lemma intern_frame_inert f : inert any (intern_frame interrupt_budget f).
Proof.
  apply inert_get. apply (inert_bind any).
  { apply inert_lift. unfold compact_frame. repeat case_decide; eauto. }
  intros key. destruct (get_cache _ w !! key); [by apply inert_ret|]. cbn zeta.
  destruct (_ =? _); [exists (Err InvalidInput); auto|]. by apply inert_write.
Qed.

Lemma intern_stack_loop_inert fs p : inert any (intern_stack_loop interrupt_budget fs p).
Proof.
  revert p. induction fs as [|f fs IH]; intros p; cbn [intern_stack_loop]; [by apply inert_ret|].
  apply (inert_bind any); [apply intern_frame_inert|]. intros id. apply inert_get.
  destruct (w_stack_cache w !! _); [apply IH|].
  apply (inert_bind any); [apply next_spool_id_inert|]. intros sid. by apply inert_write.
Qed.

Lemma write_sample_inert ts pid tid fs :
  inert (λ r, r = None) (write_sample_frames interrupt_budget ts pid tid fs).
Proof.
  unfold write_sample_frames. destruct fs as [|f fs]; [by apply inert_ret|].
  apply inert_get, (inert_bind any).
  { apply inert_lift. unfold checked_sample_timestamp_delta. apply ok_or_cases. }
  intros delta. apply (inert_bind any).
  { apply (inert_bind any); [apply intern_stack_loop_inert|]. intros p. by apply inert_ret. }
  intros [id|]; [|by apply inert_ret]. apply (inert_bind any); [apply intern_thread_inert|].
  intros th. by apply inert_write.
Qed.

Lemma run_op_failed op :
  exists r, run_op interrupt_budget op w = (r, w) /\
    match op with
    | WriteSample _ _ _ _ => r = Err e \/ r = Err InvalidInput \/ r = Ok None
    | _ => r = Err e
    end.
Proof.
  assert (forall bs (k : io (PerfSpoolWriter W) unit), bs <> [] ->
            ((out_all interrupt_budget bs;; k);; mret (M := io _) (None : option Z)) w = (Err e, w))
    as Hrefuse.
  { intros bs k Hne. apply io_bind_err, io_bind_err. by apply out_all_failed. }
  destruct op as [m|ts pid tid fs|ts pid flag|pid|id]; cbn [run_op];
    try (eexists; split; [by apply Hrefuse|done]).
  destruct (write_sample_inert ts pid tid fs) as (r & Hr & Hcase). exists r. split; [done|].
  destruct Hcase as [|[|(a & -> & ->)]]; auto.
Qed.
End failure.

Section theorems.
Context {W : Type} `{Write W} `{VarIntCrate} (interrupt_budget : nat).


(** C40: when the sink's [flush] is interrupted, [SpoolOutput] remembers the
    interruption as its terminal failure, and the standard [write_all] retries
    interrupted writes: no number of attempts ends it. *)
Theorem interrupted_flush_spins (o : SpoolOutput W) (sink : W) (b : Z) (bs : list Z) (fuel : nat) :
  o_failure o = None -> sink_flush (o_inner o) = (Err Interrupted, sink) ->
  write_after_flush fuel (b :: bs) o = (Err Diverged, (output_flush o).2).
Proof.
  intros Hf Hs. unfold write_after_flush, output_flush. rewrite Hs. destruct o as [sink0 n f]; cbn in Hf |- *. subst f.
  unfold output_remember. cbn.
  induction fuel as [|fuel IH]; [done|]. cbn [write_all_loop].
  by rewrite (output_write_failed _ _ Interrupted).
Qed.
End theorems.


(** A sink whose flush is interrupted, as a signal handler may do it. *)
#[local] Instance interrupted_sink : Write unit := {|
  sink_write bs := λ u, (Ok (length bs), u);
  sink_flush := λ u, (Err Interrupted, u);
|}.

Lemma interrupted_flush_spins_witness :
  write_after_flush 100 [0] (output_new tt) =
  (Err Diverged, (output_flush (output_new tt)).2).
Proof. apply (interrupted_flush_spins (output_new tt) tt 0 [] 100); reflexivity. Defined.
