(* ===== verification/Recovery.v ===== *)
(** * Whole recordings

    The theorems about a recording as a file: what a reader gets back from a
    complete spool, from a spool cut anywhere, and when the writer accepts
    every call. *)

From stdpp Require Import prelude gmap list numbers sorting.
From S2P Require Import Prelude Varint Cursor Model Output Records Contexts Reader Writer.
From S2P Require Import Stream Snapshot Tables Simulation Interning Recording RoundTrip.
#[local] Open Scope Z_scope.

(** ** Streams and their tables *)

Lemma stream_timestamp t rs ds t' :
  stream t rs ds t' ->
  last_timestamp_ns t' = from_option s_timestamp_ns (last_timestamp_ns t) (list.last (samples_of ds)).
Proof.
  induction 1 as [|t r rs d ds t1 t2 Hr Ha Hs IH]; [done|]. rewrite IH.
  assert (last_timestamp_ns t1 =
          from_option s_timestamp_ns (last_timestamp_ns t) (list.last (samples_of [d]))) as ->.
  { destruct d; cbn in Ha; try (injection Ha as <-; done).
    all: apply fmap_Some in Ha as ([] & _ & ->); done. }
  change (d :: ds) with ([d] ++ ds). unfold samples_of at 2 3. rewrite omap_app, last_app.
  unfold samples_of. by destruct (list.last (omap _ ds)).
Qed.

(** Tables grow by at most one entry per record. *)
Definition entries (t : tables) : nat :=
  Nat.max (length (frames t)) (Nat.max (length (stack_nodes t)) (length (threads t))).

Lemma stream_entries t rs ds t' : stream t rs ds t' -> (entries t' <= entries t + length rs)%nat.
Proof.
  induction 1 as [|t r rs d ds t1 t2 Hr Ha Hs IH]; [cbn; lia|].
  assert (entries t1 <= S (entries t))%nat; [|cbn; lia]. unfold entries.
  destruct d; cbn in Ha; simplify_eq/=; rewrite ?length_app; cbn; try lia.
  all: apply fmap_Some in Ha as ([] & _ & ->); cbn; lia.
Qed.

Lemma stream_samples_valid t rs ds t' :
  stream t rs ds t' -> tables_wf t ->
  Forall (λ s, 0 <= s_stack_id s < Z.of_nat (length (stack_nodes t'))) (samples_of ds).
Proof.
  induction 1 as [|t r rs d ds t1 t2 Hr Ha Hs IH]; intros Hwf; [constructor|].
  destruct (apply_decoded_ok _ _ _ Hwf Hr) as (t1' & Ha' & Hwf' & He). simplify_eq.
  specialize (IH Hwf'). destruct (stream_extends _ _ _ _ Hs Hwf') as [_ He2].
  destruct Hr; cbn; try done. constructor; [|done]. cbn.
  pose proof (prefix_length _ _ (ext_nodes _ _ He)). pose proof (prefix_length _ _ (ext_nodes _ _ He2)). lia.
Qed.

Lemma stack_frames_total t pid id :
  tables_wf t -> 0 <= id < Z.of_nat (length (stack_nodes t)) -> exists v, stack_frames t pid id = Some v.
Proof.
  intros Hwf Hid. destruct (lookup_lt_is_Some_2 (stack_nodes t) (Z.to_nat id)) as [n Hn]; [lia|].
  destruct (tables_denote _ _ _ Hwf Hn) as [gs Hgs]. rewrite Z2Nat.id in Hgs by lia.
  destruct (denotes_walk _ _ _ _ Hwf Hgs Hn) as [Hw _].
  unfold stack_frames, stack_frame_refs. rewrite Hn. cbn [sf_remaining sf_current]. rewrite Hw. by eexists.
Qed.

Lemma stream_app_inv t rs1 ds1 tk :
  stream t rs1 ds1 tk -> forall rs2 ds2 t', stream t (rs1 ++ rs2) (ds1 ++ ds2) t' ->
  stream tk rs2 ds2 t'.
Proof.
  induction 1 as [|t r rs d ds t1 t2 Hr Ha Hs IH]; intros rs2 ds2 t' Hst; [done|].
  inversion Hst; simplify_eq. by apply IH.
Qed.

(** A sample that can be shown in a prefix is shown as in the whole. *)
Lemma shows_prefix t t' s l :
  tables_wf t -> tables_wf t' -> extends t t' -> 0 <= s_stack_id s < Z.of_nat (length (stack_nodes t)) ->
  shows t' s l -> shows t s l.
Proof.
  intros Hwf Hwf' He Hid (H1 & H2 & H3 & Hf). repeat split; try done.
  destruct (stack_frames_total t (s_process_id s) _ Hwf Hid) as [v Hv].
  pose proof (stack_frames_extends _ _ _ _ _ Hwf Hwf' He Hv). congruence.
Qed.

Lemma samples_of_take k ds : samples_of (take k ds) = take (length (samples_of (take k ds))) (samples_of ds).
Proof.
  rewrite <- (take_drop k ds) at 3. unfold samples_of at 3. rewrite omap_app.
  fold (samples_of (take k ds)). by rewrite take_app_length.
Qed.

Section recordings.
Context {W : Type} `{ReliableSink W} `{VarIntLaws} (interrupt_budget : nat).

(** The file of a recording: header, then the calls. *)
Definition record_all (inner : W) (h : header) (ops : list write_op)
    : list (result (option Z)) * list Z :=
  let '(rs, w) := run_ops interrupt_budget ops
    (from_writer_with_origin interrupt_budget inner (h_start_timestamp_us h)
       (h_sample_interval_ns h) (h_clock_origin h)).2 in
  (rs, content (o_inner (w_writer w))).

Lemma record_all_stream inner h ops :
  content inner = [] -> ops_ok [] ops ->
  exists rs ds t, stream tables_empty rs ds t /\ tables_wf t /\
    (record_all inner h ops).2 = spool_file h rs /\
    Forall2 (shows t) (samples_of ds) (log_run [] ops (record_all inner h ops).1).
Proof.
  intros Hc Hok. unfold record_all.
  destruct (from_writer_sim interrupt_budget inner (h_start_timestamp_us h) (h_sample_interval_ns h)
              (h_clock_origin h) Hc) as (w0 & -> & Hs0 & Hc0). cbn [snd].
  destruct (run_ops_sim interrupt_budget ops [] w0 tables_empty Hs0) as (ds & t & [Hsim Hst] & Hsh);
    [by split|done|]. destruct Hst as (rs & Hst & Hcon).
  destruct (run_ops interrupt_budget ops w0) as [res w]. cbn [fst snd] in *.
  exists rs, ds, t. split; [done|]. split; [apply Hsim|]. split; [|done].
  rewrite Hcon, Hc0. by destruct h.
Qed.

Lemma roundtrip_cut inner h ops n :
  content inner = [] -> header_ok h -> ops_ok [] ops ->
  mappable (record_all inner h ops).2 ->
  (length (encode_header h) <= n <= length (record_all inner h ops).2)%nat ->
  exists s k, open_spool (take n (record_all inner h ops).2) Retain = Ok s /\
    op_start_timestamp_us s = h_start_timestamp_us h /\
    op_sample_interval_ns s = h_sample_interval_ns h /\
    op_clock_origin s = h_clock_origin h /\
    op_sample_count s = Z.of_nat (length (op_samples s)) /\
    Forall2 (shows (op_tables s)) (op_samples s)
      (take k (log_run [] ops (record_all inner h ops).1)) /\
    (n = length (record_all inner h ops).2 ->
       op_truncated_tail s = false /\
       Forall2 (shows (op_tables s)) (op_samples s) (log_run [] ops (record_all inner h ops).1)).
Proof.
  intros Hc Hh Hok Hm Hn. destruct (record_all_stream inner h ops Hc Hok) as (rs & ds & t & Hst & Hwf & Hfile & Hsh).
  rewrite Hfile in *. unfold spool_file in *. rewrite length_app in *.
  rewrite take_app, take_ge by lia. set (n' := (n - length (encode_header h))%nat).
  destruct (open_spool_cut h rs ds t n' Hh Hst Hm) as (tk & Hk & Hopen); [unfold n'; lia|].
  set (j := complete_records n' rs) in *. rewrite Hopen.
  destruct (stream_extends _ _ _ _ Hk tables_wf_empty) as [Hwfk _].
  assert (stream tk (drop j rs) (drop j ds) t) as Hrest.
  { pose proof Hst as Hsplit. rewrite <- (take_drop j rs), <- (take_drop j ds) in Hsplit.
    eapply stream_app_inv; [exact Hk|exact Hsplit]. }
  destruct (stream_extends _ _ _ _ Hrest Hwfk) as [_ He].
  pose proof (stream_samples_valid _ _ _ _ Hk tables_wf_empty) as Hvalid.
  set (k := length (samples_of (take j ds))) in *.
  assert (Forall2 (shows tk) (samples_of (take j ds))
            (take k (log_run [] ops (record_all inner h ops).1))) as Hshk.
  { pose proof (Forall2_take _ _ _ k Hsh) as Ht. 
    rewrite <- (samples_of_take j ds : _ = take k _) in Ht.
    clear -Ht Hvalid Hwf Hwfk He. induction Ht; [constructor|].
    apply Forall_cons in Hvalid as [? ?]. constructor; [|by auto]. eapply (shows_prefix tk t); done. }
  eexists _, k. split; [done|]. do 5 (split; [done|]). intros Hall.
  destruct (complete_records_all rs) as [E1 E2].
  assert (n' = length (encode_records rs)) as Hn' by (unfold n'; lia).
  assert (j = length ds) as Hj by (unfold j; rewrite Hn', E1; symmetry; by eapply stream_length).
  rewrite Hn', E2. split; [done|]. cbn. unfold k in Hshk. rewrite Hj, firstn_all in Hshk |- *.
  rewrite take_ge in Hshk; [done|]. apply Forall2_length in Hsh. lia.
Qed.
(** *** The writer accepts every call of a file below 4 GiB *)

Lemma exhausted_entries (w : PerfSpoolWriter W) t :
  sim w t -> exhausted w -> u32_max <= Z.of_nat (entries t).
Proof.
  intros Hs. unfold exhausted, entries.
  rewrite (sim_next _ _ Hs), (sim_stack_size _ _ Hs), (sim_thread_size _ _ Hs). lia.
Qed.

Definition timestamp_i64 (op : write_op) : Prop :=
  match op with WriteSample ts _ _ _ => ts <= i64_max | _ => True end.

Definition accepted (r : result (option Z)) : Prop :=
  match r with Ok _ => True | Err _ => False end.

Lemma advances_entries (w : PerfSpoolWriter W) t ds w' t' :
  advances w t ds w' t' -> (entries t <= length (content (o_inner (w_writer w))))%nat ->
  (entries t' <= length (content (o_inner (w_writer w'))))%nat.
Proof.
  intros [_ (rs & Hst & ->)] Hle. rewrite length_app. pose proof (stream_entries _ _ _ _ Hst).
  pose proof (encode_records_length rs). lia.
Qed.

Lemma advances_timestamp ms op r (w : PerfSpoolWriter W) t ds w' t' :
  advances w t ds w' t' -> Forall2 (shows t') (samples_of ds) (log_run ms [op] [r]) ->
  timestamp_i64 op -> last_timestamp_ns t <= i64_max -> last_timestamp_ns t' <= i64_max.
Proof.
  intros [_ (rs & Hst & _)] Hsh Hts Hl. rewrite (stream_timestamp _ _ _ _ Hst).
  destruct (samples_of ds) as [|s l] eqn:Hd; [done|]. apply Forall2_cons_inv_l in Hsh as (x & l' & Hs & Hr & Hb).
  destruct op; try done. destruct r as [[id|]|]; try done. cbn in Hb. injection Hb as <- <-.
  apply Forall2_nil_inv_r in Hr as ->. cbn. destruct Hs as [-> _]. done.
Qed.

Lemma run_ops_accepted ops : forall ms (w : PerfSpoolWriter W) t,
  sim w t -> log_rel ms t -> ops_ok ms ops -> Forall timestamp_i64 ops ->
  last_timestamp_ns t <= i64_max ->
  (entries t <= length (content (o_inner (w_writer w))))%nat ->
  Z.of_nat (length (content (o_inner (w_writer (run_ops interrupt_budget ops w).2)))) < u32_max ->
  Forall accepted (run_ops interrupt_budget ops w).1.
Proof.
  induction ops as [|op ops IH]; intros ms w t Hs Hl Hok Hts Hlt He Hsz; cbn [run_ops] in *; [constructor|].
  destruct Hok as [Hop Hok]. apply Forall_cons in Hts as [Ht Hts].
  destruct (run_op_sim interrupt_budget ms op w t Hs Hl Hop) as [Hrun Hres].
  destruct (run_op interrupt_budget op w) as [r w1]. cbn [fst snd] in *.
  destruct Hrun as (ds1 & t1 & Ha1 & Hl1 & Hsh1). pose proof (adv_sim _ _ _ _ _ Ha1) as Hs1.
  pose proof (advances_entries _ _ _ _ _ Ha1 He) as He1.
  destruct (run_ops_sim interrupt_budget ops _ _ _ Hs1 Hl1 Hok) as (ds2 & t2 & [_ (rs2 & _ & Hcon)] & _).
  specialize (IH _ _ _ Hs1 Hl1 Hok Hts (advances_timestamp _ _ _ _ _ _ _ _ Ha1 Hsh1 Ht Hlt) He1).
  destruct (run_ops interrupt_budget ops w1) as [rs w2]. cbn [fst snd] in *.
  rewrite Hcon, length_app in Hsz. constructor; [|by apply IH; rewrite Hcon, length_app].
  destruct r as [|e]; [done|]. destruct Hres as [_ Href].
  destruct op as [|ts ? ? ?| | |]; cbn in Href; try done. destruct Href as [Hd|Hx].
  - apply Hd. destruct Hop as [Hu _]. cbn in Ht. pose proof (sim_ts_range _ _ Hs). word_lia.
  - apply (exhausted_entries _ _ Hs1) in Hx. lia.
Qed.
End recordings.

(** ** Theorems *)

Section theorems.
Context {W : Type} `{ReliableSink W} `{VarIntLaws} (interrupt_budget : nat).

(** C3: a recording written through [PerfSpoolWriter] and opened again gives
    back its header and exactly the samples whose write was acknowledged, in
    order, each with its timestamp, process, thread and its frames from leaf
    to root, every frame with the mapping that was active when the sample was
    written: frame, stack and thread interning, id numbering, delta encoding
    and the frame-to-module contexts are invisible. *)
Theorem recording_roundtrip (inner : W) (h : header) (ops : list write_op) :
  content inner = [] -> header_ok h -> ops_ok [] ops ->
  mappable (record_all interrupt_budget inner h ops).2 ->
  exists s, open_spool (record_all interrupt_budget inner h ops).2 Retain = Ok s /\
    op_truncated_tail s = false /\
    op_start_timestamp_us s = h_start_timestamp_us h /\
    op_sample_interval_ns s = h_sample_interval_ns h /\
    op_clock_origin s = h_clock_origin h /\
    Forall2 (shows (op_tables s)) (op_samples s)
      (log_run [] ops (record_all interrupt_budget inner h ops).1).
Proof.
  intros Hc Hh Hok Hm.
  destruct (record_all_stream interrupt_budget inner h ops Hc Hok) as (rs & _ & _ & _ & _ & Hfile & _).
  destruct (roundtrip_cut interrupt_budget inner h ops
              (length (record_all interrupt_budget inner h ops).2) Hc Hh Hok Hm)
    as (s & k & Hopen & H1' & H2' & H3' & _ & _ & Hall).
  { rewrite Hfile. unfold spool_file. rewrite length_app. lia. }
  rewrite firstn_all in Hopen. destruct (Hall eq_refl). exists s. repeat split; done.
Qed.


(** C22: on a sink that works, a recording whose timestamps fit an [i64] and
    whose file stays below 4 GiB has every call acknowledged: the writer
    fails only when a delta or an id does not fit the format. *)
Theorem recording_accepted (inner : W) (h : header) (ops : list write_op) :
  content inner = [] -> ops_ok [] ops -> Forall timestamp_i64 ops ->
  Z.of_nat (length (record_all interrupt_budget inner h ops).2) < u32_max ->
  Forall accepted (record_all interrupt_budget inner h ops).1.
Proof.
  intros Hc Hok Hts Hsz. unfold record_all in *.
  destruct (from_writer_sim interrupt_budget inner (h_start_timestamp_us h) (h_sample_interval_ns h)
              (h_clock_origin h) Hc) as (w0 & Hw & Hs0 & Hc0). rewrite Hw in *. cbn [snd] in *.
  pose proof (run_ops_accepted interrupt_budget ops [] w0 tables_empty Hs0) as Hacc.
  destruct (run_ops interrupt_budget ops w0) as [res w]. cbn [fst snd] in *.
  apply Hacc; [by split|done|done|done|cbn; lia|done].
Qed.
End theorems.

(** ** A concrete recording *)

(** A program, a sample in it, its unmapping, and the same address again. *)
Definition example_module : ModuleRecord :=
  mkModule 0 (Process 42) 4096 8192 512 77 8 1 0 [47; 97] None.
Definition example_ops : list write_op :=
  [WriteModule example_module;
   WriteSample 1000 42 43 [mkFrame None 5000 5000 User; mkFrame (Some 0) 600 4184 User];
   DeactivateModule 0;
   WriteSample 900 42 43 [mkFrame None 5000 5000 User; truncated_stack_marker];
   WritePythonRuntime 1000 42 true;
   DeactivateProcess 42].
Definition example_header : header := mkHeader 5 1000000 (Some (mkOrigin 7 (-3))).

Lemma example_module_ok : module_ok example_module.
Proof. split; cbn; unfold is_pid; word_lia. Qed.

Lemma example_ops_ok : ops_ok [] example_ops.
Proof.
  cbn. unfold is_pid.
  repeat match goal with |- _ /\ _ => split | |- Forall _ _ => constructor end; try word_lia; try done.
  cbn. split; [word_lia|]. split; [word_lia|]. exists example_module. cbn. repeat split; word_lia.
Qed.

Lemma example_header_ok : header_ok example_header.
Proof. split; cbn; try word_lia. split; vm_compute; split; done. Qed.

Lemma empty_sink : content ([] : list Z) = [].
Proof. reflexivity. Qed.

Lemma example_mappable : mappable (record_all 0 ([] : list Z) example_header example_ops).2.
Proof. vm_compute. done. Qed.

Lemma recording_roundtrip_witness :
  exists s, open_spool (record_all 0 ([] : list Z) example_header example_ops).2 Retain = Ok s /\
    length (op_samples s) = 2%nat.
Proof.
  destruct (recording_roundtrip 0 ([] : list Z) example_header example_ops empty_sink example_header_ok
              example_ops_ok example_mappable) as (s & Hopen & _ & _ & _ & _ & Hsh).
  exists s. split; [exact Hopen|]. apply Forall2_length in Hsh. rewrite Hsh. vm_compute. reflexivity.
Defined.


Lemma recording_accepted_witness :
  Forall accepted (record_all 0 ([] : list Z) example_header example_ops).1.
Proof.
  apply (recording_accepted 0 ([] : list Z) example_header example_ops).
  - reflexivity.
  - apply example_ops_ok.
  - repeat constructor; vm_compute; congruence.
  - vm_compute. reflexivity.
Defined.
