(* ===== verification/Robust.v ===== *)
(** * Arbitrary input

    [open_spool] on any bytes at all: it terminates, never panics, and what it
    accepts is well-formed enough for every later lookup to succeed. *)

From stdpp Require Import prelude gmap list numbers sorting.
From S2P Require Import Prelude Varint Cursor Model Records Contexts Reader Stream Tables.
From S2P Require Import Recovery.
#[local] Open Scope Z_scope.

Definition graceful (e : ErrorKind) : Prop := e <> Panicked /\ e <> Diverged.

(** A read moves forward inside the file and fails only with an error value. *)
Definition moves {A} (p : io MmapSpoolCursor A) (Q : A -> Prop) : Prop :=
  forall c, (position c <= length (mmap c))%nat ->
    let '(r, c') := p c in
    mmap c' = mmap c /\ (position c <= position c' <= length (mmap c))%nat /\
    match r with Ok a => Q a | Err e => graceful e end.

Create HintDb moves discriminated.
#[export] Hint Constants Opaque : moves.

Section moves.
Context `{VarIntLaws}.

Lemma moves_bind {A B} (p : io MmapSpoolCursor A) (k : A -> io MmapSpoolCursor B) P Q :
  moves p P -> (forall a, P a -> moves (k a) Q) -> moves (p ≫= k) Q.
Proof.
  intros Hp Hk c Hc. unfold mbind, io_mbind. specialize (Hp c Hc).
  destruct (p c) as [[a|e] c1]; [|done]. destruct Hp as (Hm & Hle & Ha).
  assert (position c1 <= length (mmap c1))%nat as Hc1 by (rewrite Hm; lia).
  specialize (Hk a Ha c1 Hc1). destruct (k a c1) as [r c2]. destruct Hk as (Hm2 & Hle2 & Hr).
  rewrite Hm in Hle2. split; [congruence|]. split; [lia|done].
Qed.

Lemma moves_ret {A} (a : A) (Q : A -> Prop) : Q a -> moves (mret a) Q.
Proof. intros Ha c Hc. cbn. split; [done|]. split; [lia|done]. Qed.

Lemma moves_fail {A} e (Q : A -> Prop) : graceful e -> moves (io_fail e) Q.
Proof. intros He c Hc. cbn. split; [done|]. split; [lia|done]. Qed.

Lemma moves_lift {A} (r : result A) (Q : A -> Prop) :
  match r with Ok a => Q a | Err e => graceful e end -> moves (io_lift r) Q.
Proof. intros Hr c Hc. cbn. split; [done|]. split; [lia|done]. Qed.

Lemma moves_ok_or {A} e (o : option A) (Q : A -> Prop) :
  graceful e -> (forall a, o = Some a -> Q a) -> moves (io_lift (ok_or e o)) Q.
Proof. intros He Ho. apply moves_lift. destruct o; [by apply Ho|done]. Qed.

Lemma moves_gets {A} (f : MmapSpoolCursor -> A) : moves (io_gets f) (λ _, True).
Proof. intros c Hc. cbn. repeat split; lia. Qed.

Lemma moves_impl {A} (p : io MmapSpoolCursor A) (P Q : A -> Prop) :
  moves p P -> (forall a, P a -> Q a) -> moves p Q.
Proof.
  intros Hp HPQ c Hc. specialize (Hp c Hc). destruct (p c) as [[a|e] c']; [|done].
  destruct Hp as (? & ? & ?). auto.
Qed.

Lemma moves_varint vt : moves (read_varint vt) (in_range vt).
Proof.
  intros c Hc. rewrite read_varint_is_slow. unfold read_varint_slow.
  destruct (decode_var vt (drop (position c) (mmap c))) as [[v n]|] eqn:Hd.
  - apply decode_var_bounds in Hd as [Hv Hn]. rewrite length_drop in Hn. cbn. split; [done|]. split; [lia|done].
  - destruct (10 <=? _)%nat; cbn; repeat split; try lia; done.
Qed.

Lemma moves_range len : 0 <= len -> moves (read_bytes_range len) (λ _, True).
Proof.
  intros Hl c Hc. unfold read_bytes_range, checked_add_u64.
  destruct (Z.leb_spec (Z.of_nat (position c) + len) u64_max); [|cbn; repeat split; lia || done].
  rewrite Z.gtb_ltb. destruct (Z.ltb_spec (Z.of_nat (length (mmap c))) (Z.of_nat (position c) + len));
    cbn; repeat split; lia || done.
Qed.

Lemma moves_exact len : 0 <= len -> moves (read_exact_spool len) (λ _, True).
Proof. intros. eapply moves_bind; [by apply moves_range|]. intros. apply moves_gets. Qed.

Lemma moves_flag : moves read_flag (λ _, True).
Proof. eapply moves_bind; [by apply moves_exact|]. intros. by apply moves_ret. Qed.

Lemma moves_check_id n : moves (check_id n) (λ _, True).
Proof.
  eapply moves_bind; [apply moves_varint|]. intros id _.
  destruct (_ =? _); [by apply moves_ret|by apply moves_fail].
Qed.

Lemma check_bounded_index_inv i limit :
  match check_bounded_index i limit with
  | Ok a => a = i /\ i < Z.of_nat limit
  | Err e => graceful e
  end.
Proof. unfold check_bounded_index. rewrite Z.geb_leb. destruct (Z.leb_spec (Z.of_nat limit) i); done. Qed.

Lemma bounded_id_index_inv raw limit :
  match bounded_id_index raw limit with
  | Ok a => a = raw /\ 0 <= raw < Z.of_nat limit
  | Err e => graceful e
  end.
Proof.
  unfold bounded_id_index, u32_try_from. destruct (_ && _) eqn:Hb; [|done].
  apply andb_true_iff in Hb. pose proof (check_bounded_index_inv raw limit).
  destruct (check_bounded_index raw limit); [|done]. lia.
Qed.

Lemma moves_id_within limit : moves (read_id_within limit) (λ i, 0 <= i < Z.of_nat limit).
Proof.
  eapply moves_bind; [apply moves_varint|]. intros raw _. apply moves_lift.
  pose proof (bounded_id_index_inv raw limit). destruct (bounded_id_index raw limit); [lia|done].
Qed.

Lemma moves_index_within limit : moves (read_index_within limit) (λ i, 0 <= i < Z.of_nat limit).
Proof.
  eapply moves_bind; [apply moves_varint|]. intros raw Hr. apply moves_lift.
  pose proof (check_bounded_index_inv raw limit). unfold bounded_index.
  destruct (check_bounded_index raw limit); [|done]. cbn in Hr. word_lia.
Qed.

Lemma moves_process_id : moves read_process_id (λ _, True).
Proof.
  eapply moves_bind; [apply moves_varint|]. intros raw _. by apply moves_ok_or.
Qed.

Lemma moves_pid : moves read_pid is_pid.
Proof.
  eapply moves_bind; [apply moves_process_id|]. intros raw _. apply moves_ok_or; [done|].
  intros pid Hp. by apply Pid_new_spec in Hp as [_ ?].
Qed.
End moves.

#[export] Hint Resolve moves_varint moves_flag moves_check_id moves_id_within moves_index_within
  moves_process_id moves_pid moves_gets : moves.

(** Step over the next read of a reader. *)
Ltac move_field x Hx := eapply moves_bind; [eauto with moves; fail|intros x Hx; cbn beta in Hx |- *].

Section decode.
Context `{VarIntLaws}.

Lemma moves_symbols_loop n m acc : moves (read_symbols_loop n m acc) (λ _, True).
Proof.
  revert acc. induction n as [|n IH]; intros acc; cbn [read_symbols_loop]; [by apply moves_ret|].
  move_field start Hs. move_field stop He. destruct (_ || _); [by apply moves_fail|].
  move_field len Hl. destruct (_ >? _); [by apply moves_fail|].
  eapply moves_bind; [apply moves_range; cbn in Hl; word_lia|intros range _].
  move_field name Hn. destruct (negb _); [by apply moves_fail|].
  destruct (symbols_unsorted _ _); [by apply moves_fail|apply IH].
Qed.

Lemma moves_symbols m : moves (read_symbols m) (λ _, True).
Proof.
  move_field count Hc. destruct (_ || _); [by apply moves_fail|apply moves_symbols_loop].
Qed.

Lemma owner_from_wire_ok pid flag :
  match owner_from_wire pid flag with Ok o => owner_ok o | Err e => graceful e end.
Proof.
  unfold owner_from_wire. destruct flag; [done|]. destruct (Pid_new pid) as [p|] eqn:Hp; [|done].
  by apply Pid_new_spec in Hp as [_ ?].
Qed.

Lemma moves_module n tag :
  moves (read_module_record n tag) (λ m, owner_ok (m_owner m) /\ m_id m = Z.of_nat n).
Proof.
  unfold read_module_record. move_field u Hu.
  eapply moves_bind; [apply (moves_ok_or _ _ (λ id, id = Z.of_nat n)); [done|]|intros id ->].
  { unfold u32_try_from. intros a. case_match; [|done]. by intros [= <-]. }
  move_field pid Hpid. move_field start Hs. move_field stop He. move_field offset Ho.
  move_field inode Hi. move_field maj Hmaj.
  eapply moves_bind; [by apply (moves_ok_or _ _ (λ _, True))|intros major _].
  move_field mino Hmin. eapply moves_bind; [by apply (moves_ok_or _ _ (λ _, True))|intros minor _].
  move_field generation Hg. move_field flag Hf.
  eapply moves_bind; [apply moves_lift, owner_from_wire_ok|intros owner Hown; cbn beta].
  move_field len Hl. eapply moves_bind; [apply moves_range; cbn in Hl; word_lia|intros range _].
  move_field path Hp. cbn zeta. destruct (tag =? REC_JIT_MODULE); [|by apply moves_ret].
  eapply moves_bind; [apply moves_symbols|]. intros symbols _. by apply moves_ret.
Qed.

Lemma expand_frame_graceful ms tag ip :
  match expand_frame ms tag ip with
  | Ok f => exists tag ip, expand_frame ms tag ip = Ok f
  | Err e => graceful e
  end.
Proof.
  destruct (expand_frame ms tag ip) as [f|e] eqn:Hf; [by eauto|]. revert Hf. unfold expand_frame.
  destruct (tag =? _); [destruct (ip =? 0); by intros [= <-]|].
  destruct (Z.land tag 1 =? 0); [|done].
  pose proof (bounded_id_index_inv (Z.shiftr tag 1) (length ms)) as Hb.
  destruct (bounded_id_index _ _) as [i|]; [|by intros [= <-]]. destruct Hb as [-> Hb].
  destruct (lookup_lt_is_Some_2 ms (Z.to_nat (Z.shiftr tag 1))) as [m ->]; [lia|].
  destruct (checked_sub_u64 ip (m_file_offset m)), (checked_sub_u64 (m_end m) (m_start m)); try (by intros [= <-]).
  destruct (_ >=? _); by intros [= <-].
Qed.

Lemma moves_stack_node t :
  tables_wf t ->
  moves (read_stack_node (stack_nodes t) (length (frames t))) (node_ok t (length (stack_nodes t))).
Proof.
  intros Hwf. unfold read_stack_node. cbn zeta. move_field u Hu. move_field raw Hraw.
  eapply (moves_bind _ _ (λ p, match p with Some id => 0 <= id < Z.of_nat (length (stack_nodes t))
                                        | None => True end)).
  { destruct (raw =? NONE_U32); [by apply moves_ret|]. apply moves_lift.
    pose proof (bounded_id_index_inv raw (length (stack_nodes t))).
    destruct (bounded_id_index _ _); [lia|done]. }
  intros prefix Hp. move_field frame_id Hf.
  eapply (moves_bind _ _ (λ d, node_ok t (length (stack_nodes t))
                                 (mkStackNode ((λ id, id + 1) <$> prefix) frame_id d)));
    [apply moves_lift|intros d Hd; by apply moves_ret].
  destruct prefix as [id|]; [|by split].
  destruct (lookup_lt_is_Some_2 (stack_nodes t) (Z.to_nat id)) as [parent Hl]; [lia|].
  rewrite Hl. cbn. split; [done|]. cbn. split; [lia|]. exists parent. by rewrite Z.add_simpl_r.
Qed.

Lemma moves_sample ts n last :
  moves (read_sample ts n last) (λ s, 0 <= s_stack_id s < Z.of_nat n).
Proof.
  unfold read_sample. move_field delta Hd.
  eapply moves_bind; [by apply (moves_ok_or _ _ (λ _, True))|intros timestamp _].
  move_field th Hth. destruct (lookup_lt_is_Some_2 ts (Z.to_nat th)) as [x ->]; [lia|].
  eapply (moves_bind _ _ (λ _, True)); [by apply moves_lift|intros x' _]. move_field s Hs. by apply moves_ret.
Qed.

(** Whatever the bytes, a decoded record may be applied. *)
Lemma moves_payload tag t : tables_wf t -> moves (decode_payload tag t) (decoded_ok t).
Proof.
  intros Hwf. unfold decode_payload.
  destruct (_ || _). { eapply moves_bind; [apply moves_module|]. intros m Hm. by apply moves_ret. }
  destruct (_ =? _).
  { eapply (moves_bind _ _ (λ f, exists tag ip, expand_frame (modules t) tag ip = Ok f));
      [|intros f Hf; by apply moves_ret]. unfold read_frame.
    move_field u Hu. move_field tg Ht. move_field ip Hi. apply moves_lift, expand_frame_graceful. }
  destruct (_ =? _). { eapply moves_bind; [by apply moves_stack_node|]. intros n Hn. by apply moves_ret. }
  destruct (_ =? _).
  { eapply (moves_bind _ _ (λ _, True)); [|intros th _; by apply moves_ret]. unfold read_thread.
    move_field u Hu. move_field pid Hp. move_field raw Hr.
    eapply moves_bind; [by apply (moves_ok_or _ _ (λ _, True))|intros tid _]. by apply moves_ret. }
  destruct (_ =? _). { eapply moves_bind; [apply moves_sample|]. intros s Hs. by apply moves_ret. }
  destruct (_ =? _).
  { eapply (moves_bind _ _ (λ _, True)); [|intros p _; by apply moves_ret]. unfold read_python_runtime.
    move_field ts Hts. move_field pid Hp. move_field flag Hf. by apply moves_ret. }
  destruct (_ =? _). { move_field pid Hp. by apply moves_ret. }
  destruct (_ =? _). { move_field i Hi. apply moves_ret. cbn. lia. }
  by apply moves_fail.
Qed.
End decode.

(** ** The whole reader *)

Section robust.
Context `{VarIntLaws} (storage : SampleStorage) (range_limit : Z).

(** Every retained sample has its stack. *)
Definition open_wf (st : open_state) : Prop :=
  tables_wf (os_tables st) /\
  Forall (λ s, 0 <= s_stack_id s < Z.of_nat (length (stack_nodes (os_tables st)))) (os_samples st).

Lemma open_wf_tables t st :
  open_wf st -> tables_wf t -> extends (os_tables st) t -> open_wf (with_tables t st).
Proof.
  intros [_ Hs] Hwf He. split; [done|]. eapply Forall_impl; [exact Hs|]. cbn. intros s Hs'.
  pose proof (prefix_length _ _ (ext_nodes _ _ He)). lia.
Qed.

Lemma commit_open_wf st d :
  open_wf st -> decoded_ok (os_tables st) d ->
  match commit_open storage st d with Ok st' => open_wf st' | Err e => graceful e end.
Proof.
  intros Hst Hd. destruct (apply_decoded_wf _ _ (proj1 Hst) Hd) as (t' & Ha & Hwf & He).
  unfold commit_open. destruct d; try (rewrite Ha; by apply open_wf_tables); [|done].
  destruct (checked_add_u64 _ 1); [|done]. cbn in Ha. injection Ha as <-. split; [done|]. cbn.
  destruct Hst as [_ Hs]. case_decide; [|done]. apply Forall_app. by split; [|constructor].
Qed.

Lemma index_sample_wf start stop st : open_wf st -> open_wf (index_sample range_limit start stop st).
Proof.
  intros [Hw Hs]. unfold index_sample, open_wf. destruct (os_scan_start st), (os_ranges st); try done.
  cbn. repeat case_match; done.
Qed.

Lemma open_loop_robust fuel : forall st c,
  open_wf st -> (position c <= length (mmap c))%nat -> (length (mmap c) - position c < fuel)%nat ->
  match open_loop fuel storage range_limit st c with
  | Ok (st', _) => open_wf st'
  | Err e => graceful e
  end.
Proof.
  induction fuel as [|fuel IH]; intros st c Hst Hc Hf; [lia|]. cbn [open_loop]. unfold read_tag.
  destruct (Nat.eqb_spec (position c) (length (mmap c))); [done|].
  destruct (mmap c !! position c) as [tag|] eqn:Hl; [|done].
  pose proof (lookup_lt_Some _ _ _ Hl). set (c1 := set_position (S (position c)) c).
  rewrite parse_record_is_decode. unfold mbind, io_mbind.
  pose proof (moves_payload tag _ (proj1 Hst) c1) as Hm. cbn in Hm. specialize (Hm ltac:(lia)).
  destruct (decode_payload tag (os_tables st) c1) as [[d|e] c2]; destruct Hm as (Hmm & Hp & Hr).
  2: { case_decide; [|done]. by destruct (at_eof c2). }
  pose proof (commit_open_wf st d Hst Hr) as Hcommit. unfold io_lift.
  destruct (commit_open storage st d) as [st'|e].
  2: { case_decide; [|done]. by destruct (at_eof c2). }
  apply IH; [|rewrite Hmm; lia|rewrite Hmm; lia].
  destruct (tag =? REC_SAMPLE); [by apply index_sample_wf|done].
Qed.

Lemma moves_clock_origin : moves read_clock_origin (λ _, True).
Proof.
  unfold read_clock_origin. move_field tag Ht. destruct (tag =? 0); [by apply moves_ret|].
  destruct (negb _); [by apply moves_fail|]. move_field mono Hm. move_field sign Hs.
  move_field secs Hsec. move_field nanos Hn. destruct (_ <=? _); [by apply moves_fail|]. cbn zeta.
  eapply (moves_bind _ _ (λ _, True)); [apply moves_lift|intros wall _; by apply moves_ret].
  destruct (sign =? 1), (sign =? -1); try done;
    (destruct (system_time_checked _); [done|by split]).
Qed.

Lemma moves_header : moves read_header (λ _, True).
Proof.
  unfold read_header. eapply (moves_bind _ _ (λ _, True)); [|intros u _].
  { eapply moves_bind; [by apply moves_exact|]. intros magic _.
    case_decide; [by apply moves_ret|by apply moves_fail]. }
  move_field start Hs. move_field interval Hi.
  eapply moves_bind; [apply moves_clock_origin|]. intros o _. by apply moves_ret.
Qed.

(** C13: on every file, malformed ones included, opening a spool terminates
    without a panic, in an error value or in well-formed tables: dense module
    ids, an owner index that lists each owner's modules, frames that name
    existing modules, acyclic stack nodes of known depth, and samples whose
    whole stack can be walked. *)
Theorem open_spool_robust (bytes : list Z) :
  match open_spool_with_range_limit bytes storage range_limit with
  | Ok s => tables_wf (op_tables s) /\
      Forall (λ x, is_Some (stack_frames (op_tables s) (s_process_id x) (s_stack_id x))) (op_samples s)
  | Err e => graceful e
  end.
Proof.
  unfold open_spool_with_range_limit.
  pose proof (moves_header (mkCursor bytes 0)) as Hh. cbn in Hh. specialize (Hh ltac:(lia)).
  destruct (read_header (mkCursor bytes 0)) as [[[[start interval] origin]|e] c]; [|by apply Hh].
  destruct Hh as (Hm & Hp & _).
  pose proof (open_loop_robust (S (length bytes)) (open_start storage) c) as Hl.
  rewrite Hm in Hl. specialize (Hl (conj tables_wf_empty (Forall_nil_2 _)) ltac:(lia) ltac:(lia)).
  destruct (open_loop _ _ _ _ _) as [[st tr]|e]; [|done]. destruct Hl as [Hwf Hs].
  split; [done|]. cbn. eapply Forall_impl; [exact Hs|]. intros s Hid.
  destruct (stack_frames_total (os_tables st) (s_process_id s) _ Hwf Hid). by eexists.
Qed.
End robust.

Lemma open_spool_robust_witness :
  match open_spool_with_range_limit (encode_var U64 7) Retain 4 with
  | Ok s => tables_wf (op_tables s) /\
      Forall (λ x, is_Some (stack_frames (op_tables s) (s_process_id x) (s_stack_id x))) (op_samples s)
  | Err e => graceful e
  end.
Proof. apply (open_spool_robust Retain 4 (encode_var U64 7)). Defined.
