(* ===== verification/ModuleIndex.v ===== *)
(** * The module index

    [ModuleIndexGroup] of [src/spool/modules.rs]: the mappings of one owner,
    sorted by address for a binary search, or by age when some of them overlap.
    Either way a lookup finds the newest mapping that contains the address. *)

From stdpp Require Import prelude list numbers sorting.
From S2P Require Import Prelude Model Contexts.
#[local] Open Scope Z_scope.

Record ModuleIndexEntry := mkEntry {
  e_start : Z;
  e_end : Z;
  e_file_offset : Z;
  e_id : Z;
}.

Definition entry_from (m : ModuleRecord) : ModuleIndexEntry :=
  mkEntry (m_start m) (m_end m) (m_file_offset m) (m_id m).

Record ModuleIndexGroup := mkGroup {
  g_entries : list ModuleIndexEntry;
  g_has_overlaps : bool;
}.

Definition group_empty : ModuleIndexGroup := mkGroup [] false.

(** The two sort keys of [finish]. *)
Definition by_address (a b : ModuleIndexEntry) : Prop :=
  e_start a < e_start b \/ (e_start a = e_start b /\ e_id a <= e_id b).
Definition by_age (a b : ModuleIndexEntry) : Prop := e_id a <= e_id b.
#[global] Instance by_address_dec : RelDecision by_address.
Proof. intros a b. unfold by_address. apply _. Defined.
#[global] Instance by_age_dec : RelDecision by_age.
Proof. intros a b. unfold by_age. apply _. Defined.

(** [windows(2).any(..)]. *)
Fixpoint any_overlap (entries : list ModuleIndexEntry) : bool :=
  match entries with
  | a :: ((b :: _) as rest) => (e_end a >? e_start b) || any_overlap rest
  | _ => false
  end.

Definition group_finish (entries : list ModuleIndexEntry) : ModuleIndexGroup :=
  let entries := merge_sort by_address entries in
  let has_overlaps := any_overlap entries in
  mkGroup (if has_overlaps then merge_sort by_age entries else entries) has_overlaps.

Definition group_rebuild (modules : list ModuleRecord) : ModuleIndexGroup :=
  group_finish (entry_from <$> modules).

Definition entry_contains (address : Z) (e : ModuleIndexEntry) : bool :=
  (e_start e <=? address) && (address <? e_end e).

(** [Iterator::rfind]. *)
Definition rfind {A} (p : A -> bool) (l : list A) : option A :=
  find_map (λ x, if p x then Some x else None) (reverse l).

Definition group_find (g : ModuleIndexGroup) (address : Z) : option ModuleIndexEntry :=
  if g_has_overlaps g then rfind (entry_contains address) (g_entries g)
  else
    match partition_point (λ e, e_start e <=? address) (g_entries g) with
    | O => None
    | S idx =>
        entry ← g_entries g !! idx;
        if address <? e_end entry then Some entry else None
    end.

(** ** The newest mapping of an address *)

Definition newest (entries : list ModuleIndexEntry) (address : Z) (r : option ModuleIndexEntry)
    : Prop :=
  match r with
  | Some e => e ∈ entries /\ entry_contains address e = true /\
      forall e', e' ∈ entries -> entry_contains address e' = true -> e_id e' <= e_id e
  | None => forall e, e ∈ entries -> entry_contains address e = false
  end.

Lemma newest_perm entries entries' address r :
  entries ≡ₚ entries' -> newest entries address r -> newest entries' address r.
Proof.
  intros Hp. destruct r as [e|]; cbn.
  - intros (Hin & Hc & Hmax). split; [by rewrite <- Hp|]. split; [done|].
    intros e'. rewrite <- Hp. apply Hmax.
  - intros Hn e. rewrite <- Hp. apply Hn.
Qed.

(** *** Searching from the back *)

Lemma rfind_spec {A} (p : A -> bool) l :
  match rfind p l with
  | Some x => exists l1 l2, l = l1 ++ x :: l2 /\ p x = true /\ Forall (λ y, p y = false) l2
  | None => Forall (λ y, p y = false) l
  end.
Proof.
  unfold rfind. induction l as [|x l IH] using rev_ind; [constructor|].
  rewrite reverse_snoc. cbn. destruct (p x) eqn:Hx.
  - exists l, []. split; [done|]. split; [done|constructor].
  - destruct (find_map _ (reverse l)) as [y|].
    + destruct IH as (l1 & l2 & -> & Hy & Hl2). exists l1, (l2 ++ [x]).
      rewrite <- app_assoc. split; [done|]. split; [done|]. apply Forall_app. split; [done|by repeat constructor].
    + apply Forall_app. split; [done|by repeat constructor].
Qed.

Lemma rfind_newest entries address :
  StronglySorted by_age entries -> newest entries address (rfind (entry_contains address) entries).
Proof.
  intros Hs. pose proof (rfind_spec (entry_contains address) entries) as Hr.
  destruct (rfind _ _) as [e|]; cbn.
  - destruct Hr as (l1 & l2 & -> & He & Hl2). split; [set_solver|]. split; [done|].
    intros e' [Hin|[->|Hin]%elem_of_cons]%elem_of_app Hc; [|done|].
    + apply StronglySorted_app in Hs as (Hcross & _ & _). apply Hcross; [done|]. apply list_elem_of_here.
    + rewrite list.Forall_forall in Hl2. rewrite Hl2 in Hc; done.
  - by rewrite list.Forall_forall in Hr.
Qed.

(** *** Binary search *)

(** Consecutive entries do not overlap and none is empty. *)
Lemma any_overlap_sorted entries :
  any_overlap entries = false -> Forall (λ e, e_start e < e_end e) entries ->
  StronglySorted (λ a b, e_end a <= e_start b) entries.
Proof.
  induction entries as [|a entries IH]; intros Ho Hne; [constructor|].
  apply Forall_cons in Hne as [Ha Hne].
  destruct entries as [|b rest]; [by repeat constructor|]. cbn in Ho.
  apply orb_false_iff in Ho as [Hab Ho]. rewrite Z.gtb_ltb in Hab. apply Z.ltb_ge in Hab.
  specialize (IH Ho Hne). constructor; [done|]. constructor; [done|].
  apply StronglySorted_inv in IH as [_ Hb]. apply Forall_cons in Hne as [Hb' _].
  eapply Forall_impl; [exact Hb|]. cbn. lia.
Qed.

Lemma partition_find_newest entries address :
  StronglySorted (λ a b, e_end a <= e_start b) entries ->
  Forall (λ e, e_start e < e_end e) entries ->
  newest entries address
    (match partition_point (λ e, e_start e <=? address) entries with
     | O => None
     | S idx => entry ← entries !! idx; if address <? e_end entry then Some entry else None
     end).
Proof.
  intros Hs. induction Hs as [|a entries Hs IH Ha]; intros Hne; [by intros e ?%elem_of_nil|].
  apply Forall_cons in Hne as [Hae Hne]. specialize (IH Hne). cbn [partition_point].
  rewrite list.Forall_forall in Ha.
  destruct (Z.leb_spec (e_start a) address) as [Hle|Hgt].
  2: { cbn. intros e [->|He]%elem_of_cons; unfold entry_contains.
       - by rewrite (proj2 (Z.leb_gt _ _)).
       - specialize (Ha _ He). by rewrite (proj2 (Z.leb_gt _ _)) by lia. }
  destruct (partition_point _ entries) as [|idx] eqn:Hp.
  - cbn. destruct (Z.ltb_spec address (e_end a)); cbn.
    + split; [apply list_elem_of_here|]. split; [unfold entry_contains; lia|].
      intros e' [->|He]%elem_of_cons Hc; [done|]. rewrite (IH _ He) in Hc. done.
    + intros e [->|He]%elem_of_cons; [unfold entry_contains; lia|]. by apply IH.
  - replace ((a :: entries) !! S idx) with (entries !! idx) by done.
    assert (exists e, entries !! idx = Some e /\ e_start e <= address) as (e & He & Hea).
    { clear -Hp. revert idx Hp. induction entries as [|b entries IH]; intros idx Hp; cbn in Hp; [done|].
      destruct (Z.leb_spec (e_start b) address); [|done]. injection Hp as <-.
      destruct (partition_point _ entries) as [|k]; [by exists b|]. by apply IH. }
    assert (entry_contains address a = false) as Hno.
    { unfold entry_contains. apply list_elem_of_lookup_2 in He. specialize (Ha _ He).
      rewrite (proj2 (Z.ltb_ge address _)) by lia. apply andb_false_r. }
    rewrite He in *. cbn in IH |- *. destruct (Z.ltb_spec address (e_end e)); cbn in IH |- *.
    + destruct IH as (Hin & Hc & Hmax). split; [by apply list_elem_of_further|]. split; [done|].
      intros e' [->|He']%elem_of_cons Hc'; [congruence|by apply Hmax].
    + intros e' [->|He']%elem_of_cons; [done|by apply IH].
Qed.

#[global] Instance by_address_total : Total by_address.
Proof. intros a b. unfold by_address. lia. Qed.
#[global] Instance by_address_trans : Transitive by_address.
Proof. intros a b c. unfold by_address. lia. Qed.
#[global] Instance by_age_total : Total by_age.
Proof. intros a b. unfold by_age. lia. Qed.
#[global] Instance by_age_trans : Transitive by_age.
Proof. intros a b c. unfold by_age. lia. Qed.

Lemma group_finish_perm entries : g_entries (group_finish entries) ≡ₚ entries.
Proof.
  unfold group_finish. cbn. destruct (any_overlap _).
  - etrans; apply merge_sort_Permutation.
  - apply merge_sort_Permutation.
Qed.

Lemma group_find_newest entries address :
  Forall (λ e, e_start e < e_end e) entries ->
  newest entries address (group_find (group_finish entries) address).
Proof.
  intros Hne. eapply newest_perm; [apply group_finish_perm|].
  unfold group_find, group_finish. cbn.
  destruct (any_overlap (merge_sort by_address entries)) eqn:Ho.
  - apply rfind_newest. apply (StronglySorted_merge_sort by_age).
  - assert (Forall (λ e, e_start e < e_end e) (merge_sort by_address entries)) as Hne'
      by (by rewrite merge_sort_Permutation).
    apply partition_find_newest; [|done]. by apply any_overlap_sorted.
Qed.

(** ** Theorems *)

(** For any set of non-empty mappings, given in any order, the finished
    index finds the newest mapping that contains an address: the binary search
    used when no two neighbours overlap and the backwards scan by id used
    otherwise are the same function, so partially replaced kernel or user
    ranges resolve to their latest owner. *)
Theorem module_index_finds_newest (modules : list ModuleRecord) (address : Z) :
  Forall (λ m, m_start m < m_end m) modules ->
  newest (entry_from <$> modules) address (group_find (group_rebuild modules) address).
Proof. intros Hm. apply group_find_newest. rewrite Forall_fmap. exact Hm. Qed.

Lemma module_index_finds_newest_witness :
  newest (entry_from <$> [mkModule 3 KernelOwner 0 100 0 0 0 0 0 [] None;
                          mkModule 5 KernelOwner 50 60 7 0 0 0 0 [] None]) 55
    (Some (mkEntry 50 60 7 5)).
Proof.
  apply (module_index_finds_newest
    [mkModule 3 KernelOwner 0 100 0 0 0 0 0 [] None; mkModule 5 KernelOwner 50 60 7 0 0 0 0 [] None] 55).
  repeat constructor.
Defined.
