(* ===== verification/ModuleTable.v ===== *)
(** * The recorder's module table

    [ModuleTable] of [src/spool/modules.rs]: which modules are mapped now, per
    process and for the kernel, the ids under which they were written, and the
    lookup index that is rebuilt lazily.  The table writes to a sink; the class
    [ModuleSink] is what it calls, [PerfSpoolWriter] an instance.

    A [BTreeSet<(u64, u32)>] is a [gset] of pairs read in order by
    [btree_iter]; an [FxHashMap] is a [gmap], whose order is never used. *)

From stdpp Require Import prelude countable gmap list numbers sorting.
From S2P Require Import Prelude Model Contexts ModuleIndex Varint Output Writer.
#[local] Open Scope Z_scope.

(** ** Data *)

Record ModuleIdentity := mkIdentity {
  i_owner : ModuleOwner;
  i_start : Z;
  i_end : Z;
  i_file_offset : Z;
  i_inode : Z;
  i_device_major : Z;
  i_device_minor : Z;
  i_inode_generation : Z;
  i_path : list Z;
}.

#[global] Instance ModuleIdentity_eq_dec : EqDecision ModuleIdentity.
Proof. solve_decision. Defined.
#[global] Program Instance ModuleIdentity_countable : Countable ModuleIdentity :=
  inj_countable'
    (λ i, (i_owner i, i_start i, i_end i, i_file_offset i, i_inode i, i_device_major i,
           i_device_minor i, i_inode_generation i, i_path i))
    (λ '(o, s, e, f, n, j, k, g, p), mkIdentity o s e f n j k g p) _.
Next Obligation. by intros []. Qed.

Definition identity_from (m : ModuleRecord) : ModuleIdentity :=
  mkIdentity (m_owner m) (m_start m) (m_end m) (m_file_offset m) (m_inode m) (m_device_major m)
    (m_device_minor m) (m_inode_generation m) (m_path m).

Record ModuleIndex := mkIndex {
  x_by_process : gmap Z ModuleIndexGroup;
  x_kernel : ModuleIndexGroup;
}.

Record ModuleTable := mkTable {
  active : gmap Z ModuleRecord;
  next_id : nat;
  active_by_key : gmap ModuleIdentity Z;
  active_by_process : gmap Z (gset (Z * Z));
  index : ModuleIndex;
  dirty_processes : gset Z;
  kernel_index_dirty : bool;
}.

Definition table_default : ModuleTable :=
  mkTable ∅ 0 ∅ ∅ (mkIndex ∅ group_empty) ∅ false.

Record ModuleActivation := mkActivation {
  a_module : ModuleRecord;
  a_source_module_id : option Z;
}.

Record ModuleUpdate := mkUpdate {
  u_retired : list ModuleRecord;
  u_active : list ModuleActivation;
  u_mapping_changed : bool;
}.

Definition update_default : ModuleUpdate := mkUpdate [] [] false.

Record ClonedProcessModules := mkCloned {
  c_update : ModuleUpdate;
  c_inherited_unwinder_layout : bool;
}.

(** ** Ordered sets *)

Definition pair_le (a b : Z * Z) : Prop := a.1 < b.1 \/ (a.1 = b.1 /\ a.2 <= b.2).
#[global] Instance pair_le_dec : RelDecision pair_le.
Proof. intros a b. unfold pair_le. apply _. Defined.

Definition btree_iter (s : gset (Z * Z)) : list (Z * Z) := merge_sort pair_le (elements s).

Definition process_set (t : ModuleTable) (process_id : Z) : gset (Z * Z) :=
  default ∅ (active_by_process t !! process_id).

(** ** Queries *)

(** [self.active[&id]]. *)
Definition active_at (t : ModuleTable) (id : Z) : result ModuleRecord :=
  ok_or Panicked (active t !! id).

(** [Iterator::find] and [Vec::retain] with a closure that indexes [active]. *)
Fixpoint find_active (t : ModuleTable) (p : ModuleRecord -> bool) (ids : list Z)
    : result (option Z) :=
  match ids with
  | [] => Ok None
  | id :: ids =>
      match active_at t id with
      | Err e => Err e
      | Ok known => if p known then Ok (Some id) else find_active t p ids
      end
  end.
Fixpoint retain_active (t : ModuleTable) (p : ModuleRecord -> bool) (ids : list Z)
    : result (list Z) :=
  match ids with
  | [] => Ok []
  | id :: ids =>
      match active_at t id, retain_active t p ids with
      | Err e, _ => Err e
      | _, Err e => Err e
      | Ok known, Ok ids => Ok (if p known then id :: ids else ids)
      end
  end.

Definition same_mapping_except_inode_generation (left right : ModuleRecord) : bool :=
  bool_decide (m_owner left = m_owner right) && (m_start left =? m_start right) &&
  (m_end left =? m_end right) && (m_file_offset left =? m_file_offset right) &&
  (m_inode left =? m_inode right) && (m_device_major left =? m_device_major right) &&
  (m_device_minor left =? m_device_minor right) && bool_decide (m_path left = m_path right).

(** The closure of [find_compatible_active] on a known module. *)
Definition compatible (module known : ModuleRecord) : bool :=
  negb (m_inode_generation known =? 0) && same_mapping_except_inode_generation known module.

(** [Iterator::min] of the ids. *)
Definition min_id (ids : list Z) : option Z :=
  match ids with [] => None | id :: ids => Some (foldr Z.min id ids) end.

Definition find_compatible_active (t : ModuleTable) (module : ModuleRecord) : result (option Z) :=
  match active_by_key t !! identity_from module with
  | Some id => Ok (Some id)
  | None =>
      if negb (m_inode_generation module =? 0) then Ok None
      else match module_pid module with
           | Some pid =>
               match active_by_process t !! pid with
               | None => Ok None
               | Some modules =>
                   find_active t (compatible module)
                     (snd <$> filter (λ p, p.1 = m_start module) (btree_iter modules))
               end
           | None =>
               Ok (min_id (fst <$> filter (λ p, compatible module p.2 = true)
                                     (map_to_list (active t))))
           end
  end.

Definition module_ranges_overlap (left right : ModuleRecord) : bool :=
  (m_start left <? m_end right) && (m_start right <? m_end left).

Definition with_range (start stop file_offset : Z) (m : ModuleRecord) : ModuleRecord :=
  mkModule 0 (m_owner m) start stop file_offset (m_inode m) (m_device_major m)
    (m_device_minor m) (m_inode_generation m) (m_path m) (m_jit_symbols m).

Definition split_module_around (old replacement : ModuleRecord) : list ModuleRecord :=
  (if m_start old <? m_start replacement
   then [with_range (m_start old) (Z.min (m_start replacement) (m_end old)) (m_file_offset old) old]
   else []) ++
  (if m_end replacement <? m_end old
   then let start := Z.max (m_end replacement) (m_start old) in
        [with_range start (m_end old)
           (saturating_add_u64 (m_file_offset old) (start - m_start old)) old]
   else []).

Fixpoint take_while {A} (p : A -> bool) (l : list A) : list A :=
  match l with [] => [] | x :: l => if p x then x :: take_while p l else [] end.

Definition overlapping_module_ids (t : ModuleTable) (process_id : Z) (module : ModuleRecord)
    : result (list Z) :=
  match active_by_process t !! process_id with
  | None => Ok []
  | Some modules =>
      let sorted := btree_iter modules in
      let after := take_while (λ p, p.1 <? m_end module)
                     (filter (λ p, m_start module < p.1) sorted) in
      match list.last (filter (λ p, p.1 <= m_start module) sorted) with
      | None => Ok (snd <$> after)
      | Some (_, id) =>
          match active_at t id with
          | Err e => Err e
          | Ok known => Ok ((if m_end known >? m_start module then [id] else []) ++ (snd <$> after))
          end
      end
  end.

Definition process_module_ids (t : ModuleTable) (process_id : Z) : list Z :=
  match active_by_process t !! process_id with
  | Some modules => snd <$> btree_iter modules
  | None => []
  end.

(** [process_modules_match]: every snapshot module is a different active one. *)
Fixpoint all_matched (t : ModuleTable) (snapshot : list ModuleRecord) (matched : gset Z)
    : result bool :=
  match snapshot with
  | [] => Ok true
  | module :: snapshot =>
      match find_compatible_active t module with
      | Err e => Err e
      | Ok None => Ok false
      | Ok (Some id) => if decide (id ∈ matched) then Ok false
                        else all_matched t snapshot ({[id]} ∪ matched)
      end
  end.
Definition process_modules_match (t : ModuleTable) (process_id : Z) (snapshot : list ModuleRecord)
    : result bool :=
  if negb (size (process_set t process_id) =? length snapshot)%nat then Ok false
  else all_matched t snapshot ∅.

(** ** Updates of the table alone *)

Definition mark_dirty (process_id : Z) (t : ModuleTable) : ModuleTable :=
  mkTable (active t) (next_id t) (active_by_key t) (active_by_process t) (index t)
    ({[process_id]} ∪ dirty_processes t) (kernel_index_dirty t).

Definition remove_process_active (module : ModuleRecord) (t : ModuleTable) : ModuleTable :=
  match module_pid module with
  | None => t
  | Some pid =>
      match active_by_process t !! pid with
      | None => t
      | Some ids =>
          let ids := ids ∖ {[(m_start module, m_id module)]} in
          mkTable (active t) (next_id t) (active_by_key t)
            (if decide (ids = ∅) then delete pid (active_by_process t)
             else <[pid := ids]> (active_by_process t))
            (index t) (dirty_processes t) (kernel_index_dirty t)
      end
  end.

(** [self.active.remove(&id)] and [self.active_by_key.remove(..)]. *)
Definition forget (id : Z) (known : ModuleRecord) (t : ModuleTable) : ModuleTable :=
  mkTable (delete id (active t)) (next_id t) (delete (identity_from known) (active_by_key t))
    (active_by_process t) (index t) (dirty_processes t) (kernel_index_dirty t).

(** The table part of [intern_without_overlap], after the record is written. *)
Definition activate (id : Z) (module : ModuleRecord) (t : ModuleTable) : ModuleTable :=
  mkTable (<[id := module]> (active t)) (S (next_id t))
    (<[identity_from module := id]> (active_by_key t))
    (match module_pid module with
     | Some pid => <[pid := {[(m_start module, m_id module)]} ∪ process_set t pid]>
                     (active_by_process t)
     | None => active_by_process t
     end)
    (index t)
    (match module_pid module with
     | Some pid => {[pid]} ∪ dirty_processes t
     | None => dirty_processes t
     end)
    (match module_pid module with Some _ => kernel_index_dirty t | None => true end).

Definition bump_next_id (t : ModuleTable) : ModuleTable :=
  mkTable (active t) (S (next_id t)) (active_by_key t) (active_by_process t) (index t)
    (dirty_processes t) (kernel_index_dirty t).

Definition drop_process (process_id : Z) (t : ModuleTable) : ModuleTable :=
  mkTable (active t) (next_id t) (active_by_key t) (delete process_id (active_by_process t))
    (index t) ({[process_id]} ∪ dirty_processes t) (kernel_index_dirty t).

(** ** The sink *)

Class ModuleSink (S : Type) := {
  sink_module : ModuleRecord -> io S unit;
  sink_deactivate_process : Z -> io S unit;
  sink_deactivate_one : Z -> io S unit;
}.

#[global] Instance spool_module_sink {W} `{Write W} `{VarIntCrate} (interrupt_budget : nat)
    : ModuleSink (PerfSpoolWriter W) := {|
  sink_module := write_module interrupt_budget;
  sink_deactivate_process := write_module_deactivation interrupt_budget;
  sink_deactivate_one := write_module_deactivation_one interrupt_budget;
|}.

(** ** Operations *)

Section operations.
Context {S : Type} `{ModuleSink S}.
#[local] Abbreviation op := (io (ModuleTable * S)).

Definition table : op ModuleTable := io_gets fst.
Definition update_table (f : ModuleTable -> ModuleTable) : op unit := io_modify (λ s, (f s.1, s.2)).
Definition to_sink {A} (m : io S A) : op A := io_zoom snd (λ w s, (s.1, w)) m.

Definition record_pinned_module (module : ModuleRecord) : op ModuleRecord :=
  t ← table;
  id ← io_lift (next_spool_id (next_id t));
  let module := with_id id module in
  to_sink (sink_module module);;
  update_table bump_next_id;;
  to_sink (sink_deactivate_one id);;
  mret module.

Definition intern_without_overlap (module : ModuleRecord) : op Z :=
  t ← table;
  match active_by_key t !! identity_from module with
  | Some id => mret id
  | None =>
      id ← io_lift (next_spool_id (next_id t));
      let module := with_id id module in
      to_sink (sink_module module);;
      update_table (activate id module);;
      mret id
  end.

(** The two loops of [apply_module]. *)
Fixpoint retire_all (ids : list Z) : op (list ModuleRecord) :=
  match ids with
  | [] => mret []
  | id :: ids =>
      t ← table;
      match active t !! id with
      | None => retire_all ids
      | Some known =>
          update_table (λ t, remove_process_active known (forget id known t));;
          to_sink (sink_deactivate_one id);;
          retired ← retire_all ids;
          mret (known :: retired)
      end
  end.
Fixpoint intern_survivors (survivors : list (Z * ModuleRecord)) : op (list ModuleActivation) :=
  match survivors with
  | [] => mret []
  | (source_id, survivor) :: survivors =>
      id ← intern_without_overlap survivor;
      t ← table;
      module ← io_lift (active_at t id);
      activations ← intern_survivors survivors;
      mret (mkActivation module (Some source_id) :: activations)
  end.

Fixpoint collect_survivors (t : ModuleTable) (module : ModuleRecord) (ids : list Z)
    : result (list (Z * ModuleRecord)) :=
  match ids with
  | [] => Ok []
  | id :: ids =>
      match active_at t id, collect_survivors t module ids with
      | Err e, _ => Err e
      | _, Err e => Err e
      | Ok old, Ok rest => Ok (((λ m, (id, m)) <$> split_module_around old module) ++ rest)
      end
  end.

(** The user-mapping branch: retire every overlap, keep its fragments. *)
Definition replace_overlaps (pid : Z) (module : ModuleRecord)
    : op (list ModuleRecord * list ModuleActivation) :=
  t ← table;
  candidates ← io_lift (overlapping_module_ids t pid module);
  overlapping ← io_lift (retain_active t (λ known, module_ranges_overlap known module) candidates);
  match overlapping with
  | [] => mret ([], [])
  | _ =>
      survivors ← io_lift (collect_survivors t module overlapping);
      update_table (mark_dirty pid);;
      retired ← retire_all overlapping;
      activations ← intern_survivors survivors;
      mret (retired, activations)
  end.

Definition apply_module (module : ModuleRecord) : op ModuleUpdate :=
  if m_end module <=? m_start module then mret update_default
  else
    t ← table;
    known ← io_lift (find_compatible_active t module);
    match known with
    | Some id =>
        module ← io_lift (active_at t id);
        mret (mkUpdate [] [mkActivation module None] false)
    | None =>
        replaced ← match module_pid module with
                   | Some pid => replace_overlaps pid module
                   | None => mret ([], [])
                   end;
        id ← intern_without_overlap module;
        t ← table;
        module ← io_lift (active_at t id);
        mret (mkUpdate replaced.1 (replaced.2 ++ [mkActivation module None]) true)
    end.

(** The first loop of [deactivate_process_modules]. *)
Fixpoint forget_all (ids : list Z) : op unit :=
  match ids with
  | [] => mret tt
  | id :: ids =>
      t ← table;
      match active t !! id with
      | None => io_fail InvalidData
      | Some module => update_table (forget id module);; forget_all ids
      end
  end.

(** Returns what is passed to the [retire] callback. *)
Definition deactivate_process_modules (process_id : Z) : op (list Z) :=
  t ← table;
  match active_by_process t !! process_id with
  | None => mret []
  | Some active_ids =>
      let ids := snd <$> btree_iter active_ids in
      update_table (drop_process process_id);;
      forget_all ids;;
      to_sink (sink_deactivate_process process_id);;
      mret ids
  end.

(** [ModuleRecord { id: 0, owner: ModuleOwner::Process(child_pid), ..source }]. *)
Definition inherit (child_pid : Z) (m : ModuleRecord) : ModuleRecord :=
  mkModule 0 (Process child_pid) (m_start m) (m_end m) (m_file_offset m) (m_inode m)
    (m_device_major m) (m_device_minor m) (m_inode_generation m) (m_path m) (m_jit_symbols m).

(** [activation.source_module_id = Some(source_id)] on the last activation. *)
Definition tag_last (source_id : Z) (activations : list ModuleActivation)
    : result (list ModuleActivation) :=
  match list.last activations with
  | None => Err InvalidData
  | Some a => Ok (<[pred (length activations) := mkActivation (a_module a) (Some source_id)]>
                    activations)
  end.

Fixpoint clone_loop (child_pid : Z) (child_has_modules : bool) (source_ids : list Z)
    (combined : ModuleUpdate) : op ModuleUpdate :=
  match source_ids with
  | [] => mret combined
  | source_id :: source_ids =>
      t ← table;
      source ← io_lift (active_at t source_id);
      let inherited := inherit child_pid source in
      combined ←
        (if child_has_modules then
           update ← apply_module inherited;
           activations ← io_lift (tag_last source_id (u_active update));
           mret (mkUpdate (u_retired combined ++ u_retired update)
                   (u_active combined ++ activations)
                   (u_mapping_changed combined || u_mapping_changed update))
         else
           id ← intern_without_overlap inherited;
           t ← table;
           module ← io_lift (active_at t id);
           mret (mkUpdate (u_retired combined)
                   (u_active combined ++ [mkActivation module (Some source_id)]) true));
      clone_loop child_pid child_has_modules source_ids combined
  end.

Definition clone_process_modules (parent_process_id child_process_id : Z)
    : op ClonedProcessModules :=
  child_pid ← io_lift (ok_or InvalidInput (Pid_try_from_i32 child_process_id));
  t ← table;
  let child_has_modules := bool_decide (is_Some (active_by_process t !! child_process_id)) in
  update ← clone_loop child_pid child_has_modules (process_module_ids t parent_process_id)
             update_default;
  mret (mkCloned update (negb child_has_modules)).
End operations.

(** ** Resolving addresses *)

Definition index_find (x : ModuleIndex) (process_id address : Z) (mode : FrameMode)
    : option ModuleIndexEntry :=
  match mode with
  | User => group ← x_by_process x !! process_id; group_find group address
  | Kernel => group_find (x_kernel x) address
  | TruncatedStackMarker => None
  end.

(** One dirty process; [None] is a panic of [self.active[id]]. *)
Definition rebuild_process (t : ModuleTable) (process_id : Z) (groups : gmap Z ModuleIndexGroup)
    : option (gmap Z ModuleIndexGroup) :=
  match active_by_process t !! process_id with
  | None => Some (delete process_id groups)
  | Some modules =>
      modules ← mapM (λ p, active t !! p.2) (btree_iter modules);
      Some (<[process_id := group_rebuild modules]> groups)
  end.

Definition rebuild_dirty_index_groups (t : ModuleTable) : option ModuleTable :=
  groups ← foldr (λ pid groups, g ← groups; rebuild_process t pid g)
             (Some (x_by_process (index t))) (elements (dirty_processes t));
  let kernel := if kernel_index_dirty t
                then group_rebuild (filter (λ m, module_is_kernel m = true)
                                      (snd <$> map_to_list (active t)))
                else x_kernel (index t) in
  Some (mkTable (active t) (next_id t) (active_by_key t) (active_by_process t)
          (mkIndex groups kernel) ∅ false).

Definition rebuild_index_if_needed (t : ModuleTable) : option ModuleTable :=
  if negb (bool_decide (dirty_processes t = ∅)) || kernel_index_dirty t
  then rebuild_dirty_index_groups t else Some t.

Definition resolve_frame (process_id abs_ip : Z) (mode : FrameMode) (t : ModuleTable)
    : option (FrameRecord * ModuleTable) :=
  t ← rebuild_index_if_needed t;
  let found :=
    entry ← index_find (index t) process_id abs_ip mode;
    offset ← checked_sub_u64 abs_ip (e_start entry);
    ip ← checked_add_u64 offset (e_file_offset entry);
    Some (Some (e_id entry), ip) in
  let '(module_id, file_relative_ip) := default (None, abs_ip) found in
  Some (mkFrame module_id file_relative_ip abs_ip mode, t).

Definition covers_user_pc (process_id address : Z) (t : ModuleTable)
    : option (bool * ModuleTable) :=
  t ← rebuild_index_if_needed t;
  Some (bool_decide (is_Some (index_find (index t) process_id address User)), t).
