(* ===== verification/AddressSpace.v ===== *)
(** * Address spaces

    The invariant of the module table and its meaning: per process, a map from
    addresses to the file bytes mapped there. *)

From stdpp Require Import prelude gmap list numbers sorting.
From S2P Require Import Prelude Model Contexts ModuleIndex ModuleTable Varint Output Writer.
#[local] Open Scope Z_scope.

(** ** The invariant *)

Definition owned_by (t : ModuleTable) (o : ModuleOwner) (m : ModuleRecord) : Prop :=
  active t !! m_id m = Some m /\ m_owner m = o.

(** A lookup group built from exactly the active modules of an owner. *)
Definition group_current (t : ModuleTable) (o : ModuleOwner) (g : ModuleIndexGroup) : Prop :=
  exists ms, g = group_rebuild ms /\ forall m, m ∈ ms <-> owned_by t o m.

Definition disjoint (a b : ModuleRecord) : Prop := m_end a <= m_start b \/ m_end b <= m_start a.

Record table_wf (t : ModuleTable) : Prop := {
  tw_id id m : active t !! id = Some m -> m_id m = id /\ 0 <= id < Z.of_nat (next_id t);
  tw_range id m : active t !! id = Some m -> m_start m < m_end m;
  tw_key k id : active_by_key t !! k = Some id <->
    exists m, active t !! id = Some m /\ identity_from m = k;
  tw_process pid s id : (s, id) ∈ process_set t pid <->
    exists m, active t !! id = Some m /\ m_owner m = Process pid /\ m_start m = s;
  tw_process_ne pid ids : active_by_process t !! pid = Some ids -> ids <> ∅;
  tw_disjoint i j m n : active t !! i = Some m -> active t !! j = Some n -> i <> j ->
    m_owner m = m_owner n -> module_is_kernel m = false -> disjoint m n;
  tw_index pid : pid ∉ dirty_processes t ->
    match x_by_process (index t) !! pid with
    | Some g => group_current t (Process pid) g
    | None => forall m, ~ owned_by t (Process pid) m
    end;
  tw_kernel : kernel_index_dirty t = false -> group_current t KernelOwner (x_kernel (index t));
}.

Lemma table_default_wf : table_wf table_default.
Proof.
  split; unfold process_set; cbn; try (intros; by rewrite ?lookup_empty in *).
  - intros k id. rewrite lookup_empty. split; [done|]. intros (m & Hm & _). by rewrite lookup_empty in Hm.
  - intros pid s id. rewrite lookup_empty. split; [by intros ?%elem_of_empty|].
    intros (m & Hm & _). by rewrite lookup_empty in Hm.
  - intros pid _. rewrite lookup_empty. intros m [Hm _]. cbn in Hm. by rewrite lookup_empty in Hm.
  - intros _. exists []. split; [done|]. intros m. split; [by intros ?%elem_of_nil|].
    intros [Hm _]. cbn in Hm. by rewrite lookup_empty in Hm.
Qed.

(** *** Ordered sets *)

#[global] Instance pair_le_total : Total pair_le.
Proof. intros a b. unfold pair_le. lia. Qed.
#[global] Instance pair_le_trans : Transitive pair_le.
Proof. intros a b c. unfold pair_le. lia. Qed.

Lemma elem_of_btree_iter s p : p ∈ btree_iter s <-> p ∈ s.
Proof. unfold btree_iter. by rewrite merge_sort_Permutation, elem_of_elements. Qed.

Lemma btree_iter_sorted s : StronglySorted pair_le (btree_iter s).
Proof. apply (StronglySorted_merge_sort pair_le). Qed.

Lemma btree_iter_nodup s : NoDup (btree_iter s).
Proof. unfold btree_iter. rewrite merge_sort_Permutation. apply NoDup_elements. Qed.

(** ** Elementary updates *)

Lemma mark_dirty_wf pid t : table_wf t -> table_wf (mark_dirty pid t).
Proof.
  intros [H1 H2 H3 H4 H5 H6 H7 H8]. split; try done. intros p Hp. cbn in Hp. apply (H7 p).
  intros Hin. apply Hp, elem_of_union. by right.
Qed.

Lemma bump_next_id_wf t : table_wf t -> table_wf (bump_next_id t).
Proof.
  intros [H1 H2 H3 H4 H5 H6 H7 H8]. split; try done. intros id m Hm. cbn.
  destruct (H1 id m Hm). split; [done|lia].
Qed.

(** Groups survive when the active modules of their owner do not change. *)
Lemma group_current_ext t t' o g :
  (forall m, owned_by t o m <-> owned_by t' o m) -> group_current t o g -> group_current t' o g.
Proof. intros Hext (ms & -> & Hms). exists ms. split; [done|]. intros m. by rewrite Hms, Hext. Qed.

Lemma identity_owner m n : identity_from m = identity_from n -> m_owner m = m_owner n.
Proof. unfold identity_from. congruence. Qed.

Section retire.
Context (t : ModuleTable) (Hwf : table_wf t).
Context (id : Z) (known : ModuleRecord) (Hknown : active t !! id = Some known).
Context (pid : Z) (Howner : m_owner known = Process pid) (Hdirty : pid ∈ dirty_processes t).

#[local] Abbreviation t' := (remove_process_active known (forget id known t)).

Lemma retire_active : active t' = delete id (active t).
Proof. unfold remove_process_active. by repeat case_match. Qed.

Lemma retire_key : active_by_key t' = delete (identity_from known) (active_by_key t).
Proof. unfold remove_process_active. by repeat case_match. Qed.

Lemma retire_rest :
  index t' = index t /\ dirty_processes t' = dirty_processes t /\
  kernel_index_dirty t' = kernel_index_dirty t /\ next_id t' = next_id t.
Proof. unfold remove_process_active. by repeat case_match. Qed.

Lemma retire_process p :
  process_set t' p = if decide (p = pid) then process_set t p ∖ {[(m_start known, id)]}
                     else process_set t p.
Proof.
  destruct (tw_id _ Hwf _ _ Hknown) as [Hid _].
  unfold remove_process_active, module_pid. rewrite Howner. cbn [owner_pid].
  unfold process_set. cbn [active_by_process forget].
  destruct (active_by_process t !! pid) as [ids|] eqn:Hids; cbn [active_by_process forget].
  2: { destruct (decide (p = pid)) as [->|Hp]; [|done]. rewrite Hids. cbn.
       apply set_eq. intros x. rewrite elem_of_difference.
       split; [by intros ?%elem_of_empty|by intros [?%elem_of_empty _]]. }
  rewrite Hid. destruct (decide (p = pid)) as [->|Hp].
  - rewrite Hids. cbn. case_decide as He.
    + by rewrite lookup_delete_eq, He.
    + by rewrite lookup_insert_eq.
  - case_decide; [by rewrite lookup_delete_ne|by rewrite lookup_insert_ne].
Qed.

Lemma retire_wf : table_wf t'.
Proof.
  destruct retire_rest as (Hx & Hd & Hk & Hn). pose proof Hwf as [H1 H2 H3 H4 H5 H6 H7 H8].
  assert (forall i m, active t' !! i = Some m <-> i <> id /\ active t !! i = Some m) as Hact.
  { intros i m. rewrite retire_active, lookup_delete_Some. split; intros [Hne Hm]; (split; [by apply not_eq_sym|done]). }
  assert (forall o m, o <> Process pid -> owned_by t o m <-> owned_by t' o m) as Hother.
  { intros o m Ho. unfold owned_by. rewrite Hact. split; [|by intros [[_ ?] ?]]. intros [Hm Hmo].
    split; [|done]. split; [|done]. intros Heq. rewrite Heq in Hm. congruence. }
  split.
  - intros i m [_ Hm]%Hact. rewrite Hn. by apply H1.
  - intros i m [_ Hm]%Hact. by eapply H2.
  - intros k i. rewrite retire_key, lookup_delete_Some, H3. setoid_rewrite Hact.
    split; [|intros (m & [Hi Hm] & <-)].
    + intros [Hne (m & Hm & <-)]. exists m. split; [|done]. split; [|done]. intros ->. congruence.
    + split; [|by eauto]. intros Heq. apply Hi.
      assert (active_by_key t !! identity_from m = Some i) as Hi1 by (apply H3; eauto).
      assert (active_by_key t !! identity_from known = Some id) as Hi2 by (apply H3; eauto).
      congruence.
  - intros p s i. rewrite retire_process. setoid_rewrite Hact. destruct (decide (p = pid)) as [->|Hp].
    + rewrite elem_of_difference, elem_of_singleton, H4. split.
      * intros [(m & Hm & Ho & <-) Hne]. exists m. split; [|done]. split; [|done].
        intros ->. apply Hne. congruence.
      * intros (m & [Hi Hm] & Ho & <-). split; [by eauto|]. congruence.
    + rewrite H4. split; [|intros (m & [_ Hm] & ?); by exists m]. intros (m & Hm & Ho & <-). exists m. split; [|done].
      split; [|done]. intros ->. congruence.
  - intros p ids Hids. unfold remove_process_active, module_pid in Hids.
    rewrite Howner in Hids. cbn in Hids.
    destruct (active_by_process t !! pid) as [old|] eqn:Hold; cbn in Hids; [|by eapply H5].
    destruct (decide (p = pid)) as [->|Hp].
    + case_decide; [by rewrite lookup_delete_eq in Hids|].
      rewrite lookup_insert_eq in Hids. congruence.
    + case_decide; [rewrite lookup_delete_ne in Hids by done|rewrite lookup_insert_ne in Hids by done];
        by eapply H5.
  - intros i j m n [Hi Hm]%Hact [Hj Hn']%Hact. by eapply H6.
  - intros p Hp. rewrite Hx. rewrite Hd in Hp. specialize (H7 p Hp).
    assert (p <> pid) as Hne by congruence.
    destruct (x_by_process (index t) !! p).
    + eapply group_current_ext; [|done]. intros x. apply Hother. congruence.
    + intros x Hm. apply (H7 x). apply Hother; [congruence|done].
  - rewrite Hx, Hk. intros Hkd. eapply group_current_ext; [|by apply H8]. intros x. by apply Hother.
Qed.
End retire.

Section activate.
Context (t : ModuleTable) (Hwf : table_wf t) (m : ModuleRecord).
Context (Hid : m_id m = Z.of_nat (next_id t)) (Hrange : m_start m < m_end m).
Context (Hkey : active_by_key t !! identity_from m = None).
Context (Hdisj : forall i n, active t !! i = Some n -> m_owner n = m_owner m ->
           module_is_kernel m = false -> disjoint m n).

#[local] Abbreviation t' := (activate (m_id m) m t).

Lemma activate_fresh : active t !! m_id m = None.
Proof.
  destruct (active t !! m_id m) as [n|] eqn:Hn; [|done]. destruct (tw_id _ Hwf _ _ Hn). lia.
Qed.

Lemma activate_lookup i n :
  active t' !! i = Some n <-> (i = m_id m /\ n = m) \/ active t !! i = Some n.
Proof.
  cbn. rewrite lookup_insert_Some. pose proof activate_fresh as Hf. split.
  - intros [[<- <-]|[_ ?]]; auto.
  - intros [[-> ->]|Hn]; [by left|]. right. split; [congruence|done].
Qed.

Lemma activate_owned o n : owned_by t' o n <-> (n = m /\ m_owner m = o) \/ owned_by t o n.
Proof.
  unfold owned_by. rewrite activate_lookup. split.
  - intros [[[_ ->]|?] ?]; auto.
  - intros [[-> ?]|[? ?]]; auto.
Qed.

Lemma activate_process p s i :
  (s, i) ∈ process_set t' p <->
  (m_owner m = Process p /\ s = m_start m /\ i = m_id m) \/ (s, i) ∈ process_set t p.
Proof.
  unfold process_set at 1. cbn. unfold module_pid.
  destruct (m_owner m) as [pid|] eqn:Ho; cbn [owner_pid].
  - destruct (decide (p = pid)) as [->|Hp].
    + rewrite lookup_insert_eq. cbn. rewrite elem_of_union, elem_of_singleton.
      split; (intros [Heq|?]; [left|by right]); [by simplify_eq|]. by destruct Heq as (_ & -> & ->).
    + rewrite lookup_insert_ne by done. fold (process_set t p).
      split; [by right|]. intros [[Heq _]|?]; [congruence|done].
  - fold (process_set t p). split; [by right|]. by intros [[? _]|?].
Qed.

Lemma activate_wf : table_wf t'.
Proof.
  pose proof Hwf as [H1 H2 H3 H4 H5 H6 H7 H8].
  split.
  - intros i n [[-> ->]|Hn]%activate_lookup; cbn [next_id activate]; [split; [done|lia]|].
    destruct (H1 _ _ Hn). split; [done|lia].
  - intros i n [[_ ->]|Hn]%activate_lookup; [done|by eapply H2].
  - intros k i. cbn [active_by_key activate]. rewrite lookup_insert_Some. setoid_rewrite activate_lookup.
    split.
    + intros [[<- <-]|[Hne Hi]]; [exists m; auto|]. apply H3 in Hi as (n & Hn & <-). exists n. auto.
    + intros (n & [[-> ->]|Hn] & <-); [by left|]. right.
      assert (active_by_key t !! identity_from n = Some i) as Hi by (apply H3; eauto).
      split; [congruence|done].
  - intros p s i. rewrite activate_process, H4. setoid_rewrite activate_lookup. split.
    + intros [(Ho & -> & ->)|(n & Hn & ?)]; [exists m; auto|]. exists n. auto.
    + intros (n & [[-> ->]|Hn] & Ho & <-); [by left|]. right. eauto.
  - intros p ids. cbn [active_by_process activate]. destruct (module_pid m) as [pid|]; [|apply H5].
    destruct (decide (p = pid)) as [->|Hp]; [|rewrite lookup_insert_ne by done; apply H5].
    rewrite lookup_insert_eq. intros [= <-] Hemp.
    apply (not_elem_of_empty (C := gset (Z * Z)) (m_start m, m_id m)). rewrite <- Hemp.
    apply elem_of_union. left. by apply elem_of_singleton.
  - intros i j a b [[-> ->]|Ha]%activate_lookup [[-> ->]|Hb]%activate_lookup Hij Ho Hk.
    + done.
    + by eapply Hdisj.
    + destruct (Hdisj _ _ Ha) as [?|?]; [done|unfold module_is_kernel in *; congruence|by right|by left].
    + by eapply (H6 i j).
  - intros p Hp. cbn [index activate dirty_processes] in *.
    assert ((p ∉ dirty_processes t) /\ m_owner m <> Process p) as [Hd Hne].
    { unfold module_pid in Hp. destruct (m_owner m) as [pid|]; cbn in Hp; [|done].
      rewrite elem_of_union, elem_of_singleton in Hp. split; [tauto|]. intros [= <-]. tauto. }
    specialize (H7 p Hd). destruct (x_by_process (index t) !! p).
    + eapply group_current_ext; [|done]. intros n. rewrite activate_owned. tauto.
    + intros n [[_ ?]|Hn]%activate_owned; [done|by apply (H7 n)].
  - cbn [index activate kernel_index_dirty]. unfold module_pid.
    destruct (m_owner m) as [pid|] eqn:Ho; cbn; [|done]. intros Hk.
    eapply group_current_ext; [|by apply H8]. intros n. rewrite activate_owned. rewrite Ho.
    split; [by right|]. by intros [[_ ?]|?].
Qed.
End activate.

(** ** Rebuilding the index *)

(** What the index must say about one process. *)
Definition index_current (t : ModuleTable) (groups : gmap Z ModuleIndexGroup) (pid : Z) : Prop :=
  match groups !! pid with
  | Some g => group_current t (Process pid) g
  | None => forall m, ~ owned_by t (Process pid) m
  end.

Lemma process_set_owned t pid m :
  table_wf t -> (m_start m, m_id m) ∈ process_set t pid /\ active t !! m_id m = Some m <->
                owned_by t (Process pid) m.
Proof.
  intros Hwf. rewrite (tw_process _ Hwf). unfold owned_by. split.
  - intros [(n & Hn & Ho & _) Hm]. rewrite Hm in Hn. injection Hn as <-. auto.
  - intros [Hm Ho]. split; [by exists m|done].
Qed.

Lemma rebuild_process_ok t pid groups :
  table_wf t -> exists groups', rebuild_process t pid groups = Some groups' /\
    index_current t groups' pid /\ forall p, p <> pid -> groups' !! p = groups !! p.
Proof.
  intros Hwf. unfold rebuild_process. pose proof (tw_process _ Hwf pid) as Hp. unfold process_set in Hp.
  destruct (active_by_process t !! pid) as [ids|] eqn:Hids; cbn in Hp.
  - assert (exists ms, mapM (λ p : Z * Z, active t !! p.2) (btree_iter ids) = Some ms) as [ms Hms].
    { apply mapM_is_Some, list.Forall_forall. intros [s id] Hin%elem_of_btree_iter.
      apply Hp in Hin as (m & Hm & _). by exists m. }
    rewrite Hms. eexists. split; [done|]. unfold index_current. rewrite lookup_insert_eq.
    split; [|intros p Hne; by rewrite lookup_insert_ne].
    exists ms. split; [done|]. intros m. apply mapM_Some in Hms.
    split.
    + intros [i Hi]%list_elem_of_lookup_1.
      destruct (Forall2_lookup_r _ _ _ _ _ Hms Hi) as ([s id] & Hl & Hm). cbn in Hm.
      apply list_elem_of_lookup_2, elem_of_btree_iter, Hp in Hl as (m' & Hm' & Ho & _).
      rewrite Hm in Hm'. injection Hm' as <-. destruct (tw_id _ Hwf _ _ Hm) as [<- _]. done.
    + intros [Hm Ho].
      assert ((m_start m, m_id m) ∈ btree_iter ids) as Hin.
      { apply elem_of_btree_iter, Hp. by exists m. }
      apply list_elem_of_lookup_1 in Hin as [i Hi].
      destruct (Forall2_lookup_l _ _ _ _ _ Hms Hi) as (m' & Hl & Hm'). cbn in Hm'.
      rewrite Hm in Hm'. injection Hm' as <-. by eapply list_elem_of_lookup_2.
  - eexists. split; [done|]. unfold index_current. rewrite lookup_delete_eq.
    split; [|intros p Hne; by rewrite lookup_delete_ne].
    intros m [Hm Ho]. apply (not_elem_of_empty (C := gset (Z * Z)) (m_start m, m_id m)).
    apply Hp. by exists m.
Qed.

Lemma rebuild_all_ok t pids groups :
  table_wf t -> exists groups',
    foldr (λ pid groups, g ← groups; rebuild_process t pid g) (Some groups) pids = Some groups' /\
    forall p, (p ∈ pids -> index_current t groups' p) /\ (p ∉ pids -> groups' !! p = groups !! p).
Proof.
  intros Hwf. induction pids as [|pid pids (g1 & IH1 & IH2)]; cbn.
  { exists groups. split; [done|]. intros p. split; [by intros ?%elem_of_nil|done]. }
  rewrite IH1. cbn. destruct (rebuild_process_ok t pid g1 Hwf) as (g2 & -> & Hcur & Hother).
  exists g2. split; [done|]. intros p. destruct (IH2 p) as [Hin Hout].
  rewrite elem_of_cons. destruct (decide (p = pid)) as [->|Hne]; [split; [done|tauto]|].
  unfold index_current in *. rewrite (Hother p Hne). split.
  - intros [?|?]; [done|by apply Hin].
  - intros Hnot. apply Hout. tauto.
Qed.

(** The same table, index aside. *)
Record same_modules (t t' : ModuleTable) : Prop := {
  same_active : active t' = active t;
  same_next_id : next_id t' = next_id t;
  same_key : active_by_key t' = active_by_key t;
  same_process : active_by_process t' = active_by_process t;
}.

Lemma rebuild_index_ok t :
  table_wf t -> exists t', rebuild_index_if_needed t = Some t' /\ table_wf t' /\ same_modules t t' /\
    dirty_processes t' = ∅ /\ kernel_index_dirty t' = false.
Proof.
  intros Hwf. unfold rebuild_index_if_needed.
  destruct (negb _ || _) eqn:Hneed.
  2: { apply orb_false_iff in Hneed as [Hd Hk]. apply negb_false_iff, bool_decide_eq_true in Hd.
       exists t. split; [done|]. split; [done|]. split; [by split|done]. }
  unfold rebuild_dirty_index_groups.
  destruct (rebuild_all_ok t (elements (dirty_processes t)) (x_by_process (index t)) Hwf)
    as (groups & -> & Hgroups). cbn. eexists. split; [done|].
  split; [|by repeat split]. pose proof Hwf as [H1 H2 H3 H4 H5 H6 H7 H8]. split; try done.
  - intros pid _. cbn [index x_by_process]. destruct (Hgroups pid) as [Hin Hout].
    rewrite elem_of_elements in Hin, Hout.
    destruct (decide (pid ∈ dirty_processes t)) as [Hd|Hd]; [by apply Hin|].
    rewrite Hout by done. by apply H7.
  - intros _. cbn [index x_kernel]. destruct (kernel_index_dirty t); [|by apply H8].
    eexists. split; [done|]. intros m. rewrite list_elem_of_filter, list_elem_of_fmap. split.
    + intros [Hk ([id m'] & -> & Hin)]. apply elem_of_map_to_list in Hin. cbn in Hk |- *.
      destruct (tw_id _ Hwf _ _ Hin) as [Hid _]. split; [cbn; by rewrite Hid|].
      unfold module_is_kernel in Hk. by destruct (m_owner m').
    + intros [Hm Ho]. split; [unfold module_is_kernel; by rewrite Ho|].
      exists (m_id m, m). split; [done|]. by apply elem_of_map_to_list.
Qed.

(** *** Finding the mapping of an address *)

Definition inside (address : Z) (m : ModuleRecord) : Prop := m_start m <= address < m_end m.

(** The newest active mapping of [o] at [address]. *)
Definition resolves (t : ModuleTable) (o : ModuleOwner) (address : Z) (r : option ModuleRecord)
    : Prop :=
  match r with
  | Some m => owned_by t o m /\ inside address m /\
      forall m', owned_by t o m' -> inside address m' -> m_id m' <= m_id m
  | None => forall m, owned_by t o m -> ~ inside address m
  end.

Lemma entry_contains_inside address m : entry_contains address (entry_from m) = true <-> inside address m.
Proof. unfold entry_contains, inside. cbn. rewrite andb_true_iff, Z.leb_le, Z.ltb_lt. done. Qed.

Lemma group_find_resolves t o g address :
  table_wf t -> group_current t o g ->
  exists r, resolves t o address r /\ group_find g address = entry_from <$> r.
Proof.
  intros Hwf (ms & -> & Hms).
  pose proof (group_find_newest (entry_from <$> ms) address) as Hn.
  fold (group_rebuild ms) in Hn. unfold group_rebuild in *.
  specialize (Hn ltac:(apply Forall_fmap, list.Forall_forall; intros m [Hm _]%Hms; cbn; by eapply tw_range)).
  destruct (group_find _ address) as [e|]; cbn in Hn.
  - destruct Hn as (Hin & Hc & Hmax). apply list_elem_of_fmap in Hin as (m & -> & Hm).
    exists (Some m). split; [|done]. split; [by apply Hms|]. split; [by apply entry_contains_inside|].
    intros m' Hm' Hi. apply (Hmax (entry_from m')).
    + apply list_elem_of_fmap. exists m'. split; [done|]. by apply Hms.
    + by apply entry_contains_inside.
  - exists None. split; [|done]. intros m Hm Hi.
    specialize (Hn (entry_from m)). rewrite (proj2 (entry_contains_inside address m) Hi) in Hn.
    assert (true = false) as [=]. apply Hn, list_elem_of_fmap. exists m. split; [done|]. by apply Hms.
Qed.

Lemma index_find_resolves t process_id address mode :
  table_wf t -> dirty_processes t = ∅ -> kernel_index_dirty t = false ->
  match mode with
  | TruncatedStackMarker => index_find (index t) process_id address mode = None
  | _ =>
      exists r, resolves t (if decide (mode = Kernel) then KernelOwner else Process process_id) address r /\
        index_find (index t) process_id address mode = entry_from <$> r
  end.
Proof.
  intros Hwf Hd Hk. destruct mode; cbn; [| |done].
  - pose proof (tw_index _ Hwf process_id ltac:(rewrite Hd; apply not_elem_of_empty)) as Hi.
    destruct (x_by_process (index t) !! process_id) as [g|]; cbn; [by apply group_find_resolves|].
    exists None. split; [|done]. intros m Hm. by apply Hi in Hm.
  - apply group_find_resolves; [done|]. by apply tw_kernel.
Qed.
