(* ===== verification/TableOps.v ===== *)
(** * Overlaps, and the table operations

    Which mappings a new one overlaps, and what each operation of the module
    table keeps. *)

From stdpp Require Import prelude gmap list numbers sorting.
From S2P Require Import Prelude Varint Model Output Records Contexts Writer RoundTrip.
From S2P Require Import ModuleIndex ModuleTable AddressSpace.
#[local] Open Scope Z_scope.

(** ** Finding overlaps

    [overlapping_module_ids] looks at one predecessor and a run of successors
    in address order; because the mappings of a process are disjoint, these are
    all the mappings a new one overlaps.  What is left of them around the new
    mapping maps the same file bytes. *)

Lemma elem_of_take_while (stop : Z) (l : list (Z * Z)) p :
  StronglySorted pair_le l -> p ∈ take_while (λ p, p.1 <? stop) l <-> p ∈ l /\ p.1 < stop.
Proof.
  induction 1 as [|x l Hl IH Hx]; cbn; [split; [by intros ?%elem_of_nil|by intros [?%elem_of_nil _]]|].
  rewrite list.Forall_forall in Hx. destruct (Z.ltb_spec x.1 stop).
  - rewrite !elem_of_cons, IH. split; [intros [->|[? ?]]; auto|]. intros [[->|?] ?]; auto.
  - rewrite elem_of_cons. split; [by intros ?%elem_of_nil|]. intros [[->|Hp] Hlt]; [lia|].
    specialize (Hx _ Hp). unfold pair_le in Hx. lia.
Qed.

Lemma take_while_sublist {A} (f : A -> bool) l : take_while f l `sublist_of` l.
Proof.
  induction l as [|x l IH]; cbn; [done|]. destruct (f x); [by apply sublist_skip|apply sublist_nil_l].
Qed.

Lemma filter_sorted {A} (R : relation A) (P : A -> Prop) `{!∀ x, Decision (P x)} l :
  StronglySorted R l -> StronglySorted R (filter P l).
Proof.
  induction 1 as [|x l Hl IH Hx]; [constructor|]. rewrite list.filter_cons. case_decide; [|done].
  constructor; [done|]. rewrite list.Forall_forall in *. intros y [_ Hy]%list_elem_of_filter. auto.
Qed.

Lemma last_sorted {A} (R : relation A) l x y :
  StronglySorted R l -> list.last l = Some x -> y ∈ l -> y = x \/ R y x.
Proof.
  intros Hs Hl Hy. apply last_Some in Hl as [l' ->]. apply elem_of_app in Hy as [Hy|Hy].
  - right. apply StronglySorted_app in Hs as (Hc & _ & _). apply Hc; [done|]. apply list_elem_of_here.
  - apply list_elem_of_singleton in Hy. auto.
Qed.

Section overlap.
Context (t : ModuleTable) (Hwf : table_wf t) (pid : Z) (m : ModuleRecord).
Hypothesis Hrange : m_start m < m_end m.

(** The module of an entry of the ordered set. *)
Lemma set_module p :
  p ∈ process_set t pid ->
  exists n, active t !! p.2 = Some n /\ m_owner n = Process pid /\ m_start n = p.1.
Proof. destruct p as [s id]. intros Hp. by apply (tw_process _ Hwf) in Hp. Qed.

Lemma retain_active_ok f ids :
  (forall id, id ∈ ids -> is_Some (active t !! id)) -> NoDup ids ->
  exists ids', retain_active t f ids = Ok ids' /\ NoDup ids' /\
    forall id, id ∈ ids' <-> id ∈ ids /\ exists n, active t !! id = Some n /\ f n = true.
Proof.
  induction ids as [|id ids IH]; intros Hin Hnd; cbn.
  { exists []. split; [done|]. split; [constructor|]. intros id.
    split; [by intros ?%elem_of_nil|by intros [?%elem_of_nil _]]. }
  apply NoDup_cons in Hnd as [Hni Hnd].
  destruct (Hin id (list_elem_of_here _ _)) as [n Hn].
  destruct IH as (ids' & -> & Hnd' & Hids); [intros i Hi; by apply Hin, list_elem_of_further|done|].
  unfold active_at. rewrite Hn. cbn. eexists. split; [done|]. destruct (f n) eqn:Hf.
  - split; [constructor; [|done]; rewrite Hids; tauto|]. intros i. rewrite !elem_of_cons, Hids. split.
    + intros [->|[? ?]]; eauto.
    + intros [[->|?] ?]; auto.
  - split; [done|]. intros i. rewrite elem_of_cons, Hids. split; [tauto|].
    intros [[->|?] (n' & Hn' & Hf')]; [congruence|eauto].
Qed.

(** The pairs behind the candidate ids. *)
Lemma candidates_ok :
  exists cand, overlapping_module_ids t pid m = Ok (snd <$> cand) /\ NoDup cand /\
    (forall p, p ∈ cand -> p ∈ process_set t pid) /\
    (forall p n, p ∈ process_set t pid -> active t !! p.2 = Some n ->
       module_ranges_overlap n m = true -> p ∈ cand).
Proof.
  unfold overlapping_module_ids. pose proof set_module as Hset. unfold process_set in *.
  destruct (active_by_process t !! pid) as [ids|]; cbn in *.
  2: { exists []. split; [done|]. split; [constructor|]. split; [by intros ? ?%elem_of_nil|].
       by intros p n ?%elem_of_empty. }
  set (sorted := btree_iter ids).
  assert (StronglySorted pair_le sorted) as Hsort by apply btree_iter_sorted.
  set (after := take_while _ (filter (λ p, m_start m < p.1) sorted)).
  assert (forall p, p ∈ after <-> p ∈ ids /\ m_start m < p.1 < m_end m) as Hafter.
  { intros p. unfold after. rewrite elem_of_take_while by (by apply filter_sorted).
    rewrite list_elem_of_filter. unfold sorted. rewrite elem_of_btree_iter. tauto. }
  assert (NoDup after) as Hnd.
  { eapply sublist_NoDup; [|apply take_while_sublist].
    apply NoDup_filter, btree_iter_nodup. }
  assert (forall p n, p ∈ ids -> active t !! p.2 = Some n -> module_ranges_overlap n m = true ->
            p ∈ after \/ (p.1 <= m_start m < m_end n)) as Hover.
  { intros p n Hp Hn Ho. destruct (Hset p Hp) as (n' & Hn' & _ & Hs). rewrite Hn in Hn'.
    injection Hn' as <-. unfold module_ranges_overlap in Ho. apply andb_true_iff in Ho.
    destruct (decide (m_start m < p.1)); [left; apply Hafter; split; [done|lia]|right; lia]. }
  destruct (list.last (filter (λ p, p.1 <= m_start m) sorted)) as [[s id]|] eqn:Hlast.
  - assert ((s, id) ∈ ids /\ s <= m_start m) as [Hin Hsle].
    { apply last_Some_elem_of, list_elem_of_filter in Hlast as [Hle Hlast].
      unfold sorted in Hlast. rewrite elem_of_btree_iter in Hlast. done. }
    destruct (Hset _ Hin) as (known & Hk & Hko & Hks). cbn in Hk, Hks.
    unfold active_at. rewrite Hk. cbn [ok_or].
    exists ((if m_end known >? m_start m then [(s, id)] else []) ++ after).
    split; [rewrite fmap_app; by destruct (m_end known >? m_start m)|].
    split; [|split].
    + apply NoDup_app. split; [destruct (_ >? _); repeat constructor; by intros ?%elem_of_nil|].
      split; [|done]. intros p Hp Hpa. apply Hafter in Hpa as [_ Hpa].
      destruct (_ >? _); [|by apply elem_of_nil in Hp]. apply list_elem_of_singleton in Hp as ->. cbn in Hpa. lia.
    + intros p [Hp|Hp]%elem_of_app; [|by apply Hafter].
      destruct (_ >? _); [|by apply elem_of_nil in Hp]. by apply list_elem_of_singleton in Hp as ->.
    + intros p n Hp Hn Ho. apply elem_of_app. destruct (Hover p n Hp Hn Ho) as [|[Hle Hlt]]; [by right|left].
      destruct (Hset p Hp) as (n' & Hn' & Hno & Hns). rewrite Hn in Hn'. injection Hn' as <-.
      assert (p.2 = id) as Heq.
      { destruct (decide (p.2 = id)) as [|Hne]; [done|]. exfalso.
        destruct (last_sorted pair_le _ _ p (filter_sorted _ _ _ Hsort) Hlast) as [->|Hpl]; [|done|].
        { apply list_elem_of_filter. split; [done|]. by apply elem_of_btree_iter. }
        pose proof (tw_range _ Hwf _ _ Hk).
        destruct (tw_disjoint _ Hwf _ _ _ _ Hn Hk Hne); [congruence|unfold module_is_kernel; by rewrite Hno|..];
          unfold pair_le in Hpl; cbn in Hpl; lia. }
      rewrite Heq, Hk in Hn. injection Hn as <-.
      destruct (Z.gtb_spec (m_end known) (m_start m)); [|lia].
      apply list_elem_of_singleton. destruct p; cbn in *. congruence.
  - exists after. split; [done|]. split; [done|]. split; [intros p Hp; by apply Hafter|].
    intros p n Hp Hn Ho. destruct (Hover p n Hp Hn Ho) as [|[Hle _]]; [done|].
    apply last_None in Hlast. exfalso. apply (not_elem_of_nil p). rewrite <- Hlast.
    apply list_elem_of_filter. split; [done|]. by apply elem_of_btree_iter.
Qed.

Lemma overlapping_exact :
  exists cand ids, overlapping_module_ids t pid m = Ok cand /\
    retain_active t (λ known, module_ranges_overlap known m) cand = Ok ids /\ NoDup ids /\
    forall id, id ∈ ids <-> exists n, active t !! id = Some n /\ m_owner n = Process pid /\
                              module_ranges_overlap n m = true.
Proof.
  destruct candidates_ok as (cand & Hc & Hnd & Hsub & Hall). exists (snd <$> cand).
  destruct (retain_active_ok (λ known, module_ranges_overlap known m) (snd <$> cand)) as (ids & Hr & Hnd' & Hids).
  - intros id Hid. apply list_elem_of_fmap in Hid as (p & -> & Hp).
    destruct (set_module p (Hsub p Hp)) as (n & Hn & _). by exists n.
  - apply NoDup_fmap_2_strong; [|done]. intros p q Hp Hq Heq.
    destruct (set_module p (Hsub p Hp)) as (n & Hn & _ & Hns).
    destruct (set_module q (Hsub q Hq)) as (n' & Hn' & _ & Hns'). rewrite Heq in Hn.
    destruct p, q; cbn in *. congruence.
  - exists ids. split; [done|]. split; [done|]. split; [done|]. intros id. rewrite Hids. split.
    + intros [Hid (n & Hn & Ho)]. exists n. split; [done|]. split; [|done].
      apply list_elem_of_fmap in Hid as (p & -> & Hp).
      destruct (set_module p (Hsub p Hp)) as (n' & Hn' & Hno & _). congruence.
    + intros (n & Hn & Hno & Ho). split; [|by eauto]. apply list_elem_of_fmap.
      exists (m_start n, id). split; [done|]. eapply Hall; [|done|done].
      apply (tw_process _ Hwf). by exists n.
Qed.
End overlap.

(** ** Fragments *)

(** The file byte mapped at an address, with the identity of its file (the
    inode generation aside, which may still be unknown). *)
Definition backing (m : ModuleRecord) (address : Z) : Z * Z * Z * list Z * Z :=
  (m_inode m, m_device_major m, m_device_minor m, m_path m,
   m_file_offset m + (address - m_start m)).

Definition maps_byte (address : Z) (b : Z * Z * Z * list Z * Z) (m : ModuleRecord) : Prop :=
  inside address m /\ backing m address = b.

(** The fragments around a replacement map what the old mapping did, elsewhere. *)
Lemma split_backing old new address b :
  m_file_offset old + (m_end old - m_start old) <= u64_max -> 0 <= m_file_offset old ->
  m_start old < m_end old -> m_start new < m_end new ->
  Exists (maps_byte address b) (split_module_around old new) <->
  maps_byte address b old /\ ~ inside address new.
Proof.
  intros Hspan Hoff Hold Hnew. unfold split_module_around. rewrite Exists_app.
  unfold maps_byte, inside, backing, saturating_add_u64.
  assert (forall x, Exists (λ m, (m_start m <= address < m_end m) /\
            (m_inode m, m_device_major m, m_device_minor m, m_path m,
             m_file_offset m + (address - m_start m)) = b) [x] <->
          (m_start x <= address < m_end x) /\
            (m_inode x, m_device_major x, m_device_minor x, m_path x,
             m_file_offset x + (address - m_start x)) = b) as Hone.
  { intros x. rewrite Exists_cons, Exists_nil. tauto. }
  destruct (Z.ltb_spec (m_start old) (m_start new)), (Z.ltb_spec (m_end new) (m_end old));
    rewrite ?Hone, ?Exists_nil; cbn.
  - replace (Z.min _ u64_max + (address - Z.max _ _)) with (m_file_offset old + (address - m_start old))
      by lia.
    split; [intros [[? ?]|[? ?]]; (split; [split; [lia|done]|lia])|intros [[? ?] Hn]].
    destruct (decide (address < m_start new)); [left|right]; (split; [lia|done]).
  - split; [intros [[? ?]|[]]; split; [split; [lia|done]|lia]|intros [[? ?] Hn]].
    left. split; [lia|done].
  - replace (Z.min _ u64_max + (address - Z.max _ _)) with (m_file_offset old + (address - m_start old))
      by lia.
    split; [intros [[]|[? ?]]; split; [split; [lia|done]|lia]|intros [[? ?] Hn]].
    right. split; [lia|done].
  - split; [intros [[]|[]]|intros [[? ?] Hn]]. exfalso. lia.
Qed.

Lemma split_ranges old new f :
  m_start old < m_end old -> m_start new < m_end new -> f ∈ split_module_around old new ->
  m_start f < m_end f /\ m_owner f = m_owner old /\ m_start old <= m_start f /\ m_end f <= m_end old /\
  disjoint f new.
Proof.
  intros Ho Hn. unfold split_module_around. rewrite elem_of_app. unfold disjoint.
  intros [Hf|Hf].
  - destruct (Z.ltb_spec (m_start old) (m_start new)); [|by apply elem_of_nil in Hf].
    apply list_elem_of_singleton in Hf as ->. cbn. repeat split; lia.
  - destruct (Z.ltb_spec (m_end new) (m_end old)); [|by apply elem_of_nil in Hf].
    apply list_elem_of_singleton in Hf as ->. cbn. repeat split; lia.
Qed.

(** The two fragments of one mapping do not touch each other. *)
Lemma split_disjoint old new :
  m_start old < m_end old -> m_start new < m_end new ->
  ForallOrdPairs disjoint (split_module_around old new).
Proof.
  intros Ho Hn. unfold split_module_around.
  destruct (Z.ltb_spec (m_start old) (m_start new)), (Z.ltb_spec (m_end new) (m_end old)); cbn;
    repeat constructor. unfold disjoint. cbn. lia.
Qed.

(** ** Operations on the module table

    Every operation of [ModuleTable], on any sink and on every outcome: the
    invariant is kept, an error comes from the sink or from an exhausted id
    space, and on success the modules the sink has logged as mapped are exactly
    the active ones. *)

(** ** The sink's side of the interface *)

Section sink_call.
Context {S : Type} `{ModuleSink S}.

Definition sink_op (op : write_op) : io S unit :=
  match op with
  | WriteModule m => sink_module m
  | DeactivateProcess pid => sink_deactivate_process pid
  | DeactivateModule id => sink_deactivate_one id
  | _ => mret tt
  end.
End sink_call.

(** [LoggedSink logged fails]: a successful call appends to the log; a call that
    respects the log fails only with an error of [fails]. *)
Class LoggedSink (S : Type) `{ModuleSink S} (logged : S -> log_modules -> Prop)
    (fails : ErrorKind -> Prop) : Prop := {
  sink_op_logged op s :
    match sink_op op s with
    | (Ok _, s') => forall l, logged s l -> op_ok l op -> logged s' (log_step l op)
    | (Err e, _) => fails e \/ forall l, logged s l -> ~ op_ok l op
    end;
}.

(** ** What the table promises *)

(** A mapping as the recorder creates them. *)
Record mapping_ok (m : ModuleRecord) : Prop := {
  mpo_ok : module_ok m;
  mpo_jit : m_jit_symbols m = None;
  mpo_span : m_file_offset m + (m_end m - m_start m) <= u64_max;
}.

Record table_inv (t : ModuleTable) : Prop := {
  ti_wf : table_wf t;
  ti_ok id m : active t !! id = Some m -> mapping_ok m;
}.

Record agree (t : ModuleTable) (l : log_modules) : Prop := {
  ag_next : next_id t = length l;
  ag_active i m : l !! i = Some (m, true) <-> active t !! Z.of_nat i = Some m;
}.

Lemma with_id_ok id m : is_u32 id -> mapping_ok m -> mapping_ok (with_id id m).
Proof. intros Hid [Hm Hj Hs]. split; [|done..]. by destruct Hm; split. Qed.

Lemma agree_default : agree table_default [].
Proof. split; [done|]. intros i m. cbn. by rewrite lookup_nil, lookup_empty. Qed.

(** *** The log moves with the table *)

Lemma agree_activate t l m :
  agree t l -> m_id m = Z.of_nat (next_id t) ->
  agree (activate (m_id m) m t) (log_step l (WriteModule m)).
Proof.
  intros [Hn Ha] Hid. split; cbn; [rewrite length_app; cbn; lia|].
  intros i n. rewrite Hid, Hn, lookup_insert_Some. split.
  - intros [Hi|[Hge Hi]]%lookup_app_Some.
    + right. split; [apply lookup_lt_Some in Hi; lia|by apply Ha].
    + apply list_lookup_singleton_Some in Hi as [Hi [= <-]]. left. split; [lia|done].
  - intros [[Hi <-]|[Hne Hi]].
    + replace i with (length l) by lia. by apply list_lookup_middle.
    + apply lookup_app_l_Some. by apply Ha.
Qed.

Lemma agree_retire t l id known :
  agree t l -> 0 <= id ->
  agree (remove_process_active known (forget id known t)) (log_step l (DeactivateModule id)).
Proof.
  intros [Hn Ha] Hid.
  assert (active (remove_process_active known (forget id known t)) = delete id (active t)) as Hact
    by (unfold remove_process_active; by repeat case_match).
  split; [unfold remove_process_active; cbn; rewrite length_alter; by repeat case_match|].
  intros i m. rewrite Hact, lookup_delete_Some. cbn. destruct (decide (Z.to_nat id = i)) as [<-|Hne].
  - rewrite list_lookup_alter_eq. split; [|intros [? _]; lia].
    destruct (l !! Z.to_nat id) as [[]|]; [|done]. by intros [=].
  - rewrite list_lookup_alter_ne by done. rewrite Ha. split; [|by intros [_ ?]].
    intros Hm. split; [lia|done].
Qed.

Lemma agree_pinned t l m :
  agree t l -> m_id m = Z.of_nat (next_id t) ->
  agree (bump_next_id t) (log_step (log_step l (WriteModule m)) (DeactivateModule (m_id m))).
Proof.
  intros [Hn Ha] Hid. split; cbn; [rewrite length_alter, length_app; cbn; lia|].
  intros i n. rewrite Hid, Nat2Z.id, Hn. destruct (decide (length l = i)) as [<-|Hne].
  - rewrite list_lookup_alter_eq, list_lookup_middle by done. cbn. split; [by intros [=]|].
    intros Hm. apply Ha, lookup_lt_Some in Hm. lia.
  - rewrite list_lookup_alter_ne by done. rewrite <- Ha. split.
    + intros [?|[? Hi]]%lookup_app_Some; [done|].
      apply list_lookup_singleton_Some in Hi as [? _]. lia.
    + intros. by apply lookup_app_l_Some.
Qed.

Lemma agree_same t t' l : active t' = active t -> next_id t' = next_id t -> agree t l -> agree t' l.
Proof. intros Ha Hn [H1 H2]. split; [congruence|]. intros i m. by rewrite Ha. Qed.

(** ** Specifications *)

Section operations.
Context {S : Type} (logged : S -> log_modules -> Prop) (fails : ErrorKind -> Prop).
Context `{LoggedSink S logged fails}.
#[local] Abbreviation op := (io (ModuleTable * S)).
Implicit Types (t : ModuleTable) (s : S).

(** An error the table itself may raise (no id left), or one of the sink; a sink
    whose log does not match the table may fail in any way. *)
Definition op_error (e : ErrorKind) t s : Prop :=
  fails e \/ e = InvalidInput \/ forall l, logged s l -> ~ agree t l.

(** The sink's log still matches the table. *)
Definition keeps_log t s t' s' : Prop :=
  forall l, logged s l -> agree t l -> exists l', logged s' l' /\ agree t' l'.

Definition spec {A} (m : op A) t s (Q : A -> ModuleTable -> Prop) : Prop :=
  let '(r, (t', s')) := m (t, s) in
  table_inv t' /\
  match r with
  | Ok a => Q a t' /\ keeps_log t s t' s'
  | Err e => op_error e t s
  end.

Lemma keeps_log_refl t s : keeps_log t s t s.
Proof. intros l. eauto. Qed.

Lemma spec_ret {A} (a : A) t s (Q : A -> ModuleTable -> Prop) :
  table_inv t -> Q a t -> spec (mret a) t s Q.
Proof. intros Hi HQ. split; [done|]. split; [done|apply keeps_log_refl]. Qed.

Lemma op_error_back e t s t' s' : keeps_log t s t' s' -> op_error e t' s' -> op_error e t s.
Proof.
  intros Hl [?|[?|Hno]]; [by left|by right; left|]. right. right. intros l Hs Ha.
  destruct (Hl l Hs Ha) as (l' & Hs' & Ha'). by apply (Hno l').
Qed.

(** A failed sink call whose arguments respect any log the table agrees with. *)
Lemma op_error_sink e w t s :
  (fails e \/ forall l, logged s l -> ~ op_ok l w) -> (forall l, agree t l -> op_ok l w) -> op_error e t s.
Proof. intros [?|Hno] Hok; [by left|]. right. right. intros l Hs Ha. by apply (Hno l Hs), Hok. Qed.

Lemma spec_bind {A B} (m : op A) (k : A -> op B) t s P Q :
  spec m t s P -> (forall a t' s', table_inv t' -> P a t' -> spec (k a) t' s' Q) ->
  spec (m ≫= k) t s Q.
Proof.
  unfold spec, mbind, io_mbind. destruct (m (t, s)) as [[a|e] [t1 s1]]; [|done].
  intros (Hi & HP & Hl) Hk. specialize (Hk a t1 s1 Hi HP). destruct (k a (t1, s1)) as [r [t2 s2]].
  destruct Hk as [Hi2 Hr]. split; [done|]. destruct r; [|by eapply op_error_back]. destruct Hr as [HQ Hl2].
  split; [done|]. intros l Hs Ha. destruct (Hl l Hs Ha) as (l' & Hs' & Ha'). by apply (Hl2 l').
Qed.

Lemma spec_impl {A} (m : op A) t s (P Q : A -> ModuleTable -> Prop) :
  spec m t s P -> (forall a t', P a t' -> Q a t') -> spec m t s Q.
Proof.
  unfold spec. destruct (m (t, s)) as [[a|e] [t1 s1]]; [|done]. intros (? & ? & ?) HPQ. auto.
Qed.

Lemma spec_table {B} (k : ModuleTable -> op B) t s Q : spec (k t) t s Q -> spec (table ≫= k) t s Q.
Proof. done. Qed.

Lemma spec_lift {A B} (r : result A) (k : A -> op B) t s a Q :
  r = Ok a -> spec (k a) t s Q -> spec (io_lift r ≫= k) t s Q.
Proof. by intros ->. Qed.

Lemma next_spool_id_ok n id :
  next_spool_id n = Ok id -> id = Z.of_nat n /\ is_u32 id /\ id < u32_max.
Proof.
  unfold next_spool_id, u32_try_from, NONE_U32. destruct (_ && _) eqn:Hb; [|done].
  destruct (Z.eqb_spec (Z.of_nat n) u32_max); [done|]. intros [= <-]. apply andb_true_iff in Hb.
  split; [done|]. word_lia.
Qed.

Lemma spec_next_id {B} n (k : Z -> op B) t s Q :
  table_inv t ->
  (forall id, id = Z.of_nat n -> is_u32 id -> id < u32_max -> spec (k id) t s Q) ->
  spec (io_lift (next_spool_id n) ≫= k) t s Q.
Proof.
  intros Hi Hk. destruct (next_spool_id n) as [id|e] eqn:Hn.
  - apply next_spool_id_ok in Hn as (? & ? & ?). by apply (Hk id).
  - unfold spec, mbind, io_mbind, io_lift. split; [done|]. right. left.
    unfold next_spool_id in Hn. repeat case_match; congruence.
Qed.

(** A sink call followed by the matching table update. *)
Lemma spec_sink {B} (w : write_op) f (k : op B) t s Q :
  table_inv t -> table_inv (f t) ->
  (forall l, agree t l -> op_ok l w /\ agree (f t) (log_step l w)) ->
  (forall s', spec k (f t) s' Q) ->
  spec (to_sink (sink_op w);; update_table f;; k) t s Q.
Proof.
  intros Hi Hi' Hlog Hk. unfold spec, to_sink, io_zoom, mbind, io_mbind. cbn [fst snd].
  pose proof (sink_op_logged w s) as Hs. destruct (sink_op w s) as [[u|e] s1]; cbn [fst snd].
  - unfold update_table, io_modify. cbn [fst snd]. specialize (Hk s1). unfold spec in Hk.
    assert (keeps_log t s (f t) s1) as Hkeep.
    { intros l Hsl Ha. destruct (Hlog l Ha) as [Hok Ha']. exists (log_step l w). split; [by apply Hs|done]. }
    destruct (k (f t, s1)) as [r [t2 s2]]. destruct Hk as [Hi2 Hr]. split; [done|].
    destruct r; [|by eapply op_error_back]. destruct Hr as [HQ Hl2]. split; [done|].
    intros l Hsl Ha. destruct (Hkeep l Hsl Ha) as (l' & ? & ?). by apply (Hl2 l').
  - split; [done|]. eapply op_error_sink; [exact Hs|]. intros l Ha. by apply Hlog.
Qed.

(** The update first, as the loop of [apply_module] does it. *)
Lemma spec_then_sink {B} (w : write_op) f (k : op B) t s Q :
  table_inv (f t) ->
  (forall l, agree t l -> op_ok l w /\ agree (f t) (log_step l w)) ->
  (forall s', spec k (f t) s' Q) ->
  spec (update_table f;; to_sink (sink_op w);; k) t s Q.
Proof.
  intros Hi' Hlog Hk. unfold spec, to_sink, io_zoom, mbind, io_mbind, update_table, io_modify. cbn [fst snd].
  pose proof (sink_op_logged w s) as Hs. destruct (sink_op w s) as [[u|e] s1]; cbn [fst snd].
  - specialize (Hk s1). unfold spec in Hk.
    assert (keeps_log t s (f t) s1) as Hkeep.
    { intros l Hsl Ha. destruct (Hlog l Ha) as [Hok Ha']. exists (log_step l w). split; [by apply Hs|done]. }
    destruct (k (f t, s1)) as [r [t2 s2]]. destruct Hk as [Hi2 Hr]. split; [done|].
    destruct r; [|by eapply op_error_back]. destruct Hr as [HQ Hl2]. split; [done|].
    intros l Hsl Ha. destruct (Hkeep l Hsl Ha) as (l' & ? & ?). by apply (Hl2 l').
  - split; [done|]. eapply op_error_sink; [exact Hs|]. intros l Ha. by apply Hlog.
Qed.

(** *** Interning *)

(** No active mapping of the same process overlaps [m]. *)
Definition room_for t (m : ModuleRecord) : Prop :=
  m_start m < m_end m /\
  forall i n, active t !! i = Some n -> m_owner n = m_owner m -> module_is_kernel m = false ->
    disjoint m n.

Lemma room_key_absent t m :
  table_wf t -> room_for t m -> module_is_kernel m = false ->
  active_by_key t !! identity_from m = None.
Proof.
  intros Hwf [Hr Hd] Hk. destruct (active_by_key t !! identity_from m) as [id|] eqn:Hi; [|done].
  apply (tw_key _ Hwf) in Hi as (n & Hn & Heq). unfold identity_from in Heq. injection Heq as Ho Hs He _ _ _ _ _ _.
  destruct (Hd id n Hn Ho Hk); lia.
Qed.

Lemma activate_inv t m :
  table_inv t -> mapping_ok m -> m_id m = Z.of_nat (next_id t) -> room_for t m ->
  active_by_key t !! identity_from m = None -> table_inv (activate (m_id m) m t).
Proof.
  intros [Hwf Hok] Hm Hid [Hr Hd] Hk. split.
  - by apply activate_wf.
  - intros i n [[_ ->]|Hn]%activate_lookup; [done|by eapply Hok|done|done].
Qed.

Lemma intern_spec t s m :
  table_inv t -> mapping_ok m -> room_for t m -> active_by_key t !! identity_from m = None ->
  spec (intern_without_overlap m) t s
    (λ id t', id = Z.of_nat (next_id t) /\ t' = activate id (with_id id m) t).
Proof.
  intros Hi Hm Hroom Hkey. apply spec_table. rewrite Hkey.
  apply spec_next_id; [done|]. intros id Hid Hu Hlt. cbn zeta.
  apply (spec_sink (WriteModule (with_id id m)) (activate id (with_id id m))); [done| | |].
  - by apply (activate_inv t (with_id id m)); [|apply with_id_ok| | |].
  - intros l Ha. split.
    + destruct (with_id_ok id m Hu Hm) as [Hmo Hj _]. split; [done|]. split; [unfold jit_ok; by rewrite Hj|].
      cbn. rewrite <- (ag_next _ _ Ha). done.
    + by apply (agree_activate t l (with_id id m)).
  - intros s'. apply spec_ret; [|done]. by apply (activate_inv t (with_id id m)); [|apply with_id_ok| | |].
Qed.

Lemma record_pinned_spec t s m :
  table_inv t -> module_ok m -> jit_ok m ->
  spec (record_pinned_module m) t s
    (λ m' t', m' = with_id (Z.of_nat (next_id t)) m /\ t' = bump_next_id t).
Proof.
  intros Hi Hm Hj. apply spec_table, spec_next_id; [done|]. intros id Hid Hu Hlt. cbn zeta.
  assert (table_inv (bump_next_id t)) as Hi'.
  { destruct Hi as [Hwf Hok]. split; [by apply bump_next_id_wf|done]. }
  set (pinned := λ l, log_step l (WriteModule (with_id id m))).
  assert (forall l, agree t l -> op_ok l (WriteModule (with_id id m)) /\ op_ok (pinned l) (DeactivateModule id) /\
            agree (bump_next_id t) (log_step (pinned l) (DeactivateModule id))) as Hlog.
  { intros l Ha. pose proof (ag_next _ _ Ha) as Hn. split; [|split].
    - split; [by destruct Hm; split|]. split; [by destruct m|]. cbn. lia.
    - cbn. rewrite length_app. cbn. word_lia.
    - by apply (agree_pinned t l (with_id id m)). }
  unfold spec, to_sink, io_zoom, mbind, io_mbind, update_table, io_modify. cbn [fst snd].
  pose proof (sink_op_logged (WriteModule (with_id id m)) s) as Hs1. cbn [sink_op] in Hs1.
  destruct (sink_module (with_id id m) s) as [[u|e] s1]; cbn [fst snd].
  2: { split; [done|]. eapply op_error_sink; [exact Hs1|]. intros l Ha. by apply Hlog. }
  pose proof (sink_op_logged (DeactivateModule id) s1) as Hs2. cbn [sink_op] in Hs2.
  destruct (sink_deactivate_one id s1) as [[u'|e] s2]; cbn [fst snd].
  2: { split; [done|]. destruct Hs2 as [?|Hno]; [by left|]. right. right. intros l Hl Ha.
       destruct (Hlog l Ha) as (Ho1 & Ho2 & _). apply (Hno (pinned l)); [by apply Hs1|done]. }
  split; [done|]. split; [by rewrite Hid|]. intros l Hl Ha. destruct (Hlog l Ha) as (Ho1 & Ho2 & Ha').
  exists (log_step (pinned l) (DeactivateModule id)). split; [|done].
  apply Hs2; [by apply Hs1|done].
Qed.

(** *** Retiring *)

Lemma retire_all_spec pid ids : forall t s,
  table_inv t -> pid ∈ dirty_processes t -> NoDup ids ->
  (forall id, id ∈ ids -> exists n, active t !! id = Some n /\ m_owner n = Process pid) ->
  spec (retire_all ids) t s
    (λ retired t', (forall i n, active t' !! i = Some n <-> active t !! i = Some n /\ i ∉ ids) /\
      forall n, n ∈ retired <-> active t !! m_id n = Some n /\ m_id n ∈ ids).
Proof.
  induction ids as [|id ids IH]; intros t s Hi Hd Hnd Hids; cbn [retire_all].
  { apply spec_ret; [done|]. split; [|intros n; rewrite !elem_of_nil; tauto]. intros i n. split; [|by intros [? _]]. intros. split; [done|].
    by intros ?%elem_of_nil. }
  apply NoDup_cons in Hnd as [Hnin Hnd]. apply spec_table.
  destruct (Hids id (list_elem_of_here _ _)) as (known & Hk & Ho). rewrite Hk.
  pose proof Hi as [Hwf Hok]. destruct (tw_id _ Hwf _ _ Hk) as [Hid Hidr].
  set (f := λ t, remove_process_active known (forget id known t)).
  assert (active (f t) = delete id (active t)) as Hact by (by apply (retire_active t)).
  assert (dirty_processes (f t) = dirty_processes t) as Hdirty by (by apply retire_rest).
  assert (table_inv (f t)) as Hif.
  { split; [by eapply retire_wf|]. intros i n. rewrite Hact, lookup_delete_Some. intros [_ ?]. by eapply Hok. }
  apply (spec_then_sink (DeactivateModule id) f); [done| |].
  - intros l Ha. split; [|apply agree_retire; [done|lia]].
    pose proof (mok_id _ (mpo_ok _ (Hok _ _ Hk))). cbn. rewrite <- (ag_next _ _ Ha). word_lia.
  - intros s'. eapply spec_bind.
    + apply IH; [done|by rewrite Hdirty|done|]. intros i Hin.
      destruct (Hids i (list_elem_of_further _ _ _ Hin)) as (n & Hn & Hno). exists n.
      rewrite Hact, lookup_delete_ne by (intros ->; done). done.
    + intros rest t' s'' Hi' [Hr Hrest]; cbn beta in *. apply spec_ret; [done|]. split.
      * intros i n. rewrite Hr, Hact, lookup_delete_Some.
        rewrite elem_of_cons. split; [intros [[? ?] ?]; split; [done|]; intros [?|?]; by subst|].
        intros [? Hno]. split; [|by auto]. split; [|done]. intros <-. auto.
      * intros n. rewrite !elem_of_cons, Hrest, Hact, lookup_delete_Some. split.
        -- intros [->|[[_ ?] ?]]; [rewrite Hid; auto|auto].
        -- intros [Hn [Heq|Hin]]; [left; congruence|]. right. split; [|done]. split; [|done]. intros ->. done.
Qed.
End operations.
