(* ===== verification/TableMap.v ===== *)
(** * The operations of the module table on address spaces

    What they do to the address space of one process, and to all of them. *)

From stdpp Require Import prelude gmap list numbers sorting.
From S2P Require Import Prelude Model Output Records Writer RoundTrip ModuleIndex ModuleTable.
From S2P Require Import AddressSpace TableOps.
#[local] Open Scope Z_scope.

(** ** What the table operations do to address spaces

    [apply_module] is an [mmap] over the address space of its process,
    [clone_process_modules] a [fork] and [deactivate_process_modules] an
    [exit]: the index, the identity map and the fragments are invisible. *)

(** A property of a mapping that does not depend on its id. *)
Definition id_free (P : ModuleRecord -> Prop) : Prop := forall id m, P (with_id id m) <-> P m.

(** Some active mapping of [o] has the property. *)
Definition has (t : ModuleTable) (o : ModuleOwner) (P : ModuleRecord -> Prop) : Prop :=
  exists n, owned_by t o n /\ P n.

Lemma maps_byte_id_free address b : id_free (maps_byte address b).
Proof. done. Qed.

Lemma disjoint_id_free m : id_free (λ n, ~ disjoint m n).
Proof. done. Qed.

Lemma disjoint_sym a b : disjoint a b -> disjoint b a.
Proof. unfold disjoint. lia. Qed.

Lemma disjoint_stable a b : ~ ~ disjoint a b -> disjoint a b.
Proof. unfold disjoint. lia. Qed.

Lemma owned_active t i n : table_wf t -> active t !! i = Some n -> owned_by t (m_owner n) n.
Proof. intros Hwf Hn. destruct (tw_id _ Hwf _ _ Hn) as [Hid _]. split; [by rewrite Hid|done]. Qed.

(** ** Compatible mappings *)

Lemma same_mapping_spec a b :
  same_mapping_except_inode_generation a b = true <->
  m_owner a = m_owner b /\ m_start a = m_start b /\ m_end a = m_end b /\
  forall address, backing a address = backing b address.
Proof.
  unfold same_mapping_except_inode_generation, backing.
  rewrite !andb_true_iff, !bool_decide_eq_true, !Z.eqb_eq. split.
  - intros [[[[[[[? ?] ?] ?] ?] ?] ?] ?]. repeat split; try done. intros address. congruence.
  - intros (? & ? & ? & Hb). specialize (Hb (m_start a)). injection Hb as ? ? ? ? ?.
    repeat split; try done. lia.
Qed.

Lemma same_mapping_identity a b :
  identity_from a = identity_from b -> same_mapping_except_inode_generation a b = true.
Proof.
  unfold identity_from. intros [= ? ? ? Ho ? ? ? ? ?]. apply same_mapping_spec. repeat split; try done.
  intros address. unfold backing. congruence.
Qed.

Lemma find_active_ok t p ids :
  (forall id, id ∈ ids -> is_Some (active t !! id)) ->
  exists r, find_active t p ids = Ok r /\
    match r with Some id => exists n, active t !! id = Some n /\ p n = true | None => True end.
Proof.
  induction ids as [|id ids IH]; intros Hin; cbn; [by exists None|].
  destruct (Hin id (list_elem_of_here _ _)) as [n Hn]. unfold active_at. rewrite Hn. cbn.
  destruct (p n) eqn:Hp; [exists (Some id); eauto|]. apply IH. intros i Hi. by apply Hin, list_elem_of_further.
Qed.

Lemma min_id_elem ids id : min_id ids = Some id -> id ∈ ids.
Proof.
  destruct ids as [|x ids]; [done|]. cbn. intros [= <-]. induction ids as [|y ids IH]; cbn.
  - apply list_elem_of_here.
  - apply elem_of_cons in IH as [Heq|Hin].
    + destruct (Z.min_spec y (foldr Z.min x ids)) as [[_ ->]|[_ ->]]; [set_solver|rewrite Heq; set_solver].
    + destruct (Z.min_spec y (foldr Z.min x ids)) as [[_ ->]|[_ ->]]; set_solver.
Qed.

Lemma find_compatible_ok t m :
  table_wf t -> exists r, find_compatible_active t m = Ok r /\
    match r with
    | Some id => exists n, active t !! id = Some n /\ same_mapping_except_inode_generation n m = true
    | None => active_by_key t !! identity_from m = None
    end.
Proof.
  intros Hwf. unfold find_compatible_active.
  destruct (active_by_key t !! identity_from m) as [id|] eqn:Hk.
  { exists (Some id). split; [done|]. apply (tw_key _ Hwf) in Hk as (n & Hn & Heq). exists n.
    split; [done|]. by apply same_mapping_identity. }
  destruct (negb _); [by exists None|].
  assert (forall n, compatible m n = true -> same_mapping_except_inode_generation n m = true) as Hc.
  { unfold compatible. intros n [_ ?]%andb_true_iff. done. }
  destruct (module_pid m) as [pid|].
  - pose proof (tw_process _ Hwf pid) as Hp. unfold process_set in Hp.
    destruct (active_by_process t !! pid) as [ids|]; [|by exists None]. cbn in Hp.
    destruct (find_active_ok t (compatible m)
                (snd <$> filter (λ p, p.1 = m_start m) (btree_iter ids))) as (r & -> & Hr).
    + intros id Hid. apply list_elem_of_fmap in Hid as ([s i] & -> & Hin).
      apply list_elem_of_filter in Hin as [_ Hin]. apply elem_of_btree_iter, Hp in Hin as (n & Hn & _).
      by exists n.
    + exists r. split; [done|]. destruct r as [id|]; [|done]. destruct Hr as (n & Hn & Hcn). eauto.
  - eexists. split; [done|]. destruct (min_id _) as [id|] eqn:Hmin; [|done].
    apply min_id_elem, list_elem_of_fmap in Hmin as ([i n] & -> & Hin).
    apply list_elem_of_filter in Hin as [Hcn Hin]. apply elem_of_map_to_list in Hin. cbn in Hcn. eauto.
Qed.

(** ** Fragments of all overlapped mappings *)

Lemma ForallOrdPairs_app {A} (R : relation A) l1 l2 :
  ForallOrdPairs R l1 -> ForallOrdPairs R l2 -> (forall x y, x ∈ l1 -> y ∈ l2 -> R x y) ->
  ForallOrdPairs R (l1 ++ l2).
Proof.
  induction 1 as [|x l1 Hx Hl1 IH]; intros H2 Hc; [done|]. cbn. constructor.
  - apply Forall_app. split; [done|]. apply list.Forall_forall. intros y Hy. apply Hc; [set_solver|done].
  - apply IH; [done|]. intros a b Ha Hb. apply Hc; [set_solver|done].
Qed.

Section fragments.
Context (t : ModuleTable) (Hwf : table_wf t) (pid : Z) (m : ModuleRecord).
Hypothesis Hrange : m_start m < m_end m.

Lemma collect_ok ids :
  NoDup ids -> (forall id, id ∈ ids -> exists n, active t !! id = Some n /\ m_owner n = Process pid) ->
  exists svs, collect_survivors t m ids = Ok svs /\ ForallOrdPairs disjoint svs.*2 /\
    forall f, f ∈ svs.*2 <->
      exists id n, id ∈ ids /\ active t !! id = Some n /\ f ∈ split_module_around n m.
Proof.
  induction ids as [|id ids IH]; intros Hnd Hids; cbn.
  { exists []. split; [done|]. split; [constructor|]. intros f.
    split; [by intros ?%elem_of_nil|by intros (? & ? & ?%elem_of_nil & _)]. }
  apply NoDup_cons in Hnd as [Hni Hnd].
  destruct (Hids id (list_elem_of_here _ _)) as (n & Hn & Hno).
  destruct IH as (svs & -> & Hpairs & Hsvs); [done|intros i Hi; by apply Hids, list_elem_of_further|].
  unfold active_at. rewrite Hn. cbn. eexists. split; [done|].
  assert ((((λ m0, (id, m0)) <$> split_module_around n m) ++ svs).*2 =
          split_module_around n m ++ svs.*2) as ->.
  { rewrite fmap_app, <- list_fmap_compose. f_equal. apply list_fmap_id. }
  pose proof (tw_range _ Hwf _ _ Hn) as Hnr. split.
  - apply ForallOrdPairs_app; [by apply split_disjoint|done|].
    intros f g Hf Hg. apply Hsvs in Hg as (j & n' & Hj & Hn' & Hg).
    destruct (split_ranges n m f Hnr Hrange Hf) as (_ & _ & ? & ? & _).
    destruct (split_ranges n' m g (tw_range _ Hwf _ _ Hn') Hrange Hg) as (_ & _ & ? & ? & _).
    destruct (Hids j (list_elem_of_further _ _ _ Hj)) as (n'' & Hn'' & Hno'').
    rewrite Hn' in Hn''. injection Hn'' as <-.
    assert (id <> j) as Hne by (intros ->; done).
    destruct (tw_disjoint _ Hwf _ _ _ _ Hn Hn' Hne); unfold disjoint, module_is_kernel in *;
      [congruence|by rewrite Hno|lia|lia].
  - intros f. rewrite elem_of_app, Hsvs. split.
    + intros [Hf|(j & n' & Hj & ?)]; [exists id, n; auto using list_elem_of_here|].
      exists j, n'. split; [by apply list_elem_of_further|done].
    + intros (j & n' & [->|Hj]%elem_of_cons & Hn' & Hf); [left; congruence|right; eauto].
Qed.

Lemma fragment_ok n f :
  mapping_ok n -> m_start n < m_end n -> mapping_ok m -> f ∈ split_module_around n m -> mapping_ok f.
Proof.
  intros [Hn Hj Hs] Hr [Hm _ _] Hf. destruct Hn, Hm. unfold split_module_around in Hf.
  apply elem_of_app in Hf as [Hf|Hf].
  - destruct (Z.ltb_spec (m_start n) (m_start m)); [|by apply elem_of_nil in Hf].
    apply list_elem_of_singleton in Hf as ->. split; cbn; [split; cbn; try done; word_lia|done|lia].
  - destruct (Z.ltb_spec (m_end m) (m_end n)); [|by apply elem_of_nil in Hf].
    apply list_elem_of_singleton in Hf as ->. unfold saturating_add_u64 in *.
    split; cbn; [split; cbn; try done; word_lia|done|lia].
Qed.
End fragments.

(** ** The operations *)

Section updates.
Context {S : Type} (logged : S -> log_modules -> Prop) (fails : ErrorKind -> Prop).
Context `{LoggedSink S logged fails}.
Implicit Types (t : ModuleTable) (s : S).
#[local] Abbreviation spec := (spec logged fails).

(** Nothing of another owner changes. *)
Definition only_owner (o : ModuleOwner) t t' : Prop :=
  forall o' n, o' <> o -> owned_by t' o' n <-> owned_by t o' n.

Lemma only_owner_trans o t1 t2 t3 : only_owner o t1 t2 -> only_owner o t2 t3 -> only_owner o t1 t3.
Proof. intros Ha Hb o' n Ho. rewrite (Hb o' n Ho). by apply Ha. Qed.

Lemma activate_has t m o P :
  table_wf t -> m_id m = Z.of_nat (next_id t) ->
  has (activate (m_id m) m t) o P <-> has t o P \/ (m_owner m = o /\ P m).
Proof.
  intros Hwf Hid. unfold has. setoid_rewrite activate_owned; [|done|done]. split.
  - intros (n & [[-> Ho]|Hn] & HP); [by right|left; eauto].
  - intros [(n & Hn & HP)|[Ho HP]]; [exists n; auto|exists m; auto].
Qed.

Lemma activate_only_owner t m :
  table_wf t -> m_id m = Z.of_nat (next_id t) -> only_owner (m_owner m) t (activate (m_id m) m t).
Proof.
  intros Hwf Hid o n Ho. rewrite activate_owned by done. split; [intros [[_ ?]|?]; [congruence|done]|by right].
Qed.

(** [t'] is [t] with the mappings [fs] added under new ids. *)
Definition grown t (fs : list ModuleRecord) t' : Prop :=
  forall o P, id_free P -> has t' o P <-> has t o P \/ Exists (λ f, m_owner f = o /\ P f) fs.

Lemma room_for_activate t m f :
  table_wf t -> m_id m = Z.of_nat (next_id t) -> room_for t f -> disjoint f m ->
  room_for (activate (m_id m) m t) f.
Proof.
  intros Hwf Hid [Hr Hd] Hdis. split; [done|]. intros i n [[_ ->]|Hn]%activate_lookup; [done| |done|done].
  by eapply Hd.
Qed.

Lemma intern_survivors_spec pid svs : forall t s,
  table_inv t ->
  Forall (λ f, mapping_ok f /\ m_owner f = Process pid /\ room_for t f) svs.*2 ->
  ForallOrdPairs disjoint svs.*2 ->
  spec (intern_survivors svs) t s (λ acts t', grown t svs.*2 t' /\ only_owner (Process pid) t t' /\
    forall n, owned_by t' (Process pid) n <-> owned_by t (Process pid) n \/ n ∈ a_module <$> acts).
Proof.
  induction svs as [|[src f] svs IH]; intros t s Hi Hf Hp; cbn [intern_survivors].
  { apply spec_ret; [done|]. split_and!; [|done|intros n; cbn; rewrite elem_of_nil; tauto]. intros o P _. rewrite Exists_nil. tauto. }
  cbn [fmap list_fmap snd] in Hf, Hp. apply Forall_cons in Hf as [(Hok & Ho & Hroom) Hf].
  inversion Hp as [|? ? Hpf Hps]; subst. pose proof (ti_wf _ Hi) as Hwf.
  eapply spec_bind.
  { apply (intern_spec logged fails); [done|done|done|]. apply room_key_absent; [done|done|].
    unfold module_is_kernel. by rewrite Ho. }
  intros id t1 s1 Hi1 [Hid ->]. set (f1 := with_id id f).
  assert (m_id f1 = Z.of_nat (next_id t)) as Hid1 by done.
  change id with (m_id f1) in Hi1 |- *.
  apply spec_table. eapply spec_lift.
  { unfold active_at. cbn. by rewrite lookup_insert_eq. }
  eapply spec_bind.
  { apply IH; [done| |done]. rewrite list.Forall_forall in Hf, Hpf |- *. intros g Hg.
    destruct (Hf g Hg) as (? & ? & ?). split; [done|]. split; [done|].
    apply room_for_activate; [done|done|done|]. apply disjoint_sym. by apply (Hpf g). }
  intros acts t2 s2 Hi2 (Hg & Hoo & Hact). apply spec_ret; [done|]. split_and!.
  - intros o P HP. rewrite (Hg o P HP), (activate_has t f1) by done. cbn [fmap list_fmap snd].
    rewrite Exists_cons. rewrite (HP id f : P f1 <-> P f). tauto.
  - eapply only_owner_trans; [|done]. rewrite <- Ho. by apply (activate_only_owner t f1).
  - intros n. rewrite (Hact n), activate_owned by done. cbn [fmap list_fmap a_module]. rewrite elem_of_cons.
    split; [intros [[[? _]|?]|?]; auto|]. intros [?|[->|?]]; [auto| |auto]. left. by left.
Qed.

Lemma overlap_false_disjoint n m :
  m_start n < m_end n -> module_ranges_overlap n m = false -> m_start m < m_end m -> disjoint m n.
Proof.
  unfold module_ranges_overlap, disjoint. intros Hn Ho Hm. apply andb_false_iff in Ho. lia.
Qed.

(** [retired] and [acts] are what an update of a process retires and activates. *)
Definition described (pid : Z) (retired : list ModuleRecord) (acts : list ModuleActivation) t t' : Prop :=
  (forall n, n ∈ retired -> owned_by t (Process pid) n) /\
  forall n, owned_by t' (Process pid) n <-> (owned_by t (Process pid) n /\ n ∉ retired) \/ n ∈ a_module <$> acts.

Lemma described_nil pid t : described pid [] [] t t.
Proof.
  split; [by intros n ?%elem_of_nil|]. intros n. cbn. rewrite !elem_of_nil. tauto.
Qed.

Lemma described_retire pid retired acts (ids : list Z) t t1 t2 :
  (forall i n, active t1 !! i = Some n <-> active t !! i = Some n /\ i ∉ ids) ->
  (forall n, n ∈ retired <-> active t !! m_id n = Some n /\ m_id n ∈ ids) ->
  (forall id, id ∈ ids -> exists n, active t !! id = Some n /\ m_owner n = Process pid) ->
  (forall n, owned_by t2 (Process pid) n <-> owned_by t1 (Process pid) n \/ n ∈ a_module <$> acts) ->
  described pid retired acts t t2.
Proof.
  intros Hr Hret Hown Hact. split.
  - intros n [Hn Hid]%Hret. split; [done|]. destruct (Hown _ Hid) as (k & Hk & Ho). congruence.
  - intros n. rewrite Hact, Hret. unfold owned_by. rewrite Hr. tauto.
Qed.

(** A hole of the size of [m] in the address space of its process. *)
Definition cleared (o : ModuleOwner) (m : ModuleRecord) t t' : Prop :=
  only_owner o t t' /\
  forall address b, has t' o (maps_byte address b) <->
    has t o (maps_byte address b) /\ ~ inside address m.

Lemma retired_has t t1 (ids : list Z) o P :
  (forall i n, active t1 !! i = Some n <-> active t !! i = Some n /\ i ∉ ids) ->
  has t1 o P <-> exists n, owned_by t o n /\ (m_id n ∉ ids) /\ P n.
Proof.
  intros Hr. unfold has, owned_by. split.
  - intros (n & [Hn Ho] & HP). apply Hr in Hn as [Hn Hni]. eauto 6.
  - intros (n & [Hn Ho] & Hni & HP). exists n. rewrite Hr. auto.
Qed.

Lemma replace_overlaps_spec pid t s m :
  table_inv t -> mapping_ok m -> m_owner m = Process pid -> m_start m < m_end m ->
  spec (replace_overlaps pid m) t s (λ '(retired, acts) t', room_for t' m /\ cleared (Process pid) m t t' /\
    described pid retired acts t t').
Proof.
  intros Hi Hm Ho Hr. pose proof (ti_wf _ Hi) as Hwf. apply spec_table.
  destruct (overlapping_exact t Hwf pid m) as (cand & ids & -> & Hret & Hnd & Hids).
  eapply spec_lift; [done|]. rewrite Hret. eapply spec_lift; [done|].
  assert (forall id n, active t !! id = Some n -> m_owner n = Process pid -> id ∉ ids -> disjoint m n) as Hkeep.
  { intros id n Hn Hno Hni. apply overlap_false_disjoint; [by eapply tw_range| |done].
    destruct (module_ranges_overlap n m) eqn:E; [|done]. exfalso. apply Hni, Hids. eauto. }
  destruct (decide (ids = [])) as [->|Hne].
  { apply spec_ret; [done|]. split_and!; [| |apply described_nil].
    - split; [done|]. intros i n Hn Hno _. eapply Hkeep; [done|congruence|]. by intros ?%elem_of_nil.
    - split; [done|]. intros address b. split; [|by intros [? _]]. intros (n & [Hn Hno] & [Hin Hb]).
      split; [by exists n|]. unfold inside in *.
      destruct (Hkeep (m_id n) n Hn Hno ltac:(by intros ?%elem_of_nil)); lia. }
  destruct ids as [|id0 ids0] eqn:Heq; [done|]. rewrite <- Heq in *. clear Heq Hne id0 ids0.
  assert (forall id, id ∈ ids -> exists n, active t !! id = Some n /\ m_owner n = Process pid) as Hown.
  { intros id Hid. apply Hids in Hid as (n & ? & ? & _). eauto. }
  destruct (collect_ok t Hwf pid m Hr ids Hnd Hown) as (svs & Hsvs & Hpairs & Hfrag).
  rewrite Hsvs. eapply spec_lift; [done|].
  eapply spec_bind with (P := λ _ t1, t1 = mark_dirty pid t).
  { unfold TableOps.spec, update_table, io_modify. cbn. split; [destruct Hi; split; [by apply mark_dirty_wf|done]|].
    split; [done|]. intros l Hl Ha. exists l. split; [done|]. by apply (agree_same t). }
  intros [] t1 s1 Hi1 ->.
  eapply spec_bind; [apply (retire_all_spec _ _ pid); [done| |done|done]|].
  { cbn. apply elem_of_union. left. by apply elem_of_singleton. }
  intros retired t2 s2 Hi2 [Hret2 Hgone]; cbn beta in Hret2, Hgone; change (active (mark_dirty pid t)) with (active t) in Hret2, Hgone.
  eapply spec_bind.
  { apply (intern_survivors_spec pid); [done| |done]. apply list.Forall_forall. intros f Hf.
    apply Hfrag in Hf as (id & n & Hid & Hn & Hf).
    destruct (split_ranges n m f (tw_range _ Hwf _ _ Hn) Hr Hf) as (Hfr & Hfo & Hf1 & Hf2 & _).
    destruct (Hown id Hid) as (n' & Hn' & Hno). rewrite Hn in Hn'. injection Hn' as <-.
    split; [eapply (fragment_ok m Hr n); [exact (ti_ok _ Hi _ _ Hn)|exact (tw_range _ Hwf _ _ Hn)|done|done]|].
    split; [congruence|]. split; [done|]. intros i k Hk Hko _.
    apply Hret2 in Hk as [Hk Hki].
    assert (id <> i) as Hne by (intros ->; done).
    destruct (tw_disjoint _ Hwf _ _ _ _ Hn Hk Hne); unfold disjoint, module_is_kernel in *;
      [congruence|by rewrite Hno|lia|lia]. }
  intros acts t3 s3 Hi3 (Hg & Hoo & Hact). apply spec_ret; [done|].
  assert (only_owner (Process pid) t t2) as Hoo2.
  { intros o' n Ho'. unfold owned_by. rewrite Hret2. split; [by intros [[? _] ?]|]. intros [Hn Hno].
    split; [|done]. split; [done|]. intros Hin. apply Hown in Hin as (n' & Hn' & Hno').
    rewrite Hn in Hn'. injection Hn' as <-. congruence. }
  split_and!; [| |by eapply (described_retire pid _ _ ids t t2)].
  - split; [done|]. intros i n Hn Hno _. apply disjoint_stable. intros Hnd'.
    assert (has t3 (Process pid) (λ n, ~ disjoint m n)) as Hhas.
    { exists n. split; [|done]. rewrite <- Ho, <- Hno. eapply owned_active; [apply Hi3|done]. }
    apply (Hg _ _ (disjoint_id_free m)) in Hhas as [Hhas|Hex].
    + apply (retired_has t t2 ids _ _ Hret2) in Hhas as (k & [Hk Hko] & Hki & Hkd). by apply Hkd, (Hkeep (m_id k)).
    + apply Exists_exists in Hex as (f & Hf & _ & Hfd).
      apply Hfrag in Hf as (id & k & Hid & Hk & Hf). apply Hfd, disjoint_sym.
      by destruct (split_ranges k m f (tw_range _ Hwf _ _ Hk) Hr Hf) as (_ & _ & _ & _ & ?).
  - split; [by eapply only_owner_trans|]. intros address b.
    rewrite (Hg _ _ (maps_byte_id_free address b)), (retired_has t t2 ids _ _ Hret2). split.
    + intros [(n & [Hn Hno] & Hni & Hb)|Hex].
      * split; [by exists n|]. destruct Hb as [Hin _]. unfold inside in *.
        destruct (Hkeep (m_id n) n Hn Hno Hni); lia.
      * apply Exists_exists in Hex as (f & Hf & _ & Hfb).
        apply Hfrag in Hf as (id & k & Hid & Hk & Hf). pose proof (ti_ok _ Hi _ _ Hk) as Hkok.
        assert (Exists (maps_byte address b) (split_module_around k m)) as Hex
          by (apply Exists_exists; exists f; done).
        apply split_backing in Hex as [Hkb Hout];
          [|apply Hkok|apply (mok_file_offset _ (mpo_ok _ Hkok))|by eapply tw_range|done].
        split; [|done]. exists k. split; [|done]. destruct (Hown id Hid) as (k' & Hk' & Hko).
        rewrite Hk in Hk'. injection Hk' as <-. rewrite <- Hko. by eapply owned_active.
    + intros [(n & [Hn Hno] & Hb) Hout]. destruct (decide (m_id n ∈ ids)) as [Hin|Hni]; [right|left; by exists n].
      pose proof (ti_ok _ Hi _ _ Hn) as Hnok.
      assert (Exists (maps_byte address b) (split_module_around n m)) as Hex.
      { apply split_backing; [apply Hnok|apply (mok_file_offset _ (mpo_ok _ Hnok))|by eapply tw_range|done|done]. }
      apply Exists_exists in Hex as (f & Hf & Hfb). apply Exists_exists. exists f.
      split; [apply Hfrag; by exists (m_id n), n|]. split; [|done].
      destruct (split_ranges n m f (tw_range _ Hwf _ _ Hn) Hr Hf) as (_ & -> & _). done.
Qed.
End updates.

(** ** Mapping, forking, exiting

    The three operations of the module table as updates of address spaces:
    [apply_module] maps a range over whatever was there, [clone_process_modules]
    overlays the parent's space on the child's, [deactivate_process_modules]
    empties a space. *)

Lemma inherit_ok child m : is_pid child -> mapping_ok m -> mapping_ok (inherit child m).
Proof. intros Hc [[] Hj Hs]. split; [split; cbn; try done; word_lia|done|done]. Qed.

Section updates.
Context {S : Type} (logged : S -> log_modules -> Prop) (fails : ErrorKind -> Prop).
Context `{LoggedSink S logged fails}.
Implicit Types (t : ModuleTable) (s : S).
#[local] Abbreviation spec := (spec logged fails).

(** ** Mapping *)

(** [m] is mapped over the space of [o]; nothing else changes. *)
Definition mapped (o : ModuleOwner) (m : ModuleRecord) t t' : Prop :=
  only_owner o t t' /\
  forall address b, has t' o (maps_byte address b) <->
    maps_byte address b m \/ (has t o (maps_byte address b) /\ ~ inside address m).

Lemma mapped_empty o m t : m_end m <= m_start m -> mapped o m t t.
Proof.
  intros Hle. split; [done|]. intros address b.
  assert (~ inside address m) as Hout by (unfold inside; lia). unfold maps_byte at 2. tauto.
Qed.

(** A compatible mapping is already the one asked for. *)
Lemma mapped_known t id n m pid :
  table_wf t -> m_owner m = Process pid -> active t !! id = Some n ->
  same_mapping_except_inode_generation n m = true -> mapped (Process pid) m t t.
Proof.
  intros Hwf Ho Hn (Hno & Hs & He & Hb)%same_mapping_spec. split; [done|]. intros address b.
  assert (forall c, maps_byte address c m <-> maps_byte address c n) as Hmn.
  { intros c. unfold maps_byte, inside. by rewrite Hb, Hs, He. }
  assert (inside address m <-> inside address n) as Hin by (unfold inside; by rewrite Hs, He).
  rewrite Hmn, Hin. rewrite Ho in Hno. split.
  - intros (k & [Hk Hko] & Hkb). destruct (decide (m_id k = id)) as [Hid|Hne].
    + left. rewrite Hid, Hn in Hk. injection Hk as ->. done.
    + right. split; [by exists k|]. destruct Hkb as [Hki _]. unfold inside in *.
      destruct (tw_disjoint _ Hwf _ _ _ _ Hk Hn Hne); [congruence|unfold module_is_kernel; by rewrite Hko|lia|lia].
  - intros [Hnb|[? _]]; [|done]. exists n. split; [|done]. rewrite <- Hno. by eapply owned_active.
Qed.

Lemma activate_mapped t t1 m id pid :
  table_wf t1 -> id = Z.of_nat (next_id t1) -> m_owner m = Process pid ->
  cleared (Process pid) m t t1 -> mapped (Process pid) m t (activate id (with_id id m) t1).
Proof.
  intros Hwf Hid Ho [Hoo Hc]. change (activate id) with (activate (m_id (with_id id m))). split.
  - eapply only_owner_trans; [done|]. rewrite <- Ho. by apply (activate_only_owner t1 (with_id id m)).
  - intros address b. rewrite activate_has, Hc by done. cbn [m_owner with_id].
    rewrite (maps_byte_id_free address b id m). tauto.
Qed.

Lemma described_again pid n src t : owned_by t (Process pid) n -> described pid [] [mkActivation n src] t t.
Proof.
  intros Hn. split; [by intros k ?%elem_of_nil|]. intros k. cbn. rewrite elem_of_nil, list_elem_of_singleton.
  split; [tauto|]. by intros [[? _]| ->].
Qed.

Lemma described_activate pid retired acts t t1 m src :
  table_wf t1 -> m_id m = Z.of_nat (next_id t1) -> m_owner m = Process pid -> described pid retired acts t t1 ->
  described pid retired (acts ++ [mkActivation m src]) t (activate (m_id m) m t1).
Proof.
  intros Hwf Hid Ho [Hr Hd]. split; [done|]. intros n. rewrite activate_owned, Hd, fmap_app, elem_of_app by done.
  cbn. rewrite list_elem_of_singleton. split; [intros [[-> _]|[?|?]]; auto|]. intros [?|[?| ->]]; auto.
Qed.

Lemma apply_module_spec t s m pid :
  table_inv t -> mapping_ok m -> m_owner m = Process pid ->
  spec (apply_module m) t s (λ u t', mapped (Process pid) m t t' /\
    (m_start m < m_end m -> u_active u <> []) /\ described pid (u_retired u) (u_active u) t t').
Proof.
  intros Hi Hm Ho. pose proof (ti_wf _ Hi) as Hwf. unfold apply_module.
  destruct (Z.leb_spec (m_end m) (m_start m)) as [Hle|Hr].
  { apply spec_ret; [done|]. split_and!; [by apply mapped_empty|lia|apply described_nil]. }
  apply spec_table. destruct (find_compatible_ok t m Hwf) as (r & Hfind & Hr').
  eapply spec_lift; [exact Hfind|]. destruct r as [id|].
  { destruct Hr' as (n & Hn & Hsame). eapply spec_lift; [unfold active_at; by rewrite Hn|].
    apply spec_ret; [done|]. split_and!; [by eapply mapped_known|done|]. apply described_again. apply same_mapping_spec in Hsame as (Hno & _).
    rewrite <- Ho, <- Hno. by eapply owned_active. }
  unfold module_pid. rewrite Ho. cbn [owner_pid].
  eapply spec_bind; [by apply (replace_overlaps_spec logged fails pid t s m)|].
  intros [retired acts] t1 s1 Hi1 (Hroom & Hclear & Hdesc); cbn beta.
  eapply spec_bind.
  { apply (intern_spec logged fails); [done|done|done|].
    apply room_key_absent; [apply Hi1|done|unfold module_is_kernel; by rewrite Ho]. }
  intros id t2 s2 Hi2 [Hid ->]; cbn beta. apply spec_table.
  eapply spec_lift; [unfold active_at; cbn; by rewrite lookup_insert_eq|].
  apply spec_ret; [done|]. split_and!; [apply activate_mapped; [apply Hi1|done..]| |].
  - intros _ Hnil. cbn in Hnil. apply app_eq_nil in Hnil as [_ Hnil]. done.
  - cbn [u_retired u_active fst snd]. apply (described_activate _ _ _ t t1 (with_id id m)); [apply Hi1|done..].
Qed.

(** Kernel mappings may overlap: they are only ever added. *)
Lemma apply_kernel_module_spec t s m :
  table_inv t -> mapping_ok m -> m_owner m = KernelOwner ->
  spec (apply_module m) t s (λ u t', only_owner KernelOwner t t' /\
    (forall address b, has t' KernelOwner (maps_byte address b) <->
      has t KernelOwner (maps_byte address b) \/ maps_byte address b m) /\
    Forall (λ a, m_owner (a_module a) = KernelOwner) (u_active u)).
Proof.
  intros Hi Hm Ho. pose proof (ti_wf _ Hi) as Hwf. unfold apply_module.
  destruct (Z.leb_spec (m_end m) (m_start m)) as [Hle|Hr].
  { apply spec_ret; [done|]. split_and!; [done| |constructor]. intros address b. unfold maps_byte at 3, inside.
    split; [by left|]. intros [?|[? _]]; [done|lia]. }
  apply spec_table. destruct (find_compatible_ok t m Hwf) as (r & Hfind & Hr').
  eapply spec_lift; [exact Hfind|]. destruct r as [id|].
  { destruct Hr' as (n & Hn & Hsame). eapply spec_lift; [unfold active_at; by rewrite Hn|].
    apply same_mapping_spec in Hsame as (Hno & Hs & He & Hbk).
    apply spec_ret; [done|]. split_and!; [done| |repeat constructor; cbn; congruence]. intros address b. split; [by left|]. intros [?|Hb]; [done|].
    exists n. split; [rewrite <- Ho, <- Hno; by eapply owned_active|].
    unfold maps_byte, inside in *. by rewrite Hbk, Hs, He. }
  unfold module_pid. rewrite Ho. cbn [owner_pid].
  eapply spec_bind with (P := λ replaced t', replaced = ([], []) /\ t' = t); [by apply spec_ret|]. intros replaced t1 s1 _ [-> ->].
  eapply spec_bind.
  { apply (intern_spec logged fails); [done|done| |done]. split; [done|]. intros i n _ _ Hk.
    unfold module_is_kernel in Hk. by rewrite Ho in Hk. }
  intros id t2 s2 Hi2 [Hid ->]; cbn beta. apply spec_table.
  eapply spec_lift; [unfold active_at; cbn; by rewrite lookup_insert_eq|].
  apply spec_ret; [done|]. change (activate id) with (activate (m_id (with_id id m))). split_and!.
  - rewrite <- Ho. by apply (activate_only_owner t (with_id id m)).
  - intros address b. rewrite activate_has by done. cbn [m_owner with_id].
    rewrite (maps_byte_id_free address b id m). tauto.
  - repeat constructor. done.
Qed.

(** ** Forking *)

Lemma inherit_maps child address b m : maps_byte address b (inherit child m) <-> maps_byte address b m.
Proof. done. Qed.

(** The parent's mappings with ids in [ids] laid over the child's space. *)
Definition overlaid (parent child : Z) (ids : list Z) t t' : Prop :=
  only_owner (Process child) t t' /\
  forall address b, has t' (Process child) (maps_byte address b) <->
    has t (Process parent) (λ n, m_id n ∈ ids /\ maps_byte address b n) \/
    (has t (Process child) (maps_byte address b) /\
     ~ has t (Process parent) (λ n, m_id n ∈ ids /\ inside address n)).

Lemma overlaid_nil parent child t : overlaid parent child [] t t.
Proof.
  split; [done|]. intros address b.
  assert (forall P, ~ has t (Process parent) (λ n, m_id n ∈ [] /\ P n)) as Hno.
  { intros P (n & _ & ?%elem_of_nil & _). done. }
  pose proof (Hno (inside address)). pose proof (Hno (maps_byte address b)). tauto.
Qed.

(** One more mapping of the parent. *)
Lemma overlaid_cons parent child n ids t t1 t2 :
  table_wf t -> parent <> child -> owned_by t (Process parent) n -> m_id n ∉ ids ->
  mapped (Process child) (inherit child n) t t1 -> overlaid parent child ids t1 t2 ->
  overlaid parent child (m_id n :: ids) t t2.
Proof.
  intros Hwf Hne [Hn Hno] Hni [Ho1 Hm1] [Ho2 Hm2]. split; [by eapply only_owner_trans|]. intros address b.
  assert (forall P, has t1 (Process parent) P <-> has t (Process parent) P) as Hpar.
  { intros P. unfold has. setoid_rewrite (Ho1 (Process parent)); [done|congruence]. }
  assert (forall P, has t (Process parent) (λ k, m_id k ∈ m_id n :: ids /\ P k) <->
            P n \/ has t (Process parent) (λ k, m_id k ∈ ids /\ P k)) as Hcons.
  { intros P. split.
    - intros (k & [Hk Hko] & Hin & HP). apply elem_of_cons in Hin as [Heq|Hin]; [|right; by exists k].
      left. rewrite Heq, Hn in Hk. by injection Hk as ->.
    - intros [HP|(k & Hk & Hin & HP)]; [exists n|exists k]; (split; [done|]; split; [|done]);
        [apply list_elem_of_here|by apply list_elem_of_further]. }
  rewrite Hm2, !Hpar, Hm1, !Hcons, inherit_maps.
  assert (inside address (inherit child n) <-> inside address n) as -> by done.
  assert (maps_byte address b n -> inside address n) by (by intros []).
  assert (inside address n -> ~ has t (Process parent) (λ k, m_id k ∈ ids /\ inside address k)) as Hsep.
  { intros Hins (k & [Hk Hko] & Hin & Hki). assert (m_id n <> m_id k) as Hd by (intros Heq; by rewrite <- Heq in Hin).
    unfold inside in *.
    destruct (tw_disjoint _ Hwf _ _ _ _ Hn Hk Hd); [congruence|unfold module_is_kernel; by rewrite Hno|lia|lia]. }
  tauto.
Qed.

(** The sources of a clone and the room for their copies. *)
Definition clone_ready (parent child : Z) (child_has_modules : bool) t n : Prop :=
  owned_by t (Process parent) n /\ (child_has_modules = false -> room_for t (inherit child n)).

Lemma clone_ready_copy parent child t n k id :
  table_wf t -> parent <> child -> owned_by t (Process parent) n -> id = Z.of_nat (next_id t) ->
  clone_ready parent child false t k -> m_id k <> m_id n ->
  clone_ready parent child false (activate id (with_id id (inherit child n)) t) k.
Proof.
  intros Hwf Hne [Hn Hno] Hid [[Hk Hko] Hroom] Hd.
  change (activate id) with (activate (m_id (with_id id (inherit child n)))). split.
  - apply activate_owned; [done|done|]. by right.
  - intros _. apply room_for_activate; [done|done|by apply Hroom|].
    destruct (tw_disjoint _ Hwf _ _ _ _ Hk Hn Hd); unfold disjoint; cbn;
      [congruence|unfold module_is_kernel; by rewrite Hko|lia|lia].
Qed.

Lemma clone_loop_spec parent child flag :
  is_pid child -> parent <> child -> forall ids t s combined,
  table_inv t -> NoDup ids ->
  (forall id, id ∈ ids -> exists n, m_id n = id /\ clone_ready parent child flag t n) ->
  spec (clone_loop child flag ids combined) t s (λ _ t', overlaid parent child ids t t').
Proof.
  intros Hpid Hne. induction ids as [|id ids IH]; intros t s combined Hi Hnd Hids; cbn [clone_loop].
  { apply spec_ret; [done|apply overlaid_nil]. }
  apply NoDup_cons in Hnd as [Hni Hnd].
  destruct (Hids id (list_elem_of_here _ _)) as (n & <- & [Hn Hno] & Hroom). pose proof (ti_wf _ Hi) as Hwf.
  pose proof (inherit_ok child n Hpid (ti_ok _ Hi _ _ Hn)) as Hok.
  apply spec_table. eapply spec_lift; [unfold active_at; by rewrite Hn|]. cbn zeta.
  eapply spec_bind with (P := λ _ t1, mapped (Process child) (inherit child n) t t1 /\
    forall k, m_id k ∈ ids -> clone_ready parent child flag t k -> clone_ready parent child flag t1 k).
  - destruct flag.
    + eapply spec_bind; [by apply (apply_module_spec t s (inherit child n) child)|].
      intros u t1 s1 Hi1 (Hm & Hact & _); cbn beta. specialize (Hact (tw_range _ Hwf _ _ Hn)).
      unfold tag_last. destruct (list.last (u_active u)) eqn:Hl; [|by apply last_None in Hl].
      eapply spec_lift; [done|]. apply spec_ret; [done|]. split; [done|].
      intros k _ [Hk _]. split; [|done]. apply Hm; [congruence|done].
    + specialize (Hroom eq_refl). eapply spec_bind.
      { apply (intern_spec logged fails); [done|done|done|]. by apply room_key_absent. }
      intros id t1 s1 Hi1 [Hid ->]; cbn beta. apply spec_table.
      eapply spec_lift; [unfold active_at; cbn; by rewrite lookup_insert_eq|]. apply spec_ret; [done|].
      assert (mapped (Process child) (inherit child n) t (activate id (with_id id (inherit child n)) t)) as Hm.
      { apply activate_mapped; [done|done|done|]. split; [done|]. intros address b. split; [|by intros [? _]].
        intros Hb. split; [done|]. destruct Hb as (k & [Hk Hko] & Hki & _). destruct Hroom as [_ Hd].
        unfold inside in *. destruct (Hd _ _ Hk); [done|done|lia|lia]. }
      split; [done|]. intros k Hk Hkr. apply (clone_ready_copy parent child t n); [done..|]. intros Heq. by rewrite Heq in Hk.
  - intros c t1 s1 Hi1 [Hm Hready]; cbn beta. eapply spec_impl.
    { apply IH; [done|done|]. intros id Hid. destruct (Hids id) as (k & <- & Hk); [by apply list_elem_of_further|].
      exists k. split; [done|]. by apply Hready. }
    intros c' t2 Hov. by apply (overlaid_cons parent child n ids t t1 t2).
Qed.

(** A child without mappings gets a copy of every mapping, with a new id. *)
Definition copied (child : Z) (n : ModuleRecord) t : Prop :=
  exists k, owned_by t (Process child) k /\ k = with_id (m_id k) (inherit child n).

Lemma clone_copies_spec parent child :
  is_pid child -> parent <> child -> forall ids t s combined,
  table_inv t -> NoDup ids ->
  (forall id, id ∈ ids -> exists n, m_id n = id /\ clone_ready parent child false t n) ->
  spec (clone_loop child false ids combined) t s (λ u t', u_retired u = u_retired combined /\
    (forall n, owned_by t (Process child) n -> owned_by t' (Process child) n) /\
    (forall n, owned_by t (Process parent) n -> m_id n ∈ ids -> copied child n t') /\
    forall a, a ∈ u_active u -> a ∈ u_active combined \/ owned_by t' (Process child) (a_module a)).
Proof.
  intros Hpid Hne. induction ids as [|id ids IH]; intros t s combined Hi Hnd Hids; cbn [clone_loop].
  { apply spec_ret; [done|]. split_and!; [done|done|by intros n _ ?%elem_of_nil|auto]. }
  apply NoDup_cons in Hnd as [Hni Hnd].
  destruct (Hids id (list_elem_of_here _ _)) as (n & <- & [Hn Hno] & Hroom). pose proof (ti_wf _ Hi) as Hwf.
  pose proof (inherit_ok child n Hpid (ti_ok _ Hi _ _ Hn)) as Hok. specialize (Hroom eq_refl).
  apply spec_table. eapply spec_lift; [unfold active_at; by rewrite Hn|]. cbn zeta.
  set (copy id := with_id id (inherit child n)).
  eapply spec_bind with (P := λ c t1, exists id, id = Z.of_nat (next_id t) /\ t1 = activate id (copy id) t /\
    u_retired c = u_retired combined /\ u_active c = u_active combined ++ [mkActivation (copy id) (Some (m_id n))]).
  { eapply spec_bind; [apply (intern_spec logged fails); [done|done|done|]; by apply room_key_absent|].
    intros id t1 s1 Hi1 [Hid ->]; cbn beta. apply spec_table.
    eapply spec_lift; [unfold active_at; cbn; by rewrite lookup_insert_eq|]. apply spec_ret; [done|]. by exists id. }
  intros c t1 s1 Hi1 (id & Hid & -> & Hcr & Hca). cbn beta.
  assert (forall o k, owned_by (activate id (copy id) t) o k <-> (k = copy id /\ o = Process child) \/ owned_by t o k) as Hown.
  { intros o k. change id with (m_id (copy id)) at 1. rewrite activate_owned by done. cbn. intuition congruence. }
  eapply spec_impl.
  { apply IH; [done|done|]. intros i Hin. destruct (Hids i) as (k & <- & Hk); [by apply list_elem_of_further|].
    exists k. split; [done|]. apply (clone_ready_copy parent child t n); [done..|]. intros Heq. by rewrite Heq in Hin. }
  intros u t2 (Hur & Hkeep & Hcopy & Hact). assert (owned_by t2 (Process child) (copy id)) as Hc by (apply Hkeep, Hown; auto).
  split_and!; [congruence|intros k Hk; apply Hkeep, Hown; auto| |].
  - intros k [Hk Hko] [Heq|Hin]%elem_of_cons; [|apply Hcopy; [apply Hown; right; by split|done]].
    exists (copy id). split; [done|]. rewrite Heq, Hn in Hk. by injection Hk as <-.
  - intros a [Ha|?]%Hact; [|auto]. rewrite Hca in Ha. apply elem_of_app in Ha as [?| ->%list_elem_of_singleton]; auto.
Qed.

Lemma process_ids_owned t pid id :
  table_wf t -> id ∈ process_module_ids t pid <-> exists n, m_id n = id /\ owned_by t (Process pid) n.
Proof.
  intros Hwf. pose proof (tw_process _ Hwf pid) as Hp. unfold process_module_ids, process_set in *.
  destruct (active_by_process t !! pid) as [ids|]; cbn in Hp.
  - rewrite list_elem_of_fmap. setoid_rewrite elem_of_btree_iter. split.
    + intros ([s i] & -> & Hin). apply Hp in Hin as (n & Hn & Ho & _). exists n.
      destruct (tw_id _ Hwf _ _ Hn) as [Hid _]. split; [done|]. unfold owned_by. by rewrite Hid.
    + intros (n & <- & Hn & Ho). exists (m_start n, m_id n). split; [done|]. apply Hp. by exists n.
  - split; [by intros ?%elem_of_nil|]. intros (n & <- & Hn & Ho).
    exfalso. apply (not_elem_of_empty (C := gset (Z * Z)) (m_start n, m_id n)). apply Hp. by exists n.
Qed.

Lemma process_ids_nodup t pid : table_wf t -> NoDup (process_module_ids t pid).
Proof.
  intros Hwf. pose proof (tw_process _ Hwf pid) as Hp. unfold process_module_ids, process_set in *.
  destruct (active_by_process t !! pid) as [ids|]; [|constructor]. cbn in Hp.
  apply NoDup_fmap_2_strong; [|apply btree_iter_nodup].
  intros [s i] [s' i'] Hin Hin' Heq. cbn in Heq. subst i'.
  apply elem_of_btree_iter, Hp in Hin as (n & Hn & _ & <-).
  apply elem_of_btree_iter, Hp in Hin' as (n' & Hn' & _ & <-). congruence.
Qed.

Lemma clone_process_spec parent child t s :
  table_inv t -> parent <> child ->
  spec (clone_process_modules parent child) t s (λ _ t', only_owner (Process child) t t' /\
    forall address b, has t' (Process child) (maps_byte address b) <->
      has t (Process parent) (maps_byte address b) \/
      (has t (Process child) (maps_byte address b) /\ ~ has t (Process parent) (inside address))).
Proof.
  intros Hi Hne. pose proof (ti_wf _ Hi) as Hwf. unfold clone_process_modules.
  destruct (Pid_try_from_i32 child) as [c|] eqn:Hc.
  2: { unfold TableOps.spec, mbind, io_mbind, io_lift. cbn. split; [done|]. by right; left. }
  apply Pid_new_spec in Hc as [-> Hpid]. eapply spec_lift; [done|]. apply spec_table. cbn zeta.
  set (flag := bool_decide _). eapply spec_bind.
  { apply (clone_loop_spec parent c flag Hpid Hne); [done|by apply process_ids_nodup|].
    intros id Hid. apply process_ids_owned in Hid as (n & <- & Hn); [|done]. exists n. split; [done|].
    split; [done|]. intros Hflag. destruct Hn as [Hn _]. split; [by apply (tw_range _ Hwf _ _ Hn)|]. cbn.
    intros i k Hk Hko _. exfalso. apply bool_decide_eq_false in Hflag. apply Hflag.
    destruct (active_by_process t !! c) as [ids|] eqn:Hids; [by exists ids|]. exfalso.
    apply (not_elem_of_empty (C := gset (Z * Z)) (m_start k, i)).
    pose proof (tw_process _ Hwf c) as Hp. unfold process_set in Hp. rewrite Hids in Hp. cbn in Hp.
    apply Hp. by exists k. }
  intros u t' s' Hi' [Hoo Hov]; cbn beta. apply spec_ret; [done|]. split; [done|].
  assert (forall P, has t (Process parent) (λ n, m_id n ∈ process_module_ids t parent /\ P n) <->
            has t (Process parent) P) as Hall.
  { intros P. split; intros (n & Hn & HP); exists n; (split; [done|]).
    - by destruct HP.
    - split; [|done]. apply process_ids_owned; [done|]. by exists n. }
  intros address b. by rewrite Hov, !Hall.
Qed.

(** ** Exiting *)

(** [t'] is [t] without the modules [ids], the process sets aside. *)
Record forgotten (ids : list Z) t t' : Prop := {
  fg_active i n : active t' !! i = Some n <-> active t !! i = Some n /\ i ∉ ids;
  fg_key k i : active_by_key t' !! k = Some i <-> active_by_key t !! k = Some i /\ i ∉ ids;
  fg_next : next_id t' = next_id t;
  fg_process : active_by_process t' = active_by_process t;
  fg_index : index t' = index t;
  fg_dirty : dirty_processes t' = dirty_processes t;
  fg_kernel : kernel_index_dirty t' = kernel_index_dirty t;
}.

(** Keys and active modules correspond, one to one. *)
Definition keyed t : Prop :=
  forall k i, active_by_key t !! k = Some i <-> exists n, active t !! i = Some n /\ identity_from n = k.

Lemma forget_forgotten id n t :
  keyed t -> active t !! id = Some n -> forgotten [id] t (forget id n t).
Proof.
  intros Hk Hn. split; try done; cbn.
  - intros i k. rewrite lookup_delete_Some, list_elem_of_singleton. split; (intros [? ?]; split; congruence).
  - intros k i. rewrite lookup_delete_Some, list_elem_of_singleton. split; intros [Hne Hi].
    + split; [done|]. intros ->. apply Hk in Hi as (n' & Hn' & <-). congruence.
    + split; [|done]. intros <-.
      assert (active_by_key t !! identity_from n = Some id) by (apply Hk; eauto). congruence.
Qed.

Lemma forgotten_keyed ids t t' : keyed t -> forgotten ids t t' -> keyed t'.
Proof.
  intros Hk Hf k i. rewrite (fg_key _ _ _ Hf), (Hk k i). setoid_rewrite (λ j n, fg_active ids t t' Hf j n). split.
  - intros [(n & ? & ?) ?]. eauto.
  - intros (n & [? ?] & ?). eauto.
Qed.

Lemma forget_all_run ids : forall t s,
  keyed t -> NoDup ids -> (forall id, id ∈ ids -> is_Some (active t !! id)) ->
  exists t', forget_all ids (t, s) = (Ok tt, (t', s)) /\ forgotten ids t t'.
Proof.
  induction ids as [|id ids IH]; intros t s Hk Hnd Hids.
  { exists t. split; [done|]. split; try done; intros; (split; [|by intros [? _]]);
      (intros; split; [done|by intros ?%elem_of_nil]). }
  apply NoDup_cons in Hnd as [Hni Hnd]. destruct (Hids id (list_elem_of_here _ _)) as [n Hn].
  pose proof (forget_forgotten id n t Hk Hn) as Hf.
  destruct (IH (forget id n t) s) as (t' & Hrun & Hf'); [by eapply forgotten_keyed|done| |].
  { intros i Hi. destruct (Hids i (list_elem_of_further _ _ _ Hi)) as [k Hik]. exists k.
    apply (fg_active _ _ _ Hf). split; [done|]. rewrite list_elem_of_singleton. by intros ->. }
  exists t'. split.
  - cbn [forget_all]. unfold mbind, io_mbind, table, io_gets, update_table, io_modify. cbn [fst snd].
    by rewrite Hn.
  - destruct Hf as [A1 B1 C1 D1 E1 F1 G1], Hf' as [A2 B2 C2 D2 E2 F2 G2]. split; try congruence.
    + intros i k. rewrite A2, A1, !elem_of_cons, elem_of_nil. tauto.
    + intros k i. rewrite B2, B1, !elem_of_cons, elem_of_nil. tauto.
Qed.

Lemma exited_wf t t' pid :
  table_wf t -> forgotten (process_module_ids t pid) (drop_process pid t) t' ->
  table_wf t' /\ forall i n, active t' !! i = Some n <-> active t !! i = Some n /\ m_owner n <> Process pid.
Proof.
  intros Hwf [A B C D E F G]. cbn in *.
  assert (forall i n, active t !! i = Some n -> i ∈ process_module_ids t pid <-> m_owner n = Process pid) as Hin.
  { intros i n Hn. rewrite process_ids_owned by done. destruct (tw_id _ Hwf _ _ Hn) as [Hid _]. split.
    - intros (k & Hk & Hka & Hko). rewrite Hk, Hn in Hka. by injection Hka as ->.
    - intros Ho. exists n. split; [done|]. unfold owned_by. by rewrite Hid. }
  assert (forall i n, active t' !! i = Some n <-> active t !! i = Some n /\ m_owner n <> Process pid) as Hact.
  { intros i n. rewrite A. split; intros [Hn Ho]; (split; [done|]); by rewrite (Hin i n Hn) in *. }
  split; [|done]. pose proof Hwf as [H1 H2 H3 H4 H5 H6 H7 H8].
  assert (forall o n, o <> Process pid -> owned_by t o n <-> owned_by t' o n) as Hother.
  { intros o n Ho. unfold owned_by. rewrite Hact. split; [|by intros [[? _] ?]]. intros [? Hno].
    split; [|done]. split; [done|congruence]. }
  split.
  - intros i n [Hn _]%Hact. rewrite C. by apply H1.
  - intros i n [Hn _]%Hact. by eapply H2.
  - intros k i. rewrite B, H3. split.
    + intros [(n & Hn & Hk) Hi]. exists n. split; [|done]. apply A. by split.
    + intros (n & Hn & Hk). apply A in Hn as [Hn Hi]. split; [by exists n|done].
  - intros p st i. unfold process_set. rewrite D. setoid_rewrite Hact.
    destruct (decide (p = pid)) as [->|Hne].
    + rewrite lookup_delete_eq. cbn. split; [by intros ?%elem_of_empty|]. by intros (n & [_ ?] & ? & _).
    + rewrite lookup_delete_ne by done. fold (process_set t p). rewrite H4. split.
      * intros (n & Hn & Ho & Hs). exists n. split; [|done]. split; [done|congruence].
      * intros (n & [Hn _] & Ho). by exists n.
  - intros p ids. rewrite D, lookup_delete_Some. intros [_ ?]. by eapply H5.
  - intros i j a b [Ha _]%Hact [Hb _]%Hact. by apply (H6 i j).
  - intros p. rewrite E, F, not_elem_of_union, not_elem_of_singleton. intros [Hne Hp]. specialize (H7 p Hp).
    destruct (x_by_process (index t) !! p).
    + eapply group_current_ext; [|done]. intros x. apply Hother. congruence.
    + intros x Hm. apply (H7 x). apply Hother; [congruence|done].
  - rewrite E, G. intros Hk. eapply group_current_ext; [|by apply H8]. intros x. by apply Hother.
Qed.

Lemma agree_exit t t' l pid :
  agree t l -> next_id t' = next_id t ->
  (forall i n, active t' !! i = Some n <-> active t !! i = Some n /\ m_owner n <> Process pid) ->
  agree t' (log_step l (DeactivateProcess pid)).
Proof.
  intros [Hn Ha] Hn' Hact. split; cbn; [by rewrite length_fmap, Hn'|].
  intros i m. rewrite Hact, <- Ha, list_lookup_fmap.
  destruct (l !! i) as [[k b]|]; cbn; [|by split; [|intros [? _]]].
  destruct (bool_decide_reflect (m_owner k = Process pid)) as [Ho|Ho]; rewrite ?andb_false_r, ?andb_true_r.
  - split; [by intros [=]|]. intros [[= -> ->] ?]. done.
  - split; [intros [= -> ->]; by split|by intros [? _]].
Qed.

Lemma deactivate_process_spec pid t s :
  table_inv t ->
  spec (deactivate_process_modules pid) t s
    (λ ids t', forall o n, owned_by t' o n <-> owned_by t o n /\ o <> Process pid).
Proof.
  intros Hi. pose proof (ti_wf _ Hi) as Hwf. apply spec_table.
  destruct (active_by_process t !! pid) as [ids|] eqn:Hids.
  2: { apply spec_ret; [done|]. intros o n. split; [|by intros [? _]]. intros Hn. split; [done|]. intros ->.
       apply (not_elem_of_empty (C := gset (Z * Z)) (m_start n, m_id n)).
       apply (process_set_owned _ _ _ Hwf) in Hn as [Hn _]. unfold process_set in Hn. by rewrite Hids in Hn. }
  cbn zeta. assert (snd <$> btree_iter ids = process_module_ids t pid) as ->
    by (unfold process_module_ids; by rewrite Hids).
  assert (is_pid pid) as Hpid.
  { destruct (set_choose_L ids (tw_process_ne _ Hwf _ _ Hids)) as [[st i] Hin].
    pose proof (tw_process _ Hwf pid st i) as Hp. unfold process_set in Hp. rewrite Hids in Hp.
    apply Hp in Hin as (n & Hn & Ho & _). pose proof (mok_owner _ (mpo_ok _ (ti_ok _ Hi _ _ Hn))) as Hok.
    by rewrite Ho in Hok. }
  destruct (forget_all_run (process_module_ids t pid) (drop_process pid t) s) as (t' & Hrun & Hf).
  { intros k i. apply (tw_key _ Hwf). }
  { by apply process_ids_nodup. }
  { intros id Hid. apply process_ids_owned in Hid as (n & <- & Hn & _); [|done]. by exists n. }
  destruct (exited_wf t t' pid Hwf Hf) as [Hwf' Hact].
  assert (table_inv t') as Hi'.
  { split; [done|]. intros i n [Hn _]%Hact. by eapply ti_ok. }
  unfold TableOps.spec, mbind, io_mbind, update_table, io_modify. cbn [fst snd]. rewrite Hrun.
  unfold to_sink, io_zoom. cbn [fst snd]. pose proof (sink_op_logged (DeactivateProcess pid) s) as Hs.
  cbn [sink_op] in Hs. destruct (sink_deactivate_process pid s) as [[u|e] s'];
    [|split; [done|]; by eapply op_error_sink; [exact Hs|]].
  split; [done|]. split.
  - intros o n. unfold owned_by. rewrite Hact. split.
    + intros [[Hn Ho] <-]. by split.
    + intros [[Hn <-] Ho]. by split.
  - intros l Hl Ha. exists (log_step l (DeactivateProcess pid)). split; [by apply Hs|].
    apply (agree_exit t); [done|apply (fg_next _ _ _ Hf)|done].
Qed.
End updates.
