(* ===== verification/Mappings.v ===== *)
(** * The module table implements address spaces

    An address space maps every address to the file byte mapped there.  The
    events of a profiled program (mmap, fork, exit) update it in one line each;
    the module table, with its ids, identity keys, per-process sets, fragments
    and lazily rebuilt index, implements it over every sink. *)

From stdpp Require Import prelude gmap list numbers sorting.
From S2P Require Import Prelude Model Output Records Contexts Writer Tables RoundTrip.
From S2P Require Import ModuleIndex ModuleTable AddressSpace TableOps TableMap.
#[local] Open Scope Z_scope.

(** ** The abstract side *)

#[local] Abbreviation byte_of_file := (Z * Z * Z * list Z * Z)%type.

(** What process [pid] has mapped at [address]. *)
Definition address_space : Type := Z -> Z -> option byte_of_file.

Inductive map_event :=
  | Map (m : ModuleRecord)
  | Pin (m : ModuleRecord)
  | Fork (parent child : Z)
  | Exit (pid : Z).

Definition space_step (sp : address_space) (e : map_event) : address_space :=
  match e with
  | Map m => λ pid address,
      if bool_decide (m_owner m = Process pid) && (m_start m <=? address) && (address <? m_end m)
      then Some (backing m address) else sp pid address
  | Pin _ => sp
  | Fork parent child => λ pid address,
      if pid =? child then match sp parent address with Some b => Some b | None => sp child address end
      else sp pid address
  | Exit p => λ pid address, if pid =? p then None else sp pid address
  end.

Definition space_run (es : list map_event) : address_space := foldl space_step (λ _ _, None) es.

(** What the recorder guarantees of its events. *)
Definition event_ok (e : map_event) : Prop :=
  match e with
  | Map m => mapping_ok m
  | Pin m => module_ok m /\ jit_ok m
  | Fork parent child => parent <> child
  | Exit _ => True
  end.

Definition represents (t : ModuleTable) (sp : address_space) : Prop :=
  forall pid address b, has t (Process pid) (maps_byte address b) <-> sp pid address = Some b.

(** ** Each event *)

Lemma represents_default : represents table_default (λ _ _, None).
Proof. intros pid address b. split; [|done]. intros (n & [Hn _] & _). cbn in Hn. by rewrite lookup_empty in Hn. Qed.

Lemma only_owner_has o o' t t' P : only_owner o t t' -> o' <> o -> has t' o' P <-> has t o' P.
Proof. intros Ho Hne. unfold has. split; intros (n & Hn & HP); exists n; (split; [|done]); by apply (Ho o' n Hne). Qed.

Lemma represents_map t t' sp m pid :
  m_owner m = Process pid -> mapped (Process pid) m t t' -> represents t sp ->
  represents t' (space_step sp (Map m)).
Proof.
  intros Ho [Hoo Hm] Hr p address b. cbn. rewrite Ho.
  destruct (bool_decide_reflect (Process pid = Process p)) as [[= <-]|Hne]; cbn [andb].
  - rewrite Hm, (Hr pid address b). unfold maps_byte, inside.
    destruct (Z.leb_spec (m_start m) address), (Z.ltb_spec address (m_end m)); cbn [andb];
      (split; [intros [[? ?]|[? ?]]; first [congruence|lia]|intros ?; first [left; split; [lia|congruence]|right; split; [done|lia]]]).
  - rewrite <- (Hr p address b). apply only_owner_has with (o := Process pid); [done|congruence].
Qed.

Lemma represents_kernel_map t t' sp m :
  m_owner m = KernelOwner -> only_owner KernelOwner t t' -> represents t sp ->
  represents t' (space_step sp (Map m)).
Proof.
  intros Ho Hoo Hr p address b. cbn. rewrite Ho, bool_decide_eq_false_2 by done. cbn [andb].
  rewrite <- (Hr p address b). by apply only_owner_has with (o := KernelOwner).
Qed.

Lemma represents_fork t t' sp parent child :
  only_owner (Process child) t t' ->
  (forall address b, has t' (Process child) (maps_byte address b) <->
    has t (Process parent) (maps_byte address b) \/
    (has t (Process child) (maps_byte address b) /\ ~ has t (Process parent) (inside address))) ->
  represents t sp -> represents t' (space_step sp (Fork parent child)).
Proof.
  intros Hoo Hf Hr p address b. cbn. destruct (Z.eqb_spec p child) as [->|Hne].
  - rewrite Hf, (Hr parent address b), (Hr child address b).
    assert (has t (Process parent) (inside address) <-> is_Some (sp parent address)) as ->.
    { split.
      - intros (n & Hn & Hi). exists (backing n address). apply Hr. by exists n.
      - intros [c Hc]. apply Hr in Hc as (n & Hn & Hi & _). by exists n. }
    destruct (sp parent address) as [c|].
    + split; [intros [?|[_ Hno]]; [done|]; by destruct Hno|by left].
    + split; [by intros [?|[? _]]|]. intros Hb. right. split; [done|]. by intros [? ?].
  - rewrite <- (Hr p address b). apply only_owner_has with (o := Process child); [done|congruence].
Qed.

Lemma represents_exit t t' sp pid :
  (forall o n, owned_by t' o n <-> owned_by t o n /\ o <> Process pid) ->
  represents t sp -> represents t' (space_step sp (Exit pid)).
Proof.
  intros He Hr p address b. cbn. destruct (Z.eqb_spec p pid) as [->|Hne].
  - split; [|done]. intros (n & Hn & _). by apply He in Hn as [_ ?].
  - rewrite <- (Hr p address b). unfold has. setoid_rewrite He. split.
    + intros (n & [Hn _] & Hb). by exists n.
    + intros (n & Hn & Hb). exists n. split; [|done]. split; [done|congruence].
Qed.

(** ** Resolving *)

(** The owner whose mappings a frame of this mode is looked up in. *)
Definition mode_owner (mode : FrameMode) (process_id : Z) : ModuleOwner :=
  if decide (mode = Kernel) then KernelOwner else Process process_id.

Record frame_of (t : ModuleTable) (process_id address : Z) (mode : FrameMode) (f : FrameRecord) : Prop := {
  fo_abs : f_abs_ip f = address;
  fo_mode : f_mode f = mode;
  fo_module : exists r, resolves t (mode_owner mode process_id) address r /\
    match r with
    | Some m => f_module_id f = Some (m_id m) /\
                f_file_relative_ip f = m_file_offset m + (address - m_start m)
    | None => f_module_id f = None /\ f_file_relative_ip f = address
    end;
}.

Lemma same_modules_owned t t' o n : same_modules t t' -> owned_by t' o n <-> owned_by t o n.
Proof. intros [Ha _ _ _]. unfold owned_by. by rewrite Ha. Qed.

Lemma same_modules_resolves t t' o address r :
  same_modules t t' -> resolves t' o address r <-> resolves t o address r.
Proof.
  intros Hs. unfold resolves. destruct r as [m|]; setoid_rewrite (λ o n, same_modules_owned t t' o n Hs); done.
Qed.

Lemma same_modules_inv t t' : table_inv t -> same_modules t t' -> table_wf t' -> table_inv t'.
Proof. intros Hi [Ha _ _ _] Hwf. split; [done|]. intros id m. rewrite Ha. apply (ti_ok _ Hi). Qed.

Lemma resolve_frame_ok t process_id address mode :
  table_inv t -> mode <> TruncatedStackMarker ->
  exists f t', resolve_frame process_id address mode t = Some (f, t') /\ table_inv t' /\
    same_modules t t' /\ frame_of t process_id address mode f.
Proof.
  intros Hi Hmode. destruct (rebuild_index_ok t (ti_wf _ Hi)) as (t' & Hreb & Hwf' & Hsame & Hd & Hk).
  unfold resolve_frame. rewrite Hreb. cbn [mbind option_bind].
  pose proof (index_find_resolves t' process_id address mode Hwf' Hd Hk) as Hfind.
  assert (exists r, resolves t' (mode_owner mode process_id) address r /\
            index_find (index t') process_id address mode = entry_from <$> r) as (r & Hr & Hfind')
    by (by destruct mode).
  clear Hfind. rewrite Hfind'. apply (same_modules_resolves t t') in Hr; [|done].
  destruct r as [m|]; cbn [fmap option_fmap option_map mbind option_bind].
  - destruct Hr as ([Hm Ho] & Hin & Hmax). pose proof (ti_ok _ Hi _ _ Hm) as [Hmok _ Hspan].
    pose proof (mok_file_offset _ Hmok). unfold inside in Hin. unfold checked_sub_u64, checked_add_u64.
    cbn [e_start entry_from e_file_offset e_id].
    destruct (Z.leb_spec (m_start m) address); [|lia]. cbn [mbind option_bind].
    destruct (Z.leb_spec (address - m_start m + m_file_offset m) u64_max); [|lia]. cbn [default].
    eexists _, t'. split; [done|]. split; [by eapply same_modules_inv|]. split; [done|].
    split; [done|done|]. exists (Some m). split; [by split|]. split; [done|]. cbn. lia.
  - cbn [default]. eexists _, t'. split; [done|]. split; [by eapply same_modules_inv|]. split; [done|].
    split; [done|done|]. exists None. by split.
Qed.

(** *** The frame can be written, and its recorded mapping is the resolved one *)

Lemma agree_lookup t l m : table_wf t -> agree t l -> active t !! m_id m = Some m ->
  l !! Z.to_nat (m_id m) = Some (m, true).
Proof.
  intros Hwf [_ Ha] Hm. destruct (tw_id _ Hwf _ _ Hm) as [_ Hr]. apply Ha. by rewrite Z2Nat.id by lia.
Qed.

Lemma frame_of_recordable t l process_id address mode f :
  table_inv t -> agree t l -> mode <> TruncatedStackMarker -> is_u64 address ->
  frame_of t process_id address mode f -> frame_recordable l.*1 f.
Proof.
  intros Hi Ha Hmode Hu [Habs Hfm (r & Hr & Hf)]. unfold frame_recordable. rewrite Hfm.
  destruct r as [m|].
  - destruct Hf as [-> ->], Hr as ([Hm Ho] & Hin & _). unfold inside in Hin.
    pose proof (ti_ok _ Hi _ _ Hm) as [Hmok _ Hspan]. pose proof (mok_file_offset _ Hmok).
    assert (is_u32 (m_id m) /\ is_u64 (m_file_offset m + (address - m_start m)) /\
      exists m0, l.*1 !! Z.to_nat (m_id m) = Some m0 /\ mode = frame_mode (module_is_kernel m0) /\
        f_abs_ip f = m_start m0 + (m_file_offset m + (address - m_start m) - m_file_offset m0) /\
        m_file_offset m0 <= m_file_offset m + (address - m_start m) /\
        m_file_offset m + (address - m_start m) - m_file_offset m0 < m_end m0 - m_start m0) as Hgoal.
    { split; [apply Hmok|]. split; [word_lia|]. exists m.
      rewrite list_lookup_fmap, (agree_lookup t) by (done || apply Hi). split; [done|].
      split; [|lia]. unfold module_is_kernel. rewrite Ho. unfold mode_owner. by destruct mode. }
    by destruct mode.
  - destruct Hf as [-> ->]. rewrite Habs. by destruct mode.
Qed.

Lemma frame_of_mapping t l process_id address mode f :
  table_inv t -> agree t l -> mode <> TruncatedStackMarker ->
  frame_of t process_id address mode f ->
  exists r, resolves t (mode_owner mode process_id) address r /\
    log_mapping l process_id f = (λ m, mkModuleRef m (m_file_offset m + (address - m_start m))) <$> r.
Proof.
  intros Hi Ha Hmode [Habs Hfm (r & Hr & Hf)]. exists r. split; [done|]. unfold log_mapping. rewrite Hfm.
  destruct r as [m|]; destruct Hf as [-> Hrel].
  - destruct Hr as ([Hm Ho] & _). rewrite (agree_lookup t), Hrel by (done || apply Hi). by destruct mode.
  - assert (find_map (λ mb : ModuleRecord * bool,
      if mb.2 && module_owns_frame mb.1 process_id f then Some mb.1 else None) (reverse l) = None) as ->;
      [|by destruct mode].
    apply find_map_none. intros [m b] Hin. cbn [fst snd]. rewrite elem_of_reverse in Hin.
    apply list_elem_of_lookup_1 in Hin as [i Hin].
    destruct b; [|done]. cbn [andb]. apply (ag_active _ _ Ha) in Hin.
    destruct (module_owns_frame m process_id f) eqn:Hown; [|done]. exfalso.
    unfold module_owns_frame in Hown. rewrite Habs, Hfm in Hown.
    apply andb_true_iff in Hown as [[Hown ?%Z.leb_le]%andb_true_iff ?%Z.ltb_lt].
    apply (Hr m); [|unfold inside; lia]. destruct (tw_id _ (ti_wf _ Hi) _ _ Hin) as [Hid _].
    split; [by rewrite Hid|]. unfold mode_owner, module_pid, module_is_kernel in *.
    destruct mode; cbn in *; destruct (m_owner m); cbn in *; try done. f_equal. lia.
Qed.

(** ** Sequences of events *)

Section events.
Context {S : Type} (logged : S -> log_modules -> Prop) (fails : ErrorKind -> Prop).
Context `{LoggedSink S logged fails}.
Implicit Types (t : ModuleTable) (s : S).

Definition map_step (e : map_event) : io (ModuleTable * S) unit :=
  match e with
  | Map m => apply_module m;; mret tt
  | Pin m => record_pinned_module m;; mret tt
  | Fork parent child => clone_process_modules parent child;; mret tt
  | Exit pid => deactivate_process_modules pid;; mret tt
  end.

(** A caller that stops at the first error. *)
Fixpoint map_run (es : list map_event) : io (ModuleTable * S) unit :=
  match es with
  | [] => mret tt
  | e :: es => map_step e;; map_run es
  end.

Lemma map_step_spec e t s sp :
  table_inv t -> event_ok e -> represents t sp ->
  spec logged fails (map_step e) t s (λ _ t', represents t' (space_step sp e)).
Proof.
  intros Hi Hok Hr. destruct e as [m|m|parent child|pid]; cbn [map_step].
  - destruct (m_owner m) as [pid|] eqn:Ho; eapply spec_bind.
    + by apply (apply_module_spec logged fails t s m pid).
    + intros u t' s' Hi' [Hm _]. apply spec_ret; [done|]. by apply (represents_map t t' sp m pid).
    + by apply (apply_kernel_module_spec logged fails t s m).
    + intros u t' s' Hi' [Hm _]. apply spec_ret; [done|]. by apply (represents_kernel_map t t' sp m).
  - destruct Hok as [Hm Hj]. eapply spec_bind; [by apply (record_pinned_spec logged fails)|].
    intros u t' s' Hi' [_ ->]. apply spec_ret; [done|]. intros p address b. rewrite <- (Hr p address b). done.
  - eapply spec_bind; [by apply (clone_process_spec logged fails parent child)|].
    intros u t' s' Hi' [Hoo Hf]. apply spec_ret; [done|]. by apply (represents_fork t).
  - eapply spec_bind; [by apply (deactivate_process_spec logged fails pid)|].
    intros u t' s' Hi' He. apply spec_ret; [done|]. by apply (represents_exit t).
Qed.

Lemma map_run_spec es : forall t s sp,
  table_inv t -> Forall event_ok es -> represents t sp ->
  spec logged fails (map_run es) t s (λ _ t', represents t' (foldl space_step sp es)).
Proof.
  induction es as [|e es IH]; intros t s sp Hi Hes Hr; cbn [map_run foldl]; [by apply spec_ret|].
  apply Forall_cons in Hes as [He Hes]. eapply spec_bind; [by apply (map_step_spec e t s sp)|].
  intros [] t' s' Hi' Hr'. by apply IH.
Qed.

Lemma table_default_inv : table_inv table_default.
Proof. split; [apply table_default_wf|]. intros id m. cbn. by rewrite lookup_empty. Qed.

(** C4: over any sink, the module table implements the address spaces of the
    profiled processes.  After any sequence of mmaps, forks and exits every
    byte is mapped exactly as the events say, across splitting of overlapped
    mappings, re-announced mappings and fork inheritance, and the modules the
    sink has logged as mapped are exactly the active ones; an error is the
    sink's or an exhausted id space (never a failed lookup), and leaves a
    consistent table. *)
Theorem module_table_implements_address_space (es : list map_event) s :
  Forall event_ok es ->
  match map_run es (table_default, s) with
  | (Ok _, (t, s')) => table_inv t /\ represents t (space_run es) /\
      (logged s [] -> exists l, logged s' l /\ agree t l)
  | (Err e, (t, _)) => table_inv t /\ (logged s [] -> fails e \/ e = InvalidInput)
  end.
Proof.
  intros Hes. pose proof (map_run_spec es table_default s (λ _ _, None) table_default_inv Hes represents_default) as Hs.
  unfold spec in Hs. destruct (map_run es (table_default, s)) as [[u|e] [t s']]; destruct Hs as [Hi Hs].
  2: { split; [done|]. intros Hl. destruct Hs as [?|[?|Hno]]; [by left|by right|]. by destruct (Hno [] Hl agree_default). }
  destruct Hs as [Hr Hl]. split; [done|]. split; [done|]. intros H0'. by apply (Hl [] H0' agree_default).
Qed.

(** C11: resolving a user address never panics and finds what is mapped there:
    the frame carries the id of the mapping and the address in its file, or no
    module when nothing is mapped; [covers_user_pc] answers whether something is. *)
Theorem resolve_frame_follows_mappings (es : list map_event) s t s' process_id address :
  Forall event_ok es -> map_run es (table_default, s) = (Ok tt, (t, s')) ->
  exists f t' t'', resolve_frame process_id address User t = Some (f, t') /\
    f_abs_ip f = address /\ f_mode f = User /\
    match space_run es process_id address with
    | Some b => exists m, active t !! m_id m = Some m /\ backing m address = b /\
        f_module_id f = Some (m_id m) /\ f_file_relative_ip f = b.2
    | None => f_module_id f = None /\ f_file_relative_ip f = address
    end /\
    covers_user_pc process_id address t =
      Some (bool_decide (is_Some (space_run es process_id address)), t'').
Proof.
  intros Hes Hrun. pose proof (map_run_spec es table_default s (λ _ _, None) table_default_inv Hes represents_default) as Hs.
  unfold spec in Hs. rewrite Hrun in Hs. destruct Hs as (Hi & Hr & _). fold (space_run es) in Hr.
  destruct (resolve_frame_ok t process_id address User Hi) as (f & t' & Hf & _ & _ & [Ha Hm (r & Hres & Hmod)]); [done|].
  destruct (rebuild_index_ok t (ti_wf _ Hi)) as (t'' & Hreb & Hwf'' & Hsame & Hd & Hk).
  destruct (index_find_resolves t'' process_id address User Hwf'' Hd Hk) as (r' & Hres' & Hfind).
  apply (same_modules_resolves t t'') in Hres'; [|done]. cbn [mode_owner] in *.
  rewrite decide_False in Hres' by done. change (mode_owner User process_id) with (Process process_id) in Hres.
  assert (is_Some r' <-> is_Some (space_run es process_id address)) as Hcov.
  { destruct r' as [m|]; cbn in Hres'.
    - destruct Hres' as (Ho & Hin & _). split; [|done]. intros _. exists (backing m address).
      apply Hr. by exists m.
    - split; [by intros [? ?]|]. intros [b Hb]. apply Hr in Hb as (m & Ho & Hin & _). by apply Hres' in Ho. }
  exists f, t', t''. split; [done|]. split; [done|]. split; [done|]. split.
  - destruct r as [m|]; cbn in Hres; destruct Hmod as [Hid Hrel].
    + destruct Hres as (Ho & Hin & _). assert (space_run es process_id address = Some (backing m address)) as ->
        by (apply Hr; by exists m). exists m. destruct Ho. done.
    + destruct (space_run es process_id address) as [b|] eqn:Hb; [|done].
      apply Hr in Hb as (m & Ho & Hin & _). by apply Hres in Ho.
  - unfold covers_user_pc. rewrite Hreb. cbn [mbind option_bind]. f_equal. f_equal.
    rewrite Hfind. apply bool_decide_ext. by rewrite fmap_is_Some, Hcov.
Qed.
End events.

(** ** Comparing with a snapshot of [/proc/<pid>/maps] *)

Lemma all_matched_true t snapshot : forall matched,
  table_wf t -> all_matched t snapshot matched = Ok true ->
  exists ids, length ids = length snapshot /\ NoDup ids /\ (forall id, id ∈ ids -> id ∉ matched) /\
    Forall2 (λ m id, exists n, active t !! id = Some n /\ same_mapping_except_inode_generation n m = true)
      snapshot ids.
Proof.
  induction snapshot as [|m snapshot IH]; intros matched Hwf; cbn [all_matched].
  { intros _. exists []. split; [done|]. split; [constructor|]. split; [by intros ? ?%elem_of_nil|constructor]. }
  destruct (find_compatible_ok t m Hwf) as (r & -> & Hr). destruct r as [id|]; [|done].
  destruct (decide (id ∈ matched)) as [|Hni]; [done|]. intros Hall.
  destruct (IH _ Hwf Hall) as (ids & Hlen & Hnd & Hout & Hf). exists (id :: ids).
  split; [cbn; by rewrite Hlen|]. split; [|split].
  - constructor; [|done]. intros Hin. apply (Hout id Hin), elem_of_union. left. by apply elem_of_singleton.
  - intros i [->|Hi]%elem_of_cons; [done|]. intros Him. apply (Hout i Hi), elem_of_union. by right.
  - by constructor.
Qed.

(** The bytes that a snapshot of [/proc/<pid>/maps] has mapped. *)
Definition snapshot_maps (snapshot : list ModuleRecord) (address : Z) (b : Z * Z * Z * list Z * Z) : Prop :=
  Exists (maps_byte address b) snapshot.

(** When [process_modules_match] says that a snapshot of a process's maps
    agrees with the table, the process has exactly the bytes of the snapshot
    mapped, so skipping the reconciliation loses nothing. *)
Theorem process_modules_match_sound t process_id (snapshot : list ModuleRecord) :
  table_wf t -> Forall (λ m, m_owner m = Process process_id) snapshot ->
  process_modules_match t process_id snapshot = Ok true ->
  forall address b, has t (Process process_id) (maps_byte address b) <-> snapshot_maps snapshot address b.
Proof.
  intros Hwf Hown. unfold process_modules_match. destruct (negb _) eqn:Hsize; [done|]. intros Hm.
  apply negb_false_iff, Nat.eqb_eq in Hsize.
  destruct (all_matched_true t snapshot ∅ Hwf Hm) as (ids & Hlen & Hnd & _ & Hf).
  assert (forall id, id ∈ ids -> id ∈ process_module_ids t process_id) as Hsub.
  { intros id Hid. apply list_elem_of_lookup_1 in Hid as [i Hi].
    destruct (Forall2_lookup_r _ _ _ _ _ Hf Hi) as (m & Hmi & n & Hn & (Ho & _)%same_mapping_spec).
    apply process_ids_owned; [done|]. exists n. destruct (tw_id _ Hwf _ _ Hn) as [Hid _].
    split; [done|]. unfold owned_by. rewrite Hid. split; [done|]. rewrite Ho.
    by apply (Forall_lookup_1 _ _ _ _ Hown Hmi). }
  assert (length (process_module_ids t process_id) = length ids) as Hcount.
  { rewrite Hlen, <- Hsize. unfold process_module_ids, process_set.
    destruct (active_by_process t !! process_id) as [s|]; [|done].
    cbn. unfold btree_iter. rewrite length_fmap, merge_sort_Permutation. done. }
  assert (ids ≡ₚ process_module_ids t process_id) as Hall
    by (apply submseteq_length_Permutation; [by apply NoDup_submseteq|lia]).
  intros address b. unfold snapshot_maps. rewrite Exists_exists. split.
  - intros (n & [Hn Ho] & Hb). assert (m_id n ∈ ids) as Hid by (rewrite Hall; apply process_ids_owned; [done|by exists n]).
    apply list_elem_of_lookup_1 in Hid as [i Hi].
    destruct (Forall2_lookup_r _ _ _ _ _ Hf Hi) as (m & Hmi & n' & Hn' & (_ & Hs & He & Hbk)%same_mapping_spec).
    rewrite Hn in Hn'. injection Hn' as <-. exists m. split; [by eapply list_elem_of_lookup_2|].
    unfold maps_byte, inside in *. by rewrite <- Hbk, <- Hs, <- He.
  - intros (m & Hin & Hb). apply list_elem_of_lookup_1 in Hin as [i Hi].
    destruct (Forall2_lookup_l _ _ _ _ _ Hf Hi) as (id & Hid & n & Hn & (Ho & Hs & He & Hbk)%same_mapping_spec).
    exists n. split; [|unfold maps_byte, inside in *; by rewrite Hbk, Hs, He].
    rewrite <- (Forall_lookup_1 _ _ _ _ Hown Hi), <- Ho. by eapply owned_active.
Qed.

(** ** A sink that is its own log *)

#[global] Instance log_sink : ModuleSink log_modules := {|
  sink_module m := λ l, (Ok tt, log_step l (WriteModule m));
  sink_deactivate_process pid := λ l, (Ok tt, log_step l (DeactivateProcess pid));
  sink_deactivate_one id := λ l, (Ok tt, log_step l (DeactivateModule id));
|}.
#[global] Instance log_sink_logged : LoggedSink log_modules eq (λ _, False).
Proof. split. intros op l. destruct op; cbn; by intros ? ->. Qed.

(** A program, a library mapped over its middle, a fork, and the parent's exit. *)
Definition example_events : list map_event :=
  [Map (mkModule 0 (Process 42) 4096 12288 512 77 8 1 0 [47; 97] None);
   Map (mkModule 0 (Process 42) 6000 8000 0 78 8 1 3 [47; 98] None);
   Fork 42 43; Exit 42].

Lemma example_events_ok : Forall event_ok example_events.
Proof.
  repeat constructor; try done; cbn; unfold is_pid; word_lia.
Qed.

Lemma example_events_run : (map_run example_events (table_default, ([] : log_modules))).1 = Ok tt.
Proof. vm_compute. reflexivity. Qed.

Lemma example_events_space : space_run example_events 43 9000 = Some (77, 8, 1, [47; 97], 5416).
Proof. reflexivity. Qed.

Lemma module_table_implements_address_space_witness :
  exists t l, map_run example_events (table_default, ([] : log_modules)) = (Ok tt, (t, l)) /\ agree t l.
Proof.
  pose proof (module_table_implements_address_space eq (λ _, False) example_events ([] : log_modules)
                example_events_ok) as Hall.
  pose proof example_events_run as Hok.
  destruct (map_run example_events (table_default, [])) as [r [t l]]. cbn [fst] in Hok. rewrite Hok in *.
  destruct Hall as (_ & _ & Hlog). destruct (Hlog eq_refl) as (l' & <- & Ha).
  exists t, l. split; [exact eq_refl|exact Ha].
Defined.

Lemma resolve_frame_follows_mappings_witness :
  exists t l f t', map_run example_events (table_default, ([] : log_modules)) = (Ok tt, (t, l)) /\
    resolve_frame 43 9000 User t = Some (f, t') /\ f_file_relative_ip f = 5416.
Proof.
  pose proof example_events_run as Hok.
  destruct (map_run example_events (table_default, [])) as [r [t l]] eqn:Hrun. cbn [fst] in Hok. rewrite Hok in *.
  destruct (resolve_frame_follows_mappings eq (λ _, False) example_events ([] : log_modules) t l 43 9000
              example_events_ok Hrun) as (f & t' & t'' & Hf & _ & _ & Hm & _).
  rewrite example_events_space in Hm. destruct Hm as (m & _ & _ & _ & Hrel).
  exists t, l, f, t'. split; [exact eq_refl|]. split; [exact Hf|exact Hrel].
Defined.

Lemma process_modules_match_sound_witness :
  let t := (map_run (take 2 example_events) (table_default, ([] : log_modules))).2.1 in
  has t (Process 42) (maps_byte 9000 (77, 8, 1, [47; 97], 5416)).
Proof.
  cbn zeta. apply (process_modules_match_sound _ 42
    [mkModule 0 (Process 42) 4096 6000 512 77 8 1 0 [47; 97] None;
     mkModule 0 (Process 42) 6000 8000 0 78 8 1 0 [47; 98] None;
     mkModule 0 (Process 42) 8000 12288 4416 77 8 1 0 [47; 97] None]).
  - pose proof (map_run_spec eq (λ _, False) (take 2 example_events) table_default ([] : log_modules)
                  (λ _ _, None) table_default_inv ltac:(apply Forall_take, example_events_ok) represents_default) as Hs.
    unfold spec in Hs. destruct (map_run _ _) as [r [t s]]. apply Hs.
  - repeat constructor.
  - vm_compute. reflexivity.
  - apply Exists_cons_tl, Exists_cons_tl, Exists_cons_hd. split; [vm_compute; split; congruence|reflexivity].
Defined.
