(* ===== verification/Session.v ===== *)
(** * Recording sessions

    The module table, the spool writer and the sampler together: mapping events
    interleaved with sampled stacks.  [resolve_stack_frame] of
    [src/linux/mod.rs] turns a sampled stack into frame records, the writer
    stores them, and the reader shows every frame with the file that was mapped
    at its address when the sample was taken. *)

From stdpp Require Import prelude gmap list numbers sorting.
From S2P Require Import Prelude Varint Cursor Model Output Records Contexts Reader.
From S2P Require Import Writer Stream Snapshot Tables Simulation Interning Recording RoundTrip.
From S2P Require Import Recovery ModuleIndex ModuleTable AddressSpace TableOps TableMap Mappings.
#[local] Open Scope Z_scope.

(** ** Sampled stacks *)

(** [StackMode] and [StackFrame] of [src/linux/types.rs]. *)
Inductive StackMode := UserMode | KernelMode.
Inductive StackFrame :=
  | InstructionPointer (address : Z) (mode : StackMode)
  | ReturnAddress (address : Z) (mode : StackMode)
  | TruncatedStackFrame.

Definition stack_frame_mode (mode : StackMode) : FrameMode :=
  match mode with UserMode => User | KernelMode => Kernel end.

(** The first address of a chain is an instruction pointer, the others return
    addresses. *)
Definition push_callchain_addresses (mode : StackMode) (addresses : list Z) (stack : list StackFrame)
    : list StackFrame :=
  stack ++ imap (λ index address,
    if (index =? 0)%nat then InstructionPointer address mode else ReturnAddress address mode) addresses.

Definition saturating_sub_u64 (a b : Z) : Z := Z.max (a - b) 0.

(** The address a stack frame is looked up at. *)
Definition lookup_address (frame : StackFrame) : option (Z * StackMode) :=
  match frame with
  | InstructionPointer address mode => Some (address, mode)
  | ReturnAddress address mode => Some (saturating_sub_u64 address 1, mode)
  | TruncatedStackFrame => None
  end.

(** [resolve_stack_frame] for a process without registered runtime code, the
    summary's counter aside; [None] is a panic. *)
Definition resolve_stack_frame (process_id : Z) (frame : StackFrame) (t : ModuleTable)
    : option (FrameRecord * ModuleTable) :=
  match lookup_address frame with
  | Some (address, mode) => resolve_frame process_id address (stack_frame_mode mode) t
  | None => Some (truncated_stack_marker, t)
  end.

Fixpoint resolve_stack (process_id : Z) (stack : list StackFrame) (t : ModuleTable)
    : option (list FrameRecord * ModuleTable) :=
  match stack with
  | [] => Some ([], t)
  | frame :: stack =>
      ft ← resolve_stack_frame process_id frame t;
      fst ← resolve_stack process_id stack ft.2;
      Some (ft.1 :: fst.1, fst.2)
  end.

(** ** What a reader should see *)

(** A frame shown for a sampled one, given what the process has mapped. *)
Definition frame_seen (sp : address_space) (process_id : Z) (frame : StackFrame) (r : RawFrame) : Prop :=
  match lookup_address frame with
  | None => r = TruncatedStack
  | Some (address, KernelMode) => exists mapping, r = Native address KernelSpace mapping
  | Some (address, UserMode) => exists mapping, r = Native address UserSpace mapping /\
      (λ ref, backing (r_module ref) address) <$> mapping = sp process_id address /\
      match mapping with
      | Some ref => r_file_relative_ip ref = (backing (r_module ref) address).2
      | None => True
      end
  end.

Inductive session_event :=
  | Mapping (e : map_event)
  | Sampled (timestamp_ns process_id thread_id : Z) (stack : list StackFrame).

Record sample_seen (sp : address_space) (timestamp_ns process_id thread_id : Z) (stack : list StackFrame)
    (ls : log_sample) : Prop := {
  seen_timestamp : ls_timestamp_ns ls = timestamp_ns;
  seen_process : ls_process_id ls = process_id;
  seen_thread : ls_thread_id ls = thread_id;
  seen_frames : Forall2 (frame_seen sp process_id) stack (ls_frames ls);
}.

(** The samples a session should produce: one per non-empty stack, each under
    the address spaces of its moment. *)
Fixpoint session_seen (sp : address_space) (es : list session_event) (lss : list log_sample) : Prop :=
  match es with
  | [] => lss = []
  | Mapping e :: es => session_seen (space_step sp e) es lss
  | Sampled ts pid tid [] :: es => session_seen sp es lss
  | Sampled ts pid tid stack :: es =>
      exists ls lss', lss = ls :: lss' /\ sample_seen sp ts pid tid stack ls /\ session_seen sp es lss'
  end.

Definition stack_frame_ok (frame : StackFrame) : Prop :=
  match lookup_address frame with Some (address, _) => is_u64 address | None => True end.

Definition session_event_ok (e : session_event) : Prop :=
  match e with
  | Mapping e => event_ok e
  | Sampled ts pid tid stack => is_u64 ts /\ is_pid pid /\ is_pid tid /\ Forall stack_frame_ok stack
  end.

(** ** Stacks resolve *)

Lemma mode_not_marker mode : stack_frame_mode mode <> TruncatedStackMarker.
Proof. by destruct mode. Qed.

(** What one frame record is good for. *)
Record frame_good (sp : address_space) (l : log_modules) (pid : Z) (frame : StackFrame) (f : FrameRecord)
    : Prop := {
  fg_recordable : frame_recordable l.*1 f;
  fg_seen : frame_seen sp pid frame (log_frame l pid f);
}.

Lemma resolve_stack_frame_good sp l pid frame t :
  table_inv t -> agree t l -> represents t sp -> stack_frame_ok frame ->
  exists f t', resolve_stack_frame pid frame t = Some (f, t') /\ table_inv t' /\ same_modules t t' /\
    frame_good sp l pid frame f.
Proof.
  intros Hi Ha Hr Hok. unfold resolve_stack_frame, stack_frame_ok in *.
  destruct (lookup_address frame) as [[address mode]|] eqn:Hl.
  2: { exists truncated_stack_marker, t. split; [done|]. split; [done|]. split; [by split|]. split; [done|].
       unfold frame_seen. by rewrite Hl. }
  destruct (resolve_frame_ok t pid address (stack_frame_mode mode) Hi (mode_not_marker mode))
    as (f & t' & Hf & Hi' & Hs & Hfo).
  exists f, t'. split; [done|]. split; [done|]. split; [done|]. split.
  { apply (frame_of_recordable t l pid address (stack_frame_mode mode)); [done|done|apply mode_not_marker|done|done]. }
  destruct (frame_of_mapping t l pid address _ f Hi Ha (mode_not_marker mode) Hfo) as (r & Hres & Hmap).
  unfold frame_seen. rewrite Hl. unfold log_frame, raw_frame. rewrite (fo_mode _ _ _ _ _ Hfo), (fo_abs _ _ _ _ _ Hfo), Hmap.
  destruct mode; cbn [stack_frame_mode]; [|by eexists]. eexists. split; [done|].
  change (mode_owner (stack_frame_mode UserMode) pid) with (Process pid) in Hres.
  destruct r as [m|]; cbn [fmap option_fmap option_map r_module r_file_relative_ip].
  - split; [|done]. destruct Hres as (Ho & Hin & _). symmetry. apply Hr. by exists m.
  - split; [|done]. destruct (sp pid address) as [b|] eqn:Hb; [|done]. exfalso.
    apply Hr in Hb as (m & Ho & Hin & _). by apply (Hres m Ho).
Qed.

Lemma same_modules_trans t1 t2 t3 : same_modules t1 t2 -> same_modules t2 t3 -> same_modules t1 t3.
Proof. intros [] []. split; congruence. Qed.

Lemma same_modules_agree t t' l : same_modules t t' -> agree t l -> agree t' l.
Proof. intros [Ha Hn _ _]. by apply agree_same. Qed.

Lemma same_modules_represents t t' sp : same_modules t t' -> represents t sp -> represents t' sp.
Proof.
  intros Hs Hr pid address b. rewrite <- (Hr pid address b). unfold has.
  setoid_rewrite (λ o n, same_modules_owned t t' o n Hs). done.
Qed.

Lemma resolve_stack_good sp l pid stack : forall t,
  table_inv t -> agree t l -> represents t sp -> Forall stack_frame_ok stack ->
  exists fs t', resolve_stack pid stack t = Some (fs, t') /\ table_inv t' /\ same_modules t t' /\
    Forall2 (frame_good sp l pid) stack fs.
Proof.
  induction stack as [|frame stack IH]; intros t Hi Ha Hr Hok; cbn [resolve_stack].
  { exists [], t. split; [done|]. split; [done|]. split; [by split|constructor]. }
  apply Forall_cons in Hok as [Hf Hok].
  destruct (resolve_stack_frame_good sp l pid frame t Hi Ha Hr Hf) as (f & t1 & -> & Hi1 & Hs1 & Hg).
  destruct (IH t1 Hi1) as (fs & t2 & Hfs & Hi2 & Hs2 & Hgs);
    [by eapply same_modules_agree|by eapply same_modules_represents|done|].
  cbn [mbind option_bind snd fst]. rewrite Hfs. cbn [mbind option_bind snd fst].
  exists (f :: fs), t2. split; [done|]. split; [done|]. split; [by eapply same_modules_trans|by constructor].
Qed.

(** ** The spool writer logs what the table tells it *)

Section session.
Context {W : Type} `{ReliableSink W} `{VarIntLaws} (interrupt_budget : nat).
Context (w0 : PerfSpoolWriter W).
#[local] Existing Instance spool_module_sink.
#[local] Instance session_sink : ModuleSink (PerfSpoolWriter W) := spool_module_sink interrupt_budget.

(** From [w0] on, [w] has written the modules [l] and the samples [lss]. *)
Definition history (lss : list log_sample) (w : PerfSpoolWriter W) (l : log_modules) : Prop :=
  exists ds t, advances w0 tables_empty ds w t /\ log_rel l t /\ Forall2 (shows t) (samples_of ds) lss.

Lemma history_op lss w l op :
  sim w0 tables_empty -> history lss w l -> op_ok l op ->
  let '(r, w') := run_op interrupt_budget op w in
  history (lss ++ log_run l [op] [r]) w' (log_step l op) /\
  match r with Ok _ => True | Err e => e = InvalidInput /\ exists t, refused op t w' end.
Proof.
  intros Hs0 (ds & t & Ha & Hl & Hsh) Hok.
  destruct (run_op_sim interrupt_budget l op w t (adv_sim _ _ _ _ _ Ha) Hl Hok) as [Hrun Hres].
  destruct (run_op interrupt_budget op w) as [r w']. cbn [fst snd] in *.
  split; [|destruct r; [done|]; destruct Hres; eauto].
  destruct Hrun as (ds1 & t1 & Ha1 & Hl1 & Hsh1).
  exists (ds ++ ds1), t1. split; [by eapply advances_trans|]. split; [done|].
  unfold samples_of in *. rewrite omap_app. apply Forall2_app; [|done].
  eapply Forall2_impl; [exact Hsh|]. intros s ls.
  apply shows_extends; [apply Ha|apply Ha1|]. eapply advances_extends; [apply Ha|done].
Qed.

(** The calls of the module table. *)
Definition is_module_op (op : write_op) : bool :=
  match op with WriteSample _ _ _ _ | WritePythonRuntime _ _ _ => false | _ => true end.

Lemma sink_op_run op w :
  is_module_op op = true ->
  run_op interrupt_budget op w =
    match sink_op op w with (Ok _, w') => (Ok None, w') | (Err e, w') => (Err e, w') end.
Proof. by destruct op. Qed.

#[local] Instance writer_logged (lss : list log_sample) (Hs0 : sim w0 tables_empty) :
  LoggedSink (PerfSpoolWriter W) (history lss) (λ _, False).
Proof.
  split. intros op w.
  destruct (is_module_op op) eqn:Hc.
  - pose proof (sink_op_run op w Hc) as Hrun.
    assert (forall l, history lss w l -> op_ok l op ->
      exists w', sink_op op w = (Ok tt, w') /\ history lss w' (log_step l op)) as Hop.
    { intros l Hh Hok. pose proof (history_op lss w l op Hs0 Hh Hok) as Hpost. rewrite Hrun in Hpost.
      destruct (sink_op op w) as [[[]|e] w']; destruct Hpost as [Hpost Href].
      - exists w'. split; [done|]. by destruct op; try done; rewrite app_nil_r in Hpost.
      - destruct Href as (_ & t & Href). by destruct op. }
    destruct (sink_op op w) as [[[]|e] w'].
    + intros l Hh Hok. destruct (Hop l Hh Hok) as (w'' & [= <-] & ?). done.
    + right. intros l Hh Hok. by destruct (Hop l Hh Hok) as (w'' & ? & _).
  - by destruct op; try done; intros l Hh _.
Qed.

(** ** Running a session *)

Definition session_step (e : session_event) : io (ModuleTable * PerfSpoolWriter W) unit :=
  match e with
  | Mapping e => map_step e
  | Sampled ts pid tid stack =>
      t ← table;
      resolved ← io_lift (ok_or Panicked (resolve_stack pid stack t));
      update_table (λ _, resolved.2);;
      to_sink (write_sample_frames interrupt_budget ts pid tid resolved.1);;
      mret tt
  end.

Fixpoint session_run (es : list session_event) : io (ModuleTable * PerfSpoolWriter W) unit :=
  match es with
  | [] => mret tt
  | e :: es => session_step e;; session_run es
  end.

(** A consistent state of a session. *)
Record in_session (sp : address_space) (lss : list log_sample) (t : ModuleTable) (w : PerfSpoolWriter W)
    : Prop := {
  is_inv : table_inv t;
  is_represents : represents t sp;
  is_logged : exists l, history lss w l /\ agree t l;
}.

(** What one event does to the address spaces and to the samples to come. *)
Definition event_space (sp : address_space) (e : session_event) : address_space :=
  match e with Mapping e => space_step sp e | Sampled _ _ _ _ => sp end.
Definition event_seen (sp : address_space) (e : session_event) (lss : list log_sample) : Prop :=
  match e with
  | Mapping _ | Sampled _ _ _ [] => lss = []
  | Sampled ts pid tid stack => exists ls, lss = [ls] /\ sample_seen sp ts pid tid stack ls
  end.

Lemma session_step_ok e sp lss t w :
  sim w0 tables_empty -> in_session sp lss t w -> session_event_ok e ->
  match session_step e (t, w) with
  | (Ok _, (t', w')) => exists new, event_seen sp e new /\ in_session (event_space sp e) (lss ++ new) t' w'
  | (Err err, _) => err = InvalidInput
  end.
Proof.
  intros Hs0 [Hi Hr (l & Hh & Ha)] Hok. destruct e as [e|ts pid tid stack].
  - pose proof (map_step_spec (history lss) (λ _, False) (H0 := writer_logged lss Hs0) e t w sp Hi Hok Hr) as Hs.
    unfold spec in Hs. cbn [session_step]. destruct (map_step e (t, w)) as [[[]|err] [t' w']]; destruct Hs as [Hi' Hs].
    + destruct Hs as [Hr' Hl]. exists []. split; [done|]. rewrite app_nil_r. split; [done|done|]. by apply (Hl l).
    + destruct Hs as [?|[?|Hno]]; [done|done|]. by destruct (Hno l Hh Ha).
  - destruct Hok as (Hts & Hp & Ht & Hst). cbn [session_step].
    destruct (resolve_stack_good sp l pid stack t Hi Ha Hr Hst) as (fs & t1 & Hfs & Hi1 & Hs1 & Hg).
    unfold mbind at 1, io_mbind at 1, table, io_gets. cbn [fst snd]. rewrite Hfs.
    unfold io_lift, ok_or, mbind, io_mbind, update_table, io_modify, to_sink, io_zoom. cbn [fst snd].
    assert (op_ok l (WriteSample ts pid tid fs)) as Hop.
    { split; [done|]. split; [done|]. split; [done|]. apply list.Forall_forall. intros f Hf.
      apply list_elem_of_lookup_1 in Hf as [i Hf]. destruct (Forall2_lookup_r _ _ _ _ _ Hg Hf) as (fr & _ & Hgf).
      apply Hgf. }
    pose proof (history_op lss w l _ Hs0 Hh Hop) as Hrun. cbn [run_op] in Hrun.
    destruct (write_sample_frames interrupt_budget ts pid tid fs w) as [r w'] eqn:Hw.
    destruct Hrun as [Hh' Hres]. destruct r as [o|e]; [|by destruct Hres]. cbn [log_step] in Hh'.
    assert (forall new, in_session sp (lss ++ new) t1 w' <-> exists l', history (lss ++ new) w' l' /\ agree t1 l') as Hin.
    { intros new. split; [by intros []|]. intros Hl'. split; [done|by eapply same_modules_represents|done]. }
    destruct stack as [|frame stack].
    + inversion Hg; subst. cbn in Hw. injection Hw as <- <-. exists []. split; [done|]. apply Hin.
      exists l. rewrite app_nil_r. split; [done|by eapply same_modules_agree].
    + exists (log_run l [WriteSample ts pid tid fs] [Ok o]). split.
      2: { apply Hin. exists l. split; [done|by eapply same_modules_agree]. }
      assert (exists id, o = Some id) as [id ->].
      { pose proof Hh as (ds & td & Had & Hlr & _).
        assert (Forall (frame_writable td) fs) as Hwr.
        { destruct Hop as (_ & _ & _ & Hfr). eapply Forall_impl; [exact Hfr|]. intros f Hf.
          rewrite (lr_modules _ _ Hlr) in Hf. by apply compact_expand. }
        pose proof (write_sample_frames_sim interrupt_budget w td ts pid tid fs (adv_sim _ _ _ _ _ Had) Hts Hp Ht Hwr) as Hx.
        rewrite Hw in Hx. destruct Hx as (? & ? & _ & _ & _ & Hx). destruct o as [id|]; [by exists id|].
        destruct Hx as [-> _]. inversion Hg. }
      eexists. split; [done|]. split; [done|done|done|]. cbn.
      apply Forall2_fmap_r. eapply Forall2_impl; [exact Hg|]. intros fr f Hgf. apply Hgf.
Qed.

Lemma session_seen_cons sp e es new lss :
  event_seen sp e new -> session_seen (event_space sp e) es lss -> session_seen sp (e :: es) (new ++ lss).
Proof.
  destruct e as [e|ts pid tid [|frame stack]]; cbn.
  - by intros ->.
  - by intros ->.
  - intros (ls & -> & Hls) Hes. by exists ls, lss.
Qed.

Lemma session_run_ok es : forall sp lss t w,
  sim w0 tables_empty -> in_session sp lss t w -> Forall session_event_ok es ->
  match session_run es (t, w) with
  | (Ok _, (t', w')) => exists new l, session_seen sp es new /\ history (lss ++ new) w' l
  | (Err err, _) => err = InvalidInput
  end.
Proof.
  induction es as [|e es IH]; intros sp lss t w Hs0 Hin Hes; cbn [session_run].
  { destruct Hin as [_ _ (l & Hh & _)]. cbn. exists [], l. by rewrite app_nil_r. }
  apply Forall_cons in Hes as [He Hes]. pose proof (session_step_ok e sp lss t w Hs0 Hin He) as Hstep.
  unfold mbind, io_mbind. destruct (session_step e (t, w)) as [[[]|err] [t1 w1]]; [|done].
  destruct Hstep as (new & Hseen & Hin1). specialize (IH _ _ _ _ Hs0 Hin1 Hes).
  destruct (session_run es (t1, w1)) as [[[]|err] [t2 w2]]; [|done]. destruct IH as (new' & l & Hseen' & Hh).
  exists (new ++ new'), l. split; [by apply session_seen_cons|]. by rewrite app_assoc.
Qed.
End session.

(** ** Theorem *)

Section theorem.
Context {W : Type} `{ReliableSink W} `{VarIntLaws} (interrupt_budget : nat).

(** The result and the file of a whole session. *)
Definition record_session (inner : W) (h : header) (es : list session_event) : result unit * list Z :=
  let w := (from_writer_with_origin interrupt_budget inner (h_start_timestamp_us h)
              (h_sample_interval_ns h) (h_clock_origin h)).2 in
  let '(r, (_, w)) := session_run interrupt_budget es (table_default, w) in
  (r, content (o_inner (w_writer w))).

(** C1: end to end, a profiled program's mmaps, forks and exits interleaved with
    sampled stacks, recorded through the module table and the spool writer and
    read back, show exactly the sampled stacks in order, with return addresses
    looked up one byte back and truncation markers kept, and every user frame
    with the file byte that was mapped at its address at that moment (or no
    mapping when nothing was); the only error is an id or a timestamp delta
    that does not fit the format. *)
Theorem recorded_session_reads_back (inner : W) (h : header) (es : list session_event) :
  content inner = [] -> header_ok h -> Forall session_event_ok es ->
  mappable (record_session inner h es).2 ->
  match record_session inner h es with
  | (Ok _, file) => exists s lss, open_spool file Retain = Ok s /\ op_truncated_tail s = false /\
      session_seen (λ _ _, None) es lss /\ Forall2 (shows (op_tables s)) (op_samples s) lss
  | (Err e, _) => e = InvalidInput
  end.
Proof.
  intros Hc Hh Hes Hm. unfold record_session in *.
  destruct (from_writer_sim interrupt_budget inner (h_start_timestamp_us h) (h_sample_interval_ns h)
              (h_clock_origin h) Hc) as (w0 & Hw & Hs0 & Hc0). rewrite Hw in *. cbn [snd] in *.
  assert (in_session w0 (λ _ _, None) [] table_default w0) as Hin.
  { split; [apply table_default_inv|apply represents_default|]. exists []. split; [|apply agree_default].
    exists [], tables_empty. split; [by apply advances_refl|]. split; [by split|constructor]. }
  pose proof (session_run_ok interrupt_budget w0 es _ _ _ _ Hs0 Hin Hes) as Hrun.
  destruct (session_run interrupt_budget es (table_default, w0)) as [[[]|e] [t w]]; [|done]. cbn [snd] in Hm.
  destruct Hrun as (lss & l & Hseen & ds & td & [Hsim (rs & Hst & Hcon)] & _ & Hsh).
  assert (content (o_inner (w_writer w)) = spool_file h rs) as Hfile by (rewrite Hcon, Hc0; by destruct h).
  rewrite Hfile in *. rewrite (open_spool_complete h rs ds td Hh Hst Hm). by eexists _, lss.
Qed.
End theorem.

(** A library mapped over the middle of a program, a fork, the parent's exit. *)
Definition example_session : list session_event :=
  [Mapping (Map (mkModule 0 (Process 42) 4096 12288 512 77 8 1 0 [47; 97] None));
   Sampled 1000 42 43 [InstructionPointer 9000 UserMode; ReturnAddress 5000 UserMode; TruncatedStackFrame];
   Mapping (Map (mkModule 0 (Process 42) 6000 9500 0 78 8 1 3 [47; 98] None));
   Sampled 1010 42 43 [InstructionPointer 9000 UserMode];
   Mapping (Fork 42 50); Mapping (Exit 42); Sampled 1020 50 50 [InstructionPointer 9600 UserMode];
   Sampled 1030 42 42 []].

Lemma example_session_ok : Forall session_event_ok example_session.
Proof.
  repeat constructor; try done; cbn; unfold is_pid; word_lia.
Qed.

Lemma recorded_session_reads_back_witness :
  exists s, open_spool (record_session 0 ([] : list Z) example_header example_session).2 Retain = Ok s /\
    length (op_samples s) = 3%nat.
Proof.
  pose proof (recorded_session_reads_back 0 ([] : list Z) example_header example_session empty_sink
                example_header_ok example_session_ok) as Hread.
  assert ((record_session 0 ([] : list Z) example_header example_session).1 = Ok tt) as Hok
    by (vm_compute; reflexivity).
  assert (mappable (record_session 0 ([] : list Z) example_header example_session).2) as Hm
    by (vm_compute; done).
  specialize (Hread Hm). destruct (record_session 0 [] example_header example_session) as [r file].
  cbn [fst snd] in *. rewrite Hok in Hread. destruct Hread as (s & lss & Hopen & _ & Hseen & Hsh).
  exists s. split; [exact Hopen|]. apply Forall2_length in Hsh. rewrite Hsh.
  cbn in Hseen. destruct Hseen as (? & ? & -> & _ & ? & ? & -> & _ & ? & ? & -> & _ & ->). reflexivity.
Defined.
