(* ===== verification/X86Regs.v ===== *)
(** * x86_64 register state, pop orderings and captured registers

    [UnwindRegsX86_64] (a register file with a bit set of the known registers)
    and [register_ordering] (a permutation of callee-saved registers packed in a
    [u16]) of [crates/framehop-stackpulse/src/x86_64], and the conversion of the
    registers that perf captures of [src/linux/convert_regs.rs]. *)

From stdpp Require Import prelude list numbers.
From S2P Require Import Prelude.
#[local] Open Scope Z_scope.

(** ** Registers *)

Inductive Reg :=
  | RAX | RDX | RCX | RBX | RSI | RDI | RBP | RSP | R8 | R9 | R10 | R11 | R12 | R13 | R14 | R15.

#[global] Instance Reg_eq_dec : EqDecision Reg.
Proof. solve_decision. Defined.

(** [reg as usize]. *)
Definition reg_index (r : Reg) : nat :=
  match r with
  | RAX => 0 | RDX => 1 | RCX => 2 | RBX => 3 | RSI => 4 | RDI => 5 | RBP => 6 | RSP => 7
  | R8 => 8 | R9 => 9 | R10 => 10 | R11 => 11 | R12 => 12 | R13 => 13 | R14 => 14 | R15 => 15
  end%nat.

#[global] Instance reg_index_inj : Inj (=) (=) reg_index.
Proof. intros [] []; cbn; congruence. Qed.

Record UnwindRegs := mkRegs { r_ip : Z; r_regs : list Z; r_valid : Z }.

Definition valid_reg_bit (r : Reg) : Z := Z.shiftl 1 (Z.of_nat (reg_index r)).

Definition reg_get (r : Reg) (s : UnwindRegs) : Z := default 0 (r_regs s !! reg_index r).
Definition get_if_set (r : Reg) (s : UnwindRegs) : option Z :=
  if negb (Z.land (r_valid s) (valid_reg_bit r) =? 0) then Some (reg_get r s) else None.
Definition reg_set (r : Reg) (v : Z) (s : UnwindRegs) : UnwindRegs :=
  mkRegs (r_ip s) (<[reg_index r := v]> (r_regs s)) (Z.lor (r_valid s) (valid_reg_bit r)).
Definition clear_non_frame_registers (s : UnwindRegs) : UnwindRegs :=
  mkRegs (r_ip s) (r_regs s) (Z.land (r_valid s) (Z.lor (valid_reg_bit RBP) (valid_reg_bit RSP))).
Definition set_ip (ip : Z) (s : UnwindRegs) : UnwindRegs := mkRegs ip (r_regs s) (r_valid s).

Definition r_sp (s : UnwindRegs) : Z := reg_get RSP s.
Definition r_bp (s : UnwindRegs) : Z := reg_get RBP s.
Definition set_sp (v : Z) (s : UnwindRegs) : UnwindRegs := reg_set RSP v s.
Definition set_bp (v : Z) (s : UnwindRegs) : UnwindRegs := reg_set RBP v s.
Definition regs_new (ip sp bp : Z) : UnwindRegs :=
  set_bp bp (set_sp sp (mkRegs ip (replicate 16 0) 0)).

(** The [[u64; 16]] array. *)
Definition regs_wf (s : UnwindRegs) : Prop := length (r_regs s) = 16%nat.

Lemma reg_index_lt r : (reg_index r < 16)%nat.
Proof. destruct r; cbn; lia. Qed.

Lemma regs_new_wf ip sp bp : regs_wf (regs_new ip sp bp).
Proof. done. Qed.

Lemma reg_set_wf r v s : regs_wf s -> regs_wf (reg_set r v s).
Proof. unfold regs_wf. cbn. by rewrite length_insert. Qed.

(** *** The bit set *)

Lemma valid_bit_test r s : negb (Z.land (r_valid s) (valid_reg_bit r) =? 0) = Z.testbit (r_valid s) (Z.of_nat (reg_index r)).
Proof.
  unfold valid_reg_bit. rewrite Z.shiftl_1_l.
  assert (0 <= Z.of_nat (reg_index r)) as Hr by lia.
  destruct (Z.testbit (r_valid s) (Z.of_nat (reg_index r))) eqn:Hb.
  - apply negb_true_iff, Z.eqb_neq. intros Heq.
    assert (Z.testbit (Z.land (r_valid s) (2 ^ Z.of_nat (reg_index r))) (Z.of_nat (reg_index r)) = true) as Ht
      by (rewrite Z.land_spec, Hb, Z.pow2_bits_true by done; done).
    rewrite Heq, Z.bits_0 in Ht. done.
  - apply negb_false_iff, Z.eqb_eq. apply Z.bits_inj'. intros n Hn. rewrite Z.land_spec, Z.bits_0, Z.pow2_bits_eqb by done.
    destruct (Z.eqb_spec (Z.of_nat (reg_index r)) n) as [<-|]; [by rewrite Hb|by rewrite andb_false_r].
Qed.

Lemma get_if_set_spec r s :
  get_if_set r s = if Z.testbit (r_valid s) (Z.of_nat (reg_index r)) then Some (reg_get r s) else None.
Proof. unfold get_if_set. by rewrite valid_bit_test. Qed.

Lemma valid_bit_other r r' : Z.testbit (valid_reg_bit r) (Z.of_nat (reg_index r')) = bool_decide (r = r').
Proof.
  unfold valid_reg_bit. rewrite Z.shiftl_1_l, Z.pow2_bits_eqb by lia.
  destruct (bool_decide_reflect (r = r')) as [->|Hne]; [by rewrite Z.eqb_refl|].
  apply Z.eqb_neq. intros Heq. apply Hne, (inj reg_index). lia.
Qed.

Lemma get_set r v s : regs_wf s -> reg_get r (reg_set r v s) = v.
Proof.
  intros Hwf. unfold reg_get, reg_set. cbn. rewrite list_lookup_insert_eq; [done|].
  rewrite Hwf. apply reg_index_lt.
Qed.

Lemma get_set_ne r r' v s : r <> r' -> reg_get r' (reg_set r v s) = reg_get r' s.
Proof.
  intros Hne. unfold reg_get, reg_set. cbn. rewrite list_lookup_insert_ne; [done|].
  intros Heq. by apply Hne, (inj reg_index).
Qed.

Lemma get_if_set_set r v s : regs_wf s -> get_if_set r (reg_set r v s) = Some v.
Proof.
  intros Hwf. rewrite get_if_set_spec, get_set by done. cbn [r_valid reg_set].
  by rewrite Z.lor_spec, valid_bit_other, bool_decide_eq_true_2, orb_true_r.
Qed.

Lemma get_if_set_set_ne r r' v s : r <> r' -> get_if_set r' (reg_set r v s) = get_if_set r' s.
Proof.
  intros Hne. rewrite !get_if_set_spec, get_set_ne by done. cbn [r_valid reg_set].
  by rewrite Z.lor_spec, valid_bit_other, bool_decide_eq_false_2, orb_false_r.
Qed.

Lemma get_if_set_clear r s :
  get_if_set r (clear_non_frame_registers s) =
  if bool_decide (r = RBP \/ r = RSP) then get_if_set r s else None.
Proof.
  rewrite !get_if_set_spec. cbn [r_valid clear_non_frame_registers].
  rewrite Z.land_spec, Z.lor_spec, !valid_bit_other.
  destruct (decide (r = RBP)) as [->|H1]; [|destruct (decide (r = RSP)) as [->|H2]].
  - by rewrite bool_decide_eq_true_2, (bool_decide_eq_true_2 (RBP = RBP \/ _)), andb_true_r by auto.
  - by rewrite (bool_decide_eq_true_2 (RSP = RSP)), (bool_decide_eq_true_2 (RSP = RBP \/ _)), orb_true_r, andb_true_r by auto.
  - rewrite (bool_decide_eq_false_2 (RBP = r)), (bool_decide_eq_false_2 (RSP = r)) by congruence.
    rewrite bool_decide_eq_false_2 by (by intros [?|?]). by rewrite andb_false_r.
Qed.

(** ** Register orderings *)

Definition ENCODE_REGISTERS : list Reg := [RBX; RBP; RDI; RSI; R12; R13; R14; R15].

(** [regs[base..].swap(index, 0)]; [None] is an index out of bounds. *)
Definition swap_from {A} (base index : nat) (l : list A) : option (list A) :=
  a ← l !! (base + index)%nat;
  b ← l !! base;
  Some (<[(base + index)%nat := b]> (<[base := a]> l)).

(** The loop of [decode], with [n] counting down from 8; [None] is a remainder
    by zero or an index out of bounds. *)
Fixpoint decode_loop (n : nat) (r : Z) (regs : list Reg) : option (list Reg) :=
  if r =? 0 then Some regs
  else match n with
       | O => None
       | S n' =>
           let index := r mod Z.of_nat n in
           regs ← (if index =? 0 then Some regs else swap_from (8 - n) (Z.to_nat index) regs);
           decode_loop n' (r / Z.of_nat n) regs
       end.
Definition decode (count : nat) (encoded_ordering : Z) : option (list Reg) :=
  take count <$> decode_loop 8 encoded_ordering ENCODE_REGISTERS.

Fixpoint position {A} `{EqDecision A} (x : A) (l : list A) : option nat :=
  match l with
  | [] => None
  | y :: l => if decide (x = y) then Some 0%nat else S <$> position x l
  end.

Fixpoint encode_loop (i : nat) (scale r : Z) (reg_order registers : list Reg) : option Z :=
  match registers with
  | [] => Some r
  | reg :: registers =>
      index ← position reg (drop i reg_order);
      reg_order ← (if (index =? 0)%nat then Some reg_order else swap_from i index reg_order);
      encode_loop (S i) (scale * (8 - Z.of_nat i)) (r + Z.of_nat index * scale) reg_order registers
  end.
Definition encode (registers : list Reg) : option (nat * Z) :=
  if (8 <? length registers)%nat then None
  else r ← encode_loop 0 1 0 ENCODE_REGISTERS registers; Some (length registers, r).

Lemma position_lookup {A} `{EqDecision A} (x : A) l i : position x l = Some i -> l !! i = Some x.
Proof.
  revert i. induction l as [|y l IH]; intros i; cbn; [done|].
  destruct (decide (x = y)) as [->|]; [by intros [= <-]|].
  intros (j & Hj & ->)%fmap_Some. by apply IH.
Qed.

Lemma swap_from_spec {A} base index (l : list A) x :
  l !! (base + index)%nat = Some x ->
  exists l', swap_from base index l = Some l' /\ length l' = length l /\ l' !! base = Some x /\
    (forall k, (k < base)%nat -> l' !! k = l !! k) /\ (index = 0%nat -> l' = l).
Proof.
  intros Hx. unfold swap_from. rewrite Hx. cbn.
  assert (base < length l)%nat as Hb by (apply lookup_lt_Some in Hx; lia).
  destruct (lookup_lt_is_Some_2 l base Hb) as [y Hy]. rewrite Hy. cbn. eexists. split; [done|].
  split; [by rewrite !length_insert|]. split; [|split].
  - destruct (decide (index = 0%nat)) as [->|Hi].
    + rewrite Nat.add_0_r in *. rewrite list_lookup_insert_eq; [congruence|by rewrite length_insert].
    + rewrite list_lookup_insert_ne by lia. by rewrite list_lookup_insert_eq.
  - intros k Hk. rewrite !list_lookup_insert_ne by lia. done.
  - intros ->. rewrite Nat.add_0_r in *. rewrite list_insert_insert_eq.
    assert (y = x) as -> by congruence. by apply list_insert_id.
Qed.

Lemma decode_loop_zero n l : decode_loop n 0 l = Some l.
Proof. by destruct n. Qed.

(** One digit of the mixed-radix number. *)
Lemma decode_loop_digit n index q (l l' : list Reg) :
  0 <= index < Z.of_nat (S n) -> 0 <= q ->
  (if index =? 0 then Some l else swap_from (8 - S n) (Z.to_nat index) l) = Some l' ->
  decode_loop (S n) (index + Z.of_nat (S n) * q) l = decode_loop n q l'.
Proof.
  intros Hi Hq Hl. cbn [decode_loop].
  assert ((index + Z.of_nat (S n) * q) mod Z.of_nat (S n) = index) as ->
    by (rewrite Z.mul_comm, Z_mod_plus_full, Z.mod_small by lia; done).
  assert ((index + Z.of_nat (S n) * q) / Z.of_nat (S n) = q) as ->
    by (rewrite Z.mul_comm, Z_div_plus_full, Z.div_small by lia; lia).
  destruct (Z.eqb_spec (index + Z.of_nat (S n) * q) 0) as [Hz|Hz].
  - assert (index = 0 /\ q = 0) as [-> ->] by nia. cbn in Hl. injection Hl as <-. by rewrite decode_loop_zero.
  - by rewrite Hl.
Qed.

(** Everything [encode_loop] packs, [decode_loop] unpacks; the number stays
    below the factorial of the registers left, so a [u16] holds it. *)
Lemma encode_decode_loop registers : forall i scale r0 order r,
  length order = 8%nat -> (i + length registers <= 8)%nat ->
  encode_loop i scale r0 order registers = Some r ->
  exists q final, r = r0 + scale * q /\ 0 <= q < Z.of_nat (fact (8 - i)) /\
    decode_loop (8 - i) q order = Some final /\ length final = 8%nat /\
    (forall k, (k < i)%nat -> final !! k = order !! k) /\
    (forall k reg, registers !! k = Some reg -> final !! (i + k)%nat = Some reg).
Proof.
  induction registers as [|reg registers IH]; intros i scale r0 order r Hlen Hi; cbn [encode_loop].
  { intros [= <-]. exists 0, order. rewrite decode_loop_zero. pose proof (lt_O_fact (8 - i)).
    repeat split; try done; lia. }
  intros Henc. destruct (position reg (drop i order)) as [index|] eqn:Hp; [|done]. cbn [mbind option_bind] in Henc.
  apply position_lookup in Hp. rewrite lookup_drop in Hp.
  destruct (swap_from_spec i index order reg Hp) as (order' & Hswap & Hlen' & Hat & Hbefore & Hsame).
  assert ((if (index =? 0)%nat then Some order else swap_from i index order) = Some order') as Hor.
  { destruct (Nat.eqb_spec index 0) as [->|]; [by rewrite Hsame|done]. }
  rewrite Hor in Henc. cbn [mbind option_bind] in Henc. cbn [length] in Hi.
  apply IH in Henc as (q & final & -> & Hq & Hdec & Hlf & Hkeep & Hregs); [|lia|lia].
  apply lookup_lt_Some in Hp. set (n := (7 - i)%nat).
  assert (8 - i = S n)%nat as En by lia. assert (8 - S i = n)%nat as En' by lia. rewrite En, En' in *.
  exists (Z.of_nat index + Z.of_nat (S n) * q), final.
  split; [lia|]. split; [cbn [fact]; nia|]. split; [|split; [done|split]].
  - rewrite (decode_loop_digit n _ q order order'); [done|lia|lia|].
    rewrite Nat2Z.id. replace (8 - S n)%nat with i by lia.
    destruct (Z.eqb_spec (Z.of_nat index) 0), (Nat.eqb_spec index 0); (done || lia).
  - intros k Hk. rewrite Hkeep by lia. by apply Hbefore.
  - intros [|k] reg' Hk.
    + cbn in Hk. injection Hk as <-. rewrite Nat.add_0_r, Hkeep by lia. done.
    + cbn in Hk. rewrite <- (Hregs k reg' Hk). f_equal. lia.
Qed.

Lemma encode_decode (registers : list Reg) (count : nat) (encoded : Z) :
  encode registers = Some (count, encoded) ->
  decode count encoded = Some registers /\ 0 <= encoded < 40320.
Proof.
  unfold encode. destruct (Nat.ltb_spec 8 (length registers)); [done|].
  destruct (encode_loop 0 1 0 ENCODE_REGISTERS registers) as [r|] eqn:He; [|done]. cbn [mbind option_bind]. intros [= <- <-].
  destruct (encode_decode_loop registers 0 1 0 ENCODE_REGISTERS r) as (q & final & -> & Hq & Hdec & Hlen & _ & Hregs);
    [done|lia|done|].
  replace (0 + 1 * q) with q by lia. split; [|exact Hq].
  unfold decode. change (8 - 0)%nat with 8%nat in Hdec. rewrite Hdec. cbn. f_equal.
  apply list_eq. intros k. destruct (decide (k < length registers)%nat) as [Hk|Hk].
  - destruct (lookup_lt_is_Some_2 registers k Hk) as [reg Hr]. rewrite Hr, lookup_take_lt by done. by apply Hregs.
  - rewrite lookup_take_ge by lia. symmetry. apply lookup_ge_None. lia.
Qed.

(** Every ordering of callee-saved registers that [encode] accepts comes
    back from [decode], and the packed number is below 8! = 40320, so it fits
    its [u16] and [decode] never divides by zero on it. *)
Theorem register_ordering_roundtrip (registers : list Reg) (count : nat) (encoded : Z) :
  encode registers = Some (count, encoded) ->
  decode count encoded = Some registers /\ 0 <= encoded < 40320.
Proof. apply encode_decode. Qed.

Lemma register_ordering_roundtrip_witness : decode 3 202 = Some [RDI; R13; RBP].
Proof. apply (register_ordering_roundtrip [RDI; R13; RBP] 3 202). vm_compute. reflexivity. Defined.

(** ** Captured registers

    [src/linux/convert_regs.rs]: perf captures the registers of a mask in the
    order of their bits, and the unwinder gets each under framehop's name.  The
    numbers of the registers are those of the kernel's headers ([PerfRegs]). *)

Class PerfRegs := { perf_reg : Reg -> Z; PERF_REG_IP : Z }.
(** The numbers are different bits of a mask. *)
Class PerfRegsDistinct `{PerfRegs} : Prop := {
  perf_reg_inj r r' : perf_reg r = perf_reg r' -> r = r';
  perf_reg_not_ip r : perf_reg r <> PERF_REG_IP;
  perf_reg_range r : 0 <= perf_reg r < 64;
  perf_ip_range : 0 <= PERF_REG_IP < 64;
}.

Section captured.
Context `{PerfRegs}.

Definition X86_64_GENERAL_REGISTERS : list (Z * Reg) :=
  (λ r, (perf_reg r, r)) <$> [RAX; RDX; RCX; RBX; RSI; RDI; RBP; RSP; R8; R9; R10; R11; R12; R13; R14; R15].

(** The set bits of a [u64], and their number. *)
Definition mask_bits (mask : Z) : list Z := filter (λ i, Z.testbit mask i = true) (seqZ 0 64).
Definition mask_ones (mask : Z) : nat := length (mask_bits mask).

Definition reg_value (regs : list Z) (regs_mask register : Z) : option Z :=
  if 64 <=? register then None
  else
    let register_bit := Z.shiftl 1 register in
    if Z.land regs_mask register_bit =? 0 then None
    else regs !! mask_ones (Z.land regs_mask (register_bit - 1)).

Definition regs_mask : Z := foldl (λ mask reg, Z.lor mask (Z.shiftl 1 reg.1)) (Z.shiftl 1 PERF_REG_IP) X86_64_GENERAL_REGISTERS.

Fixpoint set_general (regs : list Z) (registers : list (Z * Reg)) (s : UnwindRegs) : option UnwindRegs :=
  match registers with
  | [] => Some s
  | (register, r) :: registers => v ← reg_value regs regs_mask register; set_general regs registers (reg_set r v s)
  end.
Definition convert_regs (regs : list Z) : option (Z * Z * UnwindRegs) :=
  ip ← reg_value regs regs_mask PERF_REG_IP;
  sp ← reg_value regs regs_mask (perf_reg RSP);
  bp ← reg_value regs regs_mask (perf_reg RBP);
  unwind_regs ← set_general regs X86_64_GENERAL_REGISTERS (regs_new ip sp bp);
  Some (ip, sp, unwind_regs).

(** What perf writes for a mask. *)
Definition capture (values : Z -> Z) (mask : Z) : list Z := values <$> mask_bits mask.

Lemma shiftl_one_bit i j : 0 <= i -> 0 <= j -> Z.testbit (Z.shiftl 1 i) j = bool_decide (i = j).
Proof. intros Hi Hj. rewrite Z.shiftl_1_l, Z.pow2_bits_eqb by done. by destruct (Z.eqb_spec i j), (bool_decide_reflect (i = j)). Qed.

Lemma filter_agree (P Q : Z -> bool) (l : list Z) : (forall x, x ∈ l -> P x = Q x) -> filter (λ x, P x = true) l = filter (λ x, Q x = true) l.
Proof.
  induction l as [|x l IH]; intros Hl; [done|]. rewrite !list.filter_cons, IH by (intros y Hy; apply Hl; by right).
  by rewrite (Hl x ltac:(by left)).
Qed.

(** The registers before bit [i] of a mask. *)
Lemma bits_below mask i : 0 <= i < 64 -> mask_bits (Z.land mask (Z.shiftl 1 i - 1)) = filter (λ j, Z.testbit mask j = true) (seqZ 0 i).
Proof.
  intros Hi. unfold mask_bits. replace 64 with (i + (64 - i)) by lia. rewrite seqZ_app, list.filter_app by lia.
  assert (forall j, 0 <= j -> Z.testbit (Z.land mask (Z.shiftl 1 i - 1)) j = Z.testbit mask j && (j <? i)) as Hb.
  { intros j Hj. rewrite Z.land_spec, Z.shiftl_1_l. replace (2 ^ i - 1) with (Z.ones i) by (rewrite Z.ones_equiv; lia).
    by rewrite Z.testbit_ones_nonneg by lia. }
  rewrite (filter_none _ (seqZ (0 + i) _)), app_nil_r.
  - apply (filter_agree (Z.testbit _) (Z.testbit _)). intros j Hj%elem_of_seqZ. by rewrite Hb, (proj2 (Z.ltb_lt j i)), andb_true_r by lia.
  - intros j Hj%elem_of_seqZ. by rewrite Hb, (proj2 (Z.ltb_ge j i)), andb_false_r by lia.
Qed.

Lemma captured_value values mask i : 0 <= i < 64 -> Z.testbit mask i = true -> reg_value (capture values mask) mask i = Some (values i).
Proof.
  intros Hi Hb. unfold reg_value. rewrite (proj2 (Z.leb_gt 64 i)) by lia.
  assert (Z.land mask (Z.shiftl 1 i) <> 0) as Hne.
  { intros Heq. assert (Z.testbit (Z.land mask (Z.shiftl 1 i)) i = true) as Ht
      by (rewrite Z.land_spec, Hb, shiftl_one_bit by lia; by rewrite bool_decide_eq_true_2). by rewrite Heq, Z.bits_0 in Ht. }
  rewrite (proj2 (Z.eqb_neq _ _) Hne). unfold mask_ones, capture. rewrite bits_below by done.
  rewrite list_lookup_fmap. unfold mask_bits. replace 64 with (i + (64 - i)) by lia. rewrite seqZ_app, list.filter_app by lia.
  rewrite lookup_app_r by done. rewrite Nat.sub_diag, Z.add_0_l, (seqZ_cons i) by lia. by rewrite list.filter_cons_True.
Qed.

Context `{!PerfRegsDistinct}.

Lemma mask_fold_bit l mask j : 0 <= j -> (forall reg, reg ∈ l -> 0 <= reg.1) ->
  Z.testbit (foldl (λ mask (reg : Z * Reg), Z.lor mask (Z.shiftl 1 reg.1)) mask l) j = Z.testbit mask j || bool_decide (j ∈ l.*1).
Proof.
  intros Hj. revert mask. induction l as [|reg l IH]; intros mask Hl; cbn [foldl fmap list_fmap].
  { rewrite bool_decide_eq_false_2 by (by intros ?%elem_of_nil). by rewrite orb_false_r. }
  rewrite IH by (intros reg' Hr; apply Hl; by right). rewrite Z.lor_spec, shiftl_one_bit by (first [done|apply Hl; by left]).
  rewrite <- orb_assoc. f_equal. rewrite <- bool_decide_or. apply bool_decide_ext. rewrite elem_of_cons. intuition congruence.
Qed.

Lemma in_general r : (perf_reg r, r) ∈ X86_64_GENERAL_REGISTERS.
Proof. unfold X86_64_GENERAL_REGISTERS. apply (list_elem_of_fmap_2 (λ r, (perf_reg r, r))). destruct r; rewrite !elem_of_cons; tauto. Qed.
Lemma general_reg reg : reg ∈ X86_64_GENERAL_REGISTERS -> reg = (perf_reg reg.2, reg.2).
Proof. intros (r & -> & _)%list_elem_of_fmap. done. Qed.

Lemma requested r : Z.testbit regs_mask (perf_reg r) = true.
Proof.
  pose proof (perf_reg_range r). unfold regs_mask. rewrite mask_fold_bit; [|lia|intros reg ->%general_reg; apply perf_reg_range].
  rewrite (bool_decide_eq_true_2 (_ ∈ _)); [by rewrite orb_true_r|].
  change (perf_reg r) with (fst (perf_reg r, r)). apply list_elem_of_fmap_2, in_general.
Qed.
Lemma requested_ip : Z.testbit regs_mask PERF_REG_IP = true.
Proof.
  pose proof perf_ip_range. unfold regs_mask. rewrite mask_fold_bit; [|lia|intros reg ->%general_reg; apply perf_reg_range].
  by rewrite shiftl_one_bit, bool_decide_eq_true_2 by lia.
Qed.

Lemma set_general_spec values l : (forall reg, reg ∈ l -> reg = (perf_reg reg.2, reg.2)) -> forall s, regs_wf s ->
  exists s', set_general (capture values regs_mask) l s = Some s' /\ regs_wf s' /\ r_ip s' = r_ip s /\
    forall r, get_if_set r s' = if bool_decide (r ∈ l.*2) then Some (values (perf_reg r)) else get_if_set r s.
Proof.
  induction l as [|[i x] l IH]; intros Hl s Hs; cbn [set_general].
  { exists s. split_and!; [done..|]. intros r. cbn. by rewrite bool_decide_eq_false_2 by (by intros ?%elem_of_nil). }
  pose proof (Hl (i, x) ltac:(by left)) as Heq. cbn [snd] in Heq. injection Heq as ->.
  rewrite captured_value by (first [apply perf_reg_range|apply requested]). cbn [mbind option_bind].
  destruct (IH ltac:(intros reg Hr; apply Hl; by right) (reg_set x (values (perf_reg x)) s) (reg_set_wf _ _ _ Hs)) as (s' & Hrun & Hwf & Hip & Hget).
  exists s'. split_and!; [done..|]. intros r. rewrite Hget. cbn [fmap list_fmap snd]. destruct (decide (r = x)) as [->|Hne].
  - rewrite get_if_set_set by done. rewrite (bool_decide_eq_true_2 (x ∈ x :: _)) by (by left). by case_bool_decide.
  - rewrite get_if_set_set_ne by done. erewrite bool_decide_ext; [reflexivity|]. rewrite elem_of_cons. tauto.
Qed.

(** C28: the registers that perf captures for the mask of the unwinder are, after
    the conversion, each under the name that framehop has for it: the program
    counter and all sixteen general registers, whatever the numbers of the
    registers in the mask. *)
Theorem captured_registers_are_converted (values : Z -> Z) :
  exists regs, convert_regs (capture values regs_mask) = Some (values PERF_REG_IP, values (perf_reg RSP), regs) /\
    r_ip regs = values PERF_REG_IP /\ forall r, get_if_set r regs = Some (values (perf_reg r)).
Proof.
  unfold convert_regs. rewrite (captured_value values regs_mask PERF_REG_IP) by (first [apply perf_ip_range|apply requested_ip]).
  cbn [mbind option_bind]. rewrite !captured_value by (first [apply perf_reg_range|apply requested]). cbn [mbind option_bind].
  destruct (set_general_spec values X86_64_GENERAL_REGISTERS general_reg (regs_new (values PERF_REG_IP) (values (perf_reg RSP)) (values (perf_reg RBP)))
    (regs_new_wf _ _ _)) as (regs & Hrun & _ & Hip & Hget). rewrite Hrun. exists regs. split_and!; [done..|]. intros r. rewrite Hget.
  rewrite bool_decide_eq_true_2; [done|]. change r with (snd (perf_reg r, r)) at 1. apply list_elem_of_fmap_2, in_general.
Qed.
End captured.

(** The numbers of [perf_regs.h]. *)
#[local] Instance linux_perf_regs : PerfRegs := {|
  perf_reg r :=
    match r with
    | RAX => 0 | RBX => 1 | RCX => 2 | RDX => 3 | RSI => 4 | RDI => 5 | RBP => 6 | RSP => 7
    | R8 => 16 | R9 => 17 | R10 => 18 | R11 => 19 | R12 => 20 | R13 => 21 | R14 => 22 | R15 => 23
    end;
  PERF_REG_IP := 8;
|}.
#[local] Instance linux_perf_regs_distinct : PerfRegsDistinct.
Proof. split; [intros [] []; cbn; congruence|intros []; cbn; lia|intros []; cbn; lia|cbn; lia]. Qed.

Lemma captured_registers_are_converted_witness :
  exists regs, convert_regs (capture (λ i, 100 + i) regs_mask) = Some (108, 107, regs) /\
    r_ip regs = 108 /\ get_if_set R15 regs = Some 123.
Proof.
  destruct (captured_registers_are_converted (λ i, 100 + i)) as (regs & Hrun & Hip & Hget). exists regs. split_and!; [exact Hrun|exact Hip|exact (Hget R15)].
Defined.
