(* ===== verification/X86Rules.v ===== *)
(** * x86_64 unwind rules

    [UnwindRuleX86_64] of [crates/framehop-stackpulse/src/x86_64/unwind_rule.rs]:
    executing a cached rule on a register state and a stack, the DWARF register
    rules packed beside it, and the rule for a sequence of stack operations.
    The stack is a partial function from addresses to 64-bit words. *)

From stdpp Require Import prelude list numbers.
From S2P Require Import Prelude X86Regs.
#[local] Open Scope Z_scope.

(** ** Errors *)

Inductive Error :=
  | CouldNotReadStack (address : Z)
  | FramepointerUnwindingMovedBackwards
  | DidNotAdvance
  | ReturnAddressIsNull
  | IntegerOverflow.

(** [Result<A, Error>], a panic being [None]. *)
Definition outcome (A : Type) : Type := option (Error + A).
Definition ret {A} (a : A) : outcome A := Some (inr a).
Definition throw {A} (e : Error) : outcome A := Some (inl e).
Definition bind {A B} (m : outcome A) (k : A -> outcome B) : outcome B :=
  match m with
  | None => None
  | Some (inl e) => Some (inl e)
  | Some (inr a) => k a
  end.
Definition ok_or_throw {A} (e : Error) (o : option A) : outcome A :=
  match o with Some a => ret a | None => throw e end.

#[local] Notation "'let?' x := m 'in' k" := (bind m (λ x, k)) (at level 10, x name, m at level 100, k at level 200).

(** ** Rules *)

Inductive UnwindRule :=
  | EndOfStack
  | JustReturn
  | JustReturnIfFirstFrameOtherwiseFp
  | OffsetSp (sp_offset_by_8 : Z)
  | OffsetSpAndRestoreBp (sp_offset_by_8 bp_storage_offset_from_sp_by_8 : Z)
  | UseFramePointer
  | OffsetSpAndPopRegisters (sp_offset_by_8 : Z) (register_count : nat) (encoded_registers_to_pop : Z).

Section exec.
Context (read_stack : Z -> option Z).

Definition read (address : Z) : outcome Z := ok_or_throw (CouldNotReadStack address) (read_stack address).
Definition add_u64 (a b : Z) : outcome Z := ok_or_throw IntegerOverflow (checked_add_u64 a b).

(** The loop that pops the registers of [OffsetSpAndPopRegisters]. *)
Fixpoint pop_registers (sp : Z) (registers : list Reg) : outcome (Z * list (Reg * Z)) :=
  match registers with
  | [] => ret (sp, [])
  | reg :: registers =>
      let? value := read sp in
      let? sp := add_u64 sp 8 in
      let? rest := pop_registers sp registers in
      ret (rest.1, (reg, value) :: rest.2)
  end.

Definition popped (reg : Reg) (restored : list (Reg * Z)) : option Z :=
  (λ p, snd p.2) <$> list_find (λ p, p.1 = reg) restored.

(** The new stack and frame pointer of a rule, [None] at the end of the stack. *)
Definition rule_frame (rule : UnwindRule) (is_first_frame from_dwarf_row : bool) (regs : UnwindRegs)
    : outcome (option (Z * Z * list (Reg * Z))) :=
  let sp := r_sp regs in
  let bp := r_bp regs in
  match rule with
  | EndOfStack => ret None
  | JustReturn =>
      let? new_sp := add_u64 sp 8 in
      ret (Some (new_sp, bp, []))
  | JustReturnIfFirstFrameOtherwiseFp =>
      if is_first_frame then
        let? new_sp := add_u64 sp 8 in
        ret (Some (new_sp, bp, []))
      else if bp =? 0 then ret None
      else
        let? new_sp := add_u64 bp 16 in
        if new_sp <=? sp then throw FramepointerUnwindingMovedBackwards
        else
          let? new_bp := read bp in
          ret (Some (new_sp, new_bp, []))
  | OffsetSp sp_offset_by_8 =>
      let? new_sp := add_u64 sp (sp_offset_by_8 * 8) in
      ret (Some (new_sp, bp, []))
  | OffsetSpAndRestoreBp sp_offset_by_8 bp_storage_offset_from_sp_by_8 =>
      let? new_sp := add_u64 sp (sp_offset_by_8 * 8) in
      let? bp_location := ok_or_throw IntegerOverflow
                            (checked_add_signed_u64 sp (bp_storage_offset_from_sp_by_8 * 8)) in
      match read_stack bp_location with
      | Some new_bp => ret (Some (new_sp, new_bp, []))
      | None =>
          if from_dwarf_row || (is_first_frame && (bp_location <? sp))
          then ret (Some (new_sp, bp, []))
          else throw (CouldNotReadStack bp_location)
      end
  | UseFramePointer =>
      if bp =? 0 then ret None
      else
        let? new_sp := add_u64 bp 16 in
        let moved_backwards := if from_dwarf_row then negb is_first_frame && (new_sp <? sp)
                               else new_sp <=? sp in
        if moved_backwards then throw FramepointerUnwindingMovedBackwards
        else match read_stack bp with
             | Some new_bp => ret (Some (new_sp, new_bp, []))
             | None => if from_dwarf_row then ret (Some (new_sp, bp, []))
                       else throw (CouldNotReadStack bp)
             end
  | OffsetSpAndPopRegisters sp_offset_by_8 register_count encoded_registers_to_pop =>
      let? sp := add_u64 sp (sp_offset_by_8 * 8) in
      match decode register_count encoded_registers_to_pop with
      | None => None
      | Some registers =>
          let? popped_regs := pop_registers sp registers in
          let new_bp := default bp (popped RBP popped_regs.2) in
          let? new_sp := add_u64 popped_regs.1 8 in
          ret (Some (new_sp, new_bp, popped_regs.2))
      end
  end.

Definition set_all (restored : list (Reg * Z)) (regs : UnwindRegs) : UnwindRegs :=
  foldl (λ regs p, reg_set p.1 p.2 regs) regs restored.

(** The register state of the caller. *)
Definition caller_regs (new_sp new_bp return_address : Z) (restored : list (Reg * Z)) (regs : UnwindRegs)
    : UnwindRegs :=
  set_bp new_bp (set_sp new_sp (set_ip return_address (set_all restored (clear_non_frame_registers regs)))).

Definition exec_impl (rule : UnwindRule) (is_first_frame from_dwarf_row : bool) (regs : UnwindRegs)
    : outcome (option Z) * UnwindRegs :=
  match rule_frame rule is_first_frame from_dwarf_row regs with
  | None => (None, regs)
  | Some (inl e) => (throw e, regs)
  | Some (inr None) => (ret None, regs)
  | Some (inr (Some (new_sp, new_bp, restored))) =>
      match checked_sub_u64 new_sp 8 with
      | None => (throw IntegerOverflow, regs)
      | Some return_address_location =>
          match read_stack return_address_location with
          | None => (throw (CouldNotReadStack return_address_location), regs)
          | Some return_address =>
              if return_address =? 0 then (ret None, regs)
              else if (new_sp =? r_sp regs) && (return_address =? r_ip regs) then (throw DidNotAdvance, regs)
              else (ret (Some return_address), caller_regs new_sp new_bp return_address restored regs)
          end
      end
  end.

Definition exec (rule : UnwindRule) (is_first_frame : bool) (regs : UnwindRegs)
    : outcome (option Z) * UnwindRegs := exec_impl rule is_first_frame false regs.
End exec.

Definition rule_for_stub_functions : UnwindRule := JustReturn.
Definition rule_for_function_start : UnwindRule := JustReturn.
Definition fallback_rule : UnwindRule := UseFramePointer.

(** ** Packed DWARF register rules *)

Definition DWARF_CALLEE_SAVED_REGISTERS : list Reg := [RBX; R12; R13; R14; R15].

Inductive DwarfRegisterRule :=
  | SameValue
  | Undefined
  | Offset (cfa_offset_by_8 : Z).

Definition PACKED_BITS : Z := 10.

(** The ten bits of one rule; an [i8] is stored in its low byte. *)
Definition rule_bits (rule : DwarfRegisterRule) : Z :=
  match rule with
  | SameValue => 0
  | Undefined => Z.shiftl 1 8
  | Offset cfa_offset_by_8 => Z.lor (Z.shiftl 2 8) (cfa_offset_by_8 mod 256)
  end.
Definition pack (rules : list DwarfRegisterRule) : Z :=
  (fold_left (λ (st : Z * Z) rule,
     (Z.lor st.1 (Z.shiftl (rule_bits rule) (st.2 * PACKED_BITS)), st.2 + 1)) rules (0, 0)).1.

(** [bits as u8 as i8]. *)
Definition to_i8 (bits : Z) : Z := let b := bits mod 256 in if b <? 128 then b else b - 256.
Definition unpack (packed : Z) (index : nat) : DwarfRegisterRule :=
  let bits := Z.shiftr packed (Z.of_nat index * PACKED_BITS) in
  match Z.land (Z.shiftr bits 8) 3 with
  | 1 => Undefined
  | 2 => Offset (to_i8 bits)
  | _ => SameValue
  end.

Section dwarf.
Context (read_stack : Z -> option Z).

(** The value of one register in the caller, if known. *)
Definition dwarf_value (rule : DwarfRegisterRule) (cfa : Z) (preserved : option Z) : option Z :=
  match rule with
  | SameValue => preserved
  | Undefined => None
  | Offset cfa_offset_by_8 =>
      address ← checked_add_signed_u64 cfa (cfa_offset_by_8 * 8);
      read_stack address
  end.

Fixpoint restore_registers (register_rules : Z) (cfa : Z) (index : nat)
    (registers : list (Reg * option Z)) (regs : UnwindRegs) : UnwindRegs :=
  match registers with
  | [] => regs
  | (register, value) :: registers =>
      restore_registers register_rules cfa (S index) registers
        (match dwarf_value (unpack register_rules index) cfa value with
         | Some value => reg_set register value regs
         | None => regs
         end)
  end.

Definition exec_with_dwarf_register_rules (rule : UnwindRule) (register_rules : Z)
    (is_first_frame : bool) (regs : UnwindRegs) : outcome (option Z) * UnwindRegs :=
  let preserved := (λ register, (register, get_if_set register regs)) <$> DWARF_CALLEE_SAVED_REGISTERS in
  match exec_impl read_stack rule is_first_frame true regs with
  | (Some (inr (Some return_address)), regs) =>
      (ret (Some return_address), restore_registers register_rules (r_sp regs) 0 preserved regs)
  | r => r
  end.
End dwarf.

(** ** Rules for sequences of stack operations *)

Inductive OffsetOrPop :=
  | NoOp
  | OffsetBy8 (offset : Z)
  | Pop (reg : Reg).

Fixpoint pops_only (ops : list OffsetOrPop) (regs : list Reg) : option (list Reg) :=
  match ops with
  | [] => Some regs
  | Pop reg :: ops => if (length regs <? 8)%nat then pops_only ops (regs ++ [reg]) else None
  | _ :: _ => None
  end.
Definition for_sequence_of_offset_or_pop (ops : list OffsetOrPop) : option UnwindRule :=
  let '(sp_offset_by_8, ops) :=
    match ops with OffsetBy8 offset :: rest => (offset, rest) | _ => (0, ops) end in
  regs ← pops_only ops [];
  if (length regs =? 0)%nat && (sp_offset_by_8 =? 0) then Some JustReturn
  else
    '(register_count, encoded_registers_to_pop) ← encode regs;
    Some (OffsetSpAndPopRegisters sp_offset_by_8 register_count encoded_registers_to_pop).
