(* ===== verification/X86Unwind.v ===== *)
(** * Properties of the x86_64 rules

    Unwinding makes progress and stops by itself, failed steps change nothing,
    packed register rules unpack, and a rule built from a sequence of stack
    operations does what the operations do. *)

From stdpp Require Import prelude list numbers.
From S2P Require Import Prelude X86Regs X86Rules.
#[local] Open Scope Z_scope.

(** The widths of the fields of a rule. *)
Definition rule_ok (rule : UnwindRule) : Prop :=
  match rule with
  | OffsetSp sp_offset_by_8 => is_u16 sp_offset_by_8
  | OffsetSpAndRestoreBp sp_offset_by_8 bp_offset => is_u16 sp_offset_by_8 /\ -32768 <= bp_offset <= 32767
  | OffsetSpAndPopRegisters sp_offset_by_8 _ encoded => is_u16 sp_offset_by_8 /\ 0 <= encoded < 40320
  | _ => True
  end.

(** ** Inversion *)

Lemma bind_inv {A B} (m : outcome A) (k : A -> outcome B) b :
  bind m k = ret b -> exists a, m = ret a /\ k a = ret b.
Proof. unfold bind, ret. destruct m as [[e|a]|]; [done| |done]. intros. by exists a. Qed.

Lemma ok_or_inv {A} e (o : option A) a : ok_or_throw e o = ret a -> o = Some a.
Proof. unfold ok_or_throw, ret, throw. destruct o; [|done]. by intros [= ->]. Qed.

Lemma checked_add_inv a b c : checked_add_u64 a b = Some c -> c = a + b /\ c <= u64_max.
Proof. unfold checked_add_u64. destruct (Z.leb_spec (a + b) u64_max); [|done]. by intros [= <-]. Qed.

Ltac outcome_inv :=
  repeat match goal with
  | H : bind _ _ = ret _ |- _ => let a := fresh "a" in let E := fresh "E" in apply bind_inv in H as (a & E & H)
  | H : add_u64 _ _ = ret _ |- _ => apply ok_or_inv, checked_add_inv in H as [? ?]
  | H : read _ _ = ret _ |- _ => apply ok_or_inv in H
  | H : ret _ = ret _ |- _ => unfold ret in H
  | H : throw _ = ret _ |- _ => discriminate H
  | H : Some (inr _) = Some (inr _) |- _ => injection H as H
  | H : (if ?b then _ else _) = ret _ |- _ => let E := fresh "E" in destruct b eqn:E
  | H : match ?o with _ => _ end = ret _ |- _ => let E := fresh "E" in destruct o eqn:E
  end.

Section progress.
Context (read_stack : Z -> option Z).

Lemma pop_registers_sp registers : forall sp r,
  pop_registers read_stack sp registers = ret r -> r.1 = sp + 8 * Z.of_nat (length registers).
Proof.
  induction registers as [|reg registers IH]; intros sp r Hp; cbn [pop_registers] in Hp; outcome_inv.
  - subst r. cbn. lia.
  - subst r. cbn [fst length]. match goal with H : pop_registers _ _ _ = _ |- _ => apply IH in H end. lia.
Qed.

(** ** The stack pointer *)

Lemma rule_frame_advances rule first regs new_sp new_bp restored :
  rule_ok rule ->
  rule_frame read_stack rule first false regs = ret (Some (new_sp, new_bp, restored)) ->
  r_sp regs <= new_sp <= u64_max.
Proof.
  intros Hok Hf. destruct rule; cbn [rule_frame rule_ok] in *; outcome_inv; simplify_eq; word_unfold; try lia.
  match goal with H : pop_registers _ _ _ = _ |- _ => apply pop_registers_sp in H end. lia.
Qed.

Lemma caller_regs_sp new_sp new_bp ra restored regs :
  regs_wf regs -> r_sp (caller_regs new_sp new_bp ra restored regs) = new_sp.
Proof.
  intros Hwf. unfold caller_regs, r_sp, set_bp, set_sp. rewrite get_set_ne by done. apply get_set.
  unfold set_all. assert (regs_wf (clear_non_frame_registers regs)) as Hc by done. revert Hc.
  generalize (clear_non_frame_registers regs). induction restored as [|p restored IH]; intros s Hs; [done|].
  cbn. by apply IH, reg_set_wf.
Qed.

Lemma caller_regs_ip new_sp new_bp ra restored regs : r_ip (caller_regs new_sp new_bp ra restored regs) = ra.
Proof. done. Qed.

Lemma caller_regs_wf new_sp new_bp ra restored regs : regs_wf regs -> regs_wf (caller_regs new_sp new_bp ra restored regs).
Proof.
  intros Hwf. unfold caller_regs. do 2 apply reg_set_wf. unfold regs_wf, set_ip. cbn. unfold set_all.
  assert (regs_wf (clear_non_frame_registers regs)) as Hc by done. revert Hc.
  generalize (clear_non_frame_registers regs). induction restored as [|p restored IH]; intros s Hs; [done|].
  cbn. by apply IH, reg_set_wf.
Qed.

(** A successful step, taken apart. *)
Lemma exec_impl_step rule first dwarf regs ra regs' :
  exec_impl read_stack rule first dwarf regs = (ret (Some ra), regs') ->
  exists new_sp new_bp restored,
    rule_frame read_stack rule first dwarf regs = ret (Some (new_sp, new_bp, restored)) /\
    regs' = caller_regs new_sp new_bp ra restored regs /\
    8 <= new_sp /\ read_stack (new_sp - 8) = Some ra /\ ra <> 0 /\ ~ (new_sp = r_sp regs /\ ra = r_ip regs).
Proof.
  unfold exec_impl.
  destruct (rule_frame read_stack rule first dwarf regs) as [[e|[[[new_sp new_bp] restored]|]]|]; try done.
  unfold checked_sub_u64. destruct (Z.leb_spec 8 new_sp); [|done].
  destruct (read_stack (new_sp - 8)) as [ra'|] eqn:Hra; [|done].
  destruct (Z.eqb_spec ra' 0); [done|].
  destruct ((new_sp =? r_sp regs) && (ra' =? r_ip regs)) eqn:Hadv; [done|].
  intros [= <- <-]. exists new_sp, new_bp, restored. repeat split; try done.
  intros [? ?]. apply andb_false_iff in Hadv. lia.
Qed.

Record advanced (regs regs' : UnwindRegs) (ra : Z) : Prop := {
  av_wf : regs_wf regs';
  av_ip : r_ip regs' = ra;
  av_nonzero : ra <> 0;
  av_read : read_stack (r_sp regs' - 8) = Some ra;
  av_progress : r_sp regs < r_sp regs' \/ (r_sp regs' = r_sp regs /\ ra <> r_ip regs);
  av_range : r_sp regs' <= u64_max;
}.

Lemma exec_advances rule first regs ra regs' :
  regs_wf regs -> rule_ok rule ->
  exec read_stack rule first regs = (ret (Some ra), regs') -> advanced regs regs' ra.
Proof.
  intros Hwf Hok Hx. apply exec_impl_step in Hx as (new_sp & new_bp & restored & Hf & -> & H8 & Hra & Hnz & Hadv).
  apply rule_frame_advances in Hf; [|done]. split.
  - by apply caller_regs_wf.
  - done.
  - done.
  - by rewrite caller_regs_sp.
  - rewrite caller_regs_sp by done. lia.
  - rewrite caller_regs_sp by done. lia.
Qed.

(** ** Unwinding a captured stack stops *)

(** A run of the unwinder: any rules, each step successful. *)
Inductive unwinds : UnwindRegs -> nat -> UnwindRegs -> Prop :=
  | unwinds_done regs : unwinds regs 0 regs
  | unwinds_step regs rule first ra regs1 n regs2 :
      rule_ok rule -> exec read_stack rule first regs = (ret (Some ra), regs1) ->
      unwinds regs1 n regs2 -> unwinds regs (S n) regs2.

(** Where the last return address was read: a second step at the same stack
    pointer would read it again and be refused. *)
Definition settled (regs : UnwindRegs) : Prop := read_stack (r_sp regs - 8) = Some (r_ip regs).

Lemma settled_step rule first regs ra regs' :
  regs_wf regs -> rule_ok rule -> settled regs ->
  exec read_stack rule first regs = (ret (Some ra), regs') -> r_sp regs < r_sp regs'.
Proof.
  intros Hwf Hok Hs Hx. destruct (exec_advances _ _ _ _ _ Hwf Hok Hx) as [_ _ _ Hr [?|[Heq Hne]] _]; [done|].
  rewrite Heq in Hr. unfold settled in Hs. congruence.
Qed.

Lemma advanced_settled regs regs' ra : advanced regs regs' ra -> settled regs'.
Proof. intros [_ Hip _ Hr _ _]. unfold settled. by rewrite Hip. Qed.

Lemma unwinds_bound (hi : Z) regs n regs' :
  (forall address, hi <= address -> read_stack address = None) ->
  unwinds regs n regs' -> regs_wf regs -> settled regs ->
  Z.of_nat n <= Z.max 0 (hi + 8 - r_sp regs).
Proof.
  intros Hhi. induction 1 as [regs|regs rule first ra regs1 n regs2 Hok Hx Hun IH]; intros Hwf Hs; [lia|].
  pose proof (exec_advances _ _ _ _ _ Hwf Hok Hx) as Ha.
  pose proof (settled_step _ _ _ _ _ Hwf Hok Hs Hx).
  specialize (IH (av_wf _ _ _ Ha) (advanced_settled _ _ _ Ha)).
  assert (r_sp regs1 - 8 < hi) as Hlt.
  { destruct (Z.le_gt_cases hi (r_sp regs1 - 8)) as [Hge|]; [|done].
    pose proof (av_read _ _ _ Ha) as Hr. rewrite Hhi in Hr; done. }
  lia.
Qed.

(** A rule that recovers a caller moves the stack pointer up, or stays and
    changes the instruction pointer (never down, never without progress), and
    the caller's instruction pointer is the non-zero word below its stack
    pointer; an end of stack or an error leaves the registers as they were. *)
Theorem exec_makes_progress (rule : UnwindRule) (first : bool) (regs : UnwindRegs) :
  regs_wf regs -> rule_ok rule ->
  let '(r, regs') := exec read_stack rule first regs in
  match r with
  | Some (inr (Some ra)) => advanced regs regs' ra
  | _ => regs' = regs
  end.
Proof.
  intros Hwf Hok. destruct (exec read_stack rule first regs) as [r regs'] eqn:Hx.
  assert (match r with Some (inr (Some _)) => True | _ => regs' = regs end) as Hkeep.
  { unfold exec, exec_impl in Hx. repeat case_match; simplify_eq/=; try done. }
  destruct r as [[e|[ra|]]|]; [done| |done|done]. by apply (exec_advances rule first).
Qed.

End progress.

(** ** Packed register rules *)

Definition register_rule_ok (rule : DwarfRegisterRule) : Prop :=
  match rule with Offset cfa_offset_by_8 => -128 <= cfa_offset_by_8 <= 127 | _ => True end.

(** The packed number as a base-1024 number. *)
Definition packed_value (rules : list DwarfRegisterRule) : Z :=
  foldr (λ rule acc, rule_bits rule + 1024 * acc) 0 rules.

Lemma lor_disjoint a b n : 0 <= n -> 0 <= a < 2 ^ n -> 0 <= b -> Z.lor a (Z.shiftl b n) = a + b * 2 ^ n.
Proof.
  intros Hn Ha Hb. rewrite <- Z.shiftl_mul_pow2 by done.
  assert (Z.land a (Z.shiftl b n) = 0) as Hland.
  { apply Z.bits_inj'. intros i Hi. rewrite Z.land_spec, Z.bits_0, Z.shiftl_spec by done.
    destruct (Z.lt_ge_cases i n) as [Hlt|Hge]; [rewrite (Z.testbit_neg_r b) by lia; apply andb_false_r|].
    destruct (Z.eq_dec a 0) as [->|Hz]; [by rewrite Z.bits_0|].
    rewrite Z.bits_above_log2; [done|lia|]. apply Z.lt_le_trans with n; [|done]. apply Z.log2_lt_pow2; lia. }
  pose proof (Z.add_lor_land a (Z.shiftl b n)). lia.
Qed.

Lemma rule_bits_value rule :
  register_rule_ok rule ->
  rule_bits rule = match rule with SameValue => 0 | Undefined => 256 | Offset o => 512 + o mod 256 end.
Proof.
  destruct rule as [| |o]; [done|done|]. intros _. unfold rule_bits. rewrite Z.lor_comm.
  pose proof (Z.mod_pos_bound o 256 eq_refl).
  change (Z.shiftl 2 8) with (Z.shiftl 2 8). rewrite lor_disjoint by lia. lia.
Qed.

Lemma rule_bits_bound rule : register_rule_ok rule -> 0 <= rule_bits rule < 1024.
Proof.
  intros Hok. rewrite rule_bits_value by done. destruct rule as [| |o]; [lia|lia|].
  pose proof (Z.mod_pos_bound o 256 eq_refl). lia.
Qed.

Lemma pack_loop rules : forall acc k,
  Forall register_rule_ok rules -> 0 <= k -> 0 <= acc < 2 ^ (10 * k) ->
  (fold_left (λ (st : Z * Z) rule,
     (Z.lor st.1 (Z.shiftl (rule_bits rule) (st.2 * PACKED_BITS)), st.2 + 1)) rules (acc, k)).1 =
  acc + 2 ^ (10 * k) * packed_value rules.
Proof.
  induction rules as [|rule rules IH]; intros acc k Hok Hk Hacc; cbn [fold_left packed_value foldr]; [cbn; lia|].
  apply list.Forall_cons in Hok as [Hr Hok]. pose proof (rule_bits_bound rule Hr). cbn [fst snd]. unfold PACKED_BITS.
  rewrite (Z.mul_comm k 10), lor_disjoint by lia.
  assert (2 ^ (10 * (k + 1)) = 1024 * 2 ^ (10 * k)) as Hpow.
  { rewrite Z.mul_add_distr_l, Z.pow_add_r by lia. lia. }
  rewrite IH; [|done|lia|nia]. rewrite Hpow. fold (packed_value rules). nia.
Qed.

Lemma pack_value rules : Forall register_rule_ok rules -> pack rules = packed_value rules.
Proof. intros Hok. unfold pack. rewrite (pack_loop rules 0 0); [cbn; lia|done|lia|cbn; lia]. Qed.

Lemma packed_value_nonneg rules : Forall register_rule_ok rules -> 0 <= packed_value rules.
Proof.
  induction 1 as [|rule rules Hr Hok IH]; [done|]. cbn [packed_value foldr]. fold (packed_value rules).
  pose proof (rule_bits_bound rule Hr). lia.
Qed.

Lemma packed_value_shift rules i rule :
  Forall register_rule_ok rules -> rules !! i = Some rule ->
  exists rest, 0 <= rest /\ Z.shiftr (packed_value rules) (Z.of_nat i * PACKED_BITS) = rule_bits rule + 1024 * rest.
Proof.
  intros Hok. revert i. induction Hok as [|r rules Hr Hok IH]; intros i Hi; [done|].
  pose proof (rule_bits_bound r Hr). destruct i as [|i]; cbn in Hi.
  - injection Hi as ->. exists (packed_value rules). split; [by apply packed_value_nonneg|]. by rewrite Z.shiftr_0_r.
  - destruct (IH i Hi) as (rest & Hrest & Heq). exists rest. split; [done|]. rewrite <- Heq.
    replace (Z.of_nat (S i) * PACKED_BITS) with (10 + Z.of_nat i * PACKED_BITS) by (unfold PACKED_BITS; lia).
    rewrite <- Z.shiftr_shiftr by (unfold PACKED_BITS; lia). f_equal. cbn [packed_value foldr].
    rewrite Z.shiftr_div_pow2 by lia. change (2 ^ 10) with 1024.
    rewrite Z.mul_comm, Z_div_plus_full, Z.div_small by lia. done.
Qed.

Lemma to_i8_mod o k : -128 <= o <= 127 -> to_i8 (512 + o mod 256 + 1024 * k) = o.
Proof.
  intros Ho. unfold to_i8.
  assert ((512 + o mod 256 + 1024 * k) mod 256 = o mod 256) as ->.
  { replace (512 + o mod 256 + 1024 * k) with (o mod 256 + (2 + 4 * k) * 256) by lia.
    by rewrite Z_mod_plus_full, Z.mod_mod. }
  destruct (Z.lt_ge_cases o 0).
  - assert (o mod 256 = o + 256) as -> by (rewrite <- (Z_mod_plus_full o 1 256), Z.mod_small; lia).
    destruct (Z.ltb_spec (o + 256) 128); lia.
  - rewrite Z.mod_small by lia. destruct (Z.ltb_spec o 128); lia.
Qed.

Lemma unpack_pack (rules : list DwarfRegisterRule) (i : nat) (rule : DwarfRegisterRule) :
  Forall register_rule_ok rules -> rules !! i = Some rule -> unpack (pack rules) i = rule.
Proof.
  intros Hok Hi. rewrite pack_value by done. unfold unpack.
  destruct (packed_value_shift rules i rule Hok Hi) as (rest & Hrest & ->).
  assert (register_rule_ok rule) as Hr by (by eapply Forall_lookup_1).
  rewrite (rule_bits_value rule Hr).
  rewrite Z.shiftr_div_pow2 by lia. change 3 with (Z.ones 2). rewrite Z.land_ones by lia.
  change (2 ^ 8) with 256. change (2 ^ 2) with 4.
  destruct rule as [| |o].
  - replace (0 + 1024 * rest) with (4 * rest * 256) by lia. rewrite Z.div_mul by lia.
    by rewrite Z.mul_comm, Z_mod_mult.
  - replace (256 + 1024 * rest) with ((1 + rest * 4) * 256) by lia. rewrite Z.div_mul by lia.
    by rewrite Z_mod_plus_full.
  - pose proof (Z.mod_pos_bound o 256 eq_refl).
    replace (512 + o mod 256 + 1024 * rest) with (o mod 256 + (2 + rest * 4) * 256) at 1 by lia.
    rewrite Z_div_plus_full, Z.div_small by lia. rewrite Z.add_0_l, Z_mod_plus_full.
    change (2 mod 4) with 2. cbv match. f_equal. by apply to_i8_mod.
Qed.

(** The five register rules of a DWARF row survive packing into a [u64]. *)
Theorem register_rules_unpack (rules : list DwarfRegisterRule) (i : nat) (rule : DwarfRegisterRule) :
  Forall register_rule_ok rules -> rules !! i = Some rule -> unpack (pack rules) i = rule.
Proof. apply unpack_pack. Qed.

Lemma register_rules_unpack_witness :
  unpack (pack [SameValue; Offset (-6); Undefined; Offset 127; Offset (-128)]) 4 = Offset (-128).
Proof.
  apply (register_rules_unpack [SameValue; Offset (-6); Undefined; Offset 127; Offset (-128)] 4).
  - do 5 (constructor; [cbn; first [exact I|lia]|]). constructor.
  - reflexivity.
Defined.

(** ** Registers recovered by a DWARF row *)

Section dwarf.
Context (read_stack : Z -> option Z).

Lemma restore_registers_other rules cfa registers reg : forall index regs,
  reg ∉ registers.*1 ->
  get_if_set reg (restore_registers read_stack rules cfa index registers regs) = get_if_set reg regs.
Proof.
  induction registers as [|[r v] registers IH]; intros index regs Hni; cbn [restore_registers]; [done|].
  cbn in Hni. apply not_elem_of_cons in Hni as [Hne Hni]. rewrite IH by done.
  destruct (dwarf_value read_stack (unpack rules index) cfa v); [|done]. rewrite get_if_set_set_ne; [done|congruence].
Qed.

Lemma restore_registers_get rules cfa registers : forall index regs k reg v,
  regs_wf regs -> NoDup registers.*1 -> registers !! k = Some (reg, v) ->
  get_if_set reg (restore_registers read_stack rules cfa index registers regs) =
  match dwarf_value read_stack (unpack rules (index + k)) cfa v with
  | Some value => Some value
  | None => get_if_set reg regs
  end.
Proof.
  induction registers as [|[r v0] registers IH]; intros index regs k reg v Hwf Hnd Hk; [done|].
  cbn in Hnd. apply list.NoDup_cons in Hnd as [Hni Hnd]. cbn [restore_registers]. destruct k as [|k]; cbn in Hk.
  - injection Hk as -> ->. rewrite restore_registers_other, Nat.add_0_r by done.
    destruct (dwarf_value read_stack (unpack rules index) cfa v); [by apply get_if_set_set|done].
  - rewrite (IH _ _ k reg v); [|by destruct (dwarf_value _ _ _ _); [apply reg_set_wf|]|done|done].
    replace (S index + k)%nat with (index + S k)%nat by lia.
    destruct (dwarf_value read_stack (unpack rules (index + S k)) cfa v); [done|].
    destruct (dwarf_value read_stack (unpack rules index) cfa v0); [|done]. apply get_if_set_set_ne.
    intros ->. apply Hni, list_elem_of_fmap. exists (reg, v). split; [done|]. by eapply list_elem_of_lookup_2.
Qed.

(** Rules that a DWARF row is translated to restore nothing else. *)
Definition no_pops (rule : UnwindRule) : Prop :=
  match rule with OffsetSpAndPopRegisters _ _ _ => False | _ => True end.

Lemma rule_frame_no_pops rule first dwarf regs new_sp new_bp restored :
  no_pops rule -> rule_frame read_stack rule first dwarf regs = ret (Some (new_sp, new_bp, restored)) -> restored = [].
Proof.
  intros Hn Hf. destruct rule; cbn [rule_frame no_pops] in *; outcome_inv; simplify_eq; done.
Qed.

Lemma caller_regs_cleared new_sp new_bp ra regs reg :
  reg <> RBP -> reg <> RSP -> get_if_set reg (caller_regs new_sp new_bp ra [] regs) = None.
Proof.
  intros Hb Hs. unfold caller_regs, set_bp, set_sp. rewrite !get_if_set_set_ne by congruence.
  change (get_if_set reg (set_ip ra (set_all [] (clear_non_frame_registers regs))))
    with (get_if_set reg (clear_non_frame_registers regs)).
  rewrite get_if_set_clear, bool_decide_eq_false_2; [done|]. by intros [?|?].
Qed.

Lemma restore_registers_sp rules cfa registers : forall index regs,
  RSP ∉ registers.*1 -> r_sp (restore_registers read_stack rules cfa index registers regs) = r_sp regs.
Proof.
  induction registers as [|[r v] registers IH]; intros index regs Hni; cbn [restore_registers]; [done|].
  cbn in Hni. apply not_elem_of_cons in Hni as [Hne Hni]. rewrite IH by done.
  destruct (dwarf_value read_stack (unpack rules index) cfa v); [|done].
  unfold r_sp. by rewrite get_set_ne.
Qed.

(** A cached DWARF row recovers every callee-saved register as its packed
    rule says: kept, unknown, or read at its offset from the caller's stack
    pointer; every other general-purpose register becomes unknown. *)
Theorem dwarf_row_recovers_registers (rule : UnwindRule) (rules : list DwarfRegisterRule) (first : bool)
    (regs : UnwindRegs) (ra : Z) (regs' : UnwindRegs) (reg : Reg) :
  regs_wf regs -> no_pops rule -> Forall register_rule_ok rules -> length rules = 5%nat ->
  exec_with_dwarf_register_rules read_stack rule (pack rules) first regs = (ret (Some ra), regs') ->
  reg <> RBP -> reg <> RSP ->
  get_if_set reg regs' =
    match list_find (λ r, r = reg) DWARF_CALLEE_SAVED_REGISTERS with
    | Some (i, _) => register_rule ← rules !! i; dwarf_value read_stack register_rule (r_sp regs') (get_if_set reg regs)
    | None => None
    end.
Proof.
  intros Hwf Hn Hok Hlen Hx Hb Hs. unfold exec_with_dwarf_register_rules in Hx.
  destruct (exec_impl read_stack rule first true regs) as [[[e|[ra'|]]|] regs1] eqn:Hi; try done.
  pose proof (f_equal fst Hx) as Hra. pose proof (f_equal snd Hx) as Hregs. cbn [fst snd] in Hra, Hregs. clear Hx.
  unfold ret in Hra. injection Hra as ->. subst regs'.
  apply exec_impl_step in Hi as (new_sp & new_bp & restored & Hf & -> & _).
  apply rule_frame_no_pops in Hf as ->; [|done].
  set (registers := (λ register, (register, get_if_set register regs)) <$> DWARF_CALLEE_SAVED_REGISTERS).
  assert (registers.*1 = DWARF_CALLEE_SAVED_REGISTERS) as Hfst by reflexivity.
  rewrite restore_registers_sp by (rewrite Hfst; intros Hin; by apply list_elem_of_In in Hin; cbn in Hin; intuition).
  destruct (list_find (λ r, r = reg) DWARF_CALLEE_SAVED_REGISTERS) as [[i r]|] eqn:Hfind.
  - apply list_find_Some in Hfind as (Hi & -> & _).
    destruct (lookup_lt_is_Some_2 rules i) as [rr Hrr].
    { apply lookup_lt_Some in Hi. cbn in Hi. lia. }
    assert (registers !! i = Some (reg, get_if_set reg regs)) as Hri by (unfold registers; by rewrite list_lookup_fmap, Hi).
    rewrite (restore_registers_get _ _ registers 0 _ i reg (get_if_set reg regs)); [|by apply caller_regs_wf| |done].
    + rewrite Nat.add_0_l, (unpack_pack rules i rr Hok Hrr), Hrr, caller_regs_cleared by done. cbn.
      by destruct (dwarf_value _ _ _ _).
    + rewrite Hfst. apply (bool_decide_unpack _). vm_compute. done.
  - rewrite restore_registers_other, caller_regs_cleared; [done|done|done|]. rewrite Hfst. intros Hin.
    apply list_find_None in Hfind. rewrite list.Forall_forall in Hfind. by apply (Hfind reg Hin).
Qed.

(** ** Sequences of operations *)

(** What the operations themselves do to the stack pointer and the registers. *)
Fixpoint run_offset_or_pop (ops : list OffsetOrPop) (sp : Z) : outcome (Z * list (Reg * Z)) :=
  match ops with
  | [] => ret (sp, [])
  | NoOp :: ops => run_offset_or_pop ops sp
  | OffsetBy8 offset :: ops => bind (add_u64 sp (offset * 8)) (run_offset_or_pop ops)
  | Pop reg :: ops =>
      bind (read read_stack sp) (λ value,
      bind (add_u64 sp 8) (λ sp,
      bind (run_offset_or_pop ops sp) (λ rest, ret (rest.1, (reg, value) :: rest.2))))
  end.

(** The operations, then [ret]. *)
Definition run_then_return (ops : list OffsetOrPop) (regs : UnwindRegs)
    : outcome (option (Z * Z * list (Reg * Z))) :=
  bind (run_offset_or_pop ops (r_sp regs)) (λ p,
  bind (add_u64 p.1 8) (λ new_sp, ret (Some (new_sp, default (r_bp regs) (popped RBP p.2), p.2)))).

Lemma pops_only_spec ops : forall regs out,
  pops_only ops regs = Some out -> exists more, out = regs ++ more /\ ops = Pop <$> more.
Proof.
  induction ops as [|op ops IH]; intros regs out; cbn.
  { intros [= <-]. exists []. by rewrite app_nil_r. }
  destruct op as [| |reg]; [done|done|]. destruct (length regs <=? 7)%nat; [|done].
  intros (more & -> & ->)%IH. exists (reg :: more). by rewrite <- app_assoc.
Qed.

Lemma run_pops regs : forall sp, run_offset_or_pop (Pop <$> regs) sp = pop_registers read_stack sp regs.
Proof.
  induction regs as [|reg regs IH]; intros sp; [done|]. cbn.
  destruct (read read_stack sp) as [[|v]|]; cbn; [done| |done].
  destruct (add_u64 sp 8) as [[|sp']|]; cbn; [done| |done]. by rewrite IH.
Qed.

(** The unwind rule built for a stack adjustment followed by pops does
    exactly what those instructions and the return after them do. *)
Theorem sequence_rule_runs_the_sequence (ops : list OffsetOrPop) (rule : UnwindRule) (first dwarf : bool)
    (regs : UnwindRegs) :
  is_u64 (r_sp regs) -> for_sequence_of_offset_or_pop ops = Some rule ->
  rule_frame read_stack rule first dwarf regs = run_then_return ops regs.
Proof.
  intros Hsp. unfold for_sequence_of_offset_or_pop.
  assert (add_u64 (r_sp regs) (0 * 8) = ret (r_sp regs)) as H0.
  { unfold add_u64, checked_add_u64. rewrite Z.add_0_r. destruct (Z.leb_spec (r_sp regs) u64_max); [done|].
    unfold is_u64 in Hsp. lia. }
  set (split := match ops with OffsetBy8 offset :: rest => (offset, rest) | _ => (0, ops) end).
  assert (run_then_return ops regs =
    bind (bind (add_u64 (r_sp regs) (split.1 * 8)) (run_offset_or_pop split.2)) (λ p,
    bind (add_u64 p.1 8) (λ new_sp, ret (Some (new_sp, default (r_bp regs) (popped RBP p.2), p.2))))) as ->.
  { unfold split, run_then_return. destruct ops as [|[| |]]; cbn [fst snd]; rewrite ?H0; done. }
  destruct split as [offset ops']. cbn [fst snd].
  destruct (pops_only ops' []) as [pops|] eqn:Hpops; [|done]. cbn [mbind option_bind].
  apply pops_only_spec in Hpops as (more & -> & ->). cbn [app].
  destruct ((length more =? 0)%nat && (offset =? 0)) eqn:Hz.
  - apply andb_true_iff in Hz as [Hl ->%Z.eqb_eq]. apply Nat.eqb_eq, nil_length_inv in Hl as ->.
    intros [= <-]. cbn [rule_frame fmap list_fmap run_offset_or_pop].
    by rewrite H0.
  - destruct (encode more) as [[count encoded]|] eqn:He; [|done]. cbn. intros [= <-].
    apply encode_decode in He as [Hdec _]. cbn [rule_frame].
    destruct (add_u64 (r_sp regs) (offset * 8)) as [[e|sp]|]; cbn [bind]; [done| |done].
    rewrite Hdec, run_pops. done.
Qed.
End dwarf.

(** ** A concrete stack *)

(** Two frames: a saved register and a return address, then a frame record. *)
Definition example_stack (address : Z) : option Z :=
  if (address mod 8 =? 0) && (4096 <=? address) && (address <? 4160)
  then [17; 4210688; 5; 6; 4136; 4210944; 7; 8] !! Z.to_nat ((address - 4096) / 8) else None.
Definition example_regs : UnwindRegs := regs_new 4198400 4096 4128.

Lemma exec_makes_progress_witness :
  exists regs', exec example_stack (OffsetSp 2) true example_regs = (ret (Some 4210688), regs') /\
    advanced example_stack example_regs regs' 4210688.
Proof.
  pose proof (exec_makes_progress example_stack (OffsetSp 2) true example_regs (regs_new_wf _ _ _)
                ltac:(cbn; word_lia)) as Hp.
  eexists. split; [vm_compute; reflexivity|]. vm_compute in Hp |- *. exact Hp.
Defined.


Definition example_rules : list DwarfRegisterRule := [Offset (-2); Undefined; SameValue; SameValue; SameValue].

Lemma dwarf_row_recovers_registers_witness :
  let '(r, regs') := exec_with_dwarf_register_rules example_stack (OffsetSp 2) (pack example_rules) true
                       (reg_set R13 9 example_regs) in
  r = ret (Some 4210688) /\ get_if_set RBX regs' = Some 17 /\ get_if_set R13 regs' = Some 9.
Proof.
  destruct (exec_with_dwarf_register_rules example_stack (OffsetSp 2) (pack example_rules) true
              (reg_set R13 9 example_regs)) as [r regs'] eqn:Hx.
  assert (r = ret (Some 4210688) /\ r_sp regs' = 4112) as [-> Hsp].
  { pose proof (f_equal fst Hx) as H1. pose proof (f_equal snd Hx) as H2. cbn [fst snd] in H1, H2.
    rewrite <- H1, <- H2. vm_compute. split; reflexivity. }
  split; [reflexivity|].
  pose proof (λ reg, dwarf_row_recovers_registers example_stack (OffsetSp 2) example_rules true
    (reg_set R13 9 example_regs) 4210688 regs' reg eq_refl I
    ltac:(do 5 (constructor; [cbn; first [exact I|lia]|]); constructor) eq_refl Hx) as Hreg.
  rewrite Hsp in Hreg. split; (rewrite Hreg by discriminate; vm_compute; reflexivity).
Defined.

Lemma sequence_rule_runs_the_sequence_witness :
  rule_frame example_stack (OffsetSpAndPopRegisters 0 1 0) true false example_regs =
  run_then_return example_stack [Pop RBX] example_regs.
Proof.
  apply (sequence_rule_runs_the_sequence example_stack [Pop RBX]).
  - vm_compute. split; discriminate.
  - vm_compute. reflexivity.
Defined.
