(* ===== verification/RuleCache.v ===== *)
(** * The unwind-rule cache

    [RuleCache] of [crates/framehop-stackpulse/src/rule_cache.rs]: a
    direct-mapped cache of 509 slots.  An entry stores its address and its
    module generation, but not whether it was computed for the first frame of a
    stack: that bit is only part of the slot number. *)

From stdpp Require Import prelude list numbers.
From S2P Require Import Prelude.
#[local] Open Scope Z_scope.

Definition CACHE_ENTRY_COUNT : Z := 509.

Section cache.
Context {R F : Type}.

Record CacheEntry := mkCacheEntry { ce_address : Z; ce_modules_generation : Z; ce_unwind_rule : R }.

Record CacheStats := mkStats {
  hit_count : Z;
  miss_empty_slot_count : Z;
  miss_wrong_modules_count : Z;
  miss_wrong_address_count : Z;
}.

Record RuleCache := mkCache {
  c_entries : list (option CacheEntry);
  c_fallbacks : list (option F);
  c_dwarf_register_rules : list (option Z);
  c_stats : CacheStats;
}.

Record CacheHandle := mkHandle { h_slot : nat; h_address : Z; h_modules_generation : Z }.

Inductive CacheResult :=
  | Miss (handle : CacheHandle)
  | Hit (rule : R) (fallback : option F) (dwarf_register_rules : option Z).

Definition cache_new : RuleCache :=
  let n := Z.to_nat CACHE_ENTRY_COUNT in
  mkCache (replicate n None) (replicate n None) (replicate n None) (mkStats 0 0 0 0).

Definition slot_of (address : Z) (is_first_frame : bool) : nat :=
  Z.to_nat (((address mod CACHE_ENTRY_COUNT) * 2 + (if is_first_frame then 1 else 0)) mod CACHE_ENTRY_COUNT).

Definition count_hit (s : CacheStats) : CacheStats :=
  mkStats (hit_count s + 1) (miss_empty_slot_count s) (miss_wrong_modules_count s) (miss_wrong_address_count s).
Definition count_empty (s : CacheStats) : CacheStats :=
  mkStats (hit_count s) (miss_empty_slot_count s + 1) (miss_wrong_modules_count s) (miss_wrong_address_count s).
Definition count_wrong_modules (s : CacheStats) : CacheStats :=
  mkStats (hit_count s) (miss_empty_slot_count s) (miss_wrong_modules_count s + 1) (miss_wrong_address_count s).
Definition count_wrong_address (s : CacheStats) : CacheStats :=
  mkStats (hit_count s) (miss_empty_slot_count s) (miss_wrong_modules_count s) (miss_wrong_address_count s + 1).
Definition with_stats (f : CacheStats -> CacheStats) (c : RuleCache) : RuleCache :=
  mkCache (c_entries c) (c_fallbacks c) (c_dwarf_register_rules c) (f (c_stats c)).

(** [lookup]; [None] is an index out of bounds. *)
Definition cache_lookup (address modules_generation : Z) (is_first_frame : bool) (c : RuleCache)
    : option (CacheResult * RuleCache) :=
  let slot := slot_of address is_first_frame in
  let miss := Miss (mkHandle slot address modules_generation) in
  entry ← c_entries c !! slot;
  match entry with
  | None => Some (miss, with_stats count_empty c)
  | Some entry =>
      if ce_modules_generation entry =? modules_generation then
        if ce_address entry =? address then
          fallback ← c_fallbacks c !! slot;
          rules ← c_dwarf_register_rules c !! slot;
          Some (Hit (ce_unwind_rule entry) fallback rules, with_stats count_hit c)
        else Some (miss, with_stats count_wrong_address c)
      else Some (miss, with_stats count_wrong_modules c)
  end.

Definition cache_insert (handle : CacheHandle) (unwind_rule : R) (fallback : option F)
    (dwarf_register_rules : option Z) (c : RuleCache) : RuleCache :=
  let slot := h_slot handle in
  mkCache
    (<[slot := Some (mkCacheEntry (h_address handle) (h_modules_generation handle) unwind_rule)]> (c_entries c))
    (<[slot := fallback]> (c_fallbacks c))
    (<[slot := dwarf_register_rules]> (c_dwarf_register_rules c))
    (c_stats c).

Definition stats_hits (s : CacheStats) : Z := hit_count s.
Definition stats_misses (s : CacheStats) : Z :=
  miss_empty_slot_count s + miss_wrong_modules_count s + miss_wrong_address_count s.
Definition stats_total (s : CacheStats) : Z := stats_hits s + stats_misses s.

(** ** Slots *)

Record cache_wf (c : RuleCache) : Prop := {
  cw_entries : length (c_entries c) = Z.to_nat CACHE_ENTRY_COUNT;
  cw_fallbacks : length (c_fallbacks c) = Z.to_nat CACHE_ENTRY_COUNT;
  cw_rules : length (c_dwarf_register_rules c) = Z.to_nat CACHE_ENTRY_COUNT;
}.

Lemma slot_of_lt address first : (slot_of address first < Z.to_nat CACHE_ENTRY_COUNT)%nat.
Proof.
  unfold slot_of, CACHE_ENTRY_COUNT.
  pose proof (Z.mod_pos_bound ((address mod 509) * 2 + (if first then 1 else 0)) 509 eq_refl). lia.
Qed.

(** The two slots of an address differ, because 509 does not divide 1. *)
Lemma slot_of_first address : slot_of address true <> slot_of address false.
Proof.
  unfold slot_of, CACHE_ENTRY_COUNT. set (a := (address mod 509) * 2). rewrite Z.add_0_r.
  pose proof (Z.mod_pos_bound (a + 1) 509 eq_refl). pose proof (Z.mod_pos_bound a 509 eq_refl).
  intros Heq%Z2Nat.inj; [|lia|lia].
  pose proof (Z_div_mod_eq_full (a + 1) 509). pose proof (Z_div_mod_eq_full a 509). lia.
Qed.

Lemma slot_of_same address first first' : slot_of address first = slot_of address first' -> first = first'.
Proof. pose proof (slot_of_first address). by destruct first, first'. Qed.

(** ** Histories *)

(** A lookup key and what is stored for it. *)
Definition cache_key : Type := Z * Z * bool.
Definition cache_value : Type := R * option F * option Z.

(** The handle of a missed lookup. *)
Definition handle_of (k : cache_key) : CacheHandle := mkHandle (slot_of k.1.1 k.2) k.1.1 k.1.2.

Inductive cache_op :=
  | Look (k : cache_key)
  | Put (k : cache_key) (v : cache_value).

Definition cache_step (c : RuleCache) (op : cache_op) : RuleCache :=
  match op with
  | Look k => match cache_lookup k.1.1 k.1.2 k.2 c with Some (_, c) => c | None => c end
  | Put k v => cache_insert (handle_of k) v.1.1 v.1.2 v.2 c
  end.

(** The value last inserted for a key. *)
Fixpoint last_put (ops : list cache_op) (k : cache_key) : option cache_value :=
  match ops with
  | [] => None
  | Put k' v :: ops => if decide (k = k') then Some v else last_put ops k
  | Look _ :: ops => last_put ops k
  end.

(** Every filled slot holds the last value inserted for its own key. *)
Definition cache_faithful (ops : list cache_op) (c : RuleCache) : Prop :=
  forall address generation first entry,
    c_entries c !! slot_of address first = Some (Some entry) ->
    ce_address entry = address -> ce_modules_generation entry = generation ->
    exists fallback rules, c_fallbacks c !! slot_of address first = Some fallback /\
      c_dwarf_register_rules c !! slot_of address first = Some rules /\
      last_put ops (address, generation, first) = Some (ce_unwind_rule entry, fallback, rules).

Lemma cache_new_wf : cache_wf cache_new.
Proof. split; cbn [cache_new c_entries c_fallbacks c_dwarf_register_rules]; apply length_replicate. Qed.

Lemma cache_new_faithful : cache_faithful [] cache_new.
Proof.
  intros address generation first entry He. unfold cache_new in He. cbn [c_entries] in He.
  apply lookup_replicate in He as [? _]. done.
Qed.

Lemma cache_lookup_ok k c :
  cache_wf c -> exists r c', cache_lookup k.1.1 k.1.2 k.2 c = Some (r, c') /\
    c_entries c' = c_entries c /\ c_fallbacks c' = c_fallbacks c /\
    c_dwarf_register_rules c' = c_dwarf_register_rules c /\
    stats_total (c_stats c') = stats_total (c_stats c) + 1 /\
    match r with
    | Miss h => h = handle_of k
    | Hit rule fallback rules => exists entry, c_entries c !! slot_of k.1.1 k.2 = Some (Some entry) /\
        ce_address entry = k.1.1 /\ ce_modules_generation entry = k.1.2 /\ rule = ce_unwind_rule entry /\
        c_fallbacks c !! slot_of k.1.1 k.2 = Some fallback /\
        c_dwarf_register_rules c !! slot_of k.1.1 k.2 = Some rules
    end.
Proof.
  intros [H1 H2 H3]. unfold cache_lookup. pose proof (slot_of_lt k.1.1 k.2) as Hlt.
  destruct (lookup_lt_is_Some_2 (c_entries c) (slot_of k.1.1 k.2)) as [e He]; [by rewrite H1|].
  destruct (lookup_lt_is_Some_2 (c_fallbacks c) (slot_of k.1.1 k.2)) as [f Hf]; [by rewrite H2|].
  destruct (lookup_lt_is_Some_2 (c_dwarf_register_rules c) (slot_of k.1.1 k.2)) as [d Hd]; [by rewrite H3|].
  rewrite He, Hf, Hd. cbn [mbind option_bind].
  destruct e as [entry|]; [destruct (Z.eqb_spec (ce_modules_generation entry) k.1.2);
    [destruct (Z.eqb_spec (ce_address entry) k.1.1)|]|]; eexists _, _; (split; [reflexivity|]);
    repeat split; try (unfold stats_total, stats_hits, stats_misses; cbn; lia).
  exists entry. done.
Qed.

Lemma cache_step_ok ops op c :
  cache_wf c -> cache_faithful ops c -> cache_wf (cache_step c op) /\ cache_faithful (op :: ops) (cache_step c op).
Proof.
  intros Hwf Hf. destruct op as [k|k v]; cbn [cache_step].
  { destruct (cache_lookup_ok k c Hwf) as (r & c' & -> & H1 & H2 & H3 & _).
    split; [destruct Hwf; split; congruence|]. intros address generation first entry. rewrite H1, H2, H3. apply Hf. }
  pose proof Hwf as [H1 H2 H3]. pose proof (slot_of_lt k.1.1 k.2) as Hlt.
  split; [split; cbn; by rewrite length_insert|].
  intros address generation first entry. cbn [cache_insert c_entries c_fallbacks c_dwarf_register_rules handle_of h_slot last_put].
  destruct (decide (slot_of k.1.1 k.2 = slot_of address first)) as [Heq|Hne].
  - rewrite Heq in *. rewrite !list_lookup_insert_eq by (by rewrite ?H1, ?H2, ?H3). intros [= <-]. cbn. intros <- <-.
    apply slot_of_same in Heq. exists v.1.2, v.2. split; [done|]. split; [done|].
    destruct k as [[a g] b], v as [[x y] z]. cbn in *. subst first. by rewrite decide_True.
  - rewrite !list_lookup_insert_ne by done. intros He Ha Hg.
    rewrite decide_False; [by apply Hf|]. intros <-. cbn in Hne. done.
Qed.

Lemma cache_run_ok ops : cache_wf (foldl cache_step cache_new ops) /\
  cache_faithful (reverse ops) (foldl cache_step cache_new ops).
Proof.
  induction ops as [|op ops IH] using rev_ind; [split; [apply cache_new_wf|apply cache_new_faithful]|].
  rewrite foldl_app, reverse_app. cbn. destruct IH as [Hwf Hf]. by apply cache_step_ok.
Qed.
End cache.

Arguments RuleCache : clear implicits.
Arguments cache_op : clear implicits.

(** However lookups and insertions are interleaved, a hit returns the rule,
    the fallback reason and the register rules last inserted for the same
    address, the same module generation and the same kind of frame; lookups
    never index out of bounds, and the statistics count every lookup once. *)
Theorem rule_cache_hits_are_last_inserts {R F} (ops : list (cache_op R F)) (address generation : Z) (first : bool) :
  let c := foldl cache_step cache_new ops in
  exists r c', cache_lookup address generation first c = Some (r, c') /\
    stats_total (c_stats c') = stats_total (c_stats c) + 1 /\
    match r with
    | Hit rule fallback rules => last_put (reverse ops) (address, generation, first) = Some (rule, fallback, rules)
    | Miss h => h = handle_of (address, generation, first)
    end.
Proof.
  cbn zeta. destruct (cache_run_ok ops) as [Hwf Hf].
  destruct (cache_lookup_ok (address, generation, first) _ Hwf) as (r & c' & Hl & _ & _ & _ & Hs & Hr).
  exists r, c'. split; [exact Hl|]. split; [exact Hs|]. destruct r as [h|rule fallback rules]; [exact Hr|].
  cbn [fst snd] in Hr. destruct Hr as (entry & He & Ha & Hg & -> & Hfb & Hrules).
  destruct (Hf address generation first entry He Ha Hg) as (f & d & Hf1 & Hd1 & ->). congruence.
Qed.
