(* ===== verification/Aarch64.v ===== *)
(** * aarch64 registers and unwind rules

    [UnwindRegsAarch64], [PtrAuthMask] and [UnwindRuleAarch64] of
    [crates/framehop-stackpulse/src/aarch64]: return addresses live in the link
    register and may carry an authentication code in their high bits. *)

From stdpp Require Import prelude list numbers.
From S2P Require Import Prelude X86Rules.
#[local] Open Scope Z_scope.

#[local] Notation "'let?' x := m 'in' k" := (bind m (λ x, k)) (at level 10, x name, m at level 100, k at level 200).

(** ** Registers *)

(** [PtrAuthMask]. *)
Definition new_no_strip : Z := u64_max.
Definition new_24_40 : Z := Z.shiftr u64_max 24.
Definition leading_zeros_u64 (n : Z) : Z := if n =? 0 then 64 else 63 - Z.log2 n.

(** [u64::MAX >> address.leading_zeros()]; [None] is a shift by the whole width. *)
Definition from_max_known_address (address : Z) : option Z :=
  let shift := leading_zeros_u64 address in
  if shift <? 64 then Some (Z.shiftr u64_max shift) else None.
Definition strip_ptr_auth (mask ptr : Z) : Z := Z.land ptr mask.

Record ARegs := mkARegs {
  a_lr_mask : Z;
  a_lr : Z;
  a_sp : Z;
  a_fp : Z;
  a_sp_is_fp_derived : bool;
}.

Definition aregs_new (lr sp fp : Z) : ARegs := mkARegs new_no_strip lr sp fp false.
Definition aregs_new_with_ptr_auth_mask (mask lr sp fp : Z) : ARegs := mkARegs mask (strip_ptr_auth mask lr) sp fp false.
Definition a_set_sp (sp : Z) (r : ARegs) : ARegs := mkARegs (a_lr_mask r) (a_lr r) sp (a_fp r) (a_sp_is_fp_derived r).
Definition a_set_fp (fp : Z) (r : ARegs) : ARegs := mkARegs (a_lr_mask r) (a_lr r) (a_sp r) fp (a_sp_is_fp_derived r).
Definition a_set_lr (lr : Z) (r : ARegs) : ARegs :=
  mkARegs (a_lr_mask r) (strip_ptr_auth (a_lr_mask r) lr) (a_sp r) (a_fp r) (a_sp_is_fp_derived r).
Definition set_sp_is_fp_derived (b : bool) (r : ARegs) : ARegs := mkARegs (a_lr_mask r) (a_lr r) (a_sp r) (a_fp r) b.

(** ** Rules *)

Inductive UnwindRuleAarch64 :=
  | ANoOp
  | ANoOpIfFirstFrameOtherwiseFp
  | AOffsetSp (sp_offset_by_16 : Z)
  | AOffsetSpIfFirstFrameOtherwiseStackEndsHere (sp_offset_by_16 : Z)
  | AOffsetSpAndRestoreLr (sp_offset_by_16 lr_storage_offset_from_sp_by_8 : Z)
  | AOffsetSpAndRestoreFpAndLr (sp_offset_by_16 fp_storage_offset_from_sp_by_8 lr_storage_offset_from_sp_by_8 : Z)
  | AUseFramePointer
  | AUseFramepointerWithOffsets (sp_offset_from_fp_by_8 fp_storage_offset_from_fp_by_8 lr_storage_offset_from_fp_by_8 : Z).

Definition a_rule_for_stub_functions : UnwindRuleAarch64 := ANoOp.
Definition a_rule_for_function_start : UnwindRuleAarch64 := ANoOp.
Definition a_fallback_rule : UnwindRuleAarch64 := AUseFramePointer.

(** The caller's lr, sp and fp, and what becomes of the [sp_is_fp_derived] flag. *)
Record a_frame := mkAFrame { af_lr : Z; af_sp : Z; af_fp : Z; af_flag : option bool }.

Section exec.
Context (read_stack : Z -> option Z).

Definition add_signed (a d : Z) : outcome Z := ok_or_throw IntegerOverflow (checked_add_signed_u64 a d).

(** The stack pointer the offsets of a saved frame record count from: a pointer
    estimated by frame-pointer unwinding is corrected with the saved x29. *)
Definition anchored_sp (regs : ARegs) (fp_storage_offset : Z) : Z :=
  let sp := a_sp regs in
  let fp := a_fp regs in
  if a_sp_is_fp_derived regs && negb (fp =? 0)
     && negb (bool_decide (checked_add_signed_u64 sp fp_storage_offset = Some fp))
  then default sp (checked_add_signed_u64 fp (- fp_storage_offset))
  else sp.

(** The match over the rules; [ret None] ends the stack. *)
Definition a_rule_frame (rule : UnwindRuleAarch64) (is_first_frame : bool) (regs : ARegs) : outcome (option a_frame) :=
  let lr := a_lr regs in
  let sp := a_sp regs in
  let fp := a_fp regs in
  match rule with
  | ANoOp => if is_first_frame then ret (Some (mkAFrame lr sp fp None)) else throw DidNotAdvance
  | ANoOpIfFirstFrameOtherwiseFp =>
      if is_first_frame then ret (Some (mkAFrame lr sp fp None))
      else if fp =? 0 then ret None
      else
        let? new_sp := add_u64 fp 16 in
        let? new_lr := read read_stack (fp + 8) in
        let? new_fp := read read_stack fp in
        if new_sp <=? sp then throw FramepointerUnwindingMovedBackwards
        else ret (Some (mkAFrame new_lr new_sp new_fp (Some true)))
  | AOffsetSpIfFirstFrameOtherwiseStackEndsHere sp_offset_by_16 =>
      if is_first_frame then
        let? new_sp := add_u64 sp (sp_offset_by_16 * 16) in
        ret (Some (mkAFrame lr new_sp fp None))
      else ret None
  | AOffsetSp sp_offset_by_16 =>
      if is_first_frame then
        let? new_sp := add_u64 sp (sp_offset_by_16 * 16) in
        ret (Some (mkAFrame lr new_sp fp None))
      else throw DidNotAdvance
  | AOffsetSpAndRestoreLr sp_offset_by_16 lr_storage_offset_from_sp_by_8 =>
      let? new_sp := add_u64 sp (sp_offset_by_16 * 16) in
      let? lr_location := add_signed sp (lr_storage_offset_from_sp_by_8 * 8) in
      let? new_lr := read read_stack lr_location in
      ret (Some (mkAFrame new_lr new_sp fp None))
  | AOffsetSpAndRestoreFpAndLr sp_offset_by_16 fp_storage_offset_from_sp_by_8 lr_storage_offset_from_sp_by_8 =>
      let fp_storage_offset := fp_storage_offset_from_sp_by_8 * 8 in
      let sp := anchored_sp regs fp_storage_offset in
      let? new_sp := add_u64 sp (sp_offset_by_16 * 16) in
      let? lr_location := add_signed sp (lr_storage_offset_from_sp_by_8 * 8) in
      let? new_lr := read read_stack lr_location in
      let? fp_location := add_signed sp fp_storage_offset in
      let? new_fp := read read_stack fp_location in
      ret (Some (mkAFrame new_lr new_sp new_fp (Some false)))
  | AUseFramePointer =>
      if fp =? 0 then ret None
      else
        let? new_sp := add_u64 fp 16 in
        let? new_lr := read read_stack (fp + 8) in
        let? new_fp := read read_stack fp in
        if new_fp =? 0 then ret None
        else if (new_fp <=? fp) || (new_sp <=? sp) then throw FramepointerUnwindingMovedBackwards
        else ret (Some (mkAFrame new_lr new_sp new_fp (Some true)))
  | AUseFramepointerWithOffsets sp_offset_from_fp_by_8 fp_storage_offset_from_fp_by_8 lr_storage_offset_from_fp_by_8 =>
      let? new_sp := add_u64 fp (sp_offset_from_fp_by_8 * 8) in
      let? lr_location := add_signed fp (lr_storage_offset_from_fp_by_8 * 8) in
      let? new_lr := read read_stack lr_location in
      let? fp_location := add_signed fp (fp_storage_offset_from_fp_by_8 * 8) in
      let? new_fp := read read_stack fp_location in
      if new_sp <=? sp then throw FramepointerUnwindingMovedBackwards
      else ret (Some (mkAFrame new_lr new_sp new_fp (Some false)))
  end.

(** [UnwindRuleAarch64::exec]: the flag is set before the last two checks. *)
Definition a_exec (rule : UnwindRuleAarch64) (is_first_frame : bool) (regs : ARegs) : outcome (option Z) * ARegs :=
  match a_rule_frame rule is_first_frame regs with
  | None => (None, regs)
  | Some (inl e) => (throw e, regs)
  | Some (inr None) => (ret None, regs)
  | Some (inr (Some frame)) =>
      let sp := a_sp regs in
      let regs := match af_flag frame with Some flag => set_sp_is_fp_derived flag regs | None => regs end in
      let return_address := strip_ptr_auth (a_lr_mask regs) (af_lr frame) in
      if return_address =? 0 then (ret None, regs)
      else if negb is_first_frame && (af_sp frame =? sp) then (throw DidNotAdvance, regs)
      else (ret (Some return_address), a_set_fp (af_fp frame) (a_set_sp (af_sp frame) (a_set_lr (af_lr frame) regs)))
  end.
End exec.

(** ** What a step does *)

(** Machine words in every register, and a link register without
    authentication bits. *)
Record aregs_ok (r : ARegs) : Prop := {
  ao_mask : is_u64 (a_lr_mask r);
  ao_lr : is_u64 (a_lr r);
  ao_sp : is_u64 (a_sp r);
  ao_fp : is_u64 (a_fp r);
  ao_stripped : strip_ptr_auth (a_lr_mask r) (a_lr r) = a_lr r;
}.

(** Offsets of a rule have the width of their fields. *)
Definition a_rule_typed (rule : UnwindRuleAarch64) : Prop :=
  let i16 n := -32768 <= n <= 32767 in
  match rule with
  | AOffsetSp x | AOffsetSpIfFirstFrameOtherwiseStackEndsHere x => is_u16 x
  | AOffsetSpAndRestoreLr x y => is_u16 x /\ i16 y
  | AOffsetSpAndRestoreFpAndLr x y z | AUseFramepointerWithOffsets x y z => is_u16 x /\ i16 y /\ i16 z
  | _ => True
  end.

(** A stack of words. *)
Definition word_stack (read_stack : Z -> option Z) : Prop := forall a v, read_stack a = Some v -> is_u64 v.

Lemma strip_idemp mask ptr : strip_ptr_auth mask (strip_ptr_auth mask ptr) = strip_ptr_auth mask ptr.
Proof. unfold strip_ptr_auth. by rewrite <- Z.land_assoc, Z.land_diag. Qed.

Lemma strip_u64 mask ptr : is_u64 ptr -> 0 <= mask -> is_u64 (strip_ptr_auth mask ptr).
Proof.
  intros Hp Hm. unfold strip_ptr_auth. assert (0 <= Z.land ptr mask) as Hn by (apply Z.land_nonneg; left; apply Hp).
  split; [done|]. enough (Z.land ptr mask < 2 ^ 64) by word_lia.
  apply Z.bounded_iff_bits_nonneg; [done|done|]. intros l Hl. rewrite Z.land_spec.
  rewrite (proj1 (Z.bounded_iff_bits_nonneg 64 ptr ltac:(done) ltac:(apply Hp))); [done|word_lia|done].
Qed.

#[local] Ltac a_inv := repeat match goal with
  | H : bind ?m _ = Some (inr _) |- _ =>
      let a := fresh "v" in let E := fresh "E" in
      destruct m as [[?|a]|] eqn:E; [discriminate H| |discriminate H]; cbn [bind] in H
  | H : (if ?b then _ else _) = Some (inr _) |- _ => let E := fresh "C" in destruct b eqn:E; [first [discriminate H|idtac]|first [discriminate H|idtac]]
  | H : throw _ = Some (inr _) |- _ => discriminate H
  | H : ret _ = Some (inr _) |- _ => unfold ret in H; simplify_eq
  end.

Lemma read_Some read_stack a v : read read_stack a = Some (inr v) -> read_stack a = Some v.
Proof. unfold read, ok_or_throw, ret, throw. destruct (read_stack a); intros; by simplify_eq. Qed.
Lemma add_u64_Some a b c : add_u64 a b = Some (inr c) -> c = a + b /\ a + b <= u64_max.
Proof.
  unfold add_u64, ok_or_throw, checked_add_u64, ret, throw. destruct (Z.leb_spec (a + b) u64_max); intros; by simplify_eq.
Qed.

(** Every rule finds words. *)
Lemma a_rule_frame_words read_stack rule first regs frame :
  word_stack read_stack -> aregs_ok regs -> a_rule_typed rule ->
  a_rule_frame read_stack rule first regs = Some (inr (Some frame)) ->
  is_u64 (af_lr frame) /\ is_u64 (af_sp frame) /\ is_u64 (af_fp frame).
Proof.
  intros Hs [Hm Hl Hsp Hfp _] Ht Hf.
  assert (forall o, is_u64 (anchored_sp regs o)) as Hanchor.
  { intros o. unfold anchored_sp. case_match; [|done]. unfold checked_add_signed_u64. case_match eqn:Hb; [|done].
    apply andb_true_iff in Hb as [?%Z.leb_le ?%Z.leb_le]. cbn. word_lia. }
  destruct rule; cbn [a_rule_frame a_rule_typed] in *; a_inv; try done; cbn [af_lr af_sp af_fp];
    repeat match goal with
    | H : read _ _ = Some (inr _) |- _ => apply read_Some, Hs in H
    | H : add_u64 _ _ = Some (inr _) |- _ => apply add_u64_Some in H as [-> ?]
    end; split_and!; try done; try word_lia.
  pose proof (Hanchor (fp_storage_offset_from_sp_by_8 * 8)). word_lia.
Qed.

Lemma a_rule_frame_total read_stack rule first regs : is_Some (a_rule_frame read_stack rule first regs).
Proof.
  assert (forall A B (m : outcome A) (k : A -> outcome B), is_Some m -> (forall a, is_Some (k a)) -> is_Some (bind m k)) as Hbind.
  { intros A B m k [[e|a] ->] Hk; [by eexists|apply Hk]. }
  assert (forall A e (o : option A), is_Some (ok_or_throw e o)) as Hok by (intros A e []; by eexists).
  destruct rule; cbn [a_rule_frame]; repeat case_match; repeat first [by eexists|apply Hok|apply Hbind|intros ?|case_match].
Qed.

(** C38: executing any aarch64 rule keeps every register a 64-bit word and the
    link register free of authentication bits; a recovered return address is
    the new link register and not zero, and after the first frame the stack
    pointer has changed; the end of the stack and errors leave lr, sp and fp as
    they were. *)
Theorem aarch64_step_keeps_words (read_stack : Z -> option Z) (rule : UnwindRuleAarch64) (first : bool) (regs : ARegs) :
  word_stack read_stack -> aregs_ok regs -> a_rule_typed rule ->
  let regs' := (a_exec read_stack rule first regs).2 in
  aregs_ok regs' /\ a_lr_mask regs' = a_lr_mask regs /\
  match (a_exec read_stack rule first regs).1 with
  | Some (inr (Some ra)) => ra = a_lr regs' /\ ra <> 0 /\ (first = false -> a_sp regs' <> a_sp regs)
  | Some _ => a_lr regs' = a_lr regs /\ a_sp regs' = a_sp regs /\ a_fp regs' = a_fp regs
  | None => False
  end.
Proof.
  intros Hs Hok Ht. cbn zeta. unfold a_exec.
  destruct (a_rule_frame_total read_stack rule first regs) as [r Hr]. rewrite Hr. destruct r as [e|[frame|]]; [done| |done].
  destruct (a_rule_frame_words read_stack rule first regs frame Hs Hok Ht Hr) as (Hl & Hsp & Hfp). clear Hr.
  set (flagged := match af_flag frame with Some flag => set_sp_is_fp_derived flag regs | None => regs end).
  assert (aregs_ok flagged /\ a_lr_mask flagged = a_lr_mask regs /\ a_lr flagged = a_lr regs /\
    a_sp flagged = a_sp regs /\ a_fp flagged = a_fp regs) as (Hok' & Hm & Hlr & Hsp' & Hfp').
  { unfold flagged. destruct (af_flag frame); [|done]. destruct Hok. split; [by split|done]. }
  destruct (Z.eqb_spec (strip_ptr_auth (a_lr_mask flagged) (af_lr frame)) 0) as [|Hne]; [done|].
  destruct (negb first && (af_sp frame =? a_sp regs)) eqn:Hadv; [done|]. cbn [fst snd ret].
  split_and!; [|done|done|done|].
  - destruct Hok'. split; cbn; try done; [apply strip_u64; word_lia|apply strip_idemp].
  - cbn. intros ->. by apply Z.eqb_neq in Hadv.
Qed.

Definition example_aregs : ARegs := aregs_new_with_ptr_auth_mask 1099511627775 4198400 1048576 1048640.
Definition example_astack (a : Z) : option Z :=
  if a =? 1048640 then Some 1048800 else if a =? 1048648 then Some 216172782117980416 else None.

(** A frame record whose return address is signed. *)
Lemma aarch64_step_keeps_words_witness :
  (a_exec example_astack AUseFramePointer false example_aregs).1 = ret (Some 4196608) /\
  aregs_ok (a_exec example_astack AUseFramePointer false example_aregs).2.
Proof.
  split; [by vm_compute|].
  assert (word_stack example_astack) as Hs.
  { intros a v. unfold example_astack. repeat case_match; intros [= <-]; word_unfold; lia. }
  assert (aregs_ok example_aregs) as Hok by (by split; [vm_compute; split; discriminate..|vm_compute]).
  pose proof (aarch64_step_keeps_words example_astack AUseFramePointer false example_aregs Hs Hok I) as Hw.
  exact (proj1 Hw).
Defined.
