(* ===== verification/X86Analysis.v ===== *)
(** * x86_64 instruction analysis

    Unwind rules guessed from the machine code around an address
    ([x86_64/instruction_analysis]): the walk over the pops of an epilogue and
    the backwards walk over the pushes of a prologue. *)

From stdpp Require Import prelude list numbers.
From S2P Require Import Prelude X86Regs X86Rules X86Unwind.
#[local] Open Scope Z_scope.

(** ** The analyses *)

(** [x += 1] and [x as i16] on a [u16], as release builds compute them. *)
Definition succ_u16 (n : Z) : Z := (n + 1) mod 65536.
Definition as_i16 (n : Z) : Z := if n <? 32768 then n else n - 65536.

Definition is_jump (b : Z) : bool := (b =? 0xeb) || (b =? 0xe9) || (b =? 0xff).
Definition is_pop (b : Z) : bool := Z.land b 0xf8 =? 0x58.
Definition is_push (b : Z) : bool := Z.land b 0xf8 =? 0x50.
Definition is_rex (b : Z) : bool := Z.land b 0xfe =? 0x40.

(** The rule once the return or the tail call is found. *)
Definition epilogue_rule (sp_offset_by_8 : Z) (bp_offset_by_8 : option Z) : UnwindRule :=
  if sp_offset_by_8 =? 0 then JustReturn
  else
    let sp_offset_by_8 := succ_u16 sp_offset_by_8 in
    match bp_offset_by_8 with
    | Some bp => OffsetSpAndRestoreBp sp_offset_by_8 bp
    | None => OffsetSp sp_offset_by_8
    end.

Fixpoint epilogue_loop (before : list Z) (sp_offset_by_8 : Z) (bp_offset_by_8 : option Z) (bytes : list Z)
    : option UnwindRule :=
  match bytes with
  | [] => None
  | b0 :: rest =>
      if b0 =? 0xc3 then Some (epilogue_rule sp_offset_by_8 bp_offset_by_8)
      else if is_jump b0 then
        if negb (sp_offset_by_8 =? 0) then Some (epilogue_rule sp_offset_by_8 bp_offset_by_8)
        else match list.last before with
             | Some potential_pop_byte =>
                 if is_pop potential_pop_byte then Some (epilogue_rule sp_offset_by_8 bp_offset_by_8) else None
             | None => None
             end
      else if b0 =? 0x5d then
        epilogue_loop before (succ_u16 sp_offset_by_8) (Some (as_i16 sp_offset_by_8)) rest
      else if (0x58 <=? b0) && (b0 <=? 0x5f) then
        epilogue_loop before (succ_u16 sp_offset_by_8) bp_offset_by_8 rest
      else match rest with
           | b1 :: rest =>
               if is_rex b0 && is_pop b1
               then epilogue_loop before (succ_u16 sp_offset_by_8) bp_offset_by_8 rest else None
           | [] => None
           end
  end.

(** [None] outside is the panic of [split_at]. *)
Definition unwind_rule_from_detected_epilogue (text_bytes : list Z) (pc_offset : nat)
    : option (option UnwindRule) :=
  if (pc_offset <=? length text_bytes)%nat
  then Some (epilogue_loop (take pc_offset text_bytes) 0 None (drop pc_offset text_bytes))
  else None.

Definition is_next_instruction_expected_in_prologue (bytes : list Z) : bool :=
  match bytes with
  | b0 :: b1 :: b2 :: _ :: _ =>
      is_push b0 || (is_rex b0 && is_push b1) ||
      bool_decide ([b0; b1] = [0x83; 0xec]) || bool_decide ([b0; b1; b2] = [0x48; 0x83; 0xec]) ||
      bool_decide ([b0; b1] = [0x81; 0xec]) || bool_decide ([b0; b1; b2] = [0x48; 0x81; 0xec]) ||
      bool_decide ([b0; b1; b2] = [0x48; 0x89; 0xe5])
  | _ => false
  end.

(** The backwards walk, on the reversed bytes before the address. *)
Fixpoint prologue_loop (sp_offset_by_8 : Z) (before : list Z) : UnwindRule :=
  if bool_decide (take 4 before = [0xe5; 0x89; 0x48; 0x55]) then UseFramePointer
  else match before with
       | byte :: rest =>
           if is_push byte then
             match rest with
             | prefix :: rest' =>
                 if is_rex prefix then prologue_loop (succ_u16 sp_offset_by_8) rest'
                 else prologue_loop (succ_u16 sp_offset_by_8) rest
             | [] => prologue_loop (succ_u16 sp_offset_by_8) rest
             end
           else OffsetSp (succ_u16 sp_offset_by_8)
       | [] => OffsetSp (succ_u16 sp_offset_by_8)
       end.

Definition unwind_rule_from_detected_prologue (text_bytes : list Z) (pc_offset : nat)
    : option (option UnwindRule) :=
  if (pc_offset <=? length text_bytes)%nat
  then Some (if is_next_instruction_expected_in_prologue (drop pc_offset text_bytes)
             then Some (prologue_loop 0 (reverse (take pc_offset text_bytes))) else None)
  else None.

(** ** The instructions *)

(** The number of a register in an instruction, and whether it needs [REX.B]. *)
Definition reg_number (r : Reg) : Z * bool :=
  match r with
  | RAX => (0, false) | RCX => (1, false) | RDX => (2, false) | RBX => (3, false)
  | RSP => (4, false) | RBP => (5, false) | RSI => (6, false) | RDI => (7, false)
  | R8 => (0, true) | R9 => (1, true) | R10 => (2, true) | R11 => (3, true)
  | R12 => (4, true) | R13 => (5, true) | R14 => (6, true) | R15 => (7, true)
  end.

Definition assemble (opcode : Z) (r : Reg) : list Z :=
  let '(number, rex) := reg_number r in (if rex then [0x41] else []) ++ [opcode + number].
Definition assemble_pops (regs : list Reg) : list Z := concat (assemble 0x58 <$> regs).
Definition assemble_pushes (regs : list Reg) : list Z := concat (assemble 0x50 <$> regs).

(** [pop]s on the machine: the stack pointer and the frame pointer. *)
Fixpoint run_pops (read_stack : Z -> option Z) (regs : list Reg) (sp bp : Z) : option (Z * Z) :=
  match regs with
  | [] => Some (sp, bp)
  | r :: regs =>
      value ← read_stack sp;
      if sp + 8 <=? u64_max
      then run_pops read_stack regs (sp + 8) (if decide (r = RBP) then value else bp) else None
  end.

(** The pops, then [ret]. *)
Definition run_epilogue (read_stack : Z -> option Z) (regs : list Reg) (s : UnwindRegs) : option (Z * Z * Z) :=
  '(sp, bp) ← run_pops read_stack regs (r_sp s) (r_bp s);
  return_address ← read_stack sp;
  if sp + 8 <=? u64_max then Some (return_address, sp + 8, bp) else None.

(** ** Epilogues *)

(** Index of the last [pop rbp]. *)
Fixpoint last_bp (regs : list Reg) (i : Z) (bp : option Z) : option Z :=
  match regs with
  | [] => bp
  | r :: regs => last_bp regs (i + 1) (if decide (r = RBP) then Some i else bp)
  end.

Lemma succ_u16_small n : 0 <= n < 65535 -> succ_u16 n = n + 1.
Proof. intros. unfold succ_u16. rewrite Z.mod_small; lia. Qed.

Lemma epilogue_loop_pop before r i bp rest :
  0 <= i < 32767 ->
  epilogue_loop before i bp (assemble 0x58 r ++ rest) =
  epilogue_loop before (i + 1) (if decide (r = RBP) then Some i else bp) rest.
Proof.
  intros Hi. rewrite <- succ_u16_small by lia.
  assert (as_i16 i = i) as Ha by (unfold as_i16; destruct (Z.ltb_spec i 32768); lia).
  destruct r; try reflexivity. cbn [assemble reg_number app]. cbn -[succ_u16 as_i16]. by rewrite Ha.
Qed.

Lemma epilogue_loop_pops before regs : forall i bp rest,
  0 <= i -> i + Z.of_nat (length regs) <= 32767 ->
  epilogue_loop before i bp (assemble_pops regs ++ rest) =
  epilogue_loop before (i + Z.of_nat (length regs)) (last_bp regs i bp) rest.
Proof.
  induction regs as [|r regs IH]; intros i bp rest Hi Hl.
  { cbn [length last_bp assemble_pops fmap list_fmap concat app]. by rewrite Z.add_0_r. }
  unfold assemble_pops. cbn [fmap list_fmap concat]. rewrite <- app_assoc.
  cbn [length] in Hl |- *. rewrite epilogue_loop_pop by lia. fold (assemble_pops regs).
  rewrite IH by lia. cbn [last_bp]. f_equal. lia.
Qed.

Lemma last_bp_none regs : forall i bp, last_bp regs i bp = None -> bp = None.
Proof.
  induction regs as [|r regs IH]; intros i bp Hl; cbn in Hl; [done|].
  apply IH in Hl. by destruct (decide (r = RBP)).
Qed.

Lemma run_pops_spec read_stack regs : forall sp bp i bp_offset sp' bp',
  0 <= i -> run_pops read_stack regs sp bp = Some (sp', bp') ->
  match bp_offset with
  | Some k => 0 <= k < i /\ read_stack (sp - 8 * i + 8 * k) = Some bp
  | None => True
  end ->
  sp' = sp + 8 * Z.of_nat (length regs) /\
  match last_bp regs i bp_offset with
  | Some k => 0 <= k < i + Z.of_nat (length regs) /\ read_stack (sp - 8 * i + 8 * k) = Some bp'
  | None => bp' = bp
  end.
Proof.
  induction regs as [|r regs IH]; intros sp bp i bp_offset sp' bp' Hi Hrun Hbp; cbn [run_pops last_bp length] in *.
  { injection Hrun as <- <-. split; [lia|]. destruct bp_offset as [k|]; [|done]. split; [lia|apply Hbp]. }
  destruct (read_stack sp) as [value|] eqn:Hv; [|done]. cbn [mbind option_bind] in Hrun.
  destruct (sp + 8 <=? u64_max); [|done].
  apply (IH _ _ (i + 1) (if decide (r = RBP) then Some i else bp_offset)) in Hrun; [|lia|].
  - destruct Hrun as [-> Hrun]. split; [lia|].
    replace (sp + 8 - 8 * (i + 1)) with (sp - 8 * i) in Hrun by lia.
    destruct (last_bp regs (i + 1) _) as [k|] eqn:Hlast.
    + destruct Hrun. split; [lia|done].
    + apply last_bp_none in Hlast. by destruct (decide (r = RBP)).
  - destruct (decide (r = RBP)).
    + split; [lia|]. replace (sp + 8 - 8 * (i + 1) + 8 * i) with sp by lia. done.
    + destruct bp_offset as [k|]; [|done]. split; [lia|].
      replace (sp + 8 - 8 * (i + 1) + 8 * k) with (sp - 8 * i + 8 * k) by lia. apply Hbp.
Qed.

Lemma epilogue_loop_ret before i bp rest : epilogue_loop before i bp (0xc3 :: rest) = Some (epilogue_rule i bp).
Proof. done. Qed.

Lemma detected_epilogue before regs rest :
  Z.of_nat (length regs) <= 32766 ->
  unwind_rule_from_detected_epilogue (before ++ assemble_pops regs ++ 0xc3 :: rest) (length before) =
  Some (Some (epilogue_rule (Z.of_nat (length regs)) (last_bp regs 0 None))).
Proof.
  intros Hl. unfold unwind_rule_from_detected_epilogue.
  rewrite length_app, (proj2 (Nat.leb_le _ _)) by lia. rewrite take_app_length, drop_app_length.
  by rewrite epilogue_loop_pops, epilogue_loop_ret, Z.add_0_l by lia.
Qed.

Lemma exec_caller read_stack rule first regs new_sp new_bp ra :
  rule_frame read_stack rule first false regs = ret (Some (new_sp, new_bp, [])) ->
  8 <= new_sp -> read_stack (new_sp - 8) = Some ra -> ra <> 0 -> r_sp regs < new_sp ->
  exec read_stack rule first regs = (ret (Some ra), caller_regs new_sp new_bp ra [] regs).
Proof.
  intros Hf H8 Hra Hnz Hlt. unfold exec, exec_impl. rewrite Hf. unfold ret at 1, checked_sub_u64.
  destruct (Z.leb_spec 8 new_sp); [|lia]. rewrite Hra. destruct (Z.eqb_spec ra 0); [done|].
  destruct (Z.eqb_spec new_sp (r_sp regs)); [lia|done].
Qed.

Lemma add_u64_ok a b : a + b <= u64_max -> add_u64 a b = ret (a + b).
Proof. intros Hle. unfold add_u64, checked_add_u64. by rewrite (proj2 (Z.leb_le _ _)). Qed.

(** At any pop of an epilogue (pops, then [ret]) the analysis finds a rule,
    and executing the rule gives the return address, the stack pointer and the
    frame pointer that executing the instructions gives. *)
Theorem epilogue_rule_runs_the_epilogue (read_stack : Z -> option Z) (before rest : list Z) (popped_regs : list Reg)
    (first : bool) (regs : UnwindRegs) (ra sp bp : Z) :
  Z.of_nat (length popped_regs) <= 32766 -> 0 <= r_sp regs ->
  run_epilogue read_stack popped_regs regs = Some (ra, sp, bp) -> ra <> 0 ->
  exists rule,
    unwind_rule_from_detected_epilogue (before ++ assemble_pops popped_regs ++ 0xc3 :: rest) (length before) =
      Some (Some rule) /\
    exec read_stack rule first regs = (ret (Some ra), caller_regs sp bp ra [] regs).
Proof.
  intros Hlen Hsp Hrun Hnz. unfold run_epilogue in Hrun.
  destruct (run_pops read_stack popped_regs (r_sp regs) (r_bp regs)) as [[sp1 bp1]|] eqn:Hp; [|done]. cbn in Hrun.
  destruct (read_stack sp1) as [ra1|] eqn:Hra; [|done]. cbn in Hrun.
  destruct (Z.leb_spec (sp1 + 8) u64_max) as [Hmax|]; [|done]. injection Hrun as <- <- <-.
  apply (run_pops_spec _ _ _ _ 0 None) in Hp as [-> Hbp]; [|lia|done].
  exists (epilogue_rule (Z.of_nat (length popped_regs)) (last_bp popped_regs 0 None)).
  split; [by apply detected_epilogue|].
  set (n := Z.of_nat (length popped_regs)) in *. set (s := r_sp regs) in *.
  assert (read_stack (s + 8 * n + 8 - 8) = Some ra1) as Hra' by (by replace (s + 8 * n + 8 - 8) with (s + 8 * n) by lia).
  apply exec_caller; [|lia|done|done|unfold s, n; lia].
  unfold epilogue_rule. destruct (Z.eqb_spec n 0) as [Hz|Hz].
  - assert (popped_regs = []) as -> by (destruct popped_regs; [done|unfold n in Hz; cbn in Hz; lia]).
    cbn [rule_frame last_bp] in *. rewrite Hbp, Hz, Z.mul_0_r, Z.add_0_r in *. by rewrite add_u64_ok.
  - rewrite succ_u16_small by (unfold n in *; lia). replace (s + 8 * n + 8) with (s + (n + 1) * 8) in * by lia.
    destruct (last_bp popped_regs 0 None) as [k|]; cbn [rule_frame]; fold s; rewrite add_u64_ok by done; cbn [bind ret].
    + destruct Hbp as [Hk Hread]. rewrite Z.mul_0_r, Z.sub_0_r, (Z.mul_comm 8 k) in Hread.
      unfold checked_add_signed_u64.
      rewrite (proj2 (Z.leb_le 0 _)), (proj2 (Z.leb_le (s + k * 8) _)) by lia. cbn [andb ok_or_throw bind ret].
      by rewrite Hread.
    + by rewrite Hbp.
Qed.

(** ** Prologues *)

(** The bytes of pushes, seen backwards. *)
Definition backwards (regs : list Reg) : list Z := concat ((λ r, reverse (assemble 0x50 r)) <$> regs).

Lemma backwards_spec regs : reverse (assemble_pushes regs) = backwards (reverse regs).
Proof.
  induction regs as [|r regs IH]; [done|]. unfold assemble_pushes, backwards in *. cbn [fmap list_fmap concat].
  rewrite reverse_app, IH, reverse_cons, fmap_app, concat_app. cbn [fmap list_fmap concat]. by rewrite app_nil_r.
Qed.

Lemma backwards_head regs :
  backwards regs = [] \/ exists b rest, backwards regs = b :: rest /\ is_rex b = false.
Proof.
  destruct regs as [|r regs]; [by left|]. right.
  destruct r; (eexists _, _; split; [reflexivity|vm_compute; reflexivity]).
Qed.

Lemma prologue_loop_plain x i rest :
  is_push x = true -> x <> 0xe5 ->
  match rest with b :: _ => is_rex b = false | [] => True end ->
  prologue_loop i (x :: rest) = prologue_loop (succ_u16 i) rest.
Proof.
  intros Hp Hx Hrest. cbn [prologue_loop].
  rewrite bool_decide_eq_false_2 by (cbn; congruence). rewrite Hp. destruct rest as [|b rest]; [done|].
  by rewrite Hrest.
Qed.

Lemma prologue_loop_rex x y i rest :
  is_push x = true -> x <> 0xe5 -> is_rex y = true ->
  prologue_loop i (x :: y :: rest) = prologue_loop (succ_u16 i) rest.
Proof.
  intros Hp Hx Hy. cbn [prologue_loop].
  rewrite bool_decide_eq_false_2 by (cbn; congruence). by rewrite Hp, Hy.
Qed.

Lemma prologue_loop_push r i regs :
  prologue_loop i (reverse (assemble 0x50 r) ++ backwards regs) = prologue_loop (succ_u16 i) (backwards regs).
Proof.
  assert (match backwards regs with b :: _ => is_rex b = false | [] => True end) as Hhead.
  { by destruct (backwards_head regs) as [->|(b & rest & -> & ?)]. }
  destruct r; first [apply prologue_loop_plain; [reflexivity|discriminate|exact Hhead]
                    |apply prologue_loop_rex; [reflexivity|discriminate|reflexivity]].
Qed.

Lemma prologue_loop_pushes regs : forall i,
  0 <= i -> i + Z.of_nat (length regs) <= 65534 ->
  prologue_loop i (backwards regs) = OffsetSp (i + Z.of_nat (length regs) + 1).
Proof.
  induction regs as [|r regs IH]; intros i Hi Hl; cbn [length] in *.
  { cbn. rewrite succ_u16_small by lia. f_equal. lia. }
  unfold backwards. cbn [fmap list_fmap concat]. fold (backwards regs).
  rewrite prologue_loop_push, succ_u16_small, IH by lia. f_equal. lia.
Qed.

(** After the pushes that open a function, with another prologue
    instruction next, the analysis counts exactly the pushed registers: the
    rule moves the stack pointer over them and over the return address. *)
Theorem prologue_rule_counts_pushes (pushed_regs : list Reg) (rest : list Z) :
  Z.of_nat (length pushed_regs) <= 65534 ->
  is_next_instruction_expected_in_prologue rest = true ->
  unwind_rule_from_detected_prologue (assemble_pushes pushed_regs ++ rest) (length (assemble_pushes pushed_regs)) =
  Some (Some (OffsetSp (Z.of_nat (length pushed_regs) + 1))).
Proof.
  intros Hl Hnext. unfold unwind_rule_from_detected_prologue.
  rewrite length_app, (proj2 (Nat.leb_le _ _)) by lia. rewrite take_app_length, drop_app_length, Hnext.
  rewrite backwards_spec, prologue_loop_pushes, length_reverse by (rewrite ?length_reverse; lia). done.
Qed.

Lemma epilogue_rule_runs_the_epilogue_witness :
  exists rule, unwind_rule_from_detected_epilogue [0x90; 0x5d; 0x41; 0x5c; 0xc3] 1 = Some (Some rule).
Proof.
  destruct (epilogue_rule_runs_the_epilogue
    (λ address, Some (address + 1)) [0x90] [] [RBP; R12] true (regs_new 1 4096 0) 4113 4120 4097) as (rule & Hr & _).
  - vm_compute. discriminate.
  - vm_compute. discriminate.
  - vm_compute. reflexivity.
  - discriminate.
  - exists rule. exact Hr.
Defined.

Lemma prologue_rule_counts_pushes_witness :
  unwind_rule_from_detected_prologue [0x55; 0x41; 0x57; 0x48; 0x83; 0xec; 0x18] 3 = Some (Some (OffsetSp 3)).
Proof.
  apply (prologue_rule_counts_pushes [RBP; R15] [0x48; 0x83; 0xec; 0x18]).
  - vm_compute. discriminate.
  - vm_compute. reflexivity.
Defined.
