(* ===== verification/Sorter.v ===== *)
(** * The event sorter

    [EventSorter] of [src/linux/sorter.rs] merges the events of several perf
    ring buffers into one stream ordered by timestamp, and the rounds of
    [drain_event_round] of [src/linux/perf_group.rs] drive it.  The heap is a
    list from which the least item is taken: keys and sequence numbers make the
    order total, so this is what a [BinaryHeap] gives. *)

From stdpp Require Import prelude list numbers sorting.
From S2P Require Import Prelude.
#[local] Open Scope Z_scope.

(** ** The sorter *)

Section sorter.
Context {V : Type}.

Record EventHeapItem := mkItem {
  it_group : Z;
  it_round : Z;
  it_key : Z;
  it_sequence : Z;
  it_value : V;
}.

(** [Ord], before it is reversed for the max-heap. *)
Definition item_lt (a b : EventHeapItem) : Prop :=
  it_key a < it_key b \/ (it_key a = it_key b /\ it_sequence a < it_sequence b).
#[global] Instance item_lt_dec a b : Decision (item_lt a b).
Proof. unfold item_lt. apply _. Defined.

Record EventSorter := mkSorter {
  heap : list EventHeapItem;
  current_group : option Z;
  round : Z;
  next_sequence : Z;
}.

Definition sorter_new : EventSorter := mkSorter [] None 0 0.

Definition has_more (s : EventSorter) : bool := negb (bool_decide (heap s = [])).

(** [usize] arithmetic; [None] is a panic of [expect] or [assert!]. *)
Definition advance_round (s : EventSorter) : option EventSorter :=
  round ← checked_add_u64 (round s) 1;
  Some (mkSorter (heap s) None round (next_sequence s)).

Definition abort_round (s : EventSorter) : EventSorter :=
  mkSorter (heap s) None (round s) (next_sequence s).

(** [Option<&G>] is ordered with [None] first. *)
Definition group_le (a b : option Z) : bool :=
  match a, b with
  | None, _ => true
  | Some _, None => false
  | Some a, Some b => a <=? b
  end.

Definition begin_group (group : Z) (s : EventSorter) : option EventSorter :=
  if group_le (current_group s) (Some group)
  then Some (mkSorter (heap s) (Some group) (round s) (next_sequence s)) else None.

(** The least item of the heap, and the heap without it. *)
Fixpoint take_min (items : list EventHeapItem) : option (EventHeapItem * list EventHeapItem) :=
  match items with
  | [] => None
  | x :: items =>
      match take_min items with
      | None => Some (x, items)
      | Some (y, rest) => if decide (item_lt y x) then Some (y, x :: rest) else Some (x, items)
      end
  end.

(** Whether the least item must wait. *)
Definition held (event : EventHeapItem) (s : EventSorter) : bool :=
  let event_round := Z.min (it_round event + 1) u64_max in
  negb ((event_round <? round s) ||
        ((event_round =? round s) && group_le (Some (it_group event)) (current_group s))).

(** [pop], keeping the whole item: the caller gets its value. *)
Definition pop (s : EventSorter) : option (EventHeapItem * EventSorter) :=
  '(event, rest) ← take_min (heap s);
  if held event s then None
  else Some (event, mkSorter rest (current_group s) (round s) (next_sequence s)).

Definition force_pop (s : EventSorter) : option (EventHeapItem * EventSorter) :=
  '(event, rest) ← take_min (heap s);
  Some (event, mkSorter rest (current_group s) (round s) (next_sequence s)).

Definition visit_values_mut (visitor : V -> V) (s : EventSorter) : EventSorter :=
  mkSorter ((λ x, mkItem (it_group x) (it_round x) (it_key x) (it_sequence x) (visitor (it_value x))) <$> heap s)
    (current_group s) (round s) (next_sequence s).

Definition push_current_group (key : Z) (value : V) (s : EventSorter) : option EventSorter :=
  group ← current_group s;
  next ← checked_add_u64 (next_sequence s) 1;
  Some (mkSorter (mkItem group (round s) key (next_sequence s) value :: heap s)
          (current_group s) (round s) next).

Fixpoint push_all (events : list (Z * V)) (s : EventSorter) : option EventSorter :=
  match events with
  | [] => Some s
  | (key, value) :: events => s ← push_current_group key value s; push_all events s
  end.

(** ** The heap *)

Lemma take_min_spec items x rest :
  take_min items = Some (x, rest) ->
  items ≡ₚ x :: rest /\ forall y, y ∈ rest -> ~ item_lt y x.
Proof.
  revert x rest. induction items as [|a items IH]; intros x rest; cbn; [done|].
  destruct (take_min items) as [[y r]|] eqn:Hm.
  - destruct (IH y r eq_refl) as [Hp Hmin]. destruct (decide (item_lt y a)) as [Hlt|Hge]; intros [= <- <-].
    + split; [rewrite Hp; apply Permutation_swap|]. intros z [->|Hz]%elem_of_cons; [|by apply Hmin].
      unfold item_lt in *. lia.
    + split; [done|]. intros z Hz. rewrite Hp in Hz. apply elem_of_cons in Hz as [->|Hz]; [done|].
      specialize (Hmin z Hz). unfold item_lt in *. lia.
  - intros [= <- <-]. split; [done|]. destruct items as [|b items]; [by intros y ?%elem_of_nil|].
    cbn in Hm. destruct (take_min items) as [[]|]; [by destruct (decide _)|done].
Qed.

Lemma take_min_none items : take_min items = None -> items = [].
Proof.
  destruct items as [|x items]; [done|]. cbn. destruct (take_min items) as [[]|]; [by destruct (decide _)|done].
Qed.

(** ** Draining rings *)

(** The rings and the merged stream.  [last_read]: no event of the ring that is
    still to be read is older; [now]: nothing queued is newer; [visited]: the
    rings fully read in this attempt at the round. *)
Record system := mkSystem {
  sorter : EventSorter;
  last_read : Z -> Z;
  now : Z;
  visited : Z -> Prop;
  out : list EventHeapItem;
}.

Definition upd {A} (g : Z) (a : A) (f : Z -> A) : Z -> A := λ h, if h =? g then a else f h.

Context (groups : list Z).

(** One action of a drain.  A complete read of a ring at time [t] returns every
    event up to [t]; a failed one returns some of the events it should. *)
Inductive drains : system -> system -> Prop :=
  | begin_step s g s' :
      g ∈ groups -> (forall h, h ∈ groups -> h < g -> visited s h) ->
      begin_group g (sorter s) = Some s' ->
      drains s (mkSystem s' (last_read s) (now s) (visited s) (out s))
  | read_step s g t events s' :
      current_group (sorter s) = Some g -> now s <= t ->
      Forall (λ e, last_read s g <= e.1 <= t) events ->
      push_all events (sorter s) = Some s' ->
      drains s (mkSystem s' (upd g t (last_read s)) t (λ h, h = g \/ visited s h) (out s))
  | failed_read_step s g m events s' :
      current_group (sorter s) = Some g -> last_read s g <= m ->
      Forall (λ e, last_read s g <= e.1 <= m) events ->
      push_all events (sorter s) = Some s' ->
      drains s (mkSystem s' (upd g m (last_read s)) (Z.max (now s) m) (visited s) (out s))
  | pop_step s e s' :
      pop (sorter s) = Some (e, s') ->
      drains s (mkSystem s' (last_read s) (now s) (visited s) (out s ++ [e]))
  | detach_step s f :
      drains s (mkSystem (visit_values_mut f (sorter s)) (last_read s) (now s) (visited s) (out s))
  | advance_step s s' :
      (forall h, h ∈ groups -> visited s h) -> advance_round (sorter s) = Some s' ->
      drains s (mkSystem s' (last_read s) (now s) (λ _, False) (out s))
  | abort_step s :
      drains s (mkSystem (abort_round (sorter s)) (last_read s) (now s) (λ _, False) (out s)).

Definition system_new (start : Z) : system := mkSystem sorter_new (λ _, start) start (λ _, False) [].

(** *** The invariant *)

Record item_inv (s : system) (e : EventHeapItem) : Prop := {
  ii_group : it_group e ∈ groups;
  ii_now : it_key e <= now s;
  ii_round : it_round e <= round (sorter s);
  ii_sequence : it_sequence e < next_sequence (sorter s);
  ii_own : it_key e <= last_read s (it_group e);
  ii_this h : it_round e = round (sorter s) -> h ∈ groups -> visited s h -> it_group e <= h ->
    it_key e <= last_read s h;
  ii_last h : it_round e + 1 = round (sorter s) -> h ∈ groups -> it_group e <= h \/ visited s h ->
    it_key e <= last_read s h;
  ii_older h : it_round e + 1 < round (sorter s) -> h ∈ groups -> it_key e <= last_read s h;
}.

Record system_inv (s : system) : Prop := {
  si_items e : e ∈ heap (sorter s) -> item_inv s e;
  si_distinct : NoDup (it_sequence <$> heap (sorter s));
  si_current g : current_group (sorter s) = Some g -> g ∈ groups /\ forall h, h ∈ groups -> h < g -> visited s h;
  si_visited h : visited s h -> exists g, current_group (sorter s) = Some g /\ h <= g;
  si_read h : last_read s h <= now s;
  si_sorted : StronglySorted item_lt (out s);
  si_emitted e : e ∈ out s -> (forall x, x ∈ heap (sorter s) -> item_lt e x) /\
    it_sequence e < next_sequence (sorter s) /\ forall h, h ∈ groups -> it_key e <= last_read s h;
  si_bound : round (sorter s) <= u64_max;
}.

Lemma system_new_inv start : system_inv (system_new start).
Proof.
  split; cbn; try done.
  - by intros e ?%elem_of_nil.
  - constructor.
  - constructor.
  - by intros e ?%elem_of_nil.
Qed.

(** Reading can only raise [last_read] and the time. *)
Lemma item_inv_raise s s' e :
  item_inv s e -> round (sorter s') = round (sorter s) ->
  next_sequence (sorter s) <= next_sequence (sorter s') -> now s <= now s' ->
  (forall h, last_read s h <= last_read s' h) ->
  (forall h, visited s' h -> visited s h \/ now s <= last_read s' h) ->
  item_inv s' e.
Proof.
  intros [H1 H2 H3 H4 H5 H6 H7 H8] Hr Hs Hn Hl Hv. split; try done; try lia.
  - specialize (Hl (it_group e)). lia.
  - intros h He Hh Hvis Hle. rewrite Hr in He. destruct (Hv h Hvis) as [Hv'|Hv']; [|lia].
    specialize (H6 h He Hh Hv' Hle). specialize (Hl h). lia.
  - intros h He Hh Hc. rewrite Hr in He. destruct Hc as [Hc|Hvis].
    + specialize (H7 h He Hh (or_introl Hc)). specialize (Hl h). lia.
    + destruct (Hv h Hvis) as [Hv'|Hv']; [|lia]. specialize (H7 h He Hh (or_intror Hv')). specialize (Hl h). lia.
  - intros h He Hh. rewrite Hr in He. specialize (H8 h He Hh). specialize (Hl h). lia.
Qed.

Lemma push_all_spec events : forall s s' g,
  current_group s = Some g -> push_all events s = Some s' ->
  exists new, heap s' = new ++ heap s /\ current_group s' = Some g /\ round s' = round s /\
    next_sequence s <= next_sequence s' /\ NoDup (it_sequence <$> new) /\
    forall x, x ∈ new -> it_group x = g /\ it_round x = round s /\
      next_sequence s <= it_sequence x < next_sequence s' /\ exists e, e ∈ events /\ it_key x = e.1.
Proof.
  induction events as [|[key value] events IH]; intros s s' g Hg Hp; cbn in Hp.
  { injection Hp as <-. exists []. split; [done|]. repeat split; try done; try lia; try constructor.
    all: by apply elem_of_nil in H. }
  unfold push_current_group in Hp. rewrite Hg in Hp. cbn in Hp.
  unfold checked_add_u64 in Hp. destruct (next_sequence s + 1 <=? u64_max); [|done]. cbn in Hp.
  apply (IH _ _ g) in Hp as (new & Hh & Hc & Hr & Hn & Hnd & Hnew); [|done]. cbn in *.
  exists (new ++ [mkItem g (round s) key (next_sequence s) value]). split; [by rewrite Hh, <- app_assoc|].
  split; [done|]. split; [done|]. split; [lia|]. split.
  - rewrite fmap_app. apply NoDup_app. split; [done|]. split; [|apply NoDup_singleton].
    intros q Hq Hq'. apply list_elem_of_singleton in Hq' as ->. cbn in Hq.
    apply list_elem_of_fmap in Hq as (x & Hx & Hin). destruct (Hnew x Hin) as (_ & _ & ? & _). lia.
  - intros x [Hx|Hx]%elem_of_app.
    + destruct (Hnew x Hx) as (? & ? & ? & e & He & ?). split; [done|]. split; [done|]. split; [lia|].
      exists e. split; [by apply list_elem_of_further|done].
    + apply list_elem_of_singleton in Hx as ->. cbn. split; [done|]. split; [done|]. split; [lia|].
      exists (key, value). split; [apply list_elem_of_here|done].
Qed.

(** A read, complete or not: the ring's floor rises to [m], and [m] reaches
    everything queued when the ring was read completely. *)
Lemma read_inv s g m t vis events s' :
  system_inv s -> current_group (sorter s) = Some g ->
  last_read s g <= m -> now s <= t -> m <= t -> Forall (λ e, last_read s g <= e.1 <= m) events ->
  push_all events (sorter s) = Some s' ->
  (forall h, visited s h -> vis h) -> (forall h, vis h -> visited s h \/ (h = g /\ now s <= m)) ->
  system_inv (mkSystem s' (upd g m (last_read s)) t vis (out s)).
Proof.
  intros [Hitems Hnd Hcur Hvis Hread Hsort Hem Hb] Hg Hm Ht Hmt Hev Hp Hv1 Hv2.
  destruct (push_all_spec events _ _ g Hg Hp) as (new & Hh & Hc & Hr & Hn & Hndn & Hnew).
  destruct (Hcur g Hg) as [Hgin Hbefore].
  assert (forall h, last_read s h <= upd g m (last_read s) h) as Hup.
  { intros h. unfold upd. destruct (Z.eqb_spec h g) as [->|]; lia. }
  assert (upd g m (last_read s) g = m) as Hgm by (unfold upd; by rewrite Z.eqb_refl).
  assert (forall e, e ∈ new -> last_read s g <= it_key e <= m) as Hkeys.
  { intros e He. destruct (Hnew e He) as (_ & _ & _ & ev & Hin & ->). rewrite list.Forall_forall in Hev. by apply Hev. }
  assert (forall h, vis h -> h <= g) as Hle.
  { intros h Hv. destruct (Hv2 h Hv) as [Hv'|[-> _]]; [|lia]. destruct (Hvis h Hv') as (g' & Hg' & ?). congruence. }
  split; cbn [sorter last_read now visited out].
  - intros e He. rewrite Hh in He. apply elem_of_app in He as [He|He].
    + destruct (Hnew e He) as (Hge & Hre & Hse & _). specialize (Hkeys e He).
      split; cbn [sorter last_read now visited]; rewrite ?Hr, ?Hre, ?Hge; try done; try lia.
      intros h _ _ Hv Hgh. specialize (Hle h Hv). assert (h = g) as -> by lia. lia.
    + apply (item_inv_raise s); cbn [sorter last_read now visited]; [by apply Hitems|done|done|done|done|].
      intros h Hv. destruct (Hv2 h Hv) as [?|[-> ?]]; [by left|right; lia].
  - rewrite Hh, fmap_app. apply NoDup_app. split; [done|]. split; [|done]. intros q Hq Hq'.
    apply list_elem_of_fmap in Hq as (x & -> & Hx). apply list_elem_of_fmap in Hq' as (y & Hy & Hyin).
    destruct (Hnew x Hx) as (_ & _ & ? & _). pose proof (ii_sequence _ _ (Hitems y Hyin)). lia.
  - intros g' Hg'. rewrite Hc in Hg'. injection Hg' as <-. split; [done|]. intros h Hin Hlt. by apply Hv1, Hbefore.
  - intros h Hv. exists g. split; [done|by apply Hle].
  - intros h. unfold upd. specialize (Hread h). destruct (Z.eqb_spec h g); lia.
  - done.
  - intros e He. destruct (Hem e He) as (H1 & H2 & H3). split; [|split; [lia|]].
    + intros x Hx. rewrite Hh in Hx. apply elem_of_app in Hx as [Hx|Hx]; [|by apply H1].
      destruct (Hnew x Hx) as (_ & _ & ? & _). specialize (Hkeys x Hx). specialize (H3 g Hgin). unfold item_lt. lia.
    + intros h Hin. specialize (H3 h Hin). specialize (Hup h). lia.
  - by rewrite Hr.
Qed.

Lemma held_false e s :
  round s <= u64_max -> it_round e <= round s -> held e s = false ->
  it_round e + 1 < round s \/ (it_round e + 1 = round s /\ exists g, current_group s = Some g /\ it_group e <= g) \/
  it_round e = u64_max.
Proof.
  unfold held. intros Hb Hr Hh. apply negb_false_iff, orb_true_iff in Hh as [Hh|Hh].
  - lia.
  - apply andb_true_iff in Hh as [Hh Hg]. destruct (current_group s) as [g|]; [|done]. cbn in Hg.
    destruct (Z.eq_dec (it_round e) u64_max); [by right; right|]. right. left. split; [lia|]. exists g. split; [done|lia].
Qed.

(** What [pop] takes can be emitted: nothing older can still arrive. *)
Lemma pop_inv s e s' :
  system_inv s -> round (sorter s) < u64_max -> pop (sorter s) = Some (e, s') ->
  system_inv (mkSystem s' (last_read s) (now s) (visited s) (out s ++ [e])).
Proof.
  intros [Hitems Hnd Hcur Hvis Hread Hsort Hem Hb] Hmax Hp. unfold pop in Hp.
  destruct (take_min (heap (sorter s))) as [[x rest]|] eqn:Hm; [|done]. cbn in Hp.
  destruct (held x (sorter s)) eqn:Hheld; [done|]. injection Hp as <- <-.
  apply take_min_spec in Hm as [Hperm Hmin].
  assert (forall y, y ∈ heap (sorter s) <-> y = x \/ y ∈ rest) as Hin by (intros y; by rewrite Hperm, elem_of_cons).
  pose proof (Hitems x (proj2 (Hin x) (or_introl eq_refl))) as Hx.
  assert (forall y, y ∈ rest -> item_lt x y) as Hlt.
  { intros y Hy. specialize (Hmin y Hy). rewrite Hperm in Hnd. cbn in Hnd. apply NoDup_cons in Hnd as [Hni _].
    assert (it_sequence y <> it_sequence x).
    { intros Heq. apply Hni, list_elem_of_fmap. exists y. by rewrite Heq. }
    unfold item_lt in *. lia. }
  assert (forall h, h ∈ groups -> it_key x <= last_read s h) as Hfloor.
  { intros h Hh. destruct (held_false x (sorter s) Hb (ii_round _ _ Hx) Hheld) as [?|[[? (g & Hg & Hle)]|?]].
    - by apply (ii_older _ _ Hx).
    - apply (ii_last _ _ Hx); [done|done|]. destruct (Z.le_gt_cases (it_group x) h); [by left|right].
      apply (Hcur g Hg); [done|lia].
    - pose proof (ii_round _ _ Hx). lia. }
  split; cbn [sorter heap current_group round next_sequence last_read now visited out].
  - intros y Hy. destruct (Hitems y (proj2 (Hin y) (or_intror Hy))) as [H1 H2 H3 H4 H5 H6 H7 H8]. by split.
  - rewrite Hperm in Hnd. cbn in Hnd. by apply NoDup_cons in Hnd as [_ ?].
  - done.
  - done.
  - done.
  - clear -Hsort Hem Hin. induction (out s) as [|a l IH]; cbn.
    + constructor; [constructor|done].
    + inversion Hsort as [|? ? Hs Hf]; subst. constructor.
      * apply IH; [done|]. intros e He. apply Hem. by apply list_elem_of_further.
      * apply Forall_app. split; [done|]. constructor; [|done].
        apply (Hem a (list_elem_of_here _ _)), Hin. by left.
  - intros y [Hy|Hy]%elem_of_app.
    + destruct (Hem y Hy) as (H1 & H2 & H3). split; [|done]. intros z Hz. apply H1, Hin. by right.
    + apply list_elem_of_singleton in Hy as ->. split; [done|]. split; [apply Hx|done].
  - done.
Qed.

Lemma visit_inv s f :
  system_inv s -> system_inv (mkSystem (visit_values_mut f (sorter s)) (last_read s) (now s) (visited s) (out s)).
Proof.
  intros [Hitems Hnd Hcur Hvis Hread Hsort Hem Hb]. split; cbn [sorter visit_values_mut heap current_group round next_sequence last_read now visited out]; try done.
  - intros e He. apply list_elem_of_fmap in He as (x & -> & Hx). destruct (Hitems x Hx). by split.
  - rewrite <- list_fmap_compose. done.
  - intros e He. destruct (Hem e He) as (H1 & H2 & H3). split; [|done]. intros x Hx.
    apply list_elem_of_fmap in Hx as (y & -> & Hy). by apply (H1 y).
Qed.

Lemma advance_inv s s' :
  system_inv s -> (forall h, h ∈ groups -> visited s h) -> advance_round (sorter s) = Some s' ->
  system_inv (mkSystem s' (last_read s) (now s) (λ _, False) (out s)).
Proof.
  intros [Hitems Hnd Hcur Hvis Hread Hsort Hem Hb] Hall Ha. unfold advance_round, checked_add_u64 in Ha.
  destruct (Z.leb_spec (round (sorter s) + 1) u64_max); [|done]. injection Ha as <-.
  split; cbn [sorter heap current_group round next_sequence last_read now visited out]; try done.
  intros e He. destruct (Hitems e He) as [H1 H2 H3 H4 H5 H6 H7 H8].
  split; cbn [sorter heap current_group round next_sequence last_read now visited]; try done; try lia.
  - intros h Hr Hh [Hle|[]]. apply H6; [lia|done|by apply Hall|done].
  - intros h Hr Hh. destruct (Z.eq_dec (it_round e + 1) (round (sorter s))).
    + apply H7; [done|done|]. right. by apply Hall.
    + apply H8; [lia|done].
Qed.

Lemma abort_inv s :
  system_inv s -> system_inv (mkSystem (abort_round (sorter s)) (last_read s) (now s) (λ _, False) (out s)).
Proof.
  intros [Hitems Hnd Hcur Hvis Hread Hsort Hem Hb].
  split; cbn [sorter abort_round heap current_group round next_sequence last_read now visited out]; try done.
  intros e He. destruct (Hitems e He) as [H1 H2 H3 H4 H5 H6 H7 H8]. split; try done.
  intros h Hr Hh [Hle|[]]. apply H7; [done|done|by left].
Qed.

Lemma begin_inv s g s' :
  system_inv s -> g ∈ groups -> (forall h, h ∈ groups -> h < g -> visited s h) ->
  begin_group g (sorter s) = Some s' ->
  system_inv (mkSystem s' (last_read s) (now s) (visited s) (out s)).
Proof.
  intros [Hitems Hnd Hcur Hvis Hread Hsort Hem Hb] Hg Hbefore Hbg. unfold begin_group in Hbg.
  destruct (group_le (current_group (sorter s)) (Some g)) eqn:Hle; [|done]. injection Hbg as <-.
  split; cbn [sorter heap current_group round next_sequence last_read now visited out]; try done.
  - intros e He. destruct (Hitems e He). by split.
  - intros g' [= <-]. done.
  - intros h Hv. destruct (Hvis h Hv) as (g' & Hg' & ?). exists g. split; [done|]. rewrite Hg' in Hle. cbn in Hle. lia.
Qed.

(** Rounds left before the counter is exhausted. *)
Definition rounds_left (s : system) : Prop := round (sorter s) < u64_max.

Lemma drains_inv s s' : rounds_left s -> drains s s' -> system_inv s -> system_inv s'.
Proof.
  intros Hrounds Hstep Hinv. destruct Hstep.
  - by eapply begin_inv.
  - apply (read_inv s g t t (λ h, h = g \/ visited s h) events); try done; try lia.
    + pose proof (si_read _ Hinv g). lia.
    + intros h Hv. by right.
    + intros h [->|Hv]; [right; split; [done|lia]|by left].
  - apply (read_inv s g m (Z.max (now s) m) (visited s) events); try done; try lia. intros h Hv. by left.
  - by apply pop_inv.
  - by apply visit_inv.
  - by apply advance_inv.
  - by apply abort_inv.
Qed.

(** *** Nothing is lost *)

Lemma push_all_sequences events : forall s s',
  push_all events s = Some s' ->
  exists new, heap s' = new ++ heap s /\ 0 <= next_sequence s' - next_sequence s /\
    it_sequence <$> new ≡ₚ seqZ (next_sequence s) (next_sequence s' - next_sequence s).
Proof.
  induction events as [|[key value] events IH]; intros s s' Hp; cbn in Hp.
  { injection Hp as <-. exists []. split; [done|]. by rewrite Z.sub_diag. }
  unfold push_current_group in Hp. destruct (current_group s) as [g|]; [|done]. cbn in Hp.
  unfold checked_add_u64 in Hp. destruct (next_sequence s + 1 <=? u64_max); [|done]. cbn in Hp.
  apply IH in Hp as (new & Hh & Hn & Hperm). cbn in *.
  exists (new ++ [mkItem g (round s) key (next_sequence s) value]). split; [by rewrite Hh, <- app_assoc|].
  split; [lia|]. rewrite fmap_app, Hperm. cbn. rewrite Permutation_app_comm. cbn.
  rewrite (seqZ_cons (next_sequence s)) by lia. apply Permutation_cons; [done|].
  replace (Z.pred (next_sequence s' - next_sequence s)) with (next_sequence s' - (next_sequence s + 1)) by lia.
  replace (Z.succ (next_sequence s)) with (next_sequence s + 1) by lia. done.
Qed.

Definition conserved (s : system) : Prop :=
  0 <= next_sequence (sorter s) /\
  it_sequence <$> (out s ++ heap (sorter s)) ≡ₚ seqZ 0 (next_sequence (sorter s)).

Lemma read_conserved s events s' l n v :
  conserved s -> push_all events (sorter s) = Some s' -> conserved (mkSystem s' l n v (out s)).
Proof.
  intros [H0 Hc] Hp. apply push_all_sequences in Hp as (new & Hh & Hn & Hperm). split; cbn; [lia|].
  rewrite Hh, (Permutation_app_comm new), app_assoc, fmap_app, Hc, Hperm.
  replace (next_sequence s') with (next_sequence (sorter s) + (next_sequence s' - next_sequence (sorter s))) at 2 by lia.
  by rewrite seqZ_app by lia.
Qed.

Lemma drains_conserved s s' : drains s s' -> conserved s -> conserved s'.
Proof.
  intros Hstep [H0 Hc]. destruct Hstep.
  - unfold begin_group in *. case_match; simplify_eq. by split.
  - by eapply read_conserved.
  - by eapply read_conserved.
  - unfold pop in *. destruct (take_min (heap (sorter s))) as [[x rest]|] eqn:Hm; [|done]. cbn in *.
    destruct (held x (sorter s)); [done|]. simplify_eq. apply take_min_spec in Hm as [Hperm _]. split; [done|]. cbn.
    rewrite <- Hc, Hperm, <- app_assoc. done.
  - split; [done|]. cbn. rewrite <- Hc, !fmap_app, <- list_fmap_compose. done.
  - unfold advance_round in *. destruct (checked_add_u64 _ _); [|done]. cbn in *. simplify_eq. by split.
  - by split.
Qed.

(** *** Flushing *)

Fixpoint flush (n : nat) (s : EventSorter) : list EventHeapItem * EventSorter :=
  match n with
  | O => ([], s)
  | S n => match force_pop s with
           | Some (e, s) => let '(es, s) := flush n s in (e :: es, s)
           | None => ([], s)
           end
  end.

Lemma flush_sorted n : forall s,
  NoDup (it_sequence <$> heap s) -> (length (heap s) <= n)%nat ->
  let '(es, s') := flush n s in StronglySorted item_lt es /\ heap s' = [] /\ es ≡ₚ heap s.
Proof.
  induction n as [|n IH]; intros s Hnd Hl; cbn [flush].
  { destruct (heap s); [|cbn in Hl; lia]. by split; [constructor|]. }
  unfold force_pop. destruct (take_min (heap s)) as [[x rest]|] eqn:Hm; cbn [mbind option_bind].
  2: { apply take_min_none in Hm. rewrite Hm. by split; [constructor|]. }
  apply take_min_spec in Hm as [Hperm Hmin]. rewrite Hperm in Hnd. cbn in Hnd. apply NoDup_cons in Hnd as [Hni Hnd].
  specialize (IH (mkSorter rest (current_group s) (round s) (next_sequence s)) Hnd).
  destruct (flush n _) as [es s']. cbn in IH.
  destruct IH as (Hs & Hh & Hp); [apply Permutation_length in Hperm; cbn in Hperm; lia|].
  split; [|split; [done|by rewrite Hperm, Hp]]. constructor; [done|]. apply list.Forall_forall. intros y Hy.
  rewrite Hp in Hy. specialize (Hmin y Hy).
  assert (it_sequence y <> it_sequence x).
  { intros Heq. apply Hni, list_elem_of_fmap. exists y. by rewrite Heq. }
  unfold item_lt in *. lia.
Qed.

Lemma StronglySorted_app_lt (l1 l2 : list EventHeapItem) :
  StronglySorted item_lt l1 -> StronglySorted item_lt l2 -> (forall x y, x ∈ l1 -> y ∈ l2 -> item_lt x y) ->
  StronglySorted item_lt (l1 ++ l2).
Proof.
  induction 1 as [|x l1 Hs IH Hf]; intros H2 Hc; [done|]. cbn. constructor.
  - apply IH; [done|]. intros a b Ha Hb. apply Hc; [by apply list_elem_of_further|done].
  - apply Forall_app. split; [done|]. apply list.Forall_forall. intros y Hy. apply Hc; [apply list_elem_of_here|done].
Qed.

(** Any drain, with rounds left to count. *)
Definition reaches : relation system := rtc (λ s s', rounds_left s /\ drains s s').

Lemma reaches_inv start s : reaches (system_new start) s -> system_inv s /\ conserved s.
Proof.
  intros Hr.
  assert (forall a b, rtc (λ s s', rounds_left s /\ drains s s') a b -> system_inv a /\ conserved a -> system_inv b /\ conserved b) as Hgen.
  { intros a b. induction 1 as [|a b c [Hl Hd] _ IH]; [done|]. intros [Hi Hc]. apply IH.
    split; [by apply (drains_inv a)|by apply (drains_conserved a)]. }
  apply (Hgen _ _ Hr). split; [apply system_new_inv|]. split; [cbn; lia|done].
Qed.
End sorter.

Arguments system : clear implicits.
Arguments EventSorter : clear implicits.
Arguments EventHeapItem : clear implicits.

(** C19: whatever the rings contain and however reads, failed reads, aborted
    rounds and releases are interleaved, the events released by [pop] are in
    timestamp order, with events of equal timestamps in the order they were
    queued, no event being lost, repeated or released before an older one that
    is still to be read; flushing the rest keeps the order.  A ring read
    completely at some time has given every event up to that time. *)
Theorem merged_events_are_ordered {V} (groups : list Z) (start : Z) (s : system V) :
  reaches groups (system_new start) s ->
  let '(rest, flushed) := flush (length (heap (sorter s))) (sorter s) in
  StronglySorted item_lt (out s ++ rest) /\ heap flushed = [] /\
  it_sequence <$> (out s ++ rest) ≡ₚ seqZ 0 (next_sequence (sorter s)).
Proof.
  intros Hr. destruct (reaches_inv groups start s Hr) as [Hi [_ Hc]].
  pose proof (flush_sorted (length (heap (sorter s))) (sorter s) (si_distinct _ _ Hi) (Nat.le_refl _)) as Hf.
  destruct (flush _ _) as [rest flushed]. destruct Hf as (Hs & Hh & Hp).
  split; [|split; [done|by rewrite Hp]]. apply StronglySorted_app_lt; [apply Hi|done|].
  intros x y Hx Hy. rewrite Hp in Hy. by apply (si_emitted _ _ Hi).
Qed.

(** The sorter does not hold events back for long: when [pop] releases
    nothing and events are queued, the oldest of them was read in this round or
    in the last one. *)
Theorem sorter_holds_two_rounds {V} (s : EventSorter V) :
  round s <= u64_max -> pop s = None ->
  heap s = [] \/ exists e, e ∈ heap s /\ (forall x, x ∈ heap s -> ~ item_lt x e) /\ round s <= it_round e + 1.
Proof.
  intros Hb. unfold pop. destruct (take_min (heap s)) as [[e rest]|] eqn:Hm; cbn [mbind option_bind].
  2: { intros _. left. by apply take_min_none. }
  destruct (held e s) eqn:Hh; [|done]. intros _. right. apply take_min_spec in Hm as [Hp Hmin]. exists e.
  split; [rewrite Hp; apply list_elem_of_here|]. split.
  - intros x Hx. rewrite Hp in Hx. apply elem_of_cons in Hx as [->|Hx]; [unfold item_lt; lia|by apply Hmin].
  - unfold held in Hh. apply negb_true_iff, orb_false_iff in Hh as [Hh _]. lia.
Qed.

(** Two rings: the first round queues, the second releases the oldest event. *)
Definition example_sorter : option (EventSorter Z) :=
  s ← begin_group 3 sorter_new;
  s ← push_all [(10, 1); (40, 2)] s;
  s ← begin_group 5 s;
  s ← push_all [(20, 3); (50, 4)] s;
  s ← advance_round s;
  s ← begin_group 3 s;
  '(_, s) ← pop s;
  Some s.

Lemma sorter_holds_two_rounds_witness :
  exists s, example_sorter = Some s /\
    (heap s = [] \/ exists e, e ∈ heap s /\ (forall x, x ∈ heap s -> ~ item_lt x e) /\ round s <= it_round e + 1).
Proof.
  eexists. split; [vm_compute; reflexivity|]. apply sorter_holds_two_rounds.
  - vm_compute. discriminate.
  - vm_compute. reflexivity.
Defined.

Lemma example_groups h : h ∈ [3; 5] -> h = 3 \/ h = 5.
Proof. rewrite !elem_of_cons, elem_of_nil. tauto. Qed.

Lemma example_reaches :
  exists s : system Z, reaches [3; 5] (system_new 0) s /\ it_key <$> out s = [10] /\ length (heap (sorter s)) = 3%nat.
Proof.
  eexists. split.
  2: { split; [|]; shelve. }
  eapply rtc_l; [split; [reflexivity|apply (begin_step [3; 5] (system_new 0) 3 (mkSorter [] (Some 3) 0 0))]|].
  - apply list_elem_of_here.
  - intros h Hh%example_groups ?. lia.
  - reflexivity.
  - eapply rtc_l; [split; [reflexivity|eapply (read_step [3; 5] _ 3 45 [(10, 1); (40, 2)])]|].
    + reflexivity.
    + vm_compute. discriminate.
    + repeat constructor; vm_compute; discriminate.
    + vm_compute. reflexivity.
    + eapply rtc_l; [split; [reflexivity|eapply (begin_step [3; 5] _ 5)]|].
      * apply list_elem_of_further, list_elem_of_here.
      * intros h Hh%example_groups ?. left. lia.
      * vm_compute. reflexivity.
      * eapply rtc_l; [split; [reflexivity|eapply (read_step [3; 5] _ 5 50 [(20, 3); (50, 4)])]|].
        -- reflexivity.
        -- vm_compute. discriminate.
        -- repeat constructor; vm_compute; discriminate.
        -- vm_compute. reflexivity.
        -- eapply rtc_l; [split; [reflexivity|eapply (advance_step [3; 5])]|].
           ++ intros h [->| ->]%example_groups; [right; by left|by left].
           ++ vm_compute. reflexivity.
           ++ eapply rtc_l; [split; [reflexivity|eapply (begin_step [3; 5] _ 3)]|].
              ** apply list_elem_of_here.
              ** intros h Hh%example_groups ?. lia.
              ** vm_compute. reflexivity.
              ** eapply rtc_l; [split; [reflexivity|eapply (pop_step [3; 5])]|apply rtc_refl].
                 vm_compute. reflexivity.
  Unshelve.
  all: reflexivity.
Qed.

Lemma merged_events_are_ordered_witness :
  exists s : system Z, reaches [3; 5] (system_new 0) s /\ it_key <$> out s = [10] /\
    StronglySorted item_lt (out s ++ (flush 3 (sorter s)).1).
Proof.
  destruct example_reaches as (s & Hr & Hk & Hl). exists s. split; [exact Hr|]. split; [exact Hk|].
  pose proof (merged_events_are_ordered [3; 5] 0 s Hr) as Ho. rewrite Hl in Ho.
  destruct (flush 3 (sorter s)) as [rest flushed]. apply Ho.
Defined.
