(* ===== verification/SampleStack.v ===== *)
(** * Building sampled stacks

    [build_sample_stack] of [src/linux/unwind/sample.rs]: kernel frames from the
    call chain, then the user stack unwound from the captured registers and
    bytes, once more if the runtime's metadata changed.  The unwinder is any
    implementation of the class [UnwinderWithDetails]; the counters are those of
    [src/unwind_stats.rs] and [src/stats.rs]. *)

From stdpp Require Import prelude list numbers.
From S2P Require Import Prelude Model Session X86Rules.
#[local] Open Scope Z_scope.

(** ** Counters *)

Inductive UnwindFallbackKind :=
  | NoModule | NoModuleUnwindData | EhFrameHdrLookup | DwarfCfiIndexLookup | DwarfFdeRead | DwarfUnwindInfo
  | DwarfStackPointerMovedBackwards | DwarfDidNotAdvance | DwarfCouldNotRecoverCfa
  | DwarfCouldNotRecoverReturnAddress | DwarfCouldNotRecoverFramePointer | OtherUnwindFormat.

(** [kind as usize]. *)
Definition fallback_index (k : UnwindFallbackKind) : nat :=
  match k with
  | NoModule => 0 | NoModuleUnwindData => 1 | EhFrameHdrLookup => 2 | DwarfCfiIndexLookup => 3
  | DwarfFdeRead => 4 | DwarfUnwindInfo => 5 | DwarfStackPointerMovedBackwards => 6 | DwarfDidNotAdvance => 7
  | DwarfCouldNotRecoverCfa => 8 | DwarfCouldNotRecoverReturnAddress => 9
  | DwarfCouldNotRecoverFramePointer => 10 | OtherUnwindFormat => 11
  end%nat.

(** [UnwindFallbackStats]. *)
Definition fallbacks_default : list Z := replicate 12 0.
Definition fallbacks_merge (counts other : list Z) : list Z := zip_with saturating_add_u64 counts other.
Definition fallbacks_record (k : UnwindFallbackKind) (counts : list Z) : list Z :=
  alter (λ count, saturating_add_u64 count 1) (fallback_index k) counts.

Inductive SampleErrorKind :=
  | NativeRegisterCapture | NativeStackRead | NativeStackTruncated | NativeFramehopDidNotAdvance
  | NativeFramehopReturnAddressNull | NativeFramehopMovedBackwards | NativeFramehopIntegerOverflow
  | NativeUserRegistersMissing.

Definition error_index (k : SampleErrorKind) : nat :=
  match k with
  | NativeRegisterCapture => 0 | NativeStackRead => 1 | NativeStackTruncated => 2
  | NativeFramehopDidNotAdvance => 3 | NativeFramehopReturnAddressNull => 4
  | NativeFramehopMovedBackwards => 5 | NativeFramehopIntegerOverflow => 6 | NativeUserRegistersMissing => 7
  end%nat.

(** [SampleErrorStats::record]: an atomic counter wraps. *)
Definition errors_record (k : SampleErrorKind) (counts : list Z) : list Z :=
  alter (λ count, (count + 1) mod (u64_max + 1)) (error_index k) counts.

(** The fields of [RecordingSummary] that a stack touches. *)
Record summary := mkSummary {
  sm_fallbacks : list Z;
  sm_errors : list Z;
  sm_ignored_user_frames : Z;
}.
Definition record_unwind_error (k : SampleErrorKind) (s : summary) : summary :=
  mkSummary (sm_fallbacks s) (errors_record k (sm_errors s)) (sm_ignored_user_frames s).

(** ** The unwinder's interface *)

(** [FrameAddress] of framehop. *)
Inductive FrameAddress := FromInstructionPointer (ip : Z) | FromReturnAddress (address : Z).
Definition from_return_address (address : Z) : option FrameAddress :=
  if address =? 0 then None else Some (FromReturnAddress address).
Definition address_for_lookup (a : FrameAddress) : Z :=
  match a with FromInstructionPointer ip => ip | FromReturnAddress address => address - 1 end.

(** Why a step used frame pointers; payloads of gimli errors are dropped. *)
Inductive DwarfUnwinderError :=
  | FdeFromOffsetFailed | UnwindInfoForAddressFailed | StackPointerMovedBackwards | DwarfErrorDidNotAdvance
  | CouldNotRecoverCfa | CouldNotRecoverReturnAddress | CouldNotRecoverFramePointer.
Inductive UnwinderError :=
  | ErrorNoModuleUnwindData | EhFrameHdrCouldNotFindAddress | DwarfCfiIndexCouldNotFindAddress
  | DwarfError (e : DwarfUnwinderError) | OtherFormat.
Inductive FramePointerFallbackReason := ReasonNoModule | UnwindInfo (e : UnwinderError).

Record UnwindFrameOutcome := mkOutcome {
  o_return_address : option Z;
  o_fallback_reason : option FramePointerFallbackReason;
}.

(** [P]: a process's unwinder with its cache and its runtime registrations. *)
Class UnwinderWithDetails (P Regs : Type) := {
  unwind_frame_with_details : FrameAddress -> Regs -> (Z -> option Z) -> P -> (Error + UnwindFrameOutcome) * Regs * P;
  is_runtime_frame : P -> FrameAddress -> bool;
  convert_regs : list Z -> option (Z * Z * Regs);
}.

Definition sample_error_for_framehop (e : Error) : SampleErrorKind :=
  match e with
  | CouldNotReadStack _ => NativeStackTruncated
  | DidNotAdvance => NativeFramehopDidNotAdvance
  | ReturnAddressIsNull => NativeFramehopReturnAddressNull
  | FramepointerUnwindingMovedBackwards => NativeFramehopMovedBackwards
  | IntegerOverflow => NativeFramehopIntegerOverflow
  end.

Definition fallback_kind (reason : FramePointerFallbackReason) : UnwindFallbackKind :=
  match reason with
  | ReasonNoModule => NoModule
  | UnwindInfo ErrorNoModuleUnwindData => NoModuleUnwindData
  | UnwindInfo EhFrameHdrCouldNotFindAddress => EhFrameHdrLookup
  | UnwindInfo DwarfCfiIndexCouldNotFindAddress => DwarfCfiIndexLookup
  | UnwindInfo (DwarfError FdeFromOffsetFailed) => DwarfFdeRead
  | UnwindInfo (DwarfError UnwindInfoForAddressFailed) => DwarfUnwindInfo
  | UnwindInfo (DwarfError StackPointerMovedBackwards) => DwarfStackPointerMovedBackwards
  | UnwindInfo (DwarfError DwarfErrorDidNotAdvance) => DwarfDidNotAdvance
  | UnwindInfo (DwarfError CouldNotRecoverCfa) => DwarfCouldNotRecoverCfa
  | UnwindInfo (DwarfError CouldNotRecoverReturnAddress) => DwarfCouldNotRecoverReturnAddress
  | UnwindInfo (DwarfError CouldNotRecoverFramePointer) => DwarfCouldNotRecoverFramePointer
  | UnwindInfo OtherFormat => OtherUnwindFormat
  end.

(** ** The captured stack *)

Inductive Priv := PrivUnknown | PrivKernel | PrivUser | PrivHv | PrivGuestKernel | PrivGuestUser.

Definition is_kernel_mode (p : Priv) : bool :=
  match p with PrivKernel | PrivGuestKernel => true | _ => false end.
Definition stack_mode_from (p : Priv) : StackMode :=
  match p with PrivKernel | PrivHv | PrivGuestKernel => KernelMode | _ => UserMode end.

Definition stack_frame_is_kernel (f : StackFrame) : bool :=
  match f with
  | InstructionPointer _ KernelMode | ReturnAddress _ KernelMode => true
  | _ => false
  end.

(** [u64::from_ne_bytes] on the little-endian targets. *)
Fixpoint word_from_bytes (bytes : list Z) : Z :=
  match bytes with [] => 0 | b :: bytes => b + 256 * word_from_bytes bytes end.

(** The [read_stack] closure over [bytes.as_chunks::<8>()]. *)
Definition read_captured (sp : Z) (bytes : list Z) (addr : Z) : option Z :=
  offset ← checked_sub_u64 addr sp;
  if offset mod 8 =? 0 then
    let index := Z.to_nat (offset / 8) in
    if (index <? length bytes / 8)%nat then Some (word_from_bytes (take 8 (drop (8 * index) bytes))) else None
  else None.

Section build.
Context {P Regs : Type} `{UnwinderWithDetails P Regs}.

Record StackInput := mkInput {
  in_code_addr : option Z;
  in_user_regs : option (list Z);
  in_user_stack : option (list Z);
}.

Record CapturedUserStack := mkCaptured {
  cp_pc : Z;
  cp_sp : Z;
  cp_regs : Regs;
  cp_bytes : list Z;
}.

(** [StackInput::prepare]. *)
Definition prepare (input : StackInput) (privilege : Priv) (s : summary) : option CapturedUserStack * summary :=
  let user_stack := match in_user_stack input with Some [] => None | stack => stack end in
  let s := match in_user_stack input, user_stack with
           | Some _, None => record_unwind_error NativeStackRead s
           | _, _ => s
           end in
  match in_user_regs input, user_stack with
  | Some raw_regs, Some bytes =>
      match convert_regs raw_regs with
      | Some (pc, sp, regs) => (Some (mkCaptured pc sp regs bytes), s)
      | None => (None, record_unwind_error NativeRegisterCapture s)
      end
  | _, _ =>
      if negb (is_kernel_mode privilege) then
        let s := match in_user_regs input with
                 | None => record_unwind_error NativeUserRegistersMissing s
                 | Some _ => s
                 end in
        let s := match in_user_stack input with
                 | None => record_unwind_error NativeStackRead s
                 | Some _ => s
                 end in
        (None, s)
      else (None, s)
  end.

Record UnwindAttempt := mkAttempt {
  at_refresh_address : option Z;
  at_error : option Error;
  at_fallbacks : list Z;
}.
Definition attempt_default : UnwindAttempt := mkAttempt None None fallbacks_default.

Definition consider_refresh (p : P) (address : FrameAddress) (a : UnwindAttempt) : UnwindAttempt :=
  match at_refresh_address a with
  | None => if is_runtime_frame p address
            then mkAttempt (Some (address_for_lookup address)) (at_error a) (at_fallbacks a) else a
  | Some _ => a
  end.
Definition set_error (e : Error) (a : UnwindAttempt) : UnwindAttempt :=
  mkAttempt (at_refresh_address a) (Some e) (at_fallbacks a).
Definition record_fallback (reason : option FramePointerFallbackReason) (a : UnwindAttempt) : UnwindAttempt :=
  match reason with
  | Some reason => mkAttempt (at_refresh_address a) (at_error a)
                     (fallbacks_record (fallback_kind reason) (at_fallbacks a))
  | None => a
  end.

Definition MAX_NATIVE_UNWIND_FRAMES : nat := 1024.

(** The loop; [budget] is what is left of the frame limit.  Returns the frames
    found, whether the stack was truncated, the attempt and the unwinder. *)
Fixpoint unwind_loop (read_stack : Z -> option Z) (budget : nat) (address : FrameAddress) (regs : Regs)
    (a : UnwindAttempt) (p : P) : list StackFrame * bool * UnwindAttempt * P :=
  match budget with
  | O => ([], true, a, p)
  | S budget =>
      match unwind_frame_with_details address regs read_stack p with
      | (inr outcome, regs, p) =>
          let a := match o_fallback_reason outcome with
                   | Some _ => consider_refresh p address a
                   | None => a
                   end in
          match o_return_address outcome with
          | None => ([], false, a, p)
          | Some return_address =>
              match from_return_address return_address with
              | None => ([], true, set_error ReturnAddressIsNull (consider_refresh p address a), p)
              | Some caller =>
                  let a := record_fallback (o_fallback_reason outcome) a in
                  let '(frames, truncated, a, p) := unwind_loop read_stack budget caller regs a p in
                  (ReturnAddress return_address UserMode :: frames, truncated, a, p)
              end
          end
      | (inl err, regs, p) => ([], true, set_error err (consider_refresh p address a), p)
      end
  end.

(** [unwind_captured_stack]: the frames it appends. *)
Definition unwind_captured_stack (capture : CapturedUserStack) (p : P) : list StackFrame * UnwindAttempt * P :=
  let '(frames, truncated, a, p) :=
    unwind_loop (read_captured (cp_sp capture) (cp_bytes capture)) (MAX_NATIVE_UNWIND_FRAMES - 1)
      (FromInstructionPointer (cp_pc capture)) (cp_regs capture) attempt_default p in
  (InstructionPointer (cp_pc capture) UserMode :: frames ++ (if truncated then [TruncatedStackFrame] else []), a, p).

Fixpoint kernel_prefix (frames : list StackFrame) : list StackFrame :=
  match frames with
  | [] => []
  | f :: frames => if stack_frame_is_kernel f then f :: kernel_prefix frames else []
  end.

(** One attempt, and a second one from the same capture when the runtime's
    metadata changed. *)
Definition unwind_with_retry (refresh : Z -> P -> result bool * P) (capture : CapturedUserStack) (p : P)
    : result (list StackFrame * UnwindAttempt) * P :=
  let '(frames, a, p) := unwind_captured_stack capture p in
  match at_refresh_address a with
  | None => (Ok (frames, a), p)
  | Some address =>
      match refresh address p with
      | (Err e, p) => (Err e, p)
      | (Ok false, p) => (Ok (frames, a), p)
      | (Ok true, p) => let '(frames, a, p) := unwind_captured_stack capture p in (Ok (frames, a), p)
      end
  end.

Definition commit_attempt (a : UnwindAttempt) (s : summary) : summary :=
  let s := mkSummary (fallbacks_merge (sm_fallbacks s) (at_fallbacks a)) (sm_errors s) (sm_ignored_user_frames s) in
  match at_error a with
  | Some e => record_unwind_error (sample_error_for_framehop e) s
  | None => s
  end.

Definition build_sample_stack (input : StackInput) (privilege : Priv) (callchain : list StackFrame)
    (refresh : Z -> P -> result bool * P) (p : P) (s : summary) : result (list StackFrame) * P * summary :=
  let kernel_frames := kernel_prefix callchain in
  let ignored := (length callchain - length kernel_frames)%nat in
  let finish (stack : list StackFrame) (p : P) (s : summary) :=
    let stack := match stack, in_code_addr input with
                 | [], Some ip => [InstructionPointer ip (stack_mode_from privilege)]
                 | _, _ => stack
                 end in
    (Ok stack, p, mkSummary (sm_fallbacks s) (sm_errors s)
                    (saturating_add_u64 (sm_ignored_user_frames s) (Z.of_nat ignored))) in
  match prepare input privilege s with
  | (None, s) => finish kernel_frames p s
  | (Some capture, s) =>
      match unwind_with_retry refresh capture p with
      | (Err e, p) => (Err e, p, s)
      | (Ok (frames, a), p) => finish (kernel_frames ++ frames) p (commit_attempt a s)
      end
  end.
End build.

(** ** The shape of a sampled stack *)

Section shape.
Context {P Regs : Type} `{UnwinderWithDetails P Regs}.

(** Frames found by unwinding: return addresses of user code. *)
Definition caller_frame (f : StackFrame) : Prop := exists address, f = ReturnAddress address UserMode /\ address <> 0.

Lemma unwind_loop_frames read_stack budget : forall address regs a p,
  let '(frames, truncated, a', _) := unwind_loop (P := P) (Regs := Regs) read_stack budget address regs a p in
  Forall caller_frame frames /\ (length frames <= budget)%nat /\ (at_error a = None -> is_Some (at_error a') -> truncated = true).
Proof.
  induction budget as [|budget IH]; intros address regs a p; cbn [unwind_loop].
  { split; [constructor|]. split; [done|]. by intros ->; intros [? ?]. }
  destruct (unwind_frame_with_details address regs read_stack p) as [[[err|outcome] regs1] p1].
  { split; [constructor|]. split; [cbn; lia|done]. }
  assert (forall a0, at_error (consider_refresh p1 address a0) = at_error a0) as Hcons.
  { intros a0. unfold consider_refresh. by repeat case_match. }
  destruct (o_return_address outcome) as [ra|].
  2: { split; [constructor|]. split; [cbn; lia|]. intros Ha [e He]. case_match; rewrite ?Hcons in He; congruence. }
  unfold from_return_address. destruct (Z.eqb_spec ra 0) as [|Hne].
  { split; [constructor|]. split; [cbn; lia|done]. }
  set (a1 := record_fallback _ _). specialize (IH (FromReturnAddress ra) regs1 a1 p1).
  destruct (unwind_loop _ _ _ _ _ _) as [[[frames truncated] a'] p'].
  destruct IH as (Hf & Hl & He). split; [constructor; [by exists ra|done]|]. split; [cbn; lia|].
  intros Ha. apply He. unfold a1, record_fallback.
  destruct (o_fallback_reason outcome); cbn; by rewrite ?Hcons.
Qed.

(** A user stack: the sampled instruction, its callers, and a marker when the
    walk was cut short. *)
Definition user_stack_shape (pc : Z) (stack : list StackFrame) : Prop :=
  exists callers marker, stack = InstructionPointer pc UserMode :: callers ++ marker /\
    Forall caller_frame callers /\ (S (length callers) <= MAX_NATIVE_UNWIND_FRAMES)%nat /\
    (marker = [] \/ marker = [TruncatedStackFrame]).

Lemma unwind_captured_shape capture p :
  let '(frames, a, _) := unwind_captured_stack (P := P) (Regs := Regs) capture p in
  user_stack_shape (cp_pc capture) frames /\
  (is_Some (at_error a) -> list.last frames = Some TruncatedStackFrame).
Proof.
  unfold unwind_captured_stack.
  pose proof (unwind_loop_frames (read_captured (cp_sp capture) (cp_bytes capture)) (MAX_NATIVE_UNWIND_FRAMES - 1)
                (FromInstructionPointer (cp_pc capture)) (cp_regs capture) attempt_default p) as Hl.
  destruct (unwind_loop _ _ _ _ _ _) as [[[frames truncated] a] p']. destruct Hl as (Hf & Hlen & He). split.
  - exists frames, (if truncated then [TruncatedStackFrame] else []). split; [done|]. split; [done|].
    split; [unfold MAX_NATIVE_UNWIND_FRAMES in *; lia|]. destruct truncated; auto.
  - intros Herr. rewrite (He eq_refl Herr). change (?x :: ?l ++ [?y]) with ((x :: l) ++ [y]). apply last_snoc.
Qed.

#[local] Opaque unwind_captured_stack.

Lemma unwind_with_retry_shape refresh capture p :
  match unwind_with_retry (P := P) (Regs := Regs) refresh capture p with
  | (Ok (frames, a), _) => user_stack_shape (cp_pc capture) frames /\
      (is_Some (at_error a) -> list.last frames = Some TruncatedStackFrame)
  | (Err _, _) => True
  end.
Proof.
  unfold unwind_with_retry. pose proof (unwind_captured_shape capture p) as H1.
  destruct (unwind_captured_stack capture p) as [[frames a] p1].
  destruct (at_refresh_address a) as [address|]; [|done].
  destruct (refresh address p1) as [[[]|e] p2]; [|done|done].
  pose proof (unwind_captured_shape capture p2) as H2. by destruct (unwind_captured_stack capture p2) as [[? ?] ?].
Qed.

Lemma kernel_prefix_spec frames : kernel_prefix frames `prefix_of` frames /\ Forall (λ f, stack_frame_is_kernel f = true) (kernel_prefix frames).
Proof.
  induction frames as [|f frames [IH1 IH2]]; cbn; [split; [done|constructor]|].
  destruct (stack_frame_is_kernel f) eqn:Hk; [|split; [apply prefix_nil|constructor]].
  split; [by apply prefix_cons|by constructor].
Qed.

(** A sampled stack is the kernel part of the call chain, then, when user
    registers and stack bytes were captured, the sampled user instruction, at
    most 1023 non-zero return addresses and at most one truncation marker, at
    the end; without a capture it is the kernel part, or the
    sampled address alone when there is none.  Building it always ends, and it
    fails only if the runtime refresh fails. *)
Theorem sample_stack_has_shape (input : StackInput) (privilege : Priv) (callchain : list StackFrame)
    (refresh : Z -> P -> result bool * P) (p : P) (s : summary) :
  match build_sample_stack (Regs := Regs) input privilege callchain refresh p s with
  | (Ok stack, _, _) =>
      match (prepare (Regs := Regs) input privilege s).1 with
      | Some capture => exists user, stack = kernel_prefix callchain ++ user /\ user_stack_shape (cp_pc capture) user
      | None => stack = kernel_prefix callchain \/
          (kernel_prefix callchain = [] /\ exists ip, in_code_addr input = Some ip /\
             stack = [InstructionPointer ip (stack_mode_from privilege)])
      end
  | (Err e, _, _) => exists address p', (refresh address p').1 = Err e
  end.
Proof.
  unfold build_sample_stack. destruct (prepare input privilege s) as [[capture|] s1]; cbn [fst].
  - pose proof (unwind_with_retry_shape refresh capture p) as Hs.
    destruct (unwind_with_retry refresh capture p) as [[[frames a]|e] p1] eqn:Hu.
    + destruct Hs as [Hs _]. exists frames. split; [|done].
      destruct (kernel_prefix callchain ++ frames) eqn:Heq; [|done].
      apply app_eq_nil in Heq as [_ ->]. by destruct Hs as (? & ? & ? & _).
    + unfold unwind_with_retry in Hu. destruct (unwind_captured_stack capture p) as [[frames a] p0].
      destruct (at_refresh_address a) as [address|]; [|done]. exists address, p0.
      destruct (refresh address p0) as [[[]|e'] p2]; [|done|by injection Hu as -> _].
      by destruct (unwind_captured_stack capture p2) as [[? ?] ?].
  - destruct (kernel_prefix callchain) as [|f l]; [|by left]. destruct (in_code_addr input) as [ip|]; [|by left].
    right. split; [done|]. by exists ip.
Qed.

(** A second attempt starts over: after a refresh that changed the runtime's
    metadata the stack and the counters are those of unwinding the same capture
    with the refreshed unwinder, and nothing of the first attempt remains. *)
Theorem retried_stack_starts_over (input : StackInput) (privilege : Priv) (callchain : list StackFrame)
    (refresh : Z -> P -> result bool * P) (p : P) (s s1 : summary) (capture : CapturedUserStack)
    (frames : list StackFrame) (a : UnwindAttempt) (p1 : P) (address : Z) (p2 : P) :
  prepare (Regs := Regs) input privilege s = (Some capture, s1) ->
  unwind_captured_stack capture p = (frames, a, p1) -> at_refresh_address a = Some address ->
  refresh address p1 = (Ok true, p2) ->
  let '(frames', a', p3) := unwind_captured_stack capture p2 in
  let '(r, p', s') := build_sample_stack (Regs := Regs) input privilege callchain refresh p s in
  r = Ok (kernel_prefix callchain ++ frames') /\ p' = p3 /\
  sm_fallbacks s' = sm_fallbacks (commit_attempt a' s1) /\ sm_errors s' = sm_errors (commit_attempt a' s1).
Proof.
  intros Hprep Hu Ha Hrefresh. pose proof (unwind_captured_shape capture p2) as Hshape.
  destruct (unwind_captured_stack capture p2) as [[frames' a'] p3] eqn:Hu2. destruct Hshape as [Hshape _].
  unfold build_sample_stack, unwind_with_retry. rewrite Hprep, Hu, Ha, Hrefresh, Hu2.
  destruct (kernel_prefix callchain ++ frames') eqn:Heq; [|done].
  apply app_eq_nil in Heq as [_ ->]. by destruct Hshape as (? & ? & ? & _).
Qed.
End shape.

(** An unwinder whose first metadata version fails in runtime code. *)
#[local] Instance example_unwinder : UnwinderWithDetails bool unit := {|
  unwind_frame_with_details address regs read_stack (refreshed : bool) :=
    (if refreshed
     then inr (mkOutcome (if address_for_lookup address =? 10 then read_stack 20 else None) None)
     else inl DidNotAdvance, regs, refreshed);
  is_runtime_frame _ _ := true;
  convert_regs raw := match raw with [pc; sp] => Some (pc, sp, tt) | _ => None end;
|}.

Lemma retried_stack_starts_over_witness :
  (build_sample_stack (P := bool) (Regs := unit) (mkInput (Some 10) (Some [10; 20]) (Some [7; 0; 0; 0; 0; 0; 0; 0]))
     PrivUser [InstructionPointer 99 KernelMode] (λ _ _, (Ok true, true)) false
     (mkSummary fallbacks_default (replicate 8 0) 0)).1.1 =
  Ok [InstructionPointer 99 KernelMode; InstructionPointer 10 UserMode; ReturnAddress 7 UserMode].
Proof.
  pose proof (retried_stack_starts_over (P := bool) (Regs := unit)
    (mkInput (Some 10) (Some [10; 20]) (Some [7; 0; 0; 0; 0; 0; 0; 0])) PrivUser [InstructionPointer 99 KernelMode]
    (λ _ _, (Ok true, true)) false (mkSummary fallbacks_default (replicate 8 0) 0)
    (mkSummary fallbacks_default (replicate 8 0) 0) (mkCaptured 10 20 tt [7; 0; 0; 0; 0; 0; 0; 0])
    [InstructionPointer 10 UserMode; TruncatedStackFrame] (mkAttempt (Some 10) (Some DidNotAdvance) fallbacks_default)
    false 10 true eq_refl ltac:(vm_compute; reflexivity) eq_refl eq_refl) as Hr.
  destruct (unwind_captured_stack (mkCaptured 10 20 tt [7; 0; 0; 0; 0; 0; 0; 0]) true) as [[frames' a'] p3] eqn:Hu.
  assert (frames' = [InstructionPointer 10 UserMode; ReturnAddress 7 UserMode]) as ->.
  { pose proof (f_equal (λ x, x.1.1) Hu) as Hf. cbn [fst] in Hf. rewrite <- Hf. vm_compute. reflexivity. }
  destruct (build_sample_stack _ _ _ _ _ _) as [[r p'] s']. destruct Hr as [-> _]. reflexivity.
Defined.
