(* ===== verification/Dwarf.v ===== *)
(** * Evaluating DWARF rows

    [crates/framehop-stackpulse/src/dwarf.rs]: the rules of an unwind table row
    and their evaluation against a register state and a stack.  The row itself
    and the evaluator of DWARF expressions come from the [gimli] crate: a row is
    its CFA rule and its register rules, and the evaluator is a record of
    operations ([Evaluator]). *)

From stdpp Require Import prelude list numbers.
From S2P Require Import Prelude SampleStack.
#[local] Open Scope Z_scope.

(** ** Rows *)

(** A DWARF register number, an offset of an expression in its section. *)
Definition Register : Type := Z.

Inductive CfaRule :=
  | CfaRegisterAndOffset (register : Register) (offset : Z)
  | CfaExpression (expr : Z).

Inductive RegisterRule :=
  | RuleUndefined
  | RuleSameValue
  | RuleOffset (offset : Z)
  | RuleValOffset (offset : Z)
  | RuleRegister (register : Register)
  | RuleExpression (expr : Z)
  | RuleValExpression (expr : Z)
  | RuleArchitectural
  | RuleConstant (value : Z).

Record UnwindTableRow := mkRow { row_cfa : CfaRule; row_registers : list (Register * RegisterRule) }.

(** The rule of a register, and [UnwindTableRow::register]. *)
Definition find_rule (rules : list (Register * RegisterRule)) (register : Register) : option RegisterRule :=
  (λ p, snd p.2) <$> list_find (λ p, p.1 = register) rules.
Definition row_register (row : UnwindTableRow) (register : Register) : option RegisterRule :=
  find_rule (row_registers row) register.

Lemma find_rule_cons r rule rules register :
  find_rule ((r, rule) :: rules) register = if decide (r = register) then Some rule else find_rule rules register.
Proof.
  unfold find_rule. cbn. destruct (decide (r = register)); [done|].
  by destruct (list_find (λ p, p.1 = register) rules) as [[]|].
Qed.

Lemma find_rule_None rules register : register ∉ rules.*1 -> find_rule rules register = None.
Proof.
  induction rules as [|[r rule] rules IH]; [done|]. rewrite fmap_cons. intros [Hne Hni]%not_elem_of_cons. cbn in Hne.
  rewrite find_rule_cons, decide_False by congruence. by apply IH.
Qed.

Lemma find_rule_elem rules register rule : find_rule rules register = Some rule -> (register, rule) ∈ rules.
Proof.
  unfold find_rule. intros ([i [r x]] & Hf & ->)%fmap_Some. cbn. apply list_find_Some in Hf as (Hi & Heq & _).
  cbn in Heq. subst r. by eapply list_elem_of_lookup_2.
Qed.

(** A row holds at most one rule for a register, and its offsets are [i64]. *)
Definition register_rule_typed (rule : RegisterRule) : Prop :=
  match rule with RuleOffset offset | RuleValOffset offset => is_i64 offset | _ => True end.
Definition cfa_rule_typed (rule : CfaRule) : Prop :=
  match rule with CfaRegisterAndOffset _ offset => is_i64 offset | CfaExpression _ => True end.
Record row_wf (row : UnwindTableRow) : Prop := {
  rw_nodup : NoDup (row_registers row).*1;
  rw_rules : Forall (λ p, register_rule_typed p.2) (row_registers row);
  rw_cfa : cfa_rule_typed (row_cfa row);
}.

(** ** Integers *)

Definition checked_add_i64 (a b : Z) : option Z :=
  if (i64_min <=? a + b) && (a + b <=? i64_max) then Some (a + b) else None.
Definition u64_try_from (n : Z) : option Z := if (0 <=? n) && (n <=? u64_max) then Some n else None.
Definition u16_try_from (n : Z) : option Z := if (0 <=? n) && (n <=? u16_max) then Some n else None.
Definition i16_try_from (n : Z) : option Z := if (-32768 <=? n) && (n <=? 32767) then Some n else None.
Definition i8_try_from (n : Z) : option Z := if (-128 <=? n) && (n <=? 127) then Some n else None.

(** [u64::try_from(i64::try_from(value).ok()?.checked_add(offset)?).ok()]. *)
Definition add_offset (value offset : Z) : option Z :=
  value ← i64_try_from value; sum ← checked_add_i64 value offset; u64_try_from sum.

(** ** Expressions *)

Inductive EvaluationResult :=
  | Complete
  | RequiresRegister (register : Register)
  | RequiresMemory (address size : Z) (space : option Z)
  | RequiresOther.

Inductive Location :=
  | LocationAddress (address : Z)
  | LocationOther.

Record Encoding := mkEncoding { address_size : Z }.

(** [gimli::Evaluation]: starting the expression at an offset of the section
    with a limit on the iterations, and resuming it with a value.  [None] is an
    error. *)
Record Evaluator := mkEvaluator {
  ev_state : Type;
  ev_evaluate : Encoding -> Z -> Z -> option (EvaluationResult * ev_state);
  ev_resume_with_register : Z -> ev_state -> option (EvaluationResult * ev_state);
  ev_resume_with_memory : Z -> ev_state -> option (EvaluationResult * ev_state);
  ev_last_location : ev_state -> option Location;
}.

(** The iteration limit counts down over the whole evaluation, resumptions included. *)
Record evaluator_ok (ev : Evaluator) : Type := {
  ev_left : ev_state ev -> nat;
  ev_starts_below : forall encoding limit expr r s,
    ev_evaluate ev encoding limit expr = Some (r, s) -> (ev_left s < Z.to_nat limit)%nat;
  ev_register_counts : forall v s r s', ev_resume_with_register ev v s = Some (r, s') -> (ev_left s' < ev_left s)%nat;
  ev_memory_counts : forall v s r s', ev_resume_with_memory ev v s = Some (r, s') -> (ev_left s' < ev_left s)%nat;
}.
Arguments ev_left {_}.

Class DwarfUnwindRegs (UR : Type) := dwarf_get : UR -> Register -> option Z.

Definition MAX_EXPRESSION_ITERATIONS : Z := 1024.

Section eval.
Context {UR : Type} `{!DwarfUnwindRegs UR} (ev : Evaluator) (encoding : Encoding) (read_stack : Z -> option Z).

(** The resumption loop of [eval_expr]; the outer [None] is too little fuel. *)
Fixpoint eval_loop (fuel : nat) (regs : UR) (result : EvaluationResult) (eval : ev_state ev)
    : option (option (ev_state ev)) :=
  match fuel with
  | O => None
  | S fuel =>
      match result with
      | Complete => Some (Some eval)
      | RequiresRegister register =>
          match value ← dwarf_get regs register; ev_resume_with_register ev value eval with
          | Some (result, eval) => eval_loop fuel regs result eval
          | None => Some None
          end
      | RequiresMemory address size space =>
          if bool_decide (is_Some space) || negb (size =? address_size encoding) then Some None
          else match value ← read_stack address; ev_resume_with_memory ev value eval with
               | Some (result, eval) => eval_loop fuel regs result eval
               | None => Some None
               end
      | RequiresOther => Some None
      end
  end.

Definition eval_fuel : nat := S (Z.to_nat MAX_EXPRESSION_ITERATIONS).

Definition eval_expr (expr : Z) (regs : UR) : option Z :=
  '(result, eval) ← ev_evaluate ev encoding MAX_EXPRESSION_ITERATIONS expr;
  eval ← default None (eval_loop eval_fuel regs result eval);
  match ev_last_location ev eval with
  | Some (LocationAddress address) => Some address
  | _ => None
  end.

Definition eval_cfa_rule (rule : CfaRule) (regs : UR) : option Z :=
  match rule with
  | CfaRegisterAndOffset register offset => value ← dwarf_get regs register; add_offset value offset
  | CfaExpression expr => eval_expr expr regs
  end.

Definition eval_register_rule (rule : option RegisterRule) (cfa value : Z) (regs : UR) : option Z :=
  rule ← rule;
  match rule with
  | RuleUndefined => None
  | RuleSameValue => Some value
  | RuleOffset offset => address ← add_offset cfa offset; read_stack address
  | RuleValOffset offset => add_offset cfa offset
  | RuleRegister register => dwarf_get regs register
  | RuleExpression expr => address ← eval_expr expr regs; read_stack address
  | RuleValExpression expr => eval_expr expr regs
  | RuleArchitectural => None
  | RuleConstant value => Some value
  end.

(** ** Termination *)

Lemma eval_loop_done (Hok : evaluator_ok ev) (regs : UR) : forall fuel result eval,
  (ev_left Hok eval < fuel)%nat -> is_Some (eval_loop fuel regs result eval).
Proof.
  induction fuel as [|fuel IH]; intros result eval Hlt; [lia|]. cbn [eval_loop].
  destruct result as [|register|address size space|]; try by eexists.
  - destruct (dwarf_get regs register) as [value|]; cbn [mbind option_bind]; [|by eexists].
    destruct (ev_resume_with_register ev value eval) as [[r s]|] eqn:Hr; [|by eexists].
    apply IH. pose proof (ev_register_counts _ Hok _ _ _ _ Hr). lia.
  - destruct (bool_decide (is_Some space) || negb (size =? address_size encoding)); [by eexists|].
    destruct (read_stack address) as [value|]; cbn [mbind option_bind]; [|by eexists].
    destruct (ev_resume_with_memory ev value eval) as [[r s]|] eqn:Hr; [|by eexists].
    apply IH. pose proof (ev_memory_counts _ Hok _ _ _ _ Hr). lia.
Qed.

(** The iteration limit ends every evaluation within the fuel. *)
Lemma eval_expr_ends (Hok : evaluator_ok ev) (regs : UR) (expr : Z) (result : EvaluationResult) (eval : ev_state ev) :
  ev_evaluate ev encoding MAX_EXPRESSION_ITERATIONS expr = Some (result, eval) ->
  is_Some (eval_loop eval_fuel regs result eval).
Proof.
  intros He. apply (eval_loop_done Hok). pose proof (ev_starts_below _ Hok _ _ _ _ _ He). unfold eval_fuel. lia.
Qed.
End eval.

(** [register_rule_to_cfa_offset]. *)
Definition register_rule_to_cfa_offset (rule : option RegisterRule) : option (option Z) :=
  match rule with
  | None | Some RuleUndefined | Some RuleSameValue => Some None
  | Some (RuleOffset offset) => Some (Some offset)
  | _ => None
  end.

(** ** Results *)

Inductive UnwindResult (R : Type) :=
  | ExecRule (rule : R)
  | ExecRuleWithDwarfRegisterRules (rule : R) (register_rules : Z)
  | ExecRuleWithFallback (rule : R) (error : UnwinderError)
  | Uncacheable (return_address : Z).
Arguments ExecRule {_}.
Arguments ExecRuleWithDwarfRegisterRules {_}.
Arguments ExecRuleWithFallback {_}.
Arguments Uncacheable {_}.

(** ** Offsets *)

Lemma add_offset_Some value offset sum :
  is_u64 value -> is_i64 offset ->
  add_offset value offset = Some sum <-> value <= i64_max /\ sum = value + offset /\ 0 <= sum <= i64_max.
Proof.
  intros Hv Ho. unfold add_offset, i64_try_from, checked_add_i64, u64_try_from. word_unfold. split.
  - intros Hs. repeat first [case_match|progress cbn [mbind option_bind] in Hs]; try done.
    injection Hs as <-. repeat match goal with H : _ && _ = true |- _ => apply andb_true_iff in H as [?%Z.leb_le ?%Z.leb_le] end.
    lia.
  - intros (Hle & -> & Hr).
    repeat (rewrite (proj2 (Z.leb_le _ _)) by lia; cbn [andb mbind option_bind]). done.
Qed.
