(* ===== verification/X86Dwarf.v ===== *)
(** * DWARF unwinding on x86_64

    [crates/framehop-stackpulse/src/x86_64/dwarf.rs]: a row of unwind
    information is either translated into a rule, which the unwinder caches and
    executes, or evaluated on the spot. *)

From stdpp Require Import prelude list numbers.
From S2P Require Import Prelude X86Regs X86Rules X86Unwind SampleStack Dwarf.
#[local] Open Scope Z_scope.

(** ** Registers *)

(** [X86_64::RAX] and so on: the register numbers of the System V ABI. *)
Definition DW_RSP : Register := 7.
Definition DW_RBP : Register := 6.
Definition DW_RA : Register := 16.
Definition dwarf_number (r : Reg) : Register :=
  match r with
  | RAX => 0 | RDX => 1 | RCX => 2 | RBX => 3 | RSI => 4 | RDI => 5 | RBP => DW_RBP | RSP => DW_RSP
  | R8 => 8 | R9 => 9 | R10 => 10 | R11 => 11 | R12 => 12 | R13 => 13 | R14 => 14 | R15 => 15
  end.

(** The table [GENERAL_REGISTERS]. *)
Definition GENERAL_REGISTERS : list (Reg * Register) :=
  (λ r, (r, dwarf_number r)) <$> [RAX; RDX; RCX; RBX; RSI; RDI; R8; R9; R10; R11; R12; R13; R14; R15].

(** The general register with a DWARF number. *)
Definition general_register (register : Register) : option Reg :=
  (λ p, fst p.2) <$> list_find (λ p, p.2 = register) GENERAL_REGISTERS.

Definition x86_dwarf_get (regs : UnwindRegs) (register : Register) : option Z :=
  if register =? DW_RA then Some (r_ip regs)
  else if register =? DW_RSP then Some (r_sp regs)
  else if register =? DW_RBP then Some (r_bp regs)
  else r ← general_register register; get_if_set r regs.
#[global] Instance x86_dwarf_regs : DwarfUnwindRegs UnwindRegs := x86_dwarf_get.

(** ** Translation *)

Definition translate_into_unwind_rule (cfa_rule : CfaRule) (bp_rule ra_rule : option RegisterRule)
    : option UnwindRule :=
  match ra_rule with
  | Some (RuleOffset (-8)) =>
      match cfa_rule with
      | CfaRegisterAndOffset register offset =>
          if (register =? DW_RSP) && (Z.rem offset 8 =? 0) then
            sp_offset_by_8 ← u16_try_from (Z.quot offset 8);
            fp_cfa_offset ← register_rule_to_cfa_offset bp_rule;
            match fp_cfa_offset with
            | None => Some (OffsetSp sp_offset_by_8)
            | Some bp_cfa_offset =>
                if Z.rem bp_cfa_offset 8 =? 0 then
                  bp_offset ← checked_add_i64 offset bp_cfa_offset;
                  bp_storage_offset_from_sp_by_8 ← i16_try_from (Z.quot bp_offset 8);
                  Some (OffsetSpAndRestoreBp sp_offset_by_8 bp_storage_offset_from_sp_by_8)
                else None
            end
          else if register =? DW_RBP then
            bp_cfa_offset ← mjoin (register_rule_to_cfa_offset bp_rule);
            if (offset =? 16) && (bp_cfa_offset =? -16) then Some UseFramePointer else None
          else None
      | CfaExpression _ => None
      end
  | _ => None
  end.

(** The packed form of one register's rule. *)
Definition translate_register_rule (rule : RegisterRule) : option DwarfRegisterRule :=
  match rule with
  | RuleSameValue => Some SameValue
  | RuleUndefined => Some Undefined
  | RuleOffset offset =>
      if Z.rem offset 8 =? 0 then Offset <$> i8_try_from (Z.quot offset 8) else None
  | _ => None
  end.

(** [DWARF_CALLEE_SAVED_REGISTERS.iter().position(..)]. *)
Definition callee_saved_position (register : Reg) : option nat :=
  fst <$> list_find (λ r, r = register) DWARF_CALLEE_SAVED_REGISTERS.

(** The loop over the rules of the row. *)
Fixpoint translate_registers (rules : list (Register * RegisterRule)) (register_rules : list DwarfRegisterRule)
    : option (list DwarfRegisterRule) :=
  match rules with
  | [] => Some register_rules
  | (dwarf_register, rule) :: rules =>
      match general_register dwarf_register with
      | None => translate_registers rules register_rules
      | Some register =>
          rule ← translate_register_rule rule;
          match callee_saved_position register with
          | Some index => translate_registers rules (<[index := rule]> register_rules)
          | None =>
              match rule with
              | Undefined => translate_registers rules register_rules
              | _ => None
              end
          end
      end
  end.

Definition translate_into_register_rules (row : UnwindTableRow) : option Z :=
  pack <$> translate_registers (row_registers row) (replicate 5 SameValue).

(** ** Evaluation *)

Section frame.
Context (ev : Evaluator) (encoding : Encoding) (read_stack : Z -> option Z).

Definition recover_general_register (row : UnwindTableRow) (cfa : Z) (regs : UnwindRegs) (p : Reg * Register)
    : option (Reg * Z) :=
  let current := get_if_set p.1 regs in
  let recovered :=
    match row_register row p.2 with
    | None => if bool_decide (p.1 ∈ DWARF_CALLEE_SAVED_REGISTERS) then current else None
    | Some RuleUndefined => None
    | Some RuleSameValue => current
    | Some rule => eval_register_rule ev encoding read_stack (Some rule) cfa (default 0 current) regs
    end in
  (λ value, (p.1, value)) <$> recovered.

Definition recover_general_registers (row : UnwindTableRow) (cfa : Z) (regs : UnwindRegs) : list (Reg * Z) :=
  omap (recover_general_register row cfa regs) GENERAL_REGISTERS.

(** The rest of [unwind_frame], for a row that has no cacheable rule. *)
Definition evaluate_row (row : UnwindTableRow) (is_first_frame : bool) (regs : UnwindRegs)
    : (DwarfUnwinderError + UnwindResult UnwindRule) * UnwindRegs :=
  match eval_cfa_rule ev encoding read_stack (row_cfa row) regs with
  | None => (inl CouldNotRecoverCfa, regs)
  | Some cfa =>
      let ip := r_ip regs in
      let bp := r_bp regs in
      let sp := r_sp regs in
      let new_bp := default bp (eval_register_rule ev encoding read_stack (row_register row DW_RBP) cfa bp regs) in
      let return_address :=
        match eval_register_rule ev encoding read_stack (row_register row DW_RA) cfa ip regs with
        | Some ra => Some ra
        | None => return_address_location ← checked_sub_u64 cfa 8; read_stack return_address_location
        end in
      match return_address with
      | None => (inl CouldNotRecoverReturnAddress, regs)
      | Some return_address =>
          if (cfa =? sp) && (return_address =? ip) then (inl DwarfErrorDidNotAdvance, regs)
          else if negb is_first_frame && (cfa <? sp) then (inl StackPointerMovedBackwards, regs)
          else
            let restored_regs := recover_general_registers row cfa regs in
            let regs := set_all restored_regs (clear_non_frame_registers regs) in
            let regs := set_sp cfa (set_bp new_bp (set_ip return_address regs)) in
            (inr (Uncacheable return_address), regs)
      end
  end.

(** [<ArchX86_64 as DwarfUnwinding>::unwind_frame]. *)
Definition x86_unwind_frame (row : UnwindTableRow) (is_first_frame : bool) (regs : UnwindRegs)
    : (DwarfUnwinderError + UnwindResult UnwindRule) * UnwindRegs :=
  let bp_rule := row_register row DW_RBP in
  let ra_rule := row_register row DW_RA in
  match ra_rule with
  | None | Some RuleUndefined => (inr (ExecRuleWithDwarfRegisterRules EndOfStack 0), regs)
  | _ =>
      match translate_into_unwind_rule (row_cfa row) bp_rule ra_rule with
      | Some unwind_rule =>
          match translate_into_register_rules row with
          | Some register_rules => (inr (ExecRuleWithDwarfRegisterRules unwind_rule register_rules), regs)
          | None => evaluate_row row is_first_frame regs
          end
      | None => evaluate_row row is_first_frame regs
      end
  end.
End frame.

Definition rule_if_uncovered_by_fde : UnwindRule := JustReturnIfFirstFrameOtherwiseFp.

(** ** Register states *)

Lemma reg_set_comm r r' v v' s : r <> r' -> reg_set r v (reg_set r' v' s) = reg_set r' v' (reg_set r v s).
Proof.
  intros Hne. unfold reg_set. cbn. f_equal.
  - apply list_insert_insert_ne. intros Heq. by apply Hne, (inj reg_index).
  - by rewrite <- !Z.lor_assoc, (Z.lor_comm (valid_reg_bit r')).
Qed.

Lemma set_all_comm r v l s : r ∉ l.*1 -> reg_set r v (set_all l s) = set_all l (reg_set r v s).
Proof.
  unfold set_all. revert s. induction l as [|[r' v'] l IH]; intros s Hni; [done|]. cbn in *.
  apply not_elem_of_cons in Hni as [Hne Hni]. rewrite IH by done. by rewrite reg_set_comm.
Qed.

Lemma set_all_ip ip l s : set_ip ip (set_all l s) = set_all l (set_ip ip s).
Proof. unfold set_all. revert s. by induction l as [|[r v] l IH]; intros s; cbn; [|rewrite IH]. Qed.

(** The registers that packed rules restore, as a list. *)
Definition restored_by (read_stack : Z -> option Z) (rules cfa : Z) (index : nat) (registers : list (Reg * option Z))
    : list (Reg * Z) :=
  omap id (imap (λ k p, (λ v, (p.1, v)) <$> dwarf_value read_stack (unpack rules (index + k)) cfa p.2) registers).

Lemma restore_registers_set_all read_stack rules cfa registers : forall index regs,
  restore_registers read_stack rules cfa index registers regs =
  set_all (restored_by read_stack rules cfa index registers) regs.
Proof.
  unfold restored_by. induction registers as [|[r v] registers IH]; intros index regs; cbn [restore_registers]; [done|].
  rewrite IH. rewrite imap_cons. cbn [fst snd]. rewrite Nat.add_0_r.
  rewrite (imap_ext (_ ∘ S) (λ k p, (λ w, (p.1, w)) <$> dwarf_value read_stack (unpack rules (S index + k)) cfa p.2)).
  - by destruct (dwarf_value read_stack (unpack rules index) cfa v).
  - intros k p _. cbn. do 3 f_equal. lia.
Qed.

(** ** Translated register rules *)

Lemma general_register_number d r : general_register d = Some r -> d = dwarf_number r.
Proof.
  unfold general_register. intros ([i [r' d']] & Hf & ->)%fmap_Some. cbn.
  apply list_find_Some in Hf as (Hi & Heq & _). cbn in Heq. subst d'. apply list_elem_of_lookup_2 in Hi.
  unfold GENERAL_REGISTERS in Hi. apply list_elem_of_fmap in Hi as (r & Heq & _). by simplify_eq.
Qed.

Lemma general_register_of r : r <> RBP -> r <> RSP -> general_register (dwarf_number r) = Some r.
Proof. by destruct r. Qed.

Lemma callee_saved_position_spec r i :
  callee_saved_position r = Some i <-> DWARF_CALLEE_SAVED_REGISTERS !! i = Some r.
Proof.
  split.
  - unfold callee_saved_position. intros ([j r'] & Hf & ->)%fmap_Some. by apply list_find_Some in Hf as (Hi & -> & _).
  - do 5 (destruct i as [|i]; [by intros [= <-]|]). done.
Qed.

Lemma callee_saved_general r i : DWARF_CALLEE_SAVED_REGISTERS !! i = Some r -> r <> RBP /\ r <> RSP.
Proof. do 5 (destruct i as [|i]; [by intros [= <-]|]). done. Qed.

#[global] Instance dwarf_number_inj : Inj (=) (=) dwarf_number.
Proof. intros [] []; cbn; unfold DW_RBP, DW_RSP; congruence. Qed.

(** What the loop over the row leaves in the packed array. *)
Lemma translate_registers_spec rules : forall init out,
  NoDup rules.*1 -> length init = 5%nat -> translate_registers rules init = Some out ->
  length out = 5%nat /\
  (forall i r, DWARF_CALLEE_SAVED_REGISTERS !! i = Some r ->
     match find_rule rules (dwarf_number r) with
     | Some rule => exists packed, translate_register_rule rule = Some packed /\ out !! i = Some packed
     | None => out !! i = init !! i
     end) /\
  (forall r, r <> RBP -> r <> RSP -> callee_saved_position r = None ->
     find_rule rules (dwarf_number r) = None \/ find_rule rules (dwarf_number r) = Some RuleUndefined).
Proof.
  induction rules as [|[d rule] rules IH]; intros init out Hnd Hlen Ht; cbn [translate_registers] in Ht.
  { simplify_eq. split; [done|]. split; [done|]. by left. }
  cbn in Hnd. apply list.NoDup_cons in Hnd as [Hni Hnd].
  destruct (general_register d) as [r0|] eqn:Hg.
  2:{ destruct (IH init out Hnd Hlen Ht) as (Hl & Hsaved & Hother). split; [done|]. split.
      - intros i r Hi. destruct (callee_saved_general r i Hi). rewrite find_rule_cons, decide_False; [by apply Hsaved|].
        intros ->. rewrite general_register_of in Hg; done.
      - intros r Hb Hs. rewrite find_rule_cons, decide_False; [by apply Hother|]. intros ->. rewrite general_register_of in Hg; done. }
  apply general_register_number in Hg as ->. apply bind_Some in Ht as (packed & Hp & Ht).
  destruct (callee_saved_position r0) as [i0|] eqn:Hpos.
  - apply callee_saved_position_spec in Hpos.
    destruct (IH _ out Hnd ltac:(by rewrite length_insert) Ht) as (Hl & Hsaved & Hother). split; [done|]. split.
    + intros i r Hi. specialize (Hsaved i r Hi). rewrite find_rule_cons. destruct (decide (dwarf_number r0 = dwarf_number r)) as [Heq|Hne].
      * apply (inj dwarf_number) in Heq as ->. rewrite find_rule_None in Hsaved by done. exists packed. split; [done|].
        apply callee_saved_position_spec in Hi, Hpos. rewrite Hpos in Hi. simplify_eq. rewrite Hsaved.
        apply list_lookup_insert_eq. apply callee_saved_position_spec, lookup_lt_Some in Hpos. cbn in Hpos. lia.
      * destruct (find_rule rules (dwarf_number r)); [done|]. rewrite Hsaved. apply list_lookup_insert_ne.
        intros ->. congruence.
    + intros r Hb Hs Hnone. rewrite find_rule_cons, decide_False; [by apply Hother|]. intros Heq%(inj dwarf_number). subst r0.
      apply callee_saved_position_spec in Hpos. congruence.
  - destruct packed; try done. destruct (IH init out Hnd Hlen Ht) as (Hl & Hsaved & Hother). split; [done|]. split.
    + intros i r Hi. rewrite find_rule_cons, decide_False; [by apply Hsaved|]. intros Heq%(inj dwarf_number). subst r0.
      apply callee_saved_position_spec in Hi. congruence.
    + intros r Hb Hs Hnone. rewrite find_rule_cons. case_decide as Heq; [|by apply Hother]. right. f_equal.
      unfold translate_register_rule in Hp. destruct rule; try done. case_match; [|done].
      by apply fmap_Some in Hp as (? & _ & ?).
Qed.

(** ** Cached rows *)

(** Readable stack words lie in the lower half of the address space, above the
    unmapped first page. *)
Definition user_stack (read_stack : Z -> option Z) : Prop :=
  forall a v, read_stack a = Some v -> 4096 <= a /\ a + 8 <= i64_max.

Section cached.
Context (ev : Evaluator) (encoding : Encoding) (read_stack : Z -> option Z).
Hypothesis Huser : user_stack read_stack.

(** Reading at an offset of the CFA, with either overflow check. *)
Lemma read_at_offset cfa offset :
  is_u64 cfa -> cfa <= i64_max -> is_i64 offset ->
  (address ← add_offset cfa offset; read_stack address) =
  (address ← checked_add_signed_u64 cfa offset; read_stack address).
Proof.
  intros Hc Hm Ho. unfold checked_add_signed_u64.
  destruct (add_offset cfa offset) as [a|] eqn:Ha; cbn [mbind option_bind].
  - apply add_offset_Some in Ha as (_ & -> & ?); [|done|done].
    by rewrite (proj2 (Z.leb_le _ _)), (proj2 (Z.leb_le _ _)) by word_lia.
  - case_match; [|done]. cbn. destruct (read_stack (cfa + offset)) as [v|] eqn:Hr; [|done].
    apply Huser in Hr. apply andb_true_iff in H as [?%Z.leb_le ?%Z.leb_le].
    assert (add_offset cfa offset = Some (cfa + offset)) as Hs by (apply add_offset_Some; [done|done|word_lia]).
    congruence.
Qed.

(** A packed rule and the rule it was packed from recover the same value. *)
Lemma dwarf_value_translated rule packed cfa r regs :
  is_u64 cfa -> cfa <= i64_max -> register_rule_typed rule -> translate_register_rule rule = Some packed ->
  dwarf_value read_stack packed cfa (get_if_set r regs) =
  match rule with
  | RuleUndefined => None
  | RuleSameValue => get_if_set r regs
  | rule => eval_register_rule ev encoding read_stack (Some rule) cfa (default 0 (get_if_set r regs)) regs
  end.
Proof.
  intros Hc Hm Ht Hp. destruct rule as [| |offset| | | | | |]; cbn in Hp; simplify_eq; [done|done|].
  destruct (Z.eqb_spec (Z.rem offset 8) 0) as [Hz|]; [|done].
  apply fmap_Some in Hp as (q & Hq & ->). unfold i8_try_from in Hq. case_match; [|done]. simplify_eq.
  cbn [dwarf_value eval_register_rule mbind option_bind]. cbn in Ht.
  change (option_bind Z Z (λ address, read_stack address) (add_offset cfa offset))
    with (address ← add_offset cfa offset; read_stack address).
  rewrite read_at_offset by done.
  assert (Z.quot offset 8 * 8 = offset) as -> by (pose proof (Z.quot_rem' offset 8); lia). done.
Qed.

Lemma translated_rule_ok rule packed : translate_register_rule rule = Some packed -> register_rule_ok packed.
Proof.
  destruct rule as [| |offset| | | | | |]; cbn; intros Hp; simplify_eq; [done|done|].
  destruct (Z.rem offset 8 =? 0); [|done]. apply fmap_Some in Hp as (q & Hq & ->).
  unfold i8_try_from in Hq. case_match eqn:Hb; [|done]. simplify_eq. apply andb_true_iff in Hb as [?%Z.leb_le ?%Z.leb_le].
  cbn. lia.
Qed.

(** The packed array of a row. *)
Lemma row_array row out :
  row_wf row -> translate_registers (row_registers row) (replicate 5 SameValue) = Some out ->
  Forall register_rule_ok out /\
  (forall i r cfa regs, DWARF_CALLEE_SAVED_REGISTERS !! i = Some r -> is_u64 cfa -> cfa <= i64_max ->
     recover_general_register ev encoding read_stack row cfa regs (r, dwarf_number r) =
     (λ v, (r, v)) <$> dwarf_value read_stack (unpack (pack out) i) cfa (get_if_set r regs)) /\
  (forall r cfa regs, r <> RBP -> r <> RSP -> callee_saved_position r = None ->
     recover_general_register ev encoding read_stack row cfa regs (r, dwarf_number r) = None).
Proof.
  intros [Hnd Hty _] Ht. destruct (translate_registers_spec _ (replicate 5 SameValue) out Hnd eq_refl Ht) as (Hlen & Hsaved & Hother).
  rewrite list.Forall_forall in Hty.
  assert (Forall register_rule_ok out) as Hok.
  { apply Forall_lookup. intros i packed Hi. pose proof (lookup_lt_Some _ _ _ Hi) as Hlt.
    destruct (lookup_lt_is_Some_2 DWARF_CALLEE_SAVED_REGISTERS i) as [r Hr]; [cbn; lia|].
    specialize (Hsaved i r Hr). destruct (find_rule (row_registers row) (dwarf_number r)).
    - destruct Hsaved as (packed' & Hp & Ho). simplify_eq. by eapply translated_rule_ok.
    - rewrite Hi in Hsaved. rewrite lookup_replicate_2 in Hsaved by lia. by simplify_eq. }
  split; [done|]. split.
  - intros i r cfa regs Hi Hc Hm. specialize (Hsaved i r Hi). unfold recover_general_register. cbn [fst snd].
    rewrite (bool_decide_eq_true_2 (r ∈ _)) by (by eapply list_elem_of_lookup_2). unfold row_register. f_equal.
    destruct (find_rule (row_registers row) (dwarf_number r)) as [rule|] eqn:Hf.
    + destruct Hsaved as (packed & Hp & Ho). rewrite (unpack_pack out i packed Hok Ho).
      apply find_rule_elem, Hty in Hf. rewrite (dwarf_value_translated rule packed) by done. by destruct rule.
    + rewrite lookup_replicate_2 in Hsaved by (apply lookup_lt_Some in Hi; cbn in Hi; lia).
      by rewrite (unpack_pack out i SameValue Hok Hsaved).
  - intros r cfa regs Hb Hs Hnone. unfold recover_general_register, row_register. cbn [fst snd].
    destruct (Hother r Hb Hs Hnone) as [-> | ->]; [|done].
    rewrite bool_decide_eq_false_2; [done|]. intros [i Hi]%list_elem_of_lookup_1.
    apply callee_saved_position_spec in Hi. congruence.
Qed.

(** The packed rules restore what evaluating the row's rules restores. *)
Lemma restored_registers_agree row out cfa regs :
  row_wf row -> translate_registers (row_registers row) (replicate 5 SameValue) = Some out ->
  is_u64 cfa -> cfa <= i64_max ->
  recover_general_registers ev encoding read_stack row cfa regs =
  restored_by read_stack (pack out) cfa 0
    ((λ register, (register, get_if_set register regs)) <$> DWARF_CALLEE_SAVED_REGISTERS).
Proof.
  intros Hwf Ht Hc Hm. destruct (row_array row out Hwf Ht) as (_ & Hsaved & Hother).
  unfold recover_general_registers, GENERAL_REGISTERS, restored_by. rewrite imap_fmap.
  cbn [fmap list_fmap DWARF_CALLEE_SAVED_REGISTERS imap omap list_omap compose fst snd].
  rewrite (Hother RAX), (Hother RDX), (Hother RCX), (Hother RSI), (Hother RDI), (Hother R8), (Hother R9),
    (Hother R10), (Hother R11) by done.
  rewrite (Hsaved 0%nat RBX), (Hsaved 1%nat R12), (Hsaved 2%nat R13), (Hsaved 3%nat R14), (Hsaved 4%nat R15) by done.
  done.
Qed.

(** A register state of a thread: the stack pointer is above the first 256 KiB. *)
Record user_regs (regs : UnwindRegs) : Prop := {
  ur_wf : regs_wf regs;
  ur_sp : 262144 <= r_sp regs <= u64_max;
  ur_bp : is_u64 (r_bp regs);
}.

Lemma eval_cfa_sp offset regs :
  eval_cfa_rule ev encoding read_stack (CfaRegisterAndOffset DW_RSP offset) regs = add_offset (r_sp regs) offset.
Proof. done. Qed.
Lemma eval_cfa_bp offset regs :
  eval_cfa_rule ev encoding read_stack (CfaRegisterAndOffset DW_RBP offset) regs = add_offset (r_bp regs) offset.
Proof. done. Qed.

(** Multiples of 8. *)
Lemma rem_8_add a b : Z.rem a 8 = 0 -> Z.rem b 8 = 0 -> Z.rem (a + b) 8 = 0.
Proof. rewrite !Z.rem_divide by done. apply Z.divide_add_r. Qed.
Lemma quot_mul_8 n : Z.rem n 8 = 0 -> Z.quot n 8 * 8 = n.
Proof. intros Hr. pose proof (Z.quot_rem' n 8). lia. Qed.

Lemma u16_try_from_Some n m : u16_try_from n = Some m -> m = n /\ 0 <= n <= u16_max.
Proof. unfold u16_try_from. case_match eqn:Hb; [|done]. intros [= <-]. apply andb_true_iff in Hb as [?%Z.leb_le ?%Z.leb_le]. lia. Qed.
Lemma i16_try_from_Some n m : i16_try_from n = Some m -> m = n /\ -32768 <= n <= 32767.
Proof. unfold i16_try_from. case_match eqn:Hb; [|done]. intros [= <-]. apply andb_true_iff in Hb as [?%Z.leb_le ?%Z.leb_le]. lia. Qed.
Lemma checked_add_i64_Some a b c : checked_add_i64 a b = Some c -> c = a + b.
Proof. unfold checked_add_i64. case_match; [|done]. by intros [= <-]. Qed.
Lemma checked_add_u64_cases a b : is_u64 a -> 0 <= b ->
  (checked_add_u64 a b = Some (a + b) /\ is_u64 (a + b)) \/ (checked_add_u64 a b = None /\ u64_max < a + b).
Proof.
  intros Ha Hb. unfold checked_add_u64. destruct (Z.leb_spec (a + b) u64_max); [left|right]; (split; [done|word_lia]).
Qed.

Lemma add_offset_None value offset :
  is_u64 value -> is_i64 offset -> i64_max < value + offset \/ i64_max < value -> add_offset value offset = None.
Proof.
  intros Hv Ho Hgt. destruct (add_offset value offset) eqn:He; [|done]. apply add_offset_Some in He as (? & -> & ?); [|done|done]. lia.
Qed.

(** What a translated rule computes is what evaluating the row's CFA and frame
    pointer rules computes. *)
Definition frame_agrees (row : UnwindTableRow) (first : bool) (regs : UnwindRegs)
    (frame : outcome (option (Z * Z * list (Reg * Z)))) : Prop :=
  let cfa := eval_cfa_rule ev encoding read_stack (row_cfa row) regs in
  match frame with
  | Some (inr (Some (new_sp, new_bp, restored))) =>
      restored = [] /\ is_u64 new_sp /\
      ((cfa = Some new_sp /\ new_sp <= i64_max /\ negb first && (new_sp <? r_sp regs) = false /\
        default (r_bp regs) (eval_register_rule ev encoding read_stack (row_register row DW_RBP) new_sp (r_bp regs) regs)
          = new_bp)
       \/ (cfa = None /\ i64_max < new_sp))
  | Some (inr None) => cfa = Some 16
  | Some (inl _) => cfa = None \/ exists c, cfa = Some c /\ negb first && (c <? r_sp regs) = true
  | None => False
  end.

(** A CFA above the stack pointer that does not overflow, and one that leaves the lower half. *)
Lemma sp_frame_agrees row first regs offset new_bp :
  user_regs regs -> row_cfa row = CfaRegisterAndOffset DW_RSP offset -> 0 <= offset <= i64_max ->
  is_u64 (r_sp regs + offset) ->
  (r_sp regs + offset <= i64_max ->
   default (r_bp regs) (eval_register_rule ev encoding read_stack (row_register row DW_RBP) (r_sp regs + offset)
                          (r_bp regs) regs) = new_bp) ->
  frame_agrees row first regs (ret (Some (r_sp regs + offset, new_bp, []))).
Proof.
  intros [_ Hsp _] Hcfa Ho Hu Hbp. unfold frame_agrees. rewrite Hcfa, eval_cfa_sp. cbn [ret]. split; [done|]. split; [done|].
  destruct (Z_le_gt_dec (r_sp regs + offset) i64_max) as [Hle|Hgt]; [left|right].
  - split; [apply add_offset_Some; word_lia|]. split; [done|].
    split; [rewrite (proj2 (Z.ltb_ge _ _)) by lia; by rewrite andb_false_r|]. by apply Hbp.
  - split; [|lia]. apply add_offset_None; word_lia.
Qed.

Lemma sp_overflow_agrees row first regs offset e :
  user_regs regs -> row_cfa row = CfaRegisterAndOffset DW_RSP offset -> is_i64 offset ->
  i64_max < r_sp regs + offset \/ i64_max < r_sp regs -> frame_agrees row first regs (throw e).
Proof.
  intros [_ Hsp _] Hcfa Ho Hgt. unfold frame_agrees. rewrite Hcfa, eval_cfa_sp. left. apply add_offset_None; [word_lia|done|done].
Qed.

Lemma offset_sp_agrees row first regs offset n :
  user_regs regs -> row_cfa row = CfaRegisterAndOffset DW_RSP offset -> is_i64 offset -> Z.rem offset 8 = 0 ->
  u16_try_from (Z.quot offset 8) = Some n -> register_rule_to_cfa_offset (row_register row DW_RBP) = Some None ->
  frame_agrees row first regs (rule_frame read_stack (OffsetSp n) first true regs).
Proof.
  intros Hregs Hcfa Ho Hr [-> Hn]%u16_try_from_Some Hbp. pose proof (ur_sp _ Hregs). cbn [rule_frame].
  rewrite quot_mul_8 by done. pose proof (quot_mul_8 _ Hr).
  unfold add_u64. destruct (checked_add_u64_cases (r_sp regs) offset) as [[-> Hu]|[-> Hgt]]; [word_lia|lia| |];
    cbn [ok_or_throw ret bind].
  - apply sp_frame_agrees; [done|done|word_lia|done|]. intros _.
    destruct (row_register row DW_RBP) as [[]|]; by cbn in Hbp |- *.
  - apply (sp_overflow_agrees _ _ _ offset); [done|done|done|word_lia].
Qed.

Lemma offset_sp_bp_agrees row first regs offset bp_offset sum n m :
  user_regs regs -> row_cfa row = CfaRegisterAndOffset DW_RSP offset -> is_i64 offset -> Z.rem offset 8 = 0 ->
  u16_try_from (Z.quot offset 8) = Some n -> row_register row DW_RBP = Some (RuleOffset bp_offset) ->
  is_i64 bp_offset -> Z.rem bp_offset 8 = 0 -> checked_add_i64 offset bp_offset = Some sum ->
  i16_try_from (Z.quot sum 8) = Some m ->
  frame_agrees row first regs (rule_frame read_stack (OffsetSpAndRestoreBp n m) first true regs).
Proof.
  intros Hregs Hcfa Ho Hr [-> Hn]%u16_try_from_Some Hrow Hbo Hbr ->%checked_add_i64_Some [-> Hm]%i16_try_from_Some.
  pose proof (ur_sp _ Hregs). cbn [rule_frame]. rewrite quot_mul_8 by done.
  rewrite quot_mul_8 by (by apply rem_8_add). pose proof (quot_mul_8 _ Hr). pose proof (quot_mul_8 _ (rem_8_add _ _ Hr Hbr)).
  unfold add_u64. destruct (checked_add_u64_cases (r_sp regs) offset) as [[-> Hu]|[-> Hgt]]; [word_lia|lia| |];
    cbn [ok_or_throw ret bind]; [|apply (sp_overflow_agrees _ _ _ offset); [done|done|done|word_lia]].
  unfold checked_add_signed_u64. rewrite (proj2 (Z.leb_le 0 _)) by word_lia. cbn [andb].
  destruct (Z.leb_spec (r_sp regs + (offset + bp_offset)) u64_max) as [Hloc|Hloc]; cbn [ok_or_throw ret bind orb];
    [|apply (sp_overflow_agrees _ _ _ offset); [done|done|done|word_lia]].
  assert (forall bp, bp = default (r_bp regs) (read_stack (r_sp regs + (offset + bp_offset))) ->
    frame_agrees row first regs (ret (Some (r_sp regs + offset, bp, [])))) as Hgoal.
  { intros bp ->. apply sp_frame_agrees; [done|done|word_lia|done|]. intros Hle. f_equal. rewrite Hrow.
    cbn [eval_register_rule mbind option_bind].
    change (option_bind Z Z (λ address, read_stack address) (add_offset (r_sp regs + offset) bp_offset))
      with (address ← add_offset (r_sp regs + offset) bp_offset; read_stack address).
    rewrite read_at_offset by (done || word_lia). unfold checked_add_signed_u64. rewrite <- Z.add_assoc.
    rewrite (proj2 (Z.leb_le 0 _)), (proj2 (Z.leb_le _ u64_max)) by word_lia. done. }
  destruct (read_stack (r_sp regs + (offset + bp_offset))) as [v|] eqn:Hread; by apply Hgoal; rewrite ?Hread.
Qed.

Lemma frame_pointer_agrees row first regs :
  user_regs regs -> row_cfa row = CfaRegisterAndOffset DW_RBP 16 -> row_register row DW_RBP = Some (RuleOffset (-16)) ->
  frame_agrees row first regs (rule_frame read_stack UseFramePointer first true regs).
Proof.
  intros [_ Hsp Hbp] Hcfa Hrow. unfold frame_agrees. rewrite Hcfa, eval_cfa_bp, Hrow. cbn [rule_frame].
  destruct (Z.eqb_spec (r_bp regs) 0) as [->|Hnz]; [done|].
  unfold add_u64. destruct (checked_add_u64_cases (r_bp regs) 16) as [[-> Hu]|[-> Hgt]]; [done|done| |];
    cbn [ok_or_throw ret bind]; [|left; apply add_offset_None; word_lia].
  assert (add_offset (r_bp regs) 16 = Some (r_bp regs + 16) /\ r_bp regs + 16 <= i64_max \/
    add_offset (r_bp regs) 16 = None /\ i64_max < r_bp regs + 16) as Hadd.
  { destruct (Z_le_gt_dec (r_bp regs + 16) i64_max); [left|right]; (split; [|lia]).
    - apply add_offset_Some; word_lia.
    - apply add_offset_None; word_lia. }
  destruct (negb first && (r_bp regs + 16 <? r_sp regs)) eqn:Hback.
  { destruct Hadd as [[-> _]|[-> _]]; [right|by left]. by eexists. }
  assert (forall bp, bp = default (r_bp regs) (read_stack (r_bp regs)) ->
    [] = [] :> list (Reg * Z) /\ is_u64 (r_bp regs + 16) /\
    (add_offset (r_bp regs) 16 = Some (r_bp regs + 16) /\ r_bp regs + 16 <= i64_max /\
       negb first && (r_bp regs + 16 <? r_sp regs) = false /\
       default (r_bp regs) (eval_register_rule ev encoding read_stack (Some (RuleOffset (-16))) (r_bp regs + 16)
                              (r_bp regs) regs) = bp \/
     add_offset (r_bp regs) 16 = None /\ i64_max < r_bp regs + 16)) as Hgoal.
  { intros bp ->. split; [done|]. split; [done|]. destruct Hadd as [[-> Hle]|[-> Hgt]]; [left|by right].
    do 3 (split; [done|]). f_equal. cbn [eval_register_rule mbind option_bind].
    assert (add_offset (r_bp regs + 16) (-16) = Some (r_bp regs)) as -> by (apply add_offset_Some; word_lia). done. }
  destruct (read_stack (r_bp regs)) as [v|] eqn:Hread; cbn [ret]; apply Hgoal; by rewrite ?Hread.
Qed.

Lemma translated_frame row first regs rule :
  user_regs regs -> row_wf row ->
  translate_into_unwind_rule (row_cfa row) (row_register row DW_RBP) (row_register row DW_RA) = Some rule ->
  row_register row DW_RA = Some (RuleOffset (-8)) /\ no_pops rule /\
  frame_agrees row first regs (rule_frame read_stack rule first true regs).
Proof.
  intros Hregs [_ Hty Hcty] Ht. unfold translate_into_unwind_rule in Ht.
  destruct (row_register row DW_RA) as [[]|]; try done. destruct (decide (offset = -8)) as [->|Hne]; [|repeat case_match; done].
  split; [done|]. destruct (row_cfa row) as [register cfa_offset|] eqn:Hcfa; [|done]. cbn in Hcty.
  destruct (Z.eqb_spec register DW_RSP) as [->|Hsp].
  - destruct (Z.eqb_spec (Z.rem cfa_offset 8) 0) as [Hr|]; [|done]. cbn [andb] in Ht.
    apply bind_Some in Ht as (n & Hn & Ht). apply bind_Some in Ht as (fp & Hfp & Ht). destruct fp as [bp_offset|].
    + destruct (Z.eqb_spec (Z.rem bp_offset 8) 0) as [Hbr|]; [|done].
      apply bind_Some in Ht as (sum & Hsum & Ht). apply bind_Some in Ht as (m & Hm & Ht). simplify_eq.
      destruct (row_register row DW_RBP) as [[]|] eqn:Hrow; try done. cbn in Hfp. simplify_eq. split; [done|].
      unfold row_register in Hrow. pose proof (find_rule_elem _ _ _ Hrow) as Hel. rewrite list.Forall_forall in Hty.
      apply Hty in Hel. by eapply offset_sp_bp_agrees.
    + simplify_eq. split; [done|]. by eapply offset_sp_agrees.
  - cbn [andb] in Ht. destruct (Z.eqb_spec register DW_RBP) as [->|]; [|done].
    apply bind_Some in Ht as (bp_offset & Hbp & Ht).
    destruct (Z.eqb_spec cfa_offset 16) as [->|]; [|done]. destruct (Z.eqb_spec bp_offset (-16)) as [->|]; [|done].
    cbn in Ht. simplify_eq. split; [done|]. apply frame_pointer_agrees; [done|done|].
    destruct (row_register row DW_RBP) as [[]|]; try done. cbn in Hbp. by simplify_eq.
Qed.

(** The return address, read with or without the row's rule. *)
Lemma return_address_read cfa ip regs :
  is_u64 cfa -> cfa <= i64_max ->
  match eval_register_rule ev encoding read_stack (Some (RuleOffset (-8))) cfa ip regs with
  | Some ra => Some ra
  | None => return_address_location ← checked_sub_u64 cfa 8; read_stack return_address_location
  end = (return_address_location ← checked_sub_u64 cfa 8; read_stack return_address_location).
Proof.
  intros Hc Hm. cbn [eval_register_rule mbind option_bind]. unfold checked_sub_u64.
  destruct (add_offset cfa (-8)) as [a|] eqn:Ha; cbn; [|done]. apply add_offset_Some in Ha as (_ & -> & ?); [|done|done].
  rewrite (proj2 (Z.leb_le 8 cfa)) by lia. cbn [mbind option_bind].
  replace (cfa + -8) with (cfa - 8) by lia. by destruct (read_stack (cfa - 8)).
Qed.

(** The register state of the caller, with the sets in either order. *)
Lemma caller_state restored cfa bp ra regs :
  RSP ∉ restored.*1 -> RBP ∉ restored.*1 ->
  set_sp cfa (set_bp bp (set_ip ra (set_all restored (clear_non_frame_registers regs)))) =
  set_all restored (caller_regs cfa bp ra [] regs).
Proof.
  intros Hs Hb. unfold caller_regs, set_sp, set_bp. rewrite set_all_ip, set_all_comm, set_all_comm by done.
  by rewrite reg_set_comm.
Qed.

Lemma restored_by_fst rules cfa index registers r :
  r ∉ registers.*1 -> r ∉ (restored_by read_stack rules cfa index registers).*1.
Proof.
  unfold restored_by. intros Hni Hin. apply Hni. apply list_elem_of_fmap in Hin as ([r' v] & -> & Hin).
  apply list_elem_of_omap in Hin as (o & Ho & Hid). cbn in Hid. subst o.
  apply elem_of_lookup_imap in Ho as (k & p & Heq & Hk). symmetry in Heq. apply fmap_Some in Heq as (w & _ & Heq).
  simplify_eq. apply list_elem_of_fmap. exists p. split; [done|]. by eapply list_elem_of_lookup_2.
Qed.

(** How a cached rule and the evaluation of its row compare. *)
Definition cached_agrees (regs : UnwindRegs) (cached : outcome (option Z) * UnwindRegs)
    (evaluated : (DwarfUnwinderError + UnwindResult UnwindRule) * UnwindRegs) : Prop :=
  match cached.1 with
  | Some (inr (Some ra)) => evaluated = (inr (Uncacheable ra), cached.2)
  | Some (inr None) => cached.2 = regs /\ ((exists e, evaluated = (inl e, regs)) \/ evaluated.1 = inr (Uncacheable 0))
  | Some (inl _) => cached.2 = regs /\ exists e, evaluated = (inl e, regs)
  | None => False
  end.

Lemma evaluate_row_result row first regs :
  (exists e, evaluate_row ev encoding read_stack row first regs = (inl e, regs)) \/
  exists ra, (evaluate_row ev encoding read_stack row first regs).1 = inr (Uncacheable ra).
Proof.
  unfold evaluate_row. repeat case_match; first [by left; eexists|by right; eexists].
Qed.

Lemma x86_unwind_frame_rule row first regs rule rules :
  rule <> EndOfStack ->
  x86_unwind_frame ev encoding read_stack row first regs =
    (inr (ExecRuleWithDwarfRegisterRules rule rules), regs) ->
  translate_into_unwind_rule (row_cfa row) (row_register row DW_RBP) (row_register row DW_RA) = Some rule /\
  exists out, translate_registers (row_registers row) (replicate 5 SameValue) = Some out /\ rules = pack out.
Proof.
  intros Hend Hx. unfold x86_unwind_frame in Hx.
  assert (evaluate_row ev encoding read_stack row first regs <>
    (inr (ExecRuleWithDwarfRegisterRules rule rules), regs)) as Hne.
  { intros He. destruct (evaluate_row_result row first regs) as [[e Hr]|[ra Hr]]; rewrite He in Hr; done. }
  destruct (translate_into_unwind_rule _ _ _) as [rule'|] eqn:Ht; [|repeat case_match; by simplify_eq].
  destruct (translate_into_register_rules row) as [rules'|] eqn:Hr; [|repeat case_match; by simplify_eq].
  apply fmap_Some in Hr as (out & Hout & ->). assert (rule' = rule /\ pack out = rules) as [-> <-]; [|eauto].
  repeat case_match; by simplify_eq.
Qed.

(** Evaluation fails when the CFA does, and when it moves the stack backwards. *)
Lemma evaluate_row_back row first regs c :
  eval_cfa_rule ev encoding read_stack (row_cfa row) regs = Some c -> negb first && (c <? r_sp regs) = true ->
  exists e, evaluate_row ev encoding read_stack row first regs = (inl e, regs).
Proof. intros Hc Hb. unfold evaluate_row. rewrite Hc, Hb. repeat case_match; by eexists. Qed.

Lemma evaluate_row_no_return row first regs c :
  row_register row DW_RA = Some (RuleOffset (-8)) -> is_u64 c -> c <= i64_max ->
  eval_cfa_rule ev encoding read_stack (row_cfa row) regs = Some c ->
  (return_address_location ← checked_sub_u64 c 8; read_stack return_address_location) = None ->
  evaluate_row ev encoding read_stack row first regs = (inl CouldNotRecoverReturnAddress, regs).
Proof. intros Hra Hu Hm Hc Hr. unfold evaluate_row. by rewrite Hc, Hra, return_address_read, Hr. Qed.

(** C29: a DWARF row that the unwinder translates into a cached rule recovers
    exactly what evaluating the row would: the same return address and the same
    register state, or a failure of both; where the cached rule reports the end
    of the stack, the evaluation fails or finds a null return address. *)
Theorem cached_row_is_evaluated_row (row : UnwindTableRow) (first : bool) (regs : UnwindRegs) (rule : UnwindRule) (rules : Z) :
  user_regs regs -> row_wf row -> rule <> EndOfStack ->
  x86_unwind_frame ev encoding read_stack row first regs =
    (inr (ExecRuleWithDwarfRegisterRules rule rules), regs) ->
  cached_agrees regs (exec_with_dwarf_register_rules read_stack rule rules first regs)
    (evaluate_row ev encoding read_stack row first regs).
Proof.
  intros Hregs Hwf Hend Hx. apply x86_unwind_frame_rule in Hx as (Ht & out & Hout & ->); [|done].
  destruct (translated_frame row first regs rule Hregs Hwf Ht) as (Hra & Hn & Hf).
  unfold exec_with_dwarf_register_rules, exec_impl.
  destruct (rule_frame read_stack rule first true regs) as [[e|[[[new_sp new_bp] restored]|]]|]; cbn in Hf.
  - split; [done|]. cbn. destruct Hf as [Hc|(c & Hc & Hb)]; [|by eapply evaluate_row_back].
    unfold evaluate_row. rewrite Hc. by eexists.
  - destruct Hf as (-> & Hu & Hf). unfold checked_sub_u64.
    assert (i64_max < new_sp -> read_stack (new_sp - 8) = None) as Hhigh.
    { intros Hgt. destruct (read_stack (new_sp - 8)) as [v|] eqn:Hr; [|done]. apply Huser in Hr. lia. }
    destruct Hf as [(Hc & Hm & Hb & Hbp)|[Hc Hgt]].
    + pose proof (evaluate_row_no_return row first regs new_sp Hra Hu Hm Hc) as Hno. unfold checked_sub_u64 in Hno.
      destruct (8 <=? new_sp) eqn:H8; [|split; [done|]; eexists; by apply Hno]. cbn [mbind option_bind] in Hno.
      destruct (read_stack (new_sp - 8)) as [ra|] eqn:Hr; [|split; [done|]; eexists; by apply Hno].
      unfold evaluate_row. rewrite Hc, Hra, return_address_read by done. unfold checked_sub_u64. rewrite H8.
      cbn [mbind option_bind]. rewrite Hr, Hb, Hbp.
      destruct (Z.eqb_spec ra 0) as [->|Hnz].
      { split; [done|]. case_match; [left; by eexists|by right]. }
      destruct ((new_sp =? r_sp regs) && (ra =? r_ip regs)); [split; [done|]; by eexists|].
      unfold cached_agrees. cbn [fst snd ret]. f_equal.
      assert (r_sp (caller_regs new_sp new_bp ra [] regs) = new_sp) as ->.
      { unfold caller_regs, set_bp, r_sp. rewrite get_set_ne by done. apply get_set.
        apply (ur_wf _ Hregs). }
      rewrite restore_registers_set_all, <- (restored_registers_agree row out) by done. apply caller_state.
      all: rewrite (restored_registers_agree row out) by done; apply restored_by_fst; rewrite <- list_fmap_compose;
        apply (bool_decide_unpack _); by vm_compute.
    + rewrite (proj2 (Z.leb_le 8 new_sp)) by word_lia. rewrite Hhigh by done. split; [done|]. unfold evaluate_row. rewrite Hc. by eexists.
  - split; [done|]. left. eexists. apply (evaluate_row_no_return row first regs 16); [done|done|done|done|].
    cbn. destruct (read_stack 8) as [v|] eqn:Hr; [|done]. apply Huser in Hr. lia.
  - done.
Qed.
End cached.

(** ** An example *)

(** An evaluator that rejects every expression. *)
Definition no_expressions : Evaluator :=
  mkEvaluator unit (λ _ _ _, None) (λ _ _, None) (λ _ _, None) (λ _, None).

(** After [push rbp; push rbx]: the CFA is [rsp + 24]. *)
Definition example_row : UnwindTableRow :=
  mkRow (CfaRegisterAndOffset DW_RSP 24)
    [(DW_RA, RuleOffset (-8)); (DW_RBP, RuleOffset (-16)); (dwarf_number RBX, RuleOffset (-24))].
Definition example_row_stack (a : Z) : option Z :=
  if a =? 1048576 then Some 7 else if a =? 1048584 then Some 1048800
  else if a =? 1048592 then Some 4198400 else None.
Definition example_row_regs : UnwindRegs := reg_set RBX 3 (regs_new 4194304 1048576 1048700).

Lemma example_row_wf : row_wf example_row.
Proof.
  split; [|repeat constructor; word_unfold; lia|cbn; word_unfold; lia]. apply (bool_decide_unpack _). by vm_compute.
Qed.

Lemma example_row_user : user_stack example_row_stack.
Proof. intros a v. unfold example_row_stack. repeat case_match; intros [= <-]; word_unfold; lia. Qed.

Lemma example_row_user_regs : user_regs example_row_regs.
Proof. split; [done|vm_compute; split; discriminate|vm_compute; split; discriminate]. Qed.

Lemma cached_row_is_evaluated_row_witness :
  exec_with_dwarf_register_rules example_row_stack (OffsetSpAndRestoreBp 3 1) 765 true example_row_regs =
    (ret (Some 4198400), reg_set RBX 7 (set_bp 1048800 (set_sp 1048600 (mkRegs 4198400 (r_regs example_row_regs) 192)))) /\
  cached_agrees example_row_regs
    (exec_with_dwarf_register_rules example_row_stack (OffsetSpAndRestoreBp 3 1) 765 true example_row_regs)
    (evaluate_row no_expressions (mkEncoding 8) example_row_stack example_row true example_row_regs).
Proof.
  split; [by vm_compute|].
  pose proof (cached_row_is_evaluated_row no_expressions (mkEncoding 8) example_row_stack
    example_row_user example_row true example_row_regs (OffsetSpAndRestoreBp 3 1) 765
    example_row_user_regs example_row_wf ltac:(discriminate) ltac:(by vm_compute)) as Hw. exact Hw.
Defined.
