(* ===== verification/FdeIndex.v ===== *)
(** * Finding the FDE of an address

    The two indexes of [crates/framehop-stackpulse/src/dwarf.rs] that map a code
    address to its frame description entry: [DwarfCfiIndex], built when a module
    without a search table is added, and [EhFrameHdrTable], which searches the
    table of an [.eh_frame_hdr] section in place. *)

From stdpp Require Import prelude list numbers sorting.
From S2P Require Import Prelude SampleStack.
#[local] Open Scope Z_scope.

(** ** [slice::binary_search_by] *)

Section search.
Context {A : Type} (f : A -> comparison) (l : list A).

Definition probe (i : nat) : comparison := match l !! i with Some x => f x | None => Gt end.

Fixpoint search_loop (fuel size base : nat) : nat :=
  match fuel with
  | O => base
  | S fuel =>
      if (size <=? 1)%nat then base
      else
        let half := (size / 2)%nat in
        let mid := (base + half)%nat in
        search_loop fuel (size - half) (match probe mid with Gt => base | _ => mid end)
  end.

(** [inr] is [Ok], [inl] is [Err] with the insertion point. *)
Definition binary_search_by : nat + nat :=
  if (length l =? 0)%nat then inl 0%nat
  else
    let base := search_loop (length l) (length l) 0 in
    match probe base with
    | Eq => inr base
    | Lt => inl (S base)
    | Gt => inl base
    end.
End search.

Definition binary_search (l : list Z) (x : Z) : nat + nat := binary_search_by (λ y, y ?= x) l.

(** ** [DwarfCfiIndex] *)

Section index.
Context {GimliError : Type}.

Inductive DwarfCfiIndexError :=
  | Gimli (e : GimliError)
  | CouldNotSubtractBaseAddress
  | RelativeAddressTooBig
  | FdeOffsetTooBig.

Record DwarfCfiIndex := mkIndex { sorted_fde_pc_starts : list Z; fde_offsets : list Z }.

(** An entry of the section as [gimli] yields it: an error, a CIE, or an FDE
    with its initial address and its offset. *)
Inductive SectionEntry :=
  | EntryError (e : GimliError)
  | EntryCie
  | EntryFde (initial_address offset : Z).

Fixpoint collect_fdes (base_svma : Z) (entries : list SectionEntry) : DwarfCfiIndexError + list (Z * Z) :=
  match entries with
  | [] => inr []
  | EntryError e :: _ => inl (Gimli e)
  | EntryCie :: entries => collect_fdes base_svma entries
  | EntryFde pc offset :: entries =>
      match checked_sub_u64 pc base_svma with
      | None => inl CouldNotSubtractBaseAddress
      | Some relative_pc =>
          match u32_try_from relative_pc with
          | None => inl RelativeAddressTooBig
          | Some relative_pc =>
              match u32_try_from offset with
              | None => inl FdeOffsetTooBig
              | Some fde_offset =>
                  match collect_fdes base_svma entries with
                  | inl e => inl e
                  | inr rest => inr ((relative_pc, fde_offset) :: rest)
                  end
              end
          end
      end
  end.

(** [sort_by_key(|(pc, _)| *pc)]: a stable insertion of the entries in order. *)
Fixpoint insert_by_pc (e : Z * Z) (l : list (Z * Z)) : list (Z * Z) :=
  match l with
  | [] => [e]
  | x :: l' => if e.1 <? x.1 then e :: l else x :: insert_by_pc e l'
  end.
Definition sort_by_pc (l : list (Z * Z)) : list (Z * Z) := foldl (λ sorted e, insert_by_pc e sorted) [] l.

Definition cfi_index_try_new (base_svma : Z) (entries : list SectionEntry) : DwarfCfiIndexError + DwarfCfiIndex :=
  match collect_fdes base_svma entries with
  | inl e => inl e
  | inr fdes => let fdes := sort_by_pc fdes in inr (mkIndex fdes.*1 fdes.*2)
  end.

(** [DwarfCfiIndex::fde_offset_for_relative_address]; the outer [None] is an
    index out of bounds. *)
Definition cfi_index_lookup (index : DwarfCfiIndex) (rel_lookup_address : Z) : option (option Z) :=
  match binary_search (sorted_fde_pc_starts index) rel_lookup_address with
  | inl O => Some None
  | inr i => Some <$> fde_offsets index !! i
  | inl (S i) => Some <$> fde_offsets index !! i
  end.
End index.
Arguments DwarfCfiIndexError : clear implicits.
Arguments SectionEntry : clear implicits.

(** ** [EhFrameHdrTable] *)

(** [gimli::BaseAddresses], as far as this crate fills it in. *)
Record BaseAddresses := mkBases {
  ba_eh_frame : option Z;
  ba_eh_frame_hdr : option Z;
  ba_text : option Z;
  ba_got : option Z;
}.

Record EhFrameHdrTable := mkTable {
  t_fde_count : Z;
  t_base_svma : Z;
  t_eh_frame_hdr_svma : Z;
  t_eh_frame_ptr : Z;
}.

Definition TABLE_OFFSET : Z := 12.
Definition ROW_SIZE : Z := 8.
Definition DW_EH_PE_udata4 : Z := 3.
Definition DW_EH_PE_sdata4 : Z := 11.
Definition DW_EH_PE_datarel : Z := 48.

(** [slice.get(offset..)?.first_chunk::<4>()], as a little-endian number. *)
Definition read_u32_at (data : list Z) (offset : Z) : option Z :=
  let chunk := take 4 (drop (Z.to_nat offset) data) in
  if (length chunk =? 4)%nat then Some (word_from_bytes chunk) else None.
Definition i32_of_u32 (n : Z) : Z := if n <=? i32_max then n else n - (u32_max + 1).
Definition wrapping_add_u64 (a b : Z) : Z := (a + b) mod (u64_max + 1).

Section table.
(** [EhFrameHdr::parse] and the direct [.eh_frame] pointer of the header. *)
Context (eh_frame_ptr_of : list Z -> BaseAddresses -> option Z).

Definition hdr_table_try_new (data : list Z) (bases : BaseAddresses) (base_svma : Z) : option EhFrameHdrTable :=
  match data with
  | version :: eh_frame_ptr_enc :: fde_count_enc :: table_enc :: _ =>
      let format := Z.land eh_frame_ptr_enc 15 in
      if (version =? 1) && ((format =? DW_EH_PE_udata4) || (format =? DW_EH_PE_sdata4))
         && (fde_count_enc =? DW_EH_PE_udata4) && (table_enc =? Z.lor DW_EH_PE_datarel DW_EH_PE_sdata4)
      then
        eh_frame_ptr ← eh_frame_ptr_of data bases;
        fde_count ← read_u32_at data 8;
        table_end ← checked_add_u64 (fde_count * ROW_SIZE) TABLE_OFFSET;
        if (fde_count =? 0) || (Z.of_nat (length data) <? table_end) then None
        else eh_frame_hdr_svma ← ba_eh_frame_hdr bases;
             Some (mkTable fde_count base_svma eh_frame_hdr_svma eh_frame_ptr)
      else None
  | _ => None
  end.
End table.

Definition read_pointer (t : EhFrameHdrTable) (table : list Z) (offset : Z) : option Z :=
  value ← read_u32_at table offset;
  Some (wrapping_add_u64 (t_eh_frame_hdr_svma t) (i32_of_u32 value)).

(** The search loop; [None] is a failed read. *)
Fixpoint hdr_search (fuel : nat) (t : EhFrameHdrTable) (table : list Z) (lookup_svma row len : Z) : option Z :=
  match fuel with
  | O => None
  | S fuel =>
      if len <=? 1 then Some row
      else
        let pivot := row + len / 2 in
        location ← read_pointer t table (pivot * ROW_SIZE);
        match location ?= lookup_svma with
        | Eq => Some pivot
        | Lt => hdr_search fuel t table lookup_svma pivot (len - len / 2)
        | Gt => hdr_search fuel t table lookup_svma row (len / 2)
        end
  end.

(** The loop halves a [u32] count. *)
Definition search_fuel : nat := 34.

(** [EhFrameHdrTable::fde_offset_for_relative_address]; the outer [None] is an
    arithmetic overflow. *)
Definition hdr_table_lookup (t : EhFrameHdrTable) (data : list Z) (rel_lookup_address : Z) : option (option Z) :=
  lookup_svma ← checked_add_u64 (t_base_svma t) rel_lookup_address;
  let table := drop (Z.to_nat TABLE_OFFSET) data in
  Some (
    if Z.of_nat (length data) <? TABLE_OFFSET then None
    else
      first ← read_pointer t table 0;
      if lookup_svma <? first then None
      else
        row ← hdr_search search_fuel t table lookup_svma 0 (t_fde_count t);
        fde_ptr ← read_pointer t table (row * ROW_SIZE + 4);
        offset ← checked_sub_u64 fde_ptr (t_eh_frame_ptr t);
        u32_try_from offset).

(** ** Binary search *)

(** Keys in ascending order. *)
Definition ascending_keys {A} (key : A -> Z) (l : list A) : Prop :=
  forall i j x y, (i <= j)%nat -> l !! i = Some x -> l !! j = Some y -> key x <= key y.

Lemma ascending_keys_cons {A} (key : A -> Z) (x : A) l :
  (forall y, y ∈ l -> key x <= key y) -> ascending_keys key l -> ascending_keys key (x :: l).
Proof.
  intros Hx Hl [|i] [|j] a b Hij Ha Hb; cbn in *; simplify_eq; [done| |lia|eapply (Hl i j); eauto; lia].
  apply Hx. by eapply list_elem_of_lookup_2.
Qed.

Lemma ascending_keys_sorted {A} (key : A -> Z) l : StronglySorted (λ a b, key a <= key b) l -> ascending_keys key l.
Proof.
  induction 1 as [|x l Hl IH Hx]; [by intros ? ? ? ? ? ?|]. apply ascending_keys_cons; [|done].
  intros y Hy. rewrite list.Forall_forall in Hx. by apply Hx.
Qed.

Section search_proof.
Context {A : Type} (key : A -> Z) (l : list A) (target : Z).
Hypothesis Hasc : ascending_keys key l.
#[local] Abbreviation f := (λ x, key x ?= target).

(** Everything from [n] on is above the target. *)
Definition above_from (n : nat) : Prop := forall j x, (n <= j)%nat -> l !! j = Some x -> target < key x.

Lemma above_from_lookup n x : l !! n = Some x -> target < key x -> above_from n.
Proof. intros Hn Hlt j y Hj Hy. pose proof (Hasc n j x y Hj Hn Hy). lia. Qed.

Lemma search_loop_spec fuel : forall size base,
  (1 <= size <= fuel)%nat -> (base + size <= length l)%nat -> above_from (base + size) ->
  (base = 0%nat \/ exists x, l !! base = Some x /\ key x <= target) ->
  let i := search_loop f l fuel size base in
  (i < length l)%nat /\ above_from (S i) /\ (i = 0%nat \/ exists x, l !! i = Some x /\ key x <= target).
Proof.
  induction fuel as [|fuel IH]; intros size base Hsize Hlen Habove Hbase; [lia|]. cbn [search_loop].
  destruct (Nat.leb_spec size 1) as [Hle|Hgt].
  { assert (size = 1%nat) as -> by lia. rewrite Nat.add_1_r in Habove. split_and!; [lia|done|done]. }
  pose proof (Nat.div_lt size 2 ltac:(lia) ltac:(lia)). pose proof (Nat.div_str_pos size 2 ltac:(lia)).
  set (half := (size / 2)%nat) in *. destruct (lookup_lt_is_Some_2 l (base + half)) as [x Hx]; [lia|].
  unfold probe. rewrite Hx. destruct (Z.compare_spec (key x) target) as [Heq|Hlt|Hlt].
  - apply IH; [lia|lia|by replace (base + half + (size - half))%nat with (base + size)%nat by lia|].
    right. exists x. split; [done|lia].
  - apply IH; [lia|lia|by replace (base + half + (size - half))%nat with (base + size)%nat by lia|].
    right. exists x. split; [done|lia].
  - apply IH; [lia|lia| |done]. intros j y Hj Hy. apply (above_from_lookup _ _ Hx Hlt j y); [|done].
    pose proof (Nat.div_mod_eq size 2). pose proof (Nat.mod_upper_bound size 2). lia.
Qed.

(** What the documentation of [binary_search_by] promises on an ascending slice. *)
Lemma binary_search_by_spec :
  match binary_search_by f l with
  | inr i => exists x, l !! i = Some x /\ key x = target
  | inl i => (i <= length l)%nat /\ above_from i /\ forall j x, (j < i)%nat -> l !! j = Some x -> key x < target
  end.
Proof.
  unfold binary_search_by. destruct (Nat.eqb_spec (length l) 0) as [Hz|Hnz].
  { split; [lia|]. split; [|intros; lia]. intros j x _ Hx. apply lookup_lt_Some in Hx. lia. }
  destruct (search_loop_spec (length l) (length l) 0) as (Hlt & Habove & Hi);
    [lia|lia| |by left|].
  { intros j x Hj Hx. apply lookup_lt_Some in Hx. lia. }
  set (i := search_loop _ _ _ _ _) in *. destruct (lookup_lt_is_Some_2 l i Hlt) as [x Hx]. unfold probe. rewrite Hx.
  destruct (Z.compare_spec (key x) target) as [Heq|Hless|Hgt]; [by exists x| |].
  - split_and!; [lia|done|]. intros j y Hj Hy. pose proof (Hasc j i y x ltac:(lia) Hy Hx). lia.
  - assert (i = 0%nat) as Hz.
    { destruct Hi as [|(y & Hy & Hle)]; [done|]. simplify_eq. lia. }
    split_and!; [lia| |intros; lia]. by eapply above_from_lookup.
Qed.
End search_proof.

(** ** What a lookup finds *)

(** The FDE that starts last at or before the address. *)
Definition covering_fde (fdes : list (Z * Z)) (address : Z) (r : option Z) : Prop :=
  match r with
  | Some offset => exists pc, (pc, offset) ∈ fdes /\ pc <= address /\ forall e, e ∈ fdes -> e.1 <= address -> e.1 <= pc
  | None => forall e, e ∈ fdes -> address < e.1
  end.

Lemma covering_fde_unique fdes address r r' :
  NoDup fdes.*1 -> covering_fde fdes address r -> covering_fde fdes address r' -> r = r'.
Proof.
  intros Hnd Hr Hr'. destruct r as [o|], r' as [o'|]; cbn in *.
  - destruct Hr as (pc & Hin & Hle & Hmax), Hr' as (pc' & Hin' & Hle' & Hmax').
    pose proof (Hmax _ Hin' Hle'). pose proof (Hmax' _ Hin Hle). cbn in *. assert (pc' = pc) as -> by lia.
    apply list_elem_of_lookup_1 in Hin as [i Hi], Hin' as [j Hj]. assert (i = j) as <-; [|congruence].
    eapply NoDup_lookup; [exact Hnd| |]; rewrite list_lookup_fmap; [by rewrite Hi|by rewrite Hj].
  - destruct Hr as (pc & Hin & Hle & _). specialize (Hr' _ Hin). cbn in Hr'. lia.
  - destruct Hr' as (pc & Hin & Hle & _). specialize (Hr _ Hin). cbn in Hr. lia.
  - done.
Qed.

Lemma covering_fde_perm fdes fdes' address r : fdes ≡ₚ fdes' -> covering_fde fdes address r -> covering_fde fdes' address r.
Proof.
  intros Hp. destruct r as [o|]; cbn.
  - intros (pc & Hin & Hle & Hmax). exists pc. rewrite <- Hp. split_and!; [done|done|]. intros e. rewrite <- Hp. apply Hmax.
  - intros Hall e. rewrite <- Hp. apply Hall.
Qed.

(** The entry at an index below which everything starts earlier and above which everything starts later. *)
Lemma covering_fde_at fdes address i pc offset :
  ascending_keys fst fdes -> fdes !! i = Some (pc, offset) -> pc <= address -> above_from fst fdes address (S i) ->
  covering_fde fdes address (Some offset).
Proof.
  intros Hasc Hi Hle Habove. exists pc. split; [by eapply list_elem_of_lookup_2|]. split; [done|].
  intros e [j Hj]%list_elem_of_lookup_1 He. destruct (Nat.le_gt_cases j i) as [Hji|Hij].
  - by apply (Hasc j i e (pc, offset)).
  - specialize (Habove j e ltac:(lia) Hj). lia.
Qed.

(** ** The built index *)

Lemma insert_by_pc_perm e l : insert_by_pc e l ≡ₚ e :: l.
Proof.
  induction l as [|x l IH]; [done|]. cbn. destruct (e.1 <? x.1); [done|]. rewrite IH. apply Permutation_swap.
Qed.

Lemma insert_by_pc_sorted e l :
  StronglySorted (λ a b : Z * Z, a.1 <= b.1) l -> StronglySorted (λ a b : Z * Z, a.1 <= b.1) (insert_by_pc e l).
Proof.
  induction 1 as [|x l Hl IH Hx]; cbn; [by repeat constructor|].
  destruct (Z.ltb_spec e.1 x.1) as [Hlt|Hge].
  - constructor; [by constructor|]. constructor; [lia|]. rewrite list.Forall_forall in Hx |- *. intros y Hy. specialize (Hx y Hy). cbn in Hx. lia.
  - constructor; [done|]. rewrite insert_by_pc_perm. constructor; [lia|done].
Qed.

Lemma sort_by_pc_spec l : sort_by_pc l ≡ₚ l /\ StronglySorted (λ a b : Z * Z, a.1 <= b.1) (sort_by_pc l).
Proof.
  unfold sort_by_pc. induction l as [|e l IH] using rev_ind; [split; [done|constructor]|].
  rewrite foldl_app. cbn. destruct IH as [IHp IHs]. split; [|by apply insert_by_pc_sorted].
  rewrite insert_by_pc_perm, IHp. apply Permutation_cons_append.
Qed.

Lemma cfi_index_lookup_covering {E} base (entries : list (SectionEntry E)) fdes index address :
  collect_fdes base entries = inr fdes -> cfi_index_try_new base entries = inr index ->
  exists r, cfi_index_lookup index address = Some r /\ covering_fde fdes address r.
Proof.
  intros Hc Hi. unfold cfi_index_try_new in Hi. rewrite Hc in Hi. injection Hi as <-.
  destruct (sort_by_pc_spec fdes) as [Hp Hs]. set (sorted := sort_by_pc fdes) in *.
  apply ascending_keys_sorted in Hs.
  cut (exists r, cfi_index_lookup (mkIndex sorted.*1 sorted.*2) address = Some r /\ covering_fde sorted address r).
  { intros (r & Hl & Hr). exists r. split; [done|]. by eapply covering_fde_perm. }
  unfold cfi_index_lookup, binary_search. cbn [sorted_fde_pc_starts fde_offsets].
  assert (ascending_keys (λ x : Z, x) sorted.*1) as Hasc.
  { intros i j x y Hij Hx Hy. rewrite list_lookup_fmap in Hx, Hy. apply fmap_Some in Hx as (a & Ha & ->), Hy as (b & Hb & ->).
    by apply (Hs i j). }
  assert (forall n, above_from (λ x : Z, x) sorted.*1 address n -> above_from fst sorted address n) as Habove.
  { intros n Hn j x Hj Hx. apply (Hn j x.1 Hj). by rewrite list_lookup_fmap, Hx. }
  pose proof (binary_search_by_spec (λ x : Z, x) sorted.*1 address Hasc) as Hsearch.
  destruct (binary_search_by _ sorted.*1) as [[|i]|i].
  - exists None. split; [done|]. intros e [j Hj]%list_elem_of_lookup_1. destruct Hsearch as (_ & Ha & _).
    apply (Habove _ Ha j e); [lia|done].
  - destruct Hsearch as (Hle & Ha & Hbelow). rewrite length_fmap in Hle.
    destruct (lookup_lt_is_Some_2 sorted i) as [[pc o] Ho]; [lia|]. exists (Some o). rewrite list_lookup_fmap, Ho. split; [done|].
    eapply covering_fde_at; [done|done| |by apply Habove].
    specialize (Hbelow i pc ltac:(lia)). rewrite list_lookup_fmap, Ho in Hbelow. specialize (Hbelow eq_refl). lia.
  - destruct Hsearch as (pc & Hpc & ->). rewrite list_lookup_fmap in Hpc. apply fmap_Some in Hpc as ([pc o] & Ho & ->).
    exists (Some o). rewrite list_lookup_fmap, Ho. split; [done|]. exists pc. split; [by eapply list_elem_of_lookup_2|]. cbn. done.
Qed.

(** ** The table searched in place *)

(** The rows of a section describe these FDEs, in ascending order. *)
Record hdr_describes (t : EhFrameHdrTable) (data : list Z) (fdes : list (Z * Z)) : Prop := {
  hd_ascending : ascending_keys fst fdes;
  hd_count : t_fde_count t = Z.of_nat (length fdes);
  hd_count_u32 : 1 <= t_fde_count t <= u32_max;
  hd_header : TABLE_OFFSET <= Z.of_nat (length data);
  hd_eh_frame_ptr : 0 <= t_eh_frame_ptr t;
  hd_rows : forall i e, fdes !! i = Some e ->
    read_pointer t (drop (Z.to_nat TABLE_OFFSET) data) (Z.of_nat i * ROW_SIZE) = Some (t_base_svma t + e.1) /\
    read_pointer t (drop (Z.to_nat TABLE_OFFSET) data) (Z.of_nat i * ROW_SIZE + 4) = Some (t_eh_frame_ptr t + e.2) /\
    is_u32 e.2;
}.

Section hdr.
Context (t : EhFrameHdrTable) (data : list Z) (fdes : list (Z * Z)) (address : Z).
Hypothesis Hdesc : hdr_describes t data fdes.
#[local] Abbreviation table := (drop (Z.to_nat TABLE_OFFSET) data).

Lemma hdr_search_spec fuel : forall row len,
  1 <= len <= 2 ^ Z.of_nat fuel -> (row + Z.to_nat len <= length fdes)%nat ->
  above_from fst fdes address (row + Z.to_nat len) -> (exists e, fdes !! row = Some e /\ e.1 <= address) ->
  exists i pc offset, hdr_search (S fuel) t table (t_base_svma t + address) (Z.of_nat row) len = Some (Z.of_nat i) /\
    fdes !! i = Some (pc, offset) /\ covering_fde fdes address (Some offset).
Proof.
  induction fuel as [|fuel IH]; intros row len Hlen Hbound Habove ([pc o] & Hrow & Hle); cbn in Hle.
  { assert (len = 1) as -> by (cbn in Hlen; lia). exists row, pc, o. split; [done|]. split; [done|].
    eapply covering_fde_at; [apply Hdesc|done|done|]. by rewrite Nat.add_1_r in Habove. }
  change (hdr_search (S (S fuel)) t table (t_base_svma t + address) (Z.of_nat row) len) with
    (if len <=? 1 then Some (Z.of_nat row)
     else location ← read_pointer t table ((Z.of_nat row + len / 2) * ROW_SIZE);
          match location ?= t_base_svma t + address with
          | Eq => Some (Z.of_nat row + len / 2)
          | Lt => hdr_search (S fuel) t table (t_base_svma t + address) (Z.of_nat row + len / 2) (len - len / 2)
          | Gt => hdr_search (S fuel) t table (t_base_svma t + address) (Z.of_nat row) (len / 2)
          end).
  destruct (Z.leb_spec len 1) as [Hone|Hgt].
  { assert (len = 1) as -> by lia. exists row, pc, o. split; [done|]. split; [done|].
    eapply covering_fde_at; [apply Hdesc|done|done|]. by rewrite Nat.add_1_r in Habove. }
  rewrite Nat2Z.inj_succ, Z.pow_succ_r in Hlen by lia.
  pose proof (Z.div_mod len 2 ltac:(lia)). pose proof (Z.mod_pos_bound len 2 ltac:(lia)).
  replace (Z.of_nat row + len / 2) with (Z.of_nat (row + Z.to_nat (len / 2))) by lia.
  set (pivot := (row + Z.to_nat (len / 2))%nat).
  destruct (lookup_lt_is_Some_2 fdes pivot) as [[ppc po] Hp]; [unfold pivot; lia|].
  destruct (hd_rows _ _ _ Hdesc pivot _ Hp) as (Hread & _). rewrite Hread. cbn [mbind option_bind fst].
  destruct (Z.compare_spec (t_base_svma t + ppc) (t_base_svma t + address)) as [Heq|Hlt|Hlt].
  - exists pivot, ppc, po. split; [done|]. split; [done|]. exists ppc. split; [by eapply list_elem_of_lookup_2|].
    split; [lia|]. intros e _ He. lia.
  - apply IH; [lia|unfold pivot; lia| |by exists (ppc, po); split; [done|cbn; lia]].
    replace (pivot + Z.to_nat (len - len / 2))%nat with (row + Z.to_nat len)%nat by (unfold pivot; lia). done.
  - apply IH; [lia|lia| |by exists (pc, o)]. fold pivot. eapply above_from_lookup; [apply Hdesc|exact Hp|cbn; lia].
Qed.

Lemma hdr_table_lookup_covering :
  0 <= address -> t_base_svma t + address <= u64_max ->
  exists r, hdr_table_lookup t data address = Some r /\ covering_fde fdes address r.
Proof.
  intros Ha Hu. unfold hdr_table_lookup, checked_add_u64. rewrite (proj2 (Z.leb_le _ _)) by done. cbn [mbind option_bind].
  rewrite (proj2 (Z.ltb_ge _ _)) by apply Hdesc.
  pose proof (hd_count _ _ _ Hdesc) as Hcount. pose proof (hd_count_u32 _ _ _ Hdesc) as Hu32.
  destruct (lookup_lt_is_Some_2 fdes 0) as [[pc o] H0]; [lia|].
  destruct (hd_rows _ _ _ Hdesc 0%nat _ H0) as (Hread & _). change (Z.of_nat 0 * ROW_SIZE) with 0 in Hread.
  cbn [fst] in Hread. rewrite Hread. cbn [mbind option_bind].
  destruct (Z.ltb_spec (t_base_svma t + address) (t_base_svma t + pc)) as [Hlt|Hge].
  { exists None. split; [done|]. intros e [j Hj]%list_elem_of_lookup_1.
    pose proof (hd_ascending _ _ _ Hdesc 0%nat j _ _ ltac:(lia) H0 Hj). cbn in *. lia. }
  destruct (hdr_search_spec 33 0%nat (t_fde_count t)) as (i & ipc & offset & Hs & Hi & Hcov).
  - split; [lia|]. change (2 ^ Z.of_nat 33) with 8589934592. word_lia.
  - lia.
  - intros j x Hj Hx. apply lookup_lt_Some in Hx. lia.
  - exists (pc, o). split; [done|cbn; lia].
  - exists (Some offset). split; [|done]. unfold search_fuel. change (Z.of_nat 0) with 0 in Hs. rewrite Hs.
    destruct (hd_rows _ _ _ Hdesc i _ Hi) as (_ & Hptr & Hoff). cbn [mbind option_bind snd] in *. rewrite Hptr.
    cbn [mbind option_bind]. unfold checked_sub_u64, u32_try_from.
    rewrite (proj2 (Z.leb_le _ _)) by word_lia. cbn [mbind option_bind].
    replace (t_eh_frame_ptr t + offset - t_eh_frame_ptr t) with offset by lia.
    repeat case_match; f_equal; f_equal; try done; word_unfold; lia.
Qed.
End hdr.

(** Searching a module's [.eh_frame_hdr] table in place finds the FDE that an
    index built from its [.eh_frame] section finds: the one that starts last at
    or before the address, and none for an address before the first. *)
Theorem fde_lookups_agree {E} (t : EhFrameHdrTable) (data : list Z) (entries : list (SectionEntry E))
    (fdes : list (Z * Z)) (index : DwarfCfiIndex) (address : Z) :
  collect_fdes (t_base_svma t) entries = inr fdes -> cfi_index_try_new (t_base_svma t) entries = inr index ->
  NoDup fdes.*1 -> hdr_describes t data (sort_by_pc fdes) ->
  is_u32 address -> t_base_svma t + address <= u64_max ->
  exists r, covering_fde fdes address r /\
    hdr_table_lookup t data address = Some r /\ cfi_index_lookup index address = Some r.
Proof.
  intros Hc Hi Hnd Hd Ha Hu. destruct (cfi_index_lookup_covering _ _ _ _ address Hc Hi) as (r & Hl & Hr).
  destruct (hdr_table_lookup_covering t data _ address Hd) as (r' & Hl' & Hr'); [word_lia|done|].
  exists r. split; [done|]. split; [|done]. rewrite Hl'. f_equal. eapply covering_fde_unique; [exact Hnd| |exact Hr].
  eapply covering_fde_perm; [|exact Hr']. apply sort_by_pc_spec.
Qed.

(** ** An example *)

(** Two functions at [0x1000] and [0x1100]; the section lists them in reverse. *)
Definition example_entries : list (SectionEntry unit) := [EntryCie; EntryFde 4352 64; EntryFde 4096 24].
Definition example_hdr : list Z :=
  [1; 27; 3; 59; 0; 240; 255; 255; 2; 0; 0; 0;
   0; 224; 255; 255; 24; 240; 255; 255; 0; 225; 255; 255; 64; 240; 255; 255].
Definition example_bases : BaseAddresses := mkBases (Some 8192) (Some 12288) (Some 4096) (Some 0).
Definition example_table : EhFrameHdrTable := mkTable 2 4096 12288 8192.

Lemma example_hdr_describes : hdr_describes example_table example_hdr [(0, 24); (256, 64)].
Proof.
  split; [|done|by vm_compute; split|by vm_compute|by vm_compute|].
  - repeat apply ascending_keys_cons; [| |by intros ? ? ? ? ? ?].
    + intros y ->%list_elem_of_singleton. cbn. lia.
    + by intros y ?%elem_of_nil.
  - do 2 (destruct i as [|i]; [intros e [= <-]; split; [by vm_compute|]; split; [by vm_compute|vm_compute; split; discriminate]|]).
    done.
Qed.

Lemma fde_lookups_agree_witness :
  hdr_table_try_new (λ _ _, Some 8192) example_hdr example_bases 4096 = Some example_table /\
  exists r, covering_fde [(256, 64); (0, 24)] 300 r /\
    hdr_table_lookup example_table example_hdr 300 = Some r /\
    cfi_index_lookup (mkIndex [0; 256] [24; 64]) 300 = Some r.
Proof.
  split; [by vm_compute|].
  pose proof (fde_lookups_agree example_table example_hdr example_entries [(256, 64); (0, 24)]
    (mkIndex [0; 256] [24; 64]) 300 ltac:(by vm_compute) ltac:(by vm_compute)
    ltac:(apply (bool_decide_unpack _); by vm_compute) example_hdr_describes
    ltac:(vm_compute; split; discriminate) ltac:(vm_compute; discriminate)) as Hw. exact Hw.
Defined.
