(* ===== verification/SortedKeys.v ===== *)
(** * Stable sorting by a key

    [slice::sort_by_key] on numeric keys, and the entry with the highest key
    that was seen last: what a lookup in the sorted slice finds. *)

From stdpp Require Import prelude list numbers sorting.
From S2P Require Import Prelude Contexts FdeIndex.
#[local] Open Scope Z_scope.

(** [sort_by_key] is stable: an entry goes after those with its key. *)
Section sort.
Context {T : Type} (key : T -> Z).

Fixpoint insert_by_key (x : T) (l : list T) : list T :=
  match l with
  | [] => [x]
  | y :: l' => if key x <? key y then x :: l else y :: insert_by_key x l'
  end.
Definition sort_by_key (l : list T) : list T := foldl (λ sorted x, insert_by_key x sorted) [] l.
End sort.

(** ** The nearest entry *)

Section nearest.
Context {T : Type} (key : T -> Z).

(** Of the entries seen so far, the last one with the highest key. *)
Definition better (best : option T) (x : T) : option T :=
  match best with
  | Some b => if key b <=? key x then Some x else best
  | None => Some x
  end.
Definition top (l : list T) : option T := foldl better None l.
Definition nearest (l : list T) (address : Z) : option T := top (filter (λ x, key x <= address) l).

Lemma top_snoc l x : top (l ++ [x]) = better (top l) x.
Proof. unfold top. by rewrite foldl_app. Qed.

Lemma top_elem l x : top l = Some x -> x ∈ l.
Proof.
  induction l as [|y l IH] using rev_ind; [done|]. rewrite top_snoc. unfold better.
  destruct (top l) as [b|]; [destruct (key b <=? key y)|]; intros [= <-]; apply elem_of_app; first [right; by apply list_elem_of_singleton|left; by apply IH].
Qed.

Lemma top_None l : top l = None -> l = [].
Proof.
  destruct l as [|x l _] using rev_ind; [done|]. rewrite top_snoc. unfold better. destruct (top l); [case_match|]; done.
Qed.

Lemma filter_snoc (keep : T -> Prop) `{!∀ t, Decision (keep t)} before t :
  filter keep (before ++ [t]) = filter keep before ++ (if decide (keep t) then [t] else nil).
Proof. exact (filter_app keep before [t]). Qed.

Lemma top_filter_snoc (P : T -> Prop) `{!∀ x, Decision (P x)} l x :
  top (filter P (l ++ [x])) = if decide (P x) then better (top (filter P l)) x else top (filter P l).
Proof. rewrite filter_snoc. case_decide; [apply top_snoc|by rewrite app_nil_r]. Qed.

(** Entries above all others win. *)
Lemma top_split (P Q : T -> Prop) `{!∀ x, Decision (P x), !∀ x, Decision (Q x)} l :
  (forall x y, P x -> Q y -> key y < key x) ->
  top (filter (λ x, P x \/ Q x) l) = match top (filter P l) with Some x => Some x | None => top (filter Q l) end.
Proof.
  intros Hord. induction l as [|y l IH] using rev_ind; [done|]. rewrite !top_filter_snoc, IH.
  assert (forall (R : T -> Prop) `{!∀ x, Decision (R x)} x, top (filter R l) = Some x -> R x) as Hin.
  { intros R HR x Hx. by apply top_elem, list_elem_of_filter in Hx as [? _]. }
  destruct (decide (P y)) as [HP|HnP].
  - rewrite decide_True by (by left). destruct (top (filter P l)) as [x|] eqn:Hx.
    + cbn. by destruct (key x <=? key y).
    + unfold better. destruct (top (filter Q l)) as [b|] eqn:Hb; [|done]. apply Hin in Hb.
      rewrite (proj2 (Z.leb_le _ _)); [done|]. specialize (Hord y b HP Hb). lia.
  - destruct (decide (Q y)) as [HQ|HnQ]; [|by rewrite decide_False by tauto].
    rewrite decide_True by (by right). destruct (top (filter P l)) as [x|] eqn:Hx; [|done].
    apply Hin in Hx. cbn. rewrite (proj2 (Z.leb_gt _ _)); [done|]. by apply Hord.
Qed.

(** *** In a sorted list *)

Lemma insert_by_key_perm x l : insert_by_key key x l ≡ₚ x :: l.
Proof. induction l as [|y l IH]; [done|]. cbn. destruct (key x <? key y); [done|]. rewrite IH. apply Permutation_swap. Qed.

Lemma insert_by_key_sorted x l :
  StronglySorted (λ a b, key a <= key b) l -> StronglySorted (λ a b, key a <= key b) (insert_by_key key x l).
Proof.
  induction 1 as [|y l Hl IH Hy]; cbn; [by repeat constructor|]. destruct (Z.ltb_spec (key x) (key y)) as [Hlt|Hge].
  - constructor; [by constructor|]. constructor; [lia|]. rewrite list.Forall_forall in Hy |- *. intros z Hz. specialize (Hy z Hz). lia.
  - constructor; [done|]. rewrite insert_by_key_perm. constructor; [lia|done].
Qed.

Lemma sort_by_key_snoc l x : sort_by_key key (l ++ [x]) = insert_by_key key x (sort_by_key key l).
Proof. unfold sort_by_key. by rewrite foldl_app. Qed.

Lemma sort_by_key_perm l : sort_by_key key l ≡ₚ l.
Proof.
  induction l as [|x l IH] using rev_ind; [done|]. rewrite sort_by_key_snoc, insert_by_key_perm, IH. apply Permutation_cons_append.
Qed.

Lemma sort_by_key_sorted l : StronglySorted (λ a b, key a <= key b) (sort_by_key key l).
Proof. induction l as [|x l IH] using rev_ind; [constructor|]. rewrite sort_by_key_snoc. by apply insert_by_key_sorted. Qed.

(** An insertion into a sorted list, seen from below an address. *)
Lemma last_insert x l address :
  StronglySorted (λ a b, key a <= key b) l ->
  list.last (filter (λ y, key y <= address) (insert_by_key key x l)) =
  if decide (key x <= address) then better (list.last (filter (λ y, key y <= address) l)) x
  else list.last (filter (λ y, key y <= address) l).
Proof.
  induction 1 as [|y l Hl IH Hy]; cbn [insert_by_key].
  { cbn. by case_decide. }
  rewrite list.Forall_forall in Hy. destruct (Z.ltb_spec (key x) (key y)) as [Hlt|Hge].
  - rewrite (filter_cons _ x). case_decide as Hx; [|done]. rewrite !filter_cons.
    destruct (decide (key y <= address)) as [Hya|Hya].
    + assert (forall d, list.last (x :: y :: filter (λ z, key z <= address) l) = Some d -> key x < key d) as Hlast.
      { intros d Hd. change (list.last (x :: y :: filter (λ z, key z <= address) l)) with
          (list.last (y :: filter (λ z, key z <= address) l)) in Hd. apply last_Some_elem_of in Hd.
        apply elem_of_cons in Hd as [->|Hd]; [done|]. apply list_elem_of_filter in Hd as [_ Hd]. specialize (Hy d Hd). lia. }
      change (list.last (x :: y :: filter (λ z, key z <= address) l)) with (list.last (y :: filter (λ z, key z <= address) l)) in *.
      destruct (list.last (y :: filter (λ z, key z <= address) l)) as [d|] eqn:Hd.
      * cbn. specialize (Hlast d eq_refl). rewrite (proj2 (Z.leb_gt _ _)) by done. done.
      * by apply last_None in Hd.
    + rewrite (filter_none _ l); [done|]. intros z Hz. specialize (Hy z Hz). lia.
  - rewrite !filter_cons. destruct (decide (key y <= address)) as [Hya|Hya].
    + rewrite (last_cons y), IH, (last_cons y). case_decide as Hx; [|done]. unfold better.
      destruct (list.last (filter (λ z, key z <= address) l)) as [b|]; [by destruct (key b <=? key x)|].
      cbn. by rewrite (proj2 (Z.leb_le _ _)) by done.
    + rewrite IH. rewrite (filter_none _ l) by (intros z Hz; specialize (Hy z Hz); lia). cbn. by rewrite decide_False by lia.
Qed.

Lemma last_sorted_nearest l address :
  list.last (filter (λ y, key y <= address) (sort_by_key key l)) = nearest l address.
Proof.
  unfold nearest. induction l as [|x l IH] using rev_ind; [done|].
  rewrite sort_by_key_snoc, last_insert, top_filter_snoc by apply sort_by_key_sorted. by rewrite IH.
Qed.


(** The prefix that [partition_point] finds. *)
Lemma take_partition_filter l address :
  ascending_keys key l -> take (partition_point (λ x, key x <=? address) l) l = filter (λ x, key x <= address) l.
Proof.
  intros Hasc. induction l as [|x l IH]; [done|]. cbn [partition_point].
  assert (ascending_keys key l) as Hl by (intros i j a b Hij Ha Hb; by apply (Hasc (S i) (S j)); [lia|..]).
  destruct (Z.leb_spec (key x) address) as [Hle|Hgt].
  - rewrite filter_cons_True by done. cbn [take]. by rewrite IH.
  - cbn [take]. symmetry. apply filter_none. intros y Hy. apply elem_of_cons in Hy as [->|Hy]; [lia|].
    apply list_elem_of_lookup_1 in Hy as [j Hj]. specialize (Hasc 0%nat (S j) x y ltac:(lia) eq_refl Hj). lia.
Qed.

(** *** Sorting and filtering *)

Lemma insert_by_key_filter (P : T -> Prop) `{!∀ x, Decision (P x)} x l :
  StronglySorted (λ a b, key a <= key b) l ->
  filter P (insert_by_key key x l) = if decide (P x) then insert_by_key key x (filter P l) else filter P l.
Proof.
  induction 1 as [|y l Hl IH Hy]; cbn [insert_by_key]; [cbn; by case_decide|]. rewrite list.Forall_forall in Hy.
  destruct (Z.ltb_spec (key x) (key y)) as [Hlt|Hge].
  - rewrite (filter_cons _ x). case_decide; [|done]. rewrite filter_cons.
    destruct (decide (P y)); [cbn; by rewrite (proj2 (Z.ltb_lt _ _))|].
    destruct (filter P l) as [|z l'] eqn:Hf; [done|]. cbn. rewrite (proj2 (Z.ltb_lt _ _)); [done|].
    assert (z ∈ l) as Hz by (eapply (list_elem_of_filter P); rewrite Hf; by left). specialize (Hy z Hz). lia.
  - rewrite !(filter_cons _ y), IH. destruct (decide (P y)); [|done]. destruct (decide (P x)); [|done].
    cbn. by rewrite (proj2 (Z.ltb_ge _ _)).
Qed.

Lemma sort_by_key_filter (P : T -> Prop) `{!∀ x, Decision (P x)} l : filter P (sort_by_key key l) = sort_by_key key (filter P l).
Proof.
  induction l as [|x l IH] using rev_ind; [done|]. rewrite sort_by_key_snoc, filter_snoc.
  rewrite insert_by_key_filter by apply sort_by_key_sorted. rewrite IH. case_decide; [by rewrite sort_by_key_snoc|].
  by rewrite app_nil_r.
Qed.

Lemma insert_by_key_last x l :
  StronglySorted (λ a b, key a <= key b) l -> list.last (insert_by_key key x l) = better (list.last l) x.
Proof.
  induction 1 as [|y l Hl IH Hy]; [done|]. cbn [insert_by_key]. rewrite list.Forall_forall in Hy.
  destruct (Z.ltb_spec (key x) (key y)) as [Hlt|Hge].
  - rewrite (last_cons x). destruct (list.last (y :: l)) as [z|] eqn:Hz; [|by apply last_None in Hz]. cbn.
    rewrite (proj2 (Z.leb_gt _ _)); [done|]. apply last_Some_elem_of, elem_of_cons in Hz as [->|Hz]; [done|].
    specialize (Hy z Hz). lia.
  - rewrite (last_cons y), IH, (last_cons y). unfold better. destruct (list.last l) as [z|]; [by destruct (key z <=? key x)|].
    by rewrite (proj2 (Z.leb_le _ _)).
Qed.

Lemma sort_by_key_last l : list.last (sort_by_key key l) = top l.
Proof.
  induction l as [|x l IH] using rev_ind; [done|].
  rewrite sort_by_key_snoc, insert_by_key_last, IH by apply sort_by_key_sorted. by rewrite top_snoc.
Qed.

(** *** Sorting again *)

Lemma insert_by_key_above x l : (forall y, y ∈ l -> key y <= key x) -> insert_by_key key x l = l ++ [x].
Proof.
  induction l as [|y l IH]; intros H; [done|]. cbn. rewrite (proj2 (Z.ltb_ge _ _)) by (apply H; by left).
  f_equal. apply IH. intros z Hz. apply H. by right.
Qed.

Lemma sort_by_key_fixed l : StronglySorted (λ a b, key a <= key b) l -> sort_by_key key l = l.
Proof.
  induction l as [|x l IH] using rev_ind; intros Hs; [done|]. apply StronglySorted_app in Hs as (Hc & Hl & _).
  rewrite sort_by_key_snoc, IH by done. apply insert_by_key_above. intros y Hy. apply Hc; [done|by left].
Qed.

Lemma sort_by_key_app l more : sort_by_key key (sort_by_key key l ++ more) = sort_by_key key (l ++ more).
Proof. unfold sort_by_key. rewrite !foldl_app. f_equal. apply (sort_by_key_fixed (sort_by_key key l)), sort_by_key_sorted. Qed.

(** An entry goes where [partition_point] finds it as the last with its key. *)
Lemma insert_by_key_position x l :
  StronglySorted (λ a b, key a <= key b) l ->
  exists i, partition_point (λ y, key y <=? key x) (insert_by_key key x l) = S i /\ delete i (insert_by_key key x l) = l.
Proof.
  induction 1 as [|y l Hl IH Hy]; cbn [insert_by_key].
  { exists 0%nat. cbn. by rewrite (proj2 (Z.leb_le _ _)) by lia. }
  destruct (Z.ltb_spec (key x) (key y)) as [Hlt|Hge].
  - exists 0%nat. cbn. rewrite (proj2 (Z.leb_le _ _)) by lia. by rewrite (proj2 (Z.leb_gt _ _)).
  - destruct IH as (i & Hi & Hd). exists (S i). cbn. rewrite (proj2 (Z.leb_le _ _)) by lia. rewrite Hi. split; [done|].
    f_equal. exact Hd.
Qed.
End nearest.

(** Answers depend on the keys and the positions only. *)
Lemma nearest_rel {A B} (ka : A -> Z) (kb : B -> Z) (R : A -> B -> Prop) la lb address :
  (forall a b, R a b -> ka a = kb b) -> Forall2 R la lb -> option_Forall2 R (nearest ka la address) (nearest kb lb address).
Proof.
  intros Hk. unfold nearest. revert lb. induction la as [|a la IH] using rev_ind; intros lb Hl.
  { apply Forall2_nil_inv_l in Hl as ->. constructor. }
  apply Forall2_app_inv_l in Hl as (lb' & lb1 & Hl & H1 & ->).
  apply Forall2_cons_inv_l in H1 as (b & lb2 & Hab & Hnil & ->). apply Forall2_nil_inv_l in Hnil as ->.
  rewrite !top_filter_snoc, (Hk a b Hab). specialize (IH lb' Hl). case_decide; [|done].
  destruct IH as [a' b' Hab'|]; [|by constructor]. cbn. rewrite (Hk a b Hab), (Hk a' b' Hab'). case_match; by constructor.
Qed.
