(* ===== verification/Kallsyms.v ===== *)
(** * Kernel symbols

    [src/symbolize/kernel/kallsyms.rs] and the tables of
    [src/symbolize/kernel.rs]: the lines of [/proc/kallsyms], the full table with
    its arena of names, the streaming scan that keeps only the symbols of
    requested addresses, and the lookups in both.  Bytes and strings are lists of
    numbers; decoding of names ([String::from_utf8_lossy]) is a parameter. *)

From stdpp Require Import prelude list numbers gmap.
From S2P Require Import Prelude Contexts FdeIndex SortedKeys.
#[local] Open Scope Z_scope.

(** ** Bytes *)

(** The characters that the parsers look for. *)
Definition ch_newline : Z := 10.
Definition ch_return : Z := 13.
Definition ch_space : Z := 32.
Definition ch_tab : Z := 9.
Definition ch_dollar : Z := 36.
Definition ch_open : Z := 91.
Definition ch_close : Z := 93.

(** [memchr]. *)
Fixpoint memchr (needle : Z) (haystack : list Z) : option nat :=
  match haystack with
  | [] => None
  | b :: rest => if b =? needle then Some 0%nat else S <$> memchr needle rest
  end.

Definition hex_digit (byte : Z) : option Z :=
  if (48 <=? byte) && (byte <=? 57) then Some (byte - 48)
  else if (97 <=? byte) && (byte <=? 102) then Some (byte - 97 + 10)
  else if (65 <=? byte) && (byte <=? 70) then Some (byte - 65 + 10)
  else None.

(** The loop of [parse_hex_u64], over at most 16 bytes. *)
Fixpoint parse_hex_loop (input : list Z) (value : Z) (len : nat) : Z * nat :=
  match input with
  | [] => (value, len)
  | byte :: input =>
      match hex_digit byte with
      | Some digit => parse_hex_loop input (Z.lor (Z.land (Z.shiftl value 4) u64_max) digit) (S len)
      | None => (value, len)
      end
  end.
Definition parse_hex_u64 (input : list Z) : option (Z * nat) :=
  let '(value, len) := parse_hex_loop (take 16 input) 0 0 in
  if (len =? 0)%nat then None else Some (value, len).

(** ** Lines *)

Record KernelSymbolMetadata := mkMetadata {
  km_symbol_type : Z;
  km_name : list Z;
  km_module : option (list Z);
}.

(** [trim_ascii_end]: on the reversed bytes. *)
Fixpoint trim_start (data : list Z) : list Z :=
  match data with
  | b :: rest => if (b =? ch_space) || (b =? ch_tab) then trim_start rest else data
  | [] => []
  end.
Definition trim_ascii_end (data : list Z) : list Z := reverse (trim_start (reverse data)).

(** [iter().rposition(|&byte| byte == b'[')]. *)
Definition rposition (needle : Z) (data : list Z) : option nat :=
  i ← memchr needle (reverse data); Some (length data - 1 - i)%nat.

Definition parse_kernel_symbol_name (symbol_type : Z) (name : list Z) : KernelSymbolMetadata :=
  let plain := mkMetadata symbol_type name None in
  if bool_decide (list.last name = Some ch_close) then
    match rposition ch_open name with
    | Some bracket_start =>
        let module := take (length name - 1 - (bracket_start + 1)) (drop (bracket_start + 1) name) in
        match module with
        | [] => plain
        | _ => mkMetadata symbol_type (trim_ascii_end (take bracket_start name)) (Some module)
        end
    | None => plain
    end
  else plain.

(** [strip_suffix(b"\r")]. *)
Definition strip_return (line : list Z) : list Z :=
  if bool_decide (list.last line = Some ch_return) then take (length line - 1) line else line.

Definition parse_kernel_symbol_line_bytes (line : list Z) : option (Z * KernelSymbolMetadata) :=
  '(address, address_len) ← parse_hex_u64 line;
  symbol_type ← line !! (address_len + 1)%nat;
  let name_start := (address_len + 3)%nat in
  if (length line <? name_start)%nat then None
  else
    let name_and_rest := drop name_start line in
    let line_len := default (length name_and_rest) (memchr ch_newline name_and_rest) in
    Some (address, parse_kernel_symbol_name symbol_type (strip_return (take line_len name_and_rest))).

(** ["_text"] and ["_stext"]. *)
Definition is_kernel_text_symbol (name : list Z) : bool :=
  bool_decide (name = [95; 116; 101; 120; 116]) || bool_decide (name = [95; 115; 116; 101; 120; 116]).

Definition is_restricted_kernel_text (address : Z) (name : KernelSymbolMetadata) : bool :=
  (address =? 0) && bool_decide (km_module name = None) && is_kernel_text_symbol (km_name name).

(** ["TWDB"]. *)
Definition PERF_KERNEL_SYMBOL_TYPES : list Z := [84; 87; 68; 66].
Definition to_ascii_uppercase (byte : Z) : Z := if (97 <=? byte) && (byte <=? 122) then byte - 32 else byte.
Definition starts_with (prefix data : list Z) : bool := bool_decide (take (length prefix) data = prefix).

(** [should_include_kernel_symbol], with the new [text_addr]. *)
Definition should_include_kernel_symbol (text_addr : option Z) (address : Z) (name : KernelSymbolMetadata)
    : bool * option Z :=
  if (address =? 0) || negb (bool_decide (to_ascii_uppercase (km_symbol_type name) ∈ PERF_KERNEL_SYMBOL_TYPES))
     || starts_with [ch_dollar] (km_name name) || starts_with [46; 76] (km_name name)
     || starts_with [76; 48] (km_name name)
  then (false, text_addr)
  else
    let text_addr := match text_addr with
                     | None => if is_kernel_text_symbol (km_name name) then Some address else None
                     | Some _ => text_addr
                     end in
    (bool_decide (is_Some (km_module name)) || match text_addr with Some anchor => anchor <=? address | None => false end,
     text_addr).

(** ** Readers *)

(** A [BufRead]: the non-empty buffers [fill_buf] returns in turn, and an error
    after them, or the end of the file. *)
Record reader := mkReader { rd_buffers : list (list Z); rd_error : option ErrorKind }.

(** The lines of [read_until(b'\n', ..)]: whole lines, and the bytes after the last. *)
Fixpoint split_lines (bytes : list Z) : list (list Z) * list Z :=
  match bytes with
  | [] => ([], [])
  | b :: rest =>
      let '(lines, tail) := split_lines rest in
      if b =? ch_newline then ([b] :: lines, tail)
      else match lines with
           | [] => ([], b :: tail)
           | line :: lines => ((b :: line) :: lines, tail)
           end
  end.

Section symbols.
(** [String::from_utf8_lossy]. *)
Context (lossy : list Z -> list Z).

Record KernelSymbol := mkKernelSymbol {
  ks_address : Z;
  ks_name : list Z;
  ks_module : option (list Z);
}.

Definition kernel_symbol_module_to_string (module : list Z) : list Z := ch_open :: lossy module ++ [ch_close].
Definition kernel_symbol_from_name (address : Z) (name : KernelSymbolMetadata) : KernelSymbol :=
  mkKernelSymbol address (lossy (km_name name)) (kernel_symbol_module_to_string <$> km_module name).

(** ** The full table *)

Record FullKernelSymbol := mkFullSymbol {
  fs_address : Z;
  fs_name_start : Z;
  fs_name_len : Z;
  fs_module : option Z;
}.
Record FullKernelSymbols := mkFullSymbols {
  ft_symbols : list FullKernelSymbol;
  ft_names : list Z;
  ft_modules : list (list Z);
}.
Definition full_symbols_default : FullKernelSymbols := mkFullSymbols [] [] [].

Record FullKernelSymbolsBuilder := mkBuilder {
  fb_symbols : list FullKernelSymbol;
  fb_names : list Z;
  fb_modules : list (list Z);
  fb_module_ids : gmap (list Z) Z;
}.
Definition builder_default : FullKernelSymbolsBuilder := mkBuilder [] [] [] ∅.

Definition kernel_symbol_table_index (value : nat) : result Z := ok_or InvalidData (u32_try_from (Z.of_nat value)).

(** [module_id], with the new modules and their ids. *)
Definition module_id (module : list Z) (b : FullKernelSymbolsBuilder) : result Z * FullKernelSymbolsBuilder :=
  match fb_module_ids b !! module with
  | Some id => (Ok id, b)
  | None =>
      match kernel_symbol_table_index (length (fb_modules b)) with
      | Err e => (Err e, b)
      | Ok id =>
          (Ok id, mkBuilder (fb_symbols b) (fb_names b) (fb_modules b ++ [kernel_symbol_module_to_string module])
                    (<[module := id]> (fb_module_ids b)))
      end
  end.

Definition builder_push (address : Z) (name : list Z) (module : option (list Z)) (b : FullKernelSymbolsBuilder)
    : result FullKernelSymbolsBuilder :=
  let name_start := length (fb_names b) in
  let b := mkBuilder (fb_symbols b) (fb_names b ++ lossy name) (fb_modules b) (fb_module_ids b) in
  name_start_index ← kernel_symbol_table_index name_start;
  name_len ← kernel_symbol_table_index (length (fb_names b) - name_start);
  '(module, b) ← match module with
                 | None => Ok (None, b)
                 | Some module => match module_id module b with
                                  | (Ok id, b) => Ok (Some id, b)
                                  | (Err e, _) => Err e
                                  end
                 end;
  Ok (mkBuilder (fb_symbols b ++ [mkFullSymbol address name_start_index name_len module]) (fb_names b) (fb_modules b)
        (fb_module_ids b)).

Section sort.
Context {T : Type} (key : T -> Z).

(** [dedup_by] with the swap: of equal neighbours the later one stays. *)
Fixpoint keep_last_alias (l : list T) : list T :=
  match l with
  | a :: ((b :: _) as l') => if key b =? key a then keep_last_alias l' else a :: keep_last_alias l'
  | _ => l
  end.
Definition sort_and_keep_last_alias (l : list T) : list T := keep_last_alias (sort_by_key key l).

(** [find_by_address]. *)
Definition find_by_address (l : list T) (address : Z) : option T :=
  list.last (take (partition_point (λ s, key s <=? address) l) l).
End sort.

Definition builder_finish (b : FullKernelSymbolsBuilder) : FullKernelSymbols :=
  mkFullSymbols (sort_and_keep_last_alias fs_address (fb_symbols b)) (fb_names b) (fb_modules b).

(** The loop of [parse_full_kernel_symbols] over whole lines; [inl] is the early return. *)
Fixpoint full_loop (lines : list (list Z)) (text_addr : option Z) (b : FullKernelSymbolsBuilder)
    : result (FullKernelSymbols + option Z * FullKernelSymbolsBuilder) :=
  match lines with
  | [] => Ok (inr (text_addr, b))
  | line :: lines =>
      match parse_kernel_symbol_line_bytes line with
      | None => full_loop lines text_addr b
      | Some (address, name) =>
          if is_restricted_kernel_text address name then Ok (inl full_symbols_default)
          else
            let '(include, text_addr) := should_include_kernel_symbol text_addr address name in
            if include then
              b ← builder_push address (km_name name) (km_module name) b;
              full_loop lines text_addr b
            else full_loop lines text_addr b
      end
  end.

Definition parse_full_kernel_symbols (r : reader) : result FullKernelSymbols :=
  let '(lines, tail) := split_lines (concat (rd_buffers r)) in
  s ← full_loop lines None builder_default;
  match s with
  | inl table => Ok table
  | inr (text_addr, b) =>
      match rd_error r with
      | Some e => Err e
      | None =>
          s ← full_loop (match tail with [] => [] | _ => [tail] end) text_addr b;
          match s with
          | inl table => Ok table
          | inr (_, b) => Ok (builder_finish b)
          end
      end
  end.

(** [FullKernelSymbols::find]; the outer [None] is an index out of bounds. *)
Definition full_find (t : FullKernelSymbols) (address : Z) : option (option (Z * list Z * option (list Z))) :=
  match find_by_address fs_address (ft_symbols t) address with
  | None => Some None
  | Some symbol =>
      let start := Z.to_nat (fs_name_start symbol) in
      let stop := (start + Z.to_nat (fs_name_len symbol))%nat in
      if (stop <=? length (ft_names t))%nat then
        let name := take (stop - start) (drop start (ft_names t)) in
        match fs_module symbol with
        | None => Some (Some (fs_address symbol, name, None))
        | Some module => module ← ft_modules t !! Z.to_nat module; Some (Some (fs_address symbol, name, Some module))
        end
      else None
  end.

(** [parse_kernel_symbols]: the same filter over the bytes of a file. *)
Fixpoint plain_loop (lines : list (list Z)) (text_addr : option Z) (symbols : list KernelSymbol) : list KernelSymbol :=
  match lines with
  | [] => sort_and_keep_last_alias ks_address symbols
  | line :: lines =>
      match parse_kernel_symbol_line_bytes line with
      | None => plain_loop lines text_addr symbols
      | Some (address, name) =>
          if is_restricted_kernel_text address name then []
          else
            let '(include, text_addr) := should_include_kernel_symbol text_addr address name in
            plain_loop lines text_addr (if include then symbols ++ [kernel_symbol_from_name address name] else symbols)
      end
  end.
Definition all_lines (data : list Z) : list (list Z) :=
  let '(lines, tail) := split_lines data in lines ++ match tail with [] => [] | _ => [tail] end.
Definition parse_kernel_symbols (data : list Z) : list KernelSymbol := plain_loop (all_lines data) None [].

(** ** The sparse scan *)

Record SparseScan := mkScan {
  sc_requested : list Z;
  sc_best_lines : list (option (Z * list Z));
  sc_text_addr : option Z;
}.
Definition scan_new (requested : list Z) : SparseScan := mkScan requested (replicate (length requested) None) None.

Inductive SparseScanState := ScanContinue | ScanRestricted.

Definition process_line (line : list Z) (s : SparseScan) : SparseScanState * SparseScan :=
  match parse_kernel_symbol_line_bytes line with
  | None => (ScanContinue, s)
  | Some (address, name) =>
      if is_restricted_kernel_text address name then (ScanRestricted, s)
      else
        let '(include, text_addr) := should_include_kernel_symbol (sc_text_addr s) address name in
        let s := mkScan (sc_requested s) (sc_best_lines s) text_addr in
        if include then
          let bucket := partition_point (λ requested, requested <? address) (sc_requested s) in
          match sc_best_lines s !! bucket with
          | None => (ScanContinue, s)
          | Some best =>
              let best := match best with
                          | Some (best_address, best_line) =>
                              if best_address <=? address then Some (address, line) else Some (best_address, best_line)
                          | None => Some (address, line)
                          end in
              (ScanContinue, mkScan (sc_requested s) (<[bucket := best]> (sc_best_lines s)) text_addr)
          end
        else (ScanContinue, s)
  end.

(** The loop of [SparseKernelSymbolScan::finish]. *)
Fixpoint finish_loop (requested : list Z) (best_lines : list (option (Z * list Z))) (symbol : option KernelSymbol)
    : list (Z * KernelSymbol) :=
  match requested, best_lines with
  | requested :: requests, best :: best_lines =>
      let symbol := match best with
                    | Some (_, line) =>
                        '(address, name) ← parse_kernel_symbol_line_bytes line;
                        Some (kernel_symbol_from_name address name)
                    | None => symbol
                    end in
      match symbol with
      | Some s => (requested, s) :: finish_loop requests best_lines symbol
      | None => finish_loop requests best_lines symbol
      end
  | _, _ => []
  end.
Definition scan_finish (s : SparseScan) : list (Z * KernelSymbol) := finish_loop (sc_requested s) (sc_best_lines s) None.

(** The inner loop over one buffer; [None] is a restricted file. *)
Fixpoint buffer_loop (fuel : nat) (buffer carry : list Z) (s : SparseScan) : option (list Z * SparseScan) :=
  match fuel with
  | O => Some (carry, s)
  | S fuel =>
      match buffer with
      | [] => Some (carry, s)
      | _ =>
          match memchr ch_newline buffer with
          | None => Some (carry ++ buffer, s)
          | Some newline =>
              let line := take (newline + 1) buffer in
              match process_line (match carry with [] => line | _ => carry ++ line end) s with
              | (ScanRestricted, _) => None
              | (ScanContinue, s) => buffer_loop fuel (drop (newline + 1) buffer) [] s
              end
          end
      end
  end.

Fixpoint streaming_loop (buffers : list (list Z)) (error : option ErrorKind) (carry : list Z) (s : SparseScan)
    : result (list (Z * KernelSymbol)) :=
  match buffers with
  | [] =>
      match error with
      | Some e => Err e
      | None =>
          match carry with
          | [] => Ok (scan_finish s)
          | _ => match process_line carry s with
                 | (ScanRestricted, _) => Ok []
                 | (ScanContinue, s) => Ok (scan_finish s)
                 end
          end
      end
  | buffer :: buffers =>
      match buffer_loop (length buffer) buffer carry s with
      | None => Ok []
      | Some (carry, s) => streaming_loop buffers error carry s
      end
  end.
Definition parse_sparse_kernel_symbols_streaming (r : reader) (requested : list Z) : result (list (Z * KernelSymbol)) :=
  streaming_loop (rd_buffers r) (rd_error r) [] (scan_new requested).
End symbols.

(** ** Resolution *)

Inductive KernelSymbolTable :=
  | FullTable (symbols : FullKernelSymbols)
  | SparseTable (symbols : list (Z * KernelSymbol)).

Definition hex_char (digit : Z) : Z := if digit <? 10 then 48 + digit else 87 + digit.
Fixpoint hex_digits (fuel : nat) (n : Z) : list Z :=
  match fuel with
  | O => []
  | S fuel => (if n / 16 =? 0 then [] else hex_digits fuel (n / 16)) ++ [hex_char (n mod 16)]
  end.

(** [format!("{name}+0x{offset:x}")]. *)
Definition format_symbol (name : list Z) (offset : Z) : list Z :=
  if offset =? 0 then name else name ++ [43; 48; 120] ++ hex_digits 16 offset.

Record ResolvedKernelSymbol := mkResolved { rk_name : list Z; rk_module : list Z; rk_offset : Z }.

(** ["[kernel]"]. *)
Definition kernel_module_name : list Z := [91; 107; 101; 114; 110; 101; 108; 93].
Definition saturating_sub_u64 (a b : Z) : Z := Z.max 0 (a - b).

(** [resolve_kernel_symbol]; the outer [None] is an index out of bounds. *)
Definition resolve_kernel_symbol (symbols : KernelSymbolTable) (abs_ip : Z) : option (option ResolvedKernelSymbol) :=
  found ← match symbols with
          | FullTable symbols => full_find symbols abs_ip
          | SparseTable symbols =>
              match binary_search_by (λ p, p.1 ?= abs_ip) symbols with
              | inl _ => Some None
              | inr idx => '(_, symbol) ← symbols !! idx;
                           Some (Some (ks_address symbol, ks_name symbol, ks_module symbol))
              end
          end;
  Some (
    '(address, name, module) ← found;
    let offset := saturating_sub_u64 abs_ip address in
    Some (mkResolved (format_symbol name offset) (default kernel_module_name module) offset)).
