(* ===== verification/KernelTables.v ===== *)
(** * Kernel symbol tables

    Looking up kernel symbols in a streamed scan and in the full table, and that
    both agree. *)

From stdpp Require Import prelude list numbers gmap sorting.
From S2P Require Import Prelude Contexts FdeIndex SortedKeys Kallsyms.
#[local] Open Scope Z_scope.

(** ** Looking up kernel symbols

    The streaming scan of [/proc/kallsyms] for a set of addresses and the full
    table answer alike, however the file is buffered. *)

(** ** The sorted table *)

Section nearest.
Context {T : Type} (key : T -> Z).

Lemma find_by_address_filter l address :
  ascending_keys key l -> find_by_address key l address = list.last (filter (λ x, key x <= address) l).
Proof.
  intros Hasc. unfold find_by_address. by rewrite take_partition_filter.
Qed.

Lemma keep_last_alias_elem l y : y ∈ keep_last_alias key l -> y ∈ l.
Proof.
  induction l as [|a l IH]; [done|]. cbn [keep_last_alias]. destruct l as [|b l]; [done|]. case_match.
  - intros Hy. right. by apply IH.
  - intros [->|Hy]%elem_of_cons; [left|right; by apply IH].
Qed.

Lemma keep_last_alias_sorted l :
  StronglySorted (λ a b, key a <= key b) l -> StronglySorted (λ a b, key a <= key b) (keep_last_alias key l).
Proof.
  induction 1 as [|a l Hl IH Ha]; [constructor|]. cbn [keep_last_alias]. destruct l as [|b l]; [by repeat constructor|].
  case_match; [done|]. constructor; [done|]. rewrite list.Forall_forall in Ha |- *.
  intros y Hy%keep_last_alias_elem. by apply Ha.
Qed.

(** Dropping the earlier aliases loses no answer. *)
Lemma keep_last_alias_last l address :
  StronglySorted (λ a b, key a <= key b) l ->
  list.last (filter (λ y, key y <= address) (keep_last_alias key l)) = list.last (filter (λ y, key y <= address) l).
Proof.
  induction 1 as [|a l Hl IH Ha]; [done|]. cbn [keep_last_alias]. destruct l as [|b l]; [done|].
  destruct (Z.eqb_spec (key b) (key a)) as [Heq|Hne].
  - rewrite IH, (filter_cons _ a), (filter_cons _ b). rewrite Heq. by case_decide.
  - rewrite !(filter_cons _ a). case_decide; [|done]. by rewrite (last_cons a), IH, (last_cons a).
Qed.

(** The finished table answers with the nearest symbol at or below an address,
    the last of several aliases. *)
Lemma find_nearest l address : find_by_address key (sort_and_keep_last_alias key l) address = nearest key l address.
Proof.
  unfold sort_and_keep_last_alias. pose proof (sort_by_key_sorted key l) as Hs.
  rewrite find_by_address_filter by by apply ascending_keys_sorted, keep_last_alias_sorted.
  by rewrite keep_last_alias_last, last_sorted_nearest.
Qed.
End nearest.

(** ** The lines that count *)

Record included := mkIncluded { in_address : Z; in_name : KernelSymbolMetadata; in_line : list Z }.

(** The symbols that the filter keeps, in file order, with the anchor after
    them; [None] is a file with zeroed addresses. *)
Fixpoint scan_lines (lines : list (list Z)) (text_addr : option Z) : option (option Z * list included) :=
  match lines with
  | [] => Some (text_addr, [])
  | line :: lines =>
      match parse_kernel_symbol_line_bytes line with
      | None => scan_lines lines text_addr
      | Some (address, name) =>
          if is_restricted_kernel_text address name then None
          else
            let '(include, text_addr) := should_include_kernel_symbol text_addr address name in
            '(text_addr, kept) ← scan_lines lines text_addr;
            Some (text_addr, if include then mkIncluded address name line :: kept else kept)
      end
  end.

Lemma scan_lines_app l1 l2 text_addr :
  scan_lines (l1 ++ l2) text_addr =
  ('(text_addr, k1) ← scan_lines l1 text_addr; '(text_addr, k2) ← scan_lines l2 text_addr; Some (text_addr, k1 ++ k2)).
Proof.
  revert text_addr. induction l1 as [|line l1 IH]; intros text_addr; cbn [app scan_lines].
  { cbn. by destruct (scan_lines l2 text_addr) as [[]|]. }
  destruct (parse_kernel_symbol_line_bytes line) as [[address name]|]; [|by rewrite IH].
  destruct (is_restricted_kernel_text address name); [done|].
  destruct (should_include_kernel_symbol text_addr address name) as [include ta]. rewrite IH.
  destruct (scan_lines l1 ta) as [[ta1 k1]|]; [|done]. cbn. destruct (scan_lines l2 ta1) as [[ta2 k2]|]; [|done].
  cbn. by destruct include.
Qed.

(** Kept lines parse to what was kept. *)
Lemma scan_lines_parsed lines text_addr text_addr' kept :
  scan_lines lines text_addr = Some (text_addr', kept) ->
  Forall (λ x, parse_kernel_symbol_line_bytes (in_line x) = Some (in_address x, in_name x)) kept.
Proof.
  revert text_addr text_addr' kept. induction lines as [|line lines IH]; intros ta ta' kept; cbn [scan_lines].
  { intros [= <- <-]. constructor. }
  destruct (parse_kernel_symbol_line_bytes line) as [[address name]|] eqn:Hp; [|apply IH].
  destruct (is_restricted_kernel_text address name); [done|].
  destruct (should_include_kernel_symbol ta address name) as [include ta1].
  destruct (scan_lines lines ta1) as [[ta2 k]|] eqn:Hs; [|done]. cbn. intros [= <- <-]. apply IH in Hs.
  destruct include; [by constructor|done].
Qed.

(** ** Lines across buffers *)

Definition no_newline (bytes : list Z) : Prop := ch_newline ∉ bytes.

Lemma memchr_None n l : memchr n l = None -> n ∉ l.
Proof.
  induction l as [|b l IH]; [by intros _ ?%elem_of_nil|]. cbn. destruct (Z.eqb_spec b n) as [|Hne]; [done|].
  intros H [->|Hin]%elem_of_cons; [done|]. apply IH; [|done]. by destruct (memchr n l).
Qed.

Lemma memchr_Some n l i :
  memchr n l = Some i -> l = take i l ++ n :: drop (i + 1) l /\ take (i + 1) l = take i l ++ [n] /\ n ∉ take i l.
Proof.
  revert i. induction l as [|b l IH]; intros i; [done|]. cbn. destruct (Z.eqb_spec b n) as [->|Hne].
  { intros [= <-]. cbn. rewrite take_0, drop_0. split_and!; [done|done|by intros ?%elem_of_nil]. }
  destruct (memchr n l) as [j|]; [|done]. intros [= <-]. destruct (IH j eq_refl) as (H1 & H2 & H3). cbn. split_and!.
  - by f_equal.
  - by rewrite H2.
  - intros [->|Hin]%elem_of_cons; done.
Qed.

Lemma split_lines_no_newline l : no_newline l -> split_lines l = ([], l).
Proof.
  induction l as [|b l IH]; [done|]. intros Hn. unfold no_newline in *. rewrite not_elem_of_cons in Hn. destruct Hn as [Hb Hl].
  cbn. rewrite (IH Hl). destruct (Z.eqb_spec b ch_newline); [congruence|done].
Qed.

Lemma split_lines_line l rest :
  no_newline l -> split_lines (l ++ ch_newline :: rest) = ((l ++ [ch_newline]) :: (split_lines rest).1, (split_lines rest).2).
Proof.
  induction l as [|b l IH]; intros Hn.
  { cbn. by destruct (split_lines rest). }
  unfold no_newline in *. rewrite not_elem_of_cons in Hn. destruct Hn as [Hb Hl]. cbn [app split_lines]. rewrite (IH Hl).
  destruct (Z.eqb_spec b ch_newline); [congruence|done].
Qed.

Lemma split_lines_tail l : no_newline (split_lines l).2.
Proof.
  induction l as [|b l IH]; [by intros ?%elem_of_nil|]. cbn. destruct (split_lines l) as [ls t].
  destruct (Z.eqb_spec b ch_newline) as [|Hne]; [done|]. destruct ls; cbn in *; [|done].
  unfold no_newline. rewrite not_elem_of_cons. by split.
Qed.

Lemma split_lines_app x y :
  split_lines (x ++ y) =
  ((split_lines x).1 ++ (split_lines ((split_lines x).2 ++ y)).1, (split_lines ((split_lines x).2 ++ y)).2).
Proof.
  induction x as [|b x IH]; [cbn [app split_lines fst snd]; apply surjective_pairing|]. cbn [app]. cbn [split_lines]. rewrite IH.
  destruct (split_lines x) as [lx tx]. cbn [fst snd]. destruct (Z.eqb_spec b ch_newline); [done|].
  destruct lx as [|l lx]; cbn [app fst snd]; [|done]. cbn [split_lines]. destruct (split_lines (tx ++ y)) as [l t].
  destruct (Z.eqb_spec b ch_newline); [done|]. by destruct l.
Qed.

(** ** The sparse scan *)

(** Folding [process_line]; [None] is a restricted file. *)
Fixpoint scan_all (lines : list (list Z)) (s : SparseScan) : option SparseScan :=
  match lines with
  | [] => Some s
  | line :: lines => match process_line line s with
                     | (ScanRestricted, _) => None
                     | (ScanContinue, s) => scan_all lines s
                     end
  end.

Lemma scan_all_app l1 l2 s : scan_all (l1 ++ l2) s = (s ← scan_all l1 s; scan_all l2 s).
Proof. revert s. induction l1 as [|l l1 IH]; intros s; [done|]. cbn. by destruct (process_line l s) as [[] s']. Qed.

Lemma buffer_loop_lines fuel : forall buffer carry s,
  (length buffer <= fuel)%nat -> no_newline carry ->
  buffer_loop fuel buffer carry s =
  (s ← scan_all (split_lines (carry ++ buffer)).1 s; Some ((split_lines (carry ++ buffer)).2, s)).
Proof.
  induction fuel as [|fuel IH]; intros buffer carry s Hlen Hc.
  { destruct buffer; [|cbn in Hlen; lia]. by rewrite app_nil_r, split_lines_no_newline. }
  cbn [buffer_loop]. destruct buffer as [|b buffer]; [by rewrite app_nil_r, split_lines_no_newline|].
  set (whole := b :: buffer) in *. destruct (memchr ch_newline whole) as [i|] eqn:Hm.
  - apply memchr_Some in Hm as (Hw & Ht & Hn).
    assert (carry ++ whole = (carry ++ take i whole) ++ ch_newline :: drop (i + 1) whole) as ->
      by (rewrite <-app_assoc; by f_equal).
    rewrite split_lines_line by (unfold no_newline; rewrite elem_of_app; by intros []).
    cbn [fst snd scan_all]. rewrite Ht.
    replace (match carry with [] => take i whole ++ [ch_newline] | _ :: _ => carry ++ take i whole ++ [ch_newline] end)
      with (carry ++ take i whole ++ [ch_newline]) by (by destruct carry). rewrite app_assoc.
    destruct (process_line _ s) as [[] s']; [|done]. apply IH; [|by intros ?%elem_of_nil].
    rewrite length_drop. lia.
  - apply memchr_None in Hm. rewrite split_lines_no_newline; [done|]. unfold no_newline. rewrite elem_of_app. by intros [].
Qed.

Lemma split_lines_tail_again l : no_newline l -> split_lines (l ++ []) = ([], l).
Proof. rewrite app_nil_r. apply split_lines_no_newline. Qed.

Definition tail_line (tail : list Z) : list (list Z) := match tail with [] => [] | _ => [tail] end.

(** However the file is cut into buffers, the scan sees its lines. *)
Lemma streaming_loop_lines lossy buffers error : forall carry s,
  no_newline carry ->
  streaming_loop lossy buffers error carry s =
  let '(lines, tail) := split_lines (carry ++ concat buffers) in
  match scan_all lines s with
  | None => Ok []
  | Some s =>
      match error with
      | Some e => Err e
      | None => Ok (match scan_all (tail_line tail) s with Some s => scan_finish lossy s | None => [] end)
      end
  end.
Proof.
  induction buffers as [|buffer buffers IH]; intros carry s Hc; cbn [streaming_loop concat].
  { rewrite split_lines_tail_again by done. cbn [app scan_all]. destruct error; [done|]. destruct carry as [|c carry]; [done|]. cbn.
    by destruct (process_line _ s) as [[] s']. }
  rewrite buffer_loop_lines by done. rewrite app_assoc, (split_lines_app (carry ++ buffer)).
  destruct (split_lines (carry ++ buffer)) as [lines tail] eqn:Hs. cbn [fst snd].
  rewrite scan_all_app. destruct (scan_all lines s) as [s'|]; [|done]. cbn [mbind option_bind].
  rewrite IH; [by destruct (split_lines (tail ++ concat buffers))|].
  change tail with (lines, tail).2. rewrite <-Hs. apply split_lines_tail.
Qed.

(** The bucket of an address among the requests. *)
Definition bucket (requested : list Z) (x : included) : nat := partition_point (λ r, r <? in_address x) requested.
Definition winner (requested : list Z) (kept : list included) (i : nat) : option included :=
  top in_address (filter (λ x, bucket requested x = i) kept).
Definition best_of (x : included) : Z * list Z := (in_address x, in_line x).

(** Each bucket holds its highest symbol, the last of several aliases. *)
Definition scan_inv (requested : list Z) (text_addr : option Z) (kept : list included) (s : SparseScan) : Prop :=
  s = mkScan requested ((λ i, best_of <$> winner requested kept i) <$> seq 0 (length requested)) text_addr.

Lemma winner_snoc requested kept x i :
  winner requested (kept ++ [x]) i =
  if decide (bucket requested x = i) then better in_address (winner requested kept i) x else winner requested kept i.
Proof. exact (top_filter_snoc in_address (λ y, bucket requested y = i) kept x). Qed.

Lemma best_better best x :
  (match best_of <$> best with
   | Some (best_address, best_line) =>
       if best_address <=? in_address x then Some (in_address x, in_line x) else Some (best_address, best_line)
   | None => Some (in_address x, in_line x)
   end) = best_of <$> better in_address best x.
Proof. destruct best as [b|]; [|done]. cbn. by destruct (in_address b <=? in_address x). Qed.

Lemma insert_fmap_seq {B} (f g : nat -> B) n i v :
  (i < n)%nat -> g i = v -> (forall j, j <> i -> g j = f j) -> <[i := v]> (f <$> seq 0 n) = g <$> seq 0 n.
Proof.
  intros Hi Hv Hg. apply list_eq. intros j. destruct (decide (j = i)) as [->|Hne].
  - rewrite list_lookup_insert_eq by (by rewrite length_fmap, length_seq). rewrite list_lookup_fmap, lookup_seq_lt by done. cbn. by f_equal.
  - rewrite list_lookup_insert_ne by done. rewrite !list_lookup_fmap. destruct (seq 0 n !! j) as [k|] eqn:Hk; [|done].
    apply lookup_seq in Hk as [-> _]. cbn. f_equal. symmetry. by apply Hg.
Qed.

Lemma process_line_inv line requested text_addr kept s :
  scan_inv requested text_addr kept s ->
  match scan_lines [line] text_addr with
  | None => (process_line line s).1 = ScanRestricted
  | Some (text_addr', more) =>
      exists s', process_line line s = (ScanContinue, s') /\ scan_inv requested text_addr' (kept ++ more) s'
  end.
Proof.
  intros ->. unfold process_line. cbn [scan_lines sc_requested sc_best_lines sc_text_addr].
  destruct (parse_kernel_symbol_line_bytes line) as [[address name]|]; [|eexists; by rewrite app_nil_r].
  destruct (is_restricted_kernel_text address name); [done|].
  destruct (should_include_kernel_symbol text_addr address name) as [[] ta]; cbn [mbind option_bind]; [|eexists; by rewrite app_nil_r].
  set (x := mkIncluded address name line). change (partition_point _ requested) with (bucket requested x).
  rewrite list_lookup_fmap. unfold scan_inv. destruct (decide (bucket requested x < length requested)%nat) as [Hlt|Hge].
  - rewrite lookup_seq_lt by done. cbn [fmap option_fmap option_map]. eexists. split; [done|]. f_equal.
    apply insert_fmap_seq; [done|..].
    + rewrite winner_snoc, decide_True by done. symmetry. apply (best_better (winner requested kept (bucket requested x)) x).
    + intros j Hj. by rewrite winner_snoc, decide_False.
  - rewrite lookup_seq_ge by lia. cbn [fmap option_fmap option_map]. eexists. split; [done|]. f_equal.
    apply list_fmap_ext. intros i j [-> Hj]%lookup_seq. by rewrite winner_snoc, decide_False by lia.
Qed.

Lemma scan_all_inv lines : forall requested text_addr kept s,
  scan_inv requested text_addr kept s ->
  match scan_lines lines text_addr with
  | None => scan_all lines s = None
  | Some (text_addr', more) => exists s', scan_all lines s = Some s' /\ scan_inv requested text_addr' (kept ++ more) s'
  end.
Proof.
  induction lines as [|line lines IH]; intros requested ta kept s Hinv.
  { exists s. by rewrite app_nil_r. }
  change (line :: lines) with ([line] ++ lines). rewrite scan_lines_app. cbn [app scan_all].
  pose proof (process_line_inv line _ _ _ _ Hinv) as Hline. destruct (scan_lines [line] ta) as [[ta1 k1]|].
  - destruct Hline as (s1 & -> & Hs1). specialize (IH _ _ _ _ Hs1). cbn.
    destruct (scan_lines lines ta1) as [[ta2 k2]|]; [|done]. cbn. by rewrite app_assoc.
  - by destruct (process_line line s) as [[] ?].
Qed.

(** A symbol is at or below a request when its bucket is at or before it. *)
Lemma bucket_le requested x i r :
  StronglySorted Z.lt requested -> requested !! i = Some r -> in_address x <= r <-> (bucket requested x <= i)%nat.
Proof.
  unfold bucket. intros Hs. revert i. induction Hs as [|r0 requested Hs IH Hr]; intros i; [done|]. cbn [partition_point].
  rewrite list.Forall_forall in Hr. destruct (Z.ltb_spec r0 (in_address x)) as [Hlt|Hge].
  - destruct i as [|i]; cbn; [intros [= <-]; lia|]. intros Hi. rewrite (IH i Hi). lia.
  - intros Hi. split; [lia|]. intros _. destruct i as [|i]; cbn in Hi; [congruence|].
    specialize (Hr r ltac:(by eapply list_elem_of_lookup_2)). lia.
Qed.

Section finish.
Context (lossy : list Z -> list Z) (requested : list Z) (kept : list included).
Hypothesis Hsorted : StronglySorted Z.lt requested.
Hypothesis Hparsed : Forall (λ x, parse_kernel_symbol_line_bytes (in_line x) = Some (in_address x, in_name x)) kept.

Definition symbol_of (x : included) : KernelSymbol := kernel_symbol_from_name lossy (in_address x) (in_name x).

(** The winner of the buckets before [k]. *)
Definition carried (k : nat) : option included := top in_address (filter (λ x, bucket requested x < k)%nat kept).

Lemma carried_S k r :
  requested !! k = Some r ->
  carried (S k) = match winner requested kept k with Some x => Some x | None => carried k end.
Proof.
  intros Hk. unfold carried, winner. rewrite <-(top_split in_address (λ x, bucket requested x = k) (λ x, bucket requested x < k)%nat).
  - f_equal. apply list_filter_iff. intros x. lia.
  - intros x y Hx Hy. destruct k as [|k]; [lia|].
    destruct (lookup_lt_is_Some_2 requested k) as [r' Hr']; [apply lookup_lt_Some in Hk; lia|].
    pose proof (bucket_le _ x _ _ Hsorted Hr'). pose proof (bucket_le _ y _ _ Hsorted Hr'). lia.
Qed.

Lemma carried_nearest k r : requested !! k = Some r -> carried (S k) = nearest in_address kept r.
Proof.
  intros Hk. unfold carried, nearest. f_equal. apply list_filter_iff. intros x.
  rewrite (bucket_le _ x _ _ Hsorted Hk). lia.
Qed.

(** The answer for one request. *)
Definition answer (r : Z) : option (Z * KernelSymbol) := (λ x, (r, symbol_of x)) <$> nearest in_address kept r.

Lemma finish_loop_answers n : forall k, (k + n = length requested)%nat ->
  finish_loop lossy (drop k requested) ((λ i, best_of <$> winner requested kept i) <$> seq k n) (symbol_of <$> carried k) =
  omap answer (drop k requested).
Proof.
  induction n as [|n IH]; intros k Hk; [by rewrite drop_ge by lia|].
  destruct (lookup_lt_is_Some_2 requested k) as [r Hr]; [lia|]. rewrite (drop_S _ _ _ Hr). cbn [seq fmap list_fmap finish_loop].
  assert (match best_of <$> winner requested kept k with
          | Some (_, line) => '(address, name) ← parse_kernel_symbol_line_bytes line; Some (kernel_symbol_from_name lossy address name)
          | None => symbol_of <$> carried k
          end = symbol_of <$> carried (S k)) as ->.
  { rewrite (carried_S _ _ Hr). destruct (winner requested kept k) as [x|] eqn:Hx; [|done]. cbn.
    apply top_elem, list_elem_of_filter in Hx as [_ Hx]. rewrite list.Forall_forall in Hparsed. by rewrite (Hparsed x Hx). }
  specialize (IH (S k) ltac:(lia)). rewrite (carried_nearest _ _ Hr) in *. cbn [omap list_omap]. unfold answer at 1.
  destruct (nearest in_address kept r); cbn [fmap option_fmap option_map] in *; [f_equal|]; apply IH.
Qed.

Lemma scan_finish_answers text_addr s : scan_inv requested text_addr kept s -> scan_finish lossy s = omap answer requested.
Proof.
  intros ->. unfold scan_finish. cbn [sc_requested sc_best_lines].
  pose proof (finish_loop_answers (length requested) 0 eq_refl) as Hf. rewrite drop_0 in Hf.
  assert (carried 0 = None) as Hc by (unfold carried; rewrite filter_none; [done|intros; lia]).
  by rewrite Hc in Hf.
Qed.
End finish.

(** ** The two kernel symbol tables agree

    The full table, with its arena of names and its interned modules, denotes the
    symbols of the file; the sparse table of a streaming scan resolves every
    requested address like it. *)

Section full.
Context (lossy : list Z -> list Z).

(** ** The builder *)

(** An entry of the table is a symbol of the file. *)
Definition denotes (names : list Z) (modules : list (list Z)) (f : FullKernelSymbol) (x : included) : Prop :=
  fs_address f = in_address x /\
  (Z.to_nat (fs_name_start f) + Z.to_nat (fs_name_len f) <= length names)%nat /\
  take (Z.to_nat (fs_name_len f)) (drop (Z.to_nat (fs_name_start f)) names) = lossy (km_name (in_name x)) /\
  match fs_module f, km_module (in_name x) with
  | None, None => True
  | Some id, Some module => modules !! Z.to_nat id = Some (kernel_symbol_module_to_string lossy module)
  | _, _ => False
  end.

Record builder_ok (b : FullKernelSymbolsBuilder) (kept : list included) : Prop := {
  bo_symbols : Forall2 (denotes (fb_names b) (fb_modules b)) (fb_symbols b) kept;
  bo_modules : forall m id, fb_module_ids b !! m = Some id -> fb_modules b !! Z.to_nat id = Some (kernel_symbol_module_to_string lossy m);
}.

(** The arena and the modules only grow. *)
Lemma denotes_grow names modules f x more_names more_modules :
  denotes names modules f x -> denotes (names ++ more_names) (modules ++ more_modules) f x.
Proof.
  intros (Ha & Hlen & Hn & Hm). split_and!; [done|rewrite length_app; lia| |].
  - rewrite <-Hn, drop_app_le by lia. rewrite take_app_le; [done|]. rewrite length_drop. lia.
  - destruct (fs_module f), (km_module (in_name x)); try done. by apply lookup_app_l_Some.
Qed.

Lemma builder_ok_default : builder_ok builder_default [].
Proof. split; [constructor|]. intros m id. cbn. by rewrite lookup_empty. Qed.

Lemma table_index_Ok n id : kernel_symbol_table_index n = Ok id -> id = Z.of_nat n.
Proof. unfold kernel_symbol_table_index, u32_try_from. case_match; by intros [=]. Qed.

(** Interning keeps the ids that are out and answers with the id of its module. *)
Lemma module_id_ok module b id b' :
  module_id lossy module b = (Ok id, b') ->
  (forall m i, fb_module_ids b !! m = Some i -> fb_modules b !! Z.to_nat i = Some (kernel_symbol_module_to_string lossy m)) ->
  fb_symbols b' = fb_symbols b /\ fb_names b' = fb_names b /\ (exists more, fb_modules b' = fb_modules b ++ more) /\
  fb_modules b' !! Z.to_nat id = Some (kernel_symbol_module_to_string lossy module) /\
  forall m i, fb_module_ids b' !! m = Some i -> fb_modules b' !! Z.to_nat i = Some (kernel_symbol_module_to_string lossy m).
Proof.
  unfold module_id. destruct (fb_module_ids b !! module) as [i|] eqn:Hi.
  { intros [= <- <-] Hids. split_and!; [done|done|by exists []; rewrite app_nil_r|by apply Hids|done]. }
  destruct (kernel_symbol_table_index (length (fb_modules b))) as [i|] eqn:Hx; [|done]. intros [= <- <-] Hids.
  apply table_index_Ok in Hx. cbn [fb_symbols fb_names fb_modules fb_module_ids].
  assert ((fb_modules b ++ [kernel_symbol_module_to_string lossy module]) !! Z.to_nat i =
          Some (kernel_symbol_module_to_string lossy module)) as Hnew.
  { rewrite Hx, Nat2Z.id. rewrite lookup_app_r by lia. by rewrite Nat.sub_diag. }
  split_and!; [done|done|by eexists|done|]. intros m j. destruct (decide (m = module)) as [->|Hne].
  - rewrite lookup_insert_eq. by intros [= <-].
  - rewrite lookup_insert_ne by done. intros Hm%Hids. by apply lookup_app_l_Some.
Qed.

Lemma builder_push_ok address name line b b' kept :
  builder_push lossy address (km_name name) (km_module name) b = Ok b' -> builder_ok b kept ->
  builder_ok b' (kept ++ [mkIncluded address name line]).
Proof.
  unfold builder_push. intros Hpush [Hs Hm]. cbn [fb_names] in Hpush. rewrite length_app in Hpush.
  replace (length (fb_names b) + length (lossy (km_name name)) - length (fb_names b))%nat with (length (lossy (km_name name)))
    in Hpush by lia.
  destruct (kernel_symbol_table_index (length (fb_names b))) as [start|] eqn:Hstart; [|done]. apply table_index_Ok in Hstart.
  destruct (kernel_symbol_table_index (length (lossy (km_name name)))) as [len|] eqn:Hlen; [|done]. apply table_index_Ok in Hlen.
  cbn [mbind result_mbind] in Hpush.
  assert (forall modules more module, (exists m', modules = fb_modules b ++ m') ->
    match module, km_module name with
    | None, None => True
    | Some id, Some m => modules !! Z.to_nat id = Some (kernel_symbol_module_to_string lossy m)
    | _, _ => False end -> more = fb_names b ++ lossy (km_name name) ->
    Forall2 (denotes more modules) (fb_symbols b ++ [mkFullSymbol address start len module])
      (kept ++ [mkIncluded address name line])) as Hnew.
  { intros modules more module [m' ->] Hmod ->. apply Forall2_app.
    - eapply Forall2_impl; [exact Hs|]. intros f x. apply denotes_grow.
    - constructor; [|constructor]. unfold denotes. cbn [fs_address fs_name_start fs_name_len fs_module in_address in_name].
      rewrite Hstart, Hlen, !Nat2Z.id, length_app. split_and!; [done|lia| |done].
      by rewrite drop_app_length, take_ge. }
  destruct (km_module name) as [module|]; cbn [mbind result_mbind] in Hpush.
  - destruct (module_id lossy module _) as [[id|] b1] eqn:Hid; [|done]. cbn in Hpush. injection Hpush as <-.
    apply module_id_ok in Hid as (Hs1 & Hn1 & Hmore & Hlook & Hids); [|done].
    split; cbn [fb_symbols fb_names fb_modules fb_module_ids]; [|done]. rewrite Hs1. cbn [fb_symbols].
    by apply Hnew; [..|done].
  - cbn in Hpush. injection Hpush as <-. split; cbn [fb_symbols fb_names fb_modules fb_module_ids]; [|done].
    apply Hnew; [by exists []; rewrite app_nil_r|done|done].
Qed.

(** ** Parsing *)

Lemma full_loop_scan lines : forall text_addr b kept,
  builder_ok b kept ->
  match full_loop lossy lines text_addr b with
  | Err _ => True
  | Ok (inl t) => t = full_symbols_default /\ scan_lines lines text_addr = None
  | Ok (inr (text_addr', b')) => exists more, scan_lines lines text_addr = Some (text_addr', more) /\ builder_ok b' (kept ++ more)
  end.
Proof.
  induction lines as [|line lines IH]; intros ta b kept Hb; cbn [full_loop scan_lines].
  { exists []. by rewrite app_nil_r. }
  destruct (parse_kernel_symbol_line_bytes line) as [[address name]|]; [|by apply IH].
  destruct (is_restricted_kernel_text address name); [done|].
  destruct (should_include_kernel_symbol ta address name) as [[] ta1].
  - destruct (builder_push lossy address (km_name name) (km_module name) b) as [b1|] eqn:Hp; [|done].
    cbn [mbind result_mbind]. specialize (IH ta1 b1 _ (builder_push_ok _ _ line _ _ _ Hp Hb)).
    destruct (full_loop lossy lines ta1 b1) as [[t|[ta2 b2]]|]; [|destruct IH as (more & -> & Hb2)|done].
    + destruct IH as [-> ->]. done.
    + exists (mkIncluded address name line :: more). split; [done|]. by rewrite <-app_assoc in Hb2.
  - specialize (IH ta1 b kept Hb). destruct (full_loop lossy lines ta1 b) as [[t|[ta2 b2]]|]; [|destruct IH as (more & -> & Hb2)|done].
    + destruct IH as [-> ->]. done.
    + by exists more.
Qed.

Definition scan_file (bytes : list Z) : option (list included) :=
  let '(lines, tail) := split_lines bytes in snd <$> scan_lines (lines ++ tail_line tail) None.

(** The file is read to its end, or until a line with a zeroed address. *)
Definition readable (r : reader) : Prop :=
  rd_error r = None \/ scan_lines (split_lines (concat (rd_buffers r))).1 None = None.

(** A table that parses is the finished table of the symbols of the file; an
    unreadable kernel has an empty one. *)
Lemma parse_full_denotes r t :
  parse_full_kernel_symbols lossy r = Ok t ->
  match scan_file (concat (rd_buffers r)) with
  | None => t = full_symbols_default /\ readable r
  | Some kept => rd_error r = None /\ exists b, t = builder_finish b /\ builder_ok b kept
  end.
Proof.
  unfold parse_full_kernel_symbols, scan_file, readable. destruct (split_lines (concat (rd_buffers r))) as [lines tail].
  pose proof (full_loop_scan lines None _ _ builder_ok_default) as Hl. rewrite scan_lines_app.
  destruct (full_loop lossy lines None builder_default) as [[t1|[ta1 b1]]|]; [| |done]; cbn [mbind result_mbind].
  { destruct Hl as [-> Hl]. rewrite Hl. intros [= <-]. cbn. auto. }
  destruct Hl as (k1 & Hk1 & Hb1). rewrite Hk1. destruct (rd_error r); [done|]. cbn [mbind option_bind].
  pose proof (full_loop_scan (tail_line tail) ta1 b1 _ Hb1) as Ht. fold (tail_line tail).
  destruct (full_loop lossy (tail_line tail) ta1 b1) as [[t2|[ta2 b2]]|]; [| |done]; cbn [mbind result_mbind].
  - destruct Ht as [-> ->]. intros [= <-]. cbn. auto.
  - destruct Ht as (k2 & -> & Hb2). intros [= <-]. cbn. split; [done|]. by exists b2.
Qed.

(** ** Lookups *)

Definition found_symbol (x : included) : Z * list Z * option (list Z) :=
  let s := symbol_of lossy x in (ks_address s, ks_name s, ks_module s).

(** The full table answers with the nearest symbol of the file and never indexes
    out of bounds. *)
Lemma full_find_nearest b kept address :
  builder_ok b kept -> full_find (builder_finish b) address = Some (found_symbol <$> nearest in_address kept address).
Proof.
  intros [Hs _]. unfold full_find, builder_finish. cbn [ft_symbols ft_names ft_modules]. rewrite find_nearest.
  apply (nearest_rel fs_address in_address _ _ _ address) in Hs; [|by intros f x [? _]].
  destruct Hs as [f x (Ha & Hlen & Hn & Hm)|]; [|done]. rewrite (proj2 (Nat.leb_le _ _)) by done.
  rewrite Nat.add_comm, Nat.add_sub, Hn, Ha. cbn. unfold found_symbol, symbol_of, kernel_symbol_from_name. cbn.
  destruct (fs_module f) as [id|], (km_module (in_name x)) as [m|]; try done. by rewrite Hm.
Qed.

Lemma answers_sorted requested kept :
  StronglySorted Z.lt requested -> ascending_keys fst (omap (answer lossy kept) requested).
Proof.
  intros Hs. apply ascending_keys_sorted. induction Hs as [|r requested Hs IH Hr]; [constructor|]. cbn [omap list_omap].
  destruct (answer lossy kept r) as [p|] eqn:Hp; [|done]. constructor; [done|].
  rewrite list.Forall_forall in Hr. apply list.Forall_forall.
  intros q Hq. apply list_elem_of_omap in Hq as (r' & Hr' & Hq). unfold answer in *.
  destruct (nearest in_address kept r), (nearest in_address kept r'); cbn in *; simplify_eq. cbn. specialize (Hr r' Hr'). lia.
Qed.

(** The sparse table holds the nearest symbol of every request. *)
Lemma sparse_find requested kept address :
  StronglySorted Z.lt requested -> address ∈ requested ->
  match binary_search_by (λ p, p.1 ?= address) (omap (answer lossy kept) requested) with
  | inl _ => Some None
  | inr idx => '(_, symbol) ← omap (answer lossy kept) requested !! idx;
               Some (Some (ks_address symbol, ks_name symbol, ks_module symbol))
  end = Some (found_symbol <$> nearest in_address kept address).
Proof.
  intros Hs Ha. pose proof (binary_search_by_spec fst _ address (answers_sorted _ kept Hs)) as Hb.
  destruct (binary_search_by _ _) as [i|i].
  - destruct Hb as (Hi & Habove & Hbelow). destruct (nearest in_address kept address) as [x|] eqn:Hx; [exfalso|done].
    assert ((address, symbol_of lossy x) ∈ omap (answer lossy kept) requested) as Hin.
    { apply list_elem_of_omap. exists address. split; [done|]. unfold answer. by rewrite Hx. }
    apply list_elem_of_lookup_1 in Hin as [j Hj]. destruct (decide (j < i)%nat) as [Hlt|Hge].
    + specialize (Hbelow j _ Hlt Hj). cbn in Hbelow. lia.
    + specialize (Habove j _ ltac:(lia) Hj). cbn in Habove. lia.
  - destruct Hb as ([r s] & Hi & Hr). rewrite Hi. cbn. apply list_elem_of_lookup_2, list_elem_of_omap in Hi as (r' & _ & Hr').
    unfold answer in Hr'. destruct (nearest in_address kept r') as [x|] eqn:Hx; cbn in *; [|done]. simplify_eq. by rewrite Hx.
Qed.

Lemma scan_new_inv requested : scan_inv requested None [] (scan_new requested).
Proof.
  unfold scan_inv, scan_new. f_equal. apply list_eq. intros i. rewrite list_lookup_fmap.
  destruct (decide (i < length requested)%nat).
  - by rewrite lookup_replicate_2, lookup_seq_lt.
  - rewrite lookup_seq_ge by lia. apply lookup_replicate_None. lia.
Qed.

Lemma sparse_parse r requested :
  StronglySorted Z.lt requested -> readable r ->
  parse_sparse_kernel_symbols_streaming lossy r requested =
  Ok (match scan_file (concat (rd_buffers r)) with Some kept => omap (answer lossy kept) requested | None => [] end).
Proof.
  intros Hs Hr. unfold parse_sparse_kernel_symbols_streaming, scan_file, readable in *.
  rewrite streaming_loop_lines by (by intros ?%elem_of_nil). cbn [app].
  destruct (split_lines (concat (rd_buffers r))) as [lines tail]. cbn [fst] in Hr. rewrite scan_lines_app.
  pose proof (scan_all_inv lines _ _ _ _ (scan_new_inv requested)) as Hl.
  destruct (scan_lines lines None) as [[ta1 k1]|] eqn:Hk1; [|by rewrite Hl].
  destruct Hl as (s1 & -> & Hs1). destruct Hr as [->|?]; [|done]. apply (scan_all_inv (tail_line tail)) in Hs1. cbn [mbind option_bind].
  destruct (scan_lines (tail_line tail) ta1) as [[ta2 k2]|] eqn:Hk2; [|by rewrite Hs1].
  destruct Hs1 as (s2 & -> & Hs2). cbn [mbind option_bind fmap option_fmap option_map snd].
  apply scan_lines_parsed in Hk1, Hk2. by rewrite (scan_finish_answers lossy requested _ Hs (Forall_app_2 _ _ _ Hk1 Hk2) _ _ Hs2).
Qed.
End full.

(** ** The tables agree *)

(** C24: wherever the full table parses, the streaming scan for any strictly
    ascending set of addresses succeeds too, however the file is cut into
    buffers; for every requested address both tables are in bounds and resolve to
    the same name, module and offset, or both to nothing. *)
Theorem sparse_table_is_full_table lossy r t requested :
  parse_full_kernel_symbols lossy r = Ok t -> StronglySorted Z.lt requested ->
  exists s, parse_sparse_kernel_symbols_streaming lossy r requested = Ok s /\
    forall address, address ∈ requested ->
      is_Some (resolve_kernel_symbol (FullTable t) address) /\
      resolve_kernel_symbol (SparseTable s) address = resolve_kernel_symbol (FullTable t) address.
Proof.
  intros Ht%parse_full_denotes Hs. assert (readable r) as Hr.
  { destruct (scan_file _); [|by destruct Ht]. left. by destruct Ht. }
  eexists. split; [by apply sparse_parse|]. intros address Ha. unfold resolve_kernel_symbol.
  destruct (scan_file (concat (rd_buffers r))) as [kept|].
  - destruct Ht as (_ & b & -> & Hb). rewrite (full_find_nearest lossy b kept address Hb), (sparse_find lossy requested kept address Hs Ha).
    split; [by eexists|done].
  - destruct Ht as [-> _]. split; [by eexists|done].
Qed.

(** A file in two buffers, cut inside a line, with an alias. *)
Definition sample_kallsyms : reader := mkReader
  [[102; 102; 48; 48; 32; 84; 32; 95; 116; 101; 120; 116; 10; 102; 102; 49; 48; 32; 116; 32];
   [102; 111; 111; 9; 91; 109; 93; 10; 102; 102; 48; 56; 32; 84; 32; 97; 10; 102; 102; 49; 48; 32; 84; 32; 98; 97; 114; 10]] None.

Definition sample_full : FullKernelSymbols :=
  Eval vm_compute in match parse_full_kernel_symbols (λ b, b) sample_kallsyms with Ok t => t | Err _ => full_symbols_default end.
Definition sample_sparse : list (Z * KernelSymbol) :=
  Eval vm_compute in
    match parse_sparse_kernel_symbols_streaming (λ b, b) sample_kallsyms [65284; 65298] with Ok s => s | Err _ => [] end.

Lemma sample_full_parses : parse_full_kernel_symbols (λ b, b) sample_kallsyms = Ok sample_full.
Proof. by vm_compute. Qed.
Lemma sample_sparse_parses : parse_sparse_kernel_symbols_streaming (λ b, b) sample_kallsyms [65284; 65298] = Ok sample_sparse.
Proof. by vm_compute. Qed.

(** [bar+0x2], of the two aliases the last. *)
Lemma sparse_table_is_full_table_witness :
  resolve_kernel_symbol (SparseTable sample_sparse) 65298 = resolve_kernel_symbol (FullTable sample_full) 65298 /\
  resolve_kernel_symbol (FullTable sample_full) 65298 =
    Some (Some (mkResolved [98; 97; 114; 43; 48; 120; 50] kernel_module_name 2)).
Proof.
  destruct (sparse_table_is_full_table (λ b, b) sample_kallsyms sample_full [65284; 65298] sample_full_parses
    ltac:(repeat constructor; lia)) as (s & Hs & Heq).
  rewrite sample_sparse_parses in Hs. injection Hs as <-. split; [apply Heq; right; left|by vm_compute].
Defined.
