(* ===== verification/Unwinder.v ===== *)
(** * The framehop unwinder

    [UnwinderInternal] of [crates/framehop-stackpulse/src/unwinder.rs], as the
    recorder builds it (without the Mach-O and PE features): the module list,
    the search for a module's unwind information, and [with_cache], which
    executes a cached rule or finds one.  The architecture is the class
    [Unwinding]; parsing of DWARF sections is [gimli]'s ([Gimli]). *)

From stdpp Require Import prelude list numbers.
From S2P Require Import Prelude X86Regs X86Rules RuleCache SampleStack Dwarf X86Dwarf FdeIndex.
#[local] Open Scope Z_scope.

(** ** Architectures *)

(** The traits [UnwindRule] and [DwarfUnwinding]; [None] is a panic. *)
Class Unwinding (Rule Regs : Type) := {
  arch_exec : (Z -> option Z) -> Rule -> bool -> Regs -> outcome (option Z) * Regs;
  arch_exec_with_dwarf_register_rules : (Z -> option Z) -> Rule -> Z -> bool -> Regs -> outcome (option Z) * Regs;
  arch_fallback_rule : Rule;
  arch_unwind_frame : Evaluator -> Encoding -> (Z -> option Z) -> UnwindTableRow -> bool -> Regs ->
    option ((DwarfUnwinderError + UnwindResult Rule) * Regs);
  arch_rule_if_uncovered_by_fde : Rule;
}.

#[global] Instance x86_unwinding : Unwinding UnwindRule UnwindRegs := {|
  arch_exec := exec;
  arch_exec_with_dwarf_register_rules := exec_with_dwarf_register_rules;
  arch_fallback_rule := fallback_rule;
  arch_unwind_frame := λ ev encoding read_stack row first regs,
    Some (x86_unwind_frame ev encoding read_stack row first regs);
  arch_rule_if_uncovered_by_fde := rule_if_uncovered_by_fde;
|}.

(** ** DWARF sections *)

Inductive UnwindSectionType := EhFrame | DebugFrame.

(** The operations of [gimli] on a section; [None] is an error. *)
Record Gimli := mkGimli {
  g_fde : Type;
  g_error : Type;
  g_evaluator : UnwindSectionType -> list Z -> Evaluator;
  g_fde_from_offset : UnwindSectionType -> list Z -> BaseAddresses -> Z -> option g_fde;
  g_encoding : g_fde -> Encoding;
  g_unwind_info_for_address : g_fde -> Z -> option UnwindTableRow;
  g_entries : UnwindSectionType -> list Z -> BaseAddresses -> list (SectionEntry g_error);
  g_eh_frame_ptr : list Z -> BaseAddresses -> option Z;
  g_table_first : list Z -> BaseAddresses -> option Z;
  g_table_lookup : list Z -> BaseAddresses -> Z -> option Z;
}.

(** ** Modules *)

Inductive ModuleUnwindData :=
  | EhFrameHdrAndEhFrame (eh_frame_hdr : list Z) (table : option EhFrameHdrTable) (eh_frame : list Z)
      (bases : BaseAddresses)
  | DwarfCfiIndexAndEhFrame (index : DwarfCfiIndex) (eh_frame : list Z) (bases : BaseAddresses)
  | DwarfCfiIndexAndDebugFrame (index : DwarfCfiIndex) (debug_frame : list Z) (bases : BaseAddresses)
  | NoUnwindData.

Record UnwindModule := mkUnwindModule {
  um_start : Z;
  um_end : Z;
  um_base_avma : Z;
  um_base_svma : Z;
  um_unwind_data : ModuleUnwindData;
}.

(** [ExplicitModuleSectionInfo], without the sections of other formats. *)
Record SectionInfo := mkSectionInfo {
  si_base_svma : Z;
  si_text_svma : option (Z * Z);
  si_got_svma : option (Z * Z);
  si_eh_frame_svma : option (Z * Z);
  si_eh_frame : option (list Z);
  si_eh_frame_hdr_svma : option (Z * Z);
  si_eh_frame_hdr : option (list Z);
  si_debug_frame : option (list Z);
}.

(** [base_addresses_and_text_range]: a missing section starts at 0. *)
Definition base_addresses (info : SectionInfo) : BaseAddresses :=
  let start (range : option (Z * Z)) := Some (default 0 (fst <$> range)) in
  mkBases (start (si_eh_frame_svma info)) (start (si_eh_frame_hdr_svma info)) (start (si_text_svma info))
    (start (si_got_svma info)).

Section modules.
Context (g : Gimli).

(** [ModuleUnwindDataInternal::new]. *)
Definition module_unwind_data_new (info : SectionInfo) : ModuleUnwindData :=
  let bases := base_addresses info in
  match si_eh_frame info with
  | Some eh_frame =>
      match si_eh_frame_hdr info with
      | Some eh_frame_hdr =>
          EhFrameHdrAndEhFrame eh_frame_hdr
            (hdr_table_try_new (g_eh_frame_ptr g) eh_frame_hdr bases (si_base_svma info)) eh_frame bases
      | None =>
          match cfi_index_try_new (si_base_svma info) (g_entries g EhFrame eh_frame bases) with
          | inr index => DwarfCfiIndexAndEhFrame index eh_frame bases
          | inl _ => NoUnwindData
          end
      end
  | None =>
      match si_debug_frame info with
      | Some debug_frame =>
          match cfi_index_try_new (si_base_svma info) (g_entries g DebugFrame debug_frame bases) with
          | inr index => DwarfCfiIndexAndDebugFrame index debug_frame bases
          | inl _ => NoUnwindData
          end
      | None => NoUnwindData
      end
  end.

(** [Module::new]. *)
Definition unwind_module_new (start stop base_avma : Z) (info : SectionInfo) : UnwindModule :=
  mkUnwindModule start stop base_avma (si_base_svma info) (module_unwind_data_new info).
End modules.

(** ** The module list *)

Record UnwinderInternal := mkUnwinder { u_modules : list UnwindModule; u_modules_generation : Z }.

(** [GLOBAL_MODULES_GENERATION.fetch_add(1, ..)]. *)
Definition next_global_modules_generation (counter : Z) : Z * Z := (counter, (counter + 1) mod (u64_max + 1)).

Definition unwinder_new (counter : Z) : UnwinderInternal * Z :=
  let '(generation, counter) := next_global_modules_generation counter in (mkUnwinder [] generation, counter).

Definition search_start (u : UnwinderInternal) (start : Z) : nat + nat :=
  binary_search_by (λ m, um_start m ?= start) (u_modules u).

Definition unwinder_add_module (m : UnwindModule) (u : UnwinderInternal) (counter : Z) : UnwinderInternal * Z :=
  let index := match search_start u (um_start m) with inl i => i | inr i => i end in
  let modules := take index (u_modules u) ++ m :: drop index (u_modules u) in
  let '(generation, counter) := next_global_modules_generation counter in
  (mkUnwinder modules generation, counter).

Definition unwinder_remove_module (start : Z) (u : UnwinderInternal) (counter : Z) : UnwinderInternal * Z :=
  match search_start u start with
  | inr index =>
      let modules := delete index (u_modules u) in
      let '(generation, counter) := next_global_modules_generation counter in
      (mkUnwinder modules generation, counter)
  | inl _ => (u, counter)
  end.

Definition max_known_code_address (u : UnwinderInternal) : Z :=
  match list.last (u_modules u) with Some m => um_end m | None => 0 end.

Definition find_module_for_address (u : UnwinderInternal) (address : Z) : option (nat * Z) :=
  '(module_index, m) ←
    match search_start u address with
    | inr i => m ← u_modules u !! i; Some (i, m)
    | inl O => None
    | inl (S i) => m ← u_modules u !! i; if um_end m <=? address then None else Some (i, m)
    end;
  if address <? um_base_avma m then None
  else relative_address ← u32_try_from (address - um_base_avma m); Some (module_index, relative_address).

(** ** One frame *)

Definition is_return_address (a : FrameAddress) : bool :=
  match a with FromInstructionPointer _ => false | FromReturnAddress _ => true end.

Definition fallback_depends_on_sample (error : UnwinderError) : bool :=
  match error with
  | DwarfError (StackPointerMovedBackwards | DwarfErrorDidNotAdvance | CouldNotRecoverCfa
               | CouldNotRecoverReturnAddress | CouldNotRecoverFramePointer) => true
  | _ => false
  end.

Section frame.
Context {Rule Regs : Type} `{!Unwinding Rule Regs} (g : Gimli).
#[local] Abbreviation unwound := ((UnwinderError + UnwindResult Rule) * Regs)%type.

(** [unwind_frame_in_section]. *)
Definition unwind_frame_in_section (section_type : UnwindSectionType) (section : list Z) (bases : BaseAddresses)
    (lookup_svma fde_offset : Z) (regs : Regs) (is_first_frame : bool) (read_stack : Z -> option Z) : option unwound :=
  match g_fde_from_offset g section_type section bases fde_offset with
  | None => Some (inl (DwarfError FdeFromOffsetFailed), regs)
  | Some fde =>
      match g_unwind_info_for_address g fde lookup_svma with
      | None =>
          Some (inr (ExecRuleWithFallback arch_rule_if_uncovered_by_fde (DwarfError UnwindInfoForAddressFailed)), regs)
      | Some row =>
          '(r, regs) ← arch_unwind_frame (g_evaluator g section_type section) (g_encoding g fde) read_stack row
                         is_first_frame regs;
          match r with
          | inl e => Some (inl (DwarfError e), regs)
          | inr r => Some (inr r, regs)
          end
      end
  end.

(** [unwind_frame_with_fde]; [None] is an arithmetic overflow. *)
Definition unwind_frame_with_fde (section_type : UnwindSectionType) (section : list Z) (bases : BaseAddresses)
    (base_svma : Z) (regs : Regs) (is_first_frame : bool) (rel_lookup_address fde_offset : Z)
    (read_stack : Z -> option Z) : option unwound :=
  lookup_svma ← checked_add_u64 base_svma rel_lookup_address;
  unwind_frame_in_section section_type section bases lookup_svma fde_offset regs is_first_frame read_stack.

(** [get_fde_offset_for_relative_address], for other layouts of the header. *)
Definition get_fde_offset_for_relative_address (eh_frame_hdr : list Z) (bases : BaseAddresses)
    (base_svma rel_lookup_address : Z) : option (option Z) :=
  lookup_svma ← checked_add_u64 base_svma rel_lookup_address;
  Some (
    first ← g_table_first g eh_frame_hdr bases;
    if lookup_svma <? first then None
    else offset ← g_table_lookup g eh_frame_hdr bases lookup_svma; u32_try_from offset).

(** [unwind_frame_impl]; [None] is a panic. *)
Definition unwind_frame_impl (m : UnwindModule) (address : FrameAddress) (rel_lookup_address : Z) (regs : Regs)
    (read_stack : Z -> option Z) : option unwound :=
  let is_first_frame := negb (is_return_address address) in
  let unwind section_type section bases (fde_offset : option Z) (error : UnwinderError) :=
    match fde_offset with
    | None => Some (inl error, regs)
    | Some fde_offset =>
        unwind_frame_with_fde section_type section bases (um_base_svma m) regs is_first_frame rel_lookup_address
          fde_offset read_stack
    end in
  match um_unwind_data m with
  | EhFrameHdrAndEhFrame eh_frame_hdr table eh_frame bases =>
      fde_offset ←
        match table with
        | Some table => hdr_table_lookup table eh_frame_hdr rel_lookup_address
        | None => get_fde_offset_for_relative_address eh_frame_hdr bases (um_base_svma m) rel_lookup_address
        end;
      unwind EhFrame eh_frame bases fde_offset EhFrameHdrCouldNotFindAddress
  | DwarfCfiIndexAndEhFrame index eh_frame bases =>
      fde_offset ← cfi_index_lookup index rel_lookup_address;
      unwind EhFrame eh_frame bases fde_offset DwarfCfiIndexCouldNotFindAddress
  | DwarfCfiIndexAndDebugFrame index debug_frame bases =>
      fde_offset ← cfi_index_lookup index rel_lookup_address;
      unwind DebugFrame debug_frame bases fde_offset DwarfCfiIndexCouldNotFindAddress
  | NoUnwindData => Some (inl ErrorNoModuleUnwindData, regs)
  end.

(** ** Rules and their cache *)

(** What the cache stores for an address. *)
#[local] Abbreviation cached_rule := (Rule * option FramePointerFallbackReason * option Z)%type.

(** Executing a rule, cached or not. *)
Definition exec_entry (entry : cached_rule) (is_first_frame : bool) (regs : Regs) (read_stack : Z -> option Z)
    : outcome UnwindFrameOutcome * Regs :=
  let '(rule, fallback, register_rules) := entry in
  let '(r, regs) :=
    match register_rules with
    | Some register_rules => arch_exec_with_dwarf_register_rules read_stack rule register_rules is_first_frame regs
    | None => arch_exec read_stack rule is_first_frame regs
    end in
  (bind r (λ return_address, ret (mkOutcome return_address fallback)), regs).

(** The miss path: a rule to cache and execute, or a finished step. *)
Definition resolve_rule (u : UnwinderInternal) (address : FrameAddress) (regs : Regs) (read_stack : Z -> option Z)
    : (cached_rule + outcome UnwindFrameOutcome) * Regs :=
  let is_first_frame := negb (is_return_address address) in
  match find_module_for_address u (address_for_lookup address) with
  | None => (inl (arch_fallback_rule, Some ReasonNoModule, None), regs)
  | Some (module_index, relative_lookup_address) =>
      match m ← u_modules u !! module_index; unwind_frame_impl m address relative_lookup_address regs read_stack with
      | None => (inr None, regs)
      | Some (inr (ExecRule rule), regs) => (inl (rule, None, None), regs)
      | Some (inr (ExecRuleWithDwarfRegisterRules rule register_rules), regs) =>
          (inl (rule, None, Some register_rules), regs)
      | Some (inr (ExecRuleWithFallback rule error), regs) =>
          (inl (rule, if negb is_first_frame then Some (UnwindInfo error) else None, None), regs)
      | Some (inr (Uncacheable return_address), regs) => (inr (ret (mkOutcome (Some return_address) None)), regs)
      | Some (inl error, regs) =>
          let reason := UnwindInfo error in
          if fallback_depends_on_sample error then
            let '(r, regs) := arch_exec read_stack arch_fallback_rule is_first_frame regs in
            (inr (bind r (λ return_address, ret (mkOutcome return_address (Some reason)))), regs)
          else (inl (arch_fallback_rule, Some reason, None), regs)
      end
  end.

#[local] Abbreviation rule_cache := (RuleCache Rule FramePointerFallbackReason).

Definition with_cache (u : UnwinderInternal) (address : FrameAddress) (regs : Regs) (cache : rule_cache)
    (read_stack : Z -> option Z) : outcome UnwindFrameOutcome * Regs * rule_cache :=
  let is_first_frame := negb (is_return_address address) in
  match cache_lookup (address_for_lookup address) (u_modules_generation u) is_first_frame cache with
  | None => (None, regs, cache)
  | Some (Hit rule fallback register_rules, cache) =>
      (exec_entry (rule, fallback, register_rules) is_first_frame regs read_stack, cache)
  | Some (Miss cache_handle, cache) =>
      match resolve_rule u address regs read_stack with
      | (inr r, regs) => (r, regs, cache)
      | (inl entry, regs) =>
          let cache := cache_insert cache_handle entry.1.1 entry.1.2 entry.2 cache in
          (exec_entry entry is_first_frame regs read_stack, cache)
      end
  end.

(** [unwind_frame_with_details] and [unwind_frame]. *)
Definition unwinder_frame_with_details (u : UnwinderInternal) (address : FrameAddress) (regs : Regs) (cache : rule_cache)
    (read_stack : Z -> option Z) : outcome UnwindFrameOutcome * Regs * rule_cache :=
  with_cache u address regs cache read_stack.
Definition unwinder_frame (u : UnwinderInternal) (address : FrameAddress) (regs : Regs) (cache : rule_cache)
    (read_stack : Z -> option Z) : outcome (option Z) * Regs * rule_cache :=
  let '(r, regs, cache) := unwinder_frame_with_details u address regs cache read_stack in
  (bind r (λ o, ret (o_return_address o)), regs, cache).

(** ** The frame iterator *)

Inductive UnwindIteratorState :=
  | Initial (pc : Z)
  | Unwinding_ (address : FrameAddress)
  | Done.

(** [UnwindIterator::next]. *)
Definition iterator_next (u : UnwinderInternal) (state : UnwindIteratorState) (regs : Regs) (cache : rule_cache)
    (read_stack : Z -> option Z) : outcome (option FrameAddress) * UnwindIteratorState * Regs * rule_cache :=
  match state with
  | Initial pc => (ret (Some (FromInstructionPointer pc)), Unwinding_ (FromInstructionPointer pc), regs, cache)
  | Done => (ret None, Done, regs, cache)
  | Unwinding_ address =>
      match unwinder_frame u address regs cache read_stack with
      | (None, regs, cache) => (None, state, regs, cache)
      | (Some (inl e), regs, cache) => (throw e, state, regs, cache)
      | (Some (inr None), regs, cache) => (ret None, Done, regs, cache)
      | (Some (inr (Some return_address)), regs, cache) =>
          match from_return_address return_address with
          | None => (throw ReturnAddressIsNull, state, regs, cache)
          | Some return_address => (ret (Some return_address), Unwinding_ return_address, regs, cache)
          end
      end
  end.
End frame.
