(* ===== verification/CachedUnwind.v ===== *)
(** * Caching does not change unwinding

    One rule cache serves many unwinders, whose module lists change between
    steps ([crates/framehop-stackpulse/src/cache.rs] and [unwinder.rs]).  Every
    step gives what a step without a cache gives, because a rule is cached only
    when neither the registers nor the stack of the sample had a part in it, and
    because no module list ever gets the generation of another. *)

From stdpp Require Import prelude list numbers.
From S2P Require Import Prelude X86Regs X86Rules RuleCache SampleStack Dwarf X86Dwarf FdeIndex Unwinder.
#[local] Open Scope Z_scope.

(** ** What the unwinder asks of an architecture *)

(** A result of a row that is not kept for other samples. *)
Definition uses_sample {Rule Regs} (r : option ((DwarfUnwinderError + UnwindResult Rule) * Regs)) : bool :=
  match r with
  | None | Some (inr (Uncacheable _), _) => true
  | Some (inl e, _) => fallback_depends_on_sample (DwarfError e)
  | Some (inr _, _) => false
  end.

Class UnwindingLaws (Rule Regs : Type) `{!Unwinding Rule Regs} :=
  unwind_frame_stable : forall ev encoding row first,
    (exists r, forall read_stack (regs : Regs),
       arch_unwind_frame (Rule := Rule) ev encoding read_stack row first regs = Some (inr r, regs)) \/
    (forall read_stack (regs : Regs),
       uses_sample (arch_unwind_frame (Rule := Rule) ev encoding read_stack row first regs) = true).

Lemma evaluate_row_uses_sample ev encoding read_stack row first regs :
  uses_sample (Some (evaluate_row ev encoding read_stack row first regs)) = true.
Proof. unfold evaluate_row. by repeat case_match. Qed.

#[global] Instance x86_unwinding_laws : UnwindingLaws UnwindRule UnwindRegs.
Proof.
  intros ev encoding row first. cbn [arch_unwind_frame x86_unwinding]. unfold x86_unwind_frame.
  pose proof (λ rs regs, evaluate_row_uses_sample ev encoding rs row first regs) as He.
  destruct (row_register row DW_RA) as [[]|]; first
    [ left; eexists; by intros
    | destruct (translate_into_unwind_rule _ _ _) as [rule|]; [|by right];
      destruct (translate_into_register_rules row) as [rules|]; [|by right];
      left; eexists; by intros ].
Qed.

Section cached.
Context {Rule Regs : Type} `{!Unwinding Rule Regs, !UnwindingLaws Rule Regs} (g : Gimli).
#[local] Abbreviation reason := FramePointerFallbackReason.
#[local] Abbreviation cached_rule := (Rule * option reason * option Z)%type.
#[local] Abbreviation resolve := (resolve_rule (Rule := Rule) (Regs := Regs) g).

(** ** Unwinding without a cache *)

Definition unwind_uncached (u : UnwinderInternal) (address : FrameAddress) (regs : Regs) (read_stack : Z -> option Z)
    : outcome UnwindFrameOutcome * Regs :=
  match resolve u address regs read_stack with
  | (inr r, regs) => (r, regs)
  | (inl entry, regs) => exec_entry entry (negb (is_return_address address)) regs read_stack
  end.

(** ** Rules do not depend on the sample *)

(** A rule is found for every sample alike, or for none. *)
Definition stable {A B} (f : Regs -> (Z -> option Z) -> (A + B) * Regs) : Prop :=
  (exists a, forall regs read_stack, f regs read_stack = (inl a, regs)) \/
  (forall regs read_stack, exists b, (f regs read_stack).1 = inr b).

(** The result of unwinding in a module: a panic, a result of the sample, or one that can be kept. *)
Definition impl_uses_sample (r : option ((UnwinderError + UnwindResult Rule) * Regs)) : bool :=
  match r with
  | None | Some (inr (Uncacheable _), _) => true
  | Some (inl error, _) => fallback_depends_on_sample error
  | Some (inr _, _) => false
  end.
Definition impl_stable (f : Regs -> (Z -> option Z) -> option ((UnwinderError + UnwindResult Rule) * Regs)) : Prop :=
  (exists r, forall regs read_stack, f regs read_stack = Some (r, regs)) \/
  (forall regs read_stack, impl_uses_sample (f regs read_stack) = true).

Lemma with_fde_stable section_type section bases base_svma first rel fde_offset :
  impl_stable (λ regs rs, unwind_frame_with_fde g section_type section bases base_svma regs first rel fde_offset rs).
Proof.
  unfold unwind_frame_with_fde. destruct (checked_add_u64 base_svma rel) as [svma|]; cbn [mbind option_bind]; [|by right].
  unfold unwind_frame_in_section. destruct (g_fde_from_offset g section_type section bases fde_offset) as [fde|];
    [|left; by eexists].
  destruct (g_unwind_info_for_address g fde svma) as [row|]; [|left; by eexists].
  destruct (unwind_frame_stable (g_evaluator g section_type section) (g_encoding g fde) row first) as [[r Hr]|Hs].
  - left. exists (inr r). intros regs rs. by rewrite Hr.
  - right. intros regs rs. specialize (Hs rs regs). destruct (arch_unwind_frame _ _ rs row first regs) as [[[e|r] regs']|]; cbn in *;
      [done|by destruct r|done].
Qed.

Lemma unwind_frame_impl_stable m address rel :
  impl_stable (λ regs rs, unwind_frame_impl g m address rel regs rs).
Proof.
  unfold unwind_frame_impl. destruct (um_unwind_data m) as [hdr table eh_frame bases|index eh_frame bases|index df bases|].
  - destruct (match table with Some _ => _ | None => _ end) as [[offset|]|]; cbn [mbind option_bind];
      [apply with_fde_stable|left; by eexists|by right].
  - destruct (cfi_index_lookup index rel) as [[offset|]|]; cbn [mbind option_bind];
      [apply with_fde_stable|left; by eexists|by right].
  - destruct (cfi_index_lookup index rel) as [[offset|]|]; cbn [mbind option_bind];
      [apply with_fde_stable|left; by eexists|by right].
  - left. by eexists.
Qed.

(** A rule of the miss path is the same for every sample and leaves the registers alone. *)
Lemma resolve_stable u address : stable (λ regs rs, resolve u address regs rs).
Proof.
  unfold resolve_rule. destruct (find_module_for_address u (address_for_lookup address)) as [[i rel]|]; [|left; by eexists].
  destruct (u_modules u !! i) as [m|]; cbn [mbind option_bind]; [|right; intros; by eexists].
  destruct (unwind_frame_impl_stable m address rel) as [[r Hr]|Hs].
  - assert (forall regs rs, unwind_frame_impl g m address rel regs rs = Some (r, regs)) as Hr' by done. clear Hr.
    destruct r as [error|[rule|rule rules|rule error|ra]].
    + destruct (fallback_depends_on_sample error) eqn:Hd.
      * right. intros regs rs. rewrite Hr', Hd. destruct (arch_exec rs _ _ regs). by eexists.
      * left. eexists. intros regs rs. by rewrite Hr', Hd.
    + left. eexists. intros regs rs. by rewrite Hr'.
    + left. eexists. intros regs rs. by rewrite Hr'.
    + left. eexists. intros regs rs. by rewrite Hr'.
    + right. intros regs rs. rewrite Hr'. by eexists.
  - right. intros regs rs. specialize (Hs regs rs). cbn beta in Hs.
    destruct (unwind_frame_impl g m address rel regs rs) as [[[error|[]] regs']|]; cbn in Hs; try done; try by eexists.
    rewrite Hs. destruct (arch_exec rs _ _ regs'). by eexists.
Qed.

Lemma resolve_inl u address regs rs entry regs' :
  resolve u address regs rs = (inl entry, regs') ->
  forall regs2 rs2, resolve u address regs2 rs2 = (inl entry, regs2).
Proof.
  intros Hr. destruct (resolve_stable u address) as [[a Ha]|Hs].
  - rewrite Ha in Hr. simplify_eq. done.
  - destruct (Hs regs rs) as [b Hb]. by rewrite Hr in Hb.
Qed.

(** ** Many unwinders, one cache *)

Record unwind_world := mkWorld {
  w_counter : Z;
  w_unwinders : list UnwinderInternal;
  w_cache : RuleCache Rule reason;
}.
Definition world_new : unwind_world := mkWorld 0 [] cache_new.

Inductive unwind_op :=
  | NewUnwinder
  | CloneUnwinder (i : nat)
  | AddModule (i : nat) (m : UnwindModule)
  | RemoveModule (i : nat) (start : Z)
  | UnwindFrame (i : nat) (address : FrameAddress) (regs : Regs) (read_stack : Z -> option Z).

(** An operation on the unwinder at an index; nothing happens without one. *)
Definition change_unwinder (i : nat) (f : UnwinderInternal -> Z -> UnwinderInternal * Z) (w : unwind_world) : unwind_world :=
  match w_unwinders w !! i with
  | Some u => let '(u, counter) := f u (w_counter w) in mkWorld counter (<[i := u]> (w_unwinders w)) (w_cache w)
  | None => w
  end.

Definition world_step (w : unwind_world) (op : unwind_op) : unwind_world :=
  match op with
  | NewUnwinder => let '(u, counter) := unwinder_new (w_counter w) in mkWorld counter (w_unwinders w ++ [u]) (w_cache w)
  | CloneUnwinder i =>
      match w_unwinders w !! i with
      | Some u => mkWorld (w_counter w) (w_unwinders w ++ [u]) (w_cache w)
      | None => w
      end
  | AddModule i m => change_unwinder i (unwinder_add_module m) w
  | RemoveModule i start => change_unwinder i (unwinder_remove_module start) w
  | UnwindFrame i address regs read_stack =>
      match w_unwinders w !! i with
      | Some u => mkWorld (w_counter w) (w_unwinders w) (with_cache g u address regs (w_cache w) read_stack).2
      | None => w
      end
  end.

(** A rule was stored for a key by the miss path of the unwinder that has the key's generation. *)
Definition put_ok (counter : Z) (us : list UnwinderInternal) (op : cache_op Rule reason) : Prop :=
  match op with
  | Look _ => True
  | Put k v =>
      k.1.2 < counter /\
      forall u address regs rs, u ∈ us -> u_modules_generation u = k.1.2 ->
        address_for_lookup address = k.1.1 -> negb (is_return_address address) = k.2 ->
        resolve u address regs rs = (inl v, regs)
  end.

Record world_ok (n : Z) (w : unwind_world) : Prop := {
  wo_counter : 0 <= w_counter w <= n;
  wo_generations : forall u, u ∈ w_unwinders w -> u_modules_generation u < w_counter w;
  wo_same : forall u u', u ∈ w_unwinders w -> u' ∈ w_unwinders w ->
    u_modules_generation u = u_modules_generation u' -> u = u';
  wo_cache : exists puts, cache_wf (w_cache w) /\ cache_faithful puts (w_cache w) /\
    Forall (put_ok (w_counter w) (w_unwinders w)) puts;
}.

Lemma last_put_elem (puts : list (cache_op Rule reason)) k v : last_put puts k = Some v -> Put k v ∈ puts.
Proof.
  induction puts as [|[k'|k' v'] puts IH]; cbn; [done|intros ?; right; by apply IH|].
  case_decide as Heq; [|intros ?; right; by apply IH]. intros [= ->]. subst k'. by left.
Qed.

(** An address is its lookup address and its kind. *)
Lemma frame_address_eq a a' :
  address_for_lookup a = address_for_lookup a' -> is_return_address a = is_return_address a' -> a = a'.
Proof. destruct a, a'; cbn; intros; try done; f_equal; lia. Qed.

(** One step with a faithful cache. *)
Lemma with_cache_step u address regs cache rs puts counter us :
  cache_wf cache -> cache_faithful puts cache -> Forall (put_ok counter us) puts ->
  u ∈ us -> u_modules_generation u < counter ->
  (forall u', u' ∈ us -> u_modules_generation u' = u_modules_generation u -> u' = u) ->
  (with_cache g u address regs cache rs).1 = unwind_uncached u address regs rs /\
  exists puts', cache_wf (with_cache g u address regs cache rs).2 /\
    cache_faithful puts' (with_cache g u address regs cache rs).2 /\ Forall (put_ok counter us) puts'.
Proof.
  intros Hwf Hf Hputs Hu Hgen Hsame.
  set (k := (address_for_lookup address, u_modules_generation u, negb (is_return_address address)) : cache_key).
  destruct (cache_lookup_ok k cache Hwf) as (r & cache1 & Hl & He & Hfb & Hr & _ & Hcase).
  destruct (cache_step_ok puts (Look k) cache Hwf Hf) as [Hwf1 Hf1]. cbn [cache_step] in Hwf1, Hf1. rewrite Hl in Hwf1, Hf1.
  assert (Forall (put_ok counter us) (Look k :: puts)) as Hputs1 by (by constructor).
  unfold with_cache. cbn [k fst snd] in Hl. rewrite Hl. unfold unwind_uncached. destruct r as [h|rule fallback rules].
  - subst h. destruct (resolve u address regs rs) as [[entry|b] regs'] eqn:Hres.
    + destruct (cache_step_ok (Look k :: puts) (Put k entry) cache1 Hwf1 Hf1) as [Hwf2 Hf2]. cbn [fst snd].
      split; [by destruct (exec_entry _ _ _ _)|]. exists (Put k entry :: Look k :: puts). split; [done|]. split; [done|].
      constructor; [|done]. cbn [put_ok k fst snd]. split; [done|].
      intros u' address' regs2 rs2 Hin Hg Hla Hfirst. rewrite (Hsame u' Hin Hg).
      replace address' with address by (apply frame_address_eq; [done|]; destruct (is_return_address address), (is_return_address address'); done).
      by eapply resolve_inl.
    + cbn [fst snd]. split; [done|]. by exists (Look k :: puts).
  - cbn [fst snd]. split; [|by exists (Look k :: puts)].
    destruct Hcase as (entry & Hent & Ha & Hg & -> & Hfallback & Hrules). cbn [k fst snd] in *.
    destruct (Hf _ _ _ _ Hent Ha Hg) as (fb' & rules' & Hfb' & Hrules' & Hlast).
    assert (fb' = fallback) as -> by congruence. assert (rules' = rules) as -> by congruence.
    apply last_put_elem in Hlast. rewrite list.Forall_forall in Hputs. apply Hputs in Hlast as [_ Hlast].
    rewrite (Hlast u address regs rs) by done. by destruct (exec_entry _ _ _ _).
Qed.

(** Generations are taken in order. *)
Lemma world_ok_fresh n w u us :
  world_ok n w -> u_modules_generation u = w_counter w ->
  (forall v, v ∈ us -> v ∈ w_unwinders w \/ v = u) -> world_ok (n + 1) (mkWorld (w_counter w + 1) us (w_cache w)).
Proof.
  intros [Hc Hg Hs (puts & Hwf & Hf & Hputs)] Hu Hsub. split; cbn [w_counter w_unwinders w_cache].
  - lia.
  - intros v [Hv| ->]%Hsub; [|lia]. specialize (Hg v Hv). lia.
  - intros v v' [Hv| ->]%Hsub [Hv'| ->]%Hsub Heq; [by apply Hs| | |done].
    + specialize (Hg v Hv). lia.
    + specialize (Hg v' Hv'). lia.
  - exists puts. split; [done|]. split; [done|]. rewrite list.Forall_forall in Hputs |- *. intros op Hop. specialize (Hputs op Hop).
    destruct op as [|k v]; [done|]. destruct Hputs as [Hlt Hres]. split; [lia|].
    intros u' address regs rs [Hin| ->]%Hsub Heq; [by apply Hres|lia].
Qed.

Lemma world_ok_old n w us :
  world_ok n w -> (forall v, v ∈ us -> v ∈ w_unwinders w) -> world_ok (n + 1) (mkWorld (w_counter w) us (w_cache w)).
Proof.
  intros [Hc Hg Hs (puts & Hwf & Hf & Hputs)] Hsub. split; cbn [w_counter w_unwinders w_cache]; [lia|by auto|by auto|].
  exists puts. split; [done|]. split; [done|]. rewrite list.Forall_forall in Hputs |- *. intros op Hop. specialize (Hputs op Hop).
  destruct op as [|k v]; [done|]. destruct Hputs as [Hlt Hres]. split; [done|]. intros u address regs rs Hin. by apply Hres, Hsub.
Qed.

Lemma world_ok_weaken n w : world_ok n w -> world_ok (n + 1) w.
Proof. intros [Hc Hg Hs Hp]. split; [lia|done|done|done]. Qed.

Lemma counter_next n w : world_ok n w -> n < u64_max -> (w_counter w + 1) mod (u64_max + 1) = w_counter w + 1.
Proof. intros [Hc _ _ _] Hn. apply Z.mod_small. lia. Qed.

Lemma insert_sub {A} (i : nat) (x y : A) (l : list A) : y ∈ <[i := x]> l -> y ∈ l \/ y = x.
Proof.
  intros [j Hj]%list_elem_of_lookup_1. apply list_lookup_insert_Some in Hj as [(_ & <- & _)|[_ Hj]]; [by right|].
  left. by eapply list_elem_of_lookup_2.
Qed.

Lemma world_step_ok n w op : n < u64_max -> world_ok n w -> world_ok (n + 1) (world_step w op).
Proof.
  intros Hn Hok. pose proof (counter_next n w Hok Hn) as Hnext.
  destruct op as [|i|i m|i start|i address regs rs]; cbn [world_step]; unfold change_unwinder, unwinder_new, next_global_modules_generation.
  - rewrite Hnext. eapply (world_ok_fresh n w (mkUnwinder _ (w_counter w))); [done|done|]. intros v [?| ->%list_elem_of_singleton]%elem_of_app; [by left|by right].
  - destruct (w_unwinders w !! i) as [u|] eqn:Hu; [|by apply world_ok_weaken].
    apply world_ok_old; [done|]. intros v [?| ->%list_elem_of_singleton]%elem_of_app; [done|]. by eapply list_elem_of_lookup_2.
  - destruct (w_unwinders w !! i) as [u|] eqn:Hu; [|by apply world_ok_weaken].
    unfold unwinder_add_module, next_global_modules_generation. rewrite Hnext. eapply (world_ok_fresh n w (mkUnwinder _ (w_counter w))); [done|done|].
    intros v. apply insert_sub.
  - destruct (w_unwinders w !! i) as [u|] eqn:Hu; [|by apply world_ok_weaken].
    unfold unwinder_remove_module, next_global_modules_generation. destruct (search_start u start) as [j|j].
    + apply world_ok_old; [done|]. intros v [?| ->]%insert_sub; [done|]. by eapply list_elem_of_lookup_2.
    + rewrite Hnext. eapply (world_ok_fresh n w (mkUnwinder _ (w_counter w))); [done|done|]. intros v. apply insert_sub.
  - destruct (w_unwinders w !! i) as [u|] eqn:Hu; [|by apply world_ok_weaken]. apply list_elem_of_lookup_2 in Hu.
    destruct Hok as [Hc Hg Hs (puts & Hwf & Hf & Hputs)].
    destruct (with_cache_step u address regs (w_cache w) rs puts (w_counter w) (w_unwinders w)) as [_ Hcache]; try done;
      [by apply Hg|intros; by apply Hs|].
    split; [cbn; lia|done|done|done].
Qed.

Lemma world_run_ok ops : Z.of_nat (length ops) <= u64_max -> world_ok (Z.of_nat (length ops)) (foldl world_step world_new ops).
Proof.
  induction ops as [|op ops IH] using rev_ind; intros Hlen.
  { split; cbn; [lia|by intros ? ?%elem_of_nil|by intros ? ? ?%elem_of_nil|]. exists [].
    split; [apply cache_new_wf|]. split; [apply cache_new_faithful|constructor]. }
  rewrite length_app in Hlen |- *. cbn [length] in *. rewrite foldl_app. cbn [foldl].
  rewrite Nat2Z.inj_add. apply world_step_ok; [lia|]. apply IH. lia.
Qed.

(** C23: however unwinders are created, cloned, given modules, relieved of them
    and used, in any order and with one cache between them, unwinding a frame
    gives what it gives without a cache: the same return address, error and
    fallback reason, and the same registers. *)
Theorem cached_unwinding_is_uncached (ops : list unwind_op) (i : nat) (u : UnwinderInternal) (address : FrameAddress)
    (regs : Regs) (read_stack : Z -> option Z) :
  let w := foldl world_step world_new ops in
  Z.of_nat (length ops) <= u64_max -> w_unwinders w !! i = Some u ->
  (with_cache g u address regs (w_cache w) read_stack).1 = unwind_uncached u address regs read_stack.
Proof.
  cbn zeta. intros Hlen Hu%list_elem_of_lookup_2. destruct (world_run_ok ops Hlen) as [Hc Hg Hs (puts & Hwf & Hf & Hputs)].
  eapply with_cache_step; [done|done|done|exact Hu|by apply Hg|]. intros u' Hin Heq. by apply Hs.
Qed.
End cached.

(** ** An example *)

(** A section with one FDE at [0x1000] whose row is [example_row]. *)
Definition example_gimli : Gimli :=
  mkGimli Z unit (λ _ _, no_expressions) (λ _ _ _ offset, Some offset) (λ _, mkEncoding 8) (λ _ _, Some example_row)
    (λ _ _ _, [EntryCie; EntryFde 4096 24]) (λ _ _, None) (λ _ _, None) (λ _ _ _, None).
Definition example_module : UnwindModule :=
  unwind_module_new example_gimli 4190208 4202496 4190208
    (mkSectionInfo 0 (Some (4096, 8192)) None (Some (8192, 8256)) (Some []) None None None).
Definition example_unwind_ops : list (unwind_op (Regs := UnwindRegs)) :=
  [NewUnwinder; CloneUnwinder 0; AddModule 0 example_module;
   UnwindFrame 1 (FromInstructionPointer 4194304) example_row_regs example_row_stack;
   UnwindFrame 0 (FromInstructionPointer 4194304) example_row_regs example_row_stack].
Definition example_unwind_world : unwind_world (Rule := UnwindRule) :=
  foldl (world_step example_gimli) world_new example_unwind_ops.
Definition example_unwinder : UnwinderInternal := mkUnwinder [example_module] 1.

Lemma cached_unwinding_is_uncached_witness :
  hit_count (c_stats (with_cache example_gimli example_unwinder (FromInstructionPointer 4194304) example_row_regs
    (w_cache example_unwind_world) example_row_stack).2) = 1 /\
  (with_cache example_gimli example_unwinder (FromInstructionPointer 4194304) example_row_regs
    (w_cache example_unwind_world) example_row_stack).1 =
  unwind_uncached example_gimli example_unwinder (FromInstructionPointer 4194304) example_row_regs example_row_stack /\
  (unwind_uncached (Rule := UnwindRule) example_gimli example_unwinder (FromInstructionPointer 4194304) example_row_regs
     example_row_stack).1 = ret (mkOutcome (Some 4198400) None).
Proof.
  split; [by vm_compute|]. split; [|by vm_compute].
  pose proof (cached_unwinding_is_uncached (Rule := UnwindRule) example_gimli example_unwind_ops 0 example_unwinder
    (FromInstructionPointer 4194304) example_row_regs example_row_stack ltac:(vm_compute; discriminate)
    ltac:(by vm_compute)) as Hw. exact Hw.
Defined.
