(* ===== verification/UnwindModules.v ===== *)
(** * The modules of an unwinder

    [add_module], [remove_module] and [find_module_for_address] of
    [crates/framehop-stackpulse/src/unwinder.rs] against the set of modules that
    are loaded: the list stays sorted and a lookup finds the module that
    contains the address. *)

From stdpp Require Import prelude list numbers sorting.
From S2P Require Import Prelude FdeIndex Unwinder.
#[local] Open Scope Z_scope.

(** ** Loaded modules *)

Inductive module_op :=
  | Load (m : UnwindModule)
  | Unload (start : Z).

Definition loaded_step (loaded : list UnwindModule) (op : module_op) : list UnwindModule :=
  match op with
  | Load m => m :: loaded
  | Unload start => filter (λ m, um_start m <> start) loaded
  end.
Definition loaded (ops : list module_op) : list UnwindModule := foldl loaded_step [] ops.

Definition disjoint_modules (a b : UnwindModule) : Prop := um_end a <= um_start b \/ um_end b <= um_start a.

(** A module is loaded where none is. *)
Definition op_fits (loaded : list UnwindModule) (op : module_op) : Prop :=
  match op with
  | Load m => um_start m < um_end m /\ Forall (disjoint_modules m) loaded
  | Unload _ => True
  end.
Fixpoint ops_fit (loaded : list UnwindModule) (ops : list module_op) : Prop :=
  match ops with
  | [] => True
  | op :: ops => op_fits loaded op /\ ops_fit (loaded_step loaded op) ops
  end.

Definition unwinder_step (s : UnwinderInternal * Z) (op : module_op) : UnwinderInternal * Z :=
  match op with
  | Load m => unwinder_add_module m s.1 s.2
  | Unload start => unwinder_remove_module start s.1 s.2
  end.

(** ** The sorted list *)

Record laid_out (ms : list UnwindModule) : Prop := {
  lo_sorted : StronglySorted (λ a b, um_end a <= um_start b) ms;
  lo_nonempty : Forall (λ m, um_start m < um_end m) ms;
}.

Lemma laid_out_ascending ms : laid_out ms -> ascending_keys um_start ms.
Proof.
  intros [Hs Hn]. apply ascending_keys_sorted. induction Hs as [|m ms Hs IH Hm]; [constructor|].
  apply list.Forall_cons in Hn as [Hm0 Hn]. constructor; [by apply IH|].
  rewrite list.Forall_forall in Hm |- *. intros x Hx. specialize (Hm x Hx). cbn in Hm. lia.
Qed.

Lemma laid_out_nonempty ms m : laid_out ms -> m ∈ ms -> um_start m < um_end m.
Proof. intros [_ Hn] Hm. rewrite list.Forall_forall in Hn. by apply (Hn m). Qed.

Lemma laid_out_take_drop ms i : laid_out ms -> laid_out (take i ms) /\ laid_out (drop i ms) /\
  forall x y, x ∈ take i ms -> y ∈ drop i ms -> um_end x <= um_start y.
Proof.
  intros [Hs Hn]. rewrite <- (take_drop i ms) in Hs, Hn. apply StronglySorted_app in Hs as (H1 & H2 & H3).
  apply Forall_app in Hn as [Hn1 Hn2]. by split_and!; [split|split|].
Qed.

Lemma laid_out_app ms ms' : laid_out ms -> laid_out ms' ->
  (forall x y, x ∈ ms -> y ∈ ms' -> um_end x <= um_start y) -> laid_out (ms ++ ms').
Proof. intros [H1 N1] [H2 N2] H. split; [by apply StronglySorted_app_2|by apply Forall_app]. Qed.

(** Where a module start is, or would be. *)
Lemma search_start_spec u start : laid_out (u_modules u) ->
  match search_start u start with
  | inr i => exists m, u_modules u !! i = Some m /\ um_start m = start
  | inl i => (i <= length (u_modules u))%nat /\
      (forall m, m ∈ take i (u_modules u) -> um_start m < start) /\ (forall m, m ∈ drop i (u_modules u) -> start < um_start m)
  end.
Proof.
  intros Hlo. pose proof (binary_search_by_spec um_start (u_modules u) start (laid_out_ascending _ Hlo)) as Hs.
  unfold search_start. destruct (binary_search_by _ (u_modules u)) as [i|i]; [|done].
  destruct Hs as (Hle & Habove & Hbelow). split; [done|]. split.
  - intros m [j Hj]%list_elem_of_lookup_1. apply lookup_take_Some in Hj as [Hj Hlt]. by apply (Hbelow j m).
  - intros m [j Hj]%list_elem_of_lookup_1. rewrite lookup_drop in Hj. apply (Habove (i + j)%nat m); [lia|done].
Qed.

Lemma add_module_ok m u counter :
  laid_out (u_modules u) -> um_start m < um_end m -> Forall (disjoint_modules m) (u_modules u) ->
  laid_out (u_modules (unwinder_add_module m u counter).1) /\
  u_modules (unwinder_add_module m u counter).1 ≡ₚ m :: u_modules u.
Proof.
  intros Hlo Hne Hdis. rewrite list.Forall_forall in Hdis. unfold unwinder_add_module, next_global_modules_generation.
  pose proof (search_start_spec u (um_start m) Hlo) as Hs. destruct (search_start u (um_start m)) as [i|i].
  - destruct Hs as (Hle & Hbelow & Habove). destruct (laid_out_take_drop _ i Hlo) as (H1 & H2 & H3). cbn [fst u_modules]. split.
    + apply laid_out_app; [done| |].
      * apply (laid_out_app [m]); [split; by repeat constructor|done|]. intros x y ->%list_elem_of_singleton Hy.
        pose proof (Habove y Hy). pose proof (laid_out_nonempty _ y H2 Hy).
        destruct (Hdis y) as [?|?]; [|done|lia]. rewrite <- (take_drop i (u_modules u)). apply elem_of_app. by right.
      * intros x y Hx [->|Hy]%elem_of_cons; [|by apply H3]. pose proof (Hbelow x Hx). pose proof (laid_out_nonempty _ x H1 Hx).
        destruct (Hdis x) as [?|?]; [|lia|done]. rewrite <- (take_drop i (u_modules u)). apply elem_of_app. by left.
    + rewrite <- Permutation_middle. by rewrite take_drop.
  - destruct Hs as (x & Hx & Heq). apply list_elem_of_lookup_2 in Hx. pose proof (laid_out_nonempty _ x Hlo Hx).
    destruct (Hdis x Hx); lia.
Qed.

Lemma remove_module_ok start u counter :
  laid_out (u_modules u) ->
  laid_out (u_modules (unwinder_remove_module start u counter).1) /\
  u_modules (unwinder_remove_module start u counter).1 ≡ₚ filter (λ m, um_start m <> start) (u_modules u).
Proof.
  intros Hlo. unfold unwinder_remove_module, next_global_modules_generation.
  pose proof (search_start_spec u start Hlo) as Hs. destruct (search_start u start) as [i|i].
  - split; [done|]. cbn [fst]. rewrite filter_all; [done|]. intros m Hm. destruct Hs as (_ & Hbelow & Habove).
    rewrite <- (take_drop i (u_modules u)) in Hm. apply elem_of_app in Hm as [Hm|Hm]; [specialize (Hbelow m Hm)|specialize (Habove m Hm)]; lia.
  - destruct Hs as (x & Hx & <-). cbn [fst u_modules]. rewrite delete_take_drop.
    destruct (laid_out_take_drop _ i Hlo) as (H1 & H2 & H3). rewrite (drop_S _ x) in H2, H3 by done.
    assert (laid_out (drop (S i) (u_modules u))) as H2'.
    { destruct H2 as [Hs Hn]. apply list.Forall_cons in Hn as [_ Hn]. split; [|done]. by inversion Hs. }
    split; [apply laid_out_app; [done|done|]; intros a b Ha Hb; apply H3; [done|by right]|].
    assert (u_modules u = take i (u_modules u) ++ x :: drop (S i) (u_modules u)) as Heq
      by (by rewrite <- drop_S, take_drop).
    rewrite Heq at 3. rewrite filter_app, filter_cons_False by (by intros []).
    assert (forall m, m ∈ take i (u_modules u) ++ drop (S i) (u_modules u) -> um_start m <> um_start x) as Hne.
    { intros m Hm Hst. pose proof (laid_out_nonempty _ x Hlo ltac:(by eapply list_elem_of_lookup_2)).
      apply elem_of_app in Hm as [Hm|Hm].
      - pose proof (H3 m x Hm ltac:(by left)). pose proof (laid_out_nonempty _ m H1 Hm). lia.
      - destruct H2 as [Hs _]. inversion Hs as [|? ? _ Hall]; subst. rewrite list.Forall_forall in Hall.
        specialize (Hall m Hm). cbn in Hall. lia. }
    rewrite !filter_all; [done| |]; intros m Hm; apply Hne, elem_of_app; [by right|by left].
Qed.

(** ** Lookups *)

(** The address lies in the module and has a 32-bit offset from its base. *)
Definition module_covers (m : UnwindModule) (address : Z) : Prop :=
  um_start m <= address < um_end m /\ um_base_avma m <= address /\ address - um_base_avma m <= u32_max.

(** The module whose range holds the address, if any. *)
Lemma containing_module u address : laid_out (u_modules u) ->
  match match search_start u address with
        | inr i => m ← u_modules u !! i; Some (i, m)
        | inl O => None
        | inl (S i) => m ← u_modules u !! i; if um_end m <=? address then None else Some (i, m)
        end with
  | Some (i, m) => u_modules u !! i = Some m /\ um_start m <= address < um_end m
  | None => forall m, m ∈ u_modules u -> ~ um_start m <= address < um_end m
  end.
Proof.
  intros Hlo. pose proof (search_start_spec u address Hlo) as Hs. destruct (search_start u address) as [[|i]|i].
  - destruct Hs as (_ & _ & Habove). intros m Hm. specialize (Habove m Hm). lia.
  - destruct Hs as (Hle & Hbelow & Habove). destruct (lookup_lt_is_Some_2 (u_modules u) i) as [m Hm]; [lia|].
    rewrite Hm. cbn [mbind option_bind].
    assert (m ∈ take (S i) (u_modules u)) as Hin by (apply (list_elem_of_lookup_2 _ i); by rewrite lookup_take_lt by lia).
    pose proof (Hbelow m Hin) as Hst. destruct (Z.leb_spec (um_end m) address) as [Hend|Hend]; [|split; [done|lia]].
    intros x Hx. rewrite <- (take_drop (S i) (u_modules u)) in Hx. apply elem_of_app in Hx as [Hx|Hx];
      [|specialize (Habove x Hx); lia].
    rewrite (take_S_r _ _ m) in Hx by done. apply elem_of_app in Hx as [Hx|Hx%list_elem_of_singleton]; [|subst; lia].
    destruct (laid_out_take_drop _ i Hlo) as (_ & _ & H3). pose proof (H3 x m Hx) as Hxm. rewrite (drop_S _ m) in Hxm by done.
    specialize (Hxm ltac:(by left)). pose proof (laid_out_nonempty _ m Hlo ltac:(by eapply list_elem_of_lookup_2)). lia.
  - destruct Hs as (m & Hm & Heq). rewrite Hm. cbn [mbind option_bind]. split; [done|].
    pose proof (laid_out_nonempty _ m Hlo ltac:(by eapply list_elem_of_lookup_2)). lia.
Qed.

(** Two laid-out modules that hold the same address are one. *)
Lemma laid_out_unique ms x y address : laid_out ms -> x ∈ ms -> y ∈ ms ->
  um_start x <= address < um_end x -> um_start y <= address < um_end y -> x = y.
Proof.
  intros [Hs _] Hx Hy Hax Hay. induction Hs as [|m ms Hs IH Hm]; [by apply elem_of_nil in Hx|].
  rewrite list.Forall_forall in Hm. apply elem_of_cons in Hx as [->|Hx], Hy as [->|Hy]; [done| | |by apply IH].
  - specialize (Hm y Hy). cbn in Hm. lia.
  - specialize (Hm x Hx). cbn in Hm. lia.
Qed.

Lemma find_module_spec u address : laid_out (u_modules u) ->
  match find_module_for_address u address with
  | Some (i, rel) => exists m, u_modules u !! i = Some m /\ module_covers m address /\ rel = address - um_base_avma m
  | None => forall m, m ∈ u_modules u -> ~ module_covers m address
  end.
Proof.
  intros Hlo. pose proof (containing_module u address Hlo) as Hc. unfold find_module_for_address.
  destruct (match search_start u address with inl _ => _ | inr _ => _ end) as [[i m]|]; cbn [mbind option_bind].
  2:{ intros m Hm [Hr _]. by apply (Hc m Hm). }
  destruct Hc as [Hi Hr].
  assert (~ module_covers m address -> forall x, x ∈ u_modules u -> ~ module_covers x address) as Hnone.
  { intros Hn x Hx Hcov. apply Hn. assert (m = x) as ->; [|done].
    eapply (laid_out_unique _ m x address Hlo); [by eapply list_elem_of_lookup_2|done|done|apply Hcov]. }
  destruct (Z.ltb_spec address (um_base_avma m)) as [Hlt|Hge].
  { apply Hnone. intros (_ & ? & _). lia. }
  unfold u32_try_from. rewrite (proj2 (Z.leb_le 0 _)) by lia. cbn [andb].
  destruct (Z.leb_spec (address - um_base_avma m) u32_max) as [Hle|Hgt]; cbn [mbind option_bind].
  - exists m. by split_and!.
  - apply Hnone. intros (_ & _ & ?). lia.
Qed.

(** ** Histories *)

Lemma modules_history ops : forall u counter loaded,
  laid_out (u_modules u) -> u_modules u ≡ₚ loaded -> ops_fit loaded ops ->
  laid_out (u_modules (foldl unwinder_step (u, counter) ops).1) /\
  u_modules (foldl unwinder_step (u, counter) ops).1 ≡ₚ foldl loaded_step loaded ops.
Proof.
  induction ops as [|op ops IH]; intros u counter loaded Hlo Hp Hfit; [done|]. cbn [foldl]. destruct Hfit as [Hop Hfit].
  assert (laid_out (u_modules (unwinder_step (u, counter) op).1) /\
    u_modules (unwinder_step (u, counter) op).1 ≡ₚ loaded_step loaded op) as [Hlo' Hp'].
  { destruct op as [m|start]; cbn [unwinder_step loaded_step fst snd].
    - destruct Hop as [Hne Hdis]. destruct (add_module_ok m u counter Hlo Hne) as [H1 H2]; [by rewrite Hp|].
      split; [done|]. by rewrite H2, Hp.
    - destruct (remove_module_ok start u counter Hlo) as [H1 H2]. split; [done|]. by rewrite H2, Hp. }
  destruct (unwinder_step (u, counter) op) as [u' counter']. by apply IH.
Qed.

(** After any modules were loaded and unloaded, each where no other was, a
    lookup finds exactly the loaded module that contains the address and whose
    base is at most 32 bits below it, with the address relative to that base. *)
Theorem unwinder_finds_loaded_module (ops : list module_op) (counter address : Z) :
  let u := (foldl unwinder_step (unwinder_new counter) ops).1 in
  ops_fit [] ops ->
  match find_module_for_address u address with
  | Some (i, rel) => exists m, u_modules u !! i = Some m /\ m ∈ loaded ops /\ module_covers m address /\
      rel = address - um_base_avma m
  | None => forall m, m ∈ loaded ops -> ~ module_covers m address
  end.
Proof.
  cbn zeta. intros Hfit. unfold unwinder_new, next_global_modules_generation.
  destruct (modules_history ops (mkUnwinder [] counter) ((counter + 1) mod (u64_max + 1)) []) as [Hlo Hp];
    [by repeat constructor|done|done|].
  set (u := (foldl unwinder_step _ ops).1) in *. pose proof (find_module_spec u address Hlo) as Hf.
  destruct (find_module_for_address u address) as [[i rel]|].
  - destruct Hf as (m & Hm & Hcov & Hrel). exists m. split; [done|]. split; [|done].
    unfold loaded. rewrite <- Hp. by eapply list_elem_of_lookup_2.
  - intros m Hm. apply Hf. unfold loaded in Hm. by rewrite <- Hp in Hm.
Qed.

Definition example_module_ops : list module_op :=
  [Load (mkUnwindModule 8192 12288 8192 0 NoUnwindData); Load (mkUnwindModule 4096 8192 0 0 NoUnwindData); Unload 8192;
   Load (mkUnwindModule 8192 16384 4096 0 NoUnwindData)].

Lemma unwinder_finds_loaded_module_witness :
  find_module_for_address (fst (foldl unwinder_step (unwinder_new 0) example_module_ops)) 12288 = Some (1%nat, 8192) /\
  exists m, u_modules (foldl unwinder_step (unwinder_new 0) example_module_ops).1 !! 1%nat = Some m /\
    m ∈ loaded example_module_ops /\ module_covers m 12288 /\ 8192 = 12288 - um_base_avma m.
Proof.
  split; [by vm_compute|].
  assert (ops_fit [] example_module_ops) as Hfit.
  { split; [split; [done|constructor]|]. split; [split; [done|constructor; [by left|constructor]]|]. split; [done|].
    split; [split; [done|]|done]. constructor; [by right|constructor]. }
  pose proof (unwinder_finds_loaded_module example_module_ops 0 12288 Hfit) as Hw. exact Hw.
Defined.
