(* ===== verification/Aarch64Dwarf.v ===== *)
(** * DWARF unwinding on aarch64

    [crates/framehop-stackpulse/src/aarch64/dwarf.rs]: translation of a row into
    a rule, and evaluation of the rows that have none. *)

From stdpp Require Import prelude list numbers.
From S2P Require Import Prelude X86Rules SampleStack Dwarf Aarch64 Unwinder CachedUnwind.
#[local] Open Scope Z_scope.

(** [AArch64::X29], [AArch64::X30] and [AArch64::SP]. *)
Definition DW_X29 : Register := 29.
Definition DW_X30 : Register := 30.
Definition DW_SP : Register := 31.

Definition a_dwarf_get (regs : ARegs) (register : Register) : option Z :=
  if register =? DW_SP then Some (a_sp regs)
  else if register =? DW_X29 then Some (a_fp regs)
  else if register =? DW_X30 then Some (a_lr regs)
  else None.
#[global] Instance a_dwarf_regs : DwarfUnwindRegs ARegs := a_dwarf_get.

(** ** Translation *)

(** [i16::try_from((offset + cfa_offset) / 8).ok()]; the outer [None] is an overflow. *)
Definition storage_offset_by_8 (offset cfa_offset : Z) : option (option Z) :=
  sum ← checked_add_i64 offset cfa_offset; Some (i16_try_from (Z.quot sum 8)).

(** A row whose CFA is an offset from the stack pointer. *)
Definition translate_sp_row (offset : Z) (fp_rule lr_rule : option RegisterRule) : option (option UnwindRuleAarch64) :=
  match u16_try_from (Z.quot offset 16), register_rule_to_cfa_offset lr_rule, register_rule_to_cfa_offset fp_rule with
  | Some sp_offset_by_16, Some lr_cfa_offset, Some fp_cfa_offset =>
      match lr_cfa_offset, fp_cfa_offset with
      | None, Some _ => Some None
      | None, None =>
          match lr_rule with
          | Some RuleUndefined => Some (Some (AOffsetSpIfFirstFrameOtherwiseStackEndsHere sp_offset_by_16))
          | _ => Some (Some (AOffsetSp sp_offset_by_16))
          end
      | Some lr_cfa_offset, None =>
          lr_storage ← storage_offset_by_8 offset lr_cfa_offset;
          Some (lr_storage ← lr_storage; Some (AOffsetSpAndRestoreLr sp_offset_by_16 lr_storage))
      | Some lr_cfa_offset, Some fp_cfa_offset =>
          lr_storage ← storage_offset_by_8 offset lr_cfa_offset;
          match lr_storage with
          | None => Some None
          | Some lr_storage =>
              fp_storage ← storage_offset_by_8 offset fp_cfa_offset;
              Some (fp_storage ← fp_storage; Some (AOffsetSpAndRestoreFpAndLr sp_offset_by_16 fp_storage lr_storage))
          end
      end
  | _, _, _ => Some None
  end.

(** A row whose CFA is an offset from x29. *)
Definition translate_fp_row (offset : Z) (fp_rule lr_rule : option RegisterRule) : option (option UnwindRuleAarch64) :=
  match mjoin (register_rule_to_cfa_offset lr_rule), mjoin (register_rule_to_cfa_offset fp_rule), u16_try_from (Z.quot offset 8) with
  | Some lr_cfa_offset, Some fp_cfa_offset, Some sp_offset_from_fp_by_8 =>
      lr_storage ← storage_offset_by_8 offset lr_cfa_offset;
      match lr_storage with
      | None => Some None
      | Some lr_storage =>
          fp_storage ← storage_offset_by_8 offset fp_cfa_offset;
          Some (fp_storage ← fp_storage; Some (AUseFramepointerWithOffsets sp_offset_from_fp_by_8 fp_storage lr_storage))
      end
  | _, _, _ => Some None
  end.

(** [translate_into_unwind_rule]; the outer [None] is an arithmetic overflow. *)
Definition a_translate_into_unwind_rule (cfa_rule : CfaRule) (fp_rule lr_rule : option RegisterRule)
    : option (option UnwindRuleAarch64) :=
  match cfa_rule with
  | CfaRegisterAndOffset register offset =>
      if register =? DW_SP then translate_sp_row offset fp_rule lr_rule
      else if register =? DW_X29 then translate_fp_row offset fp_rule lr_rule
      else Some None
  | CfaExpression _ => Some None
  end.

(** ** Evaluation *)

Section frame.
Context (ev : Evaluator) (encoding : Encoding) (read_stack : Z -> option Z).
#[local] Abbreviation unwound := ((DwarfUnwinderError + UnwindResult UnwindRuleAarch64) * ARegs)%type.

(** The caller's registers; an x29-relative CFA gives the exact stack pointer. *)
Definition a_recovered (cfa_rule : CfaRule) (cfa fp lr : Z) (regs : ARegs) : unwound :=
  let regs := a_set_lr lr (a_set_sp cfa (a_set_fp fp regs)) in
  let regs :=
    match cfa_rule with
    | CfaRegisterAndOffset register _ => if register =? DW_X29 then set_sp_is_fp_derived false regs else regs
    | CfaExpression _ => regs
    end in
  (inr (Uncacheable lr), regs).

(** The rest of [unwind_frame], for a row that has no rule. *)
Definition a_evaluate_row (row : UnwindTableRow) (is_first_frame : bool) (regs : ARegs) : unwound :=
  let fp_rule := row_register row DW_X29 in
  let lr_rule := row_register row DW_X30 in
  match eval_cfa_rule ev encoding read_stack (row_cfa row) regs with
  | None => (inl CouldNotRecoverCfa, regs)
  | Some cfa =>
      let fp := eval_register_rule ev encoding read_stack fp_rule cfa (a_fp regs) regs in
      let lr := eval_register_rule ev encoding read_stack lr_rule cfa (a_lr regs) regs in
      if negb is_first_frame then
        if cfa <=? a_sp regs then (inl StackPointerMovedBackwards, regs)
        else match fp, lr with
             | None, _ => (inl CouldNotRecoverFramePointer, regs)
             | Some _, None => (inl CouldNotRecoverReturnAddress, regs)
             | Some fp, Some lr => a_recovered (row_cfa row) cfa fp lr regs
             end
      else a_recovered (row_cfa row) cfa (default (a_fp regs) fp) (default (a_lr regs) lr) regs
  end.

(** [<ArchAarch64 as DwarfUnwinding>::unwind_frame]. *)
Definition a_unwind_frame (row : UnwindTableRow) (is_first_frame : bool) (regs : ARegs) : option unwound :=
  rule ← a_translate_into_unwind_rule (row_cfa row) (row_register row DW_X29) (row_register row DW_X30);
  match rule with
  | Some unwind_rule => Some (inr (ExecRule unwind_rule), regs)
  | None => Some (a_evaluate_row row is_first_frame regs)
  end.
End frame.

Definition a_rule_if_uncovered_by_fde : UnwindRuleAarch64 := ANoOpIfFirstFrameOtherwiseFp.

(** ** The architecture *)

#[global] Instance aarch64_unwinding : Unwinding UnwindRuleAarch64 ARegs := {|
  arch_exec := a_exec;
  arch_exec_with_dwarf_register_rules := λ read_stack rule _ first regs, a_exec read_stack rule first regs;
  arch_fallback_rule := a_fallback_rule;
  arch_unwind_frame := a_unwind_frame;
  arch_rule_if_uncovered_by_fde := a_rule_if_uncovered_by_fde;
|}.

#[global] Instance aarch64_unwinding_laws : UnwindingLaws UnwindRuleAarch64 ARegs.
Proof.
  intros ev encoding row first. cbn [arch_unwind_frame aarch64_unwinding]. unfold a_unwind_frame.
  destruct (a_translate_into_unwind_rule _ _ _) as [[rule|]|]; cbn [mbind option_bind].
  - left. eexists. by intros.
  - right. intros rs regs. unfold a_evaluate_row, a_recovered. by repeat case_match.
  - by right.
Qed.

(** ** Rows of a frame record *)

#[local] Notation "'let?' x := m 'in' k" := (bind m (λ x, k)) (at level 10, x name, m at level 100, k at level 200).

(** The readable stack lies well inside the lower half of the address space. *)
Definition low_stack (read_stack : Z -> option Z) : Prop :=
  forall a v, read_stack a = Some v -> 4096 <= a <= 4611686018427387904.

Section record.
Context (ev : Evaluator) (encoding : Encoding) (read_stack : Z -> option Z).
Hypothesis Hlow : low_stack read_stack.

(** What the two rules for a saved pair of x29 and x30 have in common. *)
Definition record_frame (base offset fp_offset lr_offset : Z) : outcome (Z * Z * Z) :=
  let? new_sp := add_u64 base offset in
  let? lr_location := add_signed base (offset + lr_offset) in
  let? new_lr := read read_stack lr_location in
  let? fp_location := add_signed base (offset + fp_offset) in
  let? new_fp := read read_stack fp_location in
  ret (new_sp, new_lr, new_fp).

Definition saved_at (cfa offset : Z) : option Z := address ← add_offset cfa offset; read_stack address.

Lemma add_signed_cases a d : is_u64 a ->
  (add_signed a d = Some (inr (a + d)) /\ is_u64 (a + d)) \/
  (add_signed a d = Some (inl IntegerOverflow) /\ (a + d < 0 \/ u64_max < a + d)).
Proof.
  intros Ha. unfold add_signed, checked_add_signed_u64, ok_or_throw, ret, throw.
  destruct (Z.leb_spec 0 (a + d)), (Z.leb_spec (a + d) u64_max); cbn; [left|right..]; (split; [done|word_lia]).
Qed.

(** A slot of the frame, found from the base register or from the CFA. *)
Lemma saved_slot base offset d : is_u64 base -> is_i64 offset -> is_i64 d ->
  match add_offset base offset with
  | Some cfa => saved_at cfa d = (if (0 <=? base + (offset + d)) && (base + (offset + d) <=? i64_max)
                                  then read_stack (base + (offset + d)) else None)
  | None => True
  end.
Proof.
  intros Hb Ho Hd. destruct (add_offset base offset) as [cfa|] eqn:Hc; [|done].
  apply add_offset_Some in Hc as (Hle & -> & Hr); [|done|done]. unfold saved_at.
  destruct (add_offset (base + offset) d) as [a|] eqn:Ha; cbn [mbind option_bind].
  - apply add_offset_Some in Ha as (_ & -> & Hra); [|word_lia|done]. rewrite Z.add_assoc.
    by rewrite (proj2 (Z.leb_le 0 _)), (proj2 (Z.leb_le _ i64_max)) by lia.
  - case_match eqn:Hb2; [|done]. apply andb_true_iff in Hb2 as [?%Z.leb_le ?%Z.leb_le].
    assert (add_offset (base + offset) d = Some (base + offset + d)) as Hs by (apply add_offset_Some; word_lia). congruence.
Qed.

Lemma read_low a : (if (0 <=? a) && (a <=? i64_max) then read_stack a else None) = read_stack a.
Proof.
  destruct (read_stack a) as [v|] eqn:Hr; [|by case_match]. apply Hlow in Hr.
  by rewrite (proj2 (Z.leb_le 0 a)), (proj2 (Z.leb_le a i64_max)) by word_lia.
Qed.

Lemma record_agrees base offset fp_offset lr_offset :
  is_u64 base -> 0 <= offset <= 1048576 -> is_i64 fp_offset -> is_i64 lr_offset ->
  -262144 <= offset + lr_offset <= 262144 ->
  match record_frame base offset fp_offset lr_offset with
  | Some (inr (new_sp, new_lr, new_fp)) =>
      new_sp = base + offset /\ add_offset base offset = Some new_sp /\
      saved_at new_sp lr_offset = Some new_lr /\ saved_at new_sp fp_offset = Some new_fp
  | Some (inl _) =>
      forall cfa, add_offset base offset = Some cfa -> saved_at cfa lr_offset = None \/ saved_at cfa fp_offset = None
  | None => False
  end.
Proof.
  intros Hb Ho Hfo Hlo Hl. unfold record_frame. assert (is_i64 offset) as Hoi by word_lia.
  pose proof (saved_slot base offset lr_offset Hb Hoi Hlo) as Hlr. pose proof (saved_slot base offset fp_offset Hb Hoi Hfo) as Hfp.
  rewrite read_low in Hlr, Hfp.
  assert (forall a, ~ is_u64 a -> read_stack a = None) as Hbad.
  { intros a Hn. destruct (read_stack a) eqn:Hr; [|done]. apply Hlow in Hr. word_unfold. lia. }
  unfold add_u64, checked_add_u64. destruct (Z.leb_spec (base + offset) u64_max) as [Hsum|Hsum]; cbn [ok_or_throw ret bind].
  2:{ intros cfa Hc. apply add_offset_Some in Hc as (? & -> & ?); [|done|done]. word_lia. }
  destruct (add_signed_cases base (offset + lr_offset) Hb) as [[-> Hlu]|[-> Hlu]]; cbn [bind].
  2:{ intros cfa Hc. rewrite Hc in Hlr. left. rewrite Hlr. apply Hbad. word_unfold. lia. }
  unfold read. destruct (read_stack (base + (offset + lr_offset))) as [new_lr|] eqn:Hrl; cbn [ok_or_throw ret bind throw].
  2:{ intros cfa Hc. rewrite Hc in Hlr. by left. }
  destruct (add_signed_cases base (offset + fp_offset) Hb) as [[-> Hfu]|[-> Hfu]]; cbn [bind].
  2:{ intros cfa Hc. rewrite Hc in Hfp. right. rewrite Hfp. apply Hbad. word_unfold. lia. }
  destruct (read_stack (base + (offset + fp_offset))) as [new_fp|] eqn:Hrf; cbn [ok_or_throw ret bind throw].
  2:{ intros cfa Hc. rewrite Hc in Hfp. by right. }
  assert (add_offset base offset = Some (base + offset)) as Hadd.
  { pose proof (Hlow _ _ Hrl). apply add_offset_Some; [done|done|]. word_lia. }
  rewrite Hadd in Hlr, Hfp. by split_and!.
Qed.

Lemma sp_rule_frame regs first x y z offset fp_offset lr_offset :
  a_sp_is_fp_derived regs = false -> x * 16 = offset -> y * 8 = offset + fp_offset -> z * 8 = offset + lr_offset ->
  a_rule_frame read_stack (AOffsetSpAndRestoreFpAndLr x y z) first regs =
  let? r := record_frame (a_sp regs) offset fp_offset lr_offset in
  ret (Some (mkAFrame r.1.2 r.1.1 r.2 (Some false))).
Proof.
  intros Hflag Hx Hy Hz. cbn [a_rule_frame]. unfold anchored_sp. rewrite Hflag, Hx, Hy, Hz. cbn [andb]. unfold record_frame.
  repeat match goal with |- context [bind ?m _] => destruct m as [[?|?]|]; cbn [bind]; [done| |done] end. done.
Qed.

Lemma fp_rule_frame regs first x y z offset fp_offset lr_offset :
  x * 8 = offset -> y * 8 = offset + fp_offset -> z * 8 = offset + lr_offset ->
  a_rule_frame read_stack (AUseFramepointerWithOffsets x y z) first regs =
  let? r := record_frame (a_fp regs) offset fp_offset lr_offset in
  if r.1.1 <=? a_sp regs then throw FramepointerUnwindingMovedBackwards
  else ret (Some (mkAFrame r.1.2 r.1.1 r.2 (Some false))).
Proof.
  intros Hx Hy Hz. cbn [a_rule_frame]. rewrite Hx, Hy, Hz. unfold record_frame.
  repeat match goal with |- context [bind ?m _] => destruct m as [[?|?]|]; cbn [bind]; [done| |done] end. done.
Qed.

(** How a rule and the evaluation of its row compare, after the first frame. *)
Definition record_rule_agrees (regs : ARegs) (executed : outcome (option Z) * ARegs)
    (evaluated : (DwarfUnwinderError + UnwindResult UnwindRuleAarch64) * ARegs) : Prop :=
  match executed.1 with
  | Some (inr (Some ra)) =>
      exists lr, evaluated = (inr (Uncacheable lr), executed.2) /\ strip_ptr_auth (a_lr_mask regs) lr = ra
  | Some (inr None) =>
      (exists e, evaluated = (inl e, regs)) \/
      exists lr, evaluated.1 = inr (Uncacheable lr) /\ strip_ptr_auth (a_lr_mask regs) lr = 0
  | Some (inl _) => exists e, evaluated = (inl e, regs)
  | None => False
  end.

(** A row of a frame record: both registers are saved at offsets of the CFA. *)
Record frame_record (row : UnwindTableRow) (register offset fp_offset lr_offset : Z) : Prop := {
  fr_cfa : row_cfa row = CfaRegisterAndOffset register offset;
  fr_fp : row_register row DW_X29 = Some (RuleOffset fp_offset);
  fr_lr : row_register row DW_X30 = Some (RuleOffset lr_offset);
  fr_typed : is_i64 offset /\ is_i64 fp_offset /\ is_i64 lr_offset;
  fr_aligned : Z.rem offset 16 = 0 /\ Z.rem fp_offset 8 = 0 /\ Z.rem lr_offset 8 = 0;
}.

Lemma quot_mul n k : k <> 0 -> Z.rem n k = 0 -> Z.quot n k * k = n.
Proof. intros Hk Hr. pose proof (Z.quot_rem' n k). lia. Qed.

Lemma rem_8_of_16 n : Z.rem n 16 = 0 -> Z.rem n 8 = 0.
Proof. rewrite !Z.rem_divide by done. intros [q ->]. exists (q * 2). lia. Qed.

(** The offsets of the translated rule are those of the row. *)
Lemma storage_offset_exact offset d storage :
  Z.rem offset 8 = 0 -> Z.rem d 8 = 0 -> storage_offset_by_8 offset d = Some (Some storage) ->
  storage * 8 = offset + d /\ -262144 <= offset + d <= 262144.
Proof.
  intros Ho Hd Hs. unfold storage_offset_by_8 in Hs. apply bind_Some in Hs as (sum & Hsum & Hs).
  unfold checked_add_i64 in Hsum. case_match; [|done]. simplify_eq. unfold i16_try_from in Hs.
  case_match eqn:Hb; [|done]. simplify_eq. apply andb_true_iff in Hb as [?%Z.leb_le ?%Z.leb_le].
  assert (Z.quot (offset + d) 8 * 8 = offset + d) as Heq; [|split; lia].
  apply quot_mul; [done|]. rewrite Z.rem_divide in * by done. by apply Z.divide_add_r.
Qed.

Lemma u16_exact n k m : 0 < k -> Z.rem n k = 0 -> u16_try_from (Z.quot n k) = Some m -> m * k = n /\ 0 <= n <= 65535 * k.
Proof.
  intros Hk Hr Hm. unfold u16_try_from in Hm. case_match eqn:Hb; [|done]. simplify_eq.
  apply andb_true_iff in Hb as [?%Z.leb_le ?%Z.leb_le]. pose proof (quot_mul n k ltac:(lia) Hr). word_unfold. nia.
Qed.

(** Evaluating a frame record after the first frame. *)
Lemma a_evaluate_record row register offset fp_offset lr_offset regs base :
  frame_record row register offset fp_offset lr_offset -> a_dwarf_get regs register = Some base ->
  a_evaluate_row ev encoding read_stack row false regs =
  match add_offset base offset with
  | None => (inl CouldNotRecoverCfa, regs)
  | Some cfa =>
      if cfa <=? a_sp regs then (inl StackPointerMovedBackwards, regs)
      else match saved_at cfa fp_offset, saved_at cfa lr_offset with
           | None, _ => (inl CouldNotRecoverFramePointer, regs)
           | Some _, None => (inl CouldNotRecoverReturnAddress, regs)
           | Some fp, Some lr => a_recovered (row_cfa row) cfa fp lr regs
           end
  end.
Proof.
  intros [Hc Hf Hl _ _] Hb. unfold a_evaluate_row. rewrite Hf, Hl. rewrite Hc at 1. cbn [eval_cfa_rule].
  change (dwarf_get regs register) with (a_dwarf_get regs register). rewrite Hb. cbn [mbind option_bind negb].
  destruct (add_offset base offset); [|done]. done.
Qed.

Lemma record_exec_agrees row register offset fp_offset lr_offset regs base rule (back : bool) :
  frame_record row register offset fp_offset lr_offset -> a_dwarf_get regs register = Some base -> is_u64 base ->
  0 <= offset <= 1048576 -> -262144 <= offset + lr_offset <= 262144 ->
  register = DW_X29 \/ a_sp_is_fp_derived regs = false -> back = true \/ a_sp regs <= base + offset ->
  a_rule_frame read_stack rule false regs =
    (let? r := record_frame base offset fp_offset lr_offset in
     if back && (r.1.1 <=? a_sp regs) then throw FramepointerUnwindingMovedBackwards
     else ret (Some (mkAFrame r.1.2 r.1.1 r.2 (Some false)))) ->
  record_rule_agrees regs (a_exec read_stack rule false regs) (a_evaluate_row ev encoding read_stack row false regs).
Proof.
  intros Hrow Hget Hb Ho Hlo Hflag Hback Hrule. rewrite (a_evaluate_record _ _ _ _ _ _ _ Hrow Hget).
  pose proof (fr_typed _ _ _ _ _ Hrow) as (_ & Hft & Hlt). pose proof (fr_cfa _ _ _ _ _ Hrow) as Hcfa.
  pose proof (record_agrees base offset fp_offset lr_offset Hb Ho Hft Hlt Hlo) as Hrec.
  unfold a_exec. rewrite Hrule. destruct (record_frame base offset fp_offset lr_offset) as [[e|[[new_sp new_lr] new_fp]]|]; [| |done].
  - cbn [bind]. unfold record_rule_agrees. cbn [fst throw]. destruct (add_offset base offset) as [cfa|]; [|by eexists].
    destruct (cfa <=? a_sp regs); [by eexists|].
    destruct (Hrec cfa eq_refl) as [->| ->]; [destruct (saved_at cfa fp_offset)|]; by eexists.
  - destruct Hrec as (Hnew & -> & Hlr & Hfp). rewrite Hlr, Hfp. cbn [bind fst snd].
    destruct (Z.leb_spec new_sp (a_sp regs)) as [Hle|Hgt].
    + destruct back; cbn [andb]; [by eexists|]. destruct Hback as [|Hge]; [done|]. cbn [ret af_flag af_lr af_sp].
      case_match; [left; by eexists|]. rewrite (proj2 (Z.eqb_eq new_sp (a_sp regs))) by lia. cbn. by eexists.
    + rewrite andb_false_r. cbn [ret af_flag af_lr af_sp af_fp a_lr_mask set_sp_is_fp_derived].
      destruct (Z.eqb_spec (strip_ptr_auth (a_lr_mask regs) new_lr) 0) as [Hz|Hnz].
      * right. exists new_lr. split; [done|exact Hz].
      * rewrite (proj2 (Z.eqb_neq new_sp (a_sp regs))) by lia. cbn [negb andb]. exists new_lr. split; [|done].
        unfold a_recovered. rewrite Hcfa. cbn [snd]. f_equal. destruct regs as [mask lr sp fp flag]. cbn in *.
        unfold a_set_fp, a_set_sp, a_set_lr, set_sp_is_fp_derived. cbn.
        destruct Hflag as [->| ->]; [done|by destruct (register =? DW_X29)].
Qed.

(** After the first frame, the rule a frame record's row is translated to
    recovers the frame that evaluating the row recovers, with the same lr, sp
    and fp, or both fail; the address that evaluation returns still carries the
    authentication bits that the rule strips. *)
Theorem aarch64_frame_record_rule (row : UnwindTableRow) (register offset fp_offset lr_offset : Z) (regs : ARegs)
    (rule : UnwindRuleAarch64) :
  aregs_ok regs -> a_sp_is_fp_derived regs = false -> frame_record row register offset fp_offset lr_offset ->
  a_unwind_frame ev encoding read_stack row false regs = Some (inr (ExecRule rule), regs) ->
  record_rule_agrees regs (a_exec read_stack rule false regs) (a_evaluate_row ev encoding read_stack row false regs).
Proof.
  intros Hok Hflag Hrow Hx. pose proof Hrow as [Hcfa Hfp Hlr (Hot & Hft & Hlt) (Hoa & Hfa & Hla)].
  pose proof (rem_8_of_16 _ Hoa) as Ho8.
  assert (a_translate_into_unwind_rule (row_cfa row) (row_register row DW_X29) (row_register row DW_X30) = Some (Some rule)) as Ht.
  { unfold a_unwind_frame in Hx. destruct (a_translate_into_unwind_rule _ _ _) as [[rule'|]|]; cbn [mbind option_bind] in Hx;
      [by simplify_eq| |done].
    exfalso. unfold a_evaluate_row, a_recovered in Hx. repeat case_match; simplify_eq. }
  rewrite Hcfa, Hfp, Hlr in Ht. cbn [a_translate_into_unwind_rule] in Ht. destruct (Z.eqb_spec register DW_SP) as [->|Hnsp].
  - unfold translate_sp_row in Ht. cbn [register_rule_to_cfa_offset] in Ht.
    destruct (u16_try_from (Z.quot offset 16)) as [x|] eqn:Hu; [|done].
    destruct (storage_offset_by_8 offset lr_offset) as [[z|]|] eqn:Hz; cbn [mbind option_bind] in Ht; [|done|done].
    destruct (storage_offset_by_8 offset fp_offset) as [[y|]|] eqn:Hy; cbn [mbind option_bind] in Ht; [|done|done].
    injection Ht as <-. apply u16_exact in Hu as [Hxe Hxr]; [|done|done].
    apply storage_offset_exact in Hz as [Hze Hzr]; [|done|done]. apply storage_offset_exact in Hy as [Hye _]; [|done|done].
    eapply (record_exec_agrees _ _ _ _ _ _ (a_sp regs) _ false Hrow); [done|apply Hok|lia|done|by right|right; lia|].
    by apply sp_rule_frame.
  - destruct (Z.eqb_spec register DW_X29) as [->|]; [|done]. unfold translate_fp_row in Ht. cbn in Ht.
    destruct (storage_offset_by_8 offset lr_offset) as [[z|]|] eqn:Hz; cbn [mbind option_bind] in Ht;
      (destruct (u16_try_from (Z.quot offset 8)) as [x|] eqn:Hu; [|done]); [|done|done].
    destruct (storage_offset_by_8 offset fp_offset) as [[y|]|] eqn:Hy; cbn [mbind option_bind] in Ht; [|done|done].
    injection Ht as <-. apply u16_exact in Hu as [Hxe Hxr]; [|done|done].
    apply storage_offset_exact in Hz as [Hze Hzr]; [|done|done]. apply storage_offset_exact in Hy as [Hye _]; [|done|done].
    eapply (record_exec_agrees _ _ _ _ _ _ (a_fp regs) _ true Hrow); [done|apply Hok|lia|done|by left|by left|].
    by apply fp_rule_frame.
Qed.
End record.

(** ** Examples *)

(** [stp x29, x30, [sp, #-32]!]. *)
Definition example_record_row : UnwindTableRow :=
  mkRow (CfaRegisterAndOffset DW_SP 32) [(DW_X29, RuleOffset (-32)); (DW_X30, RuleOffset (-24))].
Definition example_record_stack (a : Z) : option Z :=
  if a =? 1048576 then Some 1048800 else if a =? 1048584 then Some 216172782117980416 else None.

Lemma example_record : frame_record example_record_row DW_SP 32 (-32) (-24).
Proof. split; [done|done|done|by repeat split|by repeat split]. Qed.

Lemma aarch64_frame_record_rule_witness :
  (a_exec example_record_stack (AOffsetSpAndRestoreFpAndLr 2 0 1) false example_aregs).1 = ret (Some 4196608) /\
  record_rule_agrees example_aregs (a_exec example_record_stack (AOffsetSpAndRestoreFpAndLr 2 0 1) false example_aregs)
    (a_evaluate_row (mkEvaluator unit (λ _ _ _, None) (λ _ _, None) (λ _ _, None) (λ _, None)) (mkEncoding 8)
       example_record_stack example_record_row false example_aregs).
Proof.
  split; [by vm_compute|].
  assert (low_stack example_record_stack) as Hlow.
  { intros a v. unfold example_record_stack. repeat case_match; intros [= <-]; lia. }
  assert (aregs_ok example_aregs) as Hok by (by split; [vm_compute; split; discriminate..|vm_compute]).
  pose proof (aarch64_frame_record_rule (mkEvaluator unit (λ _ _ _, None) (λ _ _, None) (λ _ _, None) (λ _, None))
    (mkEncoding 8) example_record_stack Hlow example_record_row DW_SP 32 (-32) (-24) example_aregs
    (AOffsetSpAndRestoreFpAndLr 2 0 1) Hok eq_refl example_record eq_refl) as Hw. exact Hw.
Defined.

(** The row has no rule when x29 is recovered from another register; evaluating
    it returns the signed address, although the link register is stripped. *)
Example evaluated_return_address_is_signed :
  let row := mkRow (CfaRegisterAndOffset DW_SP 32) [(DW_X29, RuleRegister DW_X29); (DW_X30, RuleOffset (-24))] in
  let ev := mkEvaluator unit (λ _ _ _, None) (λ _ _, None) (λ _ _, None) (λ _, None) in
  exists regs', a_unwind_frame ev (mkEncoding 8) example_record_stack row false example_aregs =
    Some (inr (Uncacheable 216172782117980416), regs') /\ a_lr regs' = 4196608.
Proof. cbn zeta. eexists. split; [by vm_compute|done]. Qed.
