(* ===== verification/Trace.v ===== *)
(** * Growing files and record traces

    What more bytes change for a record reader, and the records a file holds. *)

From stdpp Require Import prelude gmap list numbers sorting.
From S2P Require Import Prelude Varint Cursor Model Records Contexts Reader Stream.
From S2P Require Import Snapshot Tables Recovery Robust.
#[local] Open Scope Z_scope.

(** ** Reading a growing file

    [stable p]: what a reader [p] finds at a position depends only on the bytes
    from there on, and more bytes behind them change nothing unless it ran into
    the end of the file.  Every record reader of [src/spool/mod.rs] is stable on
    all bytes; this is what lets [Tail] retry a record that was cut off, and
    discard the bytes in front of its position. *)

(** [b2] holds, from [pos] on, the bytes of [b1] and maybe more. *)
Definition continues_from (pos : nat) (b1 b2 : list Z) : Prop :=
  (pos <= length b1)%nat /\ (pos <= length b2)%nat /\ drop pos b1 `prefix_of` drop pos b2.

Lemma continues_from_mono pos pos' b1 b2 :
  continues_from pos b1 b2 -> (pos <= pos' <= length b1)%nat -> continues_from pos' b1 b2.
Proof.
  intros (H1 & H2 & [rest Hr]) Hp.
  assert (length (drop pos b2) = length (drop pos b1) + length rest)%nat as Hl
    by (by rewrite Hr, length_app).
  rewrite !length_drop in Hl. split; [lia|]. split; [lia|].
  replace pos' with (pos + (pos' - pos))%nat by lia. rewrite <- !drop_drop, Hr.
  rewrite drop_app_le by (rewrite length_drop; lia). apply prefix_app_r. done.
Qed.

Lemma continues_from_length pos b1 b2 : continues_from pos b1 b2 -> (length b1 <= length b2)%nat.
Proof. intros (H1 & H2 & Hp). apply prefix_length in Hp. rewrite !length_drop in Hp. lia. Qed.

Lemma continues_from_app bytes rest pos :
  (pos <= length bytes)%nat -> continues_from pos bytes (bytes ++ rest).
Proof.
  intros Hp. split; [done|]. rewrite length_app. split; [lia|].
  rewrite drop_app_le by done. by eexists.
Qed.

Definition ran_out {A} (b : list Z) (out : result A * MmapSpoolCursor) : Prop :=
  out = (Err UnexpectedEof, mkCursor b (length b)).

Definition stable {A} (p : io MmapSpoolCursor A) : Prop :=
  forall b1 b2 pos, continues_from pos b1 b2 ->
    ran_out b1 (p (mkCursor b1 pos)) \/
    exists r pos', p (mkCursor b1 pos) = (r, mkCursor b1 pos') /\
      p (mkCursor b2 pos) = (r, mkCursor b2 pos') /\ (pos <= pos' <= length b1)%nat.

Create HintDb stable discriminated.
#[export] Hint Constants Opaque : stable.

Lemma stable_ret {A} (a : A) : stable (mret a).
Proof. intros b1 b2 pos (? & ? & ?). right. exists (Ok a), pos. repeat split; lia. Qed.

Lemma stable_fail {A} e : stable (io_fail e : io _ A).
Proof. intros b1 b2 pos (? & ? & ?). right. exists (Err e), pos. repeat split; lia. Qed.

Lemma stable_lift {A} (r : result A) : stable (io_lift r).
Proof. intros b1 b2 pos (? & ? & ?). right. exists r, pos. repeat split; lia. Qed.

Lemma stable_bind {A B} (p : io MmapSpoolCursor A) (k : A -> io MmapSpoolCursor B) :
  stable p -> (forall a, stable (k a)) -> stable (p ≫= k).
Proof.
  intros Hp Hk b1 b2 pos Hc. destruct (Hp b1 b2 pos Hc) as [Ho|(r & pos1 & H1 & H2 & Hpos)].
  { left. unfold ran_out in *. by rewrite (io_bind_err _ _ _ _ _ Ho). }
  destruct r as [a|e].
  2: { right. exists (Err e), pos1. by rewrite (io_bind_err _ _ _ _ _ H1), (io_bind_err _ _ _ _ _ H2). }
  rewrite (io_bind_ok _ _ _ _ _ H1), (io_bind_ok _ _ _ _ _ H2).
  destruct (Hk a b1 b2 pos1) as [Ho|(r & pos2 & H3 & H4 & Hpos2)].
  - eapply continues_from_mono; [done|lia].
  - by left.
  - right. exists r, pos2. rewrite H3, H4. repeat split; lia.
Qed.

(** A byte range and its slice. *)
Lemma stable_exact len : 0 <= len -> stable (read_exact_spool len).
Proof.
  intros Hl b1 b2 pos Hc. pose proof (continues_from_length _ _ _ Hc) as Hlen.
  destruct Hc as (Hp1 & Hp2 & [rest Hr]).
  unfold read_exact_spool, mbind, io_mbind, read_bytes_range, ran_out. cbn [position mmap].
  unfold checked_add_u64. destruct (Z.leb_spec (Z.of_nat pos + len) u64_max).
  2: { right. exists (Err InvalidData), pos. repeat split; lia. }
  rewrite !Z.gtb_ltb. destruct (Z.ltb_spec (Z.of_nat (length b1)) (Z.of_nat pos + len)).
  { by left. }
  right. rewrite (proj2 (Z.ltb_ge _ _)) by lia.
  exists (Ok (take (Z.to_nat len) (drop pos b1))), (Z.to_nat (Z.of_nat pos + len)).
  unfold io_gets, mmap_slice, set_position. cbn [mmap fst snd].
  replace (Z.to_nat (Z.of_nat pos + len) - pos)%nat with (Z.to_nat len) by lia.
  rewrite Hr, take_app_le by (rewrite length_drop; lia). repeat split; lia.
Qed.

Lemma stable_range {A} len (k : list Z -> io MmapSpoolCursor A) :
  0 <= len -> (forall bs, stable (k bs)) ->
  stable (range ← read_bytes_range len; slice ← io_gets (mmap_slice range); k slice).
Proof.
  intros Hl Hk. pose proof (stable_bind _ k (stable_exact len Hl) Hk) as Hs.
  intros b1 b2 pos Hc. specialize (Hs b1 b2 pos Hc). revert Hs.
  unfold read_exact_spool, mbind, io_mbind.
  by destruct (read_bytes_range len (mkCursor b1 pos)) as [[?|?] ?],
    (read_bytes_range len (mkCursor b2 pos)) as [[?|?] ?].
Qed.

(** A byte string is a varint and more, or has no last group. *)
Lemma varint_split bs :
  Forall continues bs \/ exists g rest, bs = g ++ rest /\ varint_bytes g.
Proof.
  induction bs as [|b bs IH]; [by left; constructor|].
  destruct (decide (continues b)) as [Hc|Hc].
  - destruct IH as [|(g & rest & -> & Hg)]; [by left; constructor|].
    right. exists (b :: g), rest. split; [done|by constructor].
  - right. exists [b], bs. split; [done|]. constructor. unfold continues in Hc. lia.
Qed.

Section stable.
Context `{VarIntLaws}.

Lemma decode_var_grows vt bs rest :
  decode_var vt bs <> None \/ (10 <= length bs)%nat -> decode_var vt (bs ++ rest) = decode_var vt bs.
Proof.
  destruct (decide (10 <= length bs)%nat) as [|Hn]; [by intros _; apply decode_var_ten|].
  intros [Hd|]; [|lia].
  destruct (varint_split bs) as [Hc|(g & more & -> & Hg)].
  { rewrite decode_var_truncated in Hd by (done || lia). done. }
  rewrite length_app in Hn. pose proof (group_value_bound g).
  assert (2 ^ (7 * Z.of_nat (length g)) <= 2 ^ 63) by (apply Z.pow_le_mono_r; lia).
  change (2 ^ 63) with 9223372036854775808 in *.
  rewrite <- app_assoc, !decode_var_groups by (done || lia || word_lia). done.
Qed.

Lemma stable_varint vt : stable (read_varint vt).
Proof.
  intros b1 b2 pos (Hp1 & Hp2 & [rest Hr]). rewrite !read_varint_is_slow.
  unfold read_varint_slow, ran_out. cbn [position mmap]. rewrite Hr.
  destruct (decode_var vt (drop pos b1)) as [[v n]|] eqn:Hd.
  - right. rewrite decode_var_grows, Hd by (left; by rewrite Hd).
    apply decode_var_bounds in Hd as [_ Hn]. rewrite length_drop in Hn.
    exists (Ok v), (pos + n)%nat. repeat split; lia.
  - destruct (Nat.leb_spec 10 (length (drop pos b1))) as [Hl|]; [|by left].
    right. rewrite decode_var_grows, Hd by (by right).
    rewrite length_app, (proj2 (Nat.leb_le _ _)) by lia.
    exists (Err InvalidData), pos. repeat split; lia.
Qed.

(** The next field is a length. *)
Lemma stable_varint_bind {A} vt (k : Z -> io MmapSpoolCursor A) :
  (forall n, in_range vt n -> stable (k n)) -> stable (read_varint vt ≫= k).
Proof.
  intros Hk.
  assert (stable (read_varint vt ≫= λ n, if decide (in_range vt n) then k n else io_fail Panicked))
    as Hs.
  { apply stable_bind; [apply stable_varint|]. intros n. case_decide; [by apply Hk|apply stable_fail]. }
  assert (forall b pos, (pos <= length b)%nat ->
            (read_varint vt ≫= k) (mkCursor b pos) =
            (read_varint vt ≫= λ n, if decide (in_range vt n) then k n else io_fail Panicked)
              (mkCursor b pos)) as Heq.
  { intros b pos Hp. pose proof (moves_varint vt (mkCursor b pos) Hp) as Hm.
    unfold mbind, io_mbind. destruct (read_varint vt (mkCursor b pos)) as [[v|e] c']; [|done].
    destruct Hm as (_ & _ & Hv). by rewrite decide_True. }
  intros b1 b2 pos Hc. pose proof Hc as (Hp1 & Hp2 & _). rewrite !Heq by done. by apply Hs.
Qed.

Lemma stable_flag : stable read_flag.
Proof. apply stable_bind; [by apply stable_exact|]. intros. apply stable_ret. Qed.

Lemma stable_check_id n : stable (check_id n).
Proof.
  apply stable_bind; [apply stable_varint|]. intros id.
  destruct (_ =? _); [apply stable_ret|apply stable_fail].
Qed.

Lemma stable_id_within n : stable (read_id_within n).
Proof. apply stable_bind; [apply stable_varint|]. intros. apply stable_lift. Qed.

Lemma stable_index_within n : stable (read_index_within n).
Proof. apply stable_bind; [apply stable_varint|]. intros. apply stable_lift. Qed.

Lemma stable_process_id : stable read_process_id.
Proof. apply stable_bind; [apply stable_varint|]. intros. apply stable_lift. Qed.

Lemma stable_pid : stable read_pid.
Proof. apply stable_bind; [apply stable_process_id|]. intros. apply stable_lift. Qed.
End stable.

#[export] Hint Resolve stable_varint stable_flag stable_check_id stable_id_within
  stable_index_within stable_process_id stable_pid stable_lift stable_ret stable_fail : stable.

(** Go through the reads of a reader. *)
Ltac stable_fields :=
  repeat first [apply stable_varint_bind; intros ? ?; cbn beta zeta
               |apply stable_bind; [eauto with stable; fail|intros ?; cbn beta zeta]];
  eauto with stable.

Section records.
Context `{VarIntLaws}.

Lemma stable_symbols_loop n m acc : stable (read_symbols_loop n m acc).
Proof.
  revert acc. induction n as [|n IH]; intros acc; cbn [read_symbols_loop]; stable_fields.
  do 2 (case_match; stable_fields).
  apply stable_range; [cbn in *; word_lia|]. intros name.
  destruct (negb _); [|destruct (symbols_unsorted _ _)]; stable_fields.
Qed.

Lemma stable_module n tag : stable (read_module_record n tag).
Proof.
  unfold read_module_record. stable_fields.
  apply stable_range; [cbn in *; word_lia|]. intros path.
  cbn zeta. destruct (tag =? _); stable_fields.
  apply stable_bind; [|intros; apply stable_ret]. unfold read_symbols. stable_fields.
  destruct (_ || _); stable_fields. apply stable_symbols_loop.
Qed.

Lemma stable_stack_node nodes n : stable (read_stack_node nodes n).
Proof.
  unfold read_stack_node. stable_fields.
  apply stable_bind; [case_match; stable_fields|intros prefix]. stable_fields.
Qed.

Lemma stable_payload tag t : stable (decode_payload tag t).
Proof.
  unfold decode_payload.
  repeat (case_match; [apply stable_bind; [|intros; apply stable_ret]|]).
  - apply stable_module.
  - unfold read_frame. stable_fields.
  - apply stable_stack_node.
  - unfold read_thread. stable_fields.
  - unfold read_sample. stable_fields.
  - unfold read_python_runtime. stable_fields.
  - apply stable_pid.
  - apply stable_index_within.
  - apply stable_fail.
Qed.

Lemma stable_header : stable read_header.
Proof.
  unfold read_header, read_clock_origin, check_magic.
  apply stable_bind; [|intros u].
  { apply stable_bind; [by apply stable_exact|]. intros. case_decide; stable_fields. }
  stable_fields. apply stable_bind; [|intros; apply stable_ret].
  stable_fields. do 2 (case_match; stable_fields). case_match; stable_fields.
Qed.
End records.

(** ** Record traces

    What a file holds, whatever its bytes: from a position on, the records that
    decode, up to the end of the file, a cut-off record or a corrupt one.  The
    loop of [open_spool] follows this trace; [Tail] and [Replay] are compared
    with it through the trace. *)

Inductive outcome :=
  | Stops (truncated : bool)
  | Fails (e : ErrorKind)
  | Next (d : DecodedSpoolRecord) (t : tables) (stop : nat).

Definition is_sample_record (d : DecodedSpoolRecord) : bool :=
  match d with DSample _ => true | _ => false end.

Section trace.
Context `{VarIntCrate} (bytes : list Z).

(** The record at [pos], if there is one. *)
Definition next_record (t : tables) (pos : nat) : outcome :=
  match decode_spool_record t (mkCursor bytes pos) with
  | (Ok None, _) => Stops false
  | (Ok (Some d), c) =>
      match apply_decoded t d with Some t' => Next d t' (position c) | None => Fails Panicked end
  | (Err e, c) => if decide (e = UnexpectedEof) then if at_eof c then Stops true else Fails e
                  else Fails e
  end.

(** A record with the place where it starts and stops. *)
Definition item : Type := nat * DecodedSpoolRecord * nat.

Inductive reads : tables -> nat -> list item -> tables -> nat -> Prop :=
  | reads_nil t pos : reads t pos [] t pos
  | reads_cons t pos d t1 pos1 items t2 pos2 :
      next_record t pos = Next d t1 pos1 -> reads t1 pos1 items t2 pos2 ->
      reads t pos ((pos, d, pos1) :: items) t2 pos2.
End trace.

Definition decoded (items : list item) : list DecodedSpoolRecord := (λ i : item, i.1.2) <$> items.

(** The state of [open_spool] after the items. *)
Fixpoint open_items (storage : SampleStorage) (range_limit : Z) (st : open_state)
    (items : list item) : result open_state :=
  match items with
  | [] => Ok st
  | (start, d, stop) :: items =>
      match commit_open storage st d with
      | Err e => Err e
      | Ok st => open_items storage range_limit
                   (if is_sample_record d then index_sample range_limit start stop st else st) items
      end
  end.

Section facts.
Context `{VarIntLaws}.

Lemma reads_app bytes t pos items t1 pos1 items' t2 pos2 :
  reads bytes t pos items t1 pos1 -> reads bytes t1 pos1 items' t2 pos2 ->
  reads bytes t pos (items ++ items') t2 pos2.
Proof. induction 1; [done|]. intros. econstructor; eauto. Qed.

Lemma decode_payload_sample tag t c d c' :
  decode_payload tag t c = (Ok d, c') -> (tag =? REC_SAMPLE) = is_sample_record d.
Proof.
  unfold decode_payload. intros Hd. repeat case_match; io_inv; try done;
    destruct (Z.eqb_spec tag REC_SAMPLE) as [->|]; done.
Qed.

(** Where a record is found, it is a record of the file. *)
Lemma next_record_inv bytes t pos d t' stop :
  tables_wf t -> (pos <= length bytes)%nat -> next_record bytes t pos = Next d t' stop ->
  exists tag, bytes !! pos = Some tag /\
    decode_payload tag t (mkCursor bytes (S pos)) = (Ok d, mkCursor bytes stop) /\
    apply_decoded t d = Some t' /\ (pos < stop <= length bytes)%nat /\
    tables_wf t' /\ extends t t' /\ decoded_ok t d.
Proof.
  intros Hwf Hp. unfold next_record, decode_spool_record, mbind, io_mbind, read_tag. cbn [position mmap].
  destruct (Nat.eqb_spec pos (length bytes)); [done|].
  destruct (lookup_lt_is_Some_2 bytes pos) as [tag Ht]; [lia|]. rewrite Ht.
  unfold set_position; cbn [mmap].
  pose proof (moves_payload tag t Hwf (mkCursor bytes (S pos))) as Hm. cbn in Hm.
  specialize (Hm ltac:(lia)).
  destruct (decode_payload tag t (mkCursor bytes (S pos))) as [[d'|e] [b c]] eqn:Hd; cbn in Hm |- *.
  2: { by repeat case_match. }
  destruct Hm as (-> & Hc & Hok). destruct (apply_decoded t d') as [t1|] eqn:Ha; [|done].
  intros [= <- <- <-]. exists tag. destruct (apply_decoded_wf _ _ Hwf Hok) as (t2 & Ha2 & Hw & He).
  simplify_eq. split; [done|]. split; [done|]. split; [done|]. split; [lia|done].
Qed.

Lemma next_record_stops bytes t pos truncated :
  (pos <= length bytes)%nat -> next_record bytes t pos = Stops truncated ->
  truncated = negb (pos =? length bytes)%nat.
Proof.
  intros Hp. unfold next_record, decode_spool_record, mbind, io_mbind, read_tag. cbn [position mmap].
  destruct (Nat.eqb_spec pos (length bytes)); [by intros [= <-]|].
  destruct (bytes !! pos); [|done]. cbn.
  destruct (decode_payload _ _ _) as [[d|e] c]; cbn; repeat case_match; naive_solver.
Qed.

Lemma reads_inv bytes t pos items t' pos' :
  reads bytes t pos items t' pos' -> tables_wf t -> (pos <= length bytes)%nat ->
  tables_wf t' /\ extends t t' /\ (pos + length items <= pos' <= length bytes)%nat.
Proof.
  induction 1 as [t pos|t pos d t1 pos1 items t2 pos2 Hn Hr IH]; intros Hwf Hp.
  { split; [done|]. split; [done|]. cbn. lia. }
  destruct (next_record_inv _ _ _ _ _ _ Hwf Hp Hn) as (tag & _ & _ & _ & Hs & Hwf1 & He1 & _).
  destruct IH as (Hwf2 & He2 & Hl); [done|lia|].
  split; [done|]. split; [by etrans|]. cbn. lia.
Qed.

(** Every file has a trace: it ends where no record follows. *)
Lemma trace_exists bytes t pos :
  tables_wf t -> (pos <= length bytes)%nat ->
  exists items t' pos', reads bytes t pos items t' pos' /\
    match next_record bytes t' pos' with Next _ _ _ => False | _ => True end.
Proof.
  remember (length bytes - pos)%nat as n eqn:Hn. revert t pos Hn.
  induction n as [n IH] using lt_wf_ind. intros t pos -> Hwf Hp.
  destruct (next_record bytes t pos) as [tr|e|d t1 pos1] eqn:Hnext;
    [exists [], t, pos; rewrite Hnext; split; [constructor|done] ..|].
  destruct (next_record_inv _ _ _ _ _ _ Hwf Hp Hnext) as (tag & _ & _ & _ & Hs & Hwf1 & _).
  destruct (IH (length bytes - pos1)%nat ltac:(lia) t1 pos1 eq_refl Hwf1 ltac:(lia))
    as (items & t2 & pos2 & Hr & Hend).
  exists ((pos, d, pos1) :: items), t2, pos2. split; [by econstructor|done].
Qed.

(** The trace is determined. *)
Lemma reads_unique bytes t pos items t1 pos1 items' t2 pos2 :
  reads bytes t pos items t1 pos1 -> reads bytes t pos items' t2 pos2 -> pos1 = pos2 ->
  tables_wf t -> (pos <= length bytes)%nat -> items = items' /\ t1 = t2.
Proof.
  intros H1. revert items' t2 pos2.
  induction H1 as [t pos|t pos d ta posa items tb posb Hn Hr IH]; intros items' t2 pos2 H2 Heq Hwf Hp.
  - inversion H2 as [|? ? ? ? posx ? ? ? Hn Hr]; subst; [done|].
    destruct (next_record_inv _ _ _ _ _ _ Hwf Hp Hn) as (tag & _ & _ & _ & Hs & Hwf1 & _).
    apply reads_inv in Hr as (_ & _ & ?); [lia|done|lia].
  - destruct (next_record_inv _ _ _ _ _ _ Hwf Hp Hn) as (tag & _ & _ & _ & Hs & Hwf1 & _).
    inversion H2 as [|? ? ? ? posx ? ? ? Hn2 Hr2]; subst.
    + apply reads_inv in Hr as (_ & _ & ?); [lia|done|lia].
    + rewrite Hn in Hn2. simplify_eq.
      destruct (IH _ _ _ Hr2 eq_refl Hwf1 ltac:(lia)) as [-> ->]. done.
Qed.

(** A whole trace, where no record follows, is determined too. *)
Lemma trace_unique bytes t pos items t1 pos1 items' t2 pos2 :
  reads bytes t pos items t1 pos1 -> reads bytes t pos items' t2 pos2 ->
  match next_record bytes t1 pos1 with Next _ _ _ => False | _ => True end ->
  match next_record bytes t2 pos2 with Next _ _ _ => False | _ => True end ->
  items = items' /\ t1 = t2 /\ pos1 = pos2.
Proof.
  intros H1. revert items' t2 pos2.
  induction H1 as [t pos|t pos d ta posa items tb posb Hn Hr IH]; intros items' t2 pos2 H2 He1 He2.
  - inversion H2 as [|? ? ? ? ? ? ? ? Hn]; subst; [done|]. by rewrite Hn in He1.
  - inversion H2 as [|? ? ? ? ? ? ? ? Hn2 Hr2]; subst; [by rewrite Hn in He2|].
    rewrite Hn in Hn2. simplify_eq. by destruct (IH _ _ _ Hr2 He1 He2) as (-> & -> & ->).
Qed.
End facts.

(** ** [open_spool] follows the trace *)

Section open.
Context `{VarIntLaws} (storage : SampleStorage) (range_limit : Z).

Lemma commit_open_error st d e : commit_open storage st d = Err e -> e <> UnexpectedEof.
Proof. unfold commit_open. repeat case_match; naive_solver. Qed.

(** One iteration of the record loop. *)
Lemma open_loop_unfold fuel st bytes pos :
  tables_wf (os_tables st) -> (pos <= length bytes)%nat ->
  open_loop (S fuel) storage range_limit st (mkCursor bytes pos) =
    match next_record bytes (os_tables st) pos with
    | Stops truncated => Ok (st, truncated)
    | Fails e => Err e
    | Next d _ stop =>
        match commit_open storage st d with
        | Err e => Err e
        | Ok st' => open_loop fuel storage range_limit
                      (if is_sample_record d then index_sample range_limit pos stop st' else st')
                      (mkCursor bytes stop)
        end
    end.
Proof.
  intros Hwf Hp. cbn [open_loop]. unfold next_record, decode_spool_record, read_tag.
  unfold mbind at 1, io_mbind at 1. cbn [position mmap].
  destruct (Nat.eqb_spec pos (length bytes)); [done|].
  destruct (lookup_lt_is_Some_2 bytes pos) as [tag Ht]; [lia|]. rewrite Ht.
  unfold set_position; cbn [mmap]. rewrite parse_record_is_decode. unfold mbind, io_mbind.
  pose proof (moves_payload tag (os_tables st) Hwf (mkCursor bytes (S pos))) as Hm. cbn in Hm.
  specialize (Hm ltac:(lia)).
  destruct (decode_payload tag (os_tables st) (mkCursor bytes (S pos))) as [[d|e] [b c]] eqn:Hd.
  2: { destruct (decide _); [by destruct (at_eof _)|done]. }
  cbn in Hm. destruct Hm as (-> & Hc & Hok). destruct (apply_decoded_wf _ _ Hwf Hok) as (t' & Ha & _).
  unfold mret, io_mret, io_lift. rewrite Ha, (decode_payload_sample _ _ _ _ _ Hd).
  destruct (commit_open storage st d) as [st'|e] eqn:Hcommit; [done|].
  apply commit_open_error in Hcommit. by rewrite decide_False.
Qed.

Lemma open_loop_reads fuel st bytes pos items t' pos' st' :
  reads bytes (os_tables st) pos items t' pos' ->
  open_items storage range_limit st items = Ok st' ->
  tables_wf (os_tables st) -> (pos <= length bytes)%nat -> (length items <= fuel)%nat ->
  open_loop fuel storage range_limit st (mkCursor bytes pos) =
    open_loop (fuel - length items) storage range_limit st' (mkCursor bytes pos') /\
  os_tables st' = t'.
Proof.
  intros Hr. remember (os_tables st) as t0 eqn:Ht. revert st Ht fuel.
  induction Hr as [t pos|t pos d t1 pos1 items t2 pos2 Hn Hr IH];
    intros st -> fuel Hi Hwf Hp Hf; cbn [open_items] in Hi.
  { injection Hi as <-. by rewrite Nat.sub_0_r. }
  destruct fuel as [|fuel]; [cbn in Hf; lia|].
  destruct (next_record_inv _ _ _ _ _ _ Hwf Hp Hn) as (tag & _ & _ & Ha & Hs & Hwf1 & _).
  rewrite open_loop_unfold, Hn by done.
  destruct (commit_open storage st d) as [st1|] eqn:Hc; [|done].
  apply commit_open_tables in Hc. rewrite Ha in Hc. injection Hc as Ht.
  apply IH; [by case_match; rewrite ?index_sample_tables|done|done|lia|cbn in Hf; lia].
Qed.
End open.

(** ** The state after a trace *)

Section opened.
Context `{VarIntLaws} (range_limit : Z).

Lemma index_sample_rest start stop st :
  let st' := index_sample range_limit start stop st in
  os_sample_count st' = os_sample_count st /\ os_processes st' = os_processes st /\
  os_samples st' = os_samples st /\
  (is_Some (os_scan_start st) -> st' = st).
Proof. unfold index_sample. repeat case_match; cbn; naive_solver. Qed.

(** The records of a trace commit, whatever is retained. *)
Lemma commit_open_reads storage st d t1 :
  apply_decoded (os_tables st) d = Some t1 -> os_sample_count st < u64_max ->
  commit_open storage st d =
    Ok (mkOpen t1 (if decide (storage = Retain) then os_samples st ++ samples_of [d] else os_samples st)
          (os_processes st ++ observed_of [d])
          (os_sample_count st + Z.of_nat (length (samples_of [d])))
          (os_ranges st) (os_scan_start st)).
Proof.
  intros Ha Hc. destruct st as [t samples processes count ranges scan].
  unfold commit_open, with_tables, observe, checked_add_u64, samples_of, observed_of in *. cbn in *.
  rewrite (proj2 (Z.leb_le _ _)) by lia.
  destruct d; cbn in *; rewrite ?app_nil_r, ?Z.add_0_r, ?Ha; simplify_eq; try (by case_decide); done.
Qed.

Lemma open_items_all bytes storage st pos items t' pos' :
  reads bytes (os_tables st) pos items t' pos' ->
  tables_wf (os_tables st) -> (pos <= length bytes)%nat ->
  os_sample_count st + Z.of_nat (length items) <= u64_max ->
  exists st', open_items storage range_limit st items = Ok st' /\ os_tables st' = t' /\
    os_samples st' = (if decide (storage = Retain) then os_samples st ++ samples_of (decoded items)
                      else os_samples st) /\
    os_processes st' = os_processes st ++ observed_of (decoded items) /\
    os_sample_count st' = os_sample_count st + Z.of_nat (length (samples_of (decoded items))).
Proof.
  intros Hr. remember (os_tables st) as t eqn:Ht. revert st Ht.
  induction Hr as [t pos|t pos d t1 pos1 items t2 pos2 Hn Hr IH]; intros st -> Hwf Hp Hc.
  { exists st. cbn. rewrite !app_nil_r, Z.add_0_r. by case_decide. }
  destruct (next_record_inv _ _ _ _ _ _ Hwf Hp Hn) as (tag & _ & _ & Ha & Hs & Hwf1 & _).
  cbn [open_items length] in *.
  assert (length (samples_of [d]) <= 1)%nat as Hone by (by destruct d; cbn; lia).
  rewrite (commit_open_reads storage st d t1) by (done || lia).
  match goal with |- context [open_items _ _ (if _ then _ else ?x) _] => set (st0 := x) end.
  destruct (index_sample_rest pos pos1 st0) as (Hi1 & Hi2 & Hi3 & _).
  pose proof (index_sample_tables range_limit pos pos1 st0) as Hi4.
  set (st1 := if is_sample_record d then index_sample range_limit pos pos1 st0 else st0).
  assert (os_tables st1 = t1 /\ os_samples st1 = os_samples st0 /\
          os_processes st1 = os_processes st0 /\ os_sample_count st1 = os_sample_count st0)
    as (E1 & E2 & E3 & E4) by (unfold st1; by destruct (is_sample_record d)).
  destruct (IH st1) as (st' & Hst' & Ht' & Hsamples & Hproc & Hcount);
    [done|done|lia|rewrite E4; unfold st0; cbn [os_sample_count]; lia|].
  exists st'. rewrite Hsamples, Hproc, Hcount, E2, E3, E4. unfold st0.
  cbn [os_samples os_processes os_sample_count].
  change (decoded ((pos, d, pos1) :: items)) with ([d] ++ decoded items).
  unfold samples_of, observed_of in *. rewrite !omap_app, length_app, !app_assoc.
  repeat split; [done..| |lia]. by case_decide.
Qed.

(** [open_spool] on any file: its trace, and what stands behind it. *)
Lemma open_spool_trace bytes storage :
  mappable bytes ->
  match read_header (mkCursor bytes 0) with
  | (Err e, _) => open_spool_with_range_limit bytes storage range_limit = Err e
  | (Ok (start_us, interval_ns, origin), c) =>
      exists items t stop st, (position c <= length bytes)%nat /\
        reads bytes tables_empty (position c) items t stop /\
        open_items storage range_limit (open_start storage) items = Ok st /\ os_tables st = t /\
        match next_record bytes t stop with Next _ _ _ => False | _ => True end /\
        open_spool_with_range_limit bytes storage range_limit =
          match next_record bytes t stop with
          | Stops truncated => Ok (finish_open bytes start_us interval_ns origin st truncated)
          | Fails e => Err e
          | Next _ _ _ => Err Diverged
          end
  end.
Proof.
  intros Hm. unfold open_spool_with_range_limit.
  pose proof (moves_header (mkCursor bytes 0)) as Hh. cbn in Hh. specialize (Hh ltac:(lia)).
  destruct (read_header (mkCursor bytes 0)) as [[[[start_us interval_ns] origin]|e] [b pos]]; [|done].
  cbn in Hh. destruct Hh as (-> & Hp & _). cbn [position].
  destruct (trace_exists bytes tables_empty pos tables_wf_empty ltac:(lia)) as (items & t & stop & Hr & Hend).
  destruct (reads_inv _ _ _ _ _ _ Hr tables_wf_empty ltac:(lia)) as (Hwf & _ & Hl).
  destruct (open_items_all bytes storage (open_start storage) pos items t stop Hr tables_wf_empty)
    as (st & Hst & Ht & _); [lia|unfold mappable in Hm; cbn; word_lia|].
  exists items, t, stop, st. split; [lia|]. split; [done|]. split; [done|]. split; [done|]. split; [done|].
  destruct (open_loop_reads storage range_limit (S (length bytes)) (open_start storage) bytes pos items t stop st
    Hr Hst tables_wf_empty ltac:(lia) ltac:(lia)) as [-> _].
  replace (S (length bytes) - length items)%nat with (S (length bytes - length items)) by lia.
  rewrite open_loop_unfold, Ht by (by rewrite ?Ht || lia).
  by destruct (next_record bytes t stop).
Qed.
End opened.

(** ** Traces of growing files *)

Section growing.
Context `{VarIntLaws}.

(** More bytes change nothing but the end. *)
Lemma next_record_grows b1 b2 t pos :
  continues_from pos b1 b2 ->
  match next_record b1 t pos with
  | Stops _ => True
  | o => next_record b2 t pos = o
  end.
Proof.
  intros Hc. pose proof (continues_from_length _ _ _ Hc) as Hlen.
  destruct (decide (pos = length b1)) as [Heq|Hne].
  { unfold next_record, decode_spool_record, mbind, io_mbind, read_tag. cbn [position mmap].
    by rewrite (proj2 (Nat.eqb_eq _ _)). }
  pose proof Hc as (H1 & H2 & [rest Hr]).
  assert (b1 !! pos = b2 !! pos) as Htag.
  { rewrite <- (Nat.add_0_r pos), <- !lookup_drop, Hr, lookup_app_l; [done|]. rewrite length_drop. lia. }
  destruct (lookup_lt_is_Some_2 b1 pos) as [tag Ht]; [lia|].
  unfold next_record, decode_spool_record, mbind, io_mbind, read_tag. cbn [position mmap].
  rewrite !(proj2 (Nat.eqb_neq _ _)) by lia. rewrite <- Htag, Ht. unfold set_position; cbn [mmap].
  destruct (stable_payload tag t b1 b2 (S pos)) as [Ho|(r & stop & -> & -> & Hs)].
  { eapply continues_from_mono; [done|lia]. }
  { unfold ran_out in Ho. rewrite Ho. rewrite decide_True by done. unfold at_eof. cbn. by rewrite Nat.eqb_refl. }
  destruct r as [d|e]; unfold mret, io_mret; [by destruct (apply_decoded t d)|].
  destruct (decide (e = UnexpectedEof)); [|done]. unfold at_eof. cbn.
  destruct (Nat.eqb_spec stop (length b1)); [done|].
  destruct (Nat.eqb_spec stop (length b2)); [lia|done].
Qed.

Lemma reads_grows b1 b2 t pos items t' pos' :
  reads b1 t pos items t' pos' -> continues_from pos b1 b2 -> tables_wf t ->
  reads b2 t pos items t' pos'.
Proof.
  induction 1 as [|t pos d t1 pos1 items t2 pos2 Hn Hr IH]; intros Hc Hwf; [constructor|].
  pose proof (next_record_grows _ _ t pos Hc) as Hg. rewrite Hn in Hg.
  pose proof Hc as (Hp & _).
  destruct (next_record_inv _ _ _ _ _ _ Hwf Hp Hn) as (tag & _ & _ & _ & Hs & Hwf1 & _).
  econstructor; [done|]. apply IH; [|done]. eapply continues_from_mono; [done|lia].
Qed.

(** What lies in front of the position does not matter. *)
Lemma next_record_local b1 b2 t pos :
  length b1 = length b2 -> (pos <= length b1)%nat -> drop pos b1 = drop pos b2 ->
  next_record b1 t pos = next_record b2 t pos.
Proof.
  intros Hl Hp Hd.
  assert (continues_from pos b1 b2) as H12 by (split; [done|split; [lia|by rewrite Hd]]).
  assert (continues_from pos b2 b1) as H21 by (split; [lia|split; [done|by rewrite Hd]]).
  pose proof (next_record_grows _ _ t _ H12) as G1. pose proof (next_record_grows _ _ t _ H21) as G2.
  destruct (next_record b1 t pos) as [tr1| |] eqn:E1; [|done..].
  destruct (next_record b2 t pos) as [tr2| |] eqn:E2; [|congruence..].
  apply next_record_stops in E1, E2; [|lia..]. subst. by rewrite Hl.
Qed.

Lemma reads_local b1 b2 t pos items t' pos' :
  reads b1 t pos items t' pos' -> length b1 = length b2 -> (pos <= length b1)%nat ->
  drop pos b1 = drop pos b2 -> tables_wf t -> reads b2 t pos items t' pos'.
Proof.
  intros Hr Hl Hp Hd Hwf. eapply reads_grows; [done| |done].
  split; [done|split; [lia|by rewrite Hd]].
Qed.
End growing.
