(* ===== verification/Replay.v ===== *)
(** * Replaying a spool

    [ReplaySamples] of [src/spool/mod.rs]: [Replay::open] validates a file
    without retaining its samples and keeps a bounded index of their byte
    ranges; the iterator decodes them again from the ranges, and behind the last
    one by scanning the records.  It is compared with [Snapshot::open], which
    retains the samples. *)

From stdpp Require Import prelude gmap list numbers sorting.
From S2P Require Import Prelude Varint Cursor Model Records Contexts Reader Stream.
From S2P Require Import Snapshot Tables Recovery Robust Trace.
#[local] Open Scope Z_scope.

Inductive ReplayMode :=
  | Ranges (index : nat)
  | RecordsFrom (state : ReplayRecordState).

(** The iterator; the reader it borrows is an argument of its methods. *)
Record ReplaySamples := mkReplay {
  rp_cursor : MmapSpoolCursor;
  rp_last_timestamp_ns : Z;
  rp_remaining : nat;
  rp_mode : ReplayMode;
}.

Definition with_mode (mode : ReplayMode) (c : MmapSpoolCursor) (it : ReplaySamples) : ReplaySamples :=
  mkReplay c (rp_last_timestamp_ns it) (rp_remaining it) mode.
Definition jump (position : nat) (mode : ReplayMode) (it : ReplaySamples) : ReplaySamples :=
  with_mode mode (set_position position (rp_cursor it)) it.

(** [&list[..n]]. *)
Definition slice_to {A} (n : nat) (l : list A) : result (list A) :=
  if (n <=? length l)%nat then Ok (take n l) else Err Panicked.

(** A tag where the code expects one to be. *)
Definition validated_tag (c : MmapSpoolCursor) : result (Z * MmapSpoolCursor) :=
  match read_tag c with
  | (Ok (Some tag), c) => Ok (tag, c)
  | _ => Err Panicked
  end.

Section replay.
Context `{VarIntCrate}.

Definition consume_validated_record (tag : Z) (definitions : tables) (state : ReplayRecordState)
    : io MmapSpoolCursor ReplayRecordState :=
  let '(mkRecordState m f s th) := state in
  if (tag =? REC_MODULE) || (tag =? REC_JIT_MODULE) then
    read_module_record m tag;; mret (mkRecordState (S m) f s th)
  else if tag =? REC_FRAME then
    modules ← io_lift (slice_to m (modules definitions));
    read_frame modules f;; mret (mkRecordState m (S f) s th)
  else if tag =? REC_STACK then
    nodes ← io_lift (slice_to s (stack_nodes definitions));
    read_stack_node nodes f;; mret (mkRecordState m f (S s) th)
  else if tag =? REC_THREAD then
    read_thread th;; mret (mkRecordState m f s (S th))
  else if tag =? REC_PYTHON_RUNTIME then read_python_runtime;; mret state
  else if tag =? REC_MODULE_DEACTIVATE then read_pid;; mret state
  else if tag =? REC_MODULE_DEACTIVATE_ONE then read_index_within m;; mret state
  else io_fail InvalidData.

(** The loop that looks for the next sample record.  A range or the scan is
    entered once and a scanned record takes at least a byte, so the number of
    ranges and the file length bound the iterations. *)
Fixpoint seek_sample (fuel : nat) (reader : OpenedSpool) (it : ReplaySamples)
    : result (Z * ReplaySamples) :=
  match fuel with
  | O => Err Diverged
  | S fuel =>
      match rp_mode it with
      | Ranges index =>
          match op_sample_ranges reader !! index with
          | None => Err Panicked
          | Some range =>
              if (position (rp_cursor it) =? range.2)%nat then
                match op_sample_ranges reader !! S index, op_scan_start reader with
                | Some next, _ => seek_sample fuel reader (jump next.1 (Ranges (S index)) it)
                | None, Some scan =>
                    seek_sample fuel reader
                      (jump (scan_position scan) (RecordsFrom (scan_state scan)) it)
                | None, None => Err Panicked
                end
              else
                match validated_tag (rp_cursor it) with
                | Ok (tag, c) => Ok (tag, with_mode (rp_mode it) c it)
                | Err e => Err e
                end
          end
      | RecordsFrom state =>
          match validated_tag (rp_cursor it) with
          | Err e => Err e
          | Ok (tag, c) =>
              if tag =? REC_SAMPLE then Ok (tag, with_mode (rp_mode it) c it)
              else match consume_validated_record tag (op_tables reader) state c with
                   | (Ok state, c) => seek_sample fuel reader (with_mode (RecordsFrom state) c it)
                   | (Err _, _) => Err Panicked
                   end
          end
      end
  end.

Definition seek_fuel (reader : OpenedSpool) : nat :=
  length (op_sample_ranges reader) + length (op_mmap reader) + 2.

(** [ReplaySamples::next]; [Err] is a panic. *)
Definition replay_next (reader : OpenedSpool) (it : ReplaySamples)
    : result (option (SampleRecord * ReplaySamples)) :=
  if (rp_remaining it =? 0)%nat then Ok None
  else
    match seek_sample (seek_fuel reader) reader it with
    | Err e => Err e
    | Ok (tag, it) =>
        if negb (tag =? REC_SAMPLE) then Err Panicked
        else
          let t := op_tables reader in
          match read_sample (threads t) (length (stack_nodes t)) (rp_last_timestamp_ns it)
                  (rp_cursor it) with
          | (Err _, _) => Err Panicked
          | (Ok sample, c) =>
              Ok (Some (sample, mkReplay c (s_timestamp_ns sample) (pred (rp_remaining it))
                                  (rp_mode it)))
          end
    end.

(** [Replay::replay_samples]. *)
Definition replay_samples (reader : OpenedSpool) : ReplaySamples :=
  let '(start, mode) :=
    match op_sample_ranges reader, op_scan_start reader with
    | range :: _, _ => (range.1, Ranges 0)
    | [], Some scan => (scan_position scan, RecordsFrom (scan_state scan))
    | [], None => (length (op_mmap reader), Ranges 0)
    end in
  mkReplay (at_position (op_mmap reader) start) 0 (Z.to_nat (op_sample_count reader)) mode.

(** Draining the iterator. *)
Fixpoint replay_collect (n : nat) (reader : OpenedSpool) (it : ReplaySamples)
    : result (list SampleRecord) :=
  match n with
  | O => Err Diverged
  | S n =>
      match replay_next reader it with
      | Err e => Err e
      | Ok None => Ok []
      | Ok (Some (sample, it)) =>
          match replay_collect n reader it with
          | Ok rest => Ok (sample :: rest)
          | Err e => Err e
          end
      end
  end.

Definition replay_all (reader : OpenedSpool) : result (list SampleRecord) :=
  let it := replay_samples reader in replay_collect (S (rp_remaining it)) reader it.
End replay.

(** ** Decoding a validated record again *)

Lemma slice_to_prefix {A} (l l' : list A) : l `prefix_of` l' -> slice_to (length l) l' = Ok l.
Proof.
  intros [rest ->]. unfold slice_to. rewrite length_app, (proj2 (Nat.leb_le _ _)) by lia.
  by rewrite take_app_length.
Qed.

Lemma bounded_id_index_more raw n n' i :
  (n <= n')%nat -> bounded_id_index raw n = Ok i -> bounded_id_index raw n' = Ok i.
Proof.
  intros Hn. unfold bounded_id_index, check_bounded_index. destruct (u32_try_from raw) as [id|]; [|done].
  rewrite !Z.geb_leb. destruct (Z.leb_spec (Z.of_nat n) id); [done|].
  by rewrite (proj2 (Z.leb_gt _ _)) by lia.
Qed.

Section again.
Context `{VarIntLaws} (bytes : list Z).

(** The final tables have more threads and stacks than the sample saw. *)
Lemma read_sample_mono ths ths' n n' last c s c' :
  ths `prefix_of` ths' -> (n <= n')%nat ->
  read_sample ths n last c = (Ok s, c') -> read_sample ths' n' last c = (Ok s, c').
Proof.
  intros Ht Hn Hr. unfold read_sample in *.
  apply io_bind_inv in Hr as (delta & c1 & H1 & Hr). rewrite (io_bind_ok _ _ _ _ _ H1).
  apply io_bind_inv in Hr as (ts & c2 & H2 & Hr). rewrite (io_bind_ok _ _ _ _ _ H2).
  apply io_bind_inv in Hr as (i & c3 & H3 & Hr).
  assert (read_index_within (length ths') c2 = (Ok i, c3)) as H3'.
  { unfold read_index_within in *. apply io_bind_inv in H3 as (raw & c4 & Hraw & H3).
    rewrite (io_bind_ok _ _ _ _ _ Hraw). revert H3. unfold io_lift, bounded_index, check_bounded_index.
    apply prefix_length in Ht. rewrite !Z.geb_leb.
    destruct (Z.leb_spec (Z.of_nat (length ths)) raw); [done|].
    by rewrite (proj2 (Z.leb_gt _ _)) by lia. }
  rewrite (io_bind_ok _ _ _ _ _ H3').
  apply io_bind_inv in Hr as (th & c4 & H4 & Hr).
  assert (io_lift (ok_or Panicked (ths' !! Z.to_nat i)) c3 = (Ok th, c4)) as H4'.
  { revert H4. unfold io_lift, ok_or. destruct (ths !! Z.to_nat i) as [x|] eqn:Hx; [|done].
    by rewrite (prefix_lookup_Some _ _ _ _ Hx Ht). }
  rewrite (io_bind_ok _ _ _ _ _ H4').
  apply io_bind_inv in Hr as (sid & c5 & H5 & Hr).
  assert (read_id_within n' c4 = (Ok sid, c5)) as H5'.
  { unfold read_id_within in *. apply io_bind_inv in H5 as (raw & c6 & Hraw & H5).
    rewrite (io_bind_ok _ _ _ _ _ Hraw). unfold io_lift in *.
    destruct (bounded_id_index raw n) as [j|] eqn:Hb; [|done]. by rewrite (bounded_id_index_more _ _ _ _ Hn Hb). }
  by rewrite (io_bind_ok _ _ _ _ _ H5').
Qed.

Lemma consume_again t T pos d t1 stop :
  tables_wf t -> (pos <= length bytes)%nat -> extends t T ->
  next_record bytes t pos = Next d t1 stop -> is_sample_record d = false ->
  exists tag, bytes !! pos = Some tag /\ (tag =? REC_SAMPLE) = false /\
    consume_validated_record tag T (record_state t) (mkCursor bytes (S pos)) =
      (Ok (record_state t1), mkCursor bytes stop).
Proof.
  intros Hwf Hp He Hn Hs.
  destruct (next_record_inv _ _ _ _ _ _ Hwf Hp Hn) as (tag & Ht & Hd & Ha & _).
  exists tag. split; [done|]. split; [by rewrite (decode_payload_sample _ _ _ _ _ Hd)|].
  pose proof (slice_to_prefix _ _ (ext_modules _ _ He)) as Hm.
  pose proof (slice_to_prefix _ _ (ext_nodes _ _ He)) as Hst.
  unfold consume_validated_record, record_state, decode_payload in *. rewrite Hm, Hst.
  repeat (case_match; [apply io_bind_inv in Hd as (x & c & Hx & Hd); injection Hd as <- <-;
    cbn [apply_decoded] in Ha;
    repeat match goal with
      | H : context [_ <$> ?o] |- _ =>
          let E := fresh in destruct o as [[]|] eqn:E; [|discriminate Ha]; cbn in Ha
      end; simplify_eq; try done;
    unfold io_lift, mbind, io_mbind; rewrite ?Hx; cbn;
    by rewrite ?length_app, ?Nat.add_1_r|]); done.
Qed.
End again.

(** ** The index covers the samples *)

Section index.
Context `{VarIntLaws} (bytes : list Z) (T : tables).

(** With the final tables [T], a sample record stands at [start]. *)
Definition sample_at (last : Z) (start : nat) (s : SampleRecord) (stop : nat) : Prop :=
  bytes !! start = Some REC_SAMPLE /\ (start < stop)%nat /\
  read_sample (threads T) (length (stack_nodes T)) last (mkCursor bytes (S start)) =
    (Ok s, mkCursor bytes stop).

(** Samples that follow each other without a gap. *)
Inductive chain : Z -> nat -> list SampleRecord -> Z -> nat -> Prop :=
  | chain_nil last pos : chain last pos [] last pos
  | chain_cons last pos s stop ss last' pos' :
      sample_at last pos s stop -> chain (s_timestamp_ns s) stop ss last' pos' ->
      chain last pos (s :: ss) last' pos'.

(** Samples in the byte ranges of an index, none of which is empty. *)
Inductive blocks : Z -> list (nat * nat) -> list SampleRecord -> Z -> Prop :=
  | blocks_nil last : blocks last [] [] last
  | blocks_cons last a b ranges s ss last1 rest last2 :
      chain last a (s :: ss) last1 b -> blocks last1 ranges rest last2 ->
      blocks last ((a, b) :: ranges) ((s :: ss) ++ rest) last2.

Lemma sample_at_item t pos s t1 stop :
  tables_wf t -> (pos <= length bytes)%nat -> extends t T ->
  next_record bytes t pos = Next (DSample s) t1 stop ->
  sample_at (last_timestamp_ns t) pos s stop /\ t1 = commit_timestamp (s_timestamp_ns s) t.
Proof.
  intros Hwf Hp He Hn.
  destruct (next_record_inv _ _ _ _ _ _ Hwf Hp Hn) as (tag & Ht & Hd & Ha & Hs & _).
  cbn in Ha. injection Ha as <-. split; [|done].
  pose proof (decode_payload_sample _ _ _ _ _ Hd) as Htag. apply Z.eqb_eq in Htag as ->.
  split; [done|]. split; [lia|]. unfold decode_payload in Hd. cbn [Z.eqb REC_MODULE REC_JIT_MODULE
    REC_FRAME REC_STACK REC_THREAD REC_SAMPLE orb Pos.eqb] in Hd.
  apply io_bind_inv in Hd as (x & c & Hx & Hd). injection Hd as -> ->.
  eapply read_sample_mono; [apply He|eapply prefix_length, He|done].
Qed.

Lemma chain_snoc last a ss last1 b s stop :
  chain last a ss last1 b -> sample_at last1 b s stop ->
  chain last a (ss ++ [s]) (s_timestamp_ns s) stop.
Proof. induction 1; intros; econstructor; [eauto|constructor|done|eauto]. Qed.

Lemma blocks_extend last ranges a b ss last1 s stop :
  blocks last (ranges ++ [(a, b)]) ss last1 -> sample_at last1 b s stop ->
  blocks last (ranges ++ [(a, stop)]) (ss ++ [s]) (s_timestamp_ns s).
Proof.
  revert last ss. induction ranges as [|[x y] ranges IH]; intros last ss Hb Hs;
    inversion Hb as [|? ? ? ? s0 ss0 last0 rest ? Hc Hr]; subst.
  - inversion Hr; subst. rewrite app_nil_r. cbn [app].
    rewrite <- (app_nil_r (ss0 ++ [s])), app_comm_cons.
    econstructor; [|constructor]. by eapply (chain_snoc _ _ (s0 :: ss0)).
  - rewrite <- app_assoc. econstructor; [done|]. by apply IH.
Qed.

Lemma blocks_new last ranges ss last1 a s b :
  blocks last ranges ss last1 -> sample_at last1 a s b ->
  blocks last (ranges ++ [(a, b)]) (ss ++ [s]) (s_timestamp_ns s).
Proof.
  induction 1 as [|last a' b' ranges s0 ss0 last1 rest last2 Hc Hb IH]; intros Hs.
  - apply (blocks_cons _ _ _ [] s [] (s_timestamp_ns s) []); [|constructor].
    econstructor; [done|constructor].
  - rewrite <- app_assoc. cbn. apply (blocks_cons _ _ _ _ _ ss0 last1); [done|]. by apply IH.
Qed.

(** What [scan_start] leaves to the scan. *)
Definition scans (scan : option ReplayScanStart) (last : Z) (rest : list SampleRecord) : Prop :=
  match scan with
  | None => rest = []
  | Some scan => exists t items T' stop,
      scan_state scan = record_state t /\ reads bytes t (scan_position scan) items T' stop /\
      tables_wf t /\ (scan_position scan <= length bytes)%nat /\ extends T' T /\
      last_timestamp_ns t = last /\ rest = samples_of (decoded items)
  end.

Context (range_limit : Z).

(** One more sample for the index. *)
Lemma index_sample_blocks st ranges ss last start s stop :
  os_ranges st = Some ranges -> os_scan_start st = None -> blocks 0 ranges ss last ->
  sample_at last start s stop ->
  let st' := index_sample range_limit start stop st in
  exists ranges', os_ranges st' = Some ranges' /\
    (os_scan_start st' = None /\ blocks 0 ranges' (ss ++ [s]) (s_timestamp_ns s) \/
     os_scan_start st' = Some (mkScanStart start (record_state (os_tables st))) /\ ranges' = ranges).
Proof.
  intros Hr Hn Hb Hs. unfold index_sample. rewrite Hn, Hr. cbn zeta.
  destruct (list.last ranges) as [[a b]|] eqn:Hl; cbn [mbind option_bind].
  2: { destruct (_ <? _); cbn; eexists; (split; [done|]); [left|by right].
       split; [done|]. by apply blocks_new with last. }
  apply last_Some in Hl as [ranges0 ->]. cbn [fst snd].
  destruct (Nat.eqb_spec b start) as [->|].
  - exists (ranges0 ++ [(a, stop)]). cbn. split; [|left; split; [done|by eapply blocks_extend]].
    rewrite length_app. cbn. rewrite Nat.add_1_r. cbn.
    by rewrite <- (Nat.add_0_r (length ranges0)), insert_app_r.
  - destruct (_ <? _); cbn; eexists; (split; [done|]); [left|by right].
    split; [done|]. by apply blocks_new with last.
Qed.

End index.

Section opened.
Context `{VarIntLaws} (bytes : list Z) (range_limit : Z).

Lemma open_items_scanning st items st' scan :
  os_scan_start st = Some scan -> open_items Replay range_limit st items = Ok st' ->
  os_scan_start st' = Some scan /\ os_ranges st' = os_ranges st.
Proof.
  revert st. induction items as [|[[a d] b] items IH]; intros st Hs Ho; cbn in Ho; [by simplify_eq|].
  destruct (commit_open Replay st d) as [st1|] eqn:Hc; [|done].
  assert (os_scan_start st1 = Some scan /\ os_ranges st1 = os_ranges st) as [Hs1 Hr1].
  { unfold commit_open in Hc. repeat case_match; by simplify_eq/=. }
  destruct (index_sample_rest range_limit a b st1) as (_ & _ & _ & Hi).
  rewrite Hi in Ho by (by rewrite Hs1). destruct (is_sample_record d);
    (destruct (IH st1 Hs1 Ho) as [? ?]; split; congruence).
Qed.

Lemma apply_decoded_timestamp t d t1 :
  apply_decoded t d = Some t1 -> is_sample_record d = false ->
  last_timestamp_ns t1 = last_timestamp_ns t.
Proof.
  destruct d; cbn; try (by intros; simplify_eq); [destruct (deactivate_owner _ _ _)|
    destruct (deactivate_module _ _ _)]; cbn; by intros; simplify_eq.
Qed.

(** The index and the scan start, after all records, cover the samples in
    order. *)
Lemma open_items_indexed T st pos items t' pos' st' ranges ss :
  reads bytes (os_tables st) pos items t' pos' -> extends t' T ->
  tables_wf (os_tables st) -> (pos <= length bytes)%nat ->
  os_sample_count st + Z.of_nat (length items) <= u64_max ->
  os_ranges st = Some ranges -> os_scan_start st = None ->
  blocks bytes T 0 ranges ss (last_timestamp_ns (os_tables st)) ->
  open_items Replay range_limit st items = Ok st' ->
  exists ranges' ss' rest last', os_ranges st' = Some ranges' /\
    blocks bytes T 0 ranges' (ss ++ ss') last' /\ scans bytes T (os_scan_start st') last' rest /\
    samples_of (decoded items) = ss' ++ rest.
Proof.
  intros Hr. remember (os_tables st) as t eqn:Ht. revert st ranges ss Ht.
  induction Hr as [t pos|t pos d t1 pos1 items t2 pos2 Hn Hr IH];
    intros st ranges ss -> He Hwf Hp Hc Hrs Hsc Hb Ho.
  { cbn in Ho. injection Ho as <-. exists ranges, [], [], (last_timestamp_ns (os_tables st)).
    rewrite app_nil_r, Hsc. done. }
  destruct (next_record_inv _ _ _ _ _ _ Hwf Hp Hn) as (tag & _ & Hd & Ha & Hs & Hwf1 & He1 & _).
  destruct (reads_inv _ _ _ _ _ _ Hr Hwf1 ltac:(lia)) as (Hwf2 & He2 & Hl).
  cbn [open_items length] in *.
  assert (length (samples_of [d]) <= 1)%nat as Hone by (by destruct d; cbn; lia).
  rewrite (commit_open_reads Replay st d t1) in Ho by (done || lia).
  rewrite decide_False in Ho by done.
  destruct (is_sample_record d) eqn:Hsample.
  2: { match type of Ho with open_items _ _ ?x _ = _ => set (st1 := x) in Ho end.
       destruct (IH st1 ranges ss eq_refl He Hwf1 ltac:(lia)
                   ltac:(unfold st1; cbn [os_sample_count]; lia) Hrs Hsc) with (2 := Ho)
         as (ranges' & ss' & rest & last' & H1 & H2 & H3 & H4).
       - by rewrite (apply_decoded_timestamp _ _ _ Ha Hsample).
       - exists ranges', ss', rest, last'. repeat split; try done. by destruct d. }
  destruct d as [| | | |s| | |]; try done. cbn [samples_of omap list_omap observed_of length] in Ho.
  assert (extends (os_tables st) T) as HeT by (etrans; [exact He1|by etrans]).
  destruct (sample_at_item bytes T _ _ _ _ _ Hwf Hp HeT Hn) as [Hat Ht1].
  match type of Ho with open_items _ _ (index_sample _ _ _ ?x) _ = _ => set (st1 := x) in Ho end.
  destruct (index_sample_blocks bytes T range_limit st1 ranges ss _ pos s pos1 Hrs Hsc Hb Hat)
    as (ranges1 & Hr1 & Hcase).
  destruct Hcase as [[Hnone Hb1]|[Hsome ->]].
  - destruct (IH (index_sample range_limit pos pos1 st1) ranges1 (ss ++ [s]))
      as (ranges' & ss' & rest & last' & H1 & H2 & H3 & H4); try done.
    + by rewrite index_sample_tables.
    + lia.
    + destruct (index_sample_rest range_limit pos pos1 st1) as (-> & _). cbn. lia.
    + rewrite Ht1. exact Hb1.
    + exists ranges', (s :: ss'), rest, last'. rewrite <- app_assoc in H2. repeat split; try done.
      cbn. by f_equal.
  - destruct (open_items_scanning _ _ _ _ Hsome Ho) as [Hs' Hr'].
    exists ranges, [], (samples_of (decoded ((pos, DSample s, pos1) :: items))),
      (last_timestamp_ns (os_tables st)).
    rewrite app_nil_r, Hs', Hr'. split; [done|]. split; [done|]. split; [|done].
    exists (os_tables st), ((pos, DSample s, pos1) :: items), t2, pos2.
    cbn [scan_state scan_position]. split; [change (os_tables st1) with t1; by rewrite Ht1|].
    split; [by econstructor|]. done.
Qed.
End opened.

(** ** The iterator visits them *)

Section iterate.
Context `{VarIntLaws} (reader : OpenedSpool).
#[local] Abbreviation bytes := (op_mmap reader).
#[local] Abbreviation T := (op_tables reader).

(** [ready it ss]: the iterator has yet to show [ss]. *)
Inductive ready : ReplaySamples -> list SampleRecord -> Prop :=
  | ready_done it : rp_remaining it = 0%nat -> ready it []
  | ready_ranges index a b pos last block last1 ss last2 rest n :
      op_sample_ranges reader !! index = Some (a, b) ->
      chain bytes T last pos block last1 b ->
      blocks bytes T last1 (drop (S index) (op_sample_ranges reader)) ss last2 ->
      scans bytes T (op_scan_start reader) last2 rest ->
      n = length (block ++ ss ++ rest) ->
      ready (mkReplay (mkCursor bytes pos) last n (Ranges index)) (block ++ ss ++ rest)
  | ready_records t pos items T' stop n :
      reads bytes t pos items T' stop -> tables_wf t -> (pos <= length bytes)%nat ->
      extends T' T -> n = length (samples_of (decoded items)) ->
      ready (mkReplay (mkCursor bytes pos) (last_timestamp_ns t) n (RecordsFrom (record_state t)))
        (samples_of (decoded items)).

Lemma validated_tag_at pos tag :
  bytes !! pos = Some tag -> validated_tag (mkCursor bytes pos) = Ok (tag, mkCursor bytes (S pos)).
Proof.
  intros Ht. pose proof (lookup_lt_Some _ _ _ Ht). unfold validated_tag, read_tag. cbn.
  destruct (Nat.eqb_spec pos (length bytes)); [lia|]. by rewrite Ht.
Qed.

(** The scan skips definitions and stops at the next sample. *)
Lemma seek_records fuel t pos items T' stop n s ss :
  reads bytes t pos items T' stop -> tables_wf t -> (pos <= length bytes)%nat -> extends T' T ->
  samples_of (decoded items) = s :: ss -> (length items <= fuel)%nat ->
  exists pos1 stop1 items1 t1,
    seek_sample fuel reader
      (mkReplay (mkCursor bytes pos) (last_timestamp_ns t) n (RecordsFrom (record_state t))) =
    Ok (REC_SAMPLE, mkReplay (mkCursor bytes (S pos1)) (last_timestamp_ns t) n
                      (RecordsFrom (record_state t1))) /\
    sample_at bytes T (last_timestamp_ns t) pos1 s stop1 /\
    reads bytes t1 stop1 items1 T' stop /\ last_timestamp_ns t1 = s_timestamp_ns s /\
    tables_wf t1 /\ (stop1 <= length bytes)%nat /\ samples_of (decoded items1) = ss.
Proof.
  intros Hr. revert fuel s ss.
  induction Hr as [t pos|t pos d t1 pos1 items t2 pos2 Hn Hr IH]; intros fuel s ss Hwf Hp He Hss Hf; [done|].
  destruct fuel as [|fuel]; [cbn in Hf; lia|].
  destruct (next_record_inv _ _ _ _ _ _ Hwf Hp Hn) as (tag & Htag & _ & Ha & Hs & Hwf1 & He1 & _).
  destruct (reads_inv _ _ _ _ _ _ Hr Hwf1 ltac:(lia)) as (_ & He2 & _).
  assert (extends t T) as HeT by (etrans; [exact He1|by etrans]).
  cbn [seek_sample rp_mode rp_cursor].
  destruct (is_sample_record d) eqn:Hsample.
  - destruct d as [| | | |s'| | |]; try done. cbn in Hss. injection Hss as -> <-.
    destruct (sample_at_item _ T _ _ _ _ _ Hwf Hp HeT Hn) as [Hat Ht1]. pose proof Hat as (Hb & _).
    rewrite (validated_tag_at _ _ Hb). cbn [Z.eqb REC_SAMPLE Pos.eqb].
    exists pos, pos1, items, t1. split; [by rewrite Ht1|]. split; [done|]. split; [done|].
    split; [by rewrite Ht1|]. split; [done|]. split; [lia|done].
  - destruct (consume_again bytes t T pos d t1 pos1 Hwf Hp HeT Hn Hsample) as (tag' & Ht' & Hne & Hc).
    rewrite (validated_tag_at _ _ Ht'), Hne, Hc. unfold with_mode. cbn [rp_last_timestamp_ns rp_remaining].
    rewrite <- (apply_decoded_timestamp _ _ _ Ha Hsample).
    apply IH; [done|lia|done| |cbn in Hf; lia].
    rewrite <- Hss. by destruct d.
Qed.

Lemma reads_items_bound t pos items T' stop :
  reads bytes t pos items T' stop -> tables_wf t -> (pos <= length bytes)%nat ->
  (length items <= length bytes)%nat.
Proof. intros Hr Hwf Hp. destruct (reads_inv _ _ _ _ _ _ Hr Hwf Hp) as (_ & _ & ?). lia. Qed.

(** [found fuel it s ss]: the search ends at the record of [s], behind which
    [ss] is left to show. *)
Definition found (fuel : nat) (it : ReplaySamples) (s : SampleRecord) (ss : list SampleRecord) : Prop :=
  exists pos stop mode,
    seek_sample fuel reader it =
      Ok (REC_SAMPLE, mkReplay (mkCursor bytes (S pos)) (rp_last_timestamp_ns it) (rp_remaining it) mode) /\
    sample_at bytes T (rp_last_timestamp_ns it) pos s stop /\
    ready (mkReplay (mkCursor bytes stop) (s_timestamp_ns s) (length ss) mode) ss.

Lemma chain_mono last pos ss last' pos' : chain bytes T last pos ss last' pos' -> (pos <= pos')%nat.
Proof. induction 1 as [|last pos s stop ss last' pos' (_ & ? & _) _ IH]; lia. Qed.

Lemma found_in_range fuel index a b pos last s block last1 ss last2 rest n :
  op_sample_ranges reader !! index = Some (a, b) ->
  chain bytes T last pos (s :: block) last1 b ->
  blocks bytes T last1 (drop (S index) (op_sample_ranges reader)) ss last2 ->
  scans bytes T (op_scan_start reader) last2 rest -> (0 < fuel)%nat ->
  found fuel (mkReplay (mkCursor bytes pos) last n (Ranges index)) s (block ++ ss ++ rest).
Proof.
  intros Hi Hc Hb Hs Hf. inversion Hc as [|? ? ? stop ? ? ? Hat Hc']; subst.
  exists pos, stop, (Ranges index). cbn [rp_last_timestamp_ns rp_remaining].
  split; [|split; [done|by econstructor]].
  destruct fuel as [|fuel]; [lia|]. pose proof Hat as (Hbyte & Hlt & _). apply chain_mono in Hc'.
  cbn [seek_sample rp_mode rp_cursor position]. rewrite Hi. cbn [snd].
  destruct (Nat.eqb_spec pos b); [lia|]. by rewrite (validated_tag_at _ _ Hbyte).
Qed.

Lemma found_in_records fuel t pos items T' stop n s ss :
  reads bytes t pos items T' stop -> tables_wf t -> (pos <= length bytes)%nat -> extends T' T ->
  samples_of (decoded items) = s :: ss -> (length bytes <= fuel)%nat ->
  found fuel (mkReplay (mkCursor bytes pos) (last_timestamp_ns t) n (RecordsFrom (record_state t))) s ss.
Proof.
  intros Hr Hwf Hp He Hss Hf. pose proof (reads_items_bound _ _ _ _ _ Hr Hwf Hp).
  destruct (seek_records fuel t pos items T' stop n s ss)
    as (pos1 & stop1 & items1 & t1 & Hseek & Hat & Hr1 & Hl1 & Hwf1 & Hp1 & <-); [done..|lia|].
  exists pos1, stop1, (RecordsFrom (record_state t1)). split; [done|]. split; [done|].
  rewrite <- Hl1. by econstructor.
Qed.

(** At the end of a range: the next range, or the scan. *)
Lemma found_after_range fuel index a b last ss last2 rest n s ss' :
  op_sample_ranges reader !! index = Some (a, b) ->
  blocks bytes T last (drop (S index) (op_sample_ranges reader)) ss last2 ->
  scans bytes T (op_scan_start reader) last2 rest -> ss ++ rest = s :: ss' ->
  (length bytes + 2 <= fuel)%nat ->
  found fuel (mkReplay (mkCursor bytes b) last n (Ranges index)) s ss'.
Proof.
  intros Hi Hb Hs Heq Hf. destruct fuel as [|fuel]; [lia|].
  assert (forall it s ss', found fuel it s ss' -> rp_last_timestamp_ns it = last -> rp_remaining it = n ->
            seek_sample (S fuel) reader (mkReplay (mkCursor bytes b) last n (Ranges index)) =
              seek_sample fuel reader it ->
            found (S fuel) (mkReplay (mkCursor bytes b) last n (Ranges index)) s ss') as Hstep.
  { intros it x xs (pos & stop & mode & Hseek & Hat & Hready) Hl Hn Hstep.
    exists pos, stop, mode. cbn [rp_last_timestamp_ns rp_remaining]. rewrite Hstep, Hseek, Hl, Hn in *. done. }
  assert (op_sample_ranges reader !! S index = head (drop (S index) (op_sample_ranges reader))) as Hhead
    by (by rewrite head_lookup, lookup_drop, Nat.add_0_r).
  remember (drop (S index) (op_sample_ranges reader)) as R eqn:HR.
  destruct Hb as [last|last a' b' ranges x xs last1 more last2 Hc Hb'].
  - cbn [app] in Heq. subst rest.
    destruct (op_scan_start reader) as [[p st]|] eqn:Hscan; [|done].
    destruct Hs as (t & items & T' & stop & Hst & Hr & Hwf & Hp & He & <- & Hitems).
    cbn in Hst, Hr, Hp. subst st.
    eapply Hstep; [eapply (found_in_records _ t p items T' stop n); try done; lia|done|done|].
    cbn [seek_sample rp_mode rp_cursor position]. rewrite Hi. cbn [snd].
    by rewrite Nat.eqb_refl, Hhead, Hscan.
  - cbn [head] in Hhead. rewrite <- app_assoc in Heq. injection Heq as -> <-.
    eapply Hstep; [eapply (found_in_range _ (S index) a' b' a' last s xs last1 more last2 rest n);
      [done|done| |done|lia]|done|done|].
    + replace (drop (S (S index)) _) with ranges; [done|].
      by rewrite <- Nat.add_1_r, <- drop_drop, <- HR.
    + cbn [seek_sample rp_mode rp_cursor position]. rewrite Hi. cbn [snd].
      by rewrite Nat.eqb_refl, Hhead.
Qed.

Lemma ready_found it s ss :
  ready it (s :: ss) -> found (seek_fuel reader) it s ss /\ rp_remaining it = S (length ss).
Proof.
  intros Hready.
  inversion Hready as [|index a b pos last block last1 sis last2 rest n Hi Hc Hb Hs Hn Heq Hss
    |t pos items T' stop n Hr Hwf Hp He Hn Heq Hss]; subst.
  - split; [|cbn; by rewrite Hss]. unfold seek_fuel. destruct block as [|x block]; cbn [app] in Hss.
    + inversion Hc; subst. eapply found_after_range; [done..|lia].
    + injection Hss as -> <-. eapply found_in_range; [done..|lia].
  - split; [|cbn; by rewrite Hss]. eapply found_in_records; [done..|]. unfold seek_fuel. lia.
Qed.

Lemma replay_next_ready it s ss :
  ready it (s :: ss) -> exists it', replay_next reader it = Ok (Some (s, it')) /\ ready it' ss.
Proof.
  intros (Hfound & Hn)%ready_found. destruct Hfound as (pos & stop & mode & Hseek & Hat & Hready).
  exists (mkReplay (mkCursor bytes stop) (s_timestamp_ns s) (length ss) mode). split; [|done].
  unfold replay_next. rewrite Hseek, Hn. destruct Hat as (_ & _ & Hread).
  cbn [Nat.eqb Z.eqb REC_SAMPLE Pos.eqb negb rp_last_timestamp_ns rp_cursor rp_remaining rp_mode pred].
  by rewrite Hread.
Qed.

Lemma replay_collect_ready it ss :
  ready it ss -> replay_collect (S (length ss)) reader it = Ok ss.
Proof.
  revert it. induction ss as [|s ss IH]; intros it Hready; cbn [replay_collect].
  - assert (rp_remaining it = 0%nat) as Hr.
    { inversion Hready as [|? ? ? ? ? block ? sis ? rest ? ? ? ? ? Hn E1 Hss|? ? ? ? ? ? ? ? ? ? Hn E1 Hss]; subst; [done|..];
        cbn; by rewrite Hss. }
    unfold replay_next. by rewrite Hr.
  - destruct (replay_next_ready _ _ _ Hready) as (it' & -> & Hready'). cbn [length].
    by rewrite (IH _ Hready').
Qed.
End iterate.

(** ** Theorems *)

Section theorems.
Context `{VarIntLaws} (range_limit : Z).

Lemma replay_all_samples bytes start_us interval_ns origin pos items t stop st truncated :
  mappable bytes -> (pos <= length bytes)%nat -> reads bytes tables_empty pos items t stop ->
  open_items Replay range_limit (open_start Replay) items = Ok st -> os_tables st = t ->
  replay_all (finish_open bytes start_us interval_ns origin st truncated) =
    Ok (samples_of (decoded items)).
Proof.
  intros Hm Hp Hr Ho Ht. unfold mappable in Hm.
  destruct (reads_inv _ _ _ _ _ _ Hr tables_wf_empty ltac:(lia)) as (Hwf & _ & Hl).
  destruct (open_items_all range_limit bytes Replay (open_start Replay) pos items t stop Hr tables_wf_empty)
    as (st1 & Hst1 & _ & _ & _ & Hcount); [lia|cbn; word_lia|]. rewrite Ho in Hst1. injection Hst1 as <-.
  destruct (open_items_indexed bytes range_limit t (open_start Replay) pos items t stop st [] [])
    as (ranges & ss & rest & last & Hrs & Hb & Hs & Hss);
    [done|done|apply tables_wf_empty|done|cbn; word_lia|done|done|constructor|done|].
  set (reader := finish_open bytes start_us interval_ns origin st truncated).
  assert (op_sample_ranges reader = ranges) as Hranges by (cbn; by rewrite Hrs).
  assert (Z.to_nat (op_sample_count reader) = length (samples_of (decoded items))) as Hremaining
    by (change (op_sample_count reader) with (os_sample_count st); rewrite Hcount; cbn [open_start os_sample_count]; lia).
  assert (op_tables reader = t) as HT by done.
  assert (ready reader (replay_samples reader) (samples_of (decoded items))) as Hready.
  { unfold replay_samples. rewrite Hranges, Hremaining. cbn [app] in Hb. rewrite Hss.
    change (op_scan_start reader) with (os_scan_start st). change (op_mmap reader) with bytes.
    inversion Hb as [|? a b R s0 ss0 last1 more ? Hc Hb' E1 E2 E3 E4]; subst ranges ss.
    - subst. destruct (os_scan_start st) as [[p0 st0]|] eqn:Hscan; cbn [scans] in Hs.
      + destruct Hs as (t0 & items0 & T' & stop0 & Hst0 & Hr0 & Hwf0 & Hp0 & He0 & Hl0 & ->).
        cbn in Hst0, Hr0, Hp0. subst st0. cbn [app scan_position scan_state]. rewrite <- Hl0.
        by econstructor.
      + subst rest. by constructor.
    - cbn [fst at_position]. rewrite <- !app_assoc. unfold at_position.
      match goal with E : (a, b) :: R = _ |- _ => rename E into HE end.
      eapply ready_ranges; rewrite <- ?HE, ?HT; done. }
  unfold replay_all. replace (rp_remaining (replay_samples reader)) with (length (samples_of (decoded items))).
  { by apply replay_collect_ready. }
  unfold replay_samples. by case_match.
Qed.

(** C12: [Replay] and [Snapshot] show the same recording.  On every file the
    two ways of opening it agree in the error or in tables, processes and
    truncation flag; and iterating the replay, from the bounded index of byte
    ranges and the scan behind it, panics nowhere, ends, and decodes the samples
    the snapshot retained, in order, whatever the bound of the index. *)
Theorem replay_shows_the_snapshot (bytes : list Z) :
  mappable bytes ->
  match open_spool_with_range_limit bytes Replay range_limit, open_spool bytes Retain with
  | Ok r, Ok s => op_tables r = op_tables s /\ op_processes r = op_processes s /\
      op_clock_origin r = op_clock_origin s /\ op_truncated_tail r = op_truncated_tail s /\
      op_samples r = [] /\ replay_all r = Ok (op_samples s)
  | Err e, Err e' => e = e'
  | _, _ => False
  end.
Proof.
  intros Hm. pose proof (open_spool_trace range_limit bytes Replay Hm) as Hreplay.
  pose proof (open_spool_trace MAX_REPLAY_SAMPLE_RANGES bytes Retain Hm) as Hretain.
  unfold open_spool.
  destruct (read_header (mkCursor bytes 0)) as [[[[start_us interval_ns] origin]|e] [b pos]];
    [|by rewrite Hreplay, Hretain].
  destruct Hreplay as (items & t & stop & st & Hp & Hr & Ho & Ht & Hend & ->).
  destruct Hretain as (items' & t' & stop' & st' & _ & Hr' & Ho' & Ht' & Hend' & ->).
  cbn [position] in *.
  destruct (trace_unique bytes tables_empty pos items t stop items' t' stop') as (<- & <- & <-);
    try done.
  destruct (next_record bytes t stop) as [truncated|e|]; [|done..].
  assert (0 + Z.of_nat (length items) <= u64_max) as Hcount.
  { destruct (reads_inv _ _ _ _ _ _ Hr tables_wf_empty Hp) as (_ & _ & ?). unfold mappable in Hm. word_lia. }
  destruct (open_items_all range_limit bytes Replay (open_start Replay) pos items t stop Hr tables_wf_empty Hp Hcount)
    as (st1 & Hst1 & _ & Hs1 & Hp1 & _). rewrite Ho in Hst1. injection Hst1 as <-.
  destruct (open_items_all MAX_REPLAY_SAMPLE_RANGES bytes Retain (open_start Retain) pos items t stop Hr
    tables_wf_empty Hp Hcount) as (st2 & Hst2 & _ & Hs2 & Hp2 & _). rewrite Ho' in Hst2. injection Hst2 as <-.
  rewrite decide_True in Hs2 by done. rewrite decide_False in Hs1 by done.
  cbn [op_tables finish_open op_processes op_clock_origin op_truncated_tail op_samples].
  rewrite Ht, Ht', Hp1, Hp2, Hs1, Hs2. repeat split; try done.
  by eapply replay_all_samples.
Qed.
End theorems.

(** The second sample of the example lies behind the one range of the index. *)
Definition example_spool : list Z := (record_all 0 ([] : list Z) example_header example_ops).2.

Lemma example_spool_mappable : mappable example_spool.
Proof. unfold mappable. by vm_compute. Qed.

Example example_replay :
  match open_spool_with_range_limit example_spool Replay 1 with
  | Ok r => (length (op_sample_ranges r),
             match replay_all r with Ok ss => s_timestamp_ns <$> ss | Err _ => [] end)
  | Err _ => (0%nat, [])
  end = (1%nat, [1000; 900]).
Proof. by vm_compute. Qed.

Lemma replay_shows_the_snapshot_witness :
  mappable example_spool /\
  match open_spool_with_range_limit example_spool Replay 1, open_spool example_spool Retain with
  | Ok r, Ok s => op_tables r = op_tables s /\ op_processes r = op_processes s /\
      op_clock_origin r = op_clock_origin s /\ op_truncated_tail r = op_truncated_tail s /\
      op_samples r = [] /\ replay_all r = Ok (op_samples s)
  | Err e, Err e' => e = e'
  | _, _ => False
  end.
Proof.
  split; [exact example_spool_mappable|].
  pose proof (replay_shows_the_snapshot 1 example_spool example_spool_mappable) as Hw. exact Hw.
Defined.
