(* ===== verification/Tail.v ===== *)
(** * Tailing a growing spool

    [Tail] of [src/spool/tail.rs]: a reader that decodes each record of an
    append-only file once, in bounded batches, retries a record that was cut
    off, and may punch holes into the part of the file it has read.

    The mapping is shared with the file: a mapping of [n] bytes shows the first
    [n] bytes the file holds at that moment, so the file is an argument of every
    operation and [tl_mapped] is the length of the mapping. *)

From stdpp Require Import prelude gmap list numbers sorting.
From S2P Require Import Prelude Varint Cursor Model Records Contexts Reader Stream.
From S2P Require Import Snapshot Tables Recovery Robust Trace.
#[local] Open Scope Z_scope.

Definition MAX_BATCH_SAMPLES : Z := 16 * 1024.

Record Tail := mkTail {
  tl_visible_len : option nat;
  tl_discarder : option nat;
  tl_mapped : nat;
  tl_position : nat;
  tl_clock_origin : option ClockOrigin;
  tl_sample_interval_ns : Z;
  tl_tables : tables;
  tl_samples : list SampleRecord;
  tl_initial_samples_pending : bool;
  tl_observed_processes : list Z;
  tl_observed_process_set : gset Z;
  tl_retired_processes : list Z;
  tl_retired_modules : list Z;
  tl_kernel_mappings_changed : bool;
  tl_more_available : bool;
}.

Definition tl_set_tables (t : tables) (tl : Tail) : Tail :=
  let '(mkTail v d m p o i _ ss ini obs set rp rm k more) := tl in
  mkTail v d m p o i t ss ini obs set rp rm k more.
Definition tl_set_position (p : nat) (tl : Tail) : Tail :=
  let '(mkTail v d m _ o i t ss ini obs set rp rm k more) := tl in
  mkTail v d m p o i t ss ini obs set rp rm k more.
Definition tl_set_mapped (m : nat) (tl : Tail) : Tail :=
  let '(mkTail v d _ p o i t ss ini obs set rp rm k more) := tl in
  mkTail v d m p o i t ss ini obs set rp rm k more.
Definition tl_set_visible (v : option nat) (tl : Tail) : Tail :=
  let '(mkTail _ d m p o i t ss ini obs set rp rm k more) := tl in
  mkTail v d m p o i t ss ini obs set rp rm k more.
Definition tl_set_discarder (d : option nat) (tl : Tail) : Tail :=
  let '(mkTail v _ m p o i t ss ini obs set rp rm k more) := tl in
  mkTail v d m p o i t ss ini obs set rp rm k more.
Definition tl_push_sample (s : SampleRecord) (tl : Tail) : Tail :=
  let '(mkTail v d m p o i t ss ini obs set rp rm k more) := tl in
  mkTail v d m p o i t (ss ++ [s]) ini obs set rp rm k more.
Definition tl_set_observed (obs : list Z) (set : gset Z) (tl : Tail) : Tail :=
  let '(mkTail v d m p o i t ss ini _ _ rp rm k more) := tl in
  mkTail v d m p o i t ss ini obs set rp rm k more.
Definition tl_retire (processes modules : list Z) (tl : Tail) : Tail :=
  let '(mkTail v d m p o i t ss ini obs set rp rm k more) := tl in
  mkTail v d m p o i t ss ini obs set (rp ++ processes) (rm ++ modules) k more.
Definition tl_kernel_changed (changed : bool) (tl : Tail) : Tail :=
  let '(mkTail v d m p o i t ss ini obs set rp rm k more) := tl in
  mkTail v d m p o i t ss ini obs set rp rm (k || changed) more.
Definition tl_set_more (more : bool) (tl : Tail) : Tail :=
  let '(mkTail v d m p o i t ss ini obs set rp rm k _) := tl in
  mkTail v d m p o i t ss ini obs set rp rm k more.

(** The part of a tail that one batch fills. *)
Definition tl_clear_batch (tl : Tail) : Tail :=
  let '(mkTail v d m p o i t _ ini _ _ _ _ _ more) := tl in
  mkTail v d m p o i t [] ini [] ∅ [] [] false more.
Definition tl_initial_done (tl : Tail) : Tail :=
  let '(mkTail v d m p o i t ss _ obs set rp rm k more) := tl in
  mkTail v d m p o i t ss false obs set rp rm k more.
Definition tl_clear_kernel_changed (tl : Tail) : Tail :=
  let '(mkTail v d m p o i t ss ini obs set rp rm _ more) := tl in
  mkTail v d m p o i t ss ini obs set rp rm false more.

(** [Tail::observe_process]: the first test saves a set operation. *)
Definition observe_process (process : Z) (tl : Tail) : Tail :=
  if decide (list.last (tl_observed_processes tl) = Some process) then tl
  else if decide (process ∈ tl_observed_process_set tl) then tl
  else tl_set_observed (tl_observed_processes tl ++ [process])
         ({[process]} ∪ tl_observed_process_set tl) tl.
Definition observe_some (process : option Z) (tl : Tail) : Tail :=
  match process with Some process => observe_process process tl | None => tl end.

(** The [match] of [parse_available] on a decoded record; [None] is an index
    out of bounds or a failed [expect]. *)
Definition commit_tail (d : DecodedSpoolRecord) (tl : Tail) : option Tail :=
  let t := tl_tables tl in
  match d with
  | DModule m =>
      Some (observe_some (module_pid m)
              (tl_set_tables (push_module_record m t) (tl_kernel_changed (module_is_kernel m) tl)))
  | DFrame f => Some (tl_set_tables (push_frame_record f t) tl)
  | DStack n => Some (tl_set_tables (push_stack_record n t) tl)
  | DThread th => Some (tl_set_tables (push_thread_record th t) tl)
  | DSample s =>
      Some (tl_push_sample s (observe_process (s_process_id s)
              (tl_set_tables (commit_timestamp (s_timestamp_ns s) t) tl)))
  | DPythonRuntime p => Some (observe_process (p_process_id p) tl)
  | DDeactivateProcess pid =>
      '(retired, ctx) ← deactivate_owner (Process pid) (length (frames t)) (frame_contexts t);
      ids ← mapM (λ i, m_id <$> modules t !! i) retired;
      Some (tl_retire [pid] [] (observe_process pid
              (tl_retire [] ids (tl_set_tables (set_contexts ctx t) tl))))
  | DDeactivateModule i =>
      m ← modules t !! i;
      '(_, ctx) ← deactivate_module i (length (frames t)) (frame_contexts t);
      Some (observe_some (module_pid m)
              (tl_set_tables (set_contexts ctx t)
                 (tl_kernel_changed (module_is_kernel m) (tl_retire [] [m_id m] tl))))
  end.

Definition ends_batch (d : DecodedSpoolRecord) : bool :=
  match d with DDeactivateProcess _ | DDeactivateModule _ => true | _ => false end.

(** What the mapping shows. *)
Definition mapped_bytes (file : list Z) (tl : Tail) : list Z := take (tl_mapped tl) file.

Section tail.
Context `{VarIntCrate}.

(** [Tail::parse_available].  The local cursor starts at [position] and is
    where [position] is after every record; each record takes its tag byte at
    least, so the mapping bounds the iterations. *)
Fixpoint parse_loop (fuel : nat) (bytes : list Z) (tl : Tail) : result bool * Tail :=
  match fuel with
  | O => (Err Diverged, tl)
  | S fuel =>
      match decode_spool_record (tl_tables tl) (at_position bytes (tl_position tl)) with
      | (Ok None, _) => (Ok false, tl)
      | (Err e, c) =>
          if decide (e = UnexpectedEof) then if at_eof c then (Ok false, tl) else (Err e, tl)
          else (Err e, tl)
      | (Ok (Some d), c) =>
          match commit_tail d tl with
          | None => (Err Panicked, tl)
          | Some tl =>
              let tl := tl_set_position (position c) tl in
              if (Z.of_nat (length (tl_samples tl)) =? MAX_BATCH_SAMPLES) || ends_batch d
              then (Ok (tl_position tl <? length bytes)%nat, tl)
              else parse_loop fuel bytes tl
          end
      end
  end.

Definition parse_available (file : list Z) : io Tail bool := λ tl,
  parse_loop (S (tl_mapped tl)) (mapped_bytes file tl) tl.

(** [Tail::remap_if_grown]. *)
Definition remap_if_grown (file : list Z) : io Tail unit := λ tl,
  let actual_len := length file in
  let file_len := default actual_len (tl_visible_len tl) in
  if (actual_len <? file_len)%nat then (Err InvalidData, tl)
  else if (file_len <? tl_mapped tl)%nat then (Err InvalidData, tl)
  else if (tl_mapped tl <? file_len)%nat then (Ok tt, tl_set_mapped file_len tl)
  else (Ok tt, tl).

(** [Tail::from_file_bounded], with a discarder or not.  A mapping that is
    longer than the file faults when it is read. *)
Definition from_file_bounded (file : list Z) (discards : bool) (visible_len : option nat) : result Tail :=
  let mapped := default (length file) visible_len in
  if (length file <? mapped)%nat then Err Panicked
  else
    match read_header (mkCursor (take mapped file) 0) with
    | (Err e, _) => Err e
    | (Ok (_, sample_interval_ns, clock_origin), cursor) =>
        let tl := mkTail visible_len (if discards then Some 0%nat else None) mapped (position cursor)
                    clock_origin sample_interval_ns tables_empty [] true [] ∅ [] [] false false in
        match parse_available file tl with
        | (Err e, _) => Err e
        | (Ok more, tl) => Ok (tl_clear_kernel_changed (tl_set_more more tl))
        end
    end.

(** [TailBatch]: the index ranges of the new modules and frames; the rest is
    read from the tail it borrows. *)
Record TailBatch := mkBatch { b_modules : nat * nat; b_frames : nat * nat }.

(** [Tail::poll_inner]. *)
Definition poll_inner (file : list Z) : io Tail TailBatch :=
  tl ← io_get;
  let module_start := length (modules (tl_tables tl)) in
  let frame_start := length (frames (tl_tables tl)) in
  (if tl_initial_samples_pending tl then
     let mapped_len := tl_mapped tl in
     remap_if_grown file;;
     io_modify (λ tl, tl_set_more (tl_more_available tl || (mapped_len <? tl_mapped tl)%nat) tl)
   else
     io_modify tl_clear_batch;;
     remap_if_grown file;;
     more ← parse_available file;
     io_modify (tl_set_more more));;
  io_modify tl_initial_done;;
  io_gets (λ tl, mkBatch (module_start, length (modules (tl_tables tl)))
                   (frame_start, length (frames (tl_tables tl)))).
End tail.

(** [fallocate] with [PUNCH_HOLE] and [KEEP_SIZE]: the range reads as zeros. *)
Definition punch_hole (start stop : nat) (file : list Z) : list Z :=
  take start file ++ replicate (stop - start) 0 ++ drop stop file.

(** [Tail::discard_consumed_inner]; [fallocate] fails with [failure], if any. *)
Definition discard_consumed_inner (page_size : nat) (failure : option ErrorKind) (file : list Z) (tl : Tail)
    : result unit * (list Z * Tail) :=
  match tl_discarder tl with
  | None => (Err PermissionDenied, (file, tl))
  | Some discarded =>
      let discard_end := (tl_position tl - tl_position tl mod page_size)%nat in
      if (discard_end <=? discarded)%nat then (Ok tt, (file, tl))
      else match i64_try_from (Z.of_nat discarded), i64_try_from (Z.of_nat (discard_end - discarded)),
                 failure with
           | Some _, Some _, None =>
               (Ok tt, (punch_hole discarded discard_end file, tl_set_discarder (Some discard_end) tl))
           | Some _, Some _, Some e => (Err e, (file, tl))
           | _, _, _ => (Err InvalidData, (file, tl))
           end
  end.
