(* ===== verification/Tailing.v ===== *)
(** * A tail shows the file

    However appends, polls and hole punching interleave, the batches of a tail
    add up to what [Snapshot::open] shows, on all bytes. *)

From stdpp Require Import prelude gmap list numbers sorting.
From S2P Require Import Prelude Varint Cursor Model Records Contexts Reader Stream.
From S2P Require Import Snapshot Tables Recovery Robust Trace Tail.
#[local] Open Scope Z_scope.

(** ** One record *)

(** The fields a record does not touch. *)
Record keeps (tl tl' : Tail) : Prop := {
  k_visible : tl_visible_len tl' = tl_visible_len tl;
  k_discarder : tl_discarder tl' = tl_discarder tl;
  k_mapped : tl_mapped tl' = tl_mapped tl;
  k_origin : tl_clock_origin tl' = tl_clock_origin tl;
  k_interval : tl_sample_interval_ns tl' = tl_sample_interval_ns tl;
  k_initial : tl_initial_samples_pending tl' = tl_initial_samples_pending tl;
}.

#[global] Instance keeps_preorder : PreOrder keeps.
Proof. split; [done|]. intros ? ? ? [] []. split; congruence. Qed.

Lemma observe_process_keeps pid tl :
  let tl' := observe_process pid tl in
  keeps tl tl' /\ tl_tables tl' = tl_tables tl /\ tl_samples tl' = tl_samples tl /\
  tl_position tl' = tl_position tl.
Proof. destruct tl. unfold observe_process. by repeat case_decide. Qed.

Lemma observe_some_keeps pid tl :
  let tl' := observe_some pid tl in
  keeps tl tl' /\ tl_tables tl' = tl_tables tl /\ tl_samples tl' = tl_samples tl /\
  tl_position tl' = tl_position tl.
Proof. destruct pid; [apply observe_process_keeps|done]. Qed.

Lemma deactivate_all_retired ids at_frame ctx retired ctx' :
  deactivate_all ids at_frame ctx = Some (retired, ctx') -> retired ⊆ ids.
Proof.
  revert ctx retired ctx'. induction ids as [|id ids IH]; intros ctx retired ctx' Hd; cbn in Hd; [by simplify_eq|].
  destruct (deactivate_module id at_frame ctx) as [[w ctx1]|]; [|done].
  destruct (deactivate_all ids at_frame ctx1) as [[r ctx2]|] eqn:Ha; [|done].
  apply IH in Ha. destruct w; injection Hd as <- <-; [by apply list_subseteq_skip|by apply list_subseteq_cons].
Qed.

Lemma retired_modules_exist t pid retired ctx' :
  tables_wf t -> deactivate_owner (Process pid) (length (frames t)) (frame_contexts t) = Some (retired, ctx') ->
  is_Some (mapM (λ i, m_id <$> modules t !! i) retired).
Proof.
  intros Hwf Hd. apply mapM_is_Some_2, Forall_forall. intros i Hi. unfold deactivate_owner in Hd.
  pose proof (cwf_owned_indices _ _ _ (twf_contexts _ Hwf) (Process pid)) as Hown.
  destruct (owned_modules (frame_contexts t) !! Process pid) as [ids|]; [|simplify_eq; set_solver].
  cbn in Hown. apply deactivate_all_retired in Hd. rewrite Hown in Hd.
  pose proof (owned_indices_lt (modules t) (Process pid)) as Hlt. rewrite list.Forall_forall in Hlt.
  destruct (lookup_lt_is_Some_2 (modules t) i) as [m Hm]; [by apply Hlt, Hd|]. cbn. rewrite Hm. by eexists.
Qed.

Lemma commit_tail_spec d tl t' :
  tables_wf (tl_tables tl) -> decoded_ok (tl_tables tl) d -> apply_decoded (tl_tables tl) d = Some t' ->
  exists tl', commit_tail d tl = Some tl' /\ keeps tl tl' /\ tl_tables tl' = t' /\
    tl_samples tl' = tl_samples tl ++ samples_of [d].
Proof.
  intros Hwf Hok Ha. destruct d as [m|f|n|th|s|p|pid|i]; cbn [commit_tail apply_decoded] in Ha |- *.
  - simplify_eq. eexists. split; [done|].
    match goal with |- context [observe_some ?p ?x] =>
      destruct (observe_some_keeps p x) as (Hk & Ht & Hs & _); rewrite Ht, Hs end.
    split; [etrans; [|exact Hk]; by destruct tl|]. destruct tl. cbn. by rewrite app_nil_r.
  - simplify_eq. eexists. split; [done|]. destruct tl. cbn. by rewrite app_nil_r.
  - simplify_eq. eexists. split; [done|]. destruct tl. cbn. by rewrite app_nil_r.
  - simplify_eq. eexists. split; [done|]. destruct tl. cbn. by rewrite app_nil_r.
  - simplify_eq. eexists. split; [done|].
    match goal with |- context [observe_process ?p ?x] =>
      destruct (observe_process_keeps p x) as (Hk & Ht & Hs & _);
      destruct (observe_process p x) eqn:E end.
    destruct tl. destruct Hk. cbn in *. subst. by repeat split.
  - simplify_eq. eexists. split; [done|].
    destruct (observe_process_keeps (p_process_id p) tl) as (Hk & -> & -> & _). cbn. by rewrite app_nil_r.
  - destruct (deactivate_owner _ _ _) as [[retired ctx]|] eqn:Hd; [|done]. cbn in Ha. simplify_eq.
    destruct (retired_modules_exist _ _ _ _ Hwf Hd) as [ids Hids].
    cbn [mbind option_bind]. rewrite Hids. cbn [mbind option_bind]. eexists. split; [done|].
    match goal with |- context [observe_process ?p ?x] =>
      destruct (observe_process_keeps p x) as (Hk & Ht & Hs & _);
      destruct (observe_process p x) eqn:E end.
    destruct tl. destruct Hk. cbn in *. subst. rewrite ?app_nil_r. repeat split; by rewrite ?app_nil_r.
  - cbn in Hok. destruct (lookup_lt_is_Some_2 (modules (tl_tables tl)) i) as [m Hm]; [done|]. rewrite Hm.
    destruct (deactivate_module _ _ _) as [[w ctx]|] eqn:Hd; [|done]. cbn in Ha. simplify_eq.
    cbn [mbind option_bind]. eexists. split; [done|].
    match goal with |- context [observe_some ?p ?x] =>
      destruct (observe_some_keeps p x) as (Hk & Ht & Hs & _); rewrite Ht, Hs end.
    split; [etrans; [|exact Hk]; by destruct tl|]. destruct tl. cbn. by rewrite app_nil_r.
Qed.

(** ** One batch *)

Section parsing.
Context `{VarIntLaws}.

(** An iteration of the loop of [parse_available]. *)
Lemma parse_loop_unfold fuel bytes tl :
  tables_wf (tl_tables tl) -> (tl_position tl <= length bytes)%nat ->
  parse_loop (S fuel) bytes tl =
    match next_record bytes (tl_tables tl) (tl_position tl) with
    | Stops _ => (Ok false, tl)
    | Fails e => (Err e, tl)
    | Next d _ stop =>
        match commit_tail d tl with
        | None => (Err Panicked, tl)
        | Some tl' =>
            let tl' := tl_set_position stop tl' in
            if (Z.of_nat (length (tl_samples tl')) =? MAX_BATCH_SAMPLES) || ends_batch d
            then (Ok (stop <? length bytes)%nat, tl')
            else parse_loop fuel bytes tl'
        end
    end.
Proof.
  intros Hwf Hp. cbn [parse_loop]. unfold next_record, at_position.
  destruct (decode_spool_record _ _) as [[[d|]|e] c] eqn:Hd; [|done|].
  - assert (exists t', apply_decoded (tl_tables tl) d = Some t') as [t' Ha].
    { unfold decode_spool_record, mbind, io_mbind in Hd.
      destruct (read_tag _) as [[[tag|]|] c1] eqn:Ht; try done.
      unfold read_tag in Ht. cbn [position mmap] in Ht. destruct (_ =? _)%nat eqn:E; [done|].
      apply Nat.eqb_neq in E. destruct (bytes !! tl_position tl); [|done]. injection Ht as -> <-.
      pose proof (moves_payload tag _ Hwf (mkCursor bytes (S (tl_position tl)))) as Hm.
      unfold set_position in Hd. cbn [mmap] in Hd. cbn in Hm. specialize (Hm ltac:(lia)).
      destruct (decode_payload _ _ _) as [[d'|] c2]; [|done]. injection Hd as -> ->.
      destruct Hm as (_ & _ & Hok). by destruct (apply_decoded_wf _ _ Hwf Hok) as (t' & ? & _); exists t'. }
    rewrite Ha. by destruct (commit_tail d tl) as [[]|].
  - destruct (decide _); [by destruct (at_eof c)|done].
Qed.

Lemma tl_set_position_keeps p tl :
  keeps tl (tl_set_position p tl) /\ tl_tables (tl_set_position p tl) = tl_tables tl /\
  tl_samples (tl_set_position p tl) = tl_samples tl /\ tl_position (tl_set_position p tl) = p.
Proof. by destruct tl. Qed.

(** What a batch holds, and why it ended. *)
Definition batch_outcome (bytes : list Z) (r : result bool) (items : list item) (tl : Tail) : Prop :=
  match r with
  | Ok true => items <> []
  | Ok false => exists truncated, next_record bytes (tl_tables tl) (tl_position tl) = Stops truncated
  | Err e => next_record bytes (tl_tables tl) (tl_position tl) = Fails e
  end.

Lemma parse_loop_spec fuel bytes tl :
  tables_wf (tl_tables tl) -> (tl_position tl <= length bytes)%nat ->
  (length bytes - tl_position tl < fuel)%nat -> Z.of_nat (length (tl_samples tl)) < MAX_BATCH_SAMPLES ->
  let '(r, tl') := parse_loop fuel bytes tl in
  exists items, reads bytes (tl_tables tl) (tl_position tl) items (tl_tables tl') (tl_position tl') /\
    keeps tl tl' /\ tl_samples tl' = tl_samples tl ++ samples_of (decoded items) /\
    Z.of_nat (length (tl_samples tl')) <= MAX_BATCH_SAMPLES /\ batch_outcome bytes r items tl'.
Proof.
  revert tl. induction fuel as [|fuel IH]; intros tl Hwf Hp Hf Hs; [lia|].
  rewrite parse_loop_unfold by done.
  destruct (next_record bytes (tl_tables tl) (tl_position tl)) as [tr|e|d t1 stop] eqn:Hn.
  - exists []. cbn. rewrite app_nil_r. repeat split; [constructor|lia|by exists tr].
  - exists []. cbn. rewrite app_nil_r. repeat split; [constructor|lia|done].
  - destruct (next_record_inv _ _ _ _ _ _ Hwf Hp Hn) as (tag & _ & _ & Ha & Hstop & Hwf1 & _ & Hok).
    destruct (commit_tail_spec d tl t1 Hwf Hok Ha) as (tl1 & -> & Hk & Ht1 & Hs1). cbn zeta.
    destruct (tl_set_position_keeps stop tl1) as (Hk2 & Ht2 & Hs2 & Hp2).
    set (tl2 := tl_set_position stop tl1) in *.
    assert (length (samples_of [d]) <= 1)%nat as Hone by (by destruct d; cbn; lia).
    assert (Z.of_nat (length (tl_samples tl2)) <= MAX_BATCH_SAMPLES) as Hmax.
    { rewrite Hs2, Hs1, length_app. lia. }
    assert (reads bytes (tl_tables tl) (tl_position tl) [(tl_position tl, d, stop)] (tl_tables tl2)
              (tl_position tl2)) as Hread.
    { rewrite Ht2, Ht1, Hp2. econstructor; [done|constructor]. }
    destruct (_ || _) eqn:Hend.
    + exists [(tl_position tl, d, stop)]. split; [done|]. split; [by etrans|].
      split; [by rewrite Hs2|]. split; [done|]. unfold batch_outcome.
      destruct (Nat.ltb_spec stop (length bytes)); [done|]. rewrite Hp2.
      exists false. replace stop with (length bytes) by lia.
      unfold next_record, decode_spool_record, mbind, io_mbind, read_tag. cbn. by rewrite Nat.eqb_refl.
    + apply orb_false_iff in Hend as [Hne _]. apply Z.eqb_neq in Hne.
      specialize (IH tl2). rewrite Ht2, Ht1, Hp2 in IH.
      specialize (IH Hwf1 ltac:(lia) ltac:(lia) ltac:(lia)).
      destruct (parse_loop fuel bytes tl2) as [r tl3].
      destruct IH as (items & Hr & Hk3 & Hs3 & Hm3 & Hout).
      exists ((tl_position tl, d, stop) :: items). split; [by econstructor|].
      split; [by do 2 (etrans; [done|])|].
      split. { rewrite Hs3, Hs2, Hs1, <- app_assoc. f_equal.
               change (decoded (_ :: items)) with ([d] ++ decoded items). unfold samples_of.
               by rewrite omap_app. }
      split; [done|]. by destruct r as [[]|].
Qed.

Lemma commit_tail_keeps d tl tl' : commit_tail d tl = Some tl' -> keeps tl tl'.
Proof.
  destruct d; cbn [commit_tail]; intros Hc.
  all: repeat (let E := fresh in first
    [match type of Hc with context [mbind _ ?o] =>
       match o with
       | deactivate_owner _ _ _ => destruct o as [[]|]; [|done]
       | deactivate_module _ _ _ => destruct o as [[]|]; [|done]
       | mapM _ _ => destruct o; [|done]
       | modules _ !! _ => destruct o; [|done]
       end end; cbn [mbind option_bind] in Hc]).
  all: injection Hc as <-; destruct tl; unfold observe_some, observe_process; cbn;
    repeat case_match; by split.
Qed.

Lemma parse_available_keeps file tl : keeps tl (parse_available file tl).2.
Proof.
  unfold parse_available. generalize (mapped_bytes file tl) as bytes.
  generalize (S (tl_mapped tl)) as fuel. intros fuel bytes. revert tl.
  induction fuel as [|fuel IH]; intros tl; [done|]. cbn [parse_loop].
  destruct (decode_spool_record _ _) as [[[d|]|e] c]; [|done|by repeat case_match].
  destruct (commit_tail d tl) as [tl1|] eqn:Hc; [|done].
  assert (keeps tl (tl_set_position (position c) tl1)) as Hk.
  { etrans; [by eapply commit_tail_keeps|]. apply tl_set_position_keeps. }
  cbn zeta. destruct (_ || _); [done|]. etrans; [exact Hk|apply IH].
Qed.
End parsing.

(** ** A session *)

(** What the writer and the owner of the tail do. *)
Inductive tail_event :=
  | Appended (bs : list Z)
  | Polled
  | Discarded (page_size : nat) (failure : option ErrorKind).

(** The bytes written so far, the file (which may have holes where they were
    read), the tail, and the samples its batches have shown. *)
Record tail_session := mkSession {
  ts_written : list Z;
  ts_file : list Z;
  ts_tail : Tail;
  ts_delivered : list SampleRecord;
}.

Section session.
Context `{VarIntCrate}.

Definition tail_step (s : tail_session) (ev : tail_event) : result tail_session :=
  let '(mkSession written file tl delivered) := s in
  match ev with
  | Appended bs => Ok (mkSession (written ++ bs) (file ++ bs) tl delivered)
  | Polled =>
      match poll_inner file tl with
      | (Err e, _) => Err e
      | (Ok _, tl) => Ok (mkSession written file tl (delivered ++ tl_samples tl))
      end
  | Discarded page_size failure =>
      (* a failed reclamation is retried later *)
      let '(_, (file, tl)) := discard_consumed_inner page_size failure file tl in
      Ok (mkSession written file tl delivered)
  end.

Fixpoint tail_run (s : tail_session) (evs : list tail_event) : result tail_session :=
  match evs with
  | [] => Ok s
  | ev :: evs => match tail_step s ev with Ok s => tail_run s evs | Err e => Err e end
  end.

(** Polling while [TailBatch::has_more]. *)
Fixpoint drain (fuel : nat) (s : tail_session) : result tail_session :=
  match fuel with
  | O => Err Diverged
  | S fuel =>
      match tail_step s Polled with
      | Err e => Err e
      | Ok s => if tl_more_available (ts_tail s) then drain fuel s else Ok s
      end
  end.
End session.

(** Samples decoded when the tail was opened, shown by the first poll. *)
Definition pending (tl : Tail) : list SampleRecord :=
  if tl_initial_samples_pending tl then tl_samples tl else [].

Section invariant.
Context `{VarIntLaws}.

(** The mapped part of what was written. *)
Definition seen (written : list Z) (tl : Tail) : list Z := take (tl_mapped tl) written.

Record tail_inv (s : tail_session) : Prop := {
  ti_length : length (ts_file s) = length (ts_written s);
  ti_suffix : drop (tl_position (ts_tail s)) (ts_file s) = drop (tl_position (ts_tail s)) (ts_written s);
  ti_mapped : (tl_position (ts_tail s) <= tl_mapped (ts_tail s) <= length (ts_file s))%nat;
  ti_discarded : (default 0 (tl_discarder (ts_tail s)) <= tl_position (ts_tail s))%nat;
  ti_batch : Z.of_nat (length (tl_samples (ts_tail s))) <= MAX_BATCH_SAMPLES;
  ti_trace : exists start_us pos items,
    read_header (mkCursor (seen (ts_written s) (ts_tail s)) 0) =
      (Ok (start_us, tl_sample_interval_ns (ts_tail s), tl_clock_origin (ts_tail s)),
       mkCursor (seen (ts_written s) (ts_tail s)) pos) /\
    (pos <= length (seen (ts_written s) (ts_tail s)))%nat /\
    reads (seen (ts_written s) (ts_tail s)) tables_empty pos items (tl_tables (ts_tail s))
      (tl_position (ts_tail s)) /\
    ts_delivered s ++ pending (ts_tail s) = samples_of (decoded items);
  ti_more : tl_more_available (ts_tail s) = false -> exists truncated,
    next_record (seen (ts_written s) (ts_tail s)) (tl_tables (ts_tail s)) (tl_position (ts_tail s)) =
      Stops truncated;
}.

Lemma read_header_grows b1 b2 r pos :
  b1 `prefix_of` b2 -> read_header (mkCursor b1 0) = (Ok r, mkCursor b1 pos) ->
  read_header (mkCursor b2 0) = (Ok r, mkCursor b2 pos).
Proof.
  intros Hpre Hh. destruct (stable_header b1 b2 0%nat) as [Ho|(r' & pos' & H1 & H2 & _)].
  - split; [lia|]. split; [lia|done].
  - unfold ran_out in Ho. congruence.
  - rewrite H2. congruence.
Qed.

Lemma take_prefix_mono {A} n m (l : list A) : (n <= m)%nat -> take n l `prefix_of` take m l.
Proof. intros. exists (take (m - n) (drop n l)). rewrite take_take_drop. f_equal. lia. Qed.

Lemma continues_from_prefix pos (b1 b2 : list Z) :
  b1 `prefix_of` b2 -> (pos <= length b1)%nat -> continues_from pos b1 b2.
Proof. intros [rest ->]. apply continues_from_app. Qed.

(** The facts on the trace survive any growth of the mapping. *)
Lemma trace_grows b1 b2 pos items tl :
  b1 `prefix_of` b2 -> (pos <= length b1)%nat ->
  reads b1 tables_empty pos items (tl_tables tl) (tl_position tl) ->
  reads b2 tables_empty pos items (tl_tables tl) (tl_position tl).
Proof.
  intros Hpre Hp Hr. eapply reads_grows; [done|by apply continues_from_prefix|apply tables_wf_empty].
Qed.

Lemma tail_inv_append s bs :
  tail_inv s -> tail_inv (mkSession (ts_written s ++ bs) (ts_file s ++ bs) (ts_tail s) (ts_delivered s)).
Proof.
  destruct s as [written file tl delivered]. intros [H1 H2 H3 H4 H5 H6 H7]; cbn in *.
  assert (seen (written ++ bs) tl = seen written tl) as Hseen.
  { unfold seen. rewrite take_app_le by lia. done. }
  split; cbn; rewrite ?Hseen, ?length_app; try done; [lia| |lia].
  rewrite !drop_app_le by lia. by rewrite H2.
Qed.

Lemma punch_hole_length a b (file : list Z) :
  (a <= b <= length file)%nat -> length (punch_hole a b file) = length file.
Proof. intros. unfold punch_hole. rewrite !length_app, length_take, length_replicate, length_drop. lia. Qed.

Lemma punch_hole_drop a b pos (file : list Z) :
  (a <= b <= pos)%nat -> (pos <= length file)%nat -> drop pos (punch_hole a b file) = drop pos file.
Proof.
  intros Hab Hp. unfold punch_hole. rewrite app_assoc.
  rewrite drop_app_ge by (rewrite length_app, length_take, length_replicate; lia).
  rewrite drop_drop. f_equal. rewrite length_app, length_take, length_replicate. lia.
Qed.

Lemma tail_inv_discard s page_size failure :
  tail_inv s ->
  let '(_, (file, tl)) := discard_consumed_inner page_size failure (ts_file s) (ts_tail s) in
  tail_inv (mkSession (ts_written s) file tl (ts_delivered s)).
Proof.
  destruct s as [written file tl delivered]. intros Hinv. cbn [ts_file ts_tail ts_written ts_delivered].
  unfold discard_consumed_inner. destruct (tl_discarder tl) as [discarded|] eqn:Hd; [|done].
  set (stop := (tl_position tl - tl_position tl mod page_size)%nat).
  destruct (Nat.leb_spec stop discarded); [done|].
  destruct (i64_try_from (Z.of_nat discarded)), (i64_try_from (Z.of_nat (stop - discarded))), failure;
    try exact Hinv.
  destruct Hinv as [Hl Hs Hm Hdisc Hb Ht Hmore]. cbn in *. rewrite Hd in Hdisc. cbn in Hdisc.
  assert (stop <= tl_position tl)%nat by (unfold stop; lia).
  destruct tl; cbn in *. split; cbn; rewrite ?punch_hole_length by lia; try done.
  by rewrite punch_hole_drop by lia.
Qed.

(** ** Polling *)

Lemma remap_spec file tl :
  (tl_mapped tl <= length file)%nat ->
  match remap_if_grown file tl with
  | (Ok _, tl') => tl' = tl_set_mapped (default (length file) (tl_visible_len tl)) tl /\
      (tl_mapped tl <= default (length file) (tl_visible_len tl) <= length file)%nat
  | (Err e, tl') => e = InvalidData /\ tl' = tl /\
      ~ (tl_mapped tl <= default (length file) (tl_visible_len tl) <= length file)%nat
  end.
Proof.
  intros Hm. unfold remap_if_grown. destruct tl as [v d m p o i t ss ini obs set rp rm k more].
  cbn [tl_visible_len tl_mapped tl_set_mapped] in *.
  destruct (Nat.ltb_spec (length file) (default (length file) v)).
  { cbn. split; [done|]. split; [done|lia]. }
  destruct (Nat.ltb_spec (default (length file) v) m).
  { cbn. split; [done|]. split; [done|lia]. }
  destruct (Nat.ltb_spec m (default (length file) v)); cbn; [split; [done|lia]|].
  split; [f_equal; lia|lia].
Qed.

(** The state of a session whose mapping has grown to [n] bytes. *)
Lemma tail_inv_remap written file tl delivered n :
  tail_inv (mkSession written file tl delivered) -> (tl_mapped tl <= n <= length file)%nat ->
  let tl' := tl_set_mapped n tl in
  take (tl_mapped tl) written `prefix_of` take n written /\
  exists start_us pos items,
    read_header (mkCursor (seen written tl') 0) =
      (Ok (start_us, tl_sample_interval_ns tl, tl_clock_origin tl), mkCursor (seen written tl') pos) /\
    (pos <= length (seen written tl'))%nat /\
    reads (seen written tl') tables_empty pos items (tl_tables tl) (tl_position tl) /\
    delivered ++ pending tl = samples_of (decoded items).
Proof.
  intros [H1 H2 H3 H4 H5 (start_us & pos & items & Hh & Hp & Hr & Hs) H7] Hn. cbn in *.
  assert (take (tl_mapped tl) written `prefix_of` take n written) as Hpre by (apply take_prefix_mono; lia).
  split; [done|]. unfold seen in *. replace (tl_mapped (tl_set_mapped n tl)) with n by (by destruct tl).
  exists start_us, pos, items. split; [by eapply read_header_grows|].
  split; [apply prefix_length in Hpre; lia|]. split; [by eapply trace_grows|done].
Qed.

(** Reading the file, holes included, is reading what was written. *)
Lemma next_record_file s m t :
  length (ts_file s) = length (ts_written s) ->
  drop (tl_position (ts_tail s)) (ts_file s) = drop (tl_position (ts_tail s)) (ts_written s) ->
  forall pos, (tl_position (ts_tail s) <= pos <= m)%nat -> (m <= length (ts_file s))%nat ->
  next_record (take m (ts_file s)) t pos = next_record (take m (ts_written s)) t pos.
Proof.
  intros Hl Hd pos Hp Hm. apply next_record_local.
  - rewrite !length_take. lia.
  - rewrite length_take. lia.
  - rewrite !skipn_firstn_comm. f_equal.
    replace pos with (tl_position (ts_tail s) + (pos - tl_position (ts_tail s)))%nat by lia.
    by rewrite <- !drop_drop, Hd.
Qed.

(** The two kinds of polls. *)
Lemma poll_initial file tl :
  tl_initial_samples_pending tl = true ->
  match remap_if_grown file tl with
  | (Err e, tl') => poll_inner file tl = (Err e, tl')
  | (Ok _, tl') => exists batch, poll_inner file tl =
      (Ok batch, tl_initial_done (tl_set_more (tl_more_available tl' || (tl_mapped tl <? tl_mapped tl')%nat) tl'))
  end.
Proof.
  intros Hi. unfold poll_inner, mbind, io_mbind, io_get, io_gets, io_modify. rewrite Hi.
  destruct (remap_if_grown file tl) as [[]]; [by eexists|done].
Qed.

Lemma poll_later file tl :
  tl_initial_samples_pending tl = false ->
  match remap_if_grown file (tl_clear_batch tl) with
  | (Err e, tl') => poll_inner file tl = (Err e, tl')
  | (Ok _, tl1) =>
      match parse_available file tl1 with
      | (Err e, tl') => poll_inner file tl = (Err e, tl')
      | (Ok more, tl') => exists batch, poll_inner file tl = (Ok batch, tl_initial_done (tl_set_more more tl'))
      end
  end.
Proof.
  intros Hi. unfold poll_inner, mbind, io_mbind, io_get, io_gets, io_modify. rewrite Hi.
  destruct (remap_if_grown file (tl_clear_batch tl)) as [[]]; [|done].
  destruct (parse_available file t) as [[]]; [by eexists|done].
Qed.

(** A file in which a corrupt record follows a readable header. *)
Definition corrupt (bytes : list Z) (e : ErrorKind) : Prop :=
  exists header pos items t stop, read_header (mkCursor bytes 0) = (Ok header, mkCursor bytes pos) /\
    (pos <= length bytes)%nat /\ reads bytes tables_empty pos items t stop /\
    next_record bytes t stop = Fails e.

(** What a poll makes of a session. *)
Definition poll_outcome (s : tail_session) (out : result TailBatch * Tail) : Prop :=
  let visible := default (length (ts_file s)) (tl_visible_len (ts_tail s)) in
  match out with
  | (Ok _, tl) =>
      tail_inv (mkSession (ts_written s) (ts_file s) tl (ts_delivered s ++ tl_samples tl)) /\
      tl_mapped tl = visible /\ tl_visible_len tl = tl_visible_len (ts_tail s) /\
      tl_discarder tl = tl_discarder (ts_tail s) /\ tl_initial_samples_pending tl = false /\
      (tl_position (ts_tail s) <= tl_position tl)%nat /\
      (tl_initial_samples_pending (ts_tail s) = false -> tl_more_available tl = true ->
       (tl_position (ts_tail s) < tl_position tl)%nat)
  | (Err e, _) =>
      (e = InvalidData /\ ~ (tl_mapped (ts_tail s) <= visible <= length (ts_file s))%nat) \/ corrupt (take visible (ts_written s)) e
  end.

Lemma tail_inv_poll_initial s :
  tail_inv s -> tl_initial_samples_pending (ts_tail s) = true ->
  poll_outcome s (poll_inner (ts_file s) (ts_tail s)).
Proof.
  destruct s as [written file tl delivered]. intros Hinv Hi. cbn [ts_file ts_tail] in *.
  pose proof (poll_initial file tl Hi) as Hpoll. pose proof Hinv as [H1 H2 H3 H4 H5 H6 H7]. cbn in *.
  pose proof (remap_spec file tl ltac:(lia)) as Hremap. unfold poll_outcome. cbn [ts_file ts_tail ts_written ts_delivered].
  destruct (remap_if_grown file tl) as [[[]|e] tl1]; [|rewrite Hpoll; left; tauto].
  destruct Hpoll as [batch ->]. destruct Hremap as [-> Hn].
  set (n := default (length file) (tl_visible_len tl)) in *.
  destruct (tail_inv_remap _ _ _ _ n Hinv Hn) as (Hpre & start_us & pos & items & Hh & Hp & Hr & Hs).
  unfold pending in Hs. rewrite Hi in Hs.
  destruct tl as [v d m p o i t ss ini obs set rp rm k more]; cbn in *.
  split; [|split; [done|split; [done|split; [done|split; [done|split; [done|by rewrite Hi]]]]]].
  split; cbn; try done.
  - lia.
  - exists start_us, pos, items. rewrite app_nil_r. done.
  - intros [-> Hlt]%orb_false_iff. apply Nat.ltb_ge in Hlt.
    destruct (H7 eq_refl) as [tr Htr]. exists tr. unfold seen in *. cbn in *.
    by replace (default (length file) v) with m by lia.
Qed.

Lemma clear_batch_fields tl :
  keeps tl (tl_clear_batch tl) /\ tl_tables (tl_clear_batch tl) = tl_tables tl /\
  tl_samples (tl_clear_batch tl) = [] /\ tl_position (tl_clear_batch tl) = tl_position tl /\
  tl_visible_len (tl_clear_batch tl) = tl_visible_len tl.
Proof. by destruct tl. Qed.

Lemma tail_inv_poll_later s :
  tail_inv s -> tl_initial_samples_pending (ts_tail s) = false ->
  poll_outcome s (poll_inner (ts_file s) (ts_tail s)).
Proof.
  destruct s as [written file tl delivered]. intros Hinv Hi. cbn [ts_file ts_tail] in *.
  pose proof (poll_later file tl Hi) as Hpoll. pose proof Hinv as [H1 H2 H3 H4 H5 H6 H7].
  cbn [ts_file ts_tail ts_written ts_delivered] in *.
  destruct (clear_batch_fields tl) as (Hk & Ht & Hss & Hpos & Hv).
  pose proof (remap_spec file (tl_clear_batch tl)) as Hremap. rewrite (k_mapped _ _ Hk), Hv in Hremap.
  specialize (Hremap ltac:(lia)). unfold poll_outcome. cbn [ts_file ts_tail ts_written ts_delivered].
  destruct (remap_if_grown file (tl_clear_batch tl)) as [[[]|e] tl1]; [|rewrite Hpoll; left; tauto].
  destruct Hremap as [-> Hn]. set (n := default (length file) (tl_visible_len tl)) in *.
  destruct (tail_inv_remap _ _ _ _ n Hinv Hn) as (Hpre & start_us & pos & items & Hh & Hp & Hr & Hs).
  unfold pending in Hs. rewrite Hi, app_nil_r in Hs.
  destruct (reads_inv _ _ _ _ _ _ Hr tables_wf_empty Hp) as (Hwf & _ & Hle).
  set (tl1 := tl_set_mapped n (tl_clear_batch tl)) in *.
  assert (tl_mapped tl1 = n /\ tl_tables tl1 = tl_tables tl /\ tl_position tl1 = tl_position tl /\
          tl_samples tl1 = [] /\ tl_initial_samples_pending tl1 = false /\
          tl_visible_len tl1 = tl_visible_len tl /\ tl_discarder tl1 = tl_discarder tl /\
          tl_clock_origin tl1 = tl_clock_origin tl /\ tl_sample_interval_ns tl1 = tl_sample_interval_ns tl)
    as (E1 & E2 & E3 & E4 & E5 & E6 & E7 & E8 & E9) by (unfold tl1; by destruct tl).
  assert (seen written (tl_set_mapped n tl) = take n written) as Hseen by (by destruct tl).
  rewrite Hseen in *. rewrite length_take in Hle, Hp.
  assert (length (take n file) = n) as Hlen by (rewrite length_take; lia).
  unfold parse_available, mapped_bytes in Hpoll. rewrite E1 in Hpoll.
  pose proof (parse_loop_spec (S n) (take n file) tl1) as Hparse.
  rewrite E2, E3, E4, Hlen in Hparse. specialize (Hparse Hwf ltac:(lia) ltac:(lia) ltac:(done)).
  destruct (parse_loop (S n) (take n file) tl1) as [r tl2].
  destruct Hparse as (more_items & Hr2 & Hk2 & Hs2 & Hmax & Hout). cbn [app] in Hs2.
  destruct (reads_inv _ _ _ _ _ _ Hr2 Hwf ltac:(lia)) as (Hwf2 & _ & Hle2). rewrite Hlen in Hle2.
  assert (reads (take n written) (tl_tables tl) (tl_position tl) more_items (tl_tables tl2) (tl_position tl2))
    as Hr3.
  { eapply reads_local; [exact Hr2|rewrite !length_take; lia|lia| |done].
    rewrite !skipn_firstn_comm. by rewrite H2. }
  assert (forall o, next_record (take n file) (tl_tables tl2) (tl_position tl2) = o ->
            next_record (take n written) (tl_tables tl2) (tl_position tl2) = o) as Hsame.
  { intros o <-. symmetry.
    apply (next_record_file (mkSession written file tl delivered)); cbn; try done; lia. }
  pose proof (reads_app _ _ _ _ _ _ _ _ _ Hr Hr3) as Hall.
  destruct r as [more|e].
  2: { rewrite Hpoll. right. exists (start_us, tl_sample_interval_ns tl, tl_clock_origin tl), pos,
         (items ++ more_items), (tl_tables tl2), (tl_position tl2).
       split; [done|]. split; [rewrite length_take; lia|]. split; [done|]. by apply Hsame. }
  destruct Hpoll as [batch ->]. destruct Hk2 as [K1 K2 K3 K4 K5 K6].
  rewrite E6 in K1. rewrite E7 in K2. rewrite E1 in K3. rewrite E8 in K4. rewrite E9 in K5. rewrite E5 in K6.
  assert (drop (tl_position tl2) file = drop (tl_position tl2) written) as Hdrop.
  { replace (tl_position tl2) with (tl_position tl + (tl_position tl2 - tl_position tl))%nat by lia.
    by rewrite <- !drop_drop, H2. }
  unfold batch_outcome in Hout.
  destruct tl2 as [v d m p o i t ss ini obs set rp rm k more']; cbn in *. subst.
  split; [|split; [done|split; [done|split; [done|split; [done|split; [lia|]]]]]].
  - split; cbn; try done; try lia.
    + exists start_us, pos, (items ++ more_items). unfold seen. cbn. split; [done|].
      split; [rewrite length_take; lia|]. split; [done|].
      unfold pending. cbn. rewrite app_nil_r. unfold decoded, samples_of. by rewrite fmap_app, omap_app.
    + intros ->. destruct Hout as [tr Htr]. exists tr. by apply Hsame.
  - intros _ ->. destruct more_items as [|x xs]; [done|]. cbn in Hle2. lia.
Qed.

Lemma tail_inv_poll s : tail_inv s -> poll_outcome s (poll_inner (ts_file s) (ts_tail s)).
Proof.
  intros Hinv. destruct (tl_initial_samples_pending (ts_tail s)) eqn:Hi;
    [by apply tail_inv_poll_initial|by apply tail_inv_poll_later].
Qed.

Lemma tail_inv_open file discards visible tl :
  from_file_bounded file discards visible = Ok tl ->
  tail_inv (mkSession file file tl []) /\ tl_visible_len tl = visible.
Proof.
  unfold from_file_bounded. set (n := default (length file) visible).
  destruct (Nat.ltb_spec (length file) n); [done|].
  assert (length (take n file) = n) as Hlen by (rewrite length_take; lia).
  pose proof (moves_header (mkCursor (take n file) 0)) as Hh. cbn in Hh. specialize (Hh ltac:(lia)).
  destruct (read_header (mkCursor (take n file) 0)) as [[[[start_us interval] origin]|e] [b pos]] eqn:Hhead; [|done].
  cbn in Hh. destruct Hh as (-> & Hp & _). rewrite Hlen in Hp. cbn [position].
  match goal with |- context [parse_available file ?x] => set (tl0 := x) end.
  pose proof (parse_loop_spec (S n) (take n file) tl0) as Hparse. rewrite Hlen in Hparse.
  specialize (Hparse tables_wf_empty ltac:(cbn; lia) ltac:(cbn; lia) ltac:(done)).
  unfold parse_available, mapped_bytes. change (tl_mapped tl0) with n.
  destruct (parse_loop (S n) (take n file) tl0) as [[more|e] tl1]; [|done].
  destruct Hparse as (items & Hr & Hk & Hs & Hmax & Hout). intros [= <-].
  destruct (reads_inv _ _ _ _ _ _ Hr tables_wf_empty) as (_ & _ & Hle); [cbn; lia|]. rewrite Hlen in Hle.
  destruct Hk as [K1 K2 K3 K4 K5 K6]. unfold batch_outcome in Hout.
  destruct tl1 as [v d m p o i t ss ini obs set rp rm k more']; cbn in *. subst.
  split; [|done]. split; cbn; try done; try lia.
  - by destruct discards; cbn; lia.
  - exists start_us, pos, items. unfold seen, pending. cbn. rewrite Hlen. split; [done|]. by split; [lia|].
  - intros ->. exact Hout.
Qed.

Lemma tail_step_inv s ev s' :
  tail_inv s -> tail_step s ev = Ok s' ->
  tail_inv s' /\ tl_visible_len (ts_tail s') = tl_visible_len (ts_tail s).
Proof.
  intros Hinv Hstep. destruct s as [written file tl delivered], ev as [bs| |page_size failure]; cbn in Hstep.
  - injection Hstep as <-. split; [|done]. by apply (tail_inv_append (mkSession written file tl delivered)).
  - pose proof (tail_inv_poll _ Hinv) as Hpoll. cbn in Hpoll.
    destruct (poll_inner file tl) as [[batch|e] tl']; [|done]. injection Hstep as <-.
    by destruct Hpoll as (? & _ & ? & _).
  - pose proof (tail_inv_discard _ page_size failure Hinv) as Hd. cbn in Hd.
    destruct (discard_consumed_inner page_size failure file tl) as [r [file' tl']] eqn:E.
    injection Hstep as <-. split; [done|]. cbn. unfold discard_consumed_inner in E.
    repeat case_match; injection E as _ <- <-; try done; by destruct tl.
Qed.

Lemma tail_run_inv evs s s' :
  tail_inv s -> tail_run s evs = Ok s' ->
  tail_inv s' /\ tl_visible_len (ts_tail s') = tl_visible_len (ts_tail s).
Proof.
  revert s. induction evs as [|ev evs IH]; intros s Hinv Hrun; cbn in Hrun; [by simplify_eq|].
  destruct (tail_step s ev) as [s1|] eqn:Hs; [|done].
  destruct (tail_step_inv _ _ _ Hinv Hs) as [Hinv1 <-]. by apply IH.
Qed.

(** ** Draining *)

Definition drained (s s' : tail_session) : Prop :=
  tail_inv s' /\ ts_written s' = ts_written s /\ tl_mapped (ts_tail s') = length (ts_written s) /\
  tl_initial_samples_pending (ts_tail s') = false /\ tl_more_available (ts_tail s') = false.

Lemma drain_spec fuel s :
  tail_inv s -> tl_visible_len (ts_tail s) = None ->
  (length (ts_file s) - tl_position (ts_tail s) +
     (if tl_initial_samples_pending (ts_tail s) then 1 else 0) < fuel)%nat ->
  match drain fuel s with
  | Ok s' => drained s s'
  | Err e => corrupt (ts_written s) e
  end.
Proof.
  revert s. induction fuel as [|fuel IH]; intros s Hinv Hv Hf; [lia|].
  cbn [drain]. pose proof (tail_inv_poll s Hinv) as Hpoll. unfold poll_outcome in Hpoll. rewrite Hv in Hpoll.
  destruct s as [written file tl delivered]. cbn [tail_step ts_file ts_tail ts_written ts_delivered] in *.
  pose proof (ti_length _ Hinv) as Hlen. cbn in Hlen. cbn [default] in Hpoll.
  destruct (poll_inner file tl) as [[batch|e] tl'].
  2: { pose proof (ti_mapped _ Hinv) as Hpos. cbn in Hpos.
       destruct Hpoll as [[_ []]|Hc]; [lia|]. by rewrite take_ge in Hc by lia. }
  destruct Hpoll as (Hinv' & Hm & Hv' & _ & Hi & Hle & Hprogress). cbn [default ts_tail].
  pose proof (ti_mapped _ Hinv') as Hpos. cbn in Hpos.
  destruct (tl_more_available tl') eqn:Hmore; [|split; [done|]; cbn; rewrite <- Hlen; done].
  specialize (IH (mkSession written file tl' (delivered ++ tl_samples tl')) Hinv' Hv').
  cbn [ts_file ts_tail ts_written] in IH. rewrite Hi in IH.
  assert (length file - tl_position tl' + 0 < fuel)%nat as Hf'.
  { destruct (tl_initial_samples_pending tl) eqn:Hini; [lia|]. specialize (Hprogress eq_refl eq_refl). lia. }
  exact (IH Hf').
Qed.
End invariant.

(** ** Against [Snapshot::open] *)

Section snapshot.
Context `{VarIntLaws}.

Lemma corrupt_open bytes e : mappable bytes -> corrupt bytes e -> open_spool bytes Retain = Err e.
Proof.
  intros Hm (header & pos & items & t & stop & Hh & Hp & Hr & Hn).
  pose proof (open_spool_trace MAX_REPLAY_SAMPLE_RANGES bytes Retain Hm) as Ho. rewrite Hh in Ho.
  destruct header as [[start_us interval] origin]. cbn [position] in Ho.
  destruct Ho as (items' & t' & stop' & st & _ & Hr' & _ & _ & Hend & Ho).
  destruct (trace_unique _ _ _ _ _ _ _ _ _ Hr Hr') as (_ & <- & <-); [by rewrite Hn|done|].
  unfold open_spool. by rewrite Ho, Hn.
Qed.

(** A tail with nothing left to read in its mapping has shown the snapshot of
    the mapped bytes. *)
Lemma caught_up_open s truncated :
  tail_inv s -> tl_initial_samples_pending (ts_tail s) = false ->
  next_record (seen (ts_written s) (ts_tail s)) (tl_tables (ts_tail s)) (tl_position (ts_tail s)) =
    Stops truncated ->
  mappable (seen (ts_written s) (ts_tail s)) ->
  exists sn, open_spool (seen (ts_written s) (ts_tail s)) Retain = Ok sn /\
    op_samples sn = ts_delivered s /\ op_tables sn = tl_tables (ts_tail s) /\
    op_clock_origin sn = tl_clock_origin (ts_tail s) /\
    op_truncated_tail sn = negb (tl_position (ts_tail s) =? tl_mapped (ts_tail s))%nat.
Proof.
  intros Hinv Hi Hn Hm. pose proof (ti_mapped _ Hinv) as Hpos. pose proof (ti_length _ Hinv) as Hlen.
  destruct (ti_trace _ Hinv) as (start_us & pos & items & Hh & Hp & Hr & Hs).
  unfold pending in Hs. rewrite Hi, app_nil_r in Hs.
  assert (length (seen (ts_written s) (ts_tail s)) = tl_mapped (ts_tail s)) as Hseen
    by (unfold seen; rewrite length_take; lia).
  set (bytes := seen (ts_written s) (ts_tail s)) in *.
  pose proof (open_spool_trace MAX_REPLAY_SAMPLE_RANGES bytes Retain Hm) as Ho. rewrite Hh in Ho.
  cbn [position] in Ho. destruct Ho as (items' & t' & stop' & st & _ & Hr' & Ho & Ht & Hend & Hopen).
  destruct (trace_unique _ _ _ _ _ _ _ _ _ Hr Hr') as (<- & <- & <-); [by rewrite Hn|done|].
  rewrite Hn in Hopen. unfold open_spool. eexists. split; [exact Hopen|].
  destruct (reads_inv _ _ _ _ _ _ Hr tables_wf_empty Hp) as (_ & _ & Hl).
  destruct (open_items_all MAX_REPLAY_SAMPLE_RANGES bytes Retain (open_start Retain) pos items _ _ Hr
    tables_wf_empty Hp) as (st1 & Hst1 & _ & Hs1 & _); [unfold mappable in Hm; cbn; word_lia|].
  rewrite Ho in Hst1. injection Hst1 as <-. rewrite decide_True in Hs1 by done.
  cbn [finish_open op_samples op_tables op_clock_origin op_truncated_tail].
  rewrite Hs1, Hs. split; [done|]. split; [done|]. split; [done|].
  apply next_record_stops in Hn; [by rewrite <- Hseen|lia].
Qed.

Lemma drained_open s s' :
  drained s s' -> mappable (ts_written s) ->
  exists sn, open_spool (ts_written s) Retain = Ok sn /\ op_samples sn = ts_delivered s' /\
    op_tables sn = tl_tables (ts_tail s') /\ op_clock_origin sn = tl_clock_origin (ts_tail s') /\
    op_truncated_tail sn = negb (tl_position (ts_tail s') =? length (ts_written s))%nat.
Proof.
  intros (Hinv & Hw & Hmapped & Hi & Hmore) Hm. destruct (ti_more _ Hinv Hmore) as [truncated Hn].
  assert (seen (ts_written s') (ts_tail s') = ts_written s) as Hseen
    by (unfold seen; by rewrite Hw, Hmapped, firstn_all).
  destruct (caught_up_open s' truncated Hinv Hi Hn) as (sn & Hsn & H1 & H2 & H3 & H4); [by rewrite Hseen|].
  rewrite Hseen in Hsn. rewrite Hmapped in H4. by exists sn.
Qed.
End snapshot.

(** ** Theorems *)

Section theorems.
Context `{VarIntLaws}.

(** C7: a tail shows what a snapshot shows.  Open a spool that another process
    is writing, and let appends of any bytes, polls, and reclamations of the
    part already read (which punch holes into the file, or fail) follow in any
    order.  Then polling until [has_more] is false ends: in the error
    [Snapshot::open] reports for the bytes written so far, or with all batches
    together holding exactly the snapshot's samples, over the same modules,
    frames and stacks; a record cut off at the end is what the snapshot calls a
    truncated tail. *)
Theorem tail_drains_to_the_snapshot (file : list Z) (discards : bool) (evs : list tail_event)
    (tl : Tail) (s : tail_session) :
  from_file_bounded file discards None = Ok tl ->
  tail_run (mkSession file file tl []) evs = Ok s -> mappable (ts_written s) ->
  match open_spool (ts_written s) Retain, drain (S (S (length (ts_written s)))) s with
  | Ok sn, Ok s' => op_samples sn = ts_delivered s' /\ op_tables sn = tl_tables (ts_tail s') /\
      op_clock_origin sn = tl_clock_origin (ts_tail s') /\
      op_truncated_tail sn = negb (tl_position (ts_tail s') =? length (ts_written s))%nat
  | Err e, Err e' => e = e'
  | _, _ => False
  end.
Proof.
  intros Hopen Hrun Hm. destruct (tail_inv_open _ _ _ _ Hopen) as [Hinv0 Hv0].
  destruct (tail_run_inv _ _ _ Hinv0 Hrun) as [Hinv Hv]. cbn in Hv. rewrite Hv0 in Hv.
  pose proof (ti_length _ Hinv) as Hlen.
  pose proof (drain_spec (S (S (length (ts_written s)))) s Hinv Hv) as Hd.
  destruct (drain _ s) as [s'|e].
  - destruct (drained_open s s') as (sn & -> & ?); [apply Hd; case_match; lia|done|done].
  - rewrite (corrupt_open _ e Hm); [done|]. apply Hd. case_match; lia.
Qed.

(** No batch of a tail holds more than [MAX_BATCH_SAMPLES] samples, and a
    tail never reads behind its mapping nor reclaims a byte it has yet to read:
    from its position on, the file holds what was written. *)
Theorem tail_batches_are_bounded (file : list Z) (discards : bool) (visible : option nat)
    (evs : list tail_event) (tl : Tail) (s : tail_session) :
  from_file_bounded file discards visible = Ok tl ->
  tail_run (mkSession file file tl []) evs = Ok s ->
  Z.of_nat (length (tl_samples (ts_tail s))) <= MAX_BATCH_SAMPLES /\
  (default 0 (tl_discarder (ts_tail s)) <= tl_position (ts_tail s) <= tl_mapped (ts_tail s))%nat /\
  (tl_mapped (ts_tail s) <= length (ts_file s))%nat /\
  drop (tl_position (ts_tail s)) (ts_file s) = drop (tl_position (ts_tail s)) (ts_written s).
Proof.
  intros Hopen Hrun. destruct (tail_inv_open _ _ _ _ Hopen) as [Hinv0 Hv0].
  destruct (tail_run_inv _ _ _ Hinv0 Hrun) as [[H1 H2 H3 H4 H5 _ _] _].
  split; [done|]. split; [lia|]. split; [lia|done].
Qed.
End theorems.

(** The example recording, appended to its header in two writes that cut a
    record, with a reclamation of what was read in between. *)
Definition example_spool : list Z := (record_all 0 ([] : list Z) example_header example_ops).2.
Definition example_start : list Z := take 40 example_spool.
Definition example_events : list tail_event :=
  [Appended (take 30 (drop 40 example_spool)); Polled; Polled; Discarded 16 None;
   Appended (drop 70 example_spool); Polled].
Definition example_session : option (Tail * tail_session) :=
  match from_file_bounded example_start true None with
  | Ok tl => match tail_run (mkSession example_start example_start tl []) example_events with
             | Ok s => Some (tl, s)
             | Err _ => None
             end
  | Err _ => None
  end.

Example example_tail_samples :
  match example_session with
  | Some (_, s) => match drain (S (S (length (ts_written s)))) s with
                   | Ok s' => s_timestamp_ns <$> ts_delivered s'
                   | Err _ => []
                   end
  | None => []
  end = [1000; 900].
Proof. by vm_compute. Qed.

(** From the evaluation of a session to the session. *)
Lemma run_check {A B : Type} (open : result A) (run : A -> result B) (ok : B -> bool) :
  match open with
  | Ok a => match run a with Ok b => ok b | Err _ => false end
  | Err _ => false
  end = true ->
  exists a b, open = Ok a /\ run a = Ok b /\ ok b = true.
Proof. destruct open as [a|]; [|done]. destruct (run a) as [b|] eqn:E; [|done]. eauto. Qed.

Lemma example_session_runs :
  exists tl s, from_file_bounded example_start true None = Ok tl /\
    tail_run (mkSession example_start example_start tl []) example_events = Ok s /\
    mappable (ts_written s).
Proof.
  destruct (run_check (from_file_bounded example_start true None)
              (λ tl, tail_run (mkSession example_start example_start tl []) example_events)
              (λ s, Z.of_nat (length (ts_written s)) <=? i64_max)) as (tl & s & H1 & H2 & H3).
  { by vm_compute. }
  exists tl, s. split; [exact H1|]. split; [exact H2|]. by apply Z.leb_le.
Qed.

Lemma tail_drains_to_the_snapshot_witness :
  exists s, mappable (ts_written s) /\
  match open_spool (ts_written s) Retain, drain (S (S (length (ts_written s)))) s with
  | Ok sn, Ok s' => op_samples sn = ts_delivered s' /\ op_tables sn = tl_tables (ts_tail s') /\
      op_clock_origin sn = tl_clock_origin (ts_tail s') /\
      op_truncated_tail sn = negb (tl_position (ts_tail s') =? length (ts_written s))%nat
  | Err e, Err e' => e = e'
  | _, _ => False
  end.
Proof.
  destruct example_session_runs as (tl & s & Ho & Hr & Hm). exists s. split; [exact Hm|].
  exact (tail_drains_to_the_snapshot example_start true example_events tl s Ho Hr Hm).
Defined.

Lemma tail_batches_are_bounded_witness :
  exists s : tail_session,
  Z.of_nat (length (tl_samples (ts_tail s))) <= MAX_BATCH_SAMPLES /\
  (default 0 (tl_discarder (ts_tail s)) <= tl_position (ts_tail s) <= tl_mapped (ts_tail s))%nat /\
  (tl_mapped (ts_tail s) <= length (ts_file s))%nat /\
  drop (tl_position (ts_tail s)) (ts_file s) = drop (tl_position (ts_tail s)) (ts_written s).
Proof.
  destruct example_session_runs as (tl & s & Ho & Hr & Hm). exists s.
  exact (tail_batches_are_bounded example_start true None example_events tl s Ho Hr).
Defined.
