(* ===== verification/Live.v ===== *)
(** * Reading a recording while it is made

    [Publisher] and [LiveReader] of [src/spool/live.rs]: the recorder publishes
    how many bytes of the spool are complete and how the recording ended; the
    reader tails the published part, reclaims what it has shown, and reports
    the end.  The mutex makes every access to the published state atomic, so a
    run is a sequence of the operations of both sides; what a poll sees after
    waiting is the state at that point of the sequence. *)

From stdpp Require Import prelude gmap list numbers sorting.
From S2P Require Import Prelude Varint Cursor Model Records Contexts Reader Stream.
From S2P Require Import Snapshot Tables Recovery Robust Trace Tail Tailing.
#[local] Open Scope Z_scope.

(** ** The published state *)

Section live.
(** [RecordingSummary]. *)
Context {RecordingSummary : Type}.

Inductive End :=
  | EndOpen
  | EndFinished (summary : RecordingSummary)
  | EndAborted (error : option ErrorKind).

Record Published := mkPublished { pub_end : nat; pub_status : End }.

Definition publisher_new : Published := mkPublished 0 EndOpen.

Definition publish (stop : nat) (p : Published) : Published :=
  match pub_status p with EndOpen => mkPublished stop EndOpen | _ => p end.
Definition publisher_finish (stop : nat) (summary : RecordingSummary) (p : Published) : Published :=
  match pub_status p with EndOpen => mkPublished stop (EndFinished summary) | _ => p end.
Definition publisher_abort (error : option ErrorKind) (p : Published) : Published :=
  match pub_status p with EndOpen => mkPublished (pub_end p) (EndAborted error) | _ => p end.

(** ** The reader *)

Inductive ReadStatus := StatusBatch (batch : TailBatch) | StatusPending | StatusFinished (summary : RecordingSummary).

Inductive Reclamation := ReclamationRetained | ReclamationEnabled | ReclamationUnsupported.
#[global] Instance Reclamation_eq_dec : EqDecision Reclamation.
Proof. solve_decision. Defined.

Record LiveReader := mkLive {
  lr_tail : Tail;
  lr_reclaim_previous : bool;
  lr_reclamation : Reclamation;
}.

Definition live_new `{VarIntCrate} (file : list Z) (disposable : bool) (p : Published) : result LiveReader :=
  match from_file_bounded file disposable (Some (pub_end p)) with
  | Err e => Err e
  | Ok tl => Ok (mkLive tl false (if disposable then ReclamationEnabled else ReclamationRetained))
  end.

(** The reclamation at the start of [LiveReader::poll]. *)
Definition reclaim (page_size : nat) (failure : option ErrorKind) (file : list Z) (lr : LiveReader)
    : result unit * (list Z * LiveReader) :=
  if lr_reclaim_previous lr && bool_decide (lr_reclamation lr = ReclamationEnabled) then
    let '(r, (file, tl)) := discard_consumed_inner page_size failure file (lr_tail lr) in
    match r with
    | Ok _ => (Ok tt, (file, mkLive tl (lr_reclaim_previous lr) (lr_reclamation lr)))
    | Err e =>
        if decide (e = Unsupported)
        then (Ok tt, (file, mkLive tl (lr_reclaim_previous lr) ReclamationUnsupported))
        else (Err e, (file, mkLive tl (lr_reclaim_previous lr) (lr_reclamation lr)))
    end
  else (Ok tt, (file, lr)).

(** [LiveReader::poll], with the published state [p] that the wait ended on
    (whether by a change or by the timeout). *)
Definition live_poll `{VarIntCrate} (page_size : nat) (failure : option ErrorKind) (p : Published)
    (file : list Z) (lr : LiveReader) : result ReadStatus * (list Z * LiveReader) :=
  match reclaim page_size failure file lr with
  | (Err e, (file, lr)) => (Err e, (file, lr))
  | (Ok _, (file, lr)) =>
      let tl := lr_tail lr in
      if tl_initial_samples_pending tl || (tl_position tl <? pub_end p)%nat then
        match poll_inner file (tl_set_visible (Some (pub_end p)) tl) with
        | (Err e, tl) => (Err e, (file, mkLive tl false (lr_reclamation lr)))
        | (Ok batch, tl) => (Ok (StatusBatch batch), (file, mkLive tl true (lr_reclamation lr)))
        end
      else
        (match pub_status p with
         | EndOpen => Ok StatusPending
         | EndFinished summary => Ok (StatusFinished summary)
         | EndAborted (Some e) => Err e
         | EndAborted None => Err Other
         end, (file, mkLive tl false (lr_reclamation lr)))
  end.

(** ** Runs *)

(** The recorder appends (a buffered writer may do so at any time), publishes
    the length of the flushed file, finishes or aborts; the reader polls. *)
Inductive live_event :=
  | LiveAppend (bs : list Z)
  | LivePublish
  | LiveFinish (summary : RecordingSummary)
  | LiveAbort (error : option ErrorKind)
  | LivePoll (page_size : nat) (failure : option ErrorKind).

Record live_session := mkLiveSession {
  ls_written : list Z;
  ls_file : list Z;
  ls_published : Published;
  ls_reader : LiveReader;
  ls_delivered : list SampleRecord;
}.

(** A step and what its poll returned, if it was one. *)
Definition live_step `{VarIntCrate} (s : live_session) (ev : live_event)
    : option (result ReadStatus) * live_session :=
  let '(mkLiveSession written file p lr delivered) := s in
  match ev with
  | LiveAppend bs => (None, mkLiveSession (written ++ bs) (file ++ bs) p lr delivered)
  | LivePublish => (None, mkLiveSession written file (publish (length file) p) lr delivered)
  | LiveFinish summary =>
      (None, mkLiveSession written file (publisher_finish (length file) summary p) lr delivered)
  | LiveAbort error => (None, mkLiveSession written file (publisher_abort error p) lr delivered)
  | LivePoll page_size failure =>
      let '(r, (file, lr)) := live_poll page_size failure p file lr in
      let delivered := match r with
                       | Ok (StatusBatch _) => delivered ++ tl_samples (lr_tail lr)
                       | _ => delivered
                       end in
      (Some r, mkLiveSession written file p lr delivered)
  end.

(** A run ends at the first failed poll, unless it was the reclamation that
    failed: then the batch is still unread and the poll may be retried. *)
Definition goes_on (s : live_session) (ev : live_event) (r : option (result ReadStatus)) : bool :=
  match ev, r with
  | LivePoll page_size failure, Some (Err _) =>
      match reclaim page_size failure (ls_file s) (ls_reader s) with (Err _, _) => true | _ => false end
  | _, _ => true
  end.

Fixpoint live_run `{VarIntCrate} (s : live_session) (evs : list live_event) : option live_session :=
  match evs with
  | [] => Some s
  | ev :: evs =>
      let '(r, s') := live_step s ev in
      if goes_on s ev r then live_run s' evs else None
  end.

(** Polling until the reader reports the end. *)
Fixpoint live_drain `{VarIntCrate} (fuel page_size : nat) (s : live_session)
    : option (RecordingSummary * live_session) :=
  match fuel with
  | O => None
  | S fuel =>
      match live_step s (LivePoll page_size None) with
      | (Some (Ok (StatusBatch _)), s) => live_drain fuel page_size s
      | (Some (Ok (StatusFinished summary)), s) => Some (summary, s)
      | _ => None
      end
  end.
End live.
Arguments End : clear implicits.
Arguments Published : clear implicits.
Arguments ReadStatus : clear implicits.
Arguments live_event : clear implicits.
Arguments live_session : clear implicits.

(** ** The invariant *)

Section invariant.
Context `{VarIntLaws} {Summary : Type}.
#[local] Abbreviation session := (live_session Summary).

Definition tail_of (s : session) : tail_session :=
  Tailing.mkSession (ls_written s) (ls_file s) (lr_tail (ls_reader s)) (ls_delivered s).

Record live_inv (s : session) : Prop := {
  li_tail : tail_inv (tail_of s);
  li_mapped : (tl_mapped (lr_tail (ls_reader s)) <= pub_end (ls_published s))%nat;
  li_end : (pub_end (ls_published s) <= length (ls_written s))%nat;
  li_reclaims : lr_reclamation (ls_reader s) = ReclamationEnabled ->
    is_Some (tl_discarder (lr_tail (ls_reader s)));
}.

Lemma tail_inv_visible s v :
  tail_inv s -> tail_inv (Tailing.mkSession (ts_written s) (ts_file s) (tl_set_visible v (ts_tail s)) (ts_delivered s)).
Proof. destruct s as [? ? [] ?]. by intros []. Qed.

(** Reclaiming keeps the tail's place. *)
Definition same_place (tl tl' : Tail) : Prop :=
  tl_position tl' = tl_position tl /\ tl_mapped tl' = tl_mapped tl /\
  tl_initial_samples_pending tl' = tl_initial_samples_pending tl /\
  (is_Some (tl_discarder tl) -> is_Some (tl_discarder tl')).

Lemma discard_same_place page_size failure file tl r file' tl' :
  discard_consumed_inner page_size failure file tl = (r, (file', tl')) -> same_place tl tl'.
Proof.
  unfold discard_consumed_inner. intros E. repeat case_match; simplify_eq; try done. by destruct tl.
Qed.

Lemma i64_try_from_nat n : Z.of_nat n <= i64_max -> i64_try_from (Z.of_nat n) = Some (Z.of_nat n).
Proof. intros Hn. unfold i64_try_from. by rewrite (proj2 (andb_true_iff _ _)) by word_lia. Qed.

Lemma reclaim_spec page_size failure (s : session) r file lr :
  live_inv s -> reclaim page_size failure (ls_file s) (ls_reader s) = (r, (file, lr)) ->
  live_inv (mkLiveSession (ls_written s) file (ls_published s) lr (ls_delivered s)) /\
  same_place (lr_tail (ls_reader s)) (lr_tail lr) /\
  (failure = None -> mappable (ls_written s) -> r = Ok tt).
Proof.
  destruct s as [written f p lr0 delivered]. intros Hinv. pose proof Hinv as [Ht Hm He Hr]. cbn in *.
  unfold reclaim. destruct (lr_reclaim_previous lr0 && _) eqn:Hre.
  2: { intros [= <- <- <-]. split; [by split|done]. }
  apply andb_true_iff in Hre as [_ Hen]. apply bool_decide_eq_true in Hen.
  pose proof (tail_inv_discard _ page_size failure Ht) as Hd. cbn in Hd.
  destruct (discard_consumed_inner page_size failure f (lr_tail lr0)) as [r1 [f1 tl1]] eqn:E.
  pose proof (discard_same_place _ _ _ _ _ _ _ E) as (P1 & P2 & P3 & P4).
  assert (failure = None -> mappable written -> r1 = Ok tt) as Hok.
  { intros -> Hmap. destruct (Hr Hen) as [d Hdisc]. unfold discard_consumed_inner in E. rewrite Hdisc in E.
    pose proof (ti_mapped _ Ht) as Hpos. pose proof (ti_length _ Ht). pose proof (ti_discarded _ Ht) as Hdis.
    cbn in *. rewrite Hdisc in Hdis. cbn in Hdis. unfold mappable in Hmap.
    destruct (_ <=? _)%nat; [by simplify_eq|].
    rewrite !i64_try_from_nat in E by lia. by simplify_eq. }
  assert (forall b rec, (rec = ReclamationEnabled -> is_Some (tl_discarder tl1)) ->
    live_inv (mkLiveSession written f1 p (mkLive tl1 b rec) delivered)) as Hinv1.
  { intros b rec Hrec. split; cbn; [done|by rewrite P2|done|done]. }
  destruct r1 as [[]|e]; [|case_decide]; intros [= <- <- <-];
    (split; [apply Hinv1; auto|]); (split; [done|]); intros Hf Hmap; by specialize (Hok Hf Hmap).
Qed.

(** A poll of the tail, up to the published end. *)
Lemma live_poll_tail (s : session) :
  live_inv s ->
  let tl := lr_tail (ls_reader s) in
  match poll_inner (ls_file s) (tl_set_visible (Some (pub_end (ls_published s))) tl) with
  | (Ok _, tl') =>
      (forall b, live_inv (mkLiveSession (ls_written s) (ls_file s) (ls_published s)
                             (mkLive tl' b (lr_reclamation (ls_reader s)))
                             (ls_delivered s ++ tl_samples tl'))) /\
      tl_mapped tl' = pub_end (ls_published s) /\ tl_initial_samples_pending tl' = false /\
      (tl_position tl <= tl_position tl')%nat /\
      (tl_initial_samples_pending tl = false -> tl_more_available tl' = true ->
       (tl_position tl < tl_position tl')%nat)
  | (Err e, _) => corrupt (take (pub_end (ls_published s)) (ls_written s)) e
  end.
Proof.
  destruct s as [written file p lr delivered]. intros [Ht Hm He Hr]. cbn in *.
  set (tl0 := tl_set_visible (Some (pub_end p)) (lr_tail lr)).
  assert (tl_mapped tl0 = tl_mapped (lr_tail lr) /\ tl_visible_len tl0 = Some (pub_end p) /\
          tl_position tl0 = tl_position (lr_tail lr) /\ tl_discarder tl0 = tl_discarder (lr_tail lr) /\
          tl_initial_samples_pending tl0 = tl_initial_samples_pending (lr_tail lr))
    as (E1 & E2 & E3 & E4 & E5) by (unfold tl0; by destruct (lr_tail lr)).
  pose proof (ti_length _ Ht) as Hlen. cbn in Hlen.
  pose proof (tail_inv_poll _ (tail_inv_visible _ (Some (pub_end p)) Ht)) as Hpoll.
  cbn in Hpoll. fold tl0 in Hpoll. unfold poll_outcome in Hpoll.
  cbn [ts_file ts_tail ts_written ts_delivered] in Hpoll. rewrite E1, E2, E3, E4, E5 in Hpoll.
  cbn [default] in Hpoll. destruct (poll_inner file tl0) as [[batch|e] tl'].
  - destruct Hpoll as (Hinv & Hmap & _ & Hd & Hi & Hle & Hp). split; [|done].
    intros b. split; cbn; [done|rewrite Hmap; cbn; lia|done|]. rewrite Hd. done.
  - destruct Hpoll as [[_ []]|]; [cbn; lia|done].
Qed.

(** What a poll returns, and what it leaves. *)
Definition live_outcome (s : session) (r : result (ReadStatus Summary)) (s' : session) : Prop :=
  match r with
  | Ok (StatusBatch _) =>
      live_inv s' /\ ls_published s' = ls_published s /\ ls_written s' = ls_written s /\
      tl_initial_samples_pending (lr_tail (ls_reader s')) = false /\
      (tl_position (lr_tail (ls_reader s)) <= tl_position (lr_tail (ls_reader s')))%nat /\
      (tl_initial_samples_pending (lr_tail (ls_reader s)) = false ->
       tl_more_available (lr_tail (ls_reader s')) = true ->
       (tl_position (lr_tail (ls_reader s)) < tl_position (lr_tail (ls_reader s')))%nat) /\
      tl_mapped (lr_tail (ls_reader s')) = pub_end (ls_published s) /\
      (tl_initial_samples_pending (lr_tail (ls_reader s)) = false ->
       (tl_position (lr_tail (ls_reader s)) < pub_end (ls_published s))%nat)
  | Ok status =>
      live_inv s' /\ ls_published s' = ls_published s /\ ls_written s' = ls_written s /\
      ls_delivered s' = ls_delivered s /\
      tl_initial_samples_pending (lr_tail (ls_reader s')) = false /\
      tl_mapped (lr_tail (ls_reader s')) = pub_end (ls_published s) /\
      tl_position (lr_tail (ls_reader s')) = pub_end (ls_published s) /\
      status = match pub_status (ls_published s) with
               | EndFinished summary => StatusFinished summary | _ => StatusPending end /\
      (status = StatusPending -> pub_status (ls_published s) = EndOpen)
  | Err _ => True
  end.

Lemma live_poll_outcome page_size failure (s : session) :
  live_inv s ->
  let '(r, s') := live_step s (LivePoll page_size failure) in
  exists out, r = Some out /\ live_outcome s out s' /\
    (goes_on s (LivePoll page_size failure) r = true -> live_inv s') /\
    (forall e, out = Err e -> failure = None -> mappable (ls_written s) ->
       corrupt (take (pub_end (ls_published s)) (ls_written s)) e \/
       (exists err, pub_status (ls_published s) = EndAborted err)).
Proof.
  intros Hinv. destruct s as [written file p lr delivered]. cbn [live_step]. unfold live_poll, goes_on.
  cbn [ls_file ls_reader].
  destruct (reclaim page_size failure file lr) as [r1 [file1 lr1]] eqn:Hrec.
  destruct (reclaim_spec page_size failure _ _ _ _ Hinv Hrec) as (Hinv1 & (P1 & P2 & P3 & P4) & Hok).
  cbn in Hinv1, P1, P2, P3, Hok.
  destruct r1 as [[]|e1].
  2: { exists (Err e1). split; [done|]. split; [done|]. split; [done|]. cbn. intros e [= <-] Hf Hm.
       by specialize (Hok Hf Hm). }
  destruct (tl_initial_samples_pending (lr_tail lr1) || _) eqn:Hcond.
  - pose proof (live_poll_tail _ Hinv1) as Hpoll. cbn in Hpoll.
    destruct (poll_inner file1 (tl_set_visible (Some (pub_end p)) (lr_tail lr1))) as [[batch|e] tl'].
    + destruct Hpoll as (Hinv2 & Hm & Hi & Hle & Hp). rewrite P1, P3 in *.
      exists (Ok (StatusBatch batch)). split; [done|]. split; [|split; [by intros _; apply Hinv2|done]].
      cbn. repeat (split; [apply Hinv2 || done|]). intros Hini. rewrite Hini in Hcond.
      by apply Nat.ltb_lt.
    + exists (Err e). split; [done|]. split; [done|]. split; [done|]. intros e' [= <-] _ _. by left.
  - apply orb_false_iff in Hcond as [Hi Hge]. apply Nat.ltb_ge in Hge.
    pose proof (ti_mapped _ (li_tail _ Hinv1)) as Hpos. pose proof (li_mapped _ Hinv1) as Hm. cbn in Hpos, Hm.
    assert (live_inv (mkLiveSession written file1 p (mkLive (lr_tail lr1) false (lr_reclamation lr1)) delivered))
      as Hinv2 by (destruct Hinv1; by split).
    eexists. split; [done|].
    destruct (pub_status p) as [|summary|[e|]] eqn:Hst; cbn.
    + rewrite Hst. split; [|done]. repeat (split; [done || lia|]). done.
    + rewrite Hst. split; [|done]. repeat (split; [done || lia|]). done.
    + split; [done|]. split; [done|]. intros. right. by rewrite Hst; eexists.
    + split; [done|]. split; [done|]. intros. right. by rewrite Hst; eexists.
Qed.

Lemma live_step_inv (s : session) ev :
  live_inv s -> goes_on s ev (live_step s ev).1 = true -> live_inv (live_step s ev).2.
Proof.
  intros Hinv Hgo. destruct ev as [bs| |summary|error|page_size failure].
  5: { pose proof (live_poll_outcome page_size failure s Hinv) as Hpoll.
       destruct (live_step s (LivePoll page_size failure)) as [r s']. cbn [fst snd] in *.
       destruct Hpoll as (out & -> & _ & Hkeep & _). by apply Hkeep. }
  all: destruct s as [written file p lr delivered], Hinv as [Ht Hm He Hr]; cbn in *.
  1: split; cbn; [by apply (tail_inv_append _ bs Ht)|done|rewrite length_app; lia|done].
  all: pose proof (ti_length _ Ht) as Hlen; pose proof (ti_mapped _ Ht) as Hpos; cbn in Hlen, Hpos.
  all: unfold publish, publisher_finish, publisher_abort; destruct (pub_status p); split; cbn; try done; lia.
Qed.

Lemma live_run_inv evs (s s' : session) : live_inv s -> live_run s evs = Some s' -> live_inv s'.
Proof.
  revert s. induction evs as [|ev evs IH]; intros s Hinv Hrun; cbn in Hrun; [by simplify_eq|].
  pose proof (live_step_inv s ev Hinv) as Hstep. destruct (live_step s ev) as [r s1]. cbn in Hstep.
  destruct (goes_on s ev r); [|done]. by eapply IH; [apply Hstep|].
Qed.

Lemma live_new_inv file disposable (p : Published Summary) lr :
  live_new file disposable p = Ok lr -> live_inv (mkLiveSession file file p lr []).
Proof.
  unfold live_new. destruct (from_file_bounded _ _ _) as [tl|] eqn:Ho; [|done]. intros [= <-].
  destruct (tail_inv_open _ _ _ _ Ho) as [Hinv Hv]. pose proof (ti_mapped _ Hinv) as Hpos. cbn in Hpos.
  unfold from_file_bounded in Ho. change (default (length file) (Some (pub_end p))) with (pub_end p) in Ho. cbn zeta in Ho.
  destruct (Nat.ltb_spec (length file) (pub_end p)); [done|].
  destruct (read_header _) as [[[[? interval] origin]|] c]; [|done].
  match type of Ho with context [parse_available file ?x] => set (tl0 := x) in Ho end.
  assert (keeps tl0 (parse_available file tl0).2) as Hk by (apply parse_available_keeps).
  destruct (parse_available file tl0) as [[more|] tl1]; [|done]. injection Ho as <-.
  destruct Hk as [_ K2 K3 _ _ _]. destruct tl1; cbn in *. split; cbn; [done|lia|lia|].
  subst. destruct disposable; [by eexists|done].
Qed.

(** Nothing is left behind the published end. *)
Lemma live_at_end (s : session) :
  live_inv s -> tl_initial_samples_pending (lr_tail (ls_reader s)) = false ->
  tl_mapped (lr_tail (ls_reader s)) = pub_end (ls_published s) ->
  tl_position (lr_tail (ls_reader s)) = pub_end (ls_published s) -> mappable (ls_written s) ->
  exists sn, open_spool (take (pub_end (ls_published s)) (ls_written s)) Retain = Ok sn /\
    op_samples sn = ls_delivered s /\ op_tables sn = tl_tables (lr_tail (ls_reader s)) /\
    op_truncated_tail sn = false.
Proof.
  intros [Ht Hm He _] Hi Hmap Hpos Hmappable. pose proof (ti_length _ Ht) as Hlen. cbn in Hlen.
  assert (seen (ls_written s) (lr_tail (ls_reader s)) = take (pub_end (ls_published s)) (ls_written s))
    as Hseen by (unfold seen; by rewrite Hmap).
  destruct (caught_up_open _ false Ht) as (sn & Hsn & H1 & H2 & _ & H4); cbn; rewrite ?Hseen; try done.
  - unfold next_record, decode_spool_record, mbind, io_mbind, read_tag. cbn [position mmap].
    rewrite Hpos, length_take, (proj2 (Nat.eqb_eq _ _)) by lia. done.
  - unfold mappable in *. rewrite length_take. lia.
  - cbn in Hsn, H4. rewrite Hseen in Hsn. rewrite Hmap, Hpos, Nat.eqb_refl in H4. by exists sn.
Qed.

(** Draining a finished recording whose published end is the end of a record. *)
Lemma live_drain_spec fuel page_size (s : session) summary sn :
  live_inv s -> pub_status (ls_published s) = EndFinished summary -> mappable (ls_written s) ->
  open_spool (take (pub_end (ls_published s)) (ls_written s)) Retain = Ok sn ->
  op_truncated_tail sn = false ->
  (pub_end (ls_published s) - tl_position (lr_tail (ls_reader s)) +
     (if tl_initial_samples_pending (lr_tail (ls_reader s)) then 1 else 0) + 1 < fuel)%nat ->
  exists s', live_drain fuel page_size s = Some (summary, s') /\ ls_delivered s' = op_samples sn.
Proof.
  revert s. induction fuel as [|fuel IH]; intros s Hinv Hst Hmappable Hopen Htr Hf; [lia|].
  cbn [live_drain]. pose proof (live_poll_outcome page_size None s Hinv) as Hpoll.
  destruct (live_step s (LivePoll page_size None)) as [r s'].
  destruct Hpoll as (out & -> & Hout & _ & Herr). destruct out as [[batch| |sm]|e].
  - destruct Hout as (Hinv' & Hpub & Hw & Hi & Hle & Hp & Hmap & Hlt).
    pose proof (ti_mapped _ (li_tail _ Hinv')) as Hpos'. cbn in Hpos'. rewrite Hmap in Hpos'.
    apply IH; rewrite ?Hpub, ?Hw, ?Hi; try done.
    destruct (tl_more_available (lr_tail (ls_reader s'))) eqn:Hmore.
    { destruct (tl_initial_samples_pending (lr_tail (ls_reader s))); [lia|]. specialize (Hp eq_refl eq_refl). lia. }
    (* nothing more: the tail has reached the end *)
    pose proof (li_tail _ Hinv') as Ht. destruct (ti_more _ Ht Hmore) as [truncated Hn].
    assert (seen (ls_written s') (lr_tail (ls_reader s')) = take (pub_end (ls_published s)) (ls_written s))
      as Hseen by (unfold seen; by rewrite Hmap, Hw).
    destruct (caught_up_open _ truncated Ht Hi Hn) as (sn' & Hsn' & _ & _ & _ & Htr').
    { cbn. rewrite Hseen. unfold mappable in *. rewrite length_take. lia. }
    cbn in Hsn', Htr'. rewrite Hseen, Hopen in Hsn'. injection Hsn' as <-. rewrite Htr in Htr'.
    symmetry in Htr'. apply negb_false_iff, Nat.eqb_eq in Htr'. rewrite Htr', Hmap.
    destruct (tl_initial_samples_pending (lr_tail (ls_reader s))); [lia|]. specialize (Hlt eq_refl). lia.
  - destruct Hout as (_ & _ & _ & _ & _ & _ & _ & Hs & _). by rewrite Hst in Hs.
  - destruct Hout as (Hinv' & Hpub & Hw & Hd & Hi & Hmap & Hpos & Hs & _). rewrite Hst in Hs. injection Hs as ->.
    exists s'. split; [done|].
    destruct (live_at_end s' Hinv' Hi) as (sn' & Hsn' & Hss & _); rewrite ?Hpub, ?Hw; try done.
    rewrite Hpub, Hw, Hopen in Hsn'. by injection Hsn' as <-.
  - destruct (Herr e eq_refl eq_refl Hmappable) as [Hc|[err Hab]]; [|by rewrite Hst in Hab].
    rewrite (corrupt_open _ e) in Hopen; [done| |done]. unfold mappable in *. rewrite length_take. lia.
Qed.
End invariant.

(** ** Theorems *)

Section theorems.
Context `{VarIntLaws} {Summary : Type}.

(** C8: the live reader shows the whole recording before it reports its end.
    Let the recorder append, publish, finish or abort and the reader poll,
    reclaiming what it has shown or failing to, in any order without a failed
    read.  When a poll reports the end, the recorder has finished with that
    summary and the batches together hold exactly the samples of the published
    bytes, of which no record is cut off.  And once the recorder has finished on
    complete records, polling reaches that report in at most one poll per
    published byte and three more. *)
Theorem live_reader_shows_the_recording (file : list Z) (disposable : bool) (p : Published Summary)
    (lr : LiveReader) (evs : list (live_event Summary)) (s : live_session Summary) (page_size : nat) :
  live_new file disposable p = Ok lr ->
  live_run (mkLiveSession file file p lr []) evs = Some s -> mappable (ls_written s) ->
  (forall failure summary s',
     live_step s (LivePoll page_size failure) = (Some (Ok (StatusFinished summary)), s') ->
     pub_status (ls_published s) = EndFinished summary /\
     exists sn, open_spool (take (pub_end (ls_published s)) (ls_written s)) Retain = Ok sn /\
       op_samples sn = ls_delivered s' /\ op_tables sn = tl_tables (lr_tail (ls_reader s')) /\
       op_truncated_tail sn = false) /\
  (forall summary sn, pub_status (ls_published s) = EndFinished summary ->
     open_spool (take (pub_end (ls_published s)) (ls_written s)) Retain = Ok sn ->
     op_truncated_tail sn = false ->
     exists s', live_drain (pub_end (ls_published s) + 3) page_size s = Some (summary, s') /\
       ls_delivered s' = op_samples sn).
Proof.
  intros Hnew Hrun Hm. pose proof (live_run_inv _ _ _ (live_new_inv _ _ _ _ Hnew) Hrun) as Hinv. split.
  - intros failure summary s' Hstep. pose proof (live_poll_outcome page_size failure s Hinv) as Hpoll.
    rewrite Hstep in Hpoll. destruct Hpoll as (out & [= <-] & Hout & _).
    destruct Hout as (Hinv' & Hpub & Hw & _ & Hi & Hmap & Hpos & Hs & _).
    split; [by destruct (pub_status (ls_published s)); simplify_eq|].
    rewrite <- Hpub, <- Hw in *. by apply live_at_end.
  - intros summary sn Hst Hopen Htr. eapply live_drain_spec; try done. case_match; lia.
Qed.
End theorems.

(** The example recording, read while it is made and reclaimed behind the
    reader. *)
Definition example_live_events : list (live_event nat) :=
  [LiveAppend (take 30 (drop 40 example_spool)); LivePoll 16 None; LivePublish; LivePoll 16 None;
   LivePoll 16 (Some Interrupted); LiveAppend (drop 70 example_spool); LiveFinish 7%nat; LivePoll 16 None].
Definition example_published : Published nat := mkPublished 40 EndOpen.

Lemma example_live_runs :
  exists lr s, live_new example_start true example_published = Ok lr /\
    live_run (mkLiveSession example_start example_start example_published lr []) example_live_events = Some s /\
    mappable (ls_written s).
Proof.
  destruct (run_check (live_new example_start true example_published)
              (λ lr, ok_or Other (live_run (mkLiveSession example_start example_start example_published lr [])
                                    example_live_events))
              (λ s, Z.of_nat (length (ls_written s)) <=? i64_max)) as (lr & s & H1 & H2 & H3).
  { by vm_compute. }
  exists lr, s. split; [exact H1|]. split; [|by apply Z.leb_le].
  revert H2. generalize (live_run (mkLiveSession example_start example_start example_published lr [])
    example_live_events). by intros [s'|] [= ->].
Qed.

Example example_live_drain :
  match live_new example_start true example_published with
  | Ok lr =>
      match live_run (mkLiveSession example_start example_start example_published lr []) example_live_events with
      | Some s => (λ x, (x.1, s_timestamp_ns <$> ls_delivered x.2)) <$> live_drain 300 16 s
      | None => None
      end
  | Err _ => None
  end = Some (7%nat, [1000; 900]).
Proof. by vm_compute. Qed.

Lemma live_reader_shows_the_recording_witness :
  exists s : live_session nat, mappable (ls_written s) /\
  forall summary sn, pub_status (ls_published s) = EndFinished summary ->
     open_spool (take (pub_end (ls_published s)) (ls_written s)) Retain = Ok sn ->
     op_truncated_tail sn = false ->
     exists s', live_drain (pub_end (ls_published s) + 3) 16 s = Some (summary, s') /\
       ls_delivered s' = op_samples sn.
Proof.
  destruct example_live_runs as (lr & s & Ho & Hr & Hm). exists s. split; [exact Hm|].
  exact (proj2 (live_reader_shows_the_recording example_start true example_published lr
                  example_live_events s 16 Ho Hr Hm)).
Defined.
