(* ===== verification/RingBuffer.v ===== *)
(** * The perf ring buffer

    [src/linux/ring_buffer.rs] and [src/linux/aligned_bytes.rs]: the kernel
    writes records into a circular mapping and publishes [data_head]; the reader
    hands out records that either borrow the mapping or own a copy, and gives
    storage back by storing [data_tail], in order, when records are dropped in
    any order.

    The mapping is shared by the kernel, the reader and every record that
    borrows from it (an [Arc<RingMapping>]), so it is one value of the state and
    a borrowed record is read against it.  A [Vec<u64>] of the pool is the list
    of its bytes, because the code only uses its byte view.  [usize] has 64
    bits and the byte order is little-endian.  [None] of an [option] is a failed
    [debug_assert!] or a slice out of range. *)

From stdpp Require Import prelude gmap list numbers sorting.
From S2P Require Import Prelude.
#[local] Open Scope Z_scope.

(** ** Aligned byte buffers *)

(** [AlignedBytesPool]: one retained buffer. *)
Definition AlignedBytesPool := option (list Z).

(** [AlignedBytesPool::take]; a retained buffer keeps its old contents. *)
Definition pool_take (words : nat) (pool : AlignedBytesPool) : list Z * AlignedBytesPool :=
  let buffer := default [] pool in
  (if (length buffer <? 8 * words)%nat then buffer ++ replicate (8 * words - length buffer) 0
   else buffer, None).

Definition pool_recycle (buffer : list Z) (pool : AlignedBytesPool) : AlignedBytesPool :=
  match pool with
  | None => Some buffer
  | Some retained => Some retained
  end.

(** [AlignedBytesStorage]: [Words], or [PooledWords] with the ring's pool. *)
Record AlignedBytes := mkAligned { ab_words : list Z; ab_pooled : bool; ab_len : nat }.

Definition aligned_default : AlignedBytes := mkAligned [] false 0.

Definition div_ceil (a b : nat) : nat := ((a + (b - 1)) / b)%nat.

(** [dst[from..from + len].copy_from_slice(src)]. *)
Definition copy_into (from : nat) (src dst : list Z) : list Z :=
  take from dst ++ src ++ drop (from + length src) dst.

Definition from_unaligned_bytes (bytes : list Z) : AlignedBytes :=
  let words := replicate (8 * div_ceil (length bytes) 8) 0 in
  mkAligned (copy_into 0 bytes words) false (length bytes).

Definition copy_from_slices (first second : list Z) (pool : AlignedBytesPool)
    : AlignedBytes * AlignedBytesPool :=
  let len := (length first + length second)%nat in
  let '(words, pool) := pool_take (div_ceil len 8) pool in
  let words := copy_into 0 first words in
  let words := copy_into (length first) second words in
  (mkAligned words true len, pool).

Definition aligned_as_bytes (b : AlignedBytes) : list Z := take (ab_len b) (ab_words b).

(** [Drop for AlignedBytes]. *)
Definition aligned_drop (b : AlignedBytes) (pool : AlignedBytesPool) : AlignedBytesPool :=
  if ab_pooled b then pool_recycle (ab_words b) pool else pool.

(** ** Returning storage *)

Record CommitState := mkCommit { committed : Z; pending : gmap Z Z }.

Definition commit_new (committed : Z) : CommitState := mkCommit committed ∅.

Definition key_le (a b : Z * Z) : Prop := a.1 <= b.1.
#[global] Instance key_le_dec : RelDecision key_le.
Proof. intros a b. unfold key_le. apply _. Defined.

(** The entries of the [BTreeMap] in key order. *)
Definition btree_entries (m : gmap Z Z) : list (Z * Z) := merge_sort key_le (map_to_list m).

(** [range(..=bound).next_back()] and [range((Excluded(bound), Unbounded)).next()]. *)
Definition range_to_last (bound : Z) (m : gmap Z Z) : option (Z * Z) :=
  list.last (filter (λ kv, kv.1 <= bound) (btree_entries m)).
Definition range_after_first (bound : Z) (m : gmap Z Z) : option (Z * Z) :=
  head (filter (λ kv, bound < kv.1) (btree_entries m)).

(** The [while let] of [CommitState::complete]. *)
Fixpoint absorb (fuel : nat) (st : CommitState) : CommitState :=
  match fuel with
  | O => st
  | S fuel =>
      match pending st !! committed st with
      | None => st
      | Some to => absorb fuel (mkCommit to (delete (committed st) (pending st)))
      end
  end.

Definition commit_complete (from to : Z) (st : CommitState) : option (option Z * CommitState) :=
  if from =? committed st then
    let st := absorb (S (size (pending st))) (mkCommit to (pending st)) in
    Some (Some (committed st), st)
  else if negb (committed st <? from) then None
  else
    let start :=
      match range_to_last from (pending st) with
      | Some (previous_start, previous_end) =>
          if previous_end =? from then previous_start else from
      | None => from
      end in
    let '(stop, pending) :=
      match range_after_first start (pending st) with
      | Some (next_start, next_end) =>
          if to =? next_start then (next_end, delete next_start (pending st))
          else (to, pending st)
      | None => (to, pending st)
      end in
    Some (None, mkCommit (committed st) (<[start := stop]> pending)).

(** ** The mapping *)

Record RingMapping := mkMapping {
  mapped : list Z;
  data_head : Z;
  data_tail : Z;
  data_offset : Z;
  data_size : Z;
  commits : CommitState;
  aligned_pool : AlignedBytesPool;
}.

Definition store_tail (tail : Z) (m : RingMapping) : RingMapping :=
  mkMapping (mapped m) (data_head m) tail (data_offset m) (data_size m) (commits m)
    (aligned_pool m).
Definition set_commits (st : CommitState) (m : RingMapping) : RingMapping :=
  mkMapping (mapped m) (data_head m) (data_tail m) (data_offset m) (data_size m) st
    (aligned_pool m).
Definition set_pool (pool : AlignedBytesPool) (m : RingMapping) : RingMapping :=
  mkMapping (mapped m) (data_head m) (data_tail m) (data_offset m) (data_size m) (commits m) pool.

(** [RingMapping::complete]. *)
Definition mapping_complete (from to : Z) (m : RingMapping) : option RingMapping :=
  '(tail, st) ← commit_complete from to (commits m);
  let m := set_commits st m in
  Some (match tail with Some tail => store_tail tail m | None => m end).

(** [RingMapping::slice]: [None] when the range leaves the data area. *)
Definition ring_slice (m : RingMapping) (offset len : Z) : option (list Z) :=
  if offset + len <=? data_size m
  then Some (take (Z.to_nat len) (drop (Z.to_nat (data_offset m + offset)) (mapped m)))
  else None.

Definition ring_offset (m : RingMapping) (position : Z) : Z :=
  Z.land position (data_size m - 1).

Definition byte_at (m : RingMapping) (position : Z) : option Z :=
  bytes ← ring_slice m (ring_offset m position) 1; bytes !! 0%nat.

(** ** Records *)

Inductive RingRecordStorage :=
  | Mapped (from to offset len : Z)
  | Owned (bytes : AlignedBytes).

Definition record_as_bytes (m : RingMapping) (r : RingRecordStorage) : option (list Z) :=
  match r with
  | Mapped _ _ offset len => ring_slice m offset len
  | Owned bytes => Some (aligned_as_bytes bytes)
  end.

(** [Drop for RingRecord], with the drop of the bytes it owns. *)
Definition record_drop (r : RingRecordStorage) (m : RingMapping) : option RingMapping :=
  match r with
  | Mapped from to _ _ => mapping_complete from to m
  | Owned bytes => Some (set_pool (aligned_drop bytes (aligned_pool m)) m)
  end.

(** [RingRecord::detach_bytes]: the bytes, and the record left behind. *)
Definition detach_bytes (m : RingMapping) (len : nat) (r : RingRecordStorage)
    : option (AlignedBytes * RingRecordStorage) :=
  match r with
  | Mapped _ _ _ _ =>
      bytes ← record_as_bytes m r;
      Some (from_unaligned_bytes (take (Nat.min len (length bytes)) bytes), r)
  | Owned bytes => Some (bytes, Owned aligned_default)
  end.

(** ** The reader *)

Record RingBuffer := mkRing { mapping : RingMapping; read_pos : Z }.

(** [RingBuffer::new], given what [mmap] and the metadata page hold. *)
Definition ring_new (page_size page_exp : Z) (bytes : list Z)
    (data_offset_raw data_size_raw head tail : Z) : result RingBuffer :=
  if 64 <=? page_exp then Err InvalidData
  else
    let data_pages := 2 ^ page_exp in
    let map_len := (data_pages + 1) * page_size in
    if (u64_max <? data_pages + 1) || (u64_max <? map_len) then Err InvalidData
    else
      let offset := if data_offset_raw =? 0 then page_size else data_offset_raw in
      let size := if data_size_raw =? 0 then data_pages * page_size else data_size_raw in
      let valid_layout :=
        (0 <? size) && (Z.land size (size - 1) =? 0) && (page_size <=? offset)
        && (offset + size <=? u64_max) && (offset + size <=? map_len) in
      if negb valid_layout then Err InvalidData
      else Ok (mkRing (mkMapping bytes head tail offset size (commit_new tail) None) tail).

Definition snapshot_head (r : RingBuffer) : Z := data_head (mapping r).
Definition capacity_bytes (r : RingBuffer) : Z := data_size (mapping r).

Definition next_record_to (head : Z) : io RingBuffer (option RingRecordStorage) := λ r,
  let m := mapping r in
  let from := read_pos r in
  if head =? from then (Ok None, r)
  else match checked_sub_u64 head from with
  | None => (Err InvalidData, r)
  | Some available =>
      if data_size m <? available then (Err InvalidData, r)
      else if available <? 8 then (Err InvalidData, r)
      else match checked_add_u64 from 6 with
      | None => (Err InvalidData, r)
      | Some size_position =>
          match byte_at m size_position, byte_at m (size_position + 1) with
          | Some low, Some high =>
              let record_len := low + 256 * high in
              if negb ((8 <=? record_len) && (record_len <=? data_size m)) then (Err InvalidData, r)
              else if available <? record_len then (Err InvalidData, r)
              else match checked_add_u64 from record_len with
              | None => (Err InvalidData, r)
              | Some to =>
                  let offset := ring_offset m from in
                  if offset + record_len <=? data_size m
                  then (Ok (Some (Mapped from to offset record_len)), mkRing m to)
                  else
                    let first_len := data_size m - offset in
                    match ring_slice m offset first_len, ring_slice m 0 (record_len - first_len) with
                    | Some first, Some second =>
                        let '(bytes, pool) := copy_from_slices first second (aligned_pool m) in
                        match mapping_complete from to (set_pool pool m) with
                        | Some m => (Ok (Some (Owned bytes)), mkRing m to)
                        | None => (Err Panicked, r)
                        end
                    | _, _ => (Err Panicked, r)
                    end
              end
          | _, _ => (Err Panicked, r)
          end
      end
  end.

(** ** What holds on to records *)

(** [RingSampleStorage] of [src/linux/perf_event.rs]. *)
Inductive RingSampleStorage :=
  | Ring (record : RingRecordStorage)
  | Detached (bytes : AlignedBytes).

(** [RingSample::bytes]. *)
Definition sample_bytes (m : RingMapping) (s : RingSampleStorage) : option (list Z) :=
  match s with
  | Ring record => record_as_bytes m record
  | Detached bytes => Some (aligned_as_bytes bytes)
  end.

(** [RingSample::detach], where [len] is [self.layout.end()]: assigning the new
    storage drops the record. *)
Definition sample_detach (len : nat) (s : RingSampleStorage) (m : RingMapping)
    : option (RingSampleStorage * RingMapping) :=
  match s with
  | Ring record =>
      '(bytes, record) ← detach_bytes m len record;
      m ← record_drop record m;
      Some (Detached bytes, m)
  | Detached bytes => Some (Detached bytes, m)
  end.

Definition sample_drop (s : RingSampleStorage) (m : RingMapping) : option RingMapping :=
  match s with
  | Ring record => record_drop record m
  | Detached bytes => Some (set_pool (aligned_drop bytes (aligned_pool m)) m)
  end.
