(* ===== verification/RingUse.v ===== *)
(** * The perf ring in use

    Storage is returned in order, and what samples and drains see of the ring. *)

From stdpp Require Import prelude gmap list numbers sorting.
From stdpp Require Import prelude gmap list numbers.
From S2P Require Import Prelude RingBuffer.
#[local] Open Scope Z_scope.

(** ** Returning ring storage in order

    [CommitState::complete] of [src/linux/ring_buffer.rs].  [commit_inv] relates
    the state to the ranges that are still borrowed: below the read position
    every byte past [committed] is either borrowed or in exactly one pending
    range, and adjacent pending ranges are merged. *)

(** The ranges lent out, as a relation between start and end. *)
Definition ranges := Z -> Z -> Prop.

Definition covers (L : ranges) (x : Z) : Prop := exists a b, L a b /\ a <= x < b.
Definition pending_range (p : gmap Z Z) : ranges := λ a b, p !! a = Some b.

(** Nonempty ranges, no two of which overlap. *)
Record separated (L : ranges) : Prop := {
  sep_nonempty : forall a b, L a b -> a < b;
  sep_disjoint : forall a b a' b' x, L a b -> L a' b' -> a <= x < b -> a' <= x < b' ->
    a = a' /\ b = b';
}.

Record commit_inv (L : ranges) (read_pos : Z) (st : CommitState) : Prop := {
  ci_le : committed st <= read_pos;
  ci_lent : separated L;
  ci_pending : separated (pending_range (pending st));
  ci_after : forall a b, pending_range (pending st) a b -> committed st < a;
  ci_apart : forall x, covers (pending_range (pending st)) x -> ~ covers L x;
  ci_cover : forall x, committed st <= x < read_pos <->
    covers (pending_range (pending st)) x \/ covers L x;
  ci_merged : forall a b, pending st !! a = Some b -> pending st !! b = None;
}.

Definition without (L : ranges) (from : Z) : ranges := λ a b, L a b /\ a <> from.
Definition lent_also (L : ranges) (from to : Z) : ranges := λ a b, L a b \/ (a = from /\ b = to).

#[global] Instance covers_proper :
  Proper (pointwise_relation _ (pointwise_relation _ iff) ==> (=) ==> iff) covers.
Proof. intros L L' HL x _ <-. unfold covers. by setoid_rewrite HL. Qed.

#[global] Instance separated_proper :
  Proper (pointwise_relation _ (pointwise_relation _ iff) ==> iff) separated.
Proof.
  intros L L' HL. unfold pointwise_relation in HL.
  split; intros [H1 H2]; (split; [intros a b Hab|intros a b a' b' x Hab Hab']);
    apply HL in Hab; try apply HL in Hab'; eauto.
Qed.

#[global] Instance commit_inv_proper :
  Proper (pointwise_relation _ (pointwise_relation _ iff) ==> (=) ==> (=) ==> iff) commit_inv.
Proof.
  intros L L' HL ? rp -> ? st ->.
  split; intros [H1 H2 H3 H4 H5 H6 H7]; split; try done.
  - by rewrite <-HL.
  - intros x Hx. rewrite <-HL. by apply H5.
  - intros x. rewrite <-HL. apply H6.
  - by rewrite HL.
  - intros x Hx. rewrite HL. by apply H5.
  - intros x. rewrite HL. apply H6.
Qed.

Lemma covers_pick L a b : separated L -> L a b -> covers L a.
Proof. intros HL Hab. exists a, b. pose proof (sep_nonempty _ HL _ _ Hab). split; [done|lia]. Qed.

Lemma separated_start L a b b' : separated L -> L a b -> L a b' -> b = b'.
Proof.
  intros HL H1 H2. pose proof (sep_nonempty _ HL _ _ H1). pose proof (sep_nonempty _ HL _ _ H2).
  apply (sep_disjoint _ HL a b a b' a); (done || lia).
Qed.

Lemma covers_without L from to x :
  separated L -> L from to ->
  covers L x <-> covers (without L from) x \/ from <= x < to.
Proof.
  intros HL Hft. split.
  - intros (a & b & Hab & Hx). destruct (decide (a = from)) as [->|Hne].
    + right. by rewrite (separated_start _ _ _ _ HL Hft Hab).
    + left. by exists a, b.
  - intros [(a & b & [Hab _] & Hx)|Hx]; [by exists a, b|by exists from, to].
Qed.

Lemma without_misses L from to x :
  separated L -> L from to -> from <= x < to -> ~ covers (without L from) x.
Proof.
  intros HL Hft Hx (a & b & [Hab Hne] & Hax). apply Hne.
  by apply (sep_disjoint _ HL a b from to x).
Qed.

Lemma separated_without L from : separated L -> separated (without L from).
Proof. intros [H1 H2]. split; [by intros a b [? _]; eauto|]. intros a b a' b' x [? _] [? _]. eauto. Qed.

(** ** The ranges of a map *)

Lemma pending_delete p a : pointwise_relation _ (pointwise_relation _ iff)
  (pending_range (delete a p)) (without (pending_range p) a).
Proof. intros x y. unfold pending_range, without. rewrite lookup_delete_Some. naive_solver. Qed.

Lemma pending_insert p a b : pointwise_relation _ (pointwise_relation _ iff)
  (pending_range (<[a := b]> p)) (lent_also (without (pending_range p) a) a b).
Proof.
  intros x y. unfold pending_range, without, lent_also. rewrite lookup_insert_Some. naive_solver.
Qed.

Lemma covers_lent L a b x : covers (lent_also L a b) x <-> covers L x \/ a <= x < b.
Proof.
  unfold covers, lent_also. split.
  - intros (c & d & [Hcd|[-> ->]] & Hx); [left; by exists c, d|by right].
  - intros [(c & d & Hcd & Hx)|Hx]; [exists c, d; auto|exists a, b; auto].
Qed.

Lemma separated_lent L a b :
  separated L -> a < b -> (forall x, a <= x < b -> ~ covers L x) -> separated (lent_also L a b).
Proof.
  intros [H1 H2] Hab Hfree. split.
  - intros c d [?|[-> ->]]; eauto.
  - intros c d c' d' x [Hc|[-> ->]] [Hc'|[-> ->]] Hx Hx'; [by eauto| | |done].
    + destruct (Hfree x); [done|by exists c, d].
    + destruct (Hfree x); [done|by exists c', d'].
Qed.

(** ** Range queries *)

Lemma btree_entries_elem p kv : kv ∈ btree_entries p <-> p !! kv.1 = Some kv.2.
Proof.
  unfold btree_entries. rewrite merge_sort_Permutation. destruct kv. apply elem_of_map_to_list.
Qed.

#[local] Instance key_le_trans : Transitive key_le.
Proof. intros x y z. unfold key_le. lia. Qed.
#[local] Instance key_le_total : Total key_le.
Proof. intros x y. unfold key_le. lia. Qed.

Lemma btree_entries_sorted p : StronglySorted key_le (btree_entries p).
Proof. apply StronglySorted_merge_sort; apply _. Qed.

Lemma filter_key_sorted (P : Z * Z -> Prop) `{!∀ x, Decision (P x)} l :
  StronglySorted key_le l -> StronglySorted key_le (filter P l).
Proof.
  induction 1 as [|x l Hs IH Hx]; [constructor|]. rewrite list.filter_cons.
  destruct (decide (P x)); [|done]. constructor; [done|].
  rewrite list.Forall_forall in *. intros y [_ Hy]%list_elem_of_filter. auto.
Qed.

Lemma last_key_sorted l x y : StronglySorted key_le l -> list.last l = Some x -> y ∈ l -> key_le y x.
Proof.
  induction 1 as [|z l Hs IH Hz]; [done|]. destruct l as [|w l].
  - cbn. intros [= ->] ->%list_elem_of_singleton. unfold key_le. lia.
  - intros Hl [->|Hy]%elem_of_cons; [|by apply IH].
    assert (x ∈ w :: l) as Hx by (by apply last_Some_elem_of).
    rewrite list.Forall_forall in Hz. by apply Hz.
Qed.

Lemma range_to_last_spec bound p a b :
  range_to_last bound p = Some (a, b) ->
  p !! a = Some b /\ a <= bound /\ forall a' b', p !! a' = Some b' -> a' <= bound -> a' <= a.
Proof.
  unfold range_to_last. intros Hl.
  assert ((a, b) ∈ filter (λ kv, kv.1 <= bound) (btree_entries p)) as Hin
    by (by apply last_Some_elem_of).
  apply list_elem_of_filter in Hin as [Ha Hin]. apply btree_entries_elem in Hin. cbn in Ha, Hin.
  split; [done|]. split; [done|]. intros a' b' Ha' Hb'.
  apply (last_key_sorted _ (a, b) (a', b') (filter_key_sorted _ _ (btree_entries_sorted p)) Hl).
  apply list_elem_of_filter. split; [done|]. by apply btree_entries_elem.
Qed.

Lemma range_to_last_none bound p a b :
  range_to_last bound p = None -> p !! a = Some b -> bound < a.
Proof.
  unfold range_to_last. rewrite last_None. intros Hnil Ha.
  destruct (decide (a <= bound)); [|lia].
  assert ((a, b) ∈ filter (λ kv, kv.1 <= bound) (btree_entries p)) as Hin
    by (apply list_elem_of_filter; split; [done|by apply btree_entries_elem]).
  rewrite Hnil in Hin. set_solver.
Qed.

Lemma range_after_first_spec bound p a b :
  range_after_first bound p = Some (a, b) ->
  p !! a = Some b /\ bound < a /\ forall a' b', p !! a' = Some b' -> bound < a' -> a <= a'.
Proof.
  unfold range_after_first. destruct (filter _ _) as [|e l] eqn:Hf; [done|]. cbn. intros [= ->].
  assert ((a, b) ∈ filter (λ kv, bound < kv.1) (btree_entries p)) as Hin
    by (rewrite Hf; apply list_elem_of_here).
  apply list_elem_of_filter in Hin as [Ha Hin]. apply btree_entries_elem in Hin. cbn in Ha, Hin.
  split; [done|]. split; [done|]. intros a' b' Ha' Hb'.
  assert ((a', b') ∈ (a, b) :: l) as [[= -> ->]|Hin']%elem_of_cons; [|lia|].
  { rewrite <-Hf. apply list_elem_of_filter. split; [done|]. by apply btree_entries_elem. }
  pose proof (filter_key_sorted (λ kv, bound < kv.1) _ (btree_entries_sorted p)) as Hs. rewrite Hf in Hs.
  apply StronglySorted_inv in Hs as [_ Hs]. rewrite list.Forall_forall in Hs. by apply (Hs _ Hin').
Qed.

Lemma range_after_first_none bound p a b :
  range_after_first bound p = None -> p !! a = Some b -> a <= bound.
Proof.
  unfold range_after_first. destruct (filter _ _) as [|e l] eqn:Hf; [|done]. intros _ Ha.
  destruct (decide (bound < a)); [|lia].
  assert ((a, b) ∈ filter (λ kv, bound < kv.1) (btree_entries p)) as Hin
    by (apply list_elem_of_filter; split; [done|by apply btree_entries_elem]).
  rewrite Hf in Hin. set_solver.
Qed.

(** ** Completing a range *)

(** Between two iterations of the [while let], a pending range may start right
    at [committed]. *)
Record absorbing (L : ranges) (read_pos : Z) (st : CommitState) : Prop := {
  ab_le : committed st <= read_pos;
  ab_lent : separated L;
  ab_pending : separated (pending_range (pending st));
  ab_after : forall a b, pending_range (pending st) a b -> committed st <= a;
  ab_apart : forall x, covers (pending_range (pending st)) x -> ~ covers L x;
  ab_cover : forall x, committed st <= x < read_pos <->
    covers (pending_range (pending st)) x \/ covers L x;
  ab_merged : forall a b, pending st !! a = Some b -> pending st !! b = None;
}.

Lemma absorbing_step L rp c p to :
  absorbing L rp (mkCommit c p) -> p !! c = Some to ->
  absorbing L rp (mkCommit to (delete c p)) /\ c < to.
Proof.
  intros [Hle HL HP Ha Hap Hc Hm] Hto. cbn [committed pending] in *.
  pose proof (sep_nonempty _ HP _ _ Hto : c < to) as Hlt.
  pose proof (covers_without _ _ _ (to - 1) HP Hto) as Hlast.
  assert (forall x, covers (pending_range (delete c p)) x <-> covers (without (pending_range p) c) x) as Hdel
    by (intros x; by rewrite pending_delete).
  assert (forall x, covers (pending_range p) x <-> covers (pending_range (delete c p)) x \/ c <= x < to) as Hsplit
    by (intros x; rewrite Hdel; by apply covers_without).
  split; [|done]. split; cbn [committed pending].
  - assert (c <= to - 1 < rp) as ?; [|lia]. apply Hc. left. apply Hlast. right. lia.
  - done.
  - rewrite pending_delete. by apply separated_without.
  - intros a b [Hab Hne]%pending_delete. pose proof (Ha _ _ Hab). destruct (decide (to <= a)); [done|].
    exfalso. apply Hne. apply (sep_disjoint _ HP a b c to a); [done|done| |lia].
    pose proof (sep_nonempty _ HP _ _ Hab). lia.
  - intros x Hx. apply Hap, Hsplit. by left.
  - intros x. specialize (Hc x). specialize (Hsplit x).
    pose proof (without_misses _ _ _ x HP Hto). rewrite <-Hdel in H.
    assert (c <= x < to -> ~ covers L x) by (intros; apply Hap, Hsplit; by right). split.
    + intros Hx. assert (c <= x < rp) as [Hp|Hl]%Hc by lia; [|by right].
      apply Hsplit in Hp as [?|?]; [by left|lia].
    + intros [Hp|Hl]; (assert (c <= x < rp) by (apply Hc; tauto)); destruct (decide (x < to)); try lia;
        exfalso; [apply H|apply H0]; (done || lia).
  - intros a b [Hne Hab]%lookup_delete_Some. apply Hm in Hab. rewrite lookup_delete_None. by right.
Qed.

Lemma absorb_ok L rp fuel st :
  (size (pending st) < fuel)%nat -> absorbing L rp st ->
  commit_inv L rp (absorb fuel st) /\ committed st <= committed (absorb fuel st).
Proof.
  revert st. induction fuel as [|fuel IH]; intros [c p] Hf Hst; cbn [pending] in Hf; [lia|].
  cbn [absorb pending committed]. destruct (p !! c) as [to|] eqn:Hto.
  - destruct (absorbing_step _ _ _ _ _ Hst Hto) as [Hst' Hlt].
    edestruct IH as [Hi Hc]; [|exact Hst'|].
    + cbn [pending]. rewrite map_size_delete_Some by eauto. 
      assert (size p <> 0)%nat; [|lia]. rewrite map_size_non_empty_iff. intros ->. done.
    + split; [done|]. cbn [committed] in Hc. lia.
  - destruct Hst as [Hle HL HP Ha Hap Hc Hm]. split; [|done]. split; try done.
    intros a b Hab. pose proof (Ha _ _ Hab). cbn [committed pending] in *.
    destruct (decide (a = c)) as [->|]; [|lia]. unfold pending_range in Hab. congruence.
Qed.

(** The borrowed range at the front. *)
Lemma complete_front_ok L rp st to :
  commit_inv L rp st -> L (committed st) to ->
  absorbing (without L (committed st)) rp (mkCommit to (pending st)).
Proof.
  intros [Hle HL HP Ha Hap Hc Hm] Hto. set (c := committed st) in *.
  pose proof (sep_nonempty _ HL _ _ Hto) as Hlt.
  pose proof (fun x => covers_without L c to x HL Hto) as Hsplit.
  pose proof (fun x => without_misses L c to x HL Hto) as Hmiss.
  split; cbn [committed pending].
  - assert (c <= to - 1 < rp) as ?; [|lia]. apply Hc. right. apply Hsplit. right. lia.
  - by apply separated_without.
  - done.
  - intros a b Hab. pose proof (Ha _ _ Hab). destruct (decide (to <= a)); [done|]. exfalso.
    apply (Hap a); [by eapply covers_pick|]. apply Hsplit. right. lia.
  - intros x Hx Hx'. apply (Hap x Hx). apply Hsplit. by left.
  - intros x. specialize (Hc x). specialize (Hsplit x). specialize (Hmiss x). specialize (Hap x). split.
    + intros Hx. assert (c <= x < rp) as [?|[?|?]%Hsplit]%Hc by lia; [by left|by right|lia].
    + intros Hx. assert (c <= x < rp) by (apply Hc; tauto).
      destruct (decide (x < to)); [|lia]. exfalso.
      assert (c <= x < to) as Hin by lia. destruct Hx as [Hx|Hx]; [|by apply Hmiss].
      apply (Hap Hx), Hsplit. by right.
  - done.
Qed.

Lemma covers_delete p a x :
  separated (pending_range p) ->
  covers (pending_range (delete a p)) x <->
  covers (pending_range p) x /\ forall b, p !! a = Some b -> ~ (a <= x < b).
Proof.
  intros HP. rewrite (pending_delete p a). split.
  - intros (c & d & [Hcd Hne] & Hx). split; [by exists c, d|]. intros b Hab Hx'. apply Hne.
    by apply (sep_disjoint _ HP c d a b x).
  - intros [(c & d & Hcd & Hx) Hout]. exists c, d. split; [|done]. split; [done|].
    intros ->. by apply (Hout d).
Qed.

Lemma covers_insert p a b x :
  covers (pending_range (<[a := b]> p)) x <-> covers (pending_range (delete a p)) x \/ a <= x < b.
Proof. rewrite (pending_insert p a b), covers_lent, (pending_delete p a). done. Qed.

(** A completed range is merged with the pending ranges it touches. *)
Record merges (p : gmap Z Z) (from to start stop : Z) (rest : gmap Z Z) : Prop := {
  mg_start : (start = from /\ forall a, p !! a <> Some from) \/ p !! start = Some from;
  mg_stop : (stop = to /\ p !! to = None /\ rest = p) \/ (p !! to = Some stop /\ rest = delete to p);
}.

Section merging.
Context (p : gmap Z Z) (from to start stop : Z) (rest : gmap Z Z).
Hypothesis Hsep : separated (pending_range p).
Hypothesis Hlt : from < to.
Hypothesis Hfree : forall x, from <= x < to -> ~ covers (pending_range p) x.
Hypothesis Hmerge : merges p from to start stop rest.

Lemma merge_bounds : start <= from /\ to <= stop.
Proof.
  destruct Hmerge as [[[-> _]|Hs] [(-> & _ & _)|[He _]]]; split; try lia;
    try pose proof (sep_nonempty _ Hsep _ _ Hs); try pose proof (sep_nonempty _ Hsep _ _ He); lia.
Qed.

Lemma merge_start_covers x : start <= x < from -> covers (pending_range p) x.
Proof. destruct Hmerge as [[[-> _]|Hs] _]; [lia|]. intros. by exists start, from. Qed.

Lemma merge_stop_covers x : to <= x < stop -> covers (pending_range p) x.
Proof. destruct Hmerge as [_ [(-> & _)|[He _]]]; [lia|]. intros. by exists to, stop. Qed.

Lemma merge_rest_separated : separated (pending_range rest).
Proof.
  destruct Hmerge as [_ [(_ & _ & ->)|[_ ->]]]; [done|]. rewrite pending_delete. by apply separated_without.
Qed.

Lemma merge_rest_covers x :
  covers (pending_range rest) x <-> covers (pending_range p) x /\ ~ (to <= x < stop).
Proof.
  destruct Hmerge as [_ [(-> & _ & ->)|[He ->]]]; [split; [intros; split; [done|lia]|tauto]|].
  rewrite (covers_delete _ _ _ Hsep), He. naive_solver.
Qed.

Lemma merge_start_lookup b : rest !! start = Some b -> b = from.
Proof.
  intros Hb. assert (p !! start = Some b) as Hb'.
  { destruct Hmerge as [_ [(_ & _ & ->)|[_ ->]]]; [done|]. by apply lookup_delete_Some in Hb as [_ ?]. }
  destruct Hmerge as [[[-> _]|Hs] _]; [|congruence].
  exfalso. apply (Hfree from); [lia|]. exists from, b. split; [done|].
  pose proof (sep_nonempty _ Hsep _ _ Hb'). lia.
Qed.

Lemma merge_kept_covers x :
  covers (pending_range (delete start rest)) x <->
  covers (pending_range p) x /\ ~ (start <= x < stop).
Proof.
  rewrite (covers_delete _ _ _ merge_rest_separated), merge_rest_covers.
  pose proof merge_bounds as [Hb1 Hb2]. pose proof merge_start_lookup as Hsl. split.
  - intros [[Hp Hx] Hout]. split; [done|]. intros Hin.
    assert (~ (from <= x < to)) by (intros H; by apply (Hfree x)).
    destruct Hmerge as [[[-> _]|Hs] _]; [lia|].
    assert (start <= x < from) as Hxs by lia. apply (Hout from); [|done].
    pose proof (sep_nonempty _ Hsep _ _ Hs).
    destruct Hmerge as [_ [(_ & _ & ->)|[_ ->]]]; [done|]. rewrite lookup_delete_Some. split; [lia|done].
  - intros [Hp Hx]. split; [split; [done|lia]|]. intros b ->%Hsl. lia.
Qed.

Lemma merge_covers x :
  covers (pending_range (<[start := stop]> rest)) x <->
  covers (pending_range p) x \/ from <= x < to.
Proof.
  rewrite covers_insert, merge_kept_covers. pose proof merge_bounds.
  pose proof (merge_start_covers x). pose proof (merge_stop_covers x).
  destruct (decide (start <= x < stop)); [|split; [tauto|intros [?|?]; [tauto|lia]]].
  split; [|tauto]. intros _. destruct (decide (x < from)), (decide (to <= x)); auto.
  - left. apply H0. lia.
  - left. apply H0. lia.
  - left. apply H1. lia.
  - right. lia.
Qed.

Lemma merge_separated : separated (pending_range (<[start := stop]> rest)).
Proof.
  rewrite pending_insert. pose proof merge_bounds. apply separated_lent; [|lia|].
  - apply separated_without, merge_rest_separated.
  - intros x Hx Hc. rewrite <-pending_delete in Hc. by apply merge_kept_covers in Hc as [_ ?].
Qed.

Lemma merge_merged :
  (forall a b, p !! a = Some b -> p !! b = None) ->
  forall a b, <[start := stop]> rest !! a = Some b -> <[start := stop]> rest !! b = None.
Proof.
  intros Hm a b Hab. pose proof merge_bounds as Hbd.
  assert (forall c, p !! c = None -> rest !! c = None) as Hkeep.
  { intros c Hc. destruct Hmerge as [_ [(_ & _ & ->)|[_ ->]]]; [done|]. rewrite lookup_delete_None. by right. }
  apply lookup_insert_None. apply lookup_insert_Some in Hab as [[<- <-]|[Hne Hab]].
  - split; [|lia]. destruct Hmerge as [_ [(-> & Hn & _)|[He _]]]; apply Hkeep; [done|by apply (Hm to)].
  - assert (p !! a = Some b) as Hab'.
    { destruct Hmerge as [_ [(_ & _ & ->)|[_ ->]]]; [done|]. by apply lookup_delete_Some in Hab as [_ ?]. }
    split; [apply Hkeep; by apply (Hm a)|]. intros <-.
    destruct Hmerge as [[[-> Hno]|Hs] _]; [by apply (Hno a)|].
    pose proof (Hm a start Hab'). congruence.
Qed.
End merging.

Lemma find_start_ok p from to :
  separated (pending_range p) -> from < to ->
  (forall x, from <= x < to -> ~ covers (pending_range p) x) ->
  let start := match range_to_last from p with
               | Some (a, b) => if b =? from then a else from
               | None => from
               end in
  (start = from /\ forall a, p !! a <> Some from) \/ p !! start = Some from.
Proof.
  intros HP Hlt Hfree. destruct (range_to_last from p) as [[a b]|] eqn:Hr; cbn.
  - apply range_to_last_spec in Hr as (Hab & Hle & Hmax).
    destruct (Z.eqb_spec b from) as [->|Hne]; [by right|]. left. split; [done|]. intros c Hc.
    pose proof (sep_nonempty _ HP _ _ Hc). pose proof (sep_nonempty _ HP _ _ Hab).
    pose proof (Hmax c from Hc ltac:(lia)). destruct (decide (a = from)) as [->|].
    + apply (Hfree from); [lia|]. exists from, b. split; [done|lia].
    + destruct (sep_disjoint _ HP c from a b a Hc Hab) as [_ ?]; lia.
  - left. split; [done|]. intros c Hc. pose proof (range_to_last_none _ _ _ _ Hr Hc).
    pose proof (sep_nonempty _ HP _ _ Hc). lia.
Qed.

Lemma find_stop_ok p from to start :
  separated (pending_range p) -> from < to ->
  (forall x, from <= x < to -> ~ covers (pending_range p) x) ->
  (start = from /\ forall a, p !! a <> Some from) \/ p !! start = Some from ->
  let '(stop, rest) := match range_after_first start p with
                       | Some (a, b) => if to =? a then (b, delete a p) else (to, p)
                       | None => (to, p)
                       end in
  merges p from to start stop rest.
Proof.
  intros HP Hlt Hfree Hs.
  assert (start <= from) as Hle.
  { destruct Hs as [[-> _]|Hs]; [lia|]. pose proof (sep_nonempty _ HP _ _ Hs). lia. }
  assert (forall a b, p !! a = Some b -> start < a -> to <= a) as Hnext.
  { intros a b Hab Ha. destruct (decide (to <= a)); [done|]. exfalso.
    pose proof (sep_nonempty _ HP _ _ Hab). destruct (decide (from <= a)).
    - apply (Hfree a); [lia|]. by eapply covers_pick.
    - destruct Hs as [[-> _]|Hs]; [lia|].
      destruct (sep_disjoint _ HP start from a b a Hs Hab); lia. }
  assert (p !! to = None \/ exists b, p !! to = Some b /\ range_after_first start p = Some (to, b)) as [Hn|(b & Hb & ->)].
  { destruct (p !! to) as [b|] eqn:Hb; [right|by left]. exists b. split; [done|].
    destruct (range_after_first start p) as [[a c]|] eqn:Hr.
    - apply range_after_first_spec in Hr as (Ha & Hsa & Hmin).
      pose proof (Hmin to b Hb ltac:(lia)). pose proof (Hnext a c Ha Hsa).
      assert (a = to) as -> by lia. congruence.
    - pose proof (range_after_first_none _ _ _ _ Hr Hb). lia. }
  - destruct (range_after_first start p) as [[a c]|] eqn:Hr; [|by split; auto].
    destruct (Z.eqb_spec to a) as [<-|]; [|by split; auto].
    apply range_after_first_spec in Hr as (Ha & _). congruence.
  - rewrite Z.eqb_refl. by split; auto.
Qed.

Lemma lent_free L rp st from to x :
  commit_inv L rp st -> L from to -> from <= x < to -> ~ covers (pending_range (pending st)) x.
Proof. intros Hi Hft Hx Hp. apply (ci_apart _ _ _ Hi x Hp). by exists from, to. Qed.

(** A borrowed range that is not at the front. *)
Lemma complete_later_ok L rp st from to start stop rest :
  commit_inv L rp st -> L from to -> from <> committed st ->
  merges (pending st) from to start stop rest ->
  commit_inv (without L from) rp (mkCommit (committed st) (<[start := stop]> rest)).
Proof.
  intros Hi Hft Hne Hmg. pose proof (fun x => lent_free L rp st from to x Hi Hft) as Hfree.
  destruct Hi as [Hle HL HP Ha Hap Hc Hm].
  pose proof (sep_nonempty _ HL _ _ Hft) as Hlt.
  pose proof (fun x => merge_covers _ _ _ _ _ _ HP Hlt Hfree Hmg x) as Hcov.
  pose proof (merge_separated _ _ _ _ _ _ HP Hlt Hfree Hmg) as Hsep.
  pose proof (fun x => covers_without L from to x HL Hft) as Hsplit.
  split; cbn [committed pending]; [done|by apply separated_without|done| | | |exact (merge_merged _ _ _ _ _ _ HP Hlt Hmg Hm)].
  - intros a b Hab.
    assert (covers L from) as Hcf by (by eapply covers_pick).
    assert (committed st <= from < rp) by (apply Hc; by right).
    assert (covers (pending_range (<[start := stop]> rest)) a) as Hca by (by eapply covers_pick).
    apply Hcov in Hca as [(c & d & Hcd & Hx)|?]; [|lia]. pose proof (Ha _ _ Hcd). lia.
  - intros x Hx Hx'. apply Hcov in Hx as [Hx|Hx].
    + apply (Hap x Hx). apply Hsplit. by left.
    + by apply (without_misses L from to x HL Hft Hx).
  - intros x. rewrite Hc, Hcov, Hsplit. tauto.
Qed.

(** Completing a borrowed range: it always succeeds, moves [committed] only
    forward, and reports it exactly when it moved. *)
Lemma commit_complete_ok L rp st from to :
  commit_inv L rp st -> L from to ->
  exists tail st', commit_complete from to st = Some (tail, st') /\
    commit_inv (without L from) rp st' /\
    committed st <= committed st' /\ default (committed st) tail = committed st'.
Proof.
  intros Hi Hft. pose proof (sep_nonempty _ (ci_lent _ _ _ Hi) _ _ Hft) as Hlt.
  unfold commit_complete. destruct (Z.eqb_spec from (committed st)) as [->|Hne].
  - destruct (absorb_ok _ rp (S (size (pending st))) (mkCommit to (pending st)) (Nat.lt_succ_diag_r _)
      (complete_front_ok _ _ _ _ Hi Hft)) as [Hi' Hle].
    cbn [committed] in Hle. cbv zeta. eexists _, _. split; [done|]. split; [done|]. split; [lia|done].
  - assert (committed st < from) as Hlt'.
    { assert (committed st <= from < rp); [|lia]. apply (ci_cover _ _ _ Hi). right. exists from, to. split; [done|lia]. }
    destruct (Z.ltb_spec (committed st) from); [|lia]. cbn [negb].
    pose proof (fun x => lent_free L rp st from to x Hi Hft) as Hfree.
    pose proof (find_start_ok _ _ _ (ci_pending _ _ _ Hi) Hlt Hfree) as Hs. cbv zeta in Hs |- *.
    set (start := match range_to_last from (pending st) with Some _ => _ | None => _ end) in *.
    pose proof (find_stop_ok _ _ _ start (ci_pending _ _ _ Hi) Hlt Hfree Hs) as Hmg.
    destruct (match range_after_first start (pending st) with Some _ => _ | None => _ end) as [stop rest].
    eexists None, _. split; [done|]. split; [by eapply complete_later_ok|]. split; [done|done].
Qed.

(** Lending the next range out. *)
Lemma commit_inv_lend L rp st to :
  commit_inv L rp st -> rp < to -> commit_inv (lent_also L rp to) to st.
Proof.
  intros [Hle HL HP Ha Hap Hc Hm] Hlt.
  assert (forall x, covers L x \/ covers (pending_range (pending st)) x -> committed st <= x < rp) as Hin
    by (intros x Hx; apply Hc; tauto).
  split; try done.
  - lia.
  - apply separated_lent; [done|done|]. intros x Hx Hcx. pose proof (Hin x (or_introl Hcx)). lia.
  - intros x Hx. rewrite covers_lent. intros [Hx'|Hx']; [by apply (Hap x)|].
    pose proof (Hin x (or_intror Hx)). lia.
  - intros x. rewrite covers_lent. specialize (Hc x). specialize (Hin x). split.
    + intros Hx. destruct (decide (x < rp)); [|right; right; lia].
      assert (covers (pending_range (pending st)) x \/ covers L x) by (apply Hc; lia). tauto.
    + intros [?|[?|?]]; [| |lia]; (assert (committed st <= x < rp) by tauto); lia.
Qed.

Lemma commit_inv_all_returned L rp st :
  commit_inv L rp st -> (forall a b, ~ L a b) -> committed st = rp.
Proof.
  intros [Hle HL HP Ha Hap Hc Hm] Hnone. destruct (decide (committed st = rp)); [done|]. exfalso.
  assert (committed st <= committed st < rp) as [(a & b & Hab & Hx)|(a & b & Hab & _)]%Hc by lia; [|by apply (Hnone a b)].
  pose proof (Ha _ _ Hab). lia.
Qed.

Lemma commit_inv_lent_after L rp st a b : commit_inv L rp st -> L a b -> committed st <= a /\ b <= rp.
Proof.
  intros Hi Hab. pose proof (sep_nonempty _ (ci_lent _ _ _ Hi) _ _ Hab).
  assert (covers L a) by (exists a, b; split; [done|lia]).
  assert (covers L (b - 1)) by (exists a, b; split; [done|lia]).
  assert (committed st <= a < rp) by (apply Hi; by right).
  assert (committed st <= b - 1 < rp) by (apply Hi; by right). lia.
Qed.

(** A borrowed range ends right where a pending range starts. *)
Lemma pending_has_neighbour L rp st a b :
  commit_inv L rp st -> pending st !! a = Some b -> exists c d, L c d /\ c <= a - 1 < d.
Proof.
  intros Hi Hab. pose proof (ci_after _ _ _ Hi _ _ Hab).
  pose proof (sep_nonempty _ (ci_pending _ _ _ Hi) _ _ Hab).
  assert (committed st <= a < rp).
  { apply (ci_cover _ _ _ Hi). left. eapply covers_pick, Hab. apply Hi. }
  assert (committed st <= a - 1 < rp) as [(c & d & Hcd & Hx)|?]%(ci_cover _ _ _ Hi) by lia; [|done].
  exfalso. destruct (decide (d = a)) as [->|].
  - pose proof (ci_merged _ _ _ Hi _ _ Hcd). congruence.
  - destruct (sep_disjoint _ (ci_pending _ _ _ Hi) a b c d a Hab Hcd); lia.
Qed.

(** ** Using the perf ring

    The kernel, the drains of [src/linux/perf_event.rs] and the samples that
    keep ring records, interleaved in any order.  The kernel is the environment:
    [kernel_publishes] is the perf mmap ABI's promise, that a record is complete
    before [data_head] covers it and that storage at or past [data_tail] is not
    overwritten.  The theorems are about every reachable state. *)

(** ** The system *)

(** A record as the kernel writes it: [perf_event_header::size], two bytes at
    offset 6, is its length. *)
Definition record_shape (record : list Z) : Prop :=
  8 <= Z.of_nat (length record) /\
  exists low high, record !! 6%nat = Some low /\ record !! 7%nat = Some high /\
    low + 256 * high = Z.of_nat (length record).

(** Where the byte at a position of the stream is stored. *)
Definition cell (m : RingMapping) (position : Z) : nat :=
  Z.to_nat (data_offset m + position mod data_size m).

Record kernel_publishes (m : RingMapping) (record : list Z) (m' : RingMapping) : Prop := {
  kp_room : data_head m + Z.of_nat (length record) <= data_tail m + data_size m;
  kp_range : data_head m + Z.of_nat (length record) <= u64_max;
  kp_head : data_head m' = data_head m + Z.of_nat (length record);
  kp_tail : data_tail m' = data_tail m;
  kp_offset : data_offset m' = data_offset m;
  kp_size : data_size m' = data_size m;
  kp_commits : commits m' = commits m;
  kp_pool : aligned_pool m' = aligned_pool m;
  kp_length : length (mapped m') = length (mapped m);
  kp_written : forall i b, record !! i = Some b ->
    mapped m' !! cell m (data_head m + Z.of_nat i) = Some b;
  kp_kept : forall p, data_tail m <= p < data_head m ->
    mapped m' !! cell m p = mapped m !! cell m p;
}.

(** A [RingSample]: its storage and [layout.end()]. *)
Abbreviation held_sample := (RingSampleStorage * nat)%type.

(** [sys_end] is the [end] of the current [EventDrain]; samples are numbered in
    the order the ring returned them; [published] is the history of the kernel. *)
Record ring_system := mkSystem {
  sys_ring : RingBuffer;
  sys_end : Z;
  kept : gmap nat held_sample;
  delivered : nat;
  published : list (list Z);
}.

Definition sys_mapping (s : ring_system) : RingMapping := mapping (sys_ring s).
Definition set_mapping (m : RingMapping) (r : RingBuffer) : RingBuffer := mkRing m (read_pos r).

Definition ring_system_new (r : RingBuffer) : ring_system := mkSystem r (read_pos r) ∅ 0 [].

Inductive ring_step : ring_system -> ring_system -> Prop :=
  | step_publish r e h d pub record m' :
      record_shape record -> kernel_publishes (mapping r) record m' ->
      ring_step (mkSystem r e h d pub) (mkSystem (set_mapping m' r) e h d (pub ++ [record]))
  | step_drain r e h d pub :
      ring_step (mkSystem r e h d pub) (mkSystem r (snapshot_head r) h d pub)
  | step_next r e h d pub record r' layout_end :
      next_record_to e r = (Ok (Some record), r') ->
      ring_step (mkSystem r e h d pub)
        (mkSystem r' e (<[d := (Ring record, layout_end)]> h) (S d) pub)
  | step_detach r e h d pub k st layout_end st' m' :
      h !! k = Some (st, layout_end) -> sample_detach layout_end st (mapping r) = Some (st', m') ->
      ring_step (mkSystem r e h d pub)
        (mkSystem (set_mapping m' r) e (<[k := (st', layout_end)]> h) d pub)
  | step_release r e h d pub k st layout_end m' :
      h !! k = Some (st, layout_end) -> sample_drop st (mapping r) = Some m' ->
      ring_step (mkSystem r e h d pub) (mkSystem (set_mapping m' r) e (delete k h) d pub).

(** ** Buffers *)

Lemma div_ceil_enough n : (n <= 8 * div_ceil n 8)%nat.
Proof.
  unfold div_ceil. pose proof (Nat.div_mod_eq (n + (8 - 1)) 8).
  pose proof (Nat.mod_upper_bound (n + (8 - 1)) 8). lia.
Qed.

Lemma from_unaligned_as_bytes bytes : aligned_as_bytes (from_unaligned_bytes bytes) = bytes.
Proof.
  unfold aligned_as_bytes, from_unaligned_bytes, copy_into. cbn [ab_len ab_words].
  rewrite take_0. cbn [app]. by rewrite take_app_length.
Qed.

Lemma pool_take_length words pool : (8 * words <= length (pool_take words pool).1)%nat.
Proof.
  unfold pool_take. cbn [fst]. destruct (Nat.ltb_spec (length (default [] pool)) (8 * words)); [|done].
  rewrite length_app, length_replicate. lia.
Qed.

(** What a recycled buffer held before does not show. *)
Lemma copy_from_slices_as_bytes first second pool :
  aligned_as_bytes (copy_from_slices first second pool).1 = first ++ second.
Proof.
  unfold copy_from_slices.
  pose proof (pool_take_length (div_ceil (length first + length second) 8) pool) as Hlen.
  destruct (pool_take _ _) as [words pool']. cbn [fst] in *.
  pose proof (div_ceil_enough (length first + length second)).
  unfold aligned_as_bytes, copy_into. cbn [ab_len ab_words].
  rewrite take_0. cbn [app]. rewrite take_app_length, app_assoc.
  by rewrite take_app_length' by (rewrite length_app; lia).
Qed.

(** ** Reading the mapping *)

(** The layout [RingBuffer::new] accepts. *)
Record placed (m : RingMapping) : Prop := {
  pl_pow : exists j, 0 <= j /\ data_size m = 2 ^ j;
  pl_offset : 0 <= data_offset m;
  pl_inside : data_offset m + data_size m <= Z.of_nat (length (mapped m));
}.

Lemma placed_size m : placed m -> 0 < data_size m.
Proof. intros [(j & Hj & ->) _ _]. lia. Qed.

Lemma ring_offset_mod m p : placed m -> ring_offset m p = p mod data_size m.
Proof.
  intros [(j & Hj & Hs) _ _]. unfold ring_offset. rewrite Hs.
  replace (2 ^ j - 1) with (Z.ones j) by (rewrite Z.ones_equiv; lia).
  by apply Z.land_ones.
Qed.

Lemma mod_shift p i n : 0 < n -> 0 <= i -> p mod n + i < n -> (p + i) mod n = p mod n + i.
Proof.
  intros Hn Hi Hlt. pose proof (Z.mod_pos_bound p n Hn). rewrite <-Zplus_mod_idemp_l. apply Z.mod_small. lia.
Qed.

Lemma mod_wrap p i n : 0 < n -> 0 <= i < n -> n <= p mod n + i -> (p + i) mod n = p mod n + i - n.
Proof.
  intros Hn Hi Hle. pose proof (Z.mod_pos_bound p n Hn). rewrite <-Zplus_mod_idemp_l.
  replace (p mod n + i) with (p mod n + i - n + 1 * n) by lia. rewrite Z_mod_plus_full.
  rewrite Z.mod_small by lia. lia.
Qed.

Lemma ring_slice_reads m offset bs :
  placed m -> 0 <= offset -> offset + Z.of_nat (length bs) <= data_size m ->
  (forall i b, bs !! i = Some b -> mapped m !! Z.to_nat (data_offset m + offset + Z.of_nat i) = Some b) ->
  ring_slice m offset (Z.of_nat (length bs)) = Some bs.
Proof.
  intros Hp Ho Hfit Hb. unfold ring_slice. destruct (Z.leb_spec (offset + Z.of_nat (length bs)) (data_size m)); [|lia].
  f_equal. rewrite Nat2Z.id. destruct Hp as [_ Hoff Hin]. apply list_eq_same_length with (length bs); [done| |].
  - rewrite length_take, length_drop. lia.
  - intros i x y Hi Hx Hy. rewrite lookup_take_lt, lookup_drop in Hx by done.
    apply Hb in Hy. replace (Z.to_nat (data_offset m + offset) + i)%nat
      with (Z.to_nat (data_offset m + offset + Z.of_nat i)) in Hx by lia. congruence.
Qed.

(** The bytes of a record, read at its position of the stream. *)
Definition stored_at (m : RingMapping) (p : Z) (bs : list Z) : Prop :=
  forall i b, bs !! i = Some b -> mapped m !! cell m (p + Z.of_nat i) = Some b.

Lemma read_straight m p bs :
  placed m -> p mod data_size m + Z.of_nat (length bs) <= data_size m -> stored_at m p bs ->
  ring_slice m (p mod data_size m) (Z.of_nat (length bs)) = Some bs.
Proof.
  intros Hp Hfit Hs. pose proof (placed_size _ Hp). pose proof (Z.mod_pos_bound p _ H).
  apply ring_slice_reads; [done|lia|done|]. intros i b Hi. rewrite <-(Hs i b Hi). unfold cell.
  apply lookup_lt_Some in Hi. rewrite mod_shift by lia. do 2 f_equal. lia.
Qed.

Lemma read_wrapped m p bs :
  placed m -> data_size m < p mod data_size m + Z.of_nat (length bs) ->
  Z.of_nat (length bs) <= data_size m -> stored_at m p bs ->
  let first_len := data_size m - p mod data_size m in
  ring_slice m (p mod data_size m) first_len = Some (take (Z.to_nat first_len) bs) /\
  ring_slice m 0 (Z.of_nat (length bs) - first_len) = Some (drop (Z.to_nat first_len) bs).
Proof.
  intros Hp Hout Hle Hs. cbv zeta. pose proof (placed_size _ Hp). pose proof (Z.mod_pos_bound p _ H).
  set (n := Z.to_nat (data_size m - p mod data_size m)).
  assert (length (take n bs) = n) as Hn by (rewrite length_take; lia). split.
  - replace (data_size m - p mod data_size m) with (Z.of_nat (length (take n bs))) by lia.
    apply read_straight; [done|rewrite Hn; lia|]. intros i b Hi. apply Hs.
    apply lookup_take_Some in Hi as [Hi _]. done.
  - replace (Z.of_nat (length bs) - (data_size m - p mod data_size m))
      with (Z.of_nat (length (drop n bs))) by (rewrite length_drop; lia).
    apply ring_slice_reads; [done|lia|rewrite length_drop; lia|]. intros i b Hi.
    rewrite lookup_drop in Hi. rewrite <-(Hs _ b Hi). apply lookup_lt_Some in Hi. unfold cell.
    rewrite mod_wrap by lia. do 2 f_equal. lia.
Qed.

Lemma byte_at_reads m p b :
  placed m -> mapped m !! cell m p = Some b -> byte_at m p = Some b.
Proof.
  intros Hp Hb. unfold byte_at. rewrite (ring_offset_mod _ _ Hp).
  pose proof (placed_size _ Hp). pose proof (Z.mod_pos_bound p _ H).
  assert (ring_slice m (p mod data_size m) 1 = Some [b]) as ->; [|done].
  apply (read_straight m p [b]); [done|cbn; lia|].
  intros [|i] c; [|done]. intros [= <-]. by rewrite Z.add_0_r.
Qed.

(** ** Positions of the stream *)

Definition position_of (base : Z) (pub : list (list Z)) (k : nat) : Z :=
  base + Z.of_nat (length (concat (take k pub))).

Lemma position_of_zero base pub : position_of base pub 0 = base.
Proof. unfold position_of. rewrite take_0. cbn. lia. Qed.

Lemma position_of_succ base pub k record :
  pub !! k = Some record ->
  position_of base pub (S k) = position_of base pub k + Z.of_nat (length record).
Proof.
  intros Hk. unfold position_of. rewrite (take_S_r _ _ _ Hk), concat_app, length_app. cbn.
  rewrite app_nil_r. lia.
Qed.

Lemma position_of_app base pub more k :
  (k <= length pub)%nat -> position_of base (pub ++ more) k = position_of base pub k.
Proof. intros Hk. unfold position_of. by rewrite take_app_le. Qed.

Lemma position_of_lt base pub k j :
  Forall record_shape pub -> (k < j <= length pub)%nat -> position_of base pub k < position_of base pub j.
Proof.
  intros Hs [Hkj Hj]. induction j as [|j IH]; [lia|].
  destruct (lookup_lt_is_Some_2 pub j) as [record Hr]; [lia|].
  rewrite (position_of_succ _ _ _ _ Hr). pose proof (Forall_lookup_1 _ _ _ _ Hs Hr) as [H8 _].
  destruct (decide (k = j)) as [->|]; [lia|]. assert (position_of base pub k < position_of base pub j); [|lia].
  apply IH; lia.
Qed.

Lemma position_of_inj base pub k j :
  Forall record_shape pub -> (k <= length pub)%nat -> (j <= length pub)%nat ->
  position_of base pub k = position_of base pub j -> k = j.
Proof.
  intros Hs Hk Hj He. destruct (decide (k < j)%nat).
  - pose proof (position_of_lt base pub k j Hs). lia.
  - destruct (decide (j < k)%nat); [|lia]. pose proof (position_of_lt base pub j k Hs). lia.
Qed.

Lemma concat_record (pub : list (list Z)) k record i :
  pub !! k = Some record -> (i < length record)%nat ->
  concat pub !! (length (concat (take k pub)) + i)%nat = record !! i.
Proof.
  intros Hk Hi.
  assert (concat pub = concat (take k pub) ++ record ++ concat (drop (S k) pub)) as ->.
  { by rewrite <-(take_drop_middle pub k record Hk) at 1; rewrite concat_app. }
  rewrite lookup_app_r by lia. rewrite lookup_app_l by lia. f_equal. lia.
Qed.

(** ** The invariant *)

Definition lent (h : gmap nat held_sample) : ranges := λ a b,
  exists k offset len n, h !! k = Some (Ring (Mapped a b offset len), n).

(** What a sample has of the record it stands for. *)
Definition holds (base size : Z) (pub : list (list Z)) (k : nat) (s : held_sample) : Prop :=
  exists record, pub !! k = Some record /\
    match s.1 with
    | Ring (Mapped a b offset len) =>
        a = position_of base pub k /\ b = position_of base pub (S k) /\ offset = a mod size /\
        len = Z.of_nat (length record) /\ offset + len <= size
    | Ring (Owned bytes) => aligned_as_bytes bytes = record
    | Detached bytes => take s.2 (aligned_as_bytes bytes) = take s.2 record
    end.

Record ring_inv (base : Z) (s : ring_system) : Prop := {
  ri_placed : placed (sys_mapping s);
  ri_base : 0 <= base;
  ri_shapes : Forall record_shape (published s);
  ri_head : data_head (sys_mapping s) = position_of base (published s) (length (published s));
  ri_range : data_head (sys_mapping s) <= u64_max;
  ri_delivered : (delivered s <= length (published s))%nat;
  ri_read : read_pos (sys_ring s) = position_of base (published s) (delivered s);
  ri_end : exists n, (delivered s <= n <= length (published s))%nat /\
    sys_end s = position_of base (published s) n;
  ri_tail : data_tail (sys_mapping s) = committed (commits (sys_mapping s));
  ri_start : base <= data_tail (sys_mapping s);
  ri_room : data_head (sys_mapping s) <= data_tail (sys_mapping s) + data_size (sys_mapping s);
  ri_bytes : forall p, data_tail (sys_mapping s) <= p < data_head (sys_mapping s) ->
    mapped (sys_mapping s) !! cell (sys_mapping s) p = concat (published s) !! Z.to_nat (p - base);
  ri_held : forall k hs, kept s !! k = Some hs ->
    (k < delivered s)%nat /\ holds base (data_size (sys_mapping s)) (published s) k hs;
  ri_commit : commit_inv (lent (kept s)) (read_pos (sys_ring s)) (commits (sys_mapping s));
}.

Lemma position_of_le base pub k j :
  Forall record_shape pub -> (k <= j <= length pub)%nat -> position_of base pub k <= position_of base pub j.
Proof.
  intros Hs Hkj. destruct (decide (k = j)) as [->|]; [lia|].
  pose proof (position_of_lt base pub k j Hs). lia.
Qed.

(** A record that has not been given back is in the mapping. *)
Lemma inv_stored base s k record :
  ring_inv base s -> published s !! k = Some record ->
  data_tail (sys_mapping s) <= position_of base (published s) k ->
  stored_at (sys_mapping s) (position_of base (published s) k) record.
Proof.
  intros Hi Hk Ht i b Hb. pose proof (lookup_lt_Some _ _ _ Hb). pose proof (lookup_lt_Some _ _ _ Hk).
  pose proof (position_of_le base (published s) (S k) (length (published s)) (ri_shapes _ _ Hi)).
  pose proof (position_of_succ base _ _ _ Hk). pose proof (ri_head _ _ Hi).
  rewrite (ri_bytes _ _ Hi) by lia. rewrite <-Hb, <-(concat_record _ _ _ i Hk) by done.
  f_equal. unfold position_of. lia.
Qed.

(** Every sample reads the bytes of its record. *)
Lemma inv_sample_bytes base s k st n record :
  ring_inv base s -> kept s !! k = Some (st, n) -> published s !! k = Some record ->
  exists bytes, sample_bytes (sys_mapping s) st = Some bytes /\ take n bytes = take n record /\
    (forall r, st = Ring r -> bytes = record).
Proof.
  intros Hi Hk Hr. destruct (ri_held _ _ Hi _ _ Hk) as (Hlt & record' & Hr' & Hh).
  assert (record' = record) as -> by congruence. destruct st as [[a b offset len|bytes]|bytes]; cbn in Hh |- *.
  - destruct Hh as (Ha & Hb & -> & -> & Hfit). exists record. split; [|done]. rewrite Ha in *.
    apply read_straight; [apply Hi|done|]. apply inv_stored; [done|done|].
    rewrite (ri_tail _ _ Hi). eapply (commit_inv_lent_after _ _ _ _ b (ri_commit _ _ Hi)).
    unfold lent. eauto.
  - eexists. split; [done|]. by rewrite Hh.
  - eexists. done.
Qed.

(** ** Steps *)

(** Nothing but the pool, or the commit state and the tail, changed. *)
Record same_ring (m m' : RingMapping) : Prop := {
  sr_mapped : mapped m' = mapped m;
  sr_head : data_head m' = data_head m;
  sr_offset : data_offset m' = data_offset m;
  sr_size : data_size m' = data_size m;
}.

Lemma same_ring_cell m m' p : same_ring m m' -> cell m' p = cell m p.
Proof. intros [_ _ Ho Hs]. unfold cell. by rewrite Ho, Hs. Qed.

Lemma same_ring_placed m m' : same_ring m m' -> placed m -> placed m'.
Proof. intros [Hm Hh Ho Hs] [H1 H2 H3]. split; by rewrite ?Hm, ?Ho, ?Hs. Qed.

Lemma mapping_complete_ok L rp m from to :
  commit_inv L rp (commits m) -> L from to -> data_tail m = committed (commits m) ->
  exists m', mapping_complete from to m = Some m' /\ same_ring m m' /\
    commit_inv (without L from) rp (commits m') /\
    data_tail m' = committed (commits m') /\ data_tail m <= data_tail m'.
Proof.
  intros Hi HL Ht. destruct (commit_complete_ok _ _ _ _ _ Hi HL) as (tail & st & Hc & Hi' & Hle & Hd).
  unfold mapping_complete. rewrite Hc. cbn.
  destruct tail as [tail|]; cbn in Hd; subst; eexists; (split; [done|]); (split; [by split|]);
    cbn; (split; [done|]); (split; [congruence|lia]).
Qed.

(** A later state with the same history and samples that agree with it. *)
Lemma inv_moved base r e h d pub m' rp' h' d' :
  ring_inv base (mkSystem r e h d pub) -> same_ring (mapping r) m' ->
  (d' <= length pub)%nat -> rp' = position_of base pub d' ->
  (exists n, (d' <= n <= length pub)%nat /\ e = position_of base pub n) ->
  data_tail m' = committed (commits m') -> data_tail (mapping r) <= data_tail m' ->
  (forall k hs, h' !! k = Some hs -> (k < d')%nat /\ holds base (data_size (mapping r)) pub k hs) ->
  commit_inv (lent h') rp' (commits m') ->
  ring_inv base (mkSystem (mkRing m' rp') e h' d' pub).
Proof.
  intros [Hp Hb Hs Hh Hr Hd Hrp He Ht Hst Hrm Hby Hhe Hc] Hsame Hd' Hrp' He' Ht' Hle Hh' Hc'.
  pose proof Hsame as [Hm Hhd Ho Hsz].
  unfold sys_mapping in *. cbn [sys_ring sys_end kept delivered published mapping read_pos] in *.
  split; unfold sys_mapping; cbn [sys_ring sys_end kept delivered published mapping read_pos]; try done.
  - by eapply same_ring_placed.
  - congruence.
  - by rewrite Hhd.
  - lia.
  - rewrite Hhd, Hsz. lia.
  - intros p Hp'. rewrite Hm, (same_ring_cell _ _ _ Hsame). apply Hby. rewrite Hhd in Hp'. lia.
  - by rewrite Hsz.
Qed.

Lemma lent_changed (h : gmap nat held_sample) k a b offset len n h' :
  h !! k = Some (Ring (Mapped a b offset len), n) ->
  (forall j c d o l i, h !! j = Some (Ring (Mapped c d o l), i) -> c = a -> j = k) ->
  (forall j, j <> k -> h' !! j = h !! j) ->
  (forall c d o l i, h' !! k <> Some (Ring (Mapped c d o l), i)) ->
  pointwise_relation _ (pointwise_relation _ iff) (without (lent h) a) (lent h').
Proof.
  intros Hk Hinj Hsame Hnot c d. unfold without, lent. split.
  - intros [(j & o & l & i & Hj) Hne]. exists j, o, l, i. rewrite Hsame; [done|]. intros ->. congruence.
  - intros (j & o & l & i & Hj). destruct (decide (j = k)) as [->|Hne]; [by apply Hnot in Hj|].
    rewrite Hsame in Hj by done. split; [by exists j, o, l, i|]. intros ->. by apply Hne, (Hinj j a d o l i).
Qed.

Lemma inv_lent_inj base s k a b offset len n :
  ring_inv base s -> kept s !! k = Some (Ring (Mapped a b offset len), n) ->
  forall j c d o l i, kept s !! j = Some (Ring (Mapped c d o l), i) -> c = a -> j = k.
Proof.
  intros Hi Hk j c d o l i Hj ->. destruct (ri_held _ _ Hi _ _ Hk) as (Hk' & rk & Hrk & Ha & _).
  destruct (ri_held _ _ Hi _ _ Hj) as (Hj' & rj & Hrj & Ha' & _). pose proof (ri_delivered _ _ Hi).
  apply (position_of_inj base (published s)); [apply Hi|lia|lia|congruence].
Qed.

(** Giving a borrowed record back, whatever the sample becomes. *)
Lemma inv_give_back base r e h d pub k a b offset len n h' :
  ring_inv base (mkSystem r e h d pub) -> h !! k = Some (Ring (Mapped a b offset len), n) ->
  (forall j, j <> k -> h' !! j = h !! j) ->
  (forall c d o l i, h' !! k <> Some (Ring (Mapped c d o l), i)) ->
  (forall hs, h' !! k = Some hs -> holds base (data_size (mapping r)) pub k hs) ->
  exists m', mapping_complete a b (mapping r) = Some m' /\
    ring_inv base (mkSystem (set_mapping m' r) e h' d pub).
Proof.
  intros Hi Hk Hsame Hnot Hnew.
  destruct (mapping_complete_ok _ _ _ a b (ri_commit _ _ Hi)) as (m' & Hm & Hsr & Hc & Ht & Hle);
    [by exists k, offset, len, n|apply Hi|]. exists m'. split; [done|].
  rewrite (lent_changed h k a b offset len n h' Hk (inv_lent_inj _ _ _ _ _ _ _ _ Hi Hk) Hsame Hnot) in Hc.
  pose proof (ri_held _ _ Hi) as Hh. cbn in Hh.
  eapply inv_moved; [exact Hi|done|apply (ri_delivered _ _ Hi)|apply (ri_read _ _ Hi)|apply (ri_end _ _ Hi)|done|done| |done].
  intros j hs Hj. destruct (decide (j = k)) as [->|Hne].
  - split; [by apply (Hh k _ Hk)|by apply Hnew].
  - rewrite Hsame in Hj by done. by apply Hh.
Qed.

Lemma inv_publish base r e h d pub record m' :
  ring_inv base (mkSystem r e h d pub) -> record_shape record ->
  kernel_publishes (mapping r) record m' ->
  ring_inv base (mkSystem (set_mapping m' r) e h d (pub ++ [record])).
Proof.
  intros [Hp Hb Hs Hh Hr Hd Hrp (n & Hn & He) Ht Hst Hrm Hby Hhe Hc] Hrec
    [Kroom Krange Khead Ktail Koff Ksize Kcom Kpool Klen Kw Kk].
  unfold sys_mapping in *. cbn [sys_ring sys_end kept delivered published mapping read_pos] in *.
  assert (data_head (mapping r) = base + Z.of_nat (length (concat pub))) as Hh'
    by (rewrite Hh; unfold position_of; by rewrite firstn_all).
  assert (forall p, cell m' p = cell (mapping r) p) as Hcell by (intros p; unfold cell; by rewrite Koff, Ksize).
  split; unfold sys_mapping, set_mapping; cbn [sys_ring sys_end kept delivered published mapping read_pos].
  - destruct Hp as [P1 P2 P3]. split; by rewrite ?Klen, ?Koff, ?Ksize.
  - done.
  - apply Forall_app. by split; [|constructor].
  - unfold position_of. rewrite firstn_all, concat_app, length_app. cbn. rewrite app_nil_r. lia.
  - lia.
  - rewrite length_app. lia.
  - by rewrite position_of_app.
  - exists n. rewrite length_app, position_of_app by lia. split; [lia|done].
  - congruence.
  - lia.
  - lia.
  - intros p Hpp. rewrite Hcell, concat_app. cbn [concat]. rewrite app_nil_r.
    destruct (decide (p < data_head (mapping r))).
    + rewrite Kk by lia. rewrite Hby by lia. rewrite lookup_app_l; [done|lia].
    + rewrite lookup_app_r by lia.
      destruct (lookup_lt_is_Some_2 record (Z.to_nat (p - base) - length (concat pub))) as [c Hc']; [lia|].
      rewrite Hc', <-(Kw _ _ Hc'). do 2 f_equal. lia.
  - intros k hs Hk. destruct (Hhe k hs Hk) as (Hlt & rec & Hrec' & Hcase). split; [done|].
    pose proof (lookup_lt_Some _ _ _ Hrec'). exists rec. split; [by apply lookup_app_l_Some|].
    rewrite Ksize. destruct hs as [[[]|] ?]; cbn in *; [|done|done].
    by rewrite !position_of_app by lia.
  - by rewrite Kcom.
Qed.

(** The pieces [next_record_to] reads of the next record. *)
Lemma inv_next_record base r e h d pub :
  ring_inv base (mkSystem r e h d pub) -> e <> read_pos r ->
  exists record, pub !! d = Some record /\ record_shape record /\
    stored_at (mapping r) (read_pos r) record /\
    read_pos r + Z.of_nat (length record) <= e <= u64_max /\
    e - read_pos r <= data_size (mapping r) /\ 0 <= read_pos r.
Proof.
  intros Hi Hne. destruct (ri_end _ _ Hi) as (n & Hn & He).
  pose proof (ri_read _ _ Hi) as Hrp. cbn in Hn, He, Hrp.
  assert (d <> n) by congruence. destruct (lookup_lt_is_Some_2 pub d) as [record Hr]; [lia|].
  exists record. split; [done|]. pose proof (Forall_lookup_1 _ _ _ _ (ri_shapes _ _ Hi) Hr) as Hsh.
  pose proof (position_of_succ base pub d record Hr) as Hsucc.
  pose proof (position_of_le base pub (S d) n (ri_shapes _ _ Hi)) as H1. cbn in H1.
  pose proof (position_of_le base pub n (length pub) (ri_shapes _ _ Hi)) as H2. cbn in H2.
  pose proof (position_of_le base pub 0 d (ri_shapes _ _ Hi)) as H3. rewrite position_of_zero in H3.
  pose proof (ri_head _ _ Hi) as Hh. pose proof (ri_range _ _ Hi). pose proof (ri_room _ _ Hi).
  pose proof (ri_tail _ _ Hi). pose proof (ci_le _ _ _ (ri_commit _ _ Hi)). pose proof (ri_base _ _ Hi).
  unfold sys_mapping in *. cbn in *. split; [done|]. split.
  - rewrite Hrp. apply (inv_stored base (mkSystem r e h d pub)); [done|done|]. unfold sys_mapping. cbn. lia.
  - lia.
Qed.

Lemma lent_next (h : gmap nat held_sample) d a b offset len n :
  h !! d = None ->
  pointwise_relation _ (pointwise_relation _ iff) (lent_also (lent h) a b)
    (lent (<[d := (Ring (Mapped a b offset len), n)]> h)).
Proof.
  intros Hd x y. unfold lent_also, lent. split.
  - intros [(j & o & l & i & Hj)|[-> ->]].
    + exists j, o, l, i. rewrite lookup_insert_ne; [done|]. intros <-. by rewrite Hd in Hj.
    + exists d, offset, len, n. by rewrite lookup_insert_eq.
  - intros (j & o & l & i & [[<- [= <- <- <- <- <-]]|[_ Hj]]%lookup_insert_Some); [by right|left; eauto].
Qed.

Lemma lent_unchanged (h h' : gmap nat held_sample) k :
  (forall j, j <> k -> h' !! j = h !! j) ->
  (forall c d o l i, h !! k <> Some (Ring (Mapped c d o l), i)) ->
  (forall c d o l i, h' !! k <> Some (Ring (Mapped c d o l), i)) ->
  pointwise_relation _ (pointwise_relation _ iff) (lent h) (lent h').
Proof.
  intros Hsame Hnot Hnot' x y. unfold lent. split; intros (j & o & l & i & Hj);
    (destruct (decide (j = k)) as [->|Hne]; [by apply Hnot in Hj || by apply Hnot' in Hj|]);
    exists j, o, l, i; specialize (Hsame j Hne); congruence.
Qed.

Lemma without_lent L rp st to : commit_inv L rp st ->
  pointwise_relation _ (pointwise_relation _ iff) (without (lent_also L rp to) rp) L.
Proof.
  intros Hi a b. unfold without, lent_also. split; [intros [[?|[-> _]] ?]; done|].
  intros Hab. split; [by left|]. destruct (commit_inv_lent_after _ _ _ _ _ Hi Hab).
  pose proof (sep_nonempty _ (ci_lent _ _ _ Hi) _ _ Hab). lia.
Qed.

(** [next_record_to] up to the choice of storage. *)
Lemma next_record_reads r e record :
  placed (mapping r) -> record_shape record -> stored_at (mapping r) (read_pos r) record ->
  0 <= read_pos r -> read_pos r + Z.of_nat (length record) <= e <= u64_max ->
  e - read_pos r <= data_size (mapping r) ->
  let m := mapping r in
  let from := read_pos r in
  let len := Z.of_nat (length record) in
  let to := from + len in
  let offset := from mod data_size m in
  next_record_to e r =
    if offset + len <=? data_size m then (Ok (Some (Mapped from to offset len)), mkRing m to)
    else
      let first_len := data_size m - offset in
      match ring_slice m offset first_len, ring_slice m 0 (len - first_len) with
      | Some first, Some second =>
          let '(bytes, pool) := copy_from_slices first second (aligned_pool m) in
          match mapping_complete from to (set_pool pool m) with
          | Some m => (Ok (Some (Owned bytes)), mkRing m to)
          | None => (Err Panicked, r)
          end
      | _, _ => (Err Panicked, r)
      end.
Proof.
  intros Hp (H8 & low & high & H6 & H7 & Hlen) Hst H0 He Hsz. cbv zeta. unfold next_record_to.
  destruct (Z.eqb_spec e (read_pos r)); [lia|]. unfold checked_sub_u64, checked_add_u64.
  destruct (Z.leb_spec (read_pos r) e); [|lia].
  destruct (Z.ltb_spec (data_size (mapping r)) (e - read_pos r)); [lia|].
  destruct (Z.ltb_spec (e - read_pos r) 8); [lia|].
  destruct (Z.leb_spec (read_pos r + 6) u64_max); [|lia].
  pose proof (byte_at_reads _ _ low Hp (Hst _ _ H6) : byte_at _ (_ + 6) = _) as ->.
  replace (read_pos r + 6 + 1) with (read_pos r + 7) by lia.
  pose proof (byte_at_reads _ _ high Hp (Hst _ _ H7) : byte_at _ (_ + 7) = _) as ->.
  cbv zeta. rewrite Hlen.
  destruct (Z.leb_spec 8 (Z.of_nat (length record))); [|lia].
  destruct (Z.leb_spec (Z.of_nat (length record)) (data_size (mapping r))); [|lia]. cbn [andb negb].
  destruct (Z.ltb_spec (e - read_pos r) (Z.of_nat (length record))); [lia|].
  destruct (Z.leb_spec (read_pos r + Z.of_nat (length record)) u64_max); [|lia].
  by rewrite (ring_offset_mod _ _ Hp).
Qed.

Lemma inv_next base r e h d pub :
  ring_inv base (mkSystem r e h d pub) -> e <> read_pos r ->
  exists record bytes r', pub !! d = Some bytes /\
    next_record_to e r = (Ok (Some record), r') /\
    record_as_bytes (mapping r') record = Some bytes /\ same_ring (mapping r) (mapping r') /\
    forall n, ring_inv base (mkSystem r' e (<[d := (Ring record, n)]> h) (S d) pub).
Proof.
  intros Hi Hne. destruct (inv_next_record _ _ _ _ _ _ Hi Hne) as (rec & Hr & Hsh & Hst & He & Hsz & H0).
  pose proof (ri_placed _ _ Hi) as Hp. pose proof (ri_read _ _ Hi) as Hrp.
  pose proof (position_of_succ base pub d rec Hr) as Hsucc. pose proof (ri_commit _ _ Hi) as Hc.
  pose proof (lookup_lt_Some _ _ _ Hr) as Hlt. pose proof (ri_held _ _ Hi) as Hh.
  pose proof (ri_tail _ _ Hi) as Ht. destruct Hsh as [H8 Hshape].
  unfold sys_mapping in *. cbn [sys_ring mapping read_pos kept delivered published] in *.
  assert (h !! d = None) as Hd by (destruct (h !! d) eqn:Hd; [apply Hh in Hd; lia|done]).
  assert (exists n, (S d <= n <= length pub)%nat /\ e = position_of base pub n) as Hend.
  { destruct (ri_end _ _ Hi) as (n & Hn & He'). cbn in Hn, He'. exists n. split; [|done].
    assert (d <> n) by congruence. lia. }
  rewrite (next_record_reads r e rec Hp) by (done || lia). cbv zeta.
  assert (forall n st, holds base (data_size (mapping r)) pub d (st, n) -> forall k hs,
    <[d := (st, n)]> h !! k = Some hs -> (k < S d)%nat /\ holds base (data_size (mapping r)) pub k hs) as Hheld.
  { intros n st Hhold k hs [[<- <-]|[_ Hk]]%lookup_insert_Some; [by split; [lia|]|].
    destruct (Hh k hs Hk). split; [lia|done]. }
  pose proof (commit_inv_lend _ _ _ (read_pos r + Z.of_nat (length rec)) Hc ltac:(lia)) as Hlend.
  destruct (Z.leb_spec (read_pos r mod data_size (mapping r) + Z.of_nat (length rec)) (data_size (mapping r))).
  - eexists _, rec, _. split; [done|]. split; [done|]. split; [by apply read_straight|].
    split; [done|]. intros n. eapply inv_moved; [exact Hi|by split|lia|lia|done|done|done| |].
    + apply Hheld. exists rec. cbn. split; [done|]. rewrite Hrp in *. split_and!; (done || lia).
    + by rewrite <-lent_next.
  - destruct (read_wrapped (mapping r) (read_pos r) rec Hp ltac:(lia) ltac:(lia) Hst) as [-> ->].
    pose proof (copy_from_slices_as_bytes (take (Z.to_nat (data_size (mapping r) - read_pos r mod data_size (mapping r))) rec) (drop (Z.to_nat (data_size (mapping r) - read_pos r mod data_size (mapping r))) rec) (aligned_pool (mapping r))) as Hb.
    destruct (copy_from_slices _ _ _) as [bytes pool]. cbn [fst] in Hb. rewrite take_drop in Hb.
    destruct (mapping_complete_ok _ _ (set_pool pool (mapping r)) (read_pos r) (read_pos r + Z.of_nat (length rec)) Hlend) as (m' & -> & Hsame & Hc' & Ht' & Hle);
      [right; done|done|].
    eexists _, rec, _. split; [done|]. split; [done|]. split; [by cbn; rewrite Hb|].
    split; [destruct Hsame; by split|]. intros n. eapply inv_moved; [exact Hi| |lia|lia|done|done|done| |].
    + destruct Hsame. by split.
    + apply Hheld. exists rec. by split.
    + rewrite <-(lent_unchanged h _ d), <-(without_lent _ _ _ (read_pos r + Z.of_nat (length rec)) Hc); [done| | |].
      * intros j Hj. by rewrite lookup_insert_ne.
      * intros ? ? ? ? ?. by rewrite Hd.
      * intros ? ? ? ? ?. by rewrite lookup_insert_eq.
Qed.

(** A sample that owns its bytes changes or goes away. *)
Lemma inv_swap base r e h d pub k n st h' pool :
  ring_inv base (mkSystem r e h d pub) -> h !! k = Some (st, n) ->
  (forall a b o l, st <> Ring (Mapped a b o l)) ->
  (forall j, j <> k -> h' !! j = h !! j) ->
  (forall c d o l i, h' !! k <> Some (Ring (Mapped c d o l), i)) ->
  (forall hs, h' !! k = Some hs -> holds base (data_size (mapping r)) pub k hs) ->
  ring_inv base (mkSystem (set_mapping (set_pool pool (mapping r)) r) e h' d pub).
Proof.
  intros Hi Hk Hst Hsame Hnot Hnew.
  eapply inv_moved; [exact Hi|by split|apply (ri_delivered _ _ Hi)|apply (ri_read _ _ Hi)|apply (ri_end _ _ Hi)|apply (ri_tail _ _ Hi)|done| |].
  - intros j hs Hj. pose proof (ri_held _ _ Hi) as Hh. destruct (decide (j = k)) as [->|Hne].
    + split; [by apply (Hh k _ Hk)|by apply Hnew].
    + rewrite Hsame in Hj by done. by apply Hh.
  - rewrite <-(lent_unchanged h h' k); [apply (ri_commit _ _ Hi)|done| |done].
    intros ? ? ? ? ?. rewrite Hk. intros [= -> ->]. by eapply Hst.
Qed.

Lemma inv_detach base r e h d pub k st n :
  ring_inv base (mkSystem r e h d pub) -> h !! k = Some (st, n) ->
  exists st' m', sample_detach n st (mapping r) = Some (st', m') /\
    ring_inv base (mkSystem (set_mapping m' r) e (<[k := (st', n)]> h) d pub).
Proof.
  intros Hi Hk. destruct (ri_held _ _ Hi _ _ Hk) as (Hlt & record & Hr & Hh).
  destruct (inv_sample_bytes _ _ _ _ _ _ Hi Hk Hr) as (bytes & Hb & Htake & Hwhole).
  unfold sys_mapping in *. cbn [sys_ring mapping published kept delivered] in *.
  destruct st as [[a b offset len|owned]|detached]; cbn [sample_detach detach_bytes fst snd] in *.
  - cbn in Hb. cbn [record_as_bytes]. rewrite Hb. cbn [mbind option_bind record_drop].
    assert (bytes = record) as -> by eauto.
    set (st' := Detached _). destruct (inv_give_back base r e h d pub k a b offset len n (<[k := (st', n)]> h) Hi Hk) as (m' & -> & Hi').
    + intros j Hj. by rewrite lookup_insert_ne.
    + intros ? ? ? ? ?. by rewrite lookup_insert_eq.
    + intros hs. rewrite lookup_insert_eq. intros [= <-]. exists record. split; [done|]. cbn [fst snd st'].
      rewrite from_unaligned_as_bytes, take_take.
      destruct (decide (n <= length record)%nat); [f_equal; lia|]. by rewrite !take_ge by lia.
    + by exists st', m'.
  - eexists _, _. split; [done|].
    apply (inv_swap base r e h d pub k n (Ring (Owned owned))); [done|done|done| | |].
    + intros j Hj. by rewrite lookup_insert_ne.
    + intros ? ? ? ? ?. by rewrite lookup_insert_eq.
    + intros hs. rewrite lookup_insert_eq. intros [= <-]. exists record. split; [done|]. cbn. by rewrite Hh.
  - eexists _, _. split; [done|]. rewrite insert_id by done. by destruct r.
Qed.

Lemma inv_release base r e h d pub k st n :
  ring_inv base (mkSystem r e h d pub) -> h !! k = Some (st, n) ->
  exists m', sample_drop st (mapping r) = Some m' /\
    ring_inv base (mkSystem (set_mapping m' r) e (delete k h) d pub).
Proof.
  intros Hi Hk. destruct st as [[a b offset len|owned]|detached]; cbn [sample_drop record_drop].
  - apply (inv_give_back base r e h d pub k a b offset len n); [done|done| | |].
    + intros j Hj. by rewrite lookup_delete_ne.
    + intros ? ? ? ? ?. by rewrite lookup_delete_eq.
    + intros hs. by rewrite lookup_delete_eq.
  - eexists. split; [done|]. apply (inv_swap base r e h d pub k n (Ring (Owned owned))); [done|done|done| | |].
    + intros j Hj. by rewrite lookup_delete_ne.
    + intros ? ? ? ? ?. by rewrite lookup_delete_eq.
    + intros hs. by rewrite lookup_delete_eq.
  - eexists. split; [done|]. apply (inv_swap base r e h d pub k n (Detached detached)); [done|done|done| | |].
    + intros j Hj. by rewrite lookup_delete_ne.
    + intros ? ? ? ? ?. by rewrite lookup_delete_eq.
    + intros hs. by rewrite lookup_delete_eq.
Qed.

Lemma power_of_two n : 0 < n -> Z.land n (n - 1) = 0 -> exists j, 0 <= j /\ n = 2 ^ j.
Proof.
  intros Hn Hland. exists (Z.log2 n). split; [apply Z.log2_nonneg|].
  pose proof (Z.log2_spec n Hn) as [Hlo Hhi].
  destruct (decide (n = 2 ^ Z.log2 n)) as [|Hne]; [done|]. exfalso.
  assert (Z.log2 (n - 1) = Z.log2 n) as Hl.
  { apply Z.log2_unique; [apply Z.log2_nonneg|lia]. }
  assert (Z.testbit (Z.land n (n - 1)) (Z.log2 n) = true) as Ht.
  { rewrite Z.land_spec, Z.bit_log2 by done. rewrite <-Hl. apply Z.bit_log2.
    assert (1 <= 2 ^ Z.log2 n) by (pose proof (Z.pow_pos_nonneg 2 (Z.log2 n)); pose proof (Z.log2_nonneg n); lia). lia. }
  rewrite Hland, Z.bits_0 in Ht. done.
Qed.

(** The mapping is as long as [RingBuffer::new] asks [mmap] for. *)
Definition map_len (page_size page_exp : Z) : Z := (2 ^ page_exp + 1) * page_size.

Lemma ring_new_inv page_size page_exp bytes off sz pos r :
  0 <= page_size -> Z.of_nat (length bytes) = map_len page_size page_exp -> is_u64 pos ->
  ring_new page_size page_exp bytes off sz pos pos = Ok r -> ring_inv pos (ring_system_new r).
Proof.
  intros Hps Hlen [Hpos Hmax]. unfold ring_new.
  destruct (64 <=? page_exp); [done|]. cbv zeta. destruct (_ || _); [done|].
  set (offset := if off =? 0 then _ else _). set (size := if sz =? 0 then _ else _).
  destruct (negb _) eqn:Hv; [done|]. intros [= <-].
  apply negb_false_iff in Hv. rewrite !andb_true_iff, !Z.leb_le, Z.ltb_lt, Z.eqb_eq in Hv.
  destruct Hv as [[[[H0 Hpow] Hoff] _] Hfit]. fold (map_len page_size page_exp) in Hfit.
  split; unfold sys_mapping, ring_system_new; cbn [sys_ring sys_end kept delivered published mapping read_pos
    data_head data_tail data_size data_offset mapped commits commit_new committed pending length]; try done.
  - split; cbn [data_head data_tail data_size data_offset mapped]; [by apply power_of_two|lia|lia].
  - by rewrite position_of_zero.
  - by rewrite position_of_zero.
  - exists 0%nat. by rewrite position_of_zero.
  - lia.
  - intros p Hp. lia.
  - assert (forall x, ~ covers (lent ∅) x) as Hl by (intros x (a & b & (k & o & l & n & Hk) & _); by rewrite lookup_empty in Hk).
    assert (forall x, ~ covers (pending_range ∅) x) as Hq by (intros x (a & b & Hab & _); by apply lookup_empty_Some in Hab).
    split; cbn [committed pending commit_new]; [done|split|split| | | |]; try (by intros a b Hab; apply lookup_empty_Some in Hab).
    + intros a b (k & o & l & n & Hk). by rewrite lookup_empty in Hk.
    + intros a b a' b' x (k & o & l & n & Hk). by rewrite lookup_empty in Hk.
    + intros a b a' b' x Hab. by apply lookup_empty_Some in Hab.
    + intros x Hx. by apply Hq in Hx.
    + intros x. split; [lia|]. intros [Hx|Hx]; [by apply Hq in Hx|by apply Hl in Hx].
Qed.

Lemma ring_step_inv base s s' : ring_inv base s -> ring_step s s' -> ring_inv base s'.
Proof.
  intros Hi Hs. destruct Hs as [r e h d pub record m' Hsh Hk|r e h d pub|r e h d pub record r' n Hn
    |r e h d pub k st n st' m' Hk Hd|r e h d pub k st n m' Hk Hd].
  - by apply (inv_publish _ _ _ _ _ _ _ _ Hi).
  - pose proof (ri_head _ _ Hi) as Hh. pose proof (ri_delivered _ _ Hi) as Hdl. destruct Hi. split; try done.
    cbn in *. by exists (length pub).
  - destruct (decide (e = read_pos r)) as [->|Hne].
    { unfold next_record_to in Hn. rewrite Z.eqb_refl in Hn. done. }
    destruct (inv_next _ _ _ _ _ _ Hi Hne) as (record' & bytes & r'' & _ & Hn' & _ & _ & Hi').
    rewrite Hn' in Hn. injection Hn as <- <-. apply Hi'.
  - destruct (inv_detach _ _ _ _ _ _ _ _ _ Hi Hk) as (st'' & m'' & Hd' & Hi').
    rewrite Hd' in Hd. by injection Hd as <- <-.
  - destruct (inv_release _ _ _ _ _ _ _ _ _ Hi Hk) as (m'' & Hd' & Hi').
    rewrite Hd' in Hd. by injection Hd as <-.
Qed.

Lemma reachable_inv base s s' : rtc ring_step s s' -> ring_inv base s -> ring_inv base s'.
Proof. induction 1 as [|x y z Hxy _ IH]; [done|]. intros Hi. by eapply IH, ring_step_inv. Qed.

(** ** The number of pending ranges *)

Lemma size_le_by_injection {A B} `{Countable A, Countable B} (R : A -> B -> Prop) (X : gset A) (Y : gset B) :
  (forall a, a ∈ X -> exists b, b ∈ Y /\ R a b) -> (forall a a' b, R a b -> R a' b -> a = a') ->
  (size X <= size Y)%nat.
Proof.
  intros HR Hinj. revert Y HR. induction X as [|a X Ha IH] using set_ind_L; intros Y HR.
  { rewrite size_empty. lia. }
  destruct (HR a) as (b & Hb & Hab); [set_solver|].
  rewrite size_union by set_solver. rewrite size_singleton.
  assert (size X <= size (Y ∖ {[b]}))%nat as Hle.
  { apply IH. intros a' Ha'. destruct (HR a') as (b' & Hb' & Hab'); [set_solver|]. exists b'.
    split; [|done]. apply elem_of_difference. split; [done|]. intros ->%elem_of_singleton.
    apply Ha. by rewrite (Hinj a a' b). }
  rewrite size_difference in Hle by set_solver. rewrite size_singleton in Hle.
  assert (size Y <> 0)%nat; [|lia]. intros Hz%size_empty_inv. set_solver.
Qed.

Definition is_borrowed (s : held_sample) : bool :=
  match s.1 with Ring (Mapped _ _ _ _) => true | _ => false end.

(** The samples that still borrow ring storage. *)
Definition borrowed (s : ring_system) : gset nat :=
  dom (filter (λ kv : nat * held_sample, is_borrowed kv.2 = true) (kept s)).

Lemma elem_of_borrowed s k :
  k ∈ borrowed s <-> exists a b o l n, kept s !! k = Some (Ring (Mapped a b o l), n).
Proof.
  unfold borrowed. rewrite elem_of_dom. unfold is_Some. setoid_rewrite map_lookup_filter_Some. cbn. split.
  - intros ([[[a b o l|]|] n] & Hk & Hb); try done. by exists a, b, o, l, n.
  - intros (a & b & o & l & n & Hk). by eexists.
Qed.

Lemma pending_le_borrowed base s :
  ring_inv base s -> (size (pending (commits (sys_mapping s))) <= size (borrowed s))%nat.
Proof.
  intros Hi. pose proof (ri_commit _ _ Hi) as Hc. set (p := pending _) in *. rewrite <-(size_dom p).
  apply (size_le_by_injection (λ a k, exists c d o l n b, kept s !! k = Some (Ring (Mapped c d o l), n) /\
    c <= a - 1 < d /\ p !! a = Some b)).
  - intros a [b Hab]%elem_of_dom. destruct (pending_has_neighbour _ _ _ _ _ Hc Hab) as (c & d & (k & o & l & n & Hk) & Ha).
    exists k. split; [|by exists c, d, o, l, n, b]. apply elem_of_borrowed. eauto 10.
  - assert (forall a a' k c d o l n b b', kept s !! k = Some (Ring (Mapped c d o l), n) ->
      c <= a - 1 < d -> c <= a' - 1 < d -> p !! a = Some b -> p !! a' = Some b' -> ~ a < a') as Hno.
    { intros a a' k c d o l n b b' Hk Ha Ha' Hab Hab' Hlt.
      apply (ci_apart _ _ _ Hc a); [by eapply covers_pick, Hab; apply Hc|].
      exists c, d. split; [by exists k, o, l, n|lia]. }
    intros a a' k (c & d & o & l & n & b & Hk & Ha & Hab) (c' & d' & o' & l' & n' & b' & Hk' & Ha' & Hab').
    assert (c' = c /\ d' = d) as [-> ->] by (rewrite Hk in Hk'; by injection Hk').
    pose proof (Hno a a' k c d o l n b b' Hk Ha Ha' Hab Hab').
    pose proof (Hno a' a k c d o l n b' b Hk Ha' Ha Hab' Hab). lia.
Qed.

(** ** What every reachable state satisfies *)

(** A ring that [RingBuffer::new] accepted over an empty mapping, and what the
    kernel and the recorder did with it since. *)
Definition ring_reaches (s : ring_system) : Prop :=
  exists page_size page_exp bytes off sz pos r,
    0 <= page_size /\ Z.of_nat (length bytes) = map_len page_size page_exp /\ is_u64 pos /\
    ring_new page_size page_exp bytes off sz pos pos = Ok r /\ rtc ring_step (ring_system_new r) s.

Lemma ring_reaches_inv s : ring_reaches s -> exists base, ring_inv base s.
Proof.
  intros (ps & pe & bytes & off & sz & pos & r & Hps & Hlen & Hpos & Hnew & Hs).
  exists pos. by eapply reachable_inv, ring_new_inv.
Qed.

(** C16: whatever the kernel writes and in whatever order samples are detached
    and dropped, a sample reads the bytes of the record it was created from: all
    of them while it keeps the record, the first [layout.end()] after it was
    detached.  Detaching and dropping never fail. *)
Theorem ring_samples_keep_their_records s k st n :
  ring_reaches s -> kept s !! k = Some (st, n) ->
  exists record bytes, published s !! k = Some record /\
    sample_bytes (sys_mapping s) st = Some bytes /\ take n bytes = take n record /\
    (forall r, st = Ring r -> bytes = record) /\
    is_Some (sample_detach n st (sys_mapping s)) /\ is_Some (sample_drop st (sys_mapping s)).
Proof.
  intros [base Hi]%ring_reaches_inv Hk. destruct (ri_held _ _ Hi _ _ Hk) as (_ & record & Hr & _).
  destruct (inv_sample_bytes _ _ _ _ _ _ Hi Hk Hr) as (bytes & Hb & Ht & Hw). exists record, bytes.
  split_and!; try done; destruct s as [r e h d pub].
  - destruct (inv_detach _ _ _ _ _ _ _ _ _ Hi Hk) as (st' & m' & Hd & _). by exists (st', m').
  - destruct (inv_release _ _ _ _ _ _ _ _ _ Hi Hk) as (m' & Hd & _). by exists m'.
Qed.

(** C17: a drain hands out the records the kernel published, one by one, in
    order and complete, also those that wrap around the end of the ring, until
    it has reached the head it started from; it never reports a malformed ring. *)
Theorem ring_delivers_records_in_order s :
  ring_reaches s ->
  (sys_end s = read_pos (sys_ring s) /\
   next_record_to (sys_end s) (sys_ring s) = (Ok None, sys_ring s)) \/
  (exists record bytes r', published s !! delivered s = Some bytes /\
   next_record_to (sys_end s) (sys_ring s) = (Ok (Some record), r') /\
   record_as_bytes (mapping r') record = Some bytes).
Proof.
  intros [base Hi]%ring_reaches_inv. destruct s as [r e h d pub]. cbn.
  destruct (decide (e = read_pos r)) as [->|Hne].
  - left. split; [done|]. unfold next_record_to. by rewrite Z.eqb_refl.
  - right. destruct (inv_next _ _ _ _ _ _ Hi Hne) as (record & bytes & r' & Hr & Hn & Hb & _).
    by exists record, bytes, r'.
Qed.

(** C20: the tail the kernel sees never passes storage that a sample still
    borrows, reaches the read position as soon as nothing is borrowed, and what
    is remembered about storage returned out of order stays within one range for
    each borrowed record. *)
Theorem ring_storage_is_returned s :
  ring_reaches s ->
  let m := sys_mapping s in
  data_tail m <= read_pos (sys_ring s) <= data_head m /\ data_head m <= data_tail m + data_size m /\
  (forall k a b o l n, kept s !! k = Some (Ring (Mapped a b o l), n) -> data_tail m <= a) /\
  (borrowed s = ∅ -> data_tail m = read_pos (sys_ring s)) /\
  (size (pending (commits m)) <= size (borrowed s))%nat.
Proof.
  intros [base Hi]%ring_reaches_inv. cbv zeta. pose proof (ri_commit _ _ Hi) as Hc.
  rewrite (ri_tail _ _ Hi). pose proof (ci_le _ _ _ Hc). pose proof (ri_room _ _ Hi).
  pose proof (position_of_le base (published s) _ _ (ri_shapes _ _ Hi) (conj (ri_delivered _ _ Hi) (Nat.le_refl _))).
  rewrite (ri_tail _ _ Hi), (ri_head _ _ Hi) in *. rewrite (ri_read _ _ Hi) in *. split_and!; try done.
  - intros k a b o l n Hk. eapply (commit_inv_lent_after _ _ _ a b Hc). by exists k, o, l, n.
  - intros He. rewrite (commit_inv_all_returned _ _ _ Hc); [done|]. intros a b (k & o & l & n & Hk).
    assert (k ∈ borrowed s) as Hin by (apply elem_of_borrowed; eauto 10). rewrite He in Hin. set_solver.
  - by eapply pending_le_borrowed.
Qed.

(** ** A run *)

Definition example_record (tag : Z) : list Z := [9; 0; 0; 0; 0; 0; 16; 0; tag; 0; 0; 0; 0; 0; 0; 0].
Definition example_ring (head tail : Z) (area : list Z) (st : CommitState) : RingMapping :=
  mkMapping (replicate 16 0 ++ area) head tail 16 32 st None.
Definition example_start : RingBuffer := mkRing (example_ring 0 0 (replicate 32 0) (commit_new 0)) 0.
Definition example_full (st : CommitState) : RingMapping :=
  example_ring 32 0 (example_record 1 ++ example_record 2) st.
Definition example_system : ring_system :=
  mkSystem (mkRing (example_full (mkCommit 0 {[16 := 32]})) 32) 32 {[0%nat := (Ring (Mapped 0 16 0 16), 16%nat)]} 2
    [example_record 1; example_record 2].

Lemma example_publishes_first :
  kernel_publishes (mapping example_start) (example_record 1)
    (example_ring 16 0 (example_record 1 ++ replicate 16 0) (commit_new 0)).
Proof.
  split; try done; cbn; try lia. intros i b Hi. do 16 (destruct i as [|i]; [by injection Hi as <-|]). done.
Qed.

Lemma example_publishes_second :
  kernel_publishes (example_ring 16 0 (example_record 1 ++ replicate 16 0) (commit_new 0)) (example_record 2)
    (example_full (commit_new 0)).
Proof.
  split; try done; cbn [example_ring data_head data_tail]; try (by cbn; lia).
  - intros i b Hi. do 16 (destruct i as [|i]; [by injection Hi as <-|]). done.
  - intros p Hp. rewrite <-(Z2Nat.id p) by lia. assert (Z.to_nat p < 16)%nat as Hlt by lia.
    generalize dependent (Z.to_nat p). intros i Hi. do 16 (destruct i as [|i]; [done|]). lia.
Qed.

Lemma example_reaches_system : ring_reaches example_system.
Proof.
  exists 16, 1, (replicate 48 0), 0, 0, 0, example_start.
  split; [lia|]. split; [done|]. split; [word_lia|]. split; [done|].
  eapply rtc_l; [by apply (step_publish _ _ _ _ _ (example_record 1)), example_publishes_first; split; [cbn; lia|exists 16, 0]|].
  eapply rtc_l; [by apply (step_publish _ _ _ _ _ (example_record 2)), example_publishes_second; split; [cbn; lia|exists 16, 0]|].
  eapply rtc_l; [apply step_drain|].
  eapply rtc_l; [eapply (step_next _ _ _ _ _ _ _ 16%nat); reflexivity|].
  eapply rtc_l; [eapply (step_next _ _ _ _ _ _ _ 16%nat); reflexivity|].
  eapply rtc_l; [eapply (step_release _ _ _ _ _ 1%nat (Ring (Mapped 16 32 16 16)) 16%nat); reflexivity|].
  vm_compute. apply rtc_refl.
Qed.

Lemma ring_samples_keep_their_records_witness :
  exists record bytes, published example_system !! 0%nat = Some record /\
    sample_bytes (sys_mapping example_system) (Ring (Mapped 0 16 0 16)) = Some bytes /\
    take 16 bytes = take 16 record /\
    (forall r, Ring (Mapped 0 16 0 16) = Ring r -> bytes = record) /\
    is_Some (sample_detach 16 (Ring (Mapped 0 16 0 16)) (sys_mapping example_system)) /\
    is_Some (sample_drop (Ring (Mapped 0 16 0 16)) (sys_mapping example_system)).
Proof.
  pose proof (ring_samples_keep_their_records example_system 0 (Ring (Mapped 0 16 0 16)) 16
    example_reaches_system) as Hw. apply Hw. reflexivity.
Defined.

Lemma ring_delivers_records_in_order_witness :
  (sys_end example_system = read_pos (sys_ring example_system) /\
   next_record_to (sys_end example_system) (sys_ring example_system) = (Ok None, sys_ring example_system)) \/
  (exists record bytes r', published example_system !! delivered example_system = Some bytes /\
   next_record_to (sys_end example_system) (sys_ring example_system) = (Ok (Some record), r') /\
   record_as_bytes (mapping r') record = Some bytes).
Proof. exact (ring_delivers_records_in_order example_system example_reaches_system). Defined.

Lemma ring_storage_is_returned_witness :
  let m := sys_mapping example_system in
  data_tail m <= read_pos (sys_ring example_system) <= data_head m /\
  data_head m <= data_tail m + data_size m /\
  (forall k a b o l n, kept example_system !! k = Some (Ring (Mapped a b o l), n) -> data_tail m <= a) /\
  (borrowed example_system = ∅ -> data_tail m = read_pos (sys_ring example_system)) /\
  (size (pending (commits m)) <= size (borrowed example_system))%nat.
Proof. exact (ring_storage_is_returned example_system example_reaches_system). Defined.
