(* ===== verification/PerfSample.v ===== *)
(** * Perf sample records

    The parser of [src/linux/perf_event.rs] for the samples the recorder asks
    the kernel for, the layout it keeps of a sample so that the bytes can be
    moved out of the ring, and the call-chain iterator.

    A [&[u8]] or [&[u64]] is a [slice]: the address of its first byte, which the
    alignment checks look at, and its bytes.  The numeric constants are those of
    the kernel's perf ABI. *)

From stdpp Require Import prelude list numbers.
From S2P Require Import Prelude Session SampleStack.
#[local] Open Scope Z_scope.

(** ** Constants *)

Definition PERF_SAMPLE_IP : Z := 1.
Definition PERF_SAMPLE_TID : Z := 2.
Definition PERF_SAMPLE_TIME : Z := 4.
Definition PERF_SAMPLE_CALLCHAIN : Z := 32.
Definition PERF_SAMPLE_REGS_USER : Z := 4096.
Definition PERF_SAMPLE_STACK_USER : Z := 8192.
Definition PERF_RECORD_SAMPLE : Z := 9.
Definition PERF_RECORD_MISC_CPUMODE_MASK : Z := 7.
Definition PERF_RECORD_MISC_EXACT_IP : Z := 16384.
Definition PERF_SAMPLE_REGS_ABI_NONE : Z := 0.
Definition PERF_SAMPLE_REGS_ABI_32 : Z := 1.
Definition PERF_SAMPLE_REGS_ABI_64 : Z := 2.
(** [PERF_CONTEXT_HV], [_KERNEL], [_USER], [_GUEST], [_GUEST_KERNEL] and
    [_GUEST_USER] are small negative numbers as [u64]. *)
Definition context_marker (n : Z) : Z := 18446744073709551616 - n.

(** ** Slices and the byte cursor *)

Record slice := mkSlice { sl_addr : Z; sl_bytes : list Z }.

Definition sl_len (s : slice) : Z := Z.of_nat (length (sl_bytes s)).
Definition is_u64_aligned (s : slice) : bool := sl_addr s mod 8 =? 0.

(** [bytes.get(start..end)]. *)
Definition slice_get (s : slice) (start stop : Z) : option slice :=
  if (start <=? stop) && (stop <=? sl_len s)
  then Some (mkSlice (sl_addr s + start)
         (take (Z.to_nat (stop - start)) (drop (Z.to_nat start) (sl_bytes s))))
  else None.

Record ByteCursor := mkByteCursor { cur_bytes : slice; offset : Z }.

(** A method of the cursor; its state is lost with the first [None], because
    every caller returns then. *)
Definition fetch (A : Type) : Type := ByteCursor -> option (A * ByteCursor).
#[global] Instance fetch_mret : MRet fetch := λ A a c, Some (a, c).
#[global] Instance fetch_mbind : MBind fetch := λ A B k m c,
  match m c with Some (a, c) => k a c | None => None end.
Definition read_fail {A} : fetch A := λ _, None.
Definition read_lift {A} (o : option A) : fetch A := λ c, (λ a, (a, c)) <$> o.
Definition read_guard (p : ByteCursor -> bool) : fetch unit := λ c, if p c then Some (tt, c) else None.

Definition cursor_new (bytes : slice) : ByteCursor := mkByteCursor bytes 0.
Definition is_finished (c : ByteCursor) : bool := offset c =? sl_len (cur_bytes c).

Definition read_bytes (len : Z) : fetch slice := λ c,
  stop ← checked_add_u64 (offset c) len;
  bytes ← slice_get (cur_bytes c) (offset c) stop;
  Some (bytes, mkByteCursor (cur_bytes c) stop).

(** [read_u16], [read_u32] and [read_u64]. *)
Definition read_uint (size : Z) : fetch Z :=
  bytes ← read_bytes size; mret (word_from_bytes (sl_bytes bytes)).
Definition read_u16 : fetch Z := read_uint 2.
Definition read_u32 : fetch Z := read_uint 4.
Definition read_u64 : fetch Z := read_uint 8.

Definition checked_mul_u64 (a b : Z) : option Z := if a * b <=? u64_max then Some (a * b) else None.

Definition read_u64_slice (len : Z) : fetch slice :=
  byte_len ← read_lift (checked_mul_u64 len 8);
  bytes ← read_bytes byte_len;
  if is_u64_aligned bytes then mret bytes else read_fail.

(** The values of a [&[u64]]. *)
Fixpoint u64_chunks (count : nat) (bytes : list Z) : list Z :=
  match count with
  | O => []
  | S count => word_from_bytes (take 8 bytes) :: u64_chunks count (drop 8 bytes)
  end.
Definition u64_values (s : slice) : list Z := u64_chunks (length (sl_bytes s) / 8) (sl_bytes s).

(** ** Record headers *)

Record PerfRecordHeader := mkHeader { record_type : Z; misc : Z; header_size : Z }.

Definition read_record_header : fetch PerfRecordHeader :=
  record_type ← read_u32;
  misc ← read_u16;
  size ← read_u16;
  mret (mkHeader record_type misc size).

Definition header_is_sample (h : PerfRecordHeader) : bool := record_type h =? PERF_RECORD_SAMPLE.
Definition matches_len (h : PerfRecordHeader) (bytes : slice) : bool := header_size h =? sl_len bytes.

Definition header_from_bytes (bytes : slice) : option PerfRecordHeader :=
  fst <$> read_record_header (cursor_new bytes).

Definition read_sample_header : fetch PerfRecordHeader :=
  header ← read_record_header;
  read_guard (λ c, header_is_sample header && matches_len header (cur_bytes c));;
  mret header.

(** ** Samples *)

(** [Parser] of the perf-event-open crate: the fields the code reads. *)
Record Parser := mkParser { p_sample_type : Z; p_user_regs : Z }.

Record SampleRecordRef := mkSample {
  s_task : option (Z * Z);
  s_time : option Z;
  s_code_addr : option (Z * bool);
  s_user_regs : option slice;
  s_user_stack : option slice;
  s_call_chain : option slice;
}.

Definition has_sample (sample_type flag : Z) : bool := negb (Z.land sample_type flag =? 0).

Definition REQUIRED_SAMPLE_TYPE : Z :=
  Z.lor (Z.lor PERF_SAMPLE_IP PERF_SAMPLE_TID) PERF_SAMPLE_TIME.
Definition SUPPORTED_SAMPLE_TYPE : Z :=
  Z.lor (Z.lor (Z.lor REQUIRED_SAMPLE_TYPE PERF_SAMPLE_CALLCHAIN) PERF_SAMPLE_REGS_USER)
    PERF_SAMPLE_STACK_USER.

Definition sample_type_supported (sample_type : Z) : bool :=
  (Z.land sample_type REQUIRED_SAMPLE_TYPE =? REQUIRED_SAMPLE_TYPE)
  && (Z.ldiff sample_type SUPPORTED_SAMPLE_TYPE =? 0).

Definition parse_common_sample_fields (sample_type misc : Z) (s : SampleRecordRef)
    : fetch SampleRecordRef :=
  code_addr ← (if has_sample sample_type PERF_SAMPLE_IP
               then ip ← read_u64;
                    mret (Some (ip, negb (Z.land misc PERF_RECORD_MISC_EXACT_IP =? 0)))
               else mret (s_code_addr s));
  task ← (if has_sample sample_type PERF_SAMPLE_TID
          then pid ← read_u32; tid ← read_u32; mret (Some (pid, tid))
          else mret (s_task s));
  time ← (if has_sample sample_type PERF_SAMPLE_TIME
          then time ← read_u64; mret (Some time)
          else mret (s_time s));
  mret (mkSample task time code_addr (s_user_regs s) (s_user_stack s) (s_call_chain s)).

Definition set_user_regs (regs : slice) (s : SampleRecordRef) : SampleRecordRef :=
  mkSample (s_task s) (s_time s) (s_code_addr s) (Some regs) (s_user_stack s) (s_call_chain s).
Definition set_user_stack (stack : slice) (s : SampleRecordRef) : SampleRecordRef :=
  mkSample (s_task s) (s_time s) (s_code_addr s) (s_user_regs s) (Some stack) (s_call_chain s).
Definition set_call_chain (chain : slice) (s : SampleRecordRef) : SampleRecordRef :=
  mkSample (s_task s) (s_time s) (s_code_addr s) (s_user_regs s) (s_user_stack s) (Some chain).

(** The ABI word is truncated to [u32]. *)
Definition parse_user_regs_sample (sample_type : Z) (parser : Parser) (s : SampleRecordRef)
    : fetch SampleRecordRef :=
  if has_sample sample_type PERF_SAMPLE_REGS_USER then
    word ← read_u64;
    let abi := word mod 4294967296 in
    if abi =? PERF_SAMPLE_REGS_ABI_NONE then mret s
    else if negb ((abi =? PERF_SAMPLE_REGS_ABI_32) || (abi =? PERF_SAMPLE_REGS_ABI_64)) then read_fail
    else
      regs ← read_u64_slice (p_user_regs parser);
      mret (if abi =? PERF_SAMPLE_REGS_ABI_64 then set_user_regs regs s else s)
  else mret s.

Definition parse_user_stack_sample (sample_type : Z) (s : SampleRecordRef) : fetch SampleRecordRef :=
  if has_sample sample_type PERF_SAMPLE_STACK_USER then
    len ← read_u64;
    bytes ← read_bytes len;
    dyn_len ← (if len =? 0 then mret 0 else read_u64);
    if len <? dyn_len then read_fail
    else
      stack ← read_lift (slice_get bytes 0 dyn_len);
      mret (set_user_stack stack s)
  else mret s.

Definition parse_stack_sample_fields (sample_type : Z) (parser : Parser) (s : SampleRecordRef)
    : fetch SampleRecordRef :=
  s ← (if has_sample sample_type PERF_SAMPLE_CALLCHAIN
       then len ← read_u64;
            addresses ← read_u64_slice len;
            mret (set_call_chain addresses s)
       else mret s);
  s ← parse_user_regs_sample sample_type parser s;
  parse_user_stack_sample sample_type s.

Definition priv_from_misc (misc : Z) : Priv :=
  match Z.land misc PERF_RECORD_MISC_CPUMODE_MASK with
  | 1 => PrivKernel
  | 2 => PrivUser
  | 3 => PrivHv
  | 4 => PrivGuestKernel
  | 5 => PrivGuestUser
  | _ => PrivUnknown
  end.

Definition parse_sample_record (bytes : slice) (parser : Parser) : option (Priv * SampleRecordRef) :=
  if negb (is_u64_aligned bytes) then None
  else
    '(header, c) ← read_sample_header (cursor_new bytes);
    if negb (sample_type_supported (p_sample_type parser)) then None
    else
      '(s, c) ← parse_common_sample_fields (p_sample_type parser) (misc header)
                  (mkSample None None None None None None) c;
      '(s, c) ← parse_stack_sample_fields (p_sample_type parser) parser s c;
      if negb (is_finished c) then None else Some (priv_from_misc (misc header), s).

(** ** What a sample keeps of its record *)

Record SampleRecordLayout := mkLayout {
  l_user_regs : option (Z * Z);
  l_user_stack : option (Z * Z);
  l_call_chain : option (Z * Z);
}.

Definition slice_byte_range (bytes s : slice) : option (Z * Z) :=
  start ← checked_sub_u64 (sl_addr s) (sl_addr bytes);
  stop ← checked_add_u64 start (sl_len s);
  _ ← slice_get bytes start stop;
  Some (start, stop).

(** [match slice { Some(slice) => Some(f(slice)?), None => None }]. *)
Definition opt_map {A B} (f : A -> option B) (o : option A) : option (option B) :=
  match o with
  | Some a => Some <$> f a
  | None => Some None
  end.

Definition from_sample (bytes : slice) (s : SampleRecordRef) : option SampleRecordLayout :=
  user_regs ← opt_map (slice_byte_range bytes) (s_user_regs s);
  user_stack ← opt_map (slice_byte_range bytes) (s_user_stack s);
  call_chain ← opt_map (slice_byte_range bytes) (s_call_chain s);
  Some (mkLayout user_regs user_stack call_chain).

Definition range_end (r : option (Z * Z)) : Z := match r with Some (_, stop) => stop | None => 0 end.

(** [SampleRecordLayout::end]. *)
Definition layout_end (l : SampleRecordLayout) : Z :=
  Z.max (range_end (l_user_regs l)) (Z.max (range_end (l_user_stack l)) (range_end (l_call_chain l))).

Definition u64_slice (bytes : slice) : option slice :=
  if negb (is_u64_aligned bytes) || negb (sl_len bytes mod 8 =? 0) then None else Some bytes.

Record RingSampleRef := mkRingSample {
  r_user_regs : option slice;
  r_user_stack : option slice;
  r_call_chain : option slice;
}.

(** [SampleRecordLayout::sample]. *)
Definition layout_sample (l : SampleRecordLayout) (bytes : slice) : option RingSampleRef :=
  user_regs ← opt_map (λ r, slice_get bytes r.1 r.2 ≫= u64_slice) (l_user_regs l);
  user_stack ← opt_map (λ r, slice_get bytes r.1 r.2) (l_user_stack l);
  call_chain ← opt_map (λ r, slice_get bytes r.1 r.2 ≫= u64_slice) (l_call_chain l);
  Some (mkRingSample user_regs user_stack call_chain).

(** ** Call chains *)

Definition is_callchain_marker (address : Z) : bool :=
  (address + 4095) mod 18446744073709551616 <? 4095.

Inductive CallChainEntry :=
  | EntryUser (addresses : list Z)
  | EntryKernel (addresses : list Z)
  | EntryHv (addresses : list Z)
  | EntryGuest (addresses : list Z)
  | EntryGuestUser (addresses : list Z)
  | EntryGuestKernel (addresses : list Z)
  | EntryUnknown (addresses : list Z).

Definition chain_entry (marker : Z) (addresses : list Z) : CallChainEntry :=
  if marker =? context_marker 512 then EntryUser addresses
  else if marker =? context_marker 128 then EntryKernel addresses
  else if marker =? context_marker 32 then EntryHv addresses
  else if marker =? context_marker 2048 then EntryGuest addresses
  else if marker =? context_marker 2560 then EntryGuestUser addresses
  else if marker =? context_marker 2176 then EntryGuestKernel addresses
  else EntryUnknown addresses.

(** The [while] of [CallChainIter::next], from [cursor]. *)
Fixpoint chain_run (addresses : list Z) : nat :=
  match addresses with
  | address :: rest => if is_callchain_marker address then O else S (chain_run rest)
  | [] => O
  end.

Definition chain_next (addresses : list Z) (cursor : nat) : option (CallChainEntry * nat) :=
  marker ← addresses !! cursor;
  let start := S cursor in
  let stop := (start + chain_run (drop start addresses))%nat in
  Some (chain_entry marker (take (stop - start) (drop start addresses)), stop).

(** Collecting a [SampleCallChainIter::Borrowed]. *)
Definition entry_mode (e : CallChainEntry) : StackMode * list Z :=
  match e with
  | EntryKernel a | EntryHv a | EntryGuestKernel a => (KernelMode, a)
  | EntryUser a | EntryGuest a | EntryGuestUser a | EntryUnknown a => (UserMode, a)
  end.

(** [push_sample_callchain] over a borrowed chain; [None] is a loop that is cut off. *)
Fixpoint push_sample_callchain (fuel : nat) (addresses : list Z) (cursor : nat) (stack : list StackFrame)
    : option (list StackFrame) :=
  match fuel with
  | O => None
  | S fuel =>
      match chain_next addresses cursor with
      | None => Some stack
      | Some (entry, cursor) =>
          let '(mode, chunk) := entry_mode entry in
          push_sample_callchain fuel addresses cursor (push_callchain_addresses mode chunk stack)
      end
  end.
