(* ===== verification/SampleRecords.v ===== *)
(** * What the sample parser reads

    The record the kernel writes for a sample, field by field in the order of
    the perf ABI, is parsed back to its fields; a layout kept from any parsed
    record reads the same registers, stack and call chain from every aligned
    buffer that starts with the same bytes; and call chains become stack frames
    segment by segment. *)

From stdpp Require Import prelude list numbers.
From S2P Require Import Prelude Session SampleStack PerfSample.
#[local] Open Scope Z_scope.

(** ** The kernel's record *)

Fixpoint le_bytes (size : nat) (value : Z) : list Z :=
  match size with
  | O => []
  | S size => value mod 256 :: le_bytes size (value / 256)
  end.

Definition le_words (words : list Z) : list Z := concat (le_bytes 8 <$> words).

(** [PerfRecordLayout] and its [parser]. *)
Record PerfRecordLayout := mkRecordLayout {
  callchain : bool;
  user_regs_mask : Z;
  user_stack_size : Z;
}.

Fixpoint count_ones (bits : nat) (mask : Z) : Z :=
  match bits with
  | O => 0
  | S bits => mask mod 2 + count_ones bits (mask / 2)
  end.

Definition sample_type_bits (include_callchain include_user_regs include_user_stack : bool) : Z :=
  let sample_type := Z.lor (Z.lor PERF_SAMPLE_IP PERF_SAMPLE_TID) PERF_SAMPLE_TIME in
  let sample_type := if include_callchain then Z.lor sample_type PERF_SAMPLE_CALLCHAIN else sample_type in
  let sample_type := if include_user_regs then Z.lor sample_type PERF_SAMPLE_REGS_USER else sample_type in
  if include_user_stack then Z.lor sample_type PERF_SAMPLE_STACK_USER else sample_type.

Definition layout_parser (l : PerfRecordLayout) : Parser :=
  mkParser
    (sample_type_bits (callchain l) (negb (user_regs_mask l =? 0)) (negb (user_stack_size l =? 0)))
    (count_ones 64 (user_regs_mask l)).

(** The values of a sample, as [perf_event_open] documents them. *)
Record kernel_sample := mkKernelSample {
  k_misc : Z;
  k_ip : Z;
  k_pid : Z;
  k_tid : Z;
  k_time : Z;
  k_chain : list Z;
  k_abi : Z;
  k_regs : list Z;
  k_stack : list Z;
  k_dyn_size : Z;
}.

Definition chain_field (l : PerfRecordLayout) (s : kernel_sample) : list Z :=
  if callchain l then le_bytes 8 (Z.of_nat (length (k_chain s))) ++ le_words (k_chain s) else [].
Definition regs_field (l : PerfRecordLayout) (s : kernel_sample) : list Z :=
  if user_regs_mask l =? 0 then []
  else le_bytes 8 (k_abi s) ++ (if k_abi s =? PERF_SAMPLE_REGS_ABI_NONE then [] else le_words (k_regs s)).
Definition stack_field (l : PerfRecordLayout) (s : kernel_sample) : list Z :=
  if user_stack_size l =? 0 then []
  else le_bytes 8 (Z.of_nat (length (k_stack s))) ++ k_stack s ++
       (if Z.of_nat (length (k_stack s)) =? 0 then [] else le_bytes 8 (k_dyn_size s)).

Definition sample_body (l : PerfRecordLayout) (s : kernel_sample) : list Z :=
  le_bytes 8 (k_ip s) ++ (le_bytes 4 (k_pid s) ++ le_bytes 4 (k_tid s)) ++ le_bytes 8 (k_time s) ++
  chain_field l s ++ regs_field l s ++ stack_field l s.

Definition record_size (l : PerfRecordLayout) (s : kernel_sample) : Z :=
  8 + Z.of_nat (length (sample_body l s)).

Definition kernel_record (l : PerfRecordLayout) (s : kernel_sample) : list Z :=
  (le_bytes 4 PERF_RECORD_SAMPLE ++ le_bytes 2 (k_misc s) ++ le_bytes 2 (record_size l s)) ++
  sample_body l s.

Record kernel_sample_ok (l : PerfRecordLayout) (s : kernel_sample) : Prop := {
  ks_misc : is_u16 (k_misc s);
  ks_ip : is_u64 (k_ip s);
  ks_pid : is_u32 (k_pid s);
  ks_tid : is_u32 (k_tid s);
  ks_time : is_u64 (k_time s);
  ks_chain : Forall is_u64 (k_chain s);
  ks_abi : k_abi s = PERF_SAMPLE_REGS_ABI_NONE \/ k_abi s = PERF_SAMPLE_REGS_ABI_32 \/
    k_abi s = PERF_SAMPLE_REGS_ABI_64;
  ks_regs : Forall is_u64 (k_regs s);
  ks_count : Z.of_nat (length (k_regs s)) = count_ones 64 (user_regs_mask l);
  ks_stack : Forall is_byte (k_stack s);
  ks_dyn : 0 <= k_dyn_size s <= Z.of_nat (length (k_stack s));
  ks_size : record_size l s <= u16_max;
}.

(** ** Words *)

Lemma le_bytes_length n v : length (le_bytes n v) = n.
Proof. revert v. induction n as [|n IH]; intros v; cbn; [done|]. by rewrite IH. Qed.

Lemma word_le_bytes n v : 0 <= v < 256 ^ Z.of_nat n -> word_from_bytes (le_bytes n v) = v.
Proof.
  revert v. induction n as [|n IH]; intros v Hv; cbn [le_bytes word_from_bytes]; [cbn in Hv; lia|].
  rewrite IH; [pose proof (Z.div_mod v 256); lia|].
  replace (Z.of_nat (S n)) with (1 + Z.of_nat n) in Hv by lia. rewrite Z.pow_add_r in Hv by lia.
  split; [apply Z.div_pos; lia|]. apply Z.div_lt_upper_bound; lia.
Qed.

Lemma le_words_length ws : length (le_words ws) = (8 * length ws)%nat.
Proof. unfold le_words. induction ws as [|w ws IH]; cbn [fmap list_fmap concat length]; [done|]. rewrite length_app, le_bytes_length, IH. lia. Qed.

Lemma u64_values_words a ws : Forall is_u64 ws -> u64_values (mkSlice a (le_words ws)) = ws.
Proof.
  intros Hws. unfold u64_values. cbn [sl_bytes]. rewrite le_words_length, Nat.mul_comm, Nat.div_mul by done.
  induction Hws as [|w ws Hw Hws IH]; [done|]. unfold le_words. cbn [fmap list_fmap concat length u64_chunks].
  rewrite take_app_length', drop_app_length' by (by rewrite le_bytes_length). f_equal; [|done].
  apply word_le_bytes. word_lia.
Qed.

Lemma le_bytes_bytes n v : Forall is_byte (le_bytes n v).
Proof.
  revert v. induction n as [|n IH]; intros v; cbn; constructor; [|done].
  pose proof (Z.mod_pos_bound v 256). word_lia.
Qed.

Lemma le_words_bytes ws : Forall is_byte (le_words ws).
Proof.
  unfold le_words. induction ws as [|w ws IH]; cbn [fmap list_fmap concat]; [constructor|].
  apply Forall_app. by split; [apply le_bytes_bytes|].
Qed.

Lemma kernel_record_bytes l s : kernel_sample_ok l s -> Forall is_byte (kernel_record l s).
Proof.
  intros Hok. pose proof (ks_stack _ _ Hok). unfold kernel_record, sample_body, chain_field, regs_field, stack_field.
  rewrite !Forall_app. split_and!; try apply le_bytes_bytes;
    repeat (case_match; rewrite ?Forall_app; split_and?); try apply le_bytes_bytes; try apply le_words_bytes; done.
Qed.

(** ** Layouts *)

Lemma has_common l flag :
  flag = PERF_SAMPLE_IP \/ flag = PERF_SAMPLE_TID \/ flag = PERF_SAMPLE_TIME ->
  has_sample (p_sample_type (layout_parser l)) flag = true.
Proof.
  intros [->|[->| ->]]; cbn [layout_parser p_sample_type];
    by destruct (callchain l), (user_regs_mask l =? 0), (user_stack_size l =? 0).
Qed.

Lemma has_chain l : has_sample (p_sample_type (layout_parser l)) PERF_SAMPLE_CALLCHAIN = callchain l.
Proof. cbn. by destruct (callchain l), (user_regs_mask l =? 0), (user_stack_size l =? 0). Qed.
Lemma has_regs l : has_sample (p_sample_type (layout_parser l)) PERF_SAMPLE_REGS_USER = negb (user_regs_mask l =? 0).
Proof. cbn. by destruct (callchain l), (user_regs_mask l =? 0), (user_stack_size l =? 0). Qed.
Lemma has_stack l : has_sample (p_sample_type (layout_parser l)) PERF_SAMPLE_STACK_USER = negb (user_stack_size l =? 0).
Proof. cbn. by destruct (callchain l), (user_regs_mask l =? 0), (user_stack_size l =? 0). Qed.
Lemma layout_supported l : sample_type_supported (p_sample_type (layout_parser l)) = true.
Proof. cbn. by destruct (callchain l), (user_regs_mask l =? 0), (user_stack_size l =? 0). Qed.

Lemma field_bounds l s : kernel_sample_ok l s ->
  Z.of_nat (length (chain_field l s)) <= u16_max /\ Z.of_nat (length (regs_field l s)) <= u16_max /\
  Z.of_nat (length (stack_field l s)) <= u16_max.
Proof.
  intros Hok. pose proof (ks_size _ _ Hok) as Hs. unfold record_size, sample_body in Hs.
  rewrite !length_app in Hs. lia.
Qed.

Definition words_long (l : list Z) : Prop := exists n, length l = (8 * n)%nat.
Lemma words_long_app x y : words_long x -> words_long y -> words_long (x ++ y).
Proof. intros [n Hn] [m Hm]. exists (n + m)%nat. rewrite length_app. lia. Qed.

(** ** The cursor on a known record *)

Section fetching.
Context (b : slice).
Hypothesis Hlen : sl_len b <= u64_max.
Hypothesis Halign : is_u64_aligned b = true.

(** After [pre], on the bytes [x], [m] returns [a] and stops behind them. *)
Definition fetches {A} (pre : list Z) (m : fetch A) (x : list Z) (a : A) : Prop :=
  forall rest, sl_bytes b = pre ++ x ++ rest ->
    m (mkByteCursor b (Z.of_nat (length pre))) = Some (a, mkByteCursor b (Z.of_nat (length (pre ++ x)))).

Lemma fetches_ret {A} pre (a : A) : fetches pre (mret a) [] a.
Proof. intros rest _. by rewrite app_nil_r. Qed.

Lemma fetches_bind {A B} pre (m : fetch A) (k : A -> fetch B) x y a c :
  fetches pre m x a -> fetches (pre ++ x) (k a) y c -> fetches pre (m ≫= k) (x ++ y) c.
Proof.
  intros Hm Hk rest Hb. unfold mbind, fetch_mbind. rewrite <-(assoc_L (++)) in Hb.
  rewrite (Hm _ Hb). rewrite (Hk rest) by (by rewrite Hb, <-(assoc_L (++))). by rewrite <-(assoc_L (++)).
Qed.

Lemma fetches_bind_ret {A B} pre (m : fetch A) (k : A -> B) x a :
  fetches pre m x a -> fetches pre (a ← m; mret (k a)) x (k a).
Proof.
  intros Hm. rewrite <-(app_nil_r x) at 1. eapply fetches_bind; [done|].
  intros rest _. by rewrite app_nil_r.
Qed.

Lemma fetches_bytes pre x :
  fetches pre (read_bytes (Z.of_nat (length x))) x (mkSlice (sl_addr b + Z.of_nat (length pre)) x).
Proof.
  intros rest Hb. unfold read_bytes, checked_add_u64, slice_get. cbn [offset cur_bytes].
  unfold sl_len in *. rewrite Hb, !length_app in *.
  destruct (Z.leb_spec (Z.of_nat (length pre) + Z.of_nat (length x)) u64_max); [|lia]. cbn [mbind option_bind].
  destruct (Z.leb_spec (Z.of_nat (length pre)) (Z.of_nat (length pre) + Z.of_nat (length x))); [|lia].
  destruct (Z.leb_spec (Z.of_nat (length pre) + Z.of_nat (length x)) (Z.of_nat (length pre + (length x + length rest)))); [|lia].
  cbn [andb mbind option_bind]. rewrite Nat2Z.id, drop_app_length.
  rewrite take_app_length' by lia. do 4 f_equal. lia.
Qed.

Lemma fetches_uint pre n v :
  0 <= v < 256 ^ Z.of_nat n -> fetches pre (read_uint (Z.of_nat n)) (le_bytes n v) v.
Proof.
  intros Hv. unfold read_uint. rewrite <-(word_le_bytes n v Hv) at 2.
  pose proof (fetches_bytes pre (le_bytes n v)) as Hf. rewrite le_bytes_length in Hf.
  exact (fetches_bind_ret _ _ (λ bytes, word_from_bytes (sl_bytes bytes)) _ _ Hf).
Qed.

Lemma fetches_u64 pre v : is_u64 v -> fetches pre read_u64 (le_bytes 8 v) v.
Proof. intros Hv. apply (fetches_uint pre 8). word_lia. Qed.
Lemma fetches_u32 pre v : is_u32 v -> fetches pre read_u32 (le_bytes 4 v) v.
Proof. intros Hv. apply (fetches_uint pre 4). word_lia. Qed.
Lemma fetches_u16 pre v : is_u16 v -> fetches pre read_u16 (le_bytes 2 v) v.
Proof. intros Hv. apply (fetches_uint pre 2). word_lia. Qed.

Lemma fetches_words pre ws :
  words_long pre -> Z.of_nat (8 * length ws) <= u64_max ->
  fetches pre (read_u64_slice (Z.of_nat (length ws))) (le_words ws)
    (mkSlice (sl_addr b + Z.of_nat (length pre)) (le_words ws)).
Proof.
  intros [n Hpre] Hws. pose proof (fetches_bytes pre (le_words ws)) as Hf.
  rewrite le_words_length in Hf. intros rest Hb. specialize (Hf rest Hb).
  unfold read_u64_slice, checked_mul_u64. destruct (Z.leb_spec (Z.of_nat (length ws) * 8) u64_max); [|lia].
  unfold read_lift, mbind, fetch_mbind. cbn [fmap option_fmap option_map].
  replace (Z.of_nat (length ws) * 8) with (Z.of_nat (8 * length ws)) by lia. rewrite Hf.
  assert (is_u64_aligned (mkSlice (sl_addr b + Z.of_nat (length pre)) (le_words ws)) = true) as ->; [|done].
  unfold is_u64_aligned in *. cbn [sl_addr]. apply Z.eqb_eq in Halign. apply Z.eqb_eq.
  replace (Z.of_nat (length pre)) with (Z.of_nat n * 8) by lia. by rewrite Z_mod_plus_full.
Qed.

(** ** Fields *)

Lemma fetches_common pre l s smp :
  kernel_sample_ok l s ->
  fetches pre (parse_common_sample_fields (p_sample_type (layout_parser l)) (k_misc s) smp)
    (le_bytes 8 (k_ip s) ++ (le_bytes 4 (k_pid s) ++ le_bytes 4 (k_tid s)) ++ le_bytes 8 (k_time s))
    (mkSample (Some (k_pid s, k_tid s)) (Some (k_time s))
       (Some (k_ip s, negb (Z.land (k_misc s) PERF_RECORD_MISC_EXACT_IP =? 0)))
       (s_user_regs smp) (s_user_stack smp) (s_call_chain smp)).
Proof.
  intros Hok. unfold parse_common_sample_fields.
  rewrite (has_common l PERF_SAMPLE_IP), (has_common l PERF_SAMPLE_TID), (has_common l PERF_SAMPLE_TIME) by auto.
  eapply fetches_bind; [apply (fetches_bind_ret _ _ (λ ip, Some (ip, _))), fetches_u64, Hok|].
  eapply fetches_bind.
  { eapply fetches_bind; [apply fetches_u32, Hok|]. apply (fetches_bind_ret _ _ (λ tid, Some (_, tid))), fetches_u32, Hok. }
  apply (fetches_bind_ret _ _ (λ time, mkSample _ time _ _ _ _)).
  apply (fetches_bind_ret _ _ Some), fetches_u64, Hok.
Qed.

Definition with_chain (l : PerfRecordLayout) (pre : list Z) (s : kernel_sample) (smp : SampleRecordRef) :=
  if callchain l
  then set_call_chain (mkSlice (sl_addr b + Z.of_nat (length pre + 8)) (le_words (k_chain s))) smp
  else smp.

Lemma fetches_chain pre l s smp :
  words_long pre -> kernel_sample_ok l s ->
  fetches pre
    (if has_sample (p_sample_type (layout_parser l)) PERF_SAMPLE_CALLCHAIN
     then len ← read_u64; addresses ← read_u64_slice len; mret (set_call_chain addresses smp)
     else mret smp)
    (chain_field l s) (with_chain l pre s smp).
Proof.
  intros Hpre Hok. pose proof (field_bounds _ _ Hok) as (Hc & _). rewrite has_chain.
  unfold chain_field, with_chain in *. destruct (callchain l); [|apply fetches_ret].
  rewrite length_app, le_words_length in Hc.
  eapply fetches_bind; [apply fetches_u64; word_lia|].
  apply (fetches_bind_ret _ _ (λ a, set_call_chain a smp)).
  pose proof (fetches_words (pre ++ le_bytes 8 (Z.of_nat (length (k_chain s)))) (k_chain s)) as Hf.
  rewrite length_app, le_bytes_length in Hf. apply Hf; [|word_lia].
  by apply words_long_app; [|exists 1%nat; rewrite le_bytes_length].
Qed.

Definition with_regs (l : PerfRecordLayout) (pre : list Z) (s : kernel_sample) (smp : SampleRecordRef) :=
  if negb (user_regs_mask l =? 0) && (k_abi s =? PERF_SAMPLE_REGS_ABI_64)
  then set_user_regs (mkSlice (sl_addr b + Z.of_nat (length pre + 8)) (le_words (k_regs s))) smp
  else smp.

Lemma fetches_regs pre l s smp :
  words_long pre -> kernel_sample_ok l s ->
  fetches pre (parse_user_regs_sample (p_sample_type (layout_parser l)) (layout_parser l) smp)
    (regs_field l s) (with_regs l pre s smp).
Proof.
  intros Hpre Hok. pose proof (field_bounds _ _ Hok) as (_ & Hc & _).
  unfold parse_user_regs_sample. rewrite has_regs. cbn [p_user_regs layout_parser].
  unfold regs_field, with_regs in *. destruct (Z.eqb_spec (user_regs_mask l) 0) as [|Hm]; [apply fetches_ret|].
  cbn [negb andb]. rewrite <-(ks_count _ _ Hok).
  assert (is_u64 (k_abi s) /\ k_abi s mod 4294967296 = k_abi s) as [Habi Hmod].
  { destruct (ks_abi _ _ Hok) as [->|[->| ->]]; by split; [word_unfold; vm_compute|]. }
  eapply fetches_bind; [by apply fetches_u64|]. rewrite Hmod.
  destruct (Z.eqb_spec (k_abi s) PERF_SAMPLE_REGS_ABI_NONE) as [->|Hne]; [apply fetches_ret|].
  assert ((k_abi s =? PERF_SAMPLE_REGS_ABI_32) || (k_abi s =? PERF_SAMPLE_REGS_ABI_64) = true) as ->.
  { destruct (ks_abi _ _ Hok) as [?|[->| ->]]; done. }
  cbn [negb]. rewrite length_app, le_words_length in Hc.
  pose proof (fetches_words (pre ++ le_bytes 8 (k_abi s)) (k_regs s)) as Hf.
  rewrite length_app, le_bytes_length in Hf.
  apply (fetches_bind_ret _ _ (λ regs, if k_abi s =? PERF_SAMPLE_REGS_ABI_64 then set_user_regs regs smp else smp)), Hf; [|word_lia].
  by apply words_long_app; [|exists 1%nat; rewrite le_bytes_length].
Qed.

Definition with_stack (l : PerfRecordLayout) (pre : list Z) (s : kernel_sample) (smp : SampleRecordRef) :=
  if negb (user_stack_size l =? 0)
  then set_user_stack (mkSlice (sl_addr b + Z.of_nat (length pre + 8) + 0)
         (take (Z.to_nat (k_dyn_size s)) (k_stack s))) smp
  else smp.

Lemma fetches_stack pre l s smp :
  kernel_sample_ok l s ->
  fetches pre (parse_user_stack_sample (p_sample_type (layout_parser l)) smp)
    (stack_field l s) (with_stack l pre s smp).
Proof.
  intros Hok. pose proof (field_bounds _ _ Hok) as (_ & _ & Hc). pose proof (ks_dyn _ _ Hok) as Hdyn.
  unfold parse_user_stack_sample. rewrite has_stack. unfold stack_field, with_stack in *.
  destruct (Z.eqb_spec (user_stack_size l) 0) as [|Hm]; [apply fetches_ret|]. cbn [negb].
  rewrite !length_app in Hc. eapply fetches_bind; [apply fetches_u64; word_lia|].
  eapply fetches_bind; [apply fetches_bytes|].
  rewrite <-(app_nil_r (if _ =? 0 then [] else _)).
  apply (fetches_bind _ _ _ _ _ (k_dyn_size s)).
  { destruct (Z.eqb_spec (Z.of_nat (length (k_stack s))) 0).
    - replace (k_dyn_size s) with 0 by lia. apply fetches_ret.
    - apply fetches_u64. word_lia. }
  destruct (Z.ltb_spec (Z.of_nat (length (k_stack s))) (k_dyn_size s)); [lia|].
  rewrite length_app, le_bytes_length.
  assert (slice_get (mkSlice (sl_addr b + Z.of_nat (length pre + 8)) (k_stack s)) 0 (k_dyn_size s) =
    Some (mkSlice (sl_addr b + Z.of_nat (length pre + 8) + 0) (take (Z.to_nat (k_dyn_size s)) (k_stack s)))) as ->.
  { unfold slice_get, sl_len. cbn [sl_bytes sl_addr]. destruct (Z.leb_spec 0 (k_dyn_size s)); [|lia].
    destruct (Z.leb_spec (k_dyn_size s) (Z.of_nat (length (k_stack s)))); [|lia]. cbn [andb].
    by rewrite Z.sub_0_r. }
  apply fetches_ret.
Qed.

Lemma words_long_chain l s : words_long (chain_field l s).
Proof.
  unfold chain_field. destruct (callchain l); [|by exists 0%nat].
  exists (1 + length (k_chain s))%nat. rewrite length_app, le_bytes_length, le_words_length. lia.
Qed.

Lemma fetches_stack_fields pre l s smp :
  words_long pre -> kernel_sample_ok l s ->
  fetches pre (parse_stack_sample_fields (p_sample_type (layout_parser l)) (layout_parser l) smp)
    (chain_field l s ++ regs_field l s ++ stack_field l s)
    (with_stack l ((pre ++ chain_field l s) ++ regs_field l s) s
      (with_regs l (pre ++ chain_field l s) s (with_chain l pre s smp))).
Proof.
  intros Hpre Hok. unfold parse_stack_sample_fields. eapply fetches_bind; [by apply fetches_chain|].
  eapply fetches_bind; [|by apply fetches_stack].
  apply fetches_regs; [|done]. apply words_long_app; [done|apply words_long_chain].
Qed.
End fetching.

Lemma fetches_sample_header b l s :
  sl_len b <= u64_max -> sl_len b = record_size l s -> kernel_sample_ok l s ->
  fetches b [] read_sample_header
    (le_bytes 4 PERF_RECORD_SAMPLE ++ le_bytes 2 (k_misc s) ++ le_bytes 2 (record_size l s))
    (mkHeader PERF_RECORD_SAMPLE (k_misc s) (record_size l s)).
Proof.
  intros Hlen Hsize Hok. unfold read_sample_header, read_record_header.
  rewrite <-(app_nil_r (_ ++ _)). eapply fetches_bind.
  - eapply fetches_bind; [apply fetches_u32; [done|by vm_compute]|].
    eapply fetches_bind; [by apply fetches_u16; [|apply Hok]|].
    apply (fetches_bind_ret _ _ _ (λ size, mkHeader _ _ size)). apply fetches_u16; [done|].
    pose proof (ks_size _ _ Hok). unfold record_size in *. word_lia.
  - intros rest _. unfold mbind, fetch_mbind, read_guard, header_is_sample, matches_len.
    cbn [record_type header_size cur_bytes]. rewrite Hsize, !Z.eqb_refl. cbn. by rewrite ?app_nil_r.
Qed.

(** A sample record as the kernel lays it out for the options the recorder
    passes to [perf_event_open] is parsed to the values the kernel put in: the
    thread, time and address, the call chain, the registers if they are 64-bit
    ones, and the part of the stack snapshot that was filled in. *)
Lemma sample_record_parses l s addr :
  kernel_sample_ok l s -> addr mod 8 = 0 ->
  exists r, parse_sample_record (mkSlice addr (kernel_record l s)) (layout_parser l) =
      Some (priv_from_misc (k_misc s), r) /\
    s_task r = Some (k_pid s, k_tid s) /\ s_time r = Some (k_time s) /\
    s_code_addr r = Some (k_ip s, negb (Z.land (k_misc s) PERF_RECORD_MISC_EXACT_IP =? 0)) /\
    u64_values <$> s_call_chain r = (if callchain l then Some (k_chain s) else None) /\
    u64_values <$> s_user_regs r =
      (if negb (user_regs_mask l =? 0) && (k_abi s =? PERF_SAMPLE_REGS_ABI_64) then Some (k_regs s) else None) /\
    sl_bytes <$> s_user_stack r =
      (if negb (user_stack_size l =? 0) then Some (take (Z.to_nat (k_dyn_size s)) (k_stack s)) else None).
Proof.
  intros Hok Haddr. set (b := mkSlice addr (kernel_record l s)).
  assert (sl_len b = record_size l s) as Hsize.
  { unfold sl_len, record_size, b, kernel_record. cbn [sl_bytes]. rewrite !length_app, !le_bytes_length. lia. }
  pose proof (ks_size _ _ Hok) as Hmax. assert (sl_len b <= u64_max) as Hlen by word_lia.
  assert (is_u64_aligned b = true) as Hal by (by apply Z.eqb_eq).
  set (hdr := le_bytes 4 PERF_RECORD_SAMPLE ++ le_bytes 2 (k_misc s) ++ le_bytes 2 (record_size l s)).
  set (first := le_bytes 8 (k_ip s) ++ (le_bytes 4 (k_pid s) ++ le_bytes 4 (k_tid s)) ++ le_bytes 8 (k_time s)).
  assert (sl_bytes b = hdr ++ first ++ chain_field l s ++ regs_field l s ++ stack_field l s) as Hb.
  { unfold b, kernel_record, sample_body, first. cbn [sl_bytes]. by rewrite <-!(assoc_L (++)). }
  assert (words_long (hdr ++ first)) as H1 by (exists 4%nat; unfold hdr, first; by rewrite !length_app, !le_bytes_length).
  unfold parse_sample_record. rewrite Hal. cbn [negb].
  pose proof (fetches_sample_header b l s Hlen Hsize Hok _ Hb) as Hh. cbn [length app] in Hh. fold hdr in Hh.
  change (Z.of_nat 0) with 0 in Hh.
  unfold cursor_new. rewrite Hh. cbn [mbind option_bind]. rewrite layout_supported. cbn [negb misc].
  pose proof (fetches_common b Hlen hdr l s (mkSample None None None None None None) Hok _ Hb) as Hc. fold first in Hc.
  rewrite Hc. cbn [mbind option_bind].
  set (common := mkSample _ _ _ _ _ _).
  pose proof (fetches_stack_fields b Hlen Hal _ l s common H1 Hok []) as Hf.
  rewrite app_nil_r in Hf. rewrite Hf by (by rewrite Hb, <-!(assoc_L (++))).
  cbn [mbind option_bind]. unfold is_finished, sl_len. cbn [offset cur_bytes].
  rewrite Hb, <-!(assoc_L (++)), Z.eqb_refl. cbn [negb]. eexists. split; [done|].
  unfold with_stack, with_regs, with_chain.
  destruct (callchain l), (user_regs_mask l =? 0), (k_abi s =? PERF_SAMPLE_REGS_ABI_64), (user_stack_size l =? 0);
    split_and!; try done; cbn [negb andb fmap option_fmap option_map s_call_chain s_user_regs set_user_stack set_user_regs set_call_chain];
    by rewrite u64_values_words by apply Hok.
Qed.

(** ** Layouts kept from a record *)

(** A part of [b]; [words] if its address and length are those of a [&[u64]]. *)
Definition part_of (b s : slice) : Prop := exists start stop, 0 <= start /\ slice_get b start stop = Some s.
Definition words_of (b s : slice) : Prop := part_of b s /\ is_u64_aligned s = true /\ sl_len s mod 8 = 0.

(** What a method of the cursor guarantees about its result. *)
Definition ensures {A} (b : slice) (m : fetch A) (P : A -> Prop) : Prop :=
  forall c a c', cur_bytes c = b -> 0 <= offset c -> m c = Some (a, c') ->
    cur_bytes c' = b /\ 0 <= offset c' /\ P a.

Lemma ensures_ret {A} b (a : A) (P : A -> Prop) : P a -> ensures b (mret a) P.
Proof. intros HP c a' c' Hb Ho [= <- <-]. done. Qed.

Lemma ensures_fail {A} b (P : A -> Prop) : ensures b read_fail P.
Proof. by intros c a c'. Qed.

Lemma ensures_bind {A B} b (m : fetch A) (k : A -> fetch B) (P : A -> Prop) (Q : B -> Prop) :
  ensures b m P -> (forall a, P a -> ensures b (k a) Q) -> ensures b (m ≫= k) Q.
Proof.
  intros Hm Hk c a c' Hb Ho. unfold mbind, fetch_mbind. destruct (m c) as [[x c1]|] eqn:Hx; [|done].
  destruct (Hm _ _ _ Hb Ho Hx) as (Hb1 & Ho1 & HP). by apply Hk.
Qed.

Lemma ensures_bytes b len : 0 <= len -> ensures b (read_bytes len) (λ s, part_of b s /\ sl_len s = len).
Proof.
  intros Hl [cb o] s c' Hb Ho. cbn in Hb, Ho. subst cb. unfold read_bytes, checked_add_u64. cbn [offset cur_bytes].
  destruct (o + len <=? u64_max); [|done]. cbn [mbind option_bind].
  destruct (slice_get b o (o + len)) as [s'|] eqn:Hs; [|done]. cbn. intros [= <- <-]. cbn.
  split; [done|]. split; [lia|]. split; [by exists o, (o + len)|].
  unfold slice_get in Hs. destruct (_ && _) eqn:Hin; [|done]. injection Hs as <-.
  apply andb_true_iff in Hin as [_ Hin%Z.leb_le]. unfold sl_len in *. cbn [sl_bytes].
  rewrite length_take, length_drop. lia.
Qed.

Lemma word_nonneg bs : Forall is_byte bs -> 0 <= word_from_bytes bs.
Proof. induction 1; cbn; [done|]. word_lia. Qed.

Lemma part_bytes b s : part_of b s -> Forall is_byte (sl_bytes b) -> Forall is_byte (sl_bytes s).
Proof.
  intros (st & sp & _ & Hs) Hb. unfold slice_get in Hs. destruct (_ && _); [|done]. injection Hs as <-.
  cbn. by apply Forall_take, Forall_drop.
Qed.

Lemma slice_get_inv b start stop s :
  slice_get b start stop = Some s ->
  start <= stop <= sl_len b /\ sl_addr s = sl_addr b + start /\
  sl_bytes s = take (Z.to_nat (stop - start)) (drop (Z.to_nat start) (sl_bytes b)) /\
  (0 <= start -> sl_len s = stop - start).
Proof.
  unfold slice_get. destruct (_ && _) eqn:Hin; [|done]. intros [= <-].
  apply andb_true_iff in Hin as [?%Z.leb_le ?%Z.leb_le]. cbn [sl_addr sl_bytes].
  split_and!; try done. unfold sl_len in *. cbn [sl_bytes]. intros. rewrite length_take, length_drop. lia.
Qed.

Lemma slice_get_some b start stop :
  start <= stop <= sl_len b ->
  slice_get b start stop =
    Some (mkSlice (sl_addr b + start) (take (Z.to_nat (stop - start)) (drop (Z.to_nat start) (sl_bytes b)))).
Proof.
  intros [H1 H2]. unfold slice_get. by rewrite (proj2 (Z.leb_le _ _) H1), (proj2 (Z.leb_le _ _) H2).
Qed.

Lemma part_of_part b x d y : part_of b x -> slice_get x 0 d = Some y -> part_of b y.
Proof.
  intros (start & stop & H0 & (Hle & Ha & Hb & Hl)%slice_get_inv) (Hle' & Ha' & Hb' & _)%slice_get_inv.
  specialize (Hl H0). exists start, (start + d). split; [done|]. rewrite slice_get_some by lia.
  destruct y as [ya yb]. cbn in *. subst. f_equal. f_equal; [lia|].
  rewrite Hb, drop_0, take_take. f_equal. lia.
Qed.

Section ensuring.
Context (b : slice).
Hypothesis Hbytes : Forall is_byte (sl_bytes b).

Lemma ensures_uint n : 0 <= n -> ensures b (read_uint n) (λ v, 0 <= v).
Proof.
  intros Hn. unfold read_uint. eapply ensures_bind; [by apply ensures_bytes|]. intros s [Hs _].
  apply ensures_ret, word_nonneg. by eapply part_bytes.
Qed.

Lemma ensures_words len : 0 <= len -> ensures b (read_u64_slice len) (words_of b).
Proof.
  intros Hl. unfold read_u64_slice. eapply (ensures_bind _ _ _ (λ n, n = len * 8)).
  { intros c a c' Hb Ho. unfold read_lift, checked_mul_u64. destruct (len * 8 <=? u64_max); [|done].
    cbn. by intros [= <- <-]. }
  intros n ->. eapply ensures_bind; [apply ensures_bytes; lia|]. intros s [Hs Hlen].
  destruct (is_u64_aligned s) eqn:Ha; [|apply ensures_fail]. apply ensures_ret. split; [done|].
  split; [done|]. by rewrite Hlen, Z_mod_mult.
Qed.

(** The slices of a sample lie in its record. *)
Definition sample_inside (s : SampleRecordRef) : Prop :=
  (forall x, s_user_regs s = Some x -> words_of b x) /\
  (forall x, s_user_stack s = Some x -> part_of b x) /\
  (forall x, s_call_chain s = Some x -> words_of b x).

Lemma ensures_common st m s :
  sample_inside s -> ensures b (parse_common_sample_fields st m s) sample_inside.
Proof.
  intros Hs. unfold parse_common_sample_fields.
  assert (forall (f : bool) (o : option (Z * bool)) (g : Z -> option (Z * bool)),
    ensures b (if f then v ← read_u64; mret (g v) else mret o) (λ _, True)) as H1.
  { intros [] o g; [|by apply ensures_ret]. eapply ensures_bind; [apply ensures_uint; lia|]. intros. by apply ensures_ret. }
  eapply ensures_bind; [apply H1|]. intros ca _.
  eapply (ensures_bind _ _ _ (λ _, True)).
  { destruct (has_sample _ _); [|by apply ensures_ret]. eapply ensures_bind; [apply ensures_uint; lia|]. intros ? _.
    eapply ensures_bind; [apply ensures_uint; lia|]. intros. by apply ensures_ret. }
  intros tk _. eapply (ensures_bind _ _ _ (λ _, True)).
  { destruct (has_sample _ _); [|by apply ensures_ret]. eapply ensures_bind; [apply ensures_uint; lia|]. intros. by apply ensures_ret. }
  intros tm _. by apply ensures_ret.
Qed.

Lemma ensures_stack_fields st p s :
  0 <= p_user_regs p -> sample_inside s -> ensures b (parse_stack_sample_fields st p s) sample_inside.
Proof.
  intros Hp Hs. unfold parse_stack_sample_fields. eapply (ensures_bind _ _ _ sample_inside).
  { destruct (has_sample _ _); [|by apply ensures_ret]. eapply ensures_bind; [apply ensures_uint; lia|]. intros n Hn.
    eapply ensures_bind; [by apply ensures_words|]. intros x Hx. apply ensures_ret.
    destruct Hs as (H1 & H2 & H3). split_and!; try done. cbn. by intros ? [= <-]. }
  clear s Hs. intros s Hs. eapply (ensures_bind _ _ _ sample_inside).
  { unfold parse_user_regs_sample. destruct (has_sample _ _); [|by apply ensures_ret].
    eapply ensures_bind; [apply ensures_uint; lia|]. intros n Hn. destruct (_ =? _); [by apply ensures_ret|].
    destruct (negb _); [apply ensures_fail|]. eapply ensures_bind; [by apply ensures_words|]. intros x Hx.
    apply ensures_ret. destruct (_ =? _); [|done]. destruct Hs as (H1 & H2 & H3). split_and!; try done.
    cbn. by intros ? [= <-]. }
  clear s Hs. intros s Hs. unfold parse_user_stack_sample. destruct (has_sample _ _); [|by apply ensures_ret].
  eapply ensures_bind; [apply ensures_uint; lia|]. intros n Hn.
  eapply ensures_bind; [by apply ensures_bytes|]. intros x [Hx Hxl].
  eapply (ensures_bind _ _ _ (λ d, 0 <= d)).
  { destruct (n =? 0); [by apply ensures_ret|apply ensures_uint; lia]. }
  intros d Hd. destruct (n <? d); [apply ensures_fail|].
  eapply (ensures_bind _ _ _ (part_of b)).
  { intros c a c' Hb Ho. unfold read_lift. destruct (slice_get x 0 d) as [y|] eqn:Hy; [|done].
    cbn. intros [= <- <-]. split_and!; [done|done|]. by eapply part_of_part. }
  intros y Hy. apply ensures_ret. destruct Hs as (H1 & H2 & H3). split_and!; try done. cbn. by intros ? [= <-].
Qed.
End ensuring.

(** What the recorder sees of a sample. *)
Definition sample_view (regs stack chain : option slice) : option (list Z) * option (list Z) * option (list Z) :=
  (u64_values <$> regs, sl_bytes <$> stack, u64_values <$> chain).

(** The range of a part, and the same bytes in another buffer. *)
Lemma part_range b x :
  part_of b x -> 0 <= sl_addr b -> sl_addr b + sl_len b <= u64_max ->
  slice_byte_range b x = Some (sl_addr x - sl_addr b, sl_addr x - sl_addr b + sl_len x) /\
  0 <= sl_addr x - sl_addr b /\ 0 <= sl_len x /\ sl_addr x - sl_addr b + sl_len x <= sl_len b.
Proof.
  intros (start & stop & H0 & Hg) Ha Hu. destruct (slice_get_inv _ _ _ _ Hg) as (Hle & Hax & _ & Hl).
  specialize (Hl H0). rewrite Hax. replace (sl_addr b + start - sl_addr b) with start by lia.
  rewrite Hl. split; [|lia]. unfold slice_byte_range, checked_sub_u64, checked_add_u64.
  rewrite Hax, Hl. destruct (Z.leb_spec (sl_addr b) (sl_addr b + start)); [|lia]. cbn [mbind option_bind].
  replace (sl_addr b + start - sl_addr b) with start by lia. replace (start + (stop - start)) with stop by lia.
  destruct (Z.leb_spec stop u64_max); [|lia]. cbn [mbind option_bind]. by rewrite Hg.
Qed.

Lemma part_moved b b' n x :
  part_of b x -> 0 <= n <= sl_len b -> sl_addr x - sl_addr b + sl_len x <= n ->
  take (Z.to_nat n) (sl_bytes b') = take (Z.to_nat n) (sl_bytes b) ->
  exists y, slice_get b' (sl_addr x - sl_addr b) (sl_addr x - sl_addr b + sl_len x) = Some y /\
    sl_bytes y = sl_bytes x /\ sl_addr y = sl_addr b' + (sl_addr x - sl_addr b).
Proof.
  intros (start & stop & H0 & Hg) Hn Hx Ht. destruct (slice_get_inv _ _ _ _ Hg) as (Hle & Hax & Hb & Hl).
  specialize (Hl H0). rewrite Hax, Hl in *. replace (sl_addr b + start - sl_addr b) with start in * by lia.
  replace (start + (stop - start)) with stop in * by lia.
  assert (n <= sl_len b') as Hn'.
  { apply (f_equal length) in Ht. rewrite !length_take in Ht. unfold sl_len in *. lia. }
  rewrite slice_get_some by lia. eexists. split; [done|]. split; [|done]. cbn [sl_bytes]. rewrite Hb.
  assert (forall l : list Z, take (Z.to_nat (stop - start)) (drop (Z.to_nat start) l) =
    take (Z.to_nat (stop - start)) (drop (Z.to_nat start) (take (Z.to_nat n) l))) as Hcut.
  { intros l. rewrite !take_drop_commute, take_take. do 2 f_equal. lia. }
  by rewrite Hcut, Ht, <-Hcut.
Qed.

Lemma words_moved b b' n x :
  words_of b x -> is_u64_aligned b = true -> is_u64_aligned b' = true -> 0 <= n <= sl_len b ->
  sl_addr x - sl_addr b + sl_len x <= n ->
  take (Z.to_nat n) (sl_bytes b') = take (Z.to_nat n) (sl_bytes b) ->
  exists y, slice_get b' (sl_addr x - sl_addr b) (sl_addr x - sl_addr b + sl_len x) ≫= u64_slice = Some y /\
    u64_values y = u64_values x.
Proof.
  intros (Hp & Hax & Hl) Hb Hb' Hn Hx Ht. destruct (part_moved _ _ _ _ Hp Hn Hx Ht) as (y & -> & Hy & Ha).
  exists y. unfold u64_values. rewrite Hy. split; [|done]. cbn [mbind option_bind]. unfold u64_slice.
  unfold is_u64_aligned, sl_len in *. rewrite Hy, Ha, Hl. cbn [Z.eqb negb].
  apply Z.eqb_eq in Hax, Hb, Hb'. assert ((sl_addr b' + (sl_addr x - sl_addr b)) mod 8 = 0) as ->; [|done].
  rewrite Zplus_mod, Zminus_mod, Hax, Hb, Hb'. done.
Qed.

Lemma parse_sample_inside b p priv s :
  Forall is_byte (sl_bytes b) -> 0 <= p_user_regs p -> parse_sample_record b p = Some (priv, s) ->
  is_u64_aligned b = true /\ sample_inside b s.
Proof.
  intros Hb Hp. unfold parse_sample_record. destruct (is_u64_aligned b); [|done]. cbn [negb].
  destruct (read_sample_header _) as [[h c]|] eqn:Hh; [|done]. cbn [mbind option_bind].
  destruct (negb _); [done|].
  assert (ensures b read_sample_header (λ _, True)) as Heh.
  { unfold read_sample_header, read_record_header. eapply (ensures_bind _ _ _ (λ _, True)).
    - do 3 (eapply ensures_bind; [by apply ensures_uint|intros ? _]). by apply ensures_ret.
    - intros hd _ c1 a c1' H1 H2. unfold mbind, fetch_mbind, read_guard. destruct (_ && _); [|done]. by intros [= <- <-]. }
  destruct (Heh (cursor_new b) _ _ eq_refl (Z.le_refl 0) Hh) as (Hc & Ho & _).
  assert (sample_inside b (mkSample None None None None None None)) as Hi0 by (by split_and!; intros ? [=]).
  destruct (parse_common_sample_fields _ _ _ _) as [[s1 c1]|] eqn:H1; [|done]. cbn [mbind option_bind].
  destruct (ensures_common b Hb _ _ _ Hi0 _ _ _ Hc Ho H1) as (Hc1 & Ho1 & Hi1).
  destruct (parse_stack_sample_fields _ _ _ _) as [[s2 c2]|] eqn:H2; [|done]. cbn [mbind option_bind].
  destruct (ensures_stack_fields b Hb _ _ _ Hp Hi1 _ _ _ Hc1 Ho1 H2) as (_ & _ & Hi2).
  destruct (negb _); [done|]. by intros [= _ <-].
Qed.

(** Every record the parser accepts, whatever its bytes, yields a layout
    that lies inside it, and the layout reads the same registers, stack and call
    chain from the record itself and from any aligned buffer that starts with
    the record's first [layout.end()] bytes, which is what a detached sample
    keeps. *)
Lemma layout_reads_same b p priv s :
  Forall is_byte (sl_bytes b) -> 0 <= p_user_regs p ->
  0 <= sl_addr b -> sl_addr b + sl_len b <= u64_max ->
  parse_sample_record b p = Some (priv, s) ->
  exists l, from_sample b s = Some l /\ 0 <= layout_end l <= sl_len b /\
    forall b', is_u64_aligned b' = true ->
      take (Z.to_nat (layout_end l)) (sl_bytes b') = take (Z.to_nat (layout_end l)) (sl_bytes b) ->
      exists r, layout_sample l b' = Some r /\
        sample_view (r_user_regs r) (r_user_stack r) (r_call_chain r) =
        sample_view (s_user_regs s) (s_user_stack s) (s_call_chain s).
Proof.
  intros Hb Hp Ha Hu Hs. apply parse_sample_inside in Hs as (Hal & Hr & Hst & Hc); [|done|done].
  set (range := λ x, (sl_addr x - sl_addr b, sl_addr x - sl_addr b + sl_len x)).
  assert (forall o : option slice, (forall x, o = Some x -> part_of b x) ->
    opt_map (slice_byte_range b) o = Some (range <$> o) /\ 0 <= range_end (range <$> o) <= sl_len b) as Hrange.
  { intros [x|] Ho; cbn; [|split; [done|unfold sl_len; lia]]. destruct (part_range b x (Ho x eq_refl) Ha Hu) as (-> & ?).
    cbn. split; [done|lia]. }
  destruct (Hrange (s_user_regs s)) as [H1 B1]; [by intros x Hx; apply Hr|].
  destruct (Hrange (s_user_stack s)) as [H2 B2]; [done|].
  destruct (Hrange (s_call_chain s)) as [H3 B3]; [by intros x Hx; apply Hc|].
  unfold from_sample. rewrite H1, H2, H3. cbn [mbind option_bind]. eexists. split; [done|].
  unfold layout_end. cbn [l_user_regs l_user_stack l_call_chain].
  set (n := Z.max _ _). assert (0 <= n <= sl_len b) as Hn by lia. split; [done|]. intros b' Hal' Ht.
  assert (forall o : option slice, (forall x, o = Some x -> words_of b x) -> range_end (range <$> o) <= n ->
    exists y, opt_map (λ r, slice_get b' r.1 r.2 ≫= u64_slice) (range <$> o) = Some y /\ u64_values <$> y = u64_values <$> o) as Hw.
  { intros [x|] Ho Hx; cbn [fmap option_fmap option_map opt_map]; [|by exists None]. cbn in Hx.
    destruct (words_moved b b' n x (Ho x eq_refl) Hal Hal' Hn Hx Ht) as (y & Hy & Hv).
    exists (Some y). cbn [range fst snd]. rewrite Hy. split; [done|]. cbn [fmap option_fmap option_map]. by rewrite Hv. }
  destruct (Hw _ Hr ltac:(lia)) as (yr & Hyr & Vr). destruct (Hw _ Hc ltac:(lia)) as (yc & Hyc & Vc).
  assert (exists ys, opt_map (λ r, slice_get b' r.1 r.2) (range <$> s_user_stack s) = Some ys /\
    sl_bytes <$> ys = sl_bytes <$> s_user_stack s) as (ys & Hys & Vs).
  { destruct (s_user_stack s) as [x|]; cbn [fmap option_fmap option_map opt_map]; [|by exists None]. cbn in B2.
    destruct (part_moved b b' n x (Hst x eq_refl) Hn) as (y & Hy & Hv & _); [unfold n; cbn; lia|done|].
    exists (Some y). cbn [range fst snd]. rewrite Hy. split; [done|]. cbn [fmap option_fmap option_map]. by rewrite Hv. }
  unfold layout_sample. cbn [l_user_regs l_user_stack l_call_chain]. rewrite Hyr, Hys, Hyc.
  eexists. split; [done|]. unfold sample_view. cbn. by rewrite Vr, Vs, Vc.
Qed.

(** ** Call chains *)

(** A segment of a chain: a context marker and the addresses that follow it. *)
Definition segment_ok (segment : Z * list Z) : Prop :=
  is_callchain_marker (segment.1) = true /\ Forall (λ a, is_callchain_marker a = false) (segment.2).

Definition flat_chain (segments : list (Z * list Z)) : list Z :=
  concat ((λ segment : Z * list Z, segment.1 :: segment.2) <$> segments).

(** The sampled address first, then return addresses. *)
Definition segment_frames (segment : Z * list Z) : list StackFrame :=
  let '(mode, addresses) := entry_mode (chain_entry segment.1 segment.2) in
  match addresses with
  | [] => []
  | address :: callers => InstructionPointer address mode :: ((λ a, ReturnAddress a mode) <$> callers)
  end.

Lemma chain_run_segment addresses rest :
  Forall (λ a, is_callchain_marker a = false) addresses ->
  (forall a more, rest = a :: more -> is_callchain_marker a = true) ->
  chain_run (addresses ++ rest) = length addresses.
Proof.
  intros Ha Hrest. induction Ha as [|a addresses Ha _ IH]; cbn.
  - destruct rest as [|a more]; [done|]. cbn. by rewrite (Hrest a more).
  - by rewrite Ha, IH.
Qed.

Lemma chain_entry_addresses marker addresses : snd (entry_mode (chain_entry marker addresses)) = addresses.
Proof. unfold chain_entry. by repeat (destruct (_ =? _); [done|]). Qed.

Lemma push_segment segment stack mode chunk :
  entry_mode (chain_entry segment.1 segment.2) = (mode, chunk) ->
  push_callchain_addresses mode chunk stack = stack ++ segment_frames segment.
Proof.
  intros He. unfold push_callchain_addresses, segment_frames. rewrite He.
  f_equal. destruct chunk as [|a callers]; [done|]. cbn [imap]. f_equal.
  clear. unfold compose. induction callers as [|c callers IH]; [done|]. cbn. f_equal.
  by rewrite <-IH at 1.
Qed.

Lemma push_segments segments pre fuel stack :
  Forall segment_ok segments -> (length segments < fuel)%nat ->
  push_sample_callchain fuel (pre ++ flat_chain segments) (length pre) stack =
    Some (stack ++ concat (segment_frames <$> segments)).
Proof.
  intros Hs. revert pre fuel stack. induction Hs as [|[marker addresses] segments [Hm Ha] Hss IH];
    intros pre [|fuel] stack Hf; cbn [length] in Hf; try lia; cbn [push_sample_callchain].
  - unfold flat_chain. cbn. rewrite app_nil_r. unfold chain_next. rewrite lookup_ge_None_2 by done.
    cbn. by rewrite app_nil_r.
  - cbn [fst snd] in *. unfold chain_next.
    assert (pre ++ flat_chain ((marker, addresses) :: segments) =
      (pre ++ marker :: addresses) ++ flat_chain segments) as Hflat
      by (unfold flat_chain; cbn; by rewrite <-(assoc_L (++))).
    assert (drop (S (length pre)) (pre ++ flat_chain ((marker, addresses) :: segments)) =
      addresses ++ flat_chain segments) as Hdrop.
    { rewrite <-Nat.add_1_r, <-drop_drop, drop_app_length. done. }
    assert ((pre ++ flat_chain ((marker, addresses) :: segments)) !! length pre = Some marker) as ->
      by (by apply list_lookup_middle).
    cbn [mbind option_bind].
    rewrite Hdrop, chain_run_segment; [|done|].
    2:{ intros a more Heq. destruct Hss as [|[m' a'] ? [Hm' _]]; [done|]. by injection Heq as <- _. }
    replace (S (length pre) + length addresses - S (length pre))%nat with (length addresses) by lia.
    rewrite take_app_length. destruct (entry_mode _) as [mode chunk] eqn:He.
    rewrite (push_segment (marker, addresses) stack mode chunk He), Hflat.
    replace (S (length pre) + length addresses)%nat with (length (pre ++ marker :: addresses))
      by (rewrite length_app; cbn; lia).
    rewrite IH by lia. cbn. by rewrite <-(assoc_L (++)).
Qed.

(** The iterator of a call chain visits every segment of it once, in order,
    and ends: the frames it yields are those of the segments, the first address
    of each as an instruction pointer and the others as return addresses, in
    kernel mode exactly for kernel and hypervisor segments. *)
Theorem call_chain_yields_every_segment segments :
  Forall segment_ok segments ->
  push_sample_callchain (S (length (flat_chain segments))) (flat_chain segments) 0 [] =
    Some (concat (segment_frames <$> segments)).
Proof.
  intros Hs. apply (push_segments segments []); [done|]. clear Hs.
  unfold flat_chain. induction segments as [|[m a] segments IH]; cbn in *; [lia|].
  rewrite length_app. lia.
Qed.

Lemma call_chain_yields_every_segment_witness :
  push_sample_callchain 6
    (flat_chain [(context_marker 128, [18446744071579172864]); (context_marker 512, [4198400; 4198500])]) 0 [] =
  Some [InstructionPointer 18446744071579172864 KernelMode; InstructionPointer 4198400 UserMode;
        ReturnAddress 4198500 UserMode].
Proof.
  pose proof (call_chain_yields_every_segment
    [(context_marker 128, [18446744071579172864]); (context_marker 512, [4198400; 4198500])]) as Hw.
  apply Hw. repeat (constructor; [split; [reflexivity|repeat (constructor; [reflexivity|]); constructor]|]). constructor.
Defined.
