(* ===== verification/PerfEvents.v ===== *)
(** * Draining perf events

    [EventDrain::next_event] of [src/linux/perf_event.rs] joins the ring and the
    sample parser: a record is taken from the ring, a sample is kept with its
    layout, everything else is parsed by the perf-event-open crate and given
    back at once.  The address of the mapping, the addresses of heap buffers and
    the crate's parser are parameters. *)

From stdpp Require Import prelude gmap list numbers.
From S2P Require Import Prelude Session SampleStack RingBuffer RingUse PerfSample SampleRecords.
#[local] Open Scope Z_scope.

(** ** Records of the crate *)

(** [Option<RecordId>], of which only the time is read. *)
Definition record_id := option (option Z).
Definition record_id_time (id : record_id) : option Z := id ≫= (λ time, time).

(** [Record]: the identifiers, and the times of the records that have one. *)
Inductive Record :=
  | RecordSample (time : option Z)
  | RecordMmap (id : record_id) | RecordRead (id : record_id) | RecordCgroup (id : record_id)
  | RecordKsymbol (id : record_id) | RecordTextPoke (id : record_id) | RecordBpfEvent (id : record_id)
  | RecordCtxSwitch (id : record_id) | RecordNamespaces (id : record_id)
  | RecordItraceStart (id : record_id) | RecordCallChainDeferred (id : record_id)
  | RecordAux (id : record_id) | RecordAuxOutputHwId (id : record_id) | RecordComm (id : record_id)
  | RecordExit (id : record_id) (time : Z) | RecordFork (id : record_id) (time : Z)
  | RecordThrottle (id : record_id) (time : Z) | RecordUnthrottle (id : record_id) (time : Z)
  | RecordLostRecords (id : record_id) | RecordLostSamples (id : record_id)
  | RecordUnknown.

Definition option_or {A} (a b : option A) : option A := match a with Some _ => a | None => b end.

Definition record_timestamp (r : Record) : option Z :=
  match r with
  | RecordSample time => time
  | RecordMmap id | RecordRead id | RecordCgroup id | RecordKsymbol id | RecordTextPoke id
  | RecordBpfEvent id | RecordCtxSwitch id | RecordNamespaces id | RecordItraceStart id
  | RecordCallChainDeferred id | RecordAux id | RecordAuxOutputHwId id | RecordComm id
  | RecordLostRecords id | RecordLostSamples id => record_id_time id
  | RecordExit id time | RecordFork id time | RecordThrottle id time | RecordUnthrottle id time =>
      option_or (record_id_time id) (Some time)
  | RecordUnknown => None
  end.

(** ** Events *)

Record SampleMetadata := mkMetadata {
  md_task : option (Z * Z);
  md_time : option Z;
  md_code_addr : option (Z * bool);
}.

Record RingSample := mkRingSampleHeld { rs_storage : RingSampleStorage; rs_layout : SampleRecordLayout }.

Inductive EventRecord :=
  | EventRingSample (sample : RingSample) (metadata : SampleMetadata)
  | EventOwned (record : Record).

Record EventRef := mkEventRef { ev_privilege : Priv; ev_record : EventRecord; ev_timestamp : option Z }.

Record EventDrain := mkDrain { dr_ring : RingBuffer; dr_end : Z }.

Section drain.
(** The address of the mapping; [Vec<u64>] buffers, by their contents. *)
Context (map_addr : Z) (vec_addr : AlignedBytes -> Z).
(** [unsafe { parser.parse(bytes) }] of the perf-event-open crate. *)
Context (crate_parse : list Z -> Priv * Record).
Context (parser : Parser).

Definition event_drain (ring : RingBuffer) : EventDrain := mkDrain ring (snapshot_head ring).

(** [RingRecord::as_bytes], with the address of the slice. *)
Definition record_slice (m : RingMapping) (r : RingRecordStorage) : option slice :=
  bytes ← record_as_bytes m r;
  Some (mkSlice (match r with
                 | Mapped _ _ offset _ => map_addr + data_offset m + offset
                 | Owned owned => vec_addr owned
                 end) bytes).

Definition parse_aligned_event_record (bytes : slice) : option (Priv * Record) :=
  if negb (is_u64_aligned bytes) then None
  else
    header ← header_from_bytes bytes;
    if negb (matches_len header bytes) then None else Some (crate_parse (sl_bytes bytes)).

Definition parse_event_record_bytes (bytes : slice) : option (Priv * Record) :=
  if is_u64_aligned bytes then parse_aligned_event_record bytes
  else
    let aligned := from_unaligned_bytes (sl_bytes bytes) in
    parse_aligned_event_record (mkSlice (vec_addr aligned) (aligned_as_bytes aligned)).

(** Returning early drops the record. *)
Definition drop_record (record : RingRecordStorage) (ring : RingBuffer) : option RingBuffer :=
  (λ m, mkRing m (read_pos ring)) <$> record_drop record (mapping ring).

Definition next_event : io EventDrain (option EventRef) := λ d,
  match next_record_to (dr_end d) (dr_ring d) with
  | (Err e, ring) => (Err e, mkDrain ring (dr_end d))
  | (Ok None, ring) => (Ok None, mkDrain ring (dr_end d))
  | (Ok (Some record), ring) =>
      let dropped (r : result (option EventRef)) :=
        match drop_record record ring with
        | Some ring => (r, mkDrain ring (dr_end d))
        | None => (Err Panicked, mkDrain ring (dr_end d))
        end in
      match record_slice (mapping ring) record with
      | None => (Err Panicked, mkDrain ring (dr_end d))
      | Some bytes =>
          let sample_header :=
            match header_from_bytes bytes with
            | Some header => header_is_sample header && matches_len header bytes
            | None => false
            end in
          if sample_header && is_u64_aligned bytes then
            match parse_sample_record bytes parser with
            | None => dropped (Err InvalidData)
            | Some (privilege, sample) =>
                match from_sample bytes sample with
                | None => dropped (Err InvalidData)
                | Some layout =>
                    (Ok (Some (mkEventRef privilege
                       (EventRingSample (mkRingSampleHeld (Ring record) layout)
                          (mkMetadata (s_task sample) (s_time sample) (s_code_addr sample)))
                       (s_time sample))),
                     mkDrain ring (dr_end d))
                end
            end
          else
            match parse_event_record_bytes bytes with
            | None => dropped (Err InvalidData)
            | Some (privilege, record') =>
                dropped (Ok (Some (mkEventRef privilege (EventOwned record') (record_timestamp record'))))
            end
      end
  end.
End drain.

(** ** From the kernel to the recorder *)

(** The mapping is page-aligned and [Vec<u64>]s are aligned for [u64]; nothing
    lies across the end of the address space. *)
Record addresses_ok (map_addr : Z) (vec_addr : AlignedBytes -> Z) (m : RingMapping) : Prop := {
  ad_map : 0 <= map_addr /\ (map_addr + data_offset m) mod 8 = 0;
  ad_map_end : map_addr + data_offset m + data_size m <= u64_max;
  ad_vec : forall b, Z.of_nat (length (aligned_as_bytes b)) <= data_size m ->
    0 <= vec_addr b /\ vec_addr b mod 8 = 0 /\
    vec_addr b + Z.of_nat (length (aligned_as_bytes b)) <= u64_max;
}.

(** What the kernel captured of a sample, as far as the layout asks for it. *)
Definition captured_view (l : PerfRecordLayout) (s : kernel_sample)
    : option (list Z) * option (list Z) * option (list Z) :=
  (if negb (user_regs_mask l =? 0) && (k_abi s =? PERF_SAMPLE_REGS_ABI_64) then Some (k_regs s) else None,
   if negb (user_stack_size l =? 0) then Some (take (Z.to_nat (k_dyn_size s)) (k_stack s)) else None,
   if callchain l then Some (k_chain s) else None).

Lemma record_slice_ok map_addr vec_addr m r bytes :
  addresses_ok map_addr vec_addr m -> placed m -> 8 <= data_size m ->
  record_as_bytes m r = Some bytes -> Z.of_nat (length bytes) <= data_size m ->
  (forall from to offset len, r = Mapped from to offset len ->
    from mod 8 = 0 /\ offset = from mod data_size m /\ len = Z.of_nat (length bytes) /\ offset + len <= data_size m) ->
  exists b, record_slice map_addr vec_addr m r = Some b /\ sl_bytes b = bytes /\
    is_u64_aligned b = true /\ 0 <= sl_addr b /\ sl_addr b + sl_len b <= u64_max.
Proof.
  intros [[Hm0 Hma] Hme Hv] Hp H8 Hb Hlen Hr. unfold record_slice. rewrite Hb. cbn [mbind option_bind].
  eexists. split; [done|]. unfold is_u64_aligned, sl_len. cbn [sl_bytes sl_addr]. split; [done|].
  destruct r as [from to offset len|owned].
  - destruct (Hr _ _ _ _ eq_refl) as (Hf & -> & -> & Hfit).
    pose proof (Z.mod_pos_bound from _ (placed_size _ Hp)). pose proof (pl_offset _ Hp).
    split; [|lia]. apply Z.eqb_eq. rewrite Zplus_mod, Hma, Z.add_0_l, Z.mod_mod by done.
    destruct (pl_pow _ Hp) as (j & Hj & Hs). rewrite Hs in *.
    assert (3 <= j).
    { destruct (decide (3 <= j)); [done|]. assert (2 ^ j < 2 ^ 3) by (apply Z.pow_lt_mono_r; lia). lia. }
    replace (2 ^ j) with (8 * 2 ^ (j - 3)) by (rewrite <-(Z.pow_add_r 2 3) by lia; f_equal; lia).
    rewrite Z.rem_mul_r by lia. rewrite Hf, Z.add_0_l, Z.mul_comm, Z_mod_mult. done.
  - cbn in Hb. injection Hb as <-. destruct (Hv owned Hlen) as (H0 & H1 & H2). split; [by apply Z.eqb_eq|]. lia.
Qed.

Lemma header_of_kernel_record l s b :
  kernel_sample_ok l s -> sl_bytes b = kernel_record l s -> sl_len b <= u64_max ->
  exists h, header_from_bytes b = Some h /\ header_is_sample h && matches_len h b = true.
Proof.
  intros Hok Hb Hlen.
  assert (sl_len b = record_size l s) as Hsize.
  { unfold sl_len, record_size. rewrite Hb. unfold kernel_record. rewrite !length_app, !le_bytes_length. lia. }
  pose proof (fetches_sample_header b l s Hlen Hsize Hok _ Hb) as Hf.
  unfold read_sample_header, mbind, fetch_mbind in Hf. unfold header_from_bytes, cursor_new.
  change (Z.of_nat (length [])) with 0 in Hf.
  destruct (read_record_header (mkByteCursor b 0)) as [[h c]|]; [|done].
  exists h. split; [done|]. unfold read_guard in Hf. destruct (header_is_sample h && matches_len h (cur_bytes c)) eqn:Hg; [|done].
  cbn in Hf. injection Hf as _ ->. done.
Qed.

Lemma count_ones_nonneg n mask : 0 <= count_ones n mask.
Proof.
  revert mask. induction n as [|n IH]; intros mask; cbn; [done|].
  pose proof (Z.mod_pos_bound mask 2). specialize (IH (mask / 2)). lia.
Qed.

Lemma kernel_record_parsed l s b :
  kernel_sample_ok l s -> sl_bytes b = kernel_record l s ->
  is_u64_aligned b = true -> 0 <= sl_addr b -> sl_addr b + sl_len b <= u64_max ->
  exists r lay, parse_sample_record b (layout_parser l) = Some (priv_from_misc (k_misc s), r) /\
    s_task r = Some (k_pid s, k_tid s) /\ s_time r = Some (k_time s) /\
    s_code_addr r = Some (k_ip s, negb (Z.land (k_misc s) PERF_RECORD_MISC_EXACT_IP =? 0)) /\
    from_sample b r = Some lay /\
    forall addr bytes, addr mod 8 = 0 ->
      take (Z.to_nat (layout_end lay)) bytes = take (Z.to_nat (layout_end lay)) (kernel_record l s) ->
      exists view, layout_sample lay (mkSlice addr bytes) = Some view /\
        sample_view (r_user_regs view) (r_user_stack view) (r_call_chain view) = captured_view l s.
Proof.
  intros Hok Hb Hal H0 Hend. destruct b as [addr0 bytes0]. cbn [sl_bytes] in Hb. subst bytes0.
  apply Z.eqb_eq in Hal. cbn [sl_addr] in Hal.
  destruct (sample_record_parses l s addr0 Hok Hal) as (r & Hp & Ht & Htm & Hca & Hc & Hr & Hst).
  destruct (layout_reads_same (mkSlice addr0 (kernel_record l s)) _ _ _ (kernel_record_bytes l s Hok)
    (count_ones_nonneg 64 (user_regs_mask l) : 0 <= p_user_regs (layout_parser l)) H0 Hend Hp) as (lay & Hl & _ & Hsame).
  exists r, lay. split_and!; try done. intros addr bytes Haddr Hbytes.
  destruct (Hsame (mkSlice addr bytes)) as (view & Hv & Hview); [by apply Z.eqb_eq|done|].
  exists view. split; [done|]. rewrite Hview. unfold sample_view, captured_view. by rewrite Hc, Hr, Hst.
Qed.

Lemma published_grows s s' k record :
  rtc ring_step s s' -> published s !! k = Some record -> published s' !! k = Some record.
Proof.
  induction 1 as [|x y z Hxy _ IH]; [done|]. intros Hk. apply IH.
  destruct Hxy; cbn in *; try done. by apply lookup_app_l_Some.
Qed.

(** C15: when the next record of the ring is a sample, the drain returns it with
    the thread, time, address and privilege the kernel put in; and however long
    the sample is held, detached or not, while the kernel goes on writing, its
    layout finds the registers, the stack and the call chain that the kernel
    captured. *)
Theorem drained_sample_reads_as_captured map_addr vec_addr crate_parse s l smp :
  ring_reaches s -> kernel_sample_ok l smp -> addresses_ok map_addr vec_addr (sys_mapping s) ->
  published s !! delivered s = Some (kernel_record l smp) ->
  sys_end s <> read_pos (sys_ring s) -> read_pos (sys_ring s) mod 8 = 0 ->
  exists ring record lay,
    next_event map_addr vec_addr crate_parse (layout_parser l) (mkDrain (sys_ring s) (sys_end s)) =
      (Ok (Some (mkEventRef (priv_from_misc (k_misc smp))
         (EventRingSample (mkRingSampleHeld (Ring record) lay)
            (mkMetadata (Some (k_pid smp, k_tid smp)) (Some (k_time smp))
               (Some (k_ip smp, negb (Z.land (k_misc smp) PERF_RECORD_MISC_EXACT_IP =? 0)))))
         (Some (k_time smp)))), mkDrain ring (sys_end s)) /\
    let n := Z.to_nat (layout_end lay) in
    forall later st bytes addr,
      rtc ring_step (mkSystem ring (sys_end s) (<[delivered s := (Ring record, n)]> (kept s))
        (S (delivered s)) (published s)) later ->
      kept later !! delivered s = Some (st, n) -> sample_bytes (sys_mapping later) st = Some bytes ->
      addr mod 8 = 0 ->
      exists view, layout_sample lay (mkSlice addr bytes) = Some view /\
        sample_view (r_user_regs view) (r_user_stack view) (r_call_chain view) = captured_view l smp.
Proof.
  intros [base Hi]%ring_reaches_inv Hok Had Hpub Hne H8. destruct s as [r e h d pub].
  unfold sys_mapping in *. cbn [sys_ring sys_end kept delivered published] in *.
  destruct (inv_next _ _ _ _ _ _ Hi Hne) as (record & bytes & r' & Hbytes & Hn & Hrb & Hsame & Hi').
  assert (bytes = kernel_record l smp) as -> by congruence.
  pose proof (ri_placed _ _ (Hi' 0%nat)) as Hp. unfold sys_mapping in Hp. cbn in Hp.
  pose proof (ri_read _ _ Hi) as Hrp. cbn in Hrp.
  destruct (ri_held _ _ (Hi' 0%nat) d (Ring record, 0%nat)) as (_ & rec & Hrec & Hh); [apply lookup_insert_eq|].
  cbn in Hrec. assert (rec = kernel_record l smp) as -> by congruence.
  destruct (inv_next_record _ _ _ _ _ _ Hi Hne) as (rec & Hrec' & [Hrl _] & _ & Hle & Hsz & _).
  destruct (record_slice_ok map_addr vec_addr (mapping r') record (kernel_record l smp)) as (b & Hb & Hbb & Hal & Hb0 & Hbe).
  - destruct Had as [[? ?] ? ?], Hsame as [_ _ Ho Hs]. split; [by rewrite Ho|by rewrite Ho, Hs|by rewrite Hs].
  - done.
  - rewrite (sr_size _ _ Hsame). lia.
  - done.
  - rewrite (sr_size _ _ Hsame). assert (rec = kernel_record l smp) as -> by congruence. lia.
  - intros from to offset len ->. cbn in Hh. destruct Hh as (-> & _ & -> & -> & Hfit). rewrite <-Hrp in *. by split_and!.
  - destruct (header_of_kernel_record l smp b Hok Hbb) as (hd & Hhd & Hsm); [lia|].
    destruct (kernel_record_parsed l smp b Hok Hbb Hal Hb0 Hbe) as (sr & lay & Hparse & Ht & Htm & Hca & Hl & Hview).
    exists r', record, lay. unfold next_event. cbn [dr_end dr_ring]. rewrite Hn. cbv zeta.
    rewrite Hb, Hhd, Hsm, Hal. cbn [andb]. rewrite Hparse, Hl, Ht, Htm, Hca. split; [done|].
    intros later st bts addr Hlater Hk Hst Haddr. apply Hview; [done|].
    pose proof (reachable_inv _ _ _ Hlater (Hi' _)) as Hil.
    destruct (inv_sample_bytes _ _ _ _ _ _ Hil Hk (published_grows _ _ _ _ Hlater Hpub)) as (bts' & Hb' & Htake & _).
    by assert (bts' = bts) as -> by (unfold sys_mapping in *; congruence).
Qed.

(** ** A sample with a call chain *)

Definition example_layout : PerfRecordLayout := mkRecordLayout true 0 0.
Definition example_capture : kernel_sample :=
  mkKernelSample 2 4198400 70 71 1000 [context_marker 512; 4198400] 0 [] [] 0.
Definition example_mapping (head : Z) (area : list Z) : RingMapping :=
  mkMapping (replicate 64 0 ++ area) head 0 64 64 (commit_new 0) None.
Definition example_waiting : ring_system :=
  mkSystem (mkRing (example_mapping 56 (kernel_record example_layout example_capture ++ replicate 8 0)) 0)
    56 ∅ 0 [kernel_record example_layout example_capture].

Lemma example_waiting_reached : ring_reaches example_waiting.
Proof.
  exists 64, 0, (replicate 128 0), 0, 0, 0, (mkRing (example_mapping 0 (replicate 64 0)) 0).
  split; [lia|]. split; [done|]. split; [word_lia|]. split; [done|].
  eapply rtc_l.
  { apply (step_publish _ _ _ _ _ (kernel_record example_layout example_capture)
      (example_mapping 56 (kernel_record example_layout example_capture ++ replicate 8 0))).
    - split; [by vm_compute|]. by exists 56, 0.
    - split; try done; cbn [example_mapping data_head data_tail mapping]; try lia; try (by vm_compute).
      intros i v Hi. do 56 (destruct i as [|i]; [exact Hi|]). done. }
  eapply rtc_l; [apply step_drain|]. apply rtc_refl.
Qed.

Lemma example_capture_ok : kernel_sample_ok example_layout example_capture.
Proof.
  split; cbn [k_misc k_ip k_pid k_tid k_time k_chain k_abi k_regs k_stack k_dyn_size example_capture];
    try (word_unfold; lia); try constructor; try (unfold context_marker; word_lia); try done.
  constructor; [word_lia|constructor].
Qed.

Lemma drained_sample_reads_as_captured_witness :
  exists ring record lay,
    next_event 4096 (λ _, 0) (λ _, (PrivUser, RecordUnknown)) (layout_parser example_layout)
        (mkDrain (sys_ring example_waiting) (sys_end example_waiting)) =
      (Ok (Some (mkEventRef (priv_from_misc 2)
         (EventRingSample (mkRingSampleHeld (Ring record) lay)
            (mkMetadata (Some (70, 71)) (Some 1000) (Some (4198400, false)))) (Some 1000))),
       mkDrain ring (sys_end example_waiting)).
Proof.
  destruct (drained_sample_reads_as_captured 4096 (λ _, 0) (λ _, (PrivUser, RecordUnknown)) example_waiting
    example_layout example_capture example_waiting_reached example_capture_ok) as (ring & record & lay & Hev & _).
  - split; [by vm_compute|by vm_compute|]. intros b Hb. cbn in Hb. split_and!; [done|done|]. word_lia.
  - reflexivity.
  - done.
  - reflexivity.
  - exists ring, record, lay. exact Hev.
Defined.
