(* ===== verification/PerfOpen.v ===== *)
(** * Opening perf events and rings

    [PerfOptions] of [src/linux/perf_event.rs]: how large a ring is asked for,
    which attempts are made when the kernel refuses one, and what is reported
    about the event that was opened; and the opening of the events of one task
    on every CPU in [src/linux/perf_group.rs], with the budget all rings share.

    System calls are an environment: a state [E] and functions that stand for
    [perf_event_open], [mmap] of a ring, [setrlimit] and [ioctl].  The page size
    of [sysconf] is a parameter too.  Errors keep what the code looks at: an
    errno of their own, or a source. *)

From stdpp Require Import prelude gmap list numbers.
From S2P Require Import Prelude RingBuffer SampleRecords.
#[local] Open Scope Z_scope.

(** ** Errors *)

Inductive open_error :=
  | OsError (errno : Z)
  | PlainError (kind : ErrorKind)
  | SourcedError (source : open_error).

Definition raw_os_error (e : open_error) : option Z :=
  match e with OsError errno => Some errno | _ => None end.
Fixpoint find_raw_os_error (e : open_error) : option Z :=
  match e with
  | OsError errno => Some errno
  | PlainError _ => None
  | SourcedError source => find_raw_os_error source
  end.

(** errno values of Linux. *)
Definition EPERM : Z := 1.
Definition ENOENT : Z := 2.
Definition ESRCH : Z := 3.
Definition ENXIO : Z := 6.
Definition ENOMEM : Z := 12.
Definition EACCES : Z := 13.
Definition ENODEV : Z := 19.
Definition EINVAL : Z := 22.
Definition EMFILE : Z := 24.
Definition ENOSYS : Z := 38.
Definition EOPNOTSUPP : Z := 95.

(** [matches!(errno, Some(a | b | ...))]. *)
Definition is_errno (errno : option Z) (codes : list Z) : bool :=
  match errno with Some code => bool_decide (code ∈ codes) | None => false end.

Definition opens (E A : Type) : Type := E -> (open_error + A) * E.
#[global] Instance opens_mret {E} : MRet (opens E) := λ A a s, (inr a, s).
#[global] Instance opens_mbind {E} : MBind (opens E) := λ A B k m s,
  match m s with
  | (inl e, s) => (inl e, s)
  | (inr a, s) => k a s
  end.
Definition open_fail {E A} (e : open_error) : opens E A := λ s, (inl e, s).
(** [match m { Err(e) if p(e) => retry, result => result }]. *)
Definition retry_if {E A} (p : open_error -> bool) (retry m : opens E A) : opens E A := λ s,
  match m s with
  | (inl e, s) => if p e then retry s else (inl e, s)
  | (inr a, s) => (inr a, s)
  end.
Definition map_opens {E A B} (f : A -> B) (m : opens E A) : opens E B := a ← m; mret (f a).
Definition map_open_err {E A} (f : open_error -> opens E open_error) (m : opens E A) : opens E A := λ s,
  match m s with
  | (inl e, s) =>
      match f e s with (inl e, s) | (inr e, s) => (inl e, s) end
  | (inr a, s) => (inr a, s)
  end.

(** ** Ring sizes *)

Definition RING_WAKEUP_FRACTION : Z := 8.
Definition MAX_RING_BUFFER_BYTES : Z := 268435456.
Definition MAX_PERF_RECORD_BYTES : Z := 65535.
Definition MAX_SAMPLE_USER_STACK : Z := 65528.
Definition DEFAULT_RING_BUFFER_STACKS : Z := 32.
Definition MAX_TOTAL_RING_BUFFER_BYTES : Z := 1073741824.

Definition normalized_ring_stacks (ring_stacks : Z) : Z :=
  if ring_stacks =? 0 then DEFAULT_RING_BUFFER_STACKS else ring_stacks.

Definition invalid_input : open_error := PlainError InvalidInput.
Definition or_invalid {A} (o : option A) : open_error + A :=
  match o with Some a => inr a | None => inl invalid_input end.
#[global] Instance sum_mbind : MBind (sum open_error) := λ A B k m,
  match m with inl e => inl e | inr a => k a end.

(** [u64::checked_mul], [div_ceil] and [checked_next_power_of_two]. *)
Definition checked_mul (a b : Z) : option Z := if a * b <=? u64_max then Some (a * b) else None.
Definition div_ceil_z (a b : Z) : Z := (a + (b - 1)) / b.
Definition checked_next_power_of_two (n : Z) : option Z :=
  let p := 2 ^ Z.log2_up n in if p <=? u64_max then Some p else None.

Definition ring_buffer_page_exp_for_page_size (stack_size ring_stacks page_size : Z) : open_error + Z :=
  if page_size =? 0 then inl invalid_input
  else
    product ← or_invalid (checked_mul (Z.max stack_size page_size) (normalized_ring_stacks ring_stacks));
    let required_space := Z.max product MAX_PERF_RECORD_BYTES in
    pages ← or_invalid (checked_next_power_of_two (div_ceil_z required_space page_size));
    ring_bytes ← or_invalid (checked_mul page_size pages);
    if MAX_RING_BUFFER_BYTES <? ring_bytes then inl invalid_input else inr (Z.log2 pages).

Section opening.
Context (page_size : Z).

Definition ring_buffer_page_exp (stack_size ring_stacks : Z) : open_error + Z :=
  ring_buffer_page_exp_for_page_size stack_size ring_stacks page_size.

Definition ring_buffer_budget_page_exp (maximum_bytes : Z) : open_error + Z :=
  let pages := maximum_bytes / page_size in
  if pages =? 0 then inl invalid_input else inr (Z.log2 pages).

Definition minimum_ring_bytes (stack_size : Z) : open_error + Z :=
  exp ← ring_buffer_page_exp stack_size 1; inr (page_size * 2 ^ exp).

(** [checked_shl] fails only for shifts of 64 and more; bits shifted out are lost. *)
Definition ring_wakeup_bytes (page_exp : Z) : open_error + Z :=
  if 64 <=? page_exp then inl invalid_input
  else
    let capacity := (page_size * 2 ^ page_exp) mod 18446744073709551616 in
    or_invalid (u32_try_from (Z.max (capacity / RING_WAKEUP_FRACTION) 1)).

(** ** Options *)

Inductive EventSource := HwCpuCycles | SwCpuClock.
Inductive TaskInheritance := InheritNone | InheritThreads | InheritChildren.
#[global] Instance TaskInheritance_eq_dec : EqDecision TaskInheritance.
Proof. solve_decision. Defined.

Record PerfOptions := mkOptions {
  po_pid : Z;
  po_cpu : Z;
  po_frequency : Z;
  po_stack_size : Z;
  po_ring_stacks : Z;
  po_maximum_ring_bytes : Z;
  po_reg_mask : Z;
  po_event_source : EventSource;
  po_inherit : TaskInheritance;
  po_enable_on_exec : bool;
  po_include_kernel : bool;
  po_sample_callchain : bool;
  po_exclude_user_callchain : bool;
  po_exclude_kernel_callchain : bool;
}.

Definition set_stack_size (size : Z) (o : PerfOptions) : PerfOptions :=
  mkOptions (po_pid o) (po_cpu o) (po_frequency o) size (po_ring_stacks o) (po_maximum_ring_bytes o)
    (po_reg_mask o) (po_event_source o) (po_inherit o) (po_enable_on_exec o) (po_include_kernel o)
    (po_sample_callchain o) (po_exclude_user_callchain o) (po_exclude_kernel_callchain o).

Definition align_stack_size (o : PerfOptions) : open_error + PerfOptions :=
  if MAX_SAMPLE_USER_STACK <? po_stack_size o then inl invalid_input
  else
    size ← or_invalid (u32_try_from (po_stack_size o + 7));
    inr (set_stack_size (Z.ldiff size 7) o).

Record RingPlan := mkPlan { requested_exp : Z; fallback_exp : Z }.

Definition ring_plan (o : PerfOptions) : open_error + RingPlan :=
  requested ← ring_buffer_page_exp (po_stack_size o) (po_ring_stacks o);
  budget ← ring_buffer_budget_page_exp (po_maximum_ring_bytes o);
  minimum ← ring_buffer_page_exp (po_stack_size o) 1;
  if budget <? minimum then inl invalid_input
  else inr (mkPlan (Z.min requested budget) minimum).

Definition record_layout (o : PerfOptions) : PerfRecordLayout :=
  mkRecordLayout (po_sample_callchain o) (po_reg_mask o) (po_stack_size o).

(** [Opts]: the fields that differ between attempts and events. *)
Record Opts := mkOpts {
  exclude_kernel : bool;
  exclude_guest : bool;
  opt_inherit : TaskInheritance;
  enable_on_execve : bool;
  sample_frequency : Z;
  wakeup_bytes : Z;
  opt_layout : PerfRecordLayout;
  callchain_exclude_user : bool;
  callchain_exclude_kernel : bool;
}.

Definition set_exclude_kernel (b : bool) (o : Opts) : Opts :=
  mkOpts b (exclude_guest o) (opt_inherit o) (enable_on_execve o) (sample_frequency o) (wakeup_bytes o)
    (opt_layout o) (callchain_exclude_user o) (callchain_exclude_kernel o).
Definition set_exclude_guest (b : bool) (o : Opts) : Opts :=
  mkOpts (exclude_kernel o) b (opt_inherit o) (enable_on_execve o) (sample_frequency o) (wakeup_bytes o)
    (opt_layout o) (callchain_exclude_user o) (callchain_exclude_kernel o).
Definition set_inherit (i : TaskInheritance) (o : Opts) : Opts :=
  mkOpts (exclude_kernel o) (exclude_guest o) i (enable_on_execve o) (sample_frequency o) (wakeup_bytes o)
    (opt_layout o) (callchain_exclude_user o) (callchain_exclude_kernel o).

Definition perf_open_opts (o : PerfOptions) (wakeup : Z) : Opts :=
  mkOpts (negb (po_include_kernel o)) false (po_inherit o) (po_enable_on_exec o) (po_frequency o) wakeup
    (record_layout o) (po_exclude_user_callchain o) (po_exclude_kernel_callchain o).

(** ** Attempts *)

Inductive PerfOpenEvent := HardwareCpuCycle | SoftwareCpuClock.

(** What [mmap] shows of a new ring: its bytes, and [data_offset], [data_size],
    [data_head] and [data_tail] of the metadata page. *)
Record ring_view := mkView {
  rv_bytes : list Z;
  rv_offset : Z;
  rv_size : Z;
  rv_head : Z;
  rv_tail : Z;
}.

Context {E Counter : Type}.
Context (counter_new : PerfOpenEvent -> Z -> Z -> Opts -> opens E Counter).
Context (ring_mmap : Counter -> Z -> opens E ring_view).
Context (raise_nofile_soft_limit lost_format_supported : E -> bool * E).
Context (max_sample_rate : option Z).

Definition open_counter_for_event (event : PerfOpenEvent) (pid cpu : Z) (opts : Opts) : opens E Counter := λ s,
  match counter_new event pid cpu opts s with
  | (inl e, s) =>
      if is_errno (raw_os_error e) [EMFILE] then
        let '(raised, s) := raise_nofile_soft_limit s in
        if raised then counter_new event pid cpu opts s else (inl e, s)
      else (inl e, s)
  | (inr c, s) => (inr c, s)
  end.

Definition is_inherit_thread_error (e : open_error) : bool :=
  is_errno (raw_os_error e) [EINVAL; ENOSYS; EOPNOTSUPP].

Definition with_software_event_fallback {A} (hardware software : opens E A) : opens E A :=
  retry_if (λ e, is_errno (raw_os_error e) [ENOENT; ENODEV; ENXIO; EOPNOTSUPP]) software hardware.

Definition with_kernel_exclusion_fallback {A} (include_kernel : bool) (preferred user_only : opens E A)
    : opens E (A * bool) :=
  retry_if (λ e, include_kernel && is_errno (raw_os_error e) [EACCES; EPERM])
    (map_opens (λ a, (a, false)) user_only) (map_opens (λ a, (a, include_kernel)) preferred).

Definition with_guest_exclusion_fallback {A} (opts : Opts) (open : Opts -> opens E A) : opens E A :=
  retry_if (λ e, negb (exclude_guest opts) && is_errno (raw_os_error e) [EOPNOTSUPP])
    (open (set_exclude_guest true opts)) (open opts).

Definition with_exclusion_fallbacks {A} (opts : Opts) (include_kernel : bool) (open : Opts -> opens E A)
    : opens E (A * bool) :=
  with_guest_exclusion_fallback opts (λ opts,
    with_kernel_exclusion_fallback include_kernel (open opts) (open (set_exclude_kernel true opts))).

Definition with_cycle_event_fallbacks {A} (opts : Opts) (include_kernel : bool)
    (hardware software : Opts -> opens E A) : opens E (A * bool) :=
  with_software_event_fallback (with_exclusion_fallbacks opts include_kernel hardware)
    (with_exclusion_fallbacks opts include_kernel software).

Definition open_counter_once (o : PerfOptions) (opts : Opts) : opens E (Counter * bool) :=
  let software := open_counter_for_event SoftwareCpuClock (po_pid o) (po_cpu o) in
  match po_event_source o with
  | HwCpuCycles =>
      with_cycle_event_fallbacks opts (po_include_kernel o)
        (open_counter_for_event HardwareCpuCycle (po_pid o) (po_cpu o)) software
  | SwCpuClock => with_exclusion_fallbacks opts (po_include_kernel o) software
  end.

(** The error that explains a kernel before 6.0, and the name of the target. *)
Definition classify_open_error (e : open_error) : opens E open_error := λ s,
  if is_errno (raw_os_error e) [EINVAL] then
    let '(supported, s) := lost_format_supported s in
    (inr (SourcedError (if supported then e else SourcedError e)), s)
  else (inr (SourcedError e), s).

Record OpenedCounter := mkOpened { oc_counter : Counter; oc_inherit : TaskInheritance; oc_include_kernel : bool }.

Definition lift_sum {A} (r : open_error + A) : opens E A := λ s, (r, s).

Definition open_counter_with_page_exp (o : PerfOptions) (page_exp : Z) : opens E OpenedCounter :=
  wakeup ← lift_sum (ring_wakeup_bytes page_exp);
  let opts := perf_open_opts o wakeup in
  map_open_err classify_open_error (
    retry_if (λ e, bool_decide (po_inherit o = InheritThreads) && is_inherit_thread_error e)
      (map_opens (λ c : Counter * bool, mkOpened c.1 InheritNone c.2)
         (open_counter_once o (set_inherit InheritNone opts)))
      (map_opens (λ c : Counter * bool, mkOpened c.1 (po_inherit o) c.2) (open_counter_once o opts))).

Definition validate (o : PerfOptions) : open_error + unit :=
  match max_sample_rate with
  | Some rate => if rate <? po_frequency o then inl invalid_input else inr tt
  | None => inr tt
  end.

Definition is_ring_budget_error (e : open_error) : bool := is_errno (find_raw_os_error e) [EPERM; ENOMEM].

(** [RingBuffer::new], then the error wrapper. *)
Definition new_ring (c : OpenedCounter) (page_exp : Z) : opens E RingBuffer := λ s,
  match ring_mmap (oc_counter c) page_exp s with
  | (inl e, s) => (inl (SourcedError e), s)
  | (inr v, s) =>
      match ring_new page_size page_exp (rv_bytes v) (rv_offset v) (rv_size v) (rv_head v) (rv_tail v) with
      | Ok ring => (inr ring, s)
      | Err kind => (inl (SourcedError (PlainError kind)), s)
      end
  end.

(** The loop counts [page_exp] down to [fallback_exp]. *)
Fixpoint open_ring_with_fallback (fuel : nat) (o : PerfOptions) (page_exp fallback : Z)
    : opens E (OpenedCounter * RingBuffer) := λ s,
  match fuel with
  | O => (inl (PlainError Diverged), s)
  | S fuel =>
      match open_counter_with_page_exp o page_exp s with
      | (inl e, s) => (inl e, s)
      | (inr counter, s) =>
          match new_ring counter page_exp s with
          | (inr ring, s) => (inr (counter, ring), s)
          | (inl e, s) =>
              if (fallback <? page_exp) && is_ring_budget_error e
              then open_ring_with_fallback fuel o (page_exp - 1) fallback s
              else (inl e, s)
          end
      end
  end.

Record OutputRing := mkOutput { out_counter : OpenedCounter; out_cpu : Z; out_ring : RingBuffer }.

Definition output_capacity (r : OutputRing) : Z := capacity_bytes (out_ring r).

(** [PerfOptions::open] and [PerfOptions::open_ring]. *)
Definition open_perf_event (o : PerfOptions) : opens E OpenedCounter :=
  o ← lift_sum (align_stack_size o);
  lift_sum (validate o);;
  plan ← lift_sum (ring_plan o);
  open_counter_with_page_exp o (requested_exp plan).

Definition open_ring (o : PerfOptions) : opens E OutputRing :=
  o ← lift_sum (align_stack_size o);
  plan ← lift_sum (ring_plan o);
  lift_sum (validate o);;
  opened ← open_ring_with_fallback (S (Z.to_nat (requested_exp plan))) o (requested_exp plan) (fallback_exp plan);
  mret (mkOutput opened.1 (po_cpu o) opened.2).

(** ** One task on every CPU *)

Context (counter_fd : Counter -> Z).
Context (set_output_ioctl : Z -> Z -> opens E unit).

Record Member := mkMember { mb_perf : OpenedCounter; mb_output_fd : Z; mb_owner_pid : Z }.

Record PendingEvents := mkPending {
  pe_perfs : list Member;
  pe_outputs : list OutputRing;
  pe_cpu_outputs : gmap Z Z;
  pe_allocated : Z;
  pe_kernel_excluded : bool;
}.

(** The fields of [PerfGroup] that opening reads; [outputs] without poll state. *)
Record PerfGroup := mkGroup {
  g_outputs : gmap Z OutputRing;
  g_cpu_outputs : gmap Z Z;
  g_stack_size : Z;
  g_ring_stacks : Z;
  g_regs_mask : Z;
  g_event_source : EventSource;
  g_include_kernel : bool;
  g_inherit_child_processes : bool;
}.

Definition output_fd (r : OutputRing) : Z := counter_fd (oc_counter (out_counter r)).

Definition pending_events (g : PerfGroup) : PendingEvents :=
  mkPending [] [] ∅
    (foldl saturating_add_u64 0 (output_capacity <$> (snd <$> map_to_list (g_outputs g)))) false.

Definition task_inheritance (g : PerfGroup) : TaskInheritance :=
  if g_inherit_child_processes g then InheritChildren else InheritThreads.

(** [Perf::set_output]. *)
Definition set_output (perf : OpenedCounter) (cpu : Z) (output : OutputRing) : opens E unit :=
  if negb (cpu =? out_cpu output) then open_fail invalid_input
  else set_output_ioctl (counter_fd (oc_counter perf)) (output_fd output).

Inductive OpenedEvent :=
  | OpenedMember (member : Member) (inherit : TaskInheritance)
  | OpenedOutput (inherit : TaskInheritance).

(** A call that also changes [pending]; the changes stay when it fails. *)
Definition opens_with (A : Type) : Type := PendingEvents -> E -> (open_error + A) * PendingEvents * E.

Definition exclude_kernel_from (p : PendingEvents) : PendingEvents :=
  mkPending (pe_perfs p) (pe_outputs p) (pe_cpu_outputs p) (pe_allocated p) true.

Definition open_perf (g : PerfGroup) (tid owner_pid cpu : Z) (on_exec : bool) (frequency maximum_ring_bytes : Z)
    : opens_with OpenedEvent := λ p s,
  let fd := match g_cpu_outputs g !! cpu with Some fd => Some fd | None => pe_cpu_outputs p !! cpu end in
  let existing :=
    match fd with
    | None => inr None
    | Some fd =>
        match (match g_outputs g !! fd with
               | Some output => Some output
               | None => head (filter (λ output, output_fd output = fd) (pe_outputs p))
               end) with
        | Some output => inr (Some (fd, output))
        | None => inl (PlainError Other)
        end
    end in
  match existing with
  | inl e => (inl e, p, s)
  | inr existing =>
      let options maximum := mkOptions tid cpu frequency (g_stack_size g) (g_ring_stacks g) maximum
        (g_regs_mask g) (g_event_source g) (task_inheritance g) on_exec
        (g_include_kernel g && negb (pe_kernel_excluded p)) true true
        (negb (g_include_kernel g) || pe_kernel_excluded p) in
      match existing with
      | Some (fd, output) =>
          match open_perf_event (options (output_capacity output)) s with
          | (inl e, s) => (inl e, p, s)
          | (inr perf, s) =>
              let p := if negb (oc_include_kernel perf) then exclude_kernel_from p else p in
              match set_output perf cpu output s with
              | (inl e, s) => (inl e, p, s)
              | (inr _, s) =>
                  (inr (OpenedMember (mkMember perf fd owner_pid) (oc_inherit perf)), p, s)
              end
          end
      | None =>
          match open_ring (options maximum_ring_bytes) s with
          | (inl e, s) => (inl e, p, s)
          | (inr output, s) =>
              let p := if negb (oc_include_kernel (out_counter output)) then exclude_kernel_from p else p in
              (inr (OpenedOutput (oc_inherit (out_counter output))),
               mkPending (pe_perfs p) (pe_outputs p ++ [output])
                 (<[cpu := output_fd output]> (pe_cpu_outputs p))
                 (saturating_add_u64 (pe_allocated p) (output_capacity output)) (pe_kernel_excluded p), s)
          end
      end
  end.

Definition inherit_enabled (i : TaskInheritance) : bool := negb (bool_decide (i = InheritNone)).

(** The [for] loop of [open_cpu_perfs]. *)
Fixpoint open_cpus (g : PerfGroup) (tid owner_pid : Z) (on_exec : bool) (frequency cap budget : Z)
    (cpus : list Z) (inherits : bool) : opens_with bool := λ p s,
  match cpus with
  | [] => (inr inherits, p, s)
  | cpu :: cpus =>
      let remaining := Z.max (MAX_TOTAL_RING_BUFFER_BYTES - pe_allocated p) 0 in
      match open_perf g tid owner_pid cpu on_exec frequency (Z.min (Z.min budget remaining) cap) p s with
      | (inl e, p, s) => (inl e, p, s)
      | (inr (OpenedMember member inherit), p, s) =>
          open_cpus g tid owner_pid on_exec frequency cap budget cpus (inherits || inherit_enabled inherit)
            (mkPending (pe_perfs p ++ [member]) (pe_outputs p) (pe_cpu_outputs p) (pe_allocated p)
               (pe_kernel_excluded p)) s
      | (inr (OpenedOutput inherit), p, s) =>
          open_cpus g tid owner_pid on_exec frequency cap budget cpus (inherits || inherit_enabled inherit) p s
      end
  end.

Definition open_cpu_perfs (g : PerfGroup) (tid owner_pid : Z) (on_exec : bool) (frequency cap : Z)
    (cpus : list Z) : opens_with bool :=
  open_cpus g tid owner_pid on_exec frequency cap
    (MAX_TOTAL_RING_BUFFER_BYTES / Z.of_nat (Nat.max (length cpus) 1)) cpus false.

(** The [loop] of [open_task_perfs]; the checkpoints are the state before it. *)
Fixpoint open_task_loop (fuel : nat) (g : PerfGroup) (tid owner_pid : Z) (on_exec : bool) (frequency : Z)
    (cpus : list Z) (before : PendingEvents) (cap : Z) : opens_with bool := λ p s,
  match fuel with
  | O => (inl (PlainError Diverged), p, s)
  | S fuel =>
      match open_cpu_perfs g tid owner_pid on_exec frequency cap cpus p s with
      | (inr inherits, p, s) => (inr inherits, p, s)
      | (inl e, p, s) =>
          let perfs := take (length (pe_perfs before)) (pe_perfs p) in
          let fresh := drop (length (pe_outputs before)) (pe_outputs p) in
          let largest := foldr Z.max 0 (output_capacity <$> fresh) in
          let p := mkPending perfs (pe_outputs p) (pe_cpu_outputs p) (pe_allocated p) (pe_kernel_excluded p) in
          if negb (is_ring_budget_error e)
             || negb (match minimum_ring_bytes (g_stack_size g) with
                      | inr minimum => minimum <? largest
                      | inl _ => false
                      end)
          then (inl e, p, s)
          else
            open_task_loop fuel g tid owner_pid on_exec frequency cpus before (largest / 2)
              (mkPending perfs (take (length (pe_outputs before)) (pe_outputs p))
                 (foldr (λ output, delete (out_cpu output)) (pe_cpu_outputs p) fresh)
                 (pe_allocated before) (pe_kernel_excluded before)) s
      end
  end.

Definition task_fuel : nat := 32.

Definition open_task_perfs (g : PerfGroup) (tid owner_pid : Z) (on_exec : bool) (frequency : Z) (cpus : list Z)
    : opens_with bool := λ p s,
  open_task_loop task_fuel g tid owner_pid on_exec frequency cpus p MAX_TOTAL_RING_BUFFER_BYTES p s.

(** [try_open_thread_perfs]: a thread that is gone or denied is skipped. *)
Definition try_open_thread_perfs (g : PerfGroup) (tid owner_pid : Z) (on_exec : bool) (frequency : Z)
    (cpus : list Z) : opens_with (option bool) := λ p s,
  match open_task_perfs g tid owner_pid on_exec frequency cpus p s with
  | (inr inherits, p, s) => (inr (Some inherits), p, s)
  | (inl e, p, s) =>
      if is_errno (find_raw_os_error e) [ESRCH; EACCES] then (inr None, p, s) else (inl e, p, s)
  end.
End opening.
