(* ===== verification/PerfBudget.v ===== *)
(** * What opening perf events guarantees

    Whatever the kernel answers: the sizes planned for rings, the budget shared
    by all rings of a recording, that the retry loops end, and that what is
    reported about an opened event is how it was opened. *)

From stdpp Require Import prelude gmap list numbers.
From S2P Require Import Prelude RingBuffer SampleRecords PerfOpen.
#[local] Open Scope Z_scope.

(** ** Sizes *)

Lemma div_ceil_le_mono a b c : 0 < c -> a <= b -> div_ceil_z a c <= div_ceil_z b c.
Proof. intros Hc Hab. unfold div_ceil_z. apply Z.div_le_mono; lia. Qed.

Lemma div_ceil_covers a c : 0 < c -> a <= c * div_ceil_z a c.
Proof.
  intros Hc. unfold div_ceil_z. pose proof (Z.div_mod (a + (c - 1)) c). pose proof (Z.mod_pos_bound (a + (c - 1)) c Hc). lia.
Qed.

Lemma page_exp_inv stack stacks page_size exp :
  0 < page_size -> ring_buffer_page_exp_for_page_size stack stacks page_size = inr exp ->
  let space := Z.max (Z.max stack page_size * normalized_ring_stacks stacks) MAX_PERF_RECORD_BYTES in
  exp = Z.log2_up (div_ceil_z space page_size) /\ 0 <= exp /\
  MAX_PERF_RECORD_BYTES <= page_size * 2 ^ exp <= MAX_RING_BUFFER_BYTES.
Proof.
  intros Hp. unfold ring_buffer_page_exp_for_page_size. destruct (Z.eqb_spec page_size 0); [lia|].
  destruct (checked_mul (Z.max stack page_size) (normalized_ring_stacks stacks)) as [product|] eqn:Hprod; [|done].
  assert (product = Z.max stack page_size * normalized_ring_stacks stacks) as ->.
  { unfold checked_mul in Hprod. destruct (_ <=? _); [|done]. by injection Hprod. }
  cbn [or_invalid mbind sum_mbind]. cbv zeta.
  set (space := Z.max (Z.max stack page_size * normalized_ring_stacks stacks) MAX_PERF_RECORD_BYTES).
  unfold checked_next_power_of_two.
  set (e := Z.log2_up (div_ceil_z space page_size)). destruct (2 ^ e <=? u64_max); [|done]. cbn [or_invalid mbind sum_mbind].
  unfold checked_mul. destruct (_ <=? u64_max); [|done]. cbn [or_invalid mbind sum_mbind].
  destruct (Z.ltb_spec MAX_RING_BUFFER_BYTES (page_size * 2 ^ e)); [done|]. intros [= <-].
  pose proof (Z.log2_up_nonneg (div_ceil_z space page_size)) as He. fold e in He.
  rewrite Z.log2_pow2 by done. split_and!; try done.
  pose proof (div_ceil_covers space page_size Hp). assert (MAX_PERF_RECORD_BYTES <= space) by lia.
  assert (div_ceil_z space page_size <= 2 ^ e); [|nia].
  destruct (decide (1 < div_ceil_z space page_size)).
  - apply Z.log2_up_spec. done.
  - assert (1 <= 2 ^ e) by (pose proof (Z.pow_pos_nonneg 2 e); lia). lia.
Qed.

Section plans.
Context (page_size : Z).
Hypothesis Hpage : 0 < page_size.

(** A planned ring fits its budget and the largest record, at both ends of the
    range that is tried. *)
Lemma ring_plan_ok o plan :
  0 <= po_stack_size o -> 0 <= po_ring_stacks o -> 0 <= po_maximum_ring_bytes o -> ring_plan page_size o = inr plan ->
  0 <= fallback_exp plan <= requested_exp plan /\
  MAX_PERF_RECORD_BYTES <= page_size * 2 ^ fallback_exp plan /\
  page_size * 2 ^ requested_exp plan <= Z.min (po_maximum_ring_bytes o) MAX_RING_BUFFER_BYTES.
Proof.
  intros Hst Hrs Hmx. unfold ring_plan.
  destruct (ring_buffer_page_exp page_size (po_stack_size o) (po_ring_stacks o)) as [|req] eqn:Hr; [done|].
  cbn [mbind sum_mbind]. unfold ring_buffer_budget_page_exp.
  destruct (Z.eqb_spec (po_maximum_ring_bytes o / page_size) 0) as [|Hpg]; [done|].
  cbn [mbind sum_mbind]. set (budget := Z.log2 _).
  destruct (ring_buffer_page_exp page_size (po_stack_size o) 1) as [|mn] eqn:Hm; [done|]. cbn [mbind sum_mbind].
  destruct (Z.ltb_spec budget mn); [done|]. intros [= <-]. cbn [fallback_exp requested_exp].
  apply (page_exp_inv _ _ _ _ Hpage) in Hr as (Hreq & Hr0 & Hrb & Hrm).
  apply (page_exp_inv _ _ _ _ Hpage) in Hm as (Hmin & Hm0 & Hmb & _).
  assert (mn <= req).
  { rewrite Hreq, Hmin. apply Z.log2_up_le_mono, div_ceil_le_mono; [done|].
    unfold normalized_ring_stacks, DEFAULT_RING_BUFFER_STACKS. cbn [Z.eqb].
    destruct (Z.eqb_spec (po_ring_stacks o) 0); apply Z.max_le_compat_r; nia. }
  split; [lia|]. split; [done|]. apply Z.min_glb.
  - assert (0 < po_maximum_ring_bytes o / page_size) as Hpos.
    { pose proof (Z.div_pos (po_maximum_ring_bytes o) page_size). lia. }
    pose proof (Z.log2_spec _ Hpos) as [Hlo _]. fold budget in Hlo.
    assert (2 ^ Z.min req budget <= 2 ^ budget) by (apply Z.pow_le_mono_r; lia).
    pose proof (Z.mul_div_le (po_maximum_ring_bytes o) page_size Hpage). nia.
  - assert (2 ^ Z.min req budget <= 2 ^ req) by (apply Z.pow_le_mono_r; lia). nia.
Qed.

(** A ring is never larger than the mapping that was asked for. *)
Lemma ring_new_capacity page_exp bytes off sz head tail r :
  ring_new page_size page_exp bytes off sz head tail = Ok r ->
  0 < capacity_bytes r <= page_size * 2 ^ page_exp.
Proof.
  unfold ring_new. destruct (64 <=? page_exp); [done|]. cbv zeta. destruct (_ || _); [done|].
  set (offset := if off =? 0 then _ else _). set (size := if sz =? 0 then _ else _).
  destruct (negb _) eqn:Hv; [done|]. intros [= <-].
  apply negb_false_iff in Hv. rewrite !andb_true_iff, !Z.leb_le, Z.ltb_lt in Hv.
  destruct Hv as [[[[H0 _] Hoff] _] Hfit]. unfold capacity_bytes. cbn [mapping data_size]. split; [done|]. nia.
Qed.

Lemma align_stack_ok o o' :
  0 <= po_stack_size o -> align_stack_size o = inr o' ->
  0 <= po_stack_size o' /\ po_ring_stacks o' = po_ring_stacks o /\
  po_maximum_ring_bytes o' = po_maximum_ring_bytes o /\ po_cpu o' = po_cpu o.
Proof.
  intros Hs. unfold align_stack_size. destruct (_ <? _); [done|].
  destruct (u32_try_from (po_stack_size o + 7)) as [size|] eqn:Hu; [|done]. cbn. intros [= <-]. cbn.
  split; [|done]. apply Z.ldiff_nonneg. left. unfold u32_try_from in Hu. destruct (_ && _); [|done].
  injection Hu as <-. lia.
Qed.

Section events.
Context {E Counter : Type}.
Context (counter_new : PerfOpenEvent -> Z -> Z -> Opts -> opens E Counter).
Context (ring_mmap : Counter -> Z -> opens E ring_view).
Context (raise_nofile lost_format : E -> bool * E).
Context (max_rate : option Z).

Abbreviation open_counter := (open_counter_with_page_exp page_size counter_new raise_nofile lost_format).
Abbreviation ring_fallback := (open_ring_with_fallback page_size counter_new ring_mmap raise_nofile lost_format).
Abbreviation ring_open := (open_ring page_size counter_new ring_mmap raise_nofile lost_format max_rate).

Lemma new_ring_capacity c page_exp s r s' :
  new_ring page_size ring_mmap c page_exp s = (inr r, s') -> 0 < capacity_bytes r <= page_size * 2 ^ page_exp.
Proof.
  unfold new_ring. destruct (ring_mmap _ _ _) as [[?|v] s1]; [done|].
  destruct (ring_new _ _ _ _ _ _ _) as [ring|] eqn:Hr; [|done]. intros [= <- _]. by eapply ring_new_capacity.
Qed.

Lemma ring_fallback_capacity fuel o page_exp fallback s c r s' :
  0 <= fallback <= page_exp -> ring_fallback fuel o page_exp fallback s = (inr (c, r), s') ->
  0 < capacity_bytes r <= page_size * 2 ^ page_exp.
Proof.
  revert page_exp s. induction fuel as [|fuel IH]; intros page_exp s Hf; cbn [open_ring_with_fallback]; [done|].
  destruct (open_counter _ _ _) as [[?|c1] s1]; [done|].
  destruct (new_ring _ _ _ _ _) as [[e|r1] s2] eqn:Hn.
  - destruct (Z.ltb_spec fallback page_exp); [|done]. destruct (is_ring_budget_error e); [|done]. cbn [andb].
    intros Hr. apply IH in Hr; [|lia].
    assert (2 ^ (page_exp - 1) <= 2 ^ page_exp) by (apply Z.pow_le_mono_r; lia). nia.
  - intros [= <- <- <-]. by eapply new_ring_capacity.
Qed.

(** The countdown never needs more rounds than it is given. *)
Lemma ring_fallback_fuel fuel more o page_exp fallback s :
  0 <= fallback <= page_exp -> page_exp - fallback < Z.of_nat fuel ->
  ring_fallback (fuel + more) o page_exp fallback s = ring_fallback fuel o page_exp fallback s.
Proof.
  revert page_exp s. induction fuel as [|fuel IH]; intros page_exp s Hf Hfuel; [lia|].
  cbn [open_ring_with_fallback Nat.add]. destruct (open_counter _ _ _) as [[?|c1] s1]; [done|].
  destruct (new_ring _ _ _ _ _) as [[e|r1] s2]; [|done].
  destruct (Z.ltb_spec fallback page_exp); [|done]. destruct (is_ring_budget_error e); [|done].
  cbn [andb]. apply IH; lia.
Qed.

Lemma ring_open_capacity o s out s' :
  0 <= po_stack_size o -> 0 <= po_ring_stacks o -> 0 <= po_maximum_ring_bytes o ->
  ring_open o s = (inr out, s') ->
  0 < output_capacity out <= po_maximum_ring_bytes o /\ out_cpu out = po_cpu o.
Proof.
  intros Hs Hr Hm. unfold open_ring, mbind, opens_mbind, lift_sum.
  destruct (align_stack_size o) as [|o'] eqn:Ha; [done|].
  destruct (align_stack_ok _ _ Hs Ha) as (Hs' & Hr' & Hm' & Hc').
  destruct (ring_plan page_size o') as [|plan] eqn:Hp; [done|]. destruct (validate _ _); [done|].
  destruct (ring_plan_ok _ _ Hs' ltac:(lia) ltac:(lia) Hp) as (Hexp & _ & Hfit).
  destruct (ring_fallback _ _ _ _ _) as [[?|[c r]] s1] eqn:Hf; [done|]. cbn. intros [= <- _].
  apply ring_fallback_capacity in Hf; [|lia]. unfold output_capacity. cbn. split; [lia|done].
Qed.

(** ** The shared budget *)

Context (counter_fd : Counter -> Z).
Context (set_output_ioctl : Z -> Z -> opens E unit).

Abbreviation Output := (@OutputRing Counter).
Abbreviation Pending := (@PendingEvents Counter).
Abbreviation Group := (@PerfGroup Counter).

Definition capacities (outputs : list Output) : Z := foldr Z.add 0 (output_capacity <$> outputs).
Definition group_capacity (g : Group) : Z := capacities (snd <$> map_to_list (g_outputs g)).

Record group_ok (g : Group) : Prop := {
  go_stack : 0 <= g_stack_size g;
  go_stacks : 0 <= g_ring_stacks g;
  go_outputs : forall fd out, g_outputs g !! fd = Some out -> 0 <= output_capacity out;
}.

(** What [allocated_ring_bytes] stands for. *)
Record pending_ok (g : Group) (p : Pending) : Prop := {
  pd_sum : pe_allocated p = group_capacity g + capacities (pe_outputs p);
  pd_range : 0 <= pe_allocated p <= MAX_TOTAL_RING_BUFFER_BYTES;
  pd_outputs : Forall (λ out, 0 <= output_capacity out) (pe_outputs p);
}.

Lemma capacities_app xs ys : capacities (xs ++ ys) = capacities xs + capacities ys.
Proof. unfold capacities. induction xs as [|x xs IH]; cbn in *; [done|]. rewrite IH. lia. Qed.

Abbreviation perf_open := (open_perf page_size counter_new ring_mmap raise_nofile lost_format max_rate counter_fd set_output_ioctl).
Abbreviation cpus_open := (open_cpus page_size counter_new ring_mmap raise_nofile lost_format max_rate counter_fd set_output_ioctl).
Abbreviation task_loop := (open_task_loop page_size counter_new ring_mmap raise_nofile lost_format max_rate counter_fd set_output_ioctl).

(** [pending] only grows, by rings no larger than [cap]. *)
Record grows (cap : Z) (p p' : Pending) : Prop := {
  gr_perfs : exists more, pe_perfs p' = pe_perfs p ++ more;
  gr_outputs : exists more, pe_outputs p' = pe_outputs p ++ more /\
    Forall (λ out, 0 < output_capacity out <= cap) more;
}.

Lemma grows_refl cap p : grows cap p p.
Proof. split; exists []; by rewrite app_nil_r. Qed.

Lemma grows_trans cap p p1 p2 : grows cap p p1 -> grows cap p1 p2 -> grows cap p p2.
Proof.
  intros [[x Hx] (y & Hy & Fy)] [[x' Hx'] (y' & Hy' & Fy')]. split.
  - exists (x ++ x'). by rewrite Hx', Hx, (assoc_L (++)).
  - exists (y ++ y'). rewrite Hy', Hy, (assoc_L (++)). split; [done|]. by apply Forall_app.
Qed.

Lemma open_perf_budget g tid owner cpu on_exec freq maximum p s r p' s' :
  group_ok g -> pending_ok g p -> 0 <= maximum <= MAX_TOTAL_RING_BUFFER_BYTES - pe_allocated p ->
  perf_open g tid owner cpu on_exec freq maximum p s = (r, p', s') ->
  pending_ok g p' /\ grows maximum p p'.
Proof.
  intros [Hst Hsk Hgo] Hp Hm. unfold open_perf.
  assert (forall b : bool, pending_ok g (if b then exclude_kernel_from p else p) /\
    grows maximum p (if b then exclude_kernel_from p else p)) as Hk.
  { intros []; [|split; [done|apply grows_refl]]. destruct Hp. split; [by split|]. split; exists []; by rewrite app_nil_r. }
  destruct (match match g_cpu_outputs g !! cpu with Some _ => _ | None => _ end with Some _ => _ | None => _ end) as [e|[[fd out]|]].
  - intros [= <- <- <-]. apply (Hk false).
  - destruct (open_perf_event _ _ _ _ _ _ _) as [[e|perf] s1]; [intros [= <- <- <-]; apply (Hk false)|]. cbv zeta.
    destruct (set_output _ _ _ _ _ _) as [[e|u] s2]; intros [= <- <- <-]; apply Hk.
  - destruct (ring_open _ _) as [[e|out] s1] eqn:Ho; [intros [= <- <- <-]; apply (Hk false)|].
    apply ring_open_capacity in Ho as [Hcap _]; [|done|done|cbn; lia]. cbn in Hcap. cbv zeta. intros [= <- <- <-].
    set (b := negb _). destruct (Hk b) as [[Hsum Hrange Hout] _].
    assert (pe_outputs (if b then exclude_kernel_from p else p) = pe_outputs p) as Eo by (by destruct b).
    assert (pe_perfs (if b then exclude_kernel_from p else p) = pe_perfs p) as Ep by (by destruct b).
    assert (pe_allocated (if b then exclude_kernel_from p else p) = pe_allocated p) as Ea by (by destruct b).
    rewrite Eo, Ep, Ea in *. unfold saturating_add_u64, MAX_TOTAL_RING_BUFFER_BYTES in *. split.
    + split; cbn [pe_allocated pe_outputs]; [|unfold MAX_TOTAL_RING_BUFFER_BYTES; word_lia|apply Forall_app; split; [done|constructor; [lia|constructor]]].
      rewrite capacities_app. assert (capacities [out] = output_capacity out) as -> by (unfold capacities; cbn; lia).
      word_lia.
    + split; cbn [pe_perfs pe_outputs]; [exists []; by rewrite app_nil_r|].
      exists [out]. split; [done|]. constructor; [lia|constructor].
Qed.

Lemma grows_weaken cap cap' p p' : cap <= cap' -> grows cap p p' -> grows cap' p p'.
Proof.
  intros Hc [Hx (y & Hy & Fy)]. split; [done|]. exists y. split; [done|].
  eapply Forall_impl; [|exact Fy]. cbn. intros. lia.
Qed.

Lemma open_cpus_budget g tid owner on_exec freq cap budget cpus inherits p s r p' s' :
  group_ok g -> pending_ok g p -> 0 <= cap -> 0 <= budget ->
  cpus_open g tid owner on_exec freq cap budget cpus inherits p s = (r, p', s') ->
  pending_ok g p' /\ grows cap p p'.
Proof.
  intros Hg Hp Hc Hb. revert inherits p s Hp. induction cpus as [|cpu cpus IH]; intros inherits p s Hp; cbn [open_cpus].
  { intros [= <- <- <-]. split; [done|apply grows_refl]. }
  pose proof (pd_range _ _ Hp).
  destruct (perf_open _ _ _ _ _ _ _ _ _) as [[[e|[member inherit|inherit]] p1] s1] eqn:Ho;
    apply open_perf_budget in Ho as [Hp1 Hg1]; try done; try lia;
    (eapply grows_weaken in Hg1; [|apply Z.le_min_r]).
  - intros [= <- <- <-]. done.
  - intros Hn. apply IH in Hn as [Hp' Hg'].
    + split; [done|]. eapply grows_trans, grows_trans; [exact Hg1| |exact Hg'].
      split; [by exists [member]|exists []; by rewrite app_nil_r].
    + destruct Hp1. by split.
  - intros Hn. apply IH in Hn as [Hp' Hg']; [|done]. split; [done|]. by eapply grows_trans.
Qed.

Lemma largest_le (outputs : list Output) cap :
  0 <= cap -> Forall (λ out, 0 < output_capacity out <= cap) outputs ->
  foldr Z.max 0 (output_capacity <$> outputs) <= cap.
Proof. intros Hc. induction 1; cbn in *; lia. Qed.

Lemma minimum_positive stack minimum : minimum_ring_bytes page_size stack = inr minimum -> 2 <= minimum.
Proof.
  unfold minimum_ring_bytes, ring_buffer_page_exp.
  destruct (ring_buffer_page_exp_for_page_size stack 1 page_size) as [|e] eqn:He; [done|]. cbn. intros [= <-].
  apply (page_exp_inv _ _ _ _ Hpage) in He as (_ & _ & H & _). unfold MAX_PERF_RECORD_BYTES in H. lia.
Qed.

(** One round of the loop: it stops, or starts over from the checkpoint with at
    most half the size. *)
Lemma task_round g tid owner on_exec freq cpus before cap p s e p1 s1 :
  group_ok g -> pending_ok g before -> 0 <= cap ->
  pe_perfs p = pe_perfs before -> pe_outputs p = pe_outputs before -> pe_allocated p = pe_allocated before ->
  open_cpu_perfs page_size counter_new ring_mmap raise_nofile lost_format max_rate counter_fd set_output_ioctl
    g tid owner on_exec freq cap cpus p s = (e, p1, s1) ->
  pending_ok g p1 /\ take (length (pe_perfs before)) (pe_perfs p1) = pe_perfs before /\
  take (length (pe_outputs before)) (pe_outputs p1) = pe_outputs before /\
  (exists more, pe_outputs p1 = pe_outputs before ++ more) /\
  foldr Z.max 0 (output_capacity <$> drop (length (pe_outputs before)) (pe_outputs p1)) <= cap.
Proof.
  intros Hg [Hsum Hrange Hout] Hc Ep Eo Ea Ho.
  apply open_cpus_budget in Ho as [Hp1 [[x Hx] (y & Hy & Fy)]]; [|done| |done|].
  - rewrite Ep in Hx. rewrite Eo in Hy. split; [done|]. rewrite Hx, Hy, !take_app_length, drop_app_length.
    split_and!; try done; [by exists y|]. by apply largest_le.
  - split; by rewrite ?Ea, ?Eo.
  - apply Z.div_pos; [by unfold MAX_TOTAL_RING_BUFFER_BYTES|lia].
Qed.

Lemma task_loop_budget fuel g tid owner on_exec freq cpus before cap p s r p' s' :
  group_ok g -> pending_ok g before -> 0 <= cap ->
  pe_perfs p = pe_perfs before -> pe_outputs p = pe_outputs before -> pe_allocated p = pe_allocated before ->
  task_loop fuel g tid owner on_exec freq cpus before cap p s = (r, p', s') ->
  pending_ok g p' /\ exists more, pe_outputs p' = pe_outputs before ++ more.
Proof.
  intros Hg Hb. revert cap p s. induction fuel as [|fuel IH]; intros cap p s Hc Ep Eo Ea; cbn [open_task_loop].
  { intros [= <- <- <-]. split; [destruct Hb; split; by rewrite ?Ea, ?Eo|]. exists []. by rewrite Eo, app_nil_r. }
  destruct (open_cpu_perfs _ _ _ _ _ _ _ _ _ _ _ _ _ _ _ _ _) as [[[e|inh] p1] s1] eqn:Ho;
    apply (task_round _ _ _ _ _ _ before) in Ho as (Hp1 & Et & Eto & Hmore & Hl); try done; cbv zeta.
  - destruct (_ || _).
    + intros [= <- <- <-]. split; [|done]. destruct Hp1. by split.
    + apply IH; [|by cbn|by cbn|done]. apply Z.div_pos; [|done].
      clear. induction (drop _ _); cbn in *; [done|]. lia.
  - intros [= <- <- <-]. done.
Qed.

Lemma task_loop_fuel fuel more g tid owner on_exec freq cpus before cap p s :
  group_ok g -> pending_ok g before -> 0 <= cap < 2 ^ Z.of_nat fuel -> (0 < fuel)%nat ->
  pe_perfs p = pe_perfs before -> pe_outputs p = pe_outputs before -> pe_allocated p = pe_allocated before ->
  task_loop (fuel + more) g tid owner on_exec freq cpus before cap p s =
  task_loop fuel g tid owner on_exec freq cpus before cap p s.
Proof.
  intros Hg Hb. revert cap p s. induction fuel as [|fuel IH]; intros cap p s Hc Hf Ep Eo Ea; [lia|].
  cbn [open_task_loop Nat.add].
  destruct (open_cpu_perfs _ _ _ _ _ _ _ _ _ _ _ _ _ _ _ _ _) as [[[e|inh] p1] s1] eqn:Ho; [|done].
  apply (task_round _ _ _ _ _ _ before) in Ho as (Hp1 & Et & Eto & Hmore & Hl); try done; [|lia]. cbv zeta.
  set (largest := foldr _ _ _) in *.
  destruct (minimum_ring_bytes page_size (g_stack_size g)) as [|minimum] eqn:Hmin; [by rewrite orb_true_r|].
  apply minimum_positive in Hmin. destruct (Z.ltb_spec minimum largest); [|by rewrite orb_true_r].
  cbn [negb]. rewrite orb_false_r. destruct (negb _); [done|].
  rewrite Nat2Z.inj_succ, Z.pow_succ_r in Hc by lia.
  apply IH; try done.
  - pose proof (Z.div_pos largest 2). pose proof (Z.div_lt_upper_bound largest 2 (2 ^ Z.of_nat fuel)). lia.
  - destruct fuel; [cbn in Hc; lia|lia].
Qed.

(** C21: the rings a recording opens stay within the budget they share.  Opening
    the events of a task keeps the counted bytes equal to the sum of the
    capacities of all rings and within [MAX_TOTAL_RING_BUFFER_BYTES], whatever
    the kernel refuses, keeps the rings opened before, and its halving retries
    end, so that more rounds would change nothing. *)
Theorem ring_budget_is_kept g tid owner on_exec freq cpus p s r p' s' :
  group_ok g -> pending_ok g p ->
  open_task_perfs page_size counter_new ring_mmap raise_nofile lost_format max_rate counter_fd set_output_ioctl
    g tid owner on_exec freq cpus p s = (r, p', s') ->
  group_capacity g + capacities (pe_outputs p') <= MAX_TOTAL_RING_BUFFER_BYTES /\ pending_ok g p' /\
  (exists more, pe_outputs p' = pe_outputs p ++ more) /\
  forall more, task_loop (task_fuel + more) g tid owner on_exec freq cpus p MAX_TOTAL_RING_BUFFER_BYTES p s =
    (r, p', s').
Proof.
  intros Hg Hp Ho. unfold open_task_perfs in Ho.
  assert (0 <= MAX_TOTAL_RING_BUFFER_BYTES) as Hcap by done.
  destruct (task_loop_budget _ _ _ _ _ _ _ _ _ _ _ _ _ _ Hg Hp Hcap eq_refl eq_refl eq_refl Ho) as [Hp' Hmore].
  split; [pose proof (pd_sum _ _ Hp'); pose proof (pd_range _ _ Hp'); lia|].
  split; [exact Hp'|]. split; [exact Hmore|]. intros more. rewrite <-Ho.
  apply (task_loop_fuel task_fuel); [exact Hg|exact Hp|split; [exact Hcap|reflexivity]| | | |];
    [unfold task_fuel; lia|reflexivity..].
Qed.

(** ** Reports *)

Definition succeeds {A} (m : opens E A) (P : A -> Prop) : Prop :=
  forall s a s', m s = (inr a, s') -> P a.

Lemma succeeds_map {A B} (f : A -> B) m (P : B -> Prop) : succeeds m (λ a, P (f a)) -> succeeds (map_opens f m) P.
Proof.
  intros Hm s b s'. unfold map_opens, mbind, opens_mbind. destruct (m s) as [[e|a] s1] eqn:Ha; [done|].
  intros [= <- _]. by eapply Hm.
Qed.

Lemma succeeds_retry {A} p (retry m : opens E A) (P : A -> Prop) :
  succeeds m P -> (forall e, p e = true -> succeeds retry P) -> succeeds (retry_if p retry m) P.
Proof.
  intros Hm Hr s a s'. unfold retry_if. destruct (m s) as [[e|b] s1] eqn:Hb.
  - destruct (p e) eqn:He; [|done]. by apply (Hr e He).
  - intros [= <- _]. by eapply Hm.
Qed.

Lemma succeeds_impl {A} (m : opens E A) (P Q : A -> Prop) : succeeds m P -> (forall a, P a -> Q a) -> succeeds m Q.
Proof. intros Hm HPQ s a s' Ha. by eapply HPQ, Hm. Qed.

(** The system call that gave a counter. *)
Definition opened_with (event : PerfOpenEvent) (pid cpu : Z) (opts : Opts) (c : Counter) : Prop :=
  exists s s', counter_new event pid cpu opts s = (inr c, s').

Lemma event_opened event pid cpu opts :
  succeeds (open_counter_for_event counter_new raise_nofile event pid cpu opts) (opened_with event pid cpu opts).
Proof.
  intros s c s'. unfold open_counter_for_event. destruct (counter_new _ _ _ _ s) as [[e|c1] s1] eqn:Hc.
  - destruct (is_errno _ _); [|done]. destruct (raise_nofile s1) as [[] s2]; [|done]. intros Hc2. by exists s2, s'.
  - intros [= <- <-]. by exists s, s1.
Qed.

(** Two attempts differ at most in what they exclude. *)
Definition same_but_excludes (o o' : Opts) : Prop :=
  opt_inherit o' = opt_inherit o /\ opt_layout o' = opt_layout o /\ sample_frequency o' = sample_frequency o /\
  wakeup_bytes o' = wakeup_bytes o /\ enable_on_execve o' = enable_on_execve o.

Definition excluded_as (open : Opts -> opens E Counter) (opts : Opts) (include_kernel : bool)
    (Q : Opts -> Counter -> Prop) (c : Counter * bool) : Prop :=
  exists opts', Q opts' c.1 /\ exclude_kernel opts' = negb c.2 /\ same_but_excludes opts opts' /\
    (c.2 = true -> include_kernel = true).

Lemma exclusion_reported opts include_kernel open Q :
  (forall o, succeeds (open o) (Q o)) -> exclude_kernel opts = negb include_kernel ->
  succeeds (with_exclusion_fallbacks opts include_kernel open) (excluded_as open opts include_kernel Q).
Proof.
  intros Hopen Hk. unfold with_exclusion_fallbacks, with_guest_exclusion_fallback.
  assert (forall o, exclude_kernel o = negb include_kernel -> same_but_excludes opts o ->
    succeeds (with_kernel_exclusion_fallback include_kernel (open o) (open (set_exclude_kernel true o)))
      (excluded_as open opts include_kernel Q)) as Hbase.
  { intros o Ho Hs. unfold with_kernel_exclusion_fallback. apply succeeds_retry.
    - apply succeeds_map. eapply succeeds_impl; [apply Hopen|]. intros c Hc. by exists o.
    - intros e He. apply succeeds_map. eapply succeeds_impl; [apply Hopen|]. intros c Hc.
      by exists (set_exclude_kernel true o). }
  apply succeeds_retry; [by apply Hbase|]. intros e _. by apply Hbase.
Qed.

Lemma once_reported o opts :
  exclude_kernel opts = negb (po_include_kernel o) ->
  succeeds (open_counter_once counter_new raise_nofile o opts) (λ c, exists event opts',
    opened_with event (po_pid o) (po_cpu o) opts' c.1 /\ exclude_kernel opts' = negb c.2 /\
    same_but_excludes opts opts' /\ (c.2 = true -> po_include_kernel o = true) /\
    (po_event_source o = SwCpuClock -> event = SoftwareCpuClock)).
Proof.
  intros Hk. unfold open_counter_once.
  pose proof (fun ev => exclusion_reported opts (po_include_kernel o) _ _ (event_opened ev (po_pid o) (po_cpu o)) Hk) as He.
  destruct (po_event_source o).
  - unfold with_cycle_event_fallbacks, with_software_event_fallback. apply succeeds_retry; [|intros e _];
      (eapply succeeds_impl; [apply He|]); intros c (o' & ? & ? & ? & ?); eexists _, o'; by split_and!.
  - eapply succeeds_impl; [apply He|]. intros c (o' & ? & ? & ? & ?). by exists SoftwareCpuClock, o'.
Qed.

(** After all retries, an opened event is reported as the kernel opened it:
    the successful [perf_event_open] call excluded the kernel exactly if the
    event is reported without kernel samples, which it is reported with only if
    they were asked for, and it inherited exactly what is reported; frequency,
    record layout, wakeup and enable-on-exec are always those requested. *)
Theorem opened_event_is_as_reported o page_exp s c s' :
  open_counter o page_exp s = (inr c, s') ->
  exists event opts wakeup, opened_with event (po_pid o) (po_cpu o) opts (oc_counter c) /\
    ring_wakeup_bytes page_size page_exp = inr wakeup /\
    exclude_kernel opts = negb (oc_include_kernel c) /\ opt_inherit opts = oc_inherit c /\
    opt_layout opts = record_layout o /\ sample_frequency opts = po_frequency o /\
    wakeup_bytes opts = wakeup /\ enable_on_execve opts = po_enable_on_exec o /\
    (oc_include_kernel c = true -> po_include_kernel o = true) /\
    (oc_inherit c = po_inherit o \/ po_inherit o = InheritThreads /\ oc_inherit c = InheritNone).
Proof.
  unfold open_counter_with_page_exp, mbind, opens_mbind, lift_sum.
  destruct (ring_wakeup_bytes page_size page_exp) as [|wakeup] eqn:Hw; [done|]. cbv zeta.
  set (P := λ c, exists event opts, opened_with event (po_pid o) (po_cpu o) opts (oc_counter c) /\
    exclude_kernel opts = negb (oc_include_kernel c) /\ opt_inherit opts = oc_inherit c /\
    opt_layout opts = record_layout o /\ sample_frequency opts = po_frequency o /\
    wakeup_bytes opts = wakeup /\ enable_on_execve opts = po_enable_on_exec o /\
    (oc_include_kernel c = true -> po_include_kernel o = true) /\
    (oc_inherit c = po_inherit o \/ po_inherit o = InheritThreads /\ oc_inherit c = InheritNone)).
  unfold map_open_err. destruct (retry_if _ _ _ s) as [[e|c1] s1] eqn:Hr;
    [by destruct (classify_open_error _ _ _) as [[] ?]|].
  intros [= <- <-]. assert (P c1) as (event & opts & H1 & Hrest); [|by exists event, opts, wakeup].
  revert s c1 s1 Hr. apply succeeds_retry.
  - apply succeeds_map. eapply succeeds_impl; [by apply once_reported|].
    intros c0 (event & opts & H1 & H2 & (H3 & H4 & H5 & H6 & H7) & H8 & _).
    exists event, opts. split_and!; try done. by left.
  - intros e [Hi%bool_decide_eq_true _]%andb_true_iff. apply succeeds_map.
    eapply succeeds_impl; [by apply once_reported|].
    intros c0 (event & opts & H1 & H2 & (H3 & H4 & H5 & H6 & H7) & H8 & _).
    exists event, opts. split_and!; try done. by right.
Qed.
End events.
End plans.

(** ** A kernel that denies kernel samples and large rings *)

Definition example_counter_new (event : PerfOpenEvent) (pid cpu : Z) (opts : Opts) : opens unit Z :=
  if exclude_kernel opts then mret cpu else open_fail (OsError EACCES).
Definition example_ring_mmap (c page_exp : Z) : opens unit ring_view :=
  if 5 <? page_exp then open_fail (OsError ENOMEM) else mret (mkView [] 0 0 0 0).
Definition example_group : @PerfGroup Z := mkGroup ∅ ∅ 8192 32 255 HwCpuCycles true false.
Definition example_open : (open_error + bool) * @PendingEvents Z * unit :=
  open_task_perfs 4096 example_counter_new example_ring_mmap (λ s, (false, s)) (λ s, (true, s)) None
    (λ c, c) (λ _ _, mret tt) example_group 70 70 false 999 [0; 1] (pending_events example_group) tt.

Lemma example_group_ok : group_ok example_group.
Proof. split; [done|done|]. intros fd out. cbn. by rewrite lookup_empty. Qed.

Lemma example_pending_ok : pending_ok example_group (pending_events example_group).
Proof. split; [by vm_compute|by vm_compute|constructor]. Qed.

Lemma ring_budget_is_kept_witness :
  exists p', example_open = (inr true, p', tt) /\ length (pe_outputs p') = 2%nat /\
    capacities (pe_outputs p') <= MAX_TOTAL_RING_BUFFER_BYTES.
Proof.
  destruct example_open as [[r p'] []] eqn:Ho.
  assert (r = inr true) as -> by (change r with ((r, p', tt).1.1); rewrite <-Ho; vm_compute; reflexivity).
  assert (length (pe_outputs p') = 2%nat) as Hlen
    by (change p' with ((inr true : open_error + bool, p', tt).1.2); rewrite <-Ho; vm_compute; reflexivity).
  exists p'. split; [reflexivity|]. split; [exact Hlen|].
  pose proof (ring_budget_is_kept 4096 eq_refl example_counter_new example_ring_mmap (λ s, (false, s))
    (λ s, (true, s)) None (λ c, c) (λ _ _, mret tt) example_group 70 70 false 999 [0; 1]
    (pending_events example_group) tt (inr true) p' tt example_group_ok example_pending_ok Ho) as [Hb _].
  exact Hb.
Defined.

Definition example_options : PerfOptions :=
  mkOptions 70 0 999 8192 32 1048576 255 HwCpuCycles InheritThreads false true true true false.

Lemma opened_event_is_as_reported_witness :
  exists event opts wakeup, opened_with example_counter_new event 70 0 opts 0 /\
    ring_wakeup_bytes 4096 5 = inr wakeup /\ exclude_kernel opts = true /\ opt_inherit opts = InheritThreads.
Proof.
  destruct (opened_event_is_as_reported 4096 example_counter_new (λ s, (false, s)) (λ s, (true, s))
    example_options 5 tt (mkOpened 0 InheritThreads false) tt) as (event & opts & wakeup & H1 & H2 & H3 & H4 & _).
  - vm_compute. reflexivity.
  - exists event, opts, wakeup. split; [exact H1|]. split; [exact H2|]. split; [exact H3|exact H4].
Defined.
