(* ===== verification/Text.v ===== *)
(** * Text

    What the text parsers use of [str] and [slice]: lossy UTF-8 decoding, lines,
    white space, numbers in a radix.  Bytes are numbers below 256, a [str] is the
    list of its characters. *)

From stdpp Require Import prelude list numbers strings.
From Stdlib Require Ascii String.
From S2P Require Import Prelude.
#[local] Open Scope Z_scope.

(** A literal of the source. *)
Definition chars (literal : string) : list Z :=
  (λ c, Z.of_N (Ascii.N_of_ascii c)) <$> String.list_ascii_of_string literal.

(** ** UTF-8 *)

Definition newline : Z := 10.
Definition REPLACEMENT : Z := 65533.

Definition safe_get (bytes : list Z) (i : nat) : Z := default 0 (bytes !! i).
Definition between (low byte high : Z) : bool := (low <=? byte) && (byte <=? high).
Definition is_continuation (byte : Z) : bool := between 128 byte 191.
Definition low_bits (byte : Z) : Z := Z.land byte 63.

(** The second bytes that a three- or four-byte sequence may have. *)
Definition second_of_three (byte second : Z) : bool :=
  if byte =? 224 then between 160 second 191 else if byte =? 237 then between 128 second 159 else between 128 second 191.
Definition second_of_four (byte second : Z) : bool :=
  if byte =? 240 then between 144 second 191 else if byte =? 244 then between 128 second 143 else between 128 second 191.

(** One character, or the longest prefix of one, and the bytes it takes. *)
Definition utf8_next (byte : Z) (rest : list Z) : option Z * nat :=
  let second := safe_get rest 0 in
  let third := safe_get rest 1 in
  let fourth := safe_get rest 2 in
  if byte <? 128 then (Some byte, 1%nat)
  else if between 194 byte 223 then
    if is_continuation second then (Some (Z.lor (Z.shiftl (Z.land byte 31) 6) (low_bits second)), 2%nat) else (None, 1%nat)
  else if between 224 byte 239 then
    if second_of_three byte second then
      if is_continuation third then
        (Some (Z.lor (Z.shiftl (Z.land byte 15) 12) (Z.lor (Z.shiftl (low_bits second) 6) (low_bits third))), 3%nat)
      else (None, 2%nat)
    else (None, 1%nat)
  else if between 240 byte 244 then
    if second_of_four byte second then
      if is_continuation third then
        if is_continuation fourth then
          (Some (Z.lor (Z.shiftl (Z.land byte 7) 18)
                  (Z.lor (Z.shiftl (low_bits second) 12) (Z.lor (Z.shiftl (low_bits third) 6) (low_bits fourth)))), 4%nat)
        else (None, 3%nat)
      else (None, 2%nat)
    else (None, 1%nat)
  else (None, 1%nat).

(** [String::from_utf8_lossy]: each maximal invalid prefix becomes one replacement. *)
Fixpoint lossy_loop (fuel : nat) (bytes : list Z) : list Z :=
  match fuel, bytes with
  | S fuel, byte :: rest =>
      let '(character, len) := utf8_next byte rest in
      default REPLACEMENT character :: lossy_loop fuel (drop (len - 1) rest)
  | _, _ => []
  end.
Definition from_utf8_lossy (bytes : list Z) : list Z := lossy_loop (length bytes) bytes.

(** ** Lines *)

Definition char_return : Z := 13.

(** A finished line loses its [\r]. *)
Definition end_line (line : list Z) : list Z :=
  if bool_decide (list.last line = Some char_return) then take (length line - 1) line else line.

(** [str::lines], with the characters of the current line. *)
Fixpoint lines_loop (line : list Z) (text : list Z) : list (list Z) :=
  match text with
  | [] => match line with [] => [] | _ => [line] end
  | c :: text => if c =? newline then end_line line :: lines_loop [] text else lines_loop (line ++ [c]) text
  end.
Definition str_lines (text : list Z) : list (list Z) := lines_loop [] text.

(** ** Characters *)

Definition is_ascii_whitespace (c : Z) : bool := bool_decide (c ∈ [32; 9; 10; 12; 13]).
(** [char::is_whitespace]: the Unicode property White_Space. *)
Definition is_whitespace (c : Z) : bool :=
  between 9 c 13 || between 8192 c 8202 || bool_decide (c ∈ [32; 133; 160; 5760; 8232; 8233; 8239; 8287; 12288]).
Definition is_ascii_digit (c : Z) : bool := between 48 c 57.

Fixpoint trim_start_by (p : Z -> bool) (text : list Z) : list Z :=
  match text with
  | c :: rest => if p c then trim_start_by p rest else text
  | [] => []
  end.
Definition trim_end_by (p : Z -> bool) (text : list Z) : list Z := reverse (trim_start_by p (reverse text)).
(** [str::trim]. *)
Definition str_trim (text : list Z) : list Z := trim_end_by is_whitespace (trim_start_by is_whitespace text).

(** [find] and [rfind] by a predicate. *)
Fixpoint find_char (p : Z -> bool) (text : list Z) : option nat :=
  match text with
  | [] => None
  | c :: text => if p c then Some 0%nat else S <$> find_char p text
  end.
Definition rfind_char (p : Z -> bool) (text : list Z) : option nat :=
  i ← find_char p (reverse text); Some (length text - 1 - i)%nat.

Definition has_prefix (prefix text : list Z) : bool := bool_decide (take (length prefix) text = prefix).
(** [str::contains]. *)
Fixpoint str_contains (pattern text : list Z) : bool :=
  has_prefix pattern text || match text with [] => false | _ :: text => str_contains pattern text end.

(** ** Numbers *)

Definition digit_value (c : Z) : option Z :=
  if between 48 c 57 then Some (c - 48)
  else if between 97 c 122 then Some (c - 97 + 10)
  else if between 65 c 90 then Some (c - 65 + 10)
  else None.

(** Digits up to a maximum: [None] for another character or an overflow. *)
Fixpoint digits_value (max radix value : Z) (text : list Z) : option Z :=
  match text with
  | [] => Some value
  | c :: text =>
      d ← digit_value c;
      if (d <? radix) && (value * radix + d <=? max) then digits_value max radix (value * radix + d) text else None
  end.

(** [from_str_radix] of an unsigned type: a leading [+] is allowed. *)
Definition from_str_radix (max radix : Z) (text : list Z) : option Z :=
  match text with
  | [] | [43] => None
  | 43 :: text => digits_value max radix 0 text
  | _ => digits_value max radix 0 text
  end.

(** Printing in a radix up to 16, as [{}] and [{:x}] do for at most 64 bits. *)
Definition digit_char (d : Z) : Z := if d <? 10 then 48 + d else 97 + d - 10.
Fixpoint radix_loop (fuel : nat) (radix n : Z) (acc : list Z) : list Z :=
  match fuel with
  | O => acc
  | S fuel => if n / radix =? 0 then digit_char (n mod radix) :: acc else radix_loop fuel radix (n / radix) (digit_char (n mod radix) :: acc)
  end.
Definition format_radix (radix n : Z) : list Z := radix_loop 64 radix n [].
Arguments format_radix : simpl never.
Abbreviation format_hex := (format_radix 16).
Abbreviation format_dec := (format_radix 10).

(** ** Decoding line by line *)

(** A sequence stops before a line feed as it stops at the end of the bytes. *)
Lemma utf8_next_line byte a b :
  utf8_next byte (a ++ newline :: b) = utf8_next byte a /\ ((utf8_next byte a).2 - 1 <= length a)%nat /\
  (1 <= (utf8_next byte a).2)%nat.
Proof.
  assert (forall x, second_of_three x newline = false /\ second_of_three x 0 = false /\ second_of_four x newline = false /\
    second_of_four x 0 = false /\ is_continuation newline = false /\ is_continuation 0 = false) as Hz.
  { intros x. unfold second_of_three, second_of_four. by destruct (x =? 224), (x =? 237), (x =? 240), (x =? 244). }
  destruct a as [|x [|y [|z a]]]; unfold utf8_next, safe_get; cbn [app lookup list_lookup from_option id length];
    destruct (Hz byte) as (H1 & H2 & H3 & H4 & H5 & H6); rewrite ?H1, ?H2, ?H3, ?H4, ?H5, ?H6;
    repeat (match goal with |- context [if ?c then _ else _] => destruct c end); cbn [snd]; split_and!; try done; lia.
Qed.

Lemma lossy_loop_fuel fuel : forall bytes, (length bytes <= fuel)%nat -> lossy_loop fuel bytes = from_utf8_lossy bytes.
Proof.
  induction fuel as [fuel IH] using lt_wf_ind. intros bytes Hlen. unfold from_utf8_lossy.
  destruct bytes as [|byte rest]; [by destruct fuel|]. destruct fuel as [|fuel]; [cbn in Hlen; lia|]. cbn [length lossy_loop] in *.
  destruct (utf8_next byte rest) as [c len]. f_equal.
  assert (length (drop (len - 1) rest) <= length rest)%nat by (rewrite length_drop; lia).
  rewrite (IH fuel) by lia. destruct (decide (length rest < S fuel)%nat) as [Hlt|]; [|lia]. by rewrite (IH (length rest)).
Qed.

Lemma from_utf8_lossy_cons byte rest :
  from_utf8_lossy (byte :: rest) =
  default REPLACEMENT (utf8_next byte rest).1 :: from_utf8_lossy (drop ((utf8_next byte rest).2 - 1) rest).
Proof.
  unfold from_utf8_lossy at 1. cbn [length lossy_loop]. destruct (utf8_next byte rest) as [c len]. cbn [fst snd]. f_equal.
  apply lossy_loop_fuel. rewrite length_drop. lia.
Qed.

(** Decoding line by line is decoding at once. *)
Lemma from_utf8_lossy_line a b : from_utf8_lossy (a ++ newline :: b) = from_utf8_lossy a ++ newline :: from_utf8_lossy b.
Proof.
  remember (length a) as n eqn:Hn. revert a Hn. induction n as [n IH] using lt_wf_ind. intros a ->.
  destruct a as [|byte a]; [cbn [app]; by rewrite from_utf8_lossy_cons|]. cbn [app]. rewrite !from_utf8_lossy_cons.
  destruct (utf8_next_line byte a b) as (-> & Hle & _). cbn [app]. f_equal. rewrite drop_app_le by done.
  apply (IH (length (drop ((utf8_next byte a).2 - 1) a))); [|done]. rewrite length_drop. cbn. lia.
Qed.

Lemma lines_loop_line text : forall line rest,
  lines_loop line (text ++ newline :: rest) = lines_loop line (text ++ [newline]) ++ str_lines rest.
Proof.
  induction text as [|c text IH]; intros line rest; [done|]. cbn [app lines_loop]. destruct (c =? newline); [|apply IH].
  cbn [app]. f_equal. apply IH.
Qed.

(** Bytes that end with a line, or none. *)
Definition whole_lines (bytes : list Z) : Prop := bytes = [] \/ exists text, bytes = text ++ [newline].

Lemma decoded_lines_app bytes more :
  whole_lines bytes ->
  str_lines (from_utf8_lossy (bytes ++ more)) = str_lines (from_utf8_lossy bytes) ++ str_lines (from_utf8_lossy more).
Proof.
  intros [->|[text ->]]; [done|]. rewrite <-app_assoc. cbn [app]. rewrite !from_utf8_lossy_line.
  unfold str_lines. by rewrite lines_loop_line.
Qed.

(** ** Searching *)

Lemma find_char_Some p l i :
  find_char p l = Some i -> exists a c b, l = a ++ c :: b /\ length a = i /\ p c = true /\ Forall (λ x, p x = false) a.
Proof.
  revert i. induction l as [|x l IH]; intros i; [done|]. cbn. destruct (p x) eqn:Hp.
  { intros [= <-]. by exists [], x, l. }
  destruct (find_char p l) as [j|]; [|done]. intros [= <-]. destruct (IH j eq_refl) as (a & c & b & -> & Ha & Hc & Hf).
  exists (x :: a), c, b. cbn. split_and!; [done|by rewrite Ha|done|by constructor].
Qed.

Lemma find_char_None p l : find_char p l = None -> Forall (λ x, p x = false) l.
Proof.
  induction l as [|x l IH]; [constructor|]. cbn. destruct (p x) eqn:Hp; [done|]. intros H%fmap_None. constructor; [done|by apply IH].
Qed.

Lemma rfind_char_Some p l i :
  rfind_char p l = Some i -> exists a c b, l = a ++ c :: b /\ length a = i /\ p c = true /\ Forall (λ x, p x = false) b.
Proof.
  unfold rfind_char. destruct (find_char p (reverse l)) as [j|] eqn:Hj; [|done]. cbn. intros [= <-].
  apply find_char_Some in Hj as (a & c & b & Hl & <- & Hc & Hf).
  exists (reverse b), c, (reverse a). assert (l = reverse b ++ c :: reverse a) as ->.
  { rewrite <-(reverse_involutive l), Hl, reverse_app, reverse_cons, <-app_assoc. done. }
  split_and!; [done|rewrite length_app, !length_reverse; cbn; rewrite length_reverse; lia|done|by apply Forall_reverse].
Qed.

Lemma rfind_char_None p l : rfind_char p l = None -> Forall (λ x, p x = false) l.
Proof.
  unfold rfind_char. destruct (find_char p (reverse l)) as [j|] eqn:Hj; [done|]. intros _.
  apply find_char_None in Hj. rewrite <-(reverse_involutive l). by apply Forall_reverse.
Qed.

(** ** Numbers and their digits *)

Section radix.
Context (radix : Z) (Hradix : 2 <= radix <= 16).

Lemma digit_char_value d : 0 <= d < radix -> digit_value (digit_char d) = Some d.
Proof.
  intros Hd. unfold digit_value, digit_char, between. destruct (Z.ltb_spec d 10).
  - rewrite (proj2 (Z.leb_le 48 _)), (proj2 (Z.leb_le _ 57)) by lia. cbn [andb]. f_equal. lia.
  - rewrite (proj2 (Z.leb_gt _ 57)), andb_false_r by lia. rewrite (proj2 (Z.leb_le 97 _)), (proj2 (Z.leb_le _ 122)) by lia. cbn [andb]. f_equal. lia.
Qed.

(** Parsing what was printed. *)
Lemma radix_loop_value fuel n acc max :
  0 <= n < radix ^ Z.of_nat fuel -> n <= max -> (0 < fuel)%nat -> digits_value max radix 0 (radix_loop fuel radix n acc) = digits_value max radix n acc.
Proof.
  revert n acc. induction fuel as [|fuel IH]; intros n acc Hn Hmax Hf; [lia|]. cbn [radix_loop].
  pose proof (Z.mod_pos_bound n radix ltac:(lia)) as Hd. pose proof (Z.div_mod n radix ltac:(lia)) as Hdiv.
  assert (forall v, v * radix + n mod radix = n -> digits_value max radix v (digit_char (n mod radix) :: acc) = digits_value max radix n acc) as Hstep.
  { intros v Hv. cbn [digits_value]. rewrite digit_char_value by done. cbn [mbind option_bind]. rewrite Hv.
    rewrite (proj2 (Z.ltb_lt _ radix)), (proj2 (Z.leb_le n max)) by lia. done. }
  destruct (Z.eqb_spec (n / radix) 0) as [Hz|Hz]; [apply Hstep; lia|].
  assert (0 <= n / radix < radix ^ Z.of_nat fuel) as Hq.
  { rewrite Nat2Z.inj_succ, Z.pow_succ_r in Hn by lia. split; [apply Z.div_pos; lia|apply Z.div_lt_upper_bound; lia]. }
  rewrite IH; [apply Hstep; lia|done| |].
  - enough (n / radix <= n) by lia. apply Z.div_le_upper_bound; nia.
  - destruct fuel; [|lia]. rewrite Z.pow_0_r in Hq. lia.
Qed.

Lemma word_digits n : 0 <= n <= u64_max -> 0 <= n < radix ^ Z.of_nat 64.
Proof.
  intros Hn. split; [lia|]. assert (2 ^ 64 <= radix ^ Z.of_nat 64) as Hpow by (apply Z.pow_le_mono_l; lia).
  assert (u64_max < 2 ^ 64) by (vm_compute; done). lia.
Qed.

Lemma format_radix_value n max : 0 <= n <= u64_max -> n <= max -> digits_value max radix 0 (format_radix radix n) = Some n.
Proof. intros Hn Hmax. unfold format_radix. rewrite radix_loop_value; [done|by apply word_digits|done|lia]. Qed.

Lemma format_radix_inj a b : 0 <= a <= u64_max -> 0 <= b <= u64_max -> format_radix radix a = format_radix radix b -> a = b.
Proof.
  intros Ha Hb Heq. pose proof (format_radix_value a u64_max Ha ltac:(lia)) as H1. rewrite Heq, (format_radix_value b u64_max) in H1 by lia. congruence.
Qed.

Lemma radix_loop_chars fuel n acc x : x ∈ radix_loop fuel radix n acc -> x ∈ acc \/ 48 <= x <= 57 \/ 97 <= x <= 102.
Proof.
  revert n acc. induction fuel as [|fuel IH]; intros n acc; cbn [radix_loop]; [auto|].
  pose proof (Z.mod_pos_bound n radix ltac:(lia)) as Hd.
  assert (forall y, y ∈ digit_char (n mod radix) :: acc -> y ∈ acc \/ 48 <= y <= 57 \/ 97 <= y <= 102) as Hcons.
  { intros y [->|Hy]%elem_of_cons; [right|by left]. unfold digit_char. destruct (Z.ltb_spec (n mod radix) 10); lia. }
  destruct (n / radix =? 0); [apply Hcons|]. intros [Hin|Hx]%IH; [by apply Hcons|by right].
Qed.

Lemma format_radix_chars n x : x ∈ format_radix radix n -> 48 <= x <= 57 \/ 97 <= x <= 102.
Proof. intros [[]%elem_of_nil|Hx]%radix_loop_chars. done. Qed.
End radix.
