(* ===== verification/ProcMaps.v ===== *)
(** * The maps of a process

    [src/proc_maps.rs]: the lines of [/proc/<pid>/maps].  What the kernel prints
    for any list of mappings is parsed back to exactly these mappings. *)

From stdpp Require Import prelude list numbers strings.
From S2P Require Import Prelude Text.
#[local] Open Scope Z_scope.

(** ** The parser *)

Record Region := mkRegion {
  mr_range : Z * Z;
  mr_executable : bool;
  mr_file_offset : Z;
  mr_inode : Z;
  mr_device_major : Z;
  mr_device_minor : Z;
  mr_path : list Z;
}.

(** [slice::split] at a byte. *)
Fixpoint split_bytes (separator : Z) (bytes : list Z) : list (list Z) :=
  match bytes with
  | [] => [[]]
  | b :: bytes =>
      if b =? separator then [] :: split_bytes separator bytes
      else match split_bytes separator bytes with
           | piece :: pieces => (b :: piece) :: pieces
           | [] => [[b]]
           end
  end.

(** [str::split_once]. *)
Definition split_once (separator : Z) (text : list Z) : option (list Z * list Z) :=
  i ← find_char (Z.eqb separator) text; Some (take i text, drop (S i) text).

(** [str::from_utf8]. *)
Fixpoint utf8_loop (fuel : nat) (bytes : list Z) : bool :=
  match fuel, bytes with
  | S fuel, byte :: rest =>
      match utf8_next byte rest with
      | (Some _, len) => utf8_loop fuel (drop (len - 1) rest)
      | (None, _) => false
      end
  | _, _ => true
  end.
Definition is_utf8 (bytes : list Z) : bool := utf8_loop (length bytes) bytes.

(** [trim_ascii_start]. *)
Definition trim_ascii_start (bytes : list Z) : list Z := trim_start_by is_ascii_whitespace bytes.

(** The field and what is left of the line. *)
Definition next_field (rest : list Z) : option (list Z * list Z) :=
  let trimmed := trim_ascii_start rest in
  if bool_decide (trimmed = []) then None
  else
    let stop := default (length trimmed) (find_char is_ascii_whitespace trimmed) in
    let field := take stop trimmed in
    if is_utf8 field then Some (field, drop stop trimmed) else None.

Definition parse_line (line : list Z) : option Region :=
  '(range, rest) ← next_field line;
  '(perms, rest) ← next_field rest;
  '(offset, rest) ← next_field rest;
  '(device, rest) ← next_field rest;
  '(inode, rest) ← next_field rest;
  let path := trim_ascii_start rest in
  '(start, stop) ← split_once 45 range;
  start ← from_str_radix u64_max 16 start;
  stop ← from_str_radix u64_max 16 stop;
  if stop <=? start then None
  else
    file_offset ← from_str_radix u64_max 16 offset;
    inode ← from_str_radix u64_max 10 inode;
    '(device_major, device_minor) ← split_once 58 device;
    device_major ← from_str_radix u32_max 16 device_major;
    device_minor ← from_str_radix u32_max 16 device_minor;
    Some (mkRegion (start, stop) (bool_decide (perms !! 2%nat = Some 120)) file_offset inode device_major device_minor path).

Definition parse_iter (maps : list Z) : list Region := omap parse_line (split_bytes 10 maps).

(** ** What the kernel prints *)

Definition zero_padded (width : nat) (digits : list Z) : list Z := replicate (width - length digits) 48 ++ digits.

(** A mapping, with what the region leaves out: the other permissions and the
    width of the column before the path. *)
Record Printed := mkPrinted { pr_region : Region; pr_read : bool; pr_write : bool; pr_shared : bool; pr_padding : nat }.

Definition flag (set : bool) (c : Z) : Z := if set then c else 45.
Definition range_field (r : Region) : list Z := zero_padded 8 (format_hex (mr_range r).1) ++ 45 :: zero_padded 8 (format_hex (mr_range r).2).
Definition perms_field (p : Printed) : list Z :=
  [flag (pr_read p) 114; flag (pr_write p) 119; flag (mr_executable (pr_region p)) 120; if pr_shared p then 115 else 112].
Definition device_field (r : Region) : list Z := zero_padded 2 (format_hex (mr_device_major r)) ++ 58 :: zero_padded 2 (format_hex (mr_device_minor r)).
Definition kernel_line (p : Printed) : list Z :=
  let r := pr_region p in
  range_field r ++ 32 :: perms_field p ++ 32 :: zero_padded 8 (format_hex (mr_file_offset r)) ++ 32 :: device_field r
  ++ 32 :: zero_padded 0 (format_dec (mr_inode r)) ++ 32 :: replicate (pr_padding p) 32 ++ mr_path r.
Definition kernel_maps (printed : list Printed) : list Z := flat_map (λ p, kernel_line p ++ [10]) printed.

(** A mapping is not empty, its numbers have their widths, and its path has no
    line break (the kernel escapes it) and no leading white space. *)
Record region_ok (r : Region) : Prop := {
  ro_range : 0 <= (mr_range r).1 < (mr_range r).2 /\ (mr_range r).2 <= u64_max;
  ro_offset : 0 <= mr_file_offset r <= u64_max;
  ro_inode : 0 <= mr_inode r <= u64_max;
  ro_major : 0 <= mr_device_major r <= u32_max;
  ro_minor : 0 <= mr_device_minor r <= u32_max;
  ro_newline : 10 ∉ mr_path r;
  ro_leading : match mr_path r with c :: _ => is_ascii_whitespace c = false | [] => True end;
}.

(** ** Fields *)

Definition plain (c : Z) : Prop := 33 <= c < 128.

Lemma plain_not_space c : plain c -> is_ascii_whitespace c = false.
Proof. intros Hc. apply bool_decide_eq_false. unfold plain in Hc. rewrite !elem_of_cons, elem_of_nil. lia. Qed.

Lemma plain_utf8 field : Forall plain field -> is_utf8 field = true.
Proof.
  unfold is_utf8. induction 1 as [|c field Hc _ IH]; [done|]. cbn [length utf8_loop]. unfold utf8_next.
  rewrite (proj2 (Z.ltb_lt c 128)) by (unfold plain in Hc; lia). cbn [drop Nat.sub]. done.
Qed.

Lemma trim_spaces n rest : trim_ascii_start (replicate n 32 ++ rest) = trim_ascii_start rest.
Proof. by induction n. Qed.

Lemma trim_plain c rest : is_ascii_whitespace c = false -> trim_ascii_start (c :: rest) = c :: rest.
Proof. intros Hc. unfold trim_ascii_start. cbn [trim_start_by]. by rewrite Hc. Qed.

Lemma find_char_skip p l c rest : Forall (λ x, p x = false) l -> p c = true -> find_char p (l ++ c :: rest) = Some (length l).
Proof. intros Hl Hc. induction Hl as [|x l Hx _ IH]; cbn; [by rewrite Hc|]. by rewrite Hx, IH. Qed.

Lemma next_field_plain n field rest :
  field <> [] -> Forall plain field -> next_field (replicate n 32 ++ field ++ 32 :: rest) = Some (field, 32 :: rest).
Proof.
  intros Hne Hf. unfold next_field. rewrite trim_spaces. destruct field as [|c field]; [done|]. pose proof (Forall_inv Hf) as Hc.
  change ((c :: field) ++ 32 :: rest) with (c :: (field ++ 32 :: rest)). rewrite trim_plain by by apply plain_not_space.
  change (c :: field ++ 32 :: rest) with ((c :: field) ++ 32 :: rest). rewrite bool_decide_eq_false_2 by done.
  rewrite (find_char_skip _ (c :: field) 32 rest); [|eapply Forall_impl; [done|apply plain_not_space]|done].
  change (default (length ((c :: field) ++ 32 :: rest)) (Some (length (c :: field)))) with (length (c :: field)).
  rewrite take_app_length, drop_app_length. by rewrite plain_utf8.
Qed.

Lemma split_once_skip c l rest : c ∉ l -> split_once c (l ++ c :: rest) = Some (l, rest).
Proof.
  intros Hc. unfold split_once. rewrite find_char_skip; [|apply list.Forall_forall; intros x Hx; apply Z.eqb_neq; by intros ->|apply Z.eqb_refl].
  cbn [mbind option_bind]. rewrite take_app_length. f_equal. f_equal. rewrite drop_app_ge by lia. by replace (S (length l) - length l)%nat with 1%nat by lia.
Qed.

(** *** Numbers *)

Lemma digits_value_zeros max radix n text :
  0 <= max -> 0 < radix -> digits_value max radix 0 (replicate n 48 ++ text) = digits_value max radix 0 text.
Proof.
  intros Hmax Hr. induction n as [|n IH]; [done|]. cbn [replicate app digits_value]. cbn [digit_value between Z.leb Z.compare Pos.compare Pos.compare_cont andb].
  cbn [mbind option_bind]. rewrite (proj2 (Z.ltb_lt (48 - 48) radix)), (proj2 (Z.leb_le _ max)) by lia. exact IH.
Qed.

Lemma from_str_radix_digits max radix text :
  text <> [] -> 43 ∉ text -> from_str_radix max radix text = digits_value max radix 0 text.
Proof.
  intros Hne Hplus. unfold from_str_radix. destruct text as [|c text]; [done|]. apply not_elem_of_cons in Hplus as [Hc _].
  destruct (Z.eq_dec c 43) as [->|Hn]; [done|]. repeat (case_match; try done).
Qed.

Section numbers.
Context (radix : Z) (Hradix : 2 <= radix <= 16).

Lemma format_radix_nonempty n : format_radix radix n <> [].
Proof.
  unfold format_radix. assert (forall fuel n acc, (fuel <> 0)%nat \/ acc <> [] -> radix_loop fuel radix n acc <> []) as Hall; [|by apply Hall; left].
  intros fuel. induction fuel as [|fuel IH]; intros m acc [Hf|Ha]; cbn [radix_loop]; [done|done|..]; (destruct (m / radix =? 0); [done|]); apply IH; by right.
Qed.

Lemma zero_padded_chars width n x : x ∈ zero_padded width (format_radix radix n) -> 48 <= x <= 57 \/ 97 <= x <= 102.
Proof.
  unfold zero_padded. intros [[-> _]%elem_of_replicate|Hx]%elem_of_app; [lia|]. by apply format_radix_chars in Hx.
Qed.

Lemma zero_padded_plain width n : Forall plain (zero_padded width (format_radix radix n)).
Proof. apply list.Forall_forall. intros x Hx%zero_padded_chars. unfold plain. lia. Qed.

Lemma zero_padded_nonempty width n : zero_padded width (format_radix radix n) <> [].
Proof. unfold zero_padded. intros [_ Hnil]%app_nil. by apply format_radix_nonempty in Hnil. Qed.

Lemma zero_padded_value width n max :
  0 <= n <= max -> max <= u64_max -> from_str_radix max radix (zero_padded width (format_radix radix n)) = Some n.
Proof.
  intros Hn Hmax. rewrite from_str_radix_digits; [|apply zero_padded_nonempty|intros Hx%zero_padded_chars; lia].
  unfold zero_padded. rewrite digits_value_zeros by lia. apply format_radix_value; lia.
Qed.
End numbers.

(** *** Lines *)

Lemma next_field_first field rest : field <> [] -> Forall plain field -> next_field (field ++ 32 :: rest) = Some (field, 32 :: rest).
Proof. exact (next_field_plain 0 field rest). Qed.
Lemma next_field_next field rest : field <> [] -> Forall plain field -> next_field (32 :: field ++ 32 :: rest) = Some (field, 32 :: rest).
Proof. exact (next_field_plain 1 field rest). Qed.

Lemma joined_plain width a separator b :
  plain separator -> Forall plain (zero_padded width (format_hex a) ++ separator :: zero_padded width (format_hex b)).
Proof. intros Hs. apply Forall_app. split; [|constructor; [done|]]; apply zero_padded_plain; lia. Qed.

Lemma perms_plain p : Forall plain (perms_field p).
Proof. unfold perms_field, flag, plain. apply list.Forall_forall. intros x.
  rewrite !elem_of_cons, elem_of_nil. destruct (pr_read p), (pr_write p), (pr_shared p), (mr_executable (pr_region p)); lia.
Qed.

Lemma path_trimmed padding path :
  match path with c :: _ => is_ascii_whitespace c = false | [] => True end -> trim_ascii_start (32 :: replicate padding 32 ++ path) = path.
Proof.
  intros Hlead. change (32 :: replicate padding 32 ++ path) with (replicate (S padding) 32 ++ path). rewrite trim_spaces.
  destruct path as [|c path]; [done|by apply trim_plain].
Qed.

Lemma kernel_line_parses p : region_ok (pr_region p) -> parse_line (kernel_line p) = Some (pr_region p).
Proof.
  intros [[Hstart Hstop] Hoff Hino Hmaj Hmin _ Hlead]. assert (2 <= 16 <= 16) as H16 by lia. assert (2 <= 10 <= 16) as H10 by lia.
  assert (u32_max <= u64_max) as Hw by (vm_compute; done). unfold parse_line, kernel_line. cbv zeta.
  rewrite next_field_first; [|by intros [_ ?]%app_nil|by apply joined_plain]. cbn [mbind option_bind].
  rewrite next_field_next; [|done|apply perms_plain]. cbn [mbind option_bind].
  rewrite next_field_next; [|by apply zero_padded_nonempty|by apply zero_padded_plain]. cbn [mbind option_bind].
  rewrite next_field_next; [|by intros [_ ?]%app_nil|by apply joined_plain]. cbn [mbind option_bind].
  rewrite next_field_next; [|by apply zero_padded_nonempty|by apply zero_padded_plain]. cbn [mbind option_bind].
  rewrite path_trimmed by done. unfold range_field, device_field.
  rewrite !split_once_skip by (intros Hx; apply zero_padded_chars in Hx; lia). cbn [mbind option_bind].
  rewrite !zero_padded_value by lia. cbn [mbind option_bind]. rewrite (proj2 (Z.leb_gt _ _)) by lia.
  destruct p as [[[start stop] executable off ino maj min path] rd wr sh n]. cbn. by destruct executable.
Qed.

(** *** Files *)

Lemma split_bytes_line separator line rest : separator ∉ line -> split_bytes separator (line ++ separator :: rest) = line :: split_bytes separator rest.
Proof.
  induction line as [|c line IH]; intros Hnot; cbn [split_bytes app]; [by rewrite Z.eqb_refl|]. apply not_elem_of_cons in Hnot as [Hc Hnot].
  rewrite (proj2 (Z.eqb_neq c separator)) by done. by rewrite IH.
Qed.

Lemma plain_no_newline l : Forall plain l -> 10 ∉ l.
Proof. intros Hl Hin. rewrite list.Forall_forall in Hl. specialize (Hl 10 Hin). unfold plain in Hl. lia. Qed.

Lemma kernel_line_one_line p : region_ok (pr_region p) -> 10 ∉ kernel_line p.
Proof.
  intros [_ _ _ _ _ Hnl _]. assert (2 <= 16 <= 16) as H16 by lia. assert (2 <= 10 <= 16) as H10 by lia.
  assert (forall l rest, Forall plain l -> 10 ∉ rest -> 10 ∉ l ++ 32 :: rest) as Hcons.
  { intros l rest Hl Hrest. rewrite not_elem_of_app, not_elem_of_cons. split_and!; [by apply plain_no_newline|lia|done]. }
  unfold kernel_line. cbv zeta. repeat apply Hcons; [by apply joined_plain|apply perms_plain|by apply zero_padded_plain|by apply joined_plain|by apply zero_padded_plain|].
  rewrite not_elem_of_app. split; [|done]. intros [? _]%elem_of_replicate. lia.
Qed.

Lemma parse_printed printed :
  Forall (λ p, region_ok (pr_region p)) printed -> parse_iter (kernel_maps printed) = pr_region <$> printed.
Proof.
  unfold parse_iter, kernel_maps. induction 1 as [|p printed Hp _ IH]; [done|]. cbn [flat_map]. rewrite <-app_assoc.
  change ([10] ++ ?x) with (10 :: x). rewrite split_bytes_line by by apply kernel_line_one_line. cbn [omap list_omap].
  by rewrite kernel_line_parses, IH.
Qed.

(** C30: whatever mappings a process has, with any permissions, inodes, devices
    and paths, the maps file that the kernel prints for them is parsed back to
    exactly these mappings, in order. *)
Theorem printed_maps_parse_back printed :
  Forall (λ p, region_ok (pr_region p)) printed -> parse_iter (kernel_maps printed) = pr_region <$> printed.
Proof. apply parse_printed. Qed.

Definition sample_printed : list Printed :=
  [ mkPrinted (mkRegion (4194304, 4243456) true 0 1321238 8 2 (chars "/usr/bin/cat")) true false false 20;
    mkPrinted (mkRegion (6344704, 6479872) false 0 0 0 0 []) true true false 0 ].

Lemma printed_maps_parse_back_witness : parse_iter (kernel_maps sample_printed) = pr_region <$> sample_printed.
Proof.
  apply printed_maps_parse_back. repeat constructor; cbn; try (vm_compute; intuition discriminate); rewrite ?elem_of_cons, ?elem_of_nil; lia.
Defined.

Example sample_line_printed :
  take 38 (kernel_maps sample_printed) = chars "00400000-0040c000 r-xp 00000000 08:02 ".
Proof. vm_compute. reflexivity. Qed.
