(* ===== verification/PythonNames.v ===== *)
(** * Python runtimes

    How the recorder recognises a Python runtime: the names of its binary and of
    its shared library ([src/lib.rs]), and a command line or an environment that
    turns perf support on ([src/linux/mod.rs]). *)

From stdpp Require Import prelude list numbers strings.
From S2P Require Import Prelude Text ProcMaps.
#[local] Open Scope Z_scope.

(** ** Names *)

Definition ascii_lower (c : Z) : Z := if between 65 c 90 then c + 32 else c.
Definition eq_ignore_ascii_case (a b : list Z) : bool := bool_decide (ascii_lower <$> a = ascii_lower <$> b).
Definition strip_ascii_prefix (value prefix : list Z) : option (list Z) :=
  if (length prefix <=? length value)%nat && eq_ignore_ascii_case (take (length prefix) value) prefix
  then Some (drop (length prefix) value) else None.

Definition nonempty_digits (part : list Z) : bool := negb (bool_decide (part = [])) && forallb is_ascii_digit part.
Definition is_dotted_numeric (value : list Z) : bool :=
  negb (bool_decide (value = [])) && forallb nonempty_digits (split_bytes 46 value).
Definition is_supported_python_abi_tag (b : Z) : bool := bool_decide (b = 100 \/ b = 116).

Definition ends_version (c : Z) : bool := negb (is_ascii_digit c) && negb (c =? 46).
Definition is_python_version_with_optional_abi_suffix (value : list Z) : bool :=
  let version_end := default (length value) (find_char ends_version value) in
  let version := take version_end value in
  let abi_suffix := drop version_end value in
  let version_ok := if bool_decide (46 ∈ version) then is_dotted_numeric version
                    else (length version =? 1)%nat && forallb is_ascii_digit version in
  version_ok && forallb is_supported_python_abi_tag abi_suffix.

Definition is_python_executable_name (basename : list Z) : bool :=
  match strip_ascii_prefix basename (chars "python") with
  | Some rest => bool_decide (rest = []) || is_python_version_with_optional_abi_suffix rest
  | None => false
  end.

(** [str::find] of a string. *)
Fixpoint find_str (pattern text : list Z) : option nat :=
  if has_prefix pattern text then Some 0%nat
  else match text with [] => None | _ :: text => S <$> find_str pattern text end.

Definition lib_name_matches_libpython (lib : list Z) : bool :=
  match strip_ascii_prefix lib (chars "libpython") with
  | None => false
  | Some rest =>
      match find_str (chars ".so") rest with
      | Some pos =>
          let tail := drop (pos + 3) rest in
          is_python_version_with_optional_abi_suffix (take pos rest) && (bool_decide (tail = []) || has_prefix [46] tail)
      | None => false
      end
      || match find_str (chars ".dylib") rest with
         | Some pos => is_python_version_with_optional_abi_suffix (take pos rest) && bool_decide (drop (pos + 6) rest = [])
         | None => false
         end
  end.

Definition is_python_module (name : list Z) : bool := is_python_executable_name name || lib_name_matches_libpython name.

(** [Path::file_name]: the last component, unless it is the parent. *)
Definition file_name (path : list Z) : option (list Z) :=
  name ← list.last (filter (λ c, c <> [] /\ c <> [46]) (split_bytes 47 path));
  if bool_decide (name = [46; 46]) then None else Some name.

Definition is_python_runtime_module_path (module_path : list Z) : bool :=
  let name := default module_path (file_name module_path) in
  is_utf8 name && is_python_module name.

(** ** Perf support *)

Definition env_has_python_perf_support (env : list Z) : bool :=
  bool_decide (chars "PYTHONPERFSUPPORT=1" ∈ split_bytes 0 env).

Fixpoint args_have_perf_support (args : list (list Z)) : bool :=
  match args with
  | [] => false
  | arg :: args =>
      bool_decide (arg = chars "-Xperf")
      || (bool_decide (arg = chars "-X")
          && match args with
             | next :: _ => bool_decide (next = chars "perf") || has_prefix (chars "perf,") next
             | [] => false
             end)
      || args_have_perf_support args
  end.
Definition cmdline_has_python_perf_support (cmdline : list Z) : bool :=
  args_have_perf_support (filter (λ arg, arg <> []) (split_bytes 0 cmdline)).

(** ** The names of Python runtimes *)

(** A version: one digit, or at least two numbers with dots between them. *)
Inductive dotted : list Z -> Prop :=
  | dotted_two a b : nonempty_digits a = true -> nonempty_digits b = true -> dotted (a ++ 46 :: b)
  | dotted_more a v : nonempty_digits a = true -> dotted v -> dotted (a ++ 46 :: v).
Definition python_version (v : list Z) : Prop := (exists d, v = [d] /\ is_ascii_digit d = true) \/ dotted v.
Definition abi_tags (tags : list Z) : Prop := Forall (λ b, b = 100 \/ b = 116) tags.

(** Any case of the letters of a word. *)
Definition same_letters (word literal : list Z) : Prop := ascii_lower <$> word = ascii_lower <$> literal.

Inductive python_name : list Z -> Prop :=
  | name_plain word : same_letters word (chars "python") -> python_name word
  | name_versioned word v tags :
      same_letters word (chars "python") -> python_version v -> abi_tags tags -> python_name (word ++ v ++ tags)
  | name_so word v tags tail :
      same_letters word (chars "libpython") -> python_version v -> abi_tags tags -> tail = [] \/ head tail = Some 46 ->
      python_name (word ++ v ++ tags ++ chars ".so" ++ tail)
  | name_dylib word v tags :
      same_letters word (chars "libpython") -> python_version v -> abi_tags tags ->
      python_name (word ++ v ++ tags ++ chars ".dylib").

Lemma strip_ascii_prefix_spec value prefix rest :
  strip_ascii_prefix value prefix = Some rest <-> exists word, value = word ++ rest /\ same_letters word prefix.
Proof.
  unfold strip_ascii_prefix, eq_ignore_ascii_case, same_letters. split.
  - destruct (_ && _) eqn:Hok; [|done]. intros [= <-]. apply andb_true_iff in Hok as [_ Hok%bool_decide_eq_true].
    exists (take (length prefix) value). by rewrite take_drop.
  - intros (word & -> & Hw). assert (length word = length prefix) as Hl by (apply (f_equal length) in Hw; by rewrite !length_fmap in Hw).
    rewrite <- Hl, take_app_length, drop_app_length, bool_decide_eq_true_2 by done.
    rewrite (proj2 (Nat.leb_le _ _)); [done|]. rewrite length_app. lia.
Qed.

(** *** Versions *)

Lemma forallb_Forall {A} (p : A -> bool) l : forallb p l = true <-> Forall (λ x, p x = true) l.
Proof. induction l as [|x l IH]; cbn; [by split|]. by rewrite andb_true_iff, list.Forall_cons, IH. Qed.

Lemma nonempty_digits_spec part : nonempty_digits part = true <-> part <> [] /\ Forall (λ c, is_ascii_digit c = true) part.
Proof. unfold nonempty_digits. by rewrite andb_true_iff, negb_true_iff, bool_decide_eq_false, forallb_Forall. Qed.

Lemma digit_not_dot c : is_ascii_digit c = true -> c <> 46.
Proof. unfold is_ascii_digit, between. rewrite andb_true_iff, !Z.leb_le. lia. Qed.

Lemma digits_no_dot part : nonempty_digits part = true -> 46 ∉ part.
Proof. intros [_ H]%nonempty_digits_spec Hin. rewrite list.Forall_forall in H. by apply (digit_not_dot 46); [apply H|]. Qed.

Lemma split_bytes_one c part : c ∉ part -> split_bytes c part = [part].
Proof.
  induction part as [|x part IH]; [done|]. intros [Hx Hp]%not_elem_of_cons. cbn. destruct (Z.eqb_spec x c); [congruence|]. by rewrite IH.
Qed.

Lemma dotted_spec v : dotted v <-> is_dotted_numeric v = true /\ 46 ∈ v.
Proof.
  unfold is_dotted_numeric. split.
  - induction 1 as [a b Ha Hb|a v Ha Hv [IH _]].
    + split; [|apply elem_of_app; right; left]. rewrite split_bytes_line by by apply digits_no_dot.
      rewrite split_bytes_one by by apply digits_no_dot. cbn [forallb]. rewrite Ha, Hb. by destruct a.
    + split; [|apply elem_of_app; right; left]. rewrite split_bytes_line by by apply digits_no_dot.
      apply andb_true_iff in IH as [_ IH]. cbn [forallb]. rewrite Ha, IH. by destruct a.
  - intros [[_ Hs]%andb_true_iff Hd]. remember (length v) as n eqn:Hn. revert v Hs Hd Hn.
    induction n as [n IH] using lt_wf_ind. intros v Hs Hd ->.
    apply list_elem_of_split_l in Hd as (a & rest & -> & Ha). rewrite split_bytes_line in Hs by done.
    cbn [forallb] in Hs. apply andb_true_iff in Hs as [Hsa Hs]. destruct (decide (46 ∈ rest)) as [Hr|Hr].
    + apply dotted_more; [done|]. apply (IH (length rest)); [|done|done|done]. rewrite length_app. cbn. lia.
    + apply dotted_two; [done|]. rewrite split_bytes_one in Hs by done. cbn in Hs. by apply andb_true_iff in Hs as [? _].
Qed.

Lemma dotted_chars v : dotted v -> Forall (λ c, is_ascii_digit c = true \/ c = 46) v.
Proof.
  assert (forall a, nonempty_digits a = true -> Forall (λ c, is_ascii_digit c = true \/ c = 46) a) as Ha.
  { intros a [_ H]%nonempty_digits_spec. eapply Forall_impl; [exact H|]. by left. }
  induction 1 as [a b Haa Hb|a v Haa _ IH]; apply Forall_app; (split; [by apply Ha|]); constructor; auto.
Qed.

Lemma version_chars v : python_version v -> Forall (λ c, is_ascii_digit c = true \/ c = 46) v.
Proof. intros [(d & -> & Hd)|Hv]; [constructor; [by left|constructor]|by apply dotted_chars]. Qed.

Lemma version_part_spec v : Forall (λ c, is_ascii_digit c = true \/ c = 46) v ->
  (if bool_decide (46 ∈ v) then is_dotted_numeric v else (length v =? 1)%nat && forallb is_ascii_digit v) = true <-> python_version v.
Proof.
  intros Hv. unfold python_version. case_bool_decide as Hd.
  - rewrite dotted_spec. split; [by right|]. intros [(d & -> & H)|[? _]]; [|done]. apply list_elem_of_singleton in Hd as <-. done.
  - rewrite andb_true_iff, Nat.eqb_eq, forallb_Forall. split.
    + intros [Hl Hf]. left. destruct v as [|d [|]]; [done| |done]. exists d. split; [done|by apply (Forall_inv Hf)].
    + intros [(d & -> & H)|H]; [by repeat constructor|]. by apply dotted_spec in H as [_ ?].
Qed.

Lemma ends_version_false c : ends_version c = false <-> is_ascii_digit c = true \/ c = 46.
Proof. unfold ends_version. rewrite andb_false_iff, !negb_false_iff, Z.eqb_eq. done. Qed.

Lemma abi_tags_spec tags : forallb is_supported_python_abi_tag tags = true <-> abi_tags tags.
Proof.
  rewrite forallb_Forall. unfold abi_tags. rewrite !list.Forall_forall. unfold is_supported_python_abi_tag.
  by setoid_rewrite bool_decide_eq_true.
Qed.

Lemma version_with_suffix_spec value :
  is_python_version_with_optional_abi_suffix value = true <->
  exists v tags, value = v ++ tags /\ python_version v /\ abi_tags tags.
Proof.
  unfold is_python_version_with_optional_abi_suffix. split.
  - rewrite andb_true_iff, abi_tags_spec. intros [Hv Ht].
    set (n := default _ _) in *. exists (take n value), (drop n value). rewrite take_drop.
    split; [done|]. split; [|done]. apply version_part_spec; [|done]. subst n.
    destruct (find_char ends_version value) as [i|] eqn:Hf; cbn [from_option id].
    + apply find_char_Some in Hf as (a & c & b & -> & <- & _ & Hf). rewrite take_app_length.
      eapply Forall_impl; [exact Hf|]. intros x. by rewrite ends_version_false.
    + rewrite take_ge by done. eapply Forall_impl; [by apply find_char_None|]. intros x. by rewrite ends_version_false.
  - intros (v & tags & -> & Hv & Ht). pose proof (version_chars v Hv) as Hc.
    assert (default (length (v ++ tags)) (find_char ends_version (v ++ tags)) = length v) as ->.
    { assert (Forall (λ x, ends_version x = false) v) as Hno by (eapply Forall_impl; [exact Hc|]; intros x; by rewrite ends_version_false).
      destruct tags as [|c tags].
      - rewrite app_nil_r. destruct (find_char ends_version v) as [i|] eqn:Hf; [|done].
        apply find_char_Some in Hf as (a & c & b & -> & _ & Hx & _). apply Forall_app in Hno as [_ Hno]. apply Forall_inv in Hno. congruence.
      - rewrite find_char_skip; [done|done|]. apply Forall_inv in Ht. by destruct Ht as [-> | ->]. }
    rewrite take_app_length, drop_app_length, andb_true_iff, abi_tags_spec. split; [by apply version_part_spec|done].
Qed.

(** *** Finding a string *)

Lemma has_prefix_spec pattern text : has_prefix pattern text = true <-> exists rest, text = pattern ++ rest.
Proof.
  unfold has_prefix. rewrite bool_decide_eq_true. split.
  - intros H. exists (drop (length pattern) text). rewrite <- H at 1. by rewrite take_drop.
  - intros (rest & ->). by rewrite take_app_length.
Qed.

Lemma find_str_Some pattern text : forall i, find_str pattern text = Some i ->
  exists a b, text = a ++ pattern ++ b /\ length a = i.
Proof.
  induction text as [|c text IH]; intros i; cbn; destruct (has_prefix pattern _) eqn:Hp; try done.
  1,2: intros [= <-]; apply has_prefix_spec in Hp as (rest & ->); by exists [], rest.
  destruct (find_str pattern text) as [j|]; [|done]. intros [= <-]. destruct (IH j eq_refl) as (a & b & -> & <-). by exists (c :: a), b.
Qed.

(** No earlier match, since one would put [c] too early. *)
Lemma find_str_first before c after a b :
  c ∉ a -> c ∉ before -> find_str (before ++ c :: after) (a ++ (before ++ c :: after) ++ b) = Some (length a).
Proof.
  intros Ha Hb. induction a as [|x a IH].
  { set (t := [] ++ _). assert (has_prefix (before ++ c :: after) t = true) as Hp by (apply has_prefix_spec; by exists b).
    destruct t; cbn [find_str]; by rewrite Hp. }
  cbn [app find_str]. destruct (has_prefix _ _) eqn:Hp.
  2: { rewrite IH; [done|]. by apply not_elem_of_cons in Ha as [_ ?]. }
  exfalso. apply has_prefix_spec in Hp as (rest & Heq). apply (f_equal (lookup (length before))) in Heq.
  rewrite <- (app_assoc before (c :: after) rest), (lookup_app_r before) in Heq by lia. rewrite Nat.sub_diag in Heq. cbn [app lookup list_lookup] in Heq.
  change (x :: a ++ (before ++ c :: after) ++ b) with ((x :: a) ++ (before ++ c :: after) ++ b) in Heq.
  rewrite <- (app_assoc before (c :: after) b), (app_assoc (x :: a) before), lookup_app_l in Heq by (rewrite length_app; cbn; lia).
  apply list_elem_of_lookup_2, elem_of_app in Heq. tauto.
Qed.

(** A name is taken for a Python runtime exactly when it is [python], with a
    version and ABI tags or without, or [libpython] with a version, ABI tags and
    a shared-library extension, in any case of the two words. *)
Theorem python_module_names name : is_python_module name = true <-> python_name name.
Proof.
  unfold is_python_module. rewrite orb_true_iff. unfold is_python_executable_name, lib_name_matches_libpython. split.
  - intros [He|Hl].
    + destruct (strip_ascii_prefix name (chars "python")) as [rest|] eqn:Hs; [|done].
      apply strip_ascii_prefix_spec in Hs as (word & -> & Hw). apply orb_true_iff in He as [->%bool_decide_eq_true|Hv].
      { rewrite app_nil_r. by apply name_plain. }
      apply version_with_suffix_spec in Hv as (v & tags & -> & ? & ?). by apply name_versioned.
    + destruct (strip_ascii_prefix name (chars "libpython")) as [rest|] eqn:Hs; [|done].
      apply strip_ascii_prefix_spec in Hs as (word & -> & Hw). apply orb_true_iff in Hl as [Hl|Hl].
      * destruct (find_str (chars ".so") rest) as [pos|] eqn:Hf; [|done].
        apply find_str_Some in Hf as (a & b & -> & <-). rewrite take_app_length in Hl. rewrite <- drop_drop, drop_app_length in Hl.
        change (drop 3 (chars ".so" ++ b)) with b in Hl. apply andb_true_iff in Hl as [Hv Ht].
        apply version_with_suffix_spec in Hv as (v & tags & -> & ? & ?). rewrite <- app_assoc. apply name_so; [done..|].
        apply orb_true_iff in Ht as [->%bool_decide_eq_true|Ht]; [by left|]. apply has_prefix_spec in Ht as (t & ->). by right.
      * destruct (find_str (chars ".dylib") rest) as [pos|] eqn:Hf; [|done].
        apply find_str_Some in Hf as (a & b & -> & <-). rewrite take_app_length in Hl. rewrite <- drop_drop, drop_app_length in Hl.
        change (drop 6 (chars ".dylib" ++ b)) with b in Hl. apply andb_true_iff in Hl as [Hv ->%bool_decide_eq_true].
        apply version_with_suffix_spec in Hv as (v & tags & -> & ? & ?). rewrite app_nil_r, <- app_assoc. by apply name_dylib.
  - assert (forall word literal rest, same_letters word literal -> strip_ascii_prefix (word ++ rest) literal = Some rest) as Hstrip.
    { intros word literal rest Hw. apply strip_ascii_prefix_spec. by exists word. }
    assert (forall v tags, python_version v -> abi_tags tags -> is_python_version_with_optional_abi_suffix (v ++ tags) = true) as Hver.
    { intros v tags Hv Ht. apply version_with_suffix_spec. by exists v, tags. }
    assert (forall v tags c, python_version v -> abi_tags tags -> c = 115 \/ c = 121 -> c ∉ v ++ tags) as Hno.
    { intros v tags c Hv%version_chars Ht Hc. rewrite not_elem_of_app. unfold abi_tags in Ht. rewrite list.Forall_forall in Hv, Ht.
      split; [intros [Hd| ->]%Hv|intros [-> | ->]%Ht]; try (destruct Hc; discriminate). by destruct Hc as [-> | ->]. }
    destruct 1 as [word Hw|word v tags Hw Hv Ht|word v tags tail Hw Hv Ht Htail|word v tags Hw Hv Ht].
    + left. rewrite <- (app_nil_r word), Hstrip by done. done.
    + left. rewrite Hstrip, Hver by done. apply orb_true_r.
    + right. rewrite Hstrip, (app_assoc v tags) by done.
      change (chars ".so") with ([46] ++ 115 :: [111]). rewrite (find_str_first [46] 115 [111] (v ++ tags) tail).
      2: apply Hno; auto. 2: by intros ?%list_elem_of_singleton.
      rewrite take_app_length, Hver, <- drop_drop, drop_app_length by done. change (drop 3 (_ ++ tail)) with tail.
      by destruct Htail as [->|Ht']; [|destruct tail; simplify_eq/=].
    + right. rewrite Hstrip, (app_assoc v tags) by done. apply orb_true_iff. right.
      pose proof (find_str_first [46; 100] 121 (chars "lib") (v ++ tags) []) as Hf. rewrite app_nil_r in Hf.
      change ([46; 100] ++ 121 :: chars "lib") with (chars ".dylib") in Hf.
      rewrite Hf; [|apply Hno; auto|by intros [?|[?|?%not_elem_of_nil]%elem_of_cons]%elem_of_cons].
      by rewrite take_app_length, Hver, <- drop_drop, drop_app_length.
Qed.
