(* ===== verification/ProcFs.v ===== *)
(** * Process files and descendants

    [src/children.rs]: the fields of [/proc/<pid>/stat] and the search for the
    descendants of the recorded processes.  The search ends, and finds exactly
    the processes that can be reached from the roots, parents first. *)

From stdpp Require Import prelude list numbers strings gmap sorting.
From S2P Require Import Prelude Text ProcMaps.
#[local] Open Scope Z_scope.

(** ** Fields *)

(** [str::split_whitespace]. *)
Fixpoint split_whitespace (text : list Z) : list (list Z) :=
  match text with
  | [] => []
  | c :: text =>
      if is_whitespace c then split_whitespace text
      else match text with
           | next :: _ =>
               if is_whitespace next then [c] :: split_whitespace text
               else match split_whitespace text with
                    | word :: words => (c :: word) :: words
                    | [] => [[c]]
                    end
           | [] => [[c]]
           end
  end.

(** [str::from_utf8], as characters. *)
Definition from_utf8 (bytes : list Z) : option (list Z) := if is_utf8 bytes then Some (from_utf8_lossy bytes) else None.

(** [str::parse] to [i32]. *)
Definition parse_i32 (text : list Z) : option Z :=
  match text with
  | 45 :: (_ :: _) as digits => Z.opp <$> digits_value (- i32_min) 10 0 (tail digits)
  | _ => from_str_radix i32_max 10 text
  end.

Definition proc_stat_fields (stat : list Z) : option (list Z) :=
  after_comm ← rfind_char (Z.eqb 41) stat;
  if (length stat <? after_comm + 2)%nat then None else from_utf8 (drop (after_comm + 2) stat).

Definition parse_parent_pid_from_stat (stat : list Z) : option Z :=
  fields ← proc_stat_fields stat; field ← split_whitespace fields !! 1%nat; parse_i32 field.

(** ** Descendants *)

(** The children of one process that are new: what is pushed for them, the
    edges, and what is visited afterwards. *)
Fixpoint visit_children (parent : Z) (children : list Z) (visited : gset Z) : list Z * list (Z * Z) * gset Z :=
  match children with
  | [] => ([], [], visited)
  | child :: children =>
      if decide (child ∈ visited) then visit_children parent children visited
      else
        let '(pushed, edges, visited) := visit_children parent children ({[child]} ∪ visited) in
        (child :: pushed, (child, parent) :: edges, visited)
  end.

(** The loop over the stack, its top first; [None] inside is a process whose
    children cannot be read, [None] outside is the end of the fuel. *)
Fixpoint descend (children_of : Z -> option (list Z)) (fuel : nat) (stack : list Z) (visited : gset Z) (out : list (Z * Z))
    : option (option (list (Z * Z))) :=
  match fuel with
  | O => None
  | S fuel =>
      match stack with
      | [] => Some (Some out)
      | parent :: stack =>
          match children_of parent with
          | None => Some None
          | Some children =>
              let '(pushed, edges, visited) := visit_children parent children visited in
              descend children_of fuel (reverse pushed ++ stack) visited (out ++ edges)
          end
      end
  end.

(** [descendant_edges_via_proc_children]: no process is asked twice, so what
    the files hold is a function of the process. *)
Definition descendant_edges_via_proc_children (children_of : Z -> option (list Z)) (fuel : nat) (roots : list Z) : option (option (list (Z * Z))) :=
  descend children_of fuel (reverse roots) (list_to_set roots) [].

(** The listing of [/proc]: names of entries, and the stat file of each. *)
Definition listing : Type := list (list Z * option (list Z)).
Definition stat_parent (entry : list Z * option (list Z)) : option (Z * Z) :=
  pid ← (name ← from_utf8 entry.1; parse_i32 name);
  stat ← entry.2;
  ppid ← parse_parent_pid_from_stat stat;
  Some (ppid, pid).
Definition children_map (entries : listing) : gmap Z (list Z) :=
  foldl (λ m '(ppid, pid), <[ppid := default [] (m !! ppid) ++ [pid]]> m) ∅ (omap stat_parent entries).
Definition descendant_edges_via_stat (entries : listing) (roots : list Z) : option (list (Z * Z)) :=
  let m := children_map entries in
  mjoin (descend (λ pid, Some (default [] (m !! pid))) (S (length roots + length entries)) (reverse roots) (list_to_set roots) []).

(** [read_children_fast]: the children files of the threads that could be read. *)
Definition discover_children (files : list (option (list Z))) : option (list Z) :=
  let contents := omap id files in
  let children := flat_map (λ content, omap parse_i32 (split_whitespace content)) contents in
  if bool_decide (contents = []) then None else Some (remove_dups (merge_sort Z.le children)).

(** ** The search is right *)

Section search.
Context (children : Z -> list Z) (roots : list Z).

Inductive descendant : Z -> Prop :=
  | descendant_root p : p ∈ roots -> descendant p
  | descendant_child p c : descendant p -> c ∈ children p -> descendant c.

(** Between two rounds of the loop. *)
Record searching (stack : list Z) (visited : gset Z) (out : list (Z * Z)) : Prop := {
  se_visited x : x ∈ visited <-> x ∈ roots \/ x ∈ out.*1;
  se_stack x : x ∈ stack -> x ∈ visited;
  se_done p : p ∈ visited -> p ∈ stack \/ forall c, c ∈ children p -> c ∈ visited;
  se_nodup : NoDup out.*1;
  se_new x : x ∈ out.*1 -> x ∉ roots;
  se_edges c p : (c, p) ∈ out -> c ∈ children p;
  se_order i c p : out !! i = Some (c, p) -> p ∈ roots \/ p ∈ (take i out).*1;
}.

Lemma searching_start : searching (reverse roots) (list_to_set roots) [].
Proof.
  split; cbn; try done.
  - intros x. rewrite elem_of_list_to_set, elem_of_nil. tauto.
  - intros x. by rewrite elem_of_reverse, elem_of_list_to_set.
  - intros p. rewrite elem_of_list_to_set. left. by apply elem_of_reverse.
  - constructor.
  - by intros x ?%elem_of_nil.
  - by intros c p ?%elem_of_nil.
Qed.

Lemma visit_children_spec parent cs : forall visited pushed edges visited',
  visit_children parent cs visited = (pushed, edges, visited') ->
  edges = (λ c, (c, parent)) <$> pushed /\ visited' = list_to_set pushed ∪ visited /\ NoDup pushed /\
  (forall c, c ∈ pushed -> c ∈ cs /\ c ∉ visited) /\ (forall c, c ∈ cs -> c ∈ visited').
Proof.
  induction cs as [|c cs IH]; intros visited pushed edges visited'; cbn [visit_children].
  { intros [= <- <- <-]. split_and!; [done|set_solver|constructor|set_solver|set_solver]. }
  destruct (decide (c ∈ visited)) as [Hc|Hc].
  - intros Hv. destruct (IH _ _ _ _ Hv) as (He & -> & Hn & Hp & Hcs). split_and!; [done|done|done|set_solver|set_solver].
  - destruct (visit_children parent cs _) as [[pushed0 edges0] visited0] eqn:Hv. intros [= <- <- <-].
    destruct (IH _ _ _ _ Hv) as (-> & -> & Hn & Hp & Hcs). split_and!.
    + done.
    + cbn. by rewrite (assoc_L (∪)), (comm_L (∪) (list_to_set _) {[c]}).
    + constructor; [|done]. intros Hin. apply Hp in Hin as [_ Hin]. apply Hin, elem_of_union. left. by apply elem_of_singleton.
    + intros x [->|Hx]%elem_of_cons; [split; [left|done]|]. apply Hp in Hx as [? Hx]. split; [by right|]. intros ?. apply Hx, elem_of_union. by right.
    + intros x [->|Hx]%elem_of_cons; [|by apply Hcs]. rewrite !elem_of_union, elem_of_singleton. tauto.
Qed.

Lemma searching_step parent stack visited out pushed edges visited' :
  searching (parent :: stack) visited out -> visit_children parent (children parent) visited = (pushed, edges, visited') ->
  searching (reverse pushed ++ stack) visited' (out ++ edges).
Proof.
  intros [Hv Hs Hd Hn Hnew He Ho] Hvisit. apply visit_children_spec in Hvisit as (-> & -> & Hnp & Hp & Hcs).
  assert (((λ c, (c, parent)) <$> pushed).*1 = pushed) as Hfst by (rewrite <- list_fmap_compose; apply list_fmap_id).
  assert (parent ∈ visited) as Hpar by (apply Hs; left). split.
  - intros x. rewrite fmap_app, Hfst, elem_of_union, elem_of_list_to_set, elem_of_app, Hv. tauto.
  - intros x. rewrite elem_of_app, elem_of_reverse, elem_of_union, elem_of_list_to_set. intros [?|Hx]; [by left|]. right. apply Hs. by right.
  - intros p. rewrite elem_of_union, elem_of_list_to_set, elem_of_app, elem_of_reverse. intros [Hin|Hin]; [by left; left|].
    destruct (Hd p Hin) as [[->|Hst]%elem_of_cons|Hall]; [right; exact Hcs|by left; right|]. right. intros c Hc. apply elem_of_union. right. by apply Hall.
  - rewrite fmap_app, Hfst. apply NoDup_app. split_and!; [done| |done]. intros x Hx [_ Hx']%Hp. apply Hx', Hv. by right.
  - intros x. rewrite fmap_app, Hfst, elem_of_app. intros [Hx|[_ Hx]%Hp]; [by apply Hnew|]. intros Hr. apply Hx, Hv. by left.
  - intros c p. rewrite elem_of_app. intros [Hx|Hx]; [by apply He|]. apply list_elem_of_fmap in Hx as (x & Heq & Hx). injection Heq as -> ->. by apply Hp.
  - intros i c p. rewrite lookup_app_Some. intros [Hi|[Hi Hl]].
    + rewrite take_app_le by (apply lookup_lt_Some in Hi; lia). by eapply Ho.
    + apply list_lookup_fmap_Some in Hl as (x & Heq & _). injection Heq as -> ->. apply Hv in Hpar as [?|Hpar]; [by left|]. right.
      rewrite take_app_ge by done. rewrite fmap_app, elem_of_app. by left.
Qed.

Lemma searching_end visited out : searching [] visited out ->
  forall c, c ∈ out.*1 <-> descendant c /\ c ∉ roots.
Proof.
  intros [Hv Hs Hd Hn Hnew He Ho].
  assert (forall c, descendant c -> c ∈ visited) as Hall.
  { induction 1 as [p Hp|p c _ IH Hc]; [apply Hv; by left|]. destruct (Hd p IH) as [?%elem_of_nil|H]; [done|by apply H]. }
  assert (forall n i c p, (i < n)%nat -> out !! i = Some (c, p) -> descendant c) as Hreach.
  { induction n as [|n IH]; [lia|]. intros i c p Hi Hl. apply (descendant_child p); [|apply He; by eapply list_elem_of_lookup_2].
    destruct (Ho i c p Hl) as [?|Hin]; [by constructor|]. apply list_elem_of_fmap in Hin as ([c' p'] & -> & Hin).
    apply list_elem_of_lookup_1 in Hin as (j & Hj). apply lookup_take_Some in Hj as [Hj Hji]. cbn. apply (IH j c' p'); [lia|done]. }
  intros c. split.
  - intros Hc. split; [|by apply Hnew]. apply list_elem_of_fmap in Hc as ([c' p'] & -> & Hc).
    apply list_elem_of_lookup_1 in Hc as (i & Hi). by apply (Hreach (S i) i c' p'); [lia|].
  - intros [Hc%Hall Hr]. apply Hv in Hc as [?|?]; done.
Qed.

(** With every child in a finite set, the search ends. *)
Lemma descend_ok (universe : gset Z) : (forall p c, c ∈ children p -> c ∈ universe) ->
  forall fuel stack visited out, searching stack visited out -> (length stack + size (universe ∖ visited) < fuel)%nat ->
  exists visited' out', descend (λ pid, Some (children pid)) fuel stack visited out = Some (Some out') /\ searching [] visited' out'.
Proof.
  intros Hu. induction fuel as [|fuel IH]; intros stack visited out Hs Hf; [lia|].
  destruct stack as [|parent stack]; cbn [descend]; [by exists visited, out|].
  destruct (visit_children parent (children parent) visited) as [[pushed edges] visited'] eqn:Hv.
  apply IH; [by eapply searching_step|]. apply visit_children_spec in Hv as (_ & -> & Hnp & Hp & _).
  rewrite length_app, length_reverse. cbn in Hf.
  assert (size (universe ∖ visited) = (length pushed + size (universe ∖ (list_to_set pushed ∪ visited)))%nat) as Hsize; [|lia].
  rewrite <- (size_list_to_set (C := gset Z) pushed) by done. rewrite <- size_union by set_solver. f_equal.
  apply set_eq. intros x. rewrite !elem_of_union, !elem_of_difference, !elem_of_union, elem_of_list_to_set. split.
  - intros [? ?]. destruct (decide (x ∈ pushed)); [by left|right; tauto].
  - intros [[Hx Hn]%Hp|?]; [split; [by eapply Hu|done]|tauto].
Qed.
End search.

(** ** The two scans *)

(** What the stat files say. *)
Definition stat_child (entries : listing) (parent child : Z) : Prop := (parent, child) ∈ omap stat_parent entries.
Definition scanned_children (entries : listing) (pid : Z) : list Z := default [] (children_map entries !! pid).

Lemma children_map_spec pairs : forall (m : gmap Z (list Z)) pid c,
  c ∈ default [] (foldl (λ m '(ppid, pid), <[ppid := default [] (m !! ppid) ++ [pid]]> m) m pairs !! pid) <->
  c ∈ default [] (m !! pid) \/ (pid, c) ∈ pairs.
Proof.
  induction pairs as [|[p x] pairs IH]; intros m pid c; cbn [foldl]; [rewrite elem_of_nil; tauto|]. rewrite IH, elem_of_cons.
  destruct (decide (p = pid)) as [->|Hne].
  - rewrite lookup_insert_eq. cbn [from_option id]. rewrite elem_of_app, list_elem_of_singleton. split; [|naive_solver].
    intros [[?| ->]|?]; [by left|by right; left|by right; right].
  - rewrite lookup_insert_ne by done. split; [naive_solver|]. intros [?|[[= -> ->]|?]]; [by left|done|by right].
Qed.

Lemma scanned_children_spec entries pid c : c ∈ scanned_children entries pid <-> stat_child entries pid c.
Proof. unfold scanned_children, children_map, stat_child. rewrite children_map_spec, lookup_empty. cbn. rewrite elem_of_nil. tauto. Qed.

(** A descendant of the roots, as a scan shows it. *)
Definition shown_descendant (entries : listing) (roots : list Z) : Z -> Prop := descendant (scanned_children entries) roots.


(** Two of three processes below process 7, one of them a grandchild. *)
Example scan_of_four :
  descendant_edges_via_stat
    [(chars "9", Some (chars "9 (sh) S 8 9 9")); (chars "self", None); (chars "8", Some (chars "8 (a) b) S 7 8"));
     (chars "6", Some (chars "6 (x) R 1 6")); (chars "10", Some (chars "10 (y) R 7 10"))] [7]
  = Some [(8, 7); (10, 7); (9, 8)].
Proof. vm_compute. reflexivity. Qed.
