(* ===== verification/ProcessHandle.v ===== *)
(** * Processes behind handles

    [ProcessHandle] of [src/state.rs] and [StoppedProcess] of
    [src/linux/attach.rs]: a process is watched through a pidfd or by its start
    time, read through its numeric PID, and stopped while it is attached.  The
    kernel is a state machine behind the class [Kernel]: it may answer every
    call in any way, and differently the next time. *)

From stdpp Require Import prelude list numbers strings sorting.
From S2P Require Import Prelude Text ProcMaps ProcFs.
#[local] Open Scope Z_scope.

(** ** System calls *)

(** An [io::Error] as this code inspects it: a raw OS error, or a kind. *)
Inductive SysError := Errno (code : Z) | KindNotFound | KindTimedOut | KindInvalidData | KindDiverged.
Definition EPERM : Z := 1.
Definition ENOENT : Z := 2.
Definition ESRCH : Z := 3.
Definition EBADF : Z := 9.
Definition EACCES : Z := 13.
Definition is_target_gone_io (e : SysError) : bool :=
  match e with Errno code => bool_decide (code = ENOENT \/ code = ESRCH) | KindNotFound => true | _ => false end.
Definition is_access_denied_io (e : SysError) : bool :=
  match e with Errno code => bool_decide (code = EACCES \/ code = EPERM) | _ => false end.
(** Its kind, when it is passed on. *)
Definition sys_kind (e : SysError) : ErrorKind :=
  match e with
  | Errno code => if bool_decide (code = EACCES \/ code = EPERM) then PermissionDenied else Other
  | KindNotFound | KindTimedOut => Other
  | KindInvalidData => InvalidData
  | KindDiverged => Diverged
  end.

Inductive sres (A : Type) := SOk (a : A) | SErr (e : SysError).
Arguments SOk {_} _.
Arguments SErr {_} _.

Definition sys (S A : Type) : Type := S -> sres A * S.
#[global] Instance sys_mret {S} : MRet (sys S) := λ A a s, (SOk a, s).
#[global] Instance sys_mbind {S} : MBind (sys S) := λ A B k m s,
  match m s with
  | (SOk a, s') => k a s'
  | (SErr e, s') => (SErr e, s')
  end.
Definition sys_fail {S A} (e : SysError) : sys S A := λ s, (SErr e, s).
(** A call whose error is inspected. *)
Definition sys_try {S A} (m : sys S A) : sys S (sres A) := λ s, let '(r, s) := m s in (SOk r, s).
Definition sys_lift {S A} (r : sres A) : sys S A := λ s, (r, s).
Definition sok_or {A} (e : SysError) (o : option A) : sres A := match o with Some a => SOk a | None => SErr e end.

(** [k_poll] is [poll] with a zero timeout after its retries: [None] when
    nothing is ready; [k_poll_many] answers with the events of each descriptor.
    A directory is read in one call. *)
Class Kernel (K : Type) := {
  k_read : list Z -> sys K (list Z);
  k_read_dir : list Z -> sys K (list (sres (list Z)));
  k_metadata : list Z -> sys K (Z * Z);
  k_pidfd_open : Z -> sys K Z;
  k_poll : Z -> sys K (option Z);
  k_poll_many : list Z -> sys K (list Z);
  k_pidfd_send_signal : Z -> Z -> sys K unit;
  k_kill : Z -> Z -> sys K unit;
  k_now : K -> Z * K;
  k_sleep : Z -> K -> K;
}.

Definition proc_path (pid : Z) (file : string) : list Z := chars "/proc/" ++ format_dec pid ++ chars "/" ++ chars file.

(** ** [/proc/<pid>/stat] *)

Record ProcStat := mkStat { st_state : Z; st_num_threads : Z; st_start_time : Z }.

Definition parse_proc_stat (stat : list Z) : sres ProcStat :=
  match proc_stat_fields stat with
  | None => SErr KindInvalidData
  | Some text =>
      let fields := split_whitespace text in
      match fields !! 0%nat ≫= head, fields !! 17%nat ≫= from_str_radix u64_max 10, fields !! 19%nat ≫= from_str_radix u64_max 10 with
      | Some state, Some num_threads, Some start_time => SOk (mkStat state num_threads start_time)
      | _, _, _ => SErr KindInvalidData
      end
  end.

Section handles.
Context {K : Type} `{Kernel K}.

Definition read_proc_stat (path : list Z) : sys K ProcStat := bytes ← k_read path; sys_lift (parse_proc_stat bytes).
Definition read_process_stat (pid : Z) : sys K ProcStat := read_proc_stat (proc_path pid "stat").

(** [None]: the thread group has exited. *)
Definition read_running_proc_stat (pid : Z) : sys K (option ProcStat) :=
  r ← sys_try (read_process_stat pid);
  match r with
  | SOk stat => mret (if bool_decide (st_state stat = 90 \/ st_state stat = 88) && (st_num_threads stat =? 1) then None else Some stat)
  | SErr e => if is_target_gone_io e then mret None else sys_fail e
  end.

(** ** Handles *)

Record ProcessExitWatcher := mkWatcher { wa_pidfd : Z; wa_exited : bool }.
Record ProcessHandle := mkHandle {
  ph_pid : Z;
  ph_watcher : option ProcessExitWatcher;
  ph_start_time : option Z;
}.

Definition POLLIN : Z := 1.
Definition POLLERR : Z := 8.
Definition POLLHUP : Z := 16.
Definition POLLNVAL : Z := 32.
Definition observe_revents (revents : Z) (w : ProcessExitWatcher) : sres bool * ProcessExitWatcher :=
  if negb (Z.land revents (Z.lor POLLNVAL POLLERR) =? 0) then (SErr (Errno EBADF), w)
  else if negb (Z.land revents (Z.lor POLLIN POLLHUP) =? 0) then (SOk true, mkWatcher (wa_pidfd w) true)
  else (SOk false, w).

(** Whether the process has exited. *)
Definition watcher_poll : sys (ProcessExitWatcher * K) bool := λ '(w, k),
  if wa_exited w then (SOk true, (w, k))
  else
    match k_poll (wa_pidfd w) k with
    | (SErr e, k) => (SErr e, (w, k))
    | (SOk None, k) => (SOk false, (w, k))
    | (SOk (Some revents), k) => let '(r, w) := observe_revents revents w in (r, (w, k))
    end.

Definition handle_open (pid : Z) (k : K) : ProcessHandle * K :=
  match k_pidfd_open pid k with
  | (SOk pidfd, k) => (mkHandle pid (Some (mkWatcher pidfd false)) None, k)
  | (SErr _, k) =>
      match read_process_stat pid k with
      | (SOk stat, k) => (mkHandle pid None (Some (st_start_time stat)), k)
      | (SErr _, k) => (mkHandle pid None None, k)
      end
  end.

Definition on_kernel {A} (m : sys K A) : sys (ProcessHandle * K) A := λ '(h, k), let '(r, k) := m k in (r, (h, k)).

Definition has_exited : sys (ProcessHandle * K) bool := λ '(h, k),
  match ph_watcher h with
  | Some w => let '(r, (w, k)) := watcher_poll (w, k) in (r, (mkHandle (ph_pid h) (Some w) (ph_start_time h), k))
  | None =>
      match read_running_proc_stat (ph_pid h) k with
      | (SErr e, k) => (SErr e, (h, k))
      | (SOk stat, k) =>
          (SOk (match stat with None => true | Some stat => negb (bool_decide (Some (st_start_time stat) = ph_start_time h)) end), (h, k))
      end
  end.

Definition start_time_matches (h : ProcessHandle) : sys K bool :=
  r ← sys_try (read_process_stat (ph_pid h));
  match r with
  | SOk stat => mret (bool_decide (Some (st_start_time stat) = ph_start_time h))
  | SErr e => if is_target_gone_io e then mret false else sys_fail e
  end.

Definition handle_signal (h : ProcessHandle) (signal : Z) : sys K unit :=
  match ph_watcher h with
  | Some w => k_pidfd_send_signal (wa_pidfd w) signal
  | None =>
      matches ← start_time_matches h;
      if (matches : bool) then k_kill (ph_pid h) signal else sys_fail (Errno ESRCH)
  end.

(** The read comes first; its result is given up when the process has exited. *)
Definition read_checked {A} (read : Z -> sys K A) : sys (ProcessHandle * K) A := λ '(h, k),
  let '(value, k) := read (ph_pid h) k in
  (exited ← has_exited; if (exited : bool) then sys_fail (Errno ESRCH) else sys_lift value) (h, k).

(** ** Stopping a process *)

Record ProcessSnapshot := mkProcessSnapshot { sn_tids : list Z; sn_all_stopped : bool }.
#[global] Instance ProcessSnapshot_eq_dec : EqDecision ProcessSnapshot.
Proof. solve_decision. Defined.

Fixpoint snapshot_loop (pid : Z) (entries : list (sres (list Z))) (tids : list Z) (all_stopped : bool) : sys K (list Z * bool) :=
  match entries with
  | [] => mret (tids, all_stopped)
  | SErr e :: entries => if is_target_gone_io e then snapshot_loop pid entries tids all_stopped else sys_fail e
  | SOk name :: entries =>
      match from_utf8 name ≫= from_str_radix u32_max 10 with
      | None => snapshot_loop pid entries tids all_stopped
      | Some tid =>
          r ← sys_try (read_proc_stat (proc_path pid "task/" ++ format_dec tid ++ chars "/stat"));
          match r with
          | SOk stat => snapshot_loop pid entries (tids ++ [tid]) (all_stopped && bool_decide (st_state stat = 84 \/ st_state stat = 116))
          | SErr e => if is_target_gone_io e then snapshot_loop pid entries tids all_stopped else sys_fail e
          end
      end
  end.

Definition process_snapshot (pid : Z) : sys K ProcessSnapshot :=
  entries ← k_read_dir (proc_path pid "task");
  '(tids, all_stopped) ← snapshot_loop pid entries [] true;
  let tids := remove_dups (merge_sort Z.le tids) in
  if bool_decide (pid ∈ tids) then mret (mkProcessSnapshot tids all_stopped) else sys_fail KindNotFound.

Definition without_leader (tids : list Z) (pid : Z) : list Z := filter (λ tid, tid <> pid) tids.

Definition SIGSTOP : Z := 19.
Definition SIGCONT : Z := 18.
(** Milliseconds. *)
Definition STOP_TIMEOUT : Z := 2000.
Definition STOP_POLL_INTERVAL : Z := 5.
(** A round per interval until the deadline, the round that finds it passed,
    and one more. *)
Definition stop_rounds : nat := 402.

Record StoppedProcess := mkStopped { sp_process : ProcessHandle; sp_resume_on_drop : bool }.
#[local] Abbreviation op := (sys (StoppedProcess * K)).
Definition on_process {A} (m : sys (ProcessHandle * K) A) : op A := λ '(s, k),
  let '(r, (h, k)) := m (sp_process s, k) in (r, (mkStopped h (sp_resume_on_drop s), k)).
Definition set_resume_on_drop (flag : bool) : op unit := λ '(s, k), (SOk tt, (mkStopped (sp_process s) flag, k)).
Definition get_stopped : op StoppedProcess := λ '(s, k), (SOk s, (s, k)).
Definition instant_now : op Z := λ '(s, k), let '(now, k) := k_now k in (SOk now, (s, k)).
Definition thread_sleep (ms : Z) : op unit := λ '(s, k), (SOk tt, (s, k_sleep ms k)).
Definition stopped_signal (signal : Z) : op unit := s ← get_stopped; on_process (on_kernel (handle_signal (sp_process s) signal)).

Fixpoint resume_loop (fuel : nat) (deadline : Z) : op unit :=
  match fuel with
  | O => sys_fail KindDiverged
  | S fuel =>
      r ← sys_try (on_process (read_checked process_snapshot));
      match r with
      | SOk snapshot => if sn_all_stopped snapshot then
            now ← instant_now;
            if deadline <=? now then sys_fail KindTimedOut
            else thread_sleep STOP_POLL_INTERVAL;; resume_loop fuel deadline
          else mret tt
      | SErr e => if is_target_gone_io e then mret tt else sys_fail e
      end
  end.

Definition stopped_resume : op unit :=
  s ← get_stopped;
  if negb (sp_resume_on_drop s) then mret tt
  else
    stopped_signal SIGCONT;;
    set_resume_on_drop false;;
    now ← instant_now;
    resume_loop stop_rounds (now + STOP_TIMEOUT).

(** The original error; a failed clean-up only adds to its message. *)
Definition resume_error_or {A} (e : SysError) : op A := sys_try stopped_resume;; sys_fail e.

Fixpoint stop_loop (fuel : nat) (deadline : Z) (previous : option ProcessSnapshot) : op (list Z) :=
  match fuel with
  | O => sys_fail KindDiverged
  | S fuel =>
      r ← sys_try (on_process (read_checked process_snapshot));
      match r with
      | SErr e => resume_error_or e
      | SOk snapshot =>
          if sn_all_stopped snapshot && bool_decide (previous = Some snapshot) then
            s ← get_stopped; mret (without_leader (sn_tids snapshot) (ph_pid (sp_process s)))
          else
            now ← instant_now;
            if deadline <=? now then resume_error_or KindTimedOut
            else
              thread_sleep STOP_POLL_INTERVAL;;
              stop_loop fuel deadline (if sn_all_stopped snapshot then Some snapshot else None)
      end
  end.

Definition stopped_try_new : op (list Z) :=
  initial ← on_process (read_checked process_snapshot);
  s ← get_stopped;
  if sn_all_stopped initial then mret (without_leader (sn_tids initial) (ph_pid (sp_process s)))
  else
    stopped_signal SIGSTOP;;
    set_resume_on_drop true;;
    now ← instant_now;
    stop_loop stop_rounds (now + STOP_TIMEOUT) None.

(** [Drop]: the result is ignored. *)
Definition stopped_drop : op unit := sys_try stopped_resume;; mret tt.

(** [StoppedProcess::new]: on an error the value that was being built is dropped. *)
Definition stopped_new (process : ProcessHandle) (k : K) : sres (list Z) * (StoppedProcess * K) :=
  match stopped_try_new (mkStopped process false, k) with
  | (SOk tids, s) => (SOk tids, s)
  | (SErr e, s) => let '(_, s) := stopped_drop s in (SErr e, s)
  end.
End handles.

Lemma sys_bind_ok {S A B} (m : sys S A) (f : A -> sys S B) s a s' : m s = (SOk a, s') -> (m ≫= f) s = f a s'.
Proof. unfold mbind, sys_mbind. by intros ->. Qed.
Lemma sys_bind_err {S A B} (m : sys S A) (f : A -> sys S B) s e s' : m s = (SErr e, s') -> (m ≫= f) s = (SErr e, s').
Proof. unfold mbind, sys_mbind. by intros ->. Qed.

(** ** What calls keep *)

(** Every run of [m] relates its states by [R], and fails only with [E]. *)
Definition keeps {S A} (R : S -> S -> Prop) (E : SysError -> Prop) (m : sys S A) : Prop :=
  forall s, R s (m s).2 /\ forall e, (m s).1 = SErr e -> E e.

Section keeping.
Context {S : Type} (R : S -> S -> Prop) `{!PreOrder R} (E : SysError -> Prop).

Lemma keeps_ret {A} (a : A) : keeps R E (mret a).
Proof. intros s. by split. Qed.
Lemma keeps_fail {A} e : E e -> keeps (A := A) R E (sys_fail e).
Proof. intros He s. split; [done|]. by intros ? [= <-]. Qed.
Lemma keeps_bind {A B} (m : sys S A) (f : A -> sys S B) : keeps R E m -> (forall a, keeps R E (f a)) -> keeps R E (m ≫= f).
Proof.
  intros Hm Hf s. destruct (Hm s) as [Hr He]. unfold mbind, sys_mbind. destruct (m s) as [[a|e] s1]; cbn [fst snd] in *.
  - destruct (Hf a s1) as [Hr' He']. split; [by etrans|done].
  - split; [done|]. intros ? [= <-]. by apply He.
Qed.
Lemma keeps_try_any {A} E' (m : sys S A) : keeps R E' m -> keeps R E (sys_try m).
Proof. intros Hm s. destruct (Hm s) as [Hr _]. unfold sys_try. by destruct (m s). Qed.
(** An error that was caught may be raised again. *)
Lemma keeps_try_bind {A B} (m : sys S A) (f : sres A -> sys S B) :
  keeps R E m -> (forall a, keeps R E (f (SOk a))) -> (forall e, E e -> keeps R E (f (SErr e))) -> keeps R E (sys_try m ≫= f).
Proof.
  intros Hm Hf He s. destruct (Hm s) as [Hr Herr]. unfold mbind, sys_mbind, sys_try. destruct (m s) as [[a|e] s1]; cbn [fst snd] in *.
  - destruct (Hf a s1) as [Hr' He']. split; [by etrans|done].
  - destruct (He e (Herr e eq_refl) s1) as [Hr' He']. split; [by etrans|done].
Qed.
End keeping.

Section reads.
Context {K : Type} `{Kernel K} (R : K -> K -> Prop) `{!PreOrder R} (E : SysError -> Prop).
Context (errno_ok : E (Errno EBADF) /\ E (Errno ESRCH)) (kinds_ok : E KindNotFound /\ E KindInvalidData).
Context (read_ok : forall path, keeps R E (k_read path)) (poll_ok : forall pidfd, keeps R E (k_poll pidfd)).
Context (dir_ok : forall path, keeps R E (k_read_dir path)).
Context (entry_ok : forall path k entries entry e, (k_read_dir path k).1 = SOk entries -> entry ∈ entries -> entry = SErr e -> E e).

Lemma read_proc_stat_keeps path : keeps R E (read_proc_stat path).
Proof.
  apply keeps_bind; [done|done|]. intros bytes k. split; [done|]. unfold sys_lift. cbn [fst]. unfold parse_proc_stat.
  destruct (proc_stat_fields bytes); [|by intros e [= <-]; apply kinds_ok].
  intros e. repeat case_match; intros [= <-]; apply kinds_ok.
Qed.

Lemma read_running_keeps pid : keeps R E (read_running_proc_stat pid).
Proof.
  apply keeps_try_bind; [done|apply read_proc_stat_keeps|intros stat; by apply keeps_ret|].
  intros e He. destruct (is_target_gone_io e); [by apply keeps_ret|by apply keeps_fail].
Qed.

(** The same of a call on a handle: the kernel's states, and the process it is for. *)
Definition handle_rel : relation (ProcessHandle * K) := λ s s', R s.2 s'.2 /\ ph_pid s'.1 = ph_pid s.1.
#[export] Instance handle_rel_preorder : PreOrder handle_rel.
Proof. split; [by intros [h k]|]. intros [] [] [] [? ?] [? ?]. split; [by etrans|by etrans]. Qed.

Lemma has_exited_keeps : keeps handle_rel E has_exited.
Proof.
  intros [h k]. unfold has_exited. destruct (ph_watcher h) as [w|].
  - unfold watcher_poll. destruct (wa_exited w); [by split|]. destruct (poll_ok (wa_pidfd w) k) as [Hr He].
    destruct (k_poll (wa_pidfd w) k) as [[[revents|]|e] k1]; cbn [fst snd] in *.
    + unfold observe_revents. destruct (negb _); [|destruct (negb _)]; cbn; (split; [done|]); [intros ? [= <-]; apply errno_ok|done|done].
    + by split.
    + split; [done|]. intros ? [= <-]. by apply He.
  - destruct (read_running_keeps (ph_pid h) k) as [Hr He]. destruct (read_running_proc_stat (ph_pid h) k) as [[stat|e] k1]; cbn [fst snd] in *; [by split|].
    split; [done|]. intros ? [= <-]. by apply He.
Qed.

Lemma read_checked_keeps {A} (read : Z -> sys K A) : (forall pid, keeps R E (read pid)) -> keeps handle_rel E (read_checked read).
Proof.
  intros Hread [h k]. unfold read_checked. destruct (Hread (ph_pid h) k) as [Hr He]. destruct (read (ph_pid h) k) as [value k1]; cbn [fst snd] in *.
  assert (keeps handle_rel E (exited ← has_exited; if (exited : bool) then sys_fail (Errno ESRCH) else sys_lift value)) as Hk.
  { apply keeps_bind; [apply handle_rel_preorder|apply has_exited_keeps|]. intros [|]; [apply keeps_fail; [apply handle_rel_preorder|apply errno_ok]|].
    intros s. split; [apply reflexivity|]. intros e Heq. by apply He. }
  destruct (Hk (h, k1)) as [[Hr' Hp] He']. split; [|done]. split; [by etrans|done].
Qed.

Lemma snapshot_loop_keeps pid entries : (forall entry e, entry ∈ entries -> entry = SErr e -> E e) ->
  forall tids all_stopped, keeps R E (snapshot_loop pid entries tids all_stopped).
Proof.
  induction entries as [|[name|e] entries IH]; intros Hentry tids all_stopped; cbn [snapshot_loop]; [by apply keeps_ret|..].
  all: assert (forall entry e, entry ∈ entries -> entry = SErr e -> E e) as Hrest by (intros entry e' Hin; apply Hentry; by right).
  - destruct (from_utf8 name ≫= _) as [tid|]; [|by apply IH].
    apply keeps_try_bind; [done|apply read_proc_stat_keeps|intros stat; by apply IH|].
    intros e He. destruct (is_target_gone_io e); [by apply IH|by apply keeps_fail].
  - destruct (is_target_gone_io e); [by apply IH|]. apply keeps_fail; [done|]. by apply (Hentry (SErr e)); [left|].
Qed.

Lemma process_snapshot_keeps pid : keeps R E (process_snapshot pid).
Proof.
  intros k. destruct (dir_ok (proc_path pid "task") k) as [Hr He]. pose proof (entry_ok (proc_path pid "task") k) as Hentry.
  unfold process_snapshot, mbind, sys_mbind. destruct (k_read_dir _ k) as [[entries|e] k1]; cbn [fst snd] in *.
  2: { split; [done|]. intros ? [= <-]. by apply He. }
  assert (keeps R E ('(tids, all_stopped) ← snapshot_loop pid entries [] true;
    (let tids := remove_dups (merge_sort Z.le tids) in
     if bool_decide (pid ∈ tids) then mret (mkProcessSnapshot tids all_stopped) else sys_fail KindNotFound : sys K ProcessSnapshot))) as Hk.
  { apply keeps_bind; [done|apply snapshot_loop_keeps; intros entry e Hin; by apply (Hentry entries entry e)|].
    intros [tids all_stopped]. cbn. case_bool_decide; [by apply keeps_ret|apply keeps_fail; [done|apply kinds_ok]]. }
  destruct (Hk k1) as [Hr' He']. split; [by etrans|done].
Qed.
End reads.

(** ** Signals *)

(** The signals that the kernel has accepted: only the two calls that send
    signals add to them, when they succeed. *)
Class SignalLog (K : Type) `{Kernel K} (accepted : K -> list Z) : Prop := {
  sl_read path : keeps (λ k k', accepted k' = accepted k) (λ _, True) (k_read path);
  sl_read_dir path : keeps (λ k k', accepted k' = accepted k) (λ _, True) (k_read_dir path);
  sl_poll pidfd : keeps (λ k k', accepted k' = accepted k) (λ _, True) (k_poll pidfd);
  sl_now k : accepted (k_now k).2 = accepted k;
  sl_sleep ms k : accepted (k_sleep ms k) = accepted k;
  sl_pidfd_send pidfd signal k : let '(r, k') := k_pidfd_send_signal pidfd signal k in
    accepted k' = accepted k ++ match r with SOk _ => [signal] | SErr _ => [] end;
  sl_kill pid signal k : let '(r, k') := k_kill pid signal k in
    accepted k' = accepted k ++ match r with SOk _ => [signal] | SErr _ => [] end;
}.

Section signals.
Context {K : Type} (accepted : K -> list Z) `{SignalLog K accepted}.
#[local] Abbreviation state := (StoppedProcess * K)%type.

Lemma get_stopped_bind {B} (f : StoppedProcess -> sys state B) s : (get_stopped ≫= f) s = f s.1 s.
Proof. by destruct s. Qed.
Lemma set_resume_bind {B} flag (f : unit -> sys state B) s : (set_resume_on_drop flag ≫= f) s = f tt (mkStopped (sp_process s.1) flag, s.2).
Proof. by destruct s. Qed.
Lemma now_bind {B} (f : Z -> sys state B) s : (instant_now ≫= f) s = f (k_now s.2).1 (s.1, (k_now s.2).2).
Proof. destruct s as [s k]. unfold mbind, sys_mbind, instant_now. cbn. by destruct (k_now k). Qed.
Lemma sleep_bind {B} ms (f : unit -> sys state B) s : (thread_sleep ms ≫= f) s = f tt (s.1, k_sleep ms s.2).
Proof. by destruct s. Qed.

(** Whether the process is to be resumed, and the accepted signals. *)
Definition seen (s : state) : bool * list Z := (sp_resume_on_drop s.1, accepted s.2).
Definition same_seen : relation state := λ s s', seen s' = seen s.
#[local] Instance same_seen_preorder : PreOrder same_seen.
Proof. split; unfold same_seen; [by intros ?|intros ? ? ? ? ?; congruence]. Qed.
#[local] Abbreviation same_log := (λ k k' : K, accepted k' = accepted k).
#[local] Instance same_log_preorder : PreOrder same_log.
Proof. split; [by intros ?|intros ? ? ? ? ?; congruence]. Qed.

Lemma snapshot_quiet s : same_seen s (on_process (read_checked process_snapshot) s).2.
Proof.
  destruct s as [s k]. unfold on_process.
  destruct (read_checked_keeps same_log (λ _, True) (conj I I) (conj I I) sl_read sl_poll
    process_snapshot (process_snapshot_keeps same_log (λ _, True) (conj I I) sl_read sl_read_dir (λ _ _ _ _ _ _ _ _, I)) (sp_process s, k)) as [[Hl _] _].
  destruct (read_checked process_snapshot (sp_process s, k)) as [r [h k1]]. cbn [fst snd] in Hl. unfold same_seen, seen. cbn. by rewrite Hl.
Qed.

Lemma stopped_signal_accepted signal s :
  let '(r, s') := stopped_signal signal s in
  seen s' = (sp_resume_on_drop s.1, accepted s.2 ++ match r with SOk _ => [signal] | SErr _ => [] end).
Proof.
  destruct s as [[h flag] k]. unfold stopped_signal, get_stopped, mbind, sys_mbind, on_process, on_kernel, handle_signal. cbn [sp_process].
  destruct (ph_watcher h) as [w|].
  - pose proof (sl_pidfd_send (wa_pidfd w) signal k) as Hs. destruct (k_pidfd_send_signal (wa_pidfd w) signal k) as [r k1].
    unfold seen. cbn. by rewrite Hs.
  - assert (accepted (start_time_matches h k).2 = accepted k) as Hm.
    { apply (keeps_try_bind same_log (λ _, True)); [by apply (read_proc_stat_keeps same_log (λ _, True) (conj I I) sl_read)|intros stat k0; by split|].
      intros e _. destruct (is_target_gone_io e); intros k0; by split. }
    unfold mbind, sys_mbind. destruct (start_time_matches h k) as [[[|]|e] k1]; cbn [fst snd] in *.
    + pose proof (sl_kill (ph_pid h) signal k1) as Hs. destruct (k_kill (ph_pid h) signal k1) as [r k2]. unfold seen. cbn. by rewrite Hs, Hm.
    + unfold seen. cbn. by rewrite Hm, app_nil_r.
    + unfold seen. cbn. by rewrite Hm, app_nil_r.
Qed.

Lemma resume_loop_quiet fuel deadline : forall s, same_seen s (resume_loop fuel deadline s).2.
Proof.
  assert (forall s, same_seen s (instant_now s).2) as Hnow.
  { intros [s k]. unfold instant_now. pose proof (sl_now k) as Hn. destruct (k_now k). unfold same_seen, seen. cbn in *. by rewrite Hn. }
  assert (forall ms s, same_seen s (thread_sleep ms s).2) as Hsleep.
  { intros ms [s k]. unfold thread_sleep, same_seen, seen. cbn. by rewrite sl_sleep. }
  enough (keeps same_seen (λ _, True) (resume_loop fuel deadline)) as Hk by (intros s; apply Hk).
  induction fuel as [|fuel IH]; cbn [resume_loop]; [by apply keeps_fail; [apply _|]|].
  apply keeps_try_bind; [apply _|intros s; split; [apply snapshot_quiet|done]| |].
  - intros snapshot. destruct (sn_all_stopped snapshot); [|by apply keeps_ret, _].
    apply keeps_bind; [apply _|intros s; by split; [apply Hnow|]|]. intros now. destruct (deadline <=? now); [by apply keeps_fail; [apply _|]|].
    apply keeps_bind; [apply _|intros s; by split; [apply Hsleep|]|]. by intros _.
  - intros e _. destruct (is_target_gone_io e); [by apply keeps_ret, _|by apply keeps_fail; [apply _|]].
Qed.

(** How a value that may still have to resume its process ends up: resumed, or
    the last signal was refused. *)
Inductive resumed (log : list Z) (s : state) : Prop :=
  | resumed_done : seen s = (false, log ++ [SIGCONT]) -> resumed log s
  | resumed_refused before e : seen s = (true, log) -> stopped_signal SIGCONT before = (SErr e, s) -> resumed log s.

Lemma stopped_resume_seen s :
  seen (stopped_resume s).2 = seen s /\ sp_resume_on_drop s.1 = false \/
  sp_resume_on_drop s.1 = true /\ resumed (accepted s.2) (stopped_resume s).2.
Proof.
  destruct s as [[h flag] k]. unfold stopped_resume. rewrite get_stopped_bind. cbn [sp_resume_on_drop fst snd].
  destruct flag; cbn [negb]; [right; split; [done|]|by left].
  pose proof (stopped_signal_accepted SIGCONT (mkStopped h true, k)) as Hs.
  destruct (stopped_signal SIGCONT (mkStopped h true, k)) as [[[]|e] [s1 k1]] eqn:Hsig; cbn [fst snd sp_resume_on_drop] in Hs.
  2: { rewrite (sys_bind_err _ _ _ _ _ Hsig). eapply resumed_refused; [|exact Hsig]. cbn [snd]. by rewrite Hs, app_nil_r. }
  rewrite (sys_bind_ok _ _ _ _ _ Hsig), set_resume_bind, now_bind. cbn [fst snd].
  pose proof (sl_now k1) as Hn. apply resumed_done. rewrite resume_loop_quiet. unfold seen in *. cbn [fst snd sp_resume_on_drop] in *. injection Hs as _ Hs. by rewrite Hn, Hs.
Qed.

Lemma stopped_drop_seen s : (stopped_drop s).2 = (stopped_resume s).2.
Proof. unfold stopped_drop, mbind, sys_mbind, sys_try. by destruct (stopped_resume s). Qed.

(** The states between taking over a process and dropping the value. *)
Inductive stop_state (log : list Z) (s : state) : Prop :=
  | stop_untouched : seen s = (false, log) -> stop_state log s
  | stop_pending : seen s = (true, log ++ [SIGSTOP]) -> stop_state log s
  | stop_undone : seen s = (false, log ++ [SIGSTOP; SIGCONT]) -> stop_state log s.

Lemma stopped_resume_state log s : stop_state log s -> stop_state log (stopped_resume s).2 /\
  (seen (stopped_resume s).2 = (true, log ++ [SIGSTOP]) -> exists before e, stopped_signal SIGCONT before = (SErr e, (stopped_resume s).2)).
Proof.
  intros Hs. destruct (stopped_resume_seen s) as [[Hsame Hflag]|[Hflag Hr]].
  - destruct Hs as [Hs|Hs|Hs]; rewrite Hs in Hsame.
    + split; [by apply stop_untouched|]. congruence.
    + unfold seen in Hs. congruence.
    + split; [by apply stop_undone|]. congruence.
  - assert (accepted s.2 = log ++ [SIGSTOP]) as Hlog by (unfold seen in Hs; destruct Hs; unfold seen in *; congruence).
    rewrite Hlog in Hr. destruct Hr as [Hr|before e Hr Hsig].
    + split; [apply stop_undone; by rewrite Hr, <- app_assoc|]. congruence.
    + split; [by apply stop_pending|]. intros _. by exists before, e.
Qed.

Lemma stop_loop_state log fuel deadline : forall previous s,
  seen s = (true, log ++ [SIGSTOP]) -> stop_state log (stop_loop fuel deadline previous s).2.
Proof.
  assert (forall (A : Type) e s, stop_state log s -> stop_state log (resume_error_or (A := A) e s).2) as Herr.
  { intros A e s Hs. unfold resume_error_or, mbind, sys_mbind, sys_try. pose proof (stopped_resume_state log s Hs) as [Hr _].
    by destruct (stopped_resume s). }
  induction fuel as [|fuel IH]; intros previous s Hs; cbn [stop_loop]; [by apply stop_pending|].
  pose proof (snapshot_quiet s) as Hq. unfold same_seen in Hq. rewrite Hs in Hq.
  destruct (on_process (read_checked process_snapshot) s) as [r [s1 k1]] eqn:Hsnap. cbn [snd] in Hq.
  rewrite (sys_bind_ok _ _ s r (s1, k1)) by (unfold sys_try; by rewrite Hsnap). destruct r as [snapshot|e]; [|by apply Herr, stop_pending].
  destruct (sn_all_stopped snapshot && _); [rewrite get_stopped_bind; by apply stop_pending|]. rewrite now_bind. cbn [fst snd].
  assert (seen (s1, (k_now k1).2) = (true, log ++ [SIGSTOP])) as Hq2 by (unfold seen in *; cbn [fst snd] in *; by rewrite sl_now).
  destruct (deadline <=? _); [by apply Herr, stop_pending|].
  rewrite sleep_bind. apply IH. unfold seen in *. cbn [fst snd] in *. by rewrite sl_sleep.
Qed.

Lemma stopped_try_new_state process k : stop_state (accepted k) (stopped_try_new (mkStopped process false, k)).2.
Proof.
  unfold stopped_try_new. pose proof (snapshot_quiet (mkStopped process false, k)) as Hq. unfold same_seen in Hq.
  destruct (on_process (read_checked process_snapshot) _) as [[initial|e] [s1 k1]] eqn:Hsnap; cbn [snd] in Hq.
  2: { rewrite (sys_bind_err _ _ _ _ _ Hsnap). by apply stop_untouched. }
  rewrite (sys_bind_ok _ _ _ _ _ Hsnap), get_stopped_bind. destruct (sn_all_stopped initial); [by apply stop_untouched|].
  pose proof (stopped_signal_accepted SIGSTOP (s1, k1)) as Hs. unfold seen in Hq. cbn [fst snd sp_resume_on_drop] in *. injection Hq as Hf Ha.
  destruct (stopped_signal SIGSTOP (s1, k1)) as [[[]|e] [s2 k2]] eqn:Hsig; unfold seen in Hs; cbn [fst snd] in Hs; injection Hs as Hf2 Ha2.
  2: { rewrite (sys_bind_err _ _ _ _ _ Hsig). apply stop_untouched. unfold seen. cbn [fst snd]. by rewrite Hf2, Ha2, Hf, Ha, app_nil_r. }
  rewrite (sys_bind_ok _ _ _ _ _ Hsig), set_resume_bind, now_bind. apply stop_loop_state. unfold seen. cbn [fst snd sp_resume_on_drop].
  by rewrite sl_now, Ha2, Ha.
Qed.

(** A process is stopped, resumed any number of times, and let go. *)
Fixpoint resume_often (n : nat) (s : state) : state :=
  match n with O => s | S n => resume_often n (stopped_resume s).2 end.
Definition stop_lifetime (n : nat) (process : ProcessHandle) (k : K) : state :=
  match stopped_new process k with
  | (SErr _, s) => s
  | (SOk _, s) => (stopped_drop (resume_often n s)).2
  end.

(** C14: stopping a process is undone.  Over the whole life of a stopped process,
    however the calls in between turn out, the signals that the kernel accepts
    are none or one SIGSTOP and then one SIGCONT; a SIGSTOP stays alone only
    when the last attempt to send SIGCONT was refused.  A process that was
    stopped already is sent nothing. *)
Theorem stop_is_undone (n : nat) (process : ProcessHandle) (k : K) :
  let final := stop_lifetime n process k in
  (accepted final.2 = accepted k \/ accepted final.2 = accepted k ++ [SIGSTOP; SIGCONT] \/
   accepted final.2 = accepted k ++ [SIGSTOP] /\ exists before e, stopped_signal SIGCONT before = (SErr e, final)) /\
  (forall snapshot s, on_process (read_checked process_snapshot) (mkStopped process false, k) = (SOk snapshot, s) ->
    sn_all_stopped snapshot = true -> accepted final.2 = accepted k).
Proof.
  unfold stop_lifetime, stopped_new. pose proof (stopped_try_new_state process k) as Hs.
  assert (forall log s, stop_state log s -> stop_state log (stopped_drop s).2 /\
    (seen (stopped_drop s).2 = (true, log ++ [SIGSTOP]) -> exists before e, stopped_signal SIGCONT before = (SErr e, (stopped_drop s).2))) as Hdrop
    by (intros log s; rewrite stopped_drop_seen; apply stopped_resume_state).
  assert (forall n log s, stop_state log s -> stop_state log (resume_often n s)) as Hoften.
  { clear n Hs. induction n as [|n IH]; intros log s Hs; [done|]. cbn. by apply IH, stopped_resume_state. }
  assert (forall final, stop_state (accepted k) final /\ (seen final = (true, accepted k ++ [SIGSTOP]) -> exists before e, stopped_signal SIGCONT before = (SErr e, final)) ->
    accepted final.2 = accepted k \/ accepted final.2 = accepted k ++ [SIGSTOP; SIGCONT] \/
    accepted final.2 = accepted k ++ [SIGSTOP] /\ exists before e, stopped_signal SIGCONT before = (SErr e, final)) as Hend.
  { intros final [[Hf|Hf|Hf] Hr]; unfold seen in Hf; injection Hf as Hflag Hlog; [by left|right; right|by right; left].
    split; [done|]. apply Hr. unfold seen. by rewrite Hflag, Hlog. }
  split.
  - destruct (stopped_try_new (mkStopped process false, k)) as [[tids|e] s] eqn:Hnew; cbn [snd] in Hs.
    + by apply Hend, Hdrop, Hoften.
    + destruct (stopped_drop s) as [r s'] eqn:Hd. specialize (Hdrop _ s Hs). rewrite Hd in Hdrop. by apply Hend.
  - intros snapshot s1 Hsnap Hall. pose proof (snapshot_quiet (mkStopped process false, k)) as Hq. unfold same_seen in Hq. rewrite Hsnap in Hq. cbn [snd] in Hq.
    assert (stopped_try_new (mkStopped process false, k) = (SOk (without_leader (sn_tids snapshot) (ph_pid (sp_process s1.1))), s1)) as ->.
    { unfold stopped_try_new, mbind, sys_mbind. rewrite Hsnap. unfold get_stopped. destruct s1 as [s1 k1]. by rewrite Hall. }
    rewrite stopped_drop_seen. assert (forall n s, sp_resume_on_drop s.1 = false -> seen (resume_often n s) = seen s) as Hn.
    { clear -H0. induction n as [|n IH]; intros s Hs; [done|]. cbn. destruct (stopped_resume_seen s) as [[Heq _]|[? _]]; [|congruence].
      rewrite IH; [done|]. unfold seen in Heq. congruence. }
    unfold seen in Hq. injection Hq as Hf Ha. specialize (Hn n s1 Hf). destruct (stopped_resume_seen (resume_often n s1)) as [[Heq _]|[Ht _]]; unfold seen in *; congruence.
Qed.
End signals.

(** ** Stopping ends *)

(** A clock that does not go back and passes while a thread sleeps; and calls
    that fail with OS errors. *)
Class SteadyClock (K : Type) `{Kernel K} (clock : K -> Z) : Prop := {
  sc_read path : keeps (λ k k', clock k <= clock k') (λ e, exists code, e = Errno code) (k_read path);
  sc_read_dir path : keeps (λ k k', clock k <= clock k') (λ e, exists code, e = Errno code) (k_read_dir path);
  sc_entry path k entries e : (k_read_dir path k).1 = SOk entries -> SErr e ∈ entries -> exists code, e = Errno code;
  sc_poll pidfd : keeps (λ k k', clock k <= clock k') (λ e, exists code, e = Errno code) (k_poll pidfd);
  sc_send pidfd signal : keeps (λ k k', clock k <= clock k') (λ e, exists code, e = Errno code) (k_pidfd_send_signal pidfd signal);
  sc_kill pid signal : keeps (λ k k', clock k <= clock k') (λ e, exists code, e = Errno code) (k_kill pid signal);
  sc_now k : clock k <= (k_now k).1 <= clock (k_now k).2;
  sc_sleep ms k : clock k + ms <= clock (k_sleep ms k);
}.

Section ending.
Context {K : Type} (clock : K -> Z) `{SteadyClock K clock}.
#[local] Abbreviation state := (StoppedProcess * K)%type.
#[local] Abbreviation later := (λ k k' : K, clock k <= clock k').
#[local] Abbreviation ends := (λ e, e <> KindDiverged).
#[local] Instance later_preorder : PreOrder later.
Proof. split; intros ?; intros; lia. Qed.
Definition state_later : relation state := λ s s', clock s.2 <= clock s'.2.
#[local] Instance state_later_preorder : PreOrder state_later.
Proof. split; unfold state_later; intros ?; intros; lia. Qed.

Lemma errno_ends {S A} (R : S -> S -> Prop) (m : sys S A) : keeps R (λ e, exists code, e = Errno code) m -> keeps R ends m.
Proof. intros Hm s. destruct (Hm s) as [Hr He]. split; [done|]. intros e Heq. by destruct (He e Heq) as [code ->]. Qed.

Lemma snapshot_ends : keeps state_later ends (on_process (read_checked process_snapshot)).
Proof.
  assert (forall path, keeps later ends (k_read path)) as Hread by (intros path; apply errno_ends, sc_read).
  assert (forall pidfd, keeps later ends (k_poll pidfd)) as Hpoll by (intros pidfd; apply errno_ends, sc_poll).
  assert (forall pid, keeps later ends (process_snapshot pid)) as Hsnap.
  { intros pid. apply (process_snapshot_keeps later ends); [by split|exact Hread|intros path; apply errno_ends, sc_read_dir|].
    intros path k0 entries entry e Hdir Hin ->. by destruct (sc_entry path k0 entries e Hdir Hin) as [code ->]. }
  assert (keeps (handle_rel later) ends (read_checked process_snapshot)) as Hk
    by (apply (read_checked_keeps later ends); [by split|by split|exact Hread|exact Hpoll|exact Hsnap]).
  intros [s k]. unfold on_process. destruct (Hk (sp_process s, k)) as [[Hl _] He].
  destruct (read_checked process_snapshot (sp_process s, k)) as [r [h k1]]. split; done.
Qed.

Lemma signal_ends signal : keeps state_later ends (stopped_signal signal).
Proof.
  intros [[h flag] k]. unfold stopped_signal. rewrite get_stopped_bind. unfold on_process, on_kernel. cbn [sp_process fst snd].
  assert (keeps later ends (handle_signal h signal)) as Hs.
  { unfold handle_signal. destruct (ph_watcher h) as [w|]; [apply errno_ends, sc_send|].
    apply keeps_bind; [apply _| |intros [|]; [apply errno_ends, sc_kill|by apply keeps_fail; [apply _|]]].
    apply keeps_try_bind; [apply _|apply (read_proc_stat_keeps later ends); [by split|intros path; apply errno_ends, sc_read]|intros stat; by apply keeps_ret, _|].
    intros e He. destruct (is_target_gone_io e); [by apply keeps_ret, _|by apply keeps_fail; [apply _|]]. }
  destruct (Hs k) as [Hl He]. destruct (handle_signal h signal k) as [r k1]. by split.
Qed.

Lemma resume_loop_ends deadline : forall fuel s, deadline < clock s.2 + STOP_POLL_INTERVAL * Z.of_nat fuel ->
  ends KindTimedOut /\ forall e, (resume_loop (S fuel) deadline s).1 = SErr e -> ends e.
Proof.
  induction fuel as [|fuel IH]; intros s Hd; (split; [done|]); cbn [resume_loop].
  all: destruct (snapshot_ends s) as [Hl He]; destruct (on_process (read_checked process_snapshot) s) as [r [s1 k1]] eqn:Hsnap;
    rewrite (sys_bind_ok _ _ s r (s1, k1)) by (unfold sys_try; by rewrite Hsnap); unfold state_later in Hl; cbn [fst snd] in *.
  all: destruct r as [snapshot|e']; [|by destruct (is_target_gone_io e'); [|intros ? [= <-]; apply He]].
  all: destruct (sn_all_stopped snapshot); [|done]; rewrite now_bind; cbn [fst snd]; pose proof (sc_now k1).
  all: destruct (Z.leb_spec deadline (k_now k1).1); [by intros ? [= <-]|]; rewrite sleep_bind; cbn [fst snd].
  - lia.
  - apply IH. cbn [snd]. pose proof (sc_sleep STOP_POLL_INTERVAL (k_now k1).2). lia.
Qed.

Lemma stopped_resume_ends s e : (stopped_resume s).1 = SErr e -> ends e.
Proof.
  unfold stopped_resume. rewrite get_stopped_bind. destruct (negb _); [done|].
  destruct (signal_ends SIGCONT s) as [_ He]. destruct (stopped_signal SIGCONT s) as [[[]|e'] s1] eqn:Hsig.
  2: { rewrite (sys_bind_err _ _ _ _ _ Hsig). intros [= <-]. by apply He. }
  rewrite (sys_bind_ok _ _ _ _ _ Hsig), set_resume_bind, now_bind. cbn [fst snd]. intros Heq.
  eapply (resume_loop_ends _ 401); [|exact Heq]. cbn [snd]. pose proof (sc_now s1.2). unfold STOP_TIMEOUT, STOP_POLL_INTERVAL. lia.
Qed.

Lemma stop_loop_ends deadline : forall fuel previous s, deadline < clock s.2 + STOP_POLL_INTERVAL * Z.of_nat fuel ->
  forall e, (stop_loop (S fuel) deadline previous s).1 = SErr e -> ends e.
Proof.
  assert (forall (A : Type) e s e', ends e -> (resume_error_or (A := A) e s).1 = SErr e' -> ends e') as Herr.
  { intros A e s e' He. unfold resume_error_or, mbind, sys_mbind, sys_try. destruct (stopped_resume s). by intros [= <-]. }
  induction fuel as [|fuel IH]; intros previous s Hd e; cbn [stop_loop].
  all: destruct (snapshot_ends s) as [Hl He]; destruct (on_process (read_checked process_snapshot) s) as [r [s1 k1]] eqn:Hsnap;
    rewrite (sys_bind_ok _ _ s r (s1, k1)) by (unfold sys_try; by rewrite Hsnap); unfold state_later in Hl; cbn [fst snd] in *.
  all: destruct r as [snapshot|e']; [|by apply Herr, He].
  all: destruct (sn_all_stopped snapshot && _); [by rewrite get_stopped_bind|]; rewrite now_bind; cbn [fst snd]; pose proof (sc_now k1).
  all: destruct (Z.leb_spec deadline (k_now k1).1); [by apply Herr|]; rewrite sleep_bind; cbn [fst snd].
  - lia.
  - apply IH. cbn [snd]. pose proof (sc_sleep STOP_POLL_INTERVAL (k_now k1).2). lia.
Qed.

(** C27: whatever the threads of the process do, stopping it and resuming it end
    within the time that the code allows itself: with a clock that passes, the
    rounds of the model are never used up. *)
Theorem stopping_ends (process : ProcessHandle) (k : K) (s : state) :
  (stopped_new process k).1 <> SErr KindDiverged /\ (stopped_resume s).1 <> SErr KindDiverged.
Proof.
  split; [|by intros Heq%stopped_resume_ends]. unfold stopped_new.
  assert (forall e, (stopped_try_new (mkStopped process false, k)).1 = SErr e -> ends e) as Hnew.
  { unfold stopped_try_new. destruct (snapshot_ends (mkStopped process false, k)) as [_ He].
    destruct (on_process _ (mkStopped process false, k)) as [[initial|e'] s1] eqn:Hsnap.
    2: { rewrite (sys_bind_err _ _ _ _ _ Hsnap). intros e [= <-]. by apply He. }
    rewrite (sys_bind_ok _ _ _ _ _ Hsnap), get_stopped_bind. destruct (sn_all_stopped initial); [done|].
    destruct (signal_ends SIGSTOP s1) as [_ He1]. destruct (stopped_signal SIGSTOP s1) as [[[]|e'] s2] eqn:Hsig.
    2: { rewrite (sys_bind_err _ _ _ _ _ Hsig). intros e [= <-]. by apply He1. }
    rewrite (sys_bind_ok _ _ _ _ _ Hsig), set_resume_bind, now_bind. cbn [fst snd]. intros e Heq.
    eapply (stop_loop_ends _ 401); [|exact Heq]. cbn [snd]. pose proof (sc_now s2.2). unfold STOP_TIMEOUT, STOP_POLL_INTERVAL. lia. }
  destruct (stopped_try_new (mkStopped process false, k)) as [[tids|e] s1]; [done|]. destruct (stopped_drop s1). cbn in *. specialize (Hnew e eq_refl). congruence.
Qed.
End ending.

(** ** A machine with one process *)

(** Process 7 with one thread, stopped by the last signal or not. *)
Record Machine := mkMachine { mc_clock : Z; mc_signals : list Z }.
Definition machine_stat (m : Machine) : list Z :=
  chars "7 (a) " ++ (if bool_decide (list.last (mc_signals m) = Some SIGSTOP) then [84] else [83])
  ++ chars " 1 7 7 0 -1 0 0 0 0 0 0 0 0 0 20 0 1 0 987".
Definition machine_signal (signal : Z) (m : Machine) : sres unit * Machine := (SOk tt, mkMachine (mc_clock m) (mc_signals m ++ [signal])).
#[local] Instance machine_kernel : Kernel Machine := {|
  k_read _ := λ m, (SOk (machine_stat m), m);
  k_read_dir _ := λ m, (SOk [SOk (chars "7")], m);
  k_metadata _ := λ m, (SOk (1, 2), m);
  k_pidfd_open _ := λ m, (SOk 3, m);
  k_poll _ := λ m, (SOk None, m);
  k_poll_many fds := λ m, (SOk ((λ _, 0) <$> fds), m);
  k_pidfd_send_signal _ := machine_signal;
  k_kill _ := machine_signal;
  k_now := λ m, (mc_clock m, m);
  k_sleep ms := λ m, mkMachine (mc_clock m + ms) (mc_signals m);
|}.
#[local] Instance machine_log : SignalLog Machine mc_signals.
Proof. by split. Qed.
#[local] Instance machine_steady : SteadyClock Machine mc_clock.
Proof.
  split; try (intros; intros m; cbn; split; [lia|done]); try (intros; cbn; lia).
  intros path k entries e [= <-] Hin%list_elem_of_singleton. done.
Qed.
Definition machine_process : ProcessHandle := mkHandle 7 (Some (mkWatcher 3 false)) None.

Lemma stop_is_undone_witness :
  mc_signals (stop_lifetime 1 machine_process (mkMachine 0 [])).2 = [SIGSTOP; SIGCONT] /\
  mc_signals (stop_lifetime 1 machine_process (mkMachine 0 [SIGSTOP])).2 = [SIGSTOP].
Proof.
  split.
  - destruct (stop_is_undone mc_signals 1 machine_process (mkMachine 0 [])) as [[H|[H|[H _]]] _]; [vm_compute in H; discriminate H|exact H|vm_compute in H; discriminate H].
  - apply (proj2 (stop_is_undone mc_signals 1 machine_process (mkMachine 0 [SIGSTOP]))
      (mkProcessSnapshot [7] true) (mkStopped machine_process false, mkMachine 0 [SIGSTOP])); vm_compute; reflexivity.
Defined.

Lemma stopping_ends_witness : (stopped_new machine_process (mkMachine 0 [])).1 = SOk [].
Proof.
  destruct (stopping_ends mc_clock machine_process (mkMachine 0 []) (mkStopped machine_process true, mkMachine 0 [])) as [Hn _].
  assert ((stopped_new machine_process (mkMachine 0 [])).1 = SOk [] \/ (stopped_new machine_process (mkMachine 0 [])).1 = SErr KindDiverged) as [Heq|Heq]
    by (left; vm_compute; reflexivity); [exact Heq|by destruct (Hn Heq)].
Defined.
