(* ===== verification/ProcessTable.v ===== *)
(** * The processes of a recording

    [ProcessState] and [ProcessTable] of [src/linux/mod.rs], over any kernel and
    any implementation of the unwinder of a process. *)

From stdpp Require Import prelude list numbers strings gmap.
From S2P Require Import Prelude Model Contexts ModuleTable Text ProcMaps PythonNames ProcFs ProcessHandle.
#[local] Open Scope Z_scope.

(** ** What the table needs of the others *)

(** [ProcessUnwinder] and [ElfSectionCache]; they read files. *)
Class ProcessUnwinders (K U E : Type) := {
  pu_default : U;
  pu_inherit_for_fork : U -> U;
  pu_apply_module_update : ModuleUpdate -> io (U * E * K) unit;
  pu_reuse_inherited_modules : ModuleUpdate -> io (U * E * K) unit;
  pu_should_refresh_for_uncovered_pc : Z -> U -> bool * U;
  elf_sections_remove : Z -> E -> E;
}.

(** The order in which a hash table is walked. *)
Class HashOrder (K : Type) := hash_order : list Z -> K -> list Z * K.

(** ** State *)

Section processes.
Context {K U E : Type} `{Kernel K} `{ProcessUnwinders K U E} `{HashOrder K}.

(** Device and inode of [/proc/<pid>/exe]. *)
Definition ProcessImageIdentity : Type := Z * Z.

Record ProcessState := mkState {
  ps_process : option ProcessHandle;
  ps_unwinder : option U;
  ps_image : option ProcessImageIdentity;
  ps_python_perf_support : option bool;
  ps_python_runtime : bool;
  ps_unreadable_maps_reported : bool;
  (** With the exit timestamp, when one was seen. *)
  ps_pending_retirement : option (option Z);
}.
Definition state_default : ProcessState := mkState None None None None false false None.

Definition set_process (h : option ProcessHandle) (s : ProcessState) : ProcessState :=
  mkState h (ps_unwinder s) (ps_image s) (ps_python_perf_support s) (ps_python_runtime s) (ps_unreadable_maps_reported s) (ps_pending_retirement s).
Definition set_unwinder (u : option U) (s : ProcessState) : ProcessState :=
  mkState (ps_process s) u (ps_image s) (ps_python_perf_support s) (ps_python_runtime s) (ps_unreadable_maps_reported s) (ps_pending_retirement s).
Definition set_image (image : option ProcessImageIdentity) (s : ProcessState) : ProcessState :=
  mkState (ps_process s) (ps_unwinder s) image (ps_python_perf_support s) (ps_python_runtime s) (ps_unreadable_maps_reported s) (ps_pending_retirement s).
Definition set_perf_support (supported : option bool) (s : ProcessState) : ProcessState :=
  mkState (ps_process s) (ps_unwinder s) (ps_image s) supported (ps_python_runtime s) (ps_unreadable_maps_reported s) (ps_pending_retirement s).
Definition set_python_runtime (flag : bool) (s : ProcessState) : ProcessState :=
  mkState (ps_process s) (ps_unwinder s) (ps_image s) (ps_python_perf_support s) flag (ps_unreadable_maps_reported s) (ps_pending_retirement s).
Definition set_maps_reported (flag : bool) (s : ProcessState) : ProcessState :=
  mkState (ps_process s) (ps_unwinder s) (ps_image s) (ps_python_perf_support s) (ps_python_runtime s) flag (ps_pending_retirement s).
Definition set_pending (pending : option (option Z)) (s : ProcessState) : ProcessState :=
  mkState (ps_process s) (ps_unwinder s) (ps_image s) (ps_python_perf_support s) (ps_python_runtime s) (ps_unreadable_maps_reported s) pending.

Record ForkInheritance := mkInheritance {
  fi_image : option ProcessImageIdentity;
  fi_python_perf_support : option bool;
  fi_python_runtime : bool;
  fi_unwinder : U;
}.

(** The vectors that are only scratch space are left out. *)
Record ProcessTable := mkProcesses {
  pt_states : gmap Z ProcessState;
  pt_elf_sections : E;
  pt_unreadable_descendants : gmap Z ProcessHandle;
}.
Definition set_states (states : gmap Z ProcessState) (p : ProcessTable) : ProcessTable :=
  mkProcesses states (pt_elf_sections p) (pt_unreadable_descendants p).
Definition set_elf_sections (e : E) (p : ProcessTable) : ProcessTable := mkProcesses (pt_states p) e (pt_unreadable_descendants p).
Definition set_unreadable (d : gmap Z ProcessHandle) (p : ProcessTable) : ProcessTable := mkProcesses (pt_states p) (pt_elf_sections p) d.

(** [entry(pid).or_default()], then a change; and [get_mut(&pid)]. *)
Definition state_mut (pid : Z) (f : ProcessState -> ProcessState) (p : ProcessTable) : ProcessTable :=
  set_states (<[pid := f (default state_default (pt_states p !! pid))]> (pt_states p)) p.
Definition state_alter (pid : Z) (f : ProcessState -> ProcessState) (p : ProcessTable) : ProcessTable :=
  set_states (alter f pid (pt_states p)) p.

(** ** Operations *)

#[local] Abbreviation op := (io (ProcessTable * K)).
Definition on_table (f : ProcessTable -> ProcessTable) : op unit := io_modify (λ s, (f s.1, s.2)).
Definition processes : op ProcessTable := io_gets fst.

(** An unwinder call for [pid], which gets a default unwinder. *)
Definition with_unwinder (pid : Z) (call : io (U * E * K) unit) : op unit := λ '(p, k),
  let state := default state_default (pt_states p !! pid) in
  let u := default pu_default (ps_unwinder state) in
  let '(r, (u, e, k)) := call (u, pt_elf_sections p, k) in
  (r, (set_elf_sections e (state_mut pid (set_unwinder (Some u)) p), k)).
Definition apply_module_update (pid : Z) (update : ModuleUpdate) : op unit := with_unwinder pid (pu_apply_module_update update).
Definition apply_fork_module_update (pid : Z) (cloned : ClonedProcessModules) : op unit :=
  if c_inherited_unwinder_layout cloned then with_unwinder pid (pu_reuse_inherited_modules (c_update cloned))
  else apply_module_update pid (c_update cloned).

Definition snapshot_for_fork (parent_pid : Z) (p : ProcessTable) : ForkInheritance :=
  match pt_states p !! parent_pid with
  | None => mkInheritance None None false pu_default
  | Some state =>
      mkInheritance (ps_image state) (ps_python_perf_support state) (ps_python_runtime state)
        (match ps_unwinder state with Some u => pu_inherit_for_fork u | None => pu_default end)
  end.

Definition install_fork_inheritance (child_pid : Z) (i : ForkInheritance) (p : ProcessTable) : ProcessTable :=
  state_mut child_pid (λ child,
    let child := match fi_image i with Some image => set_image (Some image) child | None => child end in
    let child := match fi_python_perf_support i with Some supported => set_perf_support (Some supported) child | None => child end in
    set_unwinder (Some (fi_unwinder i)) (set_python_runtime (ps_python_runtime child || fi_python_runtime i) child)) p.

(** A call on the handle of a tracked process. *)
Definition process_call {A} (pid : Z) (call : sys (ProcessHandle * K) A) (h : ProcessHandle) : op (sres A) := λ '(p, k),
  let '(r, (h, k)) := call (h, k) in (Ok r, (state_alter pid (set_process (Some h)) p, k)).
Definition process_of (pid : Z) (p : ProcessTable) : option ProcessHandle := pt_states p !! pid ≫= ps_process.

Definition read_tracked {A} (pid : Z) (read : Z -> sys K A) : op (sres A) :=
  p ← processes;
  match process_of pid p with
  | Some h => process_call pid (read_checked read) h
  | None => mret (SErr (Errno ESRCH))
  end.
Definition read_process {A} (pid : Z) (read : Z -> sys K A) : op (sres A) :=
  p ← processes;
  match process_of pid p with
  | Some h => process_call pid (read_checked read) h
  | None => λ '(p, k), let '(r, k) := read (pid mod (u32_max + 1)) k in (Ok r, (p, k))
  end.

Definition read_process_image_identity (pid : Z) : sys K ProcessImageIdentity := k_metadata (proc_path pid "exe").
Definition read_process_comm (pid : Z) : sys K (list Z) :=
  comm ← k_read (proc_path pid "comm"); mret (trim_end_by (λ c, (c =? 10) || (c =? 13)) comm).
Definition read_existing_maps (pid : Z) : sys K (list Z) := k_read (proc_path pid "maps").

Definition capture_image (pid : Z) : op unit :=
  image ← read_tracked pid read_process_image_identity;
  match image with SOk image => on_table (state_mut pid (set_image (Some image))) | SErr _ => mret tt end.
Definition forget_image (pid : Z) : ProcessTable -> ProcessTable := state_alter pid (set_image None).

Definition open_handle (pid : Z) : op ProcessHandle := λ '(p, k), let '(h, k) := handle_open pid k in (Ok h, (p, k)).
Definition track (process : ProcessHandle) : op unit :=
  on_table (state_mut (ph_pid process) (set_process (Some process)));; capture_image (ph_pid process).
Definition ensure_tracked (pid : Z) : op unit :=
  on_table (state_mut pid id);;
  p ← processes;
  match process_of pid p with
  | Some _ => mret tt
  | None => match Pid_new pid with
            | Some pid => h ← open_handle pid; on_table (state_alter pid (set_process (Some h)))
            | None => mret tt
            end
  end.
Definition is_tracked (pid : Z) (p : ProcessTable) : bool := bool_decide (is_Some (process_of pid p)).

Definition in_hash_order (pids : list Z) : op (list Z) := λ '(p, k), let '(order, k) := hash_order pids k in (Ok order, (p, k)).
(** The keys of the states, in the order of a walk over them. *)
Definition walk_states : op (list Z) := p ← processes; in_hash_order (map_to_list (pt_states p)).*1.

Definition tracked_pids : op (list Z) :=
  pids ← walk_states;
  p ← processes;
  mret (filter (λ pid, is_Some (process_of pid p) /\ (pt_states p !! pid ≫= ps_pending_retirement) = None) pids).

Definition sys_error {A} (e : SysError) : op A := io_fail (sys_kind e).

(** The first loop of [dead_or_reused_pids]: the processes known to be gone,
    and the descriptors to poll for the others. *)
Fixpoint collect_dead (pids : list Z) (dead : list Z) (pidfds : list (Z * Z)) : op (list Z * list (Z * Z)) :=
  match pids with
  | [] => mret (dead, pidfds)
  | pid :: pids =>
      p ← processes;
      match pt_states p !! pid with
      | None => collect_dead pids dead pidfds
      | Some state =>
          if bool_decide (is_Some (ps_pending_retirement state)) then collect_dead pids (dead ++ [pid]) pidfds
          else match ps_process state with
               | None => collect_dead pids dead pidfds
               | Some h =>
                   match ph_watcher h with
                   | Some (mkWatcher pidfd false) => collect_dead pids dead (pidfds ++ [(pid, pidfd)])
                   | _ =>
                       exited ← process_call pid has_exited h;
                       match exited with
                       | SOk true => collect_dead pids (dead ++ [pid]) pidfds
                       | SOk false => collect_dead pids dead pidfds
                       | SErr e => sys_error e
                       end
                   end
               end
      end
  end.

Definition handle_observe (revents : Z) : sys (ProcessHandle * K) bool := λ '(h, k),
  match ph_watcher h with
  | Some w => let '(r, w) := observe_revents revents w in (r, (mkHandle (ph_pid h) (Some w) (ph_start_time h), k))
  | None => (SOk false, (h, k))
  end.
Fixpoint observe_all (polled : list (Z * Z)) (dead : list Z) : op (list Z) :=
  match polled with
  | [] => mret dead
  | (pid, revents) :: polled =>
      p ← processes;
      match process_of pid p with
      | None => observe_all polled dead
      | Some h =>
          exited ← process_call pid (handle_observe revents) h;
          match exited with
          | SOk exited => observe_all polled (if (exited : bool) then dead ++ [pid] else dead)
          | SErr e => sys_error e
          end
      end
  end.

Definition dead_or_reused_pids : op (list Z) :=
  pids ← walk_states;
  '(dead, pidfds) ← collect_dead pids [] [];
  if bool_decide (pidfds = []) then mret dead
  else
    polled ← (λ '(p, k), let '(r, k) := k_poll_many pidfds.*2 k in (Ok r, (p, k)));
    match polled with
    | SErr e => sys_error e
    | SOk revents => observe_all (zip pidfds.*1 revents) dead
    end.

Definition retain_unreadable_descendants (edges : list (Z * Z)) (p : ProcessTable) : ProcessTable :=
  set_unreadable (filter (λ d, d.1 ∈ edges.*1) (pt_unreadable_descendants p)) p.

(** Whether the process is kept for one more drain. *)
Definition defer_retirement (pid : Z) (exit_timestamp_ns : option Z) : op bool :=
  p ← processes;
  match pt_states p !! pid with
  | None => mret false
  | Some state =>
      if bool_decide (is_Some (ps_pending_retirement state)) then mret false
      else on_table (state_alter pid (set_pending (Some exit_timestamp_ns)));; mret true
  end.
Definition pending_exit_timestamp (pid : Z) (p : ProcessTable) : option Z :=
  state ← pt_states p !! pid; pending ← ps_pending_retirement state; pending.

Definition tracked_process_is_stale (pid : Z) : op (option bool) :=
  p ← processes;
  match pt_states p !! pid with
  | None => mret None
  | Some state =>
      if bool_decide (is_Some (ps_pending_retirement state)) then mret (Some true)
      else match ps_process state with
           | None => mret None
           | Some h =>
               exited ← process_call pid has_exited h;
               match exited with SOk exited => mret (Some exited) | SErr e => sys_error e end
           end
  end.

Definition process_is_active (pid : Z) : op bool :=
  p ← processes;
  match process_of pid p with
  | None => mret false
  | Some h =>
      exited ← process_call pid has_exited h;
      match exited with SOk exited => mret (negb exited) | SErr e => sys_error e end
  end.
Fixpoint count_active (pids : list Z) (active : nat) : op nat :=
  match pids with
  | [] => mret active
  | pid :: pids => running ← process_is_active pid; count_active pids (if (running : bool) then S active else active)
  end.
Definition activity (root : Z) : op (bool * nat) :=
  root_active ← process_is_active root;
  pids ← walk_states;
  active ← count_active (filter (λ pid, pid <> root) pids) (if (root_active : bool) then 1 else 0)%nat;
  mret (root_active, active).
End processes.
Arguments ProcessState : clear implicits.
Arguments ProcessTable : clear implicits.
Arguments ForkInheritance : clear implicits.
