(* ===== verification/Lifecycle.v ===== *)
(** * The life of recorded processes

    What the recorder does with the records that are not samples: mappings,
    forks, execs and exits ([handle_non_sample_record] of [src/linux/mod.rs] and
    [src/linux/module_tracking.rs]); how it starts over from [/proc] after lost
    records, and how it retires processes.  Every call threads one context: the
    kernel, the processes, the module table with its sink, the counters and the
    actions that are replayed on the perf group later. *)

From stdpp Require Import prelude list numbers strings gmap.
From S2P Require Import Prelude Model Contexts ModuleTable Writer SampleStack Text ProcMaps PythonNames.
From S2P Require Import Varint Output ProcFs ProcessHandle ProcessTable.
#[local] Open Scope Z_scope.

(** ** Records *)

Record Task := mkTask { ta_pid : Z; ta_tid : Z }.
Inductive MmapInfo := MmapDevice (major minor inode inode_gen : Z) | MmapBuildId.
Record MmapExt := mkMmapExt { mx_prot : Z; mx_info : MmapInfo }.
Record Mmap := mkMmap {
  mm_task : Task;
  mm_executable : bool;
  mm_addr : Z;
  mm_len : Z;
  mm_page_offset : Z;
  mm_file : list Z;
  mm_ext : option MmapExt;
}.
Inductive LifeRecord :=
  | LifeMmap (mmap : Mmap)
  | LifeFork (task parent_task : Task)
  | LifeComm (task : Task) (by_execve : bool) (comm : list Z)
  | LifeExit (task : Task)
  | LifeLostRecords
  | LifeLostSamples (lost_samples : Z)
  | LifeOther.

Inductive LifecycleAction :=
  | ProcessRetire (pid : Z)
  | ProcessFork (pid parent_tid : Z)
  | ThreadFork (tid pid parent_tid : Z)
  | ThreadExit (tid pid timestamp_ns : Z).

(** The counters that this code touches. *)
Record RecordingSummary := mkRecording {
  rs_lost_events : Z;
  rs_lifecycle_gaps : Z;
  rs_kernel_enabled : bool;
  rs_minimum_ring_buffer_bytes : Z;
  rs_maximum_ring_buffer_bytes : Z;
}.
Definition with_losses (lost_events lifecycle_gaps : Z) (s : RecordingSummary) : RecordingSummary :=
  mkRecording lost_events lifecycle_gaps (rs_kernel_enabled s) (rs_minimum_ring_buffer_bytes s) (rs_maximum_ring_buffer_bytes s).
Definition checked_loss_sum (total lost : Z) : result Z := ok_or InvalidData (checked_add_u64 total lost).
Definition record_lost_events (summary : RecordingSummary) (lost : Z) : result RecordingSummary :=
  if lost =? 0 then Ok summary
  else
    lost_events ← checked_loss_sum (rs_lost_events summary) lost;
    lifecycle_gaps ← ok_or InvalidData (checked_add_u64 (rs_lifecycle_gaps summary) 1);
    Ok (with_losses lost_events lifecycle_gaps summary).

(** The writer, as this code uses it. *)
Class RecorderSink (S : Type) := {
  rs_modules :: ModuleSink S;
  sink_python_runtime : Z -> Z -> bool -> io S unit;
}.
#[global] Instance spool_recorder_sink {W} `{Write W} `{VarIntCrate} (interrupt_budget : nat) : RecorderSink (PerfSpoolWriter W) := {|
  rs_modules := spool_module_sink interrupt_budget;
  sink_python_runtime := write_python_runtime interrupt_budget;
|}.

Section lifecycle.
Context {K U E S : Type} `{Kernel K} `{ProcessUnwinders K U E} `{HashOrder K} `{RecorderSink S}.

Record EventContext := mkCtx {
  cx_processes : ProcessTable U E;
  cx_kernel : K;
  cx_modules : ModuleTable * S;
  cx_summary : RecordingSummary;
  cx_actions : list LifecycleAction;
}.
#[local] Abbreviation op := (io EventContext).

Definition on_processes {A} (m : io (ProcessTable U E * K) A) : op A :=
  io_zoom (λ c, (cx_processes c, cx_kernel c)) (λ '(p, k) c, mkCtx p k (cx_modules c) (cx_summary c) (cx_actions c)) m.
Definition on_modules {A} (m : io (ModuleTable * S) A) : op A :=
  io_zoom cx_modules (λ t c, mkCtx (cx_processes c) (cx_kernel c) t (cx_summary c) (cx_actions c)) m.
Definition on_writer {A} (m : io S A) : op A := on_modules (to_sink m).
Definition set_summary (summary : RecordingSummary) : op unit :=
  io_modify (λ c, mkCtx (cx_processes c) (cx_kernel c) (cx_modules c) summary (cx_actions c)).
Definition push_action (action : LifecycleAction) : op unit :=
  io_modify (λ c, mkCtx (cx_processes c) (cx_kernel c) (cx_modules c) (cx_summary c) (cx_actions c ++ [action])).
Definition get_processes : op (ProcessTable U E) := on_processes processes.
Definition update_processes (f : ProcessTable U E -> ProcessTable U E) : op unit := on_processes (on_table f).
Definition state_of (pid : Z) : op (option (ProcessState U)) := p ← get_processes; mret (pt_states p !! pid).

(** ** Mappings *)

Definition record_module (module : ModuleRecord) : op unit :=
  if bool_decide (m_path module = []) then mret tt
  else
    update ← on_modules (apply_module module);
    match omap (λ activation, module_pid (a_module activation)) (u_active update) with
    | pid :: _ => on_processes (apply_module_update pid update)
    | [] => mret tt
    end.

Definition PROT_EXEC : Z := 4.
Definition mmap_is_executable (mmap : Mmap) : bool :=
  match mm_ext mmap with
  | Some ext => negb (Z.land (mx_prot ext) PROT_EXEC =? 0)
  | None => mm_executable mmap
  end.

(** The module that a record announces. *)
Definition mmap_module (mmap : Mmap) (privilege : Priv) : option ModuleRecord :=
  let '(inode, device_major, device_minor, inode_generation) :=
    match mm_ext mmap with
    | Some (mkMmapExt _ (MmapDevice major minor inode inode_gen)) => (inode, major, minor, inode_gen)
    | _ => (0, 0, 0, 0)
    end in
  pid ← i32_try_from (ta_pid (mm_task mmap));
  if negb (is_kernel_mode privilege) && negb (mmap_is_executable mmap) then None
  else
    owner ← (if is_kernel_mode privilege then Some KernelOwner else Process <$> Pid_new pid);
    Some (mkModule 0 owner (mm_addr mmap) (saturating_add_u64 (mm_addr mmap) (mm_len mmap)) (mm_page_offset mmap)
            inode device_major device_minor inode_generation (mm_file mmap) None).
Definition record_mmap (mmap : Mmap) (privilege : Priv) : op unit :=
  match mmap_module mmap privilege with Some module => record_module module | None => mret tt end.

Definition region_module (owner : ModuleOwner) (region : Region) : ModuleRecord :=
  mkModule 0 owner (mr_range region).1 (mr_range region).2 (mr_file_offset region) (mr_inode region)
    (mr_device_major region) (mr_device_minor region) 0 (mr_path region) None.
Definition executable_modules_from_maps (pid : Z) (maps : list Z) : list ModuleRecord :=
  match Pid_try_from_u32 pid with
  | None => []
  | Some owner => region_module (Process owner) <$> filter (λ r, mr_executable r = true /\ mr_path r <> []) (parse_iter maps)
  end.

Fixpoint register_existing_modules (snapshot : list ModuleRecord) (saw_python_runtime : bool) : op bool :=
  match snapshot with
  | [] => mret saw_python_runtime
  | module :: snapshot =>
      record_module module;;
      register_existing_modules snapshot (saw_python_runtime || is_python_runtime_module_path (m_path module))
  end.
Definition register_existing_maps_snapshot (pid : Z) (maps : list Z) : op bool :=
  register_existing_modules (executable_modules_from_maps pid maps) false.

(** ** Python runtimes *)

Definition read_or_empty (path : list Z) : sys K (option (list Z)) :=
  r ← sys_try (k_read path); mret (match r with SOk bytes => Some bytes | SErr _ => None end).
Definition process_has_python_perf_support_enabled (pid : Z) : sys K bool :=
  env ← read_or_empty (proc_path pid "environ");
  if match env with Some env => env_has_python_perf_support env | None => false end then mret true
  else
    cmdline ← read_or_empty (proc_path pid "cmdline");
    mret (match cmdline with Some cmdline => cmdline_has_python_perf_support cmdline | None => false end).

Definition process_has_python_perf_support (pid : Z) : op bool :=
  match i32_try_from pid with
  | None => mret false
  | Some pid =>
      state ← state_of pid;
      match state ≫= ps_python_perf_support with
      | Some supported => mret supported
      | None =>
          r ← on_processes (read_process pid process_has_python_perf_support_enabled);
          let supported := match r with SOk supported => supported | SErr _ => false end in
          update_processes (state_mut pid (set_perf_support (Some supported)));; mret supported
      end
  end.

Definition mark_python_runtime_process (timestamp_ns pid : Z) : op unit :=
  state ← state_of pid;
  update_processes (state_mut pid (set_python_runtime true));;
  if ps_python_runtime (default state_default state) then mret tt
  else on_writer (sink_python_runtime timestamp_ns pid true).

Definition end_python_runtime_process (timestamp_ns pid : Z) : op unit :=
  state ← state_of pid;
  match state with
  | Some state =>
      if ps_python_runtime state then
        on_writer (sink_python_runtime timestamp_ns pid false);;
        update_processes (state_alter pid (set_python_runtime false))
      else mret tt
  | None => mret tt
  end.

Definition record_python_runtime_mmap (mmap : Mmap) (privilege : Priv) (timestamp_ns : Z) : op unit :=
  if is_kernel_mode privilege || negb (mmap_is_executable mmap) then mret tt
  else match i32_try_from (ta_pid (mm_task mmap)) with
       | None => mret tt
       | Some pid =>
           if is_python_runtime_module_path (mm_file mmap) then
             supported ← process_has_python_perf_support (ta_pid (mm_task mmap));
             if (supported : bool) then mark_python_runtime_process timestamp_ns pid else mret tt
           else mret tt
       end.

(** ** Ends *)

Definition cleanup_process_modules (pid : Z) : op unit :=
  ids ← on_modules (deactivate_process_modules pid);
  update_processes (λ p, set_elf_sections (foldl (λ e id, elf_sections_remove id e) (pt_elf_sections p) ids) p);;
  update_processes (state_alter pid (set_unwinder None)).

(** The state is removed on an error, too. *)
Definition cleanup_process (pid : Z) : op unit := λ c,
  let '(r, c) := cleanup_process_modules pid c in
  let '(_, c) := update_processes (λ p, set_states (delete pid (pt_states p)) p) c in
  (r, c).

(** ** A record *)

Definition handle_fork (inherit_child_processes : bool) (timestamp_ns : Z) (task parent_task : Task) : op unit :=
  if negb inherit_child_processes then mret tt
  else match i32_try_from (ta_pid task), i32_try_from (ta_pid parent_task) with
       | Some pid, Some ppid =>
           p ← get_processes;
           let inheritance := snapshot_for_fork ppid p in
           stale ← on_processes (tracked_process_is_stale pid);
           (if default false stale then
              end_python_runtime_process timestamp_ns pid;;
              cleanup_process pid;;
              push_action (ProcessRetire (ta_pid task))
            else mret tt);;
           on_processes (ensure_tracked pid);;
           (if fi_python_runtime inheritance then mark_python_runtime_process timestamp_ns pid else mret tt);;
           cloned ← on_modules (clone_process_modules ppid pid);
           update_processes (install_fork_inheritance pid inheritance);;
           on_processes (apply_fork_module_update pid cloned);;
           push_action (ProcessFork (ta_pid task) (ta_tid parent_task))
       | _, _ => mret tt
       end.

Definition handle_comm (timestamp_ns : Z) (task : Task) (by_execve : bool) (comm : list Z) : op unit :=
  match i32_try_from (ta_pid task) with
  | None => mret tt
  | Some pid =>
      r ← on_processes (read_tracked pid read_process_image_identity);
      let current_identity := match r with SOk identity => Some identity | SErr _ => None end in
      state ← state_of pid;
      identity_changed ←
        (match current_identity, state ≫= ps_image with
         | Some identity, Some previous =>
             if bool_decide (previous <> identity) then
               r ← on_processes (read_tracked pid read_process_comm);
               mret (match r with SOk current => bool_decide (current = comm) | SErr _ => false end)
             else mret false
         | _, _ => mret false
         end);
      if negb by_execve && negb identity_changed then mret tt
      else
        cleanup_process_modules pid;;
        update_processes (state_alter pid (set_perf_support None));;
        end_python_runtime_process timestamp_ns pid;;
        update_processes (state_mut pid (set_image current_identity))
  end.

Definition handle_non_sample_record (inherit_child_processes : bool) (timestamp_ns : Z) (privilege : Priv) (record : LifeRecord) : op unit :=
  match record with
  | LifeMmap mmap => record_mmap mmap privilege;; record_python_runtime_mmap mmap privilege timestamp_ns
  | LifeFork task parent_task =>
      if bool_decide (ta_pid task <> ta_pid parent_task) then handle_fork inherit_child_processes timestamp_ns task parent_task
      else if bool_decide (ta_tid task <> ta_tid parent_task) then push_action (ThreadFork (ta_tid task) (ta_pid task) (ta_tid parent_task))
      else mret tt
  | LifeComm task by_execve comm =>
      if bool_decide (ta_pid task = ta_tid task) then handle_comm timestamp_ns task by_execve comm else mret tt
  | LifeExit task => push_action (ThreadExit (ta_tid task) (ta_pid task) timestamp_ns)
  | LifeLostRecords => mret tt
  | LifeLostSamples lost_samples =>
      summary ← io_gets cx_summary;
      lost_events ← io_lift (checked_loss_sum (rs_lost_events summary) lost_samples);
      set_summary (with_losses lost_events (rs_lifecycle_gaps summary) summary)
  | LifeOther => mret tt
  end.

(** ** Starting over from [/proc] *)

(** The warning itself is left out. *)
Definition report_unreadable_maps (pid : Z) : op unit := update_processes (state_mut pid (set_maps_reported true)).

Definition mark_if (condition : bool) (timestamp_ns pid : Z) : op unit :=
  if condition then mark_python_runtime_process timestamp_ns pid else mret tt.

(** What follows from the maps that were read; whether the process is still there. *)
Definition reconcile_with (pid timestamp_ns : Z) (current_identity : option ProcessImageIdentity) (maps : sres (list Z)) : op bool :=
  match maps with
  | SErr e =>
      if is_target_gone_io e then update_processes (forget_image pid);; mret false
      else if is_access_denied_io e then report_unreadable_maps pid;; mret true
      else io_fail (sys_kind e)
  | SOk maps =>
      let snapshot := executable_modules_from_maps pid maps in
      if bool_decide (snapshot = []) then mret true
      else
        state ← state_of pid;
        let image_matches := match current_identity with None => true | Some identity => bool_decide (state ≫= ps_image = Some identity) end in
        t ← on_modules table;
        modules_match ← (if image_matches then io_lift (process_modules_match t pid snapshot) else mret false);
        let keep_identity := match current_identity with
                             | Some identity => update_processes (state_mut pid (set_image (Some identity)))
                             | None => mret tt
                             end in
        if (modules_match : bool) then keep_identity;; mret true
        else
          cleanup_process_modules pid;;
          update_processes (state_alter pid (set_perf_support None));;
          end_python_runtime_process timestamp_ns pid;;
          saw_python_runtime ← register_existing_modules snapshot false;
          should_mark_python ← (if (saw_python_runtime : bool) then process_has_python_perf_support pid else mret false);
          update_processes (state_mut pid id);;
          keep_identity;;
          mark_if should_mark_python timestamp_ns pid;;
          mret true
  end.
Definition reconcile_process_image (pid timestamp_ns : Z) : op bool :=
  match i32_try_from pid with
  | None => mret false
  | Some pid =>
      r ← on_processes (read_tracked pid read_process_image_identity);
      maps ← on_processes (read_tracked pid read_existing_maps);
      reconcile_with pid timestamp_ns (match r with SOk identity => Some identity | SErr _ => None end) maps
  end.

(** [None] when the child is not recorded; else its PID and its parent's. *)
Definition register_recovered_descendant (child parent timestamp_ns : Z) : op (option (Z * Z)) :=
  match Pid_new child with
  | None => mret None
  | Some child_pid =>
      process ← on_processes (open_handle child_pid);
      '(maps, process) ← on_processes (λ '(p, k), let '(r, (h, k)) := read_checked read_existing_maps (process, k) in (Ok (r, h), (p, k)));
      match maps with
      | SErr e =>
          if is_target_gone_io e then mret None
          else if is_access_denied_io e then
            p ← get_processes;
            warned ←
              (match pt_unreadable_descendants p !! child with
               | Some previous =>
                   on_processes (λ '(p, k),
                     let '(r, (h, k)) := has_exited (previous, k) in
                     (match r with SOk exited => Ok (negb exited) | SErr e => Err (sys_kind e) end,
                      (set_unreadable (<[child := h]> (pt_unreadable_descendants p)) p, k)))
               | None => mret false
               end);
            (if (warned : bool) then mret tt
             else update_processes (λ p, set_unreadable (<[child := process]> (pt_unreadable_descendants p)) p));;
            mret None
          else io_fail (sys_kind e)
      | SOk maps =>
          on_processes (track process);;
          python_perf_support ← process_has_python_perf_support child_pid;
          saw_python_runtime ← register_existing_maps_snapshot child_pid maps;
          mark_if (saw_python_runtime && python_perf_support) timestamp_ns child;;
          mret (if 0 <=? parent then Some (child_pid, parent) else None)
      end
  end.

(** [ModuleTable::covers_user_pc] on the shared table. *)
Definition table_covers_user_pc (pid pc : Z) : io (ModuleTable * S) bool :=
  t ← table;
  covered ← io_lift (ok_or Panicked (covers_user_pc pid pc t));
  update_table (λ _, covered.2);; mret covered.1.

(** A sample at an address that no known mapping covers. *)
Definition refresh_maps_for_uncovered_user_pc (pid timestamp_ns : Z) (pc : option Z) : op unit :=
  match (if 0 <=? pid then pc else None) with
  | None => mret tt
  | Some pc =>
      covered ← on_modules (table_covers_user_pc pid pc);
      if (covered : bool) then mret tt
      else
        p ← get_processes;
        let state := default state_default (pt_states p !! pid) in
        let '(refresh, u) := pu_should_refresh_for_uncovered_pc (K := K) (E := E) pc (default (pu_default (K := K) (E := E)) (ps_unwinder state)) in
        update_processes (state_mut pid (set_unwinder (Some u)));;
        if negb refresh then mret tt
        else
          maps ← on_processes (read_process pid read_existing_maps);
          match maps with
          | SErr e =>
              if is_target_gone_io e then mret tt
              else if is_access_denied_io e then report_unreadable_maps pid
              else io_fail (sys_kind e)
          | SOk maps =>
              saw_python_runtime ← register_existing_maps_snapshot pid maps;
              if (saw_python_runtime : bool) then
                supported ← process_has_python_perf_support pid; mark_if supported timestamp_ns pid
              else mret tt
          end
  end.
End lifecycle.
