(* ===== verification/LifeTrack.v ===== *)
(** * Recorded processes keep their address spaces

    Over any kernel, any unwinder and any sink, the module table follows the
    address spaces of the recorded processes through every call of
    [Lifecycle.v]. *)

From stdpp Require Import prelude list numbers strings gmap sorting.
From S2P Require Import Prelude Model Contexts RoundTrip ModuleTable AddressSpace TableOps TableMap.
From S2P Require Import Mappings Session SampleStack Text ProcMaps PythonNames ProcFs ProcessHandle.
From S2P Require Import ProcessTable Lifecycle.
#[local] Open Scope Z_scope.

(** ** Sinks with a log *)

(** Marks of Python runtimes leave the log of the modules alone. *)
Class RecorderLog (S : Type) `{RecorderSink S} (logged : S -> log_modules -> Prop) (fails : ErrorKind -> Prop) : Prop := {
  rl_logged :: LoggedSink S logged fails;
  rl_python timestamp_ns pid flag s :
    match sink_python_runtime timestamp_ns pid flag s with
    | (Ok _, s') => forall l, logged s l -> logged s' l
    | (Err _, _) => True
    end;
}.

Section tracking.
Context {K U E S : Type} `{Kernel K} `{ProcessUnwinders K U E} `{HashOrder K} `{RecorderSink S}.
Context (logged : S -> log_modules -> Prop) (fails : ErrorKind -> Prop) `{!RecorderLog S logged fails}.
#[local] Abbreviation ctx := (EventContext (K := K) (U := U) (E := E) (S := S)).
#[local] Abbreviation op := (io ctx).
Implicit Types (sp : address_space) (c : ctx).

Record on_track sp c : Prop := {
  ot_inv : table_inv (cx_modules c).1;
  ot_represents : represents (cx_modules c).1 sp;
  ot_logged : exists l, logged (cx_modules c).2 l /\ agree (cx_modules c).1 l;
}.

(** From the address spaces [sp], a successful [m] does what the events of [P]
    do; a failed one leaves a consistent table. *)
Definition emits {A} sp (m : op A) (P : list map_event -> A -> Prop) : Prop :=
  forall c, on_track sp c ->
  match m c with
  | (Ok a, c') => exists es, P es a /\ on_track (foldl space_step sp es) c'
  | (Err _, c') => table_inv (cx_modules c').1
  end.

Lemma emits_ret {A} sp (a : A) (P : list map_event -> A -> Prop) : P [] a -> emits sp (mret a) P.
Proof. intros HP c Hc. by exists []. Qed.
Lemma emits_fail {A} sp e (P : list map_event -> A -> Prop) : emits sp (io_fail e) P.
Proof. intros c Hc. apply Hc. Qed.
Lemma emits_bind {A B} sp (m : op A) (f : A -> op B) P Q :
  emits sp m P -> (forall a es, P es a -> emits (foldl space_step sp es) (f a) (λ es' b, Q (es ++ es') b)) -> emits sp (m ≫= f) Q.
Proof.
  intros Hm Hf c Hc. specialize (Hm c Hc). unfold mbind, io_mbind. destruct (m c) as [[a|e] c1]; [|done].
  destruct Hm as (es & HP & Hc1). specialize (Hf a es HP c1 Hc1). destruct (f a c1) as [[b|e] c2]; [|done].
  destruct Hf as (es' & HQ & Hc2). exists (es ++ es'). split; [done|]. by rewrite foldl_app.
Qed.
Lemma emits_weaken {A} sp (m : op A) (P Q : list map_event -> A -> Prop) : emits sp m P -> (forall es a, P es a -> Q es a) -> emits sp m Q.
Proof. intros Hm HPQ c Hc. specialize (Hm c Hc). destruct (m c) as [[a|e] c1]; [|done]. destruct Hm as (es & HP & Hc1). exists es. auto. Qed.

(** A call that the modules do not notice, with a property of its result. *)
Definition quiet {A} (m : op A) (V : A -> Prop) : Prop := forall sp, emits sp m (λ es a, es = [] /\ V a).
Lemma quiet_any {A} (m : op A) V : quiet m V -> quiet m (λ _, True).
Proof. intros Hm sp. eapply emits_weaken; [apply Hm|]. naive_solver. Qed.
Lemma emits_quiet_bind {A B} sp (m : op A) (f : A -> op B) V Q :
  quiet m V -> (forall a, V a -> emits sp (f a) Q) -> emits sp (m ≫= f) Q.
Proof. intros Hm Hf. eapply emits_bind; [apply Hm|]. intros a es [-> HV]. by apply Hf. Qed.
Lemma quiet_ret {A} (a : A) (V : A -> Prop) : V a -> quiet (mret a) V.
Proof. intros HV sp. by apply emits_ret. Qed.
Lemma quiet_bind {A B} (m : op A) (f : A -> op B) V W : quiet m V -> (forall a, V a -> quiet (f a) W) -> quiet (m ≫= f) W.
Proof. intros Hm Hf sp. eapply emits_quiet_bind; [exact Hm|]. intros a HV. by apply Hf. Qed.

Lemma same_modules_on_track sp c c' : cx_modules c' = cx_modules c -> on_track sp c -> on_track sp c'.
Proof. intros Heq [Hi Hr Hl]. split; by rewrite Heq. Qed.

(** A call that leaves the table and the sink as they are. *)
Lemma quiet_same {A} (m : op A) (V : A -> Prop) :
  (forall c, cx_modules (m c).2 = cx_modules c) -> (forall c a, (m c).1 = Ok a -> V a) -> quiet m V.
Proof.
  intros Hm HV sp c Hc. specialize (Hm c). specialize (HV c). destruct (m c) as [[a|e] c1]; cbn [fst snd] in *.
  - exists []. split; [split; [done|by apply HV]|]. by eapply same_modules_on_track.
  - rewrite Hm. apply Hc.
Qed.
Lemma quiet_processes {A} (m : io (ProcessTable U E * K) A) (V : A -> Prop) :
  (forall s a, (m s).1 = Ok a -> V a) -> quiet (on_processes m) V.
Proof.
  intros HV. apply quiet_same; intros c; unfold on_processes, io_zoom; pose proof (HV (cx_processes c, cx_kernel c)) as Hv;
    destruct (m (cx_processes c, cx_kernel c)) as [r [p k]]; [done|exact Hv].
Qed.
Lemma quiet_on_processes {A} (m : io (ProcessTable U E * K) A) : quiet (on_processes m) (λ _, True).
Proof. by apply quiet_processes. Qed.
Lemma quiet_push action : quiet (push_action action) (λ _, True).
Proof. by apply quiet_same. Qed.
Lemma quiet_get_processes : quiet get_processes (λ _, True).
Proof. apply quiet_on_processes. Qed.
Lemma quiet_update f : quiet (update_processes f) (λ _, True).
Proof. apply quiet_on_processes. Qed.
Lemma quiet_state_of pid : quiet (state_of pid) (λ _, True).
Proof. eapply quiet_bind; [apply quiet_get_processes|]. intros p _. by apply quiet_ret. Qed.
Lemma quiet_gets {A} (f : ctx -> A) : quiet (io_gets f) (λ _, True).
Proof. by apply quiet_same. Qed.

Lemma quiet_python timestamp_ns pid flag : quiet (on_writer (sink_python_runtime timestamp_ns pid flag)) (λ _, True).
Proof.
  intros sp c [Hi Hr (l & Hl & Ha)]. unfold on_writer, on_modules, to_sink, io_zoom. pose proof (rl_python timestamp_ns pid flag (cx_modules c).2) as Hp.
  destruct (sink_python_runtime timestamp_ns pid flag (cx_modules c).2) as [[[]|e] s]; [|done].
  exists []. split; [done|]. split; [done|done|]. exists l. split; [by apply Hp|done].
Qed.

(** A call of the module table. *)
Lemma emits_modules {A} sp (m : io (ModuleTable * S) A) es (V : A -> Prop) :
  (forall t s, table_inv t -> represents t sp -> spec logged fails m t s (λ a t', represents t' (foldl space_step sp es) /\ V a)) ->
  emits sp (on_modules m) (λ es' a, es' = es /\ V a).
Proof.
  intros Hm c [Hi Hr (l & Hl & Ha)]. unfold on_modules, io_zoom. destruct (cx_modules c) as [t s] eqn:Hc. cbn [fst snd] in *.
  specialize (Hm t s Hi Hr). unfold spec in Hm. destruct (m (t, s)) as [[a|e] [t' s']]; cbn [cx_modules fst]; [|apply Hm].
  destruct Hm as (Hi' & [Hr' HV] & Hk). exists es. split; [done|]. split; [done|done|]. apply (Hk l Hl Ha).
Qed.

Lemma emits_table sp : emits sp (on_modules table) (λ es t, es = [] /\ table_inv t /\ represents t sp).
Proof. intros c Hc. exists []. split; [split; [done|]; split; apply Hc|]. eapply same_modules_on_track; [|exact Hc]. cbn. by destruct (cx_modules c). Qed.

(** ** Mappings *)

Lemma record_module_emits sp m : mapping_ok m ->
  emits sp (record_module m) (λ es _, es = if bool_decide (m_path m = []) then [] else [Map m]).
Proof.
  intros Hm. unfold record_module. case_bool_decide; [by apply emits_ret|].
  eapply emits_bind; [apply (emits_modules sp _ [Map m] (λ _, True))|].
  - intros t s Hi Hr. destruct (m_owner m) as [pid|] eqn:Ho.
    + eapply spec_impl; [by apply (apply_module_spec logged fails t s m pid)|]. intros u t' [Hmap _]. split; [|done]. by apply (represents_map t t' sp m pid).
    + eapply spec_impl; [by apply (apply_kernel_module_spec logged fails t s m)|]. intros u t' [Hmap _]. split; [|done]. by apply (represents_kernel_map t t' sp m).
  - intros u es [-> _]. destruct (omap _ _) as [|pid pids]; [by apply emits_ret|].
    eapply emits_weaken; [apply quiet_on_processes|]. by intros es a [-> _].
Qed.

Lemma register_modules_emits snapshot : Forall (λ m, mapping_ok m /\ m_path m <> []) snapshot ->
  forall sp saw, emits sp (register_existing_modules snapshot saw) (λ es _, es = Map <$> snapshot).
Proof.
  induction 1 as [|m snapshot [Hm Hp] _ IH]; intros sp saw; cbn [register_existing_modules]; [by apply emits_ret|].
  eapply emits_bind; [by apply record_module_emits|]. intros [] es ->. rewrite bool_decide_eq_false_2 by done.
  eapply emits_weaken; [apply IH|]. by intros es b ->.
Qed.

(** What the kernel lists: mappings with their widths, files that do not wrap. *)
Record region_sane (r : Region) : Prop := {
  rs_ok : region_ok r;
  rs_span : mr_file_offset r + ((mr_range r).2 - (mr_range r).1) <= u64_max;
  rs_path : Z.of_nat (length (mr_path r)) <= i64_max;
}.

Lemma region_module_ok pid r : is_pid pid -> region_sane r -> mapping_ok (region_module (Process pid) r).
Proof.
  intros Hpid [[] ? ?]. split; [|done|done]. split; cbn; try done; word_lia.
Qed.

Lemma maps_modules_ok pid maps : Forall region_sane (parse_iter maps) ->
  Forall (λ m, mapping_ok m /\ m_path m <> []) (executable_modules_from_maps pid maps).
Proof.
  intros Hs. unfold executable_modules_from_maps. destruct (Pid_try_from_u32 pid) as [owner|] eqn:Ho; [|constructor].
  unfold Pid_try_from_u32 in Ho. destruct (i32_try_from pid) as [n|]; [|done]. apply Pid_new_spec in Ho as [-> Hpid].
  apply Forall_fmap, list.Forall_forall. intros r Hr. apply list_elem_of_filter in Hr as [[_ Hp] Hr].
  rewrite list.Forall_forall in Hs. split; [by apply region_module_ok, Hs|done].
Qed.

(** ** Python runtimes *)

Lemma quiet_perf_support pid : quiet (process_has_python_perf_support pid) (λ _, True).
Proof.
  unfold process_has_python_perf_support. destruct (i32_try_from pid) as [n|]; [|by apply quiet_ret].
  eapply quiet_bind; [apply quiet_state_of|]. intros state _. destruct (state ≫= _) as [supported|]; [by apply quiet_ret|].
  eapply quiet_bind; [apply quiet_on_processes|]. intros r _. eapply quiet_bind; [apply quiet_update|]. intros _ _. by apply quiet_ret.
Qed.
Lemma quiet_mark timestamp_ns pid : quiet (mark_python_runtime_process timestamp_ns pid) (λ _, True).
Proof.
  eapply quiet_bind; [apply quiet_state_of|]. intros state _. eapply quiet_bind; [apply quiet_update|]. intros _ _.
  destruct (ps_python_runtime _); [by apply quiet_ret|apply quiet_python].
Qed.
Lemma quiet_mark_if condition timestamp_ns pid : quiet (mark_if condition timestamp_ns pid) (λ _, True).
Proof. destruct condition; [apply quiet_mark|by apply quiet_ret]. Qed.
Lemma quiet_end_python timestamp_ns pid : quiet (end_python_runtime_process timestamp_ns pid) (λ _, True).
Proof.
  eapply quiet_bind; [apply quiet_state_of|]. intros [state|] _; [|by apply quiet_ret]. destruct (ps_python_runtime state); [|by apply quiet_ret].
  eapply quiet_bind; [apply quiet_python|]. intros _ _. apply quiet_update.
Qed.
Lemma quiet_python_mmap mmap privilege timestamp_ns : quiet (record_python_runtime_mmap mmap privilege timestamp_ns) (λ _, True).
Proof.
  unfold record_python_runtime_mmap. destruct (_ || _); [by apply quiet_ret|]. destruct (i32_try_from _); [|by apply quiet_ret].
  destruct (is_python_runtime_module_path _); [|by apply quiet_ret]. eapply quiet_bind; [apply quiet_perf_support|].
  intros [|] _; [apply quiet_mark|by apply quiet_ret].
Qed.

(** ** Ends *)

Lemma cleanup_modules_emits sp pid : emits sp (cleanup_process_modules pid) (λ es _, es = [Exit pid]).
Proof.
  eapply emits_bind; [apply (emits_modules sp _ [Exit pid] (λ _, True))|].
  - intros t s Hi Hr. eapply spec_impl; [by apply (deactivate_process_spec logged fails pid)|]. intros ids t' He. split; [|done]. by apply (represents_exit t).
  - intros ids es [-> _]. eapply emits_quiet_bind; [apply quiet_update|]. intros [] _. eapply emits_weaken; [apply quiet_update|]. by intros es a [-> _].
Qed.
Lemma cleanup_emits sp pid : emits sp (cleanup_process pid) (λ es _, es = [Exit pid]).
Proof.
  intros c Hc. pose proof (cleanup_modules_emits sp pid c Hc) as Hs. unfold cleanup_process. destruct (cleanup_process_modules pid c) as [[[]|e] c1]; cbn.
  - destruct Hs as (es & -> & Hc1). exists [Exit pid]. split; [done|]. by eapply same_modules_on_track; [|exact Hc1].
  - done.
Qed.

(** ** Records *)

(** What a record may do to the address spaces; whether a forked child reuses
    the PID of a process that is gone, and whether a new name comes with a new
    image, is the kernel's answer. *)
Definition record_effects (inherit_child_processes : bool) (privilege : Priv) (record : LifeRecord) : list (list map_event) :=
  match record with
  | LifeMmap mmap =>
      [match mmap_module mmap privilege with
       | Some m => if bool_decide (m_path m = []) then [] else [Map m]
       | None => []
       end]
  | LifeFork task parent_task =>
      match i32_try_from (ta_pid task), i32_try_from (ta_pid parent_task) with
      | Some pid, Some ppid =>
          if inherit_child_processes && bool_decide (pid <> ppid) then [[Fork ppid pid]; [Exit pid; Fork ppid pid]] else [[]]
      | _, _ => [[]]
      end
  | LifeComm task by_execve _ =>
      match i32_try_from (ta_pid task) with
      | Some pid => if bool_decide (ta_pid task = ta_tid task) then [Exit pid] :: (if by_execve then [] else [[]]) else [[]]
      | None => [[]]
      end
  | _ => [[]]
  end.

Lemma i32_try_from_Some n m : i32_try_from n = Some m -> m = n.
Proof. unfold i32_try_from. destruct (_ && _); [by intros [= <-]|done]. Qed.

Lemma handle_fork_emits sp inherit_child_processes timestamp_ns task parent_task :
  ta_pid task <> ta_pid parent_task ->
  emits sp (handle_fork inherit_child_processes timestamp_ns task parent_task)
    (λ es _, es ∈ record_effects inherit_child_processes PrivUser (LifeFork task parent_task)).
Proof.
  intros Hne. unfold handle_fork, record_effects. destruct inherit_child_processes; cbn [negb andb].
  2: { apply emits_ret. repeat case_match; left. }
  destruct (i32_try_from (ta_pid task)) as [pid|] eqn:Hpid; [|apply emits_ret; left].
  destruct (i32_try_from (ta_pid parent_task)) as [ppid|] eqn:Hppid; [|apply emits_ret; left].
  apply i32_try_from_Some in Hpid, Hppid. subst. rewrite bool_decide_eq_true_2 by done.
  eapply emits_quiet_bind; [apply quiet_get_processes|]. intros p _. eapply emits_quiet_bind; [apply quiet_on_processes|]. intros stale _.
  eapply (emits_bind _ _ _ (λ es _, es = [] \/ es = [Exit (ta_pid task)])).
  { destruct (default false stale); [|by apply emits_ret; left]. eapply emits_quiet_bind; [apply quiet_end_python|]. intros _ _.
    eapply emits_bind; [apply cleanup_emits|]. intros _ es ->. eapply emits_weaken; [apply quiet_push|]. intros es _ [-> _]. by right. }
  intros _ es Hes. eapply emits_quiet_bind; [apply quiet_on_processes|]. intros _ _.
  eapply (emits_quiet_bind _ _ _ (λ _, True)); [destruct (fi_python_runtime _); [apply quiet_mark|by apply quiet_ret]|]. intros _ _.
  eapply emits_bind; [apply (emits_modules _ _ [Fork (ta_pid parent_task) (ta_pid task)] (λ _, True))|].
  { intros t s Hi Hr. eapply spec_impl; [by apply (clone_process_spec logged fails (ta_pid parent_task) (ta_pid task))|].
    intros cloned t' [Hoo Hf]. split; [|done]. by apply (represents_fork t). }
  intros cloned es' [-> _]. eapply emits_quiet_bind; [apply quiet_update|]. intros _ _. eapply emits_quiet_bind; [apply quiet_on_processes|]. intros _ _.
  eapply emits_weaken; [apply quiet_push|]. intros es' _ [-> _]. destruct Hes as [-> | ->]; [left|right; left].
Qed.

Lemma handle_comm_emits sp timestamp_ns task by_execve comm :
  ta_pid task = ta_tid task ->
  emits sp (handle_comm timestamp_ns task by_execve comm) (λ es _, es ∈ record_effects false PrivUser (LifeComm task by_execve comm)).
Proof.
  intros Hleader. unfold handle_comm, record_effects. rewrite (bool_decide_eq_true_2 _ Hleader).
  destruct (i32_try_from (ta_pid task)) as [pid|]; [|apply emits_ret; left].
  eapply emits_quiet_bind; [apply quiet_on_processes|]. intros r _. eapply emits_quiet_bind; [apply quiet_state_of|]. intros state _.
  eapply (emits_quiet_bind _ _ _ (λ _, True)).
  { destruct (match r with SOk _ => _ | SErr _ => _ end); [|by apply quiet_ret]. destruct (state ≫= ps_image); [|by apply quiet_ret].
    case_bool_decide; [|by apply quiet_ret]. eapply quiet_bind; [apply quiet_on_processes|]. intros ? _. by apply quiet_ret. }
  intros identity_changed _. destruct (negb by_execve && negb identity_changed) eqn:Hno.
  { apply andb_true_iff in Hno as [Hno _]. destruct by_execve; [done|]. apply emits_ret. right. left. }
  eapply emits_bind; [apply cleanup_modules_emits|]. intros _ es ->. eapply emits_quiet_bind; [apply quiet_update|]. intros _ _.
  eapply emits_quiet_bind; [apply quiet_end_python|]. intros _ _. eapply emits_weaken; [apply quiet_update|]. intros es _ [-> _]. left.
Qed.

(** The fields of a record have their widths, and the file does not wrap. *)
Definition record_ok (privilege : Priv) (record : LifeRecord) : Prop :=
  match record with
  | LifeMmap mmap => forall m, mmap_module mmap privilege = Some m -> mapping_ok m
  | _ => True
  end.

Lemma handle_record_emits sp inherit_child_processes timestamp_ns privilege record :
  record_ok privilege record ->
  emits sp (handle_non_sample_record inherit_child_processes timestamp_ns privilege record)
    (λ es _, es ∈ record_effects inherit_child_processes privilege record).
Proof.
  intros Hok. destruct record as [mmap|task parent_task|task by_execve comm|task| |lost_samples| ]; cbn [handle_non_sample_record].
  - eapply (emits_bind _ _ _ (λ es _, es ∈ record_effects inherit_child_processes privilege (LifeMmap mmap))).
    + unfold record_mmap, record_effects. cbn in Hok. destruct (mmap_module mmap privilege) as [m|]; [|apply emits_ret; left].
      eapply emits_weaken; [by apply record_module_emits, Hok|]. intros es _ ->. left.
    + intros _ es Hes. eapply emits_weaken; [apply quiet_python_mmap|]. intros es' _ [-> _]. by rewrite app_nil_r.
  - case_bool_decide as Hne; [by apply handle_fork_emits|].
    assert ([] ∈ record_effects inherit_child_processes privilege (LifeFork task parent_task)) as Hin.
    { unfold record_effects. destruct (i32_try_from (ta_pid task)) eqn:Ht; [|left]. destruct (i32_try_from (ta_pid parent_task)) eqn:Hp; [|left].
      apply i32_try_from_Some in Ht, Hp. rewrite (bool_decide_eq_false_2 (_ <> _)), andb_false_r by (intros Hx; congruence). left. }
    case_bool_decide; [|by apply emits_ret]. eapply emits_weaken; [apply quiet_push|]. by intros es _ [-> _].
  - case_bool_decide as Hl; [by apply handle_comm_emits|]. apply emits_ret. unfold record_effects. rewrite (bool_decide_eq_false_2 _ Hl). case_match; left.
  - eapply emits_weaken; [apply quiet_push|]. intros es _ [-> _]. left.
  - apply emits_ret. left.
  - eapply emits_quiet_bind; [apply quiet_gets|]. intros summary _. destruct (checked_loss_sum _ _) as [n|e]; [|apply (emits_fail sp e)].
    eapply emits_quiet_bind; [by apply (quiet_ret n (λ _, True))|]. intros lost _. eapply emits_weaken; [by apply (quiet_same _ (λ _, True))|].
    intros es _ [-> _]. left.
  - apply emits_ret. left.
Qed.

(** ** Starting over *)

(** A snapshot that is empty changes nothing, one that agrees with the table
    changes nothing, any other replaces what the process had. *)
Definition reconciled sp (pid : Z) (snapshot : list ModuleRecord) (es : list map_event) : Prop :=
  (snapshot = [] /\ es = []) \/
  (snapshot <> [] /\ es = [] /\ forall address b, sp pid address = Some b <-> snapshot_maps snapshot address b) \/
  (snapshot <> [] /\ es = Exit pid :: (Map <$> snapshot)).

Lemma maps_modules_owner pid maps : Forall (λ m, m_owner m = Process pid) (executable_modules_from_maps pid maps).
Proof.
  unfold executable_modules_from_maps. destruct (Pid_try_from_u32 pid) as [owner|] eqn:Ho; [|constructor].
  unfold Pid_try_from_u32 in Ho. destruct (i32_try_from pid) as [n|] eqn:Hn; [|done]. apply i32_try_from_Some in Hn as ->.
  apply Pid_new_spec in Ho as [-> _]. by apply Forall_fmap, list.Forall_forall.
Qed.

Lemma reconcile_with_emits sp pid timestamp_ns current_identity r :
  (forall maps, r = SOk maps -> Forall region_sane (parse_iter maps)) ->
  emits sp (reconcile_with pid timestamp_ns current_identity r)
    (λ es alive, match r with
                 | SErr e => es = [] /\ (alive = true -> is_access_denied_io e = true)
                 | SOk maps => reconciled sp pid (executable_modules_from_maps pid maps) es /\ alive = true
                 end).
Proof.
  intros Hsane. unfold reconcile_with. destruct r as [maps|e].
  2: { destruct (is_target_gone_io e); [|destruct (is_access_denied_io e) eqn:Hd; [|apply emits_fail]].
       - eapply emits_quiet_bind; [apply quiet_update|]. intros _ _. by apply emits_ret.
       - eapply emits_quiet_bind; [apply quiet_update|]. intros _ _. by apply emits_ret. }
  specialize (Hsane maps eq_refl). case_bool_decide as Hempty; [apply emits_ret; by split; [left|]|].
  eapply emits_quiet_bind; [apply quiet_state_of|]. intros state _.
  eapply emits_bind; [apply emits_table|]. intros t es (-> & Hi & Hr). cbn [foldl app].
  assert (forall current : option ProcessImageIdentity, quiet (match current with
    | Some identity => update_processes (state_mut pid (set_image (Some identity))) | None => mret tt end) (λ _, True)) as Hkeep
    by (intros [identity|]; [apply quiet_update|by apply quiet_ret]).
  eapply (emits_quiet_bind _ _ _ (λ matches, matches = true -> process_modules_match t pid (executable_modules_from_maps pid maps) = Ok true)).
  { intros sp'. destruct (match current_identity with None => true | Some _ => _ end); [|by apply emits_ret].
    destruct (process_modules_match _ _ _) as [matches|e]; [|apply (emits_fail sp' e)].
    apply (emits_ret sp' matches). split; [done|]. by intros ->. }
  intros [|] Hmatch.
  - eapply emits_quiet_bind; [apply Hkeep|]. intros _ _. apply emits_ret. split; [|done]. right. left. split; [done|]. split; [done|].
    intros address b. rewrite <- (process_modules_match_sound t pid _ (ti_wf _ Hi) (maps_modules_owner pid maps) (Hmatch eq_refl)). symmetry. apply Hr.
  - eapply emits_bind; [apply cleanup_modules_emits|]. intros _ es ->. eapply emits_quiet_bind; [apply quiet_update|]. intros _ _.
    eapply emits_quiet_bind; [apply quiet_end_python|]. intros _ _.
    eapply emits_bind; [by apply register_modules_emits, maps_modules_ok|]. intros saw es ->.
    eapply (emits_quiet_bind _ _ _ (λ _, True)); [destruct saw; [apply quiet_perf_support|by apply quiet_ret]|]. intros mark _.
    eapply emits_quiet_bind; [apply quiet_update|]. intros _ _. eapply emits_quiet_bind; [apply Hkeep|]. intros _ _.
    eapply emits_quiet_bind; [apply quiet_mark_if|]. intros _ _. apply emits_ret. split; [|done]. right. right. by rewrite !app_nil_r.
Qed.

Section calls.
(** What the kernel lists in the maps files. *)
Context (maps_sane : forall pid k maps, (k_read (proc_path pid "maps") k).1 = SOk maps -> Forall region_sane (parse_iter maps)).
Definition listed (maps : list Z) : Prop := exists pid k, (k_read (proc_path pid "maps") k).1 = SOk maps.

Lemma read_checked_value {A} (read : Z -> sys K A) h k v : (read_checked read (h, k)).1 = SOk v -> (read (ph_pid h) k).1 = SOk v.
Proof.
  unfold read_checked. destruct (read (ph_pid h) k) as [value k1]. unfold mbind, sys_mbind.
  destruct (has_exited (h, k1)) as [[[|]|e] s]; [done| |done]. by destruct value.
Qed.
Lemma quiet_read_tracked pid : quiet (on_processes (read_tracked pid read_existing_maps)) (λ r, forall maps, r = SOk maps -> listed maps).
Proof.
  apply quiet_processes. intros [p k] r. unfold read_tracked, mbind, io_mbind, processes, io_gets. cbn [fst snd].
  destruct (process_of pid p) as [h|]; [|by intros [= <-]]. unfold process_call.
  pose proof (read_checked_value read_existing_maps h k) as Hv. destruct (read_checked read_existing_maps (h, k)) as [r' [h' k']].
  intros [= <-] maps ->. exists (ph_pid h), k. by apply Hv.
Qed.
Lemma quiet_read_process pid : quiet (on_processes (read_process pid read_existing_maps)) (λ r, forall maps, r = SOk maps -> listed maps).
Proof.
  apply quiet_processes. intros [p k] r. unfold read_process, mbind, io_mbind, processes, io_gets. cbn [fst snd].
  destruct (process_of pid p) as [h|].
  - unfold process_call. pose proof (read_checked_value read_existing_maps h k) as Hv. destruct (read_checked read_existing_maps (h, k)) as [r' [h' k']].
    intros [= <-] maps ->. exists (ph_pid h), k. by apply Hv.
  - destruct (read_existing_maps _ k) as [r' k'] eqn:Hr. intros [= <-] maps ->. exists (pid mod (u32_max + 1)), k. unfold read_existing_maps in Hr. by rewrite Hr.
Qed.
Lemma listed_sane maps : listed maps -> Forall region_sane (parse_iter maps).
Proof. intros (pid & k & Hk). by eapply maps_sane. Qed.

Lemma register_maps_emits sp pid maps : listed maps ->
  emits sp (register_existing_maps_snapshot pid maps) (λ es _, es = Map <$> executable_modules_from_maps pid maps).
Proof. intros Hl. by apply register_modules_emits, maps_modules_ok, listed_sane. Qed.

(** ** Every call *)

Inductive recorder_call :=
  | CallRecord (inherit_child_processes : bool) (timestamp_ns : Z) (privilege : Priv) (record : LifeRecord)
  | CallRetire (timestamp_ns pid : Z)
  | CallReconcile (pid timestamp_ns : Z)
  | CallDescendant (child parent timestamp_ns : Z)
  | CallRefresh (pid timestamp_ns : Z) (pc : option Z).

Definition run_call (call : recorder_call) : op unit :=
  match call with
  | CallRecord inherit_child_processes timestamp_ns privilege record =>
      handle_non_sample_record inherit_child_processes timestamp_ns privilege record
  | CallRetire timestamp_ns pid => end_python_runtime_process timestamp_ns pid;; cleanup_process pid
  | CallReconcile pid timestamp_ns => reconcile_process_image pid timestamp_ns;; mret tt
  | CallDescendant child parent timestamp_ns => register_recovered_descendant child parent timestamp_ns;; mret tt
  | CallRefresh pid timestamp_ns pc => refresh_maps_for_uncovered_user_pc pid timestamp_ns pc
  end.
Fixpoint run_calls (calls : list recorder_call) : op unit :=
  match calls with [] => mret tt | call :: calls => run_call call;; run_calls calls end.

Definition call_ok (call : recorder_call) : Prop :=
  match call with CallRecord _ _ privilege record => record_ok privilege record | _ => True end.

(** What a call may do to the address spaces [sp]. *)
Definition call_effect sp (call : recorder_call) (es : list map_event) : Prop :=
  match call with
  | CallRecord inherit_child_processes _ privilege record => es ∈ record_effects inherit_child_processes privilege record
  | CallRetire _ pid => es = [Exit pid]
  | CallReconcile pid _ => es = [] \/ exists maps, listed maps /\ reconciled sp pid (executable_modules_from_maps pid maps) es
  | CallDescendant pid _ _ | CallRefresh pid _ _ => es = [] \/ exists maps, listed maps /\ es = Map <$> executable_modules_from_maps pid maps
  end.

Lemma reconcile_emits sp pid timestamp_ns :
  emits sp (reconcile_process_image pid timestamp_ns) (λ es _, es = [] \/ exists maps, listed maps /\ reconciled sp pid (executable_modules_from_maps pid maps) es).
Proof.
  unfold reconcile_process_image. destruct (i32_try_from pid) as [n|] eqn:Hn; [|by apply emits_ret; left]. apply i32_try_from_Some in Hn as ->.
  eapply emits_quiet_bind; [apply quiet_on_processes|]. intros r _. eapply emits_quiet_bind; [apply quiet_read_tracked|]. intros maps Hmaps.
  eapply emits_weaken; [apply reconcile_with_emits; intros m Hm; by apply listed_sane, Hmaps|].
  intros es alive Hes. destruct maps as [maps|e]; [|left; apply Hes]. right. exists maps. split; [by apply Hmaps|apply Hes].
Qed.

Lemma descendant_emits sp child parent timestamp_ns :
  emits sp (register_recovered_descendant child parent timestamp_ns)
    (λ es _, es = [] \/ exists maps, listed maps /\ es = Map <$> executable_modules_from_maps child maps).
Proof.
  unfold register_recovered_descendant. destruct (Pid_new child) as [child_pid|] eqn:Hc; [|by apply emits_ret; left].
  apply Pid_new_spec in Hc as [-> _]. eapply emits_quiet_bind; [apply quiet_on_processes|]. intros process _.
  eapply (emits_quiet_bind _ _ _ (λ r, forall maps, r.1 = SOk maps -> listed maps)).
  { apply quiet_processes. intros [p k] [r h]. pose proof (read_checked_value read_existing_maps process k) as Hv.
    destruct (read_checked read_existing_maps (process, k)) as [r' [h' k']]. intros [= <- <-] maps Heq. exists (ph_pid process), k. by apply Hv. }
  intros [maps process'] Hmaps. cbn in Hmaps. destruct maps as [maps|e].
  - specialize (Hmaps maps eq_refl). eapply emits_quiet_bind; [apply quiet_on_processes|]. intros _ _.
    eapply emits_quiet_bind; [apply quiet_perf_support|]. intros support _.
    eapply emits_bind; [by apply register_maps_emits|]. intros saw es ->.
    eapply emits_quiet_bind; [apply quiet_mark_if|]. intros _ _. apply emits_ret. right. exists maps. by rewrite app_nil_r.
  - destruct (is_target_gone_io e); [by apply emits_ret; left|]. destruct (is_access_denied_io e); [|apply emits_fail].
    eapply emits_quiet_bind; [apply quiet_get_processes|]. intros p _.
    eapply (emits_quiet_bind _ _ _ (λ _, True)); [destruct (_ !! _); [apply quiet_on_processes|by apply quiet_ret]|]. intros warned _.
    eapply (emits_quiet_bind _ _ _ (λ _, True)); [destruct warned; [by apply quiet_ret|apply quiet_update]|]. intros _ _. by apply emits_ret; left.
Qed.

Lemma covers_quiet pid pc : quiet (on_modules (table_covers_user_pc pid pc)) (λ _, True).
Proof.
  intros sp. apply emits_modules. intros t s Hi Hr. unfold table_covers_user_pc. apply spec_table.
  destruct (rebuild_index_ok t (ti_wf _ Hi)) as (t' & Hreb & Hwf' & Hsame & _). unfold covers_user_pc. rewrite Hreb.
  eapply (spec_lift _ _ _ _ _ _ (_, t')); [done|]. unfold spec, mbind, io_mbind, update_table, io_modify. cbn [fst snd].
  split; [by eapply same_modules_inv|]. split; [split; [|done]; by eapply same_modules_represents|].
  intros l Hl Ha. exists l. split; [done|by eapply same_modules_agree].
Qed.

Lemma refresh_emits sp pid timestamp_ns pc :
  emits sp (refresh_maps_for_uncovered_user_pc pid timestamp_ns pc)
    (λ es _, es = [] \/ exists maps, listed maps /\ es = Map <$> executable_modules_from_maps pid maps).
Proof.
  unfold refresh_maps_for_uncovered_user_pc. destruct (if 0 <=? pid then pc else None) as [pc'|]; [|by apply emits_ret; left].
  eapply emits_quiet_bind; [apply covers_quiet|]. intros [|] _; [by apply emits_ret; left|].
  eapply emits_quiet_bind; [apply quiet_get_processes|]. intros p _. destruct (pu_should_refresh_for_uncovered_pc _ _) as [refresh u].
  eapply emits_quiet_bind; [apply quiet_update|]. intros _ _. destruct refresh; [|by apply emits_ret; left]. cbn [negb].
  eapply emits_quiet_bind; [apply quiet_read_process|]. intros r Hmaps. destruct r as [maps|e].
  - specialize (Hmaps maps eq_refl). eapply emits_bind; [by apply register_maps_emits|]. intros [|] es ->.
    + eapply emits_quiet_bind; [apply quiet_perf_support|]. intros support _. eapply emits_weaken; [apply quiet_mark_if|].
      intros es _ [-> _]. right. exists maps. by rewrite app_nil_r.
    + apply emits_ret. right. exists maps. by rewrite app_nil_r.
  - destruct (is_target_gone_io e); [by apply emits_ret; left|]. destruct (is_access_denied_io e); [|apply emits_fail].
    eapply emits_weaken; [apply quiet_update|]. intros es _ [-> _]. by left.
Qed.

Lemma run_call_emits sp call : call_ok call -> emits sp (run_call call) (λ es _, call_effect sp call es).
Proof.
  intros Hok. destruct call as [inherit_child_processes ts privilege record|ts pid|pid ts|child parent ts|pid ts pc]; cbn [run_call].
  - by apply handle_record_emits.
  - eapply emits_quiet_bind; [apply quiet_end_python|]. intros _ _. apply cleanup_emits.
  - eapply emits_bind; [apply reconcile_emits|]. intros alive es Hes. apply emits_ret. by rewrite app_nil_r.
  - eapply emits_bind; [apply descendant_emits|]. intros fork es Hes. apply emits_ret. by rewrite app_nil_r.
  - apply refresh_emits.
Qed.

(** The effects of a sequence of calls, each on the address spaces that the
    earlier ones leave. *)
Inductive calls_effect : address_space -> list recorder_call -> address_space -> Prop :=
  | calls_done sp : calls_effect sp [] sp
  | calls_next sp call calls es sp' :
      call_effect sp call es -> calls_effect (foldl space_step sp es) calls sp' -> calls_effect sp (call :: calls) sp'.

End calls.

(** ** A reconciled process has its maps *)

(** Mappings in the order of the addresses, as the kernel lists them. *)
Definition ascending : list Region -> Prop := StronglySorted (λ a b, (mr_range a).2 <= (mr_range b).1).

Lemma map_all_space pid ms : StronglySorted (λ a b, m_end a <= m_start b) ms -> Forall (λ m, m_owner m = Process pid) ms ->
  forall sp p address,
  (p <> pid -> foldl space_step sp (Map <$> ms) p address = sp p address) /\
  forall b, foldl space_step sp (Map <$> ms) pid address = Some b <->
    snapshot_maps ms address b \/ (~ Exists (inside address) ms /\ sp pid address = Some b).
Proof.
  induction 1 as [|m ms _ IH Hm]; intros Hown sp p address.
  { split; [done|]. intros b. cbn. unfold snapshot_maps. rewrite !Exists_nil. tauto. }
  apply list.Forall_cons in Hown as [Ho Hown]. cbn [fmap list_fmap foldl]. destruct (IH Hown (space_step sp (Map m)) p address) as [Hother Hpid]. split.
  - intros Hne. rewrite Hother by done. cbn [space_step]. rewrite Ho, (bool_decide_eq_false_2 (Process pid = Process p)) by congruence. done.
  - intros b. rewrite Hpid. unfold snapshot_maps. rewrite !Exists_cons. cbn [space_step]. rewrite Ho, bool_decide_eq_true_2 by done. cbn [andb].
    assert (inside address m -> ~ Exists (inside address) ms) as Hdis.
    { intros Hin Hex. apply Exists_exists in Hex as (n & Hn & Hin'). rewrite list.Forall_forall in Hm. specialize (Hm n Hn). unfold inside in *. lia. }
    assert (Exists (maps_byte address b) ms -> Exists (inside address) ms) as Hsub by (intros Hex; eapply Exists_impl; [exact Hex|]; by intros n [? _]).
    assert (((m_start m <=? address) && (address <? m_end m) = true) <-> inside address m) as Hin
      by (unfold inside; rewrite andb_true_iff, Z.leb_le, Z.ltb_lt; tauto).
    assert (maps_byte address b m <-> inside address m /\ Some (backing m address) = Some b) as Hb.
    { unfold maps_byte. split; intros [? Heq]; split; congruence. }
    destruct (_ && _).
    + assert (inside address m) as Hi by by apply Hin. rewrite Hb. clear Hb Hin. tauto.
    + assert (~ inside address m) as Hi by (intros ?%Hin; done). rewrite Hb. clear Hb Hin. tauto.
Qed.

Lemma snapshot_ascending pid maps : ascending (parse_iter maps) ->
  StronglySorted (λ a b, m_end a <= m_start b) (executable_modules_from_maps pid maps).
Proof.
  unfold executable_modules_from_maps. destruct (Pid_try_from_u32 pid) as [owner|]; [|constructor].
  induction 1 as [|r rs _ IH Hr]; [constructor|]. rewrite filter_cons. destruct (decide _); [|done]. cbn [fmap list_fmap]. constructor; [done|].
  apply Forall_fmap, list.Forall_forall. intros r' [_ Hin]%list_elem_of_filter. rewrite list.Forall_forall in Hr. by apply (Hr r').
Qed.

#[local] Instance any_preorder : PreOrder (λ _ _ : K, True).
Proof. by split. Qed.

(** A read of a tracked process: what the handle answers, and that nothing else changes. *)
Lemma read_tracked_run {A} pid (read : Z -> sys K A) c h : process_of pid (cx_processes c) = Some h -> ph_pid h = pid ->
  exists r c' h', on_processes (read_tracked pid read) c = (Ok r, c') /\ r = (read_checked read (h, cx_kernel c)).1 /\
    cx_modules c' = cx_modules c /\ process_of pid (cx_processes c') = Some h' /\ ph_pid h' = pid.
Proof.
  intros Hh Hpid. unfold on_processes, io_zoom, read_tracked, mbind, io_mbind, processes, io_gets. cbn [fst snd]. rewrite Hh. unfold process_call.
  destruct (read_checked_keeps (λ _ _ : K, True) (λ _, True) (conj I I) (conj I I) (λ _ _, conj I (λ _ _, I)) (λ _ _, conj I (λ _ _, I))
    read (λ _ _, conj I (λ _ _, I)) (h, cx_kernel c)) as [[_ Hp] _].
  destruct (read_checked read (h, cx_kernel c)) as [r [h' k']]. cbn [fst snd] in Hp. eexists r, _, h'. split; [done|]. split; [done|]. split; [done|].
  split; [|congruence]. cbn. unfold process_of in *. cbn. rewrite lookup_alter_eq. by destruct (pt_states _ !! pid).
Qed.

End tracking.

(** ** A host with one process *)

(** Process 7 runs; its maps are those of [sample_printed]. *)
#[local] Instance host_kernel : Kernel unit := {|
  k_read path := λ k, (if bool_decide (path = proc_path 7 "maps") then SOk (kernel_maps sample_printed) else SErr (Errno ENOENT), k);
  k_read_dir _ := λ k, (SOk [], k);
  k_metadata _ := λ k, (SOk (1, 2), k);
  k_pidfd_open _ := λ k, (SOk 3, k);
  k_poll _ := λ k, (SOk None, k);
  k_poll_many fds := λ k, (SOk ((λ _, 0) <$> fds), k);
  k_pidfd_send_signal _ _ := λ k, (SOk tt, k);
  k_kill _ _ := λ k, (SOk tt, k);
  k_now := λ k, (0, k);
  k_sleep _ := λ k, k;
|}.
#[local] Instance host_unwinders : ProcessUnwinders unit unit unit := {|
  pu_default := tt;
  pu_inherit_for_fork u := u;
  pu_apply_module_update _ := mret tt;
  pu_reuse_inherited_modules _ := mret tt;
  pu_should_refresh_for_uncovered_pc _ u := (true, u);
  elf_sections_remove _ e := e;
|}.
#[local] Instance host_order : HashOrder unit := λ pids k, (pids, k).
#[local] Instance host_sink : RecorderSink log_modules := {|
  rs_modules := log_sink;
  sink_python_runtime _ _ _ := mret tt;
|}.
#[local] Instance host_log : RecorderLog log_modules eq (λ _, False).
Proof. split; [apply log_sink_logged|]. by intros timestamp_ns pid flag s l. Qed.

Lemma printed_sane : Forall region_sane (pr_region <$> sample_printed).
Proof. repeat constructor; try done; cbn; try lia; try word_lia; intros Hin; by decompose_list_elem_of. Qed.
Lemma sample_ascending : ascending (pr_region <$> sample_printed).
Proof. repeat constructor; cbn; lia. Qed.
Lemma host_maps_sane pid k maps : (k_read (proc_path pid "maps") k).1 = SOk maps -> Forall region_sane (parse_iter maps).
Proof.
  change (k_read (proc_path pid "maps") k).1 with
    (if bool_decide (proc_path pid "maps" = proc_path 7 "maps") then SOk (kernel_maps sample_printed) else SErr (Errno ENOENT)).
  destruct (bool_decide _); [|done]. intros Heq. assert (maps = kernel_maps sample_printed) as -> by congruence. rewrite parse_printed; [apply printed_sane|].
  pose proof printed_sane as Hs. rewrite Forall_fmap in Hs. eapply Forall_impl; [exact Hs|]. by intros p [? _ _].
Qed.

Lemma host_never_denied path k e : (k_read path k).1 = SErr e -> is_access_denied_io e = false.
Proof.
  change (k_read path k).1 with (if bool_decide (path = proc_path 7 "maps") then SOk (kernel_maps sample_printed) else SErr (Errno ENOENT)).
  destruct (bool_decide _); [congruence|]. by intros [= <-].
Qed.

Definition host_start : EventContext (K := unit) (U := unit) (E := unit) (S := log_modules) :=
  mkCtx (mkProcesses {[7 := mkState (Some (mkHandle 7 (Some (mkWatcher 3 false)) None)) None None None false false None]} tt ∅)
    tt (table_default, []) (mkRecording 0 0 true 0 0) [].
Lemma host_start_on_track : on_track eq (λ _ _, None) host_start.
Proof. split; [apply table_default_inv|apply represents_default|]. exists []. split; [done|apply agree_default]. Qed.

(** A library is mapped, the process forks, records are lost, the child exits. *)
Definition host_calls : list recorder_call :=
  [CallRecord true 10 PrivUser (LifeMmap (mkMmap (mkTask 7 7) true 40960 8192 0 (chars "/lib/a") None));
   CallRecord true 20 PrivUser (LifeFork (mkTask 8 8) (mkTask 7 7));
   CallReconcile 7 30; CallRetire 40 8].


