(* ===== verification/Drain.v ===== *)
(** * Drains

    [drain_events_inner] of [src/linux/mod.rs] and how a process is opened: a drain
    finishes the events that the rings and the sorter release, replays the
    lifecycle actions on the perf group, retires processes one drain after they
    were seen gone, and after lost records starts over from [/proc].  The perf
    group is behind the class [PerfCalls]. *)

From stdpp Require Import prelude list numbers strings gmap.
From S2P Require Import Prelude Model Contexts ModuleTable SampleStack PerfOpen Text ProcMaps.
From S2P Require Import PythonNames ProcFs ProcessHandle ProcessTable Lifecycle.
#[local] Open Scope Z_scope.

(** ** The perf group and the scan for descendants *)

Inductive AttachMode := AttachRunning | AttachOnExec | AttachStopWhileAttaching.

(** [T] is what an open transaction can be rolled back with. *)
Class PerfCalls (K P T : Type) := {
  pg_inherit_child_processes : P -> bool;
  pg_kernel_enabled : P -> bool;
  pg_ring_capacity_bytes_range : P -> option (Z * Z);
  pg_remove_process : Z -> io (P * K) unit;
  pg_remove_thread : Z -> io (P * K) unit;
  pg_open_forked_threads : list (Z * Z * Z) -> io (P * K) unit;
  pg_open_forked_process : Z -> io (ProcessHandle * (P * K)) unit;
  pg_take_lost_records : io (P * K) Z;
  pg_recover_forked_processes : list (Z * Z) -> P * K -> list (Z * Z) * (P * K);
  pg_refresh_threads : sys (ProcessHandle * (P * K)) unit;
  pg_open_process : AttachMode -> sys (ProcessHandle * (P * K)) T;
  pg_rollback_open : T -> P -> P;
  pg_resume_stopped_processes : io (P * K) unit;
  pg_enable_if_running : io (P * K) unit;
  pg_enable : io (P * K) unit;
  pg_disable : io (P * K) unit;
  pg_wait : Z -> io (P * K) unit;
  pg_has_pending_events : P -> bool;
}.
(** [discover_descendant_edges_raw_for_roots]; its two scans are in [ProcFs.v]. *)
Class DescendantScan (K : Type) := discover_descendant_edges : list Z -> K -> list (Z * Z) * K.

(** ** Modes and pacing *)

Inductive DrainMode := Consume | Flush | Final.
Definition forces_bookkeeping (mode : DrainMode) : bool := match mode with Flush | Final => true | Consume => false end.
Definition defers_retirement (mode : DrainMode) : bool := match mode with Final => false | _ => true end.
Definition opens_new_perf_events (mode : DrainMode) : bool := match mode with Final => false | _ => true end.

(** Milliseconds. *)
Definition LOST_RECORD_READ_INTERVAL : Z := 100.
Definition RECOVERY_SWEEP_INTERVAL : Z := 250.

Record CapturePacing := mkPacing {
  cp_last_lost_read : option Z;
  cp_last_recovery_sweep : option Z;
  cp_recovery_sweep_pending : bool;
  cp_lost_read_pending : bool;
}.
Definition pacing_default : CapturePacing := mkPacing None None false false.
(** Whether it is due, and when it was last. *)
Definition interval_due (now : Z) (last : option Z) (interval : Z) (force : bool) : bool * option Z :=
  let due := force || match last with None => true | Some previous => interval <=? now - previous end in
  (due, if due then Some now else last).
Definition observe_ring_records (p : CapturePacing) : CapturePacing :=
  mkPacing (cp_last_lost_read p) (cp_last_recovery_sweep p) (cp_recovery_sweep_pending p) true.
Definition should_read_lost_records (now : Z) (mode : DrainMode) (p : CapturePacing) : bool * CapturePacing :=
  if negb (cp_lost_read_pending p) && negb (forces_bookkeeping mode) then (false, p)
  else
    let '(due, last) := interval_due now (cp_last_lost_read p) LOST_RECORD_READ_INTERVAL (forces_bookkeeping mode) in
    (due, mkPacing last (cp_last_recovery_sweep p) (cp_recovery_sweep_pending p) (cp_lost_read_pending p)).
Definition observe_recovery_gap (gap_observed : bool) (p : CapturePacing) : CapturePacing :=
  mkPacing (cp_last_lost_read p) (cp_last_recovery_sweep p) (cp_recovery_sweep_pending p || gap_observed) (cp_lost_read_pending p).
Definition should_run_recovery_sweep (now : Z) (mode : DrainMode) (p : CapturePacing) : bool * CapturePacing :=
  if negb (cp_recovery_sweep_pending p) then (false, p)
  else
    let '(due, last) := interval_due now (cp_last_recovery_sweep p) RECOVERY_SWEEP_INTERVAL (forces_bookkeeping mode) in
    (due, mkPacing (cp_last_lost_read p) last (cp_recovery_sweep_pending p) (cp_lost_read_pending p)).
Definition complete_recovery_sweep (p : CapturePacing) : CapturePacing :=
  mkPacing (cp_last_lost_read p) (cp_last_recovery_sweep p) false (cp_lost_read_pending p).
Definition set_lost_read_pending (flag : bool) (p : CapturePacing) : CapturePacing :=
  mkPacing (cp_last_lost_read p) (cp_last_recovery_sweep p) (cp_recovery_sweep_pending p) flag.

(** [record_observed_lost_events]. *)
Definition record_observed_lost_events (lost : Z) (summary : RecordingSummary) (pacing : CapturePacing)
    : result (RecordingSummary * CapturePacing) :=
  after ← record_lost_events summary lost;
  let pending := negb (rs_lost_events after =? 0) && (rs_minimum_ring_buffer_bytes after <? 2 * MAX_PERF_RECORD_BYTES) in
  Ok (after, observe_recovery_gap (negb (rs_lifecycle_gaps after =? rs_lifecycle_gaps summary)) (set_lost_read_pending pending pacing)).

(** ** What a drain collects *)

(** An event as the sorter releases it.  Of a sample, what decides whether the
    maps are read again; its stack is built in [SampleStack.v] and written in
    [Session.v]. *)
Inductive PreparedEvent :=
  | PreparedRecord (timestamp_ns : Z) (privilege : Priv) (record : LifeRecord)
  | PreparedSample (timestamp_ns pid : Z) (privilege : Priv) (pc : option Z).
Definition event_timestamp (event : PreparedEvent) : Z :=
  match event with PreparedRecord timestamp_ns _ _ | PreparedSample timestamp_ns _ _ _ => timestamp_ns end.

(** The events that are released while the rings are read, those that a
    recovery sweep forces out of the sorter, whether any record was read, how
    reading the rings ended, and whether the sorter holds events afterwards. *)
Record Collected := mkCollected {
  co_released : list PreparedEvent;
  co_forced : list PreparedEvent;
  co_saw_record : bool;
  co_result : result unit;
  co_queued : bool;
}.

Section drain.
Context {K U E S P T : Type} `{Kernel K} `{ProcessUnwinders K U E} `{HashOrder K} `{RecorderSink S} `{PerfCalls K P T} `{DescendantScan K}.
#[local] Abbreviation ctx := (EventContext (K := K) (U := U) (E := E) (S := S)).

Record Recorder := mkRec {
  rc_context : ctx;
  rc_perf : P;
  rc_pacing : CapturePacing;
}.
#[local] Abbreviation op := (io Recorder).
Definition set_kernel (k : K) (c : ctx) : ctx := mkCtx (cx_processes c) k (cx_modules c) (cx_summary c) (cx_actions c).
Definition on_context {A} (m : io ctx A) : op A := io_zoom rc_context (λ c r, mkRec c (rc_perf r) (rc_pacing r)) m.
Definition on_perf {A} (m : io (P * K) A) : op A :=
  io_zoom (λ r, (rc_perf r, cx_kernel (rc_context r))) (λ '(p, k) r, mkRec (set_kernel k (rc_context r)) p (rc_pacing r)) m.
Definition on_pacing {A} (f : CapturePacing -> A * CapturePacing) : op A := λ r,
  let '(a, pacing) := f (rc_pacing r) in (Ok a, mkRec (rc_context r) (rc_perf r) pacing).
Definition clock_now : op Z := on_perf (λ '(p, k), let '(now, k) := k_now k in (Ok now, (p, k))).

(** A perf call with the handle of a tracked process. *)
Definition perf_with_process {A} (pid : Z) (call : sys (ProcessHandle * (P * K)) A) (h : ProcessHandle) : op (sres A) := λ r,
  let '(a, (h, (p, k))) := call (h, (rc_perf r, cx_kernel (rc_context r))) in
  let c := set_kernel k (rc_context r) in
  let processes := state_alter pid (set_process (Some h)) (cx_processes c) in
  (Ok a, mkRec (mkCtx processes k (cx_modules c) (cx_summary c) (cx_actions c)) p (rc_pacing r)).

(** *** Events *)

Definition finish_prepared_event (inherit_child_processes : bool) (event : PreparedEvent) : io ctx unit :=
  match event with
  | PreparedRecord timestamp_ns privilege record => handle_non_sample_record inherit_child_processes timestamp_ns privilege record
  | PreparedSample timestamp_ns pid privilege pc =>
      summary ← io_gets cx_summary;
      if is_kernel_mode privilege && negb (rs_kernel_enabled summary) then mret tt
      else
        refresh_maps_for_uncovered_user_pc pid timestamp_ns pc;;
        update_processes (state_mut pid (λ state, set_unwinder (Some (default (pu_default (K := K) (E := E)) (ps_unwinder state))) state))
  end.
(** The latest timestamp that was finished; the first error ends the loop. *)
Fixpoint finish_events (inherit_child_processes : bool) (events : list PreparedEvent) (latest : Z) : io ctx (result unit * Z) :=
  match events with
  | [] => mret (Ok tt, latest)
  | event :: events => λ c,
      match finish_prepared_event inherit_child_processes event c with
      | (Ok _, c) => finish_events inherit_child_processes events (Z.max latest (event_timestamp event)) c
      | (Err e, c) => (Ok (Err e, latest), c)
      end
  end.

(** *** Replaying actions *)

Definition open_forked_process (pid parent_tid : Z) : op unit :=
  p ← on_context get_processes;
  match i32_try_from pid ≫= λ pid, (pid,.) <$> process_of pid p with
  | Some (pid, h) =>
      r ← perf_with_process pid (λ s, let '(r, s) := pg_open_forked_process (K := K) (P := P) (T := T) parent_tid s in (SOk r, s)) h;
      match r with SOk r => io_lift r | SErr e => io_fail (sys_kind e) end
  | None => mret tt
  end.
Definition open_batch (batch : list (Z * Z * Z)) : op unit :=
  if bool_decide (batch = []) then mret tt else on_perf (pg_open_forked_threads (T := T) batch).
(** Only adjacent thread forks share one transaction. *)
Fixpoint replay_actions (open_new_perf_events : bool) (batch : list (Z * Z * Z)) (actions : list LifecycleAction) : op unit :=
  match actions with
  | [] => open_batch batch
  | ThreadFork tid pid parent_tid :: actions =>
      if open_new_perf_events then replay_actions open_new_perf_events (batch ++ [(tid, pid, parent_tid)]) actions
      else replay_actions open_new_perf_events batch actions
  | action :: actions =>
      open_batch batch;;
      (match action with
       | ProcessRetire pid => on_perf (pg_remove_process (T := T) pid)
       | ProcessFork pid parent_tid => if open_new_perf_events then open_forked_process pid parent_tid else mret tt
       | ThreadExit tid _ _ => on_perf (pg_remove_thread (T := T) tid)
       | ThreadFork _ _ _ => mret tt
       end);;
      replay_actions open_new_perf_events [] actions
  end.
Definition replay_lifecycle_actions (actions : list LifecycleAction) (open_new_perf_events : bool) : op unit :=
  replay_actions open_new_perf_events [] actions.

(** *** Retirement *)

(** The last exit of a thread of each process. *)
Definition last_exit_by_pid (actions : list LifecycleAction) : gmap Z Z :=
  foldl (λ exits action,
    match action with
    | ThreadExit _ pid timestamp_ns =>
        match i32_try_from pid with
        | Some pid => <[pid := match exits !! pid with Some latest => Z.max latest timestamp_ns | None => timestamp_ns end]> exits
        | None => exits
        end
    | _ => exits
    end) ∅ actions.

Fixpoint retain_undeferred (exits : gmap Z Z) (dead : list Z) : op (list Z) :=
  match dead with
  | [] => mret []
  | pid :: dead =>
      deferred ← on_context (on_processes (defer_retirement pid (exits !! pid)));
      rest ← retain_undeferred exits dead;
      mret (if (deferred : bool) then rest else pid :: rest)
  end.
Definition retire_process (exits : gmap Z Z) (recovery_timestamp_ns pid : Z) : op unit :=
  (if 0 <=? pid then on_perf (pg_remove_process (T := T) pid) else mret tt);;
  p ← on_context get_processes;
  let timestamp_ns := match exits !! pid with
                      | Some timestamp_ns => timestamp_ns
                      | None => default recovery_timestamp_ns (pending_exit_timestamp pid p)
                      end in
  on_context (end_python_runtime_process timestamp_ns pid);;
  on_context (cleanup_process pid).
Fixpoint retire_processes (exits : gmap Z Z) (recovery_timestamp_ns : Z) (dead : list Z) : op unit :=
  match dead with
  | [] => mret tt
  | pid :: dead => retire_process exits recovery_timestamp_ns pid;; retire_processes exits recovery_timestamp_ns dead
  end.
(** From the processes that are gone to those that are retired now. *)
Definition settle_dead (mode : DrainMode) (actions : list LifecycleAction) (recovery_timestamp_ns : Z) : op unit :=
  dead ← on_context (on_processes dead_or_reused_pids);
  let exits := if bool_decide (dead = []) then ∅ else last_exit_by_pid actions in
  dead ← (if defers_retirement mode then retain_undeferred exits dead else mret dead);
  retire_processes exits recovery_timestamp_ns dead.

(** *** Recovery *)

Fixpoint reconcile_all (mode : DrainMode) (recovery_timestamp_ns : Z) (pids : list Z) : op unit :=
  match pids with
  | [] => mret tt
  | pid :: pids =>
      (if 0 <=? pid then
         alive ← on_context (reconcile_process_image pid recovery_timestamp_ns);
         if (alive : bool) then mret tt
         else if defers_retirement mode then on_context (on_processes (defer_retirement pid None));; mret tt
         else on_perf (pg_remove_process (T := T) pid);; on_context (cleanup_process pid)
       else mret tt);;
      reconcile_all mode recovery_timestamp_ns pids
  end.
Fixpoint register_descendants (recovery_timestamp_ns : Z) (edges : list (Z * Z)) : op (list (Z * Z)) :=
  match edges with
  | [] => mret []
  | (child, parent) :: edges =>
      p ← on_context get_processes;
      fork ← (if is_tracked child p then mret None else on_context (register_recovered_descendant child parent recovery_timestamp_ns));
      rest ← register_descendants recovery_timestamp_ns edges;
      mret (match fork with Some fork => fork :: rest | None => rest end)
  end.
Fixpoint open_recovered (forks : list (Z * Z)) : op unit :=
  match forks with
  | [] => mret tt
  | (pid, parent_pid) :: forks => open_forked_process pid parent_pid;; open_recovered forks
  end.
Fixpoint refresh_all_threads (pids : list Z) : op unit :=
  match pids with
  | [] => mret tt
  | pid :: pids =>
      p ← on_context get_processes;
      (match process_of pid p with
       | None => mret tt
       | Some h =>
           r ← perf_with_process pid (pg_refresh_threads (K := K) (P := P) (T := T)) h;
           match r with
           | SOk _ => mret tt
           | SErr e => if is_target_gone_io e then mret tt else io_fail (sys_kind e)
           end
       end);;
      refresh_all_threads pids
  end.

Definition observe_lost (lost : Z) : op unit := λ r,
  match record_observed_lost_events lost (cx_summary (rc_context r)) (rc_pacing r) with
  | Ok (summary, pacing) =>
      let c := rc_context r in
      (Ok tt, mkRec (mkCtx (cx_processes c) (cx_kernel c) (cx_modules c) summary (cx_actions c)) (rc_perf r) pacing)
  | Err e => (Err e, r)
  end.
Definition take_lost : op unit := lost ← on_perf (pg_take_lost_records (T := T)); observe_lost lost.

(** *** A drain *)

(** Reading the rings: how it ended, the latest timestamp, whether a sweep is due. *)
Definition drain_rings (mode : DrainMode) (inherit_child_processes : bool) (collected : Collected) : op (Z * bool) :=
  '(finished, latest) ← on_context (finish_events inherit_child_processes (co_released collected) 0);
  (if co_saw_record collected then on_pacing (λ p, (tt, observe_ring_records p)) else mret tt);;
  io_lift (match co_result collected with Err e => Err e | Ok _ => finished end);;
  (if forces_bookkeeping mode then mret tt
   else
     now ← clock_now;
     due ← on_pacing (should_read_lost_records now mode);
     if (due : bool) then take_lost else mret tt);;
  now ← clock_now;
  sweep ← on_pacing (should_run_recovery_sweep now mode);
  if (sweep : bool) then
    '(forced, latest) ← on_context (finish_events inherit_child_processes (co_forced collected) latest);
    io_lift forced;; mret (latest, true)
  else mret (latest, false).

Definition drain_events_inner (mode : DrainMode) (collected : Collected) : op unit :=
  r ← io_get;
  let inherit_child_processes := pg_inherit_child_processes (K := K) (T := T) (rc_perf r) in
  on_context (io_modify (λ c, mkCtx (cx_processes c) (cx_kernel c) (cx_modules c) (cx_summary c) []));;
  '(recovery_timestamp_ns, recovered) ← drain_rings mode inherit_child_processes collected;
  actions ← on_context (io_gets cx_actions);
  replay_lifecycle_actions actions (opens_new_perf_events mode);;
  settle_dead mode actions recovery_timestamp_ns;;
  recovered ←
    (if forces_bookkeeping mode then
       take_lost;;
       now ← clock_now;
       sweep ← on_pacing (should_run_recovery_sweep now mode);
       mret (recovered || sweep)
     else mret recovered);
  (if (recovered : bool) then
     pids ← on_context (on_processes tracked_pids);
     reconcile_all mode recovery_timestamp_ns pids
   else mret tt);;
  forks ←
    (if opens_new_perf_events mode && recovered && inherit_child_processes then
       roots ← on_context (on_processes tracked_pids);
       edges ← on_perf (λ '(p, k), let '(edges, k) := discover_descendant_edges roots k in (Ok edges, (p, k)));
       on_context (update_processes (retain_unreadable_descendants edges));;
       register_descendants recovery_timestamp_ns edges
     else mret []);
  (if opens_new_perf_events mode then
     forks ← on_perf (λ s, let '(forks, s) := pg_recover_forked_processes (T := T) forks s in (Ok forks, s));
     open_recovered forks
   else mret tt);;
  (if opens_new_perf_events mode && recovered then
     pids ← on_context (on_processes tracked_pids);
     refresh_all_threads pids
   else mret tt);;
  if (recovered : bool) then on_pacing (λ p, (tt, complete_recovery_sweep p)) else mret tt.

Definition refresh_recording_summary (r : Recorder) : Recorder :=
  let c := rc_context r in
  let s := cx_summary c in
  let '(minimum, maximum) := default (rs_minimum_ring_buffer_bytes s, rs_maximum_ring_buffer_bytes s)
                               (pg_ring_capacity_bytes_range (K := K) (T := T) (rc_perf r)) in
  let s := mkRecording (rs_lost_events s) (rs_lifecycle_gaps s) (rs_kernel_enabled s && pg_kernel_enabled (K := K) (T := T) (rc_perf r)) minimum maximum in
  mkRec (mkCtx (cx_processes c) (cx_kernel c) (cx_modules c) s (cx_actions c)) (rc_perf r) (rc_pacing r).
Definition drain_events (mode : DrainMode) (collected : Collected) : op unit := λ r,
  let '(result, r) := drain_events_inner mode collected r in (result, refresh_recording_summary r).

(** ** Attaching another process *)

Inductive AttachOutcome := Attached | AlreadyAttached | Exited.
Definition op_try {A} (m : op A) : op (result A) := λ r, let '(a, r) := m r in (Ok a, r).

(** The first error counts; a second one only adds to its message. *)
Definition rollback_open_process (pid : Z) (opened : T) : op unit :=
  resumed ← op_try (on_perf (pg_resume_stopped_processes (T := T)));
  on_perf (λ '(p, k), (Ok tt, (pg_rollback_open (K := K) opened p, k)));;
  cleaned ← op_try (on_context (cleanup_process pid));
  io_lift (match resumed with Err e => Err e | Ok _ => cleaned end).
Definition rollback_error {A} (pid : Z) (opened : T) (e : ErrorKind) : op A := op_try (rollback_open_process pid opened);; io_fail e.

(** The mappings of a process whose events were just opened. *)
Definition attach_maps (pid : Z) (opened : T) : op AttachOutcome :=
  support ← on_context (process_has_python_perf_support pid);
  maps ← on_context (on_processes (read_tracked pid read_existing_maps));
  match maps with
  | SErr e =>
      if is_target_gone_io e then
        rolled_back ← op_try (rollback_open_process pid opened);
        match rolled_back with Ok _ => mret Exited | Err _ => io_fail (sys_kind e) end
      else rollback_error pid opened (sys_kind e)
  | SOk maps =>
      registered ← op_try (on_context (register_existing_maps_snapshot pid maps));
      match registered with
      | Err e => rollback_error pid opened e
      | Ok saw_python_runtime =>
          marked ← op_try (if (saw_python_runtime && support : bool) then on_context (mark_python_runtime_process 0 pid) else mret tt);
          match marked with Err e => rollback_error pid opened e | Ok _ => mret Attached end
      end
  end.

Definition attach_open (mode : AttachMode) (process : ProcessHandle) : op AttachOutcome :=
  let pid := ph_pid process in
  '(opened, process) ← (λ r,
    let '(a, (h, (p, k))) := pg_open_process (K := K) (P := P) mode (process, (rc_perf r, cx_kernel (rc_context r))) in
    (Ok (a, h), mkRec (set_kernel k (rc_context r)) p (rc_pacing r)));
  match opened with
  | SErr e => if is_target_gone_io e then mret Exited else io_fail (sys_kind e)
  | SOk opened =>
      on_context (on_processes (track process));;
      outcome ← attach_maps pid opened;
      match outcome with
      | Attached =>
          enabled ← op_try (match mode with AttachOnExec => mret tt | _ => on_perf (pg_enable_if_running (T := T)) end);
          match enabled with
          | Err e => rollback_error pid opened e
          | Ok _ => io_modify refresh_recording_summary;; mret Attached
          end
      | outcome => mret outcome
      end
  end.
End drain.
