(* ===== verification/DrainMarks.v ===== *)
(** * Marks of Python processes

    The marks in the spool are those of the process states, through every call
    of [Lifecycle.v] and through every drain. *)

From stdpp Require Import prelude list numbers strings gmap.
From S2P Require Import Prelude Model Contexts RoundTrip ModuleTable TableOps SampleStack Text.
From S2P Require Import ProcMaps PythonNames ProcFs ProcessHandle ProcessTable Lifecycle LifeTrack Drain.
#[local] Open Scope Z_scope.

(** ** Marks of Python processes

    The recorder marks the processes that run Python with perf support in the
    spool, and ends the mark when the process execs or is retired.  Through every
    call of [Lifecycle.v] the marks in the spool are those of the process
    states. *)

(** ** The module table writes no marks *)

Section sink_keeps.
Context {S : Type} `{ModuleSink S} (R : S -> S -> Prop) `{!PreOrder R}.
Context (sink_ok : forall op s, match sink_op op s with (Ok _, s') => R s s' | (Err _, _) => True end).
#[local] Abbreviation op := (io (ModuleTable * S)).

Definition sink_keeps {A} (m : op A) : Prop := forall s, match m s with (Ok _, s') => R s.2 s'.2 | (Err _, _) => True end.

Lemma sink_keeps_ret {A} (a : A) : sink_keeps (mret a).
Proof. intros s. cbn. reflexivity. Qed.
Lemma sink_keeps_bind {A B} (m : op A) (f : A -> op B) : sink_keeps m -> (forall a, sink_keeps (f a)) -> sink_keeps (m ≫= f).
Proof.
  intros Hm Hf s. specialize (Hm s). unfold mbind, io_mbind. destruct (m s) as [[a|e] s1]; [|done].
  specialize (Hf a s1). destruct (f a s1) as [[b|e] s2]; [|done]. by etrans.
Qed.
Lemma sink_keeps_table : sink_keeps table.
Proof. intros s. cbn. reflexivity. Qed.
Lemma sink_keeps_update f : sink_keeps (update_table f).
Proof. intros s. cbn. reflexivity. Qed.
Lemma sink_keeps_lift {A} (r : result A) : sink_keeps (io_lift r).
Proof. intros s. destruct r; cbn; [reflexivity|done]. Qed.
Lemma sink_keeps_op w : sink_keeps (to_sink (sink_op w)).
Proof. intros [t s]. unfold to_sink, io_zoom. pose proof (sink_ok w s) as Hs. cbn [fst snd]. by destruct (sink_op w s) as [[[]|e] s']. Qed.

(** Steps through a definition until a call of its own is left. *)
Ltac sink_walk :=
  repeat lazymatch goal with
    | |- sink_keeps (_ ≫= _) => apply sink_keeps_bind; [|intros ?]
    | |- sink_keeps (mret _) => apply sink_keeps_ret
    | |- sink_keeps table => apply sink_keeps_table
    | |- sink_keeps (update_table _) => apply sink_keeps_update
    | |- sink_keeps (io_lift _) => apply sink_keeps_lift
    | |- sink_keeps (to_sink (sink_module ?m)) => apply (sink_keeps_op (WriteModule m))
    | |- sink_keeps (to_sink (sink_deactivate_one ?id)) => apply (sink_keeps_op (DeactivateModule id))
    | |- sink_keeps (to_sink (sink_deactivate_process ?pid)) => apply (sink_keeps_op (DeactivateProcess pid))
    end.

Lemma intern_keeps module : sink_keeps (intern_without_overlap module).
Proof. unfold intern_without_overlap. sink_walk. destruct (_ !! _); sink_walk. Qed.
Lemma retire_all_keeps ids : sink_keeps (retire_all ids).
Proof. induction ids as [|id ids IH]; cbn [retire_all]; sink_walk. destruct (_ !! _); sink_walk; exact IH. Qed.
Lemma intern_survivors_keeps survivors : sink_keeps (intern_survivors survivors).
Proof. induction survivors as [|[source_id survivor] survivors IH]; cbn [intern_survivors]; sink_walk; [apply intern_keeps|exact IH]. Qed.
Lemma apply_module_keeps module : sink_keeps (apply_module module).
Proof.
  unfold apply_module. destruct (_ <=? _); sink_walk. destruct (_ : option Z); sink_walk; [|apply intern_keeps].
  destruct (module_pid module); sink_walk. unfold replace_overlaps. sink_walk. destruct (_ : list Z); sink_walk; [apply retire_all_keeps|apply intern_survivors_keeps].
Qed.
Lemma deactivate_keeps pid : sink_keeps (deactivate_process_modules pid).
Proof.
  unfold deactivate_process_modules. sink_walk. destruct (_ !! _); sink_walk.
  generalize (snd <$> btree_iter g) as ids. induction ids as [|id ids IH]; cbn [forget_all]; sink_walk. destruct (_ !! _); [sink_walk; exact IH|by intros s].
Qed.
Lemma clone_keeps parent child : sink_keeps (clone_process_modules parent child).
Proof.
  unfold clone_process_modules. sink_walk. generalize update_default as combined. generalize (process_module_ids a0 parent) as ids.
  induction ids as [|id ids IH]; intros combined; cbn [clone_loop]; sink_walk; [|apply IH].
  destruct (bool_decide _); sink_walk; [apply apply_module_keeps|apply intern_keeps].
Qed.
End sink_keeps.

(** ** Sinks that remember marks *)

(** [marks s pid]: the last mark written for [pid] says that it runs Python. *)
Class PythonLog (S : Type) `{RecorderSink S} (marks : S -> Z -> bool) : Prop := {
  pl_python timestamp_ns pid flag s :
    match sink_python_runtime timestamp_ns pid flag s with
    | (Ok _, s') => forall p, marks s' p = if p =? pid then flag else marks s p
    | (Err _, _) => True
    end;
  pl_modules op s : match sink_op op s with (Ok _, s') => forall p, marks s' p = marks s p | (Err _, _) => True end;
}.

Section marks.
Context {K U E S : Type} `{Kernel K} `{ProcessUnwinders K U E} `{HashOrder K} `{RecorderSink S}.
Context (marks : S -> Z -> bool) `{!PythonLog S marks}.
#[local] Abbreviation ctx := (EventContext (K := K) (U := U) (E := E) (S := S)).
#[local] Abbreviation op := (io ctx).
Implicit Types (c : ctx) (p : ProcessTable U E).

(** What the state of a process says. *)
Definition marked p (pid : Z) : bool := match pt_states p !! pid with Some state => ps_python_runtime state | None => false end.
Definition consistent c : Prop := forall pid, marks (cx_modules c).2 pid = marked (cx_processes c) pid.

(** On success, [Q] holds after [m] when [P] holds before. *)
Definition hoare {A} (P : ctx -> Prop) (m : op A) (Q : A -> ctx -> Prop) : Prop :=
  forall c, P c -> match m c with (Ok a, c') => Q a c' | (Err _, _) => True end.
Lemma hoare_ret {A} (P : ctx -> Prop) (a : A) (Q : A -> ctx -> Prop) : (forall c, P c -> Q a c) -> hoare P (mret a) Q.
Proof. intros HQ c HP. by apply HQ. Qed.
Lemma hoare_bind {A B} P (m : op A) (f : A -> op B) Q R : hoare P m Q -> (forall a, hoare (Q a) (f a) R) -> hoare P (m ≫= f) R.
Proof. intros Hm Hf c HP. specialize (Hm c HP). unfold mbind, io_mbind. destruct (m c) as [[a|e] c1]; [by apply Hf|done]. Qed.
Lemma hoare_weaken {A} P P' (m : op A) (Q Q' : A -> ctx -> Prop) :
  hoare P m Q -> (forall c, P' c -> P c) -> (forall a c, Q a c -> Q' a c) -> hoare P' m Q'.
Proof. intros Hm HP HQ c Hc. specialize (Hm c (HP c Hc)). destruct (m c) as [[a|e] c1]; [by apply HQ|done]. Qed.

(** A call after which every process and every mark are as before, in any
    situation [P] that only speaks of them. *)
Definition view c : (Z -> bool) * (Z -> bool) := (marked (cx_processes c), marks (cx_modules c).2).
Definition same_view c c' : Prop := (forall pid, (view c').1 pid = (view c).1 pid) /\ (forall pid, (view c').2 pid = (view c).2 pid).
Definition stable {A} (m : op A) : Prop := forall c, match m c with (Ok _, c') => same_view c c' | (Err _, _) => True end.
Definition about_view (P : ctx -> Prop) : Prop := forall c c', same_view c c' -> P c -> P c'.

Lemma same_view_trans c1 c2 c3 : same_view c1 c2 -> same_view c2 c3 -> same_view c1 c3.
Proof. intros [Ha Hb] [Ha' Hb']. split; intros pid; [by rewrite Ha', Ha|by rewrite Hb', Hb]. Qed.
Lemma stable_hoare {A} P (m : op A) : about_view P -> stable m -> hoare P m (λ _, P).
Proof. intros HP Hm c Hc. specialize (Hm c). destruct (m c) as [[a|e] c1]; [by eapply HP|done]. Qed.
Lemma unmoved_ret {A} (a : A) : stable (mret a).
Proof. by intros c. Qed.
Lemma unmoved_fail {A} e : stable (A := A) (io_fail e).
Proof. by intros c. Qed.
Lemma unmoved_bind {A B} (m : op A) (f : A -> op B) : stable m -> (forall a, stable (f a)) -> stable (m ≫= f).
Proof.
  intros Hm Hf c. specialize (Hm c). unfold mbind, io_mbind. destruct (m c) as [[a|e] c1]; [|done].
  specialize (Hf a c1). destruct (f a c1) as [[b|e] c2]; [|done]. by eapply same_view_trans.
Qed.
Lemma consistent_view : about_view consistent.
Proof. intros c c' [Hm Hs] Hc pid. pose proof (Hs pid) as Hs'. pose proof (Hm pid) as Hm'. cbn in *. by rewrite Hs', Hm', Hc. Qed.
Lemma marked_view pid b : about_view (λ c, consistent c /\ marked (cx_processes c) pid = b).
Proof. intros c c' Hv [Hc Hb]. split; [by eapply consistent_view|]. destruct Hv as [Hm _]. pose proof (Hm pid) as Hm'. cbn in Hm'. by rewrite Hm'. Qed.

(** *** The module table *)

Lemma stable_modules {A} (m : io (ModuleTable * S) A) : sink_keeps (λ s s', forall pid, marks s' pid = marks s pid) m -> stable (on_modules m).
Proof.
  intros Hm c. specialize (Hm (cx_modules c)). unfold on_modules, io_zoom. destruct (m (cx_modules c)) as [[a|e] s']; [|done]. by split.
Qed.
#[local] Instance same_marks_preorder : PreOrder (λ s s' : S, forall pid, marks s' pid = marks s pid).
Proof. split; [by intros ? ?|]. intros s1 s2 s3 H12 H23 pid. by rewrite H23. Qed.

(** *** The processes *)

(** A change of the processes that keeps what [marked] says. *)
Definition table_stable {A} (m : io (ProcessTable U E * K) A) : Prop :=
  forall s, match m s with (Ok _, s') => forall pid, marked s'.1 pid = marked s.1 pid | (Err _, _) => True end.
Lemma stable_processes {A} (m : io (ProcessTable U E * K) A) : table_stable m -> stable (on_processes m).
Proof.
  intros Hm c. specialize (Hm (cx_processes c, cx_kernel c)). unfold on_processes, io_zoom.
  destruct (m (cx_processes c, cx_kernel c)) as [[a|e] [p' k']]; [|done]. by split.
Qed.
Lemma table_ret {A} (a : A) : table_stable (mret a).
Proof. by intros s. Qed.
Lemma table_bind {A B} (m : io (ProcessTable U E * K) A) (f : A -> io (ProcessTable U E * K) B) :
  table_stable m -> (forall a, table_stable (f a)) -> table_stable (m ≫= f).
Proof.
  intros Hm Hf s. specialize (Hm s). unfold mbind, io_mbind. destruct (m s) as [[a|e] s1]; [|done].
  specialize (Hf a s1). destruct (f a s1) as [[b|e] s2]; [|done]. intros pid. by rewrite Hf.
Qed.
Lemma table_processes : table_stable processes.
Proof. by intros s. Qed.

(** A setter of another field. *)
Definition keeps_flag (f : ProcessState U -> ProcessState U) : Prop := forall state, ps_python_runtime (f state) = ps_python_runtime state.
Lemma state_mut_marked pid f p q : keeps_flag f -> marked (state_mut pid f p) q = marked p q.
Proof.
  intros Hf. unfold marked, state_mut. cbn. destruct (decide (pid = q)) as [->|Hne]; [|by rewrite lookup_insert_ne].
  rewrite lookup_insert_eq, Hf. by destruct (pt_states p !! q).
Qed.
Lemma state_alter_marked pid f p q : keeps_flag f -> marked (state_alter pid f p) q = marked p q.
Proof.
  intros Hf. unfold marked, state_alter. cbn. destruct (decide (pid = q)) as [->|Hne]; [|by rewrite lookup_alter_ne].
  rewrite lookup_alter_eq. destruct (pt_states p !! q); cbn; [apply Hf|done].
Qed.
Lemma table_state_mut pid f : keeps_flag f -> table_stable (on_table (state_mut pid f)).
Proof. intros Hf s q. by apply state_mut_marked. Qed.
Lemma table_state_alter pid f : keeps_flag f -> table_stable (on_table (state_alter pid f)).
Proof. intros Hf s q. by apply state_alter_marked. Qed.
Lemma stable_state_mut pid f : keeps_flag f -> stable (update_processes (state_mut pid f)).
Proof. intros Hf. by apply stable_processes, table_state_mut. Qed.
Lemma stable_state_alter pid f : keeps_flag f -> stable (update_processes (state_alter pid f)).
Proof. intros Hf. by apply stable_processes, table_state_alter. Qed.
Lemma stable_get_processes : stable get_processes.
Proof. apply stable_processes, table_processes. Qed.
Lemma stable_state_of pid : stable (state_of pid).
Proof. apply unmoved_bind; [apply stable_get_processes|]. intros p. apply unmoved_ret. Qed.

Lemma table_process_call {A} pid (call : sys (ProcessHandle * K) A) h : table_stable (process_call pid call h).
Proof. intros [p k]. unfold process_call. destruct (call (h, k)) as [r [h' k']]. intros q. by apply state_alter_marked. Qed.
Lemma table_read_tracked {A} pid (read : Z -> sys K A) : table_stable (read_tracked pid read).
Proof. apply table_bind; [apply table_processes|]. intros p. destruct (process_of pid p); [apply table_process_call|apply table_ret]. Qed.
Lemma table_read_process {A} pid (read : Z -> sys K A) : table_stable (read_process pid read).
Proof.
  apply table_bind; [apply table_processes|]. intros p. destruct (process_of pid p); [apply table_process_call|].
  intros [p' k']. by destruct (read _ k').
Qed.
Lemma table_with_unwinder pid call : table_stable (with_unwinder pid call).
Proof.
  intros [p k]. unfold with_unwinder. destruct (call _) as [[[]|e] [[u el] k']]; [|done]. intros q.
  change (marked (state_mut pid (set_unwinder (Some u)) p) q = marked p q). by apply state_mut_marked.
Qed.
Lemma table_open_handle pid : table_stable (open_handle pid).
Proof. intros [p k]. unfold open_handle. by destruct (handle_open pid k). Qed.
Lemma table_ensure_tracked pid : table_stable (ensure_tracked pid).
Proof.
  apply table_bind; [by apply table_state_mut|]. intros _. apply table_bind; [apply table_processes|]. intros p.
  destruct (process_of pid p); [apply table_ret|]. destruct (Pid_new pid); [|apply table_ret].
  apply table_bind; [apply table_open_handle|]. intros h. by apply table_state_alter.
Qed.
Lemma table_track process : table_stable (track process).
Proof.
  apply table_bind; [by apply table_state_mut|]. intros _. apply table_bind; [apply table_read_tracked|].
  intros [image|e]; [by apply table_state_mut|apply table_ret].
Qed.
Lemma table_is_stale pid : table_stable (tracked_process_is_stale pid).
Proof.
  apply table_bind; [apply table_processes|]. intros p. destruct (pt_states p !! pid); [|apply table_ret]. case_bool_decide; [apply table_ret|].
  destruct (ps_process _); [|apply table_ret]. apply table_bind; [apply table_process_call|]. intros [exited|e]; [apply table_ret|by intros s].
Qed.

(** ** The lifecycle *)

Lemma stable_push action : stable (push_action action).
Proof. by intros c. Qed.
Lemma stable_apply_module module : stable (on_modules (apply_module module)).
Proof. apply stable_modules, apply_module_keeps; [apply _|apply pl_modules]. Qed.
Lemma stable_record_module module : stable (record_module module).
Proof.
  unfold record_module. case_bool_decide; [apply unmoved_ret|]. apply unmoved_bind; [apply stable_apply_module|]. intros update.
  destruct (omap _ _); [apply unmoved_ret|]. apply stable_processes, table_with_unwinder.
Qed.
Lemma stable_register_modules snapshot : forall saw, stable (register_existing_modules snapshot saw).
Proof.
  induction snapshot as [|module snapshot IH]; intros saw; cbn [register_existing_modules]; [apply unmoved_ret|].
  apply unmoved_bind; [apply stable_record_module|]. intros _. apply IH.
Qed.
Lemma stable_perf_support pid : stable (process_has_python_perf_support pid).
Proof.
  unfold process_has_python_perf_support. destruct (i32_try_from pid); [|apply unmoved_ret]. apply unmoved_bind; [apply stable_state_of|].
  intros state. destruct (state ≫= _); [apply unmoved_ret|]. apply unmoved_bind; [apply stable_processes, table_read_process|].
  intros r. apply unmoved_bind; [by apply stable_state_mut|]. intros _. apply unmoved_ret.
Qed.
Lemma stable_cleanup_modules pid : stable (cleanup_process_modules pid).
Proof.
  apply unmoved_bind; [apply stable_modules, deactivate_keeps; [apply _|apply pl_modules]|]. intros ids.
  apply unmoved_bind; [by intros c|]. intros _. by apply stable_state_alter.
Qed.

(** The mark of one process in the table. *)
Lemma marked_set pid flag p q :
  marked (state_mut pid (set_python_runtime flag) p) q = if q =? pid then flag else marked p q.
Proof.
  unfold marked, state_mut. cbn. destruct (Z.eqb_spec q pid) as [->|Hne]; [by rewrite lookup_insert_eq|by rewrite lookup_insert_ne].
Qed.

Lemma mark_hoare timestamp_ns pid :
  hoare consistent (mark_python_runtime_process timestamp_ns pid) (λ _ c, consistent c /\ marked (cx_processes c) pid = true).
Proof.
  intros [p k [t s] summary actions] Hc. unfold mark_python_runtime_process, state_of, get_processes, update_processes, on_processes, on_writer, on_modules, to_sink, io_zoom.
  unfold mbind, io_mbind, mret, io_mret, processes, on_table, io_gets, io_modify. cbn [cx_processes cx_kernel cx_modules cx_summary cx_actions fst snd].
  assert (ps_python_runtime (default state_default (pt_states p !! pid)) = marked p pid) as -> by (unfold marked; by destruct (pt_states p !! pid)).
  unfold consistent in *. cbn [cx_processes cx_modules fst snd] in *.
  destruct (marked p pid) eqn:Hm.
  - split; [|cbn; rewrite marked_set; by rewrite Z.eqb_refl]. intros q. cbn. rewrite marked_set, Hc. by destruct (Z.eqb_spec q pid) as [->|].
  - pose proof (pl_python timestamp_ns pid true s) as Hp. cbn [cx_processes cx_kernel cx_modules cx_summary cx_actions fst snd]. destruct (sink_python_runtime timestamp_ns pid true s) as [[[]|e] s']; [|done]. cbn.
    split; [|rewrite marked_set; by rewrite Z.eqb_refl]. intros q. rewrite marked_set, Hp, Hc. done.
Qed.

Lemma end_hoare timestamp_ns pid :
  hoare consistent (end_python_runtime_process timestamp_ns pid) (λ _ c, consistent c /\ marked (cx_processes c) pid = false).
Proof.
  intros [p k [t s] summary actions] Hc. unfold end_python_runtime_process, state_of, get_processes, update_processes, on_processes, on_writer, on_modules, to_sink, io_zoom.
  unfold mbind, io_mbind, mret, io_mret, processes, on_table, io_gets, io_modify. cbn [cx_processes cx_kernel cx_modules cx_summary cx_actions fst snd].
  unfold consistent in *. cbn [cx_processes cx_modules fst snd] in *. destruct (pt_states p !! pid) as [state|] eqn:Hs.
  2: { split; [done|]. unfold marked. cbn. by rewrite Hs. }
  destruct (ps_python_runtime state) eqn:Hr; cbn [fst snd].
  2: { split; [done|]. unfold marked. cbn. by rewrite Hs. }
  pose proof (pl_python timestamp_ns pid false s) as Hp. cbn [cx_processes cx_kernel cx_modules cx_summary cx_actions fst snd]. destruct (sink_python_runtime timestamp_ns pid false s) as [[[]|e] s']; [|done]. cbn.
  assert (forall q, marked (state_alter pid (set_python_runtime false) p) q = if q =? pid then false else marked p q) as Hm.
  { intros q. unfold marked, state_alter. cbn. destruct (Z.eqb_spec q pid) as [->|Hne]; [by rewrite lookup_alter_eq, Hs|by rewrite lookup_alter_ne]. }
  split; [|rewrite Hm; by rewrite Z.eqb_refl]. intros q. by rewrite Hm, Hp, Hc.
Qed.

(** Ending the mark first makes it safe to forget the process. *)
Lemma cleanup_hoare pid : hoare (λ c, consistent c /\ marked (cx_processes c) pid = false) (cleanup_process pid) (λ _, consistent).
Proof.
  intros c Hc. unfold cleanup_process. pose proof (stable_hoare _ _ (marked_view pid false) (stable_cleanup_modules pid) c Hc) as Hs.
  destruct (cleanup_process_modules pid c) as [[[]|e] [p k [t s] summary actions]]; [|by cbn]. cbn. destruct Hs as [Hs Hm]. intros q. specialize (Hs q). cbn in *. rewrite Hs.
  unfold marked in *. cbn. destruct (decide (pid = q)) as [->|Hne]; [by rewrite lookup_delete_eq|by rewrite lookup_delete_ne].
Qed.
Lemma retire_hoare timestamp_ns pid : hoare consistent (end_python_runtime_process timestamp_ns pid;; cleanup_process pid) (λ _, consistent).
Proof. eapply hoare_bind; [apply end_hoare|]. intros []. apply cleanup_hoare. Qed.

(** *** Every call *)

Lemma keep {A B} (m : op A) (f : A -> op B) Q : stable m -> (forall a, hoare consistent (f a) Q) -> hoare consistent (m ≫= f) Q.
Proof. intros Hm Hf. eapply hoare_bind; [by apply stable_hoare; [apply consistent_view|]|]. done. Qed.
Lemma keep_last {A} (m : op A) : stable m -> hoare consistent m (λ _, consistent).
Proof. intros Hm. by apply stable_hoare; [apply consistent_view|]. Qed.
Lemma mark_keeps timestamp_ns pid : hoare consistent (mark_python_runtime_process timestamp_ns pid) (λ _, consistent).
Proof. eapply hoare_weaken; [apply mark_hoare|done|]. by intros ? c [? _]. Qed.
Lemma mark_if_keeps condition timestamp_ns pid : hoare consistent (mark_if condition timestamp_ns pid) (λ _, consistent).
Proof. destruct condition; [apply mark_keeps|apply keep_last, unmoved_ret]. Qed.
Lemma end_keeps timestamp_ns pid : hoare consistent (end_python_runtime_process timestamp_ns pid) (λ _, consistent).
Proof. eapply hoare_weaken; [apply end_hoare|done|]. by intros ? c [? _]. Qed.

(** A child takes over the parent's mark only after it was written for it. *)
Lemma fork_keeps inherit_child_processes timestamp_ns task parent_task :
  hoare consistent (handle_fork inherit_child_processes timestamp_ns task parent_task) (λ _, consistent).
Proof.
  unfold handle_fork. destruct (negb _); [apply keep_last, unmoved_ret|].
  destruct (i32_try_from (ta_pid task)) as [pid|]; [|apply keep_last, unmoved_ret].
  destruct (i32_try_from (ta_pid parent_task)) as [ppid|]; [|apply keep_last, unmoved_ret].
  apply keep; [apply stable_get_processes|]. intros p. apply keep; [apply stable_processes, table_is_stale|]. intros stale.
  eapply (hoare_bind _ _ _ (λ _, consistent)).
  { destruct (default false stale); [|apply keep_last, unmoved_ret]. eapply hoare_bind; [apply end_hoare|]. intros []. cbn beta.
    eapply hoare_bind; [apply cleanup_hoare|]. intros []. apply keep_last, stable_push. }
  intros []. apply keep; [apply stable_processes, table_ensure_tracked|]. intros []. set (inheritance := snapshot_for_fork ppid p).
  set (ready := λ c, consistent c /\ (fi_python_runtime inheritance = true -> marked (cx_processes c) pid = true)).
  assert (about_view ready) as Hready.
  { intros c c' Hv [Hc Hm]. split; [by eapply consistent_view|]. intros Hi. destruct Hv as [Hv _]. pose proof (Hv pid) as Hv'. cbn in Hv'. rewrite Hv'. by apply Hm. }
  eapply (hoare_bind _ _ _ (λ _, ready)).
  { unfold ready. destruct (fi_python_runtime inheritance); [|intros c Hc; by split].
    eapply hoare_weaken; [apply mark_hoare|done|]. by intros ? c [? ?]. }
  intros []. eapply (hoare_bind _ _ _ (λ _, ready)).
  { apply stable_hoare; [done|]. apply stable_modules, clone_keeps; [apply _|apply pl_modules]. }
  intros cloned. eapply (hoare_bind _ _ _ (λ _, consistent)).
  { intros [p' k [t s] summary actions] [Hc Hm]. cbn. intros q. specialize (Hc q). cbn in Hc, Hm |- *. rewrite Hc. unfold marked at 2, install_fork_inheritance, state_mut. cbn.
    destruct (decide (pid = q)) as [->|Hne]; [|by rewrite lookup_insert_ne]. rewrite lookup_insert_eq. cbn.
    assert (forall state : ProcessState U, ps_python_runtime (match fi_python_perf_support inheritance with Some supported => set_perf_support (Some supported)
      (match fi_image inheritance with Some image => set_image (Some image) state | None => state end) | None =>
      match fi_image inheritance with Some image => set_image (Some image) state | None => state end end) = ps_python_runtime state) as Hflag
      by (intros state; by destruct (fi_python_perf_support inheritance), (fi_image inheritance)).
    rewrite Hflag. assert (ps_python_runtime (default state_default (pt_states p' !! q)) = marked p' q) as -> by (unfold marked; by destruct (pt_states p' !! q)).
    destruct (fi_python_runtime inheritance); [by rewrite Hm|by rewrite orb_false_r]. }
  intros []. apply keep; [|intros []; apply keep_last, stable_push].
  apply stable_processes. unfold apply_fork_module_update. destruct (c_inherited_unwinder_layout cloned); apply table_with_unwinder.
Qed.

Lemma comm_keeps timestamp_ns task by_execve comm : hoare consistent (handle_comm timestamp_ns task by_execve comm) (λ _, consistent).
Proof.
  unfold handle_comm. destruct (i32_try_from (ta_pid task)) as [pid|]; [|apply keep_last, unmoved_ret].
  apply keep; [apply stable_processes, table_read_tracked|]. intros r. apply keep; [apply stable_state_of|]. intros state.
  apply keep.
  { destruct (match r with SOk _ => _ | SErr _ => _ end); [|apply unmoved_ret]. destruct (state ≫= ps_image); [|apply unmoved_ret].
    case_bool_decide; [|apply unmoved_ret]. apply unmoved_bind; [apply stable_processes, table_read_tracked|]. intros ?. apply unmoved_ret. }
  intros changed. destruct (_ && _); [apply keep_last, unmoved_ret|]. apply keep; [apply stable_cleanup_modules|]. intros [].
  apply keep; [by apply stable_state_alter|]. intros []. eapply hoare_bind; [apply end_keeps|]. intros []. apply keep_last. by apply stable_state_mut.
Qed.

Lemma record_keeps inherit_child_processes timestamp_ns privilege record :
  hoare consistent (handle_non_sample_record inherit_child_processes timestamp_ns privilege record) (λ _, consistent).
Proof.
  destruct record as [mmap|task parent_task|task by_execve comm|task| |lost_samples| ]; cbn [handle_non_sample_record].
  - apply keep; [unfold record_mmap; destruct (mmap_module mmap privilege); [apply stable_record_module|apply unmoved_ret]|]. intros [].
    unfold record_python_runtime_mmap. destruct (_ || _); [apply keep_last, unmoved_ret|]. destruct (i32_try_from _); [|apply keep_last, unmoved_ret].
    destruct (is_python_runtime_module_path _); [|apply keep_last, unmoved_ret]. apply keep; [apply stable_perf_support|].
    intros [|]; [apply mark_keeps|apply keep_last, unmoved_ret].
  - case_bool_decide; [apply fork_keeps|]. case_bool_decide; apply keep_last; [apply stable_push|apply unmoved_ret].
  - case_bool_decide; [apply comm_keeps|apply keep_last, unmoved_ret].
  - apply keep_last, stable_push.
  - apply keep_last, unmoved_ret.
  - apply keep_last. apply unmoved_bind; [by intros c|]. intros summary. apply unmoved_bind; [intros c; by destruct (checked_loss_sum _ _)|]. intros lost. by intros c.
  - apply keep_last, unmoved_ret.
Qed.

Lemma reconcile_with_keeps pid timestamp_ns current_identity r :
  hoare consistent (reconcile_with pid timestamp_ns current_identity r) (λ _, consistent).
Proof.
  unfold reconcile_with. destruct r as [maps|e].
  2: { destruct (is_target_gone_io e); [|destruct (is_access_denied_io e)]; apply keep_last.
       - apply unmoved_bind; [by apply stable_state_alter|]. intros []. apply unmoved_ret.
       - apply unmoved_bind; [by apply stable_state_mut|]. intros []. apply unmoved_ret.
       - apply unmoved_fail. }
  assert (forall current : option ProcessImageIdentity, stable (match current with
    | Some identity => update_processes (state_mut pid (set_image (Some identity))) | None => mret tt end)) as Hkeep
    by (intros [identity|]; [by apply stable_state_mut|apply unmoved_ret]).
  case_bool_decide; [apply keep_last, unmoved_ret|]. apply keep; [apply stable_state_of|]. intros state. apply keep; [by intros c|]. intros t.
  apply keep; [destruct (match current_identity with None => true | Some _ => _ end); [intros c; by destruct (process_modules_match _ _ _)|apply unmoved_ret]|].
  intros [|]; [apply keep_last, unmoved_bind; [apply Hkeep|]; intros []; apply unmoved_ret|].
  apply keep; [apply stable_cleanup_modules|]. intros []. apply keep; [by apply stable_state_alter|]. intros [].
  eapply hoare_bind; [apply end_keeps|]. intros []. apply keep; [apply stable_register_modules|]. intros saw.
  apply keep; [destruct saw; [apply stable_perf_support|apply unmoved_ret]|]. intros mark. apply keep; [by apply stable_state_mut|]. intros [].
  apply keep; [apply Hkeep|]. intros []. eapply hoare_bind; [apply mark_if_keeps|]. intros []. apply keep_last, unmoved_ret.
Qed.
Lemma reconcile_keeps pid timestamp_ns : hoare consistent (reconcile_process_image pid timestamp_ns) (λ _, consistent).
Proof.
  unfold reconcile_process_image. destruct (i32_try_from pid); [|apply keep_last, unmoved_ret].
  apply keep; [apply stable_processes, table_read_tracked|]. intros r. apply keep; [apply stable_processes, table_read_tracked|]. intros maps. apply reconcile_with_keeps.
Qed.

Lemma descendant_keeps child parent timestamp_ns : hoare consistent (register_recovered_descendant child parent timestamp_ns) (λ _, consistent).
Proof.
  unfold register_recovered_descendant. destruct (Pid_new child) as [child_pid|]; [|apply keep_last, unmoved_ret].
  apply keep; [apply stable_processes, table_open_handle|]. intros process.
  apply keep; [apply stable_processes; intros [p k]; by destruct (read_checked _ _) as [r [h k']]|]. intros [maps process'].
  destruct maps as [maps|e].
  - apply keep; [apply stable_processes, table_track|]. intros []. apply keep; [apply stable_perf_support|]. intros support.
    apply keep; [apply stable_register_modules|]. intros saw. eapply hoare_bind; [apply mark_if_keeps|]. intros []. apply keep_last, unmoved_ret.
  - apply keep_last. destruct (is_target_gone_io e); [apply unmoved_ret|]. destruct (is_access_denied_io e); [|apply unmoved_fail].
    apply unmoved_bind; [apply stable_get_processes|]. intros p. apply unmoved_bind.
    { destruct (_ !! _); [|apply unmoved_ret]. apply stable_processes. intros [p' k']. by destruct (has_exited _) as [[?|?] [? ?]]. }
    intros warned. apply unmoved_bind; [destruct warned; [apply unmoved_ret|by intros c]|]. intros []. apply unmoved_ret.
Qed.

Lemma refresh_keeps pid timestamp_ns pc : hoare consistent (refresh_maps_for_uncovered_user_pc pid timestamp_ns pc) (λ _, consistent).
Proof.
  unfold refresh_maps_for_uncovered_user_pc. destruct (if 0 <=? pid then pc else None) as [pc'|]; [|apply keep_last, unmoved_ret].
  apply keep.
  { apply stable_modules. intros s. unfold table_covers_user_pc, mbind, io_mbind, table, io_gets, io_lift. by destruct (covers_user_pc _ _ _) as [[covered t]|]. }
  intros [|]; [apply keep_last, unmoved_ret|]. apply keep; [apply stable_get_processes|]. intros p.
  destruct (pu_should_refresh_for_uncovered_pc _ _) as [refresh u]. apply keep; [by apply stable_state_mut|]. intros [].
  destruct refresh; [|apply keep_last, unmoved_ret]. cbn [negb]. apply keep; [apply stable_processes, table_read_process|]. intros [maps|e].
  - apply keep; [apply stable_register_modules|]. intros [|]; [|apply keep_last, unmoved_ret].
    apply keep; [apply stable_perf_support|]. intros support. apply mark_if_keeps.
  - apply keep_last. destruct (is_target_gone_io e); [apply unmoved_ret|]. destruct (is_access_denied_io e); [by apply stable_state_mut|apply unmoved_fail].
Qed.
End marks.

(** ** Marks of Python processes through drains

    Every drain of a running recording keeps the marks in the spool and the
    states of the processes together. *)

Section drains.
Context {K U E S P T : Type} `{Kernel K} `{ProcessUnwinders K U E} `{HashOrder K} `{RecorderSink S} `{PerfCalls K P T} `{DescendantScan K}.
Context (marks : S -> Z -> bool) `{!PythonLog S marks}.
#[local] Abbreviation ctx := (EventContext (K := K) (U := U) (E := E) (S := S)).
#[local] Abbreviation recorder := (Recorder (K := K) (U := U) (E := E) (S := S) (P := P)).
#[local] Abbreviation op := (io recorder).
#[local] Abbreviation consistent := (consistent (K := K) (U := U) (E := E) marks).

Definition in_order (r : recorder) : Prop := consistent (rc_context r).
(** On success, the marks are still those of the processes. *)
Definition in_step {A} (m : op A) : Prop := forall r, in_order r -> match m r with (Ok _, r') => in_order r' | (Err _, _) => True end.

Lemma step_ret {A} (a : A) : in_step (mret a).
Proof. by intros r. Qed.
Lemma step_fail {A} e : in_step (A := A) (io_fail e).
Proof. by intros r. Qed.
Lemma step_lift {A} (a : result A) : in_step (io_lift a).
Proof. intros r. by destruct a. Qed.
Lemma step_bind {A B} (m : op A) (f : A -> op B) : in_step m -> (forall a, in_step (f a)) -> in_step (m ≫= f).
Proof. intros Hm Hf r Hr. specialize (Hm r Hr). unfold mbind, io_mbind. destruct (m r) as [[a|e] r1]; [by apply Hf|done]. Qed.
Lemma step_context {A} (m : io ctx A) : hoare consistent m (λ _, consistent) -> in_step (on_context m).
Proof. intros Hm r Hr. specialize (Hm (rc_context r) Hr). unfold on_context, io_zoom. by destruct (m (rc_context r)) as [[a|e] c]. Qed.
Lemma step_perf {A} (m : io (P * K) A) : in_step (on_perf m).
Proof. intros r Hr. unfold on_perf, io_zoom. by destruct (m _) as [[a|e] [p k]]. Qed.
Lemma step_pacing {A} (f : CapturePacing -> A * CapturePacing) : in_step (on_pacing f).
Proof. intros r Hr. unfold on_pacing. by destruct (f (rc_pacing r)). Qed.
Lemma step_clock : in_step clock_now.
Proof. apply step_perf. Qed.
Lemma step_perf_process {A} pid (call : sys (ProcessHandle * (P * K)) A) h : in_step (perf_with_process pid call h).
Proof.
  intros r Hr. unfold perf_with_process. destruct (call _) as [a [h' [p k]]]. intros q. specialize (Hr q). cbn in *.
  by rewrite state_alter_marked.
Qed.
Lemma step_stable {A} (m : io ctx A) : stable marks m -> in_step (on_context m).
Proof. intros Hm. apply step_context. by apply keep_last. Qed.
Lemma step_processes : in_step (on_context get_processes).
Proof. apply step_stable, stable_get_processes. Qed.
Lemma step_table {A} (m : io (ProcessTable U E * K) A) : table_stable m -> in_step (on_context (on_processes m)).
Proof. intros Hm. by apply step_stable, stable_processes. Qed.

(** ** Events *)

Lemma finish_event_keeps inherit_child_processes event : hoare consistent (finish_prepared_event inherit_child_processes event) (λ _, consistent).
Proof.
  destruct event as [ts privilege record|ts pid privilege pc]; cbn [finish_prepared_event]; [apply record_keeps; apply _|].
  apply keep; [by intros c|]. intros summary. destruct (_ && _); [apply keep_last, unmoved_ret|].
  eapply hoare_bind; [apply refresh_keeps; apply _|]. intros []. apply keep_last. by apply stable_state_mut.
Qed.
Lemma finish_events_keeps inherit_child_processes events : forall latest,
  hoare consistent (finish_events inherit_child_processes events latest) (λ r c, r.1 = Ok tt -> consistent c).
Proof.
  induction events as [|event events IH]; intros latest; cbn [finish_events]; [intros c Hc; cbn; by intros _|].
  intros c Hc. pose proof (finish_event_keeps inherit_child_processes event c Hc) as He. destruct (finish_prepared_event _ event c) as [[[]|e] c1]; [|done].
  by apply IH.
Qed.

(** ** Retirement and recovery *)

Lemma step_open_forked pid parent_tid : in_step (open_forked_process pid parent_tid).
Proof.
  apply step_bind; [apply step_processes|]. intros p. destruct (i32_try_from pid ≫= _) as [[pid' h]|]; [|apply step_ret].
  apply step_bind; [apply step_perf_process|]. intros [r|e]; [apply step_lift|apply step_fail].
Qed.
Lemma step_batch batch : in_step (open_batch batch).
Proof. unfold open_batch. case_bool_decide; [apply step_ret|apply step_perf]. Qed.
Lemma step_replay flag actions : forall batch, in_step (replay_actions flag batch actions).
Proof.
  induction actions as [|action actions IH]; intros batch; cbn [replay_actions]; [apply step_batch|].
  destruct action; try (apply step_bind; [apply step_batch|]; intros []; apply step_bind; [|intros []; apply IH]).
  - apply step_perf.
  - destruct flag; [apply step_open_forked|apply step_ret].
  - destruct flag; apply IH.
  - apply step_perf.
Qed.

Lemma table_error {A} e : table_stable (K := K) (U := U) (E := E) (sys_error (A := A) e).
Proof. by intros s. Qed.
Lemma table_walk : table_stable (K := K) (U := U) (E := E) walk_states.
Proof. apply table_bind; [apply table_processes|]. intros p [p' k]. unfold in_hash_order. by destruct (hash_order _ k). Qed.
Lemma table_tracked_pids : table_stable (K := K) (U := U) (E := E) tracked_pids.
Proof. apply table_bind; [apply table_walk|]. intros pids. apply table_bind; [apply table_processes|]. intros p. apply table_ret. Qed.
Lemma table_collect_dead pids : forall dead pidfds, table_stable (K := K) (U := U) (E := E) (collect_dead pids dead pidfds).
Proof.
  induction pids as [|pid pids IH]; intros dead pidfds; cbn [collect_dead]; [apply table_ret|]. apply table_bind; [apply table_processes|].
  intros p. destruct (pt_states p !! pid) as [state|]; [|apply IH]. case_bool_decide; [apply IH|]. destruct (ps_process state) as [h|]; [|apply IH].
  assert (table_stable (K := K) (U := U) (E := E) (exited ← process_call pid has_exited h;
    match exited with SOk true => collect_dead pids (dead ++ [pid]) pidfds | SOk false => collect_dead pids dead pidfds | SErr e => sys_error e end)) as Hcall.
  { apply table_bind; [apply table_process_call|]. intros [[|]|e]; [apply IH|apply IH|apply table_error]. }
  destruct (ph_watcher h) as [[pidfd [|]]|]; [apply Hcall|apply IH|apply Hcall].
Qed.
Lemma table_observe_all polled : forall dead, table_stable (K := K) (U := U) (E := E) (observe_all polled dead).
Proof.
  induction polled as [|[pid revents] polled IH]; intros dead; cbn [observe_all]; [apply table_ret|]. apply table_bind; [apply table_processes|].
  intros p. destruct (process_of pid p); [|apply IH]. apply table_bind; [apply table_process_call|]. intros [exited|e]; [apply IH|apply table_error].
Qed.
Lemma table_dead_pids : table_stable (K := K) (U := U) (E := E) dead_or_reused_pids.
Proof.
  apply table_bind; [apply table_walk|]. intros pids. apply table_bind; [apply table_collect_dead|]. intros [dead pidfds].
  case_bool_decide; [apply table_ret|]. apply table_bind; [intros [p k]; by destruct (k_poll_many _ k)|].
  intros [revents|e]; [apply table_observe_all|apply table_error].
Qed.
Lemma table_defer pid timestamp_ns : table_stable (K := K) (U := U) (E := E) (defer_retirement pid timestamp_ns).
Proof.
  apply table_bind; [apply table_processes|]. intros p. destruct (pt_states p !! pid); [|apply table_ret]. case_bool_decide; [apply table_ret|].
  apply table_bind; [by apply table_state_alter|]. intros []. apply table_ret.
Qed.

Lemma step_retain exits dead : in_step (retain_undeferred exits dead).
Proof.
  induction dead as [|pid dead IH]; cbn [retain_undeferred]; [apply step_ret|]. apply step_bind; [apply step_table, table_defer|].
  intros deferred. apply step_bind; [exact IH|]. intros rest. apply step_ret.
Qed.
Lemma step_retire_process exits recovery_timestamp_ns pid : in_step (retire_process exits recovery_timestamp_ns pid).
Proof.
  apply step_bind; [destruct (0 <=? pid); [apply step_perf|apply step_ret]|]. intros []. apply step_bind; [apply step_processes|]. intros p. cbn zeta.
  set (ts := match exits !! pid with Some _ => _ | None => _ end). intros r Hr.
  pose proof (retire_hoare marks ts pid (rc_context r) Hr) as Hret. revert Hret. unfold mbind, io_mbind, on_context, io_zoom.
  destruct (end_python_runtime_process ts pid (rc_context r)) as [[[]|e] c1]; [|done]. cbn [rc_context]. by destruct (cleanup_process pid c1) as [[[]|e] c2].
Qed.
Lemma step_retire_all exits recovery_timestamp_ns dead : in_step (retire_processes exits recovery_timestamp_ns dead).
Proof.
  induction dead as [|pid dead IH]; cbn [retire_processes]; [apply step_ret|]. apply step_bind; [apply step_retire_process|]. intros []. exact IH.
Qed.
Lemma step_settle mode actions recovery_timestamp_ns : in_step (settle_dead mode actions recovery_timestamp_ns).
Proof.
  apply step_bind; [apply step_table, table_dead_pids|]. intros dead. cbn zeta.
  apply step_bind; [destruct (defers_retirement mode); [apply step_retain|apply step_ret]|]. intros dead'. apply step_retire_all.
Qed.

Lemma step_reconcile_all mode recovery_timestamp_ns pids : defers_retirement mode = true -> in_step (reconcile_all mode recovery_timestamp_ns pids).
Proof.
  intros Hmode. induction pids as [|pid pids IH]; cbn [reconcile_all]; [apply step_ret|]. apply step_bind; [|intros []; exact IH].
  destruct (0 <=? pid); [|apply step_ret]. apply step_bind; [apply step_context, reconcile_keeps; apply _|]. intros [|]; [apply step_ret|].
  rewrite Hmode. apply step_bind; [apply step_table, table_defer|]. intros ?. apply step_ret.
Qed.
Lemma step_descendants recovery_timestamp_ns edges : in_step (register_descendants recovery_timestamp_ns edges).
Proof.
  induction edges as [|[child parent] edges IH]; cbn [register_descendants]; [apply step_ret|]. apply step_bind; [apply step_processes|]. intros p.
  apply step_bind; [destruct (is_tracked child p); [apply step_ret|apply step_context, descendant_keeps; apply _]|]. intros fork.
  apply step_bind; [exact IH|]. intros rest. apply step_ret.
Qed.
Lemma step_open_recovered forks : in_step (open_recovered forks).
Proof.
  induction forks as [|[pid parent] forks IH]; cbn [open_recovered]; [apply step_ret|]. apply step_bind; [apply step_open_forked|]. intros []. exact IH.
Qed.
Lemma step_refresh_threads pids : in_step (refresh_all_threads pids).
Proof.
  induction pids as [|pid pids IH]; cbn [refresh_all_threads]; [apply step_ret|]. apply step_bind; [apply step_processes|]. intros p.
  apply step_bind; [|intros []; exact IH]. destruct (process_of pid p); [|apply step_ret].
  apply step_bind; [apply step_perf_process|]. intros [[]|e]; [apply step_ret|]. destruct (is_target_gone_io e); [apply step_ret|apply step_fail].
Qed.
Lemma step_take_lost : in_step take_lost.
Proof.
  apply step_bind; [apply step_perf|]. intros lost r Hr. unfold observe_lost. by destruct (record_observed_lost_events _ _ _) as [[summary pacing]|e].
Qed.

(** Events that are finished without an error. *)
Lemma step_finish {B} inherit_child_processes events latest (f : result unit * Z -> op B) :
  (forall latest, in_step (f (Ok tt, latest))) -> (forall e latest r, exists e' r', f (Err e, latest) r = (Err e', r')) ->
  in_step (on_context (finish_events inherit_child_processes events latest) ≫= f).
Proof.
  intros Hok Herr r Hr. pose proof (finish_events_keeps inherit_child_processes events latest (rc_context r) Hr) as Hf.
  unfold mbind, io_mbind, on_context, io_zoom. destruct (finish_events _ events latest (rc_context r)) as [[[res latest']|e] c1]; [|done].
  destruct res as [[]|e]; [by apply Hok, Hf|]. destruct (Herr e latest' (mkRec c1 (rc_perf r) (rc_pacing r))) as (e' & r' & ->). done.
Qed.

Lemma step_rings mode inherit_child_processes collected : in_step (drain_rings mode inherit_child_processes collected).
Proof.
  apply step_finish.
  2: { intros e latest r. unfold mbind, io_mbind. destruct (co_saw_record collected); cbn; destruct (co_result collected); cbn; by eexists _, _. }
  intros latest. apply step_bind; [destruct (co_saw_record collected); [apply step_pacing|apply step_ret]|]. intros [].
  apply step_bind; [apply step_lift|]. intros []. apply step_bind.
  { destruct (forces_bookkeeping mode); [apply step_ret|]. apply step_bind; [apply step_clock|]. intros now.
    apply step_bind; [apply step_pacing|]. intros [|]; [apply step_take_lost|apply step_ret]. }
  intros []. apply step_bind; [apply step_clock|]. intros now. apply step_bind; [apply step_pacing|]. intros [|]; [|apply step_ret].
  apply step_finish; [|intros e latest' r; by eexists _, _]. intros latest'. apply step_bind; [apply step_lift|]. intros []. apply step_ret.
Qed.

Lemma step_drain mode collected : defers_retirement mode = true -> in_step (drain_events_inner mode collected).
Proof.
  intros Hmode. apply step_bind; [by intros r Hr|]. intros r0. cbn zeta. apply step_bind; [apply step_stable; by intros c|]. intros [].
  apply step_bind; [apply step_rings|]. intros [recovery_timestamp_ns recovered]. apply step_bind; [apply step_stable; by intros c|]. intros actions.
  apply step_bind; [apply step_replay|]. intros []. apply step_bind; [apply step_settle|]. intros []. apply step_bind.
  { destruct (forces_bookkeeping mode); [|apply step_ret]. apply step_bind; [apply step_take_lost|]. intros [].
    apply step_bind; [apply step_clock|]. intros now. apply step_bind; [apply step_pacing|]. intros sweep. apply step_ret. }
  intros recovered'. apply step_bind.
  { destruct recovered'; [|apply step_ret]. apply step_bind; [apply step_table, table_tracked_pids|]. intros pids. by apply step_reconcile_all. }
  intros []. apply step_bind.
  { destruct (_ && _); [|apply step_ret]. apply step_bind; [apply step_table, table_tracked_pids|]. intros roots. apply step_bind; [apply step_perf|]. intros edges.
    apply step_bind; [apply step_stable; by intros c|]. intros []. apply step_descendants. }
  intros forks. apply step_bind; [destruct (opens_new_perf_events mode); [|apply step_ret]; apply step_bind; [apply step_perf|]; intros forks'; apply step_open_recovered|].
  intros []. apply step_bind; [destruct (_ && _); [|apply step_ret]; apply step_bind; [apply step_table, table_tracked_pids|]; intros pids; apply step_refresh_threads|].
  intros []. destruct recovered'; [apply step_pacing|apply step_ret].
Qed.

(** A recording while it runs: polls and flushes. *)
Fixpoint drain_often (drains : list (DrainMode * Collected)) : op unit :=
  match drains with [] => mret tt | (mode, collected) :: drains => drain_events mode collected;; drain_often drains end.

(** C9: over any kernel, perf group, unwinder and sink, and for whatever events
    the rings release, every successful sequence of polls and flushes leaves the
    marks in the spool as the states of the processes are: the spool says of a
    PID that it runs Python exactly when the recorder does, and of a PID that is
    not recorded that it does not. *)
Theorem python_marks_follow_processes (drains : list (DrainMode * Collected)) (r : recorder) :
  in_order r -> Forall (λ d, defers_retirement d.1 = true) drains ->
  match drain_often drains r with (Ok _, r') => in_order r' | (Err _, _) => True end.
Proof.
  intros Hr Hd. revert r Hr. change (in_step (drain_often drains)). induction Hd as [|[mode collected] drains Hmode _ IH]; cbn [drain_often]; [apply step_ret|].
  apply step_bind; [|by intros []]. intros r Hr. pose proof (step_drain mode collected Hmode r Hr) as Hs. unfold drain_events.
  destruct (drain_events_inner mode collected r) as [[[]|e] r1]; [|done]. unfold in_order, refresh_recording_summary in *.
  by destruct (default _ _).
Qed.
End drains.

(** ** A recorder of a Python process *)

(** A sink that keeps only the marks. *)
#[local] Instance mark_sink : RecorderSink (gmap Z bool) := {|
  rs_modules := {| sink_module _ := mret tt; sink_deactivate_process _ := mret tt; sink_deactivate_one _ := mret tt |};
  sink_python_runtime _ pid flag := io_modify <[pid := flag]>;
|}.
Definition last_mark (s : gmap Z bool) (pid : Z) : bool := default false (s !! pid).
#[local] Instance mark_log : PythonLog (gmap Z bool) last_mark.
Proof.
  split; [|by intros [] s]. intros ts pid flag s p. unfold last_mark. cbn.
  destruct (Z.eqb_spec p pid) as [->|Hne]; [by rewrite lookup_insert_eq|by rewrite lookup_insert_ne].
Qed.

(** Process 7 is alive while the first drain polls it and gone afterwards. *)
#[local] Instance dying_kernel : Kernel unit := {|
  k_read _ := λ k, (SErr (Errno ENOENT), k);
  k_read_dir _ := λ k, (SErr (Errno ENOENT), k);
  k_metadata _ := λ k, (SErr (Errno ENOENT), k);
  k_pidfd_open _ := λ k, (SOk 4, k);
  k_poll _ := λ k, (SOk (Some POLLIN), k);
  k_poll_many fds := λ k, (SOk ((λ _, 0) <$> fds), k);
  k_pidfd_send_signal _ _ := λ k, (SErr (Errno ESRCH), k);
  k_kill _ _ := λ k, (SErr (Errno ESRCH), k);
  k_now := λ k, (0, k);
  k_sleep _ := λ k, k;
|}.
#[local] Existing Instances host_unwinders host_order.
#[local] Instance dying_scan : DescendantScan unit := λ _ k, ([], k).
#[local] Instance dying_perf : PerfCalls unit unit unit := {|
  pg_inherit_child_processes _ := true;
  pg_kernel_enabled _ := true;
  pg_ring_capacity_bytes_range _ := None;
  pg_remove_process _ := mret tt;
  pg_remove_thread _ := mret tt;
  pg_open_forked_threads _ := mret tt;
  pg_open_forked_process _ := mret tt;
  pg_take_lost_records := mret 0;
  pg_recover_forked_processes _ s := ([], s);
  pg_refresh_threads := mret tt;
  pg_open_process _ := sys_fail (Errno ESRCH);
  pg_rollback_open _ p := p;
  pg_resume_stopped_processes := mret tt;
  pg_enable_if_running := mret tt;
  pg_enable := mret tt;
  pg_disable := mret tt;
  pg_wait _ := mret tt;
  pg_has_pending_events _ := false;
|}.

(** A recorder of process 7, which runs Python. *)
Definition python_recorder : Recorder (K := unit) (U := unit) (E := unit) (S := gmap Z bool) (P := unit) :=
  mkRec (mkCtx (mkProcesses {[7 := mkState (Some (mkHandle 7 (Some (mkWatcher 3 false)) None)) None None None true false None]} tt ∅)
           tt (table_default, {[7 := true]}) (mkRecording 0 0 true 0 0) []) tt pacing_default.
Definition nothing : Collected := mkCollected [] [] false (Ok tt) false.

Lemma python_recorder_in_order : in_order last_mark python_recorder.
Proof.
  intros pid. cbn. unfold last_mark, marked. cbn. destruct (decide (pid = 7)) as [->|Hne]; [by rewrite !lookup_singleton_eq|].
  by rewrite !lookup_singleton_ne.
Qed.

(** Process 7 forks, its child execs, and both are polled. *)
Definition family : Collected :=
  mkCollected [PreparedRecord 10 PrivUser (LifeFork (mkTask 8 8) (mkTask 7 7)); PreparedRecord 20 PrivUser (LifeComm (mkTask 8 8) true (chars "sh"))]
    [] true (Ok tt) false.
Lemma python_marks_follow_processes_witness :
  exists r, drain_often (T := unit) [(Consume, family); (Flush, nothing)] python_recorder = (Ok tt, r) /\ in_order last_mark r /\
    cx_modules (rc_context r) = (table_default, {[7 := true; 8 := false]}).
Proof.
  pose proof (python_marks_follow_processes (T := unit) last_mark [(Consume, family); (Flush, nothing)] python_recorder python_recorder_in_order
    ltac:(repeat constructor)) as Hrun.
  destruct (drain_often [(Consume, family); (Flush, nothing)] python_recorder) as [res r] eqn:Hd.
  assert ((res, cx_modules (rc_context r)) = (Ok tt, (table_default, {[7 := true; 8 := false]}))) as Heq.
  { assert ((res, cx_modules (rc_context r)) = let '(res, r) := drain_often (T := unit) [(Consume, family); (Flush, nothing)] python_recorder in (res, cx_modules (rc_context r))) as ->
      by (rewrite Hd; reflexivity). vm_compute. reflexivity. }
  injection Heq as -> Hm. exists r. split; [reflexivity|]. split; [exact Hrun|exact Hm].
Defined.
