(* ===== verification/Control.v ===== *)
(** * The recorder as its caller drives it

    [Recorder] of [src/linux/mod.rs]: polling, flushing, pausing, attaching
    another process and finishing, with the failure that ends a recording and
    the state published to its reader.  What a drain collects is an argument of
    the operation that drains. *)

From stdpp Require Import prelude list numbers strings gmap.
From S2P Require Import Prelude Varint Model Output Contexts Writer ModuleTable SampleStack.
From S2P Require Import Live Text ProcMaps PythonNames ProcFs ProcessHandle ProcessTable Lifecycle.
From S2P Require Import LifeTrack Drain DrainMarks.
#[local] Open Scope Z_scope.

(** ** The writer *)

(** [failure], [flush], [position] and [open_reader] of the writer. *)
Class SpoolControl (S : Type) := {
  sc_failure : S -> option ErrorKind;
  sc_flush : io S unit;
  sc_position : S -> Z;
  sc_open_reader : S -> result (list Z);
}.
#[global] Instance spool_control {W} `{Write W} (open_reader : W -> result (list Z)) : SpoolControl (PerfSpoolWriter W) := {|
  sc_failure w := o_failure (w_writer w);
  sc_flush := writer_flush;
  sc_position := writer_position;
  sc_open_reader w := open_reader (o_inner (w_writer w));
|}.

Record PollSummary := mkPoll {
  pl_lost_events : Z;
  pl_root_active : bool;
  pl_active_processes : nat;
  pl_pending_events : bool;
}.

Inductive AttachPolicy := PolicyRunning | PolicyStopWhileAttaching.

Section control.
Context {K U E S P T : Type} `{Kernel K} `{ProcessUnwinders K U E} `{HashOrder K} `{RecorderSink S} `{PerfCalls K P T} `{DescendantScan K}.
Context `{SpoolControl S} `{VarIntCrate}.
#[local] Abbreviation recorder := (Recorder (K := K) (U := U) (E := E) (S := S) (P := P)).

(** [ct_queued] is [event_sorter.has_more()]; [ct_images] says that the reader
    was not taken yet. *)
Record Control := mkControl {
  ct_recorder : recorder;
  ct_queued : bool;
  ct_images : bool;
  ct_disable_on_drop : bool;
  ct_publisher : Published RecordingSummary;
  ct_publish_interval : Z;
  ct_last_publish : Z;
  ct_last_reconcile : Z;
  ct_disposable : bool;
  ct_root_pid : Z;
  ct_last_poll : PollSummary;
  ct_failure : option ErrorKind;
}.
#[local] Abbreviation op := (io Control).

Definition set_recorder (r : recorder) (c : Control) : Control :=
  mkControl r (ct_queued c) (ct_images c) (ct_disable_on_drop c) (ct_publisher c) (ct_publish_interval c)
    (ct_last_publish c) (ct_last_reconcile c) (ct_disposable c) (ct_root_pid c) (ct_last_poll c) (ct_failure c).
Definition set_queued (flag : bool) (c : Control) : Control :=
  mkControl (ct_recorder c) flag (ct_images c) (ct_disable_on_drop c) (ct_publisher c) (ct_publish_interval c)
    (ct_last_publish c) (ct_last_reconcile c) (ct_disposable c) (ct_root_pid c) (ct_last_poll c) (ct_failure c).
Definition set_images (flag : bool) (c : Control) : Control :=
  mkControl (ct_recorder c) (ct_queued c) flag (ct_disable_on_drop c) (ct_publisher c) (ct_publish_interval c)
    (ct_last_publish c) (ct_last_reconcile c) (ct_disposable c) (ct_root_pid c) (ct_last_poll c) (ct_failure c).
Definition set_disable_on_drop (flag : bool) (c : Control) : Control :=
  mkControl (ct_recorder c) (ct_queued c) (ct_images c) flag (ct_publisher c) (ct_publish_interval c)
    (ct_last_publish c) (ct_last_reconcile c) (ct_disposable c) (ct_root_pid c) (ct_last_poll c) (ct_failure c).
Definition set_publisher (p : Published RecordingSummary) (c : Control) : Control :=
  mkControl (ct_recorder c) (ct_queued c) (ct_images c) (ct_disable_on_drop c) p (ct_publish_interval c)
    (ct_last_publish c) (ct_last_reconcile c) (ct_disposable c) (ct_root_pid c) (ct_last_poll c) (ct_failure c).
Definition set_last_publish (now : Z) (c : Control) : Control :=
  mkControl (ct_recorder c) (ct_queued c) (ct_images c) (ct_disable_on_drop c) (ct_publisher c) (ct_publish_interval c)
    now (ct_last_reconcile c) (ct_disposable c) (ct_root_pid c) (ct_last_poll c) (ct_failure c).
Definition set_last_reconcile (now : Z) (c : Control) : Control :=
  mkControl (ct_recorder c) (ct_queued c) (ct_images c) (ct_disable_on_drop c) (ct_publisher c) (ct_publish_interval c)
    (ct_last_publish c) now (ct_disposable c) (ct_root_pid c) (ct_last_poll c) (ct_failure c).
Definition set_last_poll (summary : PollSummary) (c : Control) : Control :=
  mkControl (ct_recorder c) (ct_queued c) (ct_images c) (ct_disable_on_drop c) (ct_publisher c) (ct_publish_interval c)
    (ct_last_publish c) (ct_last_reconcile c) (ct_disposable c) (ct_root_pid c) summary (ct_failure c).
Definition set_failure (e : ErrorKind) (c : Control) : Control :=
  mkControl (ct_recorder c) (ct_queued c) (ct_images c) (ct_disable_on_drop c) (ct_publisher c) (ct_publish_interval c)
    (ct_last_publish c) (ct_last_reconcile c) (ct_disposable c) (ct_root_pid c) (ct_last_poll c) (Some e).

Definition on_recorder {A} (m : io recorder A) : op A := io_zoom ct_recorder set_recorder m.
Definition perf_call {A} (m : io (P * K) A) : op A := on_recorder (on_perf m).
Definition writer_call {A} (m : io S A) : op A := on_recorder (on_context (on_writer m)).
Definition the_writer (c : Control) : S := (cx_modules (rc_context (ct_recorder c))).2.
Definition the_summary (c : Control) : RecordingSummary := cx_summary (rc_context (ct_recorder c)).
Definition try_op {A} (m : op A) : op (result A) := λ c, let '(r, c) := m c in (Ok r, c).

(** A drain of the rings, which leaves the sorter as it was collected. *)
Definition drain (mode : DrainMode) (collected : Collected) : op unit := λ c,
  let '(r, c) := on_recorder (drain_events (T := T) mode collected) c in (r, set_queued (co_queued collected) c).

(** ** Failures *)

(** The first failure stays: it stops sampling, is published, and is what every
    later operation reports. *)
Definition fail {A} (e : ErrorKind) : op A :=
  failure ← io_gets ct_failure;
  match failure with
  | Some failure => io_fail failure
  | None =>
      io_modify (set_failure e);;
      io_modify (λ c, set_publisher (publisher_abort (Some e) (ct_publisher c)) c);;
      try_op (perf_call (pg_disable (T := T)));;
      io_fail e
  end.
Definition check_failure : op unit :=
  failure ← io_gets ct_failure;
  match failure with
  | Some failure => io_fail failure
  | None => w ← io_gets the_writer; match sc_failure w with Some e => fail e | None => mret tt end
  end.
(** [m], whose error ends the recording. *)
Definition or_fail {A} (m : op A) : op A :=
  r ← try_op m;
  match r with Ok a => mret a | Err e => fail e end.

(** ** Operations *)

Definition control_flush (collected : Collected) : op unit :=
  check_failure;;
  or_fail (drain Flush collected;; writer_call sc_flush);;
  io_modify (λ c, set_publisher (publish (Z.to_nat (sc_position (the_writer c))) (ct_publisher c)) c);;
  now ← on_recorder clock_now;
  io_modify (set_last_publish now).

(** The threads of the processes that run. *)
Fixpoint refresh_running (pids : list Z) : io recorder unit :=
  match pids with
  | [] => mret tt
  | pid :: pids =>
      p ← on_context get_processes;
      (match process_of pid p with
       | None => mret tt
       | Some h =>
           exited ← on_context (on_processes (process_call pid has_exited h));
           match exited with
           | SErr e => io_fail (sys_kind e)
           | SOk true => mret tt
           | SOk false =>
               p ← on_context get_processes;
               match process_of pid p with
               | None => mret tt
               | Some h =>
                   r ← perf_with_process pid (pg_refresh_threads (K := K) (P := P) (T := T)) h;
                   match r with SErr e => io_fail (sys_kind e) | SOk _ => io_modify (refresh_recording_summary (T := T)) end
               end
           end
       end);;
      refresh_running pids
  end.

(** Milliseconds. *)
Definition RECONCILE_INTERVAL : Z := 100.

Definition has_pending_events (c : Control) : bool :=
  ct_queued c || pg_has_pending_events (K := K) (T := T) (rc_perf (ct_recorder c)).

(** [consumed] is what the drain of the poll collects, [flushed] that of the
    flush when one is due. *)
Definition poll_recording (timeout : Z) (consumed flushed : Collected) : op PollSummary :=
  check_failure;;
  io_modify (set_disable_on_drop true);;
  lost_events ← io_gets (λ c, rs_lost_events (the_summary c));
  queued ← io_gets ct_queued;
  (if (queued : bool) then mret tt else perf_call (pg_wait (T := T) timeout));;
  drain Consume consumed;;
  now ← on_recorder clock_now;
  last ← io_gets ct_last_reconcile;
  (if RECONCILE_INTERVAL <=? now - last then
     now ← on_recorder clock_now;
     io_modify (set_last_reconcile now);;
     pids ← on_recorder (on_context (on_processes walk_states));
     on_recorder (refresh_running pids)
   else mret tt);;
  now ← on_recorder clock_now;
  c ← io_get;
  (if ct_publish_interval c <=? now - ct_last_publish c then control_flush flushed else mret tt);;
  '(root_active, active_processes) ← on_recorder (on_context (on_processes (activity (ct_root_pid c))));
  c ← io_get;
  mret (mkPoll (Z.max 0 (rs_lost_events (the_summary c) - lost_events)) root_active active_processes (has_pending_events c)).
Definition poll (timeout : Z) (consumed flushed : Collected) : op PollSummary :=
  summary ← or_fail (poll_recording timeout consumed flushed);
  io_modify (set_last_poll summary);;
  mret summary.

Definition pause : op unit :=
  perf_call (pg_disable (T := T));;
  io_modify (set_disable_on_drop false).
Definition control_resume : op unit :=
  check_failure;;
  io_modify (set_disable_on_drop true);;
  perf_call (pg_enable (T := T)).

(** [pid] is positive. *)
Definition attach_process (pid : Z) (mode : AttachMode) (first second : Collected) : op AttachOutcome :=
  process ← on_recorder (on_context (on_processes (open_handle pid)));
  p ← on_recorder (on_context get_processes);
  (if bool_decide (is_Some (pt_states p !! pid)) then or_fail (drain Flush first) else mret tt);;
  stale ← on_recorder (on_context (on_processes (tracked_process_is_stale pid)));
  let opening :=
    outcome ← on_recorder (attach_open (T := T) mode process);
    (match outcome with Attached => io_modify (set_disable_on_drop true) | _ => mret tt end);;
    mret outcome in
  match stale with
  | Some false => mret AlreadyAttached
  | Some true =>
      or_fail (drain Flush second);;
      perf_call (pg_remove_process (T := T) pid);;
      on_recorder (on_context (cleanup_process pid));;
      opening
  | None => opening
  end.
Definition attach_additional (pid : Z) (policy : AttachPolicy) (first second : Collected) : op AttachOutcome :=
  check_failure;;
  let mode := match policy with PolicyRunning => AttachRunning | PolicyStopWhileAttaching => AttachStopWhileAttaching end in
  attach_process pid mode first second.

Definition take_reader (collected : Collected) : op LiveReader :=
  images ← io_gets ct_images;
  if (images : bool) then
    control_flush collected;;
    c ← io_get;
    file ← io_lift (sc_open_reader (the_writer c));
    reader ← io_lift (live_new file (ct_disposable c) (ct_publisher c));
    io_modify (set_images false);;
    mret reader
  else io_fail InvalidInput.

(** ** The end *)

(** [Drop]. *)
Definition control_drop (c : Control) : Control :=
  let c := set_publisher (publisher_abort (ct_failure c) (ct_publisher c)) c in
  if ct_disable_on_drop c then (try_op (perf_call (pg_disable (T := T))) c).2 else c.

(** [and_cleanup]: the first error counts. *)
Definition and_cleanup (a b : result unit) : result unit := match a with Err e => Err e | Ok _ => b end.

(** The counters, with the error when there was one; [initial] says how the
    recording stood before. *)
Definition finish_after (initial : result unit) (collected : Collected) : op (result unit * RecordingSummary) :=
  disabled ← try_op (perf_call (pg_disable (T := T)));
  (match disabled with Ok _ => io_modify (set_disable_on_drop false) | Err _ => mret tt end);;
  let ended := and_cleanup initial disabled in
  c ← io_get;
  ended ← (if bool_decide (ct_failure c = None) && bool_decide (sc_failure (the_writer c) = None)
           then drained ← try_op (drain Final collected); mret (and_cleanup ended drained)
           else mret ended);
  flushed ← try_op (writer_call sc_flush);
  let ended := and_cleanup ended flushed in
  c ← io_get;
  let summary := the_summary c in
  (match ended with
   | Ok _ => io_modify (λ c, set_publisher (publisher_finish (Z.to_nat (sc_position (the_writer c))) summary (ct_publisher c)) c)
   | Err e => io_modify (λ c, set_publisher (publisher_abort (Some e) (ct_publisher c)) c)
   end);;
  mret (ended, summary).
Definition finish_recording (collected : Collected) : op (result unit * RecordingSummary) :=
  initial ← try_op check_failure;
  finish_after initial collected.
(** The recorder is dropped at the end. *)
Definition finish (collected : Collected) (c : Control) : result (result unit * RecordingSummary) * Control :=
  let '(r, c) := finish_recording collected c in (r, control_drop c).
End control.
