(* ===== verification/Fate.v ===== *)
(** * What the reader of a recording is told

    Through every sequence of operations of [Control.v], the published state is
    in step with the failure that ended the recording: lengths are published
    after flushes only, the first failure is final, and finishing tells the
    reader what it returns. *)

From stdpp Require Import prelude list numbers strings gmap relations.
From S2P Require Import Prelude Varint Model Output Contexts Writer ModuleTable SampleStack.
From S2P Require Import Live Text ProcMaps PythonNames ProcFs ProcessHandle ProcessTable Lifecycle.
From S2P Require Import LifeTrack Drain DrainMarks Control.
#[local] Open Scope Z_scope.

Section fate.
Context {K U E S P T : Type} `{Kernel K} `{ProcessUnwinders K U E} `{HashOrder K} `{RecorderSink S} `{PerfCalls K P T} `{DescendantScan K}.
Context `{SpoolControl S} `{VarIntCrate}.
#[local] Abbreviation control := (Control (K := K) (U := U) (E := E) (S := S) (P := P)).
#[local] Abbreviation recorder := (Recorder (K := K) (U := U) (E := E) (S := S) (P := P)).
#[local] Abbreviation op := (io control).
#[local] Abbreviation published := (Published RecordingSummary).
Implicit Types c : control.

(** ** The life of a recording *)

Definition fate c : option ErrorKind * published := (ct_failure c, ct_publisher c).

(** A recording runs, or it has failed and its reader was told. *)
Inductive told : option ErrorKind * published -> Prop :=
  | told_running n : told (None, mkPublished n EndOpen)
  | told_failed n e : told (Some e, mkPublished n (EndAborted (Some e))).

(** [n] is where the writer is after a successful flush of it. *)
Definition flushed (n : nat) : Prop := exists w w' : S, sc_flush w = (Ok tt, w') /\ n = Z.to_nat (sc_position w').
Inductive life_step : relation (option ErrorKind * published) :=
  | life_publish n m : flushed m -> life_step (None, mkPublished n EndOpen) (None, mkPublished m EndOpen)
  | life_fail n e : life_step (None, mkPublished n EndOpen) (Some e, mkPublished n (EndAborted (Some e))).
#[local] Abbreviation life := (rtc life_step).

Lemma told_step a b : told a -> life_step a b -> told b.
Proof. intros _ []; constructor. Qed.
Lemma told_life a b : told a -> life a b -> told b.
Proof. intros Ha Hab. induction Hab; [done|]. by eapply IHHab, told_step. Qed.
Lemma failed_life e p b : life (Some e, p) b -> b = (Some e, p).
Proof. intros Hab. inversion_clear Hab as [|? b' ? Hstep _]; [done|]. inversion Hstep. Qed.

(** ** Calls that leave it as it is, and calls that move it on *)

Definition quiet {A} (m : op A) : Prop := forall c, fate (m c).2 = fate c.
Definition lives {A} (m : op A) : Prop := forall c, told (fate c) -> life (fate c) (fate (m c).2).
(** Its error is the failure of the recording. *)
Definition ends {A} (m : op A) : Prop := forall c, told (fate c) -> match m c with (Err e, c') => ct_failure c' = Some e | (Ok _, _) => True end.

Lemma quiet_lives {A} (m : op A) : quiet m -> lives m.
Proof. intros Hm c _. by rewrite Hm. Qed.
Lemma lives_ret {A} (a : A) : lives (mret a).
Proof. by apply quiet_lives. Qed.
Lemma lives_fail {A} e : lives (A := A) (io_fail e).
Proof. by apply quiet_lives. Qed.
Lemma lives_bind {A B} (m : op A) (f : A -> op B) : lives m -> (forall a, lives (f a)) -> lives (m ≫= f).
Proof.
  intros Hm Hf c Hc. specialize (Hm c Hc). unfold mbind, io_mbind. destruct (m c) as [[a|e] c1]; [|done]. cbn [snd] in Hm.
  etrans; [exact Hm|]. apply Hf. by eapply told_life.
Qed.
Lemma lives_try {A} (m : op A) : lives m -> lives (try_op m).
Proof. intros Hm c Hc. specialize (Hm c Hc). unfold try_op. by destruct (m c). Qed.
Lemma quiet_recorder {A} (m : io recorder A) : quiet (on_recorder m).
Proof. intros c. unfold on_recorder, io_zoom. by destruct (m (ct_recorder c)). Qed.
Lemma quiet_modify f : (forall c, fate (f c) = fate c) -> quiet (io_modify f).
Proof. intros Hf c. apply Hf. Qed.
Lemma quiet_drain mode collected : quiet (drain (T := T) mode collected).
Proof. intros c. unfold drain. pose proof (quiet_recorder (drain_events (T := T) mode collected) c) as Hq. by destruct (on_recorder _ c). Qed.

Lemma fail_spec {A} e c : told (fate c) ->
  exists c', fail (T := T) (A := A) e c = (Err (default e (ct_failure c)), c') /\ ct_failure c' = Some (default e (ct_failure c)) /\
    life (fate c) (fate c') /\ (is_Some (ct_failure c) -> c' = c).
Proof.
  intros Hc. unfold fail, mbind, io_mbind, io_gets. destruct (ct_failure c) as [f|] eqn:Hf; cbn.
  { exists c. by rewrite Hf. }
  set (c1 := set_publisher _ _). pose proof (quiet_recorder (on_perf (pg_disable (T := T))) c1) as Hq. unfold try_op, perf_call.
  destruct (on_recorder _ c1) as [r c2]. cbn in Hq |- *. exists c2. split; [done|]. unfold fate in Hq at 1. injection Hq as Hf2 Hp2.
  split; [done|]. split; [|by intros [? ?]]. unfold fate. rewrite Hf2, Hp2, Hf. apply rtc_once. unfold fate in Hc. rewrite Hf in Hc. cbn.
  inversion Hc as [n Hn|]. unfold publisher_abort. cbn. constructor.
Qed.
Lemma fail_lives {A} e : lives (fail (T := T) (A := A) e).
Proof. intros c Hc. destruct (fail_spec (A := A) e c Hc) as (c' & -> & _ & Hl & _). exact Hl. Qed.
Lemma fail_ends {A} e : ends (fail (T := T) (A := A) e).
Proof. intros c Hc. by destruct (fail_spec (A := A) e c Hc) as (c' & -> & Hf & _ & _). Qed.

Lemma check_lives : lives (check_failure (T := T)).
Proof.
  apply lives_bind; [by apply quiet_lives|]. intros [f|]; [apply lives_fail|]. apply lives_bind; [by apply quiet_lives|].
  intros w. destruct (sc_failure w); [apply fail_lives|apply lives_ret].
Qed.
Lemma check_ends : ends (check_failure (T := T)).
Proof.
  intros c Hc. unfold check_failure, mbind, io_mbind, io_gets. destruct (ct_failure c) as [f|] eqn:Hf; [exact Hf|]. cbn.
  destruct (sc_failure (the_writer c)); [by apply fail_ends|done].
Qed.
Lemma check_failed c e : ct_failure c = Some e -> check_failure (T := T) c = (Err e, c).
Proof. intros Hf. unfold check_failure, mbind, io_mbind, io_gets. by rewrite Hf. Qed.
Lemma or_fail_lives {A} (m : op A) : lives m -> lives (or_fail (T := T) m).
Proof. intros Hm. apply lives_bind; [by apply lives_try|]. intros [a|e]; [apply lives_ret|apply fail_lives]. Qed.
Lemma or_fail_ends {A} (m : op A) : lives m -> ends (or_fail (T := T) m).
Proof.
  intros Hm c Hc. specialize (Hm c Hc). unfold or_fail, try_op, mbind, io_mbind. destruct (m c) as [[a|e] c1]; [done|].
  apply fail_ends. by eapply told_life.
Qed.
(** A call and what follows its success. *)
Lemma lives_after {A B} (m : op A) (f : A -> op B) :
  lives m -> (forall c a c', told (fate c) -> m c = (Ok a, c') -> told (fate c') -> life (fate c') (fate (f a c').2)) -> lives (m ≫= f).
Proof.
  intros Hm Hf c Hc. specialize (Hm c Hc). specialize (Hf c). unfold mbind, io_mbind. destruct (m c) as [[a|e] c1]; [|done].
  cbn [snd] in Hm. etrans; [exact Hm|]. apply Hf; [done|done|]. by eapply told_life.
Qed.
Lemma ends_after {A B} (m : op A) (f : A -> op B) : lives m -> ends m ->
  (forall c a c', told (fate c) -> m c = (Ok a, c') -> told (fate c') -> match f a c' with (Err e, c') => ct_failure c' = Some e | (Ok _, _) => True end) ->
  ends (m ≫= f).
Proof.
  intros Hl Hm Hf c Hc. specialize (Hl c Hc). specialize (Hm c Hc). specialize (Hf c). unfold mbind, io_mbind. destruct (m c) as [[a|e] c1]; [|done].
  apply Hf; [done|done|]. by eapply told_life.
Qed.

(** ** Flushing *)

Lemma writer_call_flush c :
  match writer_call sc_flush c with (Ok _, c') => flushed (Z.to_nat (sc_position (the_writer c'))) | (Err _, _) => True end.
Proof.
  unfold writer_call, on_recorder, on_context, on_writer, on_modules, to_sink, io_zoom. cbn.
  destruct (sc_flush (cx_modules (rc_context (ct_recorder c))).2) as [[[]|e] w'] eqn:Hw; cbn; [|done]. by eexists _, w'.
Qed.
Lemma quiet_flush_call collected : quiet (drain (T := T) Flush collected;; writer_call sc_flush).
Proof.
  intros c. unfold mbind, io_mbind. pose proof (quiet_drain Flush collected c) as Hd. destruct (drain Flush collected c) as [[a|e] c1]; [|done].
  cbn [snd] in Hd. rewrite <- Hd. apply quiet_recorder.
Qed.
(** A clock read and a setter. *)
Lemma clock_set_ok (f : Z -> control -> control) c :
  (forall now c, fate (f now c) = fate c) -> exists c', (now ← on_recorder clock_now; io_modify (f now)) c = (Ok tt, c') /\ fate c' = fate c.
Proof.
  intros Hf. unfold clock_now, on_perf, on_recorder, io_zoom, mbind, io_mbind. cbn. destruct (k_now _) as [now k]. cbn. eexists. split; [done|]. by rewrite Hf.
Qed.

(** A successful flush publishes where the writer is. *)
Lemma or_fail_ok {A} (m : op A) c a c' : or_fail (T := T) m c = (Ok a, c') -> told (fate c) -> lives m -> m c = (Ok a, c').
Proof.
  unfold or_fail, try_op, mbind, io_mbind. intros Ho Hc Hm. specialize (Hm c Hc). destruct (m c) as [[b|e] c1]; [exact Ho|].
  cbn [snd] in Hm. destruct (fail_spec (A := A) e c1 (told_life _ _ Hc Hm)) as (c2 & Heq & _). congruence.
Qed.
Lemma flush_call_ok collected c a c' :
  (drain (T := T) Flush collected;; writer_call sc_flush) c = (Ok a, c') -> flushed (Z.to_nat (sc_position (the_writer c'))).
Proof.
  unfold mbind, io_mbind. destruct (drain Flush collected c) as [[b|e] c1]; [|done]. intros Hd. pose proof (writer_call_flush c1) as Hf. by rewrite Hd in Hf.
Qed.
Lemma lives_flush_call collected : lives (drain (T := T) Flush collected;; writer_call sc_flush).
Proof. apply quiet_lives, quiet_flush_call. Qed.
Lemma publish_spec c : flushed (Z.to_nat (sc_position (the_writer c))) -> told (fate c) ->
  exists c', (io_modify (λ c, set_publisher (publish (Z.to_nat (sc_position (the_writer c))) (ct_publisher c)) c);;
    now ← on_recorder clock_now; io_modify (set_last_publish now)) c = (Ok tt, c') /\ life (fate c) (fate c').
Proof.
  intros Hflushed Hc. unfold mbind at 1, io_mbind at 1. cbn [io_modify].
  destruct (clock_set_ok set_last_publish (set_publisher (publish (Z.to_nat (sc_position (the_writer c))) (ct_publisher c)) c)) as (c3 & Hcl & Hc3); [done|].
  exists c3. split; [exact Hcl|]. rewrite Hc3. unfold fate in *. cbn. inversion Hc as [n Hn|n e Hn]; cbn; [apply rtc_once; by constructor|done].
Qed.
Lemma flush_lives collected : lives (control_flush (T := T) collected).
Proof.
  apply lives_bind; [apply check_lives|]. intros []. apply lives_after; [apply or_fail_lives, lives_flush_call|]. intros c [] c1 Hc Ho Hc1.
  apply or_fail_ok, flush_call_ok in Ho; [|done|apply lives_flush_call]. by destruct (publish_spec c1 Ho Hc1) as (c2 & -> & Hl).
Qed.
Lemma flush_ends collected : ends (control_flush (T := T) collected).
Proof.
  apply ends_after; [apply check_lives|apply check_ends|]. intros c [] c1 Hc _ Hc1. revert c1 Hc1. clear c Hc.
  apply ends_after; [apply or_fail_lives, lives_flush_call|apply or_fail_ends, lives_flush_call|]. intros c [] c1 Hc Ho Hc1.
  apply or_fail_ok, flush_call_ok in Ho; [|done|apply lives_flush_call]. by destruct (publish_spec c1 Ho Hc1) as (c2 & -> & _).
Qed.

(** ** The other operations *)

Lemma lives_recorder {A} (m : io recorder A) : lives (on_recorder m).
Proof. apply quiet_lives, quiet_recorder. Qed.
Lemma lives_modify f : (forall c, fate (f c) = fate c) -> lives (io_modify f).
Proof. intros Hf. by apply quiet_lives, quiet_modify. Qed.
Lemma lives_gets {A} (f : control -> A) : lives (io_gets f).
Proof. by apply quiet_lives. Qed.
Lemma lives_get : lives io_get.
Proof. by apply quiet_lives. Qed.
Lemma lives_lift {A} (r : result A) : lives (io_lift r).
Proof. by apply quiet_lives. Qed.
Lemma lives_drain mode collected : lives (drain (T := T) mode collected).
Proof. apply quiet_lives, quiet_drain. Qed.

Ltac life_walk :=
  repeat lazymatch goal with
    | |- lives (_ ≫= _) => apply lives_bind; [|intros ?]
    | |- lives (mret _) => apply lives_ret
    | |- lives (io_fail _) => apply lives_fail
    | |- lives (on_recorder _) => apply lives_recorder
    | |- lives (perf_call _) => apply lives_recorder
    | |- lives (writer_call _) => apply lives_recorder
    | |- lives (io_modify _) => apply lives_modify; done
    | |- lives (io_gets _) => apply lives_gets
    | |- lives io_get => apply lives_get
    | |- lives (io_lift _) => apply lives_lift
    | |- lives (drain _ _) => apply lives_drain
    | |- lives check_failure => apply check_lives
    | |- lives (control_flush _) => apply flush_lives
    | |- lives (or_fail _) => apply or_fail_lives
    | |- lives (if ?b then _ else _) => destruct b
    | |- lives (match ?x with _ => _ end) => destruct x
    end.
Lemma poll_recording_lives timeout consumed flushed : lives (poll_recording (T := T) timeout consumed flushed).
Proof. unfold poll_recording. life_walk. Qed.
Lemma poll_lives timeout consumed flushed : lives (poll (T := T) timeout consumed flushed).
Proof. apply lives_bind; [apply or_fail_lives, poll_recording_lives|]. intros summary. life_walk. Qed.
Lemma poll_ends timeout consumed flushed : ends (poll (T := T) timeout consumed flushed).
Proof.
  apply ends_after; [apply or_fail_lives, poll_recording_lives|apply or_fail_ends, poll_recording_lives|]. done.
Qed.
Lemma pause_lives : lives (pause (T := T)).
Proof. unfold pause. life_walk. Qed.
Lemma resume_lives : lives (control_resume (T := T)).
Proof. unfold control_resume. life_walk. Qed.
Lemma attach_lives pid policy first second : lives (attach_additional (T := T) pid policy first second).
Proof. unfold attach_additional, attach_process. life_walk. Qed.
Lemma take_reader_lives collected : lives (take_reader (T := T) collected).
Proof. unfold take_reader. life_walk. Qed.

(** ** Runs *)

Inductive control_op :=
  | OpPoll (timeout : Z) (consumed flushed : Collected)
  | OpFlush (collected : Collected)
  | OpPause
  | OpResume
  | OpAttach (pid : Z) (policy : AttachPolicy) (first second : Collected)
  | OpTakeReader (collected : Collected).

Definition void {A} (m : op A) : op unit := m;; mret tt.
Definition run_one (o : control_op) : op unit :=
  match o with
  | OpPoll timeout consumed flushed => void (poll (T := T) timeout consumed flushed)
  | OpFlush collected => control_flush (T := T) collected
  | OpPause => pause (T := T)
  | OpResume => control_resume (T := T)
  | OpAttach pid policy first second => void (attach_additional (T := T) pid policy first second)
  | OpTakeReader collected => void (take_reader (T := T) collected)
  end.
(** What the operations returned; the caller goes on after errors. *)
Fixpoint run_control (ops : list control_op) (c : control) : list (result unit) * control :=
  match ops with
  | [] => ([], c)
  | o :: ops => let '(r, c) := run_one o c in let '(rs, c) := run_control ops c in (r :: rs, c)
  end.

Lemma void_lives {A} (m : op A) : lives m -> lives (void m).
Proof. intros Hm. apply lives_bind; [done|]. intros a. apply lives_ret. Qed.
Lemma run_one_lives o : lives (run_one o).
Proof.
  destruct o; cbn [run_one].
  - apply void_lives, poll_lives.
  - apply flush_lives.
  - apply pause_lives.
  - apply resume_lives.
  - apply void_lives, attach_lives.
  - apply void_lives, take_reader_lives.
Qed.
Lemma run_life ops : forall c, told (fate c) -> life (fate c) (fate (run_control ops c).2).
Proof.
  induction ops as [|o ops IH]; intros c Hc; cbn [run_control]; [done|]. pose proof (run_one_lives o c Hc) as Hl. destruct (run_one o c) as [r c1].
  cbn [snd] in Hl. specialize (IH c1 (told_life _ _ Hc Hl)). destruct (run_control ops c1) as [rs c2]. by etrans.
Qed.

(** Polls and flushes end the recording when they fail. *)
Definition ends_recording (o : control_op) : bool := match o with OpPoll _ _ _ | OpFlush _ => true | _ => false end.
Lemma run_one_ends o : ends_recording o = true -> ends (run_one o).
Proof.
  destruct o; intros Ho; try discriminate; cbn [run_one]; [|apply flush_ends].
  unfold void. apply ends_after; [apply poll_lives|apply poll_ends|done].
Qed.

(** What an operation reports once the recording has failed. *)
Definition reports (e : ErrorKind) (o : control_op) (r : result unit) : Prop :=
  match o with OpPause => True | OpTakeReader _ => r = Err e \/ r = Err InvalidInput | _ => r = Err e end.
(** The processes, the spool with its modules, and the counters. *)
Definition recorded c : ProcessTable U E * (ModuleTable * S) * RecordingSummary :=
  let ctx := rc_context (ct_recorder c) in (cx_processes ctx, cx_modules ctx, cx_summary ctx).
Lemma bind_failed {A B} (m : op A) (f : A -> op B) c e : m c = (Err e, c) -> (m ≫= f) c = (Err e, c).
Proof. intros Hm. unfold mbind, io_mbind. by rewrite Hm. Qed.
Lemma fail_failed {A} c e e' : ct_failure c = Some e -> fail (T := T) (A := A) e' c = (Err e, c).
Proof. intros Hf. unfold fail, mbind, io_mbind, io_gets. by rewrite Hf. Qed.
Lemma poll_failed timeout consumed flushed c e : ct_failure c = Some e -> poll (T := T) timeout consumed flushed c = (Err e, c).
Proof.
  intros Hf. apply bind_failed. unfold or_fail, try_op, mbind at 1, io_mbind at 1. unfold poll_recording. rewrite (bind_failed _ _ c e) by by apply check_failed.
  by apply fail_failed.
Qed.
Lemma run_one_failed o c e : ct_failure c = Some e -> reports e o (run_one o c).1 /\ recorded (run_one o c).2 = recorded c.
Proof.
  intros Hf. pose proof (check_failed c e Hf) as Hcheck. assert (forall o', run_one o' c = (Err e, c) -> (run_one o' c).1 = Err e /\ recorded (run_one o' c).2 = recorded c) as Hsame.
  { by intros o' ->. }
  destruct o as [timeout consumed flushed|collected| | |pid policy first second|collected].
  - apply Hsame. by apply bind_failed, poll_failed.
  - apply Hsame. by apply bind_failed.
  - split; [done|]. cbn. unfold pause, perf_call, on_recorder, on_perf, io_zoom, mbind, io_mbind.
    by destruct (pg_disable _) as [[[]|e'] [p' k']].
  - apply Hsame. by apply bind_failed.
  - apply Hsame. by apply bind_failed, bind_failed.
  - cbn [run_one reports]. destruct (ct_images c) eqn:Hi.
    + assert (void (take_reader (T := T) collected) c = (Err e, c)) as ->; [|by split; [left|]].
      apply bind_failed. unfold take_reader, mbind at 1, io_mbind at 1, io_gets. rewrite Hi. by apply bind_failed, bind_failed.
    + assert (void (take_reader (T := T) collected) c = (Err InvalidInput, c)) as ->; [|by split; [right|]].
      apply bind_failed. unfold take_reader, mbind at 1, io_mbind at 1, io_gets. by rewrite Hi.
Qed.
Lemma run_failed ops e : forall c, told (fate c) -> ct_failure c = Some e ->
  Forall2 (reports e) ops (run_control ops c).1 /\ recorded (run_control ops c).2 = recorded c.
Proof.
  induction ops as [|o ops IH]; intros c Hc Hf; cbn [run_control]; [by split|]. pose proof (run_one_lives o c Hc) as Hl.
  pose proof (run_one_failed o c e Hf) as [Hr Hrec]. destruct (run_one o c) as [r c1]. cbn [fst snd] in *.
  assert (ct_failure c1 = Some e) as Hf1. { unfold fate in Hl at 1. rewrite Hf in Hl. by apply failed_life in Hl as [= ->]. }
  specialize (IH c1 (told_life _ _ Hc Hl) Hf1). destruct (run_control ops c1) as [rs c2]. destruct IH as [Hrs Hc2]. split; [by constructor|]. cbn [snd] in *. by rewrite Hc2.
Qed.
Lemma run_ends ops : forall c, told (fate c) ->
  forall i o e, ops !! i = Some o -> (run_control ops c).1 !! i = Some (Err e) -> ends_recording o = true -> ct_failure (run_control ops c).2 = Some e.
Proof.
  induction ops as [|o ops IH]; intros c Hc i o' e Ho Hr Hends; [done|]. cbn [run_control] in *. pose proof (run_one_lives o c Hc) as Hl.
  pose proof (run_one_ends o) as Hone. specialize (IH (run_one o c).2 (told_life _ _ Hc Hl)).
  pose proof (run_life ops (run_one o c).2 (told_life _ _ Hc Hl)) as Hlife.
  destruct (run_one o c) as [r c1] eqn:Hrun. cbn [snd] in *. destruct (run_control ops c1) as [rs c2]. cbn [fst snd] in *.
  destruct i as [|i]; cbn in Ho, Hr; [|by eapply IH]. injection Ho as <-. injection Hr as ->. specialize (Hone Hends c Hc). rewrite Hrun in Hone.
  unfold fate in Hlife at 1. rewrite Hone in Hlife. by apply failed_life in Hlife as [= ->].
Qed.

(** ** The end of a recording *)

Lemma drop_fate c : told (fate c) -> pub_status (ct_publisher (control_drop (T := T) c)) = EndAborted (ct_failure c).
Proof.
  intros Hc. unfold control_drop. cbn zeta. set (c1 := set_publisher _ c).
  assert (pub_status (ct_publisher c1) = EndAborted (ct_failure c)) as Hc1.
  { subst c1. cbn. unfold fate in Hc. inversion Hc as [n Hn|n e Hn]; done. }
  destruct (ct_disable_on_drop c1); [|done]. unfold try_op. pose proof (quiet_recorder (on_perf (pg_disable (T := T))) c1) as Hq. unfold perf_call.
  destruct (on_recorder _ c1) as [r c2]. cbn in *. unfold fate in Hq. injection Hq as _ ->. done.
Qed.
(** Once the end was published, dropping changes nothing. *)
Lemma drop_ended c : pub_status (ct_publisher c) <> EndOpen -> ct_publisher (control_drop (T := T) c) = ct_publisher c.
Proof.
  intros Hend. unfold control_drop. cbn zeta. set (c1 := set_publisher _ c). assert (ct_publisher c1 = ct_publisher c) as Hc1.
  { subst c1. cbn. unfold publisher_abort. by destruct (pub_status (ct_publisher c)). }
  destruct (ct_disable_on_drop c1); [|done]. unfold try_op. pose proof (quiet_recorder (on_perf (pg_disable (T := T))) c1) as Hq. unfold perf_call.
  destruct (on_recorder _ c1) as [r c2]. cbn in *. unfold fate in Hq. injection Hq as _ ->. done.
Qed.

Lemma bind_ok {A B} (m : op A) (f : A -> op B) c a c' : m c = (Ok a, c') -> (m ≫= f) c = f a c'.
Proof. intros Hm. unfold mbind, io_mbind. by rewrite Hm. Qed.
Lemma try_quiet {A} (m : op A) c : quiet m -> exists r c', m c = (r, c') /\ try_op m c = (Ok r, c') /\ fate c' = fate c.
Proof. intros Hm. specialize (Hm c). unfold try_op. destruct (m c) as [r c']. by exists r, c'. Qed.
Lemma and_cleanup_ok a b : and_cleanup a b = Ok tt -> a = Ok tt /\ b = Ok tt.
Proof. destruct a as [[]|e], b as [[]|e']; done. Qed.
Lemma and_cleanup_err a b e : a = Err e -> and_cleanup a b = Err e.
Proof. by intros ->. Qed.

(** The two ends, from a recording that runs or has failed with [initial]. *)
Definition well_ended (initial ended : result unit) (summary : RecordingSummary) (p : published) : Prop :=
  match ended with
  | Ok _ => initial = Ok tt /\ exists n, flushed n /\ p = mkPublished n (EndFinished summary)
  | Err e => (exists n, p = mkPublished n (EndAborted (Some e))) /\ forall f, initial = Err f -> e = f
  end.
(** [initial] as [check_failure] returns it. *)
Definition checked (initial : result unit) c : Prop :=
  match initial with Ok _ => ct_failure c = None | Err e => ct_failure c = Some e end.

Lemma finish_publishes initial ended summary c :
  told (fate c) -> checked initial c -> (forall e, initial = Err e -> ended = Err e) ->
  (ended = Ok tt -> flushed (Z.to_nat (sc_position (the_writer c)))) ->
  exists c', ((match ended with
     | Ok _ => io_modify (λ c, set_publisher (publisher_finish (Z.to_nat (sc_position (the_writer c))) summary (ct_publisher c)) c)
     | Err e => io_modify (λ c, set_publisher (publisher_abort (Some e) (ct_publisher c)) c)
     end);; mret (ended, summary)) c = (Ok (ended, summary), c') /\ well_ended initial ended summary (ct_publisher c').
Proof.
  intros Hc Hi He Hf. unfold fate in Hc. destruct ended as [[]|e]; (eexists; split; [reflexivity|]); cbn.
  - destruct initial as [[]|e]; [|by specialize (He e eq_refl)]. split; [done|]. cbn in Hi. rewrite Hi in Hc. inversion Hc as [n Hn|].
    eexists. split; [by apply Hf|]. done.
  - destruct initial as [[]|f]; cbn in Hi; rewrite Hi in Hc; inversion Hc as [n Hn|n f' Hn]; cbn; [by split; [eexists|]|].
    specialize (He f eq_refl) as [= ->]. split; [by eexists|]. by intros ? [= ->].
Qed.

Lemma finish_after_ends initial collected c : told (fate c) -> checked initial c ->
  exists ended summary c', finish_after (T := T) initial collected c = (Ok (ended, summary), c') /\ well_ended initial ended summary (ct_publisher c').
Proof.
  intros Hc Hi. unfold finish_after. destruct (try_quiet (perf_call (pg_disable (T := T))) c) as (disabled & c1 & _ & Htry & Hq1); [apply quiet_recorder|].
  rewrite (bind_ok _ _ _ _ _ Htry). set (c2 := match disabled with Ok _ => set_disable_on_drop false c1 | Err _ => c1 end).
  rewrite (bind_ok _ _ _ tt c2) by (subst c2; by destruct disabled). assert (fate c2 = fate c) as Hq2 by (subst c2; by destruct disabled).
  clearbody c2. rewrite (bind_ok io_get _ c2 c2 c2) by done. set (ended := and_cleanup initial disabled).
  assert (exists ended' c3, (if bool_decide (ct_failure c2 = None) && bool_decide (sc_failure (the_writer c2) = None)
           then drained ← try_op (drain (T := T) Final collected); mret (and_cleanup ended drained) else mret ended) c2 = (Ok ended', c3) /\
      fate c3 = fate c /\ forall e, initial = Err e -> ended' = Err e) as (ended' & c3 & Hdrain & Hq3 & He3).
  { destruct (_ && _).
    - destruct (try_quiet (drain (T := T) Final collected) c2) as (drained & c3 & _ & Htry3 & Hq3); [apply quiet_drain|]. rewrite (bind_ok _ _ _ _ _ Htry3).
      eexists _, c3. split; [reflexivity|]. split; [congruence|]. intros e ->. done.
    - eexists _, c2. split; [reflexivity|]. split; [done|]. by intros e ->. }
  rewrite (bind_ok _ _ _ _ _ Hdrain). destruct (try_quiet (writer_call sc_flush) c3) as (flushed' & c4 & Hflush & Htry4 & Hq4); [apply quiet_recorder|].
  rewrite (bind_ok _ _ _ _ _ Htry4). rewrite (bind_ok io_get _ c4 c4 c4) by done.
  assert (fate c4 = fate c) as Hfate by congruence.
  destruct (finish_publishes initial (and_cleanup ended' flushed') (the_summary c4) c4) as (c5 & Hrun & Hend).
  - by rewrite Hfate.
  - unfold checked in *. unfold fate in Hfate. injection Hfate as -> _. exact Hi.
  - intros e He. by apply and_cleanup_err, He3.
  - intros [_ ->]%and_cleanup_ok. pose proof (writer_call_flush c3) as Hw. by rewrite Hflush in Hw.
  - by eexists _, _, c5.
Qed.
Lemma finish_ends collected c : told (fate c) ->
  exists initial ended summary c', finish (T := T) collected c = (Ok (ended, summary), c') /\
    (forall f, ct_failure c = Some f -> initial = Err f) /\ (initial = Ok tt -> ct_failure c = None) /\ well_ended initial ended summary (ct_publisher c').
Proof.
  intros Hc. unfold finish, finish_recording. pose proof (check_lives c Hc) as Hl. pose proof (check_ends c Hc) as He. pose proof (check_failed c) as Hfailed.
  destruct (check_failure (T := T) c) as [initial c1] eqn:Hcheck. cbn [snd] in Hl.
  assert (checked initial c1) as Hchecked.
  { destruct initial as [[]|e]; [|exact He]. unfold checked. destruct (ct_failure c1) as [f|] eqn:Hf; [|done]. exfalso. revert Hcheck.
    unfold check_failure, mbind, io_mbind, io_gets. destruct (ct_failure c) as [g|] eqn:Hg; [done|]. cbn.
    destruct (sc_failure (the_writer c)) as [e|]; [|by intros [= <-]; congruence].
    destruct (fail_spec (A := unit) e c Hc) as (c' & -> & _). done. }
  rewrite (bind_ok _ _ _ initial c1) by (unfold try_op; by rewrite Hcheck).
  destruct (finish_after_ends initial collected c1 (told_life _ _ Hc Hl) Hchecked) as (ended & summary & c2 & -> & Hend).
  exists initial, ended, summary, (control_drop (T := T) c2). split; [done|]. split; [|split].
  - intros f Hf. specialize (Hfailed f Hf). congruence.
  - intros ->. destruct (ct_failure c) as [f|]; [|done]. specialize (Hfailed f eq_refl). congruence.
  - rewrite drop_ended; [exact Hend|]. unfold well_ended in Hend. destruct ended; [by destruct Hend as (_ & n & _ & ->)|by destruct Hend as ((n & ->) & _)].
Qed.

(** C10: over any kernel, perf group, unwinder and writer, and through any
    sequence of polls, flushes, pauses, resumptions, attachments and reader
    requests of a recording whose reader was told the truth so far, errors
    included: the reader is told only lengths at which a flush of the writer
    succeeded, and at most one failure, the recording's own; a poll or flush
    that fails is that failure; and from then on nothing is recorded and every
    operation reports it.  Finishing then returns counters exactly when it told
    the reader that the recording is complete up to a flushed length, and an
    error exactly when it told the reader that error, the earlier failure if
    there was one; dropping the recorder instead tells the reader that the
    recording was cut off. *)
Theorem reader_is_told_the_fate (ops : list control_op) (c : control) (collected : Collected) :
  told (fate c) ->
  let '(outcomes, c') := run_control ops c in
  (life (fate c) (fate c') /\ told (fate c')) /\
  (forall i o e, ops !! i = Some o -> outcomes !! i = Some (Err e) -> ends_recording o = true -> ct_failure c' = Some e) /\
  (forall e, ct_failure c = Some e -> Forall2 (reports e) ops outcomes /\ recorded c' = recorded c) /\
  (exists ended summary c'', finish (T := T) collected c' = (Ok (ended, summary), c'') /\
     match ended with
     | Ok _ => ct_failure c' = None /\ exists n, flushed n /\ ct_publisher c'' = mkPublished n (EndFinished summary)
     | Err e => (exists n, ct_publisher c'' = mkPublished n (EndAborted (Some e))) /\ forall f, ct_failure c' = Some f -> e = f
     end) /\
  pub_status (ct_publisher (control_drop (T := T) c')) = EndAborted (ct_failure c').
Proof.
  intros Hc. pose proof (run_life ops c Hc) as Hlife. pose proof (run_ends ops c Hc) as Hends.
  pose proof (fun e => run_failed ops e c Hc) as Hfailed. destruct (run_control ops c) as [outcomes c']. cbn [fst snd] in *.
  pose proof (told_life _ _ Hc Hlife) as Hc'. split; [done|]. split; [exact Hends|]. split; [exact Hfailed|]. split; [|by apply drop_fate].
  destruct (finish_ends collected c' Hc') as (initial & ended & summary & c'' & Hrun & Hf & Hok & Hend). exists ended, summary, c''. split; [exact Hrun|].
  destruct ended as [[]|e]; cbn in Hend.
  - destruct Hend as [Hi Hp]. split; [by apply Hok|exact Hp].
  - destruct Hend as [Hp He]. split; [exact Hp|]. intros f Hff. by apply He, Hf.
Qed.
End fate.

(** ** A recording that fails *)

#[local] Existing Instances mark_sink dying_kernel host_unwinders host_order dying_scan dying_perf.
(** Flushing always succeeds; a mark takes ten bytes. *)
#[local] Instance mark_control : SpoolControl (gmap Z bool) := {|
  sc_failure _ := None;
  sc_flush := mret tt;
  sc_position s := 10 * Z.of_nat (size s);
  sc_open_reader _ := Err UnexpectedEof;
|}.
Definition python_control : Control (K := unit) (U := unit) (E := unit) (S := gmap Z bool) (P := unit) :=
  mkControl python_recorder false true true publisher_new 500 0 0 false 7 (mkPoll 0 true 1 false) None.
(** The rings cannot be read. *)
Definition broken : Collected := mkCollected [] [] false (Err PermissionDenied) false.

Lemma reader_is_told_the_fate_witness :
  let '(outcomes, c) := run_control (T := unit) [OpFlush nothing; OpPoll 10 broken nothing; OpResume; OpFlush nothing] python_control in
  outcomes = [Ok tt; Err PermissionDenied; Err PermissionDenied; Err PermissionDenied] /\
  ct_failure c = Some PermissionDenied /\ told (fate c) /\
  pub_status (ct_publisher (control_drop (T := unit) c)) = EndAborted (Some PermissionDenied).
Proof.
  pose proof (reader_is_told_the_fate (T := unit) [OpFlush nothing; OpPoll 10 broken nothing; OpResume; OpFlush nothing] python_control nothing
    ltac:(constructor)) as Hfate.
  destruct (run_control _ python_control) as [outcomes c] eqn:Hrun. destruct Hfate as ([_ Htold] & _ & _ & _ & Hdrop).
  assert ((outcomes, ct_failure c) = ([Ok tt; Err PermissionDenied; Err PermissionDenied; Err PermissionDenied], Some PermissionDenied)) as Heq.
  { assert ((outcomes, ct_failure c) = let '(outcomes, c) := run_control (T := unit) [OpFlush nothing; OpPoll 10 broken nothing; OpResume; OpFlush nothing] python_control in
      (outcomes, ct_failure c)) as -> by (rewrite Hrun; reflexivity). vm_compute. reflexivity. }
  injection Heq as -> Hf. rewrite Hf in Hdrop. exact (conj eq_refl (conj Hf (conj Htold Hdrop))).
Defined.

(** ** A process that dies while it is attached again *)

(** Attaching forgets the state without ending the mark: afterwards no process
    has PID 7 in the recorder, and the spool still says that it runs Python. *)
Example attach_forgets_python_mark :
  let '(outcome, c) := attach_process (T := unit) 7 AttachRunning nothing nothing python_control in
  outcome = Ok Exited /\ pt_states (cx_processes (rc_context (ct_recorder c))) !! 7 = None /\ last_mark (the_writer c) 7 = true.
Proof. vm_compute. repeat split. Qed.
