(* ===== verification/PerfMap.v ===== *)
(** * Resolved frames and perf maps

    [src/profile.rs], the frames that symbolisation produces, and
    [src/symbolize/perf_map.rs], the text files that name generated code. *)

From stdpp Require Import prelude list numbers strings sorting.
From S2P Require Import Prelude Contexts FdeIndex SortedKeys Text.
#[local] Open Scope Z_scope.

(** ** Resolved frames

    [src/profile.rs]: the frames that symbolisation produces.  A string is the
    list of its characters, and an index into it counts characters. *)

Inductive AddressSpace := SpaceUser | SpaceKernel.
Inductive SymbolOrigin := GdbJit | Elf | PerfMapOrigin | KernelSymbols | AddressOnly.

(** [FrameFlags]. *)
Definition FLAGS_EMPTY : Z := 0.
Definition PYTHON_RUNTIME : Z := Z.shiftl 1 0.
Definition HIDDEN_DEFAULT : Z := Z.shiftl 1 2.
Definition JIT : Z := Z.shiftl 1 3.
Definition flags_contain (flags other : Z) : bool := Z.land flags other =? other.

(** [basename_start]. *)
Definition basename_start (path : list Z) : nat := default 0%nat (S <$> rfind_char (λ c, c =? 47) path).
Definition basename (path : list Z) : list Z := drop (basename_start path) path.

Record PythonSourceLocation := mkPythonLocation {
  pl_line : option Z;
  pl_end_line : option Z;
  pl_column : option Z;
  pl_end_column : option Z;
}.
Definition python_location_default : PythonSourceLocation := mkPythonLocation None None None None.

Record PythonFrame := mkPythonFrame {
  pf_file_name : list Z;
  pf_location : PythonSourceLocation;
  pf_func_name : list Z;
  pf_opcode : option Z;
  pf_flags : Z;
  pf_basename_start : nat;
}.
Definition python_frame_new (file_name func_name : list Z) : PythonFrame :=
  mkPythonFrame file_name python_location_default func_name None FLAGS_EMPTY (basename_start file_name).
Definition python_with_flags (flags : Z) (f : PythonFrame) : PythonFrame :=
  mkPythonFrame (pf_file_name f) (pf_location f) (pf_func_name f) (pf_opcode f) flags (pf_basename_start f).
Definition python_basename (f : PythonFrame) : list Z := drop (pf_basename_start f) (pf_file_name f).

Record SourceLocation := mkSource {
  sl_file : option (list Z);
  sl_line : option Z;
  sl_column : option Z;
  sl_function_start_line : option Z;
  sl_function_start_column : option Z;
}.
Definition source_default : SourceLocation := mkSource None None None None None.

(** [is_eval_frame] of [src/symbols.rs]. *)
Definition EVAL_FRAME_SYMBOLS : list (list Z) := [chars "PyEval_EvalFrameDefault"; chars "PyEval_EvalFrameEx"].
Definition is_eval_frame (func_name : list Z) : bool :=
  existsb (λ sym, str_contains sym func_name) EVAL_FRAME_SYMBOLS
  || (has_prefix (chars "_TAIL_CALL_") func_name || has_prefix (chars "TAIL_CALL_") func_name)
     && str_contains (chars ".llvm.") func_name.

Record NativeSymbol := mkNativeSymbol {
  ns_name : list Z;
  ns_source : SourceLocation;
  ns_module : list Z;
  ns_offset : Z;
  ns_inline_depth : Z;
  ns_is_eval_frame : bool;
  ns_is_hidden_by_default : bool;
}.
Definition native_symbol_new (name module : list Z) : NativeSymbol :=
  mkNativeSymbol name source_default module 0 0 (is_eval_frame name) false.
Definition with_source (source : SourceLocation) (s : NativeSymbol) : NativeSymbol :=
  mkNativeSymbol (ns_name s) source (ns_module s) (ns_offset s) (ns_inline_depth s) (ns_is_eval_frame s)
    (ns_is_hidden_by_default s).
Definition with_offset (offset : Z) (s : NativeSymbol) : NativeSymbol :=
  mkNativeSymbol (ns_name s) (ns_source s) (ns_module s) offset (ns_inline_depth s) (ns_is_eval_frame s)
    (ns_is_hidden_by_default s).
Definition hidden_by_default (s : NativeSymbol) : NativeSymbol :=
  mkNativeSymbol (ns_name s) (ns_source s) (ns_module s) (ns_offset s) (ns_inline_depth s) (ns_is_eval_frame s) true.
Definition set_inline_depth (depth : nat) (s : NativeSymbol) : NativeSymbol :=
  mkNativeSymbol (ns_name s) (ns_source s) (ns_module s) (ns_offset s)
    (if Z.of_nat depth <=? u32_max then Z.of_nat depth else u32_max) (ns_is_eval_frame s) (ns_is_hidden_by_default s).

Record NativeFrame := mkNativeFrame {
  nf_pc : Z;
  nf_symbol : option NativeSymbol;
  nf_address_space : AddressSpace;
  nf_origin : SymbolOrigin;
  nf_flags : Z;
}.
Definition native_from_address (pc : Z) : NativeFrame := mkNativeFrame pc None SpaceUser AddressOnly FLAGS_EMPTY.
Definition native_name (f : NativeFrame) : option (list Z) := ns_name <$> nf_symbol f.
Definition is_python_runtime (f : NativeFrame) : bool := flags_contain (nf_flags f) PYTHON_RUNTIME.

Inductive Frame :=
  | FrameNative (f : NativeFrame)
  | FramePython (f : PythonFrame)
  | FrameTruncatedStack.
Definition frame_name (f : Frame) : option (list Z) :=
  match f with
  | FramePython f => Some (pf_func_name f)
  | FrameNative f => native_name f
  | FrameTruncatedStack => Some (chars "<stack truncated>")
  end.

(** [set_inline_depths] of [src/symbols.rs]: the innermost callee first. *)
Fixpoint set_inline_depths (symbols : list NativeSymbol) : list NativeSymbol :=
  match symbols with
  | [] => []
  | s :: symbols => set_inline_depth (length symbols) s :: set_inline_depths symbols
  end.

(** [NativeSymbols]: the inline chain of one lookup. *)
Inductive NativeSymbols :=
  | Unresolved
  | OneSymbol (symbol : NativeSymbol)
  | ManySymbols (symbols : list NativeSymbol).
Definition native_symbols_as_slice (s : NativeSymbols) : list NativeSymbol :=
  match s with Unresolved => [] | OneSymbol s => [s] | ManySymbols l => l end.
Definition native_symbols_is_empty (s : NativeSymbols) : bool := match s with Unresolved => true | _ => false end.
Definition native_symbols_from_one (s : NativeSymbol) : NativeSymbols := OneSymbol (set_inline_depth 0 s).
Definition native_symbols_from_vec (symbols : list NativeSymbol) : NativeSymbols :=
  match set_inline_depths symbols with
  | [] => Unresolved
  | [s] => OneSymbol s
  | symbols => ManySymbols symbols
  end.
Definition native_symbols_from_iter (symbols : list NativeSymbol) : NativeSymbols :=
  match symbols with
  | [] => Unresolved
  | [first] => native_symbols_from_one first
  | _ => native_symbols_from_vec symbols
  end.

(** Both ways of collecting a chain number it alike. *)
Lemma native_symbols_from_iter_vec symbols :
  native_symbols_from_iter symbols = native_symbols_from_vec symbols /\
  native_symbols_as_slice (native_symbols_from_vec symbols) = set_inline_depths symbols.
Proof. destruct symbols as [|a [|b symbols]]; done. Qed.

(** ** Perf maps

    [src/symbolize/perf_map.rs]: the text files in which runtimes announce the
    code they generate, their incremental reloading, and the lookup.  A lookup
    finds what a scan of all entries finds, and a map that was reloaded as its
    file grew is the map of the file. *)

(** ** Entries *)

Inductive PerfMapPayload :=
  | PayloadNative (name : list Z)
  | PayloadPython (function file : list Z).

Record PerfMapSymbol := mkPerfMapSymbol {
  ps_start : Z;
  ps_end : Z;
  ps_payload : PerfMapPayload;
}.

Definition MAX_PERF_MAP_SIZE : Z := 64 * 1024 * 1024.

(** [take_ascii_field]. *)
Definition take_ascii_field (input : list Z) : option (list Z * list Z) :=
  let input := trim_start_by is_ascii_whitespace input in
  stop ← find_char is_ascii_whitespace input;
  Some (take stop input, drop (stop + 1) input).

(** [rsplit_once(':')]. *)
Definition rsplit_once_colon (text : list Z) : option (list Z * list Z) :=
  i ← rfind_char (λ c, c =? 58) text; Some (take i text, drop (i + 1) text).

Definition strip_python_perf_map_line_suffix (file : list Z) : list Z :=
  match rsplit_once_colon file with
  | Some (path, line) =>
      if negb (bool_decide (path = [])) && negb (bool_decide (line = [])) && forallb is_ascii_digit line then path else file
  | None => file
  end.

Definition strip_prefix (prefix text : list Z) : option (list Z) :=
  if has_prefix prefix text then Some (drop (length prefix) text) else None.

Definition parse_python_perf_map_symbol (name : list Z) : option (list Z * list Z) :=
  body ← strip_prefix (chars "py::") name;
  let body := str_trim body in
  match body with
  | [] => None
  | _ =>
      let colon_index := find_char (λ c, c =? 58) body in
      let space_index := find_char (λ c, c =? 32) body in
      let split_at i := (take i body, drop (i + 1) body) in
      let '(func, file) :=
        match colon_index, space_index with
        | Some colon, Some space => if (colon <? space)%nat then split_at colon else split_at space
        | Some colon, None => split_at colon
        | None, Some space => split_at space
        | None, None => (body, chars "~")
        end in
      let func := str_trim func in
      match func with
      | [] => None
      | _ =>
          let file := strip_python_perf_map_line_suffix (str_trim file) in
          Some (func, match file with [] => chars "~" | _ => file end)
      end
  end.

(** [trim_start_matches("0x")], with as much fuel as there are characters. *)
Fixpoint trim_hex_prefix (fuel : nat) (text : list Z) : list Z :=
  match fuel with
  | O => text
  | S fuel => if has_prefix (chars "0x") text then trim_hex_prefix fuel (drop 2 text) else text
  end.
Definition parse_hex_field (text : list Z) : option Z := from_str_radix u64_max 16 (trim_hex_prefix (length text) text).

Definition parse_perf_map_line (line : list Z) : option PerfMapSymbol :=
  '(start, rest) ← take_ascii_field line;
  '(len, name) ← take_ascii_field rest;
  match name with
  | [] => None
  | _ =>
      start ← parse_hex_field start;
      len ← parse_hex_field len;
      if len =? 0 then None
      else
        stop ← checked_add_u64 start len;
        Some (mkPerfMapSymbol start stop
          (match parse_python_perf_map_symbol name with
           | Some (function, file) => PayloadPython function file
           | None => PayloadNative name
           end))
  end.

(** ** Maps *)

Record ParsedPerfMapText := mkParsedText { pt_text : list Z; pt_unterminated_start : option Z }.
Record PerfMap := mkPerfMap {
  pm_symbols : list PerfMapSymbol;
  pm_max_end : list Z;
  pm_module : list Z;
  pm_parsed : option ParsedPerfMapText;
}.

(** The running maximum of the ends. *)
Fixpoint running_max (max : Z) (symbols : list PerfMapSymbol) : list Z :=
  match symbols with
  | [] => []
  | s :: symbols => Z.max (ps_end s) max :: running_max (Z.max (ps_end s) max) symbols
  end.

Definition perf_map_new (symbols : list PerfMapSymbol) (module : list Z) (parsed : option ParsedPerfMapText) : PerfMap :=
  let symbols := sort_by_key ps_start symbols in
  mkPerfMap symbols (running_max 0 symbols) module parsed.

(** The file as [open], [metadata] and [read_to_end] find it. *)
Record PerfMapFile := mkPerfMapFile {
  mf_is_file : bool;
  mf_is_fifo : bool;
  mf_len : Z;
  mf_bytes : option (list Z);
}.

(** The bytes up to and including the last line feed, and the rest. *)
Definition split_complete (bytes : list Z) : list Z * list Z :=
  let at_ := default 0%nat (S <$> rfind_char (λ b, b =? newline) bytes) in
  (take at_ bytes, drop at_ bytes).

(** Dropping the entry of the unterminated line; [None] is an index below zero. *)
Definition remove_unterminated (unterminated_start : option Z) (symbols : list PerfMapSymbol) : option (list PerfMapSymbol) :=
  match unterminated_start with
  | None => Some symbols
  | Some start =>
      match partition_point (λ s, ps_start s <=? start) symbols with
      | O => None
      | S i => Some (delete i symbols)
      end
  end.

Definition parse_lines (bytes : list Z) : list PerfMapSymbol := omap parse_perf_map_line (str_lines (from_utf8_lossy bytes)).

(** What [load_perf_map] does with the bytes it has read; [None] is a panic. *)
Definition load_bytes (path bytes : list Z) (previous : option PerfMap) (reloadable : bool) : option PerfMap :=
  '(symbols, offset) ← match previous with
                       | Some (mkPerfMap symbols _ _ (Some parsed)) =>
                           if has_prefix (pt_text parsed) bytes then
                             symbols ← remove_unterminated (pt_unterminated_start parsed) symbols;
                             Some (symbols, length (pt_text parsed))
                           else Some ([], 0%nat)
                       | _ => Some ([], 0%nat)
                       end;
  let '(complete, unterminated) := split_complete (drop offset bytes) in
  let symbols := symbols ++ parse_lines complete in
  let unterminated := head (parse_lines unterminated) in
  let unterminated_start := ps_start <$> unterminated in
  let symbols := symbols ++ option_list unterminated in
  Some (perf_map_new symbols path
    (if reloadable then Some (mkParsedText (take (offset + length complete) bytes) unterminated_start) else None)).

(** [load_perf_map]: the outer [None] is a panic, the inner one a file that is
    missing, unreadable or too long.  Reading one byte more than the limit shows
    a length above it. *)
Definition load_perf_map (path : list Z) (file : option PerfMapFile) (previous : option PerfMap) (reloadable : bool)
    : option (option PerfMap) :=
  match file with
  | None => Some None
  | Some f =>
      if negb (mf_is_file f) || mf_is_fifo f || (MAX_PERF_MAP_SIZE <? mf_len f) then Some None
      else
        match mf_bytes f with
        | None => Some None
        | Some bytes =>
            if MAX_PERF_MAP_SIZE <? Z.of_nat (length bytes) then Some None
            else map ← load_bytes path bytes previous reloadable; Some (Some map)
        end
  end.

(** ** Lookup *)

(** [take_while] on the bound, then [find], over the candidates from the last. *)
Fixpoint find_back (address : Z) (l : list (PerfMapSymbol * Z)) : option PerfMapSymbol :=
  match l with
  | [] => None
  | (symbol, max_end) :: l =>
      if address <? max_end then if address <? ps_end symbol then Some symbol else find_back address l else None
  end.

Definition find_perf_map_symbol (m : PerfMap) (address : Z) : option (PerfMapSymbol * list Z) :=
  let candidates := partition_point (λ s, ps_start s <=? address) (pm_symbols m) in
  symbol ← find_back address (reverse (zip (take candidates (pm_symbols m)) (take candidates (pm_max_end m))));
  Some (symbol, pm_module m).

Definition perf_map_symbol_to_frame (abs_ip : Z) (symbol : PerfMapSymbol) (module : list Z) : Frame :=
  match ps_payload symbol with
  | PayloadPython function file => FramePython (python_with_flags JIT (python_frame_new file function))
  | PayloadNative name =>
      FrameNative (mkNativeFrame abs_ip
        (Some (with_offset (Z.max 0 (abs_ip - ps_start symbol)) (native_symbol_new name module)))
        SpaceUser PerfMapOrigin JIT)
  end.

Definition is_perf_map_mapping (path : list Z) : bool :=
  bool_decide (path = chars "//anon") || bool_decide (path = chars "[anon]") || has_prefix (chars "[anon:") path
  || bool_decide (path = chars "[heap]") || has_prefix (chars "[stack") path || has_prefix (chars "/dev/zero") path
  || has_prefix (chars "/anon_hugepage") path || has_prefix (chars "/SYSV") path.

(** ** Lookups scan all entries *)

Definition contains (address : Z) (s : PerfMapSymbol) : Prop := ps_start s <= address < ps_end s.
#[global] Instance contains_dec address s : Decision (contains address s).
Proof. unfold contains. apply _. Defined.

Definition max_of (max : Z) (l : list PerfMapSymbol) : Z := foldl (λ m s, Z.max (ps_end s) m) max l.

Lemma running_max_snoc l s : forall m, running_max m (l ++ [s]) = running_max m l ++ [Z.max (ps_end s) (max_of m l)].
Proof. induction l as [|x l IH]; intros m; [done|]. cbn. by rewrite IH. Qed.

Lemma running_max_take l n : forall m, take n (running_max m l) = running_max m (take n l).
Proof. revert n. induction l as [|x l IH]; intros [|n] m; [done..|]. cbn. by rewrite IH. Qed.

Lemma running_max_length l : forall m, length (running_max m l) = length l.
Proof. induction l as [|x l IH]; intros m; [done|]. cbn. by rewrite IH. Qed.

Lemma max_of_above l s m : s ∈ l -> ps_end s <= max_of m l.
Proof.
  induction l as [|x l IH] using rev_ind; intros Hin; [by apply elem_of_nil in Hin|].
  unfold max_of in *. rewrite foldl_app. cbn. apply elem_of_app in Hin as [Hin|Hin%list_elem_of_singleton].
  - specialize (IH Hin). lia.
  - subst. lia.
Qed.

(** Stopping where no entry before reaches the address misses none. *)
Lemma find_back_last l address : find_back address (reverse (zip l (running_max 0 l))) = list.last (filter (λ s, address < ps_end s) l).
Proof.
  induction l as [|s l IH] using rev_ind; [done|].
  rewrite running_max_snoc, zip_with_app by (by rewrite running_max_length). rewrite reverse_app. cbn [zip_with reverse rev_append app].
  change (reverse [?x]) with [x]. cbn [app find_back]. rewrite filter_app.
  destruct (Z.ltb_spec address (Z.max (ps_end s) (max_of 0 l))) as [Hlt|Hge].
  - destruct (Z.ltb_spec address (ps_end s)) as [Hs|Hs].
    + rewrite (filter_cons_True _ s []) by done. by rewrite filter_nil, last_snoc.
    + rewrite (filter_cons_False _ s []) by lia. by rewrite filter_nil, app_nil_r, IH.
  - rewrite (filter_none _ l), (filter_none _ [s]); [done|..].
    + intros x Hx%list_elem_of_singleton. subst. lia.
    + intros x Hx. pose proof (max_of_above l x 0 Hx). lia.
Qed.

(** For every address, the binary search over the sorted entries with the
    early stop at the running maximum finds what a scan of all entries in file
    order finds: of the entries whose range holds the address, the one that starts
    last, and of several with that start the one announced last; and it reports a
    symbol exactly when some entry holds the address. *)
Theorem perf_map_lookup_is_scan symbols module parsed address :
  find_perf_map_symbol (perf_map_new symbols module parsed) address =
  (λ s, (s, module)) <$> top ps_start (filter (contains address) symbols).
Proof.
  unfold find_perf_map_symbol, perf_map_new. cbn [pm_symbols pm_max_end pm_module].
  rewrite running_max_take, take_partition_filter by apply ascending_keys_sorted, sort_by_key_sorted.
  rewrite find_back_last, list_filter_filter.
  rewrite (list_filter_iff _ (contains address)) by (unfold contains; intros x; tauto).
  rewrite sort_by_key_filter, sort_by_key_last. by destruct (top ps_start _).
Qed.

(** ** Reloading *)

Lemma split_complete_spec bytes :
  let '(x, y) := split_complete bytes in bytes = x ++ y /\ whole_lines x /\ newline ∉ y.
Proof.
  unfold split_complete. destruct (rfind_char (λ b, b =? newline) bytes) as [i|] eqn:Hi.
  - apply rfind_char_Some in Hi as (a & c & b & -> & <- & Hc & Hb). apply Z.eqb_eq in Hc as ->. cbn [fmap option_fmap option_map default from_option id].
    rewrite cons_middle, app_assoc. rewrite (take_app_length' (a ++ [newline])), (drop_app_length' (a ++ [newline])) by (rewrite length_app; cbn; lia).
    split_and!; [done|right; by eexists|]. rewrite list.Forall_forall in Hb. intros Hin. by apply Hb in Hin.
  - cbn. rewrite take_0, drop_0. split_and!; [done|by left|]. apply rfind_char_None in Hi. rewrite list.Forall_forall in Hi. intros Hin.
    by apply Hi in Hin.
Qed.

Lemma split_complete_unique x y : whole_lines x -> newline ∉ y -> split_complete (x ++ y) = (x, y).
Proof.
  intros Hx Hy. pose proof (split_complete_spec (x ++ y)) as Hs. destruct (split_complete (x ++ y)) as [x' y'].
  destruct Hs as (Heq & Hx' & Hy'). assert (forall a b c d : list Z, whole_lines a -> newline ∉ d -> a ++ b = c ++ d -> (length c <= length a)%nat -> a = c /\ b = d) as Hone.
  { intros a b c d Ha Hd Hab Hlen. assert (exists l, a = c ++ l /\ d = l ++ b) as (l & -> & ->).
    { exists (drop (length c) a). split.
      - rewrite <-(take_drop (length c) a) at 1. f_equal. rewrite <-(take_app_le a b), Hab by done. apply take_app_length.
      - rewrite <-(drop_app_le a b), Hab by done. by rewrite drop_app_length. }
    destruct l as [|z l _] using rev_ind; [by rewrite app_nil_r|]. exfalso. apply Hd. destruct Ha as [Ha|[t Ha]].
    - by destruct c, l.
    - rewrite app_assoc in Ha. apply app_inj_tail in Ha as [_ ->]. apply elem_of_app. left. apply elem_of_app. right. by left. }
  destruct (decide (length x <= length x')%nat) as [Hle|Hgt].
  - destruct (Hone x' y' x y) as [-> ->]; done.
  - destruct (Hone x y x' y') as [-> ->]; [done|done|done|lia|done].
Qed.

(** The map of a file's bytes. *)
Definition fresh_map (path bytes : list Z) (reloadable : bool) : PerfMap :=
  let '(complete, unterminated) := split_complete bytes in
  let unterminated := head (parse_lines unterminated) in
  perf_map_new (parse_lines complete ++ option_list unterminated) path
    (if reloadable then Some (mkParsedText complete (ps_start <$> unterminated)) else None).

Lemma load_bytes_fresh path bytes reloadable : load_bytes path bytes None reloadable = Some (fresh_map path bytes reloadable).
Proof.
  unfold load_bytes, fresh_map. cbn [mbind option_bind]. rewrite drop_0. pose proof (split_complete_spec bytes) as Hs.
  destruct (split_complete bytes) as [x y]. destruct Hs as (-> & _ & _). cbn [app Nat.add]. by rewrite take_app_length.
Qed.

Lemma remove_unterminated_sort symbols unterminated :
  remove_unterminated (ps_start <$> unterminated) (sort_by_key ps_start (symbols ++ option_list unterminated)) =
  Some (sort_by_key ps_start symbols).
Proof.
  destruct unterminated as [u|]; cbn [fmap option_fmap option_map remove_unterminated]; [|unfold option_list; by rewrite app_nil_r].
  change (option_list (Some u)) with [u]. rewrite sort_by_key_snoc. destruct (insert_by_key_position ps_start u _ (sort_by_key_sorted ps_start symbols)) as (i & -> & Hd).
  by rewrite Hd.
Qed.

(** Parsing only what was appended gives the map of the whole file. *)
Lemma load_bytes_again path bytes bytes' reloadable reloadable' :
  load_bytes path bytes' (Some (fresh_map path bytes reloadable)) reloadable' = Some (fresh_map path bytes' reloadable').
Proof.
  rewrite <-(load_bytes_fresh path bytes' reloadable'). unfold fresh_map. pose proof (split_complete_spec bytes) as Hs.
  destruct (split_complete bytes) as [x y]. destruct Hs as (_ & Hx & _). unfold perf_map_new, load_bytes at 1.
  destruct reloadable; [|done]. cbn [pt_text pt_unterminated_start]. unfold has_prefix. case_bool_decide as Hpre; [|done].
  rewrite remove_unterminated_sort. cbn [mbind option_bind].
  assert (bytes' = x ++ drop (length x) bytes') as Hb by (rewrite <-Hpre at 1; by rewrite take_drop).
  rewrite load_bytes_fresh. unfold fresh_map. pose proof (split_complete_spec (drop (length x) bytes')) as Hs'.
  destruct (split_complete (drop (length x) bytes')) as [c u]. destruct Hs' as (Hd & Hc & Hu). rewrite Hd in Hb.
  assert (whole_lines (x ++ c)) as Hxc.
  { destruct Hc as [->|[t ->]]; [by rewrite app_nil_r|]. right. exists (x ++ t). by rewrite app_assoc. }
  assert (split_complete bytes' = (x ++ c, u)) as -> by (rewrite Hb, app_assoc; by apply split_complete_unique).
  assert (parse_lines (x ++ c) = parse_lines x ++ parse_lines c) as ->.
  { unfold parse_lines. by rewrite decoded_lines_app, omap_app. }
  assert (take (length x + length c) bytes' = x ++ c) as ->.
  { rewrite Hb, app_assoc. apply take_app_length'. by rewrite length_app. }
  rewrite <-!app_assoc. unfold perf_map_new. by rewrite sort_by_key_app.
Qed.

(** The states of a map as its file is loaded again and again. *)
Fixpoint reload_all (path : list Z) (files : list (option PerfMapFile)) (previous : option PerfMap) : option (option PerfMap) :=
  match files with
  | [] => Some previous
  | file :: files => map ← load_perf_map path file previous true; reload_all path files map
  end.

Definition fresh_or_none (path : list Z) (m : option PerfMap) : Prop :=
  match m with None => True | Some m => exists bytes, m = fresh_map path bytes true end.

Lemma load_fresh_or_none path file previous reloadable :
  fresh_or_none path previous ->
  load_perf_map path file previous reloadable = load_perf_map path file None reloadable /\
  exists m, load_perf_map path file previous reloadable = Some m /\ (reloadable = true -> fresh_or_none path m).
Proof.
  intros Hp. unfold load_perf_map. destruct file as [f|]; [|by split; [|exists None]]. case_match; [by split; [|exists None]|].
  destruct (mf_bytes f) as [bytes|]; [|by split; [|exists None]]. case_match; [by split; [|exists None]|].
  assert (load_bytes path bytes previous reloadable = Some (fresh_map path bytes reloadable)) as ->.
  { destruct previous as [m|]; [|apply load_bytes_fresh]. destruct Hp as [old ->]. apply load_bytes_again. }
  rewrite load_bytes_fresh. split; [done|]. eexists. split; [done|]. intros ->. by eexists.
Qed.

Lemma reload_all_fresh path files : forall previous,
  fresh_or_none path previous -> exists m, reload_all path files previous = Some m /\ fresh_or_none path m.
Proof.
  induction files as [|file files IH]; intros previous Hp; [by eauto|]. cbn [reload_all].
  destruct (load_fresh_or_none path file previous true Hp) as (_ & m & -> & Hm). apply IH. by apply Hm.
Qed.

(** C25: however a perf map's file changed from load to load (lines appended, a
    line completed, rewritten, truncated, gone), loading never panics and gives
    the map that a first load of the file as it is now gives. *)
Theorem reloaded_map_is_file_map path files file reloadable :
  exists previous m, reload_all path files None = Some previous /\
    load_perf_map path file previous reloadable = Some m /\ load_perf_map path file None reloadable = Some m.
Proof.
  destruct (reload_all_fresh path files None I) as (previous & Hr & Hp).
  destruct (load_fresh_or_none path file previous reloadable Hp) as (Heq & m & Hm & _).
  exists previous, m. split_and!; [done|done|]. by rewrite <-Heq.
Qed.

(** ** Examples *)

Example python_entry_drops_line_number :
  parse_python_perf_map_symbol (chars "py::work:/tmp/file:version:123") = Some (chars "work", chars "/tmp/file:version").
Proof. by vm_compute. Qed.

Example entry_fields_accept_white_space :
  parse_perf_map_line (chars "  1000  0x10  controlled name") = Some (mkPerfMapSymbol 4096 4112 (PayloadNative (chars " controlled name"))).
Proof. by vm_compute. Qed.

Example overflowing_entry_is_rejected : parse_perf_map_line (chars "1000 ffffffffffffffff symbol") = None.
Proof. by vm_compute. Qed.

Example invalid_name_is_decoded :
  ps_payload <$> parse_lines (chars "2000 10 bad_" ++ [255; newline]) = [PayloadNative (chars "bad_" ++ [REPLACEMENT])].
Proof. by vm_compute. Qed.

(** A completed line replaces its partial entry. *)
Example completed_line_replaces_partial_entry :
  let before := chars "1000 10 a" ++ [newline] ++ chars "2000 10 na" in
  let after := before ++ chars "me" ++ [newline] in
  (m ← load_bytes [] before None true; m ← load_bytes [] after (Some m) true; Some (ps_payload <$> pm_symbols m)) =
  Some [PayloadNative (chars "a"); PayloadNative (chars "name")].
Proof. by vm_compute. Qed.
