(* ===== verification/ElfBase.v ===== *)
(** * Image bases

    [crates/stackpulse-jit/src/elf.rs], [src/elf/mod.rs] and [src/module_base.rs]:
    which load segment a mapping of an ELF file belongs to, the bias between the
    addresses of the file and of the process, and the translation of addresses. *)

From stdpp Require Import prelude list numbers.
From S2P Require Import Prelude Contexts FdeIndex SortedKeys.
#[local] Open Scope Z_scope.

(** ** Segments and ranges *)

Record LoadSegment := mkSegment {
  p_offset : Z;
  p_filesz : Z;
  p_memsz : Z;
  p_vaddr : Z;
  p_flags : Z;
}.
#[global] Instance LoadSegment_eq_dec : EqDecision LoadSegment.
Proof. solve_decision. Defined.

Record FileRange := mkFileRange { fr_start : Z; fr_size : Z }.
Definition fr_end (r : FileRange) : option Z := checked_add_u64 (fr_start r) (fr_size r).
Definition fr_is_valid (r : FileRange) : bool := negb (fr_size r =? 0) && bool_decide (is_Some (fr_end r)).
Definition fr_contains (r other : FileRange) : bool :=
  match fr_end r, fr_end other with
  | Some stop, Some other_stop =>
      negb (fr_size r =? 0) && negb (fr_size other =? 0) && (fr_start r <=? fr_start other) && (other_stop <=? stop)
  | _, _ => false
  end.
Definition fr_contains_value (r : FileRange) (value : Z) : bool :=
  match fr_end r with Some stop => (fr_start r <=? value) && (value <? stop) | None => false end.
Definition correlates_with (r other : FileRange) : bool := fr_contains r other || fr_contains other r.
Definition is_multiple_of (a b : Z) : bool := a mod b =? 0.
Definition is_page_aligned (r : FileRange) (page : Z) : bool :=
  is_multiple_of (fr_start r) page && (page <=? fr_size r) && is_multiple_of (fr_size r) page.

(** [PageSize]. *)
Definition align_down (page value : Z) : Z := value - value mod page.
Definition align_up (page value : Z) : option Z :=
  if value mod page =? 0 then Some value else checked_add_u64 value (page - value mod page).
Definition page_floor_start (r : FileRange) (page : Z) : Z := align_down page (fr_start r).
Definition page_ceil_end (r : FileRange) (page : Z) : option Z := stop ← fr_end r; align_up page stop.
Definition page_rounded_contains_value (r : FileRange) (value page : Z) : bool :=
  negb (fr_size r =? 0)
  && match page_ceil_end r page with
     | Some stop => (page_floor_start r page <=? value) && (value <? stop)
     | None => false
     end.

Definition file_range (s : LoadSegment) : FileRange := mkFileRange (p_offset s) (p_filesz s).
Definition has_file_contribution (s : LoadSegment) : bool := fr_is_valid (file_range s).

Definition contains_page_rounded_head (s : LoadSegment) (mapping : FileRange) (page : Z) : bool :=
  let segment := file_range s in
  match fr_end segment, fr_end mapping with
  | Some segment_end, Some mapping_end =>
      ((page_floor_start segment page <=? fr_start mapping) && (fr_start mapping <? fr_start segment))
      && ((fr_start segment <? mapping_end) && (mapping_end <=? segment_end))
  | _, _ => false
  end.
Definition contains_page_rounded_tail (s : LoadSegment) (mapping : FileRange) (page : Z) : bool :=
  let segment := file_range s in
  match fr_end segment, fr_end mapping, page_ceil_end segment page with
  | Some segment_end, Some mapping_end, Some page_end =>
      fr_contains_value segment (fr_start mapping) && ((segment_end <? mapping_end) && (mapping_end <=? page_end))
  | _, _, _ => false
  end.
Definition correlates_with_mapping (s : LoadSegment) (mapping : FileRange) (page : Z) : bool :=
  if negb (fr_is_valid mapping) then false
  else if correlates_with (file_range s) mapping then true
  else if negb (is_page_aligned mapping page) then false
  else contains_page_rounded_head s mapping page || contains_page_rounded_tail s mapping page.

(** ** The segment of a mapping *)

Definition segment_bias (s : LoadSegment) : Z := p_vaddr s - p_offset s.

Record Candidates := mkCandidates {
  ca_exact : option LoadSegment;
  ca_start_bias : option Z;
  ca_start_ambiguous : bool;
  ca_fallback : option LoadSegment;
  ca_fallback_bias : option Z;
  ca_fallback_ambiguous : bool;
}.
Definition no_candidates : Candidates := mkCandidates None None false None None false.

(** A bias against the one seen first. *)
Definition observe_bias (bias : Z) (seen : option Z) (ambiguous : bool) : option Z * bool :=
  match seen with
  | None => (Some bias, ambiguous)
  | Some previous => (Some previous, if negb (previous =? bias) then true else ambiguous)
  end.

Definition is_start_candidate (file_off page : Z) (s : LoadSegment) : bool :=
  (p_offset s =? file_off)
  || (is_multiple_of file_off page && page_rounded_contains_value (file_range s) file_off page).

(** One round of the loop, for a segment with a file contribution. *)
Definition observe_segment (mapping : FileRange) (page : Z) (c : Candidates) (s : LoadSegment) : Candidates :=
  if negb (correlates_with_mapping s mapping page) then c
  else
    let bias := segment_bias s in
    let is_exact := p_offset s =? fr_start mapping in
    let '(start_bias, start_ambiguous) :=
      if is_start_candidate (fr_start mapping) page s then observe_bias bias (ca_start_bias c) (ca_start_ambiguous c)
      else (ca_start_bias c, ca_start_ambiguous c) in
    if is_exact then
      mkCandidates (match ca_exact c with Some e => Some e | None => Some s end) start_bias start_ambiguous
        (ca_fallback c) (ca_fallback_bias c) (ca_fallback_ambiguous c)
    else
      let '(fallback_bias, fallback_ambiguous) := observe_bias bias (ca_fallback_bias c) (ca_fallback_ambiguous c) in
      mkCandidates (ca_exact c) start_bias start_ambiguous
        (match ca_fallback_bias c with None => Some s | Some _ => ca_fallback c end) fallback_bias fallback_ambiguous.

Definition find_load_contribution_for_file_range_with_page_size (segments : list LoadSegment) (file_off mapping_span page : Z)
    : option LoadSegment :=
  if page =? 0 then None
  else
    let c := foldl (observe_segment (mkFileRange file_off mapping_span) page) no_candidates (filter has_file_contribution segments) in
    match ca_exact c with
    | Some exact => if ca_start_ambiguous c then None else Some exact
    | None => if ca_fallback_ambiguous c then None else ca_fallback c
    end.

(** [compute_vma_bias]. *)
Definition wrap_u64 (n : Z) : Z := n mod 2 ^ 64.
Definition compute_vma_bias (reference_file_offset reference_svma mapping_start_file_offset mapping_start_avma : Z) : Z :=
  let file_delta := wrap_u64 (reference_file_offset - mapping_start_file_offset) in
  let reference_avma := wrap_u64 (mapping_start_avma + file_delta) in
  wrap_u64 (reference_avma - reference_svma).

(** ** Bases *)

Record ModuleImageBase := mkImageBase { ib_avma : Z; ib_svma : Z }.
Definition relative_address (b : ModuleImageBase) (avma : Z) : option Z := checked_sub_u64 avma (ib_avma b).
Definition svma_for_avma (b : ModuleImageBase) (avma : Z) : option Z :=
  relative ← relative_address b avma; checked_add_u64 (ib_svma b) relative.

(** The fields of [ElfSectionInfo] that the resolution reads. *)
Record ImageLayout := mkLayout {
  il_base_svma : Z;
  il_text_svma : option (Z * Z);
  il_text_file_range : option (Z * Z);
  il_load_segments : list LoadSegment;
}.

Definition resolve_mapping_image_base (info : ImageLayout) (mapping_start_file_offset mapping_start_avma mapping_span page : Z)
    : option ModuleImageBase :=
  '(svma, file_offset) ←
    match find_load_contribution_for_file_range_with_page_size (il_load_segments info) mapping_start_file_offset mapping_span page with
    | Some segment => Some (p_vaddr segment, p_offset segment)
    | None =>
        if bool_decide (il_load_segments info = []) then
          '(text_svma, _) ← il_text_svma info;
          '(text_start, text_end) ← il_text_file_range info;
          if correlates_with (mkFileRange text_start (Z.max 0 (text_end - text_start)))
               (mkFileRange mapping_start_file_offset mapping_span)
          then Some (text_svma, text_start) else None
        else None
    end;
  let image_bias := compute_vma_bias file_offset svma mapping_start_file_offset mapping_start_avma in
  Some (mkImageBase (wrap_u64 (il_base_svma info + image_bias)) (il_base_svma info)).

(** ** What the loader reads of the headers *)

(** The fields of [goblin]'s [ProgramHeader] that are used. *)
Record ProgramHeader := mkProgramHeader {
  ph_type : Z;
  ph_segment : LoadSegment;
}.
Definition PT_LOAD : Z := 1.
Definition collect_program_load_segments (headers : list ProgramHeader) : list LoadSegment :=
  sort_by_key p_offset (ph_segment <$> filter (λ ph, ph_type ph = PT_LOAD) headers).
Definition calculate_base_svma (headers : list ProgramHeader) : Z :=
  match filter (λ ph, ph_type ph = PT_LOAD) headers with
  | ph :: _ => p_vaddr (ph_segment ph)
  | [] => 0
  end.

(** ** The resolved base is the load bias *)

(** The first of some biases, and whether another one differs. *)
Definition watch (l : list Z) : option Z * bool := foldl (λ '(seen, ambiguous) bias, observe_bias bias seen ambiguous) (None, false) l.

Lemma watch_snoc l b : watch (l ++ [b]) = observe_bias b (watch l).1 (watch l).2.
Proof. unfold watch. rewrite foldl_app. cbn. by destruct (foldl _ _ l). Qed.

Lemma watch_spec l : (watch l).1 = head l /\ ((watch l).2 = false <-> forall b, b ∈ l -> head l = Some b).
Proof.
  induction l as [|b l [IH1 IH2]] using rev_ind.
  { split; [done|]. split; [|done]. intros _ b Hb. by apply elem_of_nil in Hb. }
  rewrite watch_snoc, IH1. destruct l as [|x l]; cbn [head app] in *; unfold observe_bias.
  - cbn. split; [done|]. split; [intros _ c Hc%list_elem_of_singleton; by subst|]. intros _. apply IH2. intros c Hc. by apply elem_of_nil in Hc.
  - cbn [fst snd]. split; [done|]. destruct (Z.eqb_spec x b) as [->|Hne]; cbn [negb].
    + rewrite IH2. split; intros H c Hc.
      * change (b :: l ++ [b]) with ((b :: l) ++ [b]) in Hc. apply elem_of_app in Hc as [Hc|Hc%list_elem_of_singleton]; [by apply H|by subst].
      * apply H. change (b :: l ++ [b]) with ((b :: l) ++ [b]). apply elem_of_app. by left.
    + split; [done|]. intros H. exfalso. apply Hne. assert (Some x = Some b) as [=]; [|done].
      apply H. change (x :: l ++ [b]) with ((x :: l) ++ [b]). apply elem_of_app. right. by left.
Qed.

Section candidates.
Context (mapping : FileRange) (page : Z).
Definition correlated (s : LoadSegment) : Prop := correlates_with_mapping s mapping page = true.
Definition at_start (s : LoadSegment) : Prop := correlated s /\ is_start_candidate (fr_start mapping) page s = true.
Definition exact_start (s : LoadSegment) : Prop := correlated s /\ p_offset s = fr_start mapping.
Definition not_exact (s : LoadSegment) : Prop := correlated s /\ p_offset s <> fr_start mapping.
#[local] Instance correlated_dec s : Decision (correlated s).
Proof. unfold correlated. apply _. Defined.
#[local] Instance at_start_dec s : Decision (at_start s).
Proof. unfold at_start. apply _. Defined.
#[local] Instance exact_start_dec s : Decision (exact_start s).
Proof. unfold exact_start. apply _. Defined.
#[local] Instance not_exact_dec s : Decision (not_exact s).
Proof. unfold not_exact. apply _. Defined.

(** The loop keeps the first of the exact segments and of the others, and
    watches the biases of both and of those at the start. *)
Definition candidates_of (l : list LoadSegment) : Candidates :=
  let '(start_bias, start_ambiguous) := watch (segment_bias <$> filter at_start l) in
  let '(fallback_bias, fallback_ambiguous) := watch (segment_bias <$> filter not_exact l) in
  mkCandidates (head (filter exact_start l)) start_bias start_ambiguous (head (filter not_exact l)) fallback_bias fallback_ambiguous.

Lemma head_snoc {A} (l : list A) x : head (l ++ [x]) = match head l with Some y => Some y | None => Some x end.
Proof. by destruct l. Qed.

Lemma observe_candidates l : foldl (observe_segment mapping page) no_candidates l = candidates_of l.
Proof.
  induction l as [|s l IH] using rev_ind; [done|]. rewrite foldl_app, IH. cbn [foldl]. unfold candidates_of.
  rewrite !(filter_snoc _ l s).
  pose proof (watch_spec (segment_bias <$> filter not_exact l)) as [Hw _].
  destruct (decide (correlated s)) as [Hc|Hc].
  2: { unfold observe_segment. rewrite (proj1 (not_true_iff_false _) Hc). cbn [negb].
       rewrite !decide_False by (unfold at_start, exact_start, not_exact; tauto). rewrite !app_nil_r.
       by destruct (watch (segment_bias <$> filter at_start l)), (watch (segment_bias <$> filter not_exact l)). }
  unfold observe_segment. rewrite Hc. cbn [negb].
  assert (is_start_candidate (fr_start mapping) page s = bool_decide (at_start s)) as ->.
  { case_bool_decide as Ha; [apply Ha|]. apply not_true_iff_false. intros ?. by apply Ha. }
  assert ((p_offset s =? fr_start mapping) = bool_decide (exact_start s)) as ->.
  { case_bool_decide as Ha; [apply Z.eqb_eq, Ha|]. apply Z.eqb_neq. intros ?. by apply Ha. }
  assert (not_exact s <-> ~ exact_start s) as Hne by (unfold not_exact, exact_start; tauto).
  assert (forall P : Prop, forall (d : Decision P), watch (segment_bias <$> filter at_start l ++ (if d then [s] else [])) =
    if d then observe_bias (segment_bias s) (watch (segment_bias <$> filter at_start l)).1 (watch (segment_bias <$> filter at_start l)).2
    else watch (segment_bias <$> filter at_start l)) as Hstart.
  { intros P [|]; [rewrite fmap_app; apply watch_snoc|by rewrite app_nil_r]. }
  rewrite Hstart. rewrite !bool_decide_decide. destruct (decide (exact_start s)) as [He|He].
  - rewrite (decide_False (P := not_exact s)) by tauto. rewrite !app_nil_r, head_snoc.
    destruct (watch (segment_bias <$> filter at_start l)) as [w1 w2], (watch (segment_bias <$> filter not_exact l)) as [v1 v2].
    cbn [ca_exact ca_start_bias ca_start_ambiguous ca_fallback ca_fallback_bias ca_fallback_ambiguous fst snd].
    by destruct (decide (at_start s)), (observe_bias (segment_bias s) w1 w2).
  - rewrite (decide_True (P := not_exact s)) by tauto. rewrite app_nil_r, fmap_app, head_snoc.
    change (segment_bias <$> [s]) with [segment_bias s]. rewrite watch_snoc.
    destruct (watch (segment_bias <$> filter at_start l)) as [w1 w2], (watch (segment_bias <$> filter not_exact l)) as [v1 v2].
    cbn [ca_exact ca_start_bias ca_start_ambiguous ca_fallback ca_fallback_bias ca_fallback_ambiguous fst snd] in *. subst v1.
    destruct (filter not_exact l) as [|t lt]; cbn [head fmap list_fmap];
      destruct (decide (at_start s)), (observe_bias (segment_bias s) w1 w2); by destruct (observe_bias (segment_bias s) _ v2).
Qed.

(** A found segment has the bias of every segment at the start of the mapping. *)
Lemma found_bias segments e t :
  page <> 0 ->
  find_load_contribution_for_file_range_with_page_size segments (fr_start mapping) (fr_size mapping) page = Some e ->
  t ∈ segments -> has_file_contribution t -> at_start t -> segment_bias e = segment_bias t.
Proof.
  unfold find_load_contribution_for_file_range_with_page_size. intros Hp Hf Ht Hc Ha.
  rewrite (proj2 (Z.eqb_neq _ _) Hp) in Hf. replace (mkFileRange (fr_start mapping) (fr_size mapping)) with mapping in Hf by by destruct mapping.
  rewrite observe_candidates in Hf. set (l := filter has_file_contribution segments) in *.
  assert (t ∈ l) as Htl by by apply list_elem_of_filter.
  assert (forall P : LoadSegment -> Prop, forall (d : ∀ x, Decision (P x)) x y, (watch (segment_bias <$> filter P l)).2 = false ->
    x ∈ l -> P x -> y ∈ l -> P y -> segment_bias x = segment_bias y) as Hsame.
  { intros P d x y Hw Hx HPx Hy HPy. destruct (watch_spec (segment_bias <$> filter P l)) as [_ [Hall _]]. specialize (Hall Hw).
    assert (forall z, z ∈ l -> P z -> segment_bias z ∈ segment_bias <$> filter P l) as Hin.
    { intros z Hz HPz. apply list_elem_of_fmap. exists z. split; [done|]. by apply list_elem_of_filter. }
    pose proof (Hall _ (Hin x Hx HPx)) as H1. pose proof (Hall _ (Hin y Hy HPy)) as H2. congruence. }
  assert (forall P : LoadSegment -> Prop, forall (d : ∀ x, Decision (P x)) x, head (filter P l) = Some x -> x ∈ l /\ P x) as Hhead.
  { intros P d x Hx. apply head_Some_elem_of, list_elem_of_filter in Hx. tauto. }
  unfold candidates_of in Hf. destruct (watch (segment_bias <$> filter at_start l)) as [w1 w2] eqn:Hw.
  destruct (watch (segment_bias <$> filter not_exact l)) as [v1 v2] eqn:Hv. cbn [ca_exact ca_start_ambiguous ca_fallback_ambiguous ca_fallback] in Hf.
  destruct (head (filter exact_start l)) as [x|] eqn:Hx.
  - destruct w2; [done|]. injection Hf as ->. apply Hhead in Hx as [Hel [Hce Hoe]].
    apply (Hsame at_start _); [by rewrite Hw|done| |done|done]. split; [done|]. unfold is_start_candidate. by rewrite Hoe, Z.eqb_refl.
  - destruct v2; [done|]. apply Hhead in Hf as [Hel Hne]. apply (Hsame not_exact _); [by rewrite Hv|done|done|done|].
    split; [apply Ha|]. intros Hoe. assert (t ∈ filter exact_start l) as Hin by (apply list_elem_of_filter; split; [split; [apply Ha|done]|done]).
    destruct (filter exact_start l); [by apply elem_of_nil in Hin|done].
Qed.

(** With one bias throughout, a segment that correlates is found. *)
Lemma uniform_found segments t :
  page <> 0 -> t ∈ segments -> has_file_contribution t -> correlated t ->
  (forall u, u ∈ segments -> segment_bias u = segment_bias t) ->
  is_Some (find_load_contribution_for_file_range_with_page_size segments (fr_start mapping) (fr_size mapping) page).
Proof.
  unfold find_load_contribution_for_file_range_with_page_size. intros Hp Ht Hc Hcor Huni.
  rewrite (proj2 (Z.eqb_neq _ _) Hp). replace (mkFileRange (fr_start mapping) (fr_size mapping)) with mapping by by destruct mapping.
  rewrite observe_candidates. set (l := filter has_file_contribution segments) in *.
  assert (t ∈ l) as Htl by by apply list_elem_of_filter.
  assert (forall P : LoadSegment -> Prop, forall (d : ∀ x, Decision (P x)), (watch (segment_bias <$> filter P l)).2 = false) as Hclear.
  { intros P d. destruct (watch_spec (segment_bias <$> filter P l)) as [_ Hw]. apply Hw. intros b Hb.
    assert (forall c, c ∈ segment_bias <$> filter P l -> c = segment_bias t) as Hone.
    { intros c Hcin. apply list_elem_of_fmap in Hcin as (u & -> & Hu). apply list_elem_of_filter in Hu as [_ Hu].
      apply list_elem_of_filter in Hu as [_ Hu]. by apply Huni. }
    rewrite (Hone b Hb). destruct (segment_bias <$> filter P l) as [|c r]; [by apply elem_of_nil in Hb|]. cbn. f_equal. apply Hone. by left. }
  unfold candidates_of. pose proof (Hclear at_start _) as H1. pose proof (Hclear not_exact _) as H2.
  destruct (watch (segment_bias <$> filter at_start l)) as [w1 w2], (watch (segment_bias <$> filter not_exact l)) as [v1 v2].
  cbn [snd] in H1, H2. subst. cbn [ca_exact ca_start_ambiguous ca_fallback_ambiguous ca_fallback].
  destruct (head (filter exact_start l)) as [x|] eqn:Hx; [by eexists|].
  assert (t ∈ filter not_exact l) as Hin.
  { apply list_elem_of_filter. split; [|done]. split; [done|]. intros Hoe.
    assert (t ∈ filter exact_start l) as Hin by (apply list_elem_of_filter; by split). destruct (filter exact_start l); [by apply elem_of_nil in Hin|done]. }
  destruct (filter not_exact l); [by apply elem_of_nil in Hin|by eexists].
Qed.
End candidates.

(** The mapping of a whole segment, as the loader of the system makes it: whole
    pages from the one its contents start in to the one they end in. *)
Lemma whole_segment_at_start s page stop :
  0 < page -> is_u64 (p_offset s) -> is_u64 (p_filesz s) -> has_file_contribution s ->
  page_ceil_end (file_range s) page = Some stop ->
  let off := page_floor_start (file_range s) page in
  at_start (mkFileRange off (stop - off)) page s.
Proof.
  unfold has_file_contribution, fr_is_valid, page_ceil_end, page_floor_start, align_down, align_up, fr_end, file_range, checked_add_u64.
  cbn [fr_start fr_size]. intros Hpage Ho Hz Hc Hs. destruct (Z.leb_spec (p_offset s + p_filesz s) u64_max) as [Hend|]; [|done].
  cbn [mbind option_bind] in Hs. destruct (Z.eqb_spec (p_filesz s) 0) as [|Hsize]; [done|].
  pose proof (Z.mod_pos_bound (p_offset s) page Hpage) as Hm. pose proof (Z.mod_le (p_offset s) page) as Hml.
  pose proof (Z.mod_pos_bound (p_offset s + p_filesz s) page Hpage) as Hme.
  set (off := p_offset s - p_offset s mod page). assert (off mod page = 0) as Hoff.
  { unfold off. replace (p_offset s - p_offset s mod page) with (p_offset s / page * page).
    - apply Z.mod_mul. lia.
    - pose proof (Z.div_mod (p_offset s) page). lia. }
  assert (p_offset s + p_filesz s <= stop <= u64_max) as Hstop.
  { destruct (Z.eqb_spec ((p_offset s + p_filesz s) mod page) 0); [|case_match; [|done]]; simplify_eq; word_unfold; lia. }
  assert (off <= p_offset s) as Hle by lia. assert (0 <= off) as Hpos by (word_unfold; lia).
  split.
  - unfold correlated, correlates_with_mapping, fr_is_valid, correlates_with, fr_contains, fr_end, file_range, checked_add_u64. cbn [fr_start fr_size].
    replace (off + (stop - off)) with stop by lia. rewrite (proj2 (Z.leb_le stop u64_max)) by lia.
    rewrite (proj2 (Z.leb_le (p_offset s + p_filesz s) u64_max)) by lia. word_unfold.
    rewrite (proj2 (Z.eqb_neq (stop - off) 0)) by lia. rewrite (proj2 (Z.eqb_neq (p_filesz s) 0)) by lia.
    rewrite (proj2 (Z.leb_le off (p_offset s))), (proj2 (Z.leb_le (p_offset s + p_filesz s) stop)) by lia.
    rewrite bool_decide_eq_true_2 by by eexists. cbn. by rewrite orb_true_r.
  - unfold is_start_candidate, is_multiple_of, page_rounded_contains_value, page_ceil_end, page_floor_start, align_down, align_up, fr_end, file_range, checked_add_u64.
    cbn [fr_start fr_size]. fold off. rewrite Hoff. cbn. rewrite (proj2 (Z.leb_le (p_offset s + p_filesz s) u64_max)) by lia. cbn [mbind option_bind].
    rewrite (proj2 (Z.eqb_neq (p_filesz s) 0)) by lia. unfold checked_add_u64 in Hs. rewrite Hs. word_unfold. rewrite (proj2 (Z.leb_le off off)), (proj2 (Z.ltb_lt off stop)) by lia.
    cbn. by rewrite orb_true_r.
Qed.

Lemma bias_wraps e_off e_vaddr off avma load_bias base :
  avma - off - (e_vaddr - e_off) = load_bias -> is_u64 (base + load_bias) ->
  wrap_u64 (base + compute_vma_bias e_off e_vaddr off avma) = base + load_bias.
Proof.
  intros Hb Hw. unfold compute_vma_bias, wrap_u64. rewrite !Zplus_mod_idemp_r.
  rewrite Z.add_sub_assoc, Z.add_sub_swap, Zplus_mod_idemp_r. symmetry. apply Z.mod_unique with 0; word_unfold; lia.
Qed.

(** C26: for a segment that the system mapped whole at any load bias, a base that
    is resolved from the mapping translates every address of the image back by
    exactly that bias, whichever segment was taken as the reference; where all
    segments of the file have one bias a base is resolved. *)
Theorem image_base_is_load_bias info s page stop load_bias :
  0 < page -> s ∈ il_load_segments info -> is_u64 (p_offset s) -> is_u64 (p_filesz s) -> has_file_contribution s ->
  page_ceil_end (file_range s) page = Some stop -> is_u64 (il_base_svma info + load_bias) ->
  let off := page_floor_start (file_range s) page in
  let avma := p_vaddr s - (p_offset s - off) + load_bias in
  let resolved := resolve_mapping_image_base info off avma (stop - off) page in
  (forall base a, resolved = Some base -> il_base_svma info + load_bias <= a -> a - load_bias <= u64_max ->
     svma_for_avma base a = Some (a - load_bias)) /\
  ((forall t, t ∈ il_load_segments info -> segment_bias t = segment_bias s) -> is_Some resolved).
Proof.
  intros Hpage Hs Ho Hz Hc Hstop Hbase off avma resolved. unfold resolved, resolve_mapping_image_base.
  pose proof (whole_segment_at_start s page stop Hpage Ho Hz Hc Hstop) as Hat. fold off in Hat.
  pose proof (found_bias (mkFileRange off (stop - off)) page (il_load_segments info)) as Hfound.
  pose proof (uniform_found (mkFileRange off (stop - off)) page (il_load_segments info) s) as Huni. cbn [fr_start fr_size] in Hfound, Huni.
  destruct (find_load_contribution_for_file_range_with_page_size _ off (stop - off) page) as [e|]; cbn [mbind option_bind].
  - split; [|by eexists]. intros base a [= <-] Hlow Hhigh. specialize (Hfound e s ltac:(lia) eq_refl Hs Hc Hat). unfold segment_bias in Hfound.
    rewrite (bias_wraps _ _ _ _ load_bias) by (done || unfold avma; lia). unfold svma_for_avma, relative_address, checked_sub_u64, checked_add_u64.
    cbn [ib_avma ib_svma]. rewrite (proj2 (Z.leb_le _ _)) by done. cbn [mbind option_bind]. rewrite (proj2 (Z.leb_le _ _)) by lia. f_equal. lia.
  - rewrite bool_decide_eq_false_2 by (intros Hnil; rewrite Hnil in Hs; by apply elem_of_nil in Hs). cbn. split; [done|].
    intros Hall. destruct Huni as [? ?]; [lia|done|done|apply Hat|done|done].
Qed.

(** A position-independent executable with two segments of different biases. *)
Definition sample_layout : ImageLayout :=
  mkLayout 0 None None [mkSegment 0 80900 80900 0 4; mkSegment 80912 4096 4096 146448 5].
Lemma image_base_is_load_bias_witness :
  let resolved := resolve_mapping_image_base sample_layout 77824 (143360 + 93824992231424) 8192 4096 in
  resolved = Some (mkImageBase 93824992231424 0) /\
  svma_for_avma (mkImageBase 93824992231424 0) (146500 + 93824992231424) = Some 146500.
Proof.
  split; [by vm_compute|].
  pose proof (image_base_is_load_bias sample_layout (mkSegment 80912 4096 4096 146448 5) 4096 86016 93824992231424
    ltac:(lia) ltac:(right; left) ltac:(vm_compute; split; discriminate) ltac:(vm_compute; split; discriminate) ltac:(by vm_compute)
    ltac:(by vm_compute) ltac:(vm_compute; split; discriminate)) as Hw.
  apply Hw; [by vm_compute|vm_compute; discriminate|vm_compute; discriminate].
Defined.
