(* ===== verification/ElfImages.v ===== *)
(** * Retained ELF images

    [src/native_module.rs] and the section data of [src/elf/types.rs]: the store
    of exact images that a recorder shares with its live readers, with one token
    per image and bounds on what it keeps, and the data its accounting reads. *)

From stdpp Require Import prelude list numbers gmap fin_maps.
From S2P Require Import Prelude Model ElfBase.
#[local] Open Scope Z_scope.

(** ** Section data *)

(** Shared bytes, by their address: on the heap or a mapping of the file. *)
Inductive ElfSectionStorage :=
  | StorageOwned (address : Z) (data : list Z)
  | StorageMmap (address : Z) (data : list Z).

Record ElfSectionData := mkSectionData {
  ed_storage : ElfSectionStorage;
  ed_start : nat;
  ed_end : nat;
}.

Definition storage_data (s : ElfSectionStorage) : list Z := match s with StorageOwned _ d | StorageMmap _ d => d end.
Definition section_owned (address : Z) (data : list Z) : ElfSectionData := mkSectionData (StorageOwned address data) 0 (length data).
(** [owned_range] and [mmap]. *)
Definition section_range (storage : ElfSectionStorage) (start stop : nat) : option ElfSectionData :=
  if (start <=? stop)%nat && (stop <=? length (storage_data storage))%nat then Some (mkSectionData storage start stop) else None.
(** [deref]. *)
Definition section_bytes (s : ElfSectionData) : list Z := take (ed_end s - ed_start s) (drop (ed_start s) (storage_data (ed_storage s))).

Definition section_same_layout (a b : ElfSectionData) : bool :=
  match ed_storage a, ed_storage b with
  | StorageMmap _ d, StorageMmap _ d' =>
      (ed_start a =? ed_start b)%nat && (ed_end a =? ed_end b)%nat && (length d =? length d')%nat
  | StorageOwned _ _, StorageOwned _ _ => bool_decide (section_bytes a = section_bytes b)
  | _, _ => false
  end.
Definition owned_storage_identity (s : ElfSectionData) : option (Z * Z) :=
  match ed_storage s with
  | StorageOwned address data => Some (address, Z.of_nat (length data))
  | StorageMmap _ _ => None
  end.

Record ElfSectionInfo := mkSectionInfo {
  es_layout : ImageLayout;
  es_text : option ElfSectionData;
  es_eh_frame_svma : option Z;
  es_eh_frame : option ElfSectionData;
  es_eh_frame_hdr_svma : option Z;
  es_eh_frame_hdr : option ElfSectionData;
  es_got_svma : option (Z * Z);
}.

Definition same_section (a b : option ElfSectionData) : bool :=
  match a, b with
  | Some a, Some b => section_same_layout a b
  | None, None => true
  | _, _ => false
  end.
Definition info_same_layout (a b : ElfSectionInfo) : bool :=
  (il_base_svma (es_layout a) =? il_base_svma (es_layout b))
  && bool_decide (il_text_svma (es_layout a) = il_text_svma (es_layout b))
  && bool_decide (il_text_file_range (es_layout a) = il_text_file_range (es_layout b))
  && same_section (es_text a) (es_text b)
  && bool_decide (es_eh_frame_svma a = es_eh_frame_svma b)
  && same_section (es_eh_frame a) (es_eh_frame b)
  && bool_decide (es_eh_frame_hdr_svma a = es_eh_frame_hdr_svma b)
  && same_section (es_eh_frame_hdr a) (es_eh_frame_hdr b)
  && bool_decide (es_got_svma a = es_got_svma b)
  && bool_decide (il_load_segments (es_layout a) = il_load_segments (es_layout b)).

(** ** Images *)

(** An [Arc<NativeImage>]: its address, and the allocation it is, since an
    address may be used again once an allocation is gone. *)
Record NativeImage := mkImage { im_address : Z; im_allocation : Z }.

Record ElfFileIdentity := mkIdentity {
  ei_device : Z;
  ei_inode : Z;
  ei_inode_generation : Z;
  ei_size : Z;
  ei_modified : Z * Z;
  ei_changed : Z * Z;
}.
#[global] Instance ElfFileIdentity_eq_dec : EqDecision ElfFileIdentity.
Proof. solve_decision. Defined.
#[global] Instance ElfFileIdentity_countable : Countable ElfFileIdentity.
Proof.
  refine (inj_countable'
    (λ i, (ei_device i, ei_inode i, ei_inode_generation i, ei_size i, ei_modified i, ei_changed i))
    (λ '(a, b, c, d, e, f), mkIdentity a b c d e f) _). by intros [].
Defined.

Definition MAX_ELF_OPEN_ATTEMPTS : Z := 2.
Definition MAX_SHARED_ELF_IMAGES : nat := 256.
Definition MAX_SHARED_ELF_OWNED_BYTES : Z := 64 * 1024 * 1024.
Definition MAX_EXACT_IMAGE_ALIASES : nat := 4096.

Section store.
(** [size_of::<ElfSectionInfo>()] and [size_of::<LoadSegment>()]. *)
Context (size_of_info size_of_segment : Z).

(** The loop of [elf_image_owned_bytes], with the buffers already counted. *)
Fixpoint owned_loop (sections : list ElfSectionData) (seen : list (Z * Z)) (owned : Z) : Z :=
  match sections with
  | [] => owned
  | section :: sections =>
      match owned_storage_identity section with
      | None => owned_loop sections seen owned
      | Some buffer =>
          if bool_decide (buffer ∈ seen) then owned_loop sections seen owned
          else owned_loop sections (seen ++ [buffer]) (saturating_add_u64 owned buffer.2)
      end
  end.
Definition elf_image_owned_bytes (sections : ElfSectionInfo) : Z :=
  owned_loop (option_list (es_text sections) ++ option_list (es_eh_frame sections) ++ option_list (es_eh_frame_hdr sections)) []
    (saturating_add_u64 size_of_info (size_of_segment * Z.of_nat (length (il_load_segments (es_layout sections))))).

(** ** The store of exact images *)

Record RetainedElfImage := mkRetained {
  re_sections : ElfSectionInfo;
  re_image : NativeImage;
  re_token : Z;
  re_identity : ElfFileIdentity;
}.

(** What is kept for one image: its references, its bytes and its token. *)
Record ImageRef := mkRef { rf_references : Z; rf_owned_bytes : Z; rf_token : Z }.

Record ExactImageStore := mkStore {
  st_by_module : gmap Z RetainedElfImage;
  st_order : list Z;
  st_image_refs : gmap Z ImageRef;
  st_owned_bytes : Z;
}.
Definition store_default : ExactImageStore := mkStore ∅ [] ∅ 0.
Definition NEXT_EXACT_IMAGE_TOKEN : Z := Z.shiftl 1 63.

Definition store_get (module_id : Z) (s : ExactImageStore) : option RetainedElfImage := st_by_module s !! module_id.

(** [add_ref], with the process-wide counter of tokens. *)
Definition add_ref (sections : ElfSectionInfo) (exact : NativeImage) (s : ExactImageStore) (next_token : Z)
    : Z * ExactImageStore * Z :=
  let image := im_address exact in
  let '(ref, owned, next_token) :=
    match st_image_refs s !! image with
    | Some ref => (ref, st_owned_bytes s, next_token)
    | None =>
        let owned_bytes := elf_image_owned_bytes sections in
        (mkRef 0 owned_bytes next_token, saturating_add_u64 (st_owned_bytes s) owned_bytes, (next_token + 1) mod 2 ^ 64)
    end in
  (rf_token ref,
   mkStore (st_by_module s) (st_order s)
     (<[image := mkRef (rf_references ref + 1) (rf_owned_bytes ref) (rf_token ref)]> (st_image_refs s)) owned,
   next_token).

Definition remove_entry (module_id : Z) (s : ExactImageStore) : ExactImageStore :=
  match st_by_module s !! module_id with
  | None => s
  | Some retained =>
      let by_module := delete module_id (st_by_module s) in
      let image := im_address (re_image retained) in
      match st_image_refs s !! image with
      | None => mkStore by_module (st_order s) (st_image_refs s) (st_owned_bytes s)
      | Some ref =>
          let references := rf_references ref - 1 in
          if references =? 0 then
            mkStore by_module (st_order s) (delete image (st_image_refs s)) (Z.max 0 (st_owned_bytes s - rf_owned_bytes ref))
          else
            mkStore by_module (st_order s) (<[image := mkRef references (rf_owned_bytes ref) (rf_token ref)]> (st_image_refs s))
              (st_owned_bytes s)
      end
  end.

Definition over_budget (s : ExactImageStore) : bool :=
  (MAX_EXACT_IMAGE_ALIASES <? size (st_by_module s))%nat
  || (MAX_SHARED_ELF_IMAGES <? size (st_image_refs s))%nat
  || (MAX_SHARED_ELF_OWNED_BYTES <? st_owned_bytes s).

Definition set_order (order : list Z) (s : ExactImageStore) : ExactImageStore :=
  mkStore (st_by_module s) order (st_image_refs s) (st_owned_bytes s).

(** The loop that evicts the oldest entries. *)
Fixpoint evict (order : list Z) (s : ExactImageStore) : ExactImageStore :=
  if over_budget s then
    match order with
    | [] => set_order [] s
    | oldest :: order => evict order (remove_entry oldest s)
    end
  else set_order order s.

Definition store_insert (module_id : Z) (sections : ElfSectionInfo) (image : NativeImage) (identity : ElfFileIdentity)
    (s : ExactImageStore) (next_token : Z) : ExactImageStore * Z :=
  let replaced :=
    match st_by_module s !! module_id with
    | Some previous =>
        if im_address (re_image previous) =? im_address image then None
        else Some (let s := remove_entry module_id s in set_order (filter (λ id, id <> module_id) (st_order s)) s)
    | None => Some s
    end in
  match replaced with
  | None => (s, next_token)
  | Some s =>
      let '(token, s, next_token) := add_ref sections image s next_token in
      let s := mkStore (<[module_id := mkRetained sections image token identity]> (st_by_module s))
                 (st_order s ++ [module_id]) (st_image_refs s) (st_owned_bytes s) in
      (evict (st_order s) s, next_token)
  end.

Definition store_alias (source_id module_id : Z) (s : ExactImageStore) (next_token : Z) : ExactImageStore * Z :=
  match store_get source_id s with
  | Some retained => store_insert module_id (re_sections retained) (re_image retained) (re_identity retained) s next_token
  | None => (s, next_token)
  end.

(** ** Accounting *)

(** The entries that hold the image at an address. *)
Definition holders (address : Z) (by_module : gmap Z RetainedElfImage) : nat :=
  size (filter (λ e, im_address (re_image e.2) = address) by_module).
Definition total_bytes (refs : gmap Z ImageRef) : Z := map_fold (λ _ ref total, rf_owned_bytes ref + total) 0 refs.

Record entries_ok (s : ExactImageStore) : Prop := {
  eo_refs : forall p ref, st_image_refs s !! p = Some ref ->
    rf_references ref = Z.of_nat (holders p (st_by_module s)) /\ (0 < holders p (st_by_module s))%nat /\ 0 <= rf_owned_bytes ref;
  eo_entry : forall m r, st_by_module s !! m = Some r ->
    exists ref, st_image_refs s !! im_address (re_image r) = Some ref /\ rf_token ref = re_token r;
  eo_bytes : st_owned_bytes s = total_bytes (st_image_refs s);
}.

(** The queue names every entry once. *)
Definition order_ok (order : list Z) (s : ExactImageStore) : Prop :=
  NoDup order /\ forall m, m ∈ order <-> is_Some (st_by_module s !! m).

Lemma total_bytes_insert refs p ref :
  refs !! p = None -> total_bytes (<[p := ref]> refs) = rf_owned_bytes ref + total_bytes refs.
Proof. intros Hp. unfold total_bytes. rewrite map_fold_insert_L; [done| |done]. intros. lia. Qed.

Lemma total_bytes_delete refs p ref :
  refs !! p = Some ref -> total_bytes (delete p refs) = total_bytes refs - rf_owned_bytes ref.
Proof.
  intros Hp. rewrite <-(insert_delete_id refs p ref Hp) at 2. rewrite total_bytes_insert by apply lookup_delete_eq. lia.
Qed.

Lemma total_bytes_replace refs p ref ref' :
  refs !! p = Some ref -> rf_owned_bytes ref' = rf_owned_bytes ref -> total_bytes (<[p := ref']> refs) = total_bytes refs.
Proof.
  intros Hp Hb. rewrite <-insert_delete_eq, total_bytes_insert, (total_bytes_delete _ _ _ Hp) by apply lookup_delete_eq. lia.
Qed.

Lemma total_bytes_pos refs : (forall p ref, refs !! p = Some ref -> 0 <= rf_owned_bytes ref) -> 0 <= total_bytes refs.
Proof.
  induction refs as [|p ref refs Hp IH] using map_ind; intros Hall; [done|]. rewrite total_bytes_insert by done.
  specialize (Hall p ref (lookup_insert_eq _ _ _)) as Hr. enough (0 <= total_bytes refs) by lia.
  apply IH. intros q r Hq. apply (Hall q). rewrite lookup_insert_ne; [done|]. intros ->. congruence.
Qed.

Lemma holders_insert p m r by_module :
  by_module !! m = None ->
  holders p (<[m := r]> by_module) = (holders p by_module + if decide (im_address (re_image r) = p) then 1 else 0)%nat.
Proof.
  intros Hm. unfold holders. case_decide as Hp.
  - rewrite map_filter_insert_True by done. rewrite map_size_insert_None; [lia|]. apply map_lookup_filter_None. left. done.
  - rewrite map_filter_insert_not' by (done || intros y Hy; congruence). lia.
Qed.

Lemma holders_delete p m r by_module :
  by_module !! m = Some r ->
  holders p by_module = (holders p (delete m by_module) + if decide (im_address (re_image r) = p) then 1 else 0)%nat.
Proof. intros Hm. rewrite <-(insert_delete_id by_module m r Hm) at 1. apply holders_insert, lookup_delete_eq. Qed.

Lemma holders_pos p by_module : (0 < holders p by_module)%nat -> exists m r, by_module !! m = Some r /\ im_address (re_image r) = p.
Proof.
  unfold holders. intros Hpos. assert (filter (λ e, im_address (re_image e.2) = p) by_module <> ∅) as Hne.
  { intros He. rewrite He, map_size_empty in Hpos. lia. }
  apply map_choose in Hne as (m & r & Hm). apply map_lookup_filter_Some in Hm as [Hm Hp]. by exists m, r.
Qed.

Lemma holders_elem m r by_module : by_module !! m = Some r -> (0 < holders (im_address (re_image r)) by_module)%nat.
Proof. intros Hm. rewrite (holders_delete _ m r) by done. rewrite decide_True by done. lia. Qed.

Lemma store_default_ok : entries_ok store_default /\ order_ok [] store_default.
Proof.
  split; split; cbn; [..|constructor|].
  - intros p ref. by rewrite lookup_empty.
  - intros m r. by rewrite lookup_empty.
  - done.
  - intros m. rewrite lookup_empty. split; [by intros ?%elem_of_nil|by intros [? ?]].
Qed.

Lemma remove_entry_entries m s : entries_ok s -> entries_ok (remove_entry m s).
Proof.
  intros [Hrefs Hentry Hbytes]. unfold remove_entry. destruct (st_by_module s !! m) as [r|] eqn:Hm; [|done].
  destruct (Hentry m r Hm) as (ref & Hr & Htok). rewrite Hr.
  assert (forall p, holders p (st_by_module s) = (holders p (delete m (st_by_module s)) + if decide (im_address (re_image r) = p) then 1 else 0)%nat) as Hcount
    by (intros p; by apply holders_delete).
  destruct (Hrefs _ ref Hr) as (Hn & Hpos & Hb). set (a := im_address (re_image r)) in *.
  pose proof (Hcount a) as Ha. rewrite decide_True in Ha by done.
  destruct (Z.eqb_spec (rf_references ref - 1) 0) as [Hz|Hnz]; split; cbn [st_by_module st_image_refs st_owned_bytes].
  - intros p q. destruct (decide (p = a)) as [->|Hne]; [by rewrite lookup_delete_eq|]. rewrite lookup_delete_ne by done. intros Hq.
    specialize (Hrefs p q Hq). rewrite (Hcount p), decide_False, Nat.add_0_r in Hrefs by done. done.
  - intros m' r' Hm'. apply lookup_delete_Some in Hm' as [Hne Hm']. destruct (Hentry m' r' Hm') as (ref' & Hr' & Ht).
    exists ref'. split; [|done]. rewrite lookup_delete_ne; [done|]. intros Heq.
    assert (0 < holders a (delete m (st_by_module s)))%nat by (rewrite Heq; apply (holders_elem m'); by rewrite lookup_delete_ne). lia.
  - rewrite (total_bytes_delete _ _ _ Hr), Hbytes. rewrite <-(total_bytes_delete _ _ _ Hr). rewrite Z.max_r; [done|].
    apply total_bytes_pos. intros p q Hq. apply lookup_delete_Some in Hq as [_ Hq]. apply (Hrefs p q Hq).
  - intros p q. destruct (decide (p = a)) as [->|Hne].
    + rewrite lookup_insert_eq. intros [= <-]. cbn. split_and!; lia.
    + rewrite lookup_insert_ne by done. intros Hq. specialize (Hrefs p q Hq). rewrite (Hcount p), decide_False, Nat.add_0_r in Hrefs by done. done.
  - intros m' r' Hm'. apply lookup_delete_Some in Hm' as [Hne Hm']. destruct (Hentry m' r' Hm') as (ref' & Hr' & Ht).
    destruct (decide (im_address (re_image r') = a)) as [Heq|Hna].
    + rewrite Heq in *. simplify_eq. rewrite lookup_insert_eq. eexists. split; [done|]. cbn. congruence.
    + rewrite lookup_insert_ne by done. by exists ref'.
  - by rewrite (total_bytes_replace _ _ ref).
Qed.

Lemma remove_entry_by_module m s : st_by_module (remove_entry m s) = delete m (st_by_module s).
Proof.
  unfold remove_entry. destruct (st_by_module s !! m) as [r|] eqn:Hm; [|by rewrite delete_id].
  destruct (st_image_refs s !! _); [case_match|]; done.
Qed.

Lemma remove_entry_order m s : st_order (remove_entry m s) = st_order s.
Proof. unfold remove_entry. repeat case_match; done. Qed.

Lemma order_ok_pop m order s : order_ok (m :: order) s -> order_ok order (remove_entry m s).
Proof.
  intros [Hnd Hin]. apply NoDup_cons in Hnd as [Hnot Hnd]. split; [done|]. intros m'. rewrite remove_entry_by_module.
  specialize (Hin m'). rewrite elem_of_cons in Hin. destruct (decide (m' = m)) as [->|Hne].
  - rewrite lookup_delete_eq. split; [done|by intros [? ?]].
  - rewrite lookup_delete_ne by done. rewrite <-Hin. split; [auto|]. by intros [|].
Qed.

(** ** Bounds *)

Lemma set_order_entries order s : entries_ok s -> entries_ok (set_order order s).
Proof. by intros [H1 H2 H3]. Qed.

Lemma empty_in_budget s : entries_ok s -> order_ok [] s -> over_budget s = false.
Proof.
  intros [Hrefs _ Hbytes] [_ Hin]. assert (st_by_module s = ∅) as Hm.
  { apply map_empty. intros m. apply eq_None_not_Some. rewrite <-Hin. by intros ?%elem_of_nil. }
  assert (st_image_refs s = ∅) as Hr.
  { apply map_empty. intros p. destruct (st_image_refs s !! p) as [ref|] eqn:Hp; [|done]. destruct (Hrefs p ref Hp) as (_ & Hpos & _).
    rewrite Hm in Hpos. apply holders_pos in Hpos as (m & r & Hx & _). by rewrite lookup_empty in Hx. }
  unfold over_budget. rewrite Hbytes, Hm, Hr. by rewrite !map_size_empty.
Qed.

(** Eviction ends within the bounds, with entries of what was there. *)
Lemma evict_ok order : forall s, entries_ok s -> order_ok order s ->
  entries_ok (evict order s) /\ order_ok (st_order (evict order s)) (evict order s) /\ over_budget (evict order s) = false /\
  st_by_module (evict order s) ⊆ st_by_module s.
Proof.
  induction order as [|oldest order IH]; intros s Hs Ho; cbn [evict].
  { rewrite (empty_in_budget s Hs Ho). split_and!; [by apply set_order_entries|done|exact (empty_in_budget s Hs Ho)|done]. }
  destruct (over_budget s) eqn:Hb.
  - destruct (IH (remove_entry oldest s)) as (H1 & H2 & H3 & H4); [by apply remove_entry_entries|by apply order_ok_pop|].
    split_and!; [done|done|done|]. etrans; [exact H4|]. rewrite remove_entry_by_module. apply delete_subseteq.
  - split_and!; [by apply set_order_entries|done|done|done].
Qed.

(** A buffer is smaller than half the address space. *)
Definition sane_size (n : Z) : Prop := 0 <= n < 2 ^ 63.

(** A new entry, before eviction. *)
Definition add_entry (module_id : Z) (sections : ElfSectionInfo) (image : NativeImage) (file : ElfFileIdentity)
    (s : ExactImageStore) (next_token : Z) : ExactImageStore :=
  let '(token, s, _) := add_ref sections image s next_token in
  mkStore (<[module_id := mkRetained sections image token file]> (st_by_module s)) (st_order s ++ [module_id])
    (st_image_refs s) (st_owned_bytes s).

Lemma add_entry_ok m sections image file s next_token :
  entries_ok s -> order_ok (st_order s) s -> st_by_module s !! m = None -> over_budget s = false ->
  sane_size (elf_image_owned_bytes sections) ->
  let s' := add_entry m sections image file s next_token in
  entries_ok s' /\ order_ok (st_order s') s'.
Proof.
  intros [Hrefs Hentry Hbytes] [Hnd Hin] Hm Hbudget Hsize. unfold add_entry, add_ref. cbn zeta.
  set (a := im_address image). apply orb_false_iff in Hbudget as [_ Hbudget]. apply Z.ltb_ge in Hbudget.
  assert (forall token refs owned, order_ok (st_order s ++ [m])
    (mkStore (<[m := mkRetained sections image token file]> (st_by_module s)) (st_order s ++ [m]) refs owned)) as Hord.
  { intros token refs owned. split.
    - apply NoDup_app. split_and!; [done| |by apply NoDup_singleton]. intros x Hx ->%list_elem_of_singleton.
      apply Hin in Hx as [? Hx]. congruence.
    - intros m'. cbn [st_by_module]. rewrite elem_of_app, list_elem_of_singleton, Hin. destruct (decide (m' = m)) as [->|Hne].
      + rewrite lookup_insert_eq. split; [by eexists|by right].
      + rewrite lookup_insert_ne by done. split; [by intros [|]|by left]. }
  destruct (st_image_refs s !! a) as [ref|] eqn:Ha.
  - split; [|apply Hord]. split; cbn [st_by_module st_image_refs st_owned_bytes].
    + intros p q. rewrite holders_insert by done. cbn [re_image]. destruct (decide (p = a)) as [->|Hne].
      * rewrite lookup_insert_eq, decide_True by done. intros [= <-]. destruct (Hrefs a ref Ha) as (H1 & H2 & H3). cbn. split_and!; lia.
      * rewrite lookup_insert_ne, decide_False, Nat.add_0_r by done. apply Hrefs.
    + intros m' r'. destruct (decide (m' = m)) as [->|Hne].
      * rewrite lookup_insert_eq. intros [= <-]. cbn. rewrite lookup_insert_eq. by eexists.
      * rewrite lookup_insert_ne by done. intros Hm'. destruct (Hentry m' r' Hm') as (ref' & Hr' & Ht).
        destruct (decide (im_address (re_image r') = a)) as [Heq|Hna].
        -- rewrite Heq in *. simplify_eq. rewrite lookup_insert_eq. eexists. split; [done|]. done.
        -- rewrite lookup_insert_ne by done. by exists ref'.
    + by rewrite (total_bytes_replace _ _ ref).
  - split; [|apply Hord]. split; cbn [st_by_module st_image_refs st_owned_bytes rf_references rf_owned_bytes rf_token].
    + assert (holders a (st_by_module s) = 0%nat) as Hz.
      { destruct (holders a (st_by_module s)) eqn:Hh; [done|]. destruct (holders_pos a (st_by_module s)) as (m' & r' & Hm' & Hr'); [lia|].
        destruct (Hentry m' r' Hm') as (? & Hx & _). rewrite Hr' in Hx. congruence. }
      intros p q. rewrite holders_insert by done. cbn [re_image]. destruct (decide (p = a)) as [->|Hne].
      * rewrite lookup_insert_eq, decide_True by done. intros [= <-]. cbn. unfold sane_size in Hsize. split_and!; lia.
      * rewrite lookup_insert_ne, decide_False, Nat.add_0_r by done. apply Hrefs.
    + intros m' r'. destruct (decide (m' = m)) as [->|Hne].
      * rewrite lookup_insert_eq. intros [= <-]. cbn. rewrite lookup_insert_eq. by eexists.
      * rewrite lookup_insert_ne by done. intros Hm'. destruct (Hentry m' r' Hm') as (ref' & Hr' & Ht).
        rewrite lookup_insert_ne; [by exists ref'|]. intros Heq. rewrite <-Heq in Hr'. congruence.
    + rewrite total_bytes_insert by done. cbn [rf_owned_bytes]. unfold saturating_add_u64, sane_size, MAX_SHARED_ELF_OWNED_BYTES, u64_max in *. lia.
Qed.

Definition store_ok (s : ExactImageStore) : Prop := entries_ok s /\ order_ok (st_order s) s /\ over_budget s = false.

(** The state in which the new entry is added: without the one it replaces. *)
Definition without (m : Z) (s : ExactImageStore) : ExactImageStore :=
  match st_by_module s !! m with
  | Some _ => let s := remove_entry m s in set_order (filter (λ id, id <> m) (st_order s)) s
  | None => s
  end.

Lemma remove_in_budget m s : entries_ok s -> over_budget s = false -> over_budget (remove_entry m s) = false.
Proof.
  intros [Hrefs Hentry Hbytes] Hb. unfold over_budget in *. rewrite !orb_false_iff, !Nat.ltb_ge, Z.ltb_ge in *. destruct Hb as [[H1 H2] H3].
  unfold remove_entry. destruct (st_by_module s !! m) as [r|] eqn:Hm; [|done].
  assert (size (delete m (st_by_module s)) <= size (st_by_module s))%nat by (rewrite map_size_delete_Some by done; lia).
  destruct (Hentry m r Hm) as (ref & Hr & _). rewrite Hr. destruct (Hrefs _ ref Hr) as (_ & _ & Hpos). case_match; cbn.
  - split_and!; [lia|rewrite map_size_delete_Some by done; lia|unfold MAX_SHARED_ELF_OWNED_BYTES in *; lia].
  - split_and!; [lia|rewrite map_size_insert_Some by done; lia|lia].
Qed.

Lemma without_ok m s : store_ok s -> store_ok (without m s) /\ st_by_module (without m s) = delete m (st_by_module s).
Proof.
  intros (He & [Hnd Hin] & Hb). unfold without. destruct (st_by_module s !! m) as [r|] eqn:Hm; [|by rewrite delete_id].
  split; [|apply remove_entry_by_module]. split_and!; [by apply set_order_entries, remove_entry_entries| |by apply remove_in_budget].
  cbn. rewrite remove_entry_order. split; [by apply NoDup_filter|]. intros m'. cbn. rewrite remove_entry_by_module, list_elem_of_filter, Hin.
  destruct (decide (m' = m)) as [->|Hne]; [rewrite lookup_delete_eq; split; [naive_solver|by intros [? ?]]|].
  rewrite lookup_delete_ne by done. naive_solver.
Qed.

Lemma store_insert_unfold m sections image file s next_token :
  store_insert m sections image file s next_token =
  match st_by_module s !! m with
  | Some previous =>
      if im_address (re_image previous) =? im_address image then (s, next_token)
      else let added := add_entry m sections image file (without m s) next_token in
           (evict (st_order added) added, (add_ref sections image (without m s) next_token).2)
  | None => let added := add_entry m sections image file (without m s) next_token in
            (evict (st_order added) added, (add_ref sections image (without m s) next_token).2)
  end.
Proof.
  unfold store_insert, without, add_entry. destruct (st_by_module s !! m) as [r|]; [destruct (im_address (re_image r) =? im_address image); [done|]|].
  all: by destruct (add_ref sections image _ next_token) as [[token s'] c].
Qed.

Lemma store_insert_ok m sections image file s next_token :
  store_ok s -> sane_size (elf_image_owned_bytes sections) ->
  store_ok (store_insert m sections image file s next_token).1.
Proof.
  intros Hs Hsize. rewrite store_insert_unfold. destruct (without_ok m s Hs) as [(He & Ho & Hb) Hdel].
  destruct (add_entry_ok m sections image file (without m s) next_token He Ho) as [He' Ho']; [by rewrite Hdel, lookup_delete_eq|done|done|].
  destruct (evict_ok _ _ He' Ho') as (K1 & K2 & K3 & _).
  destruct (st_by_module s !! m) as [r|]; [destruct (im_address (re_image r) =? im_address image); [done|]|]; by split_and!.
Qed.

(** ** Tokens *)

(** Two live allocations have different addresses: an image that is passed in
    is the one that an entry holds at its address. *)
Definition heap_valid (image : NativeImage) (s : ExactImageStore) : Prop :=
  forall m r, st_by_module s !! m = Some r -> im_address (re_image r) = im_address image -> im_allocation (re_image r) = im_allocation image.

(** What recorder, readers and other stores do, in any order. *)
Inductive store_step : ExactImageStore * Z -> ExactImageStore * Z -> Prop :=
  | step_insert m sections image file s next_token :
      heap_valid image s -> sane_size (elf_image_owned_bytes sections) ->
      store_step (s, next_token) (store_insert m sections image file s next_token)
  | step_alias source m s next_token :
      (forall r, st_by_module s !! source = Some r -> sane_size (elf_image_owned_bytes (re_sections r))) ->
      store_step (s, next_token) (store_alias source m s next_token)
  | step_other_store s next_token : store_step (s, next_token) (s, (next_token + 1) mod 2 ^ 64).

Lemma store_step_ok st st' : store_step st st' -> store_ok st.1 -> store_ok st'.1.
Proof.
  intros [m sections image file s c _ Hz|source m s c Hz|s c] Hs; cbn [fst] in *; [by apply store_insert_ok| |done].
  unfold store_alias, store_get. destruct (st_by_module s !! source) as [r|]; [|done]. apply store_insert_ok; [done|by apply Hz].
Qed.

(** Every token that was given out belongs to one allocation. *)
Record tokens_ok (issued : gmap Z Z) (st : ExactImageStore * Z) : Prop := {
  to_entry : forall m r, st_by_module st.1 !! m = Some r -> issued !! re_token r = Some (im_allocation (re_image r));
  to_below : forall t, is_Some (issued !! t) -> t < st.2;
}.

Lemma tokens_ok_sub issued s s' c : tokens_ok issued (s, c) -> st_by_module s' ⊆ st_by_module s -> tokens_ok issued (s', c).
Proof. intros [He Hb] Hsub. split; [|done]. intros m r Hm. apply (He m r). by eapply lookup_weaken. Qed.

Lemma add_entry_tokens m sections image file s c issued :
  entries_ok s -> heap_valid image s -> c < 2 ^ 64 - 1 -> 0 <= c -> tokens_ok issued (s, c) ->
  let c' := (add_ref sections image s c).2 in
  exists issued', issued ⊆ issued' /\ tokens_ok issued' (add_entry m sections image file s c, c') /\ c <= c' <= c + 1.
Proof.
  intros [Hrefs Hentry _] Hheap Hc Hc0 [He Hb]. unfold add_entry, add_ref. cbn zeta.
  destruct (st_image_refs s !! im_address image) as [ref|] eqn:Hr; cbn [snd].
  - exists issued. split_and!; [done| |lia|lia]. split; [|done]. intros m' r'. cbn [fst st_by_module].
    destruct (decide (m' = m)) as [->|Hne]; [|rewrite lookup_insert_ne by done; apply He].
    rewrite lookup_insert_eq. intros [= <-]. cbn. destruct (Hrefs _ ref Hr) as (_ & Hpos & _).
    apply holders_pos in Hpos as (m' & r' & Hm' & Ha). destruct (Hentry m' r' Hm') as (ref' & Hr' & Ht).
    rewrite Ha in Hr'. simplify_eq. rewrite Ht, (He m' r' Hm'). f_equal. by apply (Hheap m').
  - rewrite Z.mod_small by lia. exists (<[c := im_allocation image]> issued). assert (issued !! c = None) as Hfresh.
    { apply eq_None_not_Some. intros Hs. apply Hb in Hs. cbn in Hs. lia. }
    split_and!; [by apply insert_subseteq| |lia|lia]. split.
    + intros m' r'. cbn [fst st_by_module]. destruct (decide (m' = m)) as [->|Hne].
      * rewrite lookup_insert_eq. intros [= <-]. cbn. apply lookup_insert_eq.
      * rewrite lookup_insert_ne by done. intros Hm'. pose proof (He m' r' Hm') as Hi. rewrite lookup_insert_ne; [done|]. intros ->. cbn in Hi. congruence.
    + intros t. cbn [snd]. destruct (decide (t = c)) as [->|Hne]; [lia|]. rewrite lookup_insert_ne by done. intros Ht%Hb. cbn in Ht. lia.
Qed.

Lemma store_insert_tokens m sections image file s c issued :
  store_ok s -> sane_size (elf_image_owned_bytes sections) -> heap_valid image s -> 0 <= c < 2 ^ 64 - 1 -> tokens_ok issued (s, c) ->
  exists issued', issued ⊆ issued' /\ tokens_ok issued' (store_insert m sections image file s c) /\
    c <= (store_insert m sections image file s c).2 <= c + 1.
Proof.
  intros Hs Hz Hheap Hc Ht. rewrite store_insert_unfold. destruct (without_ok m s Hs) as [(He & Ho & Hb) Hdel].
  assert (st_by_module (without m s) ⊆ st_by_module s) as Hsub by (rewrite Hdel; apply delete_subseteq).
  destruct (add_entry_tokens m sections image file (without m s) c issued) as (issued' & Hi & Ht' & Hc'); [done| |lia|lia|by eapply tokens_ok_sub|].
  { intros m' r' Hm'. apply (Hheap m'). by eapply lookup_weaken. }
  destruct (add_entry_ok m sections image file (without m s) c He Ho) as [He' Ho']; [by rewrite Hdel, lookup_delete_eq|done|done|].
  destruct (evict_ok _ _ He' Ho') as (_ & _ & _ & Hev). pose proof (tokens_ok_sub _ _ _ _ Ht' Hev) as Hfinal.
  assert (exists issued', issued ⊆ issued' /\ tokens_ok issued' (s, c) /\ c <= c <= c + 1) as Hsame by (exists issued; split_and!; [done|done|lia|lia]).
  destruct (st_by_module s !! m) as [r|]; [destruct (im_address (re_image r) =? im_address image); [done|]|]; by exists issued'.
Qed.

Lemma store_step_tokens st st' issued :
  store_step st st' -> store_ok st.1 -> 0 <= st.2 < 2 ^ 64 - 1 -> tokens_ok issued st ->
  exists issued', issued ⊆ issued' /\ tokens_ok issued' st' /\ st.2 <= st'.2 <= st.2 + 1.
Proof.
  intros [m sections image file s c Hheap Hz|source m s c Hz|s c] Hs Hc Ht; cbn [fst snd] in *.
  - by apply store_insert_tokens.
  - unfold store_alias, store_get. destruct (st_by_module s !! source) as [r|] eqn:Hr; [|exists issued; split_and!; [done|done|cbn; lia|cbn; lia]].
    apply store_insert_tokens; [done|by apply Hz| |done|done].
    intros m' r' Hm' Ha. assert (Some (im_allocation (re_image r')) = Some (im_allocation (re_image r))) as [=]; [|done].
    destruct Hs as ([_ Hentry _] & _). destruct (Hentry m' r' Hm') as (ref' & Hr' & Ht'). destruct (Hentry source r Hr) as (ref & Hrr & Htr).
    rewrite Ha in Hr'. simplify_eq. destruct Ht as [He _]. rewrite <-(He m' r' Hm'), <-(He source r Hr). congruence.
  - rewrite Z.mod_small by lia. exists issued. split_and!; [done| |lia|lia]. destruct Ht as [He Hb]. split; [done|]. intros t Hi%Hb. cbn in *. lia.
Qed.

Lemma store_steps_tokens n : forall st st' issued,
  nsteps store_step n st st' -> store_ok st.1 -> 0 <= st.2 -> st.2 + Z.of_nat n < 2 ^ 64 -> tokens_ok issued st ->
  store_ok st'.1 /\ 0 <= st'.2 <= st.2 + Z.of_nat n /\ exists issued', issued ⊆ issued' /\ tokens_ok issued' st'.
Proof.
  induction n as [|n IH]; intros st st' issued Hsteps Hs H0 Hn Ht.
  { inversion Hsteps; subst. split_and!; [done|lia|lia|by exists issued]. }
  inversion Hsteps as [|? ? st1 ? Hstep Hrest]; subst.
  destruct (store_step_tokens _ _ _ Hstep Hs ltac:(lia) Ht) as (issued1 & Hi1 & Ht1 & Hc1).
  destruct (IH _ _ _ Hrest (store_step_ok _ _ Hstep Hs) ltac:(lia) ltac:(lia) Ht1) as (Hs' & Hc' & issued' & Hi' & Ht').
  split_and!; [done|lia|lia|]. exists issued'. split; [by etrans|done].
Qed.

Definition store_start : ExactImageStore * Z := (store_default, NEXT_EXACT_IMAGE_TOKEN).

Lemma store_start_ok : store_ok store_start.1 /\ tokens_ok ∅ store_start.
Proof.
  destruct store_default_ok as [He Ho]. split; [by split_and!|]. split; [intros m r; cbn; by rewrite lookup_empty|].
  intros t. rewrite lookup_empty. by intros [? ?].
Qed.

(** In every reachable state of the store of exact images (images published,
    published again under other modules, evicted, tokens taken by other stores,
    addresses used again for new images) the entries, images and bytes are
    within their limits; the queue names every entry exactly once; each image
    counts exactly the entries that hold it; and the bytes are those of the
    images that are held. *)
Theorem exact_images_are_accounted n st :
  nsteps store_step n store_start st ->
  let s := st.1 in
  (size (st_by_module s) <= MAX_EXACT_IMAGE_ALIASES)%nat /\ (size (st_image_refs s) <= MAX_SHARED_ELF_IMAGES)%nat /\
  st_owned_bytes s <= MAX_SHARED_ELF_OWNED_BYTES /\ st_owned_bytes s = total_bytes (st_image_refs s) /\
  NoDup (st_order s) /\ (forall m, m ∈ st_order s <-> is_Some (st_by_module s !! m)) /\
  (forall p, match st_image_refs s !! p with
             | Some ref => rf_references ref = Z.of_nat (holders p (st_by_module s)) /\ 1 <= rf_references ref
             | None => holders p (st_by_module s) = 0%nat
             end).
Proof.
  intros Hn s. assert (store_ok st.1) as ([Hrefs Hentry Hbytes] & [Hnd Hin] & Hb).
  { clear s. assert (forall a, nsteps store_step n a st -> store_ok a.1 -> store_ok st.1) as Hall; [|apply (Hall _ Hn), store_start_ok].
    clear Hn. induction n as [|n IH]; intros a Ha Hok; inversion Ha as [|? ? a1 ? Hstep Hrest]; subst; [done|].
    apply (IH _ Hrest). by eapply store_step_ok. }
  unfold over_budget in Hb. rewrite !orb_false_iff, !Nat.ltb_ge, Z.ltb_ge in Hb. destruct Hb as [[Hb1 Hb2] Hb3].
  split_and!; [done..|]. intros p. destruct (st_image_refs s !! p) as [ref|] eqn:Hp.
  - destruct (Hrefs p ref Hp) as (Hr & Hpos & _). unfold s. split; [done|lia].
  - destruct (holders p (st_by_module s)) eqn:Hh; [done|]. destruct (holders_pos p (st_by_module s)) as (m & r & Hm & Ha); [lia|].
    destruct (Hentry m r Hm) as (? & Hx & _). unfold s in *. rewrite Ha in Hx. congruence.
Qed.

(** While fewer than 2^63 tokens were taken in the process, a token of an
    exact image names one image for ever: entries that carry the same token, in
    the same or in different states and even after the first is gone and its
    address is used again, hold the same image; and in one state entries of the
    same image carry the same token. *)
Theorem exact_image_token_names_image n k st1 st2 m1 m2 r1 r2 :
  nsteps store_step n store_start st1 -> nsteps store_step k st1 st2 -> Z.of_nat n + Z.of_nat k < 2 ^ 63 ->
  store_get m1 st1.1 = Some r1 -> store_get m2 st2.1 = Some r2 ->
  (re_token r1 = re_token r2 -> im_allocation (re_image r1) = im_allocation (re_image r2)) /\
  (k = 0%nat -> im_address (re_image r1) = im_address (re_image r2) -> re_token r1 = re_token r2).
Proof.
  intros Hn Hk Hlt Hm1 Hm2. unfold store_get in *. destruct store_start_ok as [Hs0 Ht0].
  assert (store_start.2 = 2 ^ 63) as Hstart by done.
  destruct (store_steps_tokens _ _ _ _ Hn Hs0 ltac:(lia) ltac:(lia) Ht0) as (Hs1 & Hc1 & issued1 & _ & Ht1).
  destruct (store_steps_tokens _ _ _ _ Hk Hs1 ltac:(lia) ltac:(lia) Ht1) as (Hs2 & Hc2 & issued2 & Hsub & Ht2).
  split.
  - intros Heq. pose proof (to_entry _ _ Ht1 m1 r1 Hm1) as E1. pose proof (to_entry _ _ Ht2 m2 r2 Hm2) as E2.
    apply (lookup_weaken _ _ _ _ E1) in Hsub. congruence.
  - intros -> Ha. inversion Hk; subst. destruct Hs2 as ([_ Hentry _] & _).
    destruct (Hentry m1 r1 Hm1) as (ref1 & Hr1 & T1). destruct (Hentry m2 r2 Hm2) as (ref2 & Hr2 & T2). congruence.
Qed.
End store.

(** ** Examples *)

Definition sample_sections : ElfSectionInfo :=
  mkSectionInfo (mkLayout 0 None None [mkSegment 0 4096 4096 0 5]) None None (Some (section_owned 7 [1; 2; 3])) None None None.
Definition sample_file : ElfFileIdentity := mkIdentity 8 1 0 4096 (0, 0) (0, 0).

(** Module 1 publishes an image, then another one; the first is gone, and its
    address is used again for the image of module 2. *)
Definition reuse_1 : ExactImageStore * Z := store_insert 312 40 1 sample_sections (mkImage 100 1) sample_file store_default NEXT_EXACT_IMAGE_TOKEN.
Definition reuse_2 : ExactImageStore * Z := store_insert 312 40 1 sample_sections (mkImage 200 2) sample_file reuse_1.1 reuse_1.2.
Definition reuse_3 : ExactImageStore * Z := store_insert 312 40 2 sample_sections (mkImage 100 3) sample_file reuse_2.1 reuse_2.2.

Lemma sample_sane : sane_size (elf_image_owned_bytes 312 40 sample_sections).
Proof. vm_compute. split; [discriminate|done]. Qed.

Lemma reuse_runs : nsteps (store_step 312 40) 1 store_start reuse_1 /\ nsteps (store_step 312 40) 2 reuse_1 reuse_3.
Proof.
  assert (forall st m image, (forall m' r, st_by_module st.1 !! m' = Some r -> im_address (re_image r) <> im_address image) ->
    store_step 312 40 st (store_insert 312 40 m sample_sections image sample_file st.1 st.2)) as Hstep.
  { intros [s c] m image Hd. apply step_insert; [|apply sample_sane]. intros m' r Hm Ha. by destruct (Hd m' r Hm). }
  assert (st_by_module reuse_1.1 = {[1 := mkRetained sample_sections (mkImage 100 1) NEXT_EXACT_IMAGE_TOKEN sample_file]}) as H1 by by vm_compute.
  assert (st_by_module reuse_2.1 = {[1 := mkRetained sample_sections (mkImage 200 2) (NEXT_EXACT_IMAGE_TOKEN + 1) sample_file]}) as H2 by by vm_compute.
  split.
  - apply nsteps_once. apply (Hstep store_start 1 (mkImage 100 1)). intros m r. cbn. by rewrite lookup_empty.
  - eapply nsteps_l with reuse_2; [|apply nsteps_once].
    + apply (Hstep reuse_1 1 (mkImage 200 2)). rewrite H1. intros m r [_ <-]%lookup_singleton_Some. done.
    + apply (Hstep reuse_2 2 (mkImage 100 3)). rewrite H2. intros m r [_ <-]%lookup_singleton_Some. done.
Qed.

Lemma exact_images_are_accounted_witness : st_owned_bytes reuse_1.1 = 355 /\ st_owned_bytes reuse_1.1 = total_bytes (st_image_refs reuse_1.1).
Proof.
  split; [by vm_compute|]. pose proof (exact_images_are_accounted 312 40 1 reuse_1 (proj1 reuse_runs)) as Hw.
  exact (proj1 (proj2 (proj2 (proj2 Hw)))).
Defined.

(** The image at the address that was used again has a token of its own. *)
Lemma exact_image_token_names_image_witness :
  let r1 := mkRetained sample_sections (mkImage 100 1) NEXT_EXACT_IMAGE_TOKEN sample_file in
  let r3 := mkRetained sample_sections (mkImage 100 3) (NEXT_EXACT_IMAGE_TOKEN + 2) sample_file in
  store_get 1 reuse_1.1 = Some r1 /\ store_get 2 reuse_3.1 = Some r3 /\ re_token r1 <> re_token r3.
Proof.
  intros r1 r3. assert (store_get 1 reuse_1.1 = Some r1) as H1 by by vm_compute. assert (store_get 2 reuse_3.1 = Some r3) as H3 by by vm_compute.
  split_and!; [done|done|]. intros Heq.
  pose proof (exact_image_token_names_image 312 40 1 2 reuse_1 reuse_3 1 2 r1 r3 (proj1 reuse_runs) (proj2 reuse_runs) ltac:(lia) H1 H3) as Hw.
  by apply Hw in Heq.
Defined.
