(* ===== verification/ElfCache.v ===== *)
(** * The cache of ELF sections

    [ElfSectionCache] of [src/native_module.rs]: which file of a mapping is
    opened and accepted, the images that mappings of one file share with their
    limits, the cached sections of each module, and publication to the store of
    exact images.  What the system answers (opened files, their metadata, the
    parsed sections, the vDSO) is given with each call. *)

From stdpp Require Import prelude list numbers strings gmap fin_maps.
From S2P Require Import Prelude Model Text ElfBase ElfImages.
#[local] Open Scope Z_scope.

(** ** Opening the file of a mapping *)

(** The paths that are tried. *)
Inductive ModulePath :=
  | MapFiles (pid start stop : Z)
  | TargetRoot (pid : Z) (relative : list Z)
  | PlainPath (path : list Z)
  | TargetExe (pid : Z).

Record FileMetadata := mkMetadata {
  md_is_file : bool;
  md_device : Z;
  md_major : Z;
  md_minor : Z;
  md_inode : Z;
  md_size : Z;
  md_modified : Z * Z;
  md_changed : Z * Z;
}.

Section open.
(** [open] and [metadata]: by path, and whether a link may be followed. *)
Context {File : Type} (open : ModulePath -> bool -> option File) (metadata : File -> option FileMetadata).

Definition validated_module_file (path : ModulePath) (module : ModuleRecord) (allow_symlink : bool) : option File :=
  file ← open path allow_symlink;
  meta ← metadata file;
  if negb (md_is_file meta) then None
  else if negb (m_inode module =? 0) && negb (md_inode meta =? m_inode module) then None
  else if (negb (m_device_major module =? 0) || negb (m_device_minor module =? 0))
          && (negb (md_major meta =? m_device_major module) || negb (md_minor meta =? m_device_minor module)) then None
  else Some file.

Definition or_else {A} (a : option A) (b : option A) : option A := match a with Some _ => a | None => b end.

(** [strip_prefix] of the root. *)
Definition strip_root (path : list Z) : option (list Z) :=
  match path with c :: rest => if c =? 47 then Some (trim_start_by (λ c, c =? 47) rest) else None | [] => None end.

Definition open_module_file_with_mapping_path (module : ModuleRecord) (map_file : ModulePath) : option File :=
  or_else (validated_module_file map_file module true)
    (let identity_known := negb (m_inode module =? 0) && (negb (m_device_major module =? 0) || negb (m_device_minor module =? 0)) in
     let pid := match m_owner module with Process pid => if identity_known then Some pid else None | KernelOwner => None end in
     or_else
       (pid ← pid; relative_path ← strip_root (m_path module); validated_module_file (TargetRoot pid relative_path) module false)
       (or_else (validated_module_file (PlainPath (m_path module)) module false)
          (pid ← pid; validated_module_file (TargetExe pid) module true))).

Definition open_module_file (module : ModuleRecord) : option File :=
  match m_owner module with
  | Process pid => open_module_file_with_mapping_path module (MapFiles pid (m_start module) (m_end module))
  | KernelOwner => None
  end.

(** What an accepted file is known to be. *)
Definition is_mapped_file (module : ModuleRecord) (file : File) : Prop :=
  exists meta, metadata file = Some meta /\ md_is_file meta = true /\
    (m_inode module <> 0 -> md_inode meta = m_inode module) /\
    (m_device_major module <> 0 \/ m_device_minor module <> 0 ->
     md_major meta = m_device_major module /\ md_minor meta = m_device_minor module).

Lemma validated_is_mapped path module allow file :
  validated_module_file path module allow = Some file -> is_mapped_file module file /\ open path allow = Some file.
Proof.
  unfold validated_module_file. destruct (open path allow) as [f|]; [|done]. cbn [mbind option_bind].
  destruct (metadata f) as [meta|] eqn:Hmeta; [|done]. cbn [mbind option_bind].
  destruct (md_is_file meta) eqn:Hfile; [|done]. cbn [negb].
  destruct (Z.eqb_spec (m_inode module) 0), (Z.eqb_spec (md_inode meta) (m_inode module)); cbn [negb andb]; try done;
    destruct (Z.eqb_spec (m_device_major module) 0), (Z.eqb_spec (m_device_minor module) 0),
      (Z.eqb_spec (md_major meta) (m_device_major module)), (Z.eqb_spec (md_minor meta) (m_device_minor module)); cbn [negb andb orb];
    try done; intros [= ->]; split; try done; exists meta; split_and!; try done; intros; try lia; by destruct_or?.
Qed.

Definition identity_known (module : ModuleRecord) : Prop :=
  m_inode module <> 0 /\ (m_device_major module <> 0 \/ m_device_minor module <> 0).

(** The paths of a mapping, and whether a link may be followed. *)
Definition allowed_path (module : ModuleRecord) (pid : Z) (path : ModulePath) (follow : bool) : Prop :=
  match path with
  | MapFiles p start stop => p = pid /\ start = m_start module /\ stop = m_end module /\ follow = true
  | TargetRoot p _ => p = pid /\ identity_known module /\ follow = false
  | PlainPath p => p = m_path module /\ follow = false
  | TargetExe p => p = pid /\ identity_known module /\ follow = true
  end.

(** A file that is opened for a mapping is a regular file with the recorded
    inode and device wherever these are known; links are followed only below
    [/proc]; the target's root and executable are taken only when inode and device
    are both known; and the exact mapped object wins whenever it can be opened. *)
Theorem opened_file_is_mapped_file module file :
  open_module_file module = Some file ->
  is_mapped_file module file /\
  (exists pid path allow, m_owner module = Process pid /\ open path allow = Some file /\
     allowed_path module pid path allow) /\
  (forall pid exact, m_owner module = Process pid ->
     validated_module_file (MapFiles pid (m_start module) (m_end module)) module true = Some exact -> exact = file).
Proof.
  unfold open_module_file. destruct (m_owner module) as [pid|] eqn:Ho; [|done]. unfold open_module_file_with_mapping_path. rewrite Ho.
  set (known := negb (m_inode module =? 0) && (negb (m_device_major module =? 0) || negb (m_device_minor module =? 0))).
  assert (known = true -> identity_known module) as Hknown.
  { unfold known, identity_known. rewrite andb_true_iff, orb_true_iff, !negb_true_iff, !Z.eqb_neq. tauto. }
  destruct (validated_module_file (MapFiles pid (m_start module) (m_end module)) module true) as [exact|] eqn:Hexact; cbn [or_else].
  - intros [= ->]. pose proof Hexact as Hv. apply validated_is_mapped in Hv as [Hm Hopen]. split_and!; [done| |intros p e [= <-] He; congruence].
    by exists pid, (MapFiles pid (m_start module) (m_end module)), true.
  - intros Hrest. assert (exists path allow, validated_module_file path module allow = Some file /\
      allowed_path module pid path allow) as (path & allow & Hv & Hpath).
    { destruct known eqn:Hk; cbn [mbind option_bind or_else] in Hrest.
      - specialize (Hknown eq_refl). destruct (strip_root (m_path module)) as [relative|]; cbn [mbind option_bind or_else] in Hrest.
        + destruct (validated_module_file (TargetRoot pid relative) module false) eqn:H1; cbn [or_else] in Hrest.
          * simplify_eq. by exists (TargetRoot pid relative), false.
          * destruct (validated_module_file (PlainPath (m_path module)) module false) eqn:H2; cbn [or_else] in Hrest; [simplify_eq; by exists (PlainPath (m_path module)), false|].
            by exists (TargetExe pid), true.
        + destruct (validated_module_file (PlainPath (m_path module)) module false) eqn:H2; cbn [or_else] in Hrest; [simplify_eq; by exists (PlainPath (m_path module)), false|].
          by exists (TargetExe pid), true.
      - destruct (validated_module_file (PlainPath (m_path module)) module false) eqn:H2; cbn [or_else] in Hrest; [simplify_eq; by exists (PlainPath (m_path module)), false|done]. }
    apply validated_is_mapped in Hv as [Hm Hopen]. split_and!; [done|by exists pid, path, allow|]. intros p e [= <-] He. congruence.
Qed.
End open.

(** ** The cache *)

(** A [Weak<NativeImage>]: [Weak::new()] is [None]. *)
Record CachedElfImage := mkCached {
  ce_sections : ElfSectionInfo;
  ce_token : Z;
  ce_image : option NativeImage;
  ce_identity : option ElfFileIdentity;
  ce_trusted : bool;
}.
Record SharedElfImage := mkShared {
  sh_sections : ElfSectionInfo;
  sh_token : Z;
  sh_image : NativeImage;
  sh_owned_bytes : Z;
}.

Record ElfSectionCache := mkCache {
  ec_by_module : gmap Z CachedElfImage;
  ec_by_image : gmap ElfFileIdentity SharedElfImage;
  ec_image_order : list ElfFileIdentity;
  ec_retained_owned_bytes : Z;
  ec_open_failures : gmap Z Z;
  ec_next_image_token : Z;
  ec_exact_images : bool;
  ec_publish_exact_images : bool;
}.
Definition cache_new (exact publish : bool) : ElfSectionCache := mkCache ∅ ∅ [] 0 ∅ 0 exact publish.

Inductive ElfLoadError := LoadRetryable | LoadUnsupported.

Record LoadedElfMapping := mkLoaded {
  lm_image_base : option ModuleImageBase;
  lm_sections : ElfSectionInfo;
  lm_image : option NativeImage;
  lm_image_token : Z;
}.

(** The cache, the store it shares, and the process-wide counter of tokens. *)
Record CacheState := mkState { cs_cache : ElfSectionCache; cs_store : ExactImageStore; cs_next_token : Z }.

(** What the system answers in one call. *)
Record OpenedFile := mkOpened {
  of_metadata : option FileMetadata;
  of_sections : option ElfSectionInfo;
  of_image : NativeImage;
}.
Record World := mkWorld {
  wo_opened : option OpenedFile;
  wo_vdso_sections : option (option ElfSectionInfo);
  wo_target_vdso_is_local : bool;
  wo_vdso_image : option (NativeImage * option FileMetadata);
  wo_alive : NativeImage -> option (option FileMetadata);
  wo_page_size : Z;
}.

Definition VDSO_PATH : list Z := chars "[vdso]".

Section cache.
Context (size_of_info size_of_segment : Z).
#[local] Abbreviation owned_bytes := (elf_image_owned_bytes size_of_info size_of_segment).

Definition elf_file_identity (module : ModuleRecord) (meta : option FileMetadata) : option ElfFileIdentity :=
  meta ← meta;
  Some (mkIdentity (md_device meta) (md_inode meta) (m_inode_generation module) (md_size meta) (md_modified meta) (md_changed meta)).

Definition resolve_image_base (page : Z) (module : ModuleRecord) (sections : ElfSectionInfo) : option ModuleImageBase :=
  resolve_mapping_image_base (es_layout sections) (m_file_offset module) (m_start module) (Z.max 0 (m_end module - m_start module)) page.

Definition from_cached (image : CachedElfImage) (exact : NativeImage) : SharedElfImage :=
  mkShared (ce_sections image) (ce_token image) exact (owned_bytes (ce_sections image)).

(** *** Fields *)

Definition set_by_module (by_module : gmap Z CachedElfImage) (c : ElfSectionCache) : ElfSectionCache :=
  mkCache by_module (ec_by_image c) (ec_image_order c) (ec_retained_owned_bytes c) (ec_open_failures c) (ec_next_image_token c)
    (ec_exact_images c) (ec_publish_exact_images c).
Definition set_shared (by_image : gmap ElfFileIdentity SharedElfImage) (order : list ElfFileIdentity) (bytes : Z) (c : ElfSectionCache)
    : ElfSectionCache :=
  mkCache (ec_by_module c) by_image order bytes (ec_open_failures c) (ec_next_image_token c) (ec_exact_images c) (ec_publish_exact_images c).
Definition set_failures (failures : gmap Z Z) (c : ElfSectionCache) : ElfSectionCache :=
  mkCache (ec_by_module c) (ec_by_image c) (ec_image_order c) (ec_retained_owned_bytes c) failures (ec_next_image_token c)
    (ec_exact_images c) (ec_publish_exact_images c).
Definition set_next_token (token : Z) (c : ElfSectionCache) : ElfSectionCache :=
  mkCache (ec_by_module c) (ec_by_image c) (ec_image_order c) (ec_retained_owned_bytes c) (ec_open_failures c) token
    (ec_exact_images c) (ec_publish_exact_images c).

(** *** Attempts and tokens *)

Definition failed_open (module_id : Z) (c : ElfSectionCache) : ElfLoadError * ElfSectionCache :=
  let failures := Z.min 255 (default 0 (ec_open_failures c !! module_id) + 1) in
  (if failures <? MAX_ELF_OPEN_ATTEMPTS then LoadRetryable else LoadUnsupported,
   set_failures (<[module_id := failures]> (ec_open_failures c)) c).

Definition open_attempt_allowed (module_id : Z) (c : ElfSectionCache) : bool :=
  match ec_open_failures c !! module_id with Some failures => negb (MAX_ELF_OPEN_ATTEMPTS <=? failures) | None => true end.

(** [take_image_token]. *)
Definition take_image_token (c : ElfSectionCache) : option (Z * ElfSectionCache) :=
  let token := ec_next_image_token c in
  next ← checked_add_u64 token 1; Some (token, set_next_token next c).

(** *** Shared images *)

Definition remove_shared_image (file : ElfFileIdentity) (c : ElfSectionCache) : ElfSectionCache :=
  match ec_by_image c !! file with
  | None => c
  | Some image =>
      set_shared (delete file (ec_by_image c)) (ec_image_order c) (Z.max 0 (ec_retained_owned_bytes c - sh_owned_bytes image)) c
  end.

Definition shared_over_budget (c : ElfSectionCache) : bool :=
  (MAX_SHARED_ELF_IMAGES <? size (ec_by_image c))%nat || (MAX_SHARED_ELF_OWNED_BYTES <? ec_retained_owned_bytes c).

Definition set_image_order (order : list ElfFileIdentity) (c : ElfSectionCache) : ElfSectionCache :=
  set_shared (ec_by_image c) order (ec_retained_owned_bytes c) c.

Fixpoint expire (order : list ElfFileIdentity) (c : ElfSectionCache) : ElfSectionCache :=
  if shared_over_budget c then
    match order with
    | [] => set_image_order [] c
    | expired :: order => expire order (remove_shared_image expired c)
    end
  else set_image_order order c.

Definition insert_shared_image (file : ElfFileIdentity) (image : SharedElfImage) (c : ElfSectionCache) : ElfSectionCache :=
  if MAX_SHARED_ELF_OWNED_BYTES <? sh_owned_bytes image then c
  else
    let '(order, bytes) :=
      match ec_by_image c !! file with
      | Some previous => (filter (λ cached, cached <> file) (ec_image_order c), Z.max 0 (ec_retained_owned_bytes c - sh_owned_bytes previous))
      | None => (ec_image_order c, ec_retained_owned_bytes c)
      end in
    let c := set_shared (<[file := image]> (ec_by_image c)) (order ++ [file]) (saturating_add_u64 bytes (sh_owned_bytes image)) c in
    expire (ec_image_order c) c.

Definition touch_shared_image (file : ElfFileIdentity) (c : ElfSectionCache) : ElfSectionCache :=
  set_image_order (filter (λ cached, cached <> file) (ec_image_order c) ++ [file]) c.

(** *** Loading a mapping *)

Definition unsupported_module (module : ModuleRecord) : bool :=
  module_is_kernel module || bool_decide (m_path module = [])
  || (has_prefix (chars "[") (m_path module) && negb (bool_decide (m_path module = VDSO_PATH))).

(** The vDSO: its sections, and the local image when the target's is equal. *)
Definition load_vdso (w : World) (module : ModuleRecord) (c : ElfSectionCache)
    : (ElfLoadError + CachedElfImage * option NativeImage) * ElfSectionCache :=
  match wo_vdso_sections w with
  | None => (inl LoadUnsupported, c)
  | Some sections =>
      let exact := if ec_publish_exact_images c && wo_target_vdso_is_local w then wo_vdso_image w else None in
      match sections with
      | None => (inl LoadUnsupported, c)
      | Some sections =>
          match take_image_token c with
          | None => (inl LoadUnsupported, c)
          | Some (token, c) =>
              (inr (mkCached sections token (fst <$> exact) ('(_, meta) ← exact; elf_file_identity module meta) false, fst <$> exact), c)
          end
      end
  end.

(** A file: shared with the mappings of the same file, or parsed. *)
Definition load_file (w : World) (module : ModuleRecord) (c : ElfSectionCache)
    : (ElfLoadError + CachedElfImage * option NativeImage) * ElfSectionCache :=
  if negb (open_attempt_allowed (m_id module) c) then (inl LoadUnsupported, c)
  else
    match wo_opened w with
    | None => let '(e, c) := failed_open (m_id module) c in (inl e, c)
    | Some file =>
        match elf_file_identity module (of_metadata file) with
        | None => let '(e, c) := failed_open (m_id module) c in (inl e, c)
        | Some id =>
            match ec_by_image c !! id with
            | Some shared =>
                (inr (mkCached (sh_sections shared) (sh_token shared) (Some (sh_image shared)) (Some id) false, Some (sh_image shared)),
                 touch_shared_image id c)
            | None =>
                match of_sections file with
                | None => (inl LoadUnsupported, c)
                | Some sections =>
                    match take_image_token c with
                    | None => (inl LoadUnsupported, c)
                    | Some (token, c) =>
                        let image := mkCached sections token (Some (of_image file)) (Some id) false in
                        (inr (image, Some (of_image file)), insert_shared_image id (from_cached image (of_image file)) c)
                    end
                end
            end
        end
    end.

Definition load_mapping (w : World) (module : ModuleRecord) (st : CacheState) : (ElfLoadError + LoadedElfMapping) * CacheState :=
  let c := cs_cache st in
  if unsupported_module module then (inl LoadUnsupported, st)
  else
    match ec_by_module c !! m_id module with
    | Some image =>
        (inr (mkLoaded (resolve_image_base (wo_page_size w) module (ce_sections image)) (ce_sections image)
                (image ← ce_image image; _ ← wo_alive w image; Some image) (ce_token image)), st)
    | None =>
        let '(loaded, c) :=
          if bool_decide (m_path module = VDSO_PATH) then load_vdso w module c
          else
            match (if ec_exact_images c then store_get (m_id module) (cs_store st) else None) with
            | Some retained =>
                (inr (mkCached (re_sections retained) (re_token retained) (Some (re_image retained)) (Some (re_identity retained)) true,
                      Some (re_image retained)), c)
            | None => load_file w module c
            end in
        match loaded with
        | inl e => (inl e, mkState c (cs_store st) (cs_next_token st))
        | inr (image, exact) =>
            let c := set_by_module (<[m_id module := image]> (ec_by_module c)) (set_failures (delete (m_id module) (ec_open_failures c)) c) in
            let '(store, next_token) :=
              match (if ec_publish_exact_images c then ec_exact_images c else false), exact, ce_identity image with
              | true, Some exact, Some id =>
                  store_insert size_of_info size_of_segment (m_id module) (ce_sections image) exact id (cs_store st) (cs_next_token st)
              | _, _, _ => (cs_store st, cs_next_token st)
              end in
            (inr (mkLoaded (resolve_image_base (wo_page_size w) module (ce_sections image)) (ce_sections image) exact (ce_token image)),
             mkState c store next_token)
        end
    end.

(** *** Acquiring an image again *)

Definition acquire_image (w : World) (module : ModuleRecord) (c : ElfSectionCache) : (ElfLoadError + NativeImage) * ElfSectionCache :=
  if bool_decide (m_path module = VDSO_PATH) then (inl LoadUnsupported, c)
  else
    let current :=
      cached ← ec_by_module c !! m_id module;
      image ← ce_image cached;
      meta ← wo_alive w image;
      if ce_trusted cached || bool_decide (elf_file_identity module meta = ce_identity cached) then Some image else None in
    match current with
    | Some image => (inr image, c)
    | None =>
        if negb (open_attempt_allowed (m_id module) c) then (inl LoadUnsupported, c)
        else
          match wo_opened w with
          | None => let '(e, c) := failed_open (m_id module) c in (inl e, c)
          | Some file =>
              match elf_file_identity module (of_metadata file) with
              | None => let '(e, c) := failed_open (m_id module) c in (inl e, c)
              | Some id =>
                  match ec_by_module c !! m_id module with
                  | None => (inl LoadUnsupported, c)
                  | Some image =>
                      if negb (bool_decide (ce_identity image = Some id)) then (inl LoadUnsupported, c)
                      else
                        let with_image exact := mkCached (ce_sections image) (ce_token image) (Some exact) (ce_identity image) (ce_trusted image) in
                        match ec_by_image c !! id with
                        | Some shared =>
                            let exact := sh_image shared in
                            let c := set_by_module (<[m_id module := with_image exact]> (ec_by_module c)) c in
                            (inr exact, set_failures (delete (m_id module) (ec_open_failures c)) (touch_shared_image id c))
                        | None =>
                            match of_sections file with
                            | None => (inl LoadUnsupported, c)
                            | Some current_sections =>
                                if negb (info_same_layout (ce_sections image) current_sections) then (inl LoadUnsupported, c)
                                else
                                  let exact := of_image file in
                                  let image := with_image exact in
                                  let c := set_by_module (<[m_id module := image]> (ec_by_module c)) c in
                                  let c := insert_shared_image id (from_cached image exact) c in
                                  (inr exact, set_failures (delete (m_id module) (ec_open_failures c)) c)
                            end
                        end
                  end
              end
          end
    end.

Definition cache_remove (module_id : Z) (c : ElfSectionCache) : ElfSectionCache :=
  set_failures (delete module_id (ec_open_failures c)) (set_by_module (delete module_id (ec_by_module c)) c).
Definition cache_contains (module_id : Z) (c : ElfSectionCache) : bool := bool_decide (is_Some (ec_by_module c !! module_id)).

Definition cache_reuse (source_id module_id : Z) (st : CacheState) : bool * CacheState :=
  let c := cs_cache st in
  match ec_by_module c !! source_id with
  | None => (false, st)
  | Some image =>
      let c := set_failures (delete module_id (ec_open_failures c)) (set_by_module (<[module_id := image]> (ec_by_module c)) c) in
      let '(store, next_token) :=
        if ec_exact_images c then store_alias size_of_info size_of_segment source_id module_id (cs_store st) (cs_next_token st)
        else (cs_store st, cs_next_token st) in
      (true, mkState c store next_token)
  end.

Definition holds_local_vdso (module_id : Z) (st : CacheState) : bool :=
  ec_exact_images (cs_cache st) && bool_decide (is_Some (store_get module_id (cs_store st))).

(** ** Accounting of shared images *)

Definition shared_bytes (by_image : gmap ElfFileIdentity SharedElfImage) : Z := map_fold (λ _ i total, sh_owned_bytes i + total) 0 by_image.

Lemma shared_bytes_insert by_image f i :
  by_image !! f = None -> shared_bytes (<[f := i]> by_image) = sh_owned_bytes i + shared_bytes by_image.
Proof. intros Hf. unfold shared_bytes. rewrite map_fold_insert_L; [done| |done]. intros. lia. Qed.

Lemma shared_bytes_delete by_image f i :
  by_image !! f = Some i -> shared_bytes (delete f by_image) = shared_bytes by_image - sh_owned_bytes i.
Proof. intros Hf. rewrite <-(insert_delete_id by_image f i Hf) at 2. rewrite shared_bytes_insert by apply lookup_delete_eq. lia. Qed.

Definition shared_sane (by_image : gmap ElfFileIdentity SharedElfImage) : Prop :=
  forall f i, by_image !! f = Some i -> 0 <= sh_owned_bytes i <= MAX_SHARED_ELF_OWNED_BYTES.

Lemma shared_bytes_pos by_image : shared_sane by_image -> 0 <= shared_bytes by_image.
Proof.
  unfold shared_sane. induction by_image as [|f i by_image Hf IH] using map_ind; intros Hall; [done|]. rewrite shared_bytes_insert by done.
  pose proof (Hall f i (lookup_insert_eq _ _ _)) as Hi. enough (0 <= shared_bytes by_image) by lia.
  apply IH. intros g j Hg. apply (Hall g). rewrite lookup_insert_ne; [done|]. intros ->. congruence.
Qed.

(** The queue names every shared image once, and the bytes are theirs. *)
Record shared_acc (order : list ElfFileIdentity) (c : ElfSectionCache) : Prop := {
  sa_nodup : NoDup order;
  sa_order : forall f, f ∈ order <-> is_Some (ec_by_image c !! f);
  sa_bytes : ec_retained_owned_bytes c = shared_bytes (ec_by_image c);
  sa_sane : shared_sane (ec_by_image c);
}.
Definition shared_ok (c : ElfSectionCache) : Prop := shared_acc (ec_image_order c) c /\ shared_over_budget c = false.

Lemma remove_shared_acc f order c : shared_acc (f :: order) c -> shared_acc order (remove_shared_image f c).
Proof.
  intros [Hnd Hin Hb Hs]. apply NoDup_cons in Hnd as [Hnot Hnd]. unfold remove_shared_image.
  destruct (proj1 (Hin f) ltac:(by left)) as [i Hi]. rewrite Hi.
  assert (shared_sane (delete f (ec_by_image c))) as Hs' by (intros g j [_ Hg]%lookup_delete_Some; by apply (Hs g)).
  split; [done| | |done].
  - intros g. cbn. specialize (Hin g). rewrite elem_of_cons in Hin. destruct (decide (g = f)) as [->|Hne].
    + rewrite lookup_delete_eq. split; [done|by intros [? ?]].
    + rewrite lookup_delete_ne by done. naive_solver.
  - cbn. pose proof (shared_bytes_pos _ Hs') as Hpos. rewrite (shared_bytes_delete _ _ _ Hi) in Hpos |- *. lia.
Qed.

Lemma empty_shared_in_budget c : shared_acc [] c -> shared_over_budget c = false.
Proof.
  intros [_ Hin Hb _]. assert (ec_by_image c = ∅) as He.
  { apply map_empty. intros f. apply eq_None_not_Some. rewrite <-Hin. by intros ?%elem_of_nil. }
  unfold shared_over_budget. rewrite Hb, He. by rewrite map_size_empty.
Qed.

Lemma expire_ok order : forall c, shared_acc order c -> shared_ok (expire order c).
Proof.
  induction order as [|f order IH]; intros c Hc; cbn [expire].
  - rewrite (empty_shared_in_budget c Hc). split; [by destruct Hc|exact (empty_shared_in_budget c Hc)].
  - destruct (shared_over_budget c) eqn:Hb; [by apply IH, remove_shared_acc|]. split; [by destruct Hc|done].
Qed.

Lemma filter_out_order (order : list ElfFileIdentity) f : NoDup order -> NoDup (filter (λ x, x <> f) order ++ [f]).
Proof.
  intros Hnd. apply NoDup_app. split_and!; [by apply NoDup_filter| |by apply NoDup_singleton].
  intros x Hx ->%list_elem_of_singleton. apply list_elem_of_filter in Hx. tauto.
Qed.

Lemma insert_shared_ok f i c : shared_ok c -> 0 <= sh_owned_bytes i -> shared_ok (insert_shared_image f i c).
Proof.
  intros [[Hnd Hin Hb Hs] Hbudget] Hi. unfold insert_shared_image.
  destruct (Z.ltb_spec MAX_SHARED_ELF_OWNED_BYTES (sh_owned_bytes i)) as [|Hsmall]; [done|].
  apply orb_false_iff in Hbudget as [_ Hbytes]. apply Z.ltb_ge in Hbytes.
  assert (shared_sane (<[f := i]> (ec_by_image c))) as Hs'.
  { intros g j. destruct (decide (g = f)) as [->|Hne]; [rewrite lookup_insert_eq; intros [= <-]; lia|]. rewrite lookup_insert_ne by done. apply Hs. }
  destruct (ec_by_image c !! f) as [previous|] eqn:Hf; apply expire_ok; cbn [ec_image_order set_shared]; split; cbn [ec_by_image ec_retained_owned_bytes set_shared]; try done.
  - by apply filter_out_order.
  - intros g. rewrite elem_of_app, list_elem_of_filter, list_elem_of_singleton, Hin. destruct (decide (g = f)) as [->|Hne].
    + rewrite lookup_insert_eq. split; [by eexists|by right].
    + rewrite lookup_insert_ne by done. naive_solver.
  - pose proof (shared_bytes_pos (delete f (ec_by_image c)) ltac:(intros g j [_ Hg]%lookup_delete_Some; by apply (Hs g))) as Hpos.
    rewrite <-insert_delete_eq, shared_bytes_insert by apply lookup_delete_eq. rewrite (shared_bytes_delete _ _ _ Hf) in Hpos |- *. rewrite Hb in *.
    unfold saturating_add_u64, MAX_SHARED_ELF_OWNED_BYTES, u64_max in *. pose proof (Hs f previous Hf). lia.
  - apply NoDup_app. split_and!; [done| |by apply NoDup_singleton]. intros g Hg ->%list_elem_of_singleton. apply Hin in Hg as [? Hg]. congruence.
  - intros g. rewrite elem_of_app, list_elem_of_singleton, Hin. destruct (decide (g = f)) as [->|Hne].
    + rewrite lookup_insert_eq. split; [by eexists|by right].
    + rewrite lookup_insert_ne by done. naive_solver.
  - rewrite shared_bytes_insert by done. rewrite Hb in *. unfold saturating_add_u64, MAX_SHARED_ELF_OWNED_BYTES, u64_max in *. lia.
Qed.

Lemma touch_shared_ok f c : shared_ok c -> is_Some (ec_by_image c !! f) -> shared_ok (touch_shared_image f c).
Proof.
  intros [[Hnd Hin Hb Hs] Hbudget] Hf. split; [|done]. split; cbn; [by apply filter_out_order| |done|done].
  intros g. rewrite elem_of_app, list_elem_of_filter, list_elem_of_singleton, Hin. destruct (decide (g = f)) as [->|Hne]; naive_solver.
Qed.

(** ** The operations keep the limits *)

Lemma expire_by_module order : forall c, ec_by_module (expire order c) = ec_by_module c /\ ec_by_image (expire order c) ⊆ ec_by_image c.
Proof.
  induction order as [|f order IH]; intros c; cbn [expire]; [by destruct (shared_over_budget c)|].
  destruct (shared_over_budget c); [|done]. destruct (IH (remove_shared_image f c)) as [H1 H2].
  unfold remove_shared_image in *. destruct (ec_by_image c !! f); [|done]. split; [done|]. etrans; [exact H2|]. apply delete_subseteq.
Qed.

Lemma insert_shared_frame f i c :
  ec_by_module (insert_shared_image f i c) = ec_by_module c /\ ec_by_image (insert_shared_image f i c) ⊆ <[f := i]> (ec_by_image c) \/
  insert_shared_image f i c = c.
Proof.
  unfold insert_shared_image. case_match; [by right|]. left. destruct (ec_by_image c !! f).
  all: match goal with |- context [expire ?order ?d] => destruct (expire_by_module order d) as [H1 H2] end; split; [exact H1|exact H2].
Qed.

#[local] Abbreviation sane sections := (sane_size (owned_bytes sections)).

(** All sections that are kept have sizes of real buffers. *)
Record sections_sane (c : ElfSectionCache) : Prop := {
  ss_module : forall m e, ec_by_module c !! m = Some e -> sane (ce_sections e);
  ss_image : forall f i, ec_by_image c !! f = Some i -> sane (sh_sections i);
}.
Definition cache_ok (c : ElfSectionCache) : Prop := shared_ok c /\ sections_sane c.
Definition retained_sane (s : ExactImageStore) : Prop := forall m r, st_by_module s !! m = Some r -> sane (re_sections r).
Definition state_ok (st : CacheState) : Prop :=
  cache_ok (cs_cache st) /\ store_ok (cs_store st) /\ retained_sane (cs_store st).
Definition world_sane (w : World) : Prop :=
  (forall f sections, wo_opened w = Some f -> of_sections f = Some sections -> sane sections) /\
  (forall sections, wo_vdso_sections w = Some (Some sections) -> sane sections).

Lemma cache_ok_failures failures c : cache_ok c -> cache_ok (set_failures failures c).
Proof. by intros [[[] ?] []]. Qed.

Lemma cache_ok_token token c : cache_ok c -> cache_ok (set_next_token token c).
Proof. by intros [[[] ?] []]. Qed.

Lemma cache_ok_by_module by_module c :
  cache_ok c -> (forall m e, by_module !! m = Some e -> sane (ce_sections e)) -> cache_ok (set_by_module by_module c).
Proof. by intros [[[] ?] []] ?. Qed.

Lemma cache_ok_insert_module m e c : cache_ok c -> sane (ce_sections e) -> cache_ok (set_by_module (<[m := e]> (ec_by_module c)) c).
Proof.
  intros Hc He. apply cache_ok_by_module; [done|]. intros m' e' [[<- <-]|[_ Hm]]%lookup_insert_Some; [done|]. by apply (ss_module _ (proj2 Hc) m').
Qed.

Lemma cache_ok_touch f c : cache_ok c -> is_Some (ec_by_image c !! f) -> cache_ok (touch_shared_image f c).
Proof. intros [Hs []] Hf. split; [by apply touch_shared_ok|done]. Qed.

Lemma cache_ok_insert_shared f image exact c :
  cache_ok c -> sane (ce_sections image) -> cache_ok (insert_shared_image f (from_cached image exact) c).
Proof.
  intros [Hs Hsec] Hsane. split; [apply insert_shared_ok; [done|apply Hsane]|].
  destruct (insert_shared_frame f (from_cached image exact) c) as [[Hm Hi]|Heq]; [|by rewrite Heq]. destruct Hsec as [H1 H2]. split; [by rewrite Hm|].
  intros g i Hg. apply (lookup_weaken _ _ _ _ Hg) in Hi. apply lookup_insert_Some in Hi as [[<- <-]|[_ Hi]]; [done|]. by apply (H2 g).
Qed.

Lemma load_vdso_ok w module c :
  cache_ok c -> world_sane w ->
  cache_ok (load_vdso w module c).2 /\ (forall p, (load_vdso w module c).1 = inr p -> sane (ce_sections p.1)).
Proof.
  intros Hc [_ Hw]. unfold load_vdso. destruct (wo_vdso_sections w) as [[sections|]|] eqn:Hv; [|done..]. unfold take_image_token.
  destruct (checked_add_u64 _ _) as [next|]; cbn [mbind option_bind]; [|done]. split; [by apply cache_ok_token|].
  intros p [= <-]. by apply Hw.
Qed.

Lemma load_file_ok w module c :
  cache_ok c -> world_sane w ->
  cache_ok (load_file w module c).2 /\ (forall p, (load_file w module c).1 = inr p -> sane (ce_sections p.1)).
Proof.
  intros Hc [Hw _]. unfold load_file. destruct (open_attempt_allowed (m_id module) c); [|done]. cbn [negb].
  destruct (wo_opened w) as [f|] eqn:Hf; [|by split; [apply cache_ok_failures|]].
  destruct (elf_file_identity module (of_metadata f)) as [id|]; [|by split; [apply cache_ok_failures|]].
  destruct (ec_by_image c !! id) as [shared|] eqn:Hsh.
  - split; [by apply cache_ok_touch|]. intros p [= <-]. by apply (ss_image _ (proj2 Hc) id).
  - destruct (of_sections f) as [sections|] eqn:Hs; [|done]. unfold take_image_token.
    destruct (checked_add_u64 _ _) as [next|]; cbn [mbind option_bind]; [|done].
    split; [|intros p [= <-]; by apply (Hw f)]. apply cache_ok_insert_shared; [by apply cache_ok_token|by apply (Hw f)].
Qed.

Lemma store_insert_sane m sections image file s c :
  store_ok s -> retained_sane s -> sane sections -> retained_sane (store_insert size_of_info size_of_segment m sections image file s c).1.
Proof.
  intros Hs Hr Hz. rewrite store_insert_unfold. destruct (without_ok m s Hs) as [(He & Ho & Hb) Hdel].
  destruct (add_entry_ok size_of_info size_of_segment m sections image file (without m s) c He Ho) as [He' Ho']; [by rewrite Hdel, lookup_delete_eq|done|done|].
  destruct (evict_ok _ _ He' Ho') as (_ & _ & _ & Hev).
  set (added := add_entry size_of_info size_of_segment m sections image file (without m s) c) in *.
  assert (retained_sane added) as Hadded.
  { assert (exists token, st_by_module added = <[m := mkRetained sections image token file]> (st_by_module (without m s))) as [token Ha].
    { unfold added, add_entry, add_ref. destruct (st_image_refs (without m s) !! _); cbn; by eexists. }
    intros m' r Hm. rewrite Ha in Hm. apply lookup_insert_Some in Hm as [[<- <-]|[_ Hm]]; [done|]. rewrite Hdel in Hm. apply lookup_delete_Some in Hm as [_ Hm]. by apply (Hr m'). }
  assert (retained_sane (evict (st_order added) added)) as Hfin.
  { intros m' r Hm. apply (Hadded m'). by eapply lookup_weaken. }
  destruct (st_by_module s !! m) as [r|]; [destruct (im_address (re_image r) =? im_address image)|]; done.
Qed.

Lemma load_mapping_ok w module st : state_ok st -> world_sane w -> state_ok (load_mapping w module st).2.
Proof.
  intros (Hc & Hs & Hr) Hw. unfold load_mapping. destruct (unsupported_module module); [done|].
  destruct (ec_by_module (cs_cache st) !! m_id module) as [e|]; [done|].
  match goal with |- context [let '(loaded, cache) := ?run in _] => destruct run as [loaded c] eqn:Hl end.
  assert (cache_ok c /\ forall p, loaded = inr p -> sane (ce_sections p.1)) as [Hc' Hp].
  { case_bool_decide.
    - pose proof (load_vdso_ok w module (cs_cache st) Hc Hw) as Hok. by rewrite Hl in Hok.
    - destruct (if ec_exact_images (cs_cache st) then _ else _) as [retained|] eqn:Hret.
      + simplify_eq. split; [done|]. intros p [= <-]. destruct (ec_exact_images (cs_cache st)); [|done]. by apply (Hr (m_id module)).
      + pose proof (load_file_ok w module (cs_cache st) Hc Hw) as Hok. by rewrite Hl in Hok. }
  destruct loaded as [e|[image exact]]; [done|]. specialize (Hp _ eq_refl). cbn [fst] in Hp.
  set (c' := set_by_module _ _). assert (cache_ok c') as Hok.
  { unfold c'. apply (cache_ok_insert_module _ _ (set_failures _ c)); [by apply cache_ok_failures|done]. }
  destruct (if ec_publish_exact_images c' then _ else _); [|done]. destruct exact as [exact|]; [|done].
  destruct (ce_identity image) as [id|]; [|done].
  pose proof (store_insert_ok size_of_info size_of_segment (m_id module) (ce_sections image) exact id (cs_store st) (cs_next_token st) Hs Hp) as H1.
  pose proof (store_insert_sane (m_id module) (ce_sections image) exact id (cs_store st) (cs_next_token st) Hs Hr Hp) as H2.
  destruct (store_insert _ _ _ _ _ _ _ _) as [store next]. by split_and!.
Qed.

Lemma acquire_image_ok w module c : cache_ok c -> world_sane w -> cache_ok (acquire_image w module c).2.
Proof.
  intros Hc [Hw _]. unfold acquire_image. case_bool_decide; [done|]. cbn zeta.
  match goal with |- context [match ?x with Some image => (inr image, c) | None => _ end] => destruct x; [done|] end.
  destruct (open_attempt_allowed (m_id module) c); [|done]. cbn [negb].
  destruct (wo_opened w) as [f|] eqn:Hf; [|by apply cache_ok_failures].
  destruct (elf_file_identity module (of_metadata f)) as [id|]; [|by apply cache_ok_failures].
  destruct (ec_by_module c !! m_id module) as [image|] eqn:Hm; [|done]. destruct (negb _); [done|].
  pose proof (ss_module _ (proj2 Hc) _ _ Hm) as Hsane.
  destruct (ec_by_image c !! id) as [shared|] eqn:Hsh.
  - apply cache_ok_failures, cache_ok_touch; [by apply cache_ok_insert_module|]. by eexists.
  - destruct (of_sections f) as [sections|]; [|done]. destruct (negb _); [done|].
    apply cache_ok_failures, cache_ok_insert_shared; [by apply cache_ok_insert_module|done].
Qed.

Lemma cache_reuse_ok source m st : state_ok st -> state_ok (cache_reuse source m st).2.
Proof.
  intros (Hc & Hs & Hr). unfold cache_reuse. destruct (ec_by_module (cs_cache st) !! source) as [image|] eqn:Hm; [|done].
  set (c' := set_failures _ _). assert (cache_ok c') as Hok.
  { apply cache_ok_failures, cache_ok_insert_module; [done|]. by apply (ss_module _ (proj2 Hc) source). }
  destruct (ec_exact_images c'); [|done]. unfold store_alias, store_get. destruct (st_by_module (cs_store st) !! source) as [r|] eqn:Hret; [|done].
  pose proof (Hr _ _ Hret) as Hz.
  pose proof (store_insert_ok size_of_info size_of_segment m (re_sections r) (re_image r) (re_identity r) (cs_store st) (cs_next_token st) Hs Hz) as H1.
  pose proof (store_insert_sane m (re_sections r) (re_image r) (re_identity r) (cs_store st) (cs_next_token st) Hs Hr Hz) as H2.
  destruct (store_insert _ _ _ _ _ _ _ _) as [store next]. by split_and!.
Qed.

Lemma cache_remove_ok m c : cache_ok c -> cache_ok (cache_remove m c).
Proof.
  intros Hc. apply cache_ok_failures, cache_ok_by_module; [done|]. intros m' e [_ He]%lookup_delete_Some. by apply (ss_module _ (proj2 Hc) m').
Qed.

(** What a recorder does with its cache, whatever the system answers. *)
Inductive cache_step : CacheState -> CacheState -> Prop :=
  | cache_step_load w module st : world_sane w -> cache_step st (load_mapping w module st).2
  | cache_step_acquire w module c store next :
      world_sane w -> cache_step (mkState c store next) (mkState (acquire_image w module c).2 store next)
  | cache_step_reuse source m st : cache_step st (cache_reuse source m st).2
  | cache_step_remove m c store next : cache_step (mkState c store next) (mkState (cache_remove m c) store next).

Definition cache_start (exact publish : bool) : CacheState := mkState (cache_new exact publish) store_default NEXT_EXACT_IMAGE_TOKEN.

Lemma cache_start_ok exact publish : state_ok (cache_start exact publish).
Proof.
  destruct store_default_ok as [He Ho]. split_and!; [|by split_and!|intros m r; cbn; by rewrite lookup_empty].
  split; [split; [|done]; split; cbn|split; cbn].
  - constructor.
  - intros f. rewrite lookup_empty. split; [by intros ?%elem_of_nil|by intros [? ?]].
  - done.
  - intros f i. by rewrite lookup_empty.
  - intros m e. by rewrite lookup_empty.
  - intros f i. by rewrite lookup_empty.
Qed.

Lemma image_cache_step_ok st st' : cache_step st st' -> state_ok st -> state_ok st'.
Proof.
  intros [w module s Hw|w module c store next Hw|source m s|m c store next] Hs.
  - by apply load_mapping_ok.
  - destruct Hs as (Hc & Hst & Hr). split_and!; [by apply acquire_image_ok|done|done].
  - by apply cache_reuse_ok.
  - destruct Hs as (Hc & Hst & Hr). split_and!; [by apply cache_remove_ok|done|done].
Qed.

(** Whatever mappings are loaded, reacquired, reused and removed, and
    whatever the system answers, the cache keeps at most 256 shared images of at
    most 64 MiB, counts exactly their bytes, and its queue, from which the least
    recently used is dropped, names each of them exactly once. *)
Theorem shared_images_are_bounded exact publish st :
  rtc cache_step (cache_start exact publish) st ->
  let c := cs_cache st in
  (size (ec_by_image c) <= MAX_SHARED_ELF_IMAGES)%nat /\ ec_retained_owned_bytes c <= MAX_SHARED_ELF_OWNED_BYTES /\
  ec_retained_owned_bytes c = shared_bytes (ec_by_image c) /\ NoDup (ec_image_order c) /\
  (forall f, f ∈ ec_image_order c <-> is_Some (ec_by_image c !! f)).
Proof.
  intros Hsteps c. assert (state_ok st) as ([[[Hnd Hin Hb _] Hbudget] _] & _).
  { clear c. assert (forall a, rtc cache_step a st -> state_ok a -> state_ok st) as Hall; [|apply (Hall _ Hsteps), cache_start_ok].
    clear Hsteps. induction 1 as [|a b ? Hab _ IH]; intros Ha; [done|]. apply IH. by eapply image_cache_step_ok. }
  unfold shared_over_budget in Hbudget. rewrite orb_false_iff, Nat.ltb_ge, Z.ltb_ge in Hbudget. destruct Hbudget as [H1 H2]. by split_and!.
Qed.

(** A module that could not be opened twice is not opened again. *)
Lemma given_up_module_is_not_opened w w' module c failures :
  ec_open_failures c !! m_id module = Some failures -> MAX_ELF_OPEN_ATTEMPTS <= failures ->
  load_file w module c = load_file w' module c /\ load_file w module c = (inl LoadUnsupported, c).
Proof.
  intros Hf Hle. unfold load_file, open_attempt_allowed. rewrite Hf. by rewrite (proj2 (Z.leb_le _ _)).
Qed.
End cache.

(** ** Examples *)

Definition sample_module : ModuleRecord := mkModule 1 (Process 42) 4096 8192 0 77 8 1 0 (chars "/lib/a.so") None.
Definition sample_open (path : ModulePath) (follow : bool) : option Z :=
  match path with PlainPath _ => Some 1 | TargetRoot _ _ => Some 2 | _ => None end.
Definition sample_metadata (file : Z) : option FileMetadata :=
  Some (mkMetadata true 2049 8 1 (if file =? 1 then 78 else 77) 4096 (0, 0) (0, 0)).

(** The path was replaced in the recorder's root, but not in the target's. *)
Lemma opened_file_is_mapped_file_witness :
  open_module_file sample_open sample_metadata sample_module = Some 2 /\ is_mapped_file sample_metadata sample_module 2.
Proof.
  assert (open_module_file sample_open sample_metadata sample_module = Some 2) as Ho by by vm_compute.
  split; [done|]. exact (proj1 (opened_file_is_mapped_file sample_open sample_metadata sample_module 2 Ho)).
Defined.

Definition sample_world : World :=
  mkWorld (Some (mkOpened (sample_metadata 2) (Some sample_sections) (mkImage 100 1))) None false None (λ _, None) 4096.
Definition sample_loaded : CacheState := (load_mapping 312 40 sample_world sample_module (cache_start true true)).2.

Lemma shared_images_are_bounded_witness :
  size (ec_by_image (cs_cache sample_loaded)) = 1%nat /\
  ec_retained_owned_bytes (cs_cache sample_loaded) = shared_bytes (ec_by_image (cs_cache sample_loaded)).
Proof.
  split; [by vm_compute|].
  assert (rtc (cache_step 312 40) (cache_start true true) sample_loaded) as Hrun.
  { apply rtc_once, cache_step_load. split; [intros f sections [= <-] [= <-]; apply sample_sane|done]. }
  pose proof (shared_images_are_bounded 312 40 true true sample_loaded Hrun) as Hw. exact (proj1 (proj2 (proj2 Hw))).
Defined.
