(* ===== verification/Discovery.v ===== *)
(** * Finding the JIT descriptor of an image

    [crates/stackpulse-jit/src/discovery.rs] and [discovery/hash.rs]: the symbol
    of the descriptor is looked up through the hash tables of an ELF image and
    in its symbol tables when it has none.  Both kinds of hash tables, as a
    linker writes them, give what a scan of the dynamic symbols gives. *)

From stdpp Require Import prelude list numbers strings gmap sorting.
From S2P Require Import Prelude Text ElfBase.
#[local] Open Scope Z_scope.

(** ** Bytes *)

(** [bytes.get(offset..)] and [bytes.get(..size)]. *)
Definition bytes_from (offset : Z) (bytes : list Z) : option (list Z) :=
  if offset <=? Z.of_nat (length bytes) then Some (drop (Z.to_nat offset) bytes) else None.
Definition bytes_to (size : Z) (bytes : list Z) : option (list Z) :=
  if size <=? Z.of_nat (length bytes) then Some (take (Z.to_nat size) bytes) else None.
Definition split_at_checked (size : Z) (bytes : list Z) : option (list Z * list Z) :=
  if size <=? Z.of_nat (length bytes) then Some (take (Z.to_nat size) bytes, drop (Z.to_nat size) bytes) else None.
Definition checked_mul_usize (a b : Z) : option Z := if a * b <=? u64_max then Some (a * b) else None.
Definition malformed {A} (o : option A) : result A := ok_or InvalidData o.

(** [Ctx] of goblin: whether the image is 64-bit and little-endian. *)
Record Ctx := mkElfCtx { is_big : bool; is_little_endian : bool }.
Definition ctx_size (ctx : Ctx) : Z := if is_big ctx then 8 else 4.
(** [Sym::size]. *)
Definition symbol_size (ctx : Ctx) : Z := if is_big ctx then 24 else 16.

Definition word (bytes : list Z) (index : Z) (ctx : Ctx) : result Z :=
  offset ← malformed (checked_mul_usize index 4);
  match bytes_from offset bytes ≫= bytes_to 4 with
  | Some [b0; b1; b2; b3] =>
      Ok (if is_little_endian ctx then b0 + b1 * 2 ^ 8 + b2 * 2 ^ 16 + b3 * 2 ^ 24 else b3 + b2 * 2 ^ 8 + b1 * 2 ^ 16 + b0 * 2 ^ 24)
  | _ => Err InvalidData
  end.

(** ** Hashes *)

Definition JIT_DESCRIPTOR_SYMBOL : list Z := chars "__jit_debug_descriptor".
Definition wrap_u32 (n : Z) : Z := n mod 2 ^ 32.
Definition gnu_hash (name : list Z) : Z := foldl (λ hash c, wrap_u32 (wrap_u32 (hash * 33) + c)) 5381 name.
Definition sysv_hash (name : list Z) : Z :=
  foldl (λ hash c,
    let hash := wrap_u32 (wrap_u32 (Z.shiftl hash 4) + c) in
    let high := Z.land hash 0xf0000000 in
    Z.ldiff (Z.lxor hash (Z.shiftr high 24)) high) 0 name.
Definition GNU_HASH : Z := gnu_hash JIT_DESCRIPTOR_SYMBOL.
Definition SYSV_HASH : Z := sysv_hash JIT_DESCRIPTOR_SYMBOL.

(** ** What goblin and memchr read *)

Record Sym := mkSym { st_name : Z; st_value : Z; st_shndx : Z }.
Definition SHN_UNDEF : Z := 0.
(** The entries of the dynamic section that are used. *)
Record DynamicInfo := mkDynamic {
  di_gnu_hash : option Z;
  di_hash : option Z;
  di_symtab : Z;
  di_syment : Z;
  di_strtab : Z;
  di_strsz : Z;
}.
Record SectionHeader := mkSection { sh_type : Z; sh_offset : Z; sh_size : Z; sh_entsize : Z; sh_link : Z }.
Record ElfHeader := mkElfHeader { e_phoff : Z; e_ctx : Ctx }.

(** [symbol_at ctx bytes offset] is the one symbol [Symtab::parse] reads there,
    [symbols_of ctx table count] are the symbols a table iterates; the other
    calls parse the parts of a file, [parse_relocations] the symbol indices of
    the three relocation tables of the dynamic section. *)
Class Goblin := {
  parse_header : list Z -> option ElfHeader;
  parse_program_headers : list Z -> ElfHeader -> option (list ProgramHeader);
  parse_dynamic : list Z -> list ProgramHeader -> Ctx -> option (option DynamicInfo);
  parse_sections : list Z -> ElfHeader -> option (list SectionHeader);
  parse_relocations : list Z -> DynamicInfo -> Ctx -> option (list Z);
  symbol_at : Ctx -> list Z -> Z -> option Sym;
  symbols_of : Ctx -> list Z -> Z -> option (list Sym);
  memmem_find : list Z -> list Z -> option Z;
}.

Section lookup.
Context `{Goblin}.

(** [strip_prefix(name)], followed by the end or a NUL. *)
Definition names_descriptor (name : list Z) : bool :=
  bool_decide (take (length JIT_DESCRIPTOR_SYMBOL) name = JIT_DESCRIPTOR_SYMBOL) &&
  match drop (length JIT_DESCRIPTOR_SYMBOL) name with [] => true | c :: _ => c =? 0 end.

Definition symbol_value (bytes : list Z) (dynamic : DynamicInfo) (ctx : Ctx) (index : Z) : result (option Z) :=
  offset ← malformed (checked_mul_usize index (di_syment dynamic) ≫= checked_add_u64 (di_symtab dynamic));
  symbol ← malformed (symbol_at ctx bytes offset);
  if st_shndx symbol =? SHN_UNDEF then Ok None
  else
    name ← malformed ((bytes_from (di_strtab dynamic) bytes ≫= bytes_to (di_strsz dynamic)) ≫= bytes_from (st_name symbol));
    Ok (if names_descriptor name then Some (st_value symbol) else None).

(** ** The GNU hash table *)

Definition is_power_of_two (n : Z) : bool := (0 <? n) && (Z.land n (n - 1) =? 0).
(** The word of the bloom filter for a hash, and the bits it must have. *)
Definition bloom_word (bloom : list Z) (bloom_count hash : Z) (ctx : Ctx) : result Z :=
  let bloom_index := Z.land (hash / (ctx_size ctx * 8)) (bloom_count - 1) in
  if is_big ctx then
    low ← word bloom (bloom_index * 2) ctx;
    high ← word bloom (bloom_index * 2 + 1) ctx;
    Ok (if is_little_endian ctx then Z.lor low (Z.shiftl high 32) else Z.lor (Z.shiftl low 32) high)
  else word bloom bloom_index ctx.
Definition bloom_mask (shift hash : Z) (ctx : Ctx) : Z :=
  let bits := ctx_size ctx * 8 in
  Z.lor (Z.shiftl 1 (hash mod bits)) (Z.shiftl 1 (Z.shiftr hash shift mod bits)).

(** The chain of [index], four bytes a symbol. *)
Fixpoint gnu_chain (bytes : list Z) (dynamic : DynamicInfo) (ctx : Ctx) (symbols : nat) (chains : list Z) (index : Z) : result (option Z) :=
  match symbols, chains with
  | S symbols, b0 :: b1 :: b2 :: b3 :: chains =>
      hash ← word [b0; b1; b2; b3] 0 ctx;
      found ← (if Z.lor hash 1 =? Z.lor GNU_HASH 1 then symbol_value bytes dynamic ctx index else Ok None);
      match found with
      | Some value => Ok (Some value)
      | None => if Z.testbit hash 0 then Ok None else gnu_chain bytes dynamic ctx symbols chains (index + 1)
      end
  | _, _ => Err InvalidData
  end.
(** The parts of the table. *)
Record GnuTable := mkGnuTable {
  gt_bucket_count : Z;
  gt_first_symbol : Z;
  gt_bloom_count : Z;
  gt_shift : Z;
  gt_bloom : list Z;
  gt_buckets : list Z;
  gt_chains : list Z;
}.
Definition gnu_table (bytes : list Z) (ctx : Ctx) (offset : Z) : result GnuTable :=
  table ← malformed (bytes_from offset bytes);
  bucket_count ← word table 0 ctx;
  first_symbol ← word table 1 ctx;
  bloom_count ← word table 2 ctx;
  shift ← word table 3 ctx;
  if (bucket_count =? 0) || negb (is_power_of_two bloom_count) || (32 <=? shift) then Err InvalidData
  else
    bloom_size ← malformed (checked_mul_usize bloom_count (ctx_size ctx));
    '(bloom, remaining) ← malformed (bytes_from 16 table ≫= split_at_checked bloom_size);
    bucket_size ← malformed (checked_mul_usize bucket_count 4);
    '(buckets, chains) ← malformed (split_at_checked bucket_size remaining);
    Ok (mkGnuTable bucket_count first_symbol bloom_count shift bloom buckets chains).
Definition gnu_symbol (bytes : list Z) (dynamic : DynamicInfo) (ctx : Ctx) (offset : Z) : result (option Z) :=
  t ← gnu_table bytes ctx offset;
  bits ← bloom_word (gt_bloom t) (gt_bloom_count t) GNU_HASH ctx;
  let mask := bloom_mask (gt_shift t) GNU_HASH ctx in
  if negb (Z.land bits mask =? mask) then Ok None
  else
    index ← word (gt_buckets t) (GNU_HASH mod gt_bucket_count t) ctx;
    if index =? 0 then Ok None
    else
      chain_index ← malformed (checked_sub_u64 index (gt_first_symbol t));
      chain_offset ← malformed (checked_mul_usize chain_index 4);
      chains ← malformed (bytes_from chain_offset (gt_chains t));
      size ← malformed (checked_sub_u64 (Z.of_nat (length bytes)) (di_symtab dynamic));
      remaining_symbols ← malformed (checked_sub_u64 (size / di_syment dynamic) index);
      gnu_chain bytes dynamic ctx (Z.to_nat remaining_symbols) chains index.

(** ** The SysV hash table *)

(** The whole bucket is walked: the first descriptor_at in the table wins. *)
Fixpoint sysv_chain (bytes : list Z) (dynamic : DynamicInfo) (ctx : Ctx) (chains : list Z) (chain_count : Z) (rounds : nat) (index : Z)
    (found : option (Z * Z)) : result (option Z) :=
  match rounds with
  | O => Err InvalidData
  | S rounds =>
      if index =? 0 then Ok (snd <$> found)
      else if chain_count <=? index then Err InvalidData
      else
        found ← (if match found with None => true | Some (previous, _) => index <? previous end then
                   value ← symbol_value bytes dynamic ctx index;
                   Ok (match value with Some value => Some (index, value) | None => found end)
                 else Ok found);
        index ← word chains index ctx;
        sysv_chain bytes dynamic ctx chains chain_count rounds index found
  end.
Record SysvTable := mkSysvTable { sv_bucket_count : Z; sv_chain_count : Z; sv_buckets : list Z; sv_chains : list Z }.
Definition sysv_table (bytes : list Z) (ctx : Ctx) (offset : Z) : result SysvTable :=
  table ← malformed (bytes_from offset bytes);
  bucket_count ← word table 0 ctx;
  chain_count ← word table 1 ctx;
  if (bucket_count =? 0) || (chain_count =? 0) then Err InvalidData
  else
    bucket_size ← malformed (checked_mul_usize bucket_count 4);
    '(buckets, remaining) ← malformed (bytes_from 8 table ≫= split_at_checked bucket_size);
    chain_size ← malformed (checked_mul_usize chain_count 4);
    chains ← malformed (bytes_to chain_size remaining);
    Ok (mkSysvTable bucket_count chain_count buckets chains).
Definition sysv_symbol (bytes : list Z) (dynamic : DynamicInfo) (ctx : Ctx) (offset : Z) : result (option Z) :=
  t ← sysv_table bytes ctx offset;
  symbol_size ← malformed (checked_mul_usize (sv_chain_count t) (di_syment dynamic));
  _ ← malformed (bytes_from (di_symtab dynamic) bytes ≫= bytes_to symbol_size);
  index ← word (sv_buckets t) (SYSV_HASH mod sv_bucket_count t) ctx;
  sysv_chain bytes dynamic ctx (sv_chains t) (sv_chain_count t) (Z.to_nat (sv_chain_count t)) index None.

Definition descriptor_symbol (bytes : list Z) (dynamic : DynamicInfo) (ctx : Ctx) : result (option Z) :=
  match di_gnu_hash dynamic, di_hash dynamic with
  | None, None => Err InvalidData
  | gnu_hash, hash =>
      if negb (di_syment dynamic =? symbol_size ctx) then Err InvalidData
      else
        match gnu_hash, hash with
        | Some offset, _ => gnu_symbol bytes dynamic ctx offset
        | None, Some offset => sysv_symbol bytes dynamic ctx offset
        | None, None => Err InvalidData
        end
  end.

(** ** Scanning symbols *)

Definition table_bytes (bytes : list Z) (offset size : Z) : result (list Z) := malformed (bytes_from offset bytes ≫= bytes_to size).
Definition symbol_matches (names : list Z) (symbol : Sym) : option Z :=
  name ← bytes_from (st_name symbol) names;
  if negb (st_shndx symbol =? SHN_UNDEF) && names_descriptor name then Some (st_value symbol) else None.
Definition scan_symbols (bytes : list Z) (offset size : Z) (names : list Z) (ctx : Ctx) : result (option Z) :=
  match memmem_find names JIT_DESCRIPTOR_SYMBOL with
  | None => Ok None
  | Some _ =>
      table ← table_bytes bytes offset size;
      if negb (Z.of_nat (length table) mod symbol_size ctx =? 0) then Err InvalidData
      else
        symbols ← malformed (symbols_of ctx table (Z.of_nat (length table) / symbol_size ctx));
        Ok (head (omap (symbol_matches names) symbols))
  end.
End lookup.

(** ** Images as linkers write them *)

(** What the two crates promise: a table iterates its symbols, a symbol is read
    from its own bytes only, and [memmem] misses no occurrence. *)
Class GoblinReads `{Goblin} : Prop := {
  gr_symbols ctx table (count : nat) : Z.of_nat (length table) = Z.of_nat count * symbol_size ctx ->
    exists symbols, symbols_of ctx table (Z.of_nat count) = Some symbols /\ length symbols = count /\
      forall (i : nat) symbol, symbols !! i = Some symbol -> symbol_at ctx table (Z.of_nat i * symbol_size ctx) = Some symbol;
  gr_local ctx bytes base size table offset :
    0 <= base -> bytes_from base bytes ≫= bytes_to size = Some table -> 0 <= offset -> offset + symbol_size ctx <= size ->
    symbol_at ctx table offset = symbol_at ctx bytes (base + offset);
  gr_memmem names pattern k : memmem_find names pattern = None -> take (length pattern) (drop k names) <> pattern;
}.

Section image.
Context `{GoblinReads} (bytes : list Z) (dynamic : DynamicInfo) (ctx : Ctx) (count : nat) (names : list Z).

(** A name ends at a NUL or with the table. *)
Fixpoint c_string (name : list Z) : list Z := match name with [] => [] | c :: name => if c =? 0 then [] else c :: c_string name end.
Definition the_symbol (i : Z) : option Sym := symbol_at ctx bytes (di_symtab dynamic + i * symbol_size ctx).
Definition symbol_name (i : Z) : list Z :=
  match the_symbol i with Some symbol => c_string (drop (Z.to_nat (st_name symbol)) names) | None => [] end.
(** The value of symbol [i] when it defines the descriptor. *)
Definition descriptor_at (i : Z) : option Z :=
  symbol ← the_symbol i;
  if negb (st_shndx symbol =? SHN_UNDEF) && bool_decide (symbol_name i = JIT_DESCRIPTOR_SYMBOL) then Some (st_value symbol) else None.

(** [count] symbols with names in [names]. *)
Record dynamic_image : Prop := {
  im_bytes : Forall is_byte bytes;
  im_length : Z.of_nat (length bytes) <= u64_max;
  im_entry : di_syment dynamic = symbol_size ctx;
  im_symtab : 0 <= di_symtab dynamic /\ di_symtab dynamic + Z.of_nat count * symbol_size ctx <= Z.of_nat (length bytes);
  im_names : bytes_from (di_strtab dynamic) bytes ≫= bytes_to (di_strsz dynamic) = Some names;
  im_named i symbol : 0 <= i < Z.of_nat count -> the_symbol i = Some symbol -> 0 <= st_name symbol <= Z.of_nat (length names);
}.

(** A GNU hash table of the symbols from [gt_first_symbol] on, which include
    every definition of the descriptor. *)
Record gnu_hashed (t : GnuTable) : Prop := {
  gh_first : 0 < gt_first_symbol t;
  gh_defined i : 0 <= i < Z.of_nat count -> is_Some (descriptor_at i) -> gt_first_symbol t <= i;
  gh_bloom i : gt_first_symbol t <= i < Z.of_nat count ->
    exists bits, bloom_word (gt_bloom t) (gt_bloom_count t) (gnu_hash (symbol_name i)) ctx = Ok bits /\
      Z.land bits (bloom_mask (gt_shift t) (gnu_hash (symbol_name i)) ctx) = bloom_mask (gt_shift t) (gnu_hash (symbol_name i)) ctx;
  gh_bucket b : 0 <= b < gt_bucket_count t ->
    exists i, word (gt_buckets t) b ctx = Ok i /\
      ((i = 0 /\ forall j, gt_first_symbol t <= j < Z.of_nat count -> gnu_hash (symbol_name j) mod gt_bucket_count t <> b) \/
       (gt_first_symbol t <= i < Z.of_nat count /\ gnu_hash (symbol_name i) mod gt_bucket_count t = b /\
        forall j, gt_first_symbol t <= j < Z.of_nat count -> gnu_hash (symbol_name j) mod gt_bucket_count t = b -> i <= j));
  gh_sorted i j : gt_first_symbol t <= i <= j -> j < Z.of_nat count ->
    gnu_hash (symbol_name i) mod gt_bucket_count t <= gnu_hash (symbol_name j) mod gt_bucket_count t;
  gh_chain i : gt_first_symbol t <= i < Z.of_nat count ->
    exists c, word (gt_chains t) (i - gt_first_symbol t) ctx = Ok c /\ Z.lor c 1 = Z.lor (gnu_hash (symbol_name i)) 1 /\
      (Z.testbit c 0 = true <-> i + 1 = Z.of_nat count \/
         gnu_hash (symbol_name (i + 1)) mod gt_bucket_count t <> gnu_hash (symbol_name i) mod gt_bucket_count t);
}.

(** A SysV hash table: each bucket is a list of symbols that ends in zero. *)
Inductive sysv_list (t : SysvTable) : Z -> list Z -> Prop :=
  | sysv_end : sysv_list t 0 []
  | sysv_next i next l : 0 < i < sv_chain_count t -> word (sv_chains t) i ctx = Ok next -> sysv_list t next l -> sysv_list t i (i :: l).
Record sysv_hashed (t : SysvTable) : Prop := {
  sh_count : sv_chain_count t = Z.of_nat count;
  sh_undefined : descriptor_at 0 = None;
  sh_bucket b : 0 <= b < sv_bucket_count t ->
    exists i l, word (sv_buckets t) b ctx = Ok i /\ sysv_list t i l /\ NoDup l /\
      forall j, 0 < j < Z.of_nat count -> sysv_hash (symbol_name j) mod sv_bucket_count t = b -> j ∈ l;
}.

(** *** Symbols and their names *)

Lemma c_string_prefix p name : Forall (λ c, c <> 0) p ->
  take (length p) name = p /\ (drop (length p) name = [] \/ exists rest, drop (length p) name = 0 :: rest) <-> c_string name = p.
Proof.
  intros Hp. revert name. induction Hp as [|c p Hc Hp IH]; intros [|d name]; cbn.
  - split; [done|]. intros _. split; [done|by left].
  - destruct (Z.eqb_spec d 0) as [->|Hd]; split; try done; [by intros _; split; [done|right; eexists]|].
    intros [_ [?|[rest [= ? ?]]]]; done.
  - split; [by intros [? _]|done].
  - destruct (Z.eqb_spec d 0) as [->|Hd].
    + split; [intros [[= Hz _] _]; by rewrite Hz in Hc|done].
    + split.
      * intros [[= -> Ht] Hr]. f_equal. apply IH. done.
      * intros [= -> Hs]. apply IH in Hs as [Ht Hr]. by rewrite Ht.
Qed.
Lemma names_descriptor_spec name : names_descriptor name = bool_decide (c_string name = JIT_DESCRIPTOR_SYMBOL).
Proof.
  assert (Forall (λ c, c <> 0) JIT_DESCRIPTOR_SYMBOL) as Hp by (vm_compute; repeat constructor; done).
  pose proof (c_string_prefix JIT_DESCRIPTOR_SYMBOL name Hp) as Hc. unfold names_descriptor.
  destruct (bool_decide_reflect (take (length JIT_DESCRIPTOR_SYMBOL) name = JIT_DESCRIPTOR_SYMBOL)) as [Ht|Ht]; cbn [andb].
  - destruct (drop (length JIT_DESCRIPTOR_SYMBOL) name) as [|c rest].
    + symmetry. apply bool_decide_eq_true. apply Hc. split; [done|by left].
    + destruct (Z.eqb_spec c 0) as [->|Hz]; symmetry; [apply bool_decide_eq_true, Hc; split; [done|right; by eexists]|].
      apply bool_decide_eq_false. intros [_ [?|[? [= ? ?]]]]%Hc; done.
  - symmetry. apply bool_decide_eq_false. by intros [? _]%Hc.
Qed.

Context (image : dynamic_image).
Lemma symbol_size_pos : 0 < symbol_size ctx.
Proof. unfold symbol_size. by destruct (is_big ctx). Qed.
Lemma bytes_sub base size (data : list Z) : 0 <= base -> 0 <= size -> base + size <= Z.of_nat (length data) ->
  bytes_from base data ≫= bytes_to size = Some (take (Z.to_nat size) (drop (Z.to_nat base) data)).
Proof.
  intros Hb Hs Hl. unfold bytes_from. rewrite (proj2 (Z.leb_le _ _)) by lia. cbn. unfold bytes_to. rewrite length_drop, (proj2 (Z.leb_le _ _)) by lia. done.
Qed.
Definition symbol_table : list Z := take (Z.to_nat (Z.of_nat count * symbol_size ctx)) (drop (Z.to_nat (di_symtab dynamic)) bytes).
Lemma symbol_table_spec :
  bytes_from (di_symtab dynamic) bytes ≫= bytes_to (Z.of_nat count * symbol_size ctx) = Some symbol_table /\
  Z.of_nat (length symbol_table) = Z.of_nat count * symbol_size ctx.
Proof.
  pose proof symbol_size_pos as Hsize. pose proof (im_symtab image) as [Hs Hl]. split; [apply bytes_sub; [done|nia|done]|].
  unfold symbol_table. rewrite length_take, length_drop. nia.
Qed.
Lemma symbols_listed : exists symbols, symbols_of ctx symbol_table (Z.of_nat count) = Some symbols /\ length symbols = count /\
  forall (i : nat) symbol, symbols !! i = Some symbol -> the_symbol (Z.of_nat i) = Some symbol.
Proof.
  pose proof symbol_table_spec as [Ht Hlen]. pose proof symbol_size_pos as Hsize. destruct (gr_symbols ctx symbol_table count Hlen) as (symbols & Hs & Hcount & Hat).
  exists symbols. split; [done|]. split; [done|]. intros i symbol Hi. pose proof (lookup_lt_Some _ _ _ Hi). unfold the_symbol.
  rewrite <- (gr_local ctx bytes (di_symtab dynamic) (Z.of_nat count * symbol_size ctx) symbol_table); [by apply Hat|apply (im_symtab image)|exact Ht|nia|nia].
Qed.
Lemma the_symbol_some i : 0 <= i < Z.of_nat count -> exists symbol, the_symbol i = Some symbol.
Proof.
  intros Hi. destruct symbols_listed as (symbols & _ & Hcount & Hat). destruct (lookup_lt_is_Some_2 symbols (Z.to_nat i)) as [symbol Hs]; [lia|].
  exists symbol. rewrite <- (Z2Nat.id i) by lia. by apply Hat.
Qed.

Lemma matches_at i symbol : 0 <= i < Z.of_nat count -> the_symbol i = Some symbol -> symbol_matches names symbol = descriptor_at i.
Proof.
  intros Hi Hs. pose proof (im_named image i symbol Hi Hs) as Hname. unfold symbol_matches, descriptor_at, symbol_name, bytes_from. rewrite Hs.
  rewrite (proj2 (Z.leb_le _ _)) by lia. cbn. by rewrite names_descriptor_spec.
Qed.
Lemma symbol_value_at i : 0 <= i < Z.of_nat count -> symbol_value bytes dynamic ctx i = Ok (descriptor_at i).
Proof.
  intros Hi. destruct (the_symbol_some i Hi) as [symbol Hs]. pose proof (im_symtab image) as [Hpos Hl]. pose proof (im_length image) as Hlen. pose proof symbol_size_pos as Hsize.
  unfold symbol_value, checked_mul_usize. rewrite (im_entry image), (proj2 (Z.leb_le _ _)) by nia. cbn. unfold checked_add_u64.
  rewrite (proj2 (Z.leb_le _ _)) by nia. cbn. unfold the_symbol in Hs. rewrite Hs. cbn.
  pose proof (matches_at i symbol Hi Hs) as Hm. unfold symbol_matches in Hm. rewrite (im_names image). cbn. unfold descriptor_at in *. fold (the_symbol i) in Hs.
  rewrite Hs in *. cbn in *. pose proof (im_named image i symbol Hi Hs) as Hname. unfold bytes_from in *. rewrite (proj2 (Z.leb_le _ _)) in * by lia. cbn in *.
  rewrite <- Hm. by destruct (st_shndx symbol =? SHN_UNDEF), (names_descriptor _).
Qed.

(** *** The first definition *)

Definition first_definition (r : option Z) : Prop :=
  match r with
  | Some value => exists i, 0 <= i < Z.of_nat count /\ descriptor_at i = Some value /\ forall j, 0 <= j < i -> descriptor_at j = None
  | None => forall i, 0 <= i < Z.of_nat count -> descriptor_at i = None
  end.
Lemma first_definition_unique r1 r2 : first_definition r1 -> first_definition r2 -> r1 = r2.
Proof.
  destruct r1 as [v1|], r2 as [v2|]; cbn; try done.
  - intros (i & Hi & Hvi & Hbi) (j & Hj & Hvj & Hbj). destruct (Z.lt_trichotomy i j) as [Hlt|[->|Hlt]]; [|congruence|].
    + rewrite (Hbj i) in Hvi by lia. done.
    + rewrite (Hbi j) in Hvj by lia. done.
  - intros (i & Hi & Hvi & _) Hn. by rewrite Hn in Hvi.
  - intros Hn (i & Hi & Hvi & _). by rewrite Hn in Hvi.
Qed.
Lemma head_omap {A B} (f : A -> option B) l :
  match head (omap f l) with
  | Some b => exists i a, l !! i = Some a /\ f a = Some b /\ forall j a', (j < i)%nat -> l !! j = Some a' -> f a' = None
  | None => forall i a, l !! i = Some a -> f a = None
  end.
Proof.
  induction l as [|a l IH]; cbn; [done|]. destruct (f a) as [b|] eqn:Hf; cbn.
  - exists 0%nat, a. split; [done|]. split; [done|]. intros j a' Hj. lia.
  - destruct (head (omap f l)) as [b|].
    + destruct IH as (i & a' & Hi & Hb & Hbefore). exists (S i), a'. split; [done|]. split; [done|]. intros [|j] a'' Hj; cbn; [by intros [= <-]|]. apply Hbefore. lia.
    + intros [|i] a'; cbn; [by intros [= <-]|apply IH].
Qed.

Lemma descriptor_named i value : descriptor_at i = Some value -> symbol_name i = JIT_DESCRIPTOR_SYMBOL.
Proof.
  unfold descriptor_at. destruct (the_symbol i) as [symbol|]; [|done]. cbn. destruct (negb _); [|done]. cbn [andb]. by case_bool_decide.
Qed.
Lemma scan_finds_first : exists r, scan_symbols bytes (di_symtab dynamic) (Z.of_nat count * symbol_size ctx) names ctx = Ok r /\ first_definition r.
Proof.
  unfold scan_symbols. destruct (memmem_find names JIT_DESCRIPTOR_SYMBOL) as [k|] eqn:Hfind.
  - pose proof symbol_table_spec as [Ht Hlen]. pose proof symbol_size_pos as Hsize. unfold table_bytes. rewrite Ht. cbn.
    rewrite Hlen, Z.mod_mul, Z.div_mul by lia. cbn. destruct symbols_listed as (symbols & -> & Hcount & Hat). cbn. eexists. split; [done|].
    assert (forall (i : nat) symbol, symbols !! i = Some symbol -> symbol_matches names symbol = descriptor_at (Z.of_nat i)) as Hm.
    { intros i symbol Hi. pose proof (lookup_lt_Some _ _ _ Hi). apply matches_at; [lia|by apply Hat]. }
    pose proof (head_omap (symbol_matches names) symbols) as Hhead. destruct (head (omap _ symbols)) as [value|]; cbn.
    + destruct Hhead as (i & symbol & Hi & Hv & Hbefore). pose proof (lookup_lt_Some _ _ _ Hi). exists (Z.of_nat i). rewrite <- (Hm i symbol Hi). split; [lia|]. split; [done|].
      intros j Hj. destruct (lookup_lt_is_Some_2 symbols (Z.to_nat j)) as [symbol' Hs']; [lia|]. rewrite <- (Z2Nat.id j), <- (Hm _ _ Hs') by lia. eapply Hbefore; [|done]. lia.
    + intros j Hj. destruct (lookup_lt_is_Some_2 symbols (Z.to_nat j)) as [symbol' Hs']; [lia|]. rewrite <- (Z2Nat.id j), <- (Hm _ _ Hs') by lia. by eapply Hhead.
  - eexists. split; [done|]. intros i Hi. destruct (descriptor_at i) as [value|] eqn:Hd; [|done]. exfalso. apply descriptor_named in Hd.
    unfold symbol_name in Hd. destruct (the_symbol i) as [symbol|]; [|by vm_compute in Hd].
    apply c_string_prefix in Hd as [Hd _]; [|vm_compute; repeat constructor; done]. by eapply gr_memmem in Hfind.
Qed.

(** *** Words *)

Lemma word_cons b0 b1 b2 b3 l i : 0 <= i -> (i + 1) * 4 <= u64_max -> word (b0 :: b1 :: b2 :: b3 :: l) (i + 1) ctx = word l i ctx.
Proof.
  intros Hi Hmax. unfold word, checked_mul_usize. rewrite !(proj2 (Z.leb_le _ _)) by lia. cbn. unfold bytes_from. cbn [length].
  replace (Z.to_nat ((i + 1) * 4)) with (4 + Z.to_nat (i * 4))%nat by lia. cbn [drop Nat.add].
  destruct (Z.leb_spec ((i + 1) * 4) (Z.of_nat (S (S (S (S (length l))))))), (Z.leb_spec (i * 4) (Z.of_nat (length l))); try lia; done.
Qed.
Lemma word_bound l i c : 0 <= i -> word l i ctx = Ok c -> (i + 1) * 4 <= Z.of_nat (length l).
Proof.
  intros Hi. unfold word. destruct (checked_mul_usize i 4) as [offset|] eqn:Hm; [|done]. unfold checked_mul_usize in Hm.
  destruct (Z.leb_spec (i * 4) u64_max) as [Hle|]; [|done]. injection Hm as <-. cbn. unfold bytes_from. destruct (Z.leb_spec (i * 4) (Z.of_nat (length l))); [|done]. cbn.
  unfold bytes_to. rewrite length_drop. destruct (Z.leb_spec 4 (Z.of_nat (length l - Z.to_nat (i * 4)))); [lia|done].
Qed.
Lemma word_head l c : word l 0 ctx = Ok c -> exists b0 b1 b2 b3 rest, l = b0 :: b1 :: b2 :: b3 :: rest /\ word [b0; b1; b2; b3] 0 ctx = Ok c.
Proof.
  intros Hw. assert (4 <= length l)%nat as Hl by (apply word_bound in Hw; lia).
  destruct l as [|b0 [|b1 [|b2 [|b3 rest]]]]; cbn [length] in Hl; try lia. exists b0, b1, b2, b3, rest. split; [done|]. rewrite <- Hw. unfold word. cbn [checked_mul_usize].
  change (checked_mul_usize 0 4) with (Some 0). cbn [malformed ok_or mbind result_mbind]. rewrite !bytes_sub by (cbn [length]; lia). done.
Qed.
Lemma word_drop (k : nat) l i : 0 <= i -> (Z.of_nat k + i) * 4 <= u64_max -> (4 * k <= length l)%nat -> word (drop (4 * k) l) i ctx = word l (Z.of_nat k + i) ctx.
Proof.
  revert l. induction k as [|k IH]; intros l Hi Hmax Hl; [done|]. destruct l as [|b0 [|b1 [|b2 [|b3 l]]]]; cbn [length] in Hl; try lia.
  replace (4 * S k)%nat with (4 + 4 * k)%nat by lia. cbn [drop Nat.add]. rewrite IH by lia.
  replace (Z.of_nat (S k) + i) with ((Z.of_nat k + i) + 1) by lia. by rewrite word_cons by lia.
Qed.
Lemma count_fits : (Z.of_nat count + 1) * 4 <= u64_max.
Proof.
  pose proof (im_symtab image) as [? ?]. pose proof (im_length image) as Hl. unfold symbol_size in *. word_unfold. destruct (is_big ctx); lia.
Qed.

(** *** The GNU hash table *)

Section gnu.
Context (t : GnuTable) (hashed : gnu_hashed t).
#[local] Abbreviation bucket i := (gnu_hash (symbol_name i) mod gt_bucket_count t).

Lemma defined_hash i value : descriptor_at i = Some value -> gnu_hash (symbol_name i) = GNU_HASH.
Proof. intros Hd. by rewrite (descriptor_named i value Hd). Qed.
Lemma undefined_before first : (forall j, gt_first_symbol t <= j < Z.of_nat count -> bucket j = GNU_HASH mod gt_bucket_count t -> first <= j) ->
  first <= Z.of_nat count -> forall j, 0 <= j < first -> descriptor_at j = None.
Proof.
  intros Hleast Hc j Hj. destruct (descriptor_at j) as [value|] eqn:Hd; [|done]. assert (gt_first_symbol t <= j) by (apply (gh_defined t hashed); [lia|by eexists]).
  specialize (Hleast j). rewrite (defined_hash j value Hd) in Hleast. lia.
Qed.

Lemma gnu_chain_finds symbols : forall chains index,
  gt_first_symbol t <= index < Z.of_nat count -> Z.of_nat count - index <= Z.of_nat symbols ->
  (forall i, index <= i < Z.of_nat count -> word chains (i - index) ctx = word (gt_chains t) (i - gt_first_symbol t) ctx) ->
  bucket index = GNU_HASH mod gt_bucket_count t -> (forall j, 0 <= j < index -> descriptor_at j = None) ->
  exists r, gnu_chain bytes dynamic ctx symbols chains index = Ok r /\ first_definition r.
Proof.
  pose proof (gh_first t hashed) as Hfirst. induction symbols as [|symbols IH]; intros chains index Hi Hs Hw Hb Hbefore; [lia|].
  destruct (gh_chain t hashed index Hi) as (c & Hc & Hhash & Hend). rewrite <- Hw, Z.sub_diag in Hc by lia.
  apply word_head in Hc as (b0 & b1 & b2 & b3 & rest & -> & Hc). cbn [gnu_chain]. rewrite Hc. cbn [mbind result_mbind].
  assert ((if Z.lor c 1 =? Z.lor GNU_HASH 1 then symbol_value bytes dynamic ctx index else Ok None) = Ok (descriptor_at index)) as ->.
  { destruct (Z.eqb_spec (Z.lor c 1) (Z.lor GNU_HASH 1)) as [_|Hne]; [apply symbol_value_at; lia|]. destruct (descriptor_at index) as [value|] eqn:Hd; [|done].
    exfalso. apply Hne. by rewrite Hhash, (defined_hash index value Hd). }
  cbn [mbind result_mbind]. destruct (descriptor_at index) as [value|] eqn:Hd.
  { eexists. split; [done|]. exists index. split; [lia|done]. }
  assert (forall j, 0 <= j < index + 1 -> descriptor_at j = None) as Hbefore'.
  { intros j Hj. destruct (decide (j = index)) as [->|]; [done|]. apply Hbefore. lia. }
  destruct (Z.testbit c 0).
  - eexists. split; [done|]. intros j Hj. destruct (Z.lt_ge_cases j (index + 1)) as [Hlt|Hge]; [apply Hbefore'; lia|].
    destruct (descriptor_at j) as [value|] eqn:Hdj; [|done]. exfalso. destruct (proj1 Hend eq_refl) as [?|Hne]; [lia|].
    pose proof (gh_sorted t hashed index (index + 1) ltac:(lia) ltac:(lia)) as H1. pose proof (gh_sorted t hashed (index + 1) j ltac:(lia) ltac:(lia)) as H2.
    rewrite (defined_hash j value Hdj) in H2. lia.
  - assert (~ (index + 1 = Z.of_nat count \/ bucket (index + 1) <> bucket index)) as Hgo by (intros ?%Hend; discriminate).
    assert (index + 1 < Z.of_nat count) by lia. apply IH; [lia|lia| |lia|exact Hbefore'].
    intros i Hi'. rewrite <- (Hw i) by lia. replace (i - index) with (i - (index + 1) + 1) by lia. pose proof count_fits. by rewrite word_cons by lia.
Qed.
End gnu.

Lemma read_word_nonneg l i c : Forall is_byte l -> word l i ctx = Ok c -> 0 <= c.
Proof.
  intros Hl. unfold word. destruct (checked_mul_usize i 4) as [offset|]; [|done]. cbn. unfold bytes_from. destruct (offset <=? _); [|done]. cbn. unfold bytes_to.
  destruct (4 <=? _); [|done]. pose proof (Forall_take _ 4 _ (Forall_drop _ (Z.to_nat offset) _ Hl)) as Hb. revert Hb.
  change (Z.to_nat 4) with 4%nat. destruct (take 4 (drop (Z.to_nat offset) l)) as [|b0 [|b1 [|b2 [|b3 [|? ?]]]]]; try done.
  rewrite !list.Forall_cons. intros ((? & ?) & (? & ?) & (? & ?) & (? & ?) & _) [= <-]. destruct (is_little_endian ctx); lia.
Qed.
Lemma word_ok l i : Z.of_nat (length l) <= u64_max -> 0 <= i -> (i + 1) * 4 <= Z.of_nat (length l) -> exists c, word l i ctx = Ok c.
Proof.
  intros Hmax Hi Hl. unfold word, checked_mul_usize. rewrite (proj2 (Z.leb_le _ _)) by lia. cbn [malformed ok_or mbind result_mbind].
  rewrite bytes_sub by lia. assert (length (take (Z.to_nat 4) (drop (Z.to_nat (i * 4)) l)) = 4%nat) as H4 by (rewrite length_take, length_drop; lia).
  destruct (take _ _) as [|b0 [|b1 [|b2 [|b3 [|? ?]]]]]; try done. by eexists.
Qed.

Lemma gnu_table_facts offset t : gnu_table bytes ctx offset = Ok t ->
  0 < gt_bucket_count t /\ 0 < gt_bloom_count t /\ Z.of_nat (length (gt_bloom t)) = gt_bloom_count t * ctx_size ctx /\
  Z.of_nat (length (gt_bloom t)) <= u64_max.
Proof.
  unfold gnu_table. destruct (bytes_from offset bytes) as [table|] eqn:Htable; [|done]. cbn [malformed ok_or mbind result_mbind].
  unfold bytes_from in Htable. destruct (offset <=? _); [|done]. injection Htable as <-. pose proof (im_length image) as Hmax.
  set (table := drop (Z.to_nat offset) bytes). assert (Forall is_byte table) as Hbytes by apply Forall_drop, (im_bytes image).
  assert (Z.of_nat (length table) <= u64_max) as Hlen by (subst table; rewrite length_drop; lia). clearbody table.
  destruct (word table 0 ctx) as [bucket_count|] eqn:Hb; [|done]. destruct (word table 1 ctx) as [first_symbol|]; [|done].
  destruct (word table 2 ctx) as [bloom_count|]; [|done]. destruct (word table 3 ctx) as [shift|]; [|done]. cbn [mbind result_mbind].
  apply read_word_nonneg in Hb; [|done]. destruct (Z.eqb_spec bucket_count 0); [done|]. cbn [orb]. unfold is_power_of_two. destruct (Z.ltb_spec 0 bloom_count); [|done]. cbn [andb].
  destruct (_ || _); [done|]. destruct (checked_mul_usize bloom_count (ctx_size ctx)) as [bloom_size|] eqn:Hsize; [|done]. cbn [malformed ok_or mbind result_mbind].
  unfold checked_mul_usize in Hsize. destruct (Z.leb_spec (bloom_count * ctx_size ctx) u64_max); [|done]. injection Hsize as <-.
  destruct (bytes_from 16 table ≫= split_at_checked (bloom_count * ctx_size ctx)) as [[bloom remaining]|] eqn:Hsplit; [|done]. cbn [malformed ok_or mbind result_mbind].
  destruct (checked_mul_usize bucket_count 4); [|done]. cbn [malformed ok_or mbind result_mbind]. destruct (split_at_checked _ remaining) as [[buckets chains]|]; [|done].
  cbn [malformed ok_or mbind result_mbind]. intros [= <-]. cbn [gt_bucket_count gt_bloom_count gt_bloom]. split; [lia|]. split; [lia|].
  unfold bytes_from in Hsplit. destruct (16 <=? _); [|done]. cbn [mbind option_bind] in Hsplit. unfold split_at_checked in Hsplit. revert Hsplit. case Z.leb_spec; [intros Hle Hsplit|intros _ Hsplit; discriminate].
  injection Hsplit as <- _. rewrite length_take. assert (0 < ctx_size ctx) by (unfold ctx_size; by destruct (is_big ctx)). nia.
Qed.
Lemma land_below a b : 0 <= b -> Z.land a b <= b.
Proof.
  intros Hb. assert (Z.ldiff (Z.land a b) b = 0) as Hd.
  { apply Z.bits_inj'. intros n _. rewrite Z.ldiff_spec, Z.land_spec, Z.bits_0. by destruct (Z.testbit a n), (Z.testbit b n). }
  pose proof (Z.sub_nocarry_ldiff b (Z.land a b) Hd) as Hs. assert (0 <= Z.ldiff b (Z.land a b)) by (apply Z.ldiff_nonneg; by left). lia.
Qed.
Lemma bloom_word_ok offset t hash : gnu_table bytes ctx offset = Ok t -> 0 <= hash -> exists bits, bloom_word (gt_bloom t) (gt_bloom_count t) hash ctx = Ok bits.
Proof.
  intros (_ & Hcount & Hlen & Hmax)%gnu_table_facts Hh. unfold bloom_word. set (index := Z.land _ _).
  assert (0 <= index <= gt_bloom_count t - 1) as Hi.
  { subst index. assert (0 <= hash / (ctx_size ctx * 8)) by (apply Z.div_pos; [done|unfold ctx_size; by destruct (is_big ctx)]).
    split; [apply Z.land_nonneg; by left|]. apply land_below; lia. }
  clearbody index. unfold ctx_size in Hlen. destruct (is_big ctx); [|apply word_ok; lia].
  destruct (word_ok (gt_bloom t) (index * 2)) as [low ->]; [lia|lia|lia|]. destruct (word_ok (gt_bloom t) (index * 2 + 1)) as [high ->]; [lia|lia|lia|]. by eexists.
Qed.

Lemma checked_sub_ok a b : b <= a -> checked_sub_u64 a b = Some (a - b).
Proof. intros Hle. unfold checked_sub_u64. by rewrite (proj2 (Z.leb_le _ _)). Qed.
Lemma checked_mul_ok a b : a * b <= u64_max -> checked_mul_usize a b = Some (a * b).
Proof. intros Hle. unfold checked_mul_usize. by rewrite (proj2 (Z.leb_le _ _)). Qed.
Lemma bytes_from_ok offset data : offset <= Z.of_nat (length data) -> bytes_from offset data = Some (drop (Z.to_nat offset) data).
Proof. intros Hle. unfold bytes_from. by rewrite (proj2 (Z.leb_le _ _)). Qed.

Lemma gnu_symbol_finds offset t : gnu_table bytes ctx offset = Ok t -> gnu_hashed t -> exists r, gnu_symbol bytes dynamic ctx offset = Ok r /\ first_definition r.
Proof.
  intros Ht hashed. pose proof (gnu_table_facts offset t Ht) as (Hbuckets & _). pose proof (gh_first t hashed) as Hfirst. assert (0 <= GNU_HASH) as Hhash by done.
  unfold gnu_symbol. rewrite Ht. cbn [mbind result_mbind]. destruct (bloom_word_ok offset t GNU_HASH Ht Hhash) as [bits Hbits]. rewrite Hbits. cbn [mbind result_mbind].
  destruct (Z.eqb_spec (Z.land bits (bloom_mask (gt_shift t) GNU_HASH ctx)) (bloom_mask (gt_shift t) GNU_HASH ctx)) as [_|Hmiss]; cbn [negb].
  2: { eexists. split; [done|]. intros i Hi. destruct (descriptor_at i) as [value|] eqn:Hd; [|done]. exfalso. assert (gt_first_symbol t <= i) by (apply (gh_defined t hashed); [lia|by eexists]).
       destruct (gh_bloom t hashed i ltac:(lia)) as (bits' & Hb' & Hm'). rewrite (defined_hash i value Hd) in Hb', Hm'. rewrite Hb' in Hbits. by injection Hbits as ->. }
  destruct (gh_bucket t hashed (GNU_HASH mod gt_bucket_count t)) as (index & Hw & Hcase); [by apply Z.mod_pos_bound|]. rewrite Hw. cbn [mbind result_mbind].
  destruct Hcase as [[-> Hnone]|(Hi & Hb & Hleast)].
  { eexists. split; [done|]. intros i Hi. destruct (descriptor_at i) as [value|] eqn:Hd; [|done]. exfalso. assert (gt_first_symbol t <= i) by (apply (gh_defined t hashed); [lia|by eexists]).
    apply (Hnone i); [lia|]. by rewrite (defined_hash i value Hd). }
  destruct (Z.eqb_spec index 0); [lia|]. pose proof (im_symtab image) as [Hpos Hlen]. pose proof symbol_size_pos as Hsize. pose proof count_fits as Hfits.
  destruct (gh_chain t hashed index Hi) as (c & Hc & _). apply word_bound in Hc; [|lia].
  rewrite (checked_sub_ok index (gt_first_symbol t)) by lia. cbn [malformed ok_or mbind result_mbind]. rewrite checked_mul_ok by lia. cbn [malformed ok_or mbind result_mbind].
  rewrite bytes_from_ok by lia. cbn [malformed ok_or mbind result_mbind]. rewrite (checked_sub_ok (Z.of_nat (length bytes)) (di_symtab dynamic)) by nia.
  cbn [malformed ok_or mbind result_mbind]. rewrite (im_entry image).
  assert (Z.of_nat count <= (Z.of_nat (length bytes) - di_symtab dynamic) / symbol_size ctx) as Hlimit by (apply Z.div_le_lower_bound; [done|lia]).
  rewrite checked_sub_ok by lia. cbn [malformed ok_or mbind result_mbind].
  apply (gnu_chain_finds t hashed); [done|lia| |done|].
  - intros i Hi'. replace (Z.to_nat ((index - gt_first_symbol t) * 4)) with (4 * Z.to_nat (index - gt_first_symbol t))%nat by lia. rewrite word_drop by lia. f_equal. lia.
  - apply (undefined_before t hashed); [done|lia].
Qed.

(** *** The SysV hash table *)

(** The definition with the least index so far. *)
Definition better (found : option (Z * Z)) (index : Z) : option (Z * Z) :=
  if match found with None => true | Some (previous, _) => index <? previous end
  then match descriptor_at index with Some value => Some (index, value) | None => found end else found.
Lemma best_spec l : forall found, (forall i value, found = Some (i, value) -> descriptor_at i = Some value) ->
  match foldl better found l with
  | Some (i, value) => descriptor_at i = Some value /\ (i ∈ l \/ found = Some (i, value)) /\
      (forall j, j ∈ l -> is_Some (descriptor_at j) -> i <= j) /\ (forall j w, found = Some (j, w) -> i <= j)
  | None => found = None /\ forall j, j ∈ l -> descriptor_at j = None
  end.
Proof.
  induction l as [|k l IH]; intros found Hf; cbn [foldl].
  { destruct found as [[i value]|]; [|split; [done|by intros j ?%elem_of_nil]]. split; [by apply Hf|]. split; [by right|]. split; [by intros j ?%elem_of_nil|].
    by intros j w [= -> ->]. }
  assert ((better found k = found /\ (is_Some (descriptor_at k) -> exists i value, found = Some (i, value) /\ i <= k)) \/
          (exists value, better found k = Some (k, value) /\ descriptor_at k = Some value /\ forall j w, found = Some (j, w) -> k <= j)) as [[-> Hk]|(value & -> & Hk & Hless)].
  { unfold better. destruct found as [[i v]|]; [destruct (Z.ltb_spec k i) as [Hlt|Hge]|]; destruct (descriptor_at k) as [value|].
    - right. exists value. split; [done|]. split; [done|]. intros j w [= -> ->]. lia.
    - left. split; [done|]. by intros [? ?].
    - left. split; [done|]. intros _. by exists i, v.
    - left. split; [done|]. by intros [? ?].
    - right. by exists value.
    - left. split; [done|]. by intros [? ?]. }
  - specialize (IH found Hf). destruct (foldl better found l) as [[i value]|].
    + destruct IH as (Hd & Hin & Hle & Hfound). split; [done|]. split; [destruct Hin; [left; by right|by right]|]. split; [|done].
      intros j [->|Hj]%elem_of_cons Hs; [|by apply Hle]. destruct (Hk Hs) as (i' & v' & -> & Hik). specialize (Hfound i' v' eq_refl). lia.
    + destruct IH as [-> Hnone]. split; [done|]. intros j [->|Hj]%elem_of_cons; [|by apply Hnone]. destruct (descriptor_at k) as [v|] eqn:Hdk; [|done].
      destruct (Hk ltac:(by eexists)) as (? & ? & ? & _). done.
  - specialize (IH (Some (k, value))). destruct (foldl better (Some (k, value)) l) as [[i v]|]; [|by destruct IH as [? _]; [intros ? ? [= <- <-]|]].
    destruct IH as (Hd & Hin & Hle & Hfound); [by intros ? ? [= <- <-]|]. specialize (Hfound k value eq_refl). split; [done|].
    split; [left; destruct Hin as [?|[= <- <-]]; [by right|by left]|]. split; [intros j [->|Hj]%elem_of_cons Hs; [done|by apply Hle]|].
    intros j w Hj. specialize (Hless j w Hj). lia.
Qed.

Section sysv.
Context (t : SysvTable) (hashed : sysv_hashed t).
Lemma sysv_chain_best index l : sysv_list t index l -> forall rounds found, (length l < rounds)%nat ->
  sysv_chain bytes dynamic ctx (sv_chains t) (sv_chain_count t) rounds index found = Ok (snd <$> foldl better found l).
Proof.
  induction 1 as [|i next l Hi Hw _ IH]; intros rounds found Hr; (destruct rounds as [|rounds]; [cbn in Hr; lia|]); cbn [sysv_chain]; [done|].
  cbn [length] in Hr. destruct (Z.eqb_spec i 0); [lia|]. destruct (Z.leb_spec (sv_chain_count t) i); [lia|].
  pose proof (sh_count t hashed) as Hcount. rewrite symbol_value_at by lia. cbn [foldl].
  assert ((if match found with None => true | Some (previous, _) => i <? previous end
           then value ← Ok (descriptor_at i); Ok (match value with Some value => Some (i, value) | None => found end) else Ok found) = Ok (better found i)) as ->.
  { unfold better. by destruct (match found with None => true | Some _ => _ end), (descriptor_at i). }
  cbn [mbind result_mbind]. rewrite Hw. cbn [mbind result_mbind]. apply IH. lia.
Qed.
Lemma sysv_list_range index l : sysv_list t index l -> forall i, i ∈ l -> 0 < i < Z.of_nat count.
Proof.
  rewrite <- (sh_count t hashed). induction 1 as [|i next l Hi Hw Hl IH]; intros j; [by intros ?%elem_of_nil|]. intros [->|Hj]%elem_of_cons; [done|by apply IH].
Qed.
Lemma sysv_list_length index l : sysv_list t index l -> NoDup l -> (0 < count)%nat -> (length l < count)%nat.
Proof.
  intros Hl Hnd Hpos. assert (l ⊆+ seqZ 1 (Z.of_nat count - 1)) as Hsub.
  { apply NoDup_submseteq; [done|]. intros i Hi. apply (sysv_list_range index l Hl) in Hi. apply elem_of_seqZ. lia. }
  apply submseteq_length in Hsub. rewrite length_seqZ in Hsub. lia.
Qed.
End sysv.

Lemma sysv_table_facts offset t : sysv_table bytes ctx offset = Ok t -> 0 < sv_bucket_count t /\ sv_chain_count t <> 0.
Proof.
  unfold sysv_table. destruct (bytes_from offset bytes) as [table|] eqn:Htable; [|done]. cbn [malformed ok_or mbind result_mbind].
  unfold bytes_from in Htable. destruct (offset <=? _); [|done]. injection Htable as <-.
  set (table := drop (Z.to_nat offset) bytes). assert (Forall is_byte table) as Hbytes by apply Forall_drop, (im_bytes image). clearbody table.
  destruct (word table 0 ctx) as [bucket_count|] eqn:Hb; [|done]. destruct (word table 1 ctx) as [chain_count|]; [|done]. cbn [mbind result_mbind].
  apply read_word_nonneg in Hb; [|done]. destruct (Z.eqb_spec bucket_count 0); [done|]. destruct (Z.eqb_spec chain_count 0); [done|]. cbn [orb].
  destruct (checked_mul_usize bucket_count 4); [|done]. cbn [malformed ok_or mbind result_mbind]. destruct (bytes_from 8 table ≫= _) as [[buckets remaining]|]; [|done].
  cbn [malformed ok_or mbind result_mbind]. destruct (checked_mul_usize chain_count 4); [|done]. cbn [malformed ok_or mbind result_mbind].
  destruct (bytes_to _ remaining); [|done]. cbn [malformed ok_or mbind result_mbind]. intros [= <-]. cbn. lia.
Qed.
Lemma sysv_symbol_finds offset t : sysv_table bytes ctx offset = Ok t -> sysv_hashed t -> exists r, sysv_symbol bytes dynamic ctx offset = Ok r /\ first_definition r.
Proof.
  intros Ht hashed. destruct (sysv_table_facts offset t Ht) as [Hbuckets Hchains]. pose proof (sh_count t hashed) as Hcount. pose proof (im_symtab image) as [Hpos Hlen].
  pose proof symbol_size_pos as Hsize. pose proof (im_length image) as Hmax. unfold sysv_symbol. rewrite Ht. cbn [mbind result_mbind]. rewrite (im_entry image), Hcount.
  rewrite checked_mul_ok by lia. cbn [malformed ok_or mbind result_mbind]. destruct symbol_table_spec as [Htab _]. rewrite Htab. cbn [malformed ok_or mbind result_mbind].
  destruct (sh_bucket t hashed (SYSV_HASH mod sv_bucket_count t)) as (index & l & Hw & Hl & Hnd & Hall); [by apply Z.mod_pos_bound|]. rewrite Hw. cbn [mbind result_mbind].
  rewrite <- Hcount. rewrite (sysv_chain_best t hashed index l Hl) by (rewrite Hcount; pose proof (sysv_list_length t hashed index l Hl Hnd); lia).
  eexists. split; [done|]. assert (forall i value, 0 <= i < Z.of_nat count -> descriptor_at i = Some value -> i ∈ l) as Hin.
  { intros i value Hi Hd. destruct (decide (i = 0)) as [->|]; [by rewrite (sh_undefined t hashed) in Hd|]. apply Hall; [lia|]. by rewrite (descriptor_named i value Hd). }
  pose proof (best_spec l None ltac:(done)) as Hbest. destruct (foldl better None l) as [[i value]|]; cbn.
  - destruct Hbest as (Hd & [Hi|?] & Hle & _); [|done]. exists i. apply (sysv_list_range t hashed index l Hl) in Hi as Hrange. split; [lia|]. split; [done|].
    intros j Hj. destruct (descriptor_at j) as [w|] eqn:Hdj; [|done]. exfalso. specialize (Hle j (Hin j w ltac:(lia) Hdj) ltac:(by eexists)). lia.
  - destruct Hbest as [_ Hnone]. intros i Hi. destruct (descriptor_at i) as [w|] eqn:Hdi; [|done]. by rewrite (Hnone i (Hin i w Hi Hdi)) in Hdi.
Qed.

(** A hash table of either kind; the GNU table is preferred. *)
Definition hashed_image : Prop :=
  (exists offset t, di_gnu_hash dynamic = Some offset /\ gnu_table bytes ctx offset = Ok t /\ gnu_hashed t) \/
  (exists offset t, di_gnu_hash dynamic = None /\ di_hash dynamic = Some offset /\ sysv_table bytes ctx offset = Ok t /\ sysv_hashed t).
Lemma hash_lookup_finds : hashed_image -> exists r, descriptor_symbol bytes dynamic ctx = Ok r /\ first_definition r.
Proof.
  unfold descriptor_symbol. rewrite (im_entry image), Z.eqb_refl. intros [(offset & t & -> & Ht & Hh)|(offset & t & -> & -> & Ht & Hh)]; cbn [negb].
  - by destruct (di_hash dynamic); apply (gnu_symbol_finds offset t).
  - by apply (sysv_symbol_finds offset t).
Qed.
End image.


(** ** An image with one exported symbol *)

(** The symbol formats of the ELF specification. *)
Definition number (ctx : Ctx) (l : list Z) : Z := foldr (λ b n, b + 256 * n) 0 (if is_little_endian ctx then l else reverse l).
Definition field (ctx : Ctx) (start size : nat) (l : list Z) : Z := number ctx (take size (drop start l)).
Definition parse_symbol (ctx : Ctx) (l : list Z) : Sym :=
  if is_big ctx then mkSym (field ctx 0 4 l) (field ctx 8 8 l) (field ctx 6 2 l) else mkSym (field ctx 0 4 l) (field ctx 4 4 l) (field ctx 14 2 l).
Definition elf_symbol_at (ctx : Ctx) (bytes : list Z) (offset : Z) : option Sym := parse_symbol ctx <$> (bytes_from offset bytes ≫= bytes_to (symbol_size ctx)).
#[local] Instance elf_reader : Goblin := {|
  parse_header _ := None;
  parse_program_headers _ _ := None;
  parse_dynamic _ _ _ := None;
  parse_sections _ _ := None;
  parse_relocations _ _ _ := None;
  symbol_at := elf_symbol_at;
  symbols_of ctx table count := mapM (λ i, elf_symbol_at ctx table (i * symbol_size ctx)) (seqZ 0 count);
  memmem_find names pattern := (λ p, Z.of_nat p.1) <$> list_find (λ k, take (length pattern) (drop k names) = pattern) (seq 0 (S (length names)));
|}.
#[local] Instance elf_reads : GoblinReads.
Proof.
  split.
  - intros ctx table count Hlen. cbn. pose proof (symbol_size_pos ctx) as Hsize.
    destruct (mapM (λ i, elf_symbol_at ctx table (i * symbol_size ctx)) (seqZ 0 (Z.of_nat count))) as [symbols|] eqn:Hm.
    + exists symbols. apply mapM_Some in Hm as Hall. split; [done|]. split; [apply Forall2_length in Hall; rewrite length_seqZ in Hall; lia|].
      intros i symbol Hi. destruct (Forall2_lookup_r _ _ _ _ _ Hall Hi) as (k & Hk & Hs). apply lookup_seqZ in Hk as [-> _]. by rewrite Z.add_0_l in Hs.
    + exfalso. apply mapM_None, Exists_exists in Hm as (i & Hi & Hnone). apply elem_of_seqZ in Hi. cbn in Hnone. unfold elf_symbol_at in Hnone.
      rewrite bytes_sub in Hnone by nia. done.
  - intros ctx bytes base size table offset Hbase Htable Ho Hs. cbn. unfold elf_symbol_at. f_equal. pose proof (symbol_size_pos ctx) as Hsize.
    unfold bytes_from in Htable. destruct (Z.leb_spec base (Z.of_nat (length bytes))); [|done]. cbn in Htable. unfold bytes_to in Htable. revert Htable.
    case Z.leb_spec; [|done]. rewrite length_drop. intros Hle [= <-]. rewrite !bytes_sub by (rewrite ?length_take, ?length_drop; lia). f_equal.
    rewrite skipn_firstn_comm, take_take, drop_drop. f_equal; [lia|]. f_equal. lia.
  - intros names pattern k Hnone Hk. unfold memmem_find, elf_reader in Hnone. apply fmap_None, list_find_None in Hnone as Hf. rewrite list.Forall_forall in Hf.
    destruct (decide (k <= length names)%nat) as [Hle|Hgt]; [apply (Hf k); [apply elem_of_seq; lia|done]|].
    rewrite drop_ge in Hk by lia. rewrite take_nil in Hk. subst pattern. apply (Hf 0%nat); [apply elem_of_seq; lia|by cbn].
Qed.
#[local] Abbreviation little := (mkElfCtx true true).
(** The null symbol and the descriptor at 64; the names; a GNU table with one
    bucket. *)
Definition exported : list Z :=
  replicate 24 0 ++ [1; 0; 0; 0; 17; 0; 5; 0; 64; 0; 0; 0; 0; 0; 0; 0; 24; 0; 0; 0; 0; 0; 0; 0] ++
  0 :: JIT_DESCRIPTOR_SYMBOL ++ [0] ++
  [1; 0; 0; 0; 1; 0; 0; 0; 1; 0; 0; 0; 5; 0; 0; 0] ++ replicate 8 255 ++ [1; 0; 0; 0] ++ ((λ k, Z.land (Z.shiftr (Z.lor GNU_HASH 1) k) 255) <$> [0; 8; 16; 24]).
Definition exported_dynamic : DynamicInfo := mkDynamic (Some 72) None 0 24 48 24.

