(* ===== verification/JitProtocol.v ===== *)
(** * GDB JIT registrations

    [crates/stackpulse-jit/src/protocol.rs]: the descriptors and the linked lists
    of registrations in the memory of a running process.  The process runs while
    it is read, so each read may see another memory; what a traversal accepts is
    a well-formed list within the limits whatever the memory does. *)

From stdpp Require Import prelude list numbers gmap fin_maps.
From S2P Require Import Prelude.
#[local] Open Scope Z_scope.

(** ** Data *)

Definition MAX_JIT_ENTRIES : nat := 4096.
Definition MAX_JIT_TOTAL_SIZE : Z := 256 * 1024 * 1024.
Definition MAX_JIT_TOTAL_CFI_SIZE : Z := 256 * 1024 * 1024.
Definition MAX_JIT_READ_SIZE : Z := 64 * 1024 * 1024.

Record JitDescriptor := mkDescriptor {
  jd_version : Z;
  jd_action_flag : Z;
  jd_relevant_entry : Z;
  jd_first_entry : Z;
}.
#[global] Instance JitDescriptor_eq_dec : EqDecision JitDescriptor.
Proof. solve_decision. Defined.

Record JitCodeEntry := mkEntry {
  je_next_entry : Z;
  je_prev_entry : Z;
  je_symfile_addr : Z;
  je_symfile_size : Z;
}.
#[global] Instance JitCodeEntry_eq_dec : EqDecision JitCodeEntry.
Proof. solve_decision. Defined.

Record JitSnapshot := mkSnapshot {
  sn_descriptors : list (Z * JitDescriptor);
  sn_entries : gmap Z JitCodeEntry;
}.
#[global] Instance JitSnapshot_eq_dec : EqDecision JitSnapshot.
Proof. solve_decision. Defined.

Record JitObjectId := mkObjectId {
  id_entry_addr : Z;
  id_symfile_addr : Z;
  id_symfile_size : Z;
}.
#[global] Instance JitObjectId_eq_dec : EqDecision JitObjectId.
Proof. solve_decision. Defined.
#[global] Instance JitObjectId_countable : Countable JitObjectId.
Proof.
  refine (inj_countable' (λ i, (id_entry_addr i, id_symfile_addr i, id_symfile_size i)) (λ '(a, b, c), mkObjectId a b c) _). by intros [].
Defined.
Definition object_id_new (entry_addr : Z) (entry : JitCodeEntry) : JitObjectId :=
  mkObjectId entry_addr (je_symfile_addr entry) (je_symfile_size entry).

(** What a limit was; other failures are reads. *)
Inductive JitLimit := LimitRegistrations | LimitObjects | LimitObject | LimitSection | LimitUnwindData.
Inductive SnapshotError := ErrRead | ErrLimit (limit : JitLimit).

(** ** Reading *)

Section memory.
(** The [n]-th read: address and length. *)
Context (read : nat -> Z -> nat -> option (list Z)).

Definition read_array (n : nat) (address : Z) (len : nat) : option (list Z) :=
  match checked_add_u64 address (Z.of_nat len) with Some _ => read n address len | None => None end.

(** [from_ne_bytes] on a little-endian machine. *)
Fixpoint ne_value (bytes : list Z) : Z :=
  match bytes with [] => 0 | b :: bytes => b + 256 * ne_value bytes end.
Definition word (bytes : list Z) (size i : nat) : Z := ne_value (take size (drop (i * size) bytes)).

Definition read_descriptor (n : nat) (address : Z) : option JitDescriptor :=
  bytes ← read_array n address 24;
  let descriptor := mkDescriptor (word bytes 4 0) (word bytes 4 1) (word bytes 8 1) (word bytes 8 2) in
  if jd_version descriptor =? 1 then Some descriptor else None.
Fixpoint read_descriptors (n : nat) (locations : list Z) : option (list (Z * JitDescriptor)) :=
  match locations with
  | [] => Some []
  | address :: locations =>
      descriptor ← read_descriptor n address;
      descriptors ← read_descriptors (S n) locations;
      Some ((address, descriptor) :: descriptors)
  end.

(** The loop of [read_entries]; [None] is out of fuel. *)
Fixpoint entries_loop (fuel n : nat) (entries : gmap Z JitCodeEntry) (address previous : Z)
    : option (SnapshotError + gmap Z JitCodeEntry) :=
  match fuel with
  | O => None
  | S fuel =>
      if address =? 0 then Some (inr entries)
      else if (size entries =? MAX_JIT_ENTRIES)%nat then Some (inl (ErrLimit LimitRegistrations))
      else if bool_decide (is_Some (entries !! address)) then Some (inl ErrRead)
      else
        match read_array n address 32 with
        | None => Some (inl ErrRead)
        | Some bytes =>
            let entry := mkEntry (word bytes 8 0) (word bytes 8 1) (word bytes 8 2) (word bytes 8 3) in
            if MAX_JIT_READ_SIZE <? je_symfile_size entry then Some (inl (ErrLimit LimitObject))
            else if je_symfile_size entry =? 0 then Some (inl ErrRead)
            else if negb (je_prev_entry entry =? previous) then Some (inl ErrRead)
            else entries_loop fuel (S n) (<[address := entry]> entries) (je_next_entry entry) address
        end
  end.
Definition read_entries (n : nat) (first_entry : Z) : option (SnapshotError + gmap Z JitCodeEntry) :=
  entries_loop (S (S MAX_JIT_ENTRIES)) n ∅ first_entry 0.

(** The entries of one list added to those of the others. *)
Fixpoint merge_entries (new : list (Z * JitCodeEntry)) (entries : gmap Z JitCodeEntry) (total_size : Z)
    : SnapshotError + gmap Z JitCodeEntry * Z :=
  match new with
  | [] => inr (entries, total_size)
  | (address, entry) :: new =>
      match entries !! address with
      | Some previous =>
          if negb (bool_decide (previous = entry)) then inl ErrRead else merge_entries new (<[address := entry]> entries) total_size
      | None =>
          let entries := <[address := entry]> entries in
          match checked_add_u64 total_size (je_symfile_size entry) with
          | None => inl ErrRead
          | Some total_size =>
              if (MAX_JIT_ENTRIES <? size entries)%nat then inl (ErrLimit LimitRegistrations)
              else if MAX_JIT_TOTAL_SIZE <? total_size then inl (ErrLimit LimitObjects)
              else merge_entries new entries total_size
          end
      end
  end.

Fixpoint snapshot_loop (n : nat) (descriptors : list (Z * JitDescriptor)) (entries : gmap Z JitCodeEntry) (total_size : Z)
    : option (SnapshotError + gmap Z JitCodeEntry) :=
  match descriptors with
  | [] => Some (inr entries)
  | (_, descriptor) :: descriptors =>
      list ← read_entries n (jd_first_entry descriptor);
      match list with
      | inl e => Some (inl e)
      | inr new =>
          match merge_entries (map_to_list new) entries total_size with
          | inl e => Some (inl e)
          | inr (entries, total_size) => snapshot_loop (n + size new) descriptors entries total_size
          end
      end
  end.
Definition read_snapshot (n : nat) (descriptors : list (Z * JitDescriptor)) : option (SnapshotError + JitSnapshot) :=
  entries ← snapshot_loop n descriptors ∅ 0;
  Some (match entries with inl e => inl e | inr entries => inr (mkSnapshot descriptors entries) end).

(** ** What is accepted *)

(** A doubly linked list: each node after its predecessor. *)
Fixpoint linked (previous : Z) (nodes : list (Z * JitCodeEntry)) (first : Z) : Prop :=
  match nodes with
  | [] => first = 0
  | (address, entry) :: nodes =>
      first = address /\ address <> 0 /\ je_prev_entry entry = previous /\ 0 < je_symfile_size entry <= MAX_JIT_READ_SIZE /\
      linked address nodes (je_next_entry entry)
  end.

Hypothesis Hbytes : forall n address len bytes, read n address len = Some bytes -> Forall is_byte bytes.

Lemma ne_value_pos bytes : Forall is_byte bytes -> 0 <= ne_value bytes.
Proof. induction 1 as [|b bytes Hb _ IH]; [done|]. cbn. word_unfold. lia. Qed.

Lemma word_pos n address len bytes size i : read_array n address len = Some bytes -> 0 <= word bytes size i.
Proof.
  unfold read_array. case_match; [|done]. intros Hr%Hbytes. apply ne_value_pos. by apply Forall_take, Forall_drop.
Qed.

(** The loop never runs out of fuel, and what it adds is the rest of the list. *)
Lemma entries_loop_spec fuel : forall n entries address previous,
  (size entries + fuel = S (S MAX_JIT_ENTRIES))%nat -> (size entries <= MAX_JIT_ENTRIES)%nat ->
  exists r, entries_loop fuel n entries address previous = Some r /\
  match r with
  | inl _ => True
  | inr entries' =>
      exists nodes, linked previous nodes address /\ NoDup nodes.*1 /\ (forall a, a ∈ nodes.*1 -> entries !! a = None) /\
        entries' = list_to_map nodes ∪ entries /\ (size entries' <= MAX_JIT_ENTRIES)%nat
  end.
Proof.
  induction fuel as [|fuel IH]; intros n entries address previous Hfuel Hsize; [lia|]. cbn [entries_loop].
  destruct (Z.eqb_spec address 0) as [->|Hnz].
  { eexists. split; [done|]. exists []. cbn. split_and!; [done|constructor|by intros a ?%elem_of_nil|by rewrite (left_id_L ∅ (∪))|done]. }
  destruct (Nat.eqb_spec (size entries) MAX_JIT_ENTRIES) as [|Hlt]; [by eexists|].
  case_bool_decide as Hseen; [by eexists|]. apply eq_None_not_Some in Hseen.
  destruct (read_array n address 32) as [bytes|] eqn:Hr; [|by eexists].
  set (entry := mkEntry _ _ _ _). destruct (Z.ltb_spec MAX_JIT_READ_SIZE (je_symfile_size entry)) as [|Hmax]; [by eexists|].
  destruct (Z.eqb_spec (je_symfile_size entry) 0) as [|Hpos]; [by eexists|].
  destruct (Z.eqb_spec (je_prev_entry entry) previous) as [Hprev|]; cbn [negb]; [|by eexists].
  destruct (IH (S n) (<[address := entry]> entries) (je_next_entry entry) address) as (r & -> & Hspec).
  { rewrite map_size_insert_None by done. lia. }
  { rewrite map_size_insert_None by done. unfold MAX_JIT_ENTRIES in *. lia. }
  eexists. split; [done|]. destruct r as [|entries']; [done|]. destruct Hspec as (nodes & Hl & Hnd & Hnew & -> & Hs).
  assert (address ∉ nodes.*1) as Hnot. { intros Hin. apply Hnew in Hin. by rewrite lookup_insert_eq in Hin. }
  exists ((address, entry) :: nodes). cbn [linked fmap list_fmap fst list_to_map]. split_and!; [done|done|done| | |done|by constructor| | |done].
  - assert (0 <= je_symfile_size entry) by (by eapply word_pos). lia.
  - done.
  - intros a [->|Ha]%elem_of_cons; [done|]. specialize (Hnew a Ha). rewrite lookup_insert_ne in Hnew; [done|]. by intros ->.
  - cbn. rewrite <-insert_union_r by (by apply not_elem_of_list_to_map_1). by rewrite insert_union_l.
Qed.

(** C36: reading a registration list always ends, whatever the running process
    does to its memory: with an error, or with the nodes of a doubly linked list
    from its head to its end, without a cycle, each pointing back to the node it
    was reached from, at most 4096 of them with images of at most 64 MiB. *)
Theorem registration_list_is_linked n first_entry :
  exists r, read_entries n first_entry = Some r /\
  match r with
  | inl _ => True
  | inr entries =>
      exists nodes, linked 0 nodes first_entry /\ NoDup nodes.*1 /\ entries = list_to_map nodes /\ (length nodes <= MAX_JIT_ENTRIES)%nat
  end.
Proof.
  destruct (entries_loop_spec (S (S MAX_JIT_ENTRIES)) n ∅ first_entry 0) as (r & Hr & Hspec); [by rewrite map_size_empty|rewrite map_size_empty; lia|].
  exists r. split; [exact Hr|]. destruct r as [|entries]; [done|]. destruct Hspec as (nodes & Hl & Hnd & _ & -> & Hs).
  rewrite (right_id_L ∅ (∪)) in *. exists nodes. split_and!; [done|done|done|]. by rewrite map_size_list_to_map in Hs.
Qed.
End memory.

(** Two registrations. *)
Definition sample_memory (n : nat) (address : Z) (len : nat) : option (list Z) :=
  let zeros := replicate 6 0 in
  if address =? 4096 then Some ([0; 32] ++ zeros ++ [0; 0] ++ zeros ++ [0; 1] ++ zeros ++ [16; 0] ++ zeros)
  else if address =? 8192 then Some ([0; 0] ++ zeros ++ [0; 16] ++ zeros ++ [0; 2] ++ zeros ++ [16; 0] ++ zeros)
  else None.

Lemma registration_list_is_linked_witness :
  read_entries sample_memory 0 4096 = Some (inr (<[4096 := mkEntry 8192 0 256 16]> {[8192 := mkEntry 0 4096 512 16]})) /\
  exists r, read_entries sample_memory 0 4096 = Some r /\
    match r with
    | inl _ => True
    | inr entries => exists nodes, linked 0 nodes 4096 /\ NoDup nodes.*1 /\ entries = list_to_map nodes /\ (length nodes <= MAX_JIT_ENTRIES)%nat
    end.
Proof.
  split; [by vm_compute|]. apply (registration_list_is_linked sample_memory). intros n address len bytes. unfold sample_memory.
  repeat case_match; intros [= <-]; repeat constructor; word_unfold; lia.
Defined.
