(* ===== verification/JitRegistry.v ===== *)
(** * The registry of generated code

    [crates/stackpulse-jit/src/lib.rs] and [object.rs]: which registrations of a
    running process are loaded, revalidated, replaced and retired, the budget of
    unwind data, retries, and the updates that consumers drain.  Answers of the
    running process and of the ELF reader are given with each call; a synthetic
    path is the identity it is printed from. *)

From stdpp Require Import prelude list numbers gmap fin_maps sorting.
From S2P Require Import Prelude Contexts FdeIndex SortedKeys JitProtocol.
#[local] Open Scope Z_scope.

(** ** Objects *)

Abbreviation range := (Z * Z)%type.

Record Symbol := mkSymbol { sy_range : range; sy_name : option (list Z) }.

Inductive CfiState :=
  | CfiAbsent
  | CfiUnreadable (r : range)
  | CfiBudgetLimited (r : range)
  | CfiLoaded (r : range) (fingerprint : Z).

Definition mark_budget_limited (c : CfiState) : CfiState :=
  match c with CfiUnreadable r => CfiBudgetLimited r | _ => c end.
Definition range_size (r : range) : Z := r.2 - r.1.
Definition budget_limit (c : CfiState) : option JitLimit :=
  match c with
  | CfiBudgetLimited r => if MAX_JIT_READ_SIZE <? range_size r then Some LimitSection else Some LimitUnwindData
  | _ => None
  end.

Record JitUnwind := mkUnwind { ju_cfi : CfiState; ju_text : option range; ju_got : option range }.

(** A pending module is known by the range it covers. *)
Record JitObject := mkObject {
  jo_code_ranges : list range;
  jo_pending_modules : list range;
  jo_symbols : option (list Symbol);
  jo_image_fingerprint : Z;
  jo_unwind : JitUnwind;
}.

Definition cfi_range (o : JitObject) : option range :=
  match ju_cfi (jo_unwind o) with CfiAbsent => None | CfiUnreadable r | CfiBudgetLimited r | CfiLoaded r _ => Some r end.
Definition loaded_cfi_size (o : JitObject) : Z :=
  match ju_cfi (jo_unwind o) with CfiLoaded r _ => range_size r | _ => 0 end.

Definition mark_limited (o : JitObject) : JitObject :=
  mkObject (jo_code_ranges o) (jo_pending_modules o) (jo_symbols o) (jo_image_fingerprint o)
    (mkUnwind (mark_budget_limited (ju_cfi (jo_unwind o))) (ju_text (jo_unwind o)) (ju_got (jo_unwind o))).

Record UnwindUpdate := mkUnwindUpdate { uu_unwind : JitUnwind; uu_modules : list range }.
Inductive ObjectChange :=
  | ChangeNone
  | ChangeImage
  | ChangeUnwind (update : UnwindUpdate).

Definition apply_unwind (update : UnwindUpdate) (o : JitObject) : JitObject :=
  mkObject (jo_code_ranges o) (uu_modules update) (jo_symbols o) (jo_image_fingerprint o) (uu_unwind update).

(** ** Loading an object *)

(** What the ELF reader finds in an image. *)
Record ElfSection := mkElfSection { sec_addr : Z; sec_size : Z; sec_executable : bool }.
Record ElfSymbol := mkElfSymbol { st_is_function : bool; st_shndx : nat; st_value : Z; st_size : Z; st_name : option (list Z) }.
Record ParsedElf := mkParsedElf {
  pe_supported : bool;
  pe_relocatable : bool;
  pe_sections : list ElfSection;
  pe_symbols : list ElfSymbol;
  pe_eh_frame : option range;
  pe_text : option range;
  pe_got : option range;
}.

Definition MAX_JIT_SYMBOLS : Z := 1000000.

Definition executable_section_ranges (sections : list ElfSection) : list range :=
  sort_by_key fst (omap (λ s,
    if negb (sec_addr s =? 0) && negb (sec_size s =? 0) && sec_executable s
    then (λ stop, (sec_addr s, stop)) <$> checked_add_u64 (sec_addr s) (sec_size s) else None) sections).

(** [windows(2)] with an overlap. *)
Fixpoint ranges_overlap (ranges : list range) : bool :=
  match ranges with
  | a :: ((b :: _) as rest) => (b.1 <? a.2) || ranges_overlap rest
  | _ => false
  end.

Definition range_contains (r : range) (address : Z) : bool := (r.1 <=? address) && (address <? r.2).

(** The symbols with the end of their section. *)
Definition symbol_candidates (elf : ParsedElf) (code_ranges : list range) : list (Z * Z * Z * list Z) :=
  omap (λ s,
    if st_is_function s && negb (st_shndx s =? 0)%nat then
      section ← pe_sections elf !! st_shndx s;
      start ← (if pe_relocatable elf then checked_add_u64 (sec_addr section) (st_value s) else Some (st_value s));
      r ← head (filter (λ r, range_contains r start = true) code_ranges);
      name ← st_name s;
      Some (start, st_size s, r.2, name)
    else None) (pe_symbols elf).

Fixpoint name_budget_ok (names : list (list Z)) (budget : Z) : bool :=
  match names with
  | [] => true
  | name :: names =>
      let len := Z.of_nat (length name) in
      if (1024 * 1024 <? len) || (budget <? len) then false else name_budget_ok names (budget - len)
  end.

Definition jit_symbols (elf : ParsedElf) (code_ranges : list range) : option (list Symbol) :=
  let symbols := symbol_candidates elf code_ranges in
  if MAX_JIT_SYMBOLS <? Z.of_nat (length symbols) then None
  else if negb (name_budget_ok ((λ s, s.2) <$> symbols) MAX_JIT_READ_SIZE) then None
  else
    let symbols := sort_by_key (λ s, s.1.1.1) symbols in
    Some (omap (λ s,
      let '(start, size, section_end, name) := s in
      stop ← (if size =? 0 then
                Some (match symbols !! partition_point (λ n, n.1.1.1 <=? start) symbols with
                      | Some n => Z.min n.1.1.1 section_end
                      | None => section_end
                      end)
              else (λ e, Z.min e section_end) <$> checked_add_u64 start size);
      if start <? stop then Some (mkSymbol (start, stop) (Some name)) else None) symbols).

(** Every code range is reserved, also without unwind data. *)
Definition build_modules (code_ranges : list range) : list range := code_ranges.

Section registry.
(** [Elf::parse] and the fingerprint of bytes. *)
Context (elf_parse : list Z -> option ParsedElf) (fingerprint : list Z -> Z).

(** The reads of one refresh. *)
Inductive ReadTag := InspectImage (id : JitObjectId) | InspectCfi (id : JitObjectId) | LoadImage (id : JitObjectId) | LoadCfi (id : JitObjectId).

Section reads.
Context (read : ReadTag -> Z -> Z -> option (list Z)).

(** [read_memory] and [read_memory_into]. *)
Definition read_memory (tag : ReadTag) (address size : Z) : option (list Z) :=
  if MAX_JIT_READ_SIZE <? size then None
  else match checked_add_u64 address size with None => None | Some _ => read tag address size end.

Definition nonempty (r : range) : bool := r.1 <? r.2.
Definition keep_if {A} (p : A -> bool) (o : option A) : option A := x ← o; if p x then Some x else None.

(** The unwind data of a new object, within the budget. *)
Definition load_cfi (id : JitObjectId) (range : option range) (remaining_cfi : Z) : CfiState * Z :=
  match range with
  | None => (CfiAbsent, remaining_cfi)
  | Some r =>
      if Z.min remaining_cfi MAX_JIT_READ_SIZE <? range_size r then (CfiBudgetLimited r, remaining_cfi)
      else
        match read_memory (LoadCfi id) r.1 (range_size r) with
        | None => (CfiUnreadable r, remaining_cfi)
        | Some bytes => (CfiLoaded r (fingerprint bytes), remaining_cfi - range_size r)
        end
  end.

(** [JitObject::load], with the budget that is left. *)
Definition object_load (id : JitObjectId) (remaining_cfi : Z) : option JitObject * Z :=
  if id_symfile_size id =? 0 then (None, remaining_cfi)
  else
    match (data ← read_memory (LoadImage id) (id_symfile_addr id) (id_symfile_size id); elf ← elf_parse data; Some (data, elf)) with
    | None => (None, remaining_cfi)
    | Some (data, elf) =>
        if negb (pe_supported elf) then (None, remaining_cfi)
        else
          let code_ranges := executable_section_ranges (pe_sections elf) in
          if ranges_overlap code_ranges then (None, remaining_cfi)
          else
            match jit_symbols elf code_ranges with
            | None => (None, remaining_cfi)
            | Some symbols =>
                let symbols := symbols ++ ((λ r, mkSymbol r None) <$> code_ranges) in
                let range := keep_if (λ r, negb (r.1 =? 0) && nonempty r) (pe_eh_frame elf) in
                let '(cfi, remaining_cfi) := load_cfi id range remaining_cfi in
                let unwind := mkUnwind cfi (keep_if (λ r, negb (r.1 =? 0) && nonempty r) (pe_text elf)) (keep_if nonempty (pe_got elf)) in
                (Some (mkObject code_ranges (build_modules code_ranges) (Some symbols) (fingerprint data) unwind), remaining_cfi)
            end
    end.

(** [JitObject::inspect]. *)
Definition object_inspect (id : JitObjectId) (o : JitObject) (remaining_cfi : Z) : (SnapshotError + ObjectChange) * Z :=
  match read_memory (InspectImage id) (id_symfile_addr id) (id_symfile_size id) with
  | None => (inl ErrRead, remaining_cfi)
  | Some data =>
      if negb (fingerprint data =? jo_image_fingerprint o) then (inr ChangeImage, remaining_cfi)
      else
        match (match ju_cfi (jo_unwind o) with
               | CfiAbsent => None
               | CfiUnreadable r | CfiBudgetLimited r => Some (r, None)
               | CfiLoaded r old => Some (r, Some old)
               end) with
        | None => (inr ChangeNone, remaining_cfi)
        | Some (r, old) =>
            let size := range_size r in
            if MAX_JIT_READ_SIZE <? size then (inl (ErrLimit LimitSection), remaining_cfi)
            else if remaining_cfi <? size then (inl (ErrLimit LimitUnwindData), remaining_cfi)
            else
              match read_memory (InspectCfi id) r.1 size with
              | None => (inl ErrRead, remaining_cfi)
              | Some bytes =>
                  if bool_decide (old = Some (fingerprint bytes)) then (inr ChangeNone, remaining_cfi)
                  else
                    let unwind := mkUnwind (CfiLoaded r (fingerprint bytes)) (ju_text (jo_unwind o)) (ju_got (jo_unwind o)) in
                    (inr (ChangeUnwind (mkUnwindUpdate unwind (build_modules (jo_code_ranges o)))), remaining_cfi - size)
              end
        end
  end.
End reads.

(** ** The registry *)

Record RetryBackoff := mkBackoff { rb_attempts : Z; rb_retry_at : Z }.
Definition backoff_next (previous : option RetryBackoff) (poll : Z) : RetryBackoff :=
  let attempts := match previous with None => 0 | Some failure => Z.min 255 (rb_attempts failure + 1) end in
  mkBackoff attempts (saturating_add_u64 poll (Z.shiftl 1 (Z.min attempts 3))).

(** An address of a descriptor, and the image that owns it. *)
Record JitDescriptorLocation := mkLocation {
  dl_address : Z;
  dl_owner : list Z;
  dl_owner_file_offset : option Z;
  dl_owner_identity : option (Z * Z);
}.
#[global] Instance JitDescriptorLocation_eq_dec : EqDecision JitDescriptorLocation.
Proof. solve_decision. Defined.
Record Mapping := mkMapping { mp_range : range; mp_path : list Z; mp_file_offset : Z; mp_identity : option (Z * Z) }.

Record Registry := mkRegistry {
  rg_descriptors : list JitDescriptorLocation;
  rg_search_generation : option Z;
  rg_objects : gmap JitObjectId JitObject;
  rg_code_ranges : gmap Z (Z * JitObjectId);
  rg_load_failures : gmap JitObjectId RetryBackoff;
  rg_refresh_backoff : option RetryBackoff;
  rg_poll_count : Z;
  rg_stale_paths : gset JitObjectId;
  rg_updates_pending : bool;
  rg_last_poll : option Z;
  rg_last_discovery : option (Z * Z);
  rg_last_demand_refresh : option Z;
  rg_last_revalidation : option Z;
  rg_last_descriptors : list (Z * JitDescriptor);
  rg_needs_reconciliation : bool;
}.
Definition registry_new : Registry := mkRegistry [] None ∅ ∅ ∅ None 0 ∅ false None None None None [] true.

(** Milliseconds. *)
Definition POLL_INTERVAL : Z := 100.
Definition REVALIDATION_INTERVAL : Z := 1000.

(** The entry of an ordered map with the last key up to an address. *)
Definition range_at {A} (m : gmap Z A) (address : Z) : option (Z * A) := nearest fst (map_to_list m) address.

Definition is_absent (g : Registry) : bool := bool_decide (is_Some (rg_search_generation g)) && bool_decide (rg_descriptors g = []).

Inductive Update :=
  | Removed (path : JitObjectId)
  | Loaded (path : JitObjectId) (modules : list range) (symbols : option (list Symbol)).

(** *** Fields *)

Definition set_descriptors (descriptors : list JitDescriptorLocation) (g : Registry) : Registry :=
  mkRegistry descriptors (rg_search_generation g) (rg_objects g) (rg_code_ranges g) (rg_load_failures g) (rg_refresh_backoff g) (rg_poll_count g)
    (rg_stale_paths g) (rg_updates_pending g) (rg_last_poll g) (rg_last_discovery g) (rg_last_demand_refresh g) (rg_last_revalidation g) (rg_last_descriptors g) (rg_needs_reconciliation g).
Definition set_search_generation (generation : option Z) (g : Registry) : Registry :=
  mkRegistry (rg_descriptors g) generation (rg_objects g) (rg_code_ranges g) (rg_load_failures g) (rg_refresh_backoff g) (rg_poll_count g)
    (rg_stale_paths g) (rg_updates_pending g) (rg_last_poll g) (rg_last_discovery g) (rg_last_demand_refresh g) (rg_last_revalidation g) (rg_last_descriptors g) (rg_needs_reconciliation g).
Definition set_objects (objects : gmap JitObjectId JitObject) (code_ranges : gmap Z (Z * JitObjectId)) (g : Registry) : Registry :=
  mkRegistry (rg_descriptors g) (rg_search_generation g) objects code_ranges (rg_load_failures g) (rg_refresh_backoff g) (rg_poll_count g)
    (rg_stale_paths g) (rg_updates_pending g) (rg_last_poll g) (rg_last_discovery g) (rg_last_demand_refresh g) (rg_last_revalidation g) (rg_last_descriptors g) (rg_needs_reconciliation g).
Definition set_load_failures (failures : gmap JitObjectId RetryBackoff) (g : Registry) : Registry :=
  mkRegistry (rg_descriptors g) (rg_search_generation g) (rg_objects g) (rg_code_ranges g) failures (rg_refresh_backoff g) (rg_poll_count g)
    (rg_stale_paths g) (rg_updates_pending g) (rg_last_poll g) (rg_last_discovery g) (rg_last_demand_refresh g) (rg_last_revalidation g) (rg_last_descriptors g) (rg_needs_reconciliation g).
Definition set_refresh_backoff (backoff : option RetryBackoff) (g : Registry) : Registry :=
  mkRegistry (rg_descriptors g) (rg_search_generation g) (rg_objects g) (rg_code_ranges g) (rg_load_failures g) backoff (rg_poll_count g)
    (rg_stale_paths g) (rg_updates_pending g) (rg_last_poll g) (rg_last_discovery g) (rg_last_demand_refresh g) (rg_last_revalidation g) (rg_last_descriptors g) (rg_needs_reconciliation g).
Definition set_poll_count (count : Z) (g : Registry) : Registry :=
  mkRegistry (rg_descriptors g) (rg_search_generation g) (rg_objects g) (rg_code_ranges g) (rg_load_failures g) (rg_refresh_backoff g) count
    (rg_stale_paths g) (rg_updates_pending g) (rg_last_poll g) (rg_last_discovery g) (rg_last_demand_refresh g) (rg_last_revalidation g) (rg_last_descriptors g) (rg_needs_reconciliation g).
Definition set_pending (stale : gset JitObjectId) (pending : bool) (g : Registry) : Registry :=
  mkRegistry (rg_descriptors g) (rg_search_generation g) (rg_objects g) (rg_code_ranges g) (rg_load_failures g) (rg_refresh_backoff g) (rg_poll_count g)
    stale pending (rg_last_poll g) (rg_last_discovery g) (rg_last_demand_refresh g) (rg_last_revalidation g) (rg_last_descriptors g) (rg_needs_reconciliation g).
Definition set_last_poll (time : option Z) (g : Registry) : Registry :=
  mkRegistry (rg_descriptors g) (rg_search_generation g) (rg_objects g) (rg_code_ranges g) (rg_load_failures g) (rg_refresh_backoff g) (rg_poll_count g)
    (rg_stale_paths g) (rg_updates_pending g) time (rg_last_discovery g) (rg_last_demand_refresh g) (rg_last_revalidation g) (rg_last_descriptors g) (rg_needs_reconciliation g).
Definition set_last_discovery (discovery : option (Z * Z)) (g : Registry) : Registry :=
  mkRegistry (rg_descriptors g) (rg_search_generation g) (rg_objects g) (rg_code_ranges g) (rg_load_failures g) (rg_refresh_backoff g) (rg_poll_count g)
    (rg_stale_paths g) (rg_updates_pending g) (rg_last_poll g) discovery (rg_last_demand_refresh g) (rg_last_revalidation g) (rg_last_descriptors g) (rg_needs_reconciliation g).
Definition set_last_demand (time : option Z) (g : Registry) : Registry :=
  mkRegistry (rg_descriptors g) (rg_search_generation g) (rg_objects g) (rg_code_ranges g) (rg_load_failures g) (rg_refresh_backoff g) (rg_poll_count g)
    (rg_stale_paths g) (rg_updates_pending g) (rg_last_poll g) (rg_last_discovery g) time (rg_last_revalidation g) (rg_last_descriptors g) (rg_needs_reconciliation g).
Definition set_last_revalidation (time : option Z) (g : Registry) : Registry :=
  mkRegistry (rg_descriptors g) (rg_search_generation g) (rg_objects g) (rg_code_ranges g) (rg_load_failures g) (rg_refresh_backoff g) (rg_poll_count g)
    (rg_stale_paths g) (rg_updates_pending g) (rg_last_poll g) (rg_last_discovery g) (rg_last_demand_refresh g) time (rg_last_descriptors g) (rg_needs_reconciliation g).
Definition set_last_descriptors (descriptors : list (Z * JitDescriptor)) (g : Registry) : Registry :=
  mkRegistry (rg_descriptors g) (rg_search_generation g) (rg_objects g) (rg_code_ranges g) (rg_load_failures g) (rg_refresh_backoff g) (rg_poll_count g)
    (rg_stale_paths g) (rg_updates_pending g) (rg_last_poll g) (rg_last_discovery g) (rg_last_demand_refresh g) (rg_last_revalidation g) descriptors (rg_needs_reconciliation g).
Definition set_needs_reconciliation (needs : bool) (g : Registry) : Registry :=
  mkRegistry (rg_descriptors g) (rg_search_generation g) (rg_objects g) (rg_code_ranges g) (rg_load_failures g) (rg_refresh_backoff g) (rg_poll_count g)
    (rg_stale_paths g) (rg_updates_pending g) (rg_last_poll g) (rg_last_discovery g) (rg_last_demand_refresh g) (rg_last_revalidation g) (rg_last_descriptors g) needs.

(** *** Draining *)

(** [drain_updates]: retirements, then loads, in the orders of the two hash tables. *)
Definition object_published (o : JitObject) : JitObject :=
  mkObject (jo_code_ranges o) [] None (jo_image_fingerprint o) (jo_unwind o).
Definition object_pending (o : JitObject) : bool := negb (bool_decide (jo_pending_modules o = [])) || bool_decide (is_Some (jo_symbols o)).
Definition load_updates (order : list JitObjectId) (objects : gmap JitObjectId JitObject) : list Update :=
  omap (λ id, o ← objects !! id; if object_pending o then Some (Loaded id (jo_pending_modules o) (jo_symbols o)) else None) order.
Definition drain_updates (stale_order order : list JitObjectId) (g : Registry) : list Update * Registry :=
  if negb (rg_updates_pending g) then ([], g)
  else
    (map Removed stale_order ++ load_updates order (rg_objects g),
     set_objects ((λ o, if object_pending o then object_published o else o) <$> rg_objects g) (rg_code_ranges g) (set_pending ∅ false g)).

(** *** Descriptors *)

Definition clear_objects (g : Registry) : Registry :=
  let pending := rg_updates_pending g || negb (bool_decide (rg_objects g = ∅)) in
  set_load_failures ∅ (set_objects ∅ ∅ (set_pending (rg_stale_paths g ∪ dom (rg_objects g)) pending g)).

(** The owner of an old location is still mapped. *)
Definition owner_mapped (executable : list Z) (modules : list Mapping) (old : JitDescriptorLocation) : bool :=
  bool_decide (dl_owner old = executable)
  || existsb (λ m,
       bool_decide (mp_path m = dl_owner old) && bool_decide (mp_identity m = dl_owner_identity old)
       && range_contains (mp_range m) (dl_address old)
       && match dl_owner_file_offset old with
          | Some offset => bool_decide (checked_add_u64 (mp_file_offset m) (dl_address old - (mp_range m).1) = Some offset)
          | None => false
          end) modules.

(** [dedup_by_key]: of equal neighbours the first stays. *)
Fixpoint dedup_locations (l : list JitDescriptorLocation) : list JitDescriptorLocation :=
  match l with
  | a :: l' =>
      match dedup_locations l' with
      | b :: rest => if dl_address a =? dl_address b then a :: rest else a :: b :: rest
      | [] => [a]
      end
  | [] => []
  end.

Fixpoint retain_locations (executable : list Z) (modules : list Mapping) (old : list JitDescriptorLocation)
    (locations : list JitDescriptorLocation) (generation : option Z) : list JitDescriptorLocation * option Z :=
  match old with
  | [] => (locations, generation)
  | o :: old =>
      if negb (existsb (λ l, dl_address l =? dl_address o) locations) && owner_mapped executable modules o
      then retain_locations executable modules old (locations ++ [o]) None
      else retain_locations executable modules old locations generation
  end.

Definition update_descriptors (executable : list Z) (locations : list JitDescriptorLocation) (modules : list Mapping) (g : Registry) : Registry :=
  let '(locations, generation) := retain_locations executable modules (rg_descriptors g) locations (rg_search_generation g) in
  let locations := dedup_locations (sort_by_key dl_address locations) in
  let needs := rg_needs_reconciliation g || negb (bool_decide (rg_descriptors g = locations)) in
  let g := set_refresh_backoff None (set_descriptors locations (set_needs_reconciliation needs (set_search_generation generation g))) in
  match locations with [] => clear_objects g | _ => g end.

(** *** Refreshing *)

(** What the running process, the clock and the hash tables answer in one call. *)
Record JitWorld := mkWorld {
  jw_read : ReadTag -> Z -> Z -> option (list Z);
  jw_descriptors : option (list (Z * JitDescriptor));
  jw_entries : SnapshotError + gmap Z JitCodeEntry;
  jw_before : SnapshotError + JitSnapshot;
  jw_after : SnapshotError + JitSnapshot;
  jw_order : list JitObjectId;
  jw_found : list JitDescriptorLocation * bool;
  jw_executable : list Z;
  jw_now : Z;
  jw_revalidate_now : Z;
  jw_commit_now : Z;
}.

Definition is_active (entries : gmap Z JitCodeEntry) (id : JitObjectId) : bool :=
  match entries !! id_entry_addr id with Some entry => bool_decide (object_id_new (id_entry_addr id) entry = id) | None => false end.

(** Entries that a changed descriptor announces. *)
Definition changed_notifications (last snapshots : list (Z * JitDescriptor)) : list Z :=
  omap (λ '(address, d),
    if negb (jd_action_flag d =? 0) && existsb (λ '(old_address, old), (old_address =? address) && negb (bool_decide (old = d))) last
    then Some (jd_relevant_entry d) else None) snapshots.

Record Inspection := mkInspection {
  ip_remaining : Z;
  ip_invalidated : gset JitObjectId;
  ip_unwind_updates : list (JitObjectId * UnwindUpdate);
  ip_failed : list (JitObjectId * bool);
  ip_checked : list JitObjectId;
}.

(** One round of the loop over the loaded objects. *)
Definition inspect_one (w : JitWorld) (g : Registry) (entries : gmap Z JitCodeEntry) (changed : list Z) (revalidate : bool) (poll : Z)
    (s : Inspection) (id : JitObjectId) : Inspection :=
  match rg_objects g !! id with
  | None => s
  | Some o =>
      let '(mkInspection remaining invalidated updates failed checked) := s in
      if negb (is_active entries id) then s
      else if bool_decide (id_entry_addr id ∈ changed) then
        mkInspection (remaining + loaded_cfi_size o) ({[id]} ∪ invalidated) updates failed checked
      else
        let failure := rg_load_failures g !! id in
        let waits := match failure with Some f => poll <? rb_retry_at f | None => false end in
        if waits || (negb revalidate && negb (bool_decide (is_Some failure))) then s
        else
          let checked' := if bool_decide (is_Some failure) then checked ++ [id] else checked in
          match object_inspect (jw_read w) id o (remaining + loaded_cfi_size o) with
          | (inr ChangeImage, remaining) => mkInspection remaining ({[id]} ∪ invalidated) updates failed checked
          | (inr (ChangeUnwind u), remaining) => mkInspection remaining invalidated (updates ++ [(id, u)]) failed checked'
          | (inr ChangeNone, _) => mkInspection remaining invalidated updates failed checked'
          | (inl e, _) =>
              mkInspection remaining invalidated updates (failed ++ [(id, match e with ErrLimit _ => true | ErrRead => false end)]) checked
          end
  end.

(** Loading the new registrations, in the order of their addresses. *)
Fixpoint load_all (w : JitWorld) (ids : list JitObjectId) (remaining : Z) : list (JitObjectId * option JitObject) * Z :=
  match ids with
  | [] => ([], remaining)
  | id :: ids =>
      let '(o, remaining) := object_load (jw_read w) id remaining in
      let '(rest, remaining) := load_all w ids remaining in
      ((id, o) :: rest, remaining)
  end.

Definition pending_id (g : Registry) (invalidated : gset JitObjectId) (poll : Z) (e : Z * JitCodeEntry) : option JitObjectId :=
  let id := object_id_new e.1 e.2 in
  let waits := match rg_load_failures g !! id with Some f => poll <? rb_retry_at f | None => false end in
  if (negb (bool_decide (is_Some (rg_objects g !! id))) || bool_decide (id ∈ invalidated)) && negb waits then Some id else None.
Definition pending_ids (g : Registry) (entries : gmap Z JitCodeEntry) (invalidated : gset JitObjectId) (poll : Z) : list JitObjectId :=
  sort_by_key id_entry_addr (omap (pending_id g invalidated poll) (map_to_list entries)).

(** Retiring an object and its ranges. *)
Definition remove_ranges (ranges : list range) (code_ranges : gmap Z (Z * JitObjectId)) : gmap Z (Z * JitObjectId) :=
  foldl (λ m r, delete r.1 m) code_ranges ranges.
Definition retire_one (entries : gmap Z JitCodeEntry) (invalidated : gset JitObjectId) (g : Registry) (id : JitObjectId) : Registry :=
  match rg_objects g !! id with
  | None => g
  | Some o =>
      if is_active entries id && negb (bool_decide (id ∈ invalidated)) then g
      else
        set_pending ({[id]} ∪ rg_stale_paths g) true
          (set_objects (delete id (rg_objects g)) (remove_ranges (jo_code_ranges o) (rg_code_ranges g)) g)
  end.

Definition bump_failure (id : JitObjectId) (poll : Z) (g : Registry) : Registry :=
  set_load_failures (<[id := backoff_next (rg_load_failures g !! id) poll]> (rg_load_failures g)) g.

Definition failed_check (poll : Z) (g : Registry) (check : JitObjectId * bool) : Registry :=
  let '(id, budget_limited) := check in
  let g := if budget_limited then
             set_objects (alter mark_limited id (rg_objects g)) (rg_code_ranges g) g
           else g in
  bump_failure id poll g.

Definition apply_unwind_update (g : Registry) (u : JitObjectId * UnwindUpdate) : Registry :=
  match rg_objects g !! u.1 with
  | None => g
  | Some o => set_pending (rg_stale_paths g) true (set_objects (<[u.1 := apply_unwind u.2 o]> (rg_objects g)) (rg_code_ranges g) g)
  end.

(** A range of the object meets one that is there. *)
Definition overlaps_existing (code_ranges : gmap Z (Z * JitObjectId)) (ranges : list range) : bool :=
  existsb (λ r, match range_at code_ranges (r.2 - 1) with Some (_, (stop, _)) => r.1 <? stop | None => false end) ranges.
Definition insert_ranges (id : JitObjectId) (ranges : list range) (code_ranges : gmap Z (Z * JitObjectId)) : gmap Z (Z * JitObjectId) :=
  foldl (λ m r, <[r.1 := (r.2, id)]> m) code_ranges ranges.

Definition install_one (poll : Z) (g : Registry) (u : JitObjectId * option JitObject) : Registry :=
  match u with
  | (id, Some o) =>
      if overlaps_existing (rg_code_ranges g) (jo_code_ranges o) then bump_failure id poll g
      else
        set_load_failures (delete id (rg_load_failures g))
          (set_pending (rg_stale_paths g) true
             (set_objects (<[id := o]> (rg_objects g)) (insert_ranges id (jo_code_ranges o) (rg_code_ranges g)) g))
  | (id, None) => bump_failure id poll g
  end.

(** The commit of [refresh_objects], up to the new objects. *)
Definition settle_objects (poll : Z) (order : list JitObjectId) (entries : gmap Z JitCodeEntry) (s : Inspection) (g : Registry) : Registry :=
  let g := foldl (retire_one entries (ip_invalidated s)) g order in
  let g := set_load_failures (filter (λ p, is_active entries p.1 = true) (rg_load_failures g)) g in
  let g := foldl (λ g id, set_load_failures (delete id (rg_load_failures g)) g) g (ip_checked s) in
  let g := foldl (failed_check poll) g (ip_failed s) in
  foldl apply_unwind_update g (ip_unwind_updates s).
Definition commit_objects (poll : Z) (order : list JitObjectId) (entries : gmap Z JitCodeEntry) (s : Inspection)
    (updates : list (JitObjectId * option JitObject)) (g : Registry) : Registry :=
  foldl (install_one poll) (settle_objects poll order entries s g) updates.

Definition retained_cfi (entries : gmap Z JitCodeEntry) (objects : gmap JitObjectId JitObject) : Z :=
  map_fold (λ id o total, (if is_active entries id then loaded_cfi_size o else 0) + total) 0 objects.

Definition refresh_objects (w : JitWorld) (poll : Z) (g : Registry) : (SnapshotError + unit) * Registry :=
  match jw_descriptors w with
  | None => (inl ErrRead, g)
  | Some snapshots =>
      let revalidate := match rg_last_revalidation g with None => true | Some last => REVALIDATION_INTERVAL <=? jw_revalidate_now w - last end in
      let retry_due := bool_decide (filter (λ p, rb_retry_at p.2 <= poll) (rg_load_failures g) <> ∅) in
      if bool_decide (snapshots = rg_last_descriptors g) && negb revalidate && negb retry_due && negb (rg_needs_reconciliation g)
      then (inr tt, g)
      else
        match jw_entries w with
        | inl e => (inl e, g)
        | inr entries =>
            let changed := changed_notifications (rg_last_descriptors g) snapshots in
            let remaining := Z.max 0 (MAX_JIT_TOTAL_CFI_SIZE - retained_cfi entries (rg_objects g)) in
            let s := foldl (inspect_one w g entries changed revalidate poll) (mkInspection remaining ∅ [] [] []) (jw_order w) in
            let '(updates, _) := load_all w (pending_ids g entries (ip_invalidated s) poll) (ip_remaining s) in
            match jw_after w with
            | inl e => (inl e, g)
            | inr current =>
                if negb (bool_decide (sn_descriptors current = snapshots)) || negb (bool_decide (sn_entries current = entries))
                then (inr tt, set_needs_reconciliation true g)
                else
                  let g := set_last_descriptors snapshots (set_needs_reconciliation false g) in
                  let g := if revalidate then set_last_revalidation (Some (jw_commit_now w)) g else g in
                  (inr tt, commit_objects poll (jw_order w) entries s updates g)
            end
        end
  end.

(** [refresh]. *)
Definition registry_refresh (w : JitWorld) (generation : Z) (modules : list Mapping) (g : Registry) : Registry :=
  if bool_decide (rg_search_generation g = Some generation) && bool_decide (rg_descriptors g = []) then g
  else
    let now := jw_now w in
    let mappings_changed := match rg_last_discovery g with Some (last, _) => negb (last =? generation) | None => false end in
    let recent := match rg_last_poll g with Some last => now - last <? POLL_INTERVAL | None => false end in
    if recent && negb mappings_changed then g
    else
      let g := set_last_poll (Some now) g in
      let search :=
        negb (bool_decide (rg_search_generation g = Some generation))
        && match rg_last_discovery g with
           | None => true
           | Some (last_generation, last) => negb (last_generation =? generation) || (REVALIDATION_INTERVAL <=? now - last)
           end in
      let g := if search then
                 let '(locations, complete) := jw_found w in
                 let g := update_descriptors (jw_executable w) locations modules
                            (set_search_generation (Some generation) (set_last_discovery (Some (generation, now)) g)) in
                 if complete then g else set_search_generation None g
               else g in
      match rg_descriptors g with
      | [] => g
      | _ =>
          let poll := rg_poll_count g in
          let g := set_poll_count (saturating_add_u64 poll 1) g in
          if match rg_refresh_backoff g with Some f => poll <? rb_retry_at f | None => false end then g
          else
            match refresh_objects w poll g with
            | (inr _, g) => set_refresh_backoff None g
            | (inl _, g) => set_refresh_backoff (Some (backoff_next (rg_refresh_backoff g) poll)) g
            end
      end.

Definition retained_all (objects : gmap JitObjectId JitObject) : Z := map_fold (λ _ o total, loaded_cfi_size o + total) 0 objects.

(** Revalidating the unwind data of the object at an address. *)
Definition demand_inspect (w : JitWorld) (id : JitObjectId) (o : JitObject) (snapshot : JitSnapshot) (g : Registry) : bool * Registry :=
  let remaining := Z.max 0 (MAX_JIT_TOTAL_CFI_SIZE - (retained_all (rg_objects g) - loaded_cfi_size o)) in
  match object_inspect (jw_read w) id o remaining with
  | (inr (ChangeUnwind update), _) =>
      if negb (match jw_after w with inr current => bool_decide (current = snapshot) | inl _ => false end) then (false, g)
      else (true, set_load_failures (delete id (rg_load_failures g)) (apply_unwind_update g (id, update)))
  | (inr ChangeImage, _) => (false, set_last_revalidation None g)
  | (inl (ErrLimit _), _) => (false, set_objects (alter mark_limited id (rg_objects g)) (rg_code_ranges g) g)
  | _ => (false, g)
  end.

Definition refresh_for_address (w : JitWorld) (address : Z) (g : Registry) : bool * Registry :=
  let now := jw_now w in
  if match rg_last_demand_refresh g with Some last => now - last <? REVALIDATION_INTERVAL | None => false end then (false, g)
  else
    match (match range_at (rg_code_ranges g) address with
           | Some (_, (stop, id)) => if address <? stop then Some id else None
           | None => None
           end) with
    | None => (false, set_last_demand (Some now) g)
    | Some id =>
        match rg_objects g !! id with
        | None => (false, g)
        | Some o =>
            if match rg_load_failures g !! id with Some f => rg_poll_count g <? rb_retry_at f | None => false end then (false, g)
            else
              let g := set_last_demand (Some now) g in
              match ju_cfi (jo_unwind o) with
              | CfiAbsent => (false, g)
              | _ =>
                  match jw_before w with
                  | inl _ => (false, g)
                  | inr snapshot =>
                      if negb (is_active (sn_entries snapshot) id) then (false, set_needs_reconciliation true g)
                      else demand_inspect w id o snapshot g
                  end
              end
        end
    end.
End registry.
