(* ===== verification/DescriptorSearch.v ===== *)
(** * Searching the images of a process for JIT descriptors

    [DescriptorDiscovery] of [crates/stackpulse-jit/src/discovery.rs]: the
    executable and every mapped image are searched, with a cache of the searches
    that were complete.  What the file system answers is given with each call;
    the cache changes no answer as long as complete searches would be repeated
    with the same result. *)

From stdpp Require Import prelude list numbers strings gmap sorting.
From S2P Require Import Prelude Model Text SortedKeys ElfBase ElfImages ElfCache Discovery.
From S2P Require Import JitProtocol JitRegistry.
#[local] Open Scope Z_scope.

Section parse.
Context `{Goblin}.

(** ** The descriptor of one image *)

Record DescriptorImage := mkImage { de_symbol : Z; de_program_header_offset : Z; de_program_headers : list ProgramHeader }.
Definition SHT_SYMTAB : Z := 2.
Definition SHT_DYNSYM : Z := 11.

(** Without a hash table the number of symbols comes from the sections or from
    the relocations. *)
Definition unhashed_dynamic_symbol (bytes : list Z) (dynamic : DynamicInfo) (sections : list SectionHeader) (ctx : Ctx) : result (option Z) :=
  names ← table_bytes bytes (di_strtab dynamic) (di_strsz dynamic);
  match memmem_find names JIT_DESCRIPTOR_SYMBOL with
  | None => Ok None
  | Some _ =>
      if negb (di_syment dynamic =? symbol_size ctx) then Err InvalidData
      else
        match list_find (λ s, sh_type s = SHT_DYNSYM /\ sh_offset s = di_symtab dynamic) sections with
        | Some (_, section) => scan_symbols bytes (sh_offset section) (sh_size section) names ctx
        | None =>
            relocations ← malformed (parse_relocations bytes dynamic ctx);
            let count := foldl (λ count r_sym, Z.max count (r_sym + 1)) 0 relocations in
            size ← malformed (checked_mul_usize count (symbol_size ctx));
            if size =? 0 then Ok None else scan_symbols bytes (di_symtab dynamic) size names ctx
        end
  end.
(** The static symbol table. *)
Definition static_symbol (bytes : list Z) (sections : list SectionHeader) (ctx : Ctx) : result (option Z) :=
  match list.last (filter (λ s, sh_type s = SHT_SYMTAB) sections) with
  | None => Ok None
  | Some section =>
      if negb (sh_entsize section =? symbol_size ctx) then Err InvalidData
      else
        names ← malformed (sections !! Z.to_nat (sh_link section));
        names ← table_bytes bytes (sh_offset names) (sh_size names);
        scan_symbols bytes (sh_offset section) (sh_size section) names ctx
  end.
Definition is_hashed (dynamic : DynamicInfo) : bool := bool_decide (is_Some (di_gnu_hash dynamic)) || bool_decide (is_Some (di_hash dynamic)).
Definition dynamic_symbol (bytes : list Z) (dynamic : option DynamicInfo) (ctx : Ctx) : result (option Z) :=
  match dynamic with
  | Some dynamic => if is_hashed dynamic then descriptor_symbol bytes dynamic ctx else Ok None
  | None => Ok None
  end.
(** What is tried when no hash table has the symbol. *)
Definition section_symbol (bytes : list Z) (dynamic : option DynamicInfo) (sections : list SectionHeader) (ctx : Ctx) : result (option Z) :=
  listed ← match dynamic with
           | Some dynamic => if is_hashed dynamic then Ok None else unhashed_dynamic_symbol bytes dynamic sections ctx
           | None => Ok None
           end;
  match listed with Some _ => Ok listed | None => static_symbol bytes sections ctx end.
Definition unexported_symbol (bytes : list Z) (header : ElfHeader) (dynamic : option DynamicInfo) (exported : option Z) : result (option Z) :=
  match exported with
  | Some _ => Ok exported
  | None => sections ← malformed (parse_sections bytes header); section_symbol bytes dynamic sections (e_ctx header)
  end.
Definition parse_descriptor (bytes : list Z) : result (option DescriptorImage) :=
  header ← malformed (parse_header bytes);
  program_headers ← malformed (parse_program_headers bytes header);
  dynamic ← malformed (parse_dynamic bytes program_headers (e_ctx header));
  exported ← dynamic_symbol bytes dynamic (e_ctx header);
  symbol ← unexported_symbol bytes header dynamic exported;
  Ok (fmap (M := option) (λ symbol, mkImage symbol (e_phoff header) program_headers) symbol).

(** ** The file system *)

Record OpenedFile := mkOpened { op_is_file : bool; op_identity : Z * Z; op_bytes : option (list Z) }.
(** [/proc/<pid>/exe] mapped, [/proc/<pid>/auxv], opening by path, and the page
    size. *)
Record SearchWorld := mkWorld {
  sw_exe : option (list Z);
  sw_auxv : option (list Z);
  sw_open : ModulePath -> option OpenedFile;
  sw_page_size : Z;
}.

Definition AT_PHDR : Z := 3.
Definition PT_PHDR : Z := 6.
Definition PF_X : Z := 1.
Definition u64_le (l : list Z) : Z := foldr (λ b n, b + 256 * n) 0 l.
(** The chunks of sixteen bytes, a number of them. *)
Fixpoint auxv_phdr (entries : nat) (auxv : list Z) : option Z :=
  match entries with
  | O => None
  | S entries =>
      if u64_le (take 8 auxv) =? AT_PHDR then Some (u64_le (take 8 (drop 8 auxv))) else auxv_phdr entries (drop 16 auxv)
  end.
Definition phdr_svma (image : DescriptorImage) : option Z :=
  head (omap (λ ph,
    let segment := ph_segment ph in
    if ph_type ph =? PT_PHDR then Some (p_vaddr segment)
    else if ph_type ph =? PT_LOAD then
      offset ← checked_sub_u64 (de_program_header_offset image) (p_offset segment);
      if offset <? p_filesz segment then checked_add_u64 (p_vaddr segment) offset else None
    else None) (de_program_headers image)).
Definition exe_path (pid : Z) : list Z := chars "/proc/" ++ format_dec pid ++ chars "/exe".

Definition executable_descriptor (w : SearchWorld) (pid : Z) : result (option JitDescriptorLocation) :=
  bytes ← ok_or Other (sw_exe w);
  image ← (match parse_descriptor bytes with Ok image => Ok image | Err _ => Err Other end);
  match image with
  | None => Ok None
  | Some image =>
      auxv ← ok_or Other (sw_auxv w);
      phdr_avma ← ok_or Other (auxv_phdr (length auxv / 16) auxv);
      phdr_svma ← ok_or Other (phdr_svma image);
      Ok (Some (mkLocation (wrap_u64 (wrap_u64 (phdr_avma - phdr_svma) + de_symbol image)) (exe_path pid) None None))
  end.

(** ** The mapped images *)

Record ImageMapping := mkImageMapping {
  im_range : range;
  im_file_offset : Z;
  im_executable : bool;
  im_deleted : bool;
  im_identity : option (Z * Z);
}.
#[global] Instance ImageMapping_eq_dec : EqDecision ImageMapping.
Proof. solve_decision. Defined.
(** A mapping of the process with its path. *)
Abbreviation module := (list Z * ImageMapping)%type.

Record ParsedImage := mkParsed { pi_identity : Z * Z; pi_image : option DescriptorImage }.

Definition open_image (w : SearchWorld) (m : ImageMapping) (path : ModulePath) : option OpenedFile :=
  file ← sw_open w path;
  if negb (op_is_file file) || match im_identity m with Some expected => negb (bool_decide (expected = op_identity file)) | None => false end
  then None else Some file.
Definition open_mapped (w : SearchWorld) (pid : Z) (m : module) : option OpenedFile :=
  or_else (open_image w m.2 (MapFiles pid (im_range m.2).1 (im_range m.2).2))
    (if im_deleted m.2 then None
     else or_else (open_image w m.2 (TargetRoot pid (default m.1 (strip_root m.1)))) (open_image w m.2 (PlainPath m.1))).
(** The image of the file, parsed unless it is that of the file before. *)
Definition parsed_image (file : OpenedFile) (parsed : option ParsedImage) : result ParsedImage :=
  match parsed with
  | Some cached => if bool_decide (pi_identity cached = op_identity file) then Ok cached else
      bytes ← ok_or Other (op_bytes file);
      Ok (mkParsed (op_identity file) (match parse_descriptor bytes with Ok image => image | Err _ => None end))
  | None =>
      bytes ← ok_or Other (op_bytes file);
      Ok (mkParsed (op_identity file) (match parse_descriptor bytes with Ok image => image | Err _ => None end))
  end.
Definition image_location (w : SearchWorld) (m : module) (modules : list module) (image : DescriptorImage) : result (option JitDescriptorLocation) :=
  let segments := filter (λ s, Z.land (p_flags s) PF_X <> 0) (collect_program_load_segments (de_program_headers image)) in
  let '(start, stop) := im_range m.2 in
  match find_load_contribution_for_file_range_with_page_size segments (im_file_offset m.2) (Z.max 0 (stop - start)) (sw_page_size w) with
  | None => Ok None
  | Some segment =>
      let bias := compute_vma_bias (p_offset segment) (p_vaddr segment) (im_file_offset m.2) start in
      let address := wrap_u64 (bias + de_symbol image) in
      match list_find (λ o, o.1 = m.1 /\ im_deleted o.2 = im_deleted m.2 /\ im_identity o.2 = im_identity m.2 /\ range_contains (im_range o.2) address = true) modules with
      | Some (_, o) => Ok (Some (mkLocation address m.1 (checked_add_u64 (im_file_offset o.2) (address - (im_range o.2).1)) (im_identity m.2)))
      | None => Err Other
      end
  end.
Definition image_descriptor (w : SearchWorld) (pid : Z) (m : module) (modules : list module) (parsed : option ParsedImage)
    : result (option JitDescriptorLocation) * option ParsedImage :=
  match open_mapped w pid m with
  | None => (Err Other, parsed)
  | Some file =>
      match parsed_image file parsed with
      | Err e => (Err e, parsed)
      | Ok cached =>
          (match pi_image cached with Some image => image_location w m modules image | None => Ok None end, Some cached)
      end
  end.

Fixpoint image_loop (w : SearchWorld) (pid : Z) (modules : list module) (parsed : option ParsedImage) (ms : list module)
    (locations : list JitDescriptorLocation) (complete : bool) : list JitDescriptorLocation * bool :=
  match ms with
  | [] => (locations, complete)
  | m :: ms =>
      match image_descriptor w pid m modules parsed with
      | (Ok (Some location), parsed) => image_loop w pid modules parsed ms (locations ++ [location]) complete
      | (Ok None, parsed) => image_loop w pid modules parsed ms locations complete
      | (Err _, parsed) => image_loop w pid modules parsed ms locations false
      end
  end.
Definition image_descriptors (w : SearchWorld) (pid : Z) (path : list Z) (modules : list module) : list JitDescriptorLocation * bool :=
  image_loop w pid modules None (filter (λ m, m.1 = path /\ im_executable m.2 = true) modules) [] true.

(** ** The cached search *)

Record ImageSearch := mkSearch { is_mappings : list ImageMapping; is_descriptors : list JitDescriptorLocation }.
Abbreviation Images := (gmap (list Z) ImageSearch).

Definition mappings_of (modules : list module) (path : list Z) : list ImageMapping := (filter (λ m, m.1 = path) modules).*2.
(** [layouts]: images without an executable mapping are left out, the
    executable is always there. *)
Definition layout (executable : list Z) (modules : list module) (path : list Z) : option (list ImageMapping) :=
  if existsb im_executable (mappings_of modules path) then Some (mappings_of modules path)
  else if bool_decide (path = executable) then Some [] else None.
Definition layout_paths (executable : list Z) (modules : list module) : list (list Z) :=
  remove_dups (executable :: filter (λ path, existsb im_executable (mappings_of modules path) = true) modules.*1).

Definition search_image (w : SearchWorld) (pid : Z) (modules : list module) (path : list Z) : list JitDescriptorLocation * bool :=
  if bool_decide (path = exe_path pid) then
    match executable_descriptor w pid with
    | Ok (Some location) => ([location], true)
    | Ok None => ([], true)
    | Err _ => ([], false)
    end
  else image_descriptors w pid path modules.
Fixpoint search_images (w : SearchWorld) (pid : Z) (modules : list module) (paths : list (list Z)) (images : Images)
    (locations : list JitDescriptorLocation) (complete : bool) : list JitDescriptorLocation * bool * Images :=
  match paths with
  | [] => (locations, complete, images)
  | path :: paths =>
      match images !! path with
      | Some cached => search_images w pid modules paths images (locations ++ is_descriptors cached) complete
      | None =>
          let '(found, image_complete) := search_image w pid modules path in
          let images := if image_complete && (size images <? MAX_JIT_ENTRIES)%nat
                        then <[path := mkSearch (default [] (layout (exe_path pid) modules path)) found]> images else images in
          search_images w pid modules paths images (locations ++ found) (complete && image_complete)
      end
  end.
(** The executable owns a descriptor that its ordinary mappings show too.
    [order] is the order of the hash map. *)
Definition location_key (pid : Z) (l : JitDescriptorLocation) : Z := dl_address l * 2 + (if bool_decide (dl_owner l = exe_path pid) then 0 else 1).
Definition find (w : SearchWorld) (pid : Z) (order : list (list Z) -> list (list Z)) (modules : list module) (images : Images)
    : list JitDescriptorLocation * bool * Images :=
  let images := filter (λ '(path, cached), layout (exe_path pid) modules path = Some (is_mappings cached)) images in
  let '(locations, complete, images) := search_images w pid modules (order (layout_paths (exe_path pid) modules)) images [] true in
  (dedup_locations (sort_by_key (location_key pid) locations), complete, images).

(** ** The cache changes no answer *)

(** A search that knows only the mappings of the image. *)
Definition search_at (w : SearchWorld) (pid : Z) (path : list Z) (mappings : list ImageMapping) : list JitDescriptorLocation * bool :=
  search_image w pid ((path,.) <$> mappings) path.

Lemma list_find_filter {A} (P Q : A -> Prop) `{!forall x, Decision (P x), !forall x, Decision (Q x)} (l : list A) :
  (forall x, P x -> Q x) -> snd <$> list_find P (filter Q l) = snd <$> list_find P l.
Proof.
  intros Hpq. induction l as [|x l IH]; [done|]. cbn [list_find]. destruct (decide (P x)) as [Hp|Hp].
  - rewrite filter_cons_True by by apply Hpq. cbn [list_find]. by rewrite decide_True.
  - destruct (decide (Q x)) as [Hq|Hq].
    + rewrite filter_cons_True by done. cbn [list_find]. rewrite decide_False by done.
      destruct (list_find P (filter Q l)) as [[? ?]|], (list_find P l) as [[? ?]|]; cbn in *; congruence.
    + rewrite filter_cons_False, IH by done. by destruct (list_find P l) as [[? ?]|].
Qed.
Lemma own_modules modules path : (path,.) <$> mappings_of modules path = filter (λ m : module, m.1 = path) modules.
Proof.
  unfold mappings_of. induction modules as [|[p m] modules IH]; [done|]. rewrite filter_cons. cbn [fst]. destruct (decide (p = path)) as [->|]; cbn; [f_equal|]; exact IH.
Qed.
Lemma image_location_own w m modules image : image_location w m (filter (λ o, o.1 = m.1) modules) image = image_location w m modules image.
Proof.
  unfold image_location. destruct (im_range m.2) as [start stop]. destruct (find_load_contribution_for_file_range_with_page_size _ _ _ _) as [segment|]; [|done]. cbn zeta.
  match goal with |- context [list_find ?P (filter _ _)] => pose proof (list_find_filter P (λ o : module, o.1 = m.1) modules ltac:(by intros o [? _])) as Hf end.
  destruct (list_find _ (filter _ _)) as [[? ?]|], (list_find _ modules) as [[? ?]|]; cbn in Hf; by simplify_eq.
Qed.
Lemma image_loop_own w pid modules path ms : Forall (λ m : module, m.1 = path) ms -> forall parsed locations complete,
  image_loop w pid (filter (λ m, m.1 = path) modules) parsed ms locations complete = image_loop w pid modules parsed ms locations complete.
Proof.
  induction 1 as [|m ms Hm _ IH]; intros parsed locations complete; cbn [image_loop]; [done|].
  assert (image_descriptor w pid m (filter (λ m, m.1 = path) modules) parsed = image_descriptor w pid m modules parsed) as ->.
  { unfold image_descriptor. destruct (open_mapped w pid m); [|done]. destruct (parsed_image _ parsed) as [cached|]; [|done]. destruct (pi_image cached); [|done].
    rewrite <- Hm. by rewrite image_location_own. }
  destruct (image_descriptor w pid m modules parsed) as [[[location|]|e] parsed']; apply IH.
Qed.
Lemma search_own w pid modules path : search_at w pid path (mappings_of modules path) = search_image w pid modules path.
Proof.
  unfold search_at, search_image. case_bool_decide; [done|]. unfold image_descriptors. rewrite own_modules.
  rewrite image_loop_own.
  - f_equal. induction modules as [|m modules IH]; [done|]. rewrite !filter_cons. destruct (decide (m.1 = path)) as [Hm|Hm].
    + rewrite filter_cons, IH. done.
    + rewrite decide_False by (by intros [? _]). exact IH.
  - apply list.Forall_forall. intros m [[Hm _] _]%list_elem_of_filter. done.
Qed.
Lemma search_layout w pid modules path mappings : layout (exe_path pid) modules path = Some mappings ->
  search_at w pid path mappings = search_image w pid modules path.
Proof.
  unfold layout. destruct (existsb _ _); [intros [= <-]; apply search_own|]. case_bool_decide as Hexe; [|done]. intros _.
  unfold search_at, search_image. by rewrite bool_decide_true.
Qed.

(** What the cache holds is what a search finds now. *)
Definition fresh_cache (w : SearchWorld) (pid : Z) (images : Images) : Prop :=
  forall path cached, images !! path = Some cached -> search_at w pid path (is_mappings cached) = (is_descriptors cached, true).
Definition retained (pid : Z) (modules : list module) (images : Images) : Prop :=
  forall path cached, images !! path = Some cached -> layout (exe_path pid) modules path = Some (is_mappings cached).
Definition fresh_step (w : SearchWorld) (pid : Z) (modules : list module) (acc : list JitDescriptorLocation * bool) (path : list Z) : list JitDescriptorLocation * bool :=
  let '(found, complete) := search_image w pid modules path in (acc.1 ++ found, acc.2 && complete).
(** A search without a cache. *)
Definition find_fresh (w : SearchWorld) (pid : Z) (order : list (list Z) -> list (list Z)) (modules : list module) : list JitDescriptorLocation * bool :=
  let '(locations, complete) := foldl (fresh_step w pid modules) ([], true) (order (layout_paths (exe_path pid) modules)) in
  (dedup_locations (sort_by_key (location_key pid) locations), complete).

Lemma search_images_fresh w pid modules paths : Forall (λ path, is_Some (layout (exe_path pid) modules path)) paths -> forall images locations complete,
  fresh_cache w pid images -> retained pid modules images ->
  exists images', search_images w pid modules paths images locations complete = (foldl (fresh_step w pid modules) (locations, complete) paths, images') /\
    fresh_cache w pid images'.
Proof.
  induction 1 as [|path paths [mappings Hl] _ IH]; intros images locations complete Hc Hr; cbn [search_images foldl]; [by exists images|].
  unfold fresh_step at 2. cbn [fst snd]. destruct (images !! path) as [cached|] eqn:Hp.
  - pose proof (Hc path cached Hp) as Hs. rewrite (search_layout w pid modules) in Hs by by apply Hr. rewrite Hs, andb_true_r. by apply IH.
  - destruct (search_image w pid modules path) as [found image_complete] eqn:Hs. destruct image_complete; cbn [andb]; [|by apply IH].
    destruct (_ <? _)%nat; [|by apply IH]. rewrite Hl. cbn [default from_option id]. apply IH.
    + intros q cached. destruct (decide (q = path)) as [->|]; [rewrite lookup_insert_eq|rewrite lookup_insert_ne by done; apply Hc]. intros [= <-]. cbn.
      by rewrite (search_layout w pid modules path mappings Hl).
    + intros q cached. destruct (decide (q = path)) as [->|]; [rewrite lookup_insert_eq|rewrite lookup_insert_ne by done; apply Hr]. by intros [= <-].
Qed.
Lemma layout_paths_laid executable modules : Forall (λ path, is_Some (layout executable modules path)) (layout_paths executable modules).
Proof.
  apply list.Forall_forall. intros path. unfold layout_paths. rewrite elem_of_remove_dups, elem_of_cons, list_elem_of_filter. unfold layout.
  intros [->|[Hx _]]; [|by rewrite Hx]. destruct (existsb _ _); [by eexists|]. rewrite bool_decide_true by done. by eexists.
Qed.
Lemma find_spec w pid order modules images : fresh_cache w pid images -> (forall paths path, path ∈ order paths -> path ∈ paths) ->
  exists images', find w pid order modules images = (find_fresh w pid order modules, images') /\ fresh_cache w pid images'.
Proof.
  intros Hc Ho. unfold find. set (kept := filter _ images).
  destruct (search_images_fresh w pid modules (order (layout_paths (exe_path pid) modules))) with (images := kept) (locations := @nil JitDescriptorLocation) (complete := true) as (images' & Hs & Hc').
  - apply list.Forall_forall. intros path Hp%Ho. revert path Hp. apply list.Forall_forall, layout_paths_laid.
  - intros path cached [Hp _]%map_lookup_filter_Some. by apply Hc.
  - intros path cached [_ Hp]%map_lookup_filter_Some. exact Hp.
  - exists images'. rewrite Hs. unfold find_fresh. by destruct (foldl _ _ _) as [locations complete].
Qed.

(** One search: the answers of the system, the order of the hash map, and the
    mappings. *)
Record search_call := mkCall { sc_world : SearchWorld; sc_order : list (list Z) -> list (list Z); sc_modules : list module }.
Fixpoint find_all (pid : Z) (calls : list search_call) (images : Images) : list (list JitDescriptorLocation * bool) :=
  match calls with
  | [] => []
  | call :: calls => let '(found, images) := find (sc_world call) pid (sc_order call) (sc_modules call) images in found :: find_all pid calls images
  end.
(** A complete search of an image whose mappings are the same finds the same. *)
Definition repeatable (pid : Z) (w w' : SearchWorld) : Prop :=
  forall path mappings found, search_at w pid path mappings = (found, true) -> search_at w' pid path mappings = (found, true).

Lemma find_all_fresh pid calls : forall images,
  Forall (λ call, forall paths path, path ∈ sc_order call paths -> path ∈ paths) calls ->
  (forall w w', w ∈ sc_world <$> calls -> w' ∈ sc_world <$> calls -> repeatable pid w w') ->
  (forall w, w ∈ sc_world <$> calls -> fresh_cache w pid images) ->
  find_all pid calls images = (λ call, find_fresh (sc_world call) pid (sc_order call) (sc_modules call)) <$> calls.
Proof.
  induction calls as [|call calls IH]; intros images Ho Hrep Hc; [done|]. inversion_clear Ho as [|? ? Hcall Hcalls]. cbn [find_all fmap list_fmap].
  destruct (find_spec (sc_world call) pid (sc_order call) (sc_modules call) images) as (images' & -> & Hc'); [apply Hc; left|done|].
  f_equal. apply IH; [done| |].
  - intros w w' Hw Hw'. apply Hrep; by right.
  - intros w Hw path cached Hp. eapply (Hrep (sc_world call) w); [left|by right|by apply Hc'].
Qed.
End parse.

(** C35: as long as a complete search of an image whose own mappings did not
    change would find the same again, any sequence of searches, over whatever
    mappings the process has at each, whatever the files answer and in whatever
    order the images are visited, returns exactly what searching every image
    anew each time returns: cached searches are dropped when mappings change,
    incomplete ones are never kept, and the limit of the cache changes no
    result. *)
Theorem cached_search_is_fresh_search `{Goblin} (pid : Z) (calls : list search_call) :
  Forall (λ call, forall paths path, path ∈ sc_order call paths -> path ∈ paths) calls ->
  (forall w w', w ∈ sc_world <$> calls -> w' ∈ sc_world <$> calls -> repeatable pid w w') ->
  find_all pid calls ∅ = (λ call, find_fresh (sc_world call) pid (sc_order call) (sc_modules call)) <$> calls.
Proof. intros Ho Hrep. by apply find_all_fresh. Qed.

(** ** A library that is mapped, found again and moved *)

(** Every file is the image [exported] of [Discovery.v], mapped by one
    executable segment. *)
#[local] Instance library_reader : Goblin := {|
  parse_header bytes := if bool_decide (bytes = []) then None else Some (mkElfHeader 64 (mkElfCtx true true));
  parse_program_headers _ _ := Some [mkProgramHeader PT_LOAD (mkSegment 0 4096 4096 0 5)];
  parse_dynamic _ _ _ := Some (Some exported_dynamic);
  parse_sections _ _ := None;
  parse_relocations _ _ _ := None;
  symbol_at := elf_symbol_at;
  symbols_of _ _ _ := None;
  memmem_find _ _ := None;
|}.
Definition library_world : SearchWorld := mkWorld None None (λ _, Some (mkOpened true (1, 2) (Some exported))) 4096.
Definition library_at (start : Z) : list (list Z * ImageMapping) := [(chars "/lib/a.so", mkImageMapping (start, start + 4096) 0 true false (Some (1, 2)))].
Definition found_at (start : Z) : list JitDescriptorLocation * bool := ([mkLocation (start + 64) (chars "/lib/a.so") (Some 64) (Some (1, 2))], false).
Definition library_calls : list search_call := (λ start, mkCall library_world (λ paths, paths) (library_at start)) <$> [4096; 4096; 8192].

Lemma library_calls_world w : w ∈ sc_world <$> library_calls -> w = library_world.
Proof. by intros (call & -> & (start & -> & _)%list_elem_of_fmap)%list_elem_of_fmap. Qed.
Lemma cached_search_is_fresh_search_witness : find_all 7 library_calls ∅ = [found_at 4096; found_at 4096; found_at 8192].
Proof.
  rewrite (cached_search_is_fresh_search 7 library_calls).
  - vm_compute. reflexivity.
  - repeat constructor; intros paths path Hp; exact Hp.
  - intros w w' ->%library_calls_world ->%library_calls_world path mappings found Hf. exact Hf.
Defined.
