(* ===== verification/JitRanges.v ===== *)
(** * Ranges of generated code

    In every state of the registry the code ranges are exactly those of the
    loaded objects, and no two of them overlap, whatever the running process
    registers. *)

From stdpp Require Import prelude list numbers gmap fin_maps sorting.
From S2P Require Import Prelude Contexts FdeIndex SortedKeys JitProtocol JitRegistry.
#[local] Open Scope Z_scope.

(** ** Ranges of one object *)

(** Each range before the next one, none empty. *)
Definition apart (r s : range) : Prop := r.2 <= s.1.
Definition separated (ranges : list range) : Prop := StronglySorted apart ranges /\ Forall (λ r, r.1 < r.2) ranges.

Lemma ranges_overlap_separated ranges :
  Forall (λ r, r.1 < r.2) ranges -> ranges_overlap ranges = false -> separated ranges.
Proof.
  intros Hne Hov. split; [|done]. induction ranges as [|a ranges IH]; [constructor|].
  apply list.Forall_cons in Hne as [Ha Hne]. cbn [ranges_overlap] in Hov. destruct ranges as [|b ranges]; [by repeat constructor|].
  apply orb_false_iff in Hov as [Hb Hov]. apply Z.ltb_ge in Hb. specialize (IH Hne Hov). constructor; [done|].
  apply StronglySorted_inv in IH as [Hs Hf]. constructor; [done|]. apply list.Forall_cons in Hne as [Hnb _].
  rewrite list.Forall_forall in Hf |- *. intros c Hc. specialize (Hf c Hc). unfold apart in *. lia.
Qed.

Lemma separated_inj ranges r s : separated ranges -> r ∈ ranges -> s ∈ ranges -> r.1 = s.1 -> r = s.
Proof.
  intros [Hs Hne] Hr Hs'. rewrite list.Forall_forall in Hne. induction Hs as [|a ranges Hs IH Ha]; [by apply elem_of_nil in Hr|].
  rewrite list.Forall_forall in Ha. assert (forall x, x ∈ ranges -> x.1 <> a.1) as Hdiff.
  { intros x Hx Heq. specialize (Ha x Hx). pose proof (Hne a ltac:(by left)) as H1. pose proof (Hne x ltac:(by right)) as H2. unfold apart in Ha. lia. }
  apply elem_of_cons in Hr as [->|Hr], Hs' as [->|Hs']; intros Heq; [done| | |].
  - by destruct (Hdiff s Hs').
  - by destruct (Hdiff r Hr).
  - apply IH; [|done..]. intros x Hx. apply Hne. by right.
Qed.

Lemma separated_apart ranges r s : separated ranges -> r ∈ ranges -> s ∈ ranges -> r.1 < s.1 -> r.2 <= s.1.
Proof.
  intros [Hs Hne] Hr Hs' Hlt. rewrite list.Forall_forall in Hne. induction Hs as [|a ranges Hs IH Ha]; [by apply elem_of_nil in Hr|].
  rewrite list.Forall_forall in Ha. apply elem_of_cons in Hr as [->|Hr], Hs' as [->|Hs'].
  - lia.
  - by apply Ha.
  - specialize (Ha r Hr). pose proof (Hne r ltac:(by right)). pose proof (Hne a ltac:(by left)). unfold apart in Ha. lia.
  - apply IH; [|done..]. intros x Hx. apply Hne. by right.
Qed.

(** ** Searching an ordered map *)

Lemma top_max {A} (l : list (Z * A)) b x : top fst l = Some b -> x ∈ l -> x.1 <= b.1.
Proof.
  revert x b. induction l as [|y l IH] using rev_ind; intros x b Hb Hx; [by apply elem_of_nil in Hx|]. rewrite top_snoc in Hb. unfold better in Hb.
  apply elem_of_app in Hx as [Hx|Hx%list_elem_of_singleton].
  - destruct (top fst l) as [c|] eqn:Hc; [|apply top_None in Hc; subst; by apply elem_of_nil in Hx]. specialize (IH x c eq_refl Hx).
    destruct (Z.leb_spec c.1 y.1); simplify_eq; lia.
  - subst y. destruct (top fst l) as [c|]; [|by simplify_eq]. destruct (Z.leb_spec c.1 x.1); simplify_eq; lia.
Qed.

Lemma range_at_spec {A} (m : gmap Z A) address :
  match range_at m address with
  | Some (k, v) => m !! k = Some v /\ k <= address /\ forall k', is_Some (m !! k') -> k' <= address -> k' <= k
  | None => forall k', is_Some (m !! k') -> address < k'
  end.
Proof.
  unfold range_at, nearest. destruct (top fst _) as [[k v]|] eqn:Hn.
  - pose proof (top_elem _ _ _ Hn) as [Hk Hin%elem_of_map_to_list]%list_elem_of_filter. split_and!; [done|done|].
    intros k' [v' Hv'] Hle. apply (top_max _ _ (k', v') Hn), list_elem_of_filter. split; [done|by apply elem_of_map_to_list].
  - apply top_None in Hn. intros k' [v' Hv']. destruct (decide (address < k')) as [|Hge]; [done|exfalso].
    apply (elem_of_nil (k', v')). rewrite <-Hn. apply list_elem_of_filter. cbn. split; [lia|by apply elem_of_map_to_list].
Qed.

Section ranges.
Context (elf_parse : list Z -> option ParsedElf) (fingerprint : list Z -> Z).
(** The ELF reader yields unsigned sizes. *)
Hypothesis Helf : forall data elf s, elf_parse data = Some elf -> s ∈ pe_sections elf -> 0 <= sec_size s.

Lemma executable_ranges_nonempty data elf :
  elf_parse data = Some elf -> Forall (λ r, r.1 < r.2) (executable_section_ranges (pe_sections elf)).
Proof.
  intros He. apply list.Forall_forall. intros r Hr. unfold executable_section_ranges in Hr.
  rewrite sort_by_key_perm in Hr. apply list_elem_of_omap in Hr as (s & Hs & Hr). specialize (Helf data elf s He Hs).
  destruct (negb (sec_addr s =? 0) && negb (sec_size s =? 0) && sec_executable s) eqn:Hc; [|done].
  rewrite !andb_true_iff, !negb_true_iff, !Z.eqb_neq in Hc. unfold checked_add_u64 in Hr. case_match; [|done]. cbn in Hr. injection Hr as <-. cbn. lia.
Qed.

(** What a loaded object is. *)
Record object_ok (o : JitObject) : Prop := {
  oo_separated : separated (jo_code_ranges o);
  oo_modules : jo_pending_modules o = jo_code_ranges o \/ jo_pending_modules o = [] /\ jo_symbols o = None;
}.

Lemma object_load_ok read id remaining o remaining' :
  object_load elf_parse fingerprint read id remaining = (Some o, remaining') -> object_ok o /\ is_Some (jo_symbols o).
Proof.
  unfold object_load. destruct (id_symfile_size id =? 0); [done|].
  destruct (read_memory read (LoadImage id) (id_symfile_addr id) (id_symfile_size id)) as [data|]; [|done]. cbn [mbind option_bind].
  destruct (elf_parse data) as [elf|] eqn:He; [|done]. cbn [mbind option_bind]. destruct (pe_supported elf); [|done]. cbn [negb].
  destruct (ranges_overlap (executable_section_ranges (pe_sections elf))) eqn:Hov; [done|].
  destruct (jit_symbols elf _) as [symbols|]; [|done]. destruct (load_cfi _ _ _ _ _) as [cfi r]. intros [= <- <-]. split; [|by eexists].
  split; cbn; [|by left]. apply ranges_overlap_separated; [by eapply executable_ranges_nonempty|done].
Qed.

(** ** Ranges of the registry *)

Record ranges_ok (objects : gmap JitObjectId JitObject) (code_ranges : gmap Z (Z * JitObjectId)) : Prop := {
  ro_objects : forall id o, objects !! id = Some o -> object_ok o;
  ro_map : forall a e id, code_ranges !! a = Some (e, id) <-> exists o, objects !! id = Some o /\ (a, e) ∈ jo_code_ranges o;
  ro_apart : forall a1 e1 i1 a2 e2 i2, code_ranges !! a1 = Some (e1, i1) -> code_ranges !! a2 = Some (e2, i2) -> a1 < a2 -> e1 <= a2;
}.

Lemma ro_nonempty objects code_ranges a e id : ranges_ok objects code_ranges -> code_ranges !! a = Some (e, id) -> a < e.
Proof.
  intros [Hobj Hmap _] Ha. apply Hmap in Ha as (o & Ho & Hin). destruct (oo_separated _ (Hobj id o Ho)) as [_ Hne].
  rewrite list.Forall_forall in Hne. by specialize (Hne _ Hin).
Qed.

Lemma ranges_ok_empty : ranges_ok ∅ ∅.
Proof.
  split.
  - intros id o. by rewrite lookup_empty.
  - intros a e id. rewrite lookup_empty. split; [done|]. intros (o & Ho & _). by rewrite lookup_empty in Ho.
  - intros a1 e1 i1 a2 e2 i2. by rewrite lookup_empty.
Qed.

Lemma remove_ranges_lookup ranges code_ranges a v :
  remove_ranges ranges code_ranges !! a = Some v <-> a ∉ ranges.*1 /\ code_ranges !! a = Some v.
Proof.
  unfold remove_ranges. revert code_ranges. induction ranges as [|r ranges IH]; intros code_ranges; cbn.
  { split; [intros H; split; [by intros ?%elem_of_nil|done]|by intros []]. }
  rewrite IH, lookup_delete_Some, not_elem_of_cons. naive_solver.
Qed.

Lemma ranges_ok_retire objects code_ranges id o :
  ranges_ok objects code_ranges -> objects !! id = Some o ->
  ranges_ok (delete id objects) (remove_ranges (jo_code_ranges o) code_ranges).
Proof.
  intros Hok Ho. destruct Hok as [Hobj Hmap Hapart]. split.
  - intros i p [_ Hp]%lookup_delete_Some. by apply (Hobj i).
  - intros a e i. rewrite remove_ranges_lookup. split.
    + intros [Hnot Ha]. apply Hmap in Ha as (p & Hp & Hin). exists p. split; [|done]. apply lookup_delete_Some. split; [|done].
      intros <-. rewrite Ho in Hp. injection Hp as <-. apply Hnot. apply list_elem_of_fmap. by exists (a, e).
    + intros (p & [Hne Hp]%lookup_delete_Some & Hin). assert (code_ranges !! a = Some (e, i)) as Ha by (apply Hmap; by exists p).
      split; [|done]. intros Hx. apply list_elem_of_fmap in Hx as ([a' e'] & -> & Hx). cbn in Ha.
      assert (code_ranges !! a' = Some (e', id)) as Ha' by (apply Hmap; by exists o). congruence.
  - intros a1 e1 i1 a2 e2 i2 [_ H1]%remove_ranges_lookup [_ H2]%remove_ranges_lookup. by eapply Hapart.
Qed.

(** Changes that keep the ranges of an object. *)
Lemma ranges_ok_replace objects code_ranges id o o' :
  ranges_ok objects code_ranges -> objects !! id = Some o -> jo_code_ranges o' = jo_code_ranges o -> object_ok o' ->
  ranges_ok (<[id := o']> objects) code_ranges.
Proof.
  intros [Hobj Hmap Hapart] Ho Hr Hok. split; [|intros a e i; rewrite Hmap|done].
  - intros i p [[<- <-]|[_ Hp]]%lookup_insert_Some; [done|by apply (Hobj i)].
  - split.
    + intros (p & Hp & Hin). destruct (decide (i = id)) as [->|Hne].
      * exists o'. rewrite lookup_insert_eq. split; [done|]. rewrite Hr. congruence.
      * exists p. by rewrite lookup_insert_ne.
    + intros (p & Hp & Hin). apply lookup_insert_Some in Hp as [[<- <-]|[_ Hp]]; [|by exists p]. exists o. by rewrite <-Hr.
Qed.

(** The search from the last range below finds any overlap. *)
Lemma no_overlap objects code_ranges ranges r a e id :
  ranges_ok objects code_ranges -> overlaps_existing code_ranges ranges = false -> r ∈ ranges -> r.1 < r.2 ->
  code_ranges !! a = Some (e, id) -> e <= r.1 \/ r.2 <= a.
Proof.
  intros Hok Hov Hr Hne Ha. destruct (decide (r.2 <= a)) as [|Hlt]; [by right|]. left.
  assert (match range_at code_ranges (r.2 - 1) with Some (_, (stop, _)) => r.1 <? stop | None => false end = false) as Hone.
  { apply not_true_is_false. intros Hx. apply not_true_iff_false in Hov. apply Hov, existsb_exists. exists r. by rewrite <-list_elem_of_In. }
  pose proof (range_at_spec code_ranges (r.2 - 1)) as Hn. destruct (range_at code_ranges (r.2 - 1)) as [[k [stop i]]|].
  - apply Z.ltb_ge in Hone. destruct Hn as (Hin & Hk & Hmax). specialize (Hmax a ltac:(eauto) ltac:(lia)).
    destruct (decide (a = k)) as [->|Hneq]; [rewrite Ha in Hin; simplify_eq; lia|].
    pose proof (ro_apart _ _ Hok _ _ _ _ _ _ Ha Hin ltac:(lia)) as He. pose proof (ro_nonempty _ _ _ _ _ Hok Hin). lia.
  - specialize (Hn a ltac:(eauto)). lia.
Qed.

Lemma insert_ranges_lookup id ranges code_ranges a v :
  NoDup ranges.*1 -> (forall r, r ∈ ranges -> code_ranges !! r.1 = None) ->
  insert_ranges id ranges code_ranges !! a = Some v <-> code_ranges !! a = Some v \/ exists e, (a, e) ∈ ranges /\ v = (e, id).
Proof.
  unfold insert_ranges. revert code_ranges. induction ranges as [|[s t] ranges IH]; intros code_ranges Hnd Hfree; cbn [foldl].
  { split; [by left|]. intros [|(e & []%elem_of_nil & _)]. done. }
  rewrite fmap_cons in Hnd. apply NoDup_cons in Hnd as [Hs Hnd]. pose proof (Hfree (s, t) ltac:(by left)) as Hnone. cbn in Hnone, Hs |- *.
  rewrite IH, lookup_insert_Some; [|done|].
  - setoid_rewrite elem_of_cons. split.
    + intros [[[<- <-]|[_ Ha]]|(e & Hin & ->)]; [right|by left|right; eauto]. exists t. split; [by left|done].
    + intros [Ha|(e & [[= -> ->]|Hin] & ->)]; [|by left; left|right; eauto]. left. right. split; [congruence|done].
  - intros r Hr. rewrite lookup_insert_ne; [by apply Hfree; right|]. intros ->. apply Hs. apply list_elem_of_fmap. by exists r.
Qed.

Lemma separated_starts ranges : separated ranges -> NoDup ranges.*1.
Proof.
  intros [Hs Hne]. induction Hs as [|a ranges Hs IH Ha]; [constructor|]. apply list.Forall_cons in Hne as [Hna Hne].
  cbn. apply NoDup_cons. split; [|by apply IH]. intros (r & Heq & Hr)%list_elem_of_fmap. rewrite list.Forall_forall in Ha.
  specialize (Ha r Hr). unfold apart in Ha. lia.
Qed.

Lemma ranges_ok_install objects code_ranges id o :
  ranges_ok objects code_ranges -> objects !! id = None -> object_ok o -> overlaps_existing code_ranges (jo_code_ranges o) = false ->
  ranges_ok (<[id := o]> objects) (insert_ranges id (jo_code_ranges o) code_ranges).
Proof.
  intros Hok Hnew Ho Hov. pose proof (oo_separated _ Ho) as Hsep. pose proof (proj2 Hsep) as Hne. rewrite list.Forall_forall in Hne.
  assert (forall r, r ∈ jo_code_ranges o -> code_ranges !! r.1 = None) as Hfree.
  { intros r Hr. apply eq_None_not_Some. intros [[e i] He]. specialize (Hne r Hr).
    destruct (no_overlap _ _ _ r _ _ _ Hok Hov Hr Hne He); [|lia]. pose proof (ro_nonempty _ _ _ _ _ Hok He). lia. }
  pose proof (λ a v, insert_ranges_lookup id (jo_code_ranges o) code_ranges a v (separated_starts _ Hsep) Hfree) as Hins.
  split.
  - intros i p [[<- <-]|[_ Hp]]%lookup_insert_Some; [done|by eapply ro_objects].
  - intros a e i. rewrite Hins, (ro_map _ _ Hok). split.
    + intros [(p & Hp & Hin)|(e' & Hin & [= <- ->])]; [|exists o; by rewrite lookup_insert_eq]. exists p. rewrite lookup_insert_ne; [done|congruence].
    + intros (p & [[<- <-]|[_ Hp]]%lookup_insert_Some & Hin); [right|left]; eauto.
  - intros a1 e1 i1 a2 e2 i2 H1 H2 Hlt. apply Hins in H1, H2.
    destruct H1 as [H1|(x1 & H1 & [= <- ->])], H2 as [H2|(x2 & H2 & [= <- ->])].
    + by eapply ro_apart.
    + pose proof (Hne _ H2). destruct (no_overlap _ _ _ _ _ _ _ Hok Hov H2 ltac:(done) H1); cbn in *; lia.
    + pose proof (ro_nonempty _ _ _ _ _ Hok H2). destruct (no_overlap _ _ _ _ _ _ _ Hok Hov H1 (Hne _ H1) H2); cbn in *; lia.
    + exact (separated_apart _ _ _ Hsep H1 H2 Hlt).
Qed.

(** ** Every operation keeps the ranges *)

Definition registry_ranges (g : Registry) : Prop := ranges_ok (rg_objects g) (rg_code_ranges g).

Lemma retire_one_ranges entries invalidated g id : registry_ranges g -> registry_ranges (retire_one entries invalidated g id).
Proof.
  intros Hok. unfold retire_one. destruct (rg_objects g !! id) as [o|] eqn:Ho; [|done]. case_match; [done|].
  exact (ranges_ok_retire _ _ _ _ Hok Ho).
Qed.

Lemma alter_present {A} (f : A -> A) (m : gmap JitObjectId A) id x : m !! id = Some x -> alter f id m = <[id := f x]> m.
Proof. intros Hx. apply map_eq. intros j. destruct (decide (id = j)) as [<-|]; by simplify_map_eq. Qed.

Lemma mark_limited_ranges g id :
  registry_ranges g -> registry_ranges (set_objects (alter mark_limited id (rg_objects g)) (rg_code_ranges g) g).
Proof.
  intros Hok. unfold registry_ranges. cbn. destruct (rg_objects g !! id) as [o|] eqn:Ho; [|by rewrite alter_id'].
  pose proof (ro_objects _ _ Hok _ _ Ho) as [Hsep Hmod]. rewrite (alter_present _ _ _ _ Ho).
  by eapply ranges_ok_replace.
Qed.

Lemma failed_check_ranges poll g check : registry_ranges g -> registry_ranges (failed_check poll g check).
Proof. intros Hok. destruct check as [id []]; [exact (mark_limited_ranges g id Hok)|exact Hok]. Qed.

Lemma apply_unwind_update_ranges g u :
  (forall o, rg_objects g !! u.1 = Some o -> uu_modules u.2 = jo_code_ranges o) -> registry_ranges g -> registry_ranges (apply_unwind_update g u).
Proof.
  intros Hu Hok. unfold apply_unwind_update. destruct (rg_objects g !! u.1) as [o|] eqn:Ho; [|done].
  unfold registry_ranges. cbn. pose proof (ro_objects _ _ Hok _ _ Ho) as [Hsep Hmod]. eapply ranges_ok_replace; [done..|].
  split; cbn; [done|]. left. by apply Hu.
Qed.

Lemma install_one_ranges poll g id o :
  rg_objects g !! id = None -> (forall x, o = Some x -> object_ok x) -> registry_ranges g -> registry_ranges (install_one poll g (id, o)).
Proof.
  intros Hnew Ho Hok. unfold install_one. destruct o as [o|]; [|done]. case_match eqn:Hov; [done|].
  by apply ranges_ok_install; [| |apply Ho|].
Qed.

(** ** One refresh *)

(** What the inspection of the loaded objects collects. *)
Record inspected (w : JitWorld) (g : Registry) (entries : gmap Z JitCodeEntry) (seen : list JitObjectId) (s : Inspection) : Prop := {
  in_invalidated : forall id, id ∈ ip_invalidated s -> id ∈ seen;
  in_updates : forall id u, (id, u) ∈ ip_unwind_updates s ->
    id ∈ seen /\ id ∉ ip_invalidated s /\ is_active entries id = true
    /\ exists o, rg_objects g !! id = Some o /\ uu_modules u = jo_code_ranges o;
}.

Lemma object_inspect_unwind read id o remaining u remaining' :
  object_inspect fingerprint read id o remaining = (inr (ChangeUnwind u), remaining') ->
  uu_modules u = jo_code_ranges o
  /\ exists r bytes, cfi_range o = Some r /\ ju_cfi (uu_unwind u) = CfiLoaded r (fingerprint bytes)
     /\ range_size r <= remaining /\ remaining' = remaining - range_size r.
Proof.
  unfold object_inspect, cfi_range. destruct (read_memory read _ _ _) as [data|]; [|done].
  destruct (negb _); [done|]. destruct (ju_cfi (jo_unwind o)) as [|r|r|r old]; [done|..].
  all: destruct (MAX_JIT_READ_SIZE <? range_size r); [done|]; destruct (Z.ltb_spec remaining (range_size r)); [done|].
  all: destruct (read_memory read (InspectCfi id) _ _) as [bytes|]; [|done]; case_bool_decide; [done|].
  all: intros [= <- <-]; split; [done|]; exists r, bytes; split_and!; done.
Qed.

Lemma inspect_one_inspected w g entries changed revalidate poll seen s id :
  id ∉ seen -> inspected w g entries seen s ->
  inspected w g entries (seen ++ [id]) (inspect_one fingerprint w g entries changed revalidate poll s id).
Proof.
  intros Hnew Hs. assert (inspected w g entries (seen ++ [id]) s) as Hsame.
  { destruct Hs as [Hi Hu]. split; [intros i Hin; apply elem_of_app; auto|].
    intros i u Hin. destruct (Hu i u Hin) as (? & ? & ?). rewrite elem_of_app. auto. }
  unfold inspect_one. destruct (rg_objects g !! id) as [o|] eqn:Ho; [|done]. destruct s as [remaining invalidated updates failed checked].
  destruct (is_active entries id) eqn:Ha; [|done]. cbn [negb].
  assert (forall remaining, inspected w g entries (seen ++ [id]) (mkInspection remaining ({[id]} ∪ invalidated) updates failed checked)) as Hinv.
  { intros remaining'. destruct Hs as [Hi Hu]; cbn in *. split; cbn.
    - intros i [->%elem_of_singleton|Hin]%elem_of_union; apply elem_of_app; [right; by left|auto].
    - intros i u Hin. destruct (Hu i u Hin) as (Hseen & Hni & Hrest). rewrite elem_of_app, not_elem_of_union, not_elem_of_singleton.
      split_and!; [by left| |done|apply Hrest..]. congruence. }
  case_bool_decide; [done|]. case_match; [done|].
  destruct (object_inspect fingerprint (jw_read w) id o _) as [[e|[| |u]] remaining'] eqn:Hio; [..|].
  - destruct Hsame as [Hi Hu]. by split.
  - destruct Hsame as [Hi Hu]. by split.
  - apply Hinv.
  - apply object_inspect_unwind in Hio as [Hmod _]. destruct Hsame as [Hi Hu]; cbn in *. split; cbn; [done|].
    intros i v [Hin|[= -> ->]%list_elem_of_singleton]%elem_of_app; [by apply Hu|]. rewrite elem_of_app.
    split_and!; [right; by left| |done|eauto]. intros Hin. by apply Hnew, (in_invalidated _ _ _ _ _ Hs).
Qed.

Lemma inspect_all_inspected w g entries changed revalidate poll order remaining :
  NoDup order ->
  inspected w g entries order (foldl (inspect_one fingerprint w g entries changed revalidate poll) (mkInspection remaining ∅ [] [] []) order).
Proof.
  induction order as [|id order IH] using rev_ind; intros Hnd.
  { split; cbn; [intros id []%elem_of_empty|intros id u []%elem_of_nil]. }
  apply NoDup_app in Hnd as (Hnd & Hdisj & _). rewrite foldl_app. cbn [foldl]. apply inspect_one_inspected; [|by apply IH].
  intros Hin. apply (Hdisj id Hin). by left.
Qed.

(** A fold keeps what each of its steps keeps. *)
Lemma foldl_keeps {A B} (P : A -> Prop) (f : A -> B -> A) l a : P a -> (forall a b, b ∈ l -> P a -> P (f a b)) -> P (foldl f a l).
Proof.
  revert a. induction l as [|b l IH]; intros a Ha Hf; cbn; [done|]. apply IH; [by apply Hf; [left|]|]. intros a' b' Hb. apply Hf. by right.
Qed.

(** Objects after the retirements. *)
Lemma retire_all_lookup entries invalidated order g id :
  rg_objects (foldl (retire_one entries invalidated) g order) !! id
  = if bool_decide (id ∈ order) && negb (is_active entries id && negb (bool_decide (id ∈ invalidated))) then None else rg_objects g !! id.
Proof.
  induction order as [|i order IH] using rev_ind; [done|]. rewrite foldl_app. cbn [foldl]. set (g1 := foldl _ g order) in *.
  unfold retire_one. destruct (decide (i = id)) as [->|Hne].
  - rewrite (bool_decide_eq_true_2 (id ∈ order ++ [id])) by (apply elem_of_app; right; by left). cbn [andb].
    destruct (rg_objects g1 !! id) as [o|] eqn:Ho.
    + destruct (is_active entries id && negb (bool_decide (id ∈ invalidated))) eqn:Hk; cbn [negb].
      * rewrite Ho, IH. by rewrite andb_false_r.
      * apply lookup_delete_eq.
    + destruct (is_active entries id && negb (bool_decide (id ∈ invalidated))) eqn:Hk; cbn [negb]; [|done].
      rewrite Ho, IH. by rewrite andb_false_r.
  - assert (bool_decide (id ∈ order ++ [i]) = bool_decide (id ∈ order)) as ->.
    { apply bool_decide_ext. rewrite elem_of_app, list_elem_of_singleton. naive_solver. }
    rewrite <-IH. destruct (rg_objects g1 !! i) as [o|]; [|done].
    destruct (is_active entries i && negb (bool_decide (i ∈ invalidated))); [done|]. by apply lookup_delete_ne.
Qed.

(** Objects of a later state are kept ones, with their ranges. *)
Definition kept_from (objects objects' : gmap JitObjectId JitObject) : Prop :=
  forall id o', objects' !! id = Some o' -> exists o, objects !! id = Some o /\ jo_code_ranges o' = jo_code_ranges o.

Lemma kept_from_alter objects objects' f id :
  (forall o, jo_code_ranges (f o) = jo_code_ranges o) -> kept_from objects objects' -> kept_from objects (alter f id objects').
Proof.
  intros Hf Hk i o' Ho'. destruct (decide (id = i)) as [<-|Hne].
  - rewrite lookup_alter_eq in Ho'. apply fmap_Some in Ho' as (o1 & Ho1 & ->). rewrite Hf. by apply Hk.
  - rewrite lookup_alter_ne in Ho' by done. by apply Hk.
Qed.

Lemma kept_from_insert objects objects' id o o' :
  objects' !! id = Some o -> jo_code_ranges o' = jo_code_ranges o -> kept_from objects objects' -> kept_from objects (<[id := o']> objects').
Proof. intros Ho Hr Hk i p [[<- <-]|[_ Hp]]%lookup_insert_Some; [rewrite Hr; by apply Hk|by apply Hk]. Qed.

Lemma pending_id_spec g invalidated poll e id :
  pending_id g invalidated poll e = Some id ->
  id = object_id_new e.1 e.2 /\ (rg_objects g !! id = None \/ id ∈ invalidated).
Proof.
  unfold pending_id. destruct (negb (bool_decide (is_Some (rg_objects g !! object_id_new e.1 e.2)))
    || bool_decide (object_id_new e.1 e.2 ∈ invalidated)) eqn:Hc; [|done]. cbn [andb].
  intros Hid. assert (id = object_id_new e.1 e.2) as -> by (destruct (negb _) in Hid; by simplify_eq). split; [done|].
  apply orb_true_iff in Hc as [Hc|Hc%bool_decide_eq_true]; [left|by right].
  by apply negb_true_iff, bool_decide_eq_false, eq_None_not_Some in Hc.
Qed.

Lemma pending_ids_elem g entries invalidated poll id :
  id ∈ pending_ids g entries invalidated poll -> rg_objects g !! id = None \/ id ∈ invalidated.
Proof.
  unfold pending_ids. rewrite sort_by_key_perm. intros (e & _ & Hid)%list_elem_of_omap. by apply pending_id_spec in Hid as [_ ?].
Qed.

Lemma pending_ids_nodup g entries invalidated poll : NoDup (pending_ids g entries invalidated poll).
Proof.
  unfold pending_ids. rewrite sort_by_key_perm. pose proof (NoDup_fst_map_to_list entries) as Hnd.
  induction (map_to_list entries) as [|e l IH]; cbn [omap list_omap]; [constructor|].
  cbn in Hnd. apply NoDup_cons in Hnd as [Hnot Hnd]. specialize (IH Hnd). destruct (pending_id g invalidated poll e) as [id|] eqn:Hid; [|done].
  apply NoDup_cons. split; [|done]. intros (e' & Hin & He)%list_elem_of_omap. apply Hnot. apply list_elem_of_fmap. exists e'. split; [|done].
  apply pending_id_spec in Hid as [-> _], He as [Heq _]. by apply (f_equal id_entry_addr) in Heq.
Qed.

Lemma load_all_loaded w ids remaining updates remaining' id o :
  load_all elf_parse fingerprint w ids remaining = (updates, remaining') -> (id, Some o) ∈ updates ->
  exists r r', object_load elf_parse fingerprint (jw_read w) id r = (Some o, r').
Proof.
  revert remaining updates. induction ids as [|i ids IH]; intros remaining updates; cbn [load_all]; [by intros [= <- <-] []%elem_of_nil|].
  destruct (object_load elf_parse fingerprint (jw_read w) i remaining) as [o' r1] eqn:Hl.
  destruct (load_all elf_parse fingerprint w ids r1) as [rest r2] eqn:Hr. intros [= <- <-] [[= -> <-]|Hin]%elem_of_cons; [by eexists _, _|by eapply IH].
Qed.

Lemma load_all_ids w ids remaining updates remaining' :
  load_all elf_parse fingerprint w ids remaining = (updates, remaining') ->
  updates.*1 = ids /\ forall id o, (id, Some o) ∈ updates -> object_ok o.
Proof.
  intros Hl. split; [|intros id o Hin; by destruct (load_all_loaded _ _ _ _ _ _ _ Hl Hin) as (r & r' & [? _]%object_load_ok)].
  revert remaining updates Hl. induction ids as [|id ids IH]; intros remaining updates; cbn [load_all]; [by intros [= <- <-]|].
  destruct (object_load elf_parse fingerprint (jw_read w) id remaining) as [o r1]. destruct (load_all elf_parse fingerprint w ids r1) as [rest r2] eqn:Hr.
  intros [= <- <-]. cbn. f_equal. by eapply IH.
Qed.

(** The state in a commit, before the new objects. *)
Record settled (g g' : Registry) : Prop := {
  se_ranges : registry_ranges g';
  se_kept : kept_from (rg_objects g) (rg_objects g');
}.

Lemma settled_retire entries invalidated g g' id : settled g g' -> settled g (retire_one entries invalidated g' id).
Proof.
  intros [Hr Hk]. split; [by apply retire_one_ranges|]. unfold retire_one. destruct (rg_objects g' !! id); [|done]. case_match; [done|].
  cbn. intros i o' [_ Ho']%lookup_delete_Some. by apply Hk.
Qed.

Lemma settled_failed poll g g' check : settled g g' -> settled g (failed_check poll g' check).
Proof.
  intros [Hr Hk]. split; [by apply failed_check_ranges|]. destruct check as [id []]; [|exact Hk]. by apply kept_from_alter.
Qed.

Lemma settled_unwind g g' u :
  (exists o, rg_objects g !! u.1 = Some o /\ uu_modules u.2 = jo_code_ranges o) -> settled g g' -> settled g (apply_unwind_update g' u).
Proof.
  intros (o & Ho & Hu) [Hr Hk]. assert (forall o', rg_objects g' !! u.1 = Some o' -> uu_modules u.2 = jo_code_ranges o') as Hmod.
  { intros o' (o1 & Ho1 & ->)%Hk. congruence. }
  split; [by apply apply_unwind_update_ranges|]. unfold apply_unwind_update. destruct (rg_objects g' !! u.1) as [o'|] eqn:Ho'; [|done].
  by eapply kept_from_insert.
Qed.

(** Objects that are gone stay gone until the new ones come. *)
Lemma settle_gone poll order entries s g id :
  id ∈ order -> is_active entries id && negb (bool_decide (id ∈ ip_invalidated s)) = false ->
  rg_objects (settle_objects poll order entries s g) !! id = None.
Proof.
  intros Hin Hgone. unfold settle_objects. apply (foldl_keeps (λ g, rg_objects g !! id = None)).
  2:{ intros g' u _ Hg. unfold apply_unwind_update. destruct (rg_objects g' !! u.1) as [o|] eqn:Ho; [|done].
      cbn. rewrite lookup_insert_ne; [done|]. congruence. }
  apply (foldl_keeps (λ g, rg_objects g !! id = None)).
  2:{ intros g' [i []] _ Hg; cbn; [|done]. by rewrite lookup_alter_None. }
  apply (foldl_keeps (λ g, rg_objects g !! id = None)); [|done]. cbn. rewrite retire_all_lookup, (bool_decide_eq_true_2 _ Hin), Hgone. done.
Qed.

Lemma settle_settled w poll order entries s g :
  inspected w g entries order s -> registry_ranges g -> settled g (settle_objects poll order entries s g).
Proof.
  intros Hs Hr. unfold settle_objects. apply (foldl_keeps (settled g)).
  2:{ intros g' [id u] Hin Hg. apply settled_unwind; [|done]. by apply (in_updates _ _ _ _ _ Hs). }
  apply (foldl_keeps (settled g)); [|intros g' c _; apply settled_failed]. apply (foldl_keeps (settled g)).
  2:{ intros g' id _ [? ?]. by split. }
  assert (settled g (foldl (retire_one entries (ip_invalidated s)) g order)) as [? ?]; [|by split].
  apply (foldl_keeps (settled g)); [|intros g' id _; apply settled_retire]. split; [done|]. intros id o Ho. by exists o.
Qed.

Lemma settle_none poll order entries s g id :
  rg_objects g !! id = None -> registry_ranges g -> settled g (settle_objects poll order entries s g) ->
  rg_objects (settle_objects poll order entries s g) !! id = None.
Proof. intros Hn _ [_ Hk]. apply eq_None_not_Some. intros [o (o1 & Ho & _)%Hk]. congruence. Qed.

Lemma install_all_ranges poll updates g :
  NoDup updates.*1 -> (forall id o, (id, o) ∈ updates -> rg_objects g !! id = None) -> (forall id o, (id, Some o) ∈ updates -> object_ok o) ->
  registry_ranges g -> registry_ranges (foldl (install_one poll) g updates).
Proof.
  revert g. induction updates as [|[id o] updates IH]; intros g Hnd Hnew Hok Hr; [done|]. cbn [foldl].
  apply NoDup_cons in Hnd as [Hnot Hnd]. apply IH; [done| | |].
  - intros i p Hin. assert (i <> id) as Hne. { intros ->. apply Hnot, list_elem_of_fmap. by exists (id, p). }
    pose proof (Hnew i p ltac:(by right)) as Hi. unfold install_one. destruct o as [o|]; [|done]. case_match; [done|]. cbn. by rewrite lookup_insert_ne.
  - intros i p Hin. apply (Hok i). by right.
  - apply install_one_ranges; [eapply Hnew; by left| |done]. intros x ->. apply (Hok id). by left.
Qed.

(** ** The operations *)

(** The order in which the table of objects is walked. *)
Definition walks (order : list JitObjectId) (g : Registry) : Prop := NoDup order /\ forall id, is_Some (rg_objects g !! id) -> id ∈ order.

(** A new object meets no object of its identity. *)
Lemma commit_fresh w poll entries s remaining updates remaining' g id o :
  walks (jw_order w) g -> inspected w g entries (jw_order w) s -> registry_ranges g ->
  load_all elf_parse fingerprint w (pending_ids g entries (ip_invalidated s) poll) remaining = (updates, remaining') -> (id, o) ∈ updates ->
  rg_objects (settle_objects poll (jw_order w) entries s g) !! id = None.
Proof.
  intros [Hnd Hdom] Hs Hr Hl Hin. destruct (load_all_ids _ _ _ _ _ Hl) as [Hids Hok].
  assert (id ∈ pending_ids g entries (ip_invalidated s) poll) as [Hnone|Hinv]%pending_ids_elem.
  { rewrite <-Hids. apply list_elem_of_fmap. by exists (id, o). }
  - apply settle_none; [done|done|by eapply settle_settled].
  - apply settle_gone; [by apply (in_invalidated _ _ _ _ _ Hs)|]. by rewrite (bool_decide_eq_true_2 _ Hinv), andb_false_r.
Qed.

Lemma commit_objects_ranges w poll entries s remaining updates remaining' g :
  walks (jw_order w) g -> inspected w g entries (jw_order w) s -> registry_ranges g ->
  load_all elf_parse fingerprint w (pending_ids g entries (ip_invalidated s) poll) remaining = (updates, remaining') ->
  registry_ranges (commit_objects poll (jw_order w) entries s updates g).
Proof.
  intros Hw Hs Hr Hl. destruct (load_all_ids _ _ _ _ _ Hl) as [Hids Hok].
  apply install_all_ranges; [rewrite Hids; apply pending_ids_nodup| |done|by eapply settle_settled]. intros id o. by eapply commit_fresh.
Qed.

(** The fields that the objects and their updates live in. *)
Record same_core (g g' : Registry) : Prop := {
  sc_objects : rg_objects g' = rg_objects g;
  sc_code_ranges : rg_code_ranges g' = rg_code_ranges g;
  sc_stale : rg_stale_paths g' = rg_stale_paths g;
  sc_pending : rg_updates_pending g' = rg_updates_pending g;
}.

Lemma walks_core order g g' : same_core g g' -> walks order g -> walks order g'.
Proof. intros [Ho _ _ _] [Hnd Hdom]. split; [done|]. by rewrite Ho. Qed.

Section keeps.
Context (P : Registry -> Prop) (w : JitWorld).
Hypothesis Hcore : forall g g', same_core g g' -> P g -> P g'.
Hypothesis Hcommit : forall poll entries changed revalidate updates remaining' g,
  let s := foldl (inspect_one fingerprint w g entries changed revalidate poll)
             (mkInspection (Z.max 0 (MAX_JIT_TOTAL_CFI_SIZE - retained_cfi entries (rg_objects g))) ∅ [] [] []) (jw_order w) in
  jw_entries w = inr entries -> walks (jw_order w) g -> P g ->
  load_all elf_parse fingerprint w (pending_ids g entries (ip_invalidated s) poll) (ip_remaining s) = (updates, remaining') ->
  P (commit_objects poll (jw_order w) entries s updates g).
Hypothesis Hclear : forall g, P g -> P (clear_objects g).

(** What a commit keeps is kept by an attempt, *)
Lemma refresh_objects_keeps poll g : walks (jw_order w) g -> P g -> P (refresh_objects elf_parse fingerprint w poll g).2.
Proof.
  intros Hw Hr. unfold refresh_objects. destruct (jw_descriptors w) as [snapshots|]; [|done]. cbv zeta.
  case_match; [done|]. destruct (jw_entries w) as [e|entries] eqn:Hentries; [done|].
  destruct (load_all elf_parse fingerprint w _ _) as [updates remaining'] eqn:Hl.
  destruct (jw_after w) as [e|current]; [done|].
  destruct (negb (bool_decide (sn_descriptors current = snapshots)) || _); [by apply (Hcore g)|]. cbn [snd].
  match goal with |- context [if ?b then set_last_revalidation _ _ else _] => destruct b end.
  all: match goal with |- P (commit_objects _ _ _ (foldl (inspect_one _ _ _ _ ?changed ?revalidate _) _ _) _ ?g0) =>
    exact (Hcommit poll entries changed revalidate updates remaining' g0 eq_refl (walks_core _ g g0 ltac:(done) Hw) (Hcore g g0 ltac:(done) Hr) Hl) end.
Qed.

Lemma update_descriptors_keeps executable locations modules g :
  walks (jw_order w) g -> P g ->
  walks (jw_order w) (update_descriptors executable locations modules g) /\ P (update_descriptors executable locations modules g).
Proof.
  intros Hw Hr. unfold update_descriptors. destruct (retain_locations _ _ _ _ _) as [l generation].
  match goal with |- context [clear_objects ?x] => set (g0 := x) end. assert (same_core g g0) as Hg0 by done.
  case_match; (split; [|]).
  - destruct Hw as [Hnd _]. split; [done|]. intros id. cbn. rewrite lookup_empty. by intros [].
  - by apply Hclear, (Hcore g).
  - by apply (walks_core _ g).
  - by apply (Hcore g).
Qed.

(** and what an attempt keeps is kept by polling. *)
Lemma registry_refresh_keeps generation modules g :
  walks (jw_order w) g -> P g -> P (registry_refresh elf_parse fingerprint w generation modules g).
Proof.
  intros Hw Hr. unfold registry_refresh. destruct (bool_decide _ && bool_decide _); [done|]. cbv zeta. case_match; [done|].
  match goal with |- context [rg_descriptors (if ?b then ?x else ?y)] => set (g1 := if b then x else y) in * end.
  assert (walks (jw_order w) g1 /\ P g1) as [Hw1 Hr1].
  { subst g1. match goal with |- context [if ?b then _ else set_last_poll _ _] => destruct b end; [|split; [done|by apply (Hcore g)]].
    destruct (jw_found w) as [locations complete].
    match goal with |- context [update_descriptors ?e ?l ?m ?x] => destruct (update_descriptors_keeps e l m x) as [Hwu Hu]; [done|by apply (Hcore g)|];
      destruct complete; [done|]; split; [done|by apply (Hcore (update_descriptors e l m x))] end. }
  destruct (rg_descriptors g1) eqn:Hd; [done|].
  match goal with |- P (if ?b then _ else _) => destruct b end; [by apply (Hcore g1)|].
  match goal with |- context [refresh_objects ?a ?b ?c ?d ?x] => pose proof (refresh_objects_keeps d x Hw1 (Hcore g1 x ltac:(done) Hr1)) as Hf;
    destruct (refresh_objects a b c d x) as [[e|[]] g2] end; by apply (Hcore g2).
Qed.
End keeps.

Lemma registry_refresh_ranges w generation modules g :
  walks (jw_order w) g -> registry_ranges g -> registry_ranges (registry_refresh elf_parse fingerprint w generation modules g).
Proof.
  apply registry_refresh_keeps.
  - intros g1 g2 [Ho Hc _ _]. unfold registry_ranges. by rewrite Ho, Hc.
  - intros poll entries changed revalidate updates remaining' g1 s _ Hw Hr Hl. eapply commit_objects_ranges; [done| |done..].
    apply inspect_all_inspected, Hw.
  - intros g1 _. exact ranges_ok_empty.
Qed.

(** Revalidation on demand changes at most the unwind data of one object. *)
Lemma refresh_for_address_cases w address g :
  let g' := (refresh_for_address fingerprint w address g).2 in
  rg_code_ranges g' = rg_code_ranges g /\ rg_stale_paths g' = rg_stale_paths g
  /\ (rg_objects g' = rg_objects g /\ rg_updates_pending g' = rg_updates_pending g
      \/ (exists id, rg_objects g' = alter mark_limited id (rg_objects g) /\ rg_updates_pending g' = rg_updates_pending g)
      \/ exists id o u remaining',
           rg_objects g !! id = Some o /\ rg_objects g' = <[id := apply_unwind u o]> (rg_objects g) /\ rg_updates_pending g' = true
           /\ object_inspect fingerprint (jw_read w) id o (Z.max 0 (MAX_JIT_TOTAL_CFI_SIZE - (retained_all (rg_objects g) - loaded_cfi_size o)))
              = (inr (ChangeUnwind u), remaining')).
Proof.
  unfold refresh_for_address. cbv zeta. destruct (match rg_last_demand_refresh g with Some _ => _ | None => _ end); [auto|].
  destruct (match range_at (rg_code_ranges g) address with Some _ => _ | None => _ end) as [id|]; [|auto].
  destruct (rg_objects g !! id) as [o|] eqn:Ho; [|auto].
  destruct (match rg_load_failures g !! id with Some _ => _ | None => _ end); [auto|].
  set (g0 := set_last_demand (Some (jw_now w)) g).
  destruct (ju_cfi (jo_unwind o)) eqn:Hcfi; [auto|..].
  all: destruct (jw_before w) as [e|snapshot]; [auto|]; destruct (negb _); [auto|]; unfold demand_inspect.
  all: destruct (object_inspect _ _ _ _ _) as [[[|l]|[| |u]] remaining'] eqn:Hi; [auto|split_and!; [done|done|]; right; left; by exists id|auto|auto|].
  all: destruct (negb _); [auto|].
  all: unfold apply_unwind_update; cbn [fst snd]; change (rg_objects g0) with (rg_objects g) in *; rewrite Ho.
  all: split_and!; [done|done|]; right; right; exists id, o, u, remaining'; done.
Qed.

Lemma refresh_for_address_ranges w address g :
  registry_ranges g -> registry_ranges (refresh_for_address fingerprint w address g).2.
Proof.
  intros Hr. unfold registry_ranges. destruct (refresh_for_address_cases w address g) as (-> & _ & [[-> _]|[(id & -> & _)|(id & o & u & r & Ho & -> & _ & Hi)]]); [done|..].
  - exact (mark_limited_ranges g id Hr).
  - apply object_inspect_unwind in Hi as [Hmod _]. pose proof (ro_objects _ _ Hr _ _ Ho) as [Hsep _].
    eapply ranges_ok_replace; [done..|]. split; [done|]. by left.
Qed.

Lemma drain_updates_ranges stale_order order g : registry_ranges g -> registry_ranges (drain_updates stale_order order g).2.
Proof.
  intros Hr. unfold drain_updates. destruct (negb _); [done|]. unfold registry_ranges in *. cbn [snd]. destruct Hr as [Hobj Hmap Hapart]. split.
  - cbn. intros id o' Ho'. rewrite lookup_fmap in Ho'. apply fmap_Some in Ho' as (o & Ho & ->). destruct (Hobj id o Ho) as [Hsep Hmod].
    case_match; [|done]. split; [done|by right].
  - intros a e id. cbn. rewrite Hmap. setoid_rewrite lookup_fmap. split.
    + intros (o & Ho & Hin). exists (if object_pending o then object_published o else o). rewrite Ho. split; [done|by destruct (object_pending o)].
    + intros (o' & (o & Ho & ->)%fmap_Some & Hin). exists o. split; [done|by destruct (object_pending o)].
  - exact Hapart.
Qed.

(** ** Every sequence of operations *)

(** A call on the registry, with the answers it gets. *)
Inductive registry_step (g : Registry) : Registry -> Prop :=
  | step_refresh w generation modules :
      walks (jw_order w) g -> registry_step g (registry_refresh elf_parse fingerprint w generation modules g)
  | step_demand w address : registry_step g (refresh_for_address fingerprint w address g).2
  | step_drain stale_order order :
      Permutation stale_order (elements (rg_stale_paths g)) -> Permutation order (map_to_list (rg_objects g)).*1 ->
      registry_step g (drain_updates stale_order order g).2.

Lemma registry_step_ranges g g' : registry_step g g' -> registry_ranges g -> registry_ranges g'.
Proof.
  intros [w generation modules Hw|w address|so o _ _] Hr; [by apply registry_refresh_ranges|by apply refresh_for_address_ranges|by apply drain_updates_ranges].
Qed.

Lemma reachable_ranges g : rtc registry_step registry_new g -> registry_ranges g.
Proof.
  intros Hsteps. assert (registry_ranges registry_new) as Hnew by exact ranges_ok_empty. revert Hnew.
  induction Hsteps as [|g1 g2 g3 Hstep _ IH]; [done|]. intros Hr. by apply IH, (registry_step_ranges g1).
Qed.

(** C33: in every state that calls of the registry reach, whatever the running
    process answers, the code ranges are exactly the ranges of the loaded
    objects, none is empty, two of them never overlap, and so an address lies in
    the code of at most one object. *)
Theorem generated_code_never_overlaps g :
  rtc registry_step registry_new g ->
  (forall a e id, rg_code_ranges g !! a = Some (e, id) <-> exists o, rg_objects g !! id = Some o /\ (a, e) ∈ jo_code_ranges o)
  /\ (forall i1 o1 r1 i2 o2 r2 address,
        rg_objects g !! i1 = Some o1 -> r1 ∈ jo_code_ranges o1 -> rg_objects g !! i2 = Some o2 -> r2 ∈ jo_code_ranges o2 ->
        range_contains r1 address = true -> range_contains r2 address = true -> i1 = i2 /\ r1 = r2).
Proof.
  intros Hr%reachable_ranges. split; [apply Hr|]. intros i1 o1 [a1 e1] i2 o2 [a2 e2] address H1 Hr1 H2 Hr2 Hc1 Hc2.
  assert (rg_code_ranges g !! a1 = Some (e1, i1)) as Ha1 by (apply Hr; eauto).
  assert (rg_code_ranges g !! a2 = Some (e2, i2)) as Ha2 by (apply Hr; eauto).
  unfold range_contains in *. cbn in *. rewrite andb_true_iff, Z.leb_le, Z.ltb_lt in Hc1, Hc2.
  destruct (Z.lt_trichotomy a1 a2) as [Hlt|[->|Hlt]]; [|by simplify_eq|].
  - pose proof (ro_apart _ _ Hr _ _ _ _ _ _ Ha1 Ha2 Hlt). lia.
  - pose proof (ro_apart _ _ Hr _ _ _ _ _ _ Ha2 Ha1 Hlt). lia.
Qed.
End ranges.

(** *** A registration that is loaded *)

Definition sample_elf : ParsedElf := mkParsedElf true false [mkElfSection 0 0 false; mkElfSection 4096 64 true] [] (Some (8192, 8208)) None None.
Definition sample_parse (data : list Z) : option ParsedElf := Some sample_elf.
Definition sample_entry : JitCodeEntry := mkEntry 0 0 512 16.
Definition sample_descriptor : JitDescriptor := mkDescriptor 1 1 64 64.
Definition jit_sample_world : JitWorld :=
  mkWorld (λ _ _ size, Some (replicate (Z.to_nat size) 7)) (Some [(32, sample_descriptor)]) (inr {[64 := sample_entry]})
    (inl ErrRead) (inr (mkSnapshot [(32, sample_descriptor)] {[64 := sample_entry]})) [] ([mkLocation 32 [1] None None], true) [1] 0 0 0.
Definition sample_registry : Registry := registry_refresh sample_parse (λ data, Z.of_nat (length data)) jit_sample_world 1 [] registry_new.

Lemma generated_code_never_overlaps_witness :
  map_to_list (rg_code_ranges sample_registry) = [(4096, (4160, object_id_new 64 sample_entry))]
  /\ (forall a e id, rg_code_ranges sample_registry !! a = Some (e, id)
      <-> exists o, rg_objects sample_registry !! id = Some o /\ (a, e) ∈ jo_code_ranges o).
Proof.
  split; [vm_compute; reflexivity|].
  refine (proj1 (generated_code_never_overlaps sample_parse (λ data, Z.of_nat (length data)) _ sample_registry _)).
  - intros data elf s [= <-] Hs. cbn in Hs. rewrite !elem_of_cons in Hs. destruct Hs as [->|[->|[]%elem_of_nil]]; cbn; lia.
  - apply rtc_once, step_refresh. split; [constructor|]. intros id [o Ho]. unfold registry_new in Ho. cbn in Ho. by rewrite lookup_empty in Ho.
Defined.
