(* ===== verification/JitBudget.v ===== *)
(** * The budget of unwind data

    The registry keeps at most [MAX_JIT_TOTAL_CFI_SIZE] bytes of unwind data of
    one process, through inspections, replacements and loads that only commit
    at the end of a refresh. *)

From stdpp Require Import prelude list numbers gmap fin_maps sorting.
From S2P Require Import Prelude Contexts FdeIndex SortedKeys JitProtocol JitRegistry JitRanges.
#[local] Open Scope Z_scope.

(** ** Totals *)

Abbreviation sizes_map := (gmap JitObjectId Z).
Definition total (m : sizes_map) : Z := map_fold (λ _ z t, z + t) 0 m.

Lemma total_insert m id z : m !! id = None -> total (<[id := z]> m) = z + total m.
Proof. intros Hn. unfold total. rewrite map_fold_insert_L; [done| |done]. intros. lia. Qed.

Lemma total_delete m id z : m !! id = Some z -> total m = z + total (delete id m).
Proof. intros Hz. rewrite <-(insert_delete_id m id z Hz) at 1. apply total_insert, lookup_delete_eq. Qed.

Lemma total_replace m id old z : m !! id = Some old -> total (<[id := z]> m) = z - old + total m.
Proof. intros Hold. rewrite (total_delete m id old Hold), <-insert_delete_eq, total_insert by apply lookup_delete_eq. lia. Qed.

Definition nonnegative (m : sizes_map) : Prop := map_Forall (λ _ z, 0 <= z) m.

Lemma total_nonnegative m : nonnegative m -> 0 <= total m.
Proof.
  induction m as [|id z m Hn IH] using map_ind; intros Hm; [done|]. apply map_Forall_insert in Hm as [Hz Hm]; [|done].
  rewrite total_insert by done. specialize (IH Hm). lia.
Qed.

Lemma total_insert_le m id z : nonnegative m -> total (<[id := z]> m) <= z + total m.
Proof.
  intros Hm. destruct (m !! id) as [old|] eqn:Hold; [|by rewrite total_insert]. rewrite (total_replace _ _ _ _ Hold).
  specialize (Hm id old Hold). cbn in Hm. lia.
Qed.

Lemma total_filter_le m (P : JitObjectId * Z -> Prop) `{!forall x, Decision (P x)} : nonnegative m -> total (filter P m) <= total m.
Proof.
  induction m as [|id z m Hn IH] using map_ind; intros Hm; [by rewrite map_filter_empty|].
  apply map_Forall_insert in Hm as [Hz Hm]; [|done]. specialize (IH Hm). rewrite (total_insert m) by done. destruct (decide (P (id, z))) as [HP|HP].
  - rewrite map_filter_insert_True by done. rewrite total_insert; [lia|]. apply map_lookup_filter_None. left. done.
  - rewrite map_filter_insert_False by done. rewrite delete_id by done. lia.
Qed.

(** The unwind data of the loaded objects. *)
Definition sizes (objects : gmap JitObjectId JitObject) : sizes_map := loaded_cfi_size <$> objects.

Lemma retained_all_total objects : retained_all objects = total (sizes objects).
Proof. unfold retained_all, total, sizes. by rewrite map_fold_fmap. Qed.

Definition active_sizes (entries : gmap Z JitCodeEntry) (objects : gmap JitObjectId JitObject) : sizes_map :=
  filter (λ p, is_active entries p.1 = true) (sizes objects).

Lemma retained_cfi_total entries objects : retained_cfi entries objects = total (active_sizes entries objects).
Proof.
  unfold active_sizes, sizes. induction objects as [|id o objects Hn IH] using map_ind; [by rewrite fmap_empty, map_filter_empty|].
  unfold retained_cfi in *. rewrite map_fold_insert_L; [|intros; lia|done]. rewrite IH, fmap_insert.
  destruct (is_active entries id) eqn:Ha.
  - rewrite map_filter_insert_True by done. rewrite total_insert; [done|]. apply map_lookup_filter_None. left. by rewrite lookup_fmap, Hn.
  - rewrite map_filter_insert_False by (cbn; congruence). rewrite delete_id by (by rewrite lookup_fmap, Hn). done.
Qed.

(** ** One object *)

Definition cfi_ok (o : JitObject) : Prop := forall r, cfi_range o = Some r -> r.1 < r.2.

Lemma loaded_size_nonneg o : cfi_ok o -> 0 <= loaded_cfi_size o.
Proof.
  unfold cfi_ok, cfi_range, loaded_cfi_size, range_size. destruct (ju_cfi (jo_unwind o)) as [| | |r]; [lia..|].
  intros Hr. specialize (Hr r eq_refl). lia.
Qed.

Section budget.
Context (elf_parse : list Z -> option ParsedElf) (fingerprint : list Z -> Z).

Lemma load_cfi_budget read id r remaining cfi remaining' :
  load_cfi fingerprint read id (keep_if (λ r, negb (r.1 =? 0) && nonempty r) r) remaining = (cfi, remaining') -> 0 <= remaining ->
  0 <= remaining' /\ (forall r', (match cfi with CfiAbsent => None | CfiUnreadable r | CfiBudgetLimited r | CfiLoaded r _ => Some r end) = Some r' -> r'.1 < r'.2)
  /\ remaining = (match cfi with CfiLoaded r _ => range_size r | _ => 0 end) + remaining'.
Proof.
  intros Hl Hrem. unfold keep_if, load_cfi in Hl. destruct r as [r|]; [|by simplify_eq/=]. cbn [mbind option_bind] in Hl.
  destruct (negb (r.1 =? 0) && nonempty r) eqn:Hr; [|by simplify_eq/=]. apply andb_true_iff in Hr as [_ Hne%Z.ltb_lt].
  destruct (Z.ltb_spec (Z.min remaining MAX_JIT_READ_SIZE) (range_size r)); [|destruct (read_memory _ _ _ _)]; simplify_eq; split_and!; try lia.
  all: intros r'; congruence.
Qed.

Lemma object_load_budget read id remaining o remaining' :
  object_load elf_parse fingerprint read id remaining = (o, remaining') -> 0 <= remaining ->
  0 <= remaining' /\ match o with Some o => cfi_ok o /\ remaining = loaded_cfi_size o + remaining' | None => remaining' = remaining end.
Proof.
  unfold object_load. destruct (id_symfile_size id =? 0); [by intros [= <- <-]|].
  destruct (data ← read_memory read _ _ _; _) as [[data elf]|]; [|by intros [= <- <-]].
  destruct (negb _); [by intros [= <- <-]|]. destruct (ranges_overlap _); [by intros [= <- <-]|].
  destruct (jit_symbols _ _) as [symbols|]; [|by intros [= <- <-]]. cbv zeta.
  destruct (load_cfi _ _ _ _ _) as [cfi r] eqn:Hl. intros [= <- <-] Hrem. destruct (load_cfi_budget _ _ _ _ _ _ Hl Hrem) as (? & ? & ?).
  split_and!; done.
Qed.

Definition loads_total (updates : list (JitObjectId * option JitObject)) : Z :=
  foldr (λ u t, match u.2 with Some o => loaded_cfi_size o | None => 0 end + t) 0 updates.

Lemma load_all_budget w ids remaining updates remaining' :
  load_all elf_parse fingerprint w ids remaining = (updates, remaining') -> 0 <= remaining ->
  0 <= remaining' /\ remaining = loads_total updates + remaining' /\ forall id o, (id, Some o) ∈ updates -> cfi_ok o.
Proof.
  revert remaining updates. induction ids as [|id ids IH]; intros remaining updates; cbn [load_all].
  { intros [= <- <-] Hrem. split_and!; [done|done|]. intros i o []%elem_of_nil. }
  destruct (object_load elf_parse fingerprint (jw_read w) id remaining) as [o r1] eqn:Hl.
  destruct (load_all elf_parse fingerprint w ids r1) as [rest r2] eqn:Hr. intros [= <- <-] Hrem.
  destruct (object_load_budget _ _ _ _ _ Hl Hrem) as [Hr1 Ho]. destruct (IH _ _ Hr Hr1) as (Hr2 & Heq & Hok).
  split; [done|]. cbn [loads_total foldr]. change (foldr _ 0 rest) with (loads_total rest). split; [destruct o; cbn; lia|].
  intros i p [[= -> <-]|Hin]%elem_of_cons; [apply Ho|by eapply Hok].
Qed.

(** ** Inspection *)

Lemma object_inspect_image read id o remaining remaining' :
  object_inspect fingerprint read id o remaining = (inr ChangeImage, remaining') -> remaining' = remaining.
Proof.
  unfold object_inspect. destruct (read_memory read _ _ _) as [data|]; [|done]. destruct (negb _); [by intros [= <-]|].
  destruct (ju_cfi (jo_unwind o)) as [|r|r|r old]; [done|..].
  all: destruct (MAX_JIT_READ_SIZE <? range_size r); [done|]; destruct (remaining <? range_size r); [done|].
  all: destruct (read_memory read (InspectCfi id) _ _); [|done]; by case_bool_decide.
Qed.


Definition update_size (u : UnwindUpdate) : Z := match ju_cfi (uu_unwind u) with CfiLoaded r _ => range_size r | _ => 0 end.
Definition update_ok (u : UnwindUpdate) : Prop := exists r f, ju_cfi (uu_unwind u) = CfiLoaded r f /\ r.1 < r.2.
Definition resize (m : sizes_map) (u : JitObjectId * UnwindUpdate) : sizes_map := alter (λ _, update_size u.2) u.1 m.

(** What the objects will take once the inspection is committed. *)
Definition planned (entries : gmap Z JitCodeEntry) (objects : gmap JitObjectId JitObject) (s : Inspection) : sizes_map :=
  foldl resize (filter (λ p, p.1 ∉ ip_invalidated s) (active_sizes entries objects)) (ip_unwind_updates s).

Lemma resize_all_other m updates id : id ∉ updates.*1 -> foldl resize m updates !! id = m !! id.
Proof.
  revert m. induction updates as [|[i u] updates IH]; intros m Hnot; [done|]. cbn in Hnot. apply not_elem_of_cons in Hnot as [Hne Hnot].
  cbn [foldl]. rewrite IH by done. unfold resize. by apply lookup_alter_ne.
Qed.

Lemma resize_all_delete m updates id : id ∉ updates.*1 -> foldl resize (delete id m) updates = delete id (foldl resize m updates).
Proof.
  revert m. induction updates as [|[i u] updates IH]; intros m Hnot; [done|]. cbn in Hnot. apply not_elem_of_cons in Hnot as [Hne Hnot].
  cbn [foldl]. rewrite <-IH by done. f_equal. unfold resize. cbn. symmetry. by apply delete_alter_ne.
Qed.

Record plans (g : Registry) (entries : gmap Z JitCodeEntry) (bound : Z) (seen : list JitObjectId) (s : Inspection) : Prop := {
  pl_remaining : 0 <= ip_remaining s;
  pl_total : ip_remaining s + total (planned entries (rg_objects g) s) = bound;
  pl_updates : forall id u, (id, u) ∈ ip_unwind_updates s -> id ∈ seen /\ update_ok u;
  pl_invalidated : forall id, id ∈ ip_invalidated s -> id ∈ seen;
}.

Lemma planned_unseen g entries bound seen s id :
  plans g entries bound seen s -> id ∉ seen -> planned entries (rg_objects g) s !! id = active_sizes entries (rg_objects g) !! id.
Proof.
  intros [_ _ Hu Hi] Hnot. unfold planned. rewrite resize_all_other.
  2:{ intros ([i u] & -> & [Hin _]%Hu)%list_elem_of_fmap. done. }
  apply option_eq. intros z. rewrite map_lookup_filter_Some. cbn. naive_solver.
Qed.

Definition all_cfi_ok (objects : gmap JitObjectId JitObject) : Prop := map_Forall (λ _ o, cfi_ok o) objects.

Lemma sizes_nonnegative objects : all_cfi_ok objects -> nonnegative (sizes objects).
Proof. intros Hok id z. unfold sizes. rewrite lookup_fmap. intros (o & Ho & ->)%fmap_Some. apply loaded_size_nonneg, (Hok id o Ho). Qed.

Lemma active_sizes_lookup entries objects id o :
  objects !! id = Some o -> is_active entries id = true -> active_sizes entries objects !! id = Some (loaded_cfi_size o).
Proof. intros Ho Ha. apply map_lookup_filter_Some. unfold sizes. by rewrite lookup_fmap, Ho. Qed.

(** An object that is given up frees its share. *)
Lemma plans_invalidate g entries bound seen s id o :
  plans g entries bound seen s -> id ∉ seen -> rg_objects g !! id = Some o -> is_active entries id = true -> cfi_ok o ->
  plans g entries bound (seen ++ [id])
    (mkInspection (ip_remaining s + loaded_cfi_size o) ({[id]} ∪ ip_invalidated s) (ip_unwind_updates s) (ip_failed s) (ip_checked s)).
Proof.
  intros Hp Hnew Ho Ha Hok. pose proof (planned_unseen _ _ _ _ _ _ Hp Hnew) as Hid. rewrite (active_sizes_lookup _ _ _ _ Ho Ha) in Hid.
  pose proof (total_delete _ _ _ Hid) as Htot. pose proof (loaded_size_nonneg o Hok). destruct Hp as [Hrem Hbound Hu Hi].
  split; cbn [ip_remaining ip_unwind_updates ip_invalidated].
  - lia.
  - unfold planned. cbn [ip_unwind_updates ip_invalidated].
    assert (filter (λ p, p.1 ∉ {[id]} ∪ ip_invalidated s) (active_sizes entries (rg_objects g))
      = delete id (filter (λ p, p.1 ∉ ip_invalidated s) (active_sizes entries (rg_objects g)))) as ->.
    { apply map_eq. intros j. apply option_eq. intros z. rewrite lookup_delete_Some, !map_lookup_filter_Some. cbn.
      rewrite not_elem_of_union, not_elem_of_singleton. naive_solver. }
    rewrite resize_all_delete; [fold (planned entries (rg_objects g) s); lia|].
    intros ([i u] & -> & [Hin _]%Hu)%list_elem_of_fmap. done.
  - intros i u Hin. rewrite elem_of_app. by destruct (Hu i u Hin); auto.
  - intros i [->%elem_of_singleton|Hin]%elem_of_union; apply elem_of_app; [right; by left|auto].
Qed.

(** New unwind data replaces the old share. *)
Lemma plans_update g entries bound seen s id o u remaining failed checked :
  plans g entries bound seen s -> id ∉ seen -> rg_objects g !! id = Some o -> is_active entries id = true -> update_ok u ->
  0 <= remaining -> remaining = ip_remaining s + loaded_cfi_size o - update_size u ->
  plans g entries bound (seen ++ [id]) (mkInspection remaining (ip_invalidated s) (ip_unwind_updates s ++ [(id, u)]) failed checked).
Proof.
  intros Hp Hnew Ho Ha Hok Hrem Heq. pose proof (planned_unseen _ _ _ _ _ _ Hp Hnew) as Hid. rewrite (active_sizes_lookup _ _ _ _ Ho Ha) in Hid.
  destruct Hp as [Hrem0 Hbound Hu Hi]. split; cbn [ip_remaining ip_unwind_updates ip_invalidated]; [done|..].
  - assert (forall x y z, planned entries (rg_objects g) (mkInspection x (ip_invalidated s) (ip_unwind_updates s ++ [(id, u)]) y z)
      = resize (planned entries (rg_objects g) s) (id, u)) as ->.
    { intros x y z. unfold planned. cbn [ip_unwind_updates ip_invalidated]. by rewrite foldl_app. }
    unfold resize. cbn [fst snd]. rewrite (alter_present _ _ _ _ Hid), (total_replace _ _ _ _ Hid). lia.
  - intros i v [Hin|[= -> ->]%list_elem_of_singleton]%elem_of_app; rewrite elem_of_app; [destruct (Hu i v Hin); auto|].
    split; [right; by left|done].
  - intros i Hin. apply elem_of_app. auto.
Qed.

Lemma plans_same g entries bound seen s s' id :
  plans g entries bound seen s ->
  ip_remaining s' = ip_remaining s -> ip_invalidated s' = ip_invalidated s -> ip_unwind_updates s' = ip_unwind_updates s ->
  plans g entries bound (seen ++ [id]) s'.
Proof.
  intros [Hrem Htot Hup Hinv] Hr Hi Hu. split; rewrite ?Hr, ?Hi, ?Hu.
  - done.
  - unfold planned in *. by rewrite Hi, Hu.
  - intros i u Hin. rewrite elem_of_app. by destruct (Hup i u Hin); auto.
  - intros i Hin. apply elem_of_app. auto.
Qed.

Lemma inspect_one_plans w g entries changed revalidate poll bound seen s id :
  all_cfi_ok (rg_objects g) -> id ∉ seen -> plans g entries bound seen s ->
  plans g entries bound (seen ++ [id]) (inspect_one fingerprint w g entries changed revalidate poll s id).
Proof.
  intros Hall Hnew Hp. unfold inspect_one. destruct (rg_objects g !! id) as [o|] eqn:Ho; [|by apply (plans_same _ _ _ _ _ _ _ Hp)].
  pose proof (Hall id o Ho) as Hok. cbn in Hok. destruct s as [remaining invalidated updates failed checked] eqn:Hs.
  destruct (is_active entries id) eqn:Ha; [|by apply (plans_same _ _ _ _ _ _ _ Hp)]. cbn [negb].
  pose proof (plans_invalidate _ _ _ _ _ _ _ Hp Hnew Ho Ha Hok) as Hinv. cbn in Hinv.
  case_bool_decide; [done|]. case_match; [by apply (plans_same _ _ _ _ _ _ _ Hp)|].
  destruct (object_inspect fingerprint (jw_read w) id o _) as [[e|[| |u]] remaining'] eqn:Hio; [by apply (plans_same _ _ _ _ _ _ _ Hp)|by apply (plans_same _ _ _ _ _ _ _ Hp)| |].
  - assert (remaining' = remaining + loaded_cfi_size o) as -> by (by eapply object_inspect_image). done.
  - apply object_inspect_unwind in Hio as (_ & r & bytes & Hr & Hcfi & Hle & ->). specialize (Hok r Hr).
    assert (update_size u = range_size r) as Hsize by (unfold update_size; by rewrite Hcfi).
    eapply (plans_update _ _ _ _ _ _ _ _ _ _ _ Hp Hnew Ho Ha); [by eexists r, _|lia|cbn; lia].
Qed.

Lemma inspect_all_plans w g entries changed revalidate poll order remaining :
  NoDup order -> all_cfi_ok (rg_objects g) -> 0 <= remaining ->
  plans g entries (remaining + total (active_sizes entries (rg_objects g))) order
    (foldl (inspect_one fingerprint w g entries changed revalidate poll) (mkInspection remaining ∅ [] [] []) order).
Proof.
  intros Hnd Hall Hrem. induction order as [|id order IH] using rev_ind.
  { split; cbn; [done| |intros id u []%elem_of_nil|intros id []%elem_of_empty]. unfold planned. cbn. do 2 f_equal.
    apply map_eq. intros j. apply option_eq. intros z. rewrite map_lookup_filter_Some. set_solver. }
  apply NoDup_app in Hnd as (Hnd & Hdisj & _). rewrite foldl_app. cbn [foldl]. apply inspect_one_plans; [done| |by apply IH].
  intros Hin. apply (Hdisj id Hin). by left.
Qed.

(** ** The commit *)

Lemma sizes_unwind g u : sizes (rg_objects (apply_unwind_update g u)) = resize (sizes (rg_objects g)) u.
Proof.
  unfold apply_unwind_update, resize, sizes. destruct (rg_objects g !! u.1) as [o|] eqn:Ho; cbn.
  - rewrite fmap_insert. symmetry. apply (alter_present (λ _, update_size u.2) _ _ (loaded_cfi_size o)). by rewrite lookup_fmap, Ho.
  - symmetry. apply alter_id'. by rewrite lookup_fmap, Ho.
Qed.

Lemma sizes_failed poll g check : sizes (rg_objects (failed_check poll g check)) = sizes (rg_objects g).
Proof.
  destruct check as [id []]; [|done]. unfold sizes. cbn. apply map_eq. intros j. rewrite !lookup_fmap. destruct (decide (id = j)) as [<-|Hne].
  - rewrite lookup_alter_eq. destruct (rg_objects g !! id) as [o|]; [|done]. cbn. unfold loaded_cfi_size, mark_limited. cbn.
    by destruct (ju_cfi (jo_unwind o)).
  - by rewrite lookup_alter_ne.
Qed.

Lemma foldl_sizes {B} (f : Registry -> B -> Registry) (h : sizes_map -> B -> sizes_map) l g :
  (forall g b, sizes (rg_objects (f g b)) = h (sizes (rg_objects g)) b) -> sizes (rg_objects (foldl f g l)) = foldl h (sizes (rg_objects g)) l.
Proof. intros Hf. revert g. induction l as [|b l IH]; intros g; cbn; [done|]. by rewrite IH, Hf. Qed.

Lemma foldl_const {A B} (a : A) (l : list B) : foldl (λ a _, a) a l = a.
Proof. by induction l. Qed.

(** The commit leaves what the inspection planned. *)
Lemma settle_sizes poll order entries s g :
  walks order g -> sizes (rg_objects (settle_objects poll order entries s g)) = planned entries (rg_objects g) s.
Proof.
  intros [_ Hdom]. unfold settle_objects, planned. rewrite (foldl_sizes _ resize) by apply sizes_unwind. f_equal.
  rewrite (foldl_sizes _ (λ m _, m)), foldl_const by apply sizes_failed. rewrite (foldl_sizes _ (λ m _, m)), foldl_const by done.
  apply map_eq. intros id. unfold sizes. rewrite lookup_fmap. cbn. rewrite retire_all_lookup. apply option_eq. intros z.
  rewrite map_lookup_filter_Some. unfold active_sizes, sizes. rewrite map_lookup_filter_Some, lookup_fmap. cbn.
  destruct (is_active entries id) eqn:Ha; cbn [negb andb]; [|split; [|by intros [[_ ?] _]]].
  - destruct (bool_decide_reflect (id ∈ ip_invalidated s)) as [Hi|Hi]; cbn [negb].
    + rewrite andb_true_r. split; [|by intros [_ ?]]. case_bool_decide as Hin; [done|]. intros (o & Ho & _)%fmap_Some. destruct Hin. apply Hdom. eauto.
    + rewrite andb_false_r. naive_solver.
  - rewrite andb_true_r. case_bool_decide as Hin; [done|]. intros (o & Ho & _)%fmap_Some. destruct Hin. apply Hdom. eauto.
Qed.

(** *** Unwind data stays readable ranges *)

Lemma all_cfi_limited objects id : all_cfi_ok objects -> all_cfi_ok (alter mark_limited id objects).
Proof.
  intros Hg i o Ho. destruct (decide (id = i)) as [<-|Hne]; [|rewrite lookup_alter_ne in Ho by done; by apply (Hg i)].
  rewrite lookup_alter_eq in Ho. apply fmap_Some in Ho as (o1 & Ho1 & ->). pose proof (Hg id o1 Ho1) as Hc. cbn in Hc.
  unfold cfi_ok, cfi_range in *. cbn. by destruct (ju_cfi (jo_unwind o1)).
Qed.

Lemma settle_cfi_ok poll order entries s g bound :
  plans g entries bound order s -> all_cfi_ok (rg_objects g) -> all_cfi_ok (rg_objects (settle_objects poll order entries s g)).
Proof.
  intros Hp Hall. unfold settle_objects. apply (foldl_keeps (λ g, all_cfi_ok (rg_objects g))).
  2:{ intros g' [id u] Hin Hg. destruct (pl_updates _ _ _ _ _ Hp _ _ Hin) as [_ (r & f & Hcfi & Hr)]. unfold apply_unwind_update. cbn.
      destruct (rg_objects g' !! id) as [o|]; [|done]. cbn. apply map_Forall_insert_2; [|done].
      unfold cfi_ok, cfi_range. cbn. rewrite Hcfi. by intros r' [= <-]. }
  apply (foldl_keeps (λ g, all_cfi_ok (rg_objects g))).
  2:{ intros g' [id []] _ Hg; [|done]. by apply all_cfi_limited. }
  apply (foldl_keeps (λ g, all_cfi_ok (rg_objects g))); [|done]. cbn.
  apply (foldl_keeps (λ g, all_cfi_ok (rg_objects g))); [done|]. intros g' id _ Hg. unfold retire_one. destruct (rg_objects g' !! id); [|done].
  case_match; [done|]. by apply map_Forall_delete.
Qed.

Lemma install_all_budget poll updates g :
  (forall id o, (id, Some o) ∈ updates -> cfi_ok o) -> all_cfi_ok (rg_objects g) ->
  all_cfi_ok (rg_objects (foldl (install_one poll) g updates))
  /\ total (sizes (rg_objects (foldl (install_one poll) g updates))) <= total (sizes (rg_objects g)) + loads_total updates.
Proof.
  revert g. induction updates as [|[id o] updates IH]; intros g Hok Hg; [cbn; split; [done|lia]|]. cbn [foldl loads_total foldr].
  change (foldr _ 0 updates) with (loads_total updates).
  assert (all_cfi_ok (rg_objects (install_one poll g (id, o))) /\
    total (sizes (rg_objects (install_one poll g (id, o)))) <= total (sizes (rg_objects g)) + match o with Some o => loaded_cfi_size o | None => 0 end) as [Hg1 Ht1].
  { unfold install_one. destruct o as [o|]; [|split; [done|]; change (total (sizes (rg_objects g)) <= total (sizes (rg_objects g)) + 0); lia].
    assert (cfi_ok o) as Ho by (apply (Hok id); by left).
    pose proof (loaded_size_nonneg o Ho). destruct (overlaps_existing _ _).
    { split; [done|]. change (total (sizes (rg_objects g)) <= total (sizes (rg_objects g)) + loaded_cfi_size o). lia. }
    split; [by apply map_Forall_insert_2|]. cbn [rg_objects set_load_failures set_pending set_objects].
    unfold sizes. rewrite fmap_insert. pose proof (total_insert_le (sizes (rg_objects g)) id (loaded_cfi_size o) (sizes_nonnegative _ Hg)). unfold sizes in *. lia. }
  destruct (IH (install_one poll g (id, o))) as [Hg2 Ht2]; [intros i p Hin; apply (Hok i); by right|done|]. split; [done|]. cbn [snd]. lia.
Qed.

(** ** The operations *)

Record budget_ok (g : Registry) : Prop := {
  bu_ranges : all_cfi_ok (rg_objects g);
  bu_total : total (sizes (rg_objects g)) <= MAX_JIT_TOTAL_CFI_SIZE;
}.

Lemma budget_empty g : rg_objects g = ∅ -> budget_ok g.
Proof. intros Hg. split; rewrite Hg; [intros id o; by rewrite lookup_empty|by vm_compute]. Qed.

Lemma commit_objects_budget w poll entries changed revalidate updates remaining' g :
  let s := foldl (inspect_one fingerprint w g entries changed revalidate poll)
             (mkInspection (Z.max 0 (MAX_JIT_TOTAL_CFI_SIZE - retained_cfi entries (rg_objects g))) ∅ [] [] []) (jw_order w) in
  walks (jw_order w) g -> budget_ok g ->
  load_all elf_parse fingerprint w (pending_ids g entries (ip_invalidated s) poll) (ip_remaining s) = (updates, remaining') ->
  budget_ok (commit_objects poll (jw_order w) entries s updates g).
Proof.
  intros s Hw [Hall Htot] Hl. assert (plans g entries MAX_JIT_TOTAL_CFI_SIZE (jw_order w) s) as Hp.
  { pose proof (total_filter_le (sizes (rg_objects g)) (λ p, is_active entries p.1 = true) (sizes_nonnegative _ Hall)) as Hle.
    unfold s. rewrite retained_cfi_total.
    replace MAX_JIT_TOTAL_CFI_SIZE with (Z.max 0 (MAX_JIT_TOTAL_CFI_SIZE - total (active_sizes entries (rg_objects g))) + total (active_sizes entries (rg_objects g))) at 1
      by (unfold active_sizes; lia).
    apply inspect_all_plans; [apply Hw|done|lia]. }
  destruct (load_all_budget _ _ _ _ _ Hl (pl_remaining _ _ _ _ _ Hp)) as (Hrem & Heq & Hok).
  destruct (install_all_budget poll updates (settle_objects poll (jw_order w) entries s g)) as [Hall2 Ht2]; [done|by eapply settle_cfi_ok|].
  split; [done|]. unfold commit_objects. rewrite (settle_sizes _ _ _ _ _ Hw) in Ht2. pose proof (pl_total _ _ _ _ _ Hp). lia.
Qed.

Lemma registry_refresh_budget w generation modules g :
  walks (jw_order w) g -> budget_ok g -> budget_ok (registry_refresh elf_parse fingerprint w generation modules g).
Proof.
  apply registry_refresh_keeps; [|intros poll entries changed revalidate updates remaining' g1 s _; apply commit_objects_budget|].
  - intros g1 g2 [Ho _ _ _] [Hall Htot]. split; by rewrite Ho.
  - intros g1 _. by apply budget_empty.
Qed.

Lemma refresh_for_address_budget w address g : budget_ok g -> budget_ok (refresh_for_address fingerprint w address g).2.
Proof.
  intros [Hall Htot]. pose proof (sizes_nonnegative _ Hall) as Hnn.
  destruct (refresh_for_address_cases fingerprint w address g) as (_ & _ & [[Heq _]|[(id & Heq & _)|(id & o & u & r & Ho & Heq & _ & Hi)]]); split; rewrite Heq; try done.
  - by apply all_cfi_limited.
  - pose proof (sizes_failed 0 g (id, true)) as Hs. change (sizes (alter mark_limited id (rg_objects g)) = sizes (rg_objects g)) in Hs. by rewrite Hs.
  - apply object_inspect_unwind in Hi as (_ & r' & bytes & Hr & Hcfi & _). apply map_Forall_insert_2; [|done].
    unfold cfi_ok, cfi_range. cbn. rewrite Hcfi. intros r1 [= <-]. apply (Hall id o Ho _ Hr).
  - apply object_inspect_unwind in Hi as (_ & r' & bytes & Hr & Hcfi & Hle & _). rewrite retained_all_total in Hle.
    unfold sizes. rewrite fmap_insert. fold (sizes (rg_objects g)).
    assert (sizes (rg_objects g) !! id = Some (loaded_cfi_size o)) as Hid by (unfold sizes; by rewrite lookup_fmap, Ho).
    rewrite (total_replace _ _ _ _ Hid). pose proof (loaded_size_nonneg o (Hall id o Ho)).
    assert (loaded_cfi_size (apply_unwind u o) = range_size r') as -> by (unfold loaded_cfi_size; cbn; by rewrite Hcfi). lia.
Qed.

Lemma drain_updates_budget stale_order order g : budget_ok g -> budget_ok (drain_updates stale_order order g).2.
Proof.
  intros [Hall Htot]. unfold drain_updates. destruct (negb _); [done|]. split; cbn [snd rg_objects set_objects set_pending].
  - intros id o' Ho'. rewrite lookup_fmap in Ho'. apply fmap_Some in Ho' as (o & Ho & ->). pose proof (Hall id o Ho). by case_match.
  - unfold sizes in *. rewrite <-map_fmap_compose. erewrite map_fmap_ext; [exact Htot|]. intros id o Ho. cbn. by case_match.
Qed.

(** In every state that calls of the registry reach, whatever the running
    process answers, the unwind data kept of all objects together is at most
    [MAX_JIT_TOTAL_CFI_SIZE] bytes. *)
Theorem unwind_data_within_budget g :
  rtc (registry_step elf_parse fingerprint) registry_new g -> 0 <= retained_all (rg_objects g) <= MAX_JIT_TOTAL_CFI_SIZE.
Proof.
  intros Hsteps. assert (budget_ok g) as [Hall Htot].
  { assert (budget_ok registry_new) as Hnew by by apply budget_empty. revert Hnew.
    induction Hsteps as [|g1 g2 g3 Hstep _ IH]; [done|]. intros Hb. apply IH.
    destruct Hstep; [by apply registry_refresh_budget|by apply refresh_for_address_budget|by apply drain_updates_budget]. }
  rewrite retained_all_total. split; [|done]. by apply total_nonnegative, sizes_nonnegative.
Qed.
End budget.

Lemma unwind_data_within_budget_witness :
  retained_all (rg_objects sample_registry) = 16 /\ 0 <= retained_all (rg_objects sample_registry) <= MAX_JIT_TOTAL_CFI_SIZE.
Proof.
  split; [vm_compute; reflexivity|]. apply (unwind_data_within_budget sample_parse (λ data, Z.of_nat (length data))).
  apply rtc_once, step_refresh. split; [constructor|]. intros id [o Ho]. unfold registry_new in Ho. cbn in Ho. by rewrite lookup_empty in Ho.
Defined.
