(* ===== verification/JitFrames.v ===== *)
(** * Frames of generated code

    [linux/jit/mod.rs] and the overlay of [linux/unwind/backend.rs]: the recorder
    polls the registry of a process, records each loaded range as a pinned
    module, and attributes frames by the ranges that it keeps.  After every call
    that succeeds those ranges are the registry's. *)

From stdpp Require Import prelude list numbers gmap fin_maps sorting strings.
From S2P Require Import Prelude Contexts SortedKeys Model ModuleTable Text.
From S2P Require Import ProcMaps FdeIndex JitProtocol JitRegistry JitRanges.
#[local] Open Scope Z_scope.

(** ** Printing an identity *)

(** [JitObjectId::path]. *)
Definition object_path (id : JitObjectId) : list Z :=
  chars "[jit-0x" ++ format_hex (id_entry_addr id) ++ chars "-0x" ++ format_hex (id_symfile_addr id)
  ++ chars "-0x" ++ format_hex (id_symfile_size id) ++ chars "]".
Arguments object_path : simpl never.

(** ** State *)

(** [ProcessMapping], from a line of the process's maps. *)
Record ProcessMapping := mkProcessMapping {
  pm_range : range; pm_path : list Z; pm_offset : Z; pm_executable : bool; pm_deleted : bool; pm_identity : Z * Z;
}.
#[global] Instance ProcessMapping_eq_dec : EqDecision ProcessMapping.
Proof. solve_decision. Defined.
Definition registry_mapping (m : ProcessMapping) : Mapping := mkMapping (pm_range m) (pm_path m) (pm_offset m) (Some (pm_identity m)).

Record CodeRange := mkCodeRange { cr_end : Z; cr_module_id : Z; cr_path : list Z }.

Record JitRecorder := mkRecorder {
  jr_registry : option Registry;
  jr_mappings : list ProcessMapping;
  jr_generation : Z;
  jr_mappings_changed : bool;
  jr_maps_retry_at : option Z;
  jr_last_maps_read : option Z;
  jr_code_ranges : gmap Z CodeRange;
}.
Definition recorder_default : JitRecorder := mkRecorder None [] 0 false None None ∅.

(** The runtime side of [NativeUnwinder]: its modules by start, and the ranges that they own. *)
Record JitOverlay := mkOverlay { ov_modules : gmap Z range; ov_jit_ranges : gmap Z Z }.
Definition add_jit_module (module : range) (u : JitOverlay) : JitOverlay :=
  mkOverlay (<[module.1 := module]> (delete module.1 (ov_modules u))) (<[module.1 := module.2]> (ov_jit_ranges u)).
Definition remove_jit_module (start : Z) (u : JitOverlay) : JitOverlay :=
  mkOverlay (delete start (ov_modules u)) (delete start (ov_jit_ranges u)).
Definition is_runtime_frame (u : JitOverlay) (address : Z) : bool :=
  match range_at (ov_jit_ranges u) address with Some (_, stop) => address <? stop | None => false end.

Definition mappings_changed (j : JitRecorder) : JitRecorder :=
  mkRecorder (jr_registry j) (jr_mappings j) (jr_generation j) true (jr_maps_retry_at j) (jr_last_maps_read j) (jr_code_ranges j).
Definition set_registry (registry : option Registry) (j : JitRecorder) : JitRecorder :=
  mkRecorder registry (jr_mappings j) (jr_generation j) (jr_mappings_changed j) (jr_maps_retry_at j) (jr_last_maps_read j) (jr_code_ranges j).
Definition set_code_ranges (code_ranges : gmap Z CodeRange) (j : JitRecorder) : JitRecorder :=
  mkRecorder (jr_registry j) (jr_mappings j) (jr_generation j) (jr_mappings_changed j) (jr_maps_retry_at j) (jr_last_maps_read j) code_ranges.

(** [frame]. *)
Definition recorder_frame (j : JitRecorder) (address : Z) : option FrameRecord :=
  match range_at (jr_code_ranges j) address with
  | None => None
  | Some (start, r) => if address <? cr_end r then Some (mkFrame (Some (cr_module_id r)) (address - start) address User) else None
  end.

(** ** Applying updates *)

Section recorder.
Context {S : Type} `{ModuleSink S}.
(** The ranges, the paths to retire, the overlay; then the module table and the spool. *)
#[local] Abbreviation local_state := (gmap Z CodeRange * gset (list Z) * JitOverlay)%type.
#[local] Abbreviation op := (io (local_state * (ModuleTable * S))).
Definition to_table {A} (m : io (ModuleTable * S) A) : op A := io_zoom snd (λ t s, (s.1, t)) m.
Definition on_local (f : local_state -> local_state) : op unit := io_modify (λ s, (f s.1, s.2)).

(** [retire_ranges]. *)
Definition retire_ranges (s : local_state) : local_state :=
  let '(code_ranges, retired, u) := s in
  if bool_decide (retired = ∅) then s
  else
    let gone := filter (λ p, cr_path p.2 ∈ retired) (map_to_list code_ranges) in
    (filter (λ p, cr_path p.2 ∉ retired) code_ranges, ∅, foldl (λ u p, remove_jit_module p.1 u) u gone).

Definition module_symbols (range : range) (symbols : list Symbol) : list JitSymbol :=
  omap (λ symbol, name ← sy_name symbol;
    if range_contains range (sy_range symbol).1 then Some (mkJitSymbol (sy_range symbol).1 (sy_range symbol).2 name) else None) symbols.

Definition with_symbols (symbols : list JitSymbol) (m : ModuleRecord) : ModuleRecord :=
  mkModule (m_id m) (m_owner m) (m_start m) (m_end m) (m_file_offset m) (m_inode m) (m_device_major m) (m_device_minor m)
    (m_inode_generation m) (m_path m) (Some symbols).

Fixpoint record_modules (pid : Z) (path : list Z) (symbols : list Symbol) (modules : list range) : op unit :=
  match modules with
  | [] => mret tt
  | r :: modules =>
      recorded ← io_lift (module_new 0 pid r.1 r.2 0 path);
      recorded ← to_table (record_pinned_module (with_symbols (module_symbols r symbols) recorded));
      on_local (λ '(code_ranges, retired, u), (<[r.1 := mkCodeRange r.2 (m_id recorded) path]> code_ranges, retired, u));;
      record_modules pid path symbols modules
  end.

(** [apply_update]. *)
Definition apply_update (pid : Z) (update : Update) : op unit :=
  match update with
  | Removed id => on_local (λ '(code_ranges, retired, u), (code_ranges, {[object_path id]} ∪ retired, u))
  | Loaded id unwind symbols =>
      on_local retire_ranges;;
      (match symbols with
       | Some symbols =>
           pid ← io_lift (ok_or InvalidInput (Pid_try_from_i32 pid));
           record_modules pid (object_path id) symbols unwind
       | None => mret tt
       end);;
      on_local (λ '(code_ranges, retired, u), (code_ranges, retired, foldl (λ u m, add_jit_module m u) u unwind))
  end.

(** The visitor ignores what follows an error. *)
Fixpoint apply_all (pid : Z) (updates : list Update) : op unit :=
  match updates with
  | [] => mret tt
  | update :: updates => apply_update pid update;; apply_all pid updates
  end.

(** [apply_updates], with the orders in which the registry walks its tables. *)
Definition apply_updates (pid : Z) (stale_order order : list JitObjectId)
    : io (JitRecorder * JitOverlay * (ModuleTable * S)) unit := λ '(j, u, t),
  match jr_registry j with
  | None => (Ok tt, (j, u, t))
  | Some registry =>
      let '(updates, registry) := drain_updates stale_order order registry in
      let '(result, (s, t)) := apply_all pid updates ((jr_code_ranges j, ∅, u), t) in
      let '(code_ranges, _, u) := retire_ranges s in
      (result, (set_code_ranges code_ranges (set_registry (Some registry) j), u, t))
  end.

(** ** Polling *)

Context (elf_parse : list Z -> option ParsedElf) (fingerprint : list Z -> Z) (makedev : Z -> Z -> Z).

Definition DELETED : list Z := chars " (deleted)".
Definition strip_suffix (suffix text : list Z) : option (list Z) :=
  let kept := (length text - length suffix)%nat in
  if bool_decide (drop kept text = suffix) && (length suffix <=? length text)%nat then Some (take kept text) else None.

Definition process_mapping (region : Region) : ProcessMapping :=
  let linked := strip_suffix DELETED (mr_path region) in
  mkProcessMapping (mr_range region) (default (mr_path region) linked) (mr_file_offset region) (mr_executable region)
    (bool_decide (is_Some linked)) (mr_inode region, makedev (mr_device_major region) (mr_device_minor region)).

(** The maps of the process and the readings of the clock in one call. *)
Record PollWorld := mkPollWorld {
  pw_maps : option (list Z);
  pw_elapsed_now : Z; pw_retry_now : Z; pw_read_now : Z; pw_error_now : Z;
  pw_jit : JitWorld;
  pw_stale_order : list JitObjectId;
  pw_order : list JitObjectId;
}.

Definition read_maps (w : PollWorld) (j : JitRecorder) : JitRecorder :=
  let reconcile :=
    match jr_registry j with None => true | Some registry => negb (is_absent registry) end
    && match jr_last_maps_read j with None => true | Some last => 1000 <=? pw_elapsed_now w - last end in
  if (reconcile || jr_mappings_changed j) && match jr_maps_retry_at j with None => true | Some retry => retry <=? pw_retry_now w end then
    match pw_maps w with
    | Some maps =>
        let mappings := process_mapping <$> filter (λ r, mr_inode r <> 0) (parse_iter maps) in
        let changed := negb (bool_decide (jr_mappings j = mappings)) in
        mkRecorder (Some (default registry_new (jr_registry j))) mappings (if changed then wrapping_add_u64 (jr_generation j) 1 else jr_generation j)
          false None (Some (pw_read_now w)) (jr_code_ranges j)
    | None =>
        mkRecorder (jr_registry j) (jr_mappings j) (jr_generation j) (jr_mappings_changed j) (Some (pw_error_now w + 1000))
          (Some (pw_read_now w)) (jr_code_ranges j)
    end
  else j.

(** [refresh]. *)
Definition recorder_refresh (pid : Z) (w : PollWorld) : io (JitRecorder * JitOverlay * (ModuleTable * S)) unit := λ '(j, u, t),
  let j := read_maps w j in
  let j := match jr_registry j with
           | None => j
           | Some registry =>
               set_registry (Some (registry_refresh elf_parse fingerprint (pw_jit w) (jr_generation j) (registry_mapping <$> jr_mappings j) registry)) j
           end in
  apply_updates pid (pw_stale_order w) (pw_order w) (j, u, t).

(** [refresh_for_frame]. *)
Definition refresh_for_frame (address pid : Z) (w : PollWorld) : io (JitRecorder * JitOverlay * (ModuleTable * S)) bool := λ '(j, u, t),
  match recorder_frame j address with
  | None => (Ok false, (j, u, t))
  | Some _ =>
      let '(changed, j) := match jr_registry j with
        | None => (false, j)
        | Some registry => let '(changed, registry) := refresh_for_address fingerprint (pw_jit w) address registry in (changed, set_registry (Some registry) j)
        end in
      (apply_updates pid (pw_stale_order w) (pw_order w);; mret changed) (j, u, t)
  end.
End recorder.

(** ** Identities and their paths *)

Lemma split_at_first {A} (x : A) l1 l2 r1 r2 : x ∉ l1 -> x ∉ l2 -> l1 ++ x :: r1 = l2 ++ x :: r2 -> l1 = l2 /\ r1 = r2.
Proof.
  revert l2. induction l1 as [|a l1 IH]; intros [|b l2] H1 H2 Heq; cbn in Heq; [by simplify_eq|..].
  - injection Heq as -> _. by destruct H2; left.
  - injection Heq as <- _. by destruct H1; left.
  - apply not_elem_of_cons in H1 as [_ H1], H2 as [_ H2]. injection Heq as -> Heq. by destruct (IH l2 H1 H2 Heq) as [-> ->].
Qed.

Definition id_words (id : JitObjectId) : Prop :=
  0 <= id_entry_addr id <= u64_max /\ 0 <= id_symfile_addr id <= u64_max /\ 0 <= id_symfile_size id <= u64_max.

Lemma object_path_inj i1 i2 : id_words i1 -> id_words i2 -> object_path i1 = object_path i2 -> i1 = i2.
Proof.
  intros (Ha1 & Hb1 & Hc1) (Ha2 & Hb2 & Hc2) Heq. assert (forall x n, x = 45 \/ x = 93 -> x ∉ format_hex n) as Hno.
  { intros x n Hx Hin. apply format_radix_chars in Hin; lia. }
  unfold object_path in Heq. apply app_inv_head in Heq.
  apply (split_at_first 45) in Heq as [Ha Heq]; [|apply Hno; lia..]. injection Heq as Heq.
  apply (split_at_first 45) in Heq as [Hb Heq]; [|apply Hno; lia..]. injection Heq as Heq.
  apply (split_at_first 93) in Heq as [Hc _]; [|apply Hno; lia..].
  assert (2 <= 16 <= 16) as Hradix by lia. apply (format_radix_inj 16 Hradix) in Ha, Hb, Hc; [|done..]. destruct i1, i2. cbn in *. congruence.
Qed.

(** ** What the recorder has seen of the registry *)

(** Ranges with their ends and paths. *)
Abbreviation range_view := (gmap Z (Z * list Z)).

(** The recorder's ranges between a change of the registry and the next drain. *)
Record tracks (V : range_view) (g : Registry) : Prop := {
  tr_words : forall id, is_Some (rg_objects g !! id) \/ id ∈ rg_stale_paths g -> id_words id;
  tr_entries : forall a e p, V !! a = Some (e, p) -> exists id, p = object_path id /\
    (id ∈ rg_stale_paths g \/ exists o, rg_objects g !! id = Some o /\ jo_symbols o = None /\ (a, e) ∈ jo_code_ranges o);
  tr_published : forall id o, rg_objects g !! id = Some o -> jo_symbols o = None ->
    id ∉ rg_stale_paths g /\ forall r, r ∈ jo_code_ranges o -> V !! r.1 = Some (r.2, object_path id);
  tr_quiet : rg_updates_pending g = false -> rg_stale_paths g = ∅ /\ forall id o, rg_objects g !! id = Some o -> object_pending o = false;
}.

Section tracking.
Context (V : range_view).

Lemma tracks_core g g' : same_core g g' -> tracks V g -> tracks V g'.
Proof. intros [Ho _ Hs Hp] [Hw He Hpub Hq]. split; rewrite ?Ho, ?Hs, ?Hp; done. Qed.

Lemma tracks_clear g : tracks V g -> tracks V (clear_objects g).
Proof.
  intros [Hw He Hpub Hq]. split; cbn.
  - intros id [[o Ho]|[Hin|Hin]%elem_of_union]; [by rewrite lookup_empty in Ho|apply Hw; by right|apply Hw; left; by apply elem_of_dom].
  - intros a e p (id & -> & Hid)%He. exists id. split; [done|]. left. apply elem_of_union.
    destruct Hid as [|(o & Ho & _)]; [by left|right; apply elem_of_dom; by eexists].
  - intros id o. by rewrite lookup_empty.
  - intros [Hp Hempty]%orb_false_iff. apply negb_false_iff, bool_decide_eq_true in Hempty. destruct (Hq Hp) as [-> _].
    rewrite Hempty, dom_empty_L. split; [set_solver|]. intros id o. by rewrite lookup_empty.
Qed.

Lemma tracks_retire entries invalidated g id : tracks V g -> tracks V (retire_one entries invalidated g id).
Proof.
  intros [Hw He Hpub Hq]. unfold retire_one. destruct (rg_objects g !! id) as [o|] eqn:Ho; [|by split]. case_match; [by split|]. split; cbn; [..|done].
  - intros i [[p [_ Hp]%lookup_delete_Some]|[->%elem_of_singleton|Hin]%elem_of_union]; apply Hw; eauto.
  - intros a e p (i & -> & Hi)%He. exists i. split; [done|]. destruct (decide (i = id)) as [->|Hne]; [left; set_solver|].
    destruct Hi as [Hin|(o' & Ho' & Hrest)]; [left; set_solver|right]. exists o'. by rewrite lookup_delete_ne.
  - intros i o' [Hne Ho']%lookup_delete_Some Hs. destruct (Hpub i o' Ho' Hs) as [Hnot Hr]. split; [set_solver|done].
Qed.

(** An object changes its unwind data. *)
Lemma tracks_replace g id o o' code_ranges pending :
  tracks V g -> rg_objects g !! id = Some o -> jo_symbols o' = jo_symbols o -> jo_code_ranges o' = jo_code_ranges o ->
  (pending = false -> rg_updates_pending g = false /\ object_pending o' = object_pending o) ->
  tracks V (set_pending (rg_stale_paths g) pending (set_objects (<[id := o']> (rg_objects g)) code_ranges g)).
Proof.
  intros [Hw He Hpub Hq] Ho Hs Hr Hp. split; cbn.
  - intros i [[p [[<- <-]|[_ Hi]]%lookup_insert_Some]|Hin]; apply Hw; eauto.
  - intros a e p (i & -> & Hi)%He. exists i. split; [done|]. destruct Hi as [|(p & Hi & Hsym & Hin)]; [by left|right].
    destruct (decide (i = id)) as [->|Hne]; [exists o'; rewrite lookup_insert_eq|exists p; by rewrite lookup_insert_ne].
    rewrite Ho in Hi. injection Hi as <-. rewrite Hs, Hr. done.
  - intros i p [[<- <-]|[_ Hi]]%lookup_insert_Some Hsym; [|by apply Hpub]. rewrite Hr. apply Hpub; [done|congruence].
  - intros Hfalse. destruct (Hp Hfalse) as [Hg Hsame]. destruct (Hq Hg) as [Hst Hall]. split; [done|].
    intros i p [[<- <-]|[_ Hi]]%lookup_insert_Some; [rewrite Hsame; by apply (Hall id)|by apply (Hall i)].
Qed.

Lemma tracks_limited g id : tracks V g -> tracks V (set_objects (alter mark_limited id (rg_objects g)) (rg_code_ranges g) g).
Proof.
  intros Ht. destruct (rg_objects g !! id) as [o|] eqn:Ho.
  - rewrite (alter_present _ _ _ _ Ho). eapply tracks_core; [|by apply (tracks_replace g id o (mark_limited o) (rg_code_ranges g) (rg_updates_pending g))]. done.
  - rewrite alter_id' by done. by apply (tracks_core g).
Qed.

Lemma tracks_failed poll g check : tracks V g -> tracks V (failed_check poll g check).
Proof.
  intros Ht. destruct check as [id []]; [|by apply (tracks_core g)].
  eapply tracks_core; [|by apply (tracks_limited g id)]. done.
Qed.

Lemma tracks_unwind g u : tracks V g -> tracks V (apply_unwind_update g u).
Proof.
  intros Ht. unfold apply_unwind_update. destruct (rg_objects g !! u.1) as [o|] eqn:Ho; [|done].
  eapply tracks_core; [|by apply (tracks_replace g u.1 o (apply_unwind u.2 o) (rg_code_ranges g) true)]. done.
Qed.

Lemma tracks_install poll g id o :
  tracks V g -> rg_objects g !! id = None -> id_words id -> (forall x, o = Some x -> is_Some (jo_symbols x)) -> tracks V (install_one poll g (id, o)).
Proof.
  intros [Hw He Hpub Hq] Hnew Hid Hsym. unfold install_one. destruct o as [o|]; [|by apply (tracks_core g)].
  case_match; [by apply (tracks_core g)|]. split; cbn; [..|done].
  - intros i [[p [[<- _]|[_ Hi]]%lookup_insert_Some]|Hin]; [done|apply Hw; eauto..].
  - intros a e p (i & -> & Hi)%He. exists i. split; [done|]. destruct Hi as [|(p & Hi & Hrest)]; [by left|right].
    exists p. rewrite lookup_insert_ne; [done|congruence].
  - intros i p [[<- <-]|[_ Hi]]%lookup_insert_Some Hs; [|by apply Hpub]. destruct (Hsym o eq_refl). congruence.
Qed.

Context (elf_parse : list Z -> option ParsedElf) (fingerprint : list Z -> Z).
Hypothesis Helf : forall data elf s, elf_parse data = Some elf -> s ∈ pe_sections elf -> 0 <= sec_size s.

(** The registration list that was read holds machine words. *)
Definition entry_words (w : JitWorld) : Prop :=
  forall entries address entry, jw_entries w = inr entries -> entries !! address = Some entry -> id_words (object_id_new address entry).

Lemma tracks_settle poll order entries s g : tracks V g -> tracks V (settle_objects poll order entries s g).
Proof.
  intros Ht. unfold settle_objects. apply (foldl_keeps (tracks V)); [|intros; by apply tracks_unwind].
  apply (foldl_keeps (tracks V)); [|intros; by apply tracks_failed]. apply (foldl_keeps (tracks V)); [|intros g' i _; by apply tracks_core].
  eapply tracks_core; [|apply (foldl_keeps (tracks V) (retire_one entries (ip_invalidated s)) order g Ht)]; [done|]. intros g' i _. apply tracks_retire.
Qed.

Lemma tracks_install_all poll updates g :
  NoDup updates.*1 -> (forall id o, (id, o) ∈ updates -> rg_objects g !! id = None /\ id_words id) ->
  (forall id o, (id, Some o) ∈ updates -> is_Some (jo_symbols o)) -> tracks V g -> tracks V (foldl (install_one poll) g updates).
Proof.
  revert g. induction updates as [|[id o] updates IH]; intros g Hnd Hnew Hsym Ht; [done|]. cbn [foldl]. apply NoDup_cons in Hnd as [Hnot Hnd].
  destruct (Hnew id o ltac:(by left)) as [Hid Hword]. apply IH; [done| | |].
  - intros i p Hin. destruct (Hnew i p ltac:(by right)) as [Hi Hw]. split; [|done].
    assert (i <> id) as Hne by (intros ->; apply Hnot, list_elem_of_fmap; by exists (id, p)).
    unfold install_one. destruct o as [o|]; [|done]. case_match; [done|]. cbn. by rewrite lookup_insert_ne.
  - intros i p Hin. apply (Hsym i). by right.
  - apply tracks_install; [done..|]. intros x ->. apply (Hsym id). by left.
Qed.

Lemma registry_refresh_tracks w generation modules g :
  entry_words w -> walks (jw_order w) g -> registry_ranges g -> tracks V g -> tracks V (registry_refresh elf_parse fingerprint w generation modules g).
Proof.
  intros Hent Hw Hr Ht. apply (registry_refresh_keeps elf_parse fingerprint (λ g, registry_ranges g /\ tracks V g)); [..|done|done].
  - intros g1 g2 Hc [Hr1 Ht1]. split; [|by apply (tracks_core g1)]. destruct Hc as [Ho Hc _ _]. unfold registry_ranges. by rewrite Ho, Hc.
  - intros poll entries changed revalidate updates remaining' g1 s He Hw1 [Hr1 Ht1] Hl.
    assert (inspected w g1 entries (jw_order w) s) as Hs by apply inspect_all_inspected, Hw1.
    split; [by eapply commit_objects_ranges|]. destruct (load_all_ids elf_parse fingerprint Helf _ _ _ _ _ Hl) as [Hids _].
    apply tracks_install_all; [rewrite Hids; apply pending_ids_nodup| | |by apply tracks_settle].
    + intros id o Hin. split; [by eapply commit_fresh|]. assert (id ∈ pending_ids g1 entries (ip_invalidated s) poll) as Hp.
      { rewrite <-Hids. apply list_elem_of_fmap. by exists (id, o). }
      unfold pending_ids in Hp. rewrite sort_by_key_perm in Hp. apply list_elem_of_omap in Hp as ([a e] & Hae%elem_of_map_to_list & [-> _]%pending_id_spec).
      by eapply Hent.
    + intros id o Hin. destruct (load_all_loaded _ _ _ _ _ _ _ _ _ Hl Hin) as (r & r' & Hload). by eapply object_load_ok in Hload as [_ ?].
  - intros g1 [_ Ht1]. split; [exact ranges_ok_empty|by apply tracks_clear].
Qed.

Lemma refresh_for_address_tracks w address g : tracks V g -> tracks V (refresh_for_address fingerprint w address g).2.
Proof.
  intros Ht. destruct (refresh_for_address_cases fingerprint w address g) as (Hc & Hst & [[Ho Hp]|[(id & Ho & Hp)|(id & o & u & r & Hid & Ho & Hp & _)]]).
  - apply (tracks_core g); [|done]. by split.
  - eapply tracks_core; [|apply (tracks_limited g id Ht)]. split; cbn; congruence.
  - eapply tracks_core; [|apply (tracks_unwind g (id, u) Ht)]. unfold apply_unwind_update. cbn. rewrite Hid. by split.
Qed.
End tracking.

(** ** What applying updates does *)

Definition view (code_ranges : gmap Z CodeRange) : range_view := (λ r, (cr_end r, cr_path r)) <$> code_ranges.
Definition keep_paths (retired : gset (list Z)) (V : range_view) : range_view := filter (λ p, p.2.2 ∉ retired) V.
Definition add_ranges (path : list Z) (V : range_view) (ranges : list range) : range_view := foldl (λ m r, <[r.1 := (r.2, path)]> m) V ranges.

(** The overlay owns the recorder's ranges. *)
Definition overlay_ok (V : range_view) (u : JitOverlay) : Prop :=
  forall a, ov_jit_ranges u !! a = fst <$> V !! a /\ ov_modules u !! a = (λ v, (a, v.1)) <$> V !! a.

Lemma add_ranges_lookup path V ranges a v :
  NoDup ranges.*1 ->
  add_ranges path V ranges !! a = Some v <-> (exists e, (a, e) ∈ ranges /\ v = (e, path)) \/ (a ∉ ranges.*1 /\ V !! a = Some v).
Proof.
  unfold add_ranges. revert V. induction ranges as [|[s t] ranges IH]; intros V Hnd; cbn [foldl].
  { split; [intros Hv; right; split; [by intros ?%elem_of_nil|done]|]. intros [(e & []%elem_of_nil & _)|[_ ?]]. done. }
  rewrite fmap_cons in Hnd |- *. apply NoDup_cons in Hnd as [Hs Hnd]. cbn [fst snd] in *. rewrite IH, lookup_insert_Some, not_elem_of_cons by done.
  setoid_rewrite elem_of_cons. split.
  - intros [(e & Hin & ->)|[Hnot [[<- <-]|[Hne Hv]]]]; [left; eauto|left; eauto|right]. done.
  - intros [(e & [[= -> ->]|Hin] & ->)|[[Hne Hnot] Hv]]; [right|left; eauto|right; split; [done|right; by split]]. split; [done|by left].
Qed.

Lemma remove_all_lookup gone u a :
  ov_jit_ranges (foldl (λ u (p : Z * CodeRange), remove_jit_module p.1 u) u gone) !! a = (if bool_decide (a ∈ gone.*1) then None else ov_jit_ranges u !! a)
  /\ ov_modules (foldl (λ u (p : Z * CodeRange), remove_jit_module p.1 u) u gone) !! a = (if bool_decide (a ∈ gone.*1) then None else ov_modules u !! a).
Proof.
  revert u. induction gone as [|p gone IH]; intros u; [done|]. cbn [foldl]. destruct (IH (remove_jit_module p.1 u)) as [-> ->]. cbn.
  assert (bool_decide (a ∈ p.1 :: gone.*1) = bool_decide (a = p.1) || bool_decide (a ∈ gone.*1)) as ->.
  { rewrite <-bool_decide_or. apply bool_decide_ext, elem_of_cons. }
  destruct (decide (a = p.1)) as [->|Hne].
  - rewrite (bool_decide_eq_true_2 (p.1 = p.1)) by done. cbn [orb]. rewrite !lookup_delete_eq. by case_bool_decide.
  - rewrite (bool_decide_eq_false_2 _ Hne). cbn [orb]. by rewrite !lookup_delete_ne by done.
Qed.

Lemma retire_ranges_spec code_ranges retired u :
  overlay_ok (view code_ranges) u ->
  exists code_ranges' u', retire_ranges (code_ranges, retired, u) = (code_ranges', ∅, u')
    /\ view code_ranges' = keep_paths retired (view code_ranges) /\ overlay_ok (view code_ranges') u'.
Proof.
  intros Hu. unfold retire_ranges. case_bool_decide as Hr.
  { subst retired. exists code_ranges, u. split_and!; [done| |done]. symmetry. apply map_filter_id. intros a v _. apply not_elem_of_empty. }
  eexists _, _. split; [done|]. assert (view (filter (λ p, cr_path p.2 ∉ retired) code_ranges) = keep_paths retired (view code_ranges)) as Hview.
  { apply map_eq. intros a. apply option_eq. intros v. unfold view, keep_paths. rewrite lookup_fmap, map_lookup_filter_Some, lookup_fmap, fmap_Some.
    setoid_rewrite map_lookup_filter_Some. rewrite fmap_Some. cbn. naive_solver. }
  split; [done|]. rewrite Hview. intros a. destruct (remove_all_lookup (filter (λ p, cr_path p.2 ∈ retired) (map_to_list code_ranges)) u a) as [-> ->].
  destruct (Hu a) as [-> ->]. unfold keep_paths, view. rewrite map_lookup_filter, lookup_fmap. destruct (code_ranges !! a) as [r|] eqn:Ha.
  - assert (bool_decide (a ∈ (filter (λ p, cr_path p.2 ∈ retired) (map_to_list code_ranges)).*1) = bool_decide (cr_path r ∈ retired)) as ->.
    { apply bool_decide_ext. rewrite list_elem_of_fmap. split.
      - intros ([a' r'] & -> & [Hin He%elem_of_map_to_list]%list_elem_of_filter). cbn in *. congruence.
      - intros Hin. exists (a, r). split; [done|]. apply list_elem_of_filter. split; [done|by apply elem_of_map_to_list]. }
    cbn. case_bool_decide as Hin; case_guard; done.
  - cbn. by case_bool_decide.
Qed.

Section applying.
Context {S : Type} `{ModuleSink S}.

Lemma record_modules_spec pid path symbols modules c retired u t c' retired' u' t' :
  record_modules pid path symbols modules ((c, retired, u), t) = (Ok tt, ((c', retired', u'), t')) ->
  view c' = add_ranges path (view c) modules /\ retired' = retired /\ u' = u.
Proof.
  revert c t. induction modules as [|r modules IH]; intros c t Hrun; cbn [record_modules] in Hrun; [by injection Hrun as <- <- <- _|].
  apply io_bind_inv in Hrun as (recorded & s1 & H1 & Hrun). unfold io_lift in H1. injection H1 as _ <-.
  apply io_bind_inv in Hrun as (pinned & s2 & H2 & Hrun). unfold to_table, io_zoom in H2. cbn [snd fst] in H2.
  destruct (record_pinned_module _ t) as [res t2]. injection H2 as _ <-.
  apply io_bind_inv in Hrun as ([] & s3 & H3 & Hrun). unfold on_local, io_modify in H3. cbn in H3. injection H3 as <-.
  apply IH in Hrun as (Hv & -> & ->). split_and!; [|done..]. rewrite Hv. unfold view. by rewrite fmap_insert.
Qed.

Lemma overlay_add V u ranges path :
  overlay_ok V u -> overlay_ok (add_ranges path V ranges) (foldl (λ u m, add_jit_module m u) u ranges).
Proof.
  revert V u. induction ranges as [|r ranges IH]; intros V u Hu; [done|]. cbn [foldl add_ranges]. apply IH. intros a. destruct (Hu a) as [Hj Hm]. cbn.
  destruct (decide (r.1 = a)) as [<-|Hne].
  - rewrite !lookup_insert_eq. split; [done|]. cbn. by destruct r.
  - by rewrite !lookup_insert_ne, ?lookup_delete_ne.
Qed.

Lemma overlay_again V u ranges :
  overlay_ok V u -> (forall r, r ∈ ranges -> exists p, V !! r.1 = Some (r.2, p)) -> overlay_ok V (foldl (λ u m, add_jit_module m u) u ranges).
Proof.
  revert u. induction ranges as [|r ranges IH]; intros u Hu Hr; [done|]. cbn [foldl]. apply IH; [|intros r' Hr'; apply Hr; by right].
  destruct (Hr r ltac:(by left)) as [p Hp]. intros a. destruct (Hu a) as [Hj Hm]. cbn. destruct (decide (r.1 = a)) as [<-|Hne].
  - rewrite !lookup_insert_eq, Hp. split; [done|]. cbn. by destruct r.
  - by rewrite !lookup_insert_ne, ?lookup_delete_ne.
Qed.

(** The ranges once the collected retirements are made. *)
Record local_ok (E : range_view) (s : gmap Z CodeRange * gset (list Z) * JitOverlay) : Prop := {
  lo_view : keep_paths s.1.2 (view s.1.1) = E;
  lo_overlay : overlay_ok (view s.1.1) s.2;
}.

Lemma apply_removed pid id E s t s' t' :
  local_ok E s -> apply_update pid (Removed id) (s, t) = (Ok tt, (s', t')) -> local_ok (filter (λ p, p.2.2 <> object_path id) E) s'.
Proof.
  intros [HE Hu] Hrun. destruct s as [[c retired] u]. unfold apply_update, on_local, io_modify in Hrun. cbn [fst snd] in *. revert Hrun.
  generalize (object_path id) as path. intros path Hrun. injection Hrun as <- <-. split; [|done]. cbn [fst snd]. subst E. unfold keep_paths. apply map_eq. intros a. apply option_eq. intros v. rewrite !map_lookup_filter_Some. cbn [fst snd].
  rewrite not_elem_of_union, not_elem_of_singleton. tauto.
Qed.

Lemma apply_loaded pid id modules symbols E s t s' t' :
  local_ok E s -> (symbols = None -> forall r, r ∈ modules -> exists p, E !! r.1 = Some (r.2, p)) ->
  apply_update pid (Loaded id modules symbols) (s, t) = (Ok tt, (s', t')) ->
  local_ok (match symbols with Some _ => add_ranges (object_path id) E modules | None => E end) s'.
Proof.
  intros [HE Hu] Hnone Hrun. destruct s as [[c retired] u]. cbn [fst snd] in HE, Hu. unfold apply_update in Hrun.
  apply io_bind_inv in Hrun as ([] & s1 & H1 & Hrun). unfold on_local, io_modify in H1. cbn [fst snd] in H1.
  destruct (retire_ranges_spec c retired u Hu) as (c1 & u1 & Hret & Hview & Hu1). rewrite Hret in H1. injection H1 as <-.
  apply io_bind_inv in Hrun as ([] & s2 & H2 & Hrun). rewrite HE in Hview. rewrite Hview in Hu1.
  assert (exists c2 t2, s2 = ((c2, ∅, u1), t2) /\ view c2 = match symbols with Some _ => add_ranges (object_path id) E modules | None => E end) as (c2 & t2 & -> & Hc2).
  { destruct symbols as [symbols|]; [|injection H2 as <-; by exists c1, t].
    apply io_bind_inv in H2 as (p & s3 & H3 & H2). unfold io_lift in H3. injection H3 as _ <-.
    destruct s2 as [[[c2 r2] u2] t2]. apply record_modules_spec in H2 as (Hc2 & -> & ->). exists c2, t2. by rewrite Hc2, Hview. }
  unfold on_local, io_modify in Hrun. cbn [fst snd] in Hrun. injection Hrun as <- <-. split; cbn [fst snd].
  - rewrite Hc2. apply map_filter_id. intros a v _. apply not_elem_of_empty.
  - rewrite Hc2. destruct symbols as [symbols|]; [by apply overlay_add|]. apply overlay_again; [done|by apply Hnone].
Qed.

(** *** A whole drain *)

Lemma apply_removed_all pid E stale s t updates s' t' :
  local_ok E s -> apply_all pid (map Removed stale ++ updates) (s, t) = (Ok tt, (s', t')) ->
  exists s1 t1, local_ok (filter (λ p, p.2.2 ∉ object_path <$> stale) E) s1 /\ apply_all pid updates (s1, t1) = (Ok tt, (s', t')).
Proof.
  revert E s t. induction stale as [|id stale IH]; intros E s t Hs Hrun.
  { exists s, t. split; [|done]. rewrite map_filter_id; [done|]. intros a v _. apply not_elem_of_nil. }
  cbn [map app apply_all] in Hrun. apply io_bind_inv in Hrun as ([] & [s1 t1] & H1 & Hrun). apply (apply_removed _ _ E) in H1; [|done].
  destruct (IH _ _ _ H1 Hrun) as (s2 & t2 & H2 & Hrest). exists s2, t2. split; [|done].
  destruct H2 as [HE Hu]. split; [|done]. rewrite HE. apply map_eq. intros a. apply option_eq. intros v. rewrite !map_lookup_filter_Some. cbn [fst snd].
  rewrite fmap_cons, not_elem_of_cons. tauto.
Qed.

(** The ranges of the objects that are published or already applied. *)
Definition covers (E : range_view) (objects : gmap JitObjectId JitObject) (applied : list JitObjectId) : Prop :=
  forall a e p, E !! a = Some (e, p) <->
    exists id o, objects !! id = Some o /\ p = object_path id /\ (a, e) ∈ jo_code_ranges o /\ (jo_symbols o = None \/ id ∈ applied).

Lemma covers_add g E applied id o symbols :
  registry_ranges g -> covers E (rg_objects g) applied -> rg_objects g !! id = Some o -> jo_symbols o = Some symbols ->
  covers (add_ranges (object_path id) E (jo_code_ranges o)) (rg_objects g) (applied ++ [id]).
Proof.
  intros Hr Hc Ho Hs a e p. rewrite add_ranges_lookup by (eapply separated_starts, oo_separated, ro_objects; done). split.
  - intros [(e' & Hin & [= -> ->])|[_ (i & o' & Hi & -> & Hin & Hcase)%Hc]].
    + exists id, o. split_and!; [done..|]. right. apply elem_of_app. right. by left.
    + exists i, o'. split_and!; [done..|]. rewrite elem_of_app. tauto.
  - intros (i & o' & Hi & -> & Hin & Hcase). destruct (decide (i = id)) as [->|Hne].
    + left. exists e. rewrite Ho in Hi. injection Hi as <-. done.
    + right. split.
      * intros ([a' e'] & -> & Hin')%list_elem_of_fmap. cbn in Hin.
        assert (rg_code_ranges g !! a' = Some (e', id)) as H1 by (apply Hr; eauto). assert (rg_code_ranges g !! a' = Some (e, i)) as H2 by (apply Hr; eauto).
        congruence.
      * apply Hc. exists i, o'. split_and!; [done..|]. rewrite elem_of_app, list_elem_of_singleton in Hcase. tauto.
Qed.

Lemma covers_known E objects applied id o :
  covers E objects applied -> objects !! id = Some o -> jo_symbols o = None -> covers E objects (applied ++ [id]).
Proof.
  intros Hc Ho Hs a e p. rewrite (Hc a e p). split; intros (i & o' & Hi & -> & Hin & Hcase); exists i, o'; (split_and!; [done..|]).
  - rewrite elem_of_app. tauto.
  - rewrite elem_of_app, list_elem_of_singleton in Hcase. destruct Hcase as [?|[?| ->]]; [by left|by right|]. left. congruence.
Qed.

Lemma covers_idle E objects applied id : objects !! id = None -> covers E objects applied -> covers E objects (applied ++ [id]).
Proof.
  intros Hn Hc a e p. rewrite (Hc a e p). split; intros (i & o' & Hi & -> & Hin & Hcase); exists i, o'; (split_and!; [done..|]).
  - rewrite elem_of_app. tauto.
  - rewrite elem_of_app, list_elem_of_singleton in Hcase. destruct Hcase as [?|[?| ->]]; [by left|by right|]. congruence.
Qed.

Lemma apply_loaded_all pid g E applied order s t s' t' :
  registry_ranges g -> covers E (rg_objects g) applied -> local_ok E s ->
  apply_all pid (load_updates order (rg_objects g)) (s, t) = (Ok tt, (s', t')) ->
  exists E', covers E' (rg_objects g) (applied ++ order) /\ local_ok E' s'.
Proof.
  intros Hr. revert E applied s t. induction order as [|id order IH]; intros E applied s t Hc Hs Hrun.
  { injection Hrun as <- <-. exists E. by rewrite app_nil_r. }
  assert (applied ++ id :: order = (applied ++ [id]) ++ order) as -> by (by rewrite <-app_assoc).
  unfold load_updates in Hrun. cbn [omap list_omap] in Hrun. destruct (rg_objects g !! id) as [o|] eqn:Ho; cbn [mbind option_bind] in Hrun.
  2:{ eapply (IH E); [by apply covers_idle|done|exact Hrun]. }
  destruct (ro_objects _ _ Hr _ _ Ho) as [Hsep Hmod]. destruct (object_pending o) eqn:Hp.
  - cbn [apply_all] in Hrun. apply io_bind_inv in Hrun as ([] & [s1 t1] & H1 & Hrun).
    apply (apply_loaded _ _ _ _ E) in H1; [|done|].
    2:{ intros Hn r Hin. destruct Hmod as [Heq|[Heq _]]; rewrite Heq in Hin; [|by apply elem_of_nil in Hin]. exists (object_path id).
        apply Hc. exists id, o. destruct r. split_and!; [done..|by left]. }
    eapply (IH _ (applied ++ [id])); [|exact H1|exact Hrun]. destruct (jo_symbols o) as [symbols|] eqn:Hsym; [|by eapply covers_known].
    destruct Hmod as [->|[_ ?]]; [|done]. by eapply covers_add.
  - eapply (IH E); [|done|exact Hrun]. apply orb_false_iff in Hp as [_ Hp]. apply bool_decide_eq_false, eq_None_not_Some in Hp. by eapply covers_known.
Qed.

Lemma covers_published V g (stale : list JitObjectId) :
  tracks V g -> (forall id, id ∈ stale <-> id ∈ rg_stale_paths g) -> covers (filter (λ p, p.2.2 ∉ object_path <$> stale) V) (rg_objects g) [].
Proof.
  intros [Hw He Hpub _] Hst a e p. rewrite map_lookup_filter_Some. cbn [fst snd]. split.
  - intros [(id & -> & Hcase)%He Hnot]. destruct Hcase as [Hin|(o & Ho & Hs & Hin)]; [|exists id, o; split_and!; [done..|by left]].
    destruct Hnot. apply list_elem_of_fmap. exists id. by rewrite Hst.
  - intros (id & o & Ho & -> & Hin & [Hs|[]%elem_of_nil]). destruct (Hpub id o Ho Hs) as [Hnot Hr]. split; [by apply (Hr (a, e))|].
    intros (i & Heq & Hi%Hst)%list_elem_of_fmap. apply object_path_inj in Heq as ->; [done|apply Hw; eauto..].
Qed.

Lemma tracks_drained E g g' order :
  (forall id, is_Some (rg_objects g !! id) -> id_words id /\ id ∈ order) -> covers E (rg_objects g) order ->
  rg_objects g' = ((λ o, if object_pending o then object_published o else o) <$> rg_objects g) -> rg_stale_paths g' = ∅ -> tracks E g'.
Proof.
  intros Hw Hc Ho Hs. assert (forall o, object_pending (if object_pending o then object_published o else o) = false) as Hnp by (intros o; by destruct (object_pending o) eqn:?).
  assert (forall o, jo_symbols (if object_pending o then object_published o else o) = None) as Hsym.
  { intros o. specialize (Hnp o). apply orb_false_iff in Hnp as [_ Hnp]. by apply bool_decide_eq_false, eq_None_not_Some in Hnp. }
  assert (forall o, jo_code_ranges (if object_pending o then object_published o else o) = jo_code_ranges o) as Hcr by (intros o; by destruct (object_pending o)).
  split; rewrite ?Ho, ?Hs.
  - intros id [[o (o' & _ & Hid)%lookup_fmap_Some]|[]%elem_of_empty]. apply Hw. eauto.
  - intros a e p (id & o & Hid & -> & Hin & _)%Hc. exists id. split; [done|]. right. eexists. rewrite lookup_fmap, Hid. cbn [fmap option_fmap option_map]. split; [done|]. by rewrite Hsym, Hcr.
  - intros id o (o' & <- & Hid)%lookup_fmap_Some _. split; [apply not_elem_of_empty|]. rewrite Hcr. intros [a e] Hin. apply Hc. exists id, o'.
    split_and!; [done..|]. right. apply Hw. eauto.
  - intros _. split; [done|]. intros id o (o' & <- & Hid)%lookup_fmap_Some. apply Hnp.
Qed.

(** The recorder in step with its registry. *)
Record in_step (code_ranges : gmap Z CodeRange) (u : JitOverlay) (g : Registry) : Prop := {
  is_ranges : registry_ranges g;
  is_tracks : tracks (view code_ranges) g;
  is_overlay : overlay_ok (view code_ranges) u;
}.

Lemma apply_updates_spec pid stale_order order j u t g j' u' t' :
  jr_registry j = Some g -> in_step (jr_code_ranges j) u g -> Permutation stale_order (elements (rg_stale_paths g)) -> walks order g ->
  apply_updates pid stale_order order (j, u, t) = (Ok tt, (j', u', t')) ->
  exists g', jr_registry j' = Some g' /\ in_step (jr_code_ranges j') u' g' /\ rg_updates_pending g' = false.
Proof.
  intros Hj [Hr Ht Hu] Hst [_ Hdom] Hrun. unfold apply_updates in Hrun. rewrite Hj in Hrun.
  pose proof (drain_updates_ranges stale_order order g Hr) as Hdr.
  assert (local_ok (view (jr_code_ranges j)) (jr_code_ranges j, ∅, u)) as Hl.
  { split; [|done]. apply map_filter_id. intros a v _. apply not_elem_of_empty. }
  destruct (drain_updates stale_order order g) as [updates g1] eqn:Hd.
  destruct (apply_all pid updates (jr_code_ranges j, ∅, u, t)) as [res [[[c retired] u1] t1]] eqn:Hall.
  assert (res = Ok tt) as -> by (destruct (retire_ranges (c, retired, u1)) as [[? ?] ?]; by injection Hrun).
  assert (exists E, local_ok E (c, retired, u1) /\ tracks E g1 /\ rg_updates_pending g1 = false) as (E & HE & HtE & Hp).
  { unfold drain_updates in Hd. destruct (rg_updates_pending g) eqn:Hp; cbn [negb] in Hd; injection Hd as <- <-.
    - apply (apply_removed_all _ (view (jr_code_ranges j))) in Hall as (s1 & t2 & Hl1 & Hall); [|done].
      assert (covers (filter (λ p, p.2.2 ∉ object_path <$> stale_order) (view (jr_code_ranges j))) (rg_objects g) []) as Hcov.
      { apply covers_published; [done|]. intros id. rewrite Hst. apply elem_of_elements. }
      destruct (apply_loaded_all _ _ _ _ _ _ _ _ _ Hr Hcov Hl1 Hall) as (E & Hc & HlE).
      exists E. split_and!; [done| |done]. apply (tracks_drained E g _ order); [|done..]. intros id Hid. split; [|by apply Hdom]. apply Ht. by left.
    - injection Hall as <- <- <- <-. exists (view (jr_code_ranges j)). done. }
  destruct HE as [HE HuE]. destruct (retire_ranges_spec c retired u1 HuE) as (c2 & u2 & Hret & Hv & Hu2). rewrite Hret in Hrun. injection Hrun as <- <- <-.
  exists g1. split_and!; [done| |done]. cbn [fst snd] in HE. split; cbn [jr_code_ranges set_code_ranges]; [done| |done]. by rewrite Hv, HE.
Qed.
End applying.

(** ** Every sequence of calls *)

Section following.
Context {S : Type} `{ModuleSink S}.
Context (elf_parse : list Z -> option ParsedElf) (fingerprint : list Z -> Z) (makedev : Z -> Z -> Z).
(** The ELF reader yields unsigned sizes. *)
Hypothesis Helf : forall data elf s, elf_parse data = Some elf -> s ∈ pe_sections elf -> 0 <= sec_size s.

(** The answers of one call: the orders are those of the hash tables that are walked. *)
Definition poll_ok (w : PollWorld) (before after : Registry) : Prop :=
  entry_words (pw_jit w) /\ walks (jw_order (pw_jit w)) before
  /\ Permutation (pw_stale_order w) (elements (rg_stale_paths after)) /\ walks (pw_order w) after.

Definition refreshed (w : PollWorld) (j : JitRecorder) : JitRecorder :=
  let j := read_maps makedev w j in
  match jr_registry j with
  | None => j
  | Some registry =>
      set_registry (Some (registry_refresh elf_parse fingerprint (pw_jit w) (jr_generation j) (registry_mapping <$> jr_mappings j) registry)) j
  end.

(** A call that succeeds. *)
Inductive recorder_step : JitRecorder * JitOverlay * (ModuleTable * S) -> JitRecorder * JitOverlay * (ModuleTable * S) -> Prop :=
  | step_poll pid w j u t s :
      (forall before after, jr_registry (read_maps makedev w j) = Some before -> jr_registry (refreshed w j) = Some after -> poll_ok w before after) ->
      recorder_refresh elf_parse fingerprint makedev pid w (j, u, t) = (Ok tt, s) -> recorder_step (j, u, t) s
  | step_frame address pid w changed j u t s :
      (forall before, jr_registry j = Some before -> poll_ok w before (refresh_for_address fingerprint (pw_jit w) address before).2) ->
      refresh_for_frame fingerprint address pid w (j, u, t) = (Ok changed, s) -> recorder_step (j, u, t) s
  | step_mappings j u t : recorder_step (j, u, t) (mappings_changed j, u, t).

Definition recorder_ok (j : JitRecorder) (u : JitOverlay) : Prop :=
  match jr_registry j with
  | None => jr_code_ranges j = ∅ /\ overlay_ok ∅ u
  | Some g => in_step (jr_code_ranges j) u g /\ rg_updates_pending g = false
  end.

Lemma read_maps_ok w j u : recorder_ok j u -> recorder_ok (read_maps makedev w j) u.
Proof.
  intros Hok. unfold read_maps. match goal with |- context [if ?b then _ else j] => destruct b end; [|done].
  destruct (pw_maps w) as [regions|]; [|exact Hok]. unfold recorder_ok in *. cbn.
  destruct (jr_registry j) as [g|] eqn:Hg; [done|]. destruct Hok as [Hc Hu]. cbn. split; [|done]. rewrite Hc. split; [exact ranges_ok_empty| |done].
  split; cbn; [|done| |done].
  - intros id [[o Ho]|Hin]; [by rewrite lookup_empty in Ho|set_solver].
  - intros id o. by rewrite lookup_empty.
Qed.

Lemma applied_ok pid so o j u t g result s :
  jr_registry j = Some g -> in_step (jr_code_ranges j) u g -> Permutation so (elements (rg_stale_paths g)) -> walks o g ->
  apply_updates pid so o (j, u, t) = (Ok result, s) -> recorder_ok s.1.1 s.1.2.
Proof.
  intros Hj Hin Hso Ho Hrun. destruct result, s as [[j' u'] t']. destruct (apply_updates_spec _ _ _ _ _ _ _ _ _ _ Hj Hin Hso Ho Hrun) as (g' & Hj' & Hin' & Hp).
  unfold recorder_ok. cbn. by rewrite Hj'.
Qed.

Lemma recorder_step_ok s s' : recorder_step s s' -> recorder_ok s.1.1 s.1.2 -> recorder_ok s'.1.1 s'.1.2.
Proof.
  intros [pid w j u t s1 Hw Hrun|address pid w changed j u t s1 Hw Hrun|j u t] Hok; cbn [fst snd] in *.
  - apply (read_maps_ok w) in Hok. unfold recorder_refresh in Hrun. unfold refreshed in Hw. unfold recorder_ok in Hok.
    destruct (jr_registry (read_maps makedev w j)) as [g|] eqn:Hg.
    + destruct Hok as [[Hr Ht Hu] _]. destruct (Hw g _ eq_refl eq_refl) as (Hent & Hwalk & Hso & Hord).
      refine (applied_ok _ _ _ _ _ _ _ _ _ _ _ Hso Hord Hrun); [done|].
      split; [by apply registry_refresh_ranges|by apply registry_refresh_tracks|done].
    + unfold apply_updates in Hrun. rewrite Hg in Hrun. injection Hrun as <-. cbn. unfold recorder_ok. by rewrite Hg.
  - unfold refresh_for_frame in Hrun. destruct (recorder_frame j address); [|by injection Hrun as _ <-]. unfold recorder_ok in Hok.
    destruct (jr_registry j) as [g|] eqn:Hg.
    + destruct Hok as [[Hr Ht Hu] _]. destruct (Hw g eq_refl) as (_ & _ & Hso & Hord).
      pose proof (refresh_for_address_ranges fingerprint (pw_jit w) address g Hr) as Hr'.
      pose proof (refresh_for_address_tracks (view (jr_code_ranges j)) fingerprint (pw_jit w) address g Ht) as Ht'.
      destruct (refresh_for_address fingerprint (pw_jit w) address g) as [b g']. apply io_bind_inv in Hrun as (r & s2 & Hrun & Hret). injection Hret as _ <-.
      refine (applied_ok _ _ _ _ _ _ _ _ _ _ _ Hso Hord Hrun); [done|]. by split.
    + apply io_bind_inv in Hrun as (r & s2 & Hrun & Hret). injection Hret as _ <-. unfold apply_updates in Hrun. rewrite Hg in Hrun.
      injection Hrun as _ <-. cbn. unfold recorder_ok. by rewrite Hg.
  - exact Hok.
Qed.

(** The search finds a range that holds the address, when there is one. *)
Lemma disjoint_search {A} (m : gmap Z A) (stop : A -> Z) address :
  (forall a v b v', m !! a = Some v -> m !! b = Some v' -> a < b -> stop v <= b) ->
  forall a v, m !! a = Some v -> a <= address < stop v -> range_at m address = Some (a, v).
Proof.
  intros Hdis a v Ha Hin. pose proof (range_at_spec m address) as Hs. destruct (range_at m address) as [[k v']|].
  - destruct Hs as (Hk & Hle & Hmax). specialize (Hmax a ltac:(eauto) ltac:(lia)). destruct (decide (a = k)) as [->|Hne]; [congruence|].
    pose proof (Hdis a v k v' Ha Hk ltac:(lia)). lia.
  - specialize (Hs a ltac:(eauto)). lia.
Qed.

Lemma reachable_ok t0 j u t : rtc recorder_step (recorder_default, mkOverlay ∅ ∅, t0) (j, u, t) -> recorder_ok j u.
Proof.
  intros Hsteps. change (recorder_ok (j, u, t).1.1 (j, u, t).1.2). assert (recorder_ok recorder_default (mkOverlay ∅ ∅)) as Hnew.
  { split; [done|]. intros a. by rewrite !lookup_empty. }
  change (recorder_ok (recorder_default, mkOverlay ∅ ∅, t0).1.1 (recorder_default, mkOverlay ∅ ∅, t0).1.2) in Hnew. revert Hnew.
  induction Hsteps as [|s1 s2 s3 Hstep _ IH]; [done|]. intros Hok. by apply IH, (recorder_step_ok s1).
Qed.

(** The recorder's ranges are the registry's. *)
Lemma in_step_ranges c u g a e p :
  in_step c u g -> rg_updates_pending g = false ->
  view c !! a = Some (e, p) <-> exists id, p = object_path id /\ rg_code_ranges g !! a = Some (e, id).
Proof.
  intros [Hr [Hw He Hpub Hq] _] Hp. destruct (Hq Hp) as [Hst Hall]. split.
  - intros (id & -> & [Hin|(o & Ho & _ & Hin)])%He; [rewrite Hst in Hin; by apply elem_of_empty in Hin|]. exists id. split; [done|]. apply Hr. eauto.
  - intros (id & -> & (o & Ho & Hin)%Hr). assert (jo_symbols o = None) as Hs.
    { pose proof (Hall id o Ho) as Hn. apply orb_false_iff in Hn as [_ Hn]. by apply bool_decide_eq_false, eq_None_not_Some in Hn. }
    by apply (Hpub id o Ho Hs) in Hin.
Qed.

Lemma in_step_disjoint c u g a v b v' :
  in_step c u g -> rg_updates_pending g = false -> c !! a = Some v -> c !! b = Some v' -> a < b -> cr_end v <= b.
Proof.
  intros Hin Hp Ha Hb Hlt. pose proof (in_step_ranges _ _ _ a (cr_end v) (cr_path v) Hin Hp) as [H1 _].
  pose proof (in_step_ranges _ _ _ b (cr_end v') (cr_path v') Hin Hp) as [H2 _]. unfold view in *. rewrite lookup_fmap, Ha in H1. rewrite lookup_fmap, Hb in H2.
  destruct (H1 eq_refl) as (i1 & _ & Hc1), (H2 eq_refl) as (i2 & _ & Hc2). by eapply (ro_apart _ _ (is_ranges _ _ _ Hin)).
Qed.

Lemma range_at_fmap {A B} (f : A -> B) (m : gmap Z A) address : range_at (f <$> m) address = prod_map id f <$> range_at m address.
Proof.
  pose proof (range_at_spec (f <$> m) address) as H1. pose proof (range_at_spec m address) as H2.
  destruct (range_at (f <$> m) address) as [[k e]|], (range_at m address) as [[k' r]|]; cbn; [..|done].
  - destruct H1 as (Hk & Hle & Hmax), H2 as (Hk' & Hle' & Hmax'). rewrite lookup_fmap in Hk. apply fmap_Some in Hk as (r' & Hk & ->).
    pose proof (Hmax k' ltac:(rewrite lookup_fmap, Hk'; eauto) Hle'). pose proof (Hmax' k ltac:(eauto) Hle). assert (k = k') as -> by lia. congruence.
  - destruct H1 as (Hk & Hle & _). rewrite lookup_fmap in Hk. apply fmap_Some in Hk as (r' & Hk & _). specialize (H2 k ltac:(eauto)). lia.
  - destruct H2 as (Hk & Hle & _). specialize (H1 k' ltac:(rewrite lookup_fmap, Hk; eauto)). lia.
Qed.

Lemma overlay_search j u address : overlay_ok (view (jr_code_ranges j)) u -> is_runtime_frame u address = bool_decide (is_Some (recorder_frame j address)).
Proof.
  intros Hu. assert (ov_jit_ranges u = cr_end <$> jr_code_ranges j) as Heq.
  { apply map_eq. intros a. destruct (Hu a) as [-> _]. unfold view. rewrite !lookup_fmap. by destruct (jr_code_ranges j !! a). }
  unfold is_runtime_frame, recorder_frame. rewrite Heq, range_at_fmap. destruct (range_at (jr_code_ranges j) address) as [[a r]|]; cbn; [|done].
  by destruct (address <? cr_end r).
Qed.

(** C31: after any sequence of successful calls, the recorder attributes an
    address to generated code exactly when an object that its registry has
    loaded holds the address, with the offset from the start of that object's
    range; and the unwinder takes the runtime rules for the same addresses. *)
Theorem generated_frames_follow_registry t0 j u t address :
  rtc recorder_step (recorder_default, mkOverlay ∅ ∅, t0) (j, u, t) ->
  (forall f, recorder_frame j address = Some f ->
     exists g id o r, jr_registry j = Some g /\ rg_objects g !! id = Some o /\ r ∈ jo_code_ranges o /\ range_contains r address = true
       /\ f_abs_ip f = address /\ f_file_relative_ip f = address - r.1)
  /\ (forall g id o r, jr_registry j = Some g -> rg_objects g !! id = Some o -> r ∈ jo_code_ranges o -> range_contains r address = true ->
        is_Some (recorder_frame j address))
  /\ is_runtime_frame u address = bool_decide (is_Some (recorder_frame j address)).
Proof.
  intros Hok%reachable_ok. unfold recorder_ok in Hok. destruct (jr_registry j) as [g|] eqn:Hg.
  - destruct Hok as [Hin Hp]. split_and!; [| |apply overlay_search, Hin].
    + unfold recorder_frame. intros f Hf. pose proof (range_at_spec (jr_code_ranges j) address) as Hs.
      destruct (range_at (jr_code_ranges j) address) as [[a r]|]; [|done]. destruct (Z.ltb_spec address (cr_end r)) as [Hlt|]; [|done]. injection Hf as <-.
      destruct Hs as (Ha & Hle & _). pose proof (in_step_ranges _ _ _ a (cr_end r) (cr_path r) Hin Hp) as [H1 _]. unfold view in H1. rewrite lookup_fmap, Ha in H1.
      destruct (H1 eq_refl) as (id & _ & (o & Ho & Hr)%(is_ranges _ _ _ Hin)). exists g, id, o, (a, cr_end r). split_and!; try done.
      unfold range_contains. cbn. rewrite (proj2 (Z.leb_le _ _) Hle), (proj2 (Z.ltb_lt _ _) Hlt). done.
    + intros g' id o [a e] [= <-] Ho Hr Hc. unfold range_contains in Hc. cbn in Hc. rewrite andb_true_iff, Z.leb_le, Z.ltb_lt in Hc.
      assert (view (jr_code_ranges j) !! a = Some (e, object_path id)) as Hv.
      { apply (in_step_ranges _ _ _ _ _ _ Hin Hp). exists id. split; [done|]. apply (is_ranges _ _ _ Hin). eauto. }
      unfold view in Hv. rewrite lookup_fmap in Hv. apply fmap_Some in Hv as (r & Hr' & [= -> _]).
      unfold recorder_frame. rewrite (disjoint_search (jr_code_ranges j) cr_end address (λ a v b v', in_step_disjoint _ _ _ a v b v' Hin Hp) a r Hr') by lia.
      rewrite (proj2 (Z.ltb_lt _ _)) by lia. by eexists.
  - destruct Hok as [Hc Hu]. assert (recorder_frame j address = None) as Hnone by (unfold recorder_frame; by rewrite Hc).
    split_and!; [intros f; by rewrite Hnone|done|]. apply overlay_search. by rewrite Hc.
Qed.
End following.

(** *** A registration that is recorded *)

Definition forgetful_sink : ModuleSink unit := {|
  sink_module := λ _, mret tt; sink_deactivate_process := λ _, mret tt; sink_deactivate_one := λ _, mret tt |}.
Definition sample_id : JitObjectId := object_id_new 64 sample_entry.
Definition sample_poll : PollWorld := mkPollWorld (Some []) 0 0 0 0 jit_sample_world [] [sample_id].
Definition sample_start : JitRecorder * JitOverlay * (ModuleTable * unit) := (recorder_default, mkOverlay ∅ ∅, (table_default, tt)).
Definition sample_run : result unit * (JitRecorder * JitOverlay * (ModuleTable * unit)) :=
  @recorder_refresh unit forgetful_sink sample_parse (λ data, Z.of_nat (length data)) (λ major minor, major * 256 + minor) 7 sample_poll sample_start.

Lemma sample_run_ok : sample_run.1 = Ok tt.
Proof. vm_compute. reflexivity. Qed.

Lemma sample_entry_words : entry_words jit_sample_world.
Proof.
  intros entries address entry [= <-] Hin. apply lookup_singleton_Some in Hin as [<- <-]. vm_compute. repeat split; discriminate.
Qed.

Definition sample_after : Registry :=
  registry_refresh sample_parse (λ data, Z.of_nat (length data)) jit_sample_world 0 [] registry_new.
Lemma sample_after_objects : map_to_list (rg_objects sample_after) = [(sample_id, default (mkObject [] [] None 0 (mkUnwind CfiAbsent None None)) (rg_objects sample_after !! sample_id))]
  /\ elements (rg_stale_paths sample_after) = [].
Proof. split; vm_compute; reflexivity. Qed.

Lemma sample_registries :
  jr_registry (read_maps (λ major minor, major * 256 + minor) sample_poll recorder_default) = Some registry_new
  /\ jr_registry (refreshed sample_parse (λ data, Z.of_nat (length data)) (λ major minor, major * 256 + minor) sample_poll recorder_default) = Some sample_after.
Proof. split; vm_compute; reflexivity. Qed.

Lemma run_eta {A B C} (r : result unit * (A * B * C)) : r.1 = Ok tt -> r = (Ok tt, (r.2.1.1, r.2.1.2, r.2.2)).
Proof. destruct r as [res [[a b] c]]. cbn. by intros ->. Qed.

Lemma sample_elf_sizes data elf s : sample_parse data = Some elf -> s ∈ pe_sections elf -> 0 <= sec_size s.
Proof. intros [= <-] Hs. cbn in Hs. rewrite !elem_of_cons in Hs. destruct Hs as [->|[->|[]%elem_of_nil]]; cbn; lia. Qed.

Lemma sample_poll_ok : poll_ok sample_poll registry_new sample_after.
Proof.
  split_and!; [exact sample_entry_words|split; [constructor|]; intros id [o Ho]; cbn in Ho; by rewrite lookup_empty in Ho| |].
  - rewrite (proj2 sample_after_objects). constructor.
  - split; [repeat constructor; by intros []%elem_of_nil|]. intros id [o Ho%elem_of_map_to_list]. rewrite (proj1 sample_after_objects) in Ho.
    apply list_elem_of_singleton in Ho. injection Ho as -> _. by left.
Qed.

Definition sample_reached : JitRecorder * JitOverlay * (ModuleTable * unit) := (sample_run.2.1.1, sample_run.2.1.2, sample_run.2.2).
#[local] Strategy expand [sample_run sample_start sample_reached].
Lemma sample_run_reached :
  @recorder_refresh unit forgetful_sink sample_parse (λ data, Z.of_nat (length data)) (λ major minor, major * 256 + minor) 7 sample_poll sample_start
  = (Ok tt, sample_reached).
Proof. exact (run_eta sample_run sample_run_ok). Qed.

Lemma sample_premise before after :
  jr_registry (read_maps (λ major minor, major * 256 + minor) sample_poll recorder_default) = Some before ->
  jr_registry (refreshed sample_parse (λ data, Z.of_nat (length data)) (λ major minor, major * 256 + minor) sample_poll recorder_default) = Some after ->
  poll_ok sample_poll before after.
Proof.
  intros Hb Ha. generalize (eq_trans (eq_sym (proj1 sample_registries)) Hb) (eq_trans (eq_sym (proj2 sample_registries)) Ha) sample_poll_ok.
  clear Hb Ha. generalize sample_after, registry_new. congruence.
Qed.

Lemma sample_step :
  @recorder_step unit forgetful_sink sample_parse (λ data, Z.of_nat (length data)) (λ major minor, major * 256 + minor) sample_start sample_reached.
Proof. exact (step_poll _ _ _ 7 sample_poll recorder_default (mkOverlay ∅ ∅) (table_default, tt) sample_reached sample_premise sample_run_reached). Qed.

Lemma generated_frames_follow_registry_witness :
  recorder_frame sample_run.2.1.1 4100 = Some (mkFrame (Some 0) 4 4100 User)
  /\ is_runtime_frame sample_run.2.1.2 4100 = bool_decide (is_Some (recorder_frame sample_run.2.1.1 4100)).
Proof.
  split; [vm_compute; reflexivity|].
  exact (proj2 (proj2 (@generated_frames_follow_registry unit forgetful_sink sample_parse (λ data, Z.of_nat (length data))
    (λ major minor, major * 256 + minor) sample_elf_sizes (table_default, tt) sample_run.2.1.1 sample_run.2.1.2 sample_run.2.2 4100 (rtc_once _ _ sample_step)))).
Defined.
