(* ===== verification/ProcessUnwinder.v ===== *)
(** * The unwind state of a process

    [src/linux/unwind.rs] over framehop's module list, the cache of ELF sections
    and the JIT recorder: which unwind tables a process has, and that they are
    those of its current mappings.  Lists of modules are kept without their
    generation, which CachedUnwind is about. *)

From stdpp Require Import prelude list numbers strings gmap sorting.
From S2P Require Import Prelude Model Contexts ModuleTable AddressSpace TableOps TableMap Mappings.
From S2P Require Import RoundTrip RuleCache SampleStack X86Rules FdeIndex Unwinder CachedUnwind UnwindModules Text ProcMaps.
From S2P Require Import ProcessHandle ProcessTable Lifecycle LifeTrack ElfBase ElfImages ElfCache JitProtocol.
From S2P Require Import JitRegistry JitFrames PythonNames.
#[local] Open Scope Z_scope.

(** ** Unwind information of an image *)

(** The search table of an [.eh_frame_hdr], as the gimli crate reads it; [None]
    is an error. *)
Inductive HdrPointer := PointerDirect (address : Z) | PointerIndirect (address : Z).
Record HdrSearchTable := mkSearchTable {
  ht_entries : list (option (HdrPointer * HdrPointer));
  ht_pointer_to_offset : HdrPointer -> option Z;
  ht_lookup : Z -> option HdrPointer;
}.
Record ParsedEhFrameHdr := mkParsedHdr { hd_eh_frame_ptr : HdrPointer; hd_table : option HdrSearchTable }.
Class HdrReader := eh_frame_hdr_parse : list Z -> BaseAddresses -> Z -> option ParsedEhFrameHdr.

Section frames.
Context `{HdrReader} (g : Gimli).

Definition svma_range (svma : option Z) (data : option ElfSectionData) : option (Z * Z) :=
  start ← svma; data ← data; stop ← checked_add_u64 start (Z.of_nat (length (section_bytes data))); Some (start, stop).

(** One entry of the search table. *)
Definition entry_in_eh_frame (eh_frame : Z * Z) (table : HdrSearchTable) (entry : option (HdrPointer * HdrPointer)) : option unit :=
  '(_, fde_pointer) ← entry;
  match fde_pointer with
  | PointerIndirect _ => None
  | PointerDirect fde =>
      if negb ((eh_frame.1 <=? fde) && (fde <? eh_frame.2)) then None
      else
        offset ← checked_sub_u64 fde eh_frame.1;
        _ ← u32_try_from offset;
        _ ← ht_pointer_to_offset table fde_pointer;
        Some tt
  end.
Fixpoint entries_in_eh_frame (eh_frame : Z * Z) (table : HdrSearchTable) (entries : list (option (HdrPointer * HdrPointer))) : option unit :=
  match entries with
  | [] => Some tt
  | entry :: entries => _ ← entry_in_eh_frame eh_frame table entry; entries_in_eh_frame eh_frame table entries
  end.

Definition eh_frame_hdr_indexes_eh_frame (info : ElfSectionInfo) (addr : Z) (data : ElfSectionData) : option unit :=
  eh_frame ← svma_range (es_eh_frame_svma info) (es_eh_frame info);
  let bases := mkBases (Some (default 0 (es_eh_frame_svma info))) (Some addr) (Some (default 0 (fst <$> il_text_svma (es_layout info))))
                 (Some (default 0 (fst <$> es_got_svma info))) in
  parsed ← eh_frame_hdr_parse (section_bytes data) bases 8;
  match hd_eh_frame_ptr parsed with
  | PointerIndirect _ => None
  | PointerDirect pointer =>
      if negb (pointer =? eh_frame.1) then None
      else
        table ← hd_table parsed;
        _ ← entries_in_eh_frame eh_frame table (ht_entries table);
        _ ← ht_lookup table 0;
        Some tt
  end.

(** The answer is kept with the image, which does not change. *)
Definition indexed_eh_frame_hdr (info : ElfSectionInfo) : option ((Z * Z) * ElfSectionData) :=
  addr ← es_eh_frame_hdr_svma info;
  data ← es_eh_frame_hdr info;
  range ← svma_range (Some addr) (Some data);
  if bool_decide (is_Some (eh_frame_hdr_indexes_eh_frame info addr data)) then Some (range, data) else None.

Definition module_to_framehop (module : ModuleRecord) (loaded : LoadedElfMapping) : option UnwindModule :=
  image_base ← lm_image_base loaded;
  let info := lm_sections loaded in
  let hdr := indexed_eh_frame_hdr info in
  Some (unwind_module_new g (m_start module) (m_end module) (ib_avma image_base)
    (Unwinder.mkSectionInfo (ib_svma image_base) (il_text_svma (es_layout info)) (es_got_svma info)
       (svma_range (es_eh_frame_svma info) (es_eh_frame info)) (section_bytes <$> es_eh_frame info)
       (fst <$> hdr) (section_bytes ∘ snd <$> hdr) None)).
End frames.

(** ** State *)

Record ProcessUnwinder := mkProcessUnwinder {
  pu_jit : JitRecorder;
  pu_ordinary : list UnwindModule;
  pu_overlay : JitOverlay;
  pu_cache : option (RuleCache UnwindRule FramePointerFallbackReason);
  pu_refreshed_uncovered_pages : gset Z;
}.
Definition process_unwinder_default : ProcessUnwinder := mkProcessUnwinder recorder_default [] (mkOverlay ∅ ∅) None ∅.
Definition set_ordinary (ms : list UnwindModule) (u : ProcessUnwinder) : ProcessUnwinder :=
  mkProcessUnwinder (pu_jit u) ms (pu_overlay u) (pu_cache u) (pu_refreshed_uncovered_pages u).
Definition set_jit (j : JitRecorder) (u : ProcessUnwinder) : ProcessUnwinder :=
  mkProcessUnwinder j (pu_ordinary u) (pu_overlay u) (pu_cache u) (pu_refreshed_uncovered_pages u).
Definition set_pages (pages : gset Z) (u : ProcessUnwinder) : ProcessUnwinder :=
  mkProcessUnwinder (pu_jit u) (pu_ordinary u) (pu_overlay u) (pu_cache u) pages.

(** [add_module] and [remove_module] of the ordinary table. *)
Definition add_module (m : UnwindModule) (u : ProcessUnwinder) : ProcessUnwinder :=
  set_ordinary (u_modules (unwinder_add_module m (mkUnwinder (pu_ordinary u) 0) 0).1) u.
Definition remove_module (start : Z) (u : ProcessUnwinder) : ProcessUnwinder :=
  set_ordinary (u_modules (unwinder_remove_module start (mkUnwinder (pu_ordinary u) 0) 0).1) u.

(** [NativeUnwinder::inherit_for_fork], then [ProcessUnwinder::inherit_for_fork]. *)
Definition native_inherit_for_fork (ordinary : list UnwindModule) : list UnwindModule * JitOverlay := (ordinary, mkOverlay ∅ ∅).
Definition inherit_for_fork (u : ProcessUnwinder) : ProcessUnwinder :=
  let '(ordinary, overlay) := native_inherit_for_fork (pu_ordinary u) in
  mkProcessUnwinder recorder_default ordinary overlay None ∅.

(** Without a path, Linux names a mapping of a file so. *)
Definition is_file_mapping (module : ModuleRecord) : bool :=
  negb (module_is_kernel module) &&
  (negb (m_inode module =? 0) || bool_decide (m_path module = chars "//toolong") || bool_decide (m_path module = chars "//enomem")).

(** ** Operations *)

(** What the system answers when the file of a mapping is opened. *)
Class ElfFiles (K : Type) := elf_world : ModuleRecord -> K -> World * K.

Section operations.
Context {K : Type} `{ElfFiles K} `{HdrReader} (g : Gimli) (size_of_info size_of_segment page_size : Z).
#[local] Abbreviation op := (io (ProcessUnwinder * CacheState * K)).

Definition on_unwinder (f : ProcessUnwinder -> ProcessUnwinder) : op unit := io_modify (λ '(u, e, k), (f u, e, k)).
Definition sections_reuse (source_id module_id : Z) : op bool := λ '(u, e, k),
  let '(r, e) := cache_reuse size_of_info size_of_segment source_id module_id e in (Ok r, (u, e, k)).
Definition set_cache (c : ElfSectionCache) (e : CacheState) : CacheState := ElfCache.mkState c (cs_store e) (cs_next_token e).
Definition sections_remove (module_id : Z) (e : CacheState) : CacheState := set_cache (cache_remove module_id (cs_cache e)) e.

Definition load_and_install_module (module : ModuleRecord) : op unit := λ '(u, e, k),
  let '(w, k) := elf_world module k in
  let '(loaded, e) := load_mapping size_of_info size_of_segment w module e in
  let u :=
    match loaded with
    | inl _ => u
    | inr loaded =>
        match module_to_framehop g module loaded with
        | None => u
        | Some framehop_module => add_module framehop_module (remove_module (m_start module) u)
        end
    end in
  (Ok tt, (u, e, k)).

(** The loops of [apply_module_update]. *)
Fixpoint reuse_sources (active : list ModuleActivation) : op unit :=
  match active with
  | [] => mret tt
  | a :: active =>
      (match a_source_module_id a with Some source_id => _ ← sections_reuse source_id (m_id (a_module a)); mret tt | None => mret tt end);;
      reuse_sources active
  end.
Fixpoint install_active (mapping_changed : bool) (active : list ModuleActivation) : op unit :=
  match active with
  | [] => mret tt
  | a :: active =>
      let module := a_module a in
      (if module_is_kernel module then mret tt
       else
         '(_, e, _) ← io_gets id;
         if negb mapping_changed && bool_decide (a_source_module_id a = None) && cache_contains (m_id module) (cs_cache e) then mret tt
         else load_and_install_module module);;
      install_active mapping_changed active
  end.
Definition remove_retired (retired : list ModuleRecord) : op unit :=
  io_modify (λ '(u, e, k), (u, foldl (λ e m, sections_remove (m_id m) e) e retired, k)).

Definition process_apply_module_update (update : ModuleUpdate) : op unit :=
  on_unwinder (λ u, foldl (λ u m, remove_module (m_start m) u) u (u_retired update));;
  reuse_sources (u_active update);;
  install_active (u_mapping_changed update) (u_active update);;
  remove_retired (u_retired update);;
  if u_mapping_changed update then
    (if existsb is_file_mapping (u_retired update ++ (a_module <$> u_active update)) then
       on_unwinder (λ u, set_jit (mappings_changed (pu_jit u)) u)
     else mret tt);;
    on_unwinder (set_pages ∅)
  else mret tt.

Fixpoint reuse_inherited (active : list ModuleActivation) : op unit :=
  match active with
  | [] => mret tt
  | a :: active =>
      (match a_source_module_id a with
       | None => mret tt
       | Some source_id =>
           reused ← sections_reuse source_id (m_id (a_module a));
           if (reused : bool) then mret tt
           else if module_is_kernel (a_module a) then mret tt
           else load_and_install_module (a_module a)
       end);;
      reuse_inherited active
  end.
Definition reuse_inherited_modules (update : ModuleUpdate) : op unit := reuse_inherited (u_active update).

Definition refresh_page (pc : Z) : Z := pc - pc mod page_size.
Definition should_refresh_for_uncovered_pc (pc : Z) (u : ProcessUnwinder) : bool * ProcessUnwinder :=
  let pages := pu_refreshed_uncovered_pages u in
  (bool_decide (refresh_page pc ∉ pages), set_pages ({[refresh_page pc]} ∪ pages) u).

(** [ProcessUnwinder] is what the process table asks for. *)
#[export] Instance process_unwinders : ProcessUnwinders K ProcessUnwinder CacheState := {|
  pu_default := process_unwinder_default;
  pu_inherit_for_fork := inherit_for_fork;
  pu_apply_module_update := process_apply_module_update;
  pu_reuse_inherited_modules := reuse_inherited_modules;
  pu_should_refresh_for_uncovered_pc := should_refresh_for_uncovered_pc;
  elf_sections_remove := sections_remove;
|}.
End operations.

(** ** Frames and runtime code *)

Definition process_resolve_frame (pid address : Z) (mode : FrameMode) (u : ProcessUnwinder) (t : ModuleTable)
    : option (FrameRecord * ModuleTable) :=
  match (if bool_decide (mode = User) then recorder_frame (pu_jit u) address else None) with
  | Some frame => Some (frame, t)
  | None => resolve_frame pid address mode t
  end.

Section runtime.
Context {S : Type} `{ModuleSink S}.
Context (elf_parse : list Z -> option ParsedElf) (fingerprint : list Z -> Z) (makedev : Z -> Z -> Z).

(** A call of the JIT recorder on the parts of the unwinder that it has. *)
Definition on_jit {A} (call : io (JitRecorder * JitOverlay * (ModuleTable * S)) A) : io (ProcessUnwinder * (ModuleTable * S)) A := λ '(u, t),
  let '(r, (j, overlay, t)) := call (pu_jit u, pu_overlay u, t) in
  (r, (mkProcessUnwinder j (pu_ordinary u) overlay (pu_cache u) (pu_refreshed_uncovered_pages u), t)).
Definition refresh_runtime_modules (pid : Z) (w : PollWorld) : io (ProcessUnwinder * (ModuleTable * S)) unit :=
  on_jit (recorder_refresh elf_parse fingerprint makedev pid w).
Definition refresh_runtime_frame (address pid : Z) (w : PollWorld) : io (ProcessUnwinder * (ModuleTable * S)) bool :=
  on_jit (refresh_for_frame fingerprint address pid w).
End runtime.

(** ** The tables of a process are those of its mappings *)

Section follows.
Context `{HdrReader} (g : Gimli).
Implicit Types (t : ModuleTable) (u : ProcessUnwinder) (m : UnwindModule).

(** [m] is what [module_to_framehop] makes of the image of [n]. *)
Definition installed_from (n : ModuleRecord) m : Prop :=
  exists page loaded, lm_image_base loaded = resolve_image_base page n (lm_sections loaded) /\ module_to_framehop g n loaded = Some m.

(** The modules lie apart, and each comes from an active mapping of the process. *)
Record follows t (pid : Z) u : Prop := {
  fl_laid_out : laid_out (pu_ordinary u);
  fl_mapped m : m ∈ pu_ordinary u -> exists n, owned_by t (Process pid) n /\ installed_from n m;
}.

Lemma installed_range n m : installed_from n m -> um_start m = m_start n /\ um_end m = m_end n.
Proof.
  intros (page & loaded & _ & Hm). unfold module_to_framehop in Hm. destruct (lm_image_base loaded); [|done].
  by injection Hm as <-.
Qed.
(** A copy in a child is as good. *)
Lemma installed_copy n child id m : installed_from n m -> installed_from (with_id id (inherit child n)) m.
Proof. intros (page & loaded & Hb & Hm). by exists page, loaded. Qed.

Lemma follows_nil t pid u : pu_ordinary u = [] -> follows t pid u.
Proof. intros Hu. split; rewrite Hu; [by repeat constructor|]. by intros m ?%elem_of_nil. Qed.
Lemma follows_same t t' pid u u' :
  (forall n, owned_by t (Process pid) n -> owned_by t' (Process pid) n) -> pu_ordinary u' = pu_ordinary u -> follows t pid u -> follows t' pid u'.
Proof.
  intros Ht Hu [Hl Hm]. split; rewrite Hu; [done|]. intros m (n & Hn & Hi)%Hm. exists n. auto.
Qed.

Lemma removed_modules start u :
  laid_out (pu_ordinary u) ->
  laid_out (pu_ordinary (remove_module start u)) /\
  forall m, m ∈ pu_ordinary (remove_module start u) <-> m ∈ pu_ordinary u /\ um_start m <> start.
Proof.
  intros Hl. destruct (remove_module_ok start (mkUnwinder (pu_ordinary u) 0) 0 Hl) as [Hl' Hp]. split; [done|].
  intros m. unfold remove_module. cbn [pu_ordinary set_ordinary]. rewrite Hp, list_elem_of_filter. tauto.
Qed.
Lemma follows_remove start t pid u : follows t pid u -> follows t pid (remove_module start u).
Proof.
  intros [Hl Hm]. destruct (removed_modules start u Hl) as [Hl' He]. split; [done|]. intros m [? _]%He. by apply Hm.
Qed.
Lemma removed_all starts : forall u, laid_out (pu_ordinary u) ->
  laid_out (pu_ordinary (foldl (λ u (r : ModuleRecord), remove_module (m_start r) u) u starts)) /\
  forall m, m ∈ pu_ordinary (foldl (λ u (r : ModuleRecord), remove_module (m_start r) u) u starts) <->
    m ∈ pu_ordinary u /\ um_start m ∉ m_start <$> starts.
Proof.
  induction starts as [|r starts IH]; intros u Hl; cbn [foldl fmap list_fmap].
  { split; [done|]. intros m. rewrite elem_of_nil. tauto. }
  destruct (removed_modules (m_start r) u Hl) as [Hl1 He1]. destruct (IH _ Hl1) as [Hl2 He2]. split; [done|].
  intros m. rewrite He2, He1, elem_of_cons. tauto.
Qed.

(** Mappings of a process that start together are one. *)
Lemma owned_apart t pid n n' : table_wf t -> owned_by t (Process pid) n -> owned_by t (Process pid) n' -> n = n' \/ disjoint n n'.
Proof.
  intros Hwf [Hn Ho] [Hn' Ho']. destruct (decide (m_id n = m_id n')) as [Heq|Hne]; [left; congruence|right].
  eapply (tw_disjoint _ Hwf); [done|done|done|congruence|]. unfold module_is_kernel. by rewrite Ho.
Qed.

Lemma follows_install t pid u n m :
  table_wf t -> follows t pid u -> owned_by t (Process pid) n -> installed_from n m ->
  follows t pid (add_module m (remove_module (m_start n) u)).
Proof.
  intros Hwf Hu Hn Hi. destruct (installed_range n m Hi) as [Hs He]. pose proof (tw_range _ Hwf _ _ (proj1 Hn)) as Hr.
  destruct (removed_modules (m_start n) u (fl_laid_out _ _ _ Hu)) as [Hl Hin].
  destruct (add_module_ok m (mkUnwinder (pu_ordinary (remove_module (m_start n) u)) 0) 0) as [Hl' Hp]; [done|lia| |].
  { apply list.Forall_forall. intros x [Hx Hne]%Hin. destruct (fl_mapped _ _ _ Hu x Hx) as (n' & Hn' & Hi').
    destruct (installed_range n' x Hi') as [Hs' He']. unfold disjoint_modules. rewrite Hs, He, Hs', He'.
    destruct (owned_apart t pid n n' Hwf Hn Hn') as [->|Hd]; [congruence|exact Hd]. }
  split; [done|]. intros x Hx. unfold add_module in Hx. cbn [pu_ordinary set_ordinary] in Hx. rewrite Hp in Hx.
  apply elem_of_cons in Hx as [->|Hx]; [by exists n|]. apply Hin in Hx as [Hx _]. by apply (fl_mapped _ _ _ Hu).
Qed.

(** After the removals of an update, what is left is still mapped. *)
Lemma follows_retire t t' pid u retired acts :
  table_wf t -> described pid retired acts t t' -> follows t pid u ->
  follows t' pid (foldl (λ u (r : ModuleRecord), remove_module (m_start r) u) u retired).
Proof.
  intros Hwf [Hr Hd] Hu. destruct (removed_all retired u (fl_laid_out _ _ _ Hu)) as [Hl Hin]. split; [done|].
  intros m [Hm Hs]%Hin. destruct (fl_mapped _ _ _ Hu m Hm) as (n & Hn & Hi). exists n. split; [|done].
  apply Hd. left. split; [done|]. intros Hret. apply Hs. destruct (installed_range n m Hi) as [-> _]. by apply list_elem_of_fmap_2.
Qed.

(** ** The operations keep it *)

Context {K : Type} `{ElfFiles K} (size_of_info size_of_segment : Z).
#[local] Abbreviation op := (io (ProcessUnwinder * CacheState * K)).

(** [m] succeeds, and its result has [Q] when the unwinder had [P]. *)
Definition leads {A} (P : ProcessUnwinder -> Prop) (m : op A) (Q : ProcessUnwinder -> Prop) : Prop :=
  forall u e k, P u -> exists a s, m (u, e, k) = (Ok a, s) /\ Q s.1.1.

Lemma leads_ret {A} (a : A) (P Q : ProcessUnwinder -> Prop) : (forall u, P u -> Q u) -> leads P (mret a) Q.
Proof. intros HPQ u e k HP. eexists _, _. split; [done|]. by apply HPQ. Qed.
Lemma leads_bind {A B} (m : op A) (f : A -> op B) P Q R : leads P m Q -> (forall a, leads Q (f a) R) -> leads P (m ≫= f) R.
Proof.
  intros Hm Hf u e k HP. destruct (Hm u e k HP) as (a & [[u' e'] k'] & Hrun & HQ).
  destruct (Hf a u' e' k' HQ) as (b & s & Hrun' & HR). exists b, s. split; [|done]. by rewrite (io_bind_ok _ _ _ _ _ Hrun).
Qed.
Lemma leads_gets {A} (f : ProcessUnwinder * CacheState * K -> A) P : leads P (io_gets f) P.
Proof. intros u e k HP. by eexists _, _. Qed.
Lemma leads_unwinder f (P Q : ProcessUnwinder -> Prop) : (forall u, P u -> Q (f u)) -> leads P (on_unwinder f) Q.
Proof. intros Hf u e k HP. eexists _, _. split; [done|]. by apply Hf. Qed.
Lemma leads_reuse source_id id P : leads P (sections_reuse size_of_info size_of_segment source_id id) P.
Proof. intros u e k HP. unfold sections_reuse. destruct (cache_reuse _ _ source_id id e) as [r e']. by eexists _, _. Qed.
Lemma leads_retired retired P : leads P (remove_retired (K := K) retired) P.
Proof. intros u e k HP. by eexists _, _. Qed.

Context (t : ModuleTable) (Hwf : table_wf t) (pid : Z).

(** A loaded mapping is resolved at its own place. *)
Lemma loaded_base w n e : match (load_mapping size_of_info size_of_segment w n e).1 with
  | inr loaded => lm_image_base loaded = resolve_image_base (wo_page_size w) n (lm_sections loaded)
  | inl _ => True
  end.
Proof.
  unfold load_mapping. destruct (unsupported_module n); [done|]. destruct (_ !! m_id n); [done|].
  destruct (if bool_decide _ then _ else _) as [[error|[image exact]] c]; [done|]. by destruct (match _ with true => _ | false => _ end).
Qed.

Lemma load_and_install_follows n : owned_by t (Process pid) n -> leads (follows t pid) (load_and_install_module g size_of_info size_of_segment n) (follows t pid).
Proof.
  intros Hn u e k Hu. unfold load_and_install_module. destruct (elf_world n k) as [w k']. pose proof (loaded_base w n e) as Hb.
  destruct (load_mapping _ _ w n e) as [[error|loaded] e']; cbn [fst] in Hb; [by eexists _, _|].
  destruct (module_to_framehop g n loaded) as [m|] eqn:Hm; eexists _, _; (split; [done|]); cbn [fst]; [|done].
  apply follows_install; [done..|]. by exists (wo_page_size w), loaded.
Qed.

Lemma reuse_sources_follows active P : leads P (reuse_sources size_of_info size_of_segment (K := K) active) P.
Proof.
  induction active as [|a active IH]; cbn [reuse_sources]; [by apply leads_ret|]. eapply leads_bind; [|intros _; exact IH].
  destruct (a_source_module_id a); [|by apply leads_ret]. eapply leads_bind; [apply leads_reuse|]. intros _. by apply leads_ret.
Qed.

Lemma install_active_follows changed active : (forall a, a ∈ active -> owned_by t (Process pid) (a_module a)) ->
  leads (follows t pid) (install_active g size_of_info size_of_segment changed active) (follows t pid).
Proof.
  induction active as [|a active IH]; intros Ha; cbn [install_active]; [by apply leads_ret|].
  eapply leads_bind; [|intros _; apply IH; intros b Hb; apply Ha; by right].
  destruct (module_is_kernel (a_module a)); [by apply leads_ret|]. eapply leads_bind; [apply leads_gets|]. intros [[u e] k].
  destruct (_ && _); [by apply leads_ret|]. apply load_and_install_follows, Ha. by left.
Qed.

Lemma reuse_inherited_follows active : (forall a, a ∈ active -> owned_by t (Process pid) (a_module a)) ->
  leads (follows t pid) (reuse_inherited g size_of_info size_of_segment active) (follows t pid).
Proof.
  induction active as [|a active IH]; intros Ha; cbn [reuse_inherited]; [by apply leads_ret|].
  eapply leads_bind; [|intros _; apply IH; intros b Hb; apply Ha; by right].
  destruct (a_source_module_id a); [|by apply leads_ret]. eapply leads_bind; [apply leads_reuse|].
  intros [|]; [by apply leads_ret|]. destruct (module_is_kernel (a_module a)); [by apply leads_ret|]. apply load_and_install_follows, Ha. by left.
Qed.

Lemma apply_update_follows t0 update : table_wf t0 -> described pid (u_retired update) (u_active update) t0 t ->
  leads (follows t0 pid) (process_apply_module_update g size_of_info size_of_segment update) (follows t pid).
Proof.
  intros Hwf0 Hd. unfold process_apply_module_update.
  eapply leads_bind; [apply leads_unwinder; intros u; by apply (follows_retire t0 t pid u _ (u_active update))|]. intros _.
  eapply leads_bind; [apply reuse_sources_follows|]. intros _. eapply leads_bind; [apply install_active_follows|].
  { intros a Ha. apply Hd. right. by apply list_elem_of_fmap_2. }
  intros _. eapply leads_bind; [apply leads_retired|]. intros _. destruct (u_mapping_changed update); [|by apply leads_ret].
  eapply (leads_bind _ _ _ (follows t pid)); [|intros _; apply leads_unwinder; intros u; by apply follows_same].
  destruct (existsb _ _); [apply leads_unwinder; intros u; by apply follows_same|by apply leads_ret].
Qed.
End follows.

(** ** Calls that touch no ordinary table *)

Section steps.
Context {X : Type} (R : X -> X -> Prop) `{!PreOrder R}.

Definition io_steps {A} (m : io X A) : Prop := forall s, R s (m s).2.

Lemma steps_ret {A} (a : A) : io_steps (mret a).
Proof. intros s. cbn. reflexivity. Qed.
Lemma steps_fail {A} e : io_steps (io_fail (A := A) e).
Proof. intros s. cbn. reflexivity. Qed.
Lemma steps_lift {A} (r : result A) : io_steps (io_lift r).
Proof. intros s. cbn. reflexivity. Qed.
Lemma steps_gets {A} (f : X -> A) : io_steps (io_gets f).
Proof. intros s. cbn. reflexivity. Qed.
Lemma steps_bind {A B} (m : io X A) (f : A -> io X B) : io_steps m -> (forall a, io_steps (f a)) -> io_steps (m ≫= f).
Proof.
  intros Hm Hf s. specialize (Hm s). unfold mbind, io_mbind. destruct (m s) as [[a|e] s']; [|done].
  etrans; [exact Hm|apply Hf].
Qed.
End steps.

(** Steps through a definition until a call of its own is left. *)
Ltac step_walk :=
  repeat lazymatch goal with
    | |- io_steps ?R (_ ≫= _) => apply (steps_bind R); [|intros ?]
    | |- io_steps ?R (mret _) => apply (steps_ret R)
    | |- io_steps ?R (io_fail _) => apply (steps_fail R)
    | |- io_steps ?R (io_lift _) => apply (steps_lift R)
    | |- io_steps ?R (io_gets _) => apply (steps_gets R)
    end.

Section context.
Context {K S : Type} `{Kernel K} `{HashOrder K} `{ElfFiles K} `{HdrReader} `{RecorderSink S}.
Context (g : Gimli) (size_of_info size_of_segment page_size : Z).
#[local] Instance unwinders : ProcessUnwinders K ProcessUnwinder CacheState := process_unwinders g size_of_info size_of_segment page_size.
#[local] Abbreviation table := (ProcessTable ProcessUnwinder CacheState).
#[local] Abbreviation ctx := (EventContext (K := K) (U := ProcessUnwinder) (E := CacheState) (S := S)).
Implicit Types (p : table) (c : ctx) (t : ModuleTable) (u : ProcessUnwinder).

Definition unwinder_of (pid : Z) p : option ProcessUnwinder := pt_states p !! pid ≫= ps_unwinder.

(** An unwinder is as before, or new and empty. *)
Definition ordinary_kept p p' : Prop :=
  forall pid u', unwinder_of pid p' = Some u' -> pu_ordinary u' = [] \/ exists u, unwinder_of pid p = Some u /\ pu_ordinary u' = pu_ordinary u.
#[local] Instance ordinary_kept_preorder : PreOrder ordinary_kept.
Proof.
  split; [intros p pid u Hu; right; by exists u|]. intros p p1 p2 Hp1 Hp2 pid u2 Hu2.
  destruct (Hp2 pid u2 Hu2) as [?|(u1 & Hu1 & Heq)]; [by left|]. rewrite Heq. by apply Hp1.
Qed.

Lemma kept_states p p' : (forall pid, unwinder_of pid p' = unwinder_of pid p) -> ordinary_kept p p'.
Proof. intros Heq pid u. rewrite Heq. intros Hu. right. by exists u. Qed.
Lemma kept_mut pid f p : (forall s, ps_unwinder (f s) = ps_unwinder s) -> ordinary_kept p (state_mut pid f p).
Proof.
  intros Hf. apply kept_states. intros pid'. unfold unwinder_of, state_mut. cbn. destruct (decide (pid = pid')) as [<-|Hne].
  - rewrite lookup_insert_eq. cbn. rewrite Hf. by destruct (pt_states p !! pid).
  - by rewrite lookup_insert_ne.
Qed.
Lemma kept_alter pid f p : (forall s, ps_unwinder (f s) = ps_unwinder s) -> ordinary_kept p (state_alter pid f p).
Proof.
  intros Hf. apply kept_states. intros pid'. unfold unwinder_of, state_alter. cbn. destruct (decide (pid = pid')) as [<-|Hne].
  - rewrite lookup_alter_eq. destruct (pt_states p !! pid); [|done]. cbn. by rewrite Hf.
  - by rewrite lookup_alter_ne.
Qed.

(** *** Calls of the process table *)

#[local] Abbreviation calm := (io_steps (λ s s' : table * K, ordinary_kept s.1 s'.1)).
#[local] Instance calm_preorder : PreOrder (λ s s' : table * K, ordinary_kept s.1 s'.1).
Proof. split; [intros s; reflexivity|intros s1 s2 s3 ? ?; by etrans]. Qed.

Lemma calm_table f : (forall p, ordinary_kept p (f p)) -> calm (on_table f).
Proof. intros Hf [p k]. apply Hf. Qed.
Lemma calm_call {A} pid (call : sys (ProcessHandle * K) A) h : calm (process_call pid call h).
Proof. intros [p k]. unfold process_call. destruct (call (h, k)) as [r [h' k']]. by apply kept_alter. Qed.
Lemma calm_tracked {A} pid (read : Z -> sys K A) : calm (read_tracked pid read).
Proof. unfold read_tracked, processes. step_walk. destruct (process_of pid _); step_walk. apply calm_call. Qed.
Lemma calm_process {A} pid (read : Z -> sys K A) : calm (read_process pid read).
Proof.
  unfold read_process, processes. step_walk. destruct (process_of pid _); [apply calm_call|].
  intros [p' k]. destruct (read _ k). cbn. reflexivity.
Qed.
Lemma calm_open pid : calm (open_handle pid).
Proof. intros [p k]. unfold open_handle. destruct (handle_open pid k). cbn. reflexivity. Qed.
Lemma calm_track h : calm (track h).
Proof.
  unfold track, capture_image. step_walk; [apply calm_table; intros p; by apply kept_mut|apply calm_tracked|].
  destruct (_ : sres _); step_walk. apply calm_table. intros p. by apply kept_mut.
Qed.
Lemma calm_ensure pid : calm (ensure_tracked pid).
Proof.
  unfold ensure_tracked, processes. step_walk; [apply calm_table; intros p; by apply kept_mut|]. destruct (process_of pid _); step_walk.
  destruct (Pid_new pid); step_walk; [apply calm_open|]. apply calm_table. intros p. by apply kept_alter.
Qed.
Lemma calm_stale pid : calm (tracked_process_is_stale pid).
Proof.
  unfold tracked_process_is_stale, processes, sys_error. step_walk. destruct (_ !! pid) as [state|]; step_walk.
  case_bool_decide; step_walk. destruct (ps_process state); step_walk; [apply calm_call|]. destruct (_ : sres bool); step_walk.
Qed.

(** *** Calls on the context *)

Definition ctx_kept c c' : Prop := (cx_modules c').1 = (cx_modules c).1 /\ ordinary_kept (cx_processes c) (cx_processes c').
#[local] Instance ctx_kept_preorder : PreOrder ctx_kept.
Proof. split; [intros c; by split|]. intros c1 c2 c3 [] []. split; [congruence|by etrans]. Qed.
#[local] Abbreviation still := (io_steps ctx_kept).

Lemma still_processes {A} (m : io (table * K) A) : calm m -> still (on_processes m).
Proof.
  intros Hm c. specialize (Hm (cx_processes c, cx_kernel c)). unfold on_processes, io_zoom.
  by destruct (m (cx_processes c, cx_kernel c)) as [r [p k]].
Qed.
Lemma still_update f : (forall p, ordinary_kept p (f p)) -> still (update_processes f).
Proof. intros Hf. by apply still_processes, calm_table. Qed.
Lemma still_push action : still (push_action action).
Proof. intros c. by split. Qed.
Lemma still_summary summary : still (set_summary summary).
Proof. intros c. by split. Qed.
Lemma still_state_of pid : still (state_of pid).
Proof. unfold state_of, get_processes, processes. step_walk. apply still_processes. step_walk. Qed.
Lemma still_writer {A} (m : io S A) : still (on_writer m).
Proof.
  intros c. unfold on_writer, on_modules, to_sink, io_zoom. destruct (cx_modules c) as [t s] eqn:Hc. cbn [fst snd].
  destruct (m s). by split; [rewrite Hc|].
Qed.
Lemma still_table : still (on_modules ModuleTable.table).
Proof. intros c. unfold on_modules, io_zoom. by destruct (cx_modules c) eqn:Hc; split; [rewrite Hc|]. Qed.

Lemma still_perf_support pid : still (process_has_python_perf_support pid).
Proof.
  unfold process_has_python_perf_support. destruct (i32_try_from pid); step_walk; [apply still_state_of|].
  destruct (_ ≫= ps_python_perf_support); step_walk; [apply still_processes, calm_process|]. apply still_update. intros p. by apply kept_mut.
Qed.
Lemma still_mark timestamp_ns pid : still (mark_python_runtime_process timestamp_ns pid).
Proof.
  unfold mark_python_runtime_process. step_walk; [apply still_state_of|apply still_update; intros p; by apply kept_mut|].
  destruct (ps_python_runtime _); step_walk. apply still_writer.
Qed.
Lemma still_mark_if condition timestamp_ns pid : still (mark_if condition timestamp_ns pid).
Proof. unfold mark_if. destruct condition; [apply still_mark|step_walk]. Qed.
Lemma still_end_python timestamp_ns pid : still (end_python_runtime_process timestamp_ns pid).
Proof.
  unfold end_python_runtime_process. step_walk; [apply still_state_of|]. destruct (_ : option _) as [state|]; step_walk.
  destruct (ps_python_runtime state); step_walk; [apply still_writer|]. apply still_update. intros p. by apply kept_alter.
Qed.
Lemma still_python_mmap mmap privilege timestamp_ns : still (record_python_runtime_mmap mmap privilege timestamp_ns).
Proof.
  unfold record_python_runtime_mmap. destruct (_ || _); step_walk. destruct (i32_try_from _); step_walk.
  destruct (is_python_runtime_module_path _); step_walk; [apply still_perf_support|]. destruct (_ : bool); [apply still_mark|step_walk].
Qed.

(** ** Every unwinder follows the module table *)

Context (logged : S -> log_modules -> Prop) (fails : ErrorKind -> Prop) `{!RecorderLog S logged fails}.

Definition unwinders_follow c : Prop := forall pid u, unwinder_of pid (cx_processes c) = Some u -> follows g (cx_modules c).1 pid u.

(** The state of a recorder between calls. *)
Record in_order c : Prop := {
  io_track : exists sp, on_track logged sp c;
  io_follow : unwinders_follow c;
}.

Lemma follow_kept c c' : ctx_kept c c' -> unwinders_follow c -> unwinders_follow c'.
Proof.
  intros [Ht Hp] Hc pid u' Hu'. rewrite Ht. destruct (Hp pid u' Hu') as [Hnil|(u & Hu & Heq)]; [by apply follows_nil|].
  apply (follows_same g (cx_modules c).1 _ pid u); [done|done|]. by apply Hc.
Qed.

(** From [P], a successful [m] leads to [Q]. *)
Definition triple {A} (P : ctx -> Prop) (m : io ctx A) (Q : A -> ctx -> Prop) : Prop :=
  forall c, P c -> match m c with (Ok a, c') => Q a c' | (Err _, _) => True end.

Lemma triple_ret {A} (a : A) (P : ctx -> Prop) (Q : A -> ctx -> Prop) : (forall c, P c -> Q a c) -> triple P (mret a) Q.
Proof. intros HPQ c HP. by apply HPQ. Qed.
Lemma triple_bind {A B} (m : io ctx A) (f : A -> io ctx B) P Q R : triple P m Q -> (forall a, triple (Q a) (f a) R) -> triple P (m ≫= f) R.
Proof.
  intros Hm Hf c HP. specialize (Hm c HP). unfold mbind, io_mbind. destruct (m c) as [[a|e] c']; [|done]. by apply Hf.
Qed.
Lemma triple_weaken {A} (m : io ctx A) (P P' : ctx -> Prop) (Q Q' : A -> ctx -> Prop) :
  triple P m Q -> (forall c, P' c -> P c) -> (forall a c, Q a c -> Q' a c) -> triple P' m Q'.
Proof. intros Hm HP HQ c Hc. specialize (Hm c (HP c Hc)). destruct (m c) as [[a|e] c']; [by apply HQ|done]. Qed.

(** A call that the table does not notice keeps what is known of the table. *)
Lemma triple_still {A} (m : io ctx A) V (T : ModuleTable -> Prop) : quiet logged m V -> still m ->
  triple (λ c, in_order c /\ T (cx_modules c).1) m (λ a c, (in_order c /\ T (cx_modules c).1) /\ V a).
Proof.
  intros Hq Hs c [[[sp Ht] Hf] HT]. specialize (Hq sp c Ht). specialize (Hs c). destruct (m c) as [[a|e] c']; [|done].
  destruct Hq as (es & [-> HV] & Ht'). cbn [foldl] in Ht'. cbn [snd] in Hs. split; [|done]. split; [|by rewrite (proj1 Hs)].
  split; [by exists sp|by eapply follow_kept].
Qed.

#[local] Abbreviation kept m := (triple in_order m (λ _, in_order)).
Lemma kept_still {A} (m : io ctx A) V : quiet logged m V -> still m -> triple in_order m (λ a c, in_order c /\ V a).
Proof.
  intros Hq Hs. eapply triple_weaken; [by apply (triple_still m V (λ _, True))| |]; [done|]. by intros a c [[? _] ?].
Qed.
Lemma still_bind {A B} (m : io ctx A) V (f : A -> io ctx B) Q : quiet logged m V -> still m ->
  (forall a, V a -> triple in_order (f a) Q) -> triple in_order (m ≫= f) Q.
Proof.
  intros Hq Hs Hf. eapply triple_bind; [by apply kept_still|]. intros a c [Hc HV]. by apply (Hf a).
Qed.

(** *** A mapping *)

(** The unwinder of [pid] is changed by a call that leads to tables of [t]. *)
Lemma with_unwinder_kept pid (call : io (ProcessUnwinder * CacheState * K) unit) (P : ProcessUnwinder -> Prop) t p k :
  leads P call (follows g t pid) -> P (default process_unwinder_default (unwinder_of pid p)) ->
  (forall pid' u, pid' <> pid -> unwinder_of pid' p = Some u -> follows g t pid' u) ->
  exists p' k', with_unwinder pid call (p, k) = (Ok tt, (p', k')) /\ forall pid' u, unwinder_of pid' p' = Some u -> follows g t pid' u.
Proof.
  intros Hcall HP Hother. unfold with_unwinder. unfold unwinder_of in HP.
  assert (default process_unwinder_default (ps_unwinder (default state_default (pt_states p !! pid))) =
    default process_unwinder_default (pt_states p !! pid ≫= ps_unwinder)) as Heq by by destruct (pt_states p !! pid).
  cbn [pu_default unwinders process_unwinders]. rewrite Heq.
  destruct (Hcall _ (pt_elf_sections p) k HP) as ([] & [[u e] k'] & Hrun & Hu). rewrite Hrun. eexists _, k'. split; [done|].
  intros pid' u'. unfold unwinder_of. cbn. destruct (decide (pid = pid')) as [<-|Hne].
  - rewrite lookup_insert_eq. cbn. intros [= <-]. exact Hu.
  - rewrite lookup_insert_ne by done. intros Hu'. by apply Hother.
Qed.

Lemma follow_others t t' pid p : only_owner (Process pid) t t' ->
  (forall pid' u, unwinder_of pid' p = Some u -> follows g t pid' u) ->
  forall pid' u, pid' <> pid -> unwinder_of pid' p = Some u -> follows g t' pid' u.
Proof. intros Ho Hp pid' u Hne Hu. apply (follows_same g t t' pid' u u); [|done|by apply Hp]. intros n Hn. by apply Ho; [congruence|]. Qed.

Lemma record_module_follows m c : mapping_ok m -> table_inv (cx_modules c).1 -> unwinders_follow c ->
  match record_module m c with (Ok _, c') => unwinders_follow c' | (Err _, _) => True end.
Proof.
  intros Hm Hi Hc. unfold record_module. case_bool_decide; [done|]. destruct c as [p k [t s] summary actions].
  unfold unwinders_follow in Hc. cbn [cx_modules cx_processes fst] in *. unfold mbind, io_mbind, on_modules, io_zoom. cbn [cx_modules].
  destruct (m_owner m) as [pid|] eqn:Ho.
  - destruct (Z.leb_spec (m_end m) (m_start m)) as [Hle|Hlt].
    { unfold apply_module. rewrite (proj2 (Z.leb_le _ _) Hle). exact Hc. }
    pose proof (apply_module_spec logged fails t s m pid Hi Hm Ho) as Hs. unfold TableOps.spec in Hs.
    destruct (apply_module m (t, s)) as [[update|e] [t' s']]; [|done]. destruct Hs as (Hi' & ((Hoo & _) & Hne & Hd) & _).
    specialize (Hne Hlt). destruct (u_active update) as [|a active] eqn:Ha; [done|]. cbn [omap list_omap].
    assert (owned_by t' (Process pid) (a_module a)) as [_ Hao] by (apply Hd; right; by left).
    unfold module_pid at 1. rewrite Hao. cbn [owner_pid]. unfold on_processes, io_zoom. cbn [cx_processes cx_kernel].
    unfold apply_module_update. cbn [pu_apply_module_update unwinders process_unwinders]. rewrite <- Ha in Hd.
    edestruct (with_unwinder_kept pid (process_apply_module_update g size_of_info size_of_segment update) (follows g t pid) t' p k) as (p' & k' & Hrun & Hf).
    { apply (apply_update_follows g size_of_info size_of_segment t' (ti_wf _ Hi') pid t update (ti_wf _ Hi) Hd). }
    { destruct (unwinder_of pid p) as [u|] eqn:Hu; [by apply Hc|by apply follows_nil]. }
    { by apply (follow_others t t' pid p). }
    rewrite Hrun. exact Hf.
  - pose proof (apply_kernel_module_spec logged fails t s m Hi Hm Ho) as Hs. unfold TableOps.spec in Hs.
    destruct (apply_module m (t, s)) as [[update|e] [t' s']]; [|done]. destruct Hs as (_ & (Hoo & _ & Hk) & _).
    assert (omap (λ a, module_pid (a_module a)) (u_active update) = []) as ->.
    { clear -Hk. induction Hk as [|a active Hk _ IH]; [done|]. cbn. unfold module_pid at 1. by rewrite Hk. }
    intros pid u Hu. apply (follows_same g t t' pid u u); [|done|by apply Hc]. intros n Hn. by apply Hoo.
Qed.

Lemma record_module_kept m : mapping_ok m -> kept (record_module m).
Proof.
  intros Hm c [[sp Ht] Hf]. pose proof (record_module_emits logged fails sp m Hm c Ht) as He.
  pose proof (record_module_follows m c Hm (ot_inv _ _ _ Ht) Hf) as Hr. destruct (record_module m c) as [[[]|e] c']; [|done].
  destruct He as (es & _ & Ht'). by split; [eexists|].
Qed.

Lemma register_modules_kept snapshot : Forall (λ m, mapping_ok m /\ m_path m <> []) snapshot ->
  forall saw, kept (register_existing_modules snapshot saw).
Proof.
  induction 1 as [|m snapshot [Hm _] _ IH]; intros saw; cbn [register_existing_modules]; [by apply triple_ret|].
  eapply triple_bind; [by apply record_module_kept|]. intros ?. apply IH.
Qed.

(** *** An end *)

Lemma cleanup_modules_follows pid c : table_inv (cx_modules c).1 -> unwinders_follow c ->
  match cleanup_process_modules pid c with
  | (Ok _, c') => unwinders_follow c' /\ forall o n, owned_by (cx_modules c').1 o n <-> owned_by (cx_modules c).1 o n /\ o <> Process pid
  | (Err _, _) => True
  end.
Proof.
  intros Hi Hc. destruct c as [p k [t s] summary actions]. unfold unwinders_follow in Hc. cbn [cx_modules cx_processes fst] in *.
  unfold cleanup_process_modules, mbind, io_mbind, on_modules, io_zoom. cbn [cx_modules].
  pose proof (deactivate_process_spec logged fails pid t s Hi) as Hs. unfold TableOps.spec in Hs.
  destruct (deactivate_process_modules pid (t, s)) as [[ids|e] [t' s']]; [|done]. destruct Hs as (_ & Hd & _).
  cbn. split; [|done]. intros pid' u. unfold unwinder_of. cbn. destruct (decide (pid = pid')) as [<-|Hne].
  - rewrite lookup_alter_eq. by destruct (pt_states p !! pid).
  - rewrite lookup_alter_ne by done. intros Hu. apply (follows_same g t t' pid' u u); [|done|by apply Hc].
    intros n Hn. apply Hd. split; [done|congruence].
Qed.

(** What is known of the table after an end. *)
Lemma cleanup_modules_triple pid (T T' : ModuleTable -> Prop) :
  (forall t t', T t -> (forall o n, owned_by t' o n <-> owned_by t o n /\ o <> Process pid) -> T' t') ->
  triple (λ c, in_order c /\ T (cx_modules c).1) (cleanup_process_modules pid) (λ _ c, in_order c /\ T' (cx_modules c).1).
Proof.
  intros HT c [[[sp Ht] Hf] Hc]. pose proof (cleanup_modules_emits logged fails sp pid c Ht) as He.
  pose proof (cleanup_modules_follows pid c (ot_inv _ _ _ Ht) Hf) as Hr. destruct (cleanup_process_modules pid c) as [[[]|e] c']; [|done].
  destruct He as (es & _ & Ht'). destruct Hr as [Hf' Ho]. split; [by split; [eexists|]|]. by eapply HT.
Qed.
Lemma cleanup_modules_kept pid : kept (cleanup_process_modules pid).
Proof. eapply triple_weaken; [apply (cleanup_modules_triple pid (λ _, True) (λ _, True)); done| |]; [done|]. by intros a c []. Qed.

Lemma cleanup_triple pid (T T' : ModuleTable -> Prop) :
  (forall t t', T t -> (forall o n, owned_by t' o n <-> owned_by t o n /\ o <> Process pid) -> T' t') ->
  triple (λ c, in_order c /\ T (cx_modules c).1) (cleanup_process pid) (λ _ c, in_order c /\ T' (cx_modules c).1).
Proof.
  intros HT c Hc. pose proof (cleanup_modules_triple pid T T' HT c Hc) as Hr. unfold cleanup_process.
  destruct (cleanup_process_modules pid c) as [[[]|e] c1]; cbn; [|done]. destruct Hr as [[[sp Ht] Hf] HT']. split; [|done]. split.
  - exists sp. by eapply same_modules_on_track; [|exact Ht].
  - intros pid' u. unfold unwinder_of. cbn. destruct (decide (pid = pid')) as [<-|Hne]; [by rewrite lookup_delete_eq|].
    rewrite lookup_delete_ne by done. apply Hf.
Qed.
Lemma cleanup_kept pid : kept (cleanup_process pid).
Proof. eapply triple_weaken; [apply (cleanup_triple pid (λ _, True) (λ _, True)); done| |]; [done|]. by intros a c []. Qed.

(** *** A fork *)

Definition no_mappings (pid : Z) t : Prop := forall n, ~ owned_by t (Process pid) n.

Lemma no_mappings_set pid t : table_wf t -> no_mappings pid t -> active_by_process t !! pid = None.
Proof.
  intros Hwf Hno. destruct (active_by_process t !! pid) as [ids|] eqn:Hids; [|done]. exfalso.
  destruct (set_choose_L ids (tw_process_ne _ Hwf _ _ Hids)) as [[start id] Hin].
  pose proof (tw_process _ Hwf pid start id) as Hp. unfold process_set in Hp. rewrite Hids in Hp.
  apply Hp in Hin as (n & Hn & Ho & _). destruct (tw_id _ Hwf _ _ Hn) as [Hid _]. apply (Hno n). split; [by rewrite Hid|done].
Qed.

(** A child without mappings gets copies of its parent's, which its parent's tables fit. *)
Lemma clone_follows ppid pid t s u : table_inv t -> ppid <> pid -> no_mappings pid t -> follows g t ppid u ->
  spec logged fails (clone_process_modules ppid pid) t s (λ cloned t', c_inherited_unwinder_layout cloned = true /\
    (forall a, a ∈ u_active (c_update cloned) -> owned_by t' (Process pid) (a_module a)) /\ follows g t' pid u).
Proof.
  intros Hi Hne Hno Hu. pose proof (ti_wf _ Hi) as Hwf. unfold clone_process_modules.
  destruct (Pid_try_from_i32 pid) as [c|] eqn:Hc.
  2: { unfold TableOps.spec, mbind, io_mbind, io_lift. cbn. split; [done|]. by right; left. }
  apply Pid_new_spec in Hc as [-> Hpid]. eapply spec_lift; [done|]. apply spec_table. cbn zeta.
  rewrite (no_mappings_set c t Hwf Hno), bool_decide_eq_false_2 by (by intros []). eapply spec_bind.
  { apply (clone_copies_spec logged fails ppid c Hpid Hne); [done|by apply process_ids_nodup|].
    intros id Hid. apply process_ids_owned in Hid as (n & <- & Hn); [|done]. exists n. split; [done|]. split; [done|]. intros _.
    split; [apply (tw_range _ Hwf _ _ (proj1 Hn))|]. intros i k Hk Hko _. exfalso. apply (Hno k).
    change (Process c) with (m_owner (inherit c n)). rewrite <- Hko. by eapply owned_active. }
  intros update t' s' Hi' (_ & _ & Hcopy & Hact); cbn beta. apply spec_ret; [done|]. split; [done|]. split.
  - intros a Ha. by apply Hact in Ha as [?%elem_of_nil|Ha].
  - split; [apply (fl_laid_out _ _ _ _ Hu)|]. intros m Hm. destruct (fl_mapped _ _ _ _ Hu m Hm) as (n & Hn & Hin).
    destruct (Hcopy n Hn) as (k & Hk & Heq); [by apply process_ids_owned; [|exists n]|]. exists k. split; [done|]. rewrite Heq. by apply installed_copy.
Qed.

(** What is known between the start of a fork and the clone, and after it. *)
Definition forking (pid ppid : Z) u t : Prop := no_mappings pid t /\ follows g t ppid u.
Definition forked (pid : Z) u (cloned : ClonedProcessModules) t : Prop :=
  c_inherited_unwinder_layout cloned = true /\
  (forall a, a ∈ u_active (c_update cloned) -> owned_by t (Process pid) (a_module a)) /\ follows g t pid u.

Lemma clone_triple pid ppid u : ppid <> pid ->
  triple (λ c, in_order c /\ forking pid ppid u (cx_modules c).1) (on_modules (clone_process_modules ppid pid))
    (λ cloned c, in_order c /\ forked pid u cloned (cx_modules c).1).
Proof.
  intros Hne c [[[sp Ht] Hf] [Hno Hu]]. pose proof (ot_inv _ _ _ Ht) as Hi.
  assert (emits logged sp (on_modules (clone_process_modules ppid pid) : io ctx _) (λ es _, es = [Fork ppid pid] /\ True)) as He.
  { apply (emits_modules logged fails sp _ [Fork ppid pid] (λ _, True)). intros t s Hit Hr.
    eapply spec_impl; [by apply (clone_process_spec logged fails ppid pid)|]. intros cloned t' [Hoo Hh]. split; [|done]. by apply (represents_fork t). }
  specialize (He c Ht). revert He. destruct c as [p k [t s] summary actions]. unfold unwinders_follow in Hf.
  cbn [cx_modules cx_processes fst] in *. unfold on_modules, io_zoom. cbn [cx_modules].
  pose proof (clone_process_spec logged fails ppid pid t s Hi Hne) as Hs. unfold TableOps.spec in Hs.
  pose proof (clone_follows ppid pid t s u Hi Hne Hno Hu) as Hs'. unfold TableOps.spec in Hs'.
  destruct (clone_process_modules ppid pid (t, s)) as [[cloned|e] [t' s']]; [|done].
  destruct Hs as (_ & (Hoo & _) & _), Hs' as (_ & Hfk & _). intros (es & _ & Ht'). cbn. split; [|done]. split; [by eexists|].
  intros pid' u' Hu'. cbn in *. apply (follows_same g t t' pid' u' u'); [|done|by apply Hf]. intros n Hn.
  destruct (decide (pid' = pid)) as [->|Hd]; [by destruct (Hno n)|]. apply Hoo; [congruence|done].
Qed.

(** The last steps of a fork. *)
Lemma fork_install_kept pid inheritance cloned action :
  triple (λ c, in_order c /\ forked pid (fi_unwinder inheritance) cloned (cx_modules c).1)
    (update_processes (install_fork_inheritance pid inheritance);; on_processes (apply_fork_module_update pid cloned);; push_action action) (λ _, in_order).
Proof.
  intros c [[[sp Ht] Hf] (Hl & Ha & Hu)]. destruct c as [p k [t s] summary actions]. unfold unwinders_follow in Hf.
  cbn [cx_modules cx_processes fst] in *. unfold update_processes, on_table, mbind, io_mbind, on_processes, io_zoom, io_modify, apply_fork_module_update.
  cbn [cx_processes cx_kernel fst snd]. rewrite Hl. cbn [pu_reuse_inherited_modules unwinders process_unwinders].
  set (p1 := install_fork_inheritance pid inheritance p).
  assert (unwinder_of pid p1 = Some (fi_unwinder inheritance)) as Hp1.
  { unfold unwinder_of, p1, install_fork_inheritance, state_mut. cbn. by rewrite lookup_insert_eq. }
  edestruct (with_unwinder_kept pid (reuse_inherited_modules g size_of_info size_of_segment (c_update cloned)) (follows g t pid) t p1 k)
    as (p2 & k2 & Hrun & Hf2).
  { apply reuse_inherited_follows; [apply (ti_wf _ (ot_inv _ _ _ Ht))|done]. }
  { by rewrite Hp1. }
  { intros pid' u' Hne. unfold unwinder_of, p1, install_fork_inheritance, state_mut. cbn. rewrite lookup_insert_ne by done. apply Hf. }
  rewrite Hrun. split; [exists sp; by eapply same_modules_on_track; [|exact Ht]|exact Hf2].
Qed.

(** A step that the table does not notice, with what is known of the table. *)
Lemma aside_bind {A B} (m : io ctx A) (T : ModuleTable -> Prop) (f : A -> io ctx B) Q : quiet logged m (λ _, True) -> still m ->
  (forall a, triple (λ c, in_order c /\ T (cx_modules c).1) (f a) Q) -> triple (λ c, in_order c /\ T (cx_modules c).1) (m ≫= f) Q.
Proof.
  intros Hq Hs Hf. eapply triple_bind; [by apply triple_still|]. intros a. eapply triple_weaken; [apply Hf| |]; [|done]. by intros c [? _].
Qed.

Lemma forking_end pid ppid u t t' : ppid <> pid -> (forall o n, owned_by t' o n <-> owned_by t o n /\ o <> Process pid) ->
  forking pid ppid u t -> forking pid ppid u t'.
Proof.
  intros Hne Ho [_ Hu]. split; [by intros n [_ ?]%Ho|]. apply (follows_same g t t' ppid u u); [|done|done].
  intros n Hn. apply Ho. split; [done|congruence].
Qed.

Lemma handle_fork_kept inherit_child_processes timestamp_ns task parent_task :
  ta_pid task <> ta_pid parent_task ->
  triple (λ c, in_order c /\ no_mappings (ta_pid task) (cx_modules c).1)
    (handle_fork inherit_child_processes timestamp_ns task parent_task) (λ _, in_order).
Proof.
  intros Hne. unfold handle_fork. destruct (negb inherit_child_processes); [apply triple_ret; by intros c []|].
  destruct (i32_try_from (ta_pid task)) as [pid|] eqn:Hpid; [|apply triple_ret; by intros c []].
  destruct (i32_try_from (ta_pid parent_task)) as [ppid|] eqn:Hppid; [|apply triple_ret; by intros c []].
  apply i32_try_from_Some in Hpid, Hppid. rewrite <- Hpid, <- Hppid in *. clear Hpid Hppid. assert (ppid <> pid) as Hd by congruence.
  intros c [Hc Hno]. assert (get_processes c = (Ok (cx_processes c), c)) as Hg by by destruct c. rewrite (io_bind_ok _ _ _ _ _ Hg). cbn zeta.
  assert (follows g (cx_modules c).1 ppid (fi_unwinder (snapshot_for_fork ppid (cx_processes c)))) as Hu.
  { unfold snapshot_for_fork. destruct (pt_states (cx_processes c) !! ppid) as [state|] eqn:Hs; [|by apply follows_nil].
    cbn [fi_unwinder]. destruct (ps_unwinder state) as [u|] eqn:Hsu; [|by apply follows_nil].
    apply (follows_same g (cx_modules c).1 _ ppid u); [done|done|]. apply (io_follow _ Hc). unfold unwinder_of. by rewrite Hs. }
  revert Hu. generalize (snapshot_for_fork ppid (cx_processes c)) as inheritance. intros inheritance Hu.
  set (T := forking pid ppid (fi_unwinder inheritance)). assert (in_order c /\ T (cx_modules c).1) as HT by done.
  match goal with |- match ?m c with _ => _ end => cut (triple (λ c, in_order c /\ T (cx_modules c).1) m (λ _, in_order)); [intros Hm; exact (Hm c HT)|] end.
  clear c Hc Hno Hg Hu HT. apply aside_bind; [apply quiet_on_processes|apply still_processes, calm_stale|]. intros stale.
  eapply (triple_bind _ _ _ (λ _ c, in_order c /\ T (cx_modules c).1)).
  { destruct (default false stale); [|by apply triple_ret]. apply aside_bind; [by eapply quiet_end_python|apply still_end_python|]. intros ?.
    eapply triple_bind; [apply (cleanup_triple pid T T); intros t t' HT Ho; by apply (forking_end pid ppid _ t)|]. intros ?.
    eapply triple_weaken; [apply (triple_still _ (λ _, True) T); [apply quiet_push|apply still_push]| |]; [done|]. by intros ? ? [? _]. }
  intros ?. apply aside_bind; [apply quiet_on_processes|apply still_processes, calm_ensure|]. intros ?.
  apply aside_bind; [destruct (fi_python_runtime inheritance); [by eapply quiet_mark|by apply quiet_ret]|destruct (fi_python_runtime inheritance); [apply still_mark|step_walk]|].
  intros ?. eapply triple_bind; [by apply clone_triple|]. intros cloned. apply fork_install_kept.
Qed.

(** *** Every call *)

Lemma still_kept {A B} (m : io ctx A) (f : A -> io ctx B) Q : quiet logged m (λ _, True) -> still m ->
  (forall a, triple in_order (f a) Q) -> triple in_order (m ≫= f) Q.
Proof. intros Hq Hs Hf. by apply (still_bind m (λ _, True)). Qed.
Lemma still_last {A} (m : io ctx A) : quiet logged m (λ _, True) -> still m -> kept m.
Proof. intros Hq Hs. eapply triple_weaken; [by apply kept_still|done|]. by intros ? ? [? _]. Qed.
Lemma update_kept f : (forall p, ordinary_kept p (f p)) -> kept (update_processes f).
Proof. intros Hf. apply still_last; [apply quiet_update|by apply still_update]. Qed.
Lemma mark_if_kept condition timestamp_ns pid : kept (mark_if condition timestamp_ns pid).
Proof. apply still_last; [by eapply quiet_mark_if|apply still_mark_if]. Qed.
Lemma fail_kept {A} e (P : ctx -> Prop) (Q : A -> ctx -> Prop) : triple P (io_fail e) Q.
Proof. by intros c _. Qed.

Lemma handle_comm_kept timestamp_ns task by_execve comm : kept (handle_comm timestamp_ns task by_execve comm).
Proof.
  unfold handle_comm. destruct (i32_try_from (ta_pid task)) as [pid|]; [|by apply triple_ret].
  apply still_kept; [apply quiet_on_processes|apply still_processes, calm_tracked|]. intros r.
  apply still_kept; [apply quiet_state_of|apply still_state_of|]. intros state.
  apply still_kept.
  { destruct (match r with SOk _ => _ | SErr _ => _ end); [|by apply quiet_ret]. destruct (state ≫= ps_image); [|by apply quiet_ret].
    case_bool_decide; [|by apply quiet_ret]. eapply quiet_bind; [apply quiet_on_processes|]. intros ? _. by apply quiet_ret. }
  { destruct (match r with SOk _ => _ | SErr _ => _ end); step_walk. destruct (state ≫= ps_image); step_walk.
    case_bool_decide; step_walk. apply still_processes, calm_tracked. }
  intros identity_changed. destruct (negb by_execve && negb identity_changed); [by apply triple_ret|].
  eapply triple_bind; [apply cleanup_modules_kept|]. intros ?. eapply triple_bind; [apply update_kept; intros p; by apply kept_alter|]. intros ?.
  apply still_kept; [by eapply quiet_end_python|apply still_end_python|]. intros ?. apply update_kept. intros p. by apply kept_mut.
Qed.

Lemma triple_drop {A} (m : io ctx A) (P T : ctx -> Prop) Q : triple P m Q -> triple (λ c, P c /\ T c) m Q.
Proof. intros Hm c [HP _]. by apply Hm. Qed.

(** A fork finds no mappings of the child. *)
Definition fork_fits (call : recorder_call) c : Prop :=
  match call with
  | CallRecord _ _ _ (LifeFork task parent_task) => ta_pid task <> ta_pid parent_task -> no_mappings (ta_pid task) (cx_modules c).1
  | _ => True
  end.

Lemma record_kept inherit_child_processes timestamp_ns privilege record : record_ok privilege record ->
  triple (λ c, in_order c /\ fork_fits (CallRecord inherit_child_processes timestamp_ns privilege record) c)
    (handle_non_sample_record inherit_child_processes timestamp_ns privilege record) (λ _, in_order).
Proof.
  intros Hok. destruct record as [mmap|task parent_task|task by_execve comm|task| |lost_samples| ]; cbn [handle_non_sample_record fork_fits];
    lazymatch goal with |- context [handle_fork] => idtac | _ => apply triple_drop end.
  - cbn in Hok. unfold record_mmap. eapply triple_bind; [destruct (mmap_module mmap privilege); [by apply record_module_kept, Hok|by apply triple_ret]|].
    intros ?. apply still_last; [by eapply quiet_python_mmap|apply still_python_mmap].
  - case_bool_decide as Hne.
    + intros c [Hc Hno]. apply (handle_fork_kept inherit_child_processes timestamp_ns task parent_task Hne c). split; [done|by apply Hno].
    + apply triple_drop. case_bool_decide; [|by apply triple_ret].
      apply still_last; [apply quiet_push|apply still_push].
  - case_bool_decide; [apply handle_comm_kept|by apply triple_ret].
  - apply still_last; [apply quiet_push|apply still_push].
  - by apply triple_ret.
  - apply still_kept; [apply quiet_gets|step_walk|]. intros summary. destruct (checked_loss_sum _ _) as [n|e]; [|apply (fail_kept e)].
    eapply (triple_bind _ _ _ (λ _, in_order)); [by apply (triple_ret n)|]. intros lost. apply still_last; [by apply (quiet_same logged _ (λ _, True))|apply still_summary].
  - by apply triple_ret.
Qed.

Context (maps_sane : forall pid k maps, (k_read (proc_path pid "maps") k).1 = SOk maps -> Forall region_sane (parse_iter maps)).

Lemma register_maps_kept pid maps : listed maps -> kept (register_existing_maps_snapshot pid maps).
Proof. intros Hl. apply register_modules_kept, maps_modules_ok. by eapply listed_sane. Qed.

Lemma keep_identity_kept pid (current : option ProcessImageIdentity) :
  kept (match current with Some identity => update_processes (state_mut pid (set_image (Some identity))) | None => mret tt end).
Proof. destruct current; [apply update_kept; intros ?; by apply kept_mut|by apply triple_ret]. Qed.

Lemma reconcile_kept pid timestamp_ns current maps : (forall m, maps = SOk m -> listed m) -> kept (reconcile_with pid timestamp_ns current maps).
Proof.
  intros Hl. unfold reconcile_with. destruct maps as [maps|e].
  2: { destruct (is_target_gone_io e); [|destruct (is_access_denied_io e); [|apply fail_kept]];
         (eapply triple_bind; [apply update_kept; intros ?; first [by apply kept_alter|by apply kept_mut]|]); intros ?; by apply triple_ret. }
  case_bool_decide; [by apply triple_ret|]. apply still_kept; [apply quiet_state_of|apply still_state_of|]. intros state.
  eapply (triple_bind _ _ _ (λ _, in_order)).
  { intros c Hc. unfold on_modules, io_zoom, ModuleTable.table, io_gets. destruct c as [p k [t s] summary actions]. exact Hc. }
  intros t. apply (triple_bind _ _ _ (λ _, in_order)).
  { destruct (match current with None => true | Some _ => _ end); [|by apply triple_ret]. destruct (process_modules_match _ _ _) as [b|e]; [by apply (triple_ret b)|apply (fail_kept e)]. }
  intros [|]; [eapply triple_bind; [apply keep_identity_kept|]; intros ?; by apply triple_ret|].
  eapply triple_bind; [apply cleanup_modules_kept|]. intros ?. eapply triple_bind; [apply update_kept; intros ?; by apply kept_alter|]. intros ?.
  apply still_kept; [by eapply quiet_end_python|apply still_end_python|]. intros ?.
  eapply triple_bind; [apply register_modules_kept, maps_modules_ok; eapply listed_sane; [done|by apply Hl]|]. intros saw.
  apply still_kept; [destruct saw; [by eapply quiet_perf_support|by apply quiet_ret]|destruct saw; [apply still_perf_support|step_walk]|]. intros should_mark.
  eapply triple_bind; [apply update_kept; intros ?; by apply kept_mut|]. intros ?. eapply triple_bind; [apply keep_identity_kept|]. intros ?.
  eapply triple_bind; [apply mark_if_kept|]. intros ?. by apply triple_ret.
Qed.

Lemma reconcile_process_kept pid timestamp_ns : kept (reconcile_process_image pid timestamp_ns).
Proof.
  unfold reconcile_process_image. destruct (i32_try_from pid) as [n|]; [|by apply triple_ret].
  apply still_kept; [apply quiet_on_processes|apply still_processes, calm_tracked|]. intros r.
  eapply still_bind; [by eapply quiet_read_tracked|apply still_processes, calm_tracked|]. intros maps Hmaps. by apply reconcile_kept.
Qed.

Lemma descendant_kept child parent timestamp_ns : kept (register_recovered_descendant child parent timestamp_ns).
Proof.
  unfold register_recovered_descendant. destruct (Pid_new child) as [child_pid|]; [|by apply triple_ret].
  apply still_kept; [apply quiet_on_processes|apply still_processes, calm_open|]. intros process.
  eapply (still_bind _ (λ r, forall maps, r.1 = SOk maps -> listed maps)).
  { apply quiet_processes. intros [p k] [r h]. pose proof (read_checked_value read_existing_maps process k) as Hv.
    destruct (read_checked read_existing_maps (process, k)) as [r' [h' k']]. intros [= <- <-] maps Heq. exists (ph_pid process), k. by apply Hv. }
  { apply still_processes. intros [p k]. destruct (read_checked read_existing_maps (process, k)) as [r [h k']]. cbn. reflexivity. }
  intros [[maps|e] process'] Hmaps; cbn [fst] in Hmaps.
  - apply still_kept; [apply quiet_on_processes|apply still_processes, calm_track|]. intros ?.
    apply still_kept; [by eapply quiet_perf_support|apply still_perf_support|]. intros support.
    eapply triple_bind; [by apply register_maps_kept, Hmaps|]. intros saw. eapply triple_bind; [apply mark_if_kept|]. intros ?. by apply triple_ret.
  - destruct (is_target_gone_io e); [by apply triple_ret|]. destruct (is_access_denied_io e); [|apply fail_kept].
    apply still_kept; [apply quiet_get_processes|apply still_processes; unfold processes; step_walk|]. intros p.
    apply still_kept; [destruct (_ !! _); [apply quiet_on_processes|by apply quiet_ret]| |].
    { destruct (_ !! _); step_walk. apply still_processes. intros [p' k]. destruct (has_exited _) as [r [h k']]. by apply kept_states. }
    intros warned. eapply (triple_bind _ _ _ (λ _, in_order)); [|intros ?; by apply triple_ret].
    destruct warned; [by apply triple_ret|]. apply update_kept. intros ?. by apply kept_states.
Qed.

Lemma covers_kept pid pc : kept (on_modules (table_covers_user_pc pid pc)).
Proof.
  intros c [[sp Ht] Hf]. assert (quiet logged (on_modules (table_covers_user_pc pid pc) : io ctx _) (λ _, True)) as Hq by by eapply covers_quiet.
  specialize (Hq sp c Ht). revert Hq. pose proof (ti_wf _ (ot_inv _ _ _ Ht)) as Hwf. destruct c as [p k [t s] summary actions].
  unfold unwinders_follow in Hf. cbn [cx_modules cx_processes fst] in *. destruct (rebuild_index_ok t Hwf) as (t' & Hreb & _ & Hsame & _).
  unfold on_modules, io_zoom, table_covers_user_pc, mbind, io_mbind, ModuleTable.table, io_gets, covers_user_pc. cbn [cx_modules fst snd]. rewrite Hreb.
  cbn. intros (es & _ & Ht'). split; [by eexists|]. intros pid' u Hu. apply (follows_same g t t' pid' u u); [|done|by apply Hf].
  intros n Hn. by apply (same_modules_owned t).
Qed.

(** The page of an address is noted in the unwinder of the process. *)
Lemma note_page_kept pid u p : unwinder_of pid p = None /\ pu_ordinary u = [] \/
    (exists u0, unwinder_of pid p = Some u0 /\ pu_ordinary u = pu_ordinary u0) ->
  ordinary_kept p (state_mut pid (set_unwinder (Some u)) p).
Proof.
  intros Hu pid' u'. unfold unwinder_of at 1, state_mut. cbn. destruct (decide (pid = pid')) as [<-|Hne].
  - rewrite lookup_insert_eq. cbn. intros [= <-]. destruct Hu as [[_ ?]|(u0 & ? & ?)]; [by left|right; by exists u0].
  - rewrite lookup_insert_ne by done. intros Hu'. right. by exists u'.
Qed.

Lemma refresh_kept pid timestamp_ns pc : kept (refresh_maps_for_uncovered_user_pc pid timestamp_ns pc).
Proof.
  unfold refresh_maps_for_uncovered_user_pc. destruct (if 0 <=? pid then pc else None) as [pc'|]; [|by apply triple_ret].
  eapply triple_bind; [apply covers_kept|]. intros [|]; [by apply triple_ret|]. intros c Hc.
  assert (get_processes c = (Ok (cx_processes c), c)) as Hg by by destruct c. rewrite (io_bind_ok _ _ _ _ _ Hg). cbn zeta.
  set (u0 := default pu_default _). destruct (pu_should_refresh_for_uncovered_pc pc' u0) as [refresh u] eqn:Hr.
  assert (pu_ordinary u = pu_ordinary u0) as Hu by (cbn in Hr; unfold should_refresh_for_uncovered_pc in Hr; by injection Hr as <- <-).
  set (f := state_mut pid (set_unwinder (Some u))). assert (ordinary_kept (cx_processes c) (f (cx_processes c))) as Hk.
  { apply note_page_kept. unfold unwinder_of. unfold u0 in Hu. destruct (pt_states (cx_processes c) !! pid) as [state|]; [|by left].
    cbn in Hu |- *. destruct (ps_unwinder state) as [u1|]; [right; by exists u1|by left]. }
  set (c1 := mkCtx (f (cx_processes c)) (cx_kernel c) (cx_modules c) (cx_summary c) (cx_actions c)).
  assert (update_processes f c = (Ok tt, c1)) as Hup by done. rewrite (io_bind_ok _ _ _ _ _ Hup). assert (in_order c1) as Hc1.
  { destruct Hc as [[sp Ht] Hf]. split; [exists sp; by eapply same_modules_on_track; [|exact Ht]|]. by apply (follow_kept c). }
  match goal with |- match ?m c1 with _ => _ end => cut (kept m); [intros Hm; exact (Hm c1 Hc1)|] end.
  destruct refresh; [|by apply triple_ret]. cbn [negb].
  eapply still_bind; [by eapply quiet_read_process|apply still_processes, calm_process|]. intros [maps|e] Hmaps.
  - eapply triple_bind; [by apply register_maps_kept, Hmaps|]. intros [|]; [|by apply triple_ret].
    apply still_kept; [by eapply quiet_perf_support|apply still_perf_support|]. intros support. apply mark_if_kept.
  - destruct (is_target_gone_io e); [by apply triple_ret|]. destruct (is_access_denied_io e); [|apply fail_kept].
    apply update_kept. intros ?. by apply kept_mut.
Qed.

Lemma run_call_kept call : call_ok call -> triple (λ c, in_order c /\ fork_fits call c) (run_call call) (λ _, in_order).
Proof.
  intros Hok. destruct call as [inherit_child_processes ts privilege record|ts pid|pid ts|child parent ts|pid ts pc]; [by apply record_kept|..];
    apply triple_drop; cbn [run_call].
  - apply still_kept; [by eapply quiet_end_python|apply still_end_python|]. intros ?. apply cleanup_kept.
  - eapply triple_bind; [apply reconcile_process_kept|]. intros ?. by apply triple_ret.
  - eapply triple_bind; [apply descendant_kept|]. intros ?. by apply triple_ret.
  - apply refresh_kept.
Qed.

(** Each fork of a run finds no mappings of its child. *)
Fixpoint forks_fit (calls : list recorder_call) c : Prop :=
  match calls with [] => True | call :: calls => fork_fits call c /\ forks_fit calls (run_call call c).2 end.

Lemma run_calls_kept calls : Forall call_ok calls -> forall c, in_order c -> forks_fit calls c ->
  match run_calls calls c with (Ok _, c') => in_order c' | (Err _, _) => True end.
Proof.
  induction 1 as [|call calls Hok _ IH]; intros c Hc Hfit; cbn [run_calls]; [done|]. destruct Hfit as [Hfork Hfit].
  pose proof (run_call_kept call Hok c (conj Hc Hfork)) as Hk. unfold mbind, io_mbind. destruct (run_call call c) as [[[]|e] c']; [|done].
  by apply IH.
Qed.

End context.

(** ** A host with one process *)

#[local] Existing Instances host_kernel host_order host_sink host_log.
(** Every file has one loadable segment, and no search table parses. *)
Definition tables_sections : ElfSectionInfo :=
  ElfImages.mkSectionInfo (mkLayout 0 None None [mkSegment 0 32768 32768 0 5]) None None (Some (section_owned 7 [1; 2; 3])) None None None.
Definition tables_world : World :=
  ElfCache.mkWorld (Some (mkOpened (sample_metadata 2) (Some tables_sections) (mkImage 100 1))) None false None (λ _, None) 4096.
#[local] Instance host_files : ElfFiles unit := λ _ k, (tables_world, k).
#[local] Instance host_hdr : HdrReader := λ _ _ _, None.
#[local] Instance tables_of_host : ProcessUnwinders unit ProcessUnwinder CacheState := unwinders example_gimli 312 40 4096.
#[local] Abbreviation host_ctx := (EventContext (K := unit) (U := ProcessUnwinder) (E := CacheState) (S := log_modules)).

Definition tables_start : host_ctx :=
  mkCtx (mkProcesses {[7 := ProcessTable.mkState (Some (mkHandle 7 (Some (mkWatcher 3 false)) None)) None None None false false None]} (cache_start false false) ∅)
    tt (table_default, []) (mkRecording 0 0 true 0 0) [].
Lemma tables_start_in_order : in_order example_gimli eq tables_start.
Proof.
  split.
  - exists (λ _ _, None). split; [apply table_default_inv|apply represents_default|]. exists []. split; [done|apply agree_default].
  - intros pid u. unfold unwinder_of. cbn. destruct (decide (pid = 7)) as [->|Hne]; [by rewrite lookup_singleton_eq|].
    by rewrite lookup_singleton_ne.
Qed.

Lemma no_mappings_check pid t : map_Forall (λ _ n, m_owner n <> Process pid) (active t) -> no_mappings pid t.
Proof. intros Hall n [Hn Ho]. by apply (Hall _ _ Hn). Qed.

(** A library is mapped, the process forks, and the parent exits. *)
Definition tables_calls : list recorder_call :=
  [CallRecord true 10 PrivUser (LifeMmap (mkMmap (mkTask 7 7) true 40960 8192 0 (chars "/lib/a") None));
   CallRecord true 20 PrivUser (LifeFork (mkTask 8 8) (mkTask 7 7));
   CallRetire 40 7].
Definition tables_end : host_ctx := (run_calls tables_calls tables_start).2.
Definition child_unwinder : ProcessUnwinder := default process_unwinder_default (unwinder_of 8 (cx_processes tables_end)).


(** When the child already has mappings, the combined update of a fork activates
    fragments that a later mapping of the parent retires.  They are installed
    again, and one stays when the mapping in its place has no image: address
    0x5000 of process 8 is in the anonymous mapping, and its unwinder has a
    module of [/lib/a] there. *)
Definition stale_calls : list recorder_call :=
  [CallRecord true 10 PrivUser (LifeMmap (mkMmap (mkTask 8 8) true 4096 32768 0 (chars "/lib/a") None));
   CallRecord true 20 PrivUser (LifeMmap (mkMmap (mkTask 7 7) true 8192 8192 0 (chars "/lib/b") None));
   CallRecord true 30 PrivUser (LifeMmap (mkMmap (mkTask 7 7) true 16384 8192 0 (chars "[anon]") None));
   CallRecord true 40 PrivUser (LifeFork (mkTask 8 8) (mkTask 7 7))].
Definition stale_end : host_ctx := (run_calls stale_calls tables_start).2.

Example stale_fragment_stays_after_fork :
  (run_calls stale_calls tables_start).1 = Ok tt /\
  (λ u, (λ m, (um_start m, um_end m)) <$> pu_ordinary u) <$> unwinder_of 8 (cx_processes stale_end) =
    Some [(4096, 8192); (8192, 16384); (16384, 36864); (24576, 36864)] /\
  (λ n, (m_owner n, m_start n, m_end n, m_path n)) <$> (active (cx_modules stale_end).1 !! 7) = Some (Process 8, 16384, 24576, chars "[anon]") /\
  (λ '(f, _), f_module_id f) <$> resolve_frame 8 20480 User (cx_modules stale_end).1 = Some (Some 7).
Proof. split_and!; by vm_compute. Qed.
